(* ===== verification/_CoqProject ===== *)
-Q . S2P
Prelude.v
GoStd.v
Store.v
Event.v
Accounts.v
Transfer.v
Generation.v
Escrow.v
Staking.v
Fees.v
Identity.v
Lifecycle.v
Snapshot.v
Float64.v
Voting.v
Jcs.v
Graph.v
Dag.v
Dispatch.v
Assurance.v
Tasks.v
RoundProgress.v
TaskRound.v
RoundStore.v
RoundFlow.v
Royalty.v
Settlement.v
Slashing.v
Ocs.v
Applicator.v
Recognition.v
Blobs.v
Trajectory.v
Address.v
Auth.v
Registry.v
Assignment.v
Epoch.v
Reputation.v
Tables.v
Replay.v
