(* ===== verification/Prelude.v ===== *)
(** Verification of the AetherNet node (Go, src/).

    AetherNet is a node of a network of AI agents that trade tasks.  Agents sign
    events, the node keeps them in a causal graph, settles the value they move on
    two ledgers, and a validator set votes on what was delivered.  This library
    models the parts of the node that decide something and proves what makes
    them correct.

    * Architecture and files

    A signed event (internal/event, internal/crypto, internal/jcs) enters the
    graph (internal/dag), which calls its commit hook; the dispatcher
    (internal/dispatch) runs each consumer of an event once.  The consumers and the
    API move value with the ledgers (internal/ledger), through escrow, staking and
    fees.  The validator set (internal/validatorlifecycle) gives votes their
    weight and the voting round (internal/consensus) decides.  A task
    (internal/tasks) that is submitted opens a verification round
    (internal/taskverification); validators report their progress
    (internal/roundprogress) and vote, a deadline checker with a policy
    (internal/roundpolicy) ends the round, and its verdict is settled
    (internal/settlement): worker, validators, cited work and treasury share
    the escrowed budget, and validators are counted and slashed.

    - Prelude: machine integers ([u64], [i64]), option monad, sums over maps,
      tactics and hint databases.
    - GoStd: SHA-256, hex, big-endian integers, [sort.Slice] (executable).
    - Float64: float64 as correctly rounded rationals.
    - Store: the persistence interfaces as the class [Persistence] with its laws;
      [KeyedStore] satisfies them, [BrokenStore] always fails.
    - Event: event.go, the record [Event], settlement states, the Lamport clock.
    - Jcs: jcs.go, canonical bytes and IDs (event.go), signatures (signing.go).
    - Graph, Dag: dag.go; Graph has the two work-list loops.
    - Dispatch: internal/dispatch.
    - Accounts: the abstract specification of a ledger as exact accounts, and the
      class [BucketLedger] against which the clients are proved.
    - Transfer: transfer.go and its half of archival.go; it implements Accounts.
    - Generation: generation.go, its half of archival.go, supply.go.
    - Escrow, Staking, Fees: the three clients of the transfer ledger.
    - Identity: internal/identity.
    - Lifecycle, Snapshot: internal/validatorlifecycle (types and reducer;
      snapshots, eligibility and committees).
    - Voting: internal/consensus/voting.go.
    - Assurance: internal/assurance, fees and reserve of the assured lanes.
    - Tasks: internal/tasks.
    - RoundProgress: internal/roundprogress; TaskRound: rounds, votes and the
      finalizer of internal/taskverification; RoundStore: its BadgerDB store,
      proved to refine a map of rounds (class [RoundStore] with its laws).
    - RoundFlow: the deadline checker, internal/roundpolicy and the consumers of
      internal/recognition that open, vote on and finalize rounds, proved against
      the class of RoundStore.
    - Royalty, Settlement: internal/settlement and its exactly-once consumer,
      composed of Tasks, Escrow and the rounds.
    - Slashing: calibration, reputation, slashing and the consensus consumer.
    - Ocs: internal/ocs/engine.go (pending events, votes, expiry) and its consumers.
    - Recognition: internal/recognition, the index, the commit bus with its workers
      and the activation of deferred events.
    - Blobs: internal/blobstore and internal/blobsync, the content-addressed store with
      its subscriptions, the fetch engine, its hints and the transport.
    - Trajectory: internal/localpub and internal/trajectory, composed of the graph, the
      signatures, the tasks and the blob store.
    - Address: internal/crypto/address.go, bech32 addresses of keys.
    - Auth: internal/auth, signed requests and transactions, replay protection and the
      hourly limits.
    - Registry and Assignment: internal/validator, the registry of validators with
      probation and slashing; the draw of validators, clusters by agreement and the
      coordinator of assignments.
    - Epoch: internal/epoch, the counter of finalized rounds and its consumer.
    - Reputation: internal/reputation, the records of agents by category.
    - Tables: internal/store, the tables of the node in one database, and the
      instances of [Persistence] and [PersistenceLaws] for its typed tables.
    - Replay: internal/replay, jobs that run the checks of a task again, verdicts and
      their enforcement, composed of the tasks, the generation ledger and the registry.
    - Applicator: internal/settlement/applicator.go, composed of the ledgers, escrow,
      fees, stakes and the registry; the task settler and the finalization handler
      of cmd/node/main.go.

    * How code corresponds to definitions

    A struct is a Record, an operation a function from state to state and result;
    it has the name of the method with the prefix of its receiver ([tl_] transfer
    ledger, [gl_] generation ledger, [esc_], [sm_] stake manager, [fc_] fee
    collector, [reg_] registry, [dag_], [disp_], [vr_] voting round, [tm_] task manager, [rr_]
    replay reserve, [en_] settlement engine, [ap_] applicator, [pa_] progress aggregator, [dc_] deadline checker).  A method that
    holds the mutex for its whole body is one step; where a method releases it in
    between, its parts are separate definitions so that interleavings can be
    stated (Dispatch, [slash_plan] and [slash_apply] of Registry).  Where a property needs that operations do not
    overlap it says so, and an example shows what an overlap can do ([overlap_reopens_final],
    [replay_race], [late_slash_revives], [concurrent_outcomes]).  Unsigned and signed 64-bit integers are [Z], reduced by
    [u64] and [i64] after every operation that can leave the range.  Errors are
    values of an inductive type per package, [option] where the error carries no
    information that callers use.  A call that fails half way keeps the state it
    reached.  A loop over a Go map takes the order of iteration as an argument or
    from the class [RangeOrder], and theorems hold for every order.  Clock
    readings are arguments.

    Code outside src/ is a parameter: the store engine (class [Persistence]),
    JSON decoding ([JsonLib], [PayloadCodec], [FingerprintCodec], [ReplayJobJson]), Ed25519
    ([Ed25519]) and BLAKE3 ([DispatchLib]), BadgerDB ([Badger] with [BadgerLaws]), the
    JSON of rounds, payloads and records ([JsonOf], [RoundCodec], [ConsensusCodec],
    [ReputationCodec], [TaskCodec], [BudgetCodec], [StateCodec], [TrajectoryCodec], [BlobWire]),
    the file system ([Disk]) and the peers ([BlobFetcher], [EventDisseminator]), and the publisher of events
    ([ConsensusPublisher]).  The laws of JSON hold for strings that are UTF-8 only, since
    [encoding/json] replaces other bytes ([json_exact], [json_safe]).  A read of BadgerDB may fail;
    where a theorem needs that none does it says so ([BadgerReads]).  Every theorem with such a parameter has
    a witness over a concrete instance.

    * Theorems

    - Value.  The transfer ledger never overdraws an account and equals the exact
      accounts of Accounts as long as its callers keep their part ([tl_no_overdraft]); eviction and restart
      preserve every balance ([tl_restart_preserves_balances]); a settlement
      pays each party exactly once through retries
      ([esc_settlement_exactly_once]); the stake is backed by collateral
      ([sm_collateral_backed]); a fee is split without loss.
    - Events.  The canonical form is unique ([canonical_form_unique]), IDs are
      content addresses, signing round-trips, tampering is detected, up to the
      rounding of amounts to float64 ([rounded_amounts_unsigned]).
    - Graph.  The graph is closed, acyclic and its frontier exact
      ([dag_graph_invariant]); it refines a set of events ([dag_refines_spec]); the
      traversals end and compute the transitive closure; the topological sort
      ends, with the exact condition under which it succeeds; a restart
      reproduces the graph unless a forged ID was accepted ([dag_restart]).
    - Dispatch.  A consumer applies an event at most once in every sequence of
      steps ([dispatcher_applies_once]), and a delivery without a failure completes
      ([admit_completes]).
    - Recognition.  Under every schedule of the workers a pair of a consumer and an
      event is dispatched at most once ([bus_dispatches_once]), the map of
      prerequisites is exact ([deferred_index_exact]) and a worker finishes
      ([worker_terminates]); the index survives a restart ([index_restart]).
    - Validators and votes.  Seats stay well formed, excluded seats stay excluded,
      vote weight is bounded, only current keys vote, committees are bounded; a
      verdict needs a quorum, is final and finalized events are totally ordered.

    - Tasks and rounds.  A closed task stays closed unless its ID is posted again ([task_outcome_final]) and two
      nodes that see the same claims agree on the claimer; a round needs a quorum for a verdict ([verdict_needs_quorum]), no
      node accepts what another one rejects, a finalized round keeps its verdict and
      is announced at most once, and every round ends once its backstop has
      passed ([rounds_final_once], [rounds_resolve]).
    - Settlement.  What is paid for a task adds up to its budget, to the accounts that the
      verdict names ([settle_pays_budget]); royalties add up to their pool; a task is settled at most
      once however many verdict events arrive ([tv_settles_once]).  Slashing
      touches nobody who voted with the verdict, and each family is counted once.
    - Finalization.  The settlement engine hands a finalized vote over once
      ([ocs_finalized_once]), expires exactly the overdue events and keeps its
      pending events through a restart; a settlement is applied once through
      retries and restarts ([settlements_applied_once]), and nodes that apply the
      same settlements in any order agree on the balances ([settlements_converge]).

    - Blobs.  Whatever peers answer, a completed fetch stored the data that was asked
      for ([fetch_verified]); a blob is fetched by one worker at a time
      ([one_fetch_per_blob]), subscribers are woken, hints stay bounded.
    - Trajectories.  A commit is recorded for the claimer only ([commit_recorded]),
      within its limits ([commit_limits]), and is read back with its checkpoint
      ([commit_read_back]); the exploration root and the checkpoint hash bind what they
      summarise up to a collision of SHA-256 ([exploration_root_binds]).

    - Validator registry.  Records evolve in one direction ([validators_evolve]); a
      slash is exact ([slash_exact]); clusters are the components of the agreement
      graph ([clusters_exact]), a replay goes to somebody outside the verifier's
      cluster ([replay_executor_independent]), and the coordinator's loads are
      exact ([coordinator_books]).
    - Replay.  The verdict on a replay is exact ([replay_verdict_exact]), a submission is
      checked against its job ([submission_checked]), and an outcome is applied once
      ([replay_applied_once]).
    - The store.  The database refines a map per table ([store_refines_tables])
      and keeps the votes exactly ([stored_votes_exact]).
    - Clock and reputation.  A finalized round counts once, through restarts and
      crashes, and each epoch's goroutines are started at most once ([epochs_counted]); counts,
      averages and scores of agents are exact and in range ([reputations_exact]).
    - Requests.  A signed request is accepted once and a signed transaction executed
      once, cleanups included ([request_accepted_once], [tx_executed_once]); a
      signature stands for one request ([signature_binds_request]); the hourly
      limits are exact ([endpoint_allow_exact]).  Addresses and keys correspond one
      to one ([address_roundtrip]), and a wrong character is noticed
      ([address_typo_detected]).

    * Fuel and bounds

    The union-find of Assignment has the size of the forest plus one as its fuel, and
    a way up is no longer than the forest is large ([root_in_bound]).
    The loops of Graph run on fuel: [kahn_fuel] is the length of the queue plus the
    number of nodes with a positive degree, and the fuel of the traversals is the
    length of the queue plus the number of unvisited nodes.  Each step of the loops
    decreases that number ([kahn_terminates], [bfs_terminates]), so the results are
    never [None].  The traversal of cited work (Royalty) has the number of nodes of
    the citation tree to depth three as its fuel ([traverse_total]).  Every other loop is structural.  Intermediate values of
    float64 arithmetic stay in the normal range; the header of Float64 says why.

    * Not modelled

    - optimistic settlement: projection: registers the pending events as a
      projection.
    - settlement: projection: registers the applied set as a projection.
    - task verification: metrics and projections: counters and the registration of
      stores as projections.
    - round progress: transport and store: signing and sending of updates, the
      BadgerDB store of snapshots.
    - epoch counter: projection: the registration of the counter as a projection.
    - reputation: projection: the registration of the records as a projection.
    - rate limiting: token buckets on elapsed float64 seconds in front of the HTTP
      server.
    - recognition: graph adapter: reads the graph for the read model.
    - event projections: the registry of projections calls one probe per projection
      at start-up; the event bus is a channel fan-out.
    - protocol constants: constants.
    - peer network: sockets, framing, peer discovery and goroutines; the events it
      delivers enter the modelled graph and commit bus.
    - blob synchronisation: adapters: callbacks into the network node and the
      registration as a projection.
    - evidence scoring and verification services: heuristic scores of texts by
      keywords and calls of external tools; no invariant other parts rely on beyond
      the range of a score.
    - task router and webhooks: a heuristic score of agents for tasks; webhooks are
      HTTP calls.
    - automatic validator: a polling loop over the API of the modelled parts, for
      test networks.
    - API, marketplace server, wallet, platform keys, service registry: HTTP
      handlers and lookups over the modelled operations; glue.
    - configuration, genesis, metrics, demo, deployment: constants, start-up
      transfers, counters and cloud registration.
    - validator lifecycle: bootstrap and manifests: start-up files and event payload
      conversion around the modelled reducer.
    - dispatch: concrete consumers: instances of the Consumer parameter of Dispatch.
    - commands and SDK: wiring, command lines and an HTTP client. *)

From stdpp Require Import base tactics numbers strings gmap list fin_maps pretty sorting.
From stdpp Require Export base tactics numbers strings gmap list fin_maps pretty sorting.
From Stdlib Require Import Setoid Morphisms.

#[global] Open Scope Z_scope.

(** * Machine integers

    Go's [uint64] and [int64] are represented by [Z]; every arithmetic
    operation of the code is followed by the corresponding wrap. *)

Declare Scope go_scope.
Delimit Scope go_scope with go.

Definition u64_mod : Z := 18446744073709551616.
Definition MaxUint64 : Z := 18446744073709551615.

(** [uint64(z)]: reduction to [0, 2^64). *)
Definition u64 (z : Z) : Z := z mod u64_mod.

(** [int64(z)]: reduction to [-2^63, 2^63), two's complement. *)
Definition i64 (z : Z) : Z := (z + 9223372036854775808) mod u64_mod - 9223372036854775808.

Notation "x +u y" := (u64 (x + y)) (at level 50, left associativity) : go_scope.
Notation "x -u y" := (u64 (x - y)) (at level 50, left associativity) : go_scope.
Notation "x *u y" := (u64 (x * y)) (at level 40, left associativity) : go_scope.

Definition is_u64 (z : Z) : Prop := 0 <= z < u64_mod.
Definition is_i64 (z : Z) : Prop := - 9223372036854775808 <= z < 9223372036854775808.

#[global] Instance is_u64_dec z : Decision (is_u64 z).
Proof. unfold is_u64. apply _. Defined.

(** Congruence modulo 2^64: the equivalence under which wrapped sums are
    compared.  [u64] and [i64] respect it and are sections of it. *)
Definition eqm (a b : Z) : Prop := a mod u64_mod = b mod u64_mod.
Infix "≡64" := eqm (at level 70).

(** * Results

    A Go function that returns [error] (and may have mutated its receiver
    before it does) is a state transformer whose state survives the error. *)

Definition ST (S E A : Type) : Type := S → S * (E + A).

#[global] Instance st_ret {S E} : MRet (ST S E) := λ A a s, (s, inr a).
#[global] Instance st_bind {S E} : MBind (ST S E) := λ A B k m s,
  match m s with
  | (s', inl e) => (s', inl e)
  | (s', inr a) => k a s'
  end.

Definition st_throw {S E A} (e : E) : ST S E A := λ s, (s, inl e).
Definition st_get {S E} : ST S E S := λ s, (s, inr s).
Definition st_modify {S E} (f : S → S) : ST S E unit := λ s, (f s, inr tt).

(** * Range loops

    [for k, v := range m { total += f v }] on a [uint64] accumulator.  Go
    leaves the order of a map iteration open; [wrapped_sum_order] below shows
    that the value does not depend on it. *)
Definition wrapped_sum {K A} `{Countable K} (f : A → Z) (m : gmap K A) : Z :=
  map_fold (λ _ v acc, u64 (acc + f v)) 0 m.

(** The same sum over the integers. *)
Definition map_sum {K A} `{Countable K} (f : A → Z) (m : gmap K A) : Z :=
  map_fold (λ _ v acc, f v + acc) 0 m.

Definition sum_list_Z (l : list Z) : Z := foldr Z.add 0 l.

(** [fmt.Sprintf("%d", z)] for a non-negative [z]. *)
Definition fmt_d (z : Z) : string := pretty (Z.to_N z).

(** Lexicographic byte order of Go strings ([a < b]). *)
Definition go_string_ltb (a b : string) : bool := String.ltb a b.

(** * Tactics *)

(** Splits every [if decide], [match] and boolean test of the goal. *)
Ltac split_ifs := repeat (case_match || case_decide || case_bool_decide); simplify_eq/=.

(** Destructs a pair-valued step, naming the equation. *)
Tactic Notation "step_eq" constr(t) "as" simple_intropattern(p) "eqn" ident(E) :=
  destruct t as p eqn:E.

Create HintDb go discriminated.
Create Rewrite HintDb wrap.

(** * Lemmas on machine integers *)

Lemma u64_range z : is_u64 (u64 z).
Proof. unfold is_u64, u64, u64_mod. apply Z.mod_pos_bound. lia. Qed.

Lemma u64_small z : is_u64 z → u64 z = z.
Proof. unfold is_u64, u64. intros. apply Z.mod_small. lia. Qed.

Lemma i64_range z : is_i64 (i64 z).
Proof.
  unfold is_i64, i64.
  pose proof (Z.mod_pos_bound (z + 9223372036854775808) u64_mod ltac:(unfold u64_mod; lia)).
  unfold u64_mod in *. lia.
Qed.

Lemma i64_small z : is_i64 z → i64 z = z.
Proof.
  unfold is_i64, i64. intros. rewrite Z.mod_small; [lia|]. unfold u64_mod. lia.
Qed.

#[global] Instance eqm_equiv : Equivalence eqm.
Proof. split; unfold eqm; [by intros ?|by intros ??|by intros ??? -> ->]. Qed.

Lemma eqm_iff a b : a ≡64 b ↔ ∃ k, a = b + k * u64_mod.
Proof.
  unfold eqm. split.
  - intros H. exists (a / u64_mod - b / u64_mod).
    pose proof (Z_div_mod_eq_full a u64_mod). pose proof (Z_div_mod_eq_full b u64_mod). lia.
  - intros [k ->]. apply Z_mod_plus_full.
Qed.

#[global] Instance eqm_add : Proper (eqm ==> eqm ==> eqm) Z.add.
Proof.
  intros a a' [k ->]%eqm_iff b b' [j ->]%eqm_iff. apply eqm_iff. exists (k + j). lia.
Qed.

#[global] Instance eqm_opp : Proper (eqm ==> eqm) Z.opp.
Proof. intros a a' [k ->]%eqm_iff. apply eqm_iff. exists (- k). lia. Qed.

#[global] Instance eqm_sub : Proper (eqm ==> eqm ==> eqm) Z.sub.
Proof. intros a a' Ha b b' Hb. rewrite <- !Z.add_opp_r. by rewrite Ha, Hb. Qed.

#[global] Instance eqm_mul : Proper (eqm ==> eqm ==> eqm) Z.mul.
Proof.
  intros a a' [k ->]%eqm_iff b b' [j ->]%eqm_iff. apply eqm_iff.
  exists (a' * j + k * b' + k * j * u64_mod). lia.
Qed.

Lemma eqm_u64 z : u64 z ≡64 z.
Proof. unfold eqm, u64. by rewrite Zmod_mod. Qed.

Lemma eqm_i64 z : i64 z ≡64 z.
Proof.
  apply eqm_iff. unfold i64. exists (- ((z + 9223372036854775808) / u64_mod)).
  pose proof (Z_div_mod_eq_full (z + 9223372036854775808) u64_mod). lia.
Qed.

#[global] Instance u64_proper : Proper (eqm ==> eq) u64.
Proof. intros a b H. exact H. Qed.

#[global] Instance i64_proper : Proper (eqm ==> eq) i64.
Proof.
  intros a b H. unfold i64. f_equal.
  change ((a + 9223372036854775808) ≡64 (b + 9223372036854775808)). by rewrite H.
Qed.

Lemma u64_unique z x : is_u64 x → z ≡64 x → u64 z = x.
Proof. intros Hx ->. by apply u64_small. Qed.

Lemma i64_unique z x : is_i64 x → z ≡64 x → i64 z = x.
Proof. intros Hx ->. by apply i64_small. Qed.

Lemma u64_add_wrap a b : is_u64 a → is_u64 b →
  u64 (a + b) = if decide (a + b < u64_mod) then a + b else a + b - u64_mod.
Proof.
  unfold is_u64. intros. case_decide.
  - apply u64_small. unfold is_u64. lia.
  - apply u64_unique; [unfold is_u64; lia|]. apply eqm_iff. exists 1. lia.
Qed.

Lemma u64_sub_wrap a b : is_u64 a → is_u64 b →
  u64 (a - b) = if decide (b <= a) then a - b else a - b + u64_mod.
Proof.
  unfold is_u64. intros. case_decide.
  - apply u64_small. unfold is_u64. lia.
  - apply u64_unique; [unfold is_u64; lia|]. apply eqm_iff. exists (-1). lia.
Qed.

#[export] Hint Resolve u64_range i64_range : go.
#[export] Hint Rewrite eqm_u64 eqm_i64 : wrap.

(** Normalises both sides of a congruence to wrap-free expressions. *)
Ltac eqm_norm := repeat (rewrite eqm_u64 || rewrite eqm_i64).

(** Closes [x ≡64 y] when [x = y] by linear arithmetic. *)
Ltac eqm_lia := match goal with |- ?x ≡64 ?y => replace x with y by lia; reflexivity end.

(** * Lemmas on sums over maps *)

Section map_sum.
Context {K A : Type} `{Countable K}.
Implicit Types (f g : A → Z) (m : gmap K A).

Lemma map_sum_empty f : map_sum f (∅ : gmap K A) = 0.
Proof. apply map_fold_empty. Qed.

Lemma map_sum_insert f m k v :
  m !! k = None → map_sum f (<[k:=v]> m) = f v + map_sum f m.
Proof. intros. unfold map_sum. rewrite map_fold_insert_L; auto. intros; lia. Qed.

Lemma map_sum_delete f m k v :
  m !! k = Some v → map_sum f (delete k m) = map_sum f m - f v.
Proof.
  intros Hk. rewrite <- (insert_delete_id m k v) at 2 by done.
  rewrite map_sum_insert by apply lookup_delete_eq. lia.
Qed.

Lemma map_sum_update f m k v w :
  m !! k = Some v → map_sum f (<[k:=w]> m) = map_sum f m - f v + f w.
Proof.
  intros Hk. rewrite <- insert_delete_eq.
  rewrite map_sum_insert by apply lookup_delete_eq.
  rewrite (map_sum_delete _ _ _ _ Hk). lia.
Qed.

Lemma map_sum_ext f g m :
  (∀ k v, m !! k = Some v → f v = g v) → map_sum f m = map_sum g m.
Proof.
  induction m as [|k v m Hk IH] using map_ind; intros Hfg.
  - by rewrite !map_sum_empty.
  - rewrite !map_sum_insert by done. rewrite (Hfg k v) by apply lookup_insert_eq.
    f_equal. apply IH. intros j w Hj. apply (Hfg j w). rewrite lookup_insert_ne; congruence.
Qed.

Lemma map_sum_nonneg f m :
  (∀ k v, m !! k = Some v → 0 <= f v) → 0 <= map_sum f m.
Proof.
  induction m as [|k v m Hk IH] using map_ind; intros Hf.
  - by rewrite map_sum_empty.
  - rewrite map_sum_insert by done.
    pose proof (Hf k v (lookup_insert_eq _ _ _)).
    assert (0 <= map_sum f m); [|lia].
    apply IH. intros j w Hj. apply (Hf j w). rewrite lookup_insert_ne; congruence.
Qed.

Lemma map_sum_lookup_le f m k v :
  (∀ j w, m !! j = Some w → 0 <= f w) → m !! k = Some v → f v <= map_sum f m.
Proof.
  intros Hf Hk.
  assert (0 <= map_sum f (delete k m)).
  { apply map_sum_nonneg. intros j w [_ Hj]%lookup_delete_Some. eauto. }
  rewrite (map_sum_delete _ _ _ _ Hk) in *. lia.
Qed.

Lemma map_sum_le f g m :
  (∀ k v, m !! k = Some v → f v <= g v) → map_sum f m <= map_sum g m.
Proof.
  induction m as [|k v m Hk IH] using map_ind; intros Hfg; [by rewrite !map_sum_empty|].
  rewrite !map_sum_insert by done. pose proof (Hfg k v (lookup_insert_eq _ _ _)).
  assert (map_sum f m <= map_sum g m); [|lia].
  apply IH. intros j w Hj. apply (Hfg j w). rewrite lookup_insert_ne; congruence.
Qed.

Lemma map_sum_add f g m :
  map_sum (λ v, f v + g v) m = map_sum f m + map_sum g m.
Proof.
  induction m as [|k v m Hk IH] using map_ind.
  - by rewrite !map_sum_empty.
  - rewrite !map_sum_insert by done. lia.
Qed.

Lemma map_sum_zero f m :
  (∀ k v, m !! k = Some v → f v = 0) → map_sum f m = 0.
Proof.
  intros Hf. induction m as [|k v m Hk IH] using map_ind; [by rewrite map_sum_empty|].
  rewrite map_sum_insert by done. rewrite (Hf k v) by apply lookup_insert_eq.
  rewrite IH; [lia|]. intros j w Hj. apply (Hf j w). rewrite lookup_insert_ne; congruence.
Qed.

Lemma map_sum_union f m1 m2 :
  m1 ##ₘ m2 → map_sum f (m1 ∪ m2) = map_sum f m1 + map_sum f m2.
Proof.
  induction m1 as [|k v m1 Hk IH] using map_ind; intros Hd.
  - rewrite (left_id_L _ _), map_sum_empty. lia.
  - apply map_disjoint_insert_l in Hd as [Hk2 Hd].
    rewrite <- insert_union_l, !map_sum_insert, IH; [lia|done|done|].
    by apply lookup_union_None.
Qed.

Lemma wrapped_sum_eqm f m : wrapped_sum f m ≡64 map_sum f m.
Proof.
  unfold wrapped_sum, map_sum. rewrite !map_fold_foldr.
  induction (map_to_list m) as [|[k v] l IH]; simpl; [done|].
  eqm_norm. rewrite IH. by rewrite Z.add_comm.
Qed.

Lemma wrapped_sum_range f m : is_u64 (wrapped_sum f m).
Proof.
  unfold wrapped_sum. rewrite map_fold_foldr.
  destruct (map_to_list m) as [|[k v] l]; simpl; [unfold is_u64, u64_mod; lia|apply u64_range].
Qed.

Lemma wrapped_sum_exact f m :
  (∀ k v, m !! k = Some v → 0 <= f v) → map_sum f m < u64_mod →
  wrapped_sum f m = map_sum f m.
Proof.
  intros Hf Hlt. pose proof (map_sum_nonneg f m Hf).
  rewrite <- (u64_small (wrapped_sum f m)) by apply wrapped_sum_range.
  apply u64_unique; [split; lia|apply wrapped_sum_eqm].
Qed.

(** A range loop over the map in any order computes the same total. *)
Lemma wrapped_sum_order f m (order : list (K * A)) :
  order ≡ₚ map_to_list m →
  foldl (λ acc kv, u64 (acc + f kv.2)) 0 order = wrapped_sum f m.
Proof.
  intros Hord.
  assert (∀ l a, is_u64 a →
    foldl (λ acc kv, u64 (acc + f kv.2)) a l = u64 (a + sum_list_Z ((λ kv : K * A, f kv.2) <$> l)))
    as Hfold.
  { intros l. induction l as [|[k v] l IH]; intros a Ha; simpl.
    - rewrite Z.add_0_r. symmetry. by apply u64_small.
    - rewrite IH by apply u64_range. apply u64_proper. eqm_norm. by rewrite Z.add_assoc. }
  rewrite Hfold by (unfold is_u64, u64_mod; lia).
  apply u64_unique; [apply wrapped_sum_range|].
  rewrite wrapped_sum_eqm. unfold map_sum. rewrite map_fold_foldr. simpl.
  assert (∀ l : list (K * A), foldr (uncurry (λ _ v acc, f v + acc)) 0 l
    = sum_list_Z ((λ kv : K * A, f kv.2) <$> l)) as ->.
  { intros l. induction l as [|[k v] l IH]; simpl; [done|by rewrite IH]. }
  induction Hord as [| | |l1 l2 l3 _ IH1 _ IH2]; simpl in *; [done|by rewrite IHHord| |].
  - by rewrite !Z.add_assoc, (Z.add_comm (f _) (f _)).
  - by rewrite IH1.
Qed.

End map_sum.

(** ** Sums of lists *)

Lemma sum_list_Z_app l1 l2 : sum_list_Z (l1 ++ l2) = sum_list_Z l1 + sum_list_Z l2.
Proof. induction l1; simpl; lia. Qed.

Lemma sum_list_Z_perm l1 l2 : l1 ≡ₚ l2 → sum_list_Z l1 = sum_list_Z l2.
Proof. induction 1; simpl; lia. Qed.

#[global] Instance sum_list_Z_proper : Proper ((≡ₚ) ==> (=)) sum_list_Z.
Proof. exact sum_list_Z_perm. Qed.

Lemma map_sum_list {K A} `{Countable K} (f : A → Z) (m : gmap K A) :
  map_sum f m = sum_list_Z (f <$> (map_to_list m).*2).
Proof.
  unfold map_sum. rewrite map_fold_foldr. induction (map_to_list m) as [|[k v] l IH]; [done|].
  exact (f_equal (Z.add (f v)) IH).
Qed.

(** A sum over distinct keys of a map. *)
Lemma sum_keys_le {K A} `{Countable K} (f : A → Z) (m : gmap K A) (l : list (K * A)) :
  (∀ k v, m !! k = Some v → 0 <= f v) → NoDup l.*1 → (∀ k v, (k, v) ∈ l → m !! k = Some v) →
  sum_list_Z ((λ kv, f kv.2) <$> l) <= map_sum f m.
Proof.
  revert m. induction l as [|[k v] l IH]; intros m Hf Hnd Hin; cbn; [by apply map_sum_nonneg|].
  apply NoDup_cons in Hnd as [Hk Hnd]. assert (m !! k = Some v) as Hm by (apply Hin; by left).
  assert (sum_list_Z ((λ kv, f kv.2) <$> l) <= map_sum f (delete k m)) as Hl; [|rewrite (map_sum_delete _ _ _ _ Hm) in Hl;
    change (foldr Z.add 0 ((λ kv : K * A, f kv.2) <$> l)) with (sum_list_Z ((λ kv : K * A, f kv.2) <$> l)); lia].
  apply IH; [|done|].
  - intros j w [_ Hj]%lookup_delete_Some. by apply (Hf j).
  - intros j w Hj. rewrite lookup_delete_ne; [apply Hin; by right|]. intros ->. apply Hk.
    apply list_elem_of_fmap. by exists (j, w).
Qed.

Lemma map_sum_fmap {K A B} `{Countable K} (f : B → Z) (g : A → B) (m : gmap K A) :
  map_sum f (g <$> m) = map_sum (f ∘ g) m.
Proof. unfold map_sum. by rewrite map_fold_fmap. Qed.

(** * Lemmas on printing *)

Lemma fmt_d_inj a b : 0 <= a → 0 <= b → fmt_d a = fmt_d b → a = b.
Proof. unfold fmt_d. intros Ha Hb H%(inj pretty). lia. Qed.
