(* ===== verification/GoStd.v ===== *)
(** The parts of Go's standard library that the modelled code computes with:
    [crypto/sha256] (with [encoding/hex]), [encoding/binary] for [uint64],
    and [sort.Slice] under a total preorder.  They are executable, so that
    content-addressed identifiers and committees can be evaluated. *)

From stdpp Require Import sets fin_sets fin_map_dom.
From S2P Require Import Prelude.

(** * crypto/sha256 *)

Module Sha256.

Definition w32 (z : Z) : Z := Z.land z 4294967295.
Definition rotr (n x : Z) : Z := w32 (Z.lor (Z.shiftr x n) (Z.shiftl x (32 - n))).
Definition shr (n x : Z) : Z := Z.shiftr x n.
Definition not32 (x : Z) : Z := Z.lxor x 4294967295.

Definition Ch (x y z : Z) : Z := Z.lxor (Z.land x y) (Z.land (not32 x) z).
Definition Maj (x y z : Z) : Z :=
  Z.lxor (Z.lxor (Z.land x y) (Z.land x z)) (Z.land y z).
Definition bsig0 (x : Z) : Z := Z.lxor (Z.lxor (rotr 2 x) (rotr 13 x)) (rotr 22 x).
Definition bsig1 (x : Z) : Z := Z.lxor (Z.lxor (rotr 6 x) (rotr 11 x)) (rotr 25 x).
Definition ssig0 (x : Z) : Z := Z.lxor (Z.lxor (rotr 7 x) (rotr 18 x)) (shr 3 x).
Definition ssig1 (x : Z) : Z := Z.lxor (Z.lxor (rotr 17 x) (rotr 19 x)) (shr 10 x).

(** The constants are the first 32 bits of the fractional parts of the cube
    roots (round constants) and the square roots (initial state) of the first
    primes; they are computed once, when this file is compiled. *)
Definition is_prime (n : Z) : bool :=
  forallb (λ d, negb (bool_decide (n mod d = 0))) (seqZ 2 (Z.sqrt n - 1)).

Definition primes : list Z := List.filter is_prime (seqZ 2 310).

(** The integer cube root, bit by bit from bit [n - 1]. *)
Fixpoint cbrt (n : nat) (acc z : Z) : Z :=
  match n with
  | O => acc
  | S n' =>
      let acc' := acc + Z.shiftl 1 (Z.of_nat n') in
      cbrt n' (if bool_decide (acc' * acc' * acc' <= z) then acc' else acc) z
  end.

Definition K256 : list Z :=
  Eval vm_compute in (λ p, w32 (cbrt 36 0 (Z.shiftl p 96))) <$> take 64 primes.

Definition H256 : list Z :=
  Eval vm_compute in (λ p, w32 (Z.sqrt (Z.shiftl p 64))) <$> take 8 primes.

(** Big-endian bytes of [z], [n] of them. *)
Fixpoint be_bytes (n : nat) (z : Z) : list Z :=
  match n with
  | O => []
  | S n' => Z.land (Z.shiftr z (8 * Z.of_nat n')) 255 :: be_bytes n' z
  end.

Definition be_word (bs : list Z) : Z := foldl (λ acc b, acc * 256 + b) 0 bs.

Definition pad (msg : list Z) : list Z :=
  let len := Z.of_nat (length msg) in
  let zeros := Z.to_nat ((55 - len) mod 64) in
  msg ++ [128] ++ replicate zeros 0 ++ be_bytes 8 (8 * len).

Fixpoint chunks (n : nat) (fuel : nat) (l : list Z) : list (list Z) :=
  match fuel, l with
  | O, _ | _, [] => []
  | S fuel', _ => take n l :: chunks n fuel' (drop n l)
  end.

(** Message schedule, most recent word first. *)
Fixpoint schedule (n : nat) (rev_w : list Z) : list Z :=
  match n with
  | O => rev rev_w
  | S n' =>
      let w := λ i, nth i rev_w 0 in
      schedule n' (w32 (ssig1 (w 1%nat) + w 6%nat + ssig0 (w 14%nat) + w 15%nat) :: rev_w)
  end.

Definition round_step (st : Z * Z * Z * Z * Z * Z * Z * Z) (kw : Z * Z) :
    Z * Z * Z * Z * Z * Z * Z * Z :=
  let '(a, b, c, d, e, f, g, h) := st in
  let t1 := h + bsig1 e + Ch e f g + kw.1 + kw.2 in
  let t2 := bsig0 a + Maj a b c in
  (w32 (t1 + t2), a, b, c, w32 (d + t1), e, f, g).

Definition compress (hs : list Z) (block : list Z) : list Z :=
  let ws := be_word <$> chunks 4 16 block in
  let w := schedule 48 (rev ws) in
  match hs with
  | [a; b; c; d; e; f; g; h] =>
      let '(a', b', c', d', e', f', g', h') :=
        foldl round_step (a, b, c, d, e, f, g, h) (zip K256 w) in
      w32 <$> [a + a'; b + b'; c + c'; d + d'; e + e'; f + f'; g + g'; h + h']
  | _ => hs
  end.

(** [sha256.Sum256]: 32 digest bytes. *)
Definition Sum256 (msg : list Z) : list Z :=
  let p := pad msg in
  let hs := foldl compress H256 (chunks 64 (length p) p) in
  concat (be_bytes 4 <$> hs).

Lemma be_bytes_length n z : length (be_bytes n z) = n.
Proof. revert z. induction n as [|n IH]; intros z; simpl; [done|]. rewrite ?length_app, ?IH; simpl; lia. Qed.

Lemma compress_length hs block : length hs = 8%nat → length (compress hs block) = 8%nat.
Proof.
  destruct hs as [|? [|? [|? [|? [|? [|? [|? [|? [|]]]]]]]]]; try done. intros _. unfold compress.
  destruct (foldl round_step _ _) as [[[[[[[? ?] ?] ?] ?] ?] ?] ?]. done.
Qed.

Lemma Sum256_length msg : length (Sum256 msg) = 32%nat.
Proof.
  unfold Sum256. generalize (chunks 64 (length (pad msg)) (pad msg)) as bs. intros bs.
  assert (∀ hs, length hs = 8%nat → length (foldl compress hs bs) = 8%nat) as Hf.
  { induction bs as [|b bs IH]; intros hs Hhs; simpl; [done|]. by apply IH, compress_length. }
  specialize (Hf H256 ltac:(by vm_compute)). revert Hf. generalize (foldl compress H256 bs) as hs. intros hs.
  destruct hs as [|? [|? [|? [|? [|? [|? [|? [|? [|]]]]]]]]]; done.
Qed.

Lemma be_bytes_range n z : Forall (λ b, 0 <= b < 256) (be_bytes n z).
Proof.
  revert z. induction n as [|n IH]; intros z; cbn [be_bytes]; constructor; [|done].
  rewrite (Z.land_ones _ 8) by lia. apply Z.mod_pos_bound. lia.
Qed.

Lemma Sum256_bytes msg : Forall (λ b, 0 <= b < 256) (Sum256 msg).
Proof.
  unfold Sum256. apply Forall_concat, Forall_fmap, Forall_forall. intros w _. apply be_bytes_range.
Qed.

End Sha256.

(** The bytes of a Go string. *)
Definition bytes_of_string (s : string) : list Z :=
  (λ c, Z.of_N (Ascii.N_of_ascii c)) <$> String.list_ascii_of_string s.

Definition hex_digit (z : Z) : Ascii.ascii :=
  Ascii.ascii_of_N (Z.to_N (if decide (z < 10) then 48 + z else 87 + z)).

(** [hex.EncodeToString]. *)
Fixpoint hex_encode (bs : list Z) : string :=
  match bs with
  | [] => EmptyString
  | b :: bs' => String (hex_digit (Z.shiftr b 4)) (String (hex_digit (Z.land b 15)) (hex_encode bs'))
  end.

(** [h := sha256.Sum256([]byte(s)); hex.EncodeToString(h[:])]. *)
Definition sha256_hex (s : string) : string := hex_encode (Sha256.Sum256 (bytes_of_string s)).

#[global] Opaque Sha256.Sum256.
#[global] Arguments sha256_hex : simpl never.

(** * encoding/binary *)

(** [binary.LittleEndian.PutUint64] / [binary.LittleEndian.Uint64]. *)
Fixpoint le_put (n : nat) (z : Z) : list Z :=
  match n with
  | O => []
  | S n' => z mod 256 :: le_put n' (z / 256)
  end.

Fixpoint le_get (bs : list Z) : Z :=
  match bs with
  | [] => 0
  | b :: bs' => b + 256 * le_get bs'
  end.

(** [binary.BigEndian.PutUint64] / [binary.BigEndian.Uint64]. *)
Definition be_put (z : Z) : list Z := rev (le_put 8 z).
Definition be_get (bs : list Z) : Z := le_get (rev bs).

Lemma le_put_length n z : length (le_put n z) = n.
Proof. revert z. induction n; intros; simpl; auto. Qed.

Lemma le_get_put n z : 0 <= z < 256 ^ Z.of_nat n → le_get (le_put n z) = z.
Proof.
  revert z. induction n as [|n IH]; intros z Hz; simpl.
  - change (256 ^ Z.of_nat 0) with 1 in Hz. lia.
  - rewrite Nat2Z.inj_succ, Z.pow_succ_r in Hz by lia.
    rewrite IH; [pose proof (Z_div_mod_eq_full z 256); lia|].
    split; [apply Z.div_pos; lia|apply Z.div_lt_upper_bound; lia].
Qed.

Lemma be_get_put z : is_u64 z → be_get (be_put z) = z.
Proof.
  intros Hz. unfold be_get, be_put. rewrite rev_involutive. apply le_get_put. exact Hz.
Qed.

Lemma be_put_length z : length (be_put z) = 8%nat.
Proof. unfold be_put. by rewrite length_rev, le_put_length. Qed.

(** * sort.Slice

    [sort.Slice] rearranges the slice into an order compatible with [less].
    Under a total order without ties the result is unique, whichever
    algorithm is used; the model sorts by merging. *)
Definition sort_slice {A} (le : relation A) `{∀ x y, Decision (le x y)} (l : list A) : list A :=
  merge_sort le l.

Lemma sort_slice_perm {A} (le : relation A) `{∀ x y, Decision (le x y)} l :
  sort_slice le l ≡ₚ l.
Proof. apply merge_sort_Permutation. Qed.

Lemma sort_slice_sorted {A} (le : relation A) `{∀ x y, Decision (le x y)} `{!Transitive le, !Total le} l :
  StronglySorted le (sort_slice le l).
Proof. apply StronglySorted_merge_sort; apply _. Qed.

(** Without ties the input order is immaterial. *)
Lemma sort_slice_unique {A} (le : relation A) `{∀ x y, Decision (le x y)}
    `{!Transitive le, !Total le, !AntiSymm (=) le} l1 l2 :
  l1 ≡ₚ l2 → sort_slice le l1 = sort_slice le l2.
Proof.
  intros Hp. apply (StronglySorted_unique le); [by apply sort_slice_sorted..|].
  etrans; [apply sort_slice_perm|]. etrans; [exact Hp|]. symmetry. apply sort_slice_perm.
Qed.

(** Sorting by a key commutes with taking the key. *)
Section sort_fmap.
Context {A B} (f : A → B) (leA : relation A) (leB : relation B).
Context `{∀ x y, Decision (leA x y)} `{∀ x y, Decision (leB x y)}.
Context (Hle : ∀ x y, leA x y ↔ leB (f x) (f y)).

Definition map_stack (st : list (option (list A))) : list (option (list B)) :=
  map (option_map (map f)) st.

Lemma list_merge_fmap l1 l2 : f <$> list_merge leA l1 l2 = list_merge leB (f <$> l1) (f <$> l2).
Proof using Hle.
  revert l2. induction l1 as [|x l1 IH1]; intros l2; [by destruct l2|].
  induction l2 as [|y l2 IH2]; [done|]. csimpl.
  destruct (decide (leA x y)) as [Hxy|Hxy]; rewrite Hle in Hxy.
  - rewrite decide_True by done. csimpl. by rewrite IH1.
  - rewrite decide_False by done. csimpl. f_equal. exact IH2.
Qed.

Lemma merge_stack_fmap st : f <$> merge_stack leA st = merge_stack leB (map_stack st).
Proof using Hle. induction st as [|[l|] st IH]; csimpl; rewrite ?list_merge_fmap; [done|by rewrite IH|exact IH]. Qed.

Lemma merge_list_to_stack_fmap st l :
  map_stack (merge_list_to_stack leA st l) = merge_list_to_stack leB (map_stack st) (f <$> l).
Proof using Hle.
  revert l. induction st as [|[l'|] st IH]; intros l; csimpl; [done| |done].
  by rewrite IH, list_merge_fmap.
Qed.

Lemma sort_slice_fmap l : f <$> sort_slice leA l = sort_slice leB (f <$> l).
Proof using Hle.
  unfold sort_slice, merge_sort.
  change (@nil (option (list B))) with (map_stack []).
  generalize (@nil (option (list A))).
  induction l as [|x l IH]; intros st; csimpl; [apply merge_stack_fmap|].
  rewrite IH. by rewrite merge_list_to_stack_fmap.
Qed.
End sort_fmap.

(** ** Checks against the published test vectors *)

Example sha256_empty :
  sha256_hex "" = "e3b0c44298fc1c149afbf4c8996fb92427ae41e4649b934ca495991b7852b855".
Proof. vm_compute. reflexivity. Qed.

Example sha256_abc :
  sha256_hex "abc" = "ba7816bf8f01cfea414140de5dae2223b00361a396177a9cb410ff61f20015ad".
Proof. vm_compute. reflexivity. Qed.

Example sha256_two_blocks :
  sha256_hex "abcdbcdecdefdefgefghfghighijhijkijkljklmklmnlmnomnopnopq"
  = "248d6a61d20638b8e5c026930c3e6039a33ce45964ff2167f6ecedd419db06c1".
Proof. vm_compute. reflexivity. Qed.

(** * Ranging over a map

    Go visits the keys of a map in an unspecified order. *)

(** [for k := range s]. *)
Class RangeOrder : Type := {
  range_set : gset string → list string;
  range_set_perm s : range_set s ≡ₚ elements s;
}.

#[global] Instance elements_order : RangeOrder := {| range_set s := elements s; range_set_perm s := reflexivity _ |}.

Lemma omap_lookup_all {A} (m : gmap string A) (ids : list string) :
  (∀ id, id ∈ ids → is_Some (m !! id)) →
  length (omap (λ id, m !! id) ids) = length ids.
Proof.
  induction ids as [|id ids IH]; intros Hall; [done|]. csimpl.
  destruct (Hall id (list_elem_of_here _ _)) as [x Hx]. rewrite Hx. csimpl. f_equal. apply IH. intros; apply Hall; set_solver.
Qed.

Lemma omap_lookup_map {A} (m : gmap string A) (ids : list string) :
  ids ≡ₚ elements (dom m) → omap (λ id, m !! id) ids ≡ₚ (map_to_list m).*2.
Proof.
  intros Hids.
  assert (elements (dom m) ≡ₚ (map_to_list m).*1) as Hel.
  { apply NoDup_Permutation; [apply NoDup_elements|apply NoDup_fst_map_to_list|].
    intros id. rewrite elem_of_elements, elem_of_dom, list_elem_of_fmap. split.
    - intros [x Hx]. exists (id, x). by rewrite elem_of_map_to_list.
    - intros ([id' x] & -> & Hx%elem_of_map_to_list). by exists x. }
  rewrite Hids, Hel.
  assert (∀ l, (∀ k x, (k, x) ∈ l → m !! k = Some x) → omap (λ id, m !! id) l.*1 = l.*2) as ->; [|done|].
  - intros l. induction l as [|[k x] l IH]; intros Hl; [done|]. csimpl. rewrite (Hl k x) by apply list_elem_of_here.
    f_equal. apply IH. intros k' x' Hin. by apply Hl, list_elem_of_further.
  - intros k x Hin. by apply elem_of_map_to_list.
Qed.

Section range.
Context {order : RangeOrder}.

Lemma range_set_NoDup s : NoDup (range_set s).
Proof. rewrite range_set_perm. apply NoDup_elements. Qed.

Lemma elem_of_range_set x s : x ∈ range_set s ↔ x ∈ s.
Proof. rewrite range_set_perm. apply elem_of_elements. Qed.

(** [for _, v := range m]. *)
Definition range_map {V} (m : gmap string V) : list V := omap (λ k, m !! k) (range_set (dom m)).

Lemma range_map_perm {V} (m : gmap string V) : range_map m ≡ₚ (map_to_list m).*2.
Proof. apply omap_lookup_map, range_set_perm. Qed.

Lemma elem_of_range_map {V} (m : gmap string V) v : v ∈ range_map m ↔ ∃ k, m !! k = Some v.
Proof.
  rewrite range_map_perm, list_elem_of_fmap. split.
  - intros ([k x] & -> & Hx%elem_of_map_to_list). by exists k.
  - intros [k Hk]. exists (k, v). by rewrite elem_of_map_to_list.
Qed.
End range.
