(* ===== verification/Store.v ===== *)
(** The persistence interfaces ([transferPersistence], [generationPersistence],
    [escrowPersistence], [identityPersistence], [ocsPersistence],
    [stakeStore], [appliedStore], ...).

    Every component writes through an interface that internal/store
    implements over BadgerDB.  The database is not part of this repository, so
    the components are modelled over the class [Persistence]; the laws
    [PersistenceLaws] are what BadgerDB's transactions provide (a committed
    put is read back, an aborted one changes nothing, keys are independent).
    [KeyedStore] is an implementation that satisfies them, [BrokenStore] one whose
    writes fail. *)

From S2P Require Import Prelude.

(** Put/Get/All/Delete of values of type [V] keyed by a string computed from
    the value.  The boolean is [err == nil]. *)
Class Persistence (St V : Type) : Type := {
  store_put : V → St → St * bool;
  store_delete : string → St → St * bool;
  store_get : string → St → option V;
  store_all : St → option (list V);
}.

(** PutMeta/GetMeta. *)
Class MetaPersistence (St : Type) : Type := {
  meta_put : string → list Z → St → St * bool;
  meta_get : string → St → option (list Z);
}.

Class PersistenceLaws (St V : Type) (key : V → string) `{!Persistence St V} : Type := {
  store_view : St → gmap string V;
  store_put_ok v s s' : store_put v s = (s', true) → store_view s' = <[key v := v]> (store_view s);
  store_put_fail v s s' : store_put v s = (s', false) → store_view s' = store_view s;
  store_delete_ok k s s' : store_delete k s = (s', true) → store_view s' = delete k (store_view s);
  store_delete_fail k s s' : store_delete k s = (s', false) → store_view s' = store_view s;
  store_get_view k s v : store_get k s = Some v → store_view s !! k = Some v;
  store_all_view s l : store_all s = Some l → l ≡ₚ (map_to_list (store_view s)).*2;
  store_view_key s k v : store_view s !! k = Some v → key v = k;
}.

(** Metadata lives in its own key space: writing it leaves the records alone. *)
Class MetaLaws (St V : Type) (key : V → string)
    `{!Persistence St V, !MetaPersistence St, !PersistenceLaws St V key} : Prop := {
  meta_put_view k b s s' ok : meta_put k b s = (s', ok) → store_view s' = store_view s;
  meta_put_get k b s s' : meta_put k b s = (s', true) → meta_get k s' = Some b;
  put_meta_get k v s : meta_get k (store_put v s).1 = meta_get k s;
  delete_meta_get k j s : meta_get k (store_delete j s).1 = meta_get k s;
}.

(** A store none of whose writes fails. *)
Class Reliable (St V : Type) `{!Persistence St V, !MetaPersistence St} : Prop := {
  reliable_put v s : (store_put v s).2 = true;
  reliable_delete k s : (store_delete k s).2 = true;
  reliable_meta k b s : (meta_put k b s).2 = true;
}.

(** The write-through idiom [if x.store != nil { if err := x.store.Put(v); err
    != nil { slog.Error(...) } }]: failures are logged, never propagated. *)
Definition write_through {St V} `{!Persistence St V} (v : V) (s : option St) : option St :=
  match s with Some st => Some (store_put v st).1 | None => None end.

Definition delete_through {St V} `{!Persistence St V} (k : string) (s : option St) : option St :=
  match s with Some st => Some (store_delete k st).1 | None => None end.
#[global] Arguments delete_through {St} V {_} k s.

(** The start-up idiom [for _, v := range all { m[v.ID] = v }]. *)
Definition load_all {V} (key : V → string) (vs : list V) : gmap string V :=
  foldl (λ m v, <[key v := v]> m) ∅ vs.

Lemma load_all_list_to_map {V} (key : V → string) (vs : list V) :
  NoDup (key <$> vs) → load_all key vs = list_to_map ((λ v, (key v, v)) <$> vs).
Proof.
  intros Hnd. unfold load_all. rewrite <- (right_id_L ∅ (∪) (list_to_map _)).
  generalize (∅ : gmap string V). revert Hnd.
  induction vs as [|v vs IH]; intros Hnd acc; cbn [foldl fmap list_fmap list_to_map foldr].
  { by rewrite (left_id_L _ _). }
  apply NoDup_cons in Hnd as [Hv Hnd]. rewrite IH by done. cbn.
  rewrite <- insert_union_r; [by rewrite insert_union_l|].
  apply not_elem_of_list_to_map_1. intros Hin. apply Hv.
  rewrite <- list_fmap_compose in Hin. done.
Qed.

(** Loading what the store holds rebuilds its view. *)
Lemma load_all_view {V} (key : V → string) (m : gmap string V) vs :
  (∀ k v, m !! k = Some v → key v = k) → vs ≡ₚ (map_to_list m).*2 → load_all key vs = m.
Proof.
  intros Hkey Hperm.
  assert ((λ v, (key v, v)) <$> (map_to_list m).*2 = map_to_list m) as Hml.
  { rewrite <- list_fmap_compose. rewrite <- (list_fmap_id (map_to_list m)) at 2.
    apply list_fmap_ext. intros i [k v] Hi. simpl.
    apply list_elem_of_lookup_2, elem_of_map_to_list, Hkey in Hi. by subst. }
  assert ((λ v, (key v, v)) <$> vs ≡ₚ map_to_list m) as Hp by (by rewrite Hperm, Hml).
  assert (NoDup ((λ v, (key v, v)) <$> vs).*1) as Hnd
    by (rewrite Hp; apply NoDup_fst_map_to_list).
  rewrite load_all_list_to_map.
  - rewrite (list_to_map_proper _ _ Hnd Hp). apply list_to_map_to_list.
  - rewrite <- list_fmap_compose in Hnd. done.
Qed.

(** ** A store whose writes always fail (a full disk) *)

Inductive BrokenStore (V : Type) : Type := Broken.
#[global] Arguments Broken {V}.

#[global] Instance broken_persistence {V} : Persistence (BrokenStore V) V := {|
  store_put _ s := (s, false);
  store_delete _ s := (s, false);
  store_get _ _ := None;
  store_all _ := Some [];
|}.

#[global] Instance broken_meta_persistence {V} : MetaPersistence (BrokenStore V) := {|
  meta_put _ _ s := (s, false);
  meta_get _ _ := None;
|}.

#[global] Program Instance broken_laws {V} (key : V → string) :
  PersistenceLaws (BrokenStore V) V key := {| store_view _ := ∅ |}.
Solve All Obligations with by intros; simplify_eq/=.

(** ** A keyed store: records under a fixed key function *)

Section keyed.
Context {V : Type} (key : V → string).

(** A keyed map: every record sits under its own key. *)
Definition keyed (m : gmap string V) : Prop := ∀ k v, m !! k = Some v → key v = k.

Record KeyedStore := mkKeyed {
  ks_records : gmap string V;
  ks_meta : gmap string (list Z);
  ks_ok : keyed ks_records;
}.

Lemma keyed_empty : keyed ∅.
Proof. intros k v Hk. by rewrite lookup_empty in Hk. Qed.

Lemma keyed_insert m v : keyed m → keyed (<[key v := v]> m).
Proof.
  intros Hm k w. destruct (decide (k = key v)) as [->|Hne].
  - rewrite lookup_insert_eq. congruence.
  - rewrite lookup_insert_ne by done. apply Hm.
Qed.

Lemma keyed_delete m k : keyed m → keyed (delete k m).
Proof. intros Hm j w [_ Hj]%lookup_delete_Some. by apply Hm. Qed.

Definition ks_empty : KeyedStore := mkKeyed ∅ ∅ keyed_empty.

#[global] Instance ks_persistence : Persistence KeyedStore V := {|
  store_put v s := (mkKeyed (<[key v := v]> (ks_records s)) (ks_meta s)
                      (keyed_insert _ v (ks_ok s)), true);
  store_delete k s := (mkKeyed (delete k (ks_records s)) (ks_meta s)
                      (keyed_delete _ k (ks_ok s)), true);
  store_get k s := ks_records s !! k;
  store_all s := Some (map_to_list (ks_records s)).*2;
|}.

#[global] Instance ks_meta_persistence : MetaPersistence KeyedStore := {|
  meta_put k b s := (mkKeyed (ks_records s) (<[k := b]> (ks_meta s)) (ks_ok s), true);
  meta_get k s := ks_meta s !! k;
|}.

#[global] Program Instance ks_laws : PersistenceLaws KeyedStore V key := {|
  store_view := ks_records;
|}.
Next Obligation. intros v s s' Hp. by simplify_eq/=. Qed.
Next Obligation. intros v s s' Hp. by simplify_eq/=. Qed.
Next Obligation. intros k s s' Hp. by simplify_eq/=. Qed.
Next Obligation. intros k s s' Hp. by simplify_eq/=. Qed.
Next Obligation. intros k s v Hp. by simplify_eq/=. Qed.
Next Obligation. intros s l Hp. by simplify_eq/=. Qed.
Next Obligation. intros s. apply (ks_ok s). Qed.

#[global] Instance ks_meta_laws : MetaLaws KeyedStore V key.
Proof.
  split.
  - intros k b s s' ok Hp. by simplify_eq/=.
  - intros k b s s' Hp. simplify_eq/=. apply lookup_insert_eq.
  - done.
  - done.
Qed.

#[global] Instance ks_reliable : Reliable KeyedStore V.
Proof. by split. Qed.

End keyed.
