(* ===== verification/Event.v ===== *)
(** internal/event: events, their payloads and the OCS settlement state machine.

    An event's payload is raw JSON.  Decoding it is [encoding/json]; the
    decoders are the operations of the class [PayloadCodec], over which every
    client of [GetPayload] is modelled. *)

From S2P Require Import Prelude.

(** [EventID], [AgentID] and [EventType] are Go string types. *)
Notation EventID := string (only parsing).
Notation AgentID := string (only parsing).
Notation EventType := string (only parsing).

Definition EventTypeTransfer : EventType := "Transfer".
Definition EventTypeGeneration : EventType := "Generation".
Definition EventTypeTaskSettlement : EventType := "TaskSettlement".

(** [SettlementState]; [SettlementOther] is a string outside the three
    constants, which an event decoded from the network may carry. *)
Inductive SettlementState :=
  | SettlementOptimistic
  | SettlementSettled
  | SettlementAdjusted
  | SettlementOther (s : string).

#[global] Instance SettlementState_eq_dec : EqDecision SettlementState.
Proof. solve_decision. Defined.

(** [Event].  [Payload] is the [json.RawMessage] and [CausalRefsSlice] the slice
    [CausalRefs]; [None] is a nil slice. *)
Record Event := mkEvent {
  ID : EventID;
  Type_ : EventType;
  CausalRefsSlice : option (list EventID);
  Payload : option string;
  AgentID_ : AgentID;
  Signature : list Z;
  CausalTimestamp : Z;
  StakeAmount : Z;
  SettlementState_ : SettlementState;
}.

(** What [len] and [range] see of the slice. *)
Definition CausalRefs (e : Event) : list EventID := default [] (CausalRefsSlice e).

Record TransferPayload := mkTransferPayload {
  tp_FromAgent : AgentID;
  tp_ToAgent : AgentID;
  tp_Amount : Z;
  tp_Currency : string;
  tp_Memo : string;
  tp_Reason : string;
  tp_TaskID : string;
}.

Record GenerationPayload := mkGenerationPayload {
  gp_GeneratingAgent : AgentID;
  gp_BeneficiaryAgent : AgentID;
  gp_ClaimedValue : Z;
  gp_EvidenceHash : string;
  gp_TaskDescription : string;
}.

Record TaskSettlementPayload := mkTaskSettlementPayload {
  tsp_TaskID : string;
  tsp_PosterID : AgentID;
  tsp_ClaimerID : AgentID;
  tsp_Budget : Z;
  tsp_AcceptanceHash : string;
  tsp_EvidenceHash : string;
  tsp_Category : string;
  tsp_ScoreBP : Z;
  tsp_HoldGeneration : bool;
}.

(** [json.Unmarshal] into the payload structs. *)
Class PayloadCodec : Type := {
  unmarshal_transfer : string → option TransferPayload;
  unmarshal_generation : string → option GenerationPayload;
  unmarshal_task_settlement : string → option TaskSettlementPayload;
}.

(** A decoder only yields amounts of type [uint64]. *)
Class PayloadCodecOk `{!PayloadCodec} : Prop := {
  transfer_amount_u64 s p : unmarshal_transfer s = Some p → is_u64 (tp_Amount p);
  generation_value_u64 s p : unmarshal_generation s = Some p → is_u64 (gp_ClaimedValue p);
}.

(** [event.GetPayload[T]]: a nil payload and a decoding failure are errors. *)
Definition GetPayload {T} (unmarshal : string → option T) (e : Event) : option T :=
  match Payload e with
  | None => None
  | Some raw => unmarshal raw
  end.

(** [validTransitions]: [None] when the current state is not a key. *)
Definition validTransitions (s : SettlementState) : option (list SettlementState) :=
  match s with
  | SettlementOptimistic => Some [SettlementSettled; SettlementAdjusted]
  | SettlementSettled => Some [SettlementAdjusted]
  | SettlementAdjusted => Some []
  | SettlementOther _ => None
  end.

Inductive TransitionError :=
  | ErrUnrecognizedState (s : SettlementState)
  | ErrCannotTransition (from to : SettlementState).

Definition set_SettlementState (s : SettlementState) (e : Event) : Event :=
  mkEvent (ID e) (Type_ e) (CausalRefsSlice e) (Payload e) (AgentID_ e)
    (Signature e) (CausalTimestamp e) (StakeAmount e) s.

(** [Transition]: advances the event's settlement state. *)
Definition Transition (e : Event) (target : SettlementState) : Event * option TransitionError :=
  match validTransitions (SettlementState_ e) with
  | None => (e, Some (ErrUnrecognizedState (SettlementState_ e)))
  | Some allowed =>
      if decide (target ∈ allowed) then (set_SettlementState target e, None)
      else (e, Some (ErrCannotTransition (SettlementState_ e) target))
  end.

(** One iteration of the loop of [ComputeCausalTimestamp]: a reference absent
    from the map leaves the maximum unchanged. *)
Definition max_ts_step (priorTimestamps : gmap EventID Z) (maxTS : Z) (ref : EventID) : Z :=
  match priorTimestamps !! ref with
  | Some ts => if decide (ts > maxTS) then ts else maxTS
  | None => maxTS
  end.

(** [ComputeCausalTimestamp]: the Lamport clock of a new event. *)
Definition ComputeCausalTimestamp (refs : list EventID) (priorTimestamps : gmap EventID Z) : Z :=
  u64 (foldl (max_ts_step priorTimestamps) 0 refs + 1).

(** * Lemmas *)

Lemma foldl_max_ge (prior : gmap EventID Z) refs acc :
  acc <= foldl (max_ts_step prior) acc refs.
Proof.
  revert acc. induction refs as [|r refs IH]; intros acc; simpl; [lia|].
  etrans; [|apply IH]. unfold max_ts_step. case_match; [case_decide|]; lia.
Qed.

Lemma foldl_max_upper (prior : gmap EventID Z) refs r ts acc :
  r ∈ refs → prior !! r = Some ts →
  ts <= foldl (max_ts_step prior) acc refs.
Proof.
  revert acc. induction refs as [|r' refs IH]; intros acc Hr Hts; [set_solver|].
  apply elem_of_cons in Hr as [<-|Hr]; simpl; [|by apply IH].
  etrans; [|apply foldl_max_ge]. unfold max_ts_step. rewrite Hts. case_decide; lia.
Qed.

Lemma foldl_max_bound (prior : gmap EventID Z) refs acc B :
  acc <= B → (∀ r ts, r ∈ refs → prior !! r = Some ts → ts <= B) →
  foldl (max_ts_step prior) acc refs <= B.
Proof.
  revert acc. induction refs as [|r refs IH]; intros acc Hacc HB; simpl; [done|].
  apply IH; [|set_solver]. unfold max_ts_step.
  destruct (prior !! r) as [ts|] eqn:Hr; [|done].
  specialize (HB r ts ltac:(set_solver) Hr). case_decide; lia.
Qed.

(** Lamport clock condition: a new event's timestamp exceeds that of every
    known reference, and a root event starts at 1. *)
Lemma ComputeCausalTimestamp_gt refs prior r ts :
  (∀ r ts, prior !! r = Some ts → 0 <= ts < MaxUint64) →
  r ∈ refs → prior !! r = Some ts → ts < ComputeCausalTimestamp refs prior.
Proof.
  intros Hb Hr Hts. unfold ComputeCausalTimestamp.
  set (m := foldl _ 0 refs).
  assert (ts <= m) by (by eapply foldl_max_upper).
  assert (m < MaxUint64).
  { enough (m <= MaxUint64 - 1) by lia. apply foldl_max_bound; [unfold MaxUint64; lia|].
    intros r' ts' _ H'. apply Hb in H'. lia. }
  pose proof (Hb r ts Hts). rewrite u64_small; [lia|].
  unfold is_u64, u64_mod, MaxUint64 in *. lia.
Qed.

(** ** A concrete decoder

    Used where a theorem is applied to a concrete event: every payload decodes
    to the same values. *)
Definition constant_codec (tp : TransferPayload) (gp : GenerationPayload)
    (ts : TaskSettlementPayload) : PayloadCodec := {|
  unmarshal_transfer _ := Some tp;
  unmarshal_generation _ := Some gp;
  unmarshal_task_settlement _ := Some ts;
|}.

Lemma constant_codec_ok tp gp ts :
  is_u64 (tp_Amount tp) → is_u64 (gp_ClaimedValue gp) →
  @PayloadCodecOk (constant_codec tp gp ts).
Proof. intros. split; intros s p [= <-]; done. Qed.
