(* ===== verification/Accounts.v ===== *)
(** The abstract specification of a ledger: exact integer accounts.

    [acct A a] is what agent [a] may spend; "system" is the source of all
    minted value and the only account that may be negative.  The transfer
    ledger is shown to implement these accounts (file Transfer); escrow,
    staking and fees are proved against the class [BucketLedger] below. *)

From S2P Require Import Prelude Event.

Definition acct (A : gmap AgentID Z) (a : AgentID) : Z := default 0 (A !! a).

Definition credit (a : AgentID) (z : Z) (A : gmap AgentID Z) : gmap AgentID Z :=
  <[a := acct A a + z]> A.

(** Moving [z] from one account to another. *)
Definition move (src dst : AgentID) (z : Z) (A : gmap AgentID Z) : gmap AgentID Z :=
  credit dst z (credit src (- z) A).

Definition system_agent : AgentID := "system".

(** Everybody but the system is solvent, nothing was created except by the
    system, and the issue fits a signed 64-bit integer. *)
Record solvent (A : gmap AgentID Z) : Prop := {
  solvent_nonneg a : a ≠ system_agent → 0 <= acct A a;
  solvent_backed : map_sum id A <= 0;
  solvent_system : - 9223372036854775808 < acct A system_agent;
}.

(** What the ledger promises to the components that hold value in buckets
    (escrow, staking, fees): the operation [TransferFromBucketLabeled] and its
    error, and the query [Balance]. *)
Class BucketLedger (L Err : Type) : Type := {
  bl_transfer : AgentID → AgentID → Z → string → bool → Z → L → L * option Err;
  bl_balance : L → AgentID → Z;
}.

Class BucketLedgerLaws (L Err : Type) `{!BucketLedger L Err} : Type := {
  (** the ledger is in a state in which its accounts are exact and solvent *)
  bl_ok : L → Prop;
  bl_acct : L → AgentID → Z;
  bl_balance_acct l a : bl_ok l → bl_balance l a = Z.max 0 (bl_acct l a);
  bl_acct_nonneg l a : bl_ok l → a ≠ system_agent → 0 <= bl_acct l a;
  (** a successful transfer was covered and moves exactly [amount] *)
  bl_transfer_ok src dst amount memo g now l l' :
    bl_ok l → is_u64 amount → bl_transfer src dst amount memo g now l = (l', None) →
    bl_ok l' ∧ (amount <= bl_acct l src ∨ amount = 0) ∧
    ∀ a, bl_acct l' a = bl_acct l a - (if decide (a = src) then amount else 0)
                                    + (if decide (a = dst) then amount else 0);
  (** a failed one moves nothing *)
  bl_transfer_err src dst amount memo g now l l' e :
    bl_ok l → bl_transfer src dst amount memo g now l = (l', Some e) →
    bl_ok l' ∧ ∀ a, bl_acct l' a = bl_acct l a;
  (** an uncovered one fails *)
  bl_transfer_uncovered src dst amount memo g now l :
    bl_ok l → is_u64 amount → Z.max 0 (bl_acct l src) < amount →
    ∃ e, (bl_transfer src dst amount memo g now l).2 = Some e;
}.

(** * Lemmas *)

Lemma acct_credit A a z b :
  acct (credit a z A) b = acct A b + (if decide (b = a) then z else 0).
Proof.
  unfold acct, credit. destruct (decide (b = a)) as [->|].
  - by rewrite lookup_insert_eq.
  - rewrite lookup_insert_ne by done. lia.
Qed.

Lemma acct_move A src dst z b :
  acct (move src dst z A) b
  = acct A b - (if decide (b = src) then z else 0) + (if decide (b = dst) then z else 0).
Proof. unfold move. rewrite !acct_credit. repeat case_decide; lia. Qed.

Lemma acct_empty a : acct ∅ a = 0.
Proof. unfold acct. by rewrite lookup_empty. Qed.

Lemma sum_credit A a z : map_sum id (credit a z A) = map_sum id A + z.
Proof.
  unfold credit, acct. destruct (A !! a) as [x|] eqn:Ha; simpl.
  - rewrite (map_sum_update _ _ _ _ _ Ha). unfold id. lia.
  - rewrite map_sum_insert by done. unfold id. lia.
Qed.

Lemma sum_move A src dst z : map_sum id (move src dst z A) = map_sum id A.
Proof. unfold move. rewrite !sum_credit. lia. Qed.

(** The accounts other than the system's add up to what is missing from it. *)
Lemma sum_others A :
  map_sum id (delete system_agent A) = map_sum id A - acct A system_agent.
Proof.
  unfold acct. destruct (A !! system_agent) eqn:Hsys; simpl.
  - by rewrite (map_sum_delete _ _ _ _ Hsys).
  - rewrite delete_id by done. lia.
Qed.

Lemma others_nonneg A k v :
  solvent A → delete system_agent A !! k = Some v → 0 <= v.
Proof.
  intros [Hn _ _] [Hk Hv]%lookup_delete_Some. specialize (Hn k).
  unfold acct in Hn. rewrite Hv in Hn. simpl in Hn. by apply Hn.
Qed.

Lemma solvent_system_nonpos A : solvent A → acct A system_agent <= 0.
Proof.
  intros HA. pose proof (map_sum_nonneg id _ (λ k v, others_nonneg A k v HA)) as Hp.
  rewrite sum_others in Hp. destruct HA. lia.
Qed.

(** No account exceeds what the system issued. *)
Lemma solvent_bound A a : solvent A → is_i64 (acct A a).
Proof.
  intros HA. pose proof (solvent_system_nonpos A HA) as Hsn.
  destruct (decide (a = system_agent)) as [->|Hne]; [destruct HA; unfold is_i64; lia|].
  assert (acct A a <= map_sum id (delete system_agent A)) as Hle.
  { replace (acct A a) with (acct (delete system_agent A) a)
      by (unfold acct; by rewrite lookup_delete_ne).
    unfold acct. destruct (delete system_agent A !! a) as [v|] eqn:Hv; simpl.
    - apply (map_sum_lookup_le id _ a v); [|done]. intros k w. by apply others_nonneg.
    - apply map_sum_nonneg. intros k w. by apply others_nonneg. }
  rewrite sum_others in Hle. destruct HA as [Hn Hb Hs]. specialize (Hn a Hne).
  unfold is_i64. lia.
Qed.

Lemma solvent_empty : solvent ∅.
Proof. split; intros; rewrite ?acct_empty, ?map_sum_empty; lia. Qed.

(** A covered debit keeps everybody solvent. *)
Lemma solvent_debit A src z :
  solvent A → 0 <= z → (src ≠ system_agent ∧ z <= acct A src) ∨ z = 0 →
  solvent (credit src (- z) A).
Proof.
  intros [Hn Hb Hs] Hz Hcov. split.
  - intros a Ha. rewrite acct_credit. specialize (Hn a Ha).
    destruct Hcov as [[Hsrc Hc]| ->]; case_decide; subst; lia.
  - rewrite sum_credit. lia.
  - rewrite acct_credit. destruct Hcov as [[Hsrc Hc]| ->]; case_decide; subst; try congruence; lia.
Qed.

(** So does a credit that the pending debits pay for. *)
Lemma solvent_credit A dst z :
  solvent A → 0 <= z → map_sum id A + z <= 0 → solvent (credit dst z A).
Proof.
  intros [Hn Hb Hs] Hz Hsum. split.
  - intros a Ha. rewrite acct_credit. specialize (Hn a Ha). case_decide; lia.
  - by rewrite sum_credit.
  - rewrite acct_credit. case_decide; lia.
Qed.

Lemma solvent_move A src dst z :
  solvent A → 0 <= z → (src ≠ system_agent ∧ z <= acct A src) ∨ z = 0 →
  solvent (move src dst z A).
Proof.
  intros HA Hz Hcov. pose proof (solvent_debit A src z HA Hz Hcov) as HD.
  apply solvent_credit; [done..|]. rewrite sum_credit. destruct HA. lia.
Qed.

(** Minting is a transfer from the system. *)
Lemma solvent_mint A dst z :
  solvent A → 0 <= z → z - acct A system_agent < 9223372036854775808 →
  solvent (move system_agent dst z A).
Proof.
  intros [Hn Hb Hs] Hz Hm. split.
  - intros a Ha. rewrite acct_move. specialize (Hn a Ha). repeat case_decide; congruence || lia.
  - by rewrite sum_move.
  - rewrite acct_move. repeat case_decide; congruence || lia.
Qed.

(** ** The reference ledger

    The accounts themselves as a bucket ledger: the abstract machine that the
    class describes, and an instance of its laws to evaluate clients with. *)
#[global] Instance exact_ledger : BucketLedger (gmap AgentID Z) unit := {|
  bl_transfer src dst amount _ _ _ A :=
    if decide (Z.max 0 (acct A src) < amount) then (A, Some tt) else (move src dst amount A, None);
  bl_balance A a := Z.max 0 (acct A a);
|}.

#[global] Program Instance exact_ledger_laws : BucketLedgerLaws (gmap AgentID Z) unit := {|
  bl_ok := solvent;
  bl_acct := acct;
|}.
Next Obligation. done. Qed.
Next Obligation. intros l a Hl. apply Hl. Qed.
Next Obligation.
  unfold is_u64. intros src dst amount memo g now l l' Hl Hu. simpl. case_decide as Hc; intros; simplify_eq.
  assert ((src ≠ system_agent ∧ amount <= acct l src) ∨ amount = 0) as Hcov.
  { destruct (decide (src = system_agent)) as [->|Hne]; [|left; split; [exact Hne|]].
    - pose proof (solvent_system_nonpos l Hl). right. lia.
    - pose proof (solvent_nonneg l Hl src Hne). lia. }
  split_and!; [apply solvent_move; [done|lia|done]|destruct Hcov as [[]|]; auto|intros a; apply acct_move].
Qed.
Next Obligation. intros src dst amount memo g now l l' e Hl. simpl. case_decide; intros; by simplify_eq. Qed.
Next Obligation.
  intros src dst amount memo g now l Hl Hu Hlt. simpl. rewrite decide_True by done. by eexists.
Qed.

(** Accounts with a single issue. *)
Lemma solvent_issue a z :
  a ≠ system_agent → 0 <= z < 9223372036854775808 → solvent (move system_agent a z ∅).
Proof.
  intros Ha Hz. apply solvent_mint; [apply solvent_empty|lia|]. rewrite acct_empty. lia.
Qed.
