(* ===== verification/Transfer.v ===== *)
(** internal/ledger/transfer.go and the transfer half of archival.go: the
    Transfer Ledger.

    State: the in-memory entries, the net contribution of archived entries,
    the optional store, the mint cap, the running total minted, and the
    package-level bucket counter (which is per process, not persisted).
    Every method body runs under the ledger's mutex, so it is one step.  Wall
    clock readings ([time.Now()]) are arguments, in nanoseconds since the zero
    [time.Time]. *)

From S2P Require Import Prelude GoStd Store Event Accounts.

(** * Data *)

Record TransferEntry := mkTransferEntry {
  te_EventID : EventID;
  te_FromAgent : AgentID;
  te_ToAgent : AgentID;
  te_Amount : Z;
  te_Currency : string;
  te_Memo : string;
  te_Reason : string;
  te_Timestamp : Z;
  te_Settlement : SettlementState;
  te_RecordedAt : Z;
  te_IsGenesis : bool;
}.

Inductive LedgerError :=
  | ErrNotTransfer
  | ErrDecodePayload
  | ErrDuplicateEntry
  | ErrEntryNotFound
  | ErrInvalidTransition
  | ErrInsufficientBalance
  | ErrMintCapExceeded
  | ErrPersist.

Record ArchiveConfig := mkArchiveConfig { Threshold : Z; Interval : Z }.

Record TransferLedger (St : Type) := mkTL {
  tl_entries : gmap EventID TransferEntry;
  tl_archivedNetSettled : gmap AgentID Z;
  tl_archiveDone : option ArchiveConfig;  (* the running archival goroutine *)
  tl_store : option St;
  tl_mintCap : Z;
  tl_totalMinted : Z;
  tl_bucketCounter : Z;
}.
#[global] Arguments mkTL {St} _ _ _ _ _ _ _.
#[global] Arguments tl_entries {St} _.
#[global] Arguments tl_archivedNetSettled {St} _.
#[global] Arguments tl_archiveDone {St} _.
#[global] Arguments tl_store {St} _.
#[global] Arguments tl_mintCap {St} _.
#[global] Arguments tl_totalMinted {St} _.
#[global] Arguments tl_bucketCounter {St} _.

Definition mintedMetaKey : string := "ledger:total_minted".
Definition archiveDefaultInterval : Z := 3600000000000.
Definition DefaultArchiveThreshold : Z := 7 * 24 * 3600000000000.

Definition set_Settlement (s : SettlementState) (e : TransferEntry) : TransferEntry :=
  mkTransferEntry (te_EventID e) (te_FromAgent e) (te_ToAgent e) (te_Amount e) (te_Currency e)
    (te_Memo e) (te_Reason e) (te_Timestamp e) s (te_RecordedAt e) (te_IsGenesis e).

(** [validLedgerTransitions[from][to]]; [None] for an unknown [from]. *)
Definition validLedgerTransitions (from : SettlementState) : option (SettlementState → bool) :=
  match from with
  | SettlementOptimistic => Some (λ s, bool_decide (s = SettlementSettled ∨ s = SettlementAdjusted))
  | SettlementSettled => Some (λ s, bool_decide (s = SettlementAdjusted))
  | SettlementAdjusted => Some (λ _, false)
  | SettlementOther _ => None
  end.

(** An inflow counts once settled; an outflow is reserved as soon as it is
    optimistic. *)
Definition inflow (a : AgentID) (e : TransferEntry) : Z :=
  if decide (te_ToAgent e = a ∧ te_Settlement e = SettlementSettled) then te_Amount e else 0.

Definition outflow (a : AgentID) (e : TransferEntry) : Z :=
  if decide (te_FromAgent e = a
             ∧ (te_Settlement e = SettlementSettled ∨ te_Settlement e = SettlementOptimistic))
  then te_Amount e else 0.

Section TransferLedger.
Context `{!PayloadCodec} {St : Type} `{!Persistence St TransferEntry, !MetaPersistence St}.
Implicit Types (l : TransferLedger St).

(** * Operations *)

Definition tl_NewTransferLedger (bucketCounter : Z) : TransferLedger St :=
  mkTL ∅ ∅ None None 0 0 bucketCounter.

Definition tl_SetStore (s : St) l : TransferLedger St :=
  mkTL (tl_entries l) (tl_archivedNetSettled l) (tl_archiveDone l) (Some s)
    (tl_mintCap l) (tl_totalMinted l) (tl_bucketCounter l).

Definition tl_SetMintCap (cap : Z) l : TransferLedger St :=
  mkTL (tl_entries l) (tl_archivedNetSettled l) (tl_archiveDone l) (tl_store l)
    cap (tl_totalMinted l) (tl_bucketCounter l).

Definition tl_TotalMinted l : Z := tl_totalMinted l.

Definition tl_Empty l : bool :=
  bool_decide (size (tl_entries l) = 0%nat ∧ size (tl_archivedNetSettled l) = 0%nat).

(** [l.entries[id] = e] followed by the write-through of [e]. *)
Definition tl_put (e : TransferEntry) l : TransferLedger St :=
  mkTL (<[te_EventID e := e]> (tl_entries l)) (tl_archivedNetSettled l) (tl_archiveDone l)
    (write_through e (tl_store l)) (tl_mintCap l) (tl_totalMinted l) (tl_bucketCounter l).

Definition tl_balanceLocked l (agentID : AgentID) : Z :=
  let inSettled := wrapped_sum (inflow agentID) (tl_entries l) in
  let outReserved := wrapped_sum (outflow agentID) (tl_entries l) in
  let archived := default 0 (tl_archivedNetSettled l !! agentID) in
  let net := i64 (i64 (archived + i64 inSettled) - i64 outReserved) in
  if decide (net <= 0) then 0 else u64 net.

Definition tl_Balance l (agentID : AgentID) : Z := tl_balanceLocked l agentID.

Definition tl_BalanceCheck l (agentID : AgentID) (amount : Z) : option LedgerError :=
  if decide (tl_balanceLocked l agentID < amount) then Some ErrInsufficientBalance else None.

(** The entry built from a Transfer event by [Record] and [RecordFromSync]. *)
Definition entry_of_event (e : Event) (p : TransferPayload) (now : Z) : TransferEntry :=
  mkTransferEntry (ID e) (tp_FromAgent p) (tp_ToAgent p) (tp_Amount p) (tp_Currency p)
    (tp_Memo p) (tp_Reason p) (CausalTimestamp e) (SettlementState_ e) now false.

Definition tl_Record (e : Event) (now : Z) l : TransferLedger St * option LedgerError :=
  if decide (Type_ e ≠ EventTypeTransfer) then (l, Some ErrNotTransfer)
  else match GetPayload unmarshal_transfer e with
  | None => (l, Some ErrDecodePayload)
  | Some p =>
      match tl_entries l !! ID e with
      | Some _ => (l, Some ErrDuplicateEntry)
      | None =>
          if decide ((tp_FromAgent p ≠ system_agent ∧ tp_Amount p > 0)
                     ∧ tl_balanceLocked l (tp_FromAgent p) < tp_Amount p)
          then (l, Some ErrInsufficientBalance)
          else (tl_put (entry_of_event e p now) l, None)
      end
  end.

Definition tl_RecordFromSync (e : Event) (now : Z) l : TransferLedger St * option LedgerError :=
  if decide (Type_ e ≠ EventTypeTransfer) then (l, Some ErrNotTransfer)
  else match GetPayload unmarshal_transfer e with
  | None => (l, Some ErrDecodePayload)
  | Some p =>
      match tl_entries l !! ID e with
      | Some _ => (l, None)
      | None => (tl_put (entry_of_event e p now) l, None)
      end
  end.

Definition tl_Settle (eventID : EventID) (state : SettlementState) l :
    TransferLedger St * option LedgerError :=
  match tl_entries l !! eventID with
  | None => (l, Some ErrEntryNotFound)
  | Some entry =>
      match validLedgerTransitions (te_Settlement entry) with
      | None => (l, Some ErrInvalidTransition)
      | Some allowed =>
          if allowed state then
            let entry' := set_Settlement state entry in
            (mkTL (<[eventID := entry']> (tl_entries l)) (tl_archivedNetSettled l)
               (tl_archiveDone l) (write_through entry' (tl_store l))
               (tl_mintCap l) (tl_totalMinted l) (tl_bucketCounter l), None)
          else (l, Some ErrInvalidTransition)
      end
  end.

Definition tl_GetSettlement l (eventID : EventID) : SettlementState * bool :=
  match tl_entries l !! eventID with
  | Some entry => (te_Settlement entry, true)
  | None =>
      match tl_store l with
      | Some s =>
          match store_get eventID s with
          | Some stored => (te_Settlement stored, true)
          | None => (SettlementOptimistic, false)
          end
      | None => (SettlementOptimistic, false)
      end
  end.

(** The deterministic ID of a genesis credit. *)
Definition genesis_id (agentID : AgentID) (amount : Z) : EventID :=
  sha256_hex ("genesis-mint:" +:+ agentID +:+ ":" +:+ fmt_d amount).

Definition genesis_entry (agentID : AgentID) (amount now : Z) : TransferEntry :=
  mkTransferEntry (genesis_id agentID amount) system_agent agentID amount "AET"
    "genesis credit" "" 0 SettlementSettled now true.

(** [FundAgent]: the entry is persisted before memory changes, and a failed
    put aborts; the running total is persisted best-effort. *)
Definition tl_FundAgent (agentID : AgentID) (amount now : Z) l :
    TransferLedger St * option LedgerError :=
  if decide (tl_mintCap l > 0 ∧ u64 (tl_totalMinted l + amount) > tl_mintCap l)
  then (l, Some ErrMintCapExceeded)
  else match tl_entries l !! genesis_id agentID amount with
  | Some _ => (l, Some ErrDuplicateEntry)
  | None =>
      let entry := genesis_entry agentID amount now in
      let commit s :=
        mkTL (<[genesis_id agentID amount := entry]> (tl_entries l)) (tl_archivedNetSettled l)
          (tl_archiveDone l) s (tl_mintCap l) (u64 (tl_totalMinted l + amount))
          (tl_bucketCounter l) in
      match tl_store l with
      | None => (commit None, None)
      | Some s =>
          let (s1, ok) := store_put entry s in
          if ok then
            let newMinted := u64 (tl_totalMinted l + amount) in
            (commit (Some (meta_put mintedMetaKey (be_put newMinted) s1).1), None)
          else
            (mkTL (tl_entries l) (tl_archivedNetSettled l) (tl_archiveDone l) (Some s1)
               (tl_mintCap l) (tl_totalMinted l) (tl_bucketCounter l), Some ErrPersist)
      end
  end.

Definition bucket_id (fromID toID : AgentID) (amount n : Z) : EventID :=
  "bucket:" +:+ fromID +:+ ":" +:+ toID +:+ ":" +:+ fmt_d amount +:+ ":" +:+ fmt_d n.

Definition bucket_entry (fromID toID : AgentID) (amount n : Z) (memo : string)
    (isGenesis : bool) (now : Z) : TransferEntry :=
  mkTransferEntry (bucket_id fromID toID amount n) fromID toID amount "AET" memo "" 0
    SettlementSettled now isGenesis.

Definition tl_bump_counter l : TransferLedger St :=
  mkTL (tl_entries l) (tl_archivedNetSettled l) (tl_archiveDone l) (tl_store l)
    (tl_mintCap l) (tl_totalMinted l) (u64 (tl_bucketCounter l + 1)).

Definition tl_TransferFromBucketLabeled (fromID toID : AgentID) (amount : Z) (memo : string)
    (isGenesis : bool) (now : Z) l : TransferLedger St * option LedgerError :=
  let available := tl_balanceLocked l fromID in
  if decide (available < amount) then (l, Some ErrInsufficientBalance)
  else
    let l1 := tl_bump_counter l in
    let n := tl_bucketCounter l1 in
    match tl_entries l1 !! bucket_id fromID toID amount n with
    | Some _ => (l1, Some ErrDuplicateEntry)
    | None => (tl_put (bucket_entry fromID toID amount n memo isGenesis now) l1, None)
    end.

Definition tl_TransferFromBucket (fromID toID : AgentID) (amount now : Z) l :
    TransferLedger St * option LedgerError :=
  tl_TransferFromBucketLabeled fromID toID amount "onboarding allocation" true now l.

Definition tl_PendingOutgoing l (agentID : AgentID) : Z :=
  wrapped_sum (λ e, if decide (te_FromAgent e = agentID ∧ te_Settlement e = SettlementOptimistic)
                    then te_Amount e else 0) (tl_entries l).

(** [ResetOptimisticOutflows]: the loop deletes from memory and store. *)
Definition tl_ResetOptimisticOutflows (agentID : AgentID) l : TransferLedger St * Z :=
  let '(ents, s, removed) :=
    map_fold (λ id e '(ents, s, removed),
      if decide (te_FromAgent e = agentID ∧ te_Settlement e = SettlementOptimistic)
      then (delete id ents, delete_through TransferEntry id s, removed + 1)
      else (ents, s, removed))
      (tl_entries l, tl_store l, 0) (tl_entries l) in
  (mkTL ents (tl_archivedNetSettled l) (tl_archiveDone l) s (tl_mintCap l) (tl_totalMinted l)
     (tl_bucketCounter l), removed).

Definition tl_LastTransferByReason l (agentID : AgentID) (reason : string) : Z :=
  map_fold (λ _ e latest,
    if decide ((te_ToAgent e = agentID ∧ te_Settlement e = SettlementSettled)
               ∧ te_Reason e = reason)
    then if decide (latest < te_RecordedAt e) then te_RecordedAt e else latest
    else latest) 0 (tl_entries l).

(** The order of [History]: timestamp descending, then event ID descending. *)
Definition history_le (e1 e2 : TransferEntry) : Prop :=
  te_Timestamp e1 > te_Timestamp e2
  ∨ (te_Timestamp e1 = te_Timestamp e2 ∧ String.le (te_EventID e2) (te_EventID e1)).

#[global] Instance history_le_dec e1 e2 : Decision (history_le e1 e2).
Proof. unfold history_le, String.le. apply _. Defined.

Definition history_matches (agentID : AgentID) (e : TransferEntry) : Prop :=
  te_IsGenesis e = false ∧ (te_FromAgent e = agentID ∨ te_ToAgent e = agentID).

#[global] Instance history_matches_dec agentID e : Decision (history_matches agentID e).
Proof. unfold history_matches. apply _. Defined.

(** The paging at the end of [History], [GenerationHistory] and [All]. *)
Definition page {A} (limit offset : Z) (matched : list A) : list A :=
  let total := Z.of_nat (length matched) in
  let offset := if decide (offset < 0) then 0 else offset in
  if decide (offset >= total) then []
  else
    let matched := drop (Z.to_nat offset) matched in
    if decide (limit > 0 ∧ limit < Z.of_nat (length matched))
    then take (Z.to_nat limit) matched else matched.

(** [order] is the order in which Go's map iteration yields the entries. *)
Definition tl_History (order : list (EventID * TransferEntry)) (agentID : AgentID)
    (limit offset : Z) : list TransferEntry :=
  let matched := filter (history_matches agentID) order.*2 in
  page limit offset (sort_slice history_le matched).

(** [LoadTransferLedgerFromStore], in a process whose bucket counter is [bc]. *)
Definition tl_LoadTransferLedgerFromStore (s : St) (bc : Z) : option (TransferLedger St) :=
  match store_all s with
  | None => None
  | Some ents =>
      let minted :=
        match meta_get mintedMetaKey s with
        | Some data => if decide (length data = 8%nat) then be_get data else 0
        | None => 0
        end in
      Some (mkTL (load_all te_EventID ents) ∅ None (Some s)
              0 minted bc)
  end.

(** ** archival.go *)

Definition archiveCfgWithDefaults (cfg : ArchiveConfig) : ArchiveConfig :=
  if decide (Interval cfg <= 0) then mkArchiveConfig (Threshold cfg) archiveDefaultInterval else cfg.

(** The accounting of one evicted entry: int64 arithmetic on the map. *)
Definition archive_entry (e : TransferEntry) (arch : gmap AgentID Z) : gmap AgentID Z :=
  if decide (te_Settlement e = SettlementSettled) then
    let arch1 := <[te_ToAgent e :=
      i64 (default 0 (arch !! te_ToAgent e) + i64 (te_Amount e))]> arch in
    <[te_FromAgent e := i64 (default 0 (arch1 !! te_FromAgent e) - i64 (te_Amount e))]> arch1
  else arch.

Definition evict_step (cutoff : Z) (id : EventID) (e : TransferEntry)
    (acc : gmap EventID TransferEntry * gmap AgentID Z * Z) :
    gmap EventID TransferEntry * gmap AgentID Z * Z :=
  let '(ents, arch, removed) := acc in
  if decide (te_Settlement e = SettlementOptimistic) then (ents, arch, removed)
  else if decide (¬ te_RecordedAt e < cutoff) then (ents, arch, removed)
  else (delete id ents, archive_entry e arch, removed + 1).

Definition tl_EvictBefore (cutoff : Z) l : TransferLedger St * Z :=
  let '(ents, arch, removed) :=
    map_fold (evict_step cutoff) (tl_entries l, tl_archivedNetSettled l, 0) (tl_entries l) in
  (mkTL ents arch (tl_archiveDone l) (tl_store l) (tl_mintCap l) (tl_totalMinted l)
     (tl_bucketCounter l), removed).

Definition tl_LoadTransferEntry l (id : EventID) : TransferEntry + LedgerError :=
  match tl_entries l !! id with
  | Some entry => inl entry
  | None =>
      match tl_store l with
      | Some s =>
          match store_get id s with
          | Some stored => inl stored
          | None => inr ErrEntryNotFound
          end
      | None => inr ErrEntryNotFound
      end
  end.

Definition tl_set_archiveDone (d : option ArchiveConfig) l : TransferLedger St :=
  mkTL (tl_entries l) (tl_archivedNetSettled l) d (tl_store l) (tl_mintCap l)
    (tl_totalMinted l) (tl_bucketCounter l).

Definition tl_Start (cfg : ArchiveConfig) l : TransferLedger St :=
  if decide (Threshold cfg <= 0) then l
  else match tl_archiveDone l with
  | Some _ => l
  | None => tl_set_archiveDone (Some (archiveCfgWithDefaults cfg)) l
  end.

Definition tl_Stop l : TransferLedger St := tl_set_archiveDone None l.

(** One tick of the archival goroutine. *)
Definition tl_archive_tick (now : Z) l : TransferLedger St :=
  match tl_archiveDone l with
  | Some cfg => (tl_EvictBefore (now - Threshold cfg) l).1
  | None => l
  end.

End TransferLedger.

(** * Exact accounts *)

(** What one entry contributes to the net position of [a]. *)
Definition flow (a : AgentID) (e : TransferEntry) : Z := inflow a e - outflow a e.

Definition evictable (cutoff : Z) (e : TransferEntry) : Prop :=
  te_Settlement e ≠ SettlementOptimistic ∧ te_RecordedAt e < cutoff.

#[global] Instance evictable_dec cutoff e : Decision (evictable cutoff e).
Proof. unfold evictable. apply _. Defined.

(** The net position before it is wrapped and clamped. *)
Definition tl_net {St} (l : TransferLedger St) (a : AgentID) : Z :=
  default 0 (tl_archivedNetSettled l !! a) + map_sum (flow a) (tl_entries l).

(** The ledger keeps the accounts [A], as residues modulo 2^64. *)
Definition implements {St} (l : TransferLedger St) (A : gmap AgentID Z) : Prop :=
  ∀ a, tl_net l a ≡64 acct A a.

Lemma map_sum_flow a (m : gmap EventID TransferEntry) :
  map_sum (flow a) m = map_sum (inflow a) m - map_sum (outflow a) m.
Proof.
  induction m as [|k e m Hk IH] using map_ind; [by rewrite !map_sum_empty|].
  rewrite !map_sum_insert by done. unfold flow at 1. lia.
Qed.

Lemma map_sum_split (f : TransferEntry → Z) (P : TransferEntry → Prop) `{∀ e, Decision (P e)}
    (m : gmap EventID TransferEntry) :
  map_sum f m = map_sum f (filter (λ kv, P kv.2) m) + map_sum f (filter (λ kv, ¬ P kv.2) m).
Proof.
  rewrite <- (map_filter_union_complement (λ kv, P kv.2) m) at 1.
  apply map_sum_union. apply map_disjoint_filter_complement.
Qed.

Section accounts.
Context `{!PayloadCodec} {St : Type} `{!Persistence St TransferEntry, !MetaPersistence St}.
Implicit Types (l : TransferLedger St) (A : gmap AgentID Z).

(** The code's wrapped, order-dependent loops compute the clamped net. *)
Lemma balance_net l a : tl_balanceLocked l a = Z.max 0 (i64 (tl_net l a)).
Proof.
  unfold tl_balanceLocked.
  assert (i64 (i64 (default 0 (tl_archivedNetSettled l !! a)
      + i64 (wrapped_sum (inflow a) (tl_entries l)))
      - i64 (wrapped_sum (outflow a) (tl_entries l))) = i64 (tl_net l a)) as ->.
  { apply i64_proper. unfold tl_net. rewrite map_sum_flow. eqm_norm.
    rewrite !wrapped_sum_eqm. eqm_lia. }
  pose proof (i64_range (tl_net l a)) as Hr. unfold is_i64 in Hr.
  case_decide; [lia|]. rewrite u64_small; [lia|]. unfold is_u64, u64_mod. lia.
Qed.

Lemma implements_balance l A a :
  implements l A → is_i64 (acct A a) → tl_balanceLocked l a = Z.max 0 (acct A a).
Proof. intros Hi Hr. rewrite balance_net, (Hi a). by rewrite i64_small. Qed.

(** ** Effect of each mutation on the accounts *)

Lemma net_put l e a :
  tl_entries l !! te_EventID e = None → tl_net (tl_put e l) a = tl_net l a + flow a e.
Proof. intros Hf. unfold tl_net, tl_put; simpl. rewrite map_sum_insert by done. lia. Qed.

Lemma flow_settled a e :
  te_Settlement e = SettlementSettled →
  flow a e = (if decide (a = te_ToAgent e) then te_Amount e else 0)
           - (if decide (a = te_FromAgent e) then te_Amount e else 0).
Proof.
  intros Hs. unfold flow, inflow, outflow. rewrite Hs.
  repeat case_decide; destruct_and?; simplify_eq; try lia; exfalso; naive_solver.
Qed.

Lemma flow_optimistic a e :
  te_Settlement e = SettlementOptimistic →
  flow a e = - (if decide (a = te_FromAgent e) then te_Amount e else 0).
Proof.
  intros Hs. unfold flow, inflow, outflow. rewrite Hs.
  repeat case_decide; destruct_and?; simplify_eq; try lia; exfalso; naive_solver.
Qed.

Lemma flow_other a e :
  te_Settlement e ≠ SettlementSettled → te_Settlement e ≠ SettlementOptimistic → flow a e = 0.
Proof.
  intros H1 H2. unfold flow, inflow, outflow.
  repeat case_decide; destruct_and?; simplify_eq; try lia; exfalso; naive_solver.
Qed.

(** ** Eviction *)

Lemma archive_entry_flow e arch a :
  te_Settlement e ≠ SettlementOptimistic →
  default 0 (archive_entry e arch !! a) ≡64 default 0 (arch !! a) + flow a e.
Proof.
  intros Hne. unfold archive_entry. case_decide as Hs.
  - rewrite flow_settled by done. set (arch1 := <[te_ToAgent e := _]> arch).
    assert (∀ b, default 0 (arch1 !! b)
      ≡64 default 0 (arch !! b) + (if decide (b = te_ToAgent e) then te_Amount e else 0)) as H1.
    { intros b. unfold arch1. case_decide; subst.
      - rewrite lookup_insert_eq; simpl. by eqm_norm.
      - rewrite lookup_insert_ne by done. by rewrite Z.add_0_r. }
    destruct (decide (a = te_FromAgent e)) as [->|Ha].
    + rewrite lookup_insert_eq; simpl. eqm_norm. rewrite H1. eqm_lia.
    + rewrite lookup_insert_ne by done. rewrite H1. eqm_lia.
  - rewrite flow_other by done. by rewrite Z.add_0_r.
Qed.

(** What the eviction loop leaves behind after visiting the entries [m]. *)
Definition evict_inv (cutoff : Z) (E0 : gmap EventID TransferEntry) (arch0 : gmap AgentID Z)
    (acc : gmap EventID TransferEntry * gmap AgentID Z * Z) (m : gmap EventID TransferEntry) : Prop :=
  let '(ents, arch, removed) := acc in
  let gone := filter (λ kv, evictable cutoff kv.2) m in
  (∀ k, ents !! k = if decide (is_Some (gone !! k)) then None else E0 !! k)
  ∧ (∀ a, default 0 (arch !! a) ≡64 default 0 (arch0 !! a) + map_sum (flow a) gone)
  ∧ removed = Z.of_nat (size gone).

Lemma evict_loop cutoff (E0 : gmap EventID TransferEntry) arch0 m :
  m ⊆ E0 → evict_inv cutoff E0 arch0 (map_fold (evict_step cutoff) (E0, arch0, 0) m) m.
Proof.
  apply (map_fold_weak_ind (λ acc m, m ⊆ E0 → evict_inv cutoff E0 arch0 acc m)).
  - intros _. split_and!; [|intros a; by rewrite map_filter_empty, map_sum_empty, Z.add_0_r|by rewrite map_filter_empty].
    intros k. by rewrite map_filter_empty, lookup_empty, decide_False by (by intros [? ?]).
  - intros k e m' [[ents arch] removed] Hk IH Hsub. unfold evict_inv in *.
    destruct IH as (IHe & IHa & IHr).
    { etrans; [|done]. by apply insert_subseteq. }
    unfold evict_step. case_decide as H1; [|case_decide as H2].
    + rewrite map_filter_insert_False by (unfold evictable; naive_solver).
      rewrite delete_id by done. done.
    + rewrite map_filter_insert_False by (unfold evictable; naive_solver).
      rewrite delete_id by done. done.
    + assert (evictable cutoff e) as Hev by (unfold evictable; split; [done|lia]).
      rewrite map_filter_insert_True by done.
      assert (filter (λ kv, evictable cutoff kv.2) m' !! k = None) as Hfk
        by (apply map_lookup_filter_None_2; by left).
      split_and!.
      * intros j. destruct (decide (j = k)) as [->|Hj].
        -- rewrite lookup_delete_eq, lookup_insert_eq. by rewrite decide_True by eauto.
        -- rewrite lookup_delete_ne, lookup_insert_ne by done. apply IHe.
      * intros a. rewrite archive_entry_flow by done. rewrite IHa.
        rewrite map_sum_insert by done. eqm_lia.
      * rewrite map_size_insert_None by done. lia.
Qed.

Lemma evict_entries cutoff l :
  tl_entries (tl_EvictBefore cutoff l).1
  = filter (λ kv, ¬ evictable cutoff kv.2) (tl_entries l).
Proof.
  unfold tl_EvictBefore.
  pose proof (evict_loop cutoff (tl_entries l) (tl_archivedNetSettled l) (tl_entries l)
    ltac:(done)) as Hloop.
  destruct (map_fold _ _ _) as [[ents arch] removed].
  destruct Hloop as (He & _ & _). simpl.
  apply map_eq. intros k. rewrite He. case_decide as Hk.
  - symmetry. apply map_lookup_filter_None_2. right. intros e He' Hn.
    destruct Hk as [e2 [H1 H2]%map_lookup_filter_Some]. simpl in *. congruence.
  - destruct (tl_entries l !! k) as [e|] eqn:Hek.
    + symmetry. apply map_lookup_filter_Some_2; [done|]. simpl. intros Hev. apply Hk.
      exists e. by apply map_lookup_filter_Some_2.
    + symmetry. apply map_lookup_filter_None_2. by left.
Qed.

Lemma evict_archived cutoff l a :
  default 0 (tl_archivedNetSettled (tl_EvictBefore cutoff l).1 !! a)
  ≡64 default 0 (tl_archivedNetSettled l !! a)
      + map_sum (flow a) (filter (λ kv, evictable cutoff kv.2) (tl_entries l)).
Proof.
  unfold tl_EvictBefore.
  pose proof (evict_loop cutoff (tl_entries l) (tl_archivedNetSettled l) (tl_entries l)
    ltac:(done)) as Hloop.
  destruct (map_fold _ _ _) as [[ents arch] removed]. by destruct Hloop as (_ & Ha & _).
Qed.

Lemma net_evict cutoff l a : tl_net (tl_EvictBefore cutoff l).1 a ≡64 tl_net l a.
Proof.
  unfold tl_net. rewrite evict_entries, evict_archived.
  rewrite (map_sum_split (flow a) (evictable cutoff) (tl_entries l)). eqm_lia.
Qed.

Lemma evict_rest cutoff l :
  let l' := (tl_EvictBefore cutoff l).1 in
  tl_store l' = tl_store l ∧ tl_mintCap l' = tl_mintCap l ∧ tl_totalMinted l' = tl_totalMinted l
  ∧ tl_bucketCounter l' = tl_bucketCounter l.
Proof. unfold tl_EvictBefore. by destruct (map_fold _ _ _) as [[? ?] ?]. Qed.

End accounts.

(** * The ledger invariant *)

Definition pending_amount (e : TransferEntry) : Z :=
  if decide (te_Settlement e = SettlementOptimistic) then te_Amount e else 0.

(** The exact accounts [A] behind a ledger state: they are solvent, what has
    been debited but not yet credited is the pending amount, and the system
    has issued no more than the recorded total. *)
Record tl_inv {St} (l : TransferLedger St) (A : gmap AgentID Z) : Prop := {
  inv_implements : implements l A;
  inv_solvent : solvent A;
  inv_pending : map_sum id A + map_sum pending_amount (tl_entries l) <= 0;
  inv_entries id e : tl_entries l !! id = Some e → 0 <= te_Amount e ∧ te_EventID e = id;
  inv_issue : - acct A system_agent <= tl_totalMinted l;
  inv_minted : 0 <= tl_totalMinted l < 9223372036854775808;
}.

(** Mints stay in range: under a cap the cap fits [int64] and the running total
    does not wrap; without a cap the total fits [int64]. *)
Definition mint_in_range {St} (l : TransferLedger St) (amount : Z) : Prop :=
  0 <= amount ∧ tl_mintCap l < 9223372036854775808 ∧
  tl_totalMinted l + amount < (if decide (0 < tl_mintCap l) then u64_mod else 9223372036854775808).

(** The operations that change a ledger. *)
Inductive ledger_op :=
  | LRecord (e : Event) (now : Z)
  | LRecordFromSync (e : Event) (now : Z)
  | LTransfer (src dst : AgentID) (amount : Z) (memo : string) (isGenesis : bool) (now : Z)
  | LFund (agentID : AgentID) (amount now : Z)
  | LSetMintCap (cap : Z)
  | LSettle (id : EventID) (state : SettlementState)
  | LEvict (cutoff : Z)
  | LReset (agentID : AgentID).

Section ledger_ops.
Context `{!PayloadCodec} {St : Type} `{!Persistence St TransferEntry, !MetaPersistence St}.
Implicit Types (l : TransferLedger St).

Definition ledger_exec (op : ledger_op) l : TransferLedger St :=
  match op with
  | LRecord e now => (tl_Record e now l).1
  | LRecordFromSync e now => (tl_RecordFromSync e now l).1
  | LTransfer src dst amount memo g now => (tl_TransferFromBucketLabeled src dst amount memo g now l).1
  | LFund agentID amount now => (tl_FundAgent agentID amount now l).1
  | LSetMintCap cap => tl_SetMintCap cap l
  | LSettle id state => (tl_Settle id state l).1
  | LEvict cutoff => (tl_EvictBefore cutoff l).1
  | LReset agentID => (tl_ResetOptimisticOutflows agentID l).1
  end.

Fixpoint ledger_run (ops : list ledger_op) l : TransferLedger St :=
  match ops with [] => l | op :: ops => ledger_run ops (ledger_exec op l) end.

(** What the code leaves to its callers: [Record] does not test the balance of the
    sender "system" and [RecordFromSync] of no sender, [Settle] takes a settled
    amount back whether or not its recipient still has it, and [FundAgent] lets
    the total wrap.  Amounts are [uint64]. *)
Definition covered_op (op : ledger_op) l : Prop :=
  match op with
  | LRecord e _ => ∀ p, GetPayload unmarshal_transfer e = Some p → tp_FromAgent p ≠ system_agent
  | LRecordFromSync e _ => ∀ p, GetPayload unmarshal_transfer e = Some p → tp_Amount p <= tl_balanceLocked l (tp_FromAgent p)
  | LTransfer _ _ amount _ _ _ => is_u64 amount
  | LFund _ amount _ => mint_in_range l amount
  | LSettle id state => ∀ e, tl_entries l !! id = Some e → te_Settlement e = SettlementSettled → state = SettlementAdjusted →
      te_Amount e <= tl_balanceLocked l (te_ToAgent e)
  | LSetMintCap _ | LEvict _ | LReset _ => True
  end.

Fixpoint run_covered (ops : list ledger_op) l : Prop :=
  match ops with [] => True | op :: ops => covered_op op l ∧ run_covered ops (ledger_exec op l) end.
End ledger_ops.

Section invariant.
Context `{!PayloadCodec, !PayloadCodecOk} {St : Type}.
Context `{!Persistence St TransferEntry, !MetaPersistence St}.
Implicit Types (l : TransferLedger St) (A : gmap AgentID Z).

Lemma inv_balance l A a : tl_inv l A → tl_balanceLocked l a = Z.max 0 (acct A a).
Proof. intros []. apply implements_balance; [done|]. by apply solvent_bound. Qed.

Lemma inv_new s bc : tl_inv (mkTL ∅ ∅ None s 0 0 bc : TransferLedger St) ∅.
Proof.
  split; [done|apply solvent_empty|done|done|done|simpl; lia].
Qed.

(** The invariant only looks at the entries, the archive and the minted total. *)
Lemma inv_same l l' A :
  tl_entries l' = tl_entries l → tl_archivedNetSettled l' = tl_archivedNetSettled l →
  tl_totalMinted l' = tl_totalMinted l → tl_inv l A → tl_inv l' A.
Proof.
  intros He Ha Hm [Hi Hs Hp Hn Hiss Hmin]. split; rewrite ?He, ?Hm; try done.
  intros a. specialize (Hi a). unfold tl_net in *. by rewrite He, Ha.
Qed.

Lemma pending_fresh l e :
  tl_entries l !! te_EventID e = None →
  map_sum pending_amount (tl_entries (tl_put e l))
  = pending_amount e + map_sum pending_amount (tl_entries l).
Proof. intros. simpl. by rewrite map_sum_insert. Qed.

(** Storing a fresh covered entry, optimistic or settled. *)
Lemma inv_put l A e :
  tl_inv l A → tl_entries l !! te_EventID e = None → 0 <= te_Amount e →
  (te_FromAgent e ≠ system_agent ∧ te_Amount e <= acct A (te_FromAgent e)) ∨ te_Amount e = 0 →
  ∃ A', tl_inv (tl_put e l) A' ∧
    (te_Settlement e = SettlementSettled →
      A' = move (te_FromAgent e) (te_ToAgent e) (te_Amount e) A).
Proof.
  intros [Hi Hs Hp Hn Hiss Hmin] Hf Ha Hcov.
  assert (∀ A', solvent A' → map_sum id A' + pending_amount e <= map_sum id A →
      (∀ a, acct A' a = acct A a + flow a e) → - acct A' system_agent <= tl_totalMinted l →
      tl_inv (tl_put e l) A') as Hbuild.
  { intros A' HsA Hsum Hacct Hi'. split; try done.
    - intros a. rewrite net_put, (Hi a), Hacct by done. done.
    - rewrite pending_fresh by done. lia.
    - intros id e'. simpl. intros [[<- <-]|[? ?]]%lookup_insert_Some; [done|]. by apply Hn. }
  assert (pending_amount e = if decide (te_Settlement e = SettlementOptimistic)
    then te_Amount e else 0) as Hpe by done.
  destruct (te_Settlement e) eqn:Hst.
  - exists (credit (te_FromAgent e) (- te_Amount e) A). split; [|done].
    apply Hbuild; [by apply solvent_debit|rewrite sum_credit, Hpe, decide_True by done; lia| |].
    + intros a. rewrite acct_credit, flow_optimistic by done. repeat case_decide; lia.
    + rewrite acct_credit. destruct Hcov as [[? ?]|Hz0]; repeat case_decide; try congruence; lia.
  - exists (move (te_FromAgent e) (te_ToAgent e) (te_Amount e) A). split; [|done].
    apply Hbuild; [by apply solvent_move|rewrite sum_move, Hpe, decide_False by done; lia| |].
    + intros a. rewrite acct_move, flow_settled by done. repeat case_decide; lia.
    + rewrite acct_move. destruct Hcov as [[? ?]|Hz0]; repeat case_decide; try congruence; lia.
  - exists A. split; [|done]. apply Hbuild; [done|rewrite Hpe, decide_False by done; lia| |done].
    intros a. rewrite flow_other by congruence. lia.
  - exists A. split; [|done]. apply Hbuild; [done|rewrite Hpe, decide_False by done; lia| |done].
    intros a. rewrite flow_other by congruence. lia.
Qed.

Lemma covered_of_balance l A a z :
  tl_inv l A → 0 <= z → z <= tl_balanceLocked l a →
  (a ≠ system_agent ∧ z <= acct A a) ∨ z = 0.
Proof.
  intros HI Hz Hle. rewrite (inv_balance l A a HI) in Hle.
  destruct (decide (z = 0)); [by right|]. left.
  destruct (decide (a = system_agent)) as [->|]; [|split; [done|lia]].
  pose proof (solvent_system_nonpos A (inv_solvent _ _ HI)). lia.
Qed.

Lemma inv_Record l A e now :
  tl_inv l A →
  (∀ p, GetPayload unmarshal_transfer e = Some p → tp_FromAgent p ≠ system_agent) →
  ∃ A', tl_inv (tl_Record e now l).1 A'.
Proof.
  intros HI Hsys. unfold tl_Record. case_decide; [by exists A|].
  destruct (GetPayload unmarshal_transfer e) as [p|] eqn:Hp; [|by exists A].
  destruct (tl_entries l !! ID e) eqn:Hid; [by exists A|].
  assert (is_u64 (tp_Amount p)) as Hu.
  { unfold GetPayload in Hp. destruct (Payload e); [|done]. by eapply transfer_amount_u64. }
  unfold is_u64 in Hu. case_decide as Hbal; [by exists A|]; simpl.
  destruct (inv_put l A (entry_of_event e p now)) as (A' & HA' & _); simpl; eauto; [lia|].
  destruct (decide (tp_Amount p = 0)); [by right|]. specialize (Hsys p eq_refl).
  apply (covered_of_balance l); [done|lia|]. destruct (decide (tp_Amount p > 0)); [|lia].
  apply Z.nlt_ge. naive_solver.
Qed.

Lemma inv_RecordFromSync l A e now :
  tl_inv l A →
  (∀ p, GetPayload unmarshal_transfer e = Some p → tp_Amount p <= tl_balanceLocked l (tp_FromAgent p)) →
  ∃ A', tl_inv (tl_RecordFromSync e now l).1 A'.
Proof.
  intros HI Hcov. unfold tl_RecordFromSync. case_decide; [by exists A|].
  destruct (GetPayload unmarshal_transfer e) as [p|] eqn:Hp; [|by exists A].
  destruct (tl_entries l !! ID e) eqn:Hid; [by exists A|]. simpl.
  assert (is_u64 (tp_Amount p)) as [Hu _].
  { unfold GetPayload in Hp. destruct (Payload e); [|done]. by eapply transfer_amount_u64. }
  destruct (inv_put l A (entry_of_event e p now)) as (A' & HA' & _); simpl; eauto.
  apply (covered_of_balance l); [done|done|]. by apply Hcov.
Qed.

Lemma bump_inv l A : tl_inv l A → tl_inv (tl_bump_counter l) A.
Proof. by apply inv_same. Qed.

(** A bucket transfer either moves exactly [amount] or moves nothing. *)
Lemma inv_TransferFromBucketLabeled l A src dst amount memo g now l' err :
  tl_inv l A → is_u64 amount →
  tl_TransferFromBucketLabeled src dst amount memo g now l = (l', err) →
  match err with
  | None => tl_inv l' (move src dst amount A) ∧ (amount <= acct A src ∨ amount = 0)
  | Some _ => tl_inv l' A
  end.
Proof.
  unfold is_u64. intros HI Hu. unfold tl_TransferFromBucketLabeled.
  case_decide as Hbal; [intros; by simplify_eq/=|].
  pose proof (bump_inv l A HI) as HI1.
  destruct (tl_entries (tl_bump_counter l) !! _) eqn:Hid; intros; simplify_eq/=; [done|].
  assert ((src ≠ system_agent ∧ amount <= acct A src) ∨ amount = 0) as Hcov
    by (apply (covered_of_balance l); [done|lia..]).
  destruct (inv_put (tl_bump_counter l) A
    (bucket_entry src dst amount (tl_bucketCounter (tl_bump_counter l)) memo g now))
    as (A' & HA' & Heq); simpl; eauto; [lia|].
  specialize (Heq eq_refl). simpl in Heq. subst A'. split; [done|destruct Hcov as [[]|]; auto].
Qed.

Lemma inv_mint l A agentID amount now (s : option St) minted :
  tl_inv l A → tl_entries l !! genesis_id agentID amount = None → 0 <= amount →
  minted = tl_totalMinted l + amount → minted < 9223372036854775808 →
  tl_inv (mkTL (<[genesis_id agentID amount := genesis_entry agentID amount now]> (tl_entries l))
    (tl_archivedNetSettled l) (tl_archiveDone l) s (tl_mintCap l) minted (tl_bucketCounter l))
    (move system_agent agentID amount A).
Proof.
  intros [Hi Hs Hp Hn Hiss Hmin] Hf Ha Hm Hlt.
  assert (acct (move system_agent agentID amount A) system_agent
    = acct A system_agent - amount + (if decide (system_agent = agentID) then amount else 0)) as Hsys.
  { rewrite acct_move. by rewrite decide_True. }
  split; simpl.
  - intros a. unfold tl_net; simpl. rewrite map_sum_insert by done.
    rewrite flow_settled by done. simpl. specialize (Hi a). unfold tl_net in Hi.
    rewrite acct_move, <- Hi. eqm_lia.
  - apply solvent_mint; [done..|lia].
  - rewrite sum_move, map_sum_insert by done. unfold pending_amount at 1. simpl. lia.
  - intros id e [[<- <-]|[? ?]]%lookup_insert_Some; [done|]. by apply Hn.
  - rewrite Hsys. case_decide; lia.
  - lia.
Qed.

Lemma inv_FundAgent l A agentID amount now :
  tl_inv l A → mint_in_range l amount → ∃ A', tl_inv (tl_FundAgent agentID amount now l).1 A'.
Proof.
  intros HI (Ha & Hcap & Hr). pose proof (inv_minted _ _ HI) as Hmin. unfold tl_FundAgent.
  destruct (decide (tl_mintCap l > 0 ∧ _)) as [Hc|Hc]; [by exists A|].
  destruct (tl_entries l !! genesis_id agentID amount) eqn:Hid; [by exists A|].
  assert (u64 (tl_totalMinted l + amount) = tl_totalMinted l + amount) as Hu.
  { apply u64_small. unfold is_u64, u64_mod in *. destruct (decide _); lia. }
  assert (tl_totalMinted l + amount < 9223372036854775808) as Hlt.
  { rewrite Hu in Hc. destruct (decide _); lia. }
  destruct (tl_store l) as [s|].
  - destruct (store_put _ s) as [s1 []]; simpl.
    + exists (move system_agent agentID amount A). rewrite Hu. by apply inv_mint.
    + exists A. by apply (inv_same l).
  - exists (move system_agent agentID amount A). rewrite Hu. by apply inv_mint.
Qed.

End invariant.

(** ** Settlement and the startup reset *)

Definition reset_target (agentID : AgentID) (e : TransferEntry) : Prop :=
  te_FromAgent e = agentID ∧ te_Settlement e = SettlementOptimistic.

#[global] Instance reset_target_dec agentID e : Decision (reset_target agentID e).
Proof. unfold reset_target. apply _. Defined.

Section invariant_2.
Context `{!PayloadCodec, !PayloadCodecOk} {St : Type}.
Context `{!Persistence St TransferEntry, !MetaPersistence St}.
Implicit Types (l : TransferLedger St) (A : gmap AgentID Z).

Lemma pending_nonneg l A k e :
  tl_inv l A → tl_entries l !! k = Some e → 0 <= pending_amount e.
Proof.
  intros HI Hk. destruct (inv_entries _ _ HI k e Hk). unfold pending_amount. case_decide; lia.
Qed.

(** An optimistic entry is part of the pending amount. *)
Lemma pending_entry_le l A k e :
  tl_inv l A → tl_entries l !! k = Some e → te_Settlement e = SettlementOptimistic →
  te_Amount e <= map_sum pending_amount (tl_entries l).
Proof.
  intros HI Hk He.
  replace (te_Amount e) with (pending_amount e) by (unfold pending_amount; by rewrite decide_True).
  apply (map_sum_lookup_le _ _ k); [|done]. intros j w. by apply (pending_nonneg l A).
Qed.

(** Settling an optimistic entry credits the payee; adjusting it refunds the
    payer. *)
Lemma inv_Settle l A id e s l' :
  tl_inv l A → tl_entries l !! id = Some e → te_Settlement e = SettlementOptimistic →
  tl_Settle id s l = (l', None) →
  (s = SettlementSettled ∧ tl_inv l' (credit (te_ToAgent e) (te_Amount e) A))
  ∨ (s = SettlementAdjusted ∧ tl_inv l' (credit (te_FromAgent e) (te_Amount e) A)).
Proof.
  intros HI Hk He. unfold tl_Settle. rewrite Hk, He. simpl.
  destruct (bool_decide _) eqn:Hs; [|done]. intros [= <-].
  apply bool_decide_eq_true in Hs.
  pose proof (pending_entry_le l A id e HI Hk He) as Hpend.
  destruct (inv_entries _ _ HI id e Hk) as [Ha Hid].
  destruct HI as [Hi Hsol Hp Hn Hiss Hmin].
  assert (∀ b, credit b (te_Amount e) A = credit b (te_Amount e) A ∧
    solvent (credit b (te_Amount e) A)) as Hsolv.
  { intros b. split; [done|]. apply solvent_credit; [done..|]. lia. }
  assert (∀ b, (∀ a, flow a (set_Settlement s e) - flow a e = if decide (a = b) then te_Amount e else 0) →
    s ≠ SettlementOptimistic →
    tl_inv (mkTL (<[id := set_Settlement s e]> (tl_entries l)) (tl_archivedNetSettled l)
      (tl_archiveDone l) (write_through (set_Settlement s e) (tl_store l)) (tl_mintCap l)
      (tl_totalMinted l) (tl_bucketCounter l)) (credit b (te_Amount e) A)) as Hbuild.
  { intros b Hflow Hne. split; simpl.
    - intros a. unfold tl_net; simpl. rewrite (map_sum_update _ _ _ _ _ Hk).
      specialize (Hi a). unfold tl_net in Hi. rewrite acct_credit, <- Hi, <- Hflow. eqm_lia.
    - by apply Hsolv.
    - rewrite sum_credit, (map_sum_update _ _ _ _ _ Hk). unfold pending_amount at 2 3. simpl.
      rewrite decide_True, decide_False by done. lia.
    - intros k w [[<- <-]|[? ?]]%lookup_insert_Some; [by split|by apply Hn].
    - rewrite acct_credit. case_decide; lia.
    - done. }
  destruct Hs as [-> | ->]; [left|right]; (split; [done|]); apply Hbuild; try done; intros a;
    rewrite (flow_optimistic a e) by done.
  - rewrite flow_settled by done. simpl. repeat case_decide; lia.
  - rewrite flow_other by done. repeat case_decide; lia.
Qed.

(** Reversing a settled entry moves its amount back. *)
Lemma inv_Reverse l A id e l' :
  tl_inv l A → tl_entries l !! id = Some e → te_Settlement e = SettlementSettled →
  te_Amount e <= tl_balanceLocked l (te_ToAgent e) →
  tl_Settle id SettlementAdjusted l = (l', None) → tl_inv l' (move (te_ToAgent e) (te_FromAgent e) (te_Amount e) A).
Proof.
  intros HI Hk He Hbal. unfold tl_Settle. rewrite Hk, He. simpl.
  intros [= <-].
  destruct (inv_entries _ _ HI id e Hk) as [Ha Hid].
  pose proof (covered_of_balance l A (te_ToAgent e) (te_Amount e) HI Ha Hbal) as Hcov.
  destruct HI as [Hi Hsol Hp Hn Hiss Hmin]. split; simpl.
  - intros a. unfold tl_net; simpl. rewrite (map_sum_update _ _ _ _ _ Hk).
    specialize (Hi a). unfold tl_net in Hi. rewrite acct_move, <- Hi, (flow_settled a e), flow_other by done.
    repeat case_decide; eqm_lia.
  - by apply solvent_move.
  - rewrite sum_move, (map_sum_update _ _ _ _ _ Hk).
    assert (pending_amount e = 0) as -> by (unfold pending_amount; by rewrite decide_False by congruence).
    assert (pending_amount (set_Settlement SettlementAdjusted e) = 0) as -> by done. lia.
  - intros k w [[<- <-]|[? ?]]%lookup_insert_Some; [by split|by apply Hn].
  - rewrite acct_move. destruct Hcov as [[? ?]|Hz0]; repeat case_decide; try congruence; lia.
  - done.
Qed.

Lemma inv_EvictBefore l A cutoff :
  tl_inv l A → tl_inv (tl_EvictBefore cutoff l).1 A.
Proof.
  intros HI. destruct (evict_rest cutoff l) as (_ & _ & Hm & _).
  destruct HI as [Hi Hs Hp Hn Hiss Hmin]. split; rewrite ?Hm; try done.
  - intros a. by rewrite net_evict.
  - rewrite evict_entries.
    rewrite (map_sum_split pending_amount (evictable cutoff)) in Hp.
    rewrite (map_sum_zero _ (filter (λ kv, evictable cutoff kv.2) _)) in Hp; [lia|].
    intros k e [_ [Hne _]]%map_lookup_filter_Some. unfold pending_amount. by rewrite decide_False.
  - intros k e. rewrite evict_entries. intros [? _]%map_lookup_filter_Some. by apply Hn.
Qed.

(** [ResetOptimisticOutflows] removes exactly the agent's optimistic entries. *)
Lemma reset_entries agentID l :
  tl_entries (tl_ResetOptimisticOutflows agentID l).1
    = filter (λ kv, ¬ reset_target agentID kv.2) (tl_entries l)
  ∧ (tl_ResetOptimisticOutflows agentID l).2
    = Z.of_nat (size (filter (λ kv, reset_target agentID kv.2) (tl_entries l))).
Proof.
  unfold tl_ResetOptimisticOutflows.
  set (E0 := tl_entries l) at 1 4.
  assert (∀ m, m ⊆ E0 →
    let '(ents, s, removed) := map_fold (λ id e '(ents, s, removed),
      if decide (te_FromAgent e = agentID ∧ te_Settlement e = SettlementOptimistic)
      then (delete id ents, delete_through TransferEntry id s, removed + 1)
      else (ents, s, removed)) (E0, tl_store l, 0) m in
    (∀ k, ents !! k = if decide (is_Some (filter (λ kv, reset_target agentID kv.2) m !! k))
                      then None else E0 !! k)
    ∧ removed = Z.of_nat (size (filter (λ kv, reset_target agentID kv.2) m))) as Hloop.
  { apply (map_fold_weak_ind (λ acc m, m ⊆ E0 → let '(ents, s, removed) := acc in
      (∀ k, ents !! k = if decide (is_Some (filter (λ kv, reset_target agentID kv.2) m !! k))
                        then None else E0 !! k)
      ∧ removed = Z.of_nat (size (filter (λ kv, reset_target agentID kv.2) m)))).
    - intros _. split; [|by rewrite map_filter_empty]. intros k.
      rewrite map_filter_empty, lookup_empty, decide_False by (by intros [? ?]). done.
    - intros k e m [[ents s] removed] Hk IH Hsub.
      destruct IH as [IHe IHr]; [etrans; [by apply insert_subseteq|done]|].
      assert (filter (λ kv, reset_target agentID kv.2) m !! k = None) as Hfk
        by (apply map_lookup_filter_None_2; by left).
      case_decide as Ht.
      + rewrite map_filter_insert_True by done. split.
        * intros j. destruct (decide (j = k)) as [->|Hj].
          -- rewrite lookup_delete_eq, lookup_insert_eq. by rewrite decide_True by eauto.
          -- rewrite lookup_delete_ne, lookup_insert_ne by done. apply IHe.
        * rewrite map_size_insert_None by done. lia.
      + rewrite map_filter_insert_False by done. by rewrite delete_id by done. }
  specialize (Hloop (tl_entries l) ltac:(done)).
  destruct (map_fold _ _ _) as [[ents s] removed]. destruct Hloop as [He Hr]. simpl.
  split; [|done]. apply map_eq. intros k. rewrite He. case_decide as Hk.
  - symmetry. apply map_lookup_filter_None_2. right. intros e He' Hn.
    destruct Hk as [e2 [H1 H2]%map_lookup_filter_Some]. subst E0. simpl in *. congruence.
  - subst E0. destruct (tl_entries l !! k) as [e|] eqn:Hek.
    + symmetry. apply map_lookup_filter_Some_2; [done|]. simpl. intros Ht. apply Hk.
      exists e. by apply map_lookup_filter_Some_2.
    + symmetry. apply map_lookup_filter_None_2. by left.
Qed.

Lemma reset_rest agentID l :
  let l' := (tl_ResetOptimisticOutflows agentID l).1 in
  tl_archivedNetSettled l' = tl_archivedNetSettled l ∧ tl_totalMinted l' = tl_totalMinted l.
Proof. unfold tl_ResetOptimisticOutflows. by destruct (map_fold _ _ _) as [[? ?] ?]. Qed.

Lemma reset_flow agentID a (m : gmap EventID TransferEntry) :
  map_sum (flow a) (filter (λ kv, reset_target agentID kv.2) m)
  = - (if decide (a = agentID)
       then map_sum pending_amount (filter (λ kv, reset_target agentID kv.2) m) else 0).
Proof.
  case_decide as Ha.
  - enough (map_sum (λ e, flow a e + pending_amount e)
      (filter (λ kv, reset_target agentID kv.2) m) = 0) as Hz by (rewrite map_sum_add in Hz; lia).
    apply map_sum_zero. intros k e [_ [Hf He]]%map_lookup_filter_Some. simpl in *.
    rewrite flow_optimistic by done. unfold pending_amount.
    rewrite !decide_True by congruence. lia.
  - rewrite Z.opp_0. apply map_sum_zero. intros k e [_ [Hf He]]%map_lookup_filter_Some. simpl in *.
    rewrite flow_optimistic by done. rewrite decide_False by congruence. lia.
Qed.

Lemma inv_ResetOptimisticOutflows l A agentID :
  tl_inv l A →
  tl_inv (tl_ResetOptimisticOutflows agentID l).1
    (credit agentID (map_sum pending_amount
       (filter (λ kv, reset_target agentID kv.2) (tl_entries l))) A).
Proof.
  intros HI. destruct (reset_rest agentID l) as (Hrest & Hm).
  destruct (reset_entries agentID l) as (He & _).
  set (R := filter (λ kv, reset_target agentID kv.2) (tl_entries l)) in *.
  assert (∀ f : TransferEntry → Z, map_sum f (filter (λ kv, ¬ reset_target agentID kv.2) (tl_entries l))
    = map_sum f (tl_entries l) - map_sum f R) as Hsplit.
  { intros f. rewrite (map_sum_split f (reset_target agentID) (tl_entries l)). fold R. lia. }
  assert (0 <= map_sum pending_amount R) as Hnn.
  { apply map_sum_nonneg. intros k e [Hk _]%map_lookup_filter_Some. by apply (pending_nonneg l A k). }
  assert (map_sum pending_amount R <= map_sum pending_amount (tl_entries l)) as Hle.
  { enough (0 <= map_sum pending_amount (tl_entries l) - map_sum pending_amount R) by lia.
    rewrite <- Hsplit. apply map_sum_nonneg. intros k e [Hk _]%map_lookup_filter_Some.
    by apply (pending_nonneg l A k). }
  destruct HI as [Hi Hs Hp Hn Hiss Hmin].
  split; rewrite ?Hm; try done.
  - intros a. unfold tl_net. rewrite He, Hrest, Hsplit. unfold R. rewrite reset_flow. fold R.
    specialize (Hi a). unfold tl_net in Hi. rewrite acct_credit, <- Hi. eqm_lia.
  - apply solvent_credit; [done..|]. lia.
  - rewrite He, sum_credit, Hsplit. lia.
  - intros k e. rewrite He. intros [? _]%map_lookup_filter_Some. by apply Hn.
  - rewrite acct_credit. case_decide; lia.
Qed.

Lemma inv_exec op l A : covered_op op l → tl_inv l A → ∃ A', tl_inv (ledger_exec op l) A'.
Proof.
  intros Hcov HI. destruct op as [e now|e now|src dst amount memo g now|ag amount now|cap|id s|cutoff|ag]; cbn [ledger_exec covered_op] in *.
  - by eapply inv_Record.
  - by eapply inv_RecordFromSync.
  - destruct (tl_TransferFromBucketLabeled _ _ _ _ _ _ _) as [l' err] eqn:Ht.
    pose proof (inv_TransferFromBucketLabeled _ _ _ _ _ _ _ _ _ _ HI Hcov Ht) as Hr.
    destruct err; [by exists A|]. eexists. apply Hr.
  - by eapply inv_FundAgent.
  - exists A. by apply (inv_same l).
  - destruct (tl_Settle id s l) as [l' err] eqn:Ht. simpl. destruct err.
    + exists A. unfold tl_Settle in Ht. repeat case_match; by simplify_eq.
    + destruct (tl_entries l !! id) as [e|] eqn:Hk; [|unfold tl_Settle in Ht; by rewrite Hk in Ht].
      destruct (te_Settlement e) eqn:He.
      * destruct (inv_Settle l A id e s l' HI Hk He Ht) as [[_ ?]|[_ ?]]; by eexists.
      * assert (s = SettlementAdjusted) as ->.
        { unfold tl_Settle in Ht. rewrite Hk, He in Ht. simpl in Ht. case_match eqn:Hs; [|done]. by apply bool_decide_eq_true in Hs. }
        eexists. by eapply inv_Reverse; eauto.
      * unfold tl_Settle in Ht. rewrite Hk, He in Ht. done.
      * unfold tl_Settle in Ht. rewrite Hk, He in Ht. done.
  - exists A. by apply inv_EvictBefore.
  - eexists. by apply inv_ResetOptimisticOutflows.
Qed.

Lemma run_inv ops : ∀ l A, run_covered ops l → tl_inv l A → ∃ A', tl_inv (ledger_run ops l) A'.
Proof.
  induction ops as [|op ops IH]; intros l A Hcov HI; [by exists A|]. destruct Hcov as [Hop Hcov].
  destruct (inv_exec op l A Hop HI) as [A1 H1]. by apply (IH _ A1).
Qed.

(** In a solvent ledger the spendable balances add up to at most the issue. *)
Lemma inv_balances_bounded l A agents :
  tl_inv l A → NoDup agents →
  sum_list_Z (tl_balanceLocked l <$> agents) <= tl_totalMinted l.
Proof.
  intros HI Hnd.
  assert (∀ ags (B : gmap AgentID Z), NoDup ags → (∀ k v, B !! k = Some v → 0 <= v) →
    sum_list_Z ((λ a, acct B a) <$> ags) <= map_sum id B) as Hsum.
  { induction ags as [|a ags IH]; intros B Hd HB.
    - simpl. by apply map_sum_nonneg.
    - rewrite fmap_cons. cbn [sum_list_Z foldr]. fold (sum_list_Z ((λ a, acct B a) <$> ags)).
      apply NoDup_cons in Hd as [Ha Hd].
      assert (sum_list_Z ((λ a, acct B a) <$> ags) = sum_list_Z ((λ b, acct (delete a B) b) <$> ags)) as ->.
      { f_equal. apply list_fmap_ext. intros i b Hb. unfold acct. rewrite lookup_delete_ne; [done|].
        intros ->. apply Ha. by eapply list_elem_of_lookup_2. }
      assert (map_sum id B = acct B a + map_sum id (delete a B)) as ->.
      { unfold acct. destruct (B !! a) eqn:Hba; simpl.
        - rewrite (map_sum_delete _ _ _ _ Hba). unfold id. lia.
        - by rewrite delete_id. }
      apply Z.add_le_mono_l. apply IH; [done|]. intros k v [_ Hk]%lookup_delete_Some. eauto. }
  set (B := delete system_agent A).
  assert (sum_list_Z (tl_balanceLocked l <$> agents) = sum_list_Z ((λ a, acct B a) <$> agents)) as ->.
  { f_equal. apply list_fmap_ext. intros i a _. rewrite (inv_balance l A a HI).
    destruct (decide (a = system_agent)) as [->|Hne].
    - unfold acct at 2, B. rewrite lookup_delete_eq. simpl.
      pose proof (solvent_system_nonpos A (inv_solvent _ _ HI)). lia.
    - assert (acct B a = acct A a) as -> by (unfold acct, B; by rewrite lookup_delete_ne).
      pose proof (solvent_nonneg A (inv_solvent _ _ HI) a Hne). lia. }
  etrans; [apply Hsum; [done|]|].
  - intros k v. apply others_nonneg. apply HI.
  - unfold B. rewrite sum_others. destruct HI as [_ [] _ _ ? ?]. lia.
Qed.

End invariant_2.

(** * The ledger as a bucket ledger *)

#[global] Instance tl_bucket_ledger `{!PayloadCodec} {St}
    `{!Persistence St TransferEntry, !MetaPersistence St} :
  BucketLedger (TransferLedger St) LedgerError := {|
  bl_transfer := tl_TransferFromBucketLabeled;
  bl_balance := tl_Balance;
|}.

Lemma inv_acct {St} (l : TransferLedger St) A a : tl_inv l A → i64 (tl_net l a) = acct A a.
Proof.
  intros HI. rewrite (inv_implements _ _ HI a). apply i64_small. apply solvent_bound, HI.
Qed.

#[global] Program Instance tl_bucket_laws `{!PayloadCodec, !PayloadCodecOk} {St}
    `{!Persistence St TransferEntry, !MetaPersistence St} :
  BucketLedgerLaws (TransferLedger St) LedgerError := {|
  bl_ok l := ∃ A, tl_inv l A;
  bl_acct l a := i64 (tl_net l a);
|}.
Next Obligation. intros ?? St ?? l a _. apply balance_net. Qed.
Next Obligation.
  intros ?? St ?? l a [A HA] Ha. rewrite (inv_acct l A a HA). apply HA, Ha.
Qed.
Next Obligation.
  intros ?? St ?? src dst amount memo g now l l' [A HA] Hu Ht.
  destruct (inv_TransferFromBucketLabeled _ _ _ _ _ _ _ _ _ _ HA Hu Ht) as [HA' Hcov].
  split; [by eexists|]. rewrite (inv_acct l A src HA). split; [done|].
  intros a. rewrite (inv_acct l A a HA), (inv_acct l' _ a HA'). apply acct_move.
Qed.
Next Obligation.
  intros ?? St ?? src dst amount memo g now l l' e [A HA] Ht.
  assert (tl_entries l' = tl_entries l ∧ tl_archivedNetSettled l' = tl_archivedNetSettled l
    ∧ tl_totalMinted l' = tl_totalMinted l) as (He & Ha & Hm).
  { simpl in Ht. unfold tl_TransferFromBucketLabeled in Ht. repeat case_match; by simplify_eq/=. }
  split; [exists A; by apply (inv_same l)|]. intros a. unfold tl_net. by rewrite He, Ha.
Qed.
Next Obligation.
  intros ?? St ?? src dst amount memo g now l [A HA] _ Hlt.
  exists ErrInsufficientBalance. simpl. unfold tl_TransferFromBucketLabeled.
  rewrite balance_net, decide_True by done. done.
Qed.

(** * Persistence: the store holds the entries and what was archived *)

Section synced.
Context `{!PayloadCodec} {St : Type} `{!Persistence St TransferEntry, !MetaPersistence St}.
Context `{!PersistenceLaws St TransferEntry te_EventID}.
Context `{!MetaLaws St TransferEntry te_EventID, !Reliable St TransferEntry}.
Implicit Types (l : TransferLedger St).

(** [evicted] are the entries that live on disk only. *)
Definition synced_with (s : St) (evicted : gmap EventID TransferEntry) l : Prop :=
  tl_store l = Some s
  ∧ (∀ k e, tl_entries l !! k = Some e → te_EventID e = k ∧ evicted !! k = None)
  ∧ store_view s = evicted ∪ tl_entries l
  ∧ (∀ a, default 0 (tl_archivedNetSettled l !! a) ≡64 map_sum (flow a) evicted)
  ∧ is_u64 (tl_totalMinted l)
  ∧ (match meta_get mintedMetaKey s with
     | Some b => b = be_put (tl_totalMinted l)
     | None => tl_totalMinted l = 0
     end).

(** The ID has never been recorded, in memory or on disk. *)
Definition unrecorded (id : EventID) l : Prop :=
  ∀ s, tl_store l = Some s → store_view s !! id = None.

(** The steps of a ledger over a reliable store, each event ID being new. *)
Inductive durable_step : TransferLedger St → TransferLedger St → Prop :=
  | durable_Record e now l : unrecorded (ID e) l → durable_step l (tl_Record e now l).1
  | durable_RecordFromSync e now l : unrecorded (ID e) l → durable_step l (tl_RecordFromSync e now l).1
  | durable_TransferFromBucketLabeled src dst amount memo g now l :
      unrecorded (bucket_id src dst amount (u64 (tl_bucketCounter l + 1))) l →
      durable_step l (tl_TransferFromBucketLabeled src dst amount memo g now l).1
  | durable_FundAgent agentID amount now l :
      unrecorded (genesis_id agentID amount) l →
      durable_step l (tl_FundAgent agentID amount now l).1
  | durable_SetMintCap cap l : durable_step l (tl_SetMintCap cap l)
  | durable_Settle id s l : durable_step l (tl_Settle id s l).1
  | durable_EvictBefore cutoff l : durable_step l (tl_EvictBefore cutoff l).1
  | durable_Reset agentID l : durable_step l (tl_ResetOptimisticOutflows agentID l).1.

(** From a ledger whose store holds no records yet. *)
Inductive durable_reachable : TransferLedger St → Prop :=
  | durable_new s bc : store_view s = ∅ → meta_get mintedMetaKey s = None →
      durable_reachable (tl_SetStore s (tl_NewTransferLedger bc))
  | durable_next l l' : durable_reachable l → durable_step l l' → durable_reachable l'.

Lemma put_view v (s : St) : store_view (store_put v s).1 = <[te_EventID v := v]> (store_view s).
Proof.
  destruct (store_put v s) as [s' ok] eqn:Hp.
  pose proof (reliable_put v s) as Hr. rewrite Hp in Hr. simpl in Hr. subst ok.
  by apply store_put_ok.
Qed.

Lemma delete_view k (s : St) : store_view (store_delete k s).1 = delete k (store_view s).
Proof.
  destruct (store_delete k s) as [s' ok] eqn:Hp.
  pose proof (reliable_delete k s) as Hr. rewrite Hp in Hr. simpl in Hr. subst ok.
  by apply store_delete_ok.
Qed.

(** Inserting or updating an entry that is not on disk only. *)
Lemma synced_insert s ev l e arch cap :
  synced_with s ev l → ev !! te_EventID e = None →
  synced_with (store_put e s).1 ev
    (mkTL (<[te_EventID e := e]> (tl_entries l)) (tl_archivedNetSettled l) arch
       (Some (store_put e s).1) cap (tl_totalMinted l) (tl_bucketCounter l)).
Proof.
  intros (Hs & Hk & Hv & Ha & Hu & Hm) He. unfold synced_with. simpl.
  split_and!; [done| | |done|done|by rewrite put_meta_get].
  - intros k x [[<- <-]|[? ?]]%lookup_insert_Some; [done|by apply Hk].
  - rewrite put_view, Hv. by apply insert_union_r.
Qed.

Lemma unrecorded_evicted s ev l id : synced_with s ev l → unrecorded id l → ev !! id = None.
Proof.
  intros (Hs & _ & Hv & _) Hu. specialize (Hu s Hs). rewrite Hv in Hu.
  by apply lookup_union_None in Hu as [? _].
Qed.

Lemma synced_put s ev l e :
  synced_with s ev l → ev !! te_EventID e = None → synced_with (store_put e s).1 ev (tl_put e l).
Proof.
  intros HS He. unfold tl_put. destruct HS as (Hs & Hrest). rewrite Hs. simpl.
  apply synced_insert; [|done]. by split.
Qed.

Lemma synced_same s ev l l' :
  tl_entries l' = tl_entries l → tl_archivedNetSettled l' = tl_archivedNetSettled l →
  tl_store l' = tl_store l → tl_totalMinted l' = tl_totalMinted l →
  synced_with s ev l → synced_with s ev l'.
Proof.
  unfold synced_with. intros -> -> -> ->. done.
Qed.

Lemma synced_FundAgent s ev l agentID amount now :
  synced_with s ev l → unrecorded (genesis_id agentID amount) l →
  ∃ s', synced_with s' ev (tl_FundAgent agentID amount now l).1.
Proof.
  intros HS Hun. pose proof (unrecorded_evicted _ _ _ _ HS Hun) as Hev.
  unfold tl_FundAgent. case_decide; [by eexists|].
  destruct (tl_entries l !! _) eqn:Hid; [by eexists|].
  pose proof HS as (Hs & Hk & Hv & Ha & Hu & Hm). rewrite Hs.
  destruct (store_put (genesis_entry agentID amount now) s) as [s1 ok] eqn:Hp.
  pose proof (reliable_put (genesis_entry agentID amount now) s) as Hr.
  rewrite Hp in Hr. simpl in Hr. subst ok. simpl.
  set (m := u64 (tl_totalMinted l + amount)).
  destruct (meta_put mintedMetaKey (be_put m) s1) as [s2 ok2] eqn:Hmp.
  pose proof (reliable_meta mintedMetaKey (be_put m) s1) as Hr2.
  rewrite Hmp in Hr2. simpl in Hr2. subst ok2. simpl.
  exists s2.
  destruct (synced_insert s ev l (genesis_entry agentID amount now) (tl_archiveDone l) (tl_mintCap l)
    HS Hev) as (_ & Hk' & Hv' & _). rewrite Hp in Hv'. simpl in *.
  unfold synced_with. simpl. split_and!; try done.
  - by rewrite (meta_put_view _ _ _ _ _ Hmp).
  - apply u64_range.
  - by rewrite (meta_put_get _ _ _ _ Hmp).
Qed.

Lemma synced_Settle s ev l id st :
  synced_with s ev l → ∃ s', synced_with s' ev (tl_Settle id st l).1.
Proof.
  intros HS. unfold tl_Settle. destruct (tl_entries l !! id) as [e|] eqn:Hid; [|by eexists].
  destruct (validLedgerTransitions _) as [allowed|]; [|by eexists].
  destruct (allowed st); [|by eexists]. simpl.
  pose proof HS as (Hs & Hk & _). rewrite Hs. simpl.
  destruct (Hk id e Hid) as [He Hev]. subst id.
  eexists. by apply (synced_insert s ev l (set_Settlement st e)).
Qed.

Lemma synced_EvictBefore s ev l cutoff :
  synced_with s ev l →
  synced_with s (ev ∪ filter (λ kv, evictable cutoff kv.2) (tl_entries l))
    (tl_EvictBefore cutoff l).1.
Proof.
  intros (Hs & Hk & Hv & Ha & Hu & Hm).
  destruct (evict_rest cutoff l) as (Es & _ & Em & _).
  assert (ev ##ₘ filter (λ kv, evictable cutoff kv.2) (tl_entries l)) as Hd.
  { apply map_disjoint_spec. intros k x y Hx [Hy _]%map_lookup_filter_Some.
    destruct (Hk k y Hy). congruence. }
  unfold synced_with. rewrite Es, Em, evict_entries. split_and!; try done.
  - intros k e [He Hne]%map_lookup_filter_Some. destruct (Hk k e He) as [? ?]. split; [done|].
    apply lookup_union_None. split; [done|]. apply map_lookup_filter_None_2. right.
    intros e' He'. simpl in *. by assert (e' = e) as -> by congruence.
  - rewrite <- (assoc_L (∪)). rewrite (map_filter_union_complement (λ kv, evictable cutoff kv.2)).
    done.
  - intros a. rewrite evict_archived, (Ha a). by rewrite map_sum_union.
Qed.

Lemma synced_Reset s ev l agentID :
  synced_with s ev l → ∃ s', synced_with s' ev (tl_ResetOptimisticOutflows agentID l).1.
Proof.
  intros (Hs & Hk & Hv & Ha & Hu & Hm).
  unfold tl_ResetOptimisticOutflows.
  set (E0 := tl_entries l) at 2.
  assert (∀ m, m ⊆ tl_entries l →
    let '(ents, os, _) := map_fold (λ id e '(ents, s, removed),
      if decide (te_FromAgent e = agentID ∧ te_Settlement e = SettlementOptimistic)
      then (delete id ents, delete_through TransferEntry id s, removed + 1)
      else (ents, s, removed)) (tl_entries l, tl_store l, 0) m in
    ents ⊆ tl_entries l ∧ ∃ s', os = Some s' ∧ store_view s' = ev ∪ ents
    ∧ meta_get mintedMetaKey s' = meta_get mintedMetaKey s) as Hloop.
  { apply (map_fold_weak_ind (λ acc m, m ⊆ tl_entries l → let '(ents, os, _) := acc in
      ents ⊆ tl_entries l ∧ ∃ s', os = Some s' ∧ store_view s' = ev ∪ ents
        ∧ meta_get mintedMetaKey s' = meta_get mintedMetaKey s)).
    - intros _. split; [done|]. by exists s.
    - intros k e m [[ents os] r] Hkm IH Hsub.
      destruct IH as [IHs (s' & -> & IHv & IHm)]; [etrans; [by apply insert_subseteq|done]|].
      case_decide as Ht; [|split; [done|by exists s']].
      split; [etrans; [apply delete_subseteq|done]|].
      eexists. split; [done|]. rewrite delete_view, IHv, delete_meta_get, delete_union.
      split; [|done]. rewrite (delete_id ev); [done|].
      assert (tl_entries l !! k = Some e) as Hl by (eapply lookup_weaken; [apply lookup_insert_eq|done]).
      by destruct (Hk k e Hl). }
  specialize (Hloop E0 ltac:(done)).
  destruct (map_fold _ _ _) as [[ents os] r]. destruct Hloop as [Hsub (s' & -> & Hv' & Hm')].
  exists s'. unfold synced_with. simpl. split_and!; try done.
  - intros k e He. apply Hk. by eapply lookup_weaken.
  - by rewrite Hm'.
Qed.

Lemma synced_step l l' s ev :
  durable_step l l' → synced_with s ev l → ∃ s' ev', synced_with s' ev' l'.
Proof.
  intros Hstep HS. destruct Hstep as [e now l Hu|e now l Hu|src dst amount memo g now l Hu
    |ag amount now l Hu|cap l|id st l|cutoff l|ag l].
  - pose proof (unrecorded_evicted _ _ _ _ HS Hu). unfold tl_Record.
    repeat case_match; eauto. eexists _, _. by apply synced_put.
  - pose proof (unrecorded_evicted _ _ _ _ HS Hu). unfold tl_RecordFromSync.
    repeat case_match; eauto. eexists _, _. by apply synced_put.
  - pose proof (unrecorded_evicted _ _ _ _ HS Hu). unfold tl_TransferFromBucketLabeled.
    assert (synced_with s ev (tl_bump_counter l)) by (by apply (synced_same _ _ l)).
    repeat case_match; eauto. eexists _, _. by apply synced_put.
  - destruct (synced_FundAgent s ev l ag amount now HS Hu) as [s' ?]. by eexists _, _.
  - eexists _, _. by apply (synced_same s ev l).
  - destruct (synced_Settle s ev l id st HS) as [s' ?]. by eexists _, _.
  - eexists _, _. by apply synced_EvictBefore.
  - destruct (synced_Reset s ev l ag HS) as [s' ?]. by eexists _, _.
Qed.

Lemma durable_synced l : durable_reachable l → ∃ s ev, synced_with s ev l.
Proof.
  induction 1 as [s bc Hv Hm|l l' _ (s & ev & HS) Hstep]; [|by eapply synced_step].
  exists s, ∅. unfold synced_with. simpl. rewrite Hv, Hm. split_and!; done.
Qed.

(** What a process sees that reloads the ledger from its store. *)
Lemma synced_reload s ev l bc l' :
  synced_with s ev l → tl_LoadTransferLedgerFromStore s bc = Some l' →
  tl_entries l' = store_view s ∧ tl_totalMinted l' = tl_totalMinted l
  ∧ ∀ a, tl_net l' a ≡64 tl_net l a.
Proof.
  intros (Hs & Hk & Hv & Ha & Hu & Hm). unfold tl_LoadTransferLedgerFromStore.
  destruct (store_all s) as [ents|] eqn:Hall; [|done]. intros [= <-]. simpl.
  rewrite (load_all_view te_EventID (store_view s));
    [|intros k v; apply store_view_key|by apply store_all_view].
  split_and!; [done| |].
  - destruct (meta_get mintedMetaKey s) as [b|]; [|done].
    rewrite Hm, decide_True by apply be_put_length. by apply be_get_put.
  - intros a. unfold tl_net; simpl. rewrite lookup_empty; simpl. rewrite Hv, (Ha a).
    rewrite map_sum_union; [eqm_lia|].
    apply map_disjoint_spec. intros k x y Hx Hy. destruct (Hk k y Hy). congruence.
Qed.

End synced.

(** * Settlement life cycle *)

(** How many more times an entry's settlement may change. *)
Definition settle_rank (s : SettlementState) : nat :=
  match s with
  | SettlementOptimistic => 2
  | SettlementSettled => 1
  | SettlementAdjusted | SettlementOther _ => 0
  end.

Definition entry_rank {St} (l : TransferLedger St) (id : EventID) : nat :=
  match tl_entries l !! id with Some e => settle_rank (te_Settlement e) | None => 0 end.

(** A sequence of [Settle] calls; the result lists which of them succeeded. *)
Fixpoint settle_all `{!PayloadCodec} {St} `{!Persistence St TransferEntry, !MetaPersistence St}
    (reqs : list (EventID * SettlementState)) (l : TransferLedger St) :
    TransferLedger St * list EventID :=
  match reqs with
  | [] => (l, [])
  | (id, s) :: reqs =>
      let (l1, err) := tl_Settle id s l in
      let (l2, ok) := settle_all reqs l1 in
      (l2, match err with None => id :: ok | Some _ => ok end)
  end.

Section settle.
Context `{!PayloadCodec} {St : Type} `{!Persistence St TransferEntry, !MetaPersistence St}.
Implicit Types (l : TransferLedger St).

Lemma Settle_rank l l1 id s err j :
  tl_Settle id s l = (l1, err) →
  (entry_rank l1 j + (if decide (err = None ∧ id = j) then 1 else 0) <= entry_rank l j)%nat
  ∧ (err ≠ None → l1 = l).
Proof.
  unfold tl_Settle. intros Hs.
  assert (∀ e' : LedgerError, err = Some e' → l1 = l →
    (entry_rank l1 j + (if decide (err = None ∧ id = j) then 1 else 0) <= entry_rank l j)%nat
    ∧ (err ≠ None → l1 = l)) as Herr.
  { intros e' -> ->. rewrite decide_False by naive_solver. split; [lia|done]. }
  destruct (tl_entries l !! id) as [e|] eqn:Hid; simplify_eq/=; [|by eapply Herr].
  destruct (validLedgerTransitions _) as [allowed|] eqn:Hv; simplify_eq/=; [|by eapply Herr].
  destruct (allowed s) eqn:Hal; simplify_eq/=; [|by eapply Herr].
  clear Herr. split; [|done].
  assert (settle_rank s < settle_rank (te_Settlement e))%nat as Hlt.
  { destruct (te_Settlement e); simplify_eq/=; try apply bool_decide_eq_true in Hal;
      [destruct Hal as [-> | ->]|subst]; simpl; lia. }
  unfold entry_rank. simpl. destruct (decide (id = j)) as [<-|Hj].
  - rewrite lookup_insert_eq, Hid, decide_True by done. simpl. lia.
  - rewrite lookup_insert_ne, decide_False by naive_solver. lia.
Qed.

Lemma settle_all_rank reqs l l' ok j :
  settle_all reqs l = (l', ok) →
  (entry_rank l' j + length (filter (.= j) ok) <= entry_rank l j)%nat.
Proof.
  revert l l' ok. induction reqs as [|[id s] reqs IH]; intros l l' ok; simpl.
  - intros [= <- <-]. simpl. lia.
  - destruct (tl_Settle id s l) as [l1 err] eqn:Hs.
    destruct (settle_all reqs l1) as [l2 ok2] eqn:Hr. intros [= <- <-].
    specialize (IH _ _ _ Hr). destruct (Settle_rank _ _ _ _ _ j Hs) as [Hrk _].
    destruct err as [e|].
    + destruct (decide (_ ∧ _)) as [[? ?]|]; [done|]. lia.
    + rewrite filter_cons. destruct (decide (id = j)) as [->|Hj].
      * rewrite decide_True in Hrk by done. simpl. lia.
      * rewrite decide_False in Hrk by naive_solver. lia.
Qed.

End settle.

(** * History *)

#[global] Instance history_le_total : Total history_le.
Proof.
  intros e1 e2. unfold history_le.
  destruct (Z.lt_trichotomy (te_Timestamp e1) (te_Timestamp e2)) as [|[Heq|]]; [right; lia| |left; lia].
  destruct (total String.le (te_EventID e1) (te_EventID e2)); [right|left]; right; lia || done.
Qed.

#[global] Instance history_le_trans : Transitive history_le.
Proof.
  intros e1 e2 e3 [|[? H1]] [|[? H2]]; unfold history_le; try (left; lia).
  right. split; [lia|]. by etrans.
Qed.

(** Entries with distinct IDs are never tied. *)
Lemma history_le_antisymm (e1 e2 : TransferEntry) :
  history_le e1 e2 → history_le e2 e1 → te_EventID e1 = te_EventID e2.
Proof.
  intros [|[? H1]] [|[? H2]]; try lia. by apply (anti_symm String.le).
Qed.

Lemma page_take {A} limit offset (xs : list A) :
  0 < limit → 0 <= offset →
  page limit offset xs = take (Z.to_nat limit) (drop (Z.to_nat offset) xs).
Proof.
  intros Hl Ho. unfold page. rewrite (decide_False (P := offset < 0)) by lia.
  destruct (decide (offset >= _)) as [Hge|Hlt].
  - rewrite drop_ge by lia. by rewrite take_nil.
  - destruct (decide (_ ∧ _)); [done|]. rewrite take_ge; [done|]. lia.
Qed.

Lemma StronglySorted_keyed_unique {A} (R : relation A) (l1 l2 : list A) :
  (∀ x y, x ∈ l1 → y ∈ l1 → R x y → R y x → x = y) →
  StronglySorted R l1 → StronglySorted R l2 → l1 ≡ₚ l2 → l1 = l2.
Proof.
  intros Has H1. revert l2. induction H1 as [|x1 l1 H1 IH Hx1]; intros l2 H2 Hp.
  - symmetry. by apply Permutation_nil.
  - destruct H2 as [|x2 l2 H2 Hx2]; [by apply Permutation_nil_r in Hp|].
    assert (x1 = x2) as ->.
    { assert (x2 ∈ x1 :: l1) as [->|Hin2]%elem_of_cons by (rewrite Hp; by left); [done|].
      assert (x1 ∈ x2 :: l2) as [->|Hin1]%elem_of_cons by (rewrite <- Hp; by left); [done|].
      rewrite Forall_forall in Hx1, Hx2. apply Has; [by left|by right|by apply Hx1|by apply Hx2]. }
    f_equal. apply IH; [|done|by apply Permutation_cons_inv in Hp].
    intros x y ??. apply Has; by right.
Qed.

Lemma history_base_NoDup agentID (m : gmap EventID TransferEntry) :
  (∀ k e, m !! k = Some e → te_EventID e = k) →
  NoDup (sort_slice history_le (filter (history_matches agentID) (map_to_list m).*2)).
Proof.
  intros Hkey. rewrite sort_slice_perm. apply NoDup_filter. apply NoDup_fmap_2_strong.
  - intros [k1 e1] [k2 e2] H1%elem_of_map_to_list H2%elem_of_map_to_list ?. simpl in *. subst e2.
    rewrite <- (Hkey _ _ H1), <- (Hkey _ _ H2). done.
  - apply NoDup_map_to_list.
Qed.

Lemma evict_count `{!PayloadCodec} {St} `{!Persistence St TransferEntry, !MetaPersistence St}
    cutoff (l l' : TransferLedger St) n :
  tl_EvictBefore cutoff l = (l', n) →
  n = Z.of_nat (size (tl_entries l)) - Z.of_nat (size (tl_entries l')).
Proof.
  intros Hev. pose proof (evict_entries cutoff l) as He. rewrite Hev in He. simpl in He.
  unfold tl_EvictBefore in Hev.
  pose proof (evict_loop cutoff (tl_entries l) (tl_archivedNetSettled l) (tl_entries l)
    ltac:(done)) as Hloop.
  destruct (map_fold _ _ _) as [[ents arch] removed]. destruct Hloop as (_ & _ & Hr).
  simplify_eq/=.
  set (P := λ kv : EventID * TransferEntry, evictable cutoff kv.2).
  assert (size (filter P (tl_entries l)) + size (filter (λ kv, ¬ P kv) (tl_entries l))
    = size (tl_entries l))%nat as Hsz.
  { rewrite <- map_size_disj_union by apply map_disjoint_filter_complement.
    by rewrite map_filter_union_complement. }
  unfold P in *. lia.
Qed.

(** * A concrete ledger *)

Definition demo_payload : TransferPayload :=
  mkTransferPayload "alice" "bob" 40 "AET" "" "" "".

#[global] Instance demo_codec : PayloadCodec :=
  constant_codec demo_payload (mkGenerationPayload "bob" "alice" 7 "" "")
    (mkTaskSettlementPayload "t1" "alice" "bob" 100 "h" "e" "code" 9000 false).

#[global] Instance demo_codec_ok : PayloadCodecOk.
Proof. apply constant_codec_ok; by compute. Qed.

Notation DemoStore := (KeyedStore te_EventID).

Definition demo_event (id : EventID) : Event :=
  mkEvent id EventTypeTransfer (Some []) (Some "{}") "alice" [] 3 1000 SettlementOptimistic.

Definition demo_new : TransferLedger DemoStore :=
  tl_SetStore (ks_empty te_EventID) (tl_NewTransferLedger 0).

Definition demo_funded : TransferLedger DemoStore := (tl_FundAgent "alice" 100 5 demo_new).1.

Definition demo_sent : TransferLedger DemoStore := (tl_Record (demo_event "e1") 6 demo_funded).1.

(** * Properties *)

Section properties.
Context `{!PayloadCodec} {St : Type} `{!Persistence St TransferEntry, !MetaPersistence St}.
Implicit Types (l : TransferLedger St).

(** C1: no overdraft.  Start from an empty ledger and run any operations, local
    submissions and synchronised ones, bucket transfers, mints, settlements and
    reversals, evictions and resets, as long as what the code leaves to its callers holds:
    no submission names "system" as its sender; a synchronised transfer is covered by its
    sender's balance here ([RecordFromSync] does not test it); a settled entry
    is reversed only while its recipient still has the amount; and mints stay
    below 2^63 and do not wrap around the cap.  Then there are exact
    integer accounts behind the ledger in which only the system is ever negative; the
    balance that the code computes with wrapping arithmetic is the account,
    clamped at zero, and the balances of any agents add up to at most the
    recorded mint total. *)
Theorem tl_no_overdraft `{!PayloadCodecOk} ops (s : option St) bc agents :
  let l0 := mkTL ∅ ∅ None s 0 0 bc in let l := ledger_run ops l0 in
  run_covered ops l0 → NoDup agents →
  (∃ A, solvent A ∧ (∀ a, tl_Balance l a = Z.max 0 (acct A a))
        ∧ - acct A system_agent <= tl_TotalMinted l)
  ∧ sum_list_Z (tl_Balance l <$> agents) <= tl_TotalMinted l.
Proof.
  intros l0 l Hcov Hnd. destruct (run_inv ops l0 ∅ Hcov (inv_new s bc)) as [A HA]. fold l in HA. split.
  - exists A. split_and!; [apply HA|intros a; by apply inv_balance|apply HA].
  - by eapply inv_balances_bounded.
Qed.

(** Archival is invisible to spending.  Evicting changes no balance of any
    agent (whatever the state, overflow included), removes exactly the entries
    that are not optimistic and older than the cutoff, counts them, and leaves
    the store, the cap, the minted total and the bucket counter alone; every removed entry is
    still found by [LoadTransferEntry] when the store holds it. *)
Theorem tl_EvictBefore_spec l cutoff l' n :
  tl_EvictBefore cutoff l = (l', n) →
  (∀ a, tl_Balance l' a = tl_Balance l a)
  ∧ (∀ id, tl_entries l' !! id = match tl_entries l !! id with
      | Some e => if decide (evictable cutoff e) then None else Some e
      | None => None end)
  ∧ n = Z.of_nat (size (tl_entries l)) - Z.of_nat (size (tl_entries l'))
  ∧ (tl_store l' = tl_store l ∧ tl_mintCap l' = tl_mintCap l ∧ tl_totalMinted l' = tl_totalMinted l ∧ tl_bucketCounter l' = tl_bucketCounter l)
  ∧ ∀ s id e, tl_store l = Some s → tl_entries l !! id = Some e → store_get id s = Some e →
      tl_LoadTransferEntry l' id = inl e.
Proof.
  intros Hev.
  assert (l' = (tl_EvictBefore cutoff l).1) as Hl' by (by rewrite Hev).
  pose proof (evict_entries cutoff l) as He. rewrite <- Hl' in He.
  pose proof (evict_rest cutoff l) as Hrest. cbv zeta in Hrest. rewrite <- Hl' in Hrest. pose proof (proj1 Hrest) as Hs.
  assert (∀ id, tl_entries l' !! id = match tl_entries l !! id with
    | Some e => if decide (evictable cutoff e) then None else Some e | None => None end) as Hlook.
  { intros id. rewrite He. destruct (tl_entries l !! id) as [e|] eqn:Hid.
    - case_decide as Hc.
      + apply map_lookup_filter_None_2. right. intros e' He' Hn. simpl in Hn. congruence.
      + by apply map_lookup_filter_Some_2.
    - apply map_lookup_filter_None_2. by left. }
  split; [|split; [done|split; [|split; [done|]]]].
  - intros a. unfold tl_Balance. rewrite !balance_net, Hl'. by rewrite net_evict.
  - by apply evict_count in Hev.
  - intros s id e Hst Hid Hget. unfold tl_LoadTransferEntry. rewrite Hlook, Hid, Hs, Hst, Hget.
    by case_decide.
Qed.

(** The settlement life cycle.  In any sequence of [Settle] calls, for each
    event at most two succeed starting from Optimistic, at most one starting
    from Settled and none after Adjusted: verdicts are never applied twice and
    Adjusted is terminal. *)
Theorem tl_Settle_once reqs l l' ok id :
  settle_all reqs l = (l', ok) →
  (length (filter (.= id) ok) <= entry_rank l id - entry_rank l' id <= 2)%nat.
Proof.
  intros Hs. pose proof (settle_all_rank reqs l l' ok id Hs).
  enough (entry_rank l id <= 2)%nat by lia.
  unfold entry_rank. destruct (_ !! _) as [e|]; [|lia]. destruct (te_Settlement e); simpl; lia.
Qed.

(** The protocol's mint cap.  When the arithmetic does not wrap, [FundAgent]
    keeps the total within the cap, succeeds exactly when the new total is
    within the cap, the credit is new and the store accepts it, then raises the
    recipient's account by exactly [amount]; and on failure the balances and the
    total are those before. *)
Theorem tl_FundAgent_cap l agentID amount now l' err :
  0 <= amount → 0 <= tl_totalMinted l → tl_totalMinted l + amount < u64_mod →
  0 < tl_mintCap l → tl_totalMinted l <= tl_mintCap l →
  tl_FundAgent agentID amount now l = (l', err) →
  tl_TotalMinted l' <= tl_mintCap l'
  ∧ (err = None ↔ tl_totalMinted l + amount <= tl_mintCap l
       ∧ tl_entries l !! genesis_id agentID amount = None
       ∧ (∀ s, tl_store l = Some s → (store_put (genesis_entry agentID amount now) s).2 = true))
  ∧ (err = None → tl_TotalMinted l' = tl_totalMinted l + amount
       ∧ (agentID ≠ system_agent → tl_net l' agentID = tl_net l agentID + amount))
  ∧ (err ≠ None → tl_TotalMinted l' = tl_TotalMinted l ∧ ∀ a, tl_Balance l' a = tl_Balance l a).
Proof.
  intros Ha H0 Hw Hc Hle. unfold tl_FundAgent, tl_TotalMinted.
  rewrite u64_small by (unfold is_u64, u64_mod in *; lia).
  assert (∀ s' : option St, tl_entries l !! genesis_id agentID amount = None → agentID ≠ system_agent →
    tl_net (mkTL (<[genesis_id agentID amount:=genesis_entry agentID amount now]> (tl_entries l))
      (tl_archivedNetSettled l) (tl_archiveDone l) s' (tl_mintCap l)
      (tl_totalMinted l + amount) (tl_bucketCounter l)) agentID = tl_net l agentID + amount) as Hnet.
  { intros s' Hid Hsys. unfold tl_net; simpl. rewrite map_sum_insert by done.
    rewrite flow_settled by done. simpl. rewrite decide_True, decide_False by done. lia. }
  destruct (decide (_ ∧ _)) as [Hcap|Hcap].
  { intros [= <- <-]. split_and!; try done. split; [done|]. lia. }
  destruct (tl_entries l !! genesis_id agentID amount) as [e|] eqn:Hid.
  { intros [= <- <-]. split_and!; try done. split; [done|]. by intros (_ & ? & _). }
  destruct (tl_store l) as [s|].
  - destruct (store_put _ s) as [s1 []] eqn:Hp; intros [= <- <-]; simpl.
    + split_and!; [lia| |by eauto|done]. split; [|done]. intros _. split_and!; [lia|done|].
      intros ? [= <-]. by rewrite Hp.
    + split_and!; [done| |done|done]. split; [done|]. intros (_ & _ & Hs).
      specialize (Hs s eq_refl). rewrite Hp in Hs. done.
  - intros [= <- <-]. simpl. split_and!; [lia| |by eauto|done]. split; [|done].
    intros _. split_and!; [lia|done|done].
Qed.

(** History paging.  The pages do not depend on the order in which the map
    is iterated; page [k] of size [n] is the [k]-th chunk of one list, which
    holds every non-genesis entry of the agent once, newest first. *)
Theorem tl_History_spec l agentID order :
  (∀ k e, tl_entries l !! k = Some e → te_EventID e = k) →
  order ≡ₚ map_to_list (tl_entries l) →
  let full := tl_History (map_to_list (tl_entries l)) agentID 0 0 in
  (∀ limit offset, 0 < limit → 0 <= offset →
     tl_History order agentID limit offset
     = take (Z.to_nat limit) (drop (Z.to_nat offset) full))
  ∧ NoDup full ∧ StronglySorted history_le full
  ∧ ∀ e, e ∈ full ↔ tl_entries l !! te_EventID e = Some e ∧ history_matches agentID e.
Proof.
  intros Hkey Hord full.
  set (base := sort_slice history_le (filter (history_matches agentID) (map_to_list (tl_entries l)).*2)).
  assert (full = base) as Hfull.
  { unfold full, tl_History, page. rewrite (decide_False (P := 0 < 0)) by lia.
    fold base. destruct (decide (0 >= _)) as [Hge|]; [|by rewrite decide_False by lia].
    destruct base; [done|simpl in Hge; lia]. }
  assert (∀ e, e ∈ base ↔ tl_entries l !! te_EventID e = Some e ∧ history_matches agentID e) as Hin.
  { intros e. unfold base. rewrite sort_slice_perm, list_elem_of_filter, list_elem_of_fmap.
    split.
    - intros [Hm [[k e'] [-> Hk%elem_of_map_to_list]]]. simpl in *. split; [|done].
      by rewrite (Hkey k e' Hk).
    - intros [Hk Hm]. split; [done|]. exists (te_EventID e, e). split; [done|].
      by apply elem_of_map_to_list. }
  rewrite Hfull. split_and!; [|by apply history_base_NoDup|apply sort_slice_sorted; apply _|done].
  intros limit offset Hl Ho. unfold tl_History. rewrite page_take by done. do 2 f_equal.
  apply (StronglySorted_keyed_unique history_le); [|apply sort_slice_sorted; apply _..|].
  - intros x y Hx Hy ??. rewrite sort_slice_perm, Hord in Hx, Hy. unfold base in Hin.
    setoid_rewrite sort_slice_perm in Hin. apply Hin in Hx as [Hx _], Hy as [Hy _].
    assert (te_EventID x = te_EventID y) as Heq by (by apply history_le_antisymm). congruence.
  - unfold base. by rewrite !sort_slice_perm, Hord.
Qed.

End properties.

Section persistence_properties.
Context `{!PayloadCodec} {St : Type} `{!Persistence St TransferEntry, !MetaPersistence St}.
Context `{!PersistenceLaws St TransferEntry te_EventID}.
Implicit Types (l : TransferLedger St).

(** C3: restart.  Over a reliable store, a ledger reloaded from disk after any
    run in which event IDs are not reused (archived entries included) reports
    the same balance for every agent and the same minted total. *)
Theorem tl_restart_preserves_balances
    `{!MetaLaws St TransferEntry te_EventID, !Reliable St TransferEntry} l s bc l' :
  durable_reachable l → tl_store l = Some s →
  tl_LoadTransferLedgerFromStore s bc = Some l' →
  tl_TotalMinted l' = tl_TotalMinted l ∧ ∀ a, tl_Balance l' a = tl_Balance l a.
Proof.
  intros (s' & ev & HS)%durable_synced Hs Hload.
  assert (s' = s) as -> by (destruct HS; congruence).
  destruct (synced_reload s ev l bc l' HS Hload) as (_ & Hm & Hnet).
  split; [done|]. intros a. unfold tl_Balance. rewrite !balance_net. by rewrite (Hnet a).
Qed.

(** Bucket transfer IDs repeat after a restart.  The counter in the ID starts
    over with the process, so when a restarted ledger performs the bucket
    transfer that an earlier process performed at the same counter value, the
    transfer is refused as a duplicate although the balance covers it. *)
Theorem tl_bucket_id_reused_after_restart l src dst amount memo g now memo' g' now' l1 s0 s1 l2 l3 err :
  Reliable St TransferEntry → tl_store l = Some s0 →
  tl_TransferFromBucketLabeled src dst amount memo g now l = (l1, None) →
  tl_store l1 = Some s1 →
  tl_LoadTransferLedgerFromStore s1 (tl_bucketCounter l) = Some l2 →
  amount <= tl_Balance l2 src →
  tl_TransferFromBucketLabeled src dst amount memo' g' now' l2 = (l3, err) →
  err = Some ErrDuplicateEntry ∧ ∀ a, tl_Balance l3 a = tl_Balance l2 a.
Proof.
  intros Hrel Hs0 Ht Hs1 Hload Hbal Ht2.
  assert (store_view s1 !! bucket_id src dst amount (u64 (tl_bucketCounter l + 1)) ≠ None) as Hin.
  { unfold tl_TransferFromBucketLabeled in Ht. case_decide; [done|].
    case_match; simplify_eq/=. rewrite Hs0 in Hs1. simpl in Hs1. simplify_eq.
    by rewrite put_view, lookup_insert_eq. }
  unfold tl_LoadTransferLedgerFromStore in Hload.
  destruct (store_all s1) as [ents|] eqn:Hall; [|done]. simplify_eq/=.
  rewrite (load_all_view te_EventID (store_view s1)) in *
    by ((intros k v; apply store_view_key) || by apply store_all_view).
  unfold tl_TransferFromBucketLabeled, tl_Balance in *. rewrite decide_False in Ht2 by lia. simpl in Ht2.
  destruct (store_view s1 !! _) eqn:Hx in Ht2; [|congruence]. by simplify_eq.
Qed.

End persistence_properties.

(** * The theorems at concrete ledgers *)

(** Submissions, a synchronised one, a settlement and its reversal; the last transfer is refused. *)
Definition demo_ops : list ledger_op :=
  [LFund "alice" 100 5; LRecord (demo_event "e1") 6; LSettle "e1" SettlementSettled; LRecordFromSync (demo_event "e2") 7;
   LSettle "e1" SettlementAdjusted; LTransfer "bob" "carol" 10 "" false 8].

Lemma tl_no_overdraft_witness :
  let l := ledger_run demo_ops (demo_new : TransferLedger DemoStore) in
  tl_Balance l "alice" = 60 ∧ tl_Balance l "bob" = 0
  ∧ sum_list_Z (tl_Balance l <$> ["alice"; "bob"; "system"]) <= tl_TotalMinted l.
Proof.
  split_and!; [by vm_compute|by vm_compute|].
  apply (tl_no_overdraft demo_ops); [|by repeat constructor; set_solver].
  split; [by vm_compute|]. split; [intros p E; injection E as <-; discriminate|]. split; [intros e _ _ E; discriminate E|].
  split; [intros p E; injection E as <-; by vm_compute|]. split; [|split; [by vm_compute|exact I]].
  intros e He _ _. vm_compute in He. injection He as <-. by vm_compute.
Defined.

Definition demo_settled : TransferLedger DemoStore := (tl_Settle "e1" SettlementSettled demo_sent).1.

Lemma tl_EvictBefore_spec_witness :
  (tl_EvictBefore 10 demo_settled).2 = 2
  ∧ tl_Balance (tl_EvictBefore 10 demo_settled).1 "bob" = tl_Balance demo_settled "bob"
  ∧ tl_Balance demo_settled "bob" = 40.
Proof.
  split_and!; [by vm_compute| |by vm_compute].
  apply (tl_EvictBefore_spec demo_settled 10 _ _ (surjective_pairing _)).
Defined.

Lemma tl_Settle_once_witness :
  let r := settle_all [("e1", SettlementSettled); ("e1", SettlementSettled);
                       ("e1", SettlementAdjusted); ("e1", SettlementAdjusted)] demo_sent in
  r.2 = ["e1"; "e1"] ∧ (length (filter (.= "e1") r.2) <= entry_rank demo_sent "e1" - entry_rank r.1 "e1" <= 2)%nat.
Proof.
  split; [by vm_compute|].
  apply (tl_Settle_once
    [("e1", SettlementSettled); ("e1", SettlementSettled);
     ("e1", SettlementAdjusted); ("e1", SettlementAdjusted)] demo_sent).
  apply surjective_pairing.
Defined.

Lemma tl_FundAgent_cap_witness :
  (tl_FundAgent "alice" 100 5 (tl_SetMintCap 150 demo_new)).2 = None
  ∧ (tl_FundAgent "alice" 151 5 (tl_SetMintCap 150 demo_new)).2 = Some ErrMintCapExceeded
  ∧ tl_TotalMinted (tl_FundAgent "alice" 100 5 (tl_SetMintCap 150 demo_new)).1
    <= tl_mintCap (tl_FundAgent "alice" 100 5 (tl_SetMintCap 150 demo_new)).1.
Proof.
  split_and!; [by vm_compute|by vm_compute|].
  refine (proj1 (tl_FundAgent_cap (tl_SetMintCap 150 demo_new) "alice" 100 5 _ _
    _ _ _ _ _ (surjective_pairing _))); by vm_compute.
Defined.

Definition demo_bucket_entries : list (EventID * TransferEntry) :=
  [("b", mkTransferEntry "b" "alice" "bob" 2 "AET" "" "" 4 SettlementSettled 1 false);
   ("a", mkTransferEntry "a" "alice" "bob" 1 "AET" "" "" 4 SettlementSettled 1 false);
   ("c", mkTransferEntry "c" "alice" "bob" 3 "AET" "" "" 9 SettlementSettled 1 false)].

Definition demo_history : TransferLedger DemoStore :=
  mkTL (list_to_map demo_bucket_entries) ∅ None None 0 0 0.

Lemma tl_History_spec_witness :
  te_EventID <$> tl_History (reverse (map_to_list (tl_entries demo_history))) "bob" 2 1 = ["b"; "a"]
  ∧ tl_History (reverse (map_to_list (tl_entries demo_history))) "bob" 2 1
    = take 2 (drop 1 (tl_History (map_to_list (tl_entries demo_history)) "bob" 0 0)).
Proof.
  split; [by vm_compute|].
  apply (tl_History_spec demo_history "bob" (reverse (map_to_list (tl_entries demo_history))));
    [|apply reverse_Permutation|done|done].
  intros k e He. apply elem_of_list_to_map_2 in He.
  repeat (apply elem_of_cons in He as [[= -> ->]|He]; [done|]). by apply elem_of_nil in He.
Defined.

(** A ledger whose only entry came from a peer. *)
Definition demo_synced : TransferLedger DemoStore :=
  (tl_RecordFromSync (set_SettlementState SettlementSettled (demo_event "e1")) 6 demo_new).1.

Lemma demo_durable : durable_reachable demo_synced.
Proof.
  apply durable_next with demo_new; [by apply (durable_new (ks_empty te_EventID) 0)|].
  apply durable_RecordFromSync. by intros s [= <-].
Qed.

Lemma tl_restart_preserves_balances_witness :
  ∃ s l', tl_store demo_synced = Some s ∧ tl_LoadTransferLedgerFromStore s 0 = Some l'
    ∧ tl_Balance l' "bob" = tl_Balance demo_synced "bob".
Proof.
  eexists _, _. split; [reflexivity|]. split; [reflexivity|].
  eapply (tl_restart_preserves_balances demo_synced); [apply demo_durable|reflexivity|reflexivity].
Defined.

Definition demo_moved : TransferLedger DemoStore :=
  (tl_TransferFromBucketLabeled "bob" "alice" 10 "m" false 7 demo_synced).1.

Definition demo_disk : DemoStore := default (ks_empty te_EventID) (tl_store demo_moved).

Definition demo_restarted : TransferLedger DemoStore :=
  default demo_new (tl_LoadTransferLedgerFromStore demo_disk 0).

Lemma tl_bucket_id_reused_after_restart_witness :
  tl_Balance demo_restarted "bob" = 30
  ∧ (tl_TransferFromBucketLabeled "bob" "alice" 10 "m" false 9 demo_restarted).2 = Some ErrDuplicateEntry.
Proof.
  split; [by vm_compute|].
  refine (proj1 (tl_bucket_id_reused_after_restart demo_synced "bob" "alice" 10 "m" false 7 "m" false 9
    demo_moved (default (ks_empty te_EventID) (tl_store demo_synced)) demo_disk demo_restarted _ _ _ _ _ _ _ _ (surjective_pairing _)));
    first [apply _ | by vm_compute].
Defined.

(** Archived IDs are forgotten.  Once a settled entry has been evicted, the
    duplicate checks of [RecordFromSync] and [FundAgent], which look only at
    memory, accept it again: a gossiped transfer is credited twice and the same
    genesis credit is minted twice, although their IDs are on disk. *)
Theorem tl_duplicate_after_eviction :
  (let l1 := (tl_EvictBefore 10 demo_settled).1 in
   (tl_RecordFromSync (set_SettlementState SettlementSettled (demo_event "e1")) 11 demo_settled)
     = (demo_settled, None)
   ∧ tl_GetSettlement l1 "e1" = (SettlementSettled, true)
   ∧ tl_Balance l1 "bob" = 40
   ∧ tl_Balance (tl_RecordFromSync (set_SettlementState SettlementSettled (demo_event "e1")) 11 l1).1 "bob"
     = 80)
  ∧ (let l1 := (tl_EvictBefore 10 demo_funded).1 in
   (tl_FundAgent "alice" 100 11 demo_funded).2 = Some ErrDuplicateEntry
   ∧ (tl_FundAgent "alice" 100 11 l1).2 = None
   ∧ tl_Balance (tl_FundAgent "alice" 100 11 l1).1 "alice" = 200).
Proof. split_and!; by vm_compute. Qed.

(** The mint cap check wraps.  [totalMinted + amount] is uint64 arithmetic,
    so one mint of [2^64 - totalMinted] passes any cap and resets the total to
    zero, after which the whole cap can be minted again. *)
Theorem tl_FundAgent_cap_wraps :
  let l1 := (tl_FundAgent "alice" 1000 1 (tl_SetMintCap 1000 demo_new)).1 in
  let l2 := (tl_FundAgent "mallory" (u64_mod - 1000) 2 l1).1 in
  let l3 := (tl_FundAgent "bob" 1000 3 l2).1 in
  (tl_FundAgent "bob" 1000 3 l1).2 = Some ErrMintCapExceeded
  ∧ tl_TotalMinted l2 = 0
  ∧ tl_TotalMinted l3 = 1000
  ∧ tl_Balance l3 "alice" + tl_Balance l3 "bob" = 2 * tl_mintCap l3.
Proof. by vm_compute. Qed.
