(* ===== verification/Generation.v ===== *)
(** internal/ledger/generation.go, the generation half of archival.go, and
    supply.go: the Generation Ledger and the supply report.

    State: the in-memory entries, the running archival configuration and the
    optional store.  Every method body runs under the ledger's mutex. *)

From S2P Require Import Prelude GoStd Store Event Transfer.

(** * Data *)

Record GenerationEntry := mkGenerationEntry {
  ge_EventID : EventID;
  ge_GeneratingAgent : AgentID;
  ge_BeneficiaryAgent : AgentID;
  ge_ClaimedValue : Z;
  ge_VerifiedValue : Z;
  ge_EvidenceHash : string;
  ge_TaskDescription : string;
  ge_Timestamp : Z;
  ge_Settlement : SettlementState;
  ge_RecordedAt : Z;
}.

Inductive GenError :=
  | ErrNotGeneration
  | GenErrDecodePayload
  | GenErrDuplicateEntry
  | GenErrEntryNotFound
  | GenErrInvalidTransition.

Record GenerationLedger (St : Type) := mkGL {
  gl_entries : gmap EventID GenerationEntry;
  gl_archiveDone : option ArchiveConfig;
  gl_store : option St;
}.
#[global] Arguments mkGL {St} _ _ _.
#[global] Arguments gl_entries {St} _.
#[global] Arguments gl_archiveDone {St} _.
#[global] Arguments gl_store {St} _.

Definition ge_set (v : Z) (s : SettlementState) (e : GenerationEntry) : GenerationEntry :=
  mkGenerationEntry (ge_EventID e) (ge_GeneratingAgent e) (ge_BeneficiaryAgent e)
    (ge_ClaimedValue e) v (ge_EvidenceHash e) (ge_TaskDescription e) (ge_Timestamp e) s
    (ge_RecordedAt e).

(** The order of [GenerationHistory]. *)
Definition gen_history_le (e1 e2 : GenerationEntry) : Prop :=
  ge_Timestamp e1 > ge_Timestamp e2
  ∨ (ge_Timestamp e1 = ge_Timestamp e2 ∧ String.le (ge_EventID e2) (ge_EventID e1)).

#[global] Instance gen_history_le_dec e1 e2 : Decision (gen_history_le e1 e2).
Proof. unfold gen_history_le, String.le. apply _. Defined.

Section GenerationLedger.
Context `{!PayloadCodec} {St : Type} `{!Persistence St GenerationEntry}.
Implicit Types (l : GenerationLedger St).

(** * Operations *)

Definition gl_NewGenerationLedger : GenerationLedger St := mkGL ∅ None None.

Definition gl_SetStore (s : St) l : GenerationLedger St :=
  mkGL (gl_entries l) (gl_archiveDone l) (Some s).

(** [l.entries[id] = e] followed by the write-through. *)
Definition gl_put (id : EventID) (e : GenerationEntry) l : GenerationLedger St :=
  mkGL (<[id := e]> (gl_entries l)) (gl_archiveDone l) (write_through e (gl_store l)).

Definition gen_entry_of_event (e : Event) (p : GenerationPayload) (now : Z) : GenerationEntry :=
  mkGenerationEntry (ID e) (gp_GeneratingAgent p) (gp_BeneficiaryAgent p) (gp_ClaimedValue p) 0
    (gp_EvidenceHash p) (gp_TaskDescription p) (CausalTimestamp e) SettlementOptimistic now.

Definition gl_Record (e : Event) (now : Z) l : GenerationLedger St * option GenError :=
  if decide (Type_ e ≠ EventTypeGeneration) then (l, Some ErrNotGeneration)
  else match GetPayload unmarshal_generation e with
  | None => (l, Some GenErrDecodePayload)
  | Some p =>
      match gl_entries l !! ID e with
      | Some _ => (l, Some GenErrDuplicateEntry)
      | None => (gl_put (ID e) (gen_entry_of_event e p now) l, None)
      end
  end.

Definition gl_RecordFromSync (e : Event) (now : Z) l : GenerationLedger St * option GenError :=
  if decide (Type_ e ≠ EventTypeGeneration) then (l, Some ErrNotGeneration)
  else match GetPayload unmarshal_generation e with
  | None => (l, Some GenErrDecodePayload)
  | Some p =>
      match gl_entries l !! ID e with
      | Some _ => (l, None)
      | None => (gl_put (ID e) (gen_entry_of_event e p now) l, None)
      end
  end.

Definition gl_Verify (eventID : EventID) (verifiedValue : Z) l :
    GenerationLedger St * option GenError :=
  match gl_entries l !! eventID with
  | None => (l, Some GenErrEntryNotFound)
  | Some entry =>
      if decide (ge_Settlement entry ≠ SettlementOptimistic) then (l, Some GenErrInvalidTransition)
      else (gl_put eventID (ge_set verifiedValue SettlementSettled entry) l, None)
  end.

Definition gl_Reject (eventID : EventID) l : GenerationLedger St * option GenError :=
  match gl_entries l !! eventID with
  | None => (l, Some GenErrEntryNotFound)
  | Some entry =>
      if decide (ge_Settlement entry = SettlementAdjusted) then (l, Some GenErrInvalidTransition)
      else (gl_put eventID (ge_set (ge_VerifiedValue entry) SettlementAdjusted entry) l, None)
  end.

Definition gl_TotalVerifiedValue (window now : Z) l : Z :=
  let cutoff := now - window in
  wrapped_sum (λ e, if decide (ge_Settlement e = SettlementSettled ∧ ¬ ge_RecordedAt e < cutoff)
                    then ge_VerifiedValue e else 0) (gl_entries l).

(** [order] is the order in which Go's map iteration yields the entries. *)
Definition gl_GenerationHistory (order : list (EventID * GenerationEntry)) (agentID : AgentID)
    (limit offset : Z) : list GenerationEntry :=
  let matched :=
    filter (λ e, ge_GeneratingAgent e = agentID ∨ ge_BeneficiaryAgent e = agentID) order.*2 in
  page limit offset (sort_slice gen_history_le matched).

(** The entries over which [ContributionScore] sums. *)
Definition counted (agentID : AgentID) (f : GenerationEntry → Z) (e : GenerationEntry) : Z :=
  if decide (ge_GeneratingAgent e ≠ agentID ∨ ge_Settlement e ≠ SettlementSettled) then 0 else f e.

Definition gl_ContributionScore (agentID : AgentID) l : Z :=
  let sumClaimed := wrapped_sum (counted agentID ge_ClaimedValue) (gl_entries l) in
  let sumVerified := wrapped_sum (counted agentID ge_VerifiedValue) (gl_entries l) in
  if decide (sumClaimed = 0) then 5000
  else
    let score := u64 (sumVerified * 10000) / sumClaimed in
    if decide (score > 10000) then 10000 else score.

Definition task_entry_id (taskID : string) : EventID := "task-completion:" +:+ taskID.

Definition task_entry (agentID : AgentID) (evidenceHash taskDescription : string)
    (verifiedValue : Z) (taskID : string) (now : Z) : GenerationEntry :=
  mkGenerationEntry (task_entry_id taskID) agentID agentID verifiedValue verifiedValue
    evidenceHash taskDescription (u64 now) SettlementSettled now.

Definition gl_RecordTaskGeneration (agentID : AgentID) (evidenceHash taskDescription : string)
    (verifiedValue : Z) (taskID : string) (now : Z) l : GenerationLedger St * option GenError :=
  match gl_entries l !! task_entry_id taskID with
  | Some _ => (l, None)
  | None =>
      (gl_put (task_entry_id taskID)
         (task_entry agentID evidenceHash taskDescription verifiedValue taskID now) l, None)
  end.

Definition gl_GetSettlement (eventID : EventID) l : SettlementState * bool :=
  match gl_entries l !! eventID with
  | Some entry => (ge_Settlement entry, true)
  | None =>
      match gl_store l with
      | Some s =>
          match store_get eventID s with
          | Some stored => (ge_Settlement stored, true)
          | None => (SettlementOptimistic, false)
          end
      | None => (SettlementOptimistic, false)
      end
  end.

Definition gl_LoadGenerationLedgerFromStore (s : St) : option (GenerationLedger St) :=
  match store_all s with
  | None => None
  | Some ents => Some (mkGL (load_all ge_EventID ents) None (Some s))
  end.

(** ** archival.go *)

Definition gl_evict_step (cutoff : Z) (id : EventID) (e : GenerationEntry)
    (acc : gmap EventID GenerationEntry * Z) : gmap EventID GenerationEntry * Z :=
  let '(ents, removed) := acc in
  if decide (ge_Settlement e = SettlementOptimistic) then (ents, removed)
  else if decide (¬ ge_RecordedAt e < cutoff) then (ents, removed)
  else (delete id ents, removed + 1).

Definition gl_EvictBefore (cutoff : Z) l : GenerationLedger St * Z :=
  let '(ents, removed) := map_fold (gl_evict_step cutoff) (gl_entries l, 0) (gl_entries l) in
  (mkGL ents (gl_archiveDone l) (gl_store l), removed).

Definition gl_LoadGenerationEntry (id : EventID) l : GenerationEntry + GenError :=
  match gl_entries l !! id with
  | Some entry => inl entry
  | None =>
      match gl_store l with
      | Some s => match store_get id s with
                  | Some stored => inl stored
                  | None => inr GenErrEntryNotFound
                  end
      | None => inr GenErrEntryNotFound
      end
  end.

Definition gl_Start (cfg : ArchiveConfig) l : GenerationLedger St :=
  if decide (Threshold cfg <= 0) then l
  else match gl_archiveDone l with
  | Some _ => l
  | None => mkGL (gl_entries l) (Some (archiveCfgWithDefaults cfg)) (gl_store l)
  end.

Definition gl_Stop l : GenerationLedger St := mkGL (gl_entries l) None (gl_store l).

(** One tick of the archival goroutine. *)
Definition gl_archive_tick (now : Z) l : GenerationLedger St :=
  match gl_archiveDone l with
  | Some cfg => (gl_EvictBefore (now - Threshold cfg) l).1
  | None => l
  end.

(** ** supply.go *)

Definition BaseSupply : Z := 1000000000000000.

Record SupplyHealth := mkSupplyHealth {
  sh_CurrentSupply : Z;
  sh_BaseSupply : Z;
  sh_ExpansionAmount : Z;
  sh_SupplyRatio : Z;  (* the float64 1.0 *)
  sh_VerifiedGeneration : Z;
  sh_MeasurementWindow : Z;
  sh_AtCap : bool;
  sh_Timestamp : Z;
}.

Definition CurrentSupply : Z := BaseSupply.

Definition HealthMetrics (now : Z) l : SupplyHealth :=
  let window := 30 * 24 * 3600000000000 in
  mkSupplyHealth BaseSupply BaseSupply 0 1 (gl_TotalVerifiedValue window now l) window false now.

End GenerationLedger.

(** * The append-only record *)

(** The operations of a running ledger, archival apart. *)
Inductive gl_step `{!PayloadCodec} {St} `{!Persistence St GenerationEntry} :
    GenerationLedger St → GenerationLedger St → Prop :=
  | gl_step_Record e now l : gl_step l (gl_Record e now l).1
  | gl_step_RecordFromSync e now l : gl_step l (gl_RecordFromSync e now l).1
  | gl_step_Verify id v l : gl_step l (gl_Verify id v l).1
  | gl_step_Reject id l : gl_step l (gl_Reject id l).1
  | gl_step_RecordTaskGeneration a ev d v t now l :
      gl_step l (gl_RecordTaskGeneration a ev d v t now l).1
  | gl_step_Start cfg l : gl_step l (gl_Start cfg l)
  | gl_step_Stop l : gl_step l (gl_Stop l).

(** How an entry may evolve: the claim never changes; the verified value is
    fixed once the entry leaves Optimistic; settlement only advances. *)
Definition entry_evolves (e e' : GenerationEntry) : Prop :=
  ge_set 0 SettlementOptimistic e' = ge_set 0 SettlementOptimistic e
  ∧ (ge_Settlement e ≠ SettlementOptimistic → ge_VerifiedValue e' = ge_VerifiedValue e)
  ∧ (ge_Settlement e' = ge_Settlement e
     ∨ ge_Settlement e = SettlementOptimistic
     ∨ ge_Settlement e' = SettlementAdjusted ∧ ge_Settlement e ≠ SettlementAdjusted).

#[global] Instance entry_evolves_refl : Reflexive entry_evolves.
Proof. intros e. unfold entry_evolves. naive_solver. Qed.

#[global] Instance entry_evolves_trans : Transitive entry_evolves.
Proof.
  intros e1 e2 e3 (H1 & H2 & H3) (G1 & G2 & G3). unfold entry_evolves.
  split_and!; [congruence| |].
  - intros Hne. rewrite <- H2 by done. apply G2.
    destruct H3 as [H3|[H3|[H3 _]]]; congruence.
  - destruct H3 as [H3|[H3|[H3 H4]]]; [rewrite <- H3; tauto|tauto|].
    destruct G3 as [G3|[G3|[G3 G4]]]; [|congruence..]. right; right. split; congruence.
Qed.

Section generation_lemmas.
Context `{!PayloadCodec} {St : Type} `{!Persistence St GenerationEntry}.
Implicit Types (l : GenerationLedger St).

Lemma gl_put_evolves l id e e0 j x :
  gl_entries l !! id = e0 → (∀ x, e0 = Some x → entry_evolves x e) →
  gl_entries l !! j = Some x →
  ∃ x', gl_entries (gl_put id e l) !! j = Some x' ∧ entry_evolves x x'.
Proof.
  intros He0 Hev Hj. simpl. destruct (decide (id = j)) as [<-|Hne].
  - rewrite lookup_insert_eq. exists e. split; [done|]. apply Hev. congruence.
  - rewrite lookup_insert_ne by done. by exists x.
Qed.

Lemma gl_step_evolves l l' j x :
  gl_step l l' → gl_entries l !! j = Some x →
  ∃ x', gl_entries l' !! j = Some x' ∧ entry_evolves x x'.
Proof.
  intros Hstep Hj.
  assert (∃ x', gl_entries l !! j = Some x' ∧ entry_evolves x x') as Hsame by (by exists x).
  destruct Hstep as [e now l|e now l|id v l|id l|a ev d v t now l|cfg l|l].
  - unfold gl_Record. repeat case_match; try done. by eapply gl_put_evolves.
  - unfold gl_RecordFromSync. repeat case_match; try done. by eapply gl_put_evolves.
  - unfold gl_Verify. destruct (gl_entries l !! id) as [e|] eqn:Hid; [|done].
    case_decide as Hs; [done|]. eapply gl_put_evolves; [done| |done].
    intros y [= <-]. unfold entry_evolves. simpl. naive_solver.
  - unfold gl_Reject. destruct (gl_entries l !! id) as [e|] eqn:Hid; [|done].
    case_decide as Hs; [done|]. eapply gl_put_evolves; [done| |done].
    intros y [= <-]. unfold entry_evolves. simpl. naive_solver.
  - unfold gl_RecordTaskGeneration. repeat case_match; try done. by eapply gl_put_evolves.
  - unfold gl_Start. by repeat case_match.
  - done.
Qed.

Lemma gl_steps_evolve l l' j x :
  rtc gl_step l l' → gl_entries l !! j = Some x →
  ∃ x', gl_entries l' !! j = Some x' ∧ entry_evolves x x'.
Proof.
  intros Hs. revert x. induction Hs as [l|l1 l2 l3 Hstep _ IH]; intros x Hx; [by exists x|].
  destruct (gl_step_evolves _ _ _ _ Hstep Hx) as (y & Hy & He).
  destruct (IH y Hy) as (z & Hz & He'). exists z. split; [done|]. by etrans.
Qed.

Lemma score_range v c : 0 <= v → 0 < c →
  0 <= (if decide (v / c > 10000) then 10000 else v / c) <= 10000.
Proof. intros Hv Hc. pose proof (Z.div_pos v c Hv Hc). case_decide; lia. Qed.

End generation_lemmas.

(** * Properties *)

Section generation_properties.
Context `{!PayloadCodec} {St : Type} `{!Persistence St GenerationEntry}.
Implicit Types (l : GenerationLedger St).

(** The contribution score.  It is always within [0, 10000]; when the sums
    fit their integers it is [min(10000, 10000 * verified / claimed)] over the
    agent's settled work, and 5000 for an agent whose settled claims total
    zero. *)
Theorem gl_ContributionScore_spec l agentID :
  0 <= gl_ContributionScore agentID l <= 10000
  ∧ ((∀ id e, gl_entries l !! id = Some e → 0 <= ge_ClaimedValue e ∧ 0 <= ge_VerifiedValue e) →
     let claimed := map_sum (counted agentID ge_ClaimedValue) (gl_entries l) in
     let verified := map_sum (counted agentID ge_VerifiedValue) (gl_entries l) in
     claimed < u64_mod → verified * 10000 < u64_mod →
     gl_ContributionScore agentID l
     = if decide (claimed = 0) then 5000 else Z.min 10000 (verified * 10000 / claimed)).
Proof.
  split.
  - unfold gl_ContributionScore. case_decide as Hc; [lia|].
    apply score_range; [apply u64_range|].
    pose proof (wrapped_sum_range (counted agentID ge_ClaimedValue) (gl_entries l)) as [? _]. lia.
  - intros Hnn claimed verified Hc Hv. unfold gl_ContributionScore.
    assert (∀ f, (∀ id e, gl_entries l !! id = Some e → 0 <= f e) →
      ∀ k e, gl_entries l !! k = Some e → 0 <= counted agentID f e) as Hcnt.
    { intros f Hf k e Hk. unfold counted. case_decide; [lia|by eapply Hf]. }
    pose proof (map_sum_nonneg (counted agentID ge_VerifiedValue) (gl_entries l)
      ltac:(apply Hcnt; intros ?? H'; by apply Hnn in H' as [_ ?])) as Hv0.
    fold verified in Hv0.
    rewrite (wrapped_sum_exact (counted agentID ge_ClaimedValue));
      [|apply Hcnt; intros ?? H'; by apply Hnn in H' as [? ?]|done].
    rewrite (wrapped_sum_exact (counted agentID ge_VerifiedValue));
      [|apply Hcnt; intros ?? H'; by apply Hnn in H' as [? ?]|fold verified; lia].
    fold claimed verified.
    case_decide; [done|]. rewrite u64_small by (unfold is_u64; lia). case_decide; lia.
Qed.

(** The ledger is append-only and verdicts are final.  Across any sequence of
    records, verifications, rejections and task completions no entry disappears
    and no claim changes; once an entry has left Optimistic its verified value
    is fixed, a further [Verify] is refused, and after Adjusted so is
    [Reject]. *)
Theorem gl_verdicts_final l l' id e :
  rtc gl_step l l' → gl_entries l !! id = Some e → ge_Settlement e ≠ SettlementOptimistic →
  ∃ e', gl_entries l' !! id = Some e'
    ∧ ge_ClaimedValue e' = ge_ClaimedValue e ∧ ge_GeneratingAgent e' = ge_GeneratingAgent e
    ∧ ge_VerifiedValue e' = ge_VerifiedValue e
    ∧ (∀ v, gl_Verify id v l' = (l', Some GenErrInvalidTransition))
    ∧ (ge_Settlement e = SettlementAdjusted → gl_Reject id l' = (l', Some GenErrInvalidTransition)).
Proof.
  intros Hs He Hne. destruct (gl_steps_evolve _ _ _ _ Hs He) as (e' & He' & Hc & Hv & Hadv).
  exists e'. injection Hc as ? ? ? ? ? ? ? ?. split_and!; try done; [by apply Hv| |].
  - intros v. unfold gl_Verify. rewrite He', decide_True; [done|].
    destruct Hadv as [Ha|[Ha|[Ha _]]]; congruence.
  - intros Hadj. unfold gl_Reject. rewrite He', decide_True; [done|].
    destruct Hadv as [Ha|[Ha|[Ha _]]]; congruence.
Qed.

End generation_properties.

(** ** Concrete ledgers *)

Definition demo_gl : GenerationLedger (KeyedStore ge_EventID) :=
  (gl_RecordTaskGeneration "bob" "e" "d" 60 "t1" 5
    (gl_SetStore (ks_empty ge_EventID) gl_NewGenerationLedger)).1.

Lemma gl_verdicts_final_witness :
  (gl_Verify "task-completion:t1" 9 demo_gl).2 = Some GenErrInvalidTransition.
Proof.
  destruct (gl_verdicts_final demo_gl demo_gl "task-completion:t1"
    (task_entry "bob" "e" "d" 60 "t1" 5) (rtc_refl _ _) ltac:(reflexivity) ltac:(done))
    as (e' & _ & _ & _ & _ & Hv & _).
  by rewrite Hv.
Defined.

Definition demo_gl2 : GenerationLedger (KeyedStore ge_EventID) :=
  (gl_Verify "g1" 1
    (gl_Record (mkEvent "g1" EventTypeGeneration (Some []) (Some "{}") "bob" [] 1 0 SettlementOptimistic) 50
      demo_gl).1).1.

Lemma gl_ContributionScore_spec_witness :
  gl_ContributionScore "bob" demo_gl2 = 61 * 10000 / 67.
Proof.
  rewrite (proj2 (gl_ContributionScore_spec demo_gl2 "bob")); [by vm_compute| |by vm_compute..].
  intros id e He. apply elem_of_map_to_list in He. revert He.
  assert (map_to_list (gl_entries demo_gl2) =
    [("g1", mkGenerationEntry "g1" "bob" "alice" 7 1 "" "" 1 SettlementSettled 50);
     ("task-completion:t1", task_entry "bob" "e" "d" 60 "t1" 5)]) as -> by (by vm_compute).
  intros [[= -> ->]|[[= -> ->]|[]%elem_of_nil]%elem_of_cons]%elem_of_cons; done.
Defined.

(** The in-memory map is not only a cache.  Archival changes the figures
    computed from it: after the old entry is evicted the agent's contribution
    score drops from 9104 to 1428, and [RecordTaskGeneration], documented as
    idempotent, records the same task again, overwriting the archived entry. *)
Theorem gl_EvictBefore_changes_score :
  gl_ContributionScore "bob" demo_gl2 = 9104
  ∧ gl_ContributionScore "bob" (gl_EvictBefore 10 demo_gl2).1 = 1428
  ∧ gl_TotalVerifiedValue 1000 60 demo_gl2 = 61
  ∧ gl_TotalVerifiedValue 1000 60 (gl_EvictBefore 10 demo_gl2).1 = 1
  ∧ gl_LoadGenerationEntry "task-completion:t1"
      (gl_RecordTaskGeneration "mallory" "x" "y" 99 "t1" 70 (gl_EvictBefore 10 demo_gl2).1).1
    = inl (task_entry "mallory" "x" "y" 99 "t1" 70)
  ∧ gl_RecordTaskGeneration "mallory" "x" "y" 99 "t1" 70 demo_gl2 = (demo_gl2, None).
Proof. split_and!; by vm_compute. Qed.
