(* ===== verification/Escrow.v ===== *)
(** internal/escrow/escrow.go: task budgets held in virtual buckets.

    State: the entries by task ID, the transfer ledger, the optional store and
    the optional DAG reader.  The ledger is any [BucketLedger]; the theorems use
    its laws only.  An operation that may fail half way is a state transformer
    whose state survives the error.  A [*EscrowEntry] obtained at the start of
    a call is the map's value during the whole call, so its fields are read
    from the map at each use.  Loops over Go maps take the iteration order as a
    list; each call takes one reading [now] of the clock for the transfers it
    makes. *)

From S2P Require Import Prelude GoStd Store Event Accounts Transfer.

(** * Data *)

Record EscrowEntry := mkEscrowEntry {
  ee_TaskID : string;
  ee_PosterID : AgentID;
  ee_Amount : Z;
  ee_FundingTransferRef : EventID;
  ee_WorkerPaid : bool;
  ee_ValidatorPaid : bool;
  ee_TreasuryPaid : bool;
  ee_ValidatorsPaid : gset AgentID;
  ee_GenLedgerPaid : gset AgentID;
  ee_PosterRefundPaid : bool;
}.

Inductive EscrowError :=
  | ErrEscrowNotFound
  | ErrDAGReaderNotConfigured
  | ErrFundingTransferNotProjected
  | ErrFundingTransferWrongType
  | ErrFundingTransferMismatch
  | ErrEscrowTransfer.  (* a wrapped error of the ledger *)

Record Escrow (L St : Type) := mkEscrow {
  es_entries : gmap string EscrowEntry;
  es_ledger : L;
  es_store : option St;
  es_dagReader : option (EventID → option Event);
}.
#[global] Arguments mkEscrow {L St} _ _ _ _.
#[global] Arguments es_entries {L St} _.
#[global] Arguments es_ledger {L St} _.
#[global] Arguments es_store {L St} _.
#[global] Arguments es_dagReader {L St} _.

(** [bucketID]. *)
Definition bucketID (taskID : string) : AgentID := "escrow:" +:+ taskID.

Definition fresh_entry (taskID : string) (poster : AgentID) (amount : Z) (ref : EventID) : EscrowEntry :=
  mkEscrowEntry taskID poster amount ref false false false ∅ ∅ false.

Definition mark_worker (e : EscrowEntry) : EscrowEntry :=
  mkEscrowEntry (ee_TaskID e) (ee_PosterID e) (ee_Amount e) (ee_FundingTransferRef e)
    true (ee_ValidatorPaid e) (ee_TreasuryPaid e) (ee_ValidatorsPaid e) (ee_GenLedgerPaid e)
    (ee_PosterRefundPaid e).

Definition mark_validator (e : EscrowEntry) : EscrowEntry :=
  mkEscrowEntry (ee_TaskID e) (ee_PosterID e) (ee_Amount e) (ee_FundingTransferRef e)
    (ee_WorkerPaid e) true (ee_TreasuryPaid e) (ee_ValidatorsPaid e) (ee_GenLedgerPaid e)
    (ee_PosterRefundPaid e).

Definition mark_treasury (e : EscrowEntry) : EscrowEntry :=
  mkEscrowEntry (ee_TaskID e) (ee_PosterID e) (ee_Amount e) (ee_FundingTransferRef e)
    (ee_WorkerPaid e) (ee_ValidatorPaid e) true (ee_ValidatorsPaid e) (ee_GenLedgerPaid e)
    (ee_PosterRefundPaid e).

Definition mark_refund (e : EscrowEntry) : EscrowEntry :=
  mkEscrowEntry (ee_TaskID e) (ee_PosterID e) (ee_Amount e) (ee_FundingTransferRef e)
    (ee_WorkerPaid e) (ee_ValidatorPaid e) (ee_TreasuryPaid e) (ee_ValidatorsPaid e)
    (ee_GenLedgerPaid e) true.

Definition mark_validators (v : AgentID) (e : EscrowEntry) : EscrowEntry :=
  mkEscrowEntry (ee_TaskID e) (ee_PosterID e) (ee_Amount e) (ee_FundingTransferRef e)
    (ee_WorkerPaid e) (ee_ValidatorPaid e) (ee_TreasuryPaid e) ({[v]} ∪ ee_ValidatorsPaid e)
    (ee_GenLedgerPaid e) (ee_PosterRefundPaid e).

Definition mark_gen (r : AgentID) (e : EscrowEntry) : EscrowEntry :=
  mkEscrowEntry (ee_TaskID e) (ee_PosterID e) (ee_Amount e) (ee_FundingTransferRef e)
    (ee_WorkerPaid e) (ee_ValidatorPaid e) (ee_TreasuryPaid e) (ee_ValidatorsPaid e)
    ({[r]} ∪ ee_GenLedgerPaid e) (ee_PosterRefundPaid e).

(** The arguments of [ReleaseSettlement]. *)
Record Distribution := mkDistribution {
  d_worker : AgentID;
  d_workerAmount : Z;
  d_posterRefund : AgentID;
  d_posterRefundAmount : Z;
  d_validators : gmap AgentID Z;
  d_genRecipients : gmap AgentID Z;
  d_treasury : AgentID;
  d_treasuryAmount : Z;
}.

Section Escrow.
Context {L Err St : Type} `{!BucketLedger L Err, !PayloadCodec, !Persistence St EscrowEntry}.
Notation Escrow := (Escrow L St).
Notation M := (ST Escrow EscrowError).

(** * Operations *)

Definition esc_New (tl : L) : Escrow := mkEscrow ∅ tl None None.

Definition esc_SetStore (s : St) (e : Escrow) : Escrow :=
  mkEscrow (es_entries e) (es_ledger e) (Some s) (es_dagReader e).

Definition esc_SetDAGReader (r : EventID → option Event) (e : Escrow) : Escrow :=
  mkEscrow (es_entries e) (es_ledger e) (es_store e) (Some r).

Definition esc_persist (entry : EscrowEntry) (e : Escrow) : Escrow :=
  mkEscrow (es_entries e) (es_ledger e) (write_through entry (es_store e)) (es_dagReader e).

Definition esc_LoadFromStore (tl : L) (s : St) : option Escrow :=
  match store_all s with
  | None => None
  | Some ents => Some (mkEscrow (load_all ee_TaskID ents) tl (Some s) None)
  end.

Definition esc_IsLocked (e : Escrow) (taskID : string) : bool :=
  bool_decide (is_Some (es_entries e !! taskID)).

Definition esc_HasSettlementStarted (e : Escrow) (taskID : string) : bool :=
  match es_entries e !! taskID with
  | None => false
  | Some entry =>
      ee_WorkerPaid entry || ee_ValidatorPaid entry || ee_TreasuryPaid entry
      || ee_PosterRefundPaid entry || bool_decide (0 < size (ee_ValidatorsPaid entry))%nat
      || bool_decide (0 < size (ee_GenLedgerPaid entry))%nat
  end.

Definition esc_Empty (e : Escrow) : bool := bool_decide (size (es_entries e) = 0%nat).

(** [e.entries[taskID] = entry; e.persist(entry)]. *)
Definition esc_store_entry (entry : EscrowEntry) (e : Escrow) : Escrow :=
  esc_persist entry
    (mkEscrow (<[ee_TaskID entry := entry]> (es_entries e)) (es_ledger e) (es_store e) (es_dagReader e)).

(** [delete(e.entries, taskID); e.store.DeleteEscrow(taskID)]. *)
Definition esc_remove (taskID : string) (e : Escrow) : Escrow :=
  mkEscrow (delete taskID (es_entries e)) (es_ledger e)
    (delete_through EscrowEntry taskID (es_store e)) (es_dagReader e).

(** A call of [TransferFromBucketLabeled] on the ledger. *)
Definition esc_transfer (src dst : AgentID) (amount : Z) (memo : string) (genesis : bool)
    (now : Z) : M unit := λ e,
  let (l', err) := bl_transfer src dst amount memo genesis now (es_ledger e) in
  (mkEscrow (es_entries e) l' (es_store e) (es_dagReader e),
   match err with None => inr tt | Some _ => inl ErrEscrowTransfer end).

(** [Hold] calls [TransferFromBucket], that is, the labelled transfer with the
    memo of the onboarding allocation and [IsGenesis] set. *)
Definition esc_Hold (taskID : string) (posterID : AgentID) (amount now : Z) : M unit := λ e,
  let e1 := esc_store_entry (fresh_entry taskID posterID amount "") e in
  match esc_transfer posterID (bucketID taskID) amount "onboarding allocation" true now e1 with
  | (e2, inl err) => (esc_remove taskID e2, inl err)
  | (e2, inr _) => (e2, inr tt)
  end.

(** The switch of [RegisterEscrow]: the transfer matches the registration. *)
Definition funding_matches (taskID : string) (poster : AgentID) (amount : Z)
    (tp : TransferPayload) : bool :=
  bool_decide (tp_Reason tp = "escrow-lock") && bool_decide (tp_FromAgent tp = poster)
  && bool_decide (tp_ToAgent tp = "escrow:" +:+ taskID) && bool_decide (tp_Amount tp = amount)
  && bool_decide (tp_TaskID tp = taskID).

Definition esc_RegisterEscrow (taskID : string) (poster : AgentID) (amount : Z)
    (fundingTransferRef : EventID) : M unit := λ e,
  match es_entries e !! taskID with
  | Some _ => (e, inr tt)
  | None =>
      match es_dagReader e with
      | None => (e, inl ErrDAGReaderNotConfigured)
      | Some reader =>
          match reader fundingTransferRef with
          | None => (e, inl ErrFundingTransferNotProjected)
          | Some fundingEvt =>
              if decide (Type_ fundingEvt ≠ EventTypeTransfer)
              then (e, inl ErrFundingTransferWrongType)
              else match GetPayload unmarshal_transfer fundingEvt with
              | None => (e, inl ErrFundingTransferWrongType)
              | Some tp =>
                  if funding_matches taskID poster amount tp
                  then (esc_store_entry (fresh_entry taskID poster amount fundingTransferRef) e, inr tt)
                  else (e, inl ErrFundingTransferMismatch)
              end
          end
      end
  end.

Definition esc_RegisterEscrowForTest (taskID : string) (poster : AgentID) (amount : Z)
    (fundingTransferRef : EventID) : M unit := λ e,
  match es_entries e !! taskID with
  | Some _ => (e, inr tt)
  | None => (esc_store_entry (fresh_entry taskID poster amount fundingTransferRef) e, inr tt)
  end.

(** [entry, ok := e.entries[taskID]; if !ok { return ErrEscrowNotFound }]. *)
Definition esc_entry (taskID : string) : M EscrowEntry := λ e,
  match es_entries e !! taskID with
  | None => (e, inl ErrEscrowNotFound)
  | Some entry => (e, inr entry)
  end.

(** [entry.XPaid = true; e.persist(entry)]. *)
Definition esc_mark (taskID : string) (mark : EscrowEntry → EscrowEntry) : M unit := λ e,
  match es_entries e !! taskID with
  | None => (e, inr tt)
  | Some entry =>
      (esc_persist (mark entry)
         (mkEscrow (<[taskID := mark entry]> (es_entries e)) (es_ledger e) (es_store e)
            (es_dagReader e)), inr tt)
  end.

(** One guarded disbursement: if [needed], transfer out of the bucket, set the
    paid flag and persist it. *)
Definition esc_pay (taskID : string) (needed : EscrowEntry → bool) (dst : AgentID) (amount : Z)
    (memo : string) (mark : EscrowEntry → EscrowEntry) (now : Z) : M unit :=
  entry ← esc_entry taskID;
  if needed entry then
    _ ← esc_transfer (bucketID taskID) dst amount memo false now;
    esc_mark taskID mark
  else mret tt.

Definition esc_Release (taskID : string) (claimerID : AgentID) (now : Z) : M unit :=
  entry ← esc_entry taskID;
  _ ← esc_transfer (bucketID taskID) claimerID (ee_Amount entry) "escrow-release:full-release" false now;
  st_modify (λ e, mkEscrow (delete taskID (es_entries e)) (es_ledger e) (es_store e) (es_dagReader e)).

Definition esc_ReleaseNet (taskID : string) (claimerID : AgentID) (netAmount : Z)
    (validatorID : AgentID) (validatorAmount : Z) (treasuryID : AgentID) (treasuryAmount : Z)
    (now : Z) : M unit :=
  _ ← esc_entry taskID;
  _ ← esc_pay taskID (λ e, negb (ee_WorkerPaid e)) claimerID netAmount
        "escrow-release-net:worker" mark_worker now;
  _ ← esc_pay taskID (λ e, bool_decide (validatorAmount > 0) && negb (ee_ValidatorPaid e))
        validatorID validatorAmount "escrow-release-net:validator" mark_validator now;
  _ ← esc_pay taskID (λ e, bool_decide (treasuryAmount > 0) && negb (ee_TreasuryPaid e))
        treasuryID treasuryAmount "escrow-release-net:treasury" mark_treasury now;
  st_modify (esc_remove taskID).

(** [for vid, amount := range validators]. *)
Fixpoint esc_pay_validators (taskID : string) (order : list (AgentID * Z)) (now : Z) : M unit :=
  match order with
  | [] => mret tt
  | (vid, amount) :: rest =>
      _ ← esc_pay taskID
            (λ e, negb (bool_decide (amount = 0)) && negb (bool_decide (vid ∈ ee_ValidatorsPaid e)))
            vid amount "escrow-release:validator-distribution" (mark_validators vid) now;
      esc_pay_validators taskID rest now
  end.

(** [for rid, amount := range genRecipients]. *)
Fixpoint esc_pay_gen (taskID : string) (order : list (AgentID * Z)) (now : Z) : M unit :=
  match order with
  | [] => mret tt
  | (rid, amount) :: rest =>
      _ ← esc_pay taskID
            (λ e, negb (bool_decide (amount = 0)) && negb (bool_decide (rid ∈ ee_GenLedgerPaid e)))
            rid amount "escrow-release:gen-ledger-royalty" (mark_gen rid) now;
      esc_pay_gen taskID rest now
  end.

(** [vorder] and [gorder] are the iteration orders of the two maps. *)
Definition esc_ReleaseSettlement (taskID : string) (d : Distribution)
    (vorder gorder : list (AgentID * Z)) (now : Z) : M unit :=
  _ ← esc_entry taskID;
  _ ← esc_pay taskID (λ e, bool_decide (d_workerAmount d > 0) && negb (ee_WorkerPaid e))
        (d_worker d) (d_workerAmount d) "escrow-release:worker" mark_worker now;
  _ ← esc_pay taskID (λ e, bool_decide (d_posterRefundAmount d > 0) && negb (ee_PosterRefundPaid e))
        (d_posterRefund d) (d_posterRefundAmount d) "escrow-release:poster-refund" mark_refund now;
  _ ← esc_pay_validators taskID vorder now;
  _ ← esc_pay_gen taskID gorder now;
  _ ← esc_pay taskID (λ e, bool_decide (d_treasuryAmount d > 0) && negb (ee_TreasuryPaid e))
        (d_treasury d) (d_treasuryAmount d) "escrow-release:treasury-fee" mark_treasury now;
  st_modify (esc_remove taskID).

Definition esc_Refund (taskID : string) (now : Z) : M unit :=
  entry ← esc_entry taskID;
  _ ← esc_transfer (bucketID taskID) (ee_PosterID entry) (ee_Amount entry)
        "escrow-refund:poster-cancel" false now;
  st_modify (esc_remove taskID).

Definition esc_Get (taskID : string) : M EscrowEntry := esc_entry taskID.

Definition esc_TotalEscrowed (e : Escrow) : Z := wrapped_sum ee_Amount (es_entries e).

End Escrow.

(** * Outstanding claims *)

(** The shares of a map that are not marked as paid. *)
Definition unpaid (m : gmap AgentID Z) (paid : gset AgentID) : gmap AgentID Z :=
  filter (λ kv, kv.1 ∉ paid) m.

Definition open_claim (paid : bool) (amount : Z) : Z := if paid then 0 else amount.

(** What [a] has still to receive from the settlement [d] of an entry. *)
Definition due (d : Distribution) (e : EscrowEntry) (a : AgentID) : Z :=
  (if decide (a = d_worker d) then open_claim (ee_WorkerPaid e) (d_workerAmount d) else 0)
  + (if decide (a = d_posterRefund d) then open_claim (ee_PosterRefundPaid e) (d_posterRefundAmount d) else 0)
  + default 0 (unpaid (d_validators d) (ee_ValidatorsPaid e) !! a)
  + default 0 (unpaid (d_genRecipients d) (ee_GenLedgerPaid e) !! a)
  + (if decide (a = d_treasury d) then open_claim (ee_TreasuryPaid e) (d_treasuryAmount d) else 0).

(** What the bucket has still to pay. *)
Definition total_due (d : Distribution) (e : EscrowEntry) : Z :=
  open_claim (ee_WorkerPaid e) (d_workerAmount d)
  + open_claim (ee_PosterRefundPaid e) (d_posterRefundAmount d)
  + map_sum id (unpaid (d_validators d) (ee_ValidatorsPaid e))
  + map_sum id (unpaid (d_genRecipients d) (ee_GenLedgerPaid e))
  + open_claim (ee_TreasuryPaid e) (d_treasuryAmount d).

(** The net claim of [a]: the bucket's own claim is negative. *)
Definition claim (t : string) (d : Distribution) (e : EscrowEntry) (a : AgentID) : Z :=
  due d e a - (if decide (a = bucketID t) then total_due d e else 0).

(** Paid flags are never cleared. *)
Definition progress (e e' : EscrowEntry) : Prop :=
  (ee_WorkerPaid e → ee_WorkerPaid e') ∧ (ee_PosterRefundPaid e → ee_PosterRefundPaid e')
  ∧ (ee_TreasuryPaid e → ee_TreasuryPaid e') ∧ ee_ValidatorsPaid e ⊆ ee_ValidatorsPaid e'
  ∧ ee_GenLedgerPaid e ⊆ ee_GenLedgerPaid e' ∧ ee_TaskID e' = ee_TaskID e
  ∧ ee_PosterID e' = ee_PosterID e ∧ ee_Amount e' = ee_Amount e.

#[global] Instance progress_refl : Reflexive progress.
Proof. intros e. unfold progress. set_solver. Qed.

#[global] Instance progress_trans : Transitive progress.
Proof.
  intros e1 e2 e3 (?&?&?&?&?&?&?&?) (?&?&?&?&?&?&?&?).
  unfold progress. split_and!; first [tauto | congruence | set_solver].
Qed.

Ltac solve_progress :=
  intros; unfold progress; simpl; split_and!; first [done | tauto | set_solver].

(** All amounts of a distribution are [uint64] values. *)
Definition amounts_u64 (d : Distribution) : Prop :=
  is_u64 (d_workerAmount d) ∧ is_u64 (d_posterRefundAmount d) ∧ is_u64 (d_treasuryAmount d)
  ∧ map_Forall (λ _, is_u64) (d_validators d) ∧ map_Forall (λ _, is_u64) (d_genRecipients d).

Lemma unpaid_mark m paid v x :
  m !! v = Some x → v ∉ paid →
  unpaid m paid !! v = Some x ∧ unpaid m ({[v]} ∪ paid) = delete v (unpaid m paid).
Proof.
  intros Hv Hp. split; [by apply map_lookup_filter_Some_2|].
  apply map_eq. intros k. destruct (decide (k = v)) as [->|Hk].
  - rewrite lookup_delete_eq. apply map_lookup_filter_None_2. right. intros y _. set_solver.
  - rewrite lookup_delete_ne by done. unfold unpaid. apply option_eq. intros y.
    rewrite !map_lookup_filter_Some. set_solver.
Qed.

Lemma unpaid_all m paid :
  (∀ v x, m !! v = Some x → x ≠ 0 → v ∈ paid) →
  (∀ a, default 0 (unpaid m paid !! a) = 0) ∧ map_sum id (unpaid m paid) = 0.
Proof.
  intros Hall.
  assert (∀ v x, unpaid m paid !! v = Some x → x = 0) as H0.
  { intros v x [Hv Hn]%map_lookup_filter_Some. destruct (decide (x = 0)); [done|].
    simpl in Hn. naive_solver. }
  split; [|by apply map_sum_zero].
  intros a. destruct (unpaid m paid !! a) as [x|] eqn:Ha; [|done]. simpl. by eapply H0.
Qed.

Lemma default_delete (m : gmap AgentID Z) v x a :
  m !! v = Some x → default 0 (delete v m !! a) = default 0 (m !! a) - (if decide (a = v) then x else 0).
Proof.
  intros Hv. case_decide as Ha.
  - subst. rewrite lookup_delete_eq, Hv. simpl. lia.
  - rewrite lookup_delete_ne by done. lia.
Qed.

(** How each mark changes the claims. *)
Definition pays_off (t : string) (d : Distribution) (dst : AgentID) (amount : Z) (e e' : EscrowEntry) : Prop :=
  ∀ a, claim t d e' a = claim t d e a - (if decide (a = dst) then amount else 0)
                                      + (if decide (a = bucketID t) then amount else 0).

Lemma pays_worker t d e : ee_WorkerPaid e = false →
  pays_off t d (d_worker d) (d_workerAmount d) e (mark_worker e).
Proof.
  intros He a. unfold claim, due, total_due, open_claim. simpl. rewrite He.
  repeat case_decide; lia.
Qed.

Lemma pays_refund t d e : ee_PosterRefundPaid e = false →
  pays_off t d (d_posterRefund d) (d_posterRefundAmount d) e (mark_refund e).
Proof.
  intros He a. unfold claim, due, total_due, open_claim. simpl. rewrite He.
  repeat case_decide; lia.
Qed.

Lemma pays_treasury t d e : ee_TreasuryPaid e = false →
  pays_off t d (d_treasury d) (d_treasuryAmount d) e (mark_treasury e).
Proof.
  intros He a. unfold claim, due, total_due, open_claim. simpl. rewrite He.
  repeat case_decide; lia.
Qed.

Lemma pays_validator t d e v x : d_validators d !! v = Some x → v ∉ ee_ValidatorsPaid e →
  pays_off t d v x e (mark_validators v e).
Proof.
  intros Hv Hp a. destruct (unpaid_mark _ _ _ _ Hv Hp) as [Hu Hd].
  unfold claim, due, total_due. simpl. rewrite Hd.
  rewrite (default_delete _ _ _ _ Hu), (map_sum_delete _ _ _ _ Hu). unfold id.
  destruct (decide (a = bucketID t)); lia.
Qed.

Lemma pays_gen t d e v x : d_genRecipients d !! v = Some x → v ∉ ee_GenLedgerPaid e →
  pays_off t d v x e (mark_gen v e).
Proof.
  intros Hv Hp a. destruct (unpaid_mark _ _ _ _ Hv Hp) as [Hu Hd].
  unfold claim, due, total_due. simpl. rewrite Hd.
  rewrite (default_delete _ _ _ _ Hu), (map_sum_delete _ _ _ _ Hu). unfold id.
  destruct (decide (a = bucketID t)); lia.
Qed.

Section settlement.
Context {L Err St : Type} `{!BucketLedger L Err, !BucketLedgerLaws L Err}.
Context `{!PayloadCodec, !Persistence St EscrowEntry}.
Notation Escrow := (Escrow L St).
Implicit Types (s : Escrow).

Definition eacct s (a : AgentID) : Z := bl_acct (es_ledger s) a.

(** [s'] was reached from [s] paying only what [d] owes under entry [e]. *)
Definition settles (t : string) (d : Distribution) s (e : EscrowEntry) s' (e' : EscrowEntry) : Prop :=
  bl_ok (es_ledger s') ∧ es_entries s' !! t = Some e' ∧ progress e e'
  ∧ (∀ a, eacct s' a + claim t d e' a = eacct s a + claim t d e a)
  ∧ (∀ u, u ≠ t → es_entries s' !! u = es_entries s !! u).

Lemma settles_refl t d s e : bl_ok (es_ledger s) → es_entries s !! t = Some e → settles t d s e s e.
Proof. intros. by split_and!. Qed.

Lemma settles_trans t d s1 e1 s2 e2 s3 e3 :
  settles t d s1 e1 s2 e2 → settles t d s2 e2 s3 e3 → settles t d s1 e1 s3 e3.
Proof.
  intros (_&_&Hp&Ha&Hu) (?&?&Hp'&Ha'&Hu'). split_and!; [done|done|by etrans| |].
  - intros a. by rewrite Ha'.
  - intros u Hne. rewrite Hu'; auto.
Qed.

Lemma esc_pay_spec t d needed dst amount memo mark now s e s' r :
  bl_ok (es_ledger s) → es_entries s !! t = Some e → is_u64 amount →
  (needed e = true → pays_off t d dst amount e (mark e)) → progress e (mark e) →
  esc_pay t needed dst amount memo mark now s = (s', r) →
  ∃ e', settles t d s e s' e' ∧ (r = inr tt → e' = if needed e then mark e else e).
Proof.
  intros Hok He Hu Hpays Hprog. unfold esc_pay, esc_entry, mbind, st_bind. rewrite He.
  destruct (needed e) eqn:Hn; cycle 1.
  { intros [= <- <-]. exists e. split; [by apply settles_refl|done]. }
  unfold esc_transfer.
  destruct (bl_transfer _ _ _ _ _ _ _) as [l' err] eqn:Ht. destruct err as [err|].
  - intros [= <- <-]. exists e. split; [|done].
    destruct (bl_transfer_err _ _ _ _ _ _ _ _ _ Hok Ht) as [Hok' Hsame].
    split_and!; simpl; [done|done|done| |done]. intros a. unfold eacct. simpl. by rewrite Hsame.
  - unfold esc_mark; simpl. rewrite He. intros [= <- <-]. exists (mark e). split; [|done].
    destruct (bl_transfer_ok _ _ _ _ _ _ _ _ Hok Hu Ht) as (Hok' & _ & Hmv).
    split_and!; simpl; [done|by rewrite lookup_insert_eq|done| |].
    + intros a. unfold eacct. simpl. rewrite Hmv, (Hpays eq_refl). lia.
    + intros u Hne. by rewrite lookup_insert_ne.
Qed.

Lemma esc_pay_validators_spec t d order now s e s' r :
  bl_ok (es_ledger s) → es_entries s !! t = Some e →
  (∀ v x, (v, x) ∈ order → d_validators d !! v = Some x ∧ is_u64 x) →
  esc_pay_validators t order now s = (s', r) →
  ∃ e', settles t d s e s' e'
    ∧ (r = inr tt → ∀ v x, (v, x) ∈ order → x ≠ 0 → v ∈ ee_ValidatorsPaid e').
Proof.
  revert s e. induction order as [|[v x] order IH]; intros s e Hok He Hin; simpl.
  { intros [= <- <-]. exists e. split; [by apply settles_refl|set_solver]. }
  unfold mbind, st_bind. destruct (esc_pay _ _ _ _ _ _ _ _) as [s1 r1] eqn:Hp.
  destruct (Hin v x) as [Hv Hx]; [by left|].
  eapply (esc_pay_spec t d) in Hp as (e1 & H1 & Hr1); [|done..| |].
  2: { intros Hn%andb_true_iff. destruct Hn as [_ Hn]. apply negb_true_iff, bool_decide_eq_false in Hn.
       by apply pays_validator. }
  2: { solve_progress. }
  destruct r1 as [err|[]].
  { intros [= <- <-]. exists e1. split; [done|discriminate]. }
  intros Hrest. destruct (IH s1 e1) as (e2 & H2 & Hr2); [apply H1|apply H1|intros w y Hw; apply Hin; by right|done|].
  exists e2. split; [by eapply settles_trans|]. intros Hr w y [[= -> ->]|Hw]%elem_of_cons Hy; [|by eapply Hr2].
  destruct H2 as (_&_&(_&_&_&Hsub&_)&_). apply Hsub.
  specialize (Hr1 eq_refl). cbv beta in Hr1. rewrite (bool_decide_eq_false_2 (x = 0) Hy) in Hr1.
  destruct (bool_decide (v ∈ _)) eqn:Hb in Hr1; simpl in Hr1; subst e1; simpl;
    [by apply bool_decide_eq_true in Hb|]. apply elem_of_union_l. by apply elem_of_singleton.
Qed.

Lemma esc_pay_gen_spec t d order now s e s' r :
  bl_ok (es_ledger s) → es_entries s !! t = Some e →
  (∀ v x, (v, x) ∈ order → d_genRecipients d !! v = Some x ∧ is_u64 x) →
  esc_pay_gen t order now s = (s', r) →
  ∃ e', settles t d s e s' e'
    ∧ (r = inr tt → ∀ v x, (v, x) ∈ order → x ≠ 0 → v ∈ ee_GenLedgerPaid e').
Proof.
  revert s e. induction order as [|[v x] order IH]; intros s e Hok He Hin; simpl.
  { intros [= <- <-]. exists e. split; [by apply settles_refl|set_solver]. }
  unfold mbind, st_bind. destruct (esc_pay _ _ _ _ _ _ _ _) as [s1 r1] eqn:Hp.
  destruct (Hin v x) as [Hv Hx]; [by left|].
  eapply (esc_pay_spec t d) in Hp as (e1 & H1 & Hr1); [|done..| |].
  2: { intros Hn%andb_true_iff. destruct Hn as [_ Hn]. apply negb_true_iff, bool_decide_eq_false in Hn.
       by apply pays_gen. }
  2: { solve_progress. }
  destruct r1 as [err|[]].
  { intros [= <- <-]. exists e1. split; [done|discriminate]. }
  intros Hrest. destruct (IH s1 e1) as (e2 & H2 & Hr2); [apply H1|apply H1|intros w y Hw; apply Hin; by right|done|].
  exists e2. split; [by eapply settles_trans|]. intros Hr w y [[= -> ->]|Hw]%elem_of_cons Hy; [|by eapply Hr2].
  destruct H2 as (_&_&(_&_&_&_&Hsub&_)&_). apply Hsub.
  specialize (Hr1 eq_refl). cbv beta in Hr1. rewrite (bool_decide_eq_false_2 (x = 0) Hy) in Hr1.
  destruct (bool_decide (v ∈ _)) eqn:Hb in Hr1; simpl in Hr1; subst e1; simpl;
    [by apply bool_decide_eq_true in Hb|]. apply elem_of_union_l. by apply elem_of_singleton.
Qed.

(** A disbursement that is followed by more of the settlement. *)
Lemma bind_inr {A B} (m : ST Escrow EscrowError A) (k : A → ST Escrow EscrowError B) s s' r :
  (m ≫= k) s = (s', r) →
  (∃ err, m s = (s', inl err) ∧ r = inl err) ∨ (∃ x s1, m s = (s1, inr x) ∧ k x s1 = (s', r)).
Proof.
  unfold mbind, st_bind. destruct (m s) as [s1 [err|x]] eqn:Hm.
  - intros [= <- <-]. left. by exists err.
  - intros Hk. right. by exists x, s1.
Qed.

End settlement.

(** * Releasing a settlement *)

(** The iteration orders enumerate the two maps. *)
Definition orders_of (d : Distribution) (vorder gorder : list (AgentID * Z)) : Prop :=
  vorder ≡ₚ map_to_list (d_validators d) ∧ gorder ≡ₚ map_to_list (d_genRecipients d).

(** Any number of failing attempts followed by a successful one. *)
Inductive esc_retries {L Err St} `{!BucketLedger L Err, !Persistence St EscrowEntry}
    (t : string) (d : Distribution) : Escrow L St → Escrow L St → Prop :=
  | retry_done vorder gorder now s s' :
      orders_of d vorder gorder →
      esc_ReleaseSettlement t d vorder gorder now s = (s', inr tt) → esc_retries t d s s'
  | retry_again vorder gorder now s s1 s' err :
      orders_of d vorder gorder →
      esc_ReleaseSettlement t d vorder gorder now s = (s1, inl err) →
      esc_retries t d s1 s' → esc_retries t d s s'.

Section release.
Context {L Err St : Type} `{!BucketLedger L Err, !BucketLedgerLaws L Err}.
Context `{!PayloadCodec, !Persistence St EscrowEntry}.
Notation Escrow := (Escrow L St).
Implicit Types (s : Escrow).

(** One stage of the settlement, after the stages that led from [s0] to [s]. *)
Lemma settle_stage t d (m k : ST Escrow EscrowError unit) (Q : EscrowEntry → Prop) s0 e0 s e s' r :
  settles t d s0 e0 s e →
  (∀ s1 r1, m s = (s1, r1) → ∃ e1, settles t d s e s1 e1 ∧ (r1 = inr tt → Q e1)) →
  (m ≫= λ _, k) s = (s', r) →
  (∃ e1 err, settles t d s0 e0 s' e1 ∧ r = inl err)
  ∨ (∃ e1 s1, settles t d s0 e0 s1 e1 ∧ progress e e1 ∧ Q e1 ∧ k s1 = (s', r)).
Proof.
  intros H0 Hm [(err & Hm1 & ->)|([] & s1 & Hm1 & Hk)]%bind_inr;
    destruct (Hm _ _ Hm1) as (e1 & H1 & HQ).
  - left. exists e1, err. split; [by eapply settles_trans|done].
  - right. exists e1, s1. split_and!; [by eapply settles_trans|apply H1|by apply HQ|done].
Qed.

(** The stage of a recipient with a paid flag of its own. *)
Lemma pay_stage t d (f : EscrowEntry → bool) mark dst amount memo now
    (k : ST Escrow EscrowError unit) s0 e0 s e s' r :
  settles t d s0 e0 s e → is_u64 amount →
  (∀ e, f e = false → pays_off t d dst amount e (mark e)) →
  (∀ e, progress e (mark e)) → (∀ e, f (mark e) = true) →
  (esc_pay t (λ e, bool_decide (amount > 0) && negb (f e)) dst amount memo mark now ≫= λ _, k) s
    = (s', r) →
  (∃ e1 err, settles t d s0 e0 s' e1 ∧ r = inl err)
  ∨ (∃ e1 s1, settles t d s0 e0 s1 e1 ∧ progress e e1 ∧ (0 < amount → f e1 = true) ∧ k s1 = (s', r)).
Proof.
  intros H0 Hu Hpays Hprog Hmark Hrun.
  eapply (settle_stage t d _ k (λ e1, 0 < amount → f e1 = true)); [done| |done].
  intros s1 r1 Hp. eapply (esc_pay_spec t d) in Hp as (e1 & H1 & Hr1); [|apply H0..|done| |auto].
  - exists e1. split; [done|]. intros Hr Hz. rewrite (Hr1 Hr).
    rewrite bool_decide_eq_true_2 by lia. simpl. destruct (f e) eqn:Hf; simpl; auto.
  - intros Hg. apply Hpays. destruct (f e); [by rewrite andb_false_r in Hg|done].
Qed.

Lemma claims_settled t d e a :
  (0 < d_workerAmount d → ee_WorkerPaid e = true) → 0 <= d_workerAmount d →
  (0 < d_posterRefundAmount d → ee_PosterRefundPaid e = true) → 0 <= d_posterRefundAmount d →
  (0 < d_treasuryAmount d → ee_TreasuryPaid e = true) → 0 <= d_treasuryAmount d →
  (∀ v x, d_validators d !! v = Some x → x ≠ 0 → v ∈ ee_ValidatorsPaid e) →
  (∀ v x, d_genRecipients d !! v = Some x → x ≠ 0 → v ∈ ee_GenLedgerPaid e) →
  claim t d e a = 0.
Proof.
  intros Hw ? Hp ? Htr ? Hv Hg.
  destruct (unpaid_all _ _ Hv) as [Hv1 Hv2]. destruct (unpaid_all _ _ Hg) as [Hg1 Hg2].
  assert (∀ (b : bool) z, (0 < z → b = true) → 0 <= z → open_claim b z = 0) as Hoc.
  { intros b z Hb Hz. destruct b; simpl; [done|]. destruct (decide (0 < z)) as [H'|]; [|lia].
    by apply Hb in H'. }
  unfold claim, due, total_due. rewrite Hv1, Hv2, Hg1, Hg2, !Hoc by done. repeat case_decide; lia.
Qed.

Lemma esc_release_spec t d vorder gorder now s e s' r :
  bl_ok (es_ledger s) → es_entries s !! t = Some e → amounts_u64 d → orders_of d vorder gorder →
  esc_ReleaseSettlement t d vorder gorder now s = (s', r) →
  match r with
  | inl _ => ∃ e', settles t d s e s' e'
  | inr _ => bl_ok (es_ledger s') ∧ es_entries s' = delete t (es_entries s')
      ∧ (∀ u, u ≠ t → es_entries s' !! u = es_entries s !! u)
      ∧ ∀ a, eacct s' a = eacct s a + claim t d e a
  end.
Proof.
  intros Hok He (Huw & Hup & Hut & Huv & Hug) [Hvo Hgo]. unfold esc_ReleaseSettlement.
  intros [(err & Hm & ->)|(e0 & s0 & Hm & R0)]%bind_inr;
    unfold esc_entry in Hm; rewrite He in Hm; simplify_eq.
  pose proof (settles_refl t d s0 e0 Hok He) as S0.
  destruct (pay_stage _ d ee_WorkerPaid _ _ _ _ _ _ _ _ _ _ _ _ S0 Huw ltac:(apply pays_worker)
    ltac:(solve_progress) ltac:(done) R0)
    as [(e1 & err & S1 & ->)|(e1 & s1 & S1 & P1 & Q1 & R1)]; [by exists e1|].
  destruct (pay_stage _ d ee_PosterRefundPaid _ _ _ _ _ _ _ _ _ _ _ _ S1 Hup ltac:(apply pays_refund)
    ltac:(solve_progress) ltac:(done) R1)
    as [(e2 & err & S2 & ->)|(e2 & s2 & S2 & P2 & Q2 & R2)]; [by exists e2|].
  eapply (settle_stage t d _ _ (λ e', ∀ v x, (v, x) ∈ vorder → x ≠ 0 → v ∈ ee_ValidatorsPaid e')) in R2
    as [(e3 & err & S3 & ->)|(e3 & s3 & S3 & P3 & Q3 & R3)]; [by exists e3| |exact S2|].
  2: { intros s3 r3 Hp. eapply (esc_pay_validators_spec t d) in Hp; [done|apply S2|apply S2|].
       intros v x Hvx. rewrite Hvo in Hvx. apply elem_of_map_to_list in Hvx.
       split; [done|]. by eapply Huv. }
  eapply (settle_stage t d _ _ (λ e', ∀ v x, (v, x) ∈ gorder → x ≠ 0 → v ∈ ee_GenLedgerPaid e')) in R3
    as [(e4 & err & S4 & ->)|(e4 & s4 & S4 & P4 & Q4 & R4)]; [by exists e4| |exact S3|].
  2: { intros s4 r4 Hp. eapply (esc_pay_gen_spec t d) in Hp; [done|apply S3|apply S3|].
       intros v x Hvx. rewrite Hgo in Hvx. apply elem_of_map_to_list in Hvx.
       split; [done|]. by eapply Hug. }
  destruct (pay_stage _ d ee_TreasuryPaid _ _ _ _ _ _ _ _ _ _ _ _ S4 Hut ltac:(apply pays_treasury)
    ltac:(solve_progress) ltac:(done) R4)
    as [(e5 & err & S5 & ->)|(e5 & s5 & S5 & P5 & Q5 & R5)]; [by exists e5|].
  unfold st_modify in R5. simplify_eq. simpl.
  destruct S5 as (Hok5 & _ & _ & Hcl & Hrest).
  split_and!; [done|by rewrite delete_delete_eq|intros u Hu; rewrite lookup_delete_ne by done; auto|].
  intros a. unfold eacct in *. simpl. rewrite <- Hcl. rewrite (claims_settled t d e5); [lia|..].
  - intros Hz. apply Is_true_true, P5, P4, P3, P2, Is_true_true. auto.
  - apply Huw.
  - intros Hz. apply Is_true_true, P5, P4, P3, Is_true_true. auto.
  - apply Hup.
  - auto.
  - apply Hut.
  - intros v x Hvx Hx. apply P5, P4. apply (Q3 v x); [|done]. rewrite Hvo. by apply elem_of_map_to_list.
  - intros v x Hvx Hx. apply P5. apply (Q4 v x); [|done]. rewrite Hgo. by apply elem_of_map_to_list.
Qed.

Lemma due_bucket_only t d e a : a ≠ bucketID t → claim t d e a = due d e a.
Proof. intros. unfold claim. rewrite decide_False by done. lia. Qed.

End release.

(** * Properties *)

Section escrow_properties.
Context {L Err St : Type} `{!BucketLedger L Err, !BucketLedgerLaws L Err}.
Context `{!PayloadCodec, !Persistence St EscrowEntry}.
Notation Escrow := (Escrow L St).
Implicit Types (s : Escrow).

(** C2: settlement pays exactly once.  [ReleaseSettlement] may fail at any of its
    transfers and be retried any number of times, with any iteration order of
    the validator and royalty maps: when a retry finally succeeds, every
    recipient has received exactly what the entry still owed it before the
    first attempt, the bucket has paid exactly the total, the entry is gone, and
    the escrows of other tasks are untouched. *)
Theorem esc_settlement_exactly_once t d s s' e :
  bl_ok (es_ledger s) → es_entries s !! t = Some e → amounts_u64 d → esc_retries t d s s' →
  (∀ a, a ≠ bucketID t → bl_acct (es_ledger s') a = bl_acct (es_ledger s) a + due d e a)
  ∧ bl_acct (es_ledger s') (bucketID t)
    = bl_acct (es_ledger s) (bucketID t) + due d e (bucketID t) - total_due d e
  ∧ es_entries s' !! t = None
  ∧ (∀ u, u ≠ t → es_entries s' !! u = es_entries s !! u)
  ∧ ∀ vorder gorder now,
      esc_ReleaseSettlement t d vorder gorder now s' = (s', inl ErrEscrowNotFound).
Proof.
  intros Hok He Hu Hr.
  assert (es_entries s' !! t = None ∧ (∀ u, u ≠ t → es_entries s' !! u = es_entries s !! u)
    ∧ ∀ a, eacct s' a = eacct s a + claim t d e a) as (Hnone & Hothers & Hcl).
  { revert e He. induction Hr as [vo go now s s' Ho Hrel|vo go now s s1 s' err Ho Hrel _ IH];
      intros e He; pose proof (esc_release_spec _ _ _ _ _ _ _ _ _ Hok He Hu Ho Hrel) as Hs; simpl in Hs.
    - destruct Hs as (_ & Hd & Hoth & Hcl). split_and!; [rewrite Hd; apply lookup_delete_eq|done|done].
    - destruct Hs as (e1 & Hok1 & He1 & _ & Hcl1 & Hoth1).
      destruct (IH Hok1 e1 He1) as (Hnone & Hoth & Hcl).
      split_and!; [done|intros u Hne; rewrite Hoth by done; auto|].
      intros a. rewrite Hcl. apply Hcl1. }
  split_and!; [| |done|done|].
  2: { specialize (Hcl (bucketID t)). unfold claim, eacct in Hcl. rewrite decide_True in Hcl by done. lia. }
  - intros a Ha. specialize (Hcl a). rewrite due_bucket_only in Hcl by done. apply Hcl.
  - intros vo go now. unfold esc_ReleaseSettlement, esc_entry, mbind, st_bind. by rewrite Hnone.
Qed.

(** Registration is validated and moves no funds.  [RegisterEscrow] never
    touches the ledger; it is a no-op on a task that is already registered;
    otherwise it succeeds exactly when the referenced event is a decodable
    Transfer with reason escrow-lock from the poster to the task's bucket of
    the registered amount and task, and then records precisely that; every
    error leaves the escrow as it was. *)
Theorem esc_RegisterEscrow_spec t poster amount ref s s' r :
  esc_RegisterEscrow t poster amount ref s = (s', r) →
  es_ledger s' = es_ledger s
  ∧ (is_Some (es_entries s !! t) → s' = s ∧ r = inr tt)
  ∧ (es_entries s !! t = None →
      (r = inr tt ↔ ∃ reader ev tp, es_dagReader s = Some reader ∧ reader ref = Some ev
        ∧ Type_ ev = EventTypeTransfer ∧ GetPayload unmarshal_transfer ev = Some tp
        ∧ tp_Reason tp = "escrow-lock" ∧ tp_FromAgent tp = poster ∧ tp_ToAgent tp = bucketID t
        ∧ tp_Amount tp = amount ∧ tp_TaskID tp = t)
      ∧ (r = inr tt → es_entries s' = <[t := fresh_entry t poster amount ref]> (es_entries s)))
  ∧ (∀ err, r = inl err → s' = s).
Proof.
  unfold esc_RegisterEscrow. destruct (es_entries s !! t) as [e|] eqn:He.
  { intros [= <- <-]. split_and!; [done|done|done|by intros]. }
  destruct (es_dagReader s) as [reader|] eqn:Hd; cycle 1.
  { intros [= <- <-]. split_and!; [done|by intros [? ?]| |by intros]. intros _. split; [|done].
    split; [done|]. by intros (? & ? & ? & ? & _). }
  destruct (reader ref) as [ev|] eqn:Hev; cycle 1.
  { intros [= <- <-]. split_and!; [done|by intros [? ?]| |by intros]. intros _. split; [|done].
    split; [done|]. intros (? & ? & ? & [= <-] & ? & _). congruence. }
  destruct (decide (Type_ ev ≠ EventTypeTransfer)) as [Hty|Hty].
  { intros [= <- <-]. split_and!; [done|by intros [? ?]| |by intros]. intros _. split; [|done].
    split; [done|]. intros (? & ? & ? & [= <-] & ? & ? & _). congruence. }
  destruct (GetPayload unmarshal_transfer ev) as [tp|] eqn:Hp; cycle 1.
  { intros [= <- <-]. split_and!; [done|by intros [? ?]| |by intros]. intros _. split; [|done].
    split; [done|]. intros (? & ? & ? & [= <-] & ? & ? & ? & _). congruence. }
  destruct (funding_matches t poster amount tp) eqn:Hm; unfold funding_matches in Hm.
  - intros [= <- <-]. rewrite !andb_true_iff, !bool_decide_eq_true in Hm.
    destruct Hm as [[[[? ?] ?] ?] ?]. split_and!; [done|by intros [? ?]| |done].
    intros _. split; [|done]. split; [|done]. intros _. exists reader, ev, tp.
    split_and!; try done. by destruct (decide (Type_ ev = EventTypeTransfer)).
  - intros [= <- <-]. split_and!; [done|by intros [? ?]| |by intros]. intros _. split; [|done].
    split; [done|]. intros (? & ev' & tp' & [= <-] & ? & ? & ? & Hall). exfalso.
    assert (ev' = ev) as -> by congruence. assert (tp' = tp) as -> by congruence.
    destruct Hall as (E1 & E2 & E3 & E4 & E5). unfold bucketID in E3.
    rewrite !bool_decide_eq_true_2 in Hm by done. done.
Qed.

(** Holding and refunding.  A successful [Hold] on a new task moves exactly
    the budget from the poster to the task's bucket; a failed one moves nothing
    and leaves no entry; a [Refund] after a successful [Hold], if the ledger
    accepts it, restores every account and removes the entry. *)
Theorem esc_Hold_Refund t poster amount now now' s s1 r1 s2 :
  bl_ok (es_ledger s) → is_u64 amount → es_entries s !! t = None →
  esc_Hold t poster amount now s = (s1, r1) →
  (∀ err, r1 = inl err →
     es_entries s1 = es_entries s ∧ ∀ a, bl_acct (es_ledger s1) a = bl_acct (es_ledger s) a)
  ∧ (r1 = inr tt →
       es_entries s1 !! t = Some (fresh_entry t poster amount "")
       ∧ (∀ a, bl_acct (es_ledger s1) a
           = bl_acct (es_ledger s) a - (if decide (a = poster) then amount else 0)
             + (if decide (a = bucketID t) then amount else 0))
       ∧ (esc_Refund t now' s1 = (s2, inr tt) →
            es_entries s2 = es_entries s ∧ ∀ a, bl_acct (es_ledger s2) a = bl_acct (es_ledger s) a)).
Proof.
  intros Hok Hu Hnone. unfold esc_Hold, esc_transfer. simpl.
  destruct (bl_transfer _ _ _ _ _ _ _) as [l' err] eqn:Ht. destruct err as [err|]; intros [= <- <-]; simpl.
  - destruct (bl_transfer_err _ _ _ _ _ _ _ _ _ Hok Ht) as [_ Hsame].
    split; [|done]. intros _ _. split; [|done]. by rewrite delete_insert_eq, delete_id.
  - destruct (bl_transfer_ok _ _ _ _ _ _ _ _ Hok Hu Ht) as (Hok' & _ & Hmv).
    split; [done|]. intros _. split_and!; [apply lookup_insert_eq|done|].
    unfold esc_Refund, esc_entry, mbind, st_bind. simpl. rewrite lookup_insert_eq. simpl.
    unfold esc_transfer; simpl.
    destruct (bl_transfer _ poster _ _ _ _ _) as [l2 err2] eqn:Ht2.
    destruct err2 as [err2|]; [done|]. unfold st_modify. intros [= <-]. simpl.
    destruct (bl_transfer_ok _ _ _ _ _ _ _ _ Hok' Hu Ht2) as (_ & _ & Hmv2).
    split; [by rewrite delete_insert_eq, delete_id|]. intros a. rewrite Hmv2, Hmv. lia.
Qed.

End escrow_properties.

(** ** At concrete escrows *)

Definition demo_dist : Distribution :=
  mkDistribution "worker" 60 "poster" 0 (<["v1" := 10]> {["v2" := 20]}) ∅ "treasury" 10.

(** Two earlier attempts paid the worker and "v1" before failing. *)
Definition demo_entry : EscrowEntry := mark_validators "v1" (mark_worker (fresh_entry "t1" "poster" 100 "")).

Definition demo_escrow : Escrow (gmap AgentID Z) (KeyedStore ee_TaskID) :=
  mkEscrow {["t1" := demo_entry]} (move system_agent (bucketID "t1") 30 ∅) None None.

Lemma demo_amounts_u64 : amounts_u64 demo_dist.
Proof.
  assert (∀ z, 0 <= z < 100 → is_u64 z) as Hu by (unfold is_u64, u64_mod; lia).
  do 3 (split; [apply Hu; simpl; lia|]). split; [|apply map_Forall_empty].
  apply map_Forall_insert; [done|]. split; [apply Hu; lia|]. apply map_Forall_singleton. apply Hu. lia.
Qed.

Lemma esc_settlement_exactly_once_witness :
  let s' := (esc_ReleaseSettlement "t1" demo_dist (map_to_list (d_validators demo_dist)) [] 5 demo_escrow).1 in
  bl_acct (es_ledger s') "v2" = 20 ∧ bl_acct (es_ledger s') "v1" = 0
  ∧ es_entries s' !! "t1" = None.
Proof.
  intros s'.
  destruct (esc_settlement_exactly_once "t1" demo_dist demo_escrow s' demo_entry) as (Hd & _ & Hn & _);
    [by apply solvent_issue|reflexivity|apply demo_amounts_u64| |].
  - eapply (retry_done _ _ (map_to_list (d_validators demo_dist)) [] 5); [by split|]. by vm_compute.
  - split_and!; [rewrite (Hd "v2") by done; by vm_compute|rewrite (Hd "v1") by done; by vm_compute|done].
Defined.

Definition demo_lock : Event :=
  mkEvent "f1" EventTypeTransfer (Some []) (Some "{}") "alice" [] 3 1000 SettlementSettled.

Lemma esc_RegisterEscrow_spec_witness :
  let s0 := esc_SetDAGReader (λ _, Some demo_lock)
    (esc_New (∅ : gmap AgentID Z)) : Escrow (gmap AgentID Z) (KeyedStore ee_TaskID) in
  let r := esc_RegisterEscrow "t1" "alice" 40 "f1" s0 in
  r.2 = inl ErrFundingTransferMismatch ∧ r.1 = s0.
Proof.
  intros s0 r. split; [reflexivity|].
  destruct (esc_RegisterEscrow_spec "t1" "alice" 40 "f1" s0 r.1 r.2 (surjective_pairing _))
    as (_ & _ & _ & Herr).
  by apply (Herr ErrFundingTransferMismatch).
Defined.

Definition demo_bank : Escrow (gmap AgentID Z) (KeyedStore ee_TaskID) :=
  esc_SetStore (ks_empty ee_TaskID) (esc_New (move system_agent "alice" 100 ∅)).

Lemma esc_Hold_Refund_witness :
  let s1 := (esc_Hold "t1" "alice" 70 1 demo_bank).1 in
  let s2 := (esc_Refund "t1" 2 s1).1 in
  bl_acct (es_ledger s1) "alice" = 30
  ∧ ∀ a, bl_acct (es_ledger s2) a = bl_acct (es_ledger demo_bank) a.
Proof.
  intros s1 s2.
  destruct (esc_Hold_Refund "t1" "alice" 70 1 2 demo_bank s1 (inr tt) s2) as [_ Hok];
    [by apply solvent_issue|by compute|reflexivity|by vm_compute|].
  destruct (Hok eq_refl) as (_ & Hacct & Hrefund). split.
  - rewrite Hacct. by vm_compute.
  - apply Hrefund. by vm_compute.
Defined.

(** [Hold] on a task that is already held.  It overwrites the entry before
    the transfer, and when the transfer fails it deletes the entry: the first
    budget stays in the bucket with no entry left to release or refund it. *)
Theorem esc_Hold_strands_funds :
  let s1 := (esc_Hold "t1" "alice" 70 1 demo_bank).1 in
  let s2 := (esc_Hold "t1" "alice" 50 2 s1).1 in
  (esc_Hold "t1" "alice" 50 2 s1).2 = inl ErrEscrowTransfer
  ∧ bl_balance (es_ledger s2) (bucketID "t1") = 70
  ∧ (esc_Refund "t1" 3 s2).2 = inl ErrEscrowNotFound
  ∧ (esc_Release "t1" "worker" 3 s2).2 = inl ErrEscrowNotFound.
Proof. split_and!; by vm_compute. Qed.

(** The state after a crash: the ledger's transfers survive, the escrow's
    entries are those last persisted. *)
Definition esc_crash {L} (s : Escrow L (KeyedStore ee_TaskID)) (disk : Escrow L (KeyedStore ee_TaskID)) :
    Escrow L (KeyedStore ee_TaskID) :=
  default s (st ← es_store disk; esc_LoadFromStore (es_ledger s) st).

(** What a restart undoes.  (1) [Release] deletes the entry from memory only,
    so after a restart the paid-out task is locked again.  (2) The paid flag
    is persisted after the transfer, so a crash between the two makes the retry
    pay the worker a second time; the per-recipient flags do not amount to one
    transaction. *)
Theorem esc_restart_forgets :
  let held := (esc_Hold "t1" "alice" 70 1 demo_bank).1 in
  (let s1 := (esc_Release "t1" "worker" 2 held).1 in
   esc_IsLocked s1 "t1" = false ∧ esc_IsLocked (esc_crash s1 s1) "t1" = true
   ∧ bl_balance (es_ledger s1) (bucketID "t1") = 0)
  ∧ (let paid := (esc_transfer (bucketID "t1") "worker" 30 "escrow-release:worker" false 2 held).1 in
     let back := esc_crash paid held in
     let d := mkDistribution "worker" 30 "alice" 0 ∅ ∅ "treasury" 10 in
     let done := esc_ReleaseSettlement "t1" d [] [] 3 back in
     done.2 = inr tt ∧ bl_balance (es_ledger done.1) "worker" = 60).
Proof. split_and!; by vm_compute. Qed.
