(* ===== verification/Staking.v ===== *)
(** internal/staking/staking.go: stake positions, trust multipliers, slashing.

    State: the staked amounts, the first-stake and last-activity timestamps (Unix
    seconds), the optional store of stake metadata and the optional transfer
    ledger.  The decay parameters are package variables; they are the record
    [DecayParams], passed to [EffectiveTasks].  Clock readings are arguments. *)

From S2P Require Import Prelude GoStd Store Event Accounts.

(** * Trust levels *)

Record TrustLevel := mkTrustLevel { Multiplier : Z; MinTasks : Z; MinDaysStaked : Z }.

Definition TrustLevels : list TrustLevel :=
  [mkTrustLevel 1 0 0; mkTrustLevel 2 25 30; mkTrustLevel 3 50 60; mkTrustLevel 4 75 90;
   mkTrustLevel 5 100 120].

Definition DecayDays : Z := 30.
Definition DecayTasksPerPeriod : Z := 25.

Record DecayParams := mkDecayParams { activeDecayDays : Z; activeDecayTasksPerPeriod : Z }.

Definition SetDecayParams (days tasksPerPeriod : Z) : DecayParams :=
  mkDecayParams (if decide (days <= 0) then DecayDays else days) tasksPerPeriod.

Definition EffectiveTasks (dp : DecayParams) (tasksCompleted lastActivityUnix now : Z) : Z :=
  if decide (lastActivityUnix <= 0 ∨ now <= lastActivityUnix) then tasksCompleted
  else
    let days := u64 (activeDecayDays dp) in
    let penalty := activeDecayTasksPerPeriod dp in
    let inactiveDays := u64 (Z.quot (i64 (now - lastActivityUnix)) 86400) in
    let decayPeriods := inactiveDays / days in
    if decide (decayPeriods = 0) then tasksCompleted
    else
      let reduction := u64 (decayPeriods * penalty) in
      if decide (reduction >= tasksCompleted) then 0 else u64 (tasksCompleted - reduction).

Definition level_step (tasksCompleted daysSinceStake achieved : Z) (level : TrustLevel) : Z :=
  if decide (tasksCompleted >= MinTasks level ∧ daysSinceStake >= MinDaysStaked level)
  then Multiplier level else achieved.

Definition TrustMultiplier (tasksCompleted stakedSince now : Z) : Z :=
  if decide (stakedSince <= 0 ∨ now <= stakedSince) then 1
  else
    let daysSinceStake := u64 (Z.quot (i64 (now - stakedSince)) 86400) in
    foldl (level_step tasksCompleted daysSinceStake) 1 TrustLevels.

Definition TrustLimit (stakedAmount tasksCompleted stakedSince now : Z) : Z :=
  let multiplier := TrustMultiplier tasksCompleted stakedSince now in
  if decide (stakedAmount > 0 ∧ multiplier > MaxUint64 / stakedAmount) then MaxUint64
  else u64 (stakedAmount * multiplier).

Definition TrustLimitFull (dp : DecayParams)
    (stakedAmount tasksCompleted stakedSince lastActivity now : Z) : Z :=
  TrustLimit stakedAmount (EffectiveTasks dp tasksCompleted lastActivity now) stakedSince now.

(** * The stake manager *)

(** One record of the stake metadata. *)
Record StakeMeta := mkStakeMeta {
  sk_agent : AgentID; sk_since : Z; sk_activity : Z; sk_amount : Z;
}.

Record StakeManager (L St : Type) := mkSM {
  sm_stakes : gmap AgentID Z;
  sm_stakedSince : gmap AgentID Z;
  sm_lastActivity : gmap AgentID Z;
  sm_store : option St;
  sm_transfer : option L;
}.
#[global] Arguments mkSM {L St} _ _ _ _ _.
#[global] Arguments sm_stakes {L St} _.
#[global] Arguments sm_stakedSince {L St} _.
#[global] Arguments sm_lastActivity {L St} _.
#[global] Arguments sm_store {L St} _.
#[global] Arguments sm_transfer {L St} _.

Definition staking_pool : AgentID := "staking-pool".

Section StakeManager.
Context {L Err St : Type} `{!BucketLedger L Err, !Persistence St StakeMeta}.
Notation StakeManager := (StakeManager L St).
Implicit Types (m : StakeManager).

(** A Go map read: absent keys yield zero. *)
Definition get0 (k : AgentID) (x : gmap AgentID Z) : Z := default 0 (x !! k).

Definition sm_New : StakeManager := mkSM ∅ ∅ ∅ None None.

Definition sm_SetStore (s : St) m : StakeManager :=
  mkSM (sm_stakes m) (sm_stakedSince m) (sm_lastActivity m) (Some s) (sm_transfer m).

Definition sm_SetTransferLedger (l : L) m : StakeManager :=
  mkSM (sm_stakes m) (sm_stakedSince m) (sm_lastActivity m) (sm_store m) (Some l).

(** One iteration of the loop of [LoadFromStore]; the amount travels as an
    [int64]. *)
Definition load_meta (m : StakeManager) (r : StakeMeta) : StakeManager :=
  mkSM (if decide (i64 (sk_amount r) = 0) then sm_stakes m
        else <[sk_agent r := u64 (i64 (sk_amount r))]> (sm_stakes m))
       (if decide (sk_since r = 0) then sm_stakedSince m
        else <[sk_agent r := sk_since r]> (sm_stakedSince m))
       (if decide (sk_activity r = 0) then sm_lastActivity m
        else <[sk_agent r := sk_activity r]> (sm_lastActivity m))
       (sm_store m) (sm_transfer m).

Definition sm_LoadFromStore (s : St) m : option StakeManager :=
  match store_all s with
  | None => None
  | Some meta => Some (foldl load_meta m meta)
  end.

(** [sm.store.PutStakeMeta(agentID, since, activity, stake)]. *)
Definition sm_persist (agentID : AgentID) m : StakeManager :=
  mkSM (sm_stakes m) (sm_stakedSince m) (sm_lastActivity m)
    (write_through (mkStakeMeta agentID (get0 agentID (sm_stakedSince m))
       (get0 agentID (sm_lastActivity m)) (get0 agentID (sm_stakes m))) (sm_store m))
    (sm_transfer m).

(** [if _, exists := sm.stakedSince[agentID]; !exists { ... = now }]. *)
Definition sm_start_clock (agentID : AgentID) (now : Z) m : StakeManager :=
  match sm_stakedSince m !! agentID with
  | Some _ => m
  | None => mkSM (sm_stakes m) (<[agentID := now]> (sm_stakedSince m)) (sm_lastActivity m)
              (sm_store m) (sm_transfer m)
  end.

Definition sm_set_stake (agentID : AgentID) (amount : Z) m : StakeManager :=
  mkSM (<[agentID := amount]> (sm_stakes m)) (sm_stakedSince m) (sm_lastActivity m) (sm_store m)
    (sm_transfer m).

(** [sm.stakes[agentID] = amount; if == 0 { delete(sm.stakes, agentID) }]. *)
Definition sm_reduce_stake (agentID : AgentID) (amount : Z) m : StakeManager :=
  mkSM (if decide (amount = 0) then delete agentID (sm_stakes m)
        else <[agentID := amount]> (sm_stakes m))
    (sm_stakedSince m) (sm_lastActivity m) (sm_store m) (sm_transfer m).

(** The ledger movement of [Stake] and [Unstake], skipped without a ledger or
    for a zero amount; the boolean is [err == nil]. *)
Definition sm_move (src dst : AgentID) (amount : Z) (memo : string) (now : Z) m : StakeManager * bool :=
  match sm_transfer m with
  | None => (m, true)
  | Some l =>
      if decide (amount > 0) then
        let (l', err) := bl_transfer src dst amount memo false now l in
        (mkSM (sm_stakes m) (sm_stakedSince m) (sm_lastActivity m) (sm_store m) (Some l'),
         match err with None => true | Some _ => false end)
      else (m, true)
  end.

(** The result is [err == nil]. *)
Definition sm_Stake (agentID : AgentID) (amount now : Z) m : StakeManager * bool :=
  let m1 := sm_start_clock agentID now m in
  let (m2, ok) := sm_move agentID staking_pool amount "staking:lock" now m1 in
  if ok then
    (sm_persist agentID (sm_set_stake agentID (u64 (get0 agentID (sm_stakes m2) + amount)) m2), true)
  else (m2, false).

Definition sm_Unstake (agentID : AgentID) (amount now : Z) m : StakeManager * bool :=
  let current := get0 agentID (sm_stakes m) in
  if decide (amount > current) then (m, false)
  else
    let (m1, ok) := sm_move staking_pool agentID amount "staking:unlock" now m in
    if ok then (sm_persist agentID (sm_reduce_stake agentID (u64 (current - amount)) m1), true)
    else (m1, false).

Definition sm_RecordCanonicalStake (agentID : AgentID) (amount now : Z) m : StakeManager :=
  let m1 := sm_start_clock agentID now m in
  sm_persist agentID (sm_set_stake agentID (u64 (get0 agentID (sm_stakes m1) + amount)) m1).

Definition sm_RecordCanonicalUnstake (agentID : AgentID) (amount : Z) m : StakeManager :=
  let current := get0 agentID (sm_stakes m) in
  let amount := if decide (amount > current) then current else amount in
  sm_persist agentID (sm_reduce_stake agentID (u64 (current - amount)) m).

Definition sm_StakedAmount (agentID : AgentID) m : Z := get0 agentID (sm_stakes m).
Definition sm_StakedSince (agentID : AgentID) m : Z := get0 agentID (sm_stakedSince m).
Definition sm_LastActivity (agentID : AgentID) m : Z := get0 agentID (sm_lastActivity m).

Definition sm_RecordActivity (agentID : AgentID) (now : Z) m : StakeManager :=
  sm_persist agentID
    (mkSM (sm_stakes m) (sm_stakedSince m) (<[agentID := now]> (sm_lastActivity m)) (sm_store m)
       (sm_transfer m)).

Definition sm_Slash (agentID : AgentID) (percentage : Z) m : StakeManager * Z :=
  let percentage := if decide (percentage > 100) then 100 else percentage in
  let current := get0 agentID (sm_stakes m) in
  if decide (current = 0) then (m, 0)
  else
    let slashed := u64 (current * percentage) / 100 in
    (sm_reduce_stake agentID (u64 (current - slashed)) m, slashed).

Definition sm_SlashDefault (agentID : AgentID) m : StakeManager * Z :=
  (mkSM (delete agentID (sm_stakes m)) (delete agentID (sm_stakedSince m))
     (delete agentID (sm_lastActivity m))
     (write_through (mkStakeMeta agentID 0 0 0) (sm_store m)) (sm_transfer m),
   get0 agentID (sm_stakes m)).

End StakeManager.

(** * Collateral *)

(** The steps of a stake manager on a ledger that it shares with the rest of the
    node.  The applicator settles a canonical stake transfer on the ledger and then
    records it; other users of the ledger do not take from the pool.
    [RecordCanonicalUnstake] cuts an amount above the stake down to the stake, so
    that an unlock must not be for more. *)
Inductive sm_step {L Err St} `{!BucketLedger L Err, !BucketLedgerLaws L Err, !Persistence St StakeMeta} :
    StakeManager L St → StakeManager L St → Prop :=
  | step_Stake a amount now m : a ≠ staking_pool → is_u64 amount → sm_step m (sm_Stake a amount now m).1
  | step_Unstake a amount now m : a ≠ staking_pool → is_u64 amount → sm_step m (sm_Unstake a amount now m).1
  | step_CanonicalLock a amount now l l' m :
      sm_transfer m = Some l → is_u64 amount → bl_ok l' → bl_acct l' staking_pool = bl_acct l staking_pool + amount →
      sm_step m (sm_RecordCanonicalStake a amount now (sm_SetTransferLedger l' m))
  | step_CanonicalUnlock a amount l l' m :
      sm_transfer m = Some l → 0 <= amount <= sm_StakedAmount a m → bl_ok l' → bl_acct l' staking_pool = bl_acct l staking_pool - amount →
      sm_step m (sm_RecordCanonicalUnstake a amount (sm_SetTransferLedger l' m))
  | step_Ledger l l' m :
      sm_transfer m = Some l → bl_ok l' → bl_acct l staking_pool <= bl_acct l' staking_pool → sm_step m (sm_SetTransferLedger l' m)
  | step_SetStore s m : sm_step m (sm_SetStore s m)
  | step_RecordActivity a now m : sm_step m (sm_RecordActivity a now m)
  | step_Slash a p m : 0 <= p → sm_step m (sm_Slash a p m).1
  | step_SlashDefault a m : sm_step m (sm_SlashDefault a m).1.

Section staking_lemmas.
Context {L Err St : Type} `{!BucketLedger L Err, !BucketLedgerLaws L Err, !Persistence St StakeMeta}.
Notation StakeManager := (StakeManager L St).
Implicit Types (m : StakeManager).

(** Every staked amount is non-negative and the pool covers their sum. *)
Definition backed m : Prop :=
  ∃ l, sm_transfer m = Some l ∧ bl_ok l
    ∧ map_Forall (λ _ z, 0 <= z) (sm_stakes m)
    ∧ map_sum id (sm_stakes m) <= bl_acct l staking_pool
    ∧ bl_acct l staking_pool < u64_mod.

Lemma get0_nonneg m a : map_Forall (λ _ z, 0 <= z) (sm_stakes m) → 0 <= get0 a (sm_stakes m).
Proof.
  intros Hn. unfold get0. destruct (sm_stakes m !! a) as [z|] eqn:Ha; simpl; [by eapply Hn|lia].
Qed.

Lemma sum_set (x : gmap AgentID Z) a z : map_sum id (<[a := z]> x) = map_sum id x - get0 a x + z.
Proof.
  unfold get0. destruct (x !! a) as [w|] eqn:Ha; simpl.
  - rewrite (map_sum_update _ _ _ _ _ Ha). unfold id. lia.
  - rewrite map_sum_insert by done. unfold id. lia.
Qed.

Lemma sum_delete (x : gmap AgentID Z) a : map_sum id (delete a x) = map_sum id x - get0 a x.
Proof.
  unfold get0. destruct (x !! a) as [w|] eqn:Ha; simpl.
  - by rewrite (map_sum_delete _ _ _ _ Ha).
  - rewrite delete_id by done. lia.
Qed.

Lemma get0_le_sum (x : gmap AgentID Z) a : map_Forall (λ _ z, 0 <= z) x → get0 a x <= map_sum id x.
Proof.
  intros Hn. unfold get0. destruct (x !! a) as [w|] eqn:Ha; simpl.
  - apply (map_sum_lookup_le id x a w); [|done]. intros j v Hj. by eapply Hn.
  - apply map_sum_nonneg. intros j v Hj. by eapply Hn.
Qed.

(** Reducing a stake to [z]. *)
Lemma reduce_sum (x : gmap AgentID Z) a z :
  map_Forall (λ _ z, 0 <= z) x → 0 <= z <= get0 a x →
  let x' := if decide (z = 0) then delete a x else <[a := z]> x in
  map_Forall (λ _ z, 0 <= z) x' ∧ map_sum id x' = map_sum id x - get0 a x + z
  ∧ get0 a x' = z.
Proof.
  intros Hn Hz. simpl. case_decide as Hz0.
  - split_and!; [by apply map_Forall_delete|rewrite sum_delete; lia|].
    unfold get0. by rewrite lookup_delete_eq.
  - split_and!; [apply map_Forall_insert_2; [lia|done]|apply sum_set|].
    unfold get0. by rewrite lookup_insert_eq.
Qed.

(** The ledger movement of a stake operation. *)
Lemma sm_move_spec src dst amount memo now m m' ok l :
  sm_transfer m = Some l → bl_ok l → is_u64 amount →
  sm_move src dst amount memo now m = (m', ok) →
  sm_stakes m' = sm_stakes m ∧ sm_stakedSince m' = sm_stakedSince m
  ∧ ∃ l', sm_transfer m' = Some l' ∧ bl_ok l'
    ∧ ∀ a, bl_acct l' a = bl_acct l a - (if decide (a = src ∧ ok = true) then amount else 0)
                                      + (if decide (a = dst ∧ ok = true) then amount else 0).
Proof.
  intros Hl Hok Hu. unfold sm_move. rewrite Hl. case_decide as Hz.
  - destruct (bl_transfer _ _ _ _ _ _ l) as [l' err] eqn:Ht. destruct err as [err|]; intros [= <- <-]; simpl.
    + destruct (bl_transfer_err _ _ _ _ _ _ _ _ _ Hok Ht) as [Hok' Hsame].
      split_and!; [done|done|]. exists l'. split_and!; [done|done|]. intros a.
      rewrite Hsame, !decide_False by naive_solver. lia.
    + destruct (bl_transfer_ok _ _ _ _ _ _ _ _ Hok Hu Ht) as (Hok' & _ & Hmv).
      split_and!; [done|done|]. exists l'. split_and!; [done|done|]. intros a. rewrite Hmv.
      repeat case_decide; naive_solver lia.
  - intros [= <- <-]. split_and!; [done|done|]. exists l. split_and!; [done|done|].
    intros a. assert (amount = 0) as -> by (unfold is_u64 in Hu; lia). repeat case_decide; lia.
Qed.

Lemma backed_reduce m a z :
  backed m → 0 <= z <= get0 a (sm_stakes m) → backed (sm_reduce_stake a z m).
Proof.
  intros (l & Hl & Hok & Hn & Hs & Hb) Hz.
  destruct (reduce_sum (sm_stakes m) a z Hn Hz) as (Hn' & Hs' & _).
  exists l. split_and!; [done|done|done| |done]. simpl. rewrite Hs'. lia.
Qed.

Lemma slash_le m a p :
  map_Forall (λ _ z, 0 <= z) (sm_stakes m) → 0 <= p <= 100 → get0 a (sm_stakes m) < u64_mod →
  0 <= u64 (get0 a (sm_stakes m) * p) / 100 <= get0 a (sm_stakes m).
Proof.
  intros Hn Hp Hb. pose proof (get0_nonneg m a Hn).
  assert (0 <= u64 (get0 a (sm_stakes m) * p) <= get0 a (sm_stakes m) * p) as Hle.
  { split; [apply u64_range|]. unfold u64. apply Z.mod_le; [nia|unfold u64_mod; lia]. }
  split; [apply Z.div_pos; lia|]. apply Z.div_le_upper_bound; [lia|]. nia.
Qed.

Lemma backed_step m m' : (∀ l, bl_ok l → bl_acct l staking_pool < u64_mod) →
  sm_step m m' → backed m → backed m'.
Proof.
  intros Hbound Hstep HB. pose proof HB as (l & Hl & Hok & Hn & Hs & Hb).
  destruct Hstep as [a amount now m Ha Hu|a amount now m Ha Hu|a amount now l1 l2 m Hl1 Hu Hok2 Hacct|a amount l1 l2 m Hl1 Ham Hok2 Hacct|l1 l2 m Hl1 Hok2 Hacct|st m
    |a now m|a p m Hp|a m].
  - unfold sm_Stake. destruct (sm_move _ _ _ _ _ _) as [m2 ok] eqn:Hm.
    assert (sm_stakes (sm_start_clock a now m) = sm_stakes m ∧
      sm_transfer (sm_start_clock a now m) = Some l) as [Hs1 Hl1]
      by (unfold sm_start_clock; by destruct (sm_stakedSince m !! a)).
    destruct (sm_move_spec _ _ _ _ _ _ _ _ _ Hl1 Hok Hu Hm) as (Hs2 & _ & l2 & Hl2 & Hok2 & Hacct).
    specialize (Hacct staking_pool). unfold is_u64 in Hu.
    rewrite (decide_False (P := staking_pool = a ∧ _)) in Hacct by naive_solver.
    rewrite Hs1 in Hs2. pose proof (Hbound l2 Hok2). destruct ok; simpl.
    + rewrite decide_True in Hacct by done.
      pose proof (get0_nonneg m a Hn). pose proof (get0_le_sum _ a Hn).
      exists l2. simpl. rewrite Hs2, u64_small by (unfold is_u64; lia).
      split_and!; [done|done|apply map_Forall_insert_2; [lia|done]|rewrite sum_set; lia|done].
    + rewrite decide_False in Hacct by naive_solver.
      exists l2. rewrite Hs2. split_and!; try done. lia.
  - unfold sm_Unstake. case_decide as Hc; [done|].
    destruct (sm_move _ _ _ _ _ m) as [m1 ok] eqn:Hm.
    destruct (sm_move_spec _ _ _ _ _ _ _ _ _ Hl Hok Hu Hm) as (Hs2 & _ & l2 & Hl2 & Hok2 & Hacct).
    specialize (Hacct staking_pool). unfold is_u64 in Hu.
    rewrite (decide_False (P := staking_pool = a ∧ _)) in Hacct by naive_solver.
    pose proof (Hbound l2 Hok2). pose proof (get0_nonneg m a Hn). pose proof (get0_le_sum _ a Hn).
    destruct ok; simpl.
    + rewrite decide_True in Hacct by done. rewrite u64_small by (unfold is_u64; lia).
      destruct (reduce_sum (sm_stakes m) a (get0 a (sm_stakes m) - amount) Hn ltac:(lia)) as (Hn' & Hs' & _).
      exists l2. simpl. rewrite Hs2. split_and!; [done|done|done|rewrite Hs'; lia|done].
    + rewrite decide_False in Hacct by naive_solver.
      exists l2. rewrite Hs2. split_and!; try done. lia.
  - rewrite Hl in Hl1. injection Hl1 as <-. unfold is_u64 in Hu. pose proof (Hbound l2 Hok2).
    pose proof (get0_nonneg m a Hn). pose proof (get0_le_sum _ a Hn). exists l2.
    assert (sm_stakes (sm_start_clock a now (sm_SetTransferLedger l2 m)) = sm_stakes m ∧
      sm_transfer (sm_start_clock a now (sm_SetTransferLedger l2 m)) = Some l2) as [Hs1 Ht1]
      by (unfold sm_start_clock; by destruct (sm_stakedSince _ !! a)).
    unfold sm_RecordCanonicalStake. simpl. rewrite Hs1, Ht1, u64_small by (unfold is_u64; lia).
    split_and!; [done|done|apply map_Forall_insert_2; [lia|done]|rewrite sum_set; lia|done].
  - rewrite Hl in Hl1. injection Hl1 as <-. unfold sm_StakedAmount in Ham. pose proof (Hbound l2 Hok2).
    pose proof (get0_le_sum _ a Hn). exists l2. unfold sm_RecordCanonicalUnstake. simpl.
    rewrite (decide_False (P := amount > get0 a (sm_stakes m))) by lia. rewrite u64_small by (unfold is_u64; lia).
    destruct (reduce_sum (sm_stakes m) a (get0 a (sm_stakes m) - amount) Hn ltac:(lia)) as (Hn' & Hs' & _).
    split_and!; [done|done|done|rewrite Hs'; lia|done].
  - rewrite Hl in Hl1. injection Hl1 as <-. exists l2. split_and!; [done|done|done|simpl; lia|by apply Hbound].
  - by exists l.
  - by exists l.
  - unfold sm_Slash. case_decide as Hc; simpl; [done|].
    pose proof (get0_nonneg m a Hn). pose proof (get0_le_sum _ a Hn).
    set (p' := if decide (p > 100) then 100 else p).
    assert (0 <= p' <= 100) as Hp' by (unfold p'; case_decide; lia).
    pose proof (slash_le m a p' Hn Hp' ltac:(lia)).
    rewrite u64_small by (unfold is_u64; lia). apply backed_reduce; [done|lia].
  - exists l. simpl. split_and!; [done|done|by apply map_Forall_delete| |done].
    rewrite sum_delete. pose proof (get0_nonneg m a Hn). lia.
Qed.

End staking_lemmas.

(** The quotient of non-negative numbers, as Go computes it. *)
Lemma days_eq from now :
  is_i64 now → 0 < from <= now → u64 (Z.quot (i64 (now - from)) 86400) = (now - from) / 86400.
Proof.
  unfold is_i64. intros Hn Hf. rewrite i64_small by (unfold is_i64; lia).
  rewrite Z.quot_div_nonneg by lia. apply u64_small. unfold is_u64, u64_mod.
  pose proof (Z.div_pos (now - from) 86400). 
  assert ((now - from) / 86400 <= now - from) by (apply Z.div_le_upper_bound; lia). lia.
Qed.

Lemma levels_closed_form tasks days : 0 <= tasks → 0 <= days →
  foldl (level_step tasks days) 1 TrustLevels = 1 + Z.min 4 (Z.min (tasks / 25) (days / 30)).
Proof.
  intros Ht Hd.
  pose proof (Z.div_mod tasks 25 ltac:(lia)). pose proof (Z.mod_pos_bound tasks 25 ltac:(lia)).
  pose proof (Z.div_mod days 30 ltac:(lia)). pose proof (Z.mod_pos_bound days 30 ltac:(lia)).
  simpl. unfold level_step. simpl. repeat case_decide; lia.
Qed.

(** * Properties *)

(** The trust multiplier.  The walk over the level table equals the closed
    form 1 + min(4, tasks/25, days/30): it lies in [1, 5], and does not decrease
    when tasks are completed or time passes; the trust limit is the product with
    the stake, saturated at the largest uint64. *)
Theorem TrustLimit_closed_form staked tasks since now :
  is_u64 staked → is_u64 tasks → is_i64 now → 0 < since < now →
  TrustMultiplier tasks since now = 1 + Z.min 4 (Z.min (tasks / 25) ((now - since) / 86400 / 30))
  ∧ TrustLimit staked tasks since now
    = Z.min MaxUint64 (staked * (1 + Z.min 4 (Z.min (tasks / 25) ((now - since) / 86400 / 30))))
  ∧ ∀ tasks' now', tasks <= tasks' → now <= now' → is_i64 now' → is_u64 tasks' →
      TrustMultiplier tasks since now <= TrustMultiplier tasks' since now'.
Proof.
  unfold is_u64. intros Hst Ht Hn Hs.
  assert (∀ t n, 0 <= t → is_i64 n → since < n →
    TrustMultiplier t since n = 1 + Z.min 4 (Z.min (t / 25) ((n - since) / 86400 / 30))) as Hm.
  { intros t n Ht' Hn' Hlt. unfold TrustMultiplier. rewrite decide_False by lia.
    rewrite days_eq by (done || lia). apply levels_closed_form; [done|apply Z.div_pos; lia]. }
  split_and!; [apply Hm; done || lia| |].
  - unfold TrustLimit. rewrite Hm by (done || lia).
    assert (0 <= tasks / 25) by (apply Z.div_pos; lia).
    assert (0 <= (now - since) / 86400 / 30) by (do 2 (apply Z.div_pos; [|lia]); lia).
    set (k := 1 + _). assert (1 <= k <= 5) as Hk by lia. clearbody k.
    case_decide as Hc.
    + destruct Hc as [Hp Hgt]. assert (MaxUint64 < staked * k); [|lia].
      apply Z.div_lt_upper_bound in Hgt || idtac.
      pose proof (Z.div_mod MaxUint64 staked ltac:(lia)).
      pose proof (Z.mod_pos_bound MaxUint64 staked ltac:(lia)). nia.
    + assert (staked * k <= MaxUint64) as Hle.
      { destruct (decide (staked = 0)) as [->|]; [unfold MaxUint64; lia|].
        assert (k <= MaxUint64 / staked) by lia.
        pose proof (Z.mul_div_le MaxUint64 staked ltac:(lia)). nia. }
      rewrite u64_small by (unfold is_u64, u64_mod, MaxUint64 in *; nia). lia.
  - intros tasks' now' Htt Hnn Hi Hu. rewrite !Hm by (done || lia).
    pose proof (Z.div_le_mono tasks tasks' 25 ltac:(lia) Htt).
    assert ((now - since) / 86400 / 30 <= (now' - since) / 86400 / 30); [|lia].
    apply Z.div_le_mono; [lia|]. apply Z.div_le_mono; lia.
Qed.

(** Decay never adds tasks.  Without overflow of the product the effective
    count is [max(0, tasks - periods * penalty)], where [periods] counts the whole
    decay periods since the last activity. *)
Theorem EffectiveTasks_decay days penalty tasks last now :
  is_u64 tasks → is_i64 now → 0 < last <= now → is_i64 days → 0 <= penalty →
  let dp := SetDecayParams days penalty in
  let periods := (now - last) / 86400 / activeDecayDays dp in
  EffectiveTasks dp tasks last now <= tasks
  ∧ (periods * penalty < u64_mod →
     EffectiveTasks dp tasks last now = Z.max 0 (tasks - periods * penalty)).
Proof.
  intros Ht Hn Hl Hd Hp dp periods. unfold is_u64, is_i64 in Ht, Hn, Hd.
  assert (0 < activeDecayDays dp < u64_mod) as Hdays.
  { unfold dp, SetDecayParams, u64_mod, DecayDays. simpl. case_decide; lia. }
  assert (0 <= periods) as Hper by (unfold periods; do 2 (apply Z.div_pos; [|lia]); lia).
  unfold EffectiveTasks. case_decide as Hc.
  { split; [lia|]. assert (periods = 0) as ->; [|lia].
    unfold periods. replace (now - last) with 0 by lia. done. }
  rewrite days_eq by (done || lia). rewrite (u64_small (activeDecayDays dp)) by (unfold is_u64; lia).
  fold periods. simpl. case_decide as Hz; [rewrite Hz; split; lia|].
  pose proof (u64_range (periods * penalty)) as Hr. unfold is_u64 in Hr. case_decide as Hge.
  - split; [lia|]. intros Hlt. rewrite u64_small in Hge by (unfold is_u64; nia). lia.
  - rewrite (u64_small (tasks - _)) by (unfold is_u64; lia). split; [lia|].
    intros Hlt. rewrite !u64_small in * by (unfold is_u64; nia). lia.
Qed.

(** C4: no phantom collateral.  Take a stake manager without stakes on a lawful ledger
    whose accounts fit uint64.  After any sequence of stakes and unstakes of agents
    other than the pool itself (whose stake would be a transfer to itself),
    canonical stake and unstake records, each with the settled transfer of its amount
    and no unstake above the recorded stake, slashes, activity records, and movements
    of others that leave the pool with at least what it had, the staking-pool bucket
    holds at least the sum of all recorded stakes. *)
Theorem sm_collateral_backed {L Err St : Type} `{!BucketLedger L Err, !BucketLedgerLaws L Err}
    `{!Persistence St StakeMeta} (l0 : L) (m : StakeManager L St) :
  (∀ l, bl_ok l → bl_acct l staking_pool < u64_mod) → bl_ok l0 →
  rtc sm_step (sm_SetTransferLedger l0 sm_New) m →
  ∃ l, sm_transfer m = Some l
    ∧ (∀ a, 0 <= sm_StakedAmount a m)
    ∧ map_sum id (sm_stakes m) <= bl_balance l staking_pool.
Proof.
  intros Hb Hok Hsteps.
  assert (backed (sm_SetTransferLedger l0 (sm_New : StakeManager L St))) as H0.
  { exists l0. split_and!; [done|done|apply map_Forall_empty| |by apply Hb].
    simpl. rewrite map_sum_empty. by apply bl_acct_nonneg. }
  assert (backed m) as (l & Hl & Hokl & Hn & Hs & _).
  { revert H0. induction Hsteps as [|? ? ? Hstep _ IH]; [done|]. intros H0. apply IH.
    by eapply backed_step. }
  exists l. split_and!; [done|intros a; by apply get0_nonneg|].
  rewrite bl_balance_acct by done. lia.
Qed.

(** Slashing.  [Slash] takes at most the stake; when the product fits, exactly
    [min(p, 100)] percent of it rounded down, the rest staying staked; it does not
    touch the store, so a restart brings the slashed stake back. *)
Theorem sm_Slash_spec {L Err St : Type} `{!BucketLedger L Err, !Persistence St StakeMeta}
    (m m' : StakeManager L St) a p slashed :
  map_Forall (λ _ z, 0 <= z) (sm_stakes m) → sm_StakedAmount a m < u64_mod → 0 <= p →
  sm_Slash a p m = (m', slashed) →
  0 <= slashed <= sm_StakedAmount a m
  ∧ sm_StakedAmount a m' = sm_StakedAmount a m - slashed
  ∧ (sm_StakedAmount a m * 100 < u64_mod → slashed = sm_StakedAmount a m * Z.min p 100 / 100)
  ∧ sm_store m' = sm_store m ∧ sm_stakedSince m' = sm_stakedSince m.
Proof.
  intros Hn Hb Hp. unfold sm_Slash, sm_StakedAmount in *.
  pose proof (get0_nonneg m a Hn) as H0. case_decide as Hz; intros [= <- <-].
  { rewrite Hz. split_and!; done. }
  set (p' := if decide (p > 100) then 100 else p).
  assert (p' = Z.min p 100) as Hp' by (unfold p'; case_decide; lia). clearbody p'.
  assert (0 <= p' <= 100) as Hp2 by lia.
  pose proof (slash_le m a p' Hn Hp2 Hb) as Hle.
  rewrite (u64_small (get0 a (sm_stakes m) - _)) by (unfold is_u64; lia).
  destruct (reduce_sum (sm_stakes m) a
    (get0 a (sm_stakes m) - u64 (get0 a (sm_stakes m) * p') / 100) Hn ltac:(lia)) as (_ & _ & Hg).
  split_and!; [lia|lia|done| |done|done].
  intros Hfit. rewrite u64_small by (unfold is_u64; nia). by rewrite Hp'.
Qed.

(** A failed stake starts the trust clock.  [Stake] records the first-stake
    time before it debits the ledger, so an agent that cannot pay any stake
    accrues time; when it does stake later, the elapsed days count at once. *)
Theorem sm_failed_Stake_starts_clock {L Err St : Type} `{!BucketLedger L Err, !BucketLedgerLaws L Err}
    `{!Persistence St StakeMeta} (m m' : StakeManager L St) l a amount now ok :
  sm_transfer m = Some l → bl_ok l → is_u64 amount → Z.max 0 (bl_acct l a) < amount →
  sm_stakedSince m !! a = None → 0 < now < 2 ^ 62 →
  sm_Stake a amount now m = (m', ok) →
  ok = false ∧ sm_StakedAmount a m' = sm_StakedAmount a m ∧ sm_StakedSince a m' = now
  ∧ TrustMultiplier 100 (sm_StakedSince a m') (now + 120 * 86400) = 5.
Proof.
  intros Hl Hok Hu Hunc Hnone Hnow. unfold sm_Stake.
  destruct (sm_move _ _ _ _ _ _) as [m2 ok2] eqn:Hm.
  unfold sm_start_clock in Hm. rewrite Hnone in Hm. unfold sm_move in Hm. simpl in Hm.
  rewrite Hl, decide_True in Hm by lia.
  destruct (bl_transfer_uncovered a staking_pool amount "staking:lock" false now l Hok Hu Hunc) as [e He].
  destruct (bl_transfer _ _ _ _ _ _ l) as [l' err]. simpl in He. subst err. simplify_eq/=.
  intros [= <- <-]. unfold sm_StakedAmount, sm_StakedSince, get0. simpl.
  rewrite lookup_insert_eq. simpl. split_and!; [done|done|done|].
  unfold TrustMultiplier. rewrite decide_False by lia.
  rewrite days_eq; [|unfold is_i64; lia|lia]. rewrite levels_closed_form; [|lia|apply Z.div_pos; lia].
  replace (now + 120 * 86400 - now) with (120 * 86400) by lia. done.
Qed.

(** ** At concrete positions *)

Lemma TrustLimit_closed_form_witness :
  TrustLimit 1000 60 1000 (1000 + 95 * 86400) = 3000
  ∧ TrustMultiplier 60 1000 (1000 + 95 * 86400) <= TrustMultiplier 99 1000 (1000 + 100 * 86400).
Proof.
  assert (∀ z, 0 <= z < 2 ^ 40 → is_u64 z ∧ is_i64 z) as Hr by (unfold is_u64, is_i64, u64_mod; lia).
  destruct (TrustLimit_closed_form 1000 60 1000 (1000 + 95 * 86400)) as (_ & Hl & Hm);
    [apply Hr; lia..|lia|].
  split; [rewrite Hl; reflexivity|]. apply Hm; [lia|lia|apply Hr; lia..].
Defined.

Lemma EffectiveTasks_decay_witness :
  EffectiveTasks (SetDecayParams 0 25) 80 5 (5 + 65 * 86400) = 30.
Proof.
  assert (∀ z, 0 <= z < 2 ^ 40 → is_u64 z ∧ is_i64 z) as Hr by (unfold is_u64, is_i64, u64_mod; lia).
  destruct (EffectiveTasks_decay 0 25 80 5 (5 + 65 * 86400)) as [_ He]; [apply Hr; lia..|lia|apply Hr; lia|lia|].
  rewrite He; [reflexivity|]. vm_compute. reflexivity.
Defined.

Notation DemoManager := (StakeManager (gmap AgentID Z) (KeyedStore sk_agent)).

Definition demo_sm : DemoManager :=
  sm_SetTransferLedger (move system_agent "alice" 100 ∅) sm_New.

(** The pool after the canonical stake of 25. *)
Definition demo_ledger : gmap AgentID Z := move "alice" staking_pool 25 (default ∅ (sm_transfer (sm_Stake "alice" 60 7 demo_sm).1)).

Lemma sm_collateral_backed_witness :
  let m := (sm_Slash "alice" 50 (sm_RecordCanonicalStake "alice" 25 8 (sm_SetTransferLedger demo_ledger (sm_Stake "alice" 60 7 demo_sm).1))).1 in
  sm_StakedAmount "alice" m = 43
  ∧ ∃ l, sm_transfer m = Some l ∧ map_sum id (sm_stakes m) <= bl_balance l staking_pool.
Proof.
  intros m. split; [by vm_compute|].
  destruct (sm_collateral_backed (Err := unit) (St := KeyedStore sk_agent)
    (move system_agent "alice" 100 ∅) m) as (l & Hl & _ & Hs); [| | |by exists l].
  - intros l Hl. pose proof (solvent_bound l staking_pool Hl) as Hb. unfold is_i64 in Hb.
    simpl. unfold u64_mod. lia.
  - by apply solvent_issue.
  - eapply rtc_l; [apply (step_Stake "alice" 60 7); [done|by compute]|].
    eapply rtc_l; [apply (step_CanonicalLock "alice" 25 8 (default ∅ (sm_transfer (sm_Stake "alice" 60 7 demo_sm).1)) demo_ledger); [reflexivity|by compute| |by vm_compute]|].
    { apply solvent_move; [|lia|left; by vm_compute]. apply solvent_move; [by apply solvent_issue|lia|left; by vm_compute]. }
    eapply rtc_l; [apply (step_Slash "alice" 50); lia|apply rtc_refl].
Defined.

Definition demo_staked : DemoManager := mkSM {["alice" := 77]} ∅ ∅ None None.

Lemma sm_Slash_spec_witness :
  (sm_Slash "alice" 10 demo_staked).2 = 7 ∧ sm_StakedAmount "alice" (sm_Slash "alice" 10 demo_staked).1 = 70.
Proof.
  destruct (sm_Slash_spec demo_staked (sm_Slash "alice" 10 demo_staked).1 "alice" 10
    (sm_Slash "alice" 10 demo_staked).2) as (_ & Hrest & Hs & _);
    [by apply map_Forall_singleton|by vm_compute|lia|apply surjective_pairing|].
  specialize (Hs eq_refl). rewrite Hrest, Hs. split; by vm_compute.
Defined.

Lemma sm_failed_Stake_starts_clock_witness :
  let r := sm_Stake "bob" 1 1000 demo_sm in
  r.2 = false ∧ sm_StakedAmount "bob" r.1 = 0
  ∧ TrustMultiplier 100 (sm_StakedSince "bob" r.1) (1000 + 120 * 86400) = 5.
Proof.
  intros r.
  destruct (sm_failed_Stake_starts_clock demo_sm r.1 (move system_agent "alice" 100 ∅) "bob" 1 1000 r.2)
    as (Hok & Hs & _ & Ht); [done|by apply solvent_issue|by compute|by vm_compute|done|lia|by vm_compute|].
  split_and!; [exact Hok|rewrite Hs; by vm_compute|exact Ht].
Defined.
