(* ===== verification/Fees.v ===== *)
(** internal/fees/collector.go: settlement fees and their statistics.

    State: the three counters, the transfer ledger, the optional store of the
    statistics and the three fee parameters.  [collectFee], which mints, is
    stated over the transfer ledger itself; the rest over any bucket ledger. *)

From S2P Require Import Prelude GoStd Store Event Accounts Transfer.

Definition FeeBasisPoints : Z := 10.
Definition ValidatorShare : Z := 80.
Definition TreasuryShare : Z := 20.
Definition BurnShare : Z := 0.
Definition feeStatsKey : string := "fee_collector_stats".

Record Collector (L St : Type) := mkCollector {
  totalCollected : Z;
  totalBurned : Z;
  treasuryAccrued : Z;
  fc_transfer : L;
  fc_store : option St;
  feeBPS : Z;
  validatorPct : Z;
  treasuryPct : Z;
}.
#[global] Arguments mkCollector {L St} _ _ _ _ _ _ _ _.
#[global] Arguments totalCollected {L St} _.
#[global] Arguments totalBurned {L St} _.
#[global] Arguments treasuryAccrued {L St} _.
#[global] Arguments fc_transfer {L St} _.
#[global] Arguments fc_store {L St} _.
#[global] Arguments feeBPS {L St} _.
#[global] Arguments validatorPct {L St} _.
#[global] Arguments treasuryPct {L St} _.

Section Collector.
Context {L Err St : Type} `{!BucketLedger L Err, !MetaPersistence St}.
Notation Collector := (Collector L St).
Implicit Types (c : Collector).

Definition fc_NewCollector (tl : L) : Collector :=
  mkCollector 0 0 0 tl None FeeBasisPoints ValidatorShare TreasuryShare.

Definition fc_SetFeeParams (bps vPct tPct : Z) c : Collector :=
  mkCollector (totalCollected c) (totalBurned c) (treasuryAccrued c) (fc_transfer c) (fc_store c)
    bps vPct tPct.

Definition fc_calculateFee c (amount : Z) : Z :=
  if decide (feeBPS c = 0) then 0 else u64 (amount * feeBPS c) / 10000.

Definition CalculateFee (amount : Z) : Z := u64 (amount * FeeBasisPoints) / 10000.

(** The 24 bytes of [persistStatsLocked]. *)
Definition encode_stats (collected burned treasury : Z) : list Z :=
  le_put 8 collected ++ le_put 8 burned ++ le_put 8 treasury.

Definition fc_SetStore (s : St) c : Collector :=
  match meta_get feeStatsKey s with
  | Some data =>
      if decide (length data = 24%nat) then
        mkCollector (le_get (take 8 data)) (le_get (take 8 (drop 8 data)))
          (le_get (take 8 (drop 16 data))) (fc_transfer c) (Some s) (feeBPS c) (validatorPct c)
          (treasuryPct c)
      else mkCollector (totalCollected c) (totalBurned c) (treasuryAccrued c) (fc_transfer c)
             (Some s) (feeBPS c) (validatorPct c) (treasuryPct c)
  | None => mkCollector (totalCollected c) (totalBurned c) (treasuryAccrued c) (fc_transfer c)
              (Some s) (feeBPS c) (validatorPct c) (treasuryPct c)
  end.

Definition fc_persistStatsLocked c : Collector :=
  match fc_store c with
  | None => c
  | Some s =>
      mkCollector (totalCollected c) (totalBurned c) (treasuryAccrued c) (fc_transfer c)
        (Some (meta_put feeStatsKey
           (encode_stats (totalCollected c) (totalBurned c) (treasuryAccrued c)) s).1)
        (feeBPS c) (validatorPct c) (treasuryPct c)
  end.

(** The locked update of the counters, followed by their persistence. *)
Definition fc_account (fee burned treasury : Z) c : Collector :=
  fc_persistStatsLocked
    (mkCollector (u64 (totalCollected c + fee)) (u64 (totalBurned c + burned))
       (u64 (treasuryAccrued c + treasury)) (fc_transfer c) (fc_store c) (feeBPS c)
       (validatorPct c) (treasuryPct c)).

Definition fc_set_ledger (l : L) c : Collector :=
  mkCollector (totalCollected c) (totalBurned c) (treasuryAccrued c) l (fc_store c) (feeBPS c)
    (validatorPct c) (treasuryPct c).

(** The split of a fee: validator, treasury, remainder. *)
Definition fc_split c (fee : Z) : Z * Z * Z :=
  let validatorAmount := u64 (fee * validatorPct c) / 100 in
  let treasuryAmount := u64 (fee * treasuryPct c) / 100 in
  (validatorAmount, treasuryAmount, u64 (u64 (fee - validatorAmount) - treasuryAmount)).

Definition fc_TrackFee (fee burned treasury : Z) c : Collector :=
  if decide (fee = 0) then c else fc_account fee burned treasury c.

(** The best-effort movement to one sink. *)
Definition fc_pay (src dst : AgentID) (amount : Z) (memo : string) (now : Z) c : Collector :=
  if decide (amount > 0 ∧ dst ≠ "")
  then fc_set_ledger (bl_transfer src dst amount memo false now (fc_transfer c)).1 c
  else c.

Definition fc_CollectFeeFromRecipient (recipientID : AgentID) (amount : Z)
    (validatorID treasuryID : AgentID) (now : Z) c : Collector * Z * Z :=
  let fee := fc_calculateFee c amount in
  if decide (fee = 0) then (c, 0, 0)
  else
    let '(validatorAmount, treasuryAmount, burned) := fc_split c fee in
    let c1 := fc_account fee burned treasuryAmount c in
    let c2 := fc_pay recipientID validatorID validatorAmount "fee-distribution:validator-share" now c1 in
    let c3 := fc_pay recipientID treasuryID treasuryAmount "fee-distribution:treasury-share" now c2 in
    (c3, fee, burned).

Definition fc_Stats c : Z * Z * Z := (totalCollected c, totalBurned c, treasuryAccrued c).

End Collector.

Section collectFee.
Context `{!PayloadCodec} {St St' : Type}.
Context `{!Persistence St TransferEntry, !MetaPersistence St, !MetaPersistence St'}.
Notation Collector := (Collector (TransferLedger St) St').

(** The legacy split that mints through [FundAgent]. *)
Definition fc_collectFee (amount : Z) (validatorID treasuryID : AgentID) (now : Z) (c : Collector) :
    Collector * Z * Z :=
  let fee := fc_calculateFee c amount in
  if decide (fee = 0) then (c, 0, 0)
  else
    let '(validatorAmount, treasuryAmount, burned) := fc_split c fee in
    let c1 := fc_account fee burned treasuryAmount c in
    let mint dst amount c :=
      if decide (amount > 0) then fc_set_ledger (tl_FundAgent dst amount now (fc_transfer c)).1 c
      else c in
    (mint treasuryID treasuryAmount (mint validatorID validatorAmount c1), fee, burned).

End collectFee.

(** * Lemmas *)

Lemma decode_stats c b t : is_u64 c → is_u64 b → is_u64 t →
  let data := encode_stats c b t in
  length data = 24%nat ∧ le_get (take 8 data) = c ∧ le_get (take 8 (drop 8 data)) = b
  ∧ le_get (take 8 (drop 16 data)) = t.
Proof.
  intros Hc Hb Ht data. unfold data, encode_stats.
  assert (∀ z, length (le_put 8 z) = 8%nat) as Hlen by (intros; apply le_put_length).
  split_and!.
  - by rewrite !length_app, !Hlen.
  - rewrite take_app_length' by done. by apply le_get_put.
  - rewrite drop_app_length' by done. rewrite take_app_length' by done. by apply le_get_put.
  - rewrite (assoc_L (++)), drop_app_length' by (by rewrite length_app, !Hlen).
    rewrite take_ge by (by rewrite Hlen). by apply le_get_put.
Qed.

Section fee_lemmas.
Context {L Err St : Type} `{!BucketLedger L Err, !MetaPersistence St}.
Notation Collector := (Collector L St).
Implicit Types (c : Collector).

(** The split is exact when the percentages add up to at most 100. *)
Lemma fc_split_exact c fee v t b :
  0 <= fee → fee * 100 < u64_mod → 0 <= validatorPct c → 0 <= treasuryPct c →
  validatorPct c + treasuryPct c <= 100 → fc_split c fee = (v, t, b) →
  v = fee * validatorPct c / 100 ∧ t = fee * treasuryPct c / 100
  ∧ v + t + b = fee ∧ 0 <= v ∧ 0 <= t ∧ 0 <= b.
Proof.
  intros Hf Hfit Hv Ht Hsum. unfold fc_split.
  rewrite (u64_small (fee * validatorPct c)) by (unfold is_u64; nia).
  rewrite (u64_small (fee * treasuryPct c)) by (unfold is_u64; nia).
  set (x := fee * validatorPct c / 100). set (y := fee * treasuryPct c / 100).
  assert (0 <= x ∧ 0 <= y) as [Hx Hy] by (split; apply Z.div_pos; nia).
  assert (x + y <= fee) as Hle.
  { assert (100 * x <= fee * validatorPct c) by (apply Z.mul_div_le; lia).
    assert (100 * y <= fee * treasuryPct c) by (apply Z.mul_div_le; lia). nia. }
  rewrite (u64_small (fee - x)) by (unfold is_u64, u64_mod in *; lia).
  rewrite u64_small by (unfold is_u64, u64_mod in *; lia). intros [= <- <- <-]. lia.
Qed.

Lemma fc_account_ledger fee b t c :
  fc_transfer (fc_account fee b t c) = fc_transfer c
  ∧ fc_Stats (fc_account fee b t c)
    = (u64 (totalCollected c + fee), u64 (totalBurned c + b), u64 (treasuryAccrued c + t)).
Proof. unfold fc_account, fc_persistStatsLocked. simpl. by destruct (fc_store c). Qed.

Lemma fc_pay_stats src dst amount memo now c :
  fc_Stats (fc_pay src dst amount memo now c) = fc_Stats c
  ∧ fc_store (fc_pay src dst amount memo now c) = fc_store c.
Proof. unfold fc_pay. by case_decide. Qed.

(** One sink: either the amount moves or nothing does. *)
Lemma fc_pay_spec `{!BucketLedgerLaws L Err} src dst amount memo now c :
  bl_ok (fc_transfer c) → is_u64 amount →
  ∃ z, (z = 0 ∨ z = amount ∧ dst ≠ "") ∧ bl_ok (fc_transfer (fc_pay src dst amount memo now c))
    ∧ ∀ a, bl_acct (fc_transfer (fc_pay src dst amount memo now c)) a
        = bl_acct (fc_transfer c) a - (if decide (a = src) then z else 0)
          + (if decide (a = dst) then z else 0).
Proof.
  intros Hok Hu. unfold fc_pay. destruct (decide (_ ∧ _)) as [[Hp Hd]|].
  - simpl. destruct (bl_transfer _ _ _ _ _ _ _) as [l' err] eqn:Ht. simpl. destruct err as [err|].
    + destruct (bl_transfer_err _ _ _ _ _ _ _ _ _ Hok Ht) as [Hok' Hs].
      exists 0. split_and!; [by left|done|]. intros a. rewrite Hs. repeat case_decide; lia.
    + destruct (bl_transfer_ok _ _ _ _ _ _ _ _ Hok Hu Ht) as (Hok' & _ & Hm).
      exists amount. split_and!; [by right|done|done].
  - exists 0. split_and!; [by left|done|]. intros a. repeat case_decide; lia.
Qed.

End fee_lemmas.

(** * Properties *)

(** Fee collection creates no tokens.  Within range the fee is
    [amount * bps / 10000]; the split adds up to the fee; the ledger movements take
    from the recipient exactly what the validator and the treasury receive,
    which is each share or nothing; and the counters grow by the fee, the
    remainder and the treasury share whether or not the movements succeed. *)
Theorem fc_CollectFee_conserves {L Err St : Type} `{!BucketLedger L Err, !BucketLedgerLaws L Err}
    `{!MetaPersistence St} (c c' : Collector L St) rec amount val tre now fee burned :
  bl_ok (fc_transfer c) → 0 <= amount → 0 <= feeBPS c <= 10000 → amount * 10000 < u64_mod →
  0 <= validatorPct c → 0 <= treasuryPct c → validatorPct c + treasuryPct c <= 100 →
  fc_CollectFeeFromRecipient rec amount val tre now c = (c', fee, burned) →
  fee = amount * feeBPS c / 10000 ∧ 0 <= fee <= amount
  ∧ (∃ v t, v + t + burned = fee ∧ 0 <= burned
      ∧ ∃ zv zt, (zv = 0 ∨ zv = v ∧ val ≠ "") ∧ (zt = 0 ∨ zt = t ∧ tre ≠ "")
        ∧ ∀ a, bl_acct (fc_transfer c') a = bl_acct (fc_transfer c) a
            - (if decide (a = rec) then zv + zt else 0)
            + (if decide (a = val) then zv else 0) + (if decide (a = tre) then zt else 0))
  ∧ (fee ≠ 0 → (fc_Stats c').1.1 = u64 (totalCollected c + fee)
       ∧ (fc_Stats c').1.2 = u64 (totalBurned c + burned)).
Proof.
  intros Hok Ha Hbps Hfit Hv Ht Hsum. unfold fc_CollectFeeFromRecipient.
  assert (fc_calculateFee c amount = amount * feeBPS c / 10000) as Hfee.
  { unfold fc_calculateFee. case_decide as Hz; [by rewrite Hz, Z.mul_0_r|].
    by rewrite u64_small by (unfold is_u64; nia). }
  assert (0 <= amount * feeBPS c / 10000 <= amount) as Hrange.
  { split; [apply Z.div_pos; nia|]. apply Z.div_le_upper_bound; nia. }
  rewrite Hfee. destruct (decide (amount * feeBPS c / 10000 = 0)) as [Hz|Hz].
  - intros [= <- <- <-]. rewrite Hz. split_and!; [done|lia|lia| |done].
    exists 0, 0. split_and!; [lia|lia|]. exists 0, 0. split_and!; [by left|by left|].
    intros a. repeat case_decide; lia.
  - set (f := amount * feeBPS c / 10000) in *.
    destruct (fc_split c f) as [[v t] b] eqn:Hsp.
    destruct (fc_split_exact c f v t b) as (_ & _ & Hadd & Hv0 & Ht0 & Hb0); [unfold u64_mod in *; lia..|done|].
    destruct (fc_account_ledger f b t c) as [Hl1 Hst1].
    set (c1 := fc_account f b t c) in *.
    destruct (fc_pay_spec (Err := Err) rec val v "fee-distribution:validator-share" now c1) as (zv & Hzv & Hok2 & H2);
      [by rewrite Hl1|unfold is_u64, u64_mod in *; lia|].
    set (c2 := fc_pay rec val v _ now c1) in *.
    destruct (fc_pay_spec (Err := Err) rec tre t "fee-distribution:treasury-share" now c2) as (zt & Hzt & _ & H3);
      [done|unfold is_u64, u64_mod in *; lia|].
    intros [= <- <- <-]. split_and!; [done|lia|lia| |].
    + exists v, t. split_and!; [done|done|]. exists zv, zt. split_and!; [done|done|].
      intros a. rewrite H3, H2, Hl1. repeat case_decide; lia.
    + intros _. rewrite (proj1 (fc_pay_stats _ _ _ _ _ _)). unfold c2.
      rewrite (proj1 (fc_pay_stats _ _ _ _ _ _)), Hst1. done.
Qed.

(** The statistics survive a restart.  After a fee has been accounted over a
    store that accepts the write, a new collector attached to the same store
    starts from exactly the same three totals. *)
Theorem fc_stats_roundtrip {L St : Type} `{!MetaPersistence St} (c c' : Collector L St)
    fee burned treasury s :
  (∀ k b st, (meta_put k b st).2 = true) →
  (∀ k b (st st' : St), meta_put k b st = (st', true) → meta_get k st' = Some b) →
  is_Some (fc_store c) → fee ≠ 0 → fc_store (fc_TrackFee fee burned treasury c) = Some s →
  fc_Stats (fc_SetStore s c') = fc_Stats (fc_TrackFee fee burned treasury c).
Proof.
  intros Hrel Hget [s0 Hs0] Hfee. unfold fc_TrackFee. rewrite decide_False by done.
  unfold fc_account, fc_persistStatsLocked. simpl. rewrite Hs0. intros [= <-].
  set (x := u64 (totalCollected c + fee)). set (y := u64 (totalBurned c + burned)).
  set (z := u64 (treasuryAccrued c + treasury)).
  destruct (meta_put feeStatsKey (encode_stats x y z) s0) as [s1 ok] eqn:Hp.
  pose proof (Hrel feeStatsKey (encode_stats x y z) s0) as Hok. rewrite Hp in Hok. simpl in Hok. subst ok.
  cbn [fst]. unfold fc_SetStore. rewrite (Hget _ _ _ _ Hp).
  destruct (decode_stats x y z) as (Hlen & Hx & Hy & Hz); [apply u64_range..|].
  rewrite decide_True by done. unfold fc_Stats.
  cbn [totalCollected totalBurned treasuryAccrued]. by rewrite Hx, Hy, Hz.
Qed.

(** ** At concrete collectors *)

Definition demo_fc : Collector (gmap AgentID Z) (KeyedStore te_EventID) :=
  fc_SetStore (ks_empty te_EventID) (fc_NewCollector (move system_agent "bob" 1000000 ∅)).

Lemma fc_CollectFee_conserves_witness :
  let r := fc_CollectFeeFromRecipient "bob" 55555 "val" "tre" 3 demo_fc in
  r.1.2 = 55 ∧ bl_acct (fc_transfer r.1.1) "bob" = 1000000 - 44 - 11.
Proof.
  intros r.
  destruct (fc_CollectFee_conserves (Err := unit) demo_fc r.1.1 "bob" 55555 "val" "tre" 3 r.1.2 r.2)
    as (Hf & _); [by apply solvent_issue|done..| |].
  - unfold r. by destruct (fc_CollectFeeFromRecipient _ _ _ _ _ _) as [[? ?] ?].
  - split; [rewrite Hf; by vm_compute|by vm_compute].
Defined.

Lemma fc_stats_roundtrip_witness :
  ∃ s, fc_store (fc_TrackFee 10 1 2 demo_fc) = Some s
    ∧ fc_Stats (fc_SetStore s demo_fc) = (10, 1, 2).
Proof.
  eexists. split; [reflexivity|].
  etrans; [apply (fc_stats_roundtrip demo_fc demo_fc 10 1 2);
    [done| |by eexists|done|reflexivity]|by vm_compute].
  intros k b st st'. apply meta_put_get.
Defined.

(** "burned" is neither always zero nor burned.  With the default parameters
    a fee of 9 reports a burn of 1, against the documented "always 0", and the
    unit stays with the recipient, who pays 8: the statistic counts tokens
    that were never removed.  Without a validator its share is not collected
    either, and the reported fee is still 9. *)
Theorem fc_burned_remainder :
  fc_split demo_fc 9 = (7, 1, 1)
  ∧ (let r := fc_CollectFeeFromRecipient "bob" 9000 "val" "tre" 3 demo_fc in
     r.1.2 = 9 ∧ r.2 = 1 ∧ bl_balance (fc_transfer r.1.1) "bob" = 1000000 - 8
     ∧ map_sum id (fc_transfer r.1.1) = map_sum id (fc_transfer demo_fc))
  ∧ (let r := fc_CollectFeeFromRecipient "bob" 9000 "" "tre" 3 demo_fc in
     r.1.2 = 9 ∧ bl_balance (fc_transfer r.1.1) "bob" = 1000000 - 1).
Proof. split_and!; by vm_compute. Qed.
