(* ===== verification/Identity.v ===== *)
(** internal/identity: capability fingerprints (fingerprint.go) and the agent
    registry (registry.go).

    State: the fingerprints by agent and the optional store.  The canonical JSON
    of a fingerprint is [encoding/json]; it is the operation of the class
    [FingerprintCodec].  Fingerprints are values: the code clones them at its
    boundary, so callers cannot alias the registry's copies. *)

From S2P Require Import Prelude GoStd Store Event Transfer.

(** * fingerprint.go *)

Definition minTrustLimit : Z := 1000.
Definition maxReputation : Z := 10000.

Record Capability := mkCapability {
  Domain : string;
  Confidence : Z;
  EvidenceCount : Z;
  LastVerified : Z;
}.

Record CapabilityFingerprint := mkFP {
  fp_AgentID : AgentID;
  fp_DisplayName : string;
  fp_PublicKey : list Z;
  fp_Capabilities : list Capability;
  fp_TasksCompleted : Z;
  fp_TasksFailed : Z;
  fp_TotalValueGenerated : Z;
  fp_TotalValueTransferred : Z;
  fp_OptimisticTrustLimit : Z;
  fp_ReputationScore : Z;
  fp_StakedAmount : Z;
  fp_FirstSeen : Z;
  fp_LastActive : Z;
  fp_FingerprintVersion : Z;
  fp_FingerprintHash : string;
}.

(** The JSON of [fingerprintCanonical], which has every field but the hash;
    [None] when [json.Marshal] fails. *)
Class FingerprintCodec : Type := {
  marshal_fp : CapabilityFingerprint → option string;
}.

Definition set_hash (h : string) (fp : CapabilityFingerprint) : CapabilityFingerprint :=
  mkFP (fp_AgentID fp) (fp_DisplayName fp) (fp_PublicKey fp) (fp_Capabilities fp)
    (fp_TasksCompleted fp) (fp_TasksFailed fp) (fp_TotalValueGenerated fp)
    (fp_TotalValueTransferred fp) (fp_OptimisticTrustLimit fp) (fp_ReputationScore fp)
    (fp_StakedAmount fp) (fp_FirstSeen fp) (fp_LastActive fp) (fp_FingerprintVersion fp) h.

(** [fingerprintCanonical]: the fingerprint without its hash. *)
Definition fingerprintCanonical (fp : CapabilityFingerprint) : CapabilityFingerprint := set_hash "" fp.

Section fingerprint.
Context `{!FingerprintCodec}.

Definition ComputeHash (fp : CapabilityFingerprint) : option string :=
  match marshal_fp (fingerprintCanonical fp) with
  | None => None
  | Some data => Some (sha256_hex data)
  end.

Definition refreshHash (fp : CapabilityFingerprint) : CapabilityFingerprint * bool :=
  match ComputeHash fp with
  | None => (fp, false)
  | Some h => (set_hash h fp, true)
  end.

Definition NewFingerprint (agentID : AgentID) (publicKey : list Z) (capabilities : list Capability)
    (now : Z) : option CapabilityFingerprint :=
  if decide (agentID = "") then None
  else if decide (length publicKey = 0%nat) then None
  else
    let fp := mkFP agentID "" publicKey capabilities 0 0 0 0 minTrustLimit 0 0 now now 1 "" in
    let (fp', ok) := refreshHash fp in
    if ok then Some fp' else None.

Definition recalcReputationScore (fp : CapabilityFingerprint) : CapabilityFingerprint :=
  mkFP (fp_AgentID fp) (fp_DisplayName fp) (fp_PublicKey fp) (fp_Capabilities fp)
    (fp_TasksCompleted fp) (fp_TasksFailed fp) (fp_TotalValueGenerated fp)
    (fp_TotalValueTransferred fp) (fp_OptimisticTrustLimit fp)
    (u64 (fp_TasksCompleted fp * maxReputation)
     / u64 (u64 (fp_TasksCompleted fp + fp_TasksFailed fp) + 1))
    (fp_StakedAmount fp) (fp_FirstSeen fp) (fp_LastActive fp) (fp_FingerprintVersion fp)
    (fp_FingerprintHash fp).

(** [clone]: a deep copy. *)
Definition clone (fp : CapabilityFingerprint) : CapabilityFingerprint := fp.

End fingerprint.

(** * registry.go *)

Inductive IdentityError :=
  | ErrAgentNotFound
  | ErrAgentAlreadyExists
  | ErrVersionMismatch
  | ErrHash
  | ErrRemoveFromStore.

Definition trustIncreaseBase : Z := 500.
Definition failurePct : Z := 85.

Record Registry (St : Type) := mkRegistry {
  agents : gmap AgentID CapabilityFingerprint;
  reg_store : option St;
}.
#[global] Arguments mkRegistry {St} _ _.
#[global] Arguments agents {St} _.
#[global] Arguments reg_store {St} _.

(** The counters, score and limit after a completed task. *)
Definition complete_counters (valueGenerated now : Z) (fp : CapabilityFingerprint) : CapabilityFingerprint :=
  recalcReputationScore
    (mkFP (fp_AgentID fp) (fp_DisplayName fp) (fp_PublicKey fp) (fp_Capabilities fp)
      (u64 (fp_TasksCompleted fp + 1)) (fp_TasksFailed fp)
      (u64 (fp_TotalValueGenerated fp + valueGenerated)) (fp_TotalValueTransferred fp)
      (fp_OptimisticTrustLimit fp) (fp_ReputationScore fp) (fp_StakedAmount fp) (fp_FirstSeen fp)
      now (fp_FingerprintVersion fp) (fp_FingerprintHash fp)).

Definition set_trust (z : Z) (fp : CapabilityFingerprint) : CapabilityFingerprint :=
  mkFP (fp_AgentID fp) (fp_DisplayName fp) (fp_PublicKey fp) (fp_Capabilities fp)
    (fp_TasksCompleted fp) (fp_TasksFailed fp) (fp_TotalValueGenerated fp)
    (fp_TotalValueTransferred fp) z (fp_ReputationScore fp)
    (fp_StakedAmount fp) (fp_FirstSeen fp) (fp_LastActive fp) (fp_FingerprintVersion fp)
    (fp_FingerprintHash fp).

(** The trust limit after a completed task: increased, capped at ten times the
    stake if there is one, floored. *)
Definition completed_trust (valueGenerated : Z) (fp : CapabilityFingerprint) : Z :=
  let increase := u64 (trustIncreaseBase + valueGenerated / 100) in
  let limit := u64 (fp_OptimisticTrustLimit fp + increase) in
  let limit :=
    if decide (fp_StakedAmount fp > 0) then
      let cap := u64 (fp_StakedAmount fp * 10) in if decide (limit > cap) then cap else limit
    else limit in
  if decide (limit < minTrustLimit) then minTrustLimit else limit.

(** The loop over [fp.Capabilities]; [None] when the domain is not found. *)
Fixpoint bump_capability (domain : string) (now : Z) (cs : list Capability) : option (list Capability) :=
  match cs with
  | [] => None
  | c :: cs' =>
      if decide (Domain c = domain)
      then Some (mkCapability (Domain c) (Confidence c) (u64 (EvidenceCount c + 1)) now :: cs')
      else option_map (cons c) (bump_capability domain now cs')
  end.

Definition record_evidence (domain : string) (now : Z) (cs : list Capability) : list Capability :=
  match bump_capability domain now cs with
  | Some cs' => cs'
  | None => cs ++ [mkCapability domain 0 1 now]
  end.

Definition set_capabilities (cs : list Capability) (fp : CapabilityFingerprint) : CapabilityFingerprint :=
  mkFP (fp_AgentID fp) (fp_DisplayName fp) (fp_PublicKey fp) cs
    (fp_TasksCompleted fp) (fp_TasksFailed fp) (fp_TotalValueGenerated fp)
    (fp_TotalValueTransferred fp) (fp_OptimisticTrustLimit fp) (fp_ReputationScore fp)
    (fp_StakedAmount fp) (fp_FirstSeen fp) (fp_LastActive fp) (fp_FingerprintVersion fp)
    (fp_FingerprintHash fp).

Definition bump_version (fp : CapabilityFingerprint) : CapabilityFingerprint :=
  mkFP (fp_AgentID fp) (fp_DisplayName fp) (fp_PublicKey fp) (fp_Capabilities fp)
    (fp_TasksCompleted fp) (fp_TasksFailed fp) (fp_TotalValueGenerated fp)
    (fp_TotalValueTransferred fp) (fp_OptimisticTrustLimit fp) (fp_ReputationScore fp)
    (fp_StakedAmount fp) (fp_FirstSeen fp) (fp_LastActive fp) (u64 (fp_FingerprintVersion fp + 1))
    (fp_FingerprintHash fp).

Definition fail_counters (now : Z) (fp : CapabilityFingerprint) : CapabilityFingerprint :=
  recalcReputationScore
    (mkFP (fp_AgentID fp) (fp_DisplayName fp) (fp_PublicKey fp) (fp_Capabilities fp)
      (fp_TasksCompleted fp) (u64 (fp_TasksFailed fp + 1)) (fp_TotalValueGenerated fp)
      (fp_TotalValueTransferred fp) (fp_OptimisticTrustLimit fp) (fp_ReputationScore fp)
      (fp_StakedAmount fp) (fp_FirstSeen fp) now (fp_FingerprintVersion fp) (fp_FingerprintHash fp)).

Definition failed_trust (fp : CapabilityFingerprint) : Z :=
  let limit := u64 (fp_OptimisticTrustLimit fp * failurePct) / 100 in
  if decide (limit < minTrustLimit) then minTrustLimit else limit.

(** The order of [All]. *)
Definition agent_le (a b : CapabilityFingerprint) : Prop := String.le (fp_AgentID a) (fp_AgentID b).

#[global] Instance agent_le_dec a b : Decision (agent_le a b).
Proof. unfold agent_le, String.le. apply _. Defined.

Section Registry.
Context `{!FingerprintCodec} {St : Type} `{!Persistence St CapabilityFingerprint}.
Implicit Types (r : Registry St).

Definition reg_NewRegistry : Registry St := mkRegistry ∅ None.

Definition reg_SetStore (s : St) r : Registry St := mkRegistry (agents r) (Some s).

(** [r.agents[agentID] = fp; r.store.PutIdentity(fp)]. *)
Definition reg_put (agentID : AgentID) (fp : CapabilityFingerprint) r : Registry St :=
  mkRegistry (<[agentID := fp]> (agents r)) (write_through fp (reg_store r)).

Definition reg_Register (fp : CapabilityFingerprint) r : Registry St * option IdentityError :=
  match agents r !! fp_AgentID fp with
  | Some _ => (r, Some ErrAgentAlreadyExists)
  | None =>
      let (stored, ok) := refreshHash (clone fp) in
      if ok then (reg_put (fp_AgentID fp) stored r, None) else (r, Some ErrHash)
  end.

Definition reg_Update (agentID : AgentID) (updatedFP : CapabilityFingerprint) r :
    Registry St * option IdentityError :=
  match agents r !! agentID with
  | None => (r, Some ErrAgentNotFound)
  | Some existing =>
      let want := u64 (fp_FingerprintVersion existing + 1) in
      if decide (fp_FingerprintVersion updatedFP ≠ want) then (r, Some ErrVersionMismatch)
      else
        let (stored, ok) := refreshHash (clone updatedFP) in
        if ok then (reg_put agentID stored r, None) else (r, Some ErrHash)
  end.

(** [getRaw]. *)
Definition reg_getRaw (agentID : AgentID) r : CapabilityFingerprint + IdentityError :=
  match agents r !! agentID with
  | None => inr ErrAgentNotFound
  | Some fp => inl fp
  end.

Definition reg_Get (agentID : AgentID) r : CapabilityFingerprint + IdentityError :=
  match reg_getRaw agentID r with
  | inr e => inr e
  | inl fp => inl (clone fp)
  end.

(** [order] is the order in which Go's map iteration yields the agents. *)
Definition reg_GetByDisplayName (order : list (AgentID * CapabilityFingerprint)) (name : string) :
    option CapabilityFingerprint :=
  if decide (name = "") then None
  else clone <$> head (filter (λ fp, fp_DisplayName fp = name) order.*2).

(** The in-place mutation of a stored fingerprint, the refresh of its hash and
    the write-through.  A failed hash returns before the write. *)
Definition reg_mutate (agentID : AgentID) (f : CapabilityFingerprint → CapabilityFingerprint) r :
    Registry St * option IdentityError :=
  match reg_getRaw agentID r with
  | inr e => (r, Some e)
  | inl fp =>
      let (fp', ok) := refreshHash (bump_version (f fp)) in
      if ok then (reg_put agentID fp' r, None)
      else (mkRegistry (<[agentID := fp']> (agents r)) (reg_store r), Some ErrHash)
  end.

Definition reg_RecordTaskCompletion (agentID : AgentID) (valueGenerated : Z) (domain : string)
    (now : Z) r : Registry St * option IdentityError :=
  reg_mutate agentID (λ fp,
    let fp1 := complete_counters valueGenerated now fp in
    let fp2 := set_trust (completed_trust valueGenerated fp1) fp1 in
    set_capabilities (record_evidence domain now (fp_Capabilities fp2)) fp2) r.

Definition reg_RecordTaskFailure (agentID : AgentID) (domain : string) (now : Z) r :
    Registry St * option IdentityError :=
  reg_mutate agentID (λ fp,
    let fp1 := fail_counters now fp in set_trust (failed_trust fp1) fp1) r.

Definition reg_CanTransact (agentID : AgentID) (amount : Z) r : bool + IdentityError :=
  match reg_getRaw agentID r with
  | inr e => inr e
  | inl fp => inl (bool_decide (amount <= fp_OptimisticTrustLimit fp ∧ amount <= fp_StakedAmount fp))
  end.

Definition reg_All (order : list (AgentID * CapabilityFingerprint)) (limit offset : Z) :
    list CapabilityFingerprint :=
  page limit offset (sort_slice agent_le (clone <$> order.*2)).

Definition reg_Remove (agentID : AgentID) r : Registry St * option IdentityError :=
  match agents r !! agentID with
  | None => (r, None)
  | Some _ =>
      match reg_store r with
      | None => (mkRegistry (delete agentID (agents r)) None, None)
      | Some s =>
          let (s', ok) := store_delete agentID s in
          (mkRegistry (delete agentID (agents r)) (Some s'), if ok then None else Some ErrRemoveFromStore)
      end
  end.

Definition reg_LoadRegistryFromStore (s : St) : option (Registry St) :=
  match store_all s with
  | None => None
  | Some fps => Some (mkRegistry (load_all fp_AgentID fps) (Some s))
  end.

End Registry.

(** * Invariants *)

(** The mutations of a registry. *)
Inductive reg_step `{!FingerprintCodec} {St} `{!Persistence St CapabilityFingerprint} :
    Registry St → Registry St → Prop :=
  | reg_step_Register fp r : reg_step r (reg_Register fp r).1
  | reg_step_Update a fp r : reg_step r (reg_Update a fp r).1
  | reg_step_Completion a v d now r : reg_step r (reg_RecordTaskCompletion a v d now r).1
  | reg_step_Failure a d now r : reg_step r (reg_RecordTaskFailure a d now r).1
  | reg_step_Remove a r : reg_step r (reg_Remove a r).1.

Section identity_lemmas.
Context `{!FingerprintCodec} {St : Type} `{!Persistence St CapabilityFingerprint}.
Implicit Types (r : Registry St).

Lemma ComputeHash_set_hash h fp : ComputeHash (set_hash h fp) = ComputeHash fp.
Proof. done. Qed.

Lemma refreshHash_valid fp fp' : refreshHash fp = (fp', true) →
  ComputeHash fp' = Some (fp_FingerprintHash fp') ∧ ∃ h, fp' = set_hash h fp.
Proof. unfold refreshHash. destruct (ComputeHash fp) as [h|] eqn:Hh; intros [= <-]; eauto. Qed.

(** Every stored fingerprint carries the hash of its current fields. *)
Definition hashes_valid r : Prop :=
  map_Forall (λ _ fp, ComputeHash fp = Some (fp_FingerprintHash fp)) (agents r).

Lemma hashes_valid_step r r' : (∀ fp, is_Some (marshal_fp fp)) →
  reg_step r r' → hashes_valid r → hashes_valid r'.
Proof.
  intros Htot Hstep Hv.
  assert (∀ fp, ∃ fp', refreshHash fp = (fp', true)) as Hok.
  { intros fp. unfold refreshHash, ComputeHash. destruct (Htot (fingerprintCanonical fp)) as [d ->]. eauto. }
  assert (∀ a fp fp', refreshHash fp = (fp', true) → hashes_valid (reg_put a fp' r)) as Hput.
  { intros a fp fp' Hr. apply map_Forall_insert_2; [by eapply refreshHash_valid|done]. }
  assert (∀ a f, hashes_valid (reg_mutate a f r).1) as Hmut.
  { intros a f. unfold reg_mutate. destruct (reg_getRaw a r) as [fp|]; [|done].
    destruct (Hok (bump_version (f fp))) as [fp' Hr]. rewrite Hr. by eapply Hput. }
  destruct Hstep as [fp r|a fp r|a v d now r|a d now r|a r].
  - unfold reg_Register. case_match; [done|]. destruct (Hok (clone fp)) as [fp' Hr]. rewrite Hr. by eapply Hput.
  - unfold reg_Update. case_match; [|done]. case_decide; [done|].
    destruct (Hok (clone fp)) as [fp' Hr]. rewrite Hr. by eapply Hput.
  - apply Hmut.
  - apply Hmut.
  - unfold reg_Remove. repeat case_match; simplify_eq/=; try done; by apply map_Forall_delete.
Qed.

Lemma score_bound c f : 0 <= c → 0 <= f → c * 10000 < u64_mod → c + f + 1 < u64_mod →
  u64 (c * maxReputation) / u64 (u64 (c + f) + 1) = c * 10000 / (c + f + 1)
  ∧ 0 <= c * 10000 / (c + f + 1) < 10000.
Proof.
  intros Hc Hf H1 H2. unfold maxReputation.
  rewrite (u64_small (c + f)), !u64_small by (unfold is_u64; lia).
  split; [done|]. split; [apply Z.div_pos; lia|]. apply Z.div_lt_upper_bound; lia.
Qed.

Lemma evidence_total domain now cs : (∀ c, c ∈ cs → 0 <= EvidenceCount c < MaxUint64) →
  sum_list_Z (EvidenceCount <$> record_evidence domain now cs) = sum_list_Z (EvidenceCount <$> cs) + 1.
Proof.
  intros Hb. unfold record_evidence.
  assert (∀ l, sum_list_Z (EvidenceCount <$> (l ++ [mkCapability domain 0 1 now]))
    = sum_list_Z (EvidenceCount <$> l) + 1) as Happ.
  { intros l. induction l as [|c l IH]; [done|]. rewrite <- app_comm_cons, !fmap_cons. simpl.
    rewrite IH. lia. }
  destruct (bump_capability domain now cs) as [cs'|] eqn:Hc; [clear Happ|apply Happ].
  revert cs' Hc. induction cs as [|c cs IH]; intros cs'; simpl; [done|].
  assert (0 <= EvidenceCount c < MaxUint64) by (apply Hb; by left).
  case_decide as Hd.
  - intros [= <-]. simpl. rewrite u64_small by (unfold is_u64, u64_mod, MaxUint64 in *; lia). lia.
  - destruct (bump_capability domain now cs) as [cs2|]; [|done]. intros [= <-].
    rewrite !fmap_cons. cbn [sum_list_Z foldr]. change (foldr Z.add 0) with sum_list_Z.
    rewrite (IH ltac:(intros; apply Hb; by right) cs2 eq_refl). by rewrite Z.add_assoc.
Qed.

End identity_lemmas.

(** * Properties *)

Section identity_properties.
Context `{!FingerprintCodec} {St : Type} `{!Persistence St CapabilityFingerprint}.
Implicit Types (r : Registry St).

(** Hash integrity.  Whatever sequence of registrations (with any claimed
    hash), updates, task records and removals a registry goes through, every
    fingerprint it returns carries the SHA-256 of its own canonical form. *)
Theorem reg_hash_integrity r a fp :
  (∀ fp, is_Some (marshal_fp fp)) → rtc reg_step reg_NewRegistry r →
  reg_Get a r = inl fp →
  ∃ data, marshal_fp (fingerprintCanonical fp) = Some data ∧ fp_FingerprintHash fp = sha256_hex data.
Proof.
  intros Htot Hsteps Hget.
  assert (hashes_valid r) as Hv.
  { assert (hashes_valid (reg_NewRegistry : Registry St)) as H0 by apply map_Forall_empty.
    revert H0. induction Hsteps as [|? ? ? Hstep _ IH]; [done|]. intros H0. apply IH; [done|].
    by eapply hashes_valid_step. }
  unfold reg_Get, reg_getRaw in Hget. destruct (agents r !! a) as [fp'|] eqn:Ha; simplify_eq.
  specialize (Hv a _ Ha). unfold clone, ComputeHash in *. simpl in Hv.
  destruct (marshal_fp (fingerprintCanonical fp')) as [d|]; [|done]. exists d. split; congruence.
Qed.

(** What a completed task does.  In range, the version advances by one, the
    reputation is [10000 * completed / (completed + failed + 1)], below 10000, one
    unit of evidence is added, and the trust limit never falls below its
    floor, rises for an unstaked agent, and exceeds ten times a stake only when
    the floor does. *)
Theorem reg_RecordTaskCompletion_spec r r' a v d now fp :
  agents r !! a = Some fp →
  0 <= fp_TasksCompleted fp → fp_TasksCompleted fp * 10000 + 10000 < u64_mod → 0 <= fp_TasksFailed fp →
  fp_TasksCompleted fp + fp_TasksFailed fp + 2 < u64_mod →
  0 <= v < u64_mod → 0 <= fp_OptimisticTrustLimit fp →
  fp_OptimisticTrustLimit fp + 500 + v / 100 < u64_mod →
  0 <= fp_StakedAmount fp → fp_StakedAmount fp * 10 < u64_mod →
  0 <= fp_FingerprintVersion fp < MaxUint64 →
  (∀ c, c ∈ fp_Capabilities fp → 0 <= EvidenceCount c < MaxUint64) →
  reg_RecordTaskCompletion a v d now r = (r', None) →
  ∃ fp', agents r' !! a = Some fp'
    ∧ fp_FingerprintVersion fp' = fp_FingerprintVersion fp + 1
    ∧ fp_ReputationScore fp'
      = (fp_TasksCompleted fp + 1) * 10000 / (fp_TasksCompleted fp + 1 + fp_TasksFailed fp + 1)
    ∧ 0 <= fp_ReputationScore fp' < 10000
    ∧ sum_list_Z (EvidenceCount <$> fp_Capabilities fp')
      = sum_list_Z (EvidenceCount <$> fp_Capabilities fp) + 1
    ∧ minTrustLimit <= fp_OptimisticTrustLimit fp'
    ∧ (fp_StakedAmount fp = 0 → fp_OptimisticTrustLimit fp < fp_OptimisticTrustLimit fp')
    ∧ (0 < fp_StakedAmount fp → fp_OptimisticTrustLimit fp' <= Z.max minTrustLimit (fp_StakedAmount fp * 10)).
Proof.
  intros Ha Hc Hc2 Hf Hcf Hv Ht Ht2 Hs Hs2 Hver Hev.
  unfold reg_RecordTaskCompletion, reg_mutate, reg_getRaw. rewrite Ha.
  destruct (refreshHash _) as [fp' ok] eqn:Hr. destruct ok; [|done]. intros [= <-].
  apply refreshHash_valid in Hr as [_ [h ->]]. eexists. split; [apply lookup_insert_eq|].
  simpl. rewrite (u64_small (fp_TasksCompleted fp + 1)) by (unfold is_u64; lia).
  destruct (score_bound (fp_TasksCompleted fp + 1) (fp_TasksFailed fp)) as [-> Hscore]; [lia..|].
  assert (0 <= v / 100) by (apply Z.div_pos; lia).
  split_and!; [|done|apply Hscore|apply Hscore|by apply evidence_total| | |].
  - apply u64_small. unfold is_u64, u64_mod, MaxUint64 in *. lia.
  - unfold completed_trust. simpl. repeat case_decide; lia.
  - intros Hz. unfold completed_trust, trustIncreaseBase. simpl. rewrite Hz, (decide_False (P := 0 > 0)) by lia.
    rewrite (u64_small (500 + v / 100)) by (unfold is_u64; lia).
    rewrite u64_small by (unfold is_u64; lia).
    case_decide; unfold minTrustLimit in *; lia.
  - intros Hz. unfold completed_trust, trustIncreaseBase. simpl.
    rewrite (decide_True (P := fp_StakedAmount fp > 0)) by lia.
    rewrite (u64_small (fp_StakedAmount fp * 10)) by (unfold is_u64; lia).
    repeat case_decide; lia.
Qed.

(** Optimistic concurrency.  [Update] succeeds only with the stored version
    plus one, so of two writers that prepared their updates from the same
    fingerprint exactly the first succeeds; the second gets a version mismatch
    and changes nothing. *)
Theorem reg_Update_no_lost_update r r1 r2 a fp fp1 fp2 err :
  agents r !! a = Some fp → 0 <= fp_FingerprintVersion fp < MaxUint64 →
  fp_FingerprintVersion fp1 = fp_FingerprintVersion fp + 1 →
  fp_FingerprintVersion fp2 = fp_FingerprintVersion fp + 1 →
  reg_Update a fp1 r = (r1, None) → reg_Update a fp2 r1 = (r2, err) →
  err = Some ErrVersionMismatch ∧ r2 = r1
  ∧ ∃ h, agents r2 !! a = Some (set_hash h fp1).
Proof.
  intros Ha Hv H1 H2. unfold reg_Update at 1. rewrite Ha. case_decide as Hne; [done|].
  destruct (refreshHash (clone fp1)) as [s ok] eqn:Hr. destruct ok; [|done]. intros [= <-].
  apply refreshHash_valid in Hr as [_ [h Hs]]. unfold reg_Update, reg_put. simpl.
  rewrite lookup_insert_eq. rewrite Hs. simpl.
  rewrite decide_True; [intros [= <- <-]|].
  - split_and!; [done|done|]. eexists. simpl. by rewrite lookup_insert_eq.
  - unfold clone in *. rewrite H2, H1. unfold u64, u64_mod, MaxUint64 in *.
    destruct (decide (fp_FingerprintVersion fp + 1 + 1 = 18446744073709551616)) as [Hw|].
    { rewrite Hw, Z_mod_same_full. lia. }
    rewrite Z.mod_small by lia. lia.
Qed.

End identity_properties.

(** ** Concrete registries *)

#[global] Instance demo_fp_codec : FingerprintCodec := {| marshal_fp fp := Some (fp_AgentID fp) |}.

Notation DemoRegistry := (Registry (KeyedStore fp_AgentID)).

Definition demo_fp (a : AgentID) (v : Z) : CapabilityFingerprint :=
  mkFP a "" [1] [mkCapability "code" 0 3 0] 3 1 0 0 5000 0 200 0 0 v "".

Definition demo_registry : DemoRegistry :=
  mkRegistry {["alice" := demo_fp "alice" 1]} None.

Lemma reg_hash_integrity_witness :
  ∃ data, marshal_fp (set_hash "" (demo_fp "alice" 1)) = Some data ∧ data = "alice".
Proof.
  destruct (refreshHash (demo_fp "alice" 1)) as [fp ok] eqn:Hr.
  destruct (reg_hash_integrity (St := KeyedStore fp_AgentID)
    (reg_Register (demo_fp "alice" 1) reg_NewRegistry).1 "alice" fp) as (d & Hd & _).
  - by eexists.
  - eapply rtc_l; [apply (reg_step_Register (demo_fp "alice" 1))|apply rtc_refl].
  - unfold reg_Register, clone. rewrite Hr. unfold refreshHash in Hr. simpl in Hr. by simplify_eq.
  - exists "alice". done.
Defined.

Lemma reg_RecordTaskCompletion_spec_witness :
  let r' := (reg_RecordTaskCompletion "alice" 10000 "code" 9 demo_registry).1 in
  ∃ fp', agents r' !! "alice" = Some fp' ∧ fp_FingerprintVersion fp' = 2 ∧ fp_OptimisticTrustLimit fp' <= 2000.
Proof.
  intros r'.
  destruct (reg_RecordTaskCompletion_spec demo_registry r' "alice" 10000 "code" 9 (demo_fp "alice" 1))
    as (fp' & Hfp & Hv & _ & _ & _ & _ & _ & Hcap);
    [done|by vm_compute..| |by vm_compute|].
  - simpl. unfold MaxUint64. intros c [->|[]%elem_of_nil]%elem_of_cons. simpl. lia.
  - exists fp'. split_and!; [done|by rewrite Hv|]. etrans; [apply Hcap; simpl; lia|]. simpl.
    unfold minTrustLimit. lia.
Defined.

Lemma reg_Update_no_lost_update_witness :
  let r1 := (reg_Update "alice" (demo_fp "alice" 2) demo_registry).1 in
  (reg_Update "alice" (set_trust 99 (demo_fp "alice" 2)) r1).2 = Some ErrVersionMismatch.
Proof.
  intros r1.
  destruct (reg_Update_no_lost_update demo_registry r1
    (reg_Update "alice" (set_trust 99 (demo_fp "alice" 2)) r1).1 "alice" (demo_fp "alice" 1)
    (demo_fp "alice" 2) (set_trust 99 (demo_fp "alice" 2))
    (reg_Update "alice" (set_trust 99 (demo_fp "alice" 2)) r1).2) as [He _];
    [done|by compute|done|done|done|apply surjective_pairing|exact He].
Defined.

(** [Update] does not tie the fingerprint to the agent it updates.  A
    fingerprint that names another agent is accepted under the caller's ID and
    persisted under the other's, so after a restart the victim's record is the
    attacker's and the attacker's own is unchanged on disk. *)
Theorem reg_Update_overwrites_other_agent :
  let r0 := (reg_Register (demo_fp "mallory" 1)
              (reg_Register (demo_fp "alice" 1)
                (reg_SetStore (ks_empty fp_AgentID) (reg_NewRegistry : DemoRegistry))).1).1 in
  let evil := set_trust 777777 (demo_fp "alice" 2) in
  let r1 := (reg_Update "mallory" evil r0).1 in
  (reg_Update "mallory" evil r0).2 = None
  ∧ (fp_OptimisticTrustLimit <$> agents r1 !! "alice") = Some 5000
  ∧ (r2 ← (s ← reg_store r1; reg_LoadRegistryFromStore s);
     fp_OptimisticTrustLimit <$> agents r2 !! "alice") = Some 777777.
Proof. split_and!; by vm_compute. Qed.
