(* ===== verification/Lifecycle.v ===== *)
(** internal/validatorlifecycle: seat types (types.go) and the lifecycle reducer
    (reducer.go).

    State: the seats by ID and the version of the validator set.  The reducer is
    a deterministic state machine over lifecycle events; handlers mutate the
    seat they look up, so a handler that fails after a mutation leaves it
    behind.  All clocks are causal timestamps carried by the events. *)

From S2P Require Import Prelude GoStd Event.

(** * types.go *)

Notation ValidatorID := string (only parsing).

Definition DeriveValidatorID (joinEventID : string) : ValidatorID :=
  sha256_hex ("aethernet-validator-seat:" +:+ joinEventID).

Inductive SeatStatus :=
  | SeatPendingJoin
  | SeatProbationary
  | SeatActive
  | SeatSuspended
  | SeatCoolingDown
  | SeatExited
  | SeatExcluded.

#[global] Instance SeatStatus_eq_dec : EqDecision SeatStatus.
Proof. solve_decision. Defined.

Definition AllSeatStatuses : list SeatStatus :=
  [SeatPendingJoin; SeatProbationary; SeatActive; SeatSuspended; SeatCoolingDown; SeatExited;
   SeatExcluded].

Definition status_string (s : SeatStatus) : string :=
  match s with
  | SeatPendingJoin => "pending_join"
  | SeatProbationary => "probationary"
  | SeatActive => "active"
  | SeatSuspended => "suspended"
  | SeatCoolingDown => "cooling_down"
  | SeatExited => "exited"
  | SeatExcluded => "excluded"
  end.

Definition IsTerminal (s : SeatStatus) : bool := bool_decide (s = SeatExited ∨ s = SeatExcluded).

Definition IsParticipating (s : SeatStatus) : bool :=
  bool_decide (s = SeatProbationary ∨ s = SeatActive).

(** [validTransitions]. *)
Definition seatTransitions (s : SeatStatus) : list SeatStatus :=
  match s with
  | SeatPendingJoin => [SeatProbationary; SeatExcluded]
  | SeatProbationary => [SeatActive; SeatSuspended; SeatExcluded]
  | SeatActive => [SeatSuspended; SeatCoolingDown; SeatExcluded]
  | SeatSuspended => [SeatProbationary; SeatCoolingDown; SeatExcluded]
  | SeatCoolingDown => [SeatExited; SeatExcluded]
  | SeatExited => [SeatPendingJoin]
  | SeatExcluded => []
  end.

Definition CanTransitionTo (s target : SeatStatus) : bool := bool_decide (target ∈ seatTransitions s).

Record KeyEpoch := mkKeyEpoch {
  Epoch : Z;
  PublicKey : AgentID;
  EffectiveFromEventID : string;
  EffectiveFromCausalTS : Z;
}.

Record PendingRecoveryRotation := mkPendingRotation {
  RequestEventID : string;
  NewPublicKey : AgentID;
  RequestedAt : Z;
  EffectiveAfter : Z;
}.

(** [ProbationAccuracy] is a float64 that the reducer only ever sets to zero. *)
Record ValidatorSeat := mkSeat {
  vs_ID : ValidatorID;
  vs_Status : SeatStatus;
  vs_OperatorKey : AgentID;
  vs_KeyHistory : list KeyEpoch;
  vs_RecoveryKey : AgentID;
  vs_PendingRotation : option PendingRecoveryRotation;
  vs_StakeAmount : Z;
  vs_JoinEventID : string;
  vs_JoinCausalTS : Z;
  vs_ActivatedCausalTS : Z;
  vs_CooldownStartCausalTS : Z;
  vs_CooldownDurationEvents : Z;
  vs_SuspensionReason : string;
  vs_SlashCount : Z;
  vs_LastSlashEventID : string;
  vs_ProbationTaskCount : Z;
  vs_ProbationAccuracy : Z;
  vs_IsGenesis : bool;
  vs_Weight : Z;
  vs_EffectiveFromVersion : Z;
}.

(** Assignments to single fields. *)
Definition set_Status (x : SeatStatus) (s : ValidatorSeat) : ValidatorSeat :=
  mkSeat (vs_ID s) x (vs_OperatorKey s) (vs_KeyHistory s) (vs_RecoveryKey s)
    (vs_PendingRotation s) (vs_StakeAmount s) (vs_JoinEventID s) (vs_JoinCausalTS s)
    (vs_ActivatedCausalTS s) (vs_CooldownStartCausalTS s) (vs_CooldownDurationEvents s)
    (vs_SuspensionReason s) (vs_SlashCount s) (vs_LastSlashEventID s) (vs_ProbationTaskCount s)
    (vs_ProbationAccuracy s) (vs_IsGenesis s) (vs_Weight s) (vs_EffectiveFromVersion s).
Definition set_OperatorKey (x : AgentID) (s : ValidatorSeat) : ValidatorSeat :=
  mkSeat (vs_ID s) (vs_Status s) x (vs_KeyHistory s) (vs_RecoveryKey s) (vs_PendingRotation s)
    (vs_StakeAmount s) (vs_JoinEventID s) (vs_JoinCausalTS s) (vs_ActivatedCausalTS s)
    (vs_CooldownStartCausalTS s) (vs_CooldownDurationEvents s) (vs_SuspensionReason s)
    (vs_SlashCount s) (vs_LastSlashEventID s) (vs_ProbationTaskCount s) (vs_ProbationAccuracy s)
    (vs_IsGenesis s) (vs_Weight s) (vs_EffectiveFromVersion s).
Definition set_KeyHistory (x : list KeyEpoch) (s : ValidatorSeat) : ValidatorSeat :=
  mkSeat (vs_ID s) (vs_Status s) (vs_OperatorKey s) x (vs_RecoveryKey s)
    (vs_PendingRotation s) (vs_StakeAmount s) (vs_JoinEventID s) (vs_JoinCausalTS s)
    (vs_ActivatedCausalTS s) (vs_CooldownStartCausalTS s) (vs_CooldownDurationEvents s)
    (vs_SuspensionReason s) (vs_SlashCount s) (vs_LastSlashEventID s) (vs_ProbationTaskCount s)
    (vs_ProbationAccuracy s) (vs_IsGenesis s) (vs_Weight s) (vs_EffectiveFromVersion s).
Definition set_RecoveryKey (x : AgentID) (s : ValidatorSeat) : ValidatorSeat :=
  mkSeat (vs_ID s) (vs_Status s) (vs_OperatorKey s) (vs_KeyHistory s) x (vs_PendingRotation s)
    (vs_StakeAmount s) (vs_JoinEventID s) (vs_JoinCausalTS s) (vs_ActivatedCausalTS s)
    (vs_CooldownStartCausalTS s) (vs_CooldownDurationEvents s) (vs_SuspensionReason s)
    (vs_SlashCount s) (vs_LastSlashEventID s) (vs_ProbationTaskCount s) (vs_ProbationAccuracy s)
    (vs_IsGenesis s) (vs_Weight s) (vs_EffectiveFromVersion s).
Definition set_PendingRotation (x : option PendingRecoveryRotation) (s : ValidatorSeat) : ValidatorSeat :=
  mkSeat (vs_ID s) (vs_Status s) (vs_OperatorKey s) (vs_KeyHistory s) (vs_RecoveryKey s) x
    (vs_StakeAmount s) (vs_JoinEventID s) (vs_JoinCausalTS s) (vs_ActivatedCausalTS s)
    (vs_CooldownStartCausalTS s) (vs_CooldownDurationEvents s) (vs_SuspensionReason s)
    (vs_SlashCount s) (vs_LastSlashEventID s) (vs_ProbationTaskCount s) (vs_ProbationAccuracy s)
    (vs_IsGenesis s) (vs_Weight s) (vs_EffectiveFromVersion s).
Definition set_StakeAmount (x : Z) (s : ValidatorSeat) : ValidatorSeat :=
  mkSeat (vs_ID s) (vs_Status s) (vs_OperatorKey s) (vs_KeyHistory s) (vs_RecoveryKey s)
    (vs_PendingRotation s) x (vs_JoinEventID s) (vs_JoinCausalTS s) (vs_ActivatedCausalTS s)
    (vs_CooldownStartCausalTS s) (vs_CooldownDurationEvents s) (vs_SuspensionReason s)
    (vs_SlashCount s) (vs_LastSlashEventID s) (vs_ProbationTaskCount s) (vs_ProbationAccuracy s)
    (vs_IsGenesis s) (vs_Weight s) (vs_EffectiveFromVersion s).
Definition set_ActivatedCausalTS (x : Z) (s : ValidatorSeat) : ValidatorSeat :=
  mkSeat (vs_ID s) (vs_Status s) (vs_OperatorKey s) (vs_KeyHistory s) (vs_RecoveryKey s)
    (vs_PendingRotation s) (vs_StakeAmount s) (vs_JoinEventID s) (vs_JoinCausalTS s) x
    (vs_CooldownStartCausalTS s) (vs_CooldownDurationEvents s) (vs_SuspensionReason s)
    (vs_SlashCount s) (vs_LastSlashEventID s) (vs_ProbationTaskCount s) (vs_ProbationAccuracy s)
    (vs_IsGenesis s) (vs_Weight s) (vs_EffectiveFromVersion s).
Definition set_CooldownStartCausalTS (x : Z) (s : ValidatorSeat) : ValidatorSeat :=
  mkSeat (vs_ID s) (vs_Status s) (vs_OperatorKey s) (vs_KeyHistory s) (vs_RecoveryKey s)
    (vs_PendingRotation s) (vs_StakeAmount s) (vs_JoinEventID s) (vs_JoinCausalTS s)
    (vs_ActivatedCausalTS s) x (vs_CooldownDurationEvents s) (vs_SuspensionReason s)
    (vs_SlashCount s) (vs_LastSlashEventID s) (vs_ProbationTaskCount s) (vs_ProbationAccuracy s)
    (vs_IsGenesis s) (vs_Weight s) (vs_EffectiveFromVersion s).
Definition set_CooldownDurationEvents (x : Z) (s : ValidatorSeat) : ValidatorSeat :=
  mkSeat (vs_ID s) (vs_Status s) (vs_OperatorKey s) (vs_KeyHistory s) (vs_RecoveryKey s)
    (vs_PendingRotation s) (vs_StakeAmount s) (vs_JoinEventID s) (vs_JoinCausalTS s)
    (vs_ActivatedCausalTS s) (vs_CooldownStartCausalTS s) x (vs_SuspensionReason s)
    (vs_SlashCount s) (vs_LastSlashEventID s) (vs_ProbationTaskCount s) (vs_ProbationAccuracy s)
    (vs_IsGenesis s) (vs_Weight s) (vs_EffectiveFromVersion s).
Definition set_SuspensionReason (x : string) (s : ValidatorSeat) : ValidatorSeat :=
  mkSeat (vs_ID s) (vs_Status s) (vs_OperatorKey s) (vs_KeyHistory s) (vs_RecoveryKey s)
    (vs_PendingRotation s) (vs_StakeAmount s) (vs_JoinEventID s) (vs_JoinCausalTS s)
    (vs_ActivatedCausalTS s) (vs_CooldownStartCausalTS s) (vs_CooldownDurationEvents s) x
    (vs_SlashCount s) (vs_LastSlashEventID s) (vs_ProbationTaskCount s) (vs_ProbationAccuracy s)
    (vs_IsGenesis s) (vs_Weight s) (vs_EffectiveFromVersion s).
Definition set_SlashCount (x : Z) (s : ValidatorSeat) : ValidatorSeat :=
  mkSeat (vs_ID s) (vs_Status s) (vs_OperatorKey s) (vs_KeyHistory s) (vs_RecoveryKey s)
    (vs_PendingRotation s) (vs_StakeAmount s) (vs_JoinEventID s) (vs_JoinCausalTS s)
    (vs_ActivatedCausalTS s) (vs_CooldownStartCausalTS s) (vs_CooldownDurationEvents s)
    (vs_SuspensionReason s) x (vs_LastSlashEventID s) (vs_ProbationTaskCount s)
    (vs_ProbationAccuracy s) (vs_IsGenesis s) (vs_Weight s) (vs_EffectiveFromVersion s).
Definition set_LastSlashEventID (x : string) (s : ValidatorSeat) : ValidatorSeat :=
  mkSeat (vs_ID s) (vs_Status s) (vs_OperatorKey s) (vs_KeyHistory s) (vs_RecoveryKey s)
    (vs_PendingRotation s) (vs_StakeAmount s) (vs_JoinEventID s) (vs_JoinCausalTS s)
    (vs_ActivatedCausalTS s) (vs_CooldownStartCausalTS s) (vs_CooldownDurationEvents s)
    (vs_SuspensionReason s) (vs_SlashCount s) x (vs_ProbationTaskCount s)
    (vs_ProbationAccuracy s) (vs_IsGenesis s) (vs_Weight s) (vs_EffectiveFromVersion s).
Definition set_ProbationTaskCount (x : Z) (s : ValidatorSeat) : ValidatorSeat :=
  mkSeat (vs_ID s) (vs_Status s) (vs_OperatorKey s) (vs_KeyHistory s) (vs_RecoveryKey s)
    (vs_PendingRotation s) (vs_StakeAmount s) (vs_JoinEventID s) (vs_JoinCausalTS s)
    (vs_ActivatedCausalTS s) (vs_CooldownStartCausalTS s) (vs_CooldownDurationEvents s)
    (vs_SuspensionReason s) (vs_SlashCount s) (vs_LastSlashEventID s) x (vs_ProbationAccuracy s)
    (vs_IsGenesis s) (vs_Weight s) (vs_EffectiveFromVersion s).
Definition set_ProbationAccuracy (x : Z) (s : ValidatorSeat) : ValidatorSeat :=
  mkSeat (vs_ID s) (vs_Status s) (vs_OperatorKey s) (vs_KeyHistory s) (vs_RecoveryKey s)
    (vs_PendingRotation s) (vs_StakeAmount s) (vs_JoinEventID s) (vs_JoinCausalTS s)
    (vs_ActivatedCausalTS s) (vs_CooldownStartCausalTS s) (vs_CooldownDurationEvents s)
    (vs_SuspensionReason s) (vs_SlashCount s) (vs_LastSlashEventID s) (vs_ProbationTaskCount s)
    x (vs_IsGenesis s) (vs_Weight s) (vs_EffectiveFromVersion s).
Definition set_Weight (x : Z) (s : ValidatorSeat) : ValidatorSeat :=
  mkSeat (vs_ID s) (vs_Status s) (vs_OperatorKey s) (vs_KeyHistory s) (vs_RecoveryKey s)
    (vs_PendingRotation s) (vs_StakeAmount s) (vs_JoinEventID s) (vs_JoinCausalTS s)
    (vs_ActivatedCausalTS s) (vs_CooldownStartCausalTS s) (vs_CooldownDurationEvents s)
    (vs_SuspensionReason s) (vs_SlashCount s) (vs_LastSlashEventID s) (vs_ProbationTaskCount s)
    (vs_ProbationAccuracy s) (vs_IsGenesis s) x (vs_EffectiveFromVersion s).
Definition set_EffectiveFromVersion (x : Z) (s : ValidatorSeat) : ValidatorSeat :=
  mkSeat (vs_ID s) (vs_Status s) (vs_OperatorKey s) (vs_KeyHistory s) (vs_RecoveryKey s)
    (vs_PendingRotation s) (vs_StakeAmount s) (vs_JoinEventID s) (vs_JoinCausalTS s)
    (vs_ActivatedCausalTS s) (vs_CooldownStartCausalTS s) (vs_CooldownDurationEvents s)
    (vs_SuspensionReason s) (vs_SlashCount s) (vs_LastSlashEventID s) (vs_ProbationTaskCount s)
    (vs_ProbationAccuracy s) (vs_IsGenesis s) (vs_Weight s) x.

Definition MinBondedStake : Z := 10000000000.

Definition HasRecoveryKey (s : ValidatorSeat) : bool := bool_decide (vs_RecoveryKey s ≠ "").

Definition HasPendingRotation (s : ValidatorSeat) : bool :=
  match vs_PendingRotation s with Some _ => true | None => false end.

Definition zeroKeyEpoch : KeyEpoch := mkKeyEpoch 0 "" "" 0.

Definition CurrentKeyEpoch (s : ValidatorSeat) : KeyEpoch := default zeroKeyEpoch (last (vs_KeyHistory s)).

Definition KeyAtEpoch (s : ValidatorSeat) (epoch : Z) : option KeyEpoch :=
  head (filter (λ ke, Epoch ke = epoch) (vs_KeyHistory s)).

(** One iteration of the loop of [KeyForCausalTS]. *)
Definition key_step (causalTS : Z) (best : option KeyEpoch) (ke : KeyEpoch) : option KeyEpoch :=
  if decide (EffectiveFromCausalTS ke <= causalTS) then
    match best with
    | None => Some ke
    | Some b => if decide (Epoch ke > Epoch b) then Some ke else best
    end
  else best.

Definition KeyForCausalTS (s : ValidatorSeat) (causalTS : Z) : option KeyEpoch :=
  foldl (key_step causalTS) None (vs_KeyHistory s).

Inductive LifecycleEventKind :=
  | EventJoin | EventActivate | EventSuspend | EventReinstate | EventBeginCooldown | EventExit
  | EventExclude | EventRotateKey | EventStakeUpdate | EventSlash | EventRecoveryKeySet
  | EventEmergencySuspend | EventRecoveryRotate | EventRecoveryRotateCancel
  | EventOther (k : string).

Record LifecycleEvent := mkLifecycleEvent {
  le_Kind : LifecycleEventKind;
  le_EventID : string;
  le_CausalTS : Z;
  le_SeatID : ValidatorID;
  le_OperatorKey : AgentID;
  le_StakeAmount : Z;
  le_Reason : string;
  le_CooldownDuration : Z;
  le_IsGenesis : bool;
  le_OldOperatorKey : AgentID;
  le_SlashAmount : Z;
  le_PermanentExclusion : bool;
  le_RecoveryKey : AgentID;
  le_NewPublicKey : AgentID;
  le_RequestedAt : Z;
  le_EffectiveAfter : Z;
  le_RotationEventID : string;
}.

(** * reducer.go *)

Inductive LifecycleError :=
  | ErrSeatNotFound
  | ErrSeatAlreadyExists
  | ErrInvalidSeatTransition
  | ErrUnsupportedEvent
  | ErrMissingOperatorKey
  | ErrTerminalSeat
  | ErrCooldownNotElapsed
  | ErrKeyEpochRegression
  | ErrInsufficientStake
  | ErrOldKeyMismatch
  | ErrSlashExceedsStake
  | ErrNoRecoveryKey
  | ErrRecoveryKeyMismatch
  | ErrNoPendingRotation
  | ErrRotationEventMismatch.

Record Reducer := mkReducer {
  seats : gmap ValidatorID ValidatorSeat;
  version : Z;
}.

Definition NewReducer : Reducer := mkReducer ∅ 0.

Definition nextVersion (r : Reducer) : Z := u64 (version r + 1).

(** The end of a handler that changes the validator set: the seat takes effect
    at, and the reducer moves to, the next version. *)
Definition commit (id : ValidatorID) (s : ValidatorSeat) (r : Reducer) : Reducer :=
  mkReducer (<[id := set_EffectiveFromVersion (nextVersion r) s]> (seats r)) (nextVersion r).

(** A mutation that does not advance the version. *)
Definition put_seat (id : ValidatorID) (s : ValidatorSeat) (r : Reducer) : Reducer :=
  mkReducer (<[id := s]> (seats r)) (version r).

Definition Step : Type := Reducer * option LifecycleError.

Definition fail (r : Reducer) (e : LifecycleError) : Step := (r, Some e).
Definition ok (r : Reducer) : Step := (r, None).

(** [seat, err := r.mustSeat(id); if err != nil { return err }]. *)
Definition with_seat (id : ValidatorID) (r : Reducer) (k : ValidatorSeat → Step) : Step :=
  match seats r !! id with
  | None => fail r ErrSeatNotFound
  | Some s => k s
  end.

Definition push_key (key : AgentID) (ev : LifecycleEvent) (s : ValidatorSeat) : ValidatorSeat :=
  set_KeyHistory (vs_KeyHistory s ++
    [mkKeyEpoch (u64 (Epoch (CurrentKeyEpoch s) + 1)) key (le_EventID ev) (le_CausalTS ev)]) s.

Definition applyJoin (ev : LifecycleEvent) (r : Reducer) : Step :=
  if decide (le_OperatorKey ev = "") then fail r ErrMissingOperatorKey
  else if decide (le_IsGenesis ev = false ∧ le_StakeAmount ev < MinBondedStake)
  then fail r ErrInsufficientStake
  else
    let seatID := if decide (le_SeatID ev = "") then DeriveValidatorID (le_EventID ev)
                  else le_SeatID ev in
    match seats r !! seatID with
    | Some existing =>
        if decide (vs_Status existing ≠ SeatExited) then fail r ErrSeatAlreadyExists
        else if negb (CanTransitionTo (vs_Status existing) SeatPendingJoin)
        then fail r ErrInvalidSeatTransition
        else
          ok (commit seatID
            (set_ProbationAccuracy 0 (set_ProbationTaskCount 0 (set_SuspensionReason ""
              (set_CooldownDurationEvents 0 (set_CooldownStartCausalTS 0
                (push_key (le_OperatorKey ev) ev
                  (set_StakeAmount (le_StakeAmount ev) (set_OperatorKey (le_OperatorKey ev)
                    (set_Status SeatPendingJoin existing))))))))) r)
    | None =>
        ok (commit seatID
          (mkSeat seatID SeatPendingJoin (le_OperatorKey ev)
             [mkKeyEpoch 1 (le_OperatorKey ev) (le_EventID ev) (le_CausalTS ev)]
             "" None (le_StakeAmount ev) (le_EventID ev) (le_CausalTS ev) 0 0 0 "" 0 "" 0 0
             (le_IsGenesis ev) 0 0) r)
    end.

Definition applyActivate (ev : LifecycleEvent) (r : Reducer) : Step :=
  with_seat (le_SeatID ev) r (λ s,
    if negb (CanTransitionTo (vs_Status s) SeatActive) then fail r ErrInvalidSeatTransition
    else ok (commit (le_SeatID ev)
      (set_Weight (vs_StakeAmount s) (set_ProbationAccuracy 0 (set_ProbationTaskCount 0
        (set_ActivatedCausalTS (le_CausalTS ev) (set_Status SeatActive s))))) r)).

Definition suspend_seat (reason : string) (s : ValidatorSeat) : ValidatorSeat :=
  set_Weight 0 (set_SuspensionReason reason (set_Status SeatSuspended s)).

Definition applySuspend (ev : LifecycleEvent) (r : Reducer) : Step :=
  with_seat (le_SeatID ev) r (λ s,
    if negb (CanTransitionTo (vs_Status s) SeatSuspended) then fail r ErrInvalidSeatTransition
    else ok (commit (le_SeatID ev) (suspend_seat (le_Reason ev) s) r)).

(** [elapsed < seat.CooldownDurationEvents], in uint64 arithmetic. *)
Definition cooldown_pending (ev : LifecycleEvent) (s : ValidatorSeat) : bool :=
  bool_decide (u64 (le_CausalTS ev - vs_CooldownStartCausalTS s) < vs_CooldownDurationEvents s).

Definition applyReinstate (ev : LifecycleEvent) (r : Reducer) : Step :=
  with_seat (le_SeatID ev) r (λ s,
    if negb (CanTransitionTo (vs_Status s) SeatProbationary) then fail r ErrInvalidSeatTransition
    else if bool_decide (vs_CooldownDurationEvents s > 0 ∧ vs_CooldownStartCausalTS s > 0)
            && cooldown_pending ev s
    then fail r ErrCooldownNotElapsed
    else ok (commit (le_SeatID ev)
      (set_Weight (vs_StakeAmount s / 2) (set_ProbationAccuracy 0 (set_ProbationTaskCount 0
        (set_CooldownDurationEvents 0 (set_CooldownStartCausalTS 0 (set_SuspensionReason ""
          (set_Status SeatProbationary s))))))) r)).

Definition applyBeginCooldown (ev : LifecycleEvent) (r : Reducer) : Step :=
  with_seat (le_SeatID ev) r (λ s,
    if negb (CanTransitionTo (vs_Status s) SeatCoolingDown) then fail r ErrInvalidSeatTransition
    else ok (commit (le_SeatID ev)
      (set_Weight 0 (set_CooldownDurationEvents (le_CooldownDuration ev)
        (set_CooldownStartCausalTS (le_CausalTS ev) (set_Status SeatCoolingDown s)))) r)).

Definition applyExit (ev : LifecycleEvent) (r : Reducer) : Step :=
  with_seat (le_SeatID ev) r (λ s,
    if negb (CanTransitionTo (vs_Status s) SeatExited) then fail r ErrInvalidSeatTransition
    else if bool_decide (vs_CooldownDurationEvents s > 0) && cooldown_pending ev s
    then fail r ErrCooldownNotElapsed
    else ok (commit (le_SeatID ev) (set_Weight 0 (set_Status SeatExited s)) r)).

Definition mark_slashed (ev : LifecycleEvent) (s : ValidatorSeat) : ValidatorSeat :=
  set_LastSlashEventID (le_EventID ev) (set_SlashCount (i64 (vs_SlashCount s + 1)) s).

Definition applyExclude (ev : LifecycleEvent) (r : Reducer) : Step :=
  with_seat (le_SeatID ev) r (λ s,
    if decide (vs_Status s = SeatExcluded) then ok r
    else if decide (vs_Status s = SeatExited) then fail r ErrTerminalSeat
    else if negb (CanTransitionTo (vs_Status s) SeatExcluded) then fail r ErrInvalidSeatTransition
    else ok (commit (le_SeatID ev)
      (set_Weight 0 (set_SuspensionReason (le_Reason ev) (mark_slashed ev (set_Status SeatExcluded s)))) r)).

Definition applyRotateKey (ev : LifecycleEvent) (r : Reducer) : Step :=
  if decide (le_OperatorKey ev = "") then fail r ErrMissingOperatorKey
  else with_seat (le_SeatID ev) r (λ s,
    if IsTerminal (vs_Status s) then fail r ErrTerminalSeat
    else if decide (vs_OperatorKey s = le_OperatorKey ev) then fail r ErrKeyEpochRegression
    else if decide (le_OldOperatorKey ev ≠ "" ∧ le_OldOperatorKey ev ≠ vs_OperatorKey s)
    then fail r ErrOldKeyMismatch
    else ok (commit (le_SeatID ev)
      (push_key (le_OperatorKey ev) ev (set_OperatorKey (le_OperatorKey ev) s)) r)).

Definition applyStakeUpdate (ev : LifecycleEvent) (r : Reducer) : Step :=
  with_seat (le_SeatID ev) r (λ s,
    if IsTerminal (vs_Status s) then fail r ErrTerminalSeat
    else
      let s1 := set_StakeAmount (le_StakeAmount ev) s in
      ok (commit (le_SeatID ev)
        (if IsParticipating (vs_Status s) then set_Weight (le_StakeAmount ev) s1 else s1) r)).

(** The mutations made before the transition check survive its failure. *)
Definition applySlash (ev : LifecycleEvent) (r : Reducer) : Step :=
  with_seat (le_SeatID ev) r (λ s,
    if IsTerminal (vs_Status s) then
      if decide (vs_Status s = SeatExcluded) then ok r else fail r ErrTerminalSeat
    else if decide (le_SlashAmount ev > vs_StakeAmount s) then fail r ErrSlashExceedsStake
    else
      let s1 := mark_slashed ev (set_StakeAmount (u64 (vs_StakeAmount s - le_SlashAmount ev)) s) in
      if le_PermanentExclusion ev then
        if negb (CanTransitionTo (vs_Status s) SeatExcluded)
        then fail (put_seat (le_SeatID ev) s1 r) ErrInvalidSeatTransition
        else ok (commit (le_SeatID ev)
          (set_Weight 0 (set_SuspensionReason (le_Reason ev) (set_Status SeatExcluded s1))) r)
      else
        if negb (CanTransitionTo (vs_Status s) SeatSuspended)
        then fail (put_seat (le_SeatID ev) s1 r) ErrInvalidSeatTransition
        else
          let s2 := suspend_seat (le_Reason ev) s1 in
          ok (commit (le_SeatID ev)
            (if decide (le_CooldownDuration ev > 0)
             then set_CooldownDurationEvents (le_CooldownDuration ev)
                    (set_CooldownStartCausalTS (le_CausalTS ev) s2)
             else s2) r)).

Definition applyRecoveryKeySet (ev : LifecycleEvent) (r : Reducer) : Step :=
  if decide (le_RecoveryKey ev = "") then fail r ErrMissingOperatorKey
  else with_seat (le_SeatID ev) r (λ s,
    if IsTerminal (vs_Status s) then fail r ErrTerminalSeat
    else ok (put_seat (le_SeatID ev) (set_RecoveryKey (le_RecoveryKey ev) s) r)).

Definition applyEmergencySuspend (ev : LifecycleEvent) (r : Reducer) : Step :=
  with_seat (le_SeatID ev) r (λ s,
    if decide (vs_RecoveryKey s = "") then fail r ErrNoRecoveryKey
    else if decide (le_RecoveryKey ev ≠ vs_RecoveryKey s) then fail r ErrRecoveryKeyMismatch
    else if negb (CanTransitionTo (vs_Status s) SeatSuspended) then fail r ErrInvalidSeatTransition
    else ok (commit (le_SeatID ev) (suspend_seat ("recovery:" +:+ le_Reason ev) s) r)).

(** The pending rotation is recorded and cleared within the same call. *)
Definition applyRecoveryRotate (ev : LifecycleEvent) (r : Reducer) : Step :=
  if decide (le_NewPublicKey ev = "") then fail r ErrMissingOperatorKey
  else with_seat (le_SeatID ev) r (λ s,
    if decide (vs_RecoveryKey s = "") then fail r ErrNoRecoveryKey
    else if decide (le_RecoveryKey ev ≠ vs_RecoveryKey s) then fail r ErrRecoveryKeyMismatch
    else if IsTerminal (vs_Status s) then fail r ErrTerminalSeat
    else if decide (vs_OperatorKey s = le_NewPublicKey ev) then fail r ErrKeyEpochRegression
    else
      let s1 := set_PendingRotation (Some (mkPendingRotation (le_EventID ev) (le_NewPublicKey ev)
                  (le_RequestedAt ev) (le_EffectiveAfter ev))) s in
      let s2 := push_key (le_NewPublicKey ev) ev (set_OperatorKey (le_NewPublicKey ev) s1) in
      ok (commit (le_SeatID ev) (set_PendingRotation None s2) r)).

Definition applyRecoveryRotateCancel (ev : LifecycleEvent) (r : Reducer) : Step :=
  with_seat (le_SeatID ev) r (λ s,
    if decide (vs_RecoveryKey s = "") then fail r ErrNoRecoveryKey
    else if decide (le_RecoveryKey ev ≠ vs_RecoveryKey s) then fail r ErrRecoveryKeyMismatch
    else match vs_PendingRotation s with
    | None => fail r ErrNoPendingRotation
    | Some p =>
        if decide (RequestEventID p ≠ le_RotationEventID ev) then fail r ErrRotationEventMismatch
        else ok (put_seat (le_SeatID ev) (set_PendingRotation None s) r)
    end).

(** [Apply]: the dispatch on the event kind. *)
Definition Apply (ev : LifecycleEvent) (r : Reducer) : Step :=
  match le_Kind ev with
  | EventJoin => applyJoin ev r
  | EventActivate => applyActivate ev r
  | EventSuspend => applySuspend ev r
  | EventReinstate => applyReinstate ev r
  | EventBeginCooldown => applyBeginCooldown ev r
  | EventExit => applyExit ev r
  | EventExclude => applyExclude ev r
  | EventRotateKey => applyRotateKey ev r
  | EventStakeUpdate => applyStakeUpdate ev r
  | EventSlash => applySlash ev r
  | EventRecoveryKeySet => applyRecoveryKeySet ev r
  | EventEmergencySuspend => applyEmergencySuspend ev r
  | EventRecoveryRotate => applyRecoveryRotate ev r
  | EventRecoveryRotateCancel => applyRecoveryRotateCancel ev r
  | EventOther _ => fail r ErrUnsupportedEvent
  end.

Definition Version (r : Reducer) : Z := version r.

Definition Seat (r : Reducer) (id : ValidatorID) : option ValidatorSeat := seats r !! id.

(** The scan of [SeatByOperatorKey], in the iteration order of the map. *)
Definition SeatByOperatorKey (order : list (ValidatorID * ValidatorSeat)) (key : AgentID) :
    option ValidatorSeat :=
  head (filter (λ s, vs_OperatorKey s = key) order.*2).

(** [sortValidatorIDs]: the insertion sort on byte order. *)
Fixpoint insert_id (x : ValidatorID) (ids : list ValidatorID) : list ValidatorID :=
  match ids with
  | [] => [x]
  | y :: ids' => if go_string_ltb x y then x :: ids else y :: insert_id x ids'
  end.

Definition sortValidatorIDs (ids : list ValidatorID) : list ValidatorID :=
  foldl (λ acc x, insert_id x acc) [] ids.

Definition AllSeats (order : list ValidatorID) (r : Reducer) : list ValidatorSeat :=
  omap (λ id, seats r !! id) (sortValidatorIDs order).

Definition SeatCount (r : Reducer) : Z := Z.of_nat (size (seats r)).

(** * Invariants *)

(** The event's fields have their Go types. *)
Record event_ok (ev : LifecycleEvent) : Prop := {
  eo_stake : is_u64 (le_StakeAmount ev);
  eo_slash : is_u64 (le_SlashAmount ev);
  eo_ts : is_u64 (le_CausalTS ev);
  eo_cooldown : is_u64 (le_CooldownDuration ev);
}.

(** The key history is the sequence of epochs 1, 2, ..., n, its last key being the
    operator's. *)
Record keys_ok (s : ValidatorSeat) : Prop := {
  ko_epochs : Epoch <$> vs_KeyHistory s = seqZ 1 (Z.of_nat (length (vs_KeyHistory s)));
  ko_nonempty : vs_KeyHistory s ≠ [];
  ko_current : PublicKey (CurrentKeyEpoch s) = vs_OperatorKey s;
}.

(** What holds of every seat, in a validator set at version [v]. *)
Record seat_core (v : Z) (id : ValidatorID) (s : ValidatorSeat) : Prop := {
  sc_id : vs_ID s = id;
  sc_weight : IsParticipating (vs_Status s) = false → vs_Weight s = 0;
  sc_stake : 0 <= vs_Weight s <= vs_StakeAmount s;
  sc_stake_u64 : vs_StakeAmount s < u64_mod;
  sc_keys : keys_ok s;
  sc_history : Z.of_nat (length (vs_KeyHistory s)) <= v;
  sc_pending : vs_PendingRotation s = None;
}.

Record red_inv (r : Reducer) : Prop := {
  ri_version : 0 <= version r;
  ri_seats : map_Forall (seat_core (version r)) (seats r);
  ri_effective : map_Forall (λ _ s, 0 <= vs_EffectiveFromVersion s <= version r) (seats r);
}.

Lemma seat_core_mono v v' id s : v <= v' → seat_core v id s → seat_core v' id s.
Proof. intros ? []. split; try done. lia. Qed.

Lemma nextVersion_succ r : 0 <= version r < MaxUint64 → nextVersion r = version r + 1.
Proof. intros. apply u64_small. unfold is_u64, u64_mod, MaxUint64 in *. lia. Qed.

Lemma inv_commit r id s :
  red_inv r → version r < MaxUint64 → seat_core (version r + 1) id s → red_inv (commit id s r).
Proof.
  intros [Hv Hs He] Hlt Hc. unfold commit. rewrite nextVersion_succ by done.
  split; simpl; [lia| |].
  - apply map_Forall_insert_2; [by destruct Hc, sc_keys0; split; try done|].
    intros j x Hj. apply (seat_core_mono (version r)); [lia|by apply Hs].
  - apply map_Forall_insert_2; [simpl; lia|]. intros j x Hj. specialize (He j x Hj). simpl in He. lia.
Qed.

Lemma inv_put_seat r id s :
  red_inv r → seat_core (version r) id s → 0 <= vs_EffectiveFromVersion s <= version r →
  red_inv (put_seat id s r).
Proof. intros [Hv Hs He] Hc Heff. split; simpl; [done|by apply map_Forall_insert_2..]. Qed.

Lemma seqZ_snoc n : 0 <= n → seqZ 1 (n + 1) = seqZ 1 n ++ [n + 1].
Proof.
  intros Hn. rewrite seqZ_app by lia. f_equal. rewrite seqZ_cons, seqZ_nil by lia.
  f_equal. lia.
Qed.

Lemma keys_ok_last s : keys_ok s →
  Epoch (CurrentKeyEpoch s) = Z.of_nat (length (vs_KeyHistory s)).
Proof.
  intros [He Hne _]. unfold CurrentKeyEpoch.
  destruct (vs_KeyHistory s) as [|k ks] using rev_ind; [done|]. clear IHks.
  rewrite last_snoc. simpl. rewrite fmap_app, length_app in He. simpl in He.
  rewrite Nat2Z.inj_add in He. change (Z.of_nat 1) with 1 in He. rewrite seqZ_snoc in He by lia.
  apply app_inj_2 in He as [_ He]; [|done]. injection He as He. rewrite length_app. simpl. lia.
Qed.

Lemma keys_ok_push key ev s :
  keys_ok s → Z.of_nat (length (vs_KeyHistory s)) < MaxUint64 → vs_OperatorKey s = key →
  (Epoch <$> vs_KeyHistory (push_key key ev s)
     = seqZ 1 (Z.of_nat (length (vs_KeyHistory (push_key key ev s)))))
  ∧ vs_KeyHistory (push_key key ev s) ≠ []
  ∧ PublicKey (CurrentKeyEpoch (push_key key ev s)) = key
  ∧ Z.of_nat (length (vs_KeyHistory (push_key key ev s))) = Z.of_nat (length (vs_KeyHistory s)) + 1.
Proof.
  intros HK Hlt Hop. unfold push_key. simpl.
  rewrite (keys_ok_last s HK). destruct HK as [He Hne Hc].
  rewrite u64_small by (unfold is_u64, u64_mod, MaxUint64 in *; lia).
  assert (Z.of_nat (length (vs_KeyHistory s ++ [mkKeyEpoch (Z.of_nat (length (vs_KeyHistory s)) + 1) key
    (le_EventID ev) (le_CausalTS ev)])) = Z.of_nat (length (vs_KeyHistory s)) + 1) as Hlen
    by (rewrite length_app; simpl; lia).
  split_and!; [|by intros ?%app_eq_nil%proj2| |done].
  - rewrite Hlen, fmap_app, He, seqZ_snoc by lia. done.
  - unfold CurrentKeyEpoch. simpl. by rewrite last_snoc.
Qed.

(** Statuses allowed by the transition table, as equations. *)
Lemma CanTransitionTo_in s t : CanTransitionTo s t = true ↔ t ∈ seatTransitions s.
Proof. apply bool_decide_eq_true. Qed.

Ltac status_cases :=
  repeat match goal with
  | H : negb _ = false |- _ => apply negb_false_iff in H
  | H : negb _ = true |- _ => apply negb_true_iff in H
  | H : CanTransitionTo ?s _ = _ |- _ => destruct s eqn:?; vm_compute in H; try discriminate H; clear H
  | H : IsTerminal ?s = _ |- _ => destruct s eqn:?; vm_compute in H; try discriminate H; clear H
  end.

(** Decides the status-dependent clauses of [seat_core]. *)
Ltac seat_solve :=
  split; simpl; try done; try lia; try (split; simpl; done).

Lemma with_seat_inv id r (k : ValidatorSeat → Step) :
  red_inv r →
  (∀ s, seats r !! id = Some s → seat_core (version r) id s →
     0 <= vs_EffectiveFromVersion s <= version r → red_inv (k s).1) →
  red_inv (with_seat id r k).1.
Proof.
  intros Hr Hk. unfold with_seat. destruct (seats r !! id) as [s|] eqn:Hs; [|done].
  apply Hk; [done|exact (ri_seats r Hr id s Hs)|exact (ri_effective r Hr id s Hs)].
Qed.

(** A seat whose status, weight and stake are rewritten keeps the rest. *)
Lemma core_update v v' id s s' :
  seat_core v id s → v <= v' →
  vs_ID s' = vs_ID s → vs_KeyHistory s' = vs_KeyHistory s → vs_OperatorKey s' = vs_OperatorKey s →
  vs_PendingRotation s' = None →
  (IsParticipating (vs_Status s') = false → vs_Weight s' = 0) →
  0 <= vs_Weight s' <= vs_StakeAmount s' → vs_StakeAmount s' < u64_mod →
  seat_core v' id s'.
Proof.
  intros [? ? ? ? [Hk1 Hk2 Hk3] ? ?] Hv Hid Hkh Hop Hp Hw Hb Hs. split; try done; try congruence.
  - split; unfold CurrentKeyEpoch in *; rewrite ?Hkh, ?Hop; done.
  - rewrite Hkh. lia.
Qed.

Lemma core_push v id s s0 key ev :
  seat_core v id s → v < MaxUint64 → vs_KeyHistory s0 = vs_KeyHistory s → vs_OperatorKey s0 = key →
  keys_ok (push_key key ev s0) ∧ Z.of_nat (length (vs_KeyHistory (push_key key ev s0))) <= v + 1.
Proof.
  intros Hc Hv Hkh Hop. destruct Hc as [_ _ _ _ [Hk1 Hk2 Hk3] Hlen _].
  set (s1 := set_OperatorKey (PublicKey (CurrentKeyEpoch s0)) s0).
  assert (keys_ok s1) as HK1.
  { split; unfold s1, CurrentKeyEpoch; simpl; rewrite ?Hkh; done. }
  destruct (keys_ok_push (PublicKey (CurrentKeyEpoch s0)) ev s1 HK1) as (P1 & P2 & _ & P4);
    [simpl; rewrite Hkh; lia|done|].
  assert (vs_KeyHistory (push_key key ev s0) ≠ []) as Hne by (simpl; by intros ?%app_eq_nil%proj2).
  assert (length (vs_KeyHistory (push_key key ev s0))
    = length (vs_KeyHistory (push_key (PublicKey (CurrentKeyEpoch s0)) ev s1))) as Hl
    by (simpl; by rewrite !length_app).
  split; [split; [|done|]|].
  - rewrite Hl, <- P1. simpl. by rewrite !fmap_app.
  - unfold CurrentKeyEpoch, push_key. simpl. rewrite last_snoc. simpl. done.
  - rewrite Hl, P4. simpl. rewrite Hkh. lia.
Qed.

(** ** Every event preserves the invariant *)

(** Handlers that only rewrite the status, weight, stake and bookkeeping fields. *)
Ltac commit_core Hc :=
  simpl; apply inv_commit; [done|done|];
  eapply core_update; [exact Hc|lia|done|done|done|by destruct Hc| |
    destruct Hc; simpl in *; try lia; eauto with lia |destruct Hc; simpl in *; try lia].

Section preservation.
Variables (ev : LifecycleEvent) (r : Reducer).
Hypothesis Hr : red_inv r.
Hypothesis Hlt : version r < MaxUint64.
Hypothesis Hev : event_ok ev.

Lemma inv_simple s (s' : ValidatorSeat) :
  seat_core (version r) (le_SeatID ev) s →
  vs_ID s' = vs_ID s → vs_KeyHistory s' = vs_KeyHistory s → vs_OperatorKey s' = vs_OperatorKey s →
  vs_PendingRotation s' = vs_PendingRotation s →
  (IsParticipating (vs_Status s') = false → vs_Weight s' = 0) →
  0 <= vs_Weight s' <= vs_StakeAmount s' → vs_StakeAmount s' < u64_mod →
  red_inv (commit (le_SeatID ev) s' r).
Proof using Hr Hlt.
  intros Hc ? ? ? Hp ? ? ?. apply inv_commit; [done|done|].
  eapply core_update; try done; [lia|]. rewrite Hp. apply Hc.
Qed.

Lemma inv_applyJoin : red_inv (applyJoin ev r).1.
Proof using Hr Hlt Hev.
  unfold applyJoin. pose proof (eo_stake _ Hev) as Hst. unfold is_u64 in Hst.
  destruct (decide (le_OperatorKey ev = "")); [done|]. destruct (decide (_ ∧ _)); [done|].
  set (id := if decide _ then _ else _). clearbody id.
  destruct (seats r !! id) as [s|] eqn:Hs.
  - case_decide as Hx; [done|]. destruct (negb _); [done|]. simpl.
    pose proof (ri_seats r Hr id s Hs) as Hc. simpl in Hc.
    assert (vs_Status s = SeatExited) as Hex by (by destruct (decide (vs_Status s = SeatExited))).
    assert (vs_Weight s = 0) as Hw by (apply Hc; by rewrite Hex).
    apply inv_commit; [done|done|].
    destruct (core_push (version r) id s
      (set_StakeAmount (le_StakeAmount ev) (set_OperatorKey (le_OperatorKey ev) (set_Status SeatPendingJoin s)))
      (le_OperatorKey ev) ev Hc Hlt eq_refl eq_refl) as [Hk Hl].
    destruct Hc. split; simpl; try done; try (rewrite Hw; lia); try lia; destruct Hk; by split.
  - simpl. apply inv_commit; [done|done|]. pose proof (ri_version r Hr).
    split; simpl; try done; try lia; by split.
Qed.

Lemma inv_applyActivate : red_inv (applyActivate ev r).1.
Proof using Hr Hlt.
  apply with_seat_inv; [done|]. intros s _ Hc _. destruct (negb _); [done|].
  eapply inv_simple; try done; simpl; destruct Hc; lia.
Qed.

Lemma inv_suspend reason s : seat_core (version r) (le_SeatID ev) s →
  red_inv (commit (le_SeatID ev) (suspend_seat reason s) r).
Proof using Hr Hlt. intros Hc. eapply inv_simple; try done; simpl; destruct Hc; lia. Qed.

Lemma inv_applySuspend : red_inv (applySuspend ev r).1.
Proof using Hr Hlt.
  apply with_seat_inv; [done|]. intros s _ Hc _. destruct (negb _); [done|]. by apply inv_suspend.
Qed.

Lemma inv_applyReinstate : red_inv (applyReinstate ev r).1.
Proof using Hr Hlt.
  apply with_seat_inv; [done|]. intros s _ Hc _. destruct (negb _); [done|].
  destruct (_ && _); [done|]. eapply inv_simple; try done; simpl; destruct Hc; try lia.
  split; [apply Z.div_pos; lia|apply Z.div_le_upper_bound; lia].
Qed.

Lemma inv_applyBeginCooldown : red_inv (applyBeginCooldown ev r).1.
Proof using Hr Hlt.
  apply with_seat_inv; [done|]. intros s _ Hc _. destruct (negb _); [done|].
  eapply inv_simple; try done; simpl; destruct Hc; lia.
Qed.

Lemma inv_applyExit : red_inv (applyExit ev r).1.
Proof using Hr Hlt.
  apply with_seat_inv; [done|]. intros s _ Hc _. destruct (negb _); [done|].
  destruct (_ && _); [done|]. eapply inv_simple; try done; simpl; destruct Hc; lia.
Qed.

Lemma inv_applyExclude : red_inv (applyExclude ev r).1.
Proof using Hr Hlt.
  apply with_seat_inv; [done|]. intros s _ Hc _. repeat case_decide; try done. destruct (negb _); [done|].
  eapply inv_simple; try done; simpl; destruct Hc; lia.
Qed.

(** The two rotations share the push of a new key epoch. *)
Lemma inv_rotate key s : seat_core (version r) (le_SeatID ev) s →
  red_inv (commit (le_SeatID ev) (set_PendingRotation None (push_key key ev (set_OperatorKey key s))) r).
Proof using Hr Hlt.
  intros Hc. apply inv_commit; [done|done|].
  destruct (core_push (version r) (le_SeatID ev) s (set_OperatorKey key s) key ev Hc Hlt eq_refl eq_refl)
    as [Hk Hl].
  destruct Hc. split; simpl; try done. destruct Hk. by split.
Qed.

Lemma inv_applyRotateKey : red_inv (applyRotateKey ev r).1.
Proof using Hr Hlt.
  unfold applyRotateKey. case_decide; [done|].
  apply with_seat_inv; [done|]. intros s _ Hc _. destruct (IsTerminal _); [done|].
  repeat (case_decide; [done|]). pose proof (inv_rotate (le_OperatorKey ev) s Hc) as Hrot.
  simpl. replace (push_key (le_OperatorKey ev) ev (set_OperatorKey (le_OperatorKey ev) s))
    with (set_PendingRotation None (push_key (le_OperatorKey ev) ev (set_OperatorKey (le_OperatorKey ev) s)));
    [done|]. pose proof (sc_pending _ _ _ Hc) as Hp. destruct s. simpl in *. by subst.
Qed.

Lemma inv_applyStakeUpdate : red_inv (applyStakeUpdate ev r).1.
Proof using Hr Hlt Hev.
  apply with_seat_inv; [done|]. intros s _ Hc _. destruct (IsTerminal _); [done|].
  pose proof (eo_stake _ Hev) as Hst. unfold is_u64 in Hst. simpl.
  destruct (IsParticipating (vs_Status s)) eqn:Hp; eapply inv_simple; try done; simpl.
  - by rewrite Hp.
  - lia.
  - lia.
  - intros _. by apply Hc.
  - rewrite (sc_weight _ _ _ Hc Hp). lia.
  - lia.
Qed.

Lemma inv_applySlash : red_inv (applySlash ev r).1.
Proof using Hr Hlt Hev.
  apply with_seat_inv; [done|]. intros s _ Hc Heff.
  destruct (IsTerminal (vs_Status s)) eqn:Hterm; [by case_decide|]. case_decide as Hle; [done|].
  pose proof (eo_slash _ Hev) as Hsl. unfold is_u64 in Hsl.
  pose proof Hc as [_ _ Hst Hst2 _ _ _].
  assert (u64 (vs_StakeAmount s - le_SlashAmount ev) = vs_StakeAmount s - le_SlashAmount ev) as Hu
    by (apply u64_small; unfold is_u64; lia).
  set (s1 := mark_slashed ev _).
  destruct (le_PermanentExclusion ev).
  - assert (CanTransitionTo (vs_Status s) SeatExcluded = true) as -> by (by destruct (vs_Status s)).
    simpl. eapply inv_simple; try done; simpl; rewrite ?Hu; lia.
  - destruct (CanTransitionTo (vs_Status s) SeatSuspended) eqn:Hcan; simpl.
    + case_decide; eapply inv_simple; try done; simpl; rewrite ?Hu; lia.
    + assert (vs_Weight s = 0) as Hw by (apply Hc; by destruct (vs_Status s)).
      apply inv_put_seat; [done| |done].
      eapply core_update; try done; try (by apply Hc); simpl; rewrite ?Hu; lia.
Qed.

Lemma inv_applyRecoveryKeySet : red_inv (applyRecoveryKeySet ev r).1.
Proof using Hr.
  unfold applyRecoveryKeySet. case_decide; [done|].
  apply with_seat_inv; [done|]. intros s _ Hc Heff. destruct (IsTerminal _); [done|].
  apply inv_put_seat; [done| |done]. eapply core_update; try done; by apply Hc.
Qed.

Lemma inv_applyEmergencySuspend : red_inv (applyEmergencySuspend ev r).1.
Proof using Hr Hlt.
  apply with_seat_inv; [done|]. intros s _ Hc _. repeat (case_decide; [done|]).
  destruct (negb _); [done|]. by apply inv_suspend.
Qed.

Lemma inv_applyRecoveryRotate : red_inv (applyRecoveryRotate ev r).1.
Proof using Hr Hlt.
  unfold applyRecoveryRotate. case_decide; [done|].
  apply with_seat_inv; [done|]. intros s _ Hc _. repeat (case_decide; [done|]).
  destruct (IsTerminal _); [done|]. case_decide; [done|]. apply (inv_rotate (le_NewPublicKey ev) s Hc).
Qed.

(** No rotation is ever pending, so there is never one to cancel. *)
Lemma cancel_never : (applyRecoveryRotateCancel ev r).1 = r
  ∧ (applyRecoveryRotateCancel ev r).2 ≠ None.
Proof using Hr.
  unfold applyRecoveryRotateCancel, with_seat. destruct (seats r !! _) as [s|] eqn:Hs; [|done].
  pose proof (sc_pending _ _ _ (ri_seats r Hr _ s Hs)) as Hp. simpl in Hp.
  repeat (case_decide; [done|]). by rewrite Hp.
Qed.

Lemma inv_Apply : red_inv (Apply ev r).1.
Proof using Hr Hlt Hev.
  unfold Apply. destruct (le_Kind ev).
  - apply inv_applyJoin.
  - apply inv_applyActivate.
  - apply inv_applySuspend.
  - apply inv_applyReinstate.
  - apply inv_applyBeginCooldown.
  - apply inv_applyExit.
  - apply inv_applyExclude.
  - apply inv_applyRotateKey.
  - apply inv_applyStakeUpdate.
  - apply inv_applySlash.
  - apply inv_applyRecoveryKeySet.
  - apply inv_applyEmergencySuspend.
  - apply inv_applyRecoveryRotate.
  - by rewrite (proj1 cancel_never).
  - done.
Qed.

End preservation.

(** * Replay *)

(** Applying the lifecycle events of a DAG in causal order; a rejected event is
    skipped. *)
Definition replay (evs : list LifecycleEvent) (r : Reducer) : Reducer :=
  foldl (λ r ev, (Apply ev r).1) r evs.

(** What a handler may do to a reducer: nothing; commit the target seat; or
    rewrite it in place. *)
Inductive handled (id : ValidatorID) (r : Reducer) : Reducer → Prop :=
  | handled_same : handled id r r
  | handled_commit s : handled id r (commit id s r)
  | handled_put s : handled id r (put_seat id s r).

(** How a handler may change the seat it targets. *)
Definition seat_moves (old : option ValidatorSeat) (s' : ValidatorSeat) : Prop :=
  match old with
  | None => vs_Status s' = SeatPendingJoin
  | Some s => vs_Status s' = vs_Status s ∨ CanTransitionTo (vs_Status s) (vs_Status s') = true
  end.

(** The outcome of every handler: only one seat changes, along the transition
    table, and the version advances by one or not at all. *)
Definition good_step (r : Reducer) (r' : Reducer) : Prop :=
  ∃ id, (∀ j, j ≠ id → seats r' !! j = seats r !! j)
    ∧ (seats r' !! id = seats r !! id ∨ ∃ s', seats r' !! id = Some s' ∧ seat_moves (seats r !! id) s')
    ∧ (version r' = version r ∨ version r' = nextVersion r).

Lemma good_refl r : good_step r r.
Proof. exists "". auto. Qed.

Lemma good_commit id s r : seat_moves (seats r !! id) s → good_step r (commit id s r).
Proof.
  intros Hm. exists id. simpl. split_and!; [intros; by rewrite lookup_insert_ne| |by right].
  right. rewrite lookup_insert_eq. eexists. split; [done|].
  unfold seat_moves in *. by destruct (seats r !! id).
Qed.

Lemma good_put id s r : seat_moves (seats r !! id) s → good_step r (put_seat id s r).
Proof.
  intros Hm. exists id. simpl. split_and!; [intros; by rewrite lookup_insert_ne| |by left].
  right. rewrite lookup_insert_eq. eauto.
Qed.

(** Closes the goal left by one branch of a handler. *)
Ltac good_branch Hs :=
  simpl; first [apply good_refl
    | apply good_commit; rewrite Hs; simpl; first [by left | right; by apply negb_false_iff]
    | apply good_put; rewrite Hs; simpl; by left].

Lemma Apply_good ev r : good_step r (Apply ev r).1.
Proof.
  unfold Apply. destruct (le_Kind ev); [| | | | | | | | | | | | | |apply good_refl].
  - unfold applyJoin. destruct (decide _); [apply good_refl|]. destruct (decide _); [apply good_refl|].
    set (id := if decide _ then _ else _). clearbody id.
    destruct (seats r !! id) as [s|] eqn:Hs.
    + destruct (decide _); [apply good_refl|]. destruct (negb _) eqn:Hc; [apply good_refl|]. good_branch Hs.
    + simpl. apply good_commit. by rewrite Hs.
  - unfold applyActivate, with_seat. destruct (seats r !! _) as [s|] eqn:Hs; [|apply good_refl].
    destruct (negb _) eqn:Hc; good_branch Hs.
  - unfold applySuspend, with_seat. destruct (seats r !! _) as [s|] eqn:Hs; [|apply good_refl].
    destruct (negb _) eqn:Hc; good_branch Hs.
  - unfold applyReinstate, with_seat. destruct (seats r !! _) as [s|] eqn:Hs; [|apply good_refl].
    destruct (negb _) eqn:Hc; [|destruct (_ && _)]; good_branch Hs.
  - unfold applyBeginCooldown, with_seat. destruct (seats r !! _) as [s|] eqn:Hs; [|apply good_refl].
    destruct (negb _) eqn:Hc; good_branch Hs.
  - unfold applyExit, with_seat. destruct (seats r !! _) as [s|] eqn:Hs; [|apply good_refl].
    destruct (negb _) eqn:Hc; [|destruct (_ && _)]; good_branch Hs.
  - unfold applyExclude, with_seat. destruct (seats r !! _) as [s|] eqn:Hs; [|apply good_refl].
    destruct (decide _); [apply good_refl|]. destruct (decide _); [apply good_refl|].
    destruct (negb _) eqn:Hc; good_branch Hs.
  - unfold applyRotateKey, with_seat. destruct (decide _); [apply good_refl|].
    destruct (seats r !! _) as [s|] eqn:Hs; [|apply good_refl]. destruct (IsTerminal _); [apply good_refl|].
    destruct (decide _); [apply good_refl|]. destruct (decide _); good_branch Hs.
  - unfold applyStakeUpdate, with_seat. destruct (seats r !! _) as [s|] eqn:Hs; [|apply good_refl].
    destruct (IsTerminal _); [apply good_refl|]. destruct (IsParticipating _); good_branch Hs.
  - unfold applySlash, with_seat. destruct (seats r !! _) as [s|] eqn:Hs; [|apply good_refl].
    destruct (IsTerminal _); [destruct (decide _); apply good_refl|].
    destruct (decide (le_SlashAmount ev > _)); [apply good_refl|]. destruct (le_PermanentExclusion ev);
      destruct (negb _) eqn:Hc; try (destruct (decide (le_CooldownDuration ev > 0))); good_branch Hs.
  - unfold applyRecoveryKeySet, with_seat. destruct (decide _); [apply good_refl|].
    destruct (seats r !! _) as [s|] eqn:Hs; [|apply good_refl]. destruct (IsTerminal _); good_branch Hs.
  - unfold applyEmergencySuspend, with_seat. destruct (seats r !! _) as [s|] eqn:Hs; [|apply good_refl].
    destruct (decide _); [apply good_refl|]. destruct (decide _); [apply good_refl|].
    destruct (negb _) eqn:Hc; good_branch Hs.
  - unfold applyRecoveryRotate, with_seat. destruct (decide _); [apply good_refl|].
    destruct (seats r !! _) as [s|] eqn:Hs; [|apply good_refl].
    destruct (decide _); [apply good_refl|]. destruct (decide _); [apply good_refl|].
    destruct (IsTerminal _); [apply good_refl|]. destruct (decide _); good_branch Hs.
  - unfold applyRecoveryRotateCancel, with_seat. destruct (seats r !! _) as [s|] eqn:Hs; [|apply good_refl].
    destruct (decide _); [apply good_refl|]. destruct (decide _); [apply good_refl|].
    destruct (vs_PendingRotation s); [|apply good_refl]. destruct (decide _); good_branch Hs.
Qed.

Lemma replay_inv evs r :
  red_inv r → version r + Z.of_nat (length evs) <= MaxUint64 → Forall event_ok evs →
  red_inv (replay evs r) ∧ version r <= version (replay evs r) <= version r + Z.of_nat (length evs).
Proof.
  revert r. induction evs as [|ev evs IH]; intros r Hr Hlen Hok; simpl in *; [split; [done|lia]|].
  apply Forall_cons in Hok as [He Hok].
  pose proof (inv_Apply ev r Hr ltac:(lia) He) as Hr1.
  destruct (Apply_good ev r) as (id & _ & _ & Hv).
  rewrite nextVersion_succ in Hv by (pose proof (ri_version r Hr); lia).
  destruct (IH (Apply ev r).1 Hr1) as [Hr2 Hv2]; [lia|done|]. split; [done|]. unfold replay in *. lia.
Qed.

Lemma inv_empty : red_inv NewReducer.
Proof. split; simpl; [lia|apply map_Forall_empty..]. Qed.

(** * Properties *)

(** The seats of a replayed validator set.  Whatever events are replayed, in
    any order, accepted or rejected: a seat votes with weight zero unless it is
    participating, and never with more than its stake; no seat takes effect
    after the current version; its key history is exactly the epochs 1, 2, ..., n
    and ends with the current operator key; and no recovery rotation is ever
    left pending. *)
Theorem red_seats_wellformed evs id s :
  Forall event_ok evs → Z.of_nat (length evs) <= MaxUint64 →
  let r := replay evs NewReducer in
  Seat r id = Some s →
  vs_ID s = id
  ∧ (IsParticipating (vs_Status s) = false → vs_Weight s = 0)
  ∧ 0 <= vs_Weight s <= vs_StakeAmount s
  ∧ 0 <= vs_EffectiveFromVersion s <= Version r ∧ Version r <= Z.of_nat (length evs)
  ∧ (∃ n, Epoch <$> vs_KeyHistory s = seqZ 1 n ∧ 1 <= n ∧ Epoch (CurrentKeyEpoch s) = n)
  ∧ PublicKey (CurrentKeyEpoch s) = vs_OperatorKey s
  ∧ HasPendingRotation s = false.
Proof.
  intros Hok Hlen r Hs.
  destruct (replay_inv evs NewReducer inv_empty Hlen Hok) as [Hr Hv]. fold r in Hr, Hv.
  pose proof (ri_seats r Hr id s Hs) as Hc. pose proof (ri_effective r Hr id s Hs) as He. simpl in He.
  destruct Hc as [Hid Hw Hst _ Hk Hl Hp]. simpl in Hv. unfold Version.
  do 3 (split; [assumption|]). do 2 (split; [lia|]).
  split; [|split; [apply Hk|unfold HasPendingRotation; by rewrite Hp]].
  exists (Z.of_nat (length (vs_KeyHistory s))). split_and!; [apply Hk| |by apply keys_ok_last].
  destruct Hk as [_ Hne _]. destruct (vs_KeyHistory s); [done|]. simpl. lia.
Qed.

(** The lifecycle is the transition table.  An event changes at most the one
    seat it targets; that seat's status stays or moves along [validTransitions];
    a new seat starts pending; no seat ever disappears; and the version advances
    by one or stays. *)
Theorem red_Apply_transitions ev r r' e :
  Apply ev r = (r', e) → version r < MaxUint64 → 0 <= version r →
  (version r' = version r ∨ version r' = version r + 1)
  ∧ (∃ id, ∀ j, j ≠ id → seats r' !! j = seats r !! j)
  ∧ (∀ j s, seats r !! j = Some s → ∃ s', seats r' !! j = Some s'
       ∧ (vs_Status s' = vs_Status s ∨ CanTransitionTo (vs_Status s) (vs_Status s') = true))
  ∧ (∀ j s', seats r !! j = None → seats r' !! j = Some s' → vs_Status s' = SeatPendingJoin).
Proof.
  intros HA Hlt H0. pose proof (Apply_good ev r) as (id & Ho & Ht & Hv). rewrite HA in *. simpl in *.
  rewrite nextVersion_succ in Hv by lia. split_and!; [done|by exists id| |].
  - intros j s Hs. destruct (decide (j = id)) as [->|Hne]; [|rewrite Ho by done; eauto].
    destruct Ht as [->|(s' & -> & Hm)]; [eauto|]. rewrite Hs in Hm. eauto.
  - intros j s' Hn Hs'. destruct (decide (j = id)) as [->|Hne]; [|rewrite Ho in Hs' by done; congruence].
    destruct Ht as [Ht|(s2 & Hs2 & Hm)]; [congruence|]. rewrite Hn in Hm. congruence.
Qed.

(** A handler leaves the seats it does not target alone. *)
Ltac other_seat :=
  intros; repeat case_match; simpl; rewrite ?lookup_insert_ne by done; done.

Lemma excluded_step ev r s x :
  red_inv r → seats r !! s = Some x → vs_Status x = SeatExcluded →
  seats (Apply ev r).1 !! s = Some x.
Proof.
  intros Hr Hx Hex.
  assert (∀ id k, (id = s → (k x).1 = r) → (∀ y, id ≠ s → seats (k y).1 !! s = seats r !! s) →
    seats (with_seat id r k).1 !! s = Some x) as Hws.
  { intros id k Hk1 Hk2. unfold with_seat. destruct (decide (id = s)) as [->|Hne].
    - rewrite Hx. by rewrite Hk1.
    - destruct (seats r !! id); simpl; [|done]. by rewrite Hk2. }
  pose proof (sc_pending _ _ _ (ri_seats r Hr s x Hx)) as Hp. simpl in Hp.
  unfold Apply. destruct (le_Kind ev); [| | | | | | | | | | | | | |done].
  - unfold applyJoin. destruct (decide _); [done|]. destruct (decide _); [done|].
    set (id := if decide _ then _ else _). clearbody id.
    destruct (decide (id = s)) as [->|Hne].
    + rewrite Hx, Hex. done.
    + unfold fail, ok. destruct (seats r !! id); repeat case_match; simpl; rewrite ?lookup_insert_ne by done; done.
  - apply Hws; [intros _; by rewrite Hex|other_seat].
  - apply Hws; [intros _; by rewrite Hex|other_seat].
  - apply Hws; [intros _; by rewrite Hex|other_seat].
  - apply Hws; [intros _; by rewrite Hex|other_seat].
  - apply Hws; [intros _; by rewrite Hex|other_seat].
  - apply Hws; [intros _; by rewrite Hex|other_seat].
  - unfold applyRotateKey. destruct (decide _); [done|].
    apply Hws; [intros _; by rewrite Hex|other_seat].
  - apply Hws; [intros _; by rewrite Hex|other_seat].
  - apply Hws; [intros _; by rewrite Hex|other_seat].
  - unfold applyRecoveryKeySet. destruct (decide _); [done|].
    apply Hws; [intros _; by rewrite Hex|other_seat].
  - apply Hws; [intros _; rewrite Hex; by repeat case_decide|other_seat].
  - unfold applyRecoveryRotate. destruct (decide _); [done|].
    apply Hws; [intros _; rewrite Hex; by repeat case_decide|other_seat].
  - apply Hws; [intros _; rewrite Hp; by repeat case_decide|other_seat].
Qed.

(** Exclusion is permanent.  Once a seat is excluded no further sequence of
    events changes it in any field: not its status, stake, weight, keys or
    recovery authority. *)
Theorem red_excluded_forever evs evs' id s :
  Forall event_ok evs → Forall event_ok evs' →
  Z.of_nat (length evs) + Z.of_nat (length evs') <= MaxUint64 →
  Seat (replay evs NewReducer) id = Some s → vs_Status s = SeatExcluded →
  Seat (replay evs' (replay evs NewReducer)) id = Some s.
Proof.
  intros Hok Hok' Hlen Hs Hex.
  destruct (replay_inv evs NewReducer inv_empty) as [Hr Hv]; [simpl; lia|done|]. simpl in Hv.
  revert Hr Hv Hs Hlen Hok'. generalize (replay evs NewReducer). 
  assert (∀ evs' r n, red_inv r → version r <= n → n + Z.of_nat (length evs') <= MaxUint64 →
    Forall event_ok evs' → seats r !! id = Some s → seats (replay evs' r) !! id = Some s) as Hall.
  { clear - Hex. intros evs. induction evs as [|ev evs IH]; intros r n Hr Hv Hlen Hok Hs; simpl in *; [done|].
    apply Forall_cons in Hok as [He Hok]. pose proof (ri_version r Hr).
    destruct (Apply_good ev r) as (_ & _ & _ & Hv').
    rewrite nextVersion_succ in Hv' by lia.
    apply (IH _ (n + 1)); [apply inv_Apply; done || lia|lia|lia|done|].
    by apply excluded_step. }
  intros r Hr Hv Hs Hlen Hok'. by eapply (Hall evs' r (Z.of_nat (length evs))); try lia.
Qed.

(** Errors leave the validator set unchanged, with one exception: a
    non-permanent slash of a seat that cannot be suspended (pending, already
    suspended or cooling down) is rejected after the stake has been reduced and
    the slash counted, and the version does not move. *)
Theorem red_Apply_errors ev r r' e :
  Apply ev r = (r', Some e) →
  r' = r
  ∨ (le_Kind ev = EventSlash ∧ e = ErrInvalidSeatTransition ∧ le_PermanentExclusion ev = false
     ∧ ∃ s, seats r !! le_SeatID ev = Some s
       ∧ vs_Status s ∈ [SeatPendingJoin; SeatSuspended; SeatCoolingDown]
       ∧ r' = put_seat (le_SeatID ev) (mark_slashed ev
                (set_StakeAmount (u64 (vs_StakeAmount s - le_SlashAmount ev)) s)) r).
Proof.
  unfold Apply. destruct (le_Kind ev) eqn:Hk;
    try (unfold applyJoin, applyActivate, applySuspend, applyReinstate, applyBeginCooldown, applyExit,
           applyExclude, applyRotateKey, applyStakeUpdate, applyRecoveryKeySet, applyEmergencySuspend,
           applyRecoveryRotate, applyRecoveryRotateCancel, with_seat, fail, ok;
         intros Hs; left; repeat (case_match; simplify_eq; try done); done).
  2: { intros [= <- <-]. by left. }
  unfold applySlash, with_seat. destruct (seats r !! _) as [s|] eqn:Hs; [|intros [= <- <-]; by left].
  destruct (IsTerminal (vs_Status s)) eqn:Ht.
  { destruct (decide _); intros [= <- <-]; by left. }
  destruct (decide (le_SlashAmount ev > _)); [intros [= <- <-]; by left|].
  destruct (le_PermanentExclusion ev) eqn:Hp.
  { replace (CanTransitionTo (vs_Status s) SeatExcluded) with true by (by destruct (vs_Status s)). done. }
  destruct (negb _) eqn:Hc; [|done]. intros [= <- <-]. right. split_and!; try done.
  exists s. split_and!; [done| |done]. destruct (vs_Status s); vm_compute in Hc; try done; set_solver.
Qed.

(** Leaving the set waits for the cooldown, unless the event is back-dated.
    From CoolingDown, [Exit] at a causal time at or after the start succeeds
    exactly when the cooldown has elapsed; at an earlier causal time the
    elapsed time wraps around and the exit is accepted at once, for every
    cooldown shorter than 2^63. *)
Theorem red_Exit_cooldown ev r s r' e :
  seats r !! le_SeatID ev = Some s → vs_Status s = SeatCoolingDown →
  is_u64 (le_CausalTS ev) → is_u64 (vs_CooldownStartCausalTS s) → 0 <= vs_CooldownDurationEvents s →
  applyExit ev r = (r', e) →
  (vs_CooldownStartCausalTS s <= le_CausalTS ev →
     (e = None ↔ vs_CooldownDurationEvents s <= le_CausalTS ev - vs_CooldownStartCausalTS s)
     ∧ (e ≠ None → r' = r))
  ∧ (le_CausalTS ev < vs_CooldownStartCausalTS s → vs_CooldownStartCausalTS s < 2 ^ 63 →
     vs_CooldownDurationEvents s < 2 ^ 63 → e = None)
  ∧ (e = None → ∃ s', seats r' !! le_SeatID ev = Some s' ∧ vs_Status s' = SeatExited ∧ vs_Weight s' = 0).
Proof.
  intros Hs Hst Ht Hcs Hd. unfold applyExit, with_seat. rewrite Hs, Hst. simpl.
  unfold cooldown_pending. rewrite u64_sub_wrap by done. unfold is_u64 in *.
  destruct (bool_decide (vs_CooldownDurationEvents s > 0)) eqn:Hpos; simpl.
  - apply bool_decide_eq_true in Hpos. case_bool_decide as Hlt; intros [= <- <-]; simpl.
    + split_and!; [|intros Hlt2|done].
      * intros Hle. rewrite decide_True in Hlt by done. split; [|done]. split; [done|lia].
      * rewrite decide_False in Hlt by lia. unfold u64_mod in *. lia.
    + rewrite lookup_insert_eq. split_and!; [|done|eauto].
      intros Hle. rewrite decide_True in Hlt by done. split; [|done]. split; [lia|done].
  - apply bool_decide_eq_false in Hpos. intros [= <- <-]. simpl. rewrite lookup_insert_eq.
    split_and!; [|done|eauto]. intros Hle. split; [|done]. split; [lia|done].
Qed.

(** A stake update ends probation's half weight.  A reinstated seat votes with
    half its stake; a stake update, even to the same amount, gives it the full
    stake while it is still on probation. *)
Theorem red_StakeUpdate_full_weight ev ev' r s :
  seats r !! le_SeatID ev = Some s → vs_Status s = SeatSuspended →
  vs_CooldownDurationEvents s = 0 → le_SeatID ev' = le_SeatID ev →
  le_StakeAmount ev' = vs_StakeAmount s →
  let r1 := (applyReinstate ev r).1 in
  let r2 := (applyStakeUpdate ev' r1).1 in
  (∃ s1, Seat r1 (le_SeatID ev) = Some s1 ∧ vs_Status s1 = SeatProbationary
     ∧ vs_Weight s1 = vs_StakeAmount s / 2)
  ∧ (∃ s2, Seat r2 (le_SeatID ev) = Some s2 ∧ vs_Status s2 = SeatProbationary
     ∧ vs_Weight s2 = vs_StakeAmount s).
Proof.
  intros Hs Hst Hc Hid Hamt. unfold applyReinstate, with_seat. rewrite Hs, Hst. simpl.
  rewrite Hc. simpl. unfold applyStakeUpdate, with_seat, Seat. simpl. rewrite Hid, lookup_insert_eq. simpl.
  split; [by eexists|]. rewrite lookup_insert_eq. eexists. split; [done|]. by split.
Qed.

(** ** A concrete history *)

Definition demo_lev (k : LifecycleEventKind) (ts stake slash cooldown : Z) : LifecycleEvent :=
  mkLifecycleEvent k "e" ts "v1" "key1" stake "r" cooldown false "" slash false "" "" 0 0 "".

Definition demo_evs : list LifecycleEvent :=
  [demo_lev EventJoin 1 20000000000 0 0; demo_lev EventReinstate 2 0 0 0;
   demo_lev EventActivate 3 0 0 0; demo_lev EventSlash 4 0 5000000000 100].

Lemma demo_evs_ok : Forall event_ok demo_evs.
Proof. repeat constructor; by vm_compute. Qed.

Lemma red_seats_wellformed_witness :
  ∃ s, Seat (replay demo_evs NewReducer) "v1" = Some s ∧ vs_StakeAmount s = 15000000000
    ∧ 0 <= vs_Weight s <= vs_StakeAmount s.
Proof.
  destruct (Seat (replay demo_evs NewReducer) "v1") as [s|] eqn:Hs; [|by vm_compute in Hs].
  destruct (red_seats_wellformed demo_evs "v1" s demo_evs_ok ltac:(by vm_compute) Hs) as (_ & _ & Hw & _).
  exists s. split_and!; [done| |apply Hw|apply Hw]. vm_compute in Hs. by simplify_eq.
Defined.

Lemma red_Apply_transitions_witness :
  let p := Apply (demo_lev EventExclude 5 0 0 0) (replay demo_evs NewReducer) in
  version p.1 = version (replay demo_evs NewReducer) ∨ version p.1 = version (replay demo_evs NewReducer) + 1.
Proof.
  intros p.
  destruct (red_Apply_transitions (demo_lev EventExclude 5 0 0 0) (replay demo_evs NewReducer) p.1 p.2
    (surjective_pairing _)) as [Hv _]; [by vm_compute|by vm_compute|exact Hv].
Defined.

Definition demo_excluded : list LifecycleEvent := demo_evs ++ [demo_lev EventExclude 5 0 0 0].

Lemma red_excluded_forever_witness :
  ∃ s, Seat (replay demo_excluded NewReducer) "v1" = Some s
    ∧ Seat (replay demo_evs (replay demo_excluded NewReducer)) "v1" = Some s.
Proof.
  destruct (Seat (replay demo_excluded NewReducer) "v1") as [s|] eqn:Hs; [|by vm_compute in Hs].
  exists s. split; [done|].
  apply red_excluded_forever; [|apply demo_evs_ok|by vm_compute|exact Hs|].
  - apply Forall_app. split; [apply demo_evs_ok|]. repeat constructor; by vm_compute.
  - vm_compute in Hs. by simplify_eq.
Defined.

(** A second slash of the seat that the first one suspended. *)
Lemma red_Apply_errors_witness :
  let r := replay demo_evs NewReducer in
  let p := Apply (demo_lev EventSlash 6 0 5000000000 100) r in
  p.2 = Some ErrInvalidSeatTransition
  ∧ (p.1 = r ∨ le_Kind (demo_lev EventSlash 6 0 5000000000 100) = EventSlash)
  ∧ (vs_StakeAmount <$> Seat p.1 "v1") = Some 10000000000 ∧ version p.1 = version r.
Proof.
  intros r p. split; [by vm_compute|]. split; [|split; by vm_compute].
  destruct (red_Apply_errors (demo_lev EventSlash 6 0 5000000000 100) r p.1 ErrInvalidSeatTransition)
    as [H|(H & _)]; [by vm_compute|by left|by right].
Defined.

Definition demo_cooling : Reducer :=
  replay (take 3 demo_evs ++ [demo_lev EventBeginCooldown 50 0 0 1000]) NewReducer.

Lemma red_Exit_cooldown_witness :
  (applyExit (demo_lev EventExit 51 0 0 0) demo_cooling).2 = Some ErrCooldownNotElapsed
  ∧ (applyExit (demo_lev EventExit 49 0 0 0) demo_cooling).2 = None.
Proof.
  split; [by vm_compute|].
  destruct (seats demo_cooling !! "v1") as [s|] eqn:Hs; [|by vm_compute in Hs].
  assert (vs_Status s = SeatCoolingDown ∧ vs_CooldownStartCausalTS s = 50 ∧ vs_CooldownDurationEvents s = 1000)
    as (H1 & H2 & H3) by (vm_compute in Hs; by simplify_eq).
  destruct (red_Exit_cooldown (demo_lev EventExit 49 0 0 0) demo_cooling s
    (applyExit (demo_lev EventExit 49 0 0 0) demo_cooling).1
    (applyExit (demo_lev EventExit 49 0 0 0) demo_cooling).2) as (_ & Hback & _);
    [exact Hs|exact H1|by vm_compute|by rewrite H2|by rewrite H3|apply surjective_pairing|].
  apply Hback; [by rewrite H2|by rewrite H2|by rewrite H3].
Defined.

Definition demo_suspended : Reducer :=
  replay (take 3 demo_evs ++ [demo_lev EventSuspend 5 0 0 0]) NewReducer.

Lemma red_StakeUpdate_full_weight_witness :
  ∃ s2, Seat (applyStakeUpdate (demo_lev EventStakeUpdate 7 20000000000 0 0)
      (applyReinstate (demo_lev EventReinstate 6 0 0 0) demo_suspended).1).1 "v1" = Some s2
    ∧ vs_Status s2 = SeatProbationary ∧ vs_Weight s2 = 20000000000.
Proof.
  destruct (seats demo_suspended !! "v1") as [s|] eqn:Hs; [|by vm_compute in Hs].
  assert (vs_Status s = SeatSuspended ∧ vs_CooldownDurationEvents s = 0 ∧ vs_StakeAmount s = 20000000000)
    as (H1 & H2 & H3) by (vm_compute in Hs; by simplify_eq).
  destruct (red_StakeUpdate_full_weight (demo_lev EventReinstate 6 0 0 0)
    (demo_lev EventStakeUpdate 7 20000000000 0 0) demo_suspended s) as [_ (s2 & Hs2 & Hst & Hw)];
    [exact Hs|done|done|done|by rewrite H3|].
  exists s2. split_and!; [exact Hs2|done|by rewrite Hw, H3].
Defined.
