(* ===== verification/Snapshot.v ===== *)
(** internal/validatorlifecycle: snapshots (snapshot.go and the snapshot types of
    types.go), vote eligibility (eligibility.go) and committees (committee.go).

    A snapshot is a deep copy of the reducer's seats.  Scans that return at the
    first match take the iteration order of the map as a list. *)

From S2P Require Import Prelude GoStd Event Lifecycle.

Record ValidatorSnapshot := mkSnapshot {
  snap_Version : Z;
  snap_Seats : gmap ValidatorID ValidatorSeat;
  snap_TotalActiveWeight : Z;
  snap_ActiveSeatCount : Z;
  snap_Digest : string;
}.

Record CommitteeSnapshot := mkCommittee {
  cs_SnapshotVersion : Z;
  cs_RoundID : string;
  cs_Members : list ValidatorID;
  cs_MemberWeights : gmap ValidatorID Z;
  cs_TotalWeight : Z;
  cs_Digest : string;
}.

(** * snapshot.go *)

(** A seat that takes part in rounds bound to a set at [v]. *)
Definition participates (v : Z) (s : ValidatorSeat) : bool :=
  IsParticipating (vs_Status s) && bool_decide (vs_EffectiveFromVersion s <= v).

(** One iteration of the loop of [Snapshot]. *)
Definition snapshot_step (v : Z) (_ : ValidatorID) (c : ValidatorSeat) (acc : Z * Z) : Z * Z :=
  if participates v c then (u64 (acc.1 + vs_Weight c), acc.2 + 1) else acc.

Definition TakeSnapshot (r : Reducer) : ValidatorSnapshot :=
  let '(w, n) := map_fold (snapshot_step (version r)) (0, 0) (seats r) in
  mkSnapshot (version r) (seats r) w n "".

Definition SortedSeatIDs (vs : ValidatorSnapshot) : list ValidatorID :=
  sort_slice String.le (map_to_list (snap_Seats vs)).*1.

Definition ParticipatingSeats (vs : ValidatorSnapshot) : list ValidatorSeat :=
  filter (λ s, participates (snap_Version vs) s)
    (omap (λ id, snap_Seats vs !! id) (SortedSeatIDs vs)).

Definition nl : string := String (Ascii.ascii_of_nat 10) EmptyString.

Definition seat_line (vs : ValidatorSnapshot) (id : ValidatorID) : string :=
  match snap_Seats vs !! id with
  | None => ""
  | Some s =>
      "seat:" +:+ id +:+ ":" +:+ status_string (vs_Status s) +:+ ":" +:+ vs_OperatorKey s +:+ ":"
      +:+ fmt_d (vs_StakeAmount s) +:+ ":" +:+ fmt_d (vs_Weight s) +:+ ":"
      +:+ fmt_d (Epoch (CurrentKeyEpoch s)) +:+ nl
  end.

Definition snapshot_canonical (vs : ValidatorSnapshot) : string :=
  foldl (λ acc id, acc +:+ seat_line vs id)
    ("AETHERNET-VALIDATORSET-V1" +:+ nl +:+ "version:" +:+ fmt_d (snap_Version vs) +:+ nl)
    (SortedSeatIDs vs).

Definition ComputeDigest (vs : ValidatorSnapshot) : ValidatorSnapshot :=
  mkSnapshot (snap_Version vs) (snap_Seats vs) (snap_TotalActiveWeight vs) (snap_ActiveSeatCount vs)
    (sha256_hex (snapshot_canonical vs)).

Definition VoteWeightByKey (order : list (ValidatorID * ValidatorSeat)) (vs : ValidatorSnapshot)
    (operatorKey : AgentID) : Z * bool :=
  match head (filter (λ s, vs_OperatorKey s = operatorKey) order.*2) with
  | None => (0, false)
  | Some seat =>
      if decide (IsParticipating (vs_Status seat) = false ∨ vs_Weight seat = 0) then (0, false)
      else if decide (vs_EffectiveFromVersion seat > snap_Version vs) then (0, false)
      else (vs_Weight seat, true)
  end.

Definition SetVersion (vs : ValidatorSnapshot) : Z := snap_Version vs.
Definition ActiveWeight (vs : ValidatorSnapshot) : Z := snap_TotalActiveWeight vs.

Record SnapshotDelta := mkDelta {
  sd_FromVersion : Z; sd_ToVersion : Z;
  sd_Joined : list ValidatorID; sd_Activated : list ValidatorID; sd_Suspended : list ValidatorID;
  sd_Exited : list ValidatorID; sd_Excluded : list ValidatorID; sd_KeyRotated : list ValidatorID;
  sd_StakeChanged : list ValidatorID;
}.

(** One iteration of the loop of [Diff]. *)
Definition diff_step (from to : ValidatorSnapshot) (d : SnapshotDelta) (id : ValidatorID) : SnapshotDelta :=
  match snap_Seats to !! id with
  | None => d
  | Some toSeat =>
      match snap_Seats from !! id with
      | None => mkDelta (sd_FromVersion d) (sd_ToVersion d) (sd_Joined d ++ [id]) (sd_Activated d)
          (sd_Suspended d) (sd_Exited d) (sd_Excluded d) (sd_KeyRotated d) (sd_StakeChanged d)
      | Some fromSeat =>
          let on (b : bool) (l : list ValidatorID) := if b then l ++ [id] else l in
          let changed := bool_decide (vs_Status fromSeat ≠ vs_Status toSeat) in
          let to_status s := changed && bool_decide (vs_Status toSeat = s) in
          mkDelta (sd_FromVersion d) (sd_ToVersion d) (sd_Joined d)
            (on (to_status SeatActive) (sd_Activated d))
            (on (to_status SeatSuspended) (sd_Suspended d))
            (on (to_status SeatExited) (sd_Exited d))
            (on (to_status SeatExcluded) (sd_Excluded d))
            (on (bool_decide (vs_OperatorKey fromSeat ≠ vs_OperatorKey toSeat)) (sd_KeyRotated d))
            (on (bool_decide (vs_StakeAmount fromSeat ≠ vs_StakeAmount toSeat)) (sd_StakeChanged d))
      end
  end.

Definition Diff (from to : ValidatorSnapshot) : SnapshotDelta :=
  foldl (diff_step from to)
    (mkDelta (snap_Version from) (snap_Version to) [] [] [] [] [] [] []) (SortedSeatIDs to).

(** * eligibility.go *)

Inductive EligibilityError :=
  | ErrSeatNotInSnapshot
  | ErrSeatNotEligible
  | ErrSeatNotInCommittee
  | ErrNoKeyForEpoch
  | ErrKeyEpochMismatch.

Definition IsSeatVoteEligible (snap : ValidatorSnapshot) (seatID : ValidatorID) : option EligibilityError :=
  match snap_Seats snap !! seatID with
  | None => Some ErrSeatNotInSnapshot
  | Some seat =>
      if negb (IsParticipating (vs_Status seat)) then Some ErrSeatNotEligible
      else if decide (vs_Weight seat = 0) then Some ErrSeatNotEligible
      else None
  end.

(** The scan in ID order: the first seat with the key decides. *)
Fixpoint eligible_scan (snap : ValidatorSnapshot) (key : AgentID) (ids : list ValidatorID) :
    ValidatorID + EligibilityError :=
  match ids with
  | [] => inr ErrSeatNotInSnapshot
  | id :: ids' =>
      match snap_Seats snap !! id with
      | Some seat =>
          if decide (vs_OperatorKey seat = key) then
            match IsSeatVoteEligible snap id with
            | Some err => inr err
            | None => inl id
            end
          else eligible_scan snap key ids'
      | None => eligible_scan snap key ids'
      end
  end.

Definition IsSeatVoteEligibleByKey (snap : ValidatorSnapshot) (operatorKey : AgentID) :
    ValidatorID + EligibilityError :=
  eligible_scan snap operatorKey (SortedSeatIDs snap).

Definition IsSeatInCommittee (cs : CommitteeSnapshot) (seatID : ValidatorID) : option EligibilityError :=
  if decide (seatID ∈ cs_Members cs) then None else Some ErrSeatNotInCommittee.

(** [resolveSeatByKey], over the iteration order of the map. *)
Definition resolveSeatByKey (order : list (ValidatorID * ValidatorSeat)) (key : AgentID) :
    ValidatorID + EligibilityError :=
  match head (filter (λ kv, vs_OperatorKey kv.2 = key) order) with
  | Some kv => inl kv.1
  | None => inr ErrSeatNotInSnapshot
  end.

Definition IsSeatInCommitteeByKey (order : list (ValidatorID * ValidatorSeat))
    (cs : CommitteeSnapshot) (operatorKey : AgentID) : ValidatorID + EligibilityError :=
  match resolveSeatByKey order operatorKey with
  | inr e => inr e
  | inl seatID =>
      match IsSeatInCommittee cs seatID with
      | Some e => inr e
      | None => inl seatID
      end
  end.

Definition CommitteeWeightFor (cs : CommitteeSnapshot) (seatID : ValidatorID) : Z :=
  default 0 (cs_MemberWeights cs !! seatID).

Definition ActiveKeyForSeatEpoch (snap : ValidatorSnapshot) (seatID : ValidatorID) (epoch : Z) :
    AgentID + EligibilityError :=
  match snap_Seats snap !! seatID with
  | None => inr ErrSeatNotInSnapshot
  | Some seat =>
      match KeyAtEpoch seat epoch with
      | None => inr ErrNoKeyForEpoch
      | Some ke => inl (PublicKey ke)
      end
  end.

Definition ActiveKeyForSeatAtCausalTS (snap : ValidatorSnapshot) (seatID : ValidatorID) (causalTS : Z) :
    AgentID + EligibilityError :=
  match snap_Seats snap !! seatID with
  | None => inr ErrSeatNotInSnapshot
  | Some seat =>
      match KeyForCausalTS seat causalTS with
      | None => inr ErrNoKeyForEpoch
      | Some ke => inl (PublicKey ke)
      end
  end.

(** The inner loop of [ValidateVoteKeyEpoch], from the newest epoch down:
    [newer] is whether a later epoch was passed. *)
Fixpoint key_history_scan (voterKey : AgentID) (newer : bool) (rev_history : list KeyEpoch) :
    option bool :=
  match rev_history with
  | [] => None
  | ke :: rest =>
      if decide (PublicKey ke = voterKey) then Some newer else key_history_scan voterKey true rest
  end.

(** The secondary path, over the iteration order of the map. *)
Fixpoint history_path (snap : ValidatorSnapshot) (voterKey : AgentID)
    (order : list (ValidatorID * ValidatorSeat)) : ValidatorID + EligibilityError :=
  match order with
  | [] => inr ErrSeatNotInSnapshot
  | (id, seat) :: order' =>
      match IsSeatVoteEligible snap id with
      | Some _ => history_path snap voterKey order'
      | None =>
          match key_history_scan voterKey false (reverse (vs_KeyHistory seat)) with
          | Some true => inr ErrKeyEpochMismatch
          | Some false => inl id
          | None => history_path snap voterKey order'
          end
      end
  end.

Definition ValidateVoteKeyEpoch (order : list (ValidatorID * ValidatorSeat))
    (snap : ValidatorSnapshot) (voterKey : AgentID) : ValidatorID + EligibilityError :=
  match IsSeatVoteEligibleByKey snap voterKey with
  | inl seatID => inl seatID
  | inr _ => history_path snap voterKey order
  end.

Definition EligibleSeatCount (snap : ValidatorSnapshot) : Z :=
  map_fold (λ id _ n, match IsSeatVoteEligible snap id with None => n + 1 | Some _ => n end) 0
    (snap_Seats snap).

Definition EligibleTotalWeight (snap : ValidatorSnapshot) : Z :=
  map_fold (λ id seat total,
    match IsSeatVoteEligible snap id with None => u64 (total + vs_Weight seat) | Some _ => total end) 0
    (snap_Seats snap).

(** * committee.go *)

Record CommitteePolicy := mkPolicy { MinSize : Z; MaxSize : Z }.

Definition DefaultCommitteePolicy : CommitteePolicy := mkPolicy 3 21.

(** [SHA-256(roundID || seatID || version)]. *)
Definition sortition_digest (v : Z) (roundID : string) (id : ValidatorID) : list Z :=
  Sha256.Sum256 (bytes_of_string roundID ++ bytes_of_string id ++ be_put v).

(** The comparison of two digests, byte by byte; equal digests are not less. *)
Fixpoint digest_ltb (a b : list Z) : bool :=
  match a, b with
  | x :: a', y :: b' => if decide (x = y) then digest_ltb a' b' else bool_decide (x < y)
  | _, _ => false
  end.

Definition score_le (x y : list Z * ValidatorSeat) : Prop := digest_ltb y.1 x.1 = false.

#[global] Instance score_le_dec x y : Decision (score_le x y).
Proof. unfold score_le. apply _. Defined.

Definition sortitionSelect (ss : list ValidatorSeat) (v : Z) (roundID : string) (targetSize : Z) :
    list ValidatorSeat :=
  let scored := (λ s, (sortition_digest v roundID (vs_ID s), s)) <$> ss in
  take (Z.to_nat targetSize) (sort_slice score_le scored).*2.

(** The three size adjustments. *)
Definition committee_size (policy : CommitteePolicy) (n : Z) : Z :=
  let targetSize := n in
  let targetSize := if decide (targetSize > MaxSize policy) then MaxSize policy else targetSize in
  let targetSize := if decide (targetSize < MinSize policy) then MinSize policy else targetSize in
  if decide (targetSize > n) then n else targetSize.

Definition committee_canonical (cs : CommitteeSnapshot) : string :=
  foldl (λ acc id,
      acc +:+ "member:" +:+ id +:+ ":" +:+ fmt_d (default 0 (cs_MemberWeights cs !! id)) +:+ nl)
    ("AETHERNET-COMMITTEE-V1" +:+ nl +:+ "snapshot_version:" +:+ fmt_d (cs_SnapshotVersion cs) +:+ nl
     +:+ "round_id:" +:+ cs_RoundID cs +:+ nl)
    (cs_Members cs).

Definition ComputeCommitteeDigest (cs : CommitteeSnapshot) : CommitteeSnapshot :=
  mkCommittee (cs_SnapshotVersion cs) (cs_RoundID cs) (cs_Members cs) (cs_MemberWeights cs)
    (cs_TotalWeight cs) (sha256_hex (committee_canonical cs)).

(** One iteration of the loop over the selected seats. *)
Definition add_member (acc : list ValidatorID * gmap ValidatorID Z * Z) (s : ValidatorSeat) :
    list ValidatorID * gmap ValidatorID Z * Z :=
  let '(ms, ws, total) := acc in
  (ms ++ [vs_ID s], <[vs_ID s := vs_Weight s]> ws, u64 (total + vs_Weight s)).

Definition selected_seats (snap : ValidatorSnapshot) (roundID : string) (policy : CommitteePolicy) :
    list ValidatorSeat :=
  let participating := ParticipatingSeats snap in
  let n := Z.of_nat (length participating) in
  let targetSize := committee_size policy n in
  if decide (n > targetSize) then sortitionSelect participating (snap_Version snap) roundID targetSize
  else participating.

Definition SelectBoundedCommittee (snap : ValidatorSnapshot) (roundID : string)
    (policy : CommitteePolicy) : CommitteeSnapshot :=
  let '(ms, ws, total) := foldl add_member ([], ∅, 0) (selected_seats snap roundID policy) in
  ComputeCommitteeDigest
    (mkCommittee (snap_Version snap) roundID (sort_slice String.le ms) ws total "").

Definition SelectCommittee (vs : ValidatorSnapshot) (roundID : string) : CommitteeSnapshot :=
  SelectBoundedCommittee vs roundID DefaultCommitteePolicy.

Definition CommitteeMemberSet (cs : CommitteeSnapshot) : gset ValidatorID :=
  list_to_set (cs_Members cs).

(** * Lemmas *)

(** What a snapshot of a reducer that satisfies its invariant satisfies. *)
Definition snap_ok (vs : ValidatorSnapshot) : Prop :=
  map_Forall (seat_core (snap_Version vs)) (snap_Seats vs)
  ∧ map_Forall (λ _ s, vs_EffectiveFromVersion s <= snap_Version vs) (snap_Seats vs).

Lemma TakeSnapshot_seats r : snap_Seats (TakeSnapshot r) = seats r.
Proof. unfold TakeSnapshot. by destruct (map_fold _ _ _). Qed.

Lemma TakeSnapshot_version r : snap_Version (TakeSnapshot r) = version r.
Proof. unfold TakeSnapshot. by destruct (map_fold _ _ _). Qed.

Lemma snap_ok_reachable evs :
  Forall event_ok evs → Z.of_nat (length evs) <= MaxUint64 →
  snap_ok (TakeSnapshot (replay evs NewReducer)).
Proof.
  intros Hok Hlen. destruct (replay_inv evs NewReducer inv_empty Hlen Hok) as [Hr _].
  unfold snap_ok. rewrite TakeSnapshot_seats, TakeSnapshot_version.
  split; [apply Hr|]. intros id s Hs. by destruct (ri_effective _ Hr id s Hs).
Qed.

Lemma participates_ok vs id s : snap_ok vs → snap_Seats vs !! id = Some s →
  participates (snap_Version vs) s = IsParticipating (vs_Status s).
Proof.
  intros [_ He] Hs. specialize (He id s Hs). simpl in He. unfold participates.
  rewrite (bool_decide_true (vs_EffectiveFromVersion s <= _)) by done. apply andb_true_r.
Qed.

(** The participating seats are those of the map, in the order of their IDs. *)
Lemma ParticipatingSeats_perm vs :
  ParticipatingSeats vs ≡ₚ filter (λ s, participates (snap_Version vs) s) (map_to_list (snap_Seats vs)).*2.
Proof.
  unfold ParticipatingSeats. apply filter_Permutation. unfold SortedSeatIDs. rewrite sort_slice_perm.
  assert (∀ l : list (ValidatorID * ValidatorSeat), (∀ id s, (id, s) ∈ l → snap_Seats vs !! id = Some s) →
    omap (λ id, snap_Seats vs !! id) l.*1 = l.*2) as Hl.
  { induction l as [|[id s] l IH]; intros Hin; simpl; [done|].
    rewrite (Hin id s) by set_solver. f_equal. apply IH. set_solver. }
  rewrite Hl; [done|]. intros id s. by rewrite elem_of_map_to_list.
Qed.

Lemma ParticipatingSeats_in vs s :
  s ∈ ParticipatingSeats vs ↔ ∃ id, snap_Seats vs !! id = Some s ∧ participates (snap_Version vs) s.
Proof.
  rewrite ParticipatingSeats_perm, list_elem_of_filter, list_elem_of_fmap. split.
  - intros [Hp ([id s'] & -> & Hin)]. exists id. by rewrite <- elem_of_map_to_list.
  - intros (id & Hs & Hp). split; [done|]. exists (id, s). by rewrite elem_of_map_to_list.
Qed.

Definition ids_keyed (vs : ValidatorSnapshot) : Prop :=
  ∀ id s, snap_Seats vs !! id = Some s → vs_ID s = id.

Lemma snap_ok_keyed vs : snap_ok vs → ids_keyed vs.
Proof. intros [H _] id s Hs. apply (H id s Hs). Qed.

(** ** Sums over the participating seats *)

(** A seat's contribution to the total active weight. *)
Definition active_weight (v : Z) (s : ValidatorSeat) : Z := if participates v s then vs_Weight s else 0.

Lemma sum_filter_weight v l :
  sum_list_Z (vs_Weight <$> filter (λ s, participates v s) l) = sum_list_Z (active_weight v <$> l).
Proof.
  induction l as [|s l IH]; simpl; [done|]. rewrite filter_cons.
  unfold active_weight at 1. destruct (participates v s); simpl.
  - exact (f_equal (Z.add (vs_Weight s)) IH).
  - exact IH.
Qed.

Lemma participating_weight vs :
  sum_list_Z (vs_Weight <$> ParticipatingSeats vs)
  = map_sum (active_weight (snap_Version vs)) (snap_Seats vs).
Proof.
  rewrite map_sum_list, <- sum_filter_weight. apply sum_list_Z_perm, fmap_Permutation, ParticipatingSeats_perm.
Qed.

Lemma snapshot_fold v (m : gmap ValidatorID ValidatorSeat) :
  map_fold (snapshot_step v) (0, 0) m
  = (u64 (map_sum (active_weight v) m),
     Z.of_nat (length (filter (λ s, participates v s) (map_to_list m).*2))).
Proof.
  rewrite map_fold_foldr, map_sum_list.
  induction (map_to_list m) as [|[k s] l IH]; csimpl; [done|].
  rewrite IH, filter_cons. change (active_weight v s) with (if participates v s then vs_Weight s else 0).
  unfold snapshot_step.
  destruct (participates v s); simpl.
  - f_equal; [|simpl; lia]. apply u64_proper. eqm_norm. eqm_lia.
  - done.
Qed.

Lemma eligible_active vs id s : snap_ok vs → snap_Seats vs !! id = Some s →
  IsSeatVoteEligible vs id = None ↔ participates (snap_Version vs) s ∧ vs_Weight s ≠ 0.
Proof.
  intros Hok Hs. rewrite (participates_ok vs id s) by done. unfold IsSeatVoteEligible. rewrite Hs.
  destruct (IsParticipating (vs_Status s)); simpl; [|by split; [|intros [[] _]]].
  case_decide; [split; [done|]|split; [|done]]; intuition.
Qed.

Lemma eligible_weight_fold vs : snap_ok vs →
  EligibleTotalWeight vs = u64 (map_sum (active_weight (snap_Version vs)) (snap_Seats vs)).
Proof.
  intros Hok. unfold EligibleTotalWeight. rewrite map_fold_foldr, map_sum_list.
  assert (∀ k s, (k, s) ∈ map_to_list (snap_Seats vs) → snap_Seats vs !! k = Some s) as Hin
    by (intros k s; by rewrite elem_of_map_to_list).
  induction (map_to_list (snap_Seats vs)) as [|[k s] l IH]; csimpl; [done|].
  rewrite IH by (intros; apply Hin; by right).
  pose proof (eligible_active vs k s Hok (Hin k s ltac:(by left))) as Hel.
  destruct (IsSeatVoteEligible vs k) eqn:He.
  - f_equal. change (active_weight ?v s) with (if participates v s then vs_Weight s else 0).
    destruct (participates _ s) eqn:Hp; [|done].
    destruct (decide (vs_Weight s = 0)) as [->|]; [done|]. by destruct Hel as [_ Hel]; specialize (Hel (conj I n)).
  - destruct Hel as [Hp _]. destruct (Hp eq_refl) as [Hp' _].
    change (active_weight ?v s) with (if participates v s then vs_Weight s else 0).
    destruct (participates _ s); [|done]. apply u64_proper. eqm_norm. eqm_lia.
Qed.

Lemma eligible_count_fold vs : snap_ok vs →
  EligibleSeatCount vs
  = Z.of_nat (length (filter (λ s, participates (snap_Version vs) s ∧ vs_Weight s ≠ 0)
      (map_to_list (snap_Seats vs)).*2)).
Proof.
  intros Hok. unfold EligibleSeatCount. rewrite map_fold_foldr.
  assert (∀ k s, (k, s) ∈ map_to_list (snap_Seats vs) → snap_Seats vs !! k = Some s) as Hin
    by (intros k s; by rewrite elem_of_map_to_list).
  induction (map_to_list (snap_Seats vs)) as [|[k s] l IH]; csimpl; [done|].
  rewrite IH by (intros; apply Hin; by right).
  pose proof (eligible_active vs k s Hok (Hin k s ltac:(by left))) as Hel.
  rewrite filter_cons. destruct (IsSeatVoteEligible vs k) eqn:He.
  - rewrite decide_False; [done|]. intros H. by apply Hel in H.
  - rewrite decide_True by (by apply Hel). simpl. lia.
Qed.

(** ** Committees *)

Lemma committee_size_min policy n : 1 <= MinSize policy <= MaxSize policy → 0 <= n →
  committee_size policy n = n `min` MaxSize policy.
Proof. intros. unfold committee_size. repeat case_decide; lia. Qed.

Lemma add_members l ms ws t :
  NoDup (vs_ID <$> l) → is_u64 t →
  foldl add_member (ms, ws, t) l
  = (ms ++ (vs_ID <$> l), list_to_map ((λ s, (vs_ID s, vs_Weight s)) <$> l) ∪ ws,
     u64 (t + sum_list_Z (vs_Weight <$> l))).
Proof.
  revert ms ws t. induction l as [|s l IH]; intros ms ws t Hnd Ht; csimpl in *.
  - rewrite (right_id_L _ _), (left_id_L _ _), Z.add_0_r. f_equal. symmetry. by apply u64_small.
  - apply NoDup_cons in Hnd as [Hni Hnd]. rewrite IH by (done || apply u64_range). f_equal; [f_equal|].
    + by rewrite <- (assoc_L _).
    + rewrite <- insert_union_l. apply eq_sym, insert_union_r. apply not_elem_of_list_to_map_1.
      by rewrite <- list_fmap_compose.
    + apply u64_proper. eqm_norm. eqm_lia.
Qed.

Lemma ParticipatingSeats_ids_NoDup vs : ids_keyed vs → NoDup (vs_ID <$> ParticipatingSeats vs).
Proof.
  intros Hk. rewrite ParticipatingSeats_perm.
  eapply sublist_NoDup; [|apply fmap_sublist, sublist_filter].
  assert (vs_ID <$> (map_to_list (snap_Seats vs)).*2 = (map_to_list (snap_Seats vs)).*1) as ->;
    [|apply NoDup_fst_map_to_list].
  rewrite <- list_fmap_compose. apply list_fmap_ext. intros i [id s] Hin. simpl. apply Hk.
  apply elem_of_map_to_list. by eapply list_elem_of_lookup_2.
Qed.

(** The order of the draw, on IDs. *)
Definition id_score_le (v : Z) (roundID : string) (x y : ValidatorID) : Prop :=
  digest_ltb (sortition_digest v roundID y) (sortition_digest v roundID x) = false.

#[global] Instance id_score_le_dec v roundID x y : Decision (id_score_le v roundID x y).
Proof. unfold id_score_le. apply _. Defined.

Lemma digest_ltb_trans a b c :
  length a = length b → length b = length c →
  digest_ltb b a = false → digest_ltb c b = false → digest_ltb c a = false.
Proof.
  revert b c. induction a as [|x a IH]; intros [|y b] [|z c]; simpl; try done. intros [= H1] [= H2].
  repeat case_decide; simplify_eq; repeat case_bool_decide; try done; try lia. by apply IH.
Qed.

Lemma digest_ltb_total a b :
  length a = length b → digest_ltb b a = false ∨ digest_ltb a b = false.
Proof.
  revert b. induction a as [|x a IH]; intros [|y b]; simpl; try done; [auto|]. intros [= H1].
  destruct (decide (x = y)) as [->|Hne]; [rewrite decide_True by done; by apply IH|].
  rewrite decide_False by done. repeat case_bool_decide; auto; lia.
Qed.

Lemma sortition_digest_length v roundID id : length (sortition_digest v roundID id) = 32%nat.
Proof. apply Sha256.Sum256_length. Qed.

#[local] Instance id_score_trans v roundID : Transitive (id_score_le v roundID).
Proof.
  intros x y z Hxy Hyz. eapply digest_ltb_trans; [| |exact Hxy|exact Hyz]; by rewrite !sortition_digest_length.
Qed.

#[local] Instance id_score_total v roundID : Total (id_score_le v roundID).
Proof. intros x y. apply digest_ltb_total. by rewrite !sortition_digest_length. Qed.

Lemma sortition_scored ss v roundID :
  (sort_slice score_le ((λ s, (sortition_digest v roundID (vs_ID s), s)) <$> ss)).*2
  = sort_slice (λ s t, id_score_le v roundID (vs_ID s) (vs_ID t)) ss.
Proof.
  rewrite <- (sort_slice_fmap _ (λ s t, id_score_le v roundID (vs_ID s) (vs_ID t)) score_le) by done.
  rewrite <- list_fmap_compose. apply list_fmap_id.
Qed.

Lemma sortition_ids ss v roundID n :
  vs_ID <$> sortitionSelect ss v roundID n
  = take (Z.to_nat n) (sort_slice (id_score_le v roundID) (vs_ID <$> ss)).
Proof.
  unfold sortitionSelect. rewrite sortition_scored, fmap_take. f_equal.
  by apply sort_slice_fmap.
Qed.

Lemma sortition_sublist ss v roundID n s : s ∈ sortitionSelect ss v roundID n → s ∈ ss.
Proof.
  unfold sortitionSelect. rewrite sortition_scored. intros Hs%elem_of_take.
  destruct Hs as (i & Hs & _). apply list_elem_of_lookup_2 in Hs. by rewrite sort_slice_perm in Hs.
Qed.

(** The IDs that [selected_seats] selects, from those that participate. *)
Definition selected_ids (v : Z) (roundID : string) (policy : CommitteePolicy) (ids : list ValidatorID) :
    list ValidatorID :=
  let n := Z.of_nat (length ids) in
  if decide (n > committee_size policy n)
  then take (Z.to_nat (committee_size policy n)) (sort_slice (id_score_le v roundID) ids) else ids.

Lemma selected_seats_ids vs roundID policy :
  vs_ID <$> selected_seats vs roundID policy
  = selected_ids (snap_Version vs) roundID policy (vs_ID <$> ParticipatingSeats vs).
Proof.
  unfold selected_seats, selected_ids. rewrite length_fmap. case_decide; [|done]. by rewrite sortition_ids.
Qed.

Lemma selected_ids_sub v roundID policy ids : ∃ rest, selected_ids v roundID policy ids ++ rest ≡ₚ ids.
Proof.
  unfold selected_ids. case_decide; [|exists []; by rewrite (right_id_L _ _)].
  eexists (drop _ _). rewrite take_drop. apply sort_slice_perm.
Qed.

Lemma selected_ids_length v roundID policy ids :
  1 <= MinSize policy <= MaxSize policy →
  Z.of_nat (length (selected_ids v roundID policy ids)) = Z.of_nat (length ids) `min` MaxSize policy.
Proof.
  intros Hp. unfold selected_ids. rewrite committee_size_min by lia. case_decide; [|lia].
  rewrite length_take, (Permutation_length (sort_slice_perm _ ids)). lia.
Qed.

(** No unselected ID scores below a selected one. *)
Lemma selected_ids_lowest v roundID policy ids x y :
  NoDup ids → x ∈ selected_ids v roundID policy ids → y ∈ ids → y ∉ selected_ids v roundID policy ids →
  id_score_le v roundID x y.
Proof.
  unfold selected_ids. case_decide; [|done]. intros Hnd Hx Hy Hny.
  set (l := sort_slice (id_score_le v roundID) ids) in *. set (n := Z.to_nat _) in *.
  assert (y ∈ drop n l) as Hyd.
  { rewrite <- (sort_slice_perm (id_score_le v roundID) ids) in Hy. fold l in Hy.
    rewrite <- (take_drop n l), elem_of_app in Hy. by destruct Hy. }
  pose proof (sort_slice_sorted (id_score_le v roundID) ids) as Hs. fold l in Hs.
  rewrite <- (take_drop n l), StronglySorted_app in Hs. by apply Hs.
Qed.

(** The committee, from the selected seats. *)
Lemma SelectBoundedCommittee_eq vs roundID policy : ids_keyed vs →
  let sel := selected_seats vs roundID policy in
  let cs := SelectBoundedCommittee vs roundID policy in
  cs_Members cs = sort_slice String.le (vs_ID <$> sel)
  ∧ cs_MemberWeights cs = list_to_map ((λ s, (vs_ID s, vs_Weight s)) <$> sel)
  ∧ cs_TotalWeight cs = u64 (sum_list_Z (vs_Weight <$> sel)) ∧ NoDup (vs_ID <$> sel).
Proof.
  intros Hk sel cs.
  assert (NoDup (vs_ID <$> sel)) as Hnd.
  { unfold sel. rewrite selected_seats_ids.
    destruct (selected_ids_sub (snap_Version vs) roundID policy (vs_ID <$> ParticipatingSeats vs)) as [rest Hr].
    apply (NoDup_app (selected_ids (snap_Version vs) roundID policy (vs_ID <$> ParticipatingSeats vs)) rest).
    rewrite Hr. by apply ParticipatingSeats_ids_NoDup. }
  unfold cs, SelectBoundedCommittee. fold sel. rewrite add_members by (done || by vm_compute).
  simpl. by rewrite (right_id_L ∅ (∪)).
Qed.

(** ** Votes *)

(** The weight of a key in a list of seats, the first seat with the key deciding. *)
Definition vote_of (v : Z) (key : AgentID) (ss : list ValidatorSeat) : Z :=
  match head (filter (λ s, vs_OperatorKey s = key) ss) with
  | None => 0
  | Some s => active_weight v s
  end.

Lemma VoteWeightByKey_vote order vs key :
  (VoteWeightByKey order vs key).1 = vote_of (snap_Version vs) key order.*2.
Proof.
  unfold VoteWeightByKey, vote_of. destruct (head _) as [s|]; [|done]. unfold active_weight, participates.
  destruct (IsParticipating _); simpl.
  - destruct (decide (false = true ∨ vs_Weight s = 0)) as [[|H]|H]; [done| |].
    + rewrite decide_True by auto. case_bool_decide; [by rewrite H|done].
    + rewrite decide_False by (intros [|]; auto). case_bool_decide.
      * by rewrite decide_False by lia.
      * by rewrite decide_True by lia.
  - done.
Qed.

Lemma active_weight_nonneg v s : 0 <= vs_Weight s → 0 <= active_weight v s.
Proof. unfold active_weight. by destruct (participates v s). Qed.

(** Taking the seats of one key out of a list. *)
Lemma sum_active_split v key ss :
  sum_list_Z (active_weight v <$> ss)
  = sum_list_Z (active_weight v <$> filter (λ s, vs_OperatorKey s = key) ss)
    + sum_list_Z (active_weight v <$> filter (λ s, vs_OperatorKey s ≠ key) ss).
Proof.
  induction ss as [|s ss IH]; [done|]. rewrite !filter_cons.
  destruct (decide (vs_OperatorKey s = key)) as [Hk|Hk].
  - rewrite (decide_False (P := vs_OperatorKey s ≠ key)) by auto. csimpl. lia.
  - rewrite (decide_True (P := vs_OperatorKey s ≠ key)) by auto. csimpl. lia.
Qed.

Lemma sum_active_nonneg v ss :
  Forall (λ s, 0 <= vs_Weight s) ss → 0 <= sum_list_Z (active_weight v <$> ss).
Proof. induction 1 as [|s ss Hs _ IH]; csimpl; [done|]. pose proof (active_weight_nonneg v s Hs). lia. Qed.

Lemma Forall_filter_intro {A} (Q P : A → Prop) `{∀ x, Decision (P x)} l :
  Forall Q l → Forall Q (filter P l).
Proof. intros Hl. apply Forall_forall. intros x [_ Hx]%list_elem_of_filter. by eapply Forall_forall in Hl. Qed.

Lemma vote_of_le v key ss : Forall (λ s, 0 <= vs_Weight s) ss →
  vote_of v key ss <= sum_list_Z (active_weight v <$> filter (λ s, vs_OperatorKey s = key) ss).
Proof.
  intros Hss. unfold vote_of. pose proof (Forall_filter_intro _ (λ s, vs_OperatorKey s = key) _ Hss) as Hf.
  destruct Hf as [|s l Hs Hl]; csimpl; [lia|]. pose proof (sum_active_nonneg v l Hl). lia.
Qed.

Lemma vote_of_other v key key' ss : key' ≠ key →
  vote_of v key' (filter (λ s, vs_OperatorKey s ≠ key) ss) = vote_of v key' ss.
Proof.
  intros Hne. unfold vote_of. rewrite list_filter_filter.
  rewrite (list_filter_iff _ (λ s, vs_OperatorKey s = key')); [done|].
  intros s. split; [by intros []|]. by intros <-.
Qed.

(** Distinct keys never vote with more than the total active weight. *)
Lemma votes_le v keys ss : NoDup keys → Forall (λ s, 0 <= vs_Weight s) ss →
  sum_list_Z ((λ k, vote_of v k ss) <$> keys) <= sum_list_Z (active_weight v <$> ss).
Proof.
  intros Hnd. revert ss. induction Hnd as [|k keys Hk Hnd IH]; intros ss Hss; csimpl.
  - by apply sum_active_nonneg.
  - rewrite (sum_active_split v k ss). pose proof (vote_of_le v k ss Hss).
    specialize (IH (filter (λ s, vs_OperatorKey s ≠ k) ss) (Forall_filter_intro _ _ _ Hss)).
    assert ((λ k', vote_of v k' (filter (λ s, vs_OperatorKey s ≠ k) ss)) <$> keys
      = (λ k', vote_of v k' ss) <$> keys) as Heq.
    { apply list_fmap_ext. intros i k' Hk'. apply vote_of_other. intros ->.
      by apply Hk, (list_elem_of_lookup_2 _ i). }
    rewrite Heq in IH. lia.
Qed.

Lemma order_weights_nonneg vs order : snap_ok vs → order ≡ₚ map_to_list (snap_Seats vs) →
  Forall (λ s, 0 <= vs_Weight s) order.*2.
Proof.
  intros [Hc _] Ho. rewrite Ho. apply Forall_fmap, Forall_forall. intros [id s] Hin.
  apply elem_of_map_to_list in Hin. apply (Hc id s Hin).
Qed.

Lemma TakeSnapshot_total r :
  let vs := TakeSnapshot r in
  ActiveWeight vs = u64 (map_sum (active_weight (snap_Version vs)) (snap_Seats vs)).
Proof.
  intros vs. unfold vs. rewrite TakeSnapshot_seats, TakeSnapshot_version. unfold ActiveWeight, TakeSnapshot.
  by rewrite snapshot_fold.
Qed.

(** The votes of distinct keys against a total that is the sum of the active weights. *)
Lemma snapshot_votes_le vs order keys :
  snap_ok vs → ActiveWeight vs = u64 (map_sum (active_weight (snap_Version vs)) (snap_Seats vs)) →
  order ≡ₚ map_to_list (snap_Seats vs) → NoDup keys →
  map_sum vs_StakeAmount (snap_Seats vs) < u64_mod →
  sum_list_Z ((λ k, (VoteWeightByKey order vs k).1) <$> keys) <= ActiveWeight vs.
Proof.
  intros Hs -> Ho Hnd Hst.
  assert (∀ k s, snap_Seats vs !! k = Some s → 0 <= active_weight (snap_Version vs) s <= vs_StakeAmount s) as Hb.
  { intros k s Hk. destruct Hs as [Hc _]. destruct (Hc k s Hk) as [_ _ Hw _ _ _ _].
    unfold active_weight. destruct (participates _ _); lia. }
  rewrite u64_small.
  - replace ((λ k, (VoteWeightByKey order vs k).1) <$> keys)
      with ((λ k, vote_of (snap_Version vs) k order.*2) <$> keys)
      by (apply list_fmap_ext; intros i k _; by rewrite VoteWeightByKey_vote).
    etrans; [apply (votes_le _ keys order.*2 Hnd); by apply (order_weights_nonneg vs)|].
    rewrite map_sum_list. apply Z.eq_le_incl, sum_list_Z_perm. by rewrite Ho.
  - split; [apply map_sum_nonneg; intros k s Hk; by destruct (Hb k s Hk)|].
    eapply Z.le_lt_trans; [|exact Hst]. apply map_sum_le; intros k s Hk; by destruct (Hb k s Hk).
Qed.

(** ** Keys *)

Lemma key_scan_first key l : key_history_scan key false l = Some false → ∃ ke, head l = Some ke ∧ PublicKey ke = key.
Proof.
  destruct l as [|ke l]; simpl; [done|]. case_decide; [eauto|]. intros Hs. exfalso.
  assert (∀ l', key_history_scan key true l' ≠ Some false) as Hn; [|by apply Hn in Hs].
  induction l' as [|ke' l' IH]; simpl; [done|]. by case_decide.
Qed.

Lemma eligible_scan_ok snap key ids id : eligible_scan snap key ids = inl id →
  ∃ s, snap_Seats snap !! id = Some s ∧ vs_OperatorKey s = key ∧ IsSeatVoteEligible snap id = None.
Proof.
  induction ids as [|i ids IH]; simpl; [done|]. destruct (snap_Seats snap !! i) as [s|] eqn:Hs; [|done].
  case_decide; [|done]. destruct (IsSeatVoteEligible snap i) eqn:He; [done|]. intros [= <-]. eauto.
Qed.

Lemma history_path_ok snap key order id : (∀ kv, kv ∈ order → snap_Seats snap !! kv.1 = Some kv.2) →
  history_path snap key order = inl id →
  ∃ s, snap_Seats snap !! id = Some s ∧ PublicKey (CurrentKeyEpoch s) = key ∧ IsSeatVoteEligible snap id = None.
Proof.
  induction order as [|[i s] order IH]; intros Hin; simpl; [done|].
  assert (history_path snap key order = inl id →
    ∃ s, snap_Seats snap !! id = Some s ∧ PublicKey (CurrentKeyEpoch s) = key ∧ IsSeatVoteEligible snap id = None)
    as IH' by (apply IH; intros; apply Hin; by right).
  destruct (IsSeatVoteEligible snap i) eqn:He; [done|].
  destruct (key_history_scan key false (reverse (vs_KeyHistory s))) as [[]|] eqn:Hk; [done| |done].
  intros [= <-]. exists s. split; [by apply (Hin (i, s)); left|]. split; [|done].
  apply key_scan_first in Hk as (ke & Hk & <-). unfold CurrentKeyEpoch.
  by rewrite head_reverse in Hk; rewrite Hk.
Qed.

(** * Properties *)

(** The totals of a snapshot of any replayed validator set.  The total active
    weight, which consensus uses as the denominator of its threshold, is the sum
    of the weights of the participating seats (modulo 2^64), the seat count is
    their number, and both agree with the eligibility helpers, which count a
    seat when its vote would have weight. *)
Theorem snap_totals evs :
  Forall event_ok evs → Z.of_nat (length evs) <= MaxUint64 →
  let vs := TakeSnapshot (replay evs NewReducer) in
  let ps := ParticipatingSeats vs in
  ActiveWeight vs = u64 (sum_list_Z (vs_Weight <$> ps))
  ∧ snap_ActiveSeatCount vs = Z.of_nat (length ps)
  ∧ EligibleTotalWeight vs = ActiveWeight vs
  ∧ EligibleSeatCount vs = Z.of_nat (length (filter (λ s, vs_Weight s ≠ 0) ps))
  ∧ (∀ id, IsSeatVoteEligible vs id = None ↔
       ∃ s, snap_Seats vs !! id = Some s ∧ s ∈ ps ∧ vs_Weight s ≠ 0).
Proof.
  intros Hok Hlen vs ps. pose proof (snap_ok_reachable evs Hok Hlen) as Hs. fold vs in Hs.
  assert (ActiveWeight vs = u64 (map_sum (active_weight (snap_Version vs)) (snap_Seats vs))
    ∧ snap_ActiveSeatCount vs = Z.of_nat (length ps)) as [Hw Hc].
  { unfold ps. rewrite (Permutation_length (ParticipatingSeats_perm vs)). unfold vs, ActiveWeight.
    rewrite TakeSnapshot_seats, TakeSnapshot_version. unfold TakeSnapshot. by rewrite snapshot_fold. }
  unfold ps in *. rewrite participating_weight, eligible_weight_fold, eligible_count_fold by done.
  split_and!; [done|done|done| |].
  - f_equal. rewrite (filter_Permutation _ _ _ (ParticipatingSeats_perm vs)), list_filter_filter. f_equal.
    apply list_filter_iff. tauto.
  - intros id. split.
    + intros He. destruct (snap_Seats vs !! id) as [s|] eqn:Hl; [|unfold IsSeatVoteEligible in He; by rewrite Hl in He].
      exists s. destruct (proj1 (eligible_active vs id s Hs Hl) He) as [Hp Hw0].
      split_and!; [done| |done]. rewrite ParticipatingSeats_in. eauto.
    + intros (s & Hl & Hin & Hw0). apply ParticipatingSeats_in in Hin as (id' & Hl' & Hp).
      by apply (eligible_active vs id s).
Qed.

(** Distinct operator keys never vote with more than the snapshot's total
    active weight.  For every map order and every list of different keys, the
    weights that [VoteWeightByKey] reports sum to at most [ActiveWeight], as long
    as the total stake fits in 64 bits; so a weight threshold is a threshold on
    distinct voters. *)
Theorem vote_weight_bounded evs order keys :
  Forall event_ok evs → Z.of_nat (length evs) <= MaxUint64 →
  let vs := TakeSnapshot (replay evs NewReducer) in
  order ≡ₚ map_to_list (snap_Seats vs) → NoDup keys →
  map_sum vs_StakeAmount (snap_Seats vs) < u64_mod →
  sum_list_Z ((λ k, (VoteWeightByKey order vs k).1) <$> keys) <= ActiveWeight vs.
Proof.
  intros Hok Hlen vs Ho Hnd Hst. by apply snapshot_votes_le; [apply snap_ok_reachable|apply TakeSnapshot_total|..].
Qed.

(** Bounded committees.  Under a policy with 1 <= MinSize <= MaxSize a
    committee has min(n, MaxSize) members of the n participating seats, listed
    once each in ID order; every member participates and carries its seat's
    weight, nobody else carries any; the total weight is the members' sum; and
    nobody with a lower draw was left out. *)
Theorem committee_bounded evs roundID policy :
  Forall event_ok evs → Z.of_nat (length evs) <= MaxUint64 → 1 <= MinSize policy <= MaxSize policy →
  let vs := TakeSnapshot (replay evs NewReducer) in
  let cs := SelectBoundedCommittee vs roundID policy in
  let ps := ParticipatingSeats vs in
  Z.of_nat (length (cs_Members cs)) = Z.of_nat (length ps) `min` MaxSize policy
  ∧ NoDup (cs_Members cs) ∧ StronglySorted String.le (cs_Members cs)
  ∧ (∀ id, IsSeatInCommittee cs id = None →
       ∃ s, s ∈ ps ∧ vs_ID s = id ∧ CommitteeWeightFor cs id = vs_Weight s)
  ∧ (∀ id, IsSeatInCommittee cs id ≠ None → CommitteeWeightFor cs id = 0)
  ∧ cs_TotalWeight cs = u64 (sum_list_Z (CommitteeWeightFor cs <$> cs_Members cs))
  ∧ (∀ x y, x ∈ cs_Members cs → y ∈ vs_ID <$> ps → y ∉ cs_Members cs →
       digest_ltb (sortition_digest (snap_Version vs) roundID y)
         (sortition_digest (snap_Version vs) roundID x) = false).
Proof.
  intros Hok Hlen Hp vs cs ps. pose proof (snap_ok_keyed _ (snap_ok_reachable evs Hok Hlen)) as Hk. fold vs in Hk.
  destruct (SelectBoundedCommittee_eq vs roundID policy Hk) as (Hm & Hw & Ht & Hnd). fold cs in Hm, Hw, Ht.
  set (sel := selected_seats vs roundID policy) in *.
  assert (∀ id, id ∈ cs_Members cs ↔ id ∈ vs_ID <$> sel) as Hin by (intros; by rewrite Hm, sort_slice_perm).
  assert (∀ s, s ∈ sel → CommitteeWeightFor cs (vs_ID s) = vs_Weight s) as Hcw.
  { intros s Hs. unfold CommitteeWeightFor. rewrite Hw. erewrite elem_of_list_to_map_1; [done| |].
    - by rewrite <- list_fmap_compose.
    - apply list_elem_of_fmap. eauto. }
  assert (vs_ID <$> sel = selected_ids (snap_Version vs) roundID policy (vs_ID <$> ps)) as Hids
    by apply selected_seats_ids.
  unfold IsSeatInCommittee. split_and!.
  - rewrite Hm, sort_slice_perm, Hids, selected_ids_length, length_fmap by done. done.
  - by rewrite Hm, sort_slice_perm.
  - rewrite Hm. apply sort_slice_sorted; apply _.
  - intros id He. destruct (decide _) as [Hid|]; [|done]. apply Hin, list_elem_of_fmap in Hid as (s & -> & Hs).
    exists s. split_and!; [|done|by apply Hcw]. unfold sel, selected_seats in Hs.
    destruct (decide _); [by eapply sortition_sublist|done].
  - intros id He. destruct (decide _) as [|Hid]; [done|]. unfold CommitteeWeightFor. rewrite Hw.
    rewrite not_elem_of_list_to_map_1; [done|]. rewrite <- list_fmap_compose. by rewrite <- Hin.
  - rewrite Ht. f_equal. rewrite Hm, sort_slice_perm. rewrite <- list_fmap_compose.
    f_equal. apply list_fmap_ext. intros i s Hs. symmetry. by apply Hcw, (list_elem_of_lookup_2 _ i).
  - intros x y Hx%Hin Hy Hny. rewrite Hids in Hx. rewrite Hin, Hids in Hny.
    by apply (selected_ids_lowest _ _ policy (vs_ID <$> ps)); [apply ParticipatingSeats_ids_NoDup| | |].
Qed.

(** Stake plays no part in the draw.  Two snapshots at the same version whose
    participating seats have the same IDs select the same committee members,
    whatever the weights. *)
Theorem committee_ignores_stake vs1 vs2 roundID policy :
  ids_keyed vs1 → ids_keyed vs2 → snap_Version vs1 = snap_Version vs2 →
  vs_ID <$> ParticipatingSeats vs1 = vs_ID <$> ParticipatingSeats vs2 →
  cs_Members (SelectBoundedCommittee vs1 roundID policy)
  = cs_Members (SelectBoundedCommittee vs2 roundID policy).
Proof.
  intros H1 H2 Hv Hids.
  destruct (SelectBoundedCommittee_eq vs1 roundID policy H1) as (-> & _).
  destruct (SelectBoundedCommittee_eq vs2 roundID policy H2) as (-> & _).
  by rewrite !selected_seats_ids, Hv, Hids.
Qed.

(** A rotated-out key never votes.  In a snapshot of any replayed validator
    set, whatever the map order, a key that [ValidateVoteKeyEpoch] accepts is
    the current key of the seat it is accepted for, and that seat participates
    with weight. *)
Theorem vote_key_current evs order key id :
  Forall event_ok evs → Z.of_nat (length evs) <= MaxUint64 →
  let vs := TakeSnapshot (replay evs NewReducer) in
  order ≡ₚ map_to_list (snap_Seats vs) →
  ValidateVoteKeyEpoch order vs key = inl id →
  ∃ s, snap_Seats vs !! id = Some s ∧ vs_OperatorKey s = key ∧ PublicKey (CurrentKeyEpoch s) = key
    ∧ IsParticipating (vs_Status s) = true ∧ vs_Weight s ≠ 0.
Proof.
  intros Hok Hlen vs Ho. pose proof (snap_ok_reachable evs Hok Hlen) as Hs. fold vs in Hs.
  assert (∀ s, snap_Seats vs !! id = Some s → PublicKey (CurrentKeyEpoch s) = vs_OperatorKey s) as Hcur.
  { intros s Hl. destruct Hs as [Hc _]. apply (Hc id s Hl). }
  assert (∀ s, snap_Seats vs !! id = Some s → IsSeatVoteEligible vs id = None →
    IsParticipating (vs_Status s) = true ∧ vs_Weight s ≠ 0) as Hel.
  { intros s Hl. unfold IsSeatVoteEligible. rewrite Hl. destruct (IsParticipating _); [|done]. simpl.
    by case_decide. }
  unfold ValidateVoteKeyEpoch, IsSeatVoteEligibleByKey.
  destruct (eligible_scan vs key (SortedSeatIDs vs)) as [i|] eqn:Hsc.
  - intros [= ->]. apply eligible_scan_ok in Hsc as (s & Hl & Hk & He). exists s.
    destruct (Hel s Hl He). by rewrite (Hcur s Hl).
  - intros Hh. apply history_path_ok in Hh as (s & Hl & Hk & He).
    + exists s. destruct (Hel s Hl He). by rewrite <- (Hcur s Hl).
    + intros [i s] Hin. rewrite Ho, elem_of_map_to_list in Hin. done.
Qed.

(** A list of pairwise equal distinct elements is empty or a singleton. *)
Lemma unique_head {A} (l1 l2 : list A) : l1 ≡ₚ l2 → NoDup l1 → (∀ x y, x ∈ l1 → y ∈ l1 → x = y) → head l1 = head l2.
Proof.
  intros Hp Hnd Hu. destruct l1 as [|x l1]; [by apply Permutation_nil_l in Hp as ->|].
  destruct l1 as [|y l1]; [by apply Permutation_singleton_l in Hp as ->|].
  apply NoDup_cons in Hnd as [Hx _]. rewrite (Hu x y) in Hx by set_solver. set_solver.
Qed.

Lemma filter_snd (P : ValidatorSeat → Prop) `{∀ s, Decision (P s)} (order : list (ValidatorID * ValidatorSeat)) :
  filter P order.*2 = (filter (λ kv, P kv.2) order).*2.
Proof. induction order as [|[k s] o IH]; [done|]. csimpl. rewrite !filter_cons. simpl. case_decide; csimpl; by rewrite IH. Qed.

Lemma head_snd (l : list (ValidatorID * ValidatorSeat)) : head l.*2 = snd <$> head l.
Proof. by destruct l. Qed.

(** Which seat a key votes for can depend on the iteration order of a map.
    With unique operator keys [VoteWeightByKey] gives the same answer for every
    order.  But joining does not check that the operator key is free: after a
    second seat joins with the key of a voting one, one order gives that key its
    weight and another refuses it. *)
Theorem VoteWeightByKey_order :
  (∀ vs key o1 o2, o1 ≡ₚ map_to_list (snap_Seats vs) → o2 ≡ₚ map_to_list (snap_Seats vs) →
     (∀ id1 id2 s1 s2, snap_Seats vs !! id1 = Some s1 → snap_Seats vs !! id2 = Some s2 →
        vs_OperatorKey s1 = key → vs_OperatorKey s2 = key → id1 = id2) →
     VoteWeightByKey o1 vs key = VoteWeightByKey o2 vs key)
  ∧ (let evs := take 3 demo_evs ++
       [mkLifecycleEvent EventJoin "e2" 4 "v2" "key1" 10000000000 "r" 0 false "" 0 false "" "" 0 0 ""] in
     let vs := TakeSnapshot (replay evs NewReducer) in
     ∃ o1 o2, o1 ≡ₚ map_to_list (snap_Seats vs) ∧ o2 ≡ₚ map_to_list (snap_Seats vs)
       ∧ VoteWeightByKey o1 vs "key1" = (20000000000, true)
       ∧ VoteWeightByKey o2 vs "key1" = (0, false)).
Proof.
  split.
  - intros vs key o1 o2 H1 H2 Hu. unfold VoteWeightByKey. rewrite !filter_snd.
    rewrite !head_snd.
    rewrite (unique_head (filter (λ kv, vs_OperatorKey kv.2 = key) o1)
      (filter (λ kv, vs_OperatorKey kv.2 = key) o2)); [done| | |].
    + by rewrite H1, H2.
    + apply NoDup_filter. rewrite H1. apply NoDup_map_to_list.
    + intros [i s] [j s'] [Hk Hi]%list_elem_of_filter [Hk' Hj]%list_elem_of_filter.
      rewrite H1, elem_of_map_to_list in Hi, Hj. specialize (Hu i j s s' Hi Hj Hk Hk') as <-.
      congruence.
  - intros evs vs. exists (map_to_list (snap_Seats vs)), (reverse (map_to_list (snap_Seats vs))).
    split_and!; [done|by rewrite reverse_Permutation| |]; by vm_compute.
Qed.

(** ** Concrete instances *)

Lemma snap_totals_witness :
  let vs := TakeSnapshot (replay demo_evs NewReducer) in
  ActiveWeight vs = u64 (sum_list_Z (vs_Weight <$> ParticipatingSeats vs)).
Proof. intros vs. apply (snap_totals demo_evs demo_evs_ok). by vm_compute. Defined.

(** Three genesis seats, active from the start. *)
Definition demo_join (k : LifecycleEventKind) (id key : string) (stake : Z) : LifecycleEvent :=
  mkLifecycleEvent k ("j" +:+ id) 1 id key stake "r" 0 true "" 0 false "" "" 0 0 "".

Definition demo_set (w1 w2 w3 : Z) : list LifecycleEvent :=
  [demo_join EventJoin "a" "ka" w1; demo_join EventJoin "b" "kb" w2; demo_join EventJoin "c" "kc" w3;
   demo_join EventReinstate "a" "ka" 0; demo_join EventReinstate "b" "kb" 0;
   demo_join EventReinstate "c" "kc" 0; demo_join EventActivate "a" "ka" 0;
   demo_join EventActivate "b" "kb" 0; demo_join EventActivate "c" "kc" 0].

Lemma demo_set_ok : Forall event_ok (demo_set 10 20 30).
Proof. repeat constructor; by vm_compute. Qed.

Lemma vote_weight_bounded_witness :
  let vs := TakeSnapshot (replay (demo_set 10 20 30) NewReducer) in
  ActiveWeight vs = 60
  ∧ sum_list_Z ((λ k, (VoteWeightByKey (map_to_list (snap_Seats vs)) vs k).1) <$> ["ka"; "kb"; "kz"])
    <= ActiveWeight vs.
Proof.
  intros vs. split; [by vm_compute|].
  apply (vote_weight_bounded (demo_set 10 20 30)); [apply demo_set_ok|by vm_compute|done| |by vm_compute].
  apply (bool_decide_unpack _). by vm_compute.
Defined.

Lemma committee_bounded_witness :
  let vs := TakeSnapshot (replay (demo_set 10 20 30) NewReducer) in
  length (ParticipatingSeats vs) = 3%nat
  ∧ length (cs_Members (SelectBoundedCommittee vs "r1" (mkPolicy 1 2))) = 2%nat.
Proof.
  intros vs. split; [by vm_compute|].
  destruct (committee_bounded (demo_set 10 20 30) "r1" (mkPolicy 1 2) demo_set_ok) as [Hl _];
    [by vm_compute|by vm_compute|]. fold vs in Hl.
  assert (length (ParticipatingSeats vs) = 3%nat) as H3 by (by vm_compute).
  apply Nat2Z.inj. rewrite Hl, H3. reflexivity.
Defined.

Lemma committee_ignores_stake_witness :
  cs_Members (SelectBoundedCommittee (TakeSnapshot (replay (demo_set 10 20 30) NewReducer)) "r1" (mkPolicy 1 2))
  = cs_Members (SelectBoundedCommittee (TakeSnapshot (replay (demo_set 10 20 9000) NewReducer)) "r1" (mkPolicy 1 2)).
Proof.
  apply committee_ignores_stake; [| |by vm_compute|by vm_compute];
    apply snap_ok_keyed, snap_ok_reachable; [apply demo_set_ok|by vm_compute| |by vm_compute].
  repeat constructor; by vm_compute.
Defined.

Lemma vote_key_current_witness :
  let vs := TakeSnapshot (replay (demo_set 10 20 30) NewReducer) in
  ∃ s, snap_Seats vs !! "a" = Some s ∧ vs_OperatorKey s = "ka" ∧ IsParticipating (vs_Status s) = true.
Proof.
  intros vs.
  destruct (vote_key_current (demo_set 10 20 30) (map_to_list (snap_Seats vs)) "ka" "a" demo_set_ok)
    as (s & Hs & Hk & _ & Hp & _); [by vm_compute|done|by vm_compute|].
  exists s. by split_and!.
Defined.
