(* ===== verification/Float64.v ===== *)
(** Go's [float64], for the operations the code applies to it.

    A finite double is represented by its exact rational value.  Conversion,
    division and subtraction compute the exact result and round it to 53
    significant bits, ties to even, as IEEE 754 prescribes.  The arguments that
    occur (64-bit integers, their quotients and constants in [0,1]) stay far
    from overflow and from the subnormal range, which are not represented. *)

From Stdlib Require Import QArith Lqa Qround.
From S2P Require Import Prelude.
#[local] Open Scope Z_scope.

Record F64 := mkF64 { f64_num : Z; f64_den : Z }.

(** Rounding of [n / d] to an integer, ties to even. *)
Definition round_half_even (n d : Z) : Z :=
  let q := n / d in
  let r := n mod d in
  if decide (2 * r < d) then q
  else if decide (2 * r > d) then q + 1
  else if Z.even q then q else q + 1.

(** [n / d >= 2^52 * 2^e]. *)
Definition has_52_bits (n d e : Z) : bool :=
  if decide (0 <= e) then bool_decide (2 ^ 52 * d * 2 ^ e <= n)
  else bool_decide (2 ^ 52 * d <= n * 2 ^ (- e)).

(** The exponent of the last place of [n / d]. *)
Definition f64_exp (n d : Z) : Z :=
  let e := Z.log2 n - Z.log2 d - 52 in if has_52_bits n d e then e else e - 1.

Definition f64_round_pos (n d : Z) : F64 :=
  let e := f64_exp n d in
  if decide (0 <= e) then mkF64 (round_half_even n (d * 2 ^ e) * 2 ^ e) 1
  else mkF64 (round_half_even (n * 2 ^ (- e)) d) (2 ^ (- e)).

(** The double nearest to [n / d], for positive [d]. *)
Definition f64_round (n d : Z) : F64 :=
  if decide (n = 0) then mkF64 0 1
  else if decide (0 < n) then f64_round_pos n d
  else let f := f64_round_pos (- n) d in mkF64 (- f64_num f) (f64_den f).

(** [float64(x)]. *)
Definition f64_of_u64 (x : Z) : F64 := f64_round x 1.

(** [a / b], for positive [b]. *)
Definition f64_div (a b : F64) : F64 := f64_round (f64_num a * f64_den b) (f64_den a * f64_num b).

Definition f64_sub (a b : F64) : F64 :=
  f64_round (f64_num a * f64_den b - f64_num b * f64_den a) (f64_den a * f64_den b).

Definition f64_leb (a b : F64) : bool := bool_decide (f64_num a * f64_den b <= f64_num b * f64_den a).
Definition f64_ltb (a b : F64) : bool := bool_decide (f64_num a * f64_den b < f64_num b * f64_den a).

Definition f64_one : F64 := mkF64 1 1.

(** The ratio of two 64-bit counts, [float64(x) / float64(y)]. *)
Definition f64_ratio (x y : Z) : F64 := f64_div (f64_of_u64 x) (f64_of_u64 y).

Definition f64_mul (a b : F64) : F64 := f64_round (f64_num a * f64_num b) (f64_den a * f64_den b).

Definition f64_add (a b : F64) : F64 :=
  f64_round (f64_num a * f64_den b + f64_num b * f64_den a) (f64_den a * f64_den b).

(** The integral part of a non-negative double, [math.Trunc]. *)
Definition f64_trunc (f : F64) : Z := f64_num f / f64_den f.

(** [math.Round] of a non-negative double: ties away from zero. *)
Definition f64_Round (f : F64) : F64 := mkF64 ((2 * f64_num f + f64_den f) / (2 * f64_den f)) 1.

(** The conversion of a double to [uint64] truncates; the result of an
    out-of-range conversion is up to the implementation of Go. *)
Class F64Conv : Type := {
  u64_out_of_range : Z → Z;
  u64_out_of_range_u64 z : is_u64 (u64_out_of_range z);
}.

Definition f64_to_u64 `{!F64Conv} (f : F64) : Z :=
  let z := f64_trunc f in if decide (is_u64 z) then z else u64_out_of_range z.

(** [uint64(float64(x) * r)]. *)
Definition f64_share `{!F64Conv} (x : Z) (r : F64) : Z := f64_to_u64 (f64_mul (f64_of_u64 x) r).

(** ** Checks against the values of an IEEE 754 implementation *)

(** 0.667, and [1.0 - 0.667], which is not the double nearest to 0.333. *)
Example f64_0_667 : f64_round 667 1000 = mkF64 (2 * 3003900951456121) (2 ^ 53).
Proof. vm_compute. reflexivity. Qed.

Example f64_1_sub_0_667 : f64_sub f64_one (f64_round 667 1000) = mkF64 (4 * 1499698675914375) (2 ^ 54).
Proof. vm_compute. reflexivity. Qed.

Example f64_0_333 : f64_ratio 333 1000 = mkF64 5998794703657501 (2 ^ 54).
Proof. vm_compute. reflexivity. Qed.

Example f64_ties_to_even : f64_of_u64 (2 ^ 53 + 1) = mkF64 (2 ^ 53) 1 ∧ f64_of_u64 (2 ^ 53 + 3) = mkF64 (2 ^ 53 + 4) 1.
Proof. vm_compute. by split. Qed.

(** ** Rounding error *)

Lemma round_half_even_error n d : 0 < d → 2 * Z.abs (round_half_even n d * d - n) <= d.
Proof.
  intros Hd. pose proof (Z_div_mod_eq_full n d) as Hn. pose proof (Z.mod_pos_bound n d Hd) as Hr.
  unfold round_half_even. repeat case_decide; [nia|nia|]. destruct (Z.even _); nia.
Qed.

Lemma round_half_even_nonneg n d : 0 <= n → 0 < d → 0 <= round_half_even n d.
Proof.
  intros Hn Hd. pose proof (Z.div_pos n d Hn Hd). unfold round_half_even.
  repeat case_decide; [lia|lia|]. destruct (Z.even _); lia.
Qed.

Lemma has_52_bits_exp n d : 0 < n → 0 < d → has_52_bits n d (f64_exp n d) = true.
Proof.
  intros Hn Hd. unfold f64_exp.
  destruct (has_52_bits n d (Z.log2 n - Z.log2 d - 52)) eqn:He; [done|clear He].
  pose proof (Z.log2_spec n Hn) as [Hn1 _]. pose proof (Z.log2_spec d Hd) as [_ Hd2].
  pose proof (Z.log2_nonneg n). pose proof (Z.log2_nonneg d).
  set (a := Z.log2 n) in *. set (b := Z.log2 d) in *.
  assert (2 ^ Z.succ b = 2 ^ (b + 1)) as Hs by (f_equal; lia). rewrite Hs in Hd2.
  set (e := a - b - 52 - 1) in *. change (2 ^ 52) with 4503599627370496 in *.
  unfold has_52_bits. case_decide as He; apply bool_decide_eq_true; change (2 ^ 52) with 4503599627370496.
  - assert (2 ^ a = 2 ^ 52 * 2 ^ (b + 1) * 2 ^ e) as Ha by (rewrite <- !Z.pow_add_r by lia; f_equal; lia).
    assert (0 < 2 ^ e) by (apply Z.pow_pos_nonneg; lia). change (2 ^ 52) with 4503599627370496 in Ha. nia.
  - assert (2 ^ a * 2 ^ (- e) = 2 ^ 52 * 2 ^ (b + 1)) as Ha by (rewrite <- !Z.pow_add_r by lia; f_equal; lia).
    assert (0 < 2 ^ (- e)) by (apply Z.pow_pos_nonneg; lia). change (2 ^ 52) with 4503599627370496 in Ha. nia.
Qed.

(** The relative error of rounding is at most 2^-53. *)
Lemma f64_round_error n d : 0 <= n → 0 < d →
  let f := f64_round n d in
  0 < f64_den f ∧ 0 <= f64_num f
  ∧ Z.abs (f64_num f * d - n * f64_den f) * 2 ^ 53 <= n * f64_den f.
Proof.
  intros Hn Hd. unfold f64_round. destruct (decide (n = 0)) as [->|Hn0]; [simpl; lia|].
  rewrite decide_True by lia. pose proof (has_52_bits_exp n d ltac:(lia) Hd) as H52.
  unfold f64_round_pos, has_52_bits in *. set (e := f64_exp n d) in *. clearbody e.
  change (2 ^ 52) with 4503599627370496 in *. change (2 ^ 53) with 9007199254740992.
  destruct (decide (0 <= e)); apply bool_decide_eq_true in H52; simpl.
  - assert (0 < 2 ^ e) as Hp by (apply Z.pow_pos_nonneg; lia). set (p := 2 ^ e) in *. clearbody p.
    pose proof (round_half_even_error n (d * p) ltac:(nia)).
    pose proof (round_half_even_nonneg n (d * p) Hn ltac:(nia)).
    set (m := round_half_even n (d * p)) in *. clearbody m. split_and!; [lia|nia|].
    replace (m * p * d - n * 1) with (m * (d * p) - n) by ring. nia.
  - assert (0 < 2 ^ (- e)) as Hp by (apply Z.pow_pos_nonneg; lia). set (p := 2 ^ (- e)) in *. clearbody p.
    pose proof (round_half_even_error (n * p) d Hd).
    pose proof (round_half_even_nonneg (n * p) d ltac:(nia) Hd).
    set (m := round_half_even (n * p) d) in *. clearbody m. split_and!; [lia|nia|nia].
Qed.

Lemma relative_bounds p q N : 0 < N → Z.abs (p - q) * N <= q → q * (N - 1) <= p * N <= q * (N + 1).
Proof.
  intros HN H. pose proof (Z.abs_nonneg (p - q)). assert (0 <= q) by nia.
  assert ((p - q) * N <= Z.abs (p - q) * N) by (apply Z.mul_le_mono_nonneg_r; lia).
  assert ((q - p) * N <= Z.abs (p - q) * N) by (apply Z.mul_le_mono_nonneg_r; lia).
  rewrite Z.mul_sub_distr_l, Z.mul_add_distr_l. rewrite Z.mul_sub_distr_r in *. lia.
Qed.

(** The three roundings of [float64(x) / float64(y)] together. *)
Lemma f64_ratio_bounds x y : 0 <= x → 0 < y →
  let N := 2 ^ 53 in
  let f := f64_ratio x y in
  0 < f64_den f ∧ 0 <= f64_num f
  ∧ f64_num f * y * N * (N - 1) <= x * f64_den f * (N + 1) * (N + 1)
  ∧ x * f64_den f * (N - 1) * (N - 1) <= f64_num f * y * N * (N + 1).
Proof.
  intros Hx Hy. cbv zeta. unfold f64_ratio, f64_div, f64_of_u64.
  destruct (f64_round_error x 1 Hx ltac:(lia)) as (Had & Han & Ha).
  destruct (f64_round_error y 1 ltac:(lia) ltac:(lia)) as (Hbd & Hbn & Hb).
  destruct (f64_round x 1) as [an ad], (f64_round y 1) as [bn bd]. cbn [f64_num f64_den] in *.
  change (2 ^ 53) with 9007199254740992 in *. remember 9007199254740992 as N eqn:HNeq.
  assert (1 < N) as HN by lia.
  assert (x * ad * (N - 1) <= an * N <= x * ad * (N + 1)) as [Ha1 Ha2]
    by (apply relative_bounds; [lia|]; by rewrite Z.mul_1_r in Ha).
  assert (y * bd * (N - 1) <= bn * N <= y * bd * (N + 1)) as [Hb1 Hb2]
    by (apply relative_bounds; [lia|]; by rewrite Z.mul_1_r in Hb).
  assert (0 < bn) as Hbn0 by (assert (0 < y * bd * (N - 1)) by (repeat apply Z.mul_pos_pos; lia);
    destruct (Z.le_gt_cases bn 0) as [Hle|]; [|lia];
    pose proof (Z.mul_nonpos_nonneg bn N Hle ltac:(lia)); lia).
  destruct (f64_round_error (an * bd) (ad * bn) ltac:(apply Z.mul_nonneg_nonneg; lia)
    ltac:(apply Z.mul_pos_pos; lia)) as (Hfd & Hfn & Hf).
  destruct (f64_round (an * bd) (ad * bn)) as [fn fd]. cbn [f64_num f64_den] in *.
  change (2 ^ 53) with 9007199254740992 in Hf. rewrite <- HNeq in Hf. clear HNeq.
  apply relative_bounds in Hf as [Hf2 Hf1]; [|lia].
  split_and!; [done|done| |].
  - apply (Zmult_le_reg_r _ _ (ad * bd)); [apply Z.lt_gt, Z.mul_pos_pos; lia|].
    transitivity (fn * ad * N * (bn * N)); [|transitivity (bd * fd * (N + 1) * (an * N))].
    + replace (fn * y * N * (N - 1) * (ad * bd)) with (fn * ad * N * (y * bd * (N - 1))) by ring.
      apply Z.mul_le_mono_nonneg_l; [|done]. repeat apply Z.mul_nonneg_nonneg; lia.
    + replace (fn * ad * N * (bn * N)) with (fn * (ad * bn) * N * N) by ring.
      replace (bd * fd * (N + 1) * (an * N)) with (an * bd * fd * (N + 1) * N) by ring.
      apply Z.mul_le_mono_nonneg_r; [lia|done].
    + replace (x * fd * (N + 1) * (N + 1) * (ad * bd)) with (bd * fd * (N + 1) * (x * ad * (N + 1))) by ring.
      apply Z.mul_le_mono_nonneg_l; [|done]. repeat apply Z.mul_nonneg_nonneg; lia.
  - apply (Zmult_le_reg_r _ _ (ad * bd)); [apply Z.lt_gt, Z.mul_pos_pos; lia|].
    transitivity (bd * fd * (N - 1) * (an * N)); [|transitivity (fn * ad * N * (bn * N))].
    + replace (x * fd * (N - 1) * (N - 1) * (ad * bd)) with (bd * fd * (N - 1) * (x * ad * (N - 1))) by ring.
      apply Z.mul_le_mono_nonneg_l; [|done]. repeat apply Z.mul_nonneg_nonneg; lia.
    + replace (fn * ad * N * (bn * N)) with (fn * (ad * bn) * N * N) by ring.
      replace (bd * fd * (N - 1) * (an * N)) with (an * bd * fd * (N - 1) * N) by ring.
      apply Z.mul_le_mono_nonneg_r; [lia|done].
    + replace (fn * y * N * (N + 1) * (ad * bd)) with (fn * ad * N * (y * bd * (N + 1))) by ring.
      apply Z.mul_le_mono_nonneg_l; [|done]. repeat apply Z.mul_nonneg_nonneg; lia.
Qed.

(** A test against a threshold, from both sides: passing and failing it bound
    the counts to within the rounding error. *)
Lemma f64_ratio_ge t x y : 0 <= x → 0 < y → 0 < f64_den t →
  let N := 2 ^ 53 in
  (f64_leb t (f64_ratio x y) = true → f64_num t * y * N * (N - 1) <= x * f64_den t * (N + 1) * (N + 1))
  ∧ (f64_leb t (f64_ratio x y) = false → x * f64_den t * (N - 1) * (N - 1) <= f64_num t * y * N * (N + 1)).
Proof.
  intros Hx Hy Ht N. destruct (f64_ratio_bounds x y Hx Hy) as (Hd & Hn & Hu & Hl). fold N in Hu, Hl.
  assert (1 < N) as HN by (by unfold N). clearbody N. unfold f64_leb.
  destruct (f64_ratio x y) as [fn fd], t as [tn td]; cbn [f64_num f64_den] in *.
  split; intros H; [apply bool_decide_eq_true in H|apply bool_decide_eq_false in H];
    apply (Zmult_le_reg_r _ _ fd); try lia.
  - transitivity (fn * y * N * (N - 1) * td).
    + replace (tn * y * N * (N - 1) * fd) with (y * N * (N - 1) * (tn * fd)) by ring.
      replace (fn * y * N * (N - 1) * td) with (y * N * (N - 1) * (fn * td)) by ring.
      apply Z.mul_le_mono_nonneg_l; [repeat apply Z.mul_nonneg_nonneg; lia|done].
    + replace (x * td * (N + 1) * (N + 1) * fd) with (x * fd * (N + 1) * (N + 1) * td) by ring.
      apply Z.mul_le_mono_nonneg_r; [lia|done].
  - transitivity (fn * y * N * (N + 1) * td).
    + replace (x * td * (N - 1) * (N - 1) * fd) with (x * fd * (N - 1) * (N - 1) * td) by ring.
      apply Z.mul_le_mono_nonneg_r; [lia|done].
    + replace (tn * y * N * (N + 1) * fd) with (y * N * (N + 1) * (tn * fd)) by ring.
      replace (fn * y * N * (N + 1) * td) with (y * N * (N + 1) * (fn * td)) by ring.
      apply Z.mul_le_mono_nonneg_l; [repeat apply Z.mul_nonneg_nonneg; lia|lia].
Qed.

Lemma f64_ltb_leb a b : f64_ltb a b = negb (f64_leb b a).
Proof. unfold f64_ltb, f64_leb. repeat case_bool_decide; simpl; lia || done. Qed.

Lemma f64_ltb_lt a b : f64_ltb a b = true → f64_leb a b = true.
Proof. unfold f64_ltb, f64_leb. intros H%bool_decide_eq_true. apply bool_decide_eq_true. lia. Qed.

(** ** Integers up to 2^53 are exact *)

Lemma round_half_even_1 n : round_half_even n 1 = n.
Proof. unfold round_half_even. rewrite Z.mod_1_r, Z.div_1_r. by rewrite decide_True by lia. Qed.

Lemma f64_of_u64_exact x : 0 <= x <= 2 ^ 53 →
  let f := f64_of_u64 x in 0 < f64_den f ∧ f64_num f = x * f64_den f.
Proof.
  intros Hx. cbv zeta. destruct (decide (x = 2 ^ 53)) as [->|Hne]; [vm_compute; split; [done|done]|].
  unfold f64_of_u64, f64_round. destruct (decide (x = 0)) as [->|H0]; [done|].
  rewrite decide_True by lia. unfold f64_round_pos.
  assert (f64_exp x 1 <= 0) as He.
  { assert (Z.log2 x < 53) by (apply Z.log2_lt_pow2; lia). unfold f64_exp. change (Z.log2 1) with 0.
    destruct (has_52_bits _ _ _); lia. }
  assert (0 < 2 ^ (- f64_exp x 1)) as Hp by (apply Z.pow_pos_nonneg; lia).
  case_decide; cbn [f64_num f64_den]; [|by rewrite round_half_even_1].
  assert (f64_exp x 1 = 0) as -> by lia. change (2 ^ 0) with 1. rewrite !Z.mul_1_r. by rewrite round_half_even_1.
Qed.

(** ** Values as rationals

    Error bounds of expressions are stated over [Q], where [lra] applies. *)

Definition f64_Q (f : F64) : Q := f64_num f # Z.to_pos (f64_den f).

(** The unit roundoff. *)
Definition ulp : Q := 1 # 9007199254740992.

(** A non-negative double. *)
Definition f64_ok (f : F64) : Prop := 0 < f64_den f ∧ 0 <= f64_num f.

Lemma f64_ok_Q f : f64_ok f → (0 <= f64_Q f)%Q.
Proof. intros [Hd Hn]. unfold f64_Q, Qle. simpl. lia. Qed.

Lemma f64_round_Q n d : 0 <= n → 0 < d →
  f64_ok (f64_round n d)
  ∧ ((n # Z.to_pos d) * (1 - ulp) <= f64_Q (f64_round n d) <= (n # Z.to_pos d) * (1 + ulp))%Q.
Proof.
  intros Hn Hd. destruct (f64_round_error n d Hn Hd) as (Hfd & Hfn & He).
  change (2 ^ 53) with 9007199254740992 in He. destruct (f64_round n d) as [fn fd]. cbn [f64_num f64_den] in *.
  split; [done|]. apply relative_bounds in He as [H1 H2]; [|lia].
  unfold f64_Q, ulp, Qle, Qminus, Qplus, Qmult, Qopp. cbn [Qnum Qden f64_num f64_den].
  rewrite !Pos2Z.inj_mul, !Z2Pos.id by lia. split; lia.
Qed.

Lemma f64_mul_Q a b : f64_ok a → f64_ok b →
  f64_ok (f64_mul a b)
  ∧ (f64_Q a * f64_Q b * (1 - ulp) <= f64_Q (f64_mul a b) <= f64_Q a * f64_Q b * (1 + ulp))%Q.
Proof.
  intros [Had Han] [Hbd Hbn]. unfold f64_mul.
  destruct (f64_round_Q (f64_num a * f64_num b) (f64_den a * f64_den b)) as [Hok HQ]; [nia|nia|].
  split; [done|]. assert (f64_Q a * f64_Q b == f64_num a * f64_num b # Z.to_pos (f64_den a * f64_den b))%Q as ->; [|done].
  unfold f64_Q, Qeq, Qmult. cbn [Qnum Qden]. rewrite Z2Pos.inj_mul by lia. done.
Qed.

Lemma f64_add_Q a b : f64_ok a → f64_ok b →
  f64_ok (f64_add a b)
  ∧ ((f64_Q a + f64_Q b) * (1 - ulp) <= f64_Q (f64_add a b) <= (f64_Q a + f64_Q b) * (1 + ulp))%Q.
Proof.
  intros [Had Han] [Hbd Hbn]. unfold f64_add.
  destruct (f64_round_Q (f64_num a * f64_den b + f64_num b * f64_den a) (f64_den a * f64_den b)) as [Hok HQ];
    [apply Z.add_nonneg_nonneg; apply Z.mul_nonneg_nonneg; lia|apply Z.mul_pos_pos; lia|].
  split; [done|].
  assert (f64_Q a + f64_Q b == f64_num a * f64_den b + f64_num b * f64_den a # Z.to_pos (f64_den a * f64_den b))%Q
    as ->; [|done].
  unfold f64_Q, Qeq, Qplus. cbn [Qnum Qden]. rewrite Z2Pos.inj_mul, !Z2Pos.id by lia. done.
Qed.

Lemma f64_div_Q a b : f64_ok a → f64_ok b → 0 < f64_num b →
  f64_ok (f64_div a b)
  ∧ (f64_Q a / f64_Q b * (1 - ulp) <= f64_Q (f64_div a b) <= f64_Q a / f64_Q b * (1 + ulp))%Q.
Proof.
  intros [Had Han] [Hbd Hbn] Hb. unfold f64_div.
  destruct (f64_round_Q (f64_num a * f64_den b) (f64_den a * f64_num b)) as [Hok HQ]; [nia|nia|].
  split; [done|].
  assert (f64_Q a / f64_Q b == f64_num a * f64_den b # Z.to_pos (f64_den a * f64_num b))%Q as ->; [|done].
  destruct b as [bn bd], a as [an ad]; cbn [f64_num f64_den] in *.
  destruct bn as [|bn|bn]; [lia| |lia]. destruct bd as [|bd|bd]; [lia| |lia]. destruct ad as [|ad|ad]; [lia| |lia].
  unfold f64_Q, Qeq, Qdiv, Qmult, Qinv. cbn. done.
Qed.

Lemma f64_of_u64_Q x : 0 <= x →
  f64_ok (f64_of_u64 x) ∧ (inject_Z x * (1 - ulp) <= f64_Q (f64_of_u64 x) <= inject_Z x * (1 + ulp))%Q.
Proof. intros Hx. apply (f64_round_Q x 1); lia. Qed.

Lemma f64_trunc_Q f : f64_ok f → 0 <= f64_trunc f ∧ (inject_Z (f64_trunc f) <= f64_Q f)%Q.
Proof.
  intros [Hd Hn]. unfold f64_trunc. split; [by apply Z.div_pos|].
  unfold f64_Q, Qle, inject_Z. cbn [Qnum Qden]. rewrite Z2Pos.id by lia.
  pose proof (Z.mul_div_le (f64_num f) (f64_den f) Hd). lia.
Qed.

(** A share of an amount exceeds its exact value by the rounding errors only. *)
Lemma f64_share_bound `{!F64Conv} x r : is_u64 x → f64_ok r → (f64_Q r <= 1 - 3 * ulp)%Q →
  0 <= f64_share x r <= x ∧ (inject_Z (f64_share x r) <= inject_Z x * (f64_Q r * (1 + 3 * ulp)))%Q.
Proof.
  intros Hx Hr Hr1. unfold f64_share, f64_to_u64.
  destruct (f64_of_u64_Q x ltac:(unfold is_u64 in Hx; lia)) as [Hfx [_ Hfx2]].
  destruct (f64_mul_Q (f64_of_u64 x) r Hfx Hr) as [Hm [_ Hm2]].
  destruct (f64_trunc_Q _ Hm) as [Ht0 Ht]. set (t := f64_trunc _) in *. clearbody t.
  pose proof (f64_ok_Q _ Hfx) as Hq1. pose proof (f64_ok_Q _ Hr) as Hq2.
  assert (0 <= inject_Z x)%Q as Hq3 by (change 0%Q with (inject_Z 0); rewrite <- Zle_Qle; unfold is_u64 in Hx; lia).
  set (X := inject_Z x) in *. set (R := f64_Q r) in *. set (F := f64_Q (f64_of_u64 x)) in *.
  assert (F * R <= X * (1 + ulp) * R)%Q as H1 by (apply Qmult_le_compat_r; done).
  assert (0 <= X * R)%Q as H2 by (apply Qmult_le_0_compat; done).
  assert (inject_Z t <= X * (R * (1 + 3 * ulp)))%Q as Hb.
  { eapply Qle_trans; [exact Ht|]. eapply Qle_trans; [exact Hm2|].
    eapply Qle_trans; [apply (Qmult_le_compat_r _ (X * (1 + ulp) * R)); [exact H1|unfold ulp; lra]|].
    unfold ulp. lra. }
  assert (inject_Z t <= X)%Q as HX.
  { eapply Qle_trans; [exact Hb|]. rewrite <- (Qmult_1_r X) at 2. rewrite !(Qmult_comm X).
    apply Qmult_le_compat_r; [|done]. unfold ulp in *. lra. }
  unfold X in HX. rewrite <- Zle_Qle in HX. rewrite decide_True by (unfold is_u64 in *; lia). done.
Qed.

(** ** Rounding does not pass an integer *)

Lemma round_half_even_le n d k : 0 < d → n <= k * d → round_half_even n d <= k.
Proof.
  intros Hd Hn. pose proof (Z_div_mod_eq_full n d) as Hq. pose proof (Z.mod_pos_bound n d Hd) as Hr. unfold round_half_even.
  assert (n / d < k ∨ n / d = k ∧ n mod d = 0) by nia. repeat case_decide; try nia. destruct (Z.even _); nia.
Qed.

Lemma f64_round_le n d k : 0 <= n → 0 < d → 0 <= k <= 2 ^ 53 → n <= k * d → f64_num (f64_round n d) <= k * f64_den (f64_round n d).
Proof.
  intros Hn Hd Hk Hle. unfold f64_round. destruct (decide (n = 0)) as [->|H0]; [cbn; lia|]. rewrite decide_True by lia.
  unfold f64_round_pos. pose proof (has_52_bits_exp n d ltac:(lia) Hd) as H52. unfold has_52_bits in H52. set (e := f64_exp n d) in *. clearbody e.
  change (2 ^ 52) with 4503599627370496 in H52. change (2 ^ 53) with 9007199254740992 in Hk.
  destruct (decide (0 <= e)); apply bool_decide_eq_true in H52; cbn [f64_num f64_den].
  - destruct (decide (e = 0)) as [->|He].
    + change (2 ^ 0) with 1. rewrite !Z.mul_1_r. by apply round_half_even_le.
    + assert (2 <= 2 ^ e) by (change 2 with (2 ^ 1) at 1; apply Z.pow_le_mono_r; lia). assert (k = 9007199254740992 ∧ 2 ^ e = 2) as [-> E] by nia. rewrite E in *.
      assert (round_half_even n (d * 2) <= 4503599627370496) by (apply round_half_even_le; nia). lia.
  - assert (0 < 2 ^ (- e)) as Hp by (apply Z.pow_pos_nonneg; lia). apply round_half_even_le; [done|]. nia.
Qed.

(** A double between 0 and an integer. *)
Definition within (k : Z) (f : F64) : Prop := f64_ok f ∧ f64_num f <= k * f64_den f.

Lemma round_within n d k : 0 <= n → 0 < d → 0 <= k <= 2 ^ 53 → n <= k * d → within k (f64_round n d).
Proof. intros Hn Hd Hk Hle. split; [by apply f64_round_Q|by apply f64_round_le]. Qed.

Lemma within_mul a b c x y : within a x → within b y → 0 <= a → 0 <= b → a * b <= c → 0 <= c <= 2 ^ 53 → within c (f64_mul x y).
Proof.
  intros [[Hdx Hnx] Hx] [[Hdy Hny] Hy] Ha Hb Hc Hc53. apply round_within; [nia|nia|done|].
  assert (f64_num x * f64_num y <= (a * f64_den x) * (b * f64_den y)) by (apply Z.mul_le_mono_nonneg; done).
  assert (a * b * (f64_den x * f64_den y) <= c * (f64_den x * f64_den y)) by (apply Z.mul_le_mono_nonneg_r; [nia|done]). nia.
Qed.

Lemma within_add a b c x y : within a x → within b y → a + b <= c → 0 <= c <= 2 ^ 53 → within c (f64_add x y).
Proof.
  intros [[Hdx Hnx] Hx] [[Hdy Hny] Hy] Hc Hc53. apply round_within; [nia|nia|done|].
  assert (f64_num x * f64_den y <= a * f64_den x * f64_den y) by (apply Z.mul_le_mono_nonneg_r; lia).
  assert (f64_num y * f64_den x <= b * f64_den y * f64_den x) by (apply Z.mul_le_mono_nonneg_r; lia).
  assert ((a + b) * (f64_den x * f64_den y) <= c * (f64_den x * f64_den y)) by (apply Z.mul_le_mono_nonneg_r; [nia|done]). nia.
Qed.

Lemma within_int n : 0 <= n <= 2 ^ 53 → within n (f64_of_u64 n) ∧ f64_num (f64_of_u64 n) = n * f64_den (f64_of_u64 n).
Proof. intros Hn. destruct (f64_of_u64_exact n Hn) as [Hd He]. split; [|done]. split; [split; [done|nia]|lia]. Qed.

Lemma within_div a b c x y : within a x → 0 < f64_den y → f64_num y = b * f64_den y → 0 < b → a <= c * b → 0 <= c <= 2 ^ 53 → within c (f64_div x y).
Proof.
  intros [[Hdx Hnx] Hx] Hdy Hny Hb Hc Hc53. apply round_within; [nia|rewrite Hny; nia|done|]. rewrite Hny.
  assert (a * f64_den x <= c * b * f64_den x) by (apply Z.mul_le_mono_nonneg_r; lia).
  assert (f64_num x * f64_den y <= c * b * f64_den x * f64_den y) by (apply Z.mul_le_mono_nonneg_r; lia). lia.
Qed.

Lemma ratio_within x y : 0 <= x <= y → 0 < y <= 2 ^ 53 → within 1 (f64_ratio x y).
Proof.
  intros Hx Hy. destruct (within_int x) as [Hwx _]; [lia|]. destruct (within_int y) as [[[Hd _] _] He]; [lia|].
  apply (within_div x y 1); [done|done|done|lia|lia|change (2 ^ 53) with 9007199254740992; lia].
Qed.

Lemma f64_leb_le a b : f64_leb a b = true → f64_num a * f64_den b <= f64_num b * f64_den a.
Proof. apply bool_decide_eq_true. Qed.

#[global] Opaque f64_round f64_sub f64_mul f64_add f64_ratio f64_leb f64_ltb.
