(* ===== verification/Voting.v ===== *)
(** internal/consensus/voting.go: virtual voting.

    State: one vote record per event and the counter that orders finalized
    events.  A record is bound to the validator set of the moment it was
    opened; every vote triggers a tally.  [ValidatorSetSource] is the interface
    through which a validator snapshot gives votes their weight. *)

From S2P Require Import Prelude GoStd Store Event Identity Lifecycle Snapshot Float64.

(** The methods of the [ValidatorSetSource] interface; [None] is "not eligible". *)
Record ValidatorSetSource := mkSource {
  vss_VoteWeightByKey : AgentID → option Z;
  vss_SetVersion : Z;
  vss_ActiveWeight : Z;
}.

(** A [ValidatorSnapshot] as a source, for one iteration order of its map. *)
Definition snapshot_source (order : list (ValidatorID * ValidatorSeat)) (vs : ValidatorSnapshot) :
    ValidatorSetSource :=
  mkSource
    (λ k, let '(w, eligible) := VoteWeightByKey order vs k in if eligible then Some w else None)
    (SetVersion vs) (ActiveWeight vs).

Record PersistedVote := mkPersistedVote { pv_EventID : EventID; pv_VoterID : AgentID; pv_Verdict : bool }.

(** The [VotePersistence] interface; the booleans are [err == nil]. *)
Class VotePersistence (P : Type) : Type := {
  PutVote : EventID → AgentID → bool → P → P * bool;
  GetVotes : EventID → P → option (list PersistedVote);
  DeleteVotes : EventID → P → P * bool;
  AllVoteEventIDs : P → option (list EventID);
}.

Inductive VotingError :=
  | ErrEventNotFound
  | ErrDuplicateVote
  | ErrAlreadyFinalized
  | ErrRoundExhausted
  | ErrNotFinalized
  | ErrVoterNotInSnapshot
  | ErrVoterNotInCommittee
  | ErrVoterNotRegistered.

Record VoteRecord := mkVoteRecord {
  vt_EventID : EventID;
  vt_ValidatorSetVersion : Z;
  vt_BoundSnapshot : option ValidatorSetSource;
  vt_TotalActiveWeight : Z;
  vt_Round : Z;
  vt_Votes : gmap AgentID bool;
  vt_VerifiedValues : gmap AgentID Z;
  vt_TotalWeight : Z;
  vt_YesWeight : Z;
  vt_NoWeight : Z;
  vt_Finalized : bool;
  vt_FinalVerdict : bool;
  vt_FinalVerifiedValue : Z;
  vt_FinalOrder : Z;
  vt_CallbackFired : bool;
  vt_CreatedAt : Z;
}.

(** [record.Votes[voterID] = vote; record.VerifiedValues[voterID] = verifiedValue]. *)
Definition cast_vote (voterID : AgentID) (vote : bool) (value : Z) (r : VoteRecord) : VoteRecord :=
  mkVoteRecord (vt_EventID r) (vt_ValidatorSetVersion r) (vt_BoundSnapshot r) (vt_TotalActiveWeight r)
    (vt_Round r) (<[voterID := vote]> (vt_Votes r)) (<[voterID := value]> (vt_VerifiedValues r))
    (vt_TotalWeight r) (vt_YesWeight r) (vt_NoWeight r) (vt_Finalized r) (vt_FinalVerdict r)
    (vt_FinalVerifiedValue r) (vt_FinalOrder r) (vt_CallbackFired r) (vt_CreatedAt r).

Definition set_weights (w : Z * Z * Z) (r : VoteRecord) : VoteRecord :=
  mkVoteRecord (vt_EventID r) (vt_ValidatorSetVersion r) (vt_BoundSnapshot r) (vt_TotalActiveWeight r)
    (vt_Round r) (vt_Votes r) (vt_VerifiedValues r) w.1.1 w.1.2 w.2 (vt_Finalized r) (vt_FinalVerdict r)
    (vt_FinalVerifiedValue r) (vt_FinalOrder r) (vt_CallbackFired r) (vt_CreatedAt r).

Definition finalize (verdict : bool) (value order : Z) (r : VoteRecord) : VoteRecord :=
  mkVoteRecord (vt_EventID r) (vt_ValidatorSetVersion r) (vt_BoundSnapshot r) (vt_TotalActiveWeight r)
    (vt_Round r) (vt_Votes r) (vt_VerifiedValues r) (vt_TotalWeight r) (vt_YesWeight r) (vt_NoWeight r)
    true verdict value order (vt_CallbackFired r) (vt_CreatedAt r).

Definition next_round (r : VoteRecord) : VoteRecord :=
  mkVoteRecord (vt_EventID r) (vt_ValidatorSetVersion r) (vt_BoundSnapshot r) (vt_TotalActiveWeight r)
    (u64 (vt_Round r + 1)) (vt_Votes r) (vt_VerifiedValues r) (vt_TotalWeight r) (vt_YesWeight r)
    (vt_NoWeight r) (vt_Finalized r) (vt_FinalVerdict r) (vt_FinalVerifiedValue r) (vt_FinalOrder r)
    (vt_CallbackFired r) (vt_CreatedAt r).

Definition fire_callback (r : VoteRecord) : VoteRecord :=
  mkVoteRecord (vt_EventID r) (vt_ValidatorSetVersion r) (vt_BoundSnapshot r) (vt_TotalActiveWeight r)
    (vt_Round r) (vt_Votes r) (vt_VerifiedValues r) (vt_TotalWeight r) (vt_YesWeight r) (vt_NoWeight r)
    (vt_Finalized r) (vt_FinalVerdict r) (vt_FinalVerifiedValue r) (vt_FinalOrder r) true (vt_CreatedAt r).

Record ConsensusConfig := mkConsensusConfig {
  SupermajorityThreshold : F64;
  MaxRounds : Z;
  RoundTimeout : Z;
  MinParticipants : Z;
}.

(** 0.667, 10 rounds, 5 seconds (in nanoseconds), 3 participants. *)
Definition DefaultConsensusConfig : ConsensusConfig :=
  mkConsensusConfig (f64_round 667 1000) 10 5000000000 3.

Record VotingRound (St P : Type) := mkVotingRound {
  vr_config : ConsensusConfig;
  vr_registry : Registry St;
  vr_validatorSet : option ValidatorSetSource;
  vr_committeeSource : option (EventID → option (gset AgentID));
  vr_persistence : option P;
  vr_records : gmap EventID VoteRecord;
  vr_orderSeq : Z;
}.
#[global] Arguments mkVotingRound {St P} _ _ _ _ _ _ _.
#[global] Arguments vr_config {St P} _.
#[global] Arguments vr_registry {St P} _.
#[global] Arguments vr_validatorSet {St P} _.
#[global] Arguments vr_committeeSource {St P} _.
#[global] Arguments vr_persistence {St P} _.
#[global] Arguments vr_records {St P} _.
#[global] Arguments vr_orderSeq {St P} _.

(** * The weighted median *)

(** [weightedValue]: a value with the weight of its voter. *)
Definition weightedValue : Type := Z * Z.

(** The order of [sort.Slice]: by value, then by weight. *)
Definition wv_le (a b : weightedValue) : Prop := a.1 < b.1 ∨ (a.1 = b.1 ∧ a.2 <= b.2).

#[global] Instance wv_le_dec a b : Decision (wv_le a b).
Proof. unfold wv_le. apply _. Defined.

(** The weight of an approving vote in the median: its snapshot weight, or 1. *)
Definition median_weight (r : VoteRecord) (voterID : AgentID) : Z :=
  let w := match vt_BoundSnapshot r with
           | Some s => default 0 (vss_VoteWeightByKey s voterID)
           | None => 0
           end in
  if decide (w = 0) then 1 else w.

Definition median_entries (order : list (AgentID * bool)) (r : VoteRecord) : list weightedValue :=
  (λ kv, (default 0 (vt_VerifiedValues r !! kv.1), median_weight r kv.1))
    <$> filter (λ kv, kv.2 = true) order.

(** The accumulation loop: the first value at which the cumulated weight passes
    the threshold, or the last one. *)
Fixpoint median_scan (threshold cumW last : Z) (entries : list weightedValue) : Z :=
  match entries with
  | [] => last
  | (v, w) :: entries' =>
      let cumW' := u64 (cumW + w) in
      if decide (cumW' > threshold) then v else median_scan threshold cumW' v entries'
  end.

(** [order] is the order in which Go's map iteration yields the votes. *)
Definition computeWeightedMedian (order : list (AgentID * bool)) (r : VoteRecord) : Z :=
  match median_entries order r with
  | [] => 0
  | entries =>
      let sorted := sort_slice wv_le entries in
      let totalW := foldl (λ t e, u64 (t + e.2)) 0 sorted in
      median_scan (totalW / 2) 0 0 sorted
  end.

(** * The voting round *)

Section VotingRound.
Context {St P : Type} `{!VotePersistence P}.
Implicit Types (vr : VotingRound St P).

Definition vr_NewVotingRound (config : option ConsensusConfig) (registry : Registry St) : VotingRound St P :=
  mkVotingRound (default DefaultConsensusConfig config) registry None None None ∅ 0.

Definition vr_SetPersistence (p : P) vr : VotingRound St P :=
  mkVotingRound (vr_config vr) (vr_registry vr) (vr_validatorSet vr) (vr_committeeSource vr) (Some p)
    (vr_records vr) (vr_orderSeq vr).

Definition vr_SetValidatorSet (s : ValidatorSetSource) vr : VotingRound St P :=
  mkVotingRound (vr_config vr) (vr_registry vr) (Some s) (vr_committeeSource vr) (vr_persistence vr)
    (vr_records vr) (vr_orderSeq vr).

Definition vr_SetCommitteeSource (cs : EventID → option (gset AgentID)) vr : VotingRound St P :=
  mkVotingRound (vr_config vr) (vr_registry vr) (vr_validatorSet vr) (Some cs) (vr_persistence vr)
    (vr_records vr) (vr_orderSeq vr).

(** The registry is shared with the rest of the node, which changes it. *)
Definition vr_set_registry (reg : Registry St) vr : VotingRound St P :=
  mkVotingRound (vr_config vr) reg (vr_validatorSet vr) (vr_committeeSource vr) (vr_persistence vr)
    (vr_records vr) (vr_orderSeq vr).

Definition vr_computeWeightFromRegistry (agentID : AgentID) vr : Z + VotingError :=
  match reg_Get agentID (vr_registry vr) with
  | inr _ => inr ErrVoterNotRegistered
  | inl fp =>
      if decide (fp_ReputationScore fp = 0 ∨ fp_StakedAmount fp = 0) then inl 0
      else
        let result := fp_ReputationScore fp * fp_StakedAmount fp / 10000 in
        inl (if decide (is_u64 result) then result else MaxUint64)
  end.

Definition vr_computeWeight (agentID : AgentID) vr : Z + VotingError :=
  match vr_validatorSet vr with
  | Some s =>
      match vss_VoteWeightByKey s agentID with
      | Some w => inl w
      | None => inr ErrVoterNotInSnapshot
      end
  | None => vr_computeWeightFromRegistry agentID vr
  end.

Definition vr_ComputeWeight := vr_computeWeight.

Definition vr_computeWeightForRecord (r : VoteRecord) (voterID : AgentID) vr : Z + VotingError :=
  match vt_BoundSnapshot r with
  | Some s =>
      match vss_VoteWeightByKey s voterID with
      | Some w => inl w
      | None => inr ErrVoterNotInSnapshot
      end
  | None => vr_computeWeight voterID vr
  end.

(** One iteration of the tally loop, on (total, yes, no). *)
Definition tally_step (r : VoteRecord) vr (voterID : AgentID) (yesVote : bool) (acc : Z * Z * Z) : Z * Z * Z :=
  match vr_computeWeightForRecord r voterID vr with
  | inr _ => acc
  | inl w =>
      let '(t, y, n) := acc in
      (u64 (t + w), if yesVote then u64 (y + w) else y, if yesVote then n else u64 (n + w))
  end.

(** What a tally of weights [r] decides: [Some verdict] or nothing yet. *)
Definition tally_verdict (cfg : ConsensusConfig) (r : VoteRecord) : option bool :=
  let denominator := if decide (vt_TotalActiveWeight r = 0) then vt_TotalWeight r else vt_TotalActiveWeight r in
  if decide (Z.of_nat (size (vt_Votes r)) >= MinParticipants cfg ∧ denominator > 0) then
    if f64_leb (SupermajorityThreshold cfg) (f64_ratio (vt_YesWeight r) denominator) then Some true
    else if decide (vt_TotalActiveWeight r > 0) then
      if f64_ltb (f64_sub f64_one (SupermajorityThreshold cfg)) (f64_ratio (vt_NoWeight r) denominator)
      then Some false else None
    else None
  else None.

(** [vr.records[eventID] = record], with the counter and the store. *)
Definition vr_put (id : EventID) (r : VoteRecord) (seq : Z) (p : option P) vr : VotingRound St P :=
  mkVotingRound (vr_config vr) (vr_registry vr) (vr_validatorSet vr) (vr_committeeSource vr) p
    (<[id := r]> (vr_records vr)) seq.

Definition delete_votes (id : EventID) (p : option P) : option P :=
  match p with Some s => Some (DeleteVotes id s).1 | None => None end.

(** [tallyVotesLocked] on the record stored under [id]. *)
Definition vr_tallyVotesLocked (id : EventID) (r : VoteRecord) (advanceRound : bool) vr : VotingRound St P :=
  if vt_Finalized r then vr
  else if decide (vt_Round r > MaxRounds (vr_config vr)) then vr
  else
    let r1 := set_weights (map_fold (tally_step r vr) (0, 0, 0) (vt_Votes r)) r in
    match tally_verdict (vr_config vr) r1 with
    | Some verdict =>
        let value := if verdict then computeWeightedMedian (map_to_list (vt_Votes r1)) r1 else 0 in
        let seq := u64 (vr_orderSeq vr + 1) in
        vr_put id (finalize verdict value seq r1) seq (delete_votes (vt_EventID r1) (vr_persistence vr)) vr
    | None =>
        vr_put id (if advanceRound then next_round r1 else r1) (vr_orderSeq vr) (vr_persistence vr) vr
    end.

(** The record of an event's first vote, bound to the current validator set. *)
Definition open_record (eventID : EventID) (now : Z) vr : VoteRecord :=
  mkVoteRecord eventID
    (from_option vss_SetVersion 0 (vr_validatorSet vr)) (vr_validatorSet vr)
    (from_option vss_ActiveWeight 0 (vr_validatorSet vr))
    1 ∅ ∅ 0 0 0 false false 0 0 false now.

(** The checks made before the lock is taken. *)
Definition vr_admits (eventID : EventID) (voterID : AgentID) vr : option VotingError :=
  match vr_computeWeight voterID vr with
  | inr e => Some e
  | inl _ =>
      match vr_committeeSource vr with
      | None => None
      | Some cs =>
          match cs eventID with
          | Some committee => if decide (voterID ∈ committee) then None else Some ErrVoterNotInCommittee
          | None => None
          end
      end
  end.

Definition vr_RegisterVote (eventID : EventID) (voterID : AgentID) (vote : bool) (verifiedValue now : Z) vr :
    VotingRound St P * option VotingError :=
  match vr_admits eventID voterID vr with
  | Some e => (vr, Some e)
  | None =>
      let r := default (open_record eventID now vr) (vr_records vr !! eventID) in
      let vr1 := vr_put eventID r (vr_orderSeq vr) (vr_persistence vr) vr in
      if vt_Finalized r then (vr1, Some ErrAlreadyFinalized)
      else if decide (vt_Round r > MaxRounds (vr_config vr)) then (vr1, Some ErrRoundExhausted)
      else match vt_Votes r !! voterID with
      | Some _ => (vr1, Some ErrDuplicateVote)
      | None =>
          let r1 := cast_vote voterID vote verifiedValue r in
          let p1 := match vr_persistence vr with
                    | Some s => Some (PutVote eventID voterID vote s).1
                    | None => None
                    end in
          (vr_tallyVotesLocked eventID r1 false (vr_put eventID r1 (vr_orderSeq vr) p1 vr), None)
      end
  end.

Definition vr_TallyVotes (eventID : EventID) vr : VotingRound St P * option VotingError :=
  match vr_records vr !! eventID with
  | None => (vr, Some ErrEventNotFound)
  | Some r => (vr_tallyVotesLocked eventID r true vr, None)
  end.

(** The loops of [LoadPersistedVotes], reading the store [p] wired by
    [SetPersistence], which the calls of [RegisterVote] write. *)
Definition vr_load_event (now : Z) (acc : VotingRound St P * bool) (eid : EventID) : VotingRound St P * bool :=
  let '(vr, ok) := acc in
  if ok then
    match vr_persistence vr ≫= GetVotes eid with
    | None => (vr, false)
    | Some votes =>
        (foldl (λ v pv, (vr_RegisterVote eid (pv_VoterID pv) (pv_Verdict pv) 0 now v).1) vr votes, true)
    end
  else (vr, false).

Definition vr_LoadPersistedVotes (now : Z) vr : VotingRound St P * bool :=
  match vr_persistence vr ≫= AllVoteEventIDs with
  | None => (vr, false)
  | Some eventIDs => foldl (vr_load_event now) (vr, true) eventIDs
  end.

Definition vr_IsFinalized (eventID : EventID) vr : bool + VotingError :=
  match vr_records vr !! eventID with
  | None => inr ErrEventNotFound
  | Some r => inl (vt_Finalized r)
  end.

Definition vr_FinalOrder (eventID : EventID) vr : Z + VotingError :=
  match vr_records vr !! eventID with
  | None => inr ErrEventNotFound
  | Some r => if vt_Finalized r then inl (vt_FinalOrder r) else inr ErrNotFinalized
  end.

Definition vr_GetRecord (eventID : EventID) vr : VoteRecord + VotingError :=
  match vr_records vr !! eventID with
  | None => inr ErrEventNotFound
  | Some r => inl r
  end.

Definition vr_MarkCallbackFired (eventID : EventID) vr : VotingRound St P * bool :=
  match vr_records vr !! eventID with
  | None => (vr, false)
  | Some r =>
      if negb (vt_Finalized r) || vt_CallbackFired r then (vr, false)
      else (vr_put eventID (fire_callback r) (vr_orderSeq vr) (vr_persistence vr) vr, true)
  end.

Definition vr_FinalizedCount vr : Z :=
  map_fold (λ _ r n, if vt_Finalized r then n + 1 else n) 0 (vr_records vr).

Definition vr_PendingCount vr : Z :=
  map_fold (λ _ r n, if vt_Finalized r then n else n + 1) 0 (vr_records vr).

End VotingRound.

(** * The interface of a validator set *)

Definition weight_of (s : ValidatorSetSource) (k : AgentID) : Z := default 0 (vss_VoteWeightByKey s k).

(** What a source promises: non-negative weights, and distinct keys that never
    weigh more than the active weight, a 64-bit number. *)
Class SourceOk (s : ValidatorSetSource) : Prop := {
  so_weight k : 0 <= weight_of s k;
  so_active keys : NoDup keys → sum_list_Z (weight_of s <$> keys) <= vss_ActiveWeight s;
  so_u64 : vss_ActiveWeight s < u64_mod;
}.

(** Snapshots of replayed validator sets keep the promise. *)
Lemma snapshot_source_ok evs order :
  Forall event_ok evs → Z.of_nat (length evs) <= MaxUint64 →
  let vs := TakeSnapshot (replay evs NewReducer) in
  order ≡ₚ map_to_list (snap_Seats vs) →
  map_sum vs_StakeAmount (snap_Seats vs) < u64_mod →
  SourceOk (snapshot_source order vs).
Proof.
  intros Hok Hlen vs Ho Hst. pose proof (snap_ok_reachable evs Hok Hlen) as Hs. fold vs in Hs.
  assert (∀ k, weight_of (snapshot_source order vs) k = (VoteWeightByKey order vs k).1) as Hw.
  { intros k. unfold weight_of. simpl. unfold VoteWeightByKey.
    destruct (head _); [|done]. destruct (decide _); [done|]. by destruct (decide _). }
  split.
  - intros k. rewrite Hw, VoteWeightByKey_vote. unfold vote_of.
    pose proof (order_weights_nonneg vs order Hs Ho) as Hn.
    destruct (head _) as [s|] eqn:Hh; [|done]. apply active_weight_nonneg.
    assert (s ∈ filter (λ s, vs_OperatorKey s = k) order.*2) as Hin by (destruct (filter _ _); [done|by simplify_eq/=; left]).
    apply list_elem_of_filter in Hin as [_ Hin].
    by eapply Forall_forall in Hn.
  - intros keys Hnd. rewrite (list_fmap_ext (weight_of _) (λ k, (VoteWeightByKey order vs k).1) keys) by done.
    simpl. by apply snapshot_votes_le; [|apply TakeSnapshot_total|..].
  - simpl. unfold vs. rewrite TakeSnapshot_total. apply u64_range.
Qed.

(** * Tallies *)

(** The voters that cast [b]. *)
Definition voters (votes : gmap AgentID bool) (b : bool) : list AgentID :=
  (filter (λ kv, kv.2 = b) (map_to_list votes)).*1.

(** The weight they have in a validator set. *)
Definition cast_weight (s : ValidatorSetSource) (votes : gmap AgentID bool) (b : bool) : Z :=
  sum_list_Z (weight_of s <$> voters votes b).

Lemma voters_in votes b k : k ∈ voters votes b ↔ votes !! k = Some b.
Proof.
  unfold voters. rewrite list_elem_of_fmap. split.
  - intros ([k' b'] & -> & [Hb Hin]%list_elem_of_filter). apply elem_of_map_to_list in Hin. simpl in *. by subst.
  - intros H. exists (k, b). split; [done|]. apply list_elem_of_filter. split; [done|]. by apply elem_of_map_to_list.
Qed.

Lemma voters_NoDup votes b : NoDup (voters votes b).
Proof.
  unfold voters. eapply sublist_NoDup; [apply (NoDup_fst_map_to_list votes)|].
  apply fmap_sublist, sublist_filter.
Qed.

Lemma sum_weight_nonneg s `{!SourceOk s} keys : 0 <= sum_list_Z (weight_of s <$> keys).
Proof. induction keys as [|k keys IH]; csimpl; [done|]. pose proof (so_weight k). lia. Qed.

Section tally.
Context {St P : Type} `{!VotePersistence P}.
Implicit Types (vr : VotingRound St P).

Definition list_weight (s : ValidatorSetSource) (l : list (AgentID * bool)) (b : bool) : Z :=
  sum_list_Z (weight_of s <$> (filter (λ kv, kv.2 = b) l).*1).

Lemma list_weight_cons s k b l b' :
  list_weight s ((k, b) :: l) b' = (if Bool.eqb b b' then weight_of s k else 0) + list_weight s l b'.
Proof. unfold list_weight. rewrite filter_cons. by destruct b, b'. Qed.

Lemma triple_eq {A B C} (a a' : A) (b b' : B) (c c' : C) : a = a' → b = b' → c = c' → (a, b, c) = (a', b', c').
Proof. congruence. Qed.

(** The tally of a record that is bound to a validator set. *)
Lemma tally_bound vr r s : vt_BoundSnapshot r = Some s →
  map_fold (tally_step r vr) (0, 0, 0) (vt_Votes r)
  = (u64 (cast_weight s (vt_Votes r) true + cast_weight s (vt_Votes r) false),
     u64 (cast_weight s (vt_Votes r) true), u64 (cast_weight s (vt_Votes r) false)).
Proof.
  intros Hs. unfold cast_weight, voters. change (sum_list_Z (weight_of s <$> (filter (λ kv, kv.2 = ?b) ?l).*1))
    with (list_weight s l b).
  rewrite map_fold_foldr. induction (map_to_list (vt_Votes r)) as [|[k b] l IH]; [done|].
  cbn [foldr uncurry]. rewrite IH, !list_weight_cons. unfold tally_step, vr_computeWeightForRecord, weight_of.
  rewrite Hs. destruct (vss_VoteWeightByKey s k) as [w|]; destruct b; cbn [Bool.eqb default from_option id];
    apply triple_eq; apply u64_proper; eqm_norm; eqm_lia.
Qed.

Lemma cast_weight_nonneg s `{!SourceOk s} votes b : 0 <= cast_weight s votes b.
Proof. by apply sum_weight_nonneg. Qed.

(** Voters that agree on nothing share no weight: yes votes of one record and no
    votes of another, cast by different voters, fit in the active weight. *)
Lemma cast_weight_disjoint s `{!SourceOk s} v1 v2 :
  (∀ k, v1 !! k = Some true → v2 !! k = Some false → False) →
  cast_weight s v1 true + cast_weight s v2 false <= vss_ActiveWeight s.
Proof.
  intros Hd. unfold cast_weight. rewrite <- sum_list_Z_app, <- fmap_app. apply so_active.
  apply NoDup_app. split_and!; [apply voters_NoDup| |apply voters_NoDup].
  intros k Hk1%voters_in Hk2%voters_in. by apply (Hd k).
Qed.

(** Under the interface's promise the tally is exact. *)
Lemma tally_exact vr r s `{!SourceOk s} : vt_BoundSnapshot r = Some s →
  map_fold (tally_step r vr) (0, 0, 0) (vt_Votes r)
  = (cast_weight s (vt_Votes r) true + cast_weight s (vt_Votes r) false,
     cast_weight s (vt_Votes r) true, cast_weight s (vt_Votes r) false).
Proof.
  intros Hs. rewrite (tally_bound vr r s Hs).
  pose proof (cast_weight_disjoint s (vt_Votes r) (vt_Votes r) ltac:(congruence)).
  pose proof (cast_weight_nonneg s (vt_Votes r) true). pose proof (cast_weight_nonneg s (vt_Votes r) false).
  pose proof (so_u64 (s := s)). rewrite !u64_small by (split; lia). done.
Qed.

End tally.

(** * Executions *)

Section runs.
Context {St P : Type} `{!VotePersistence P}.
Implicit Types (vr : VotingRound St P).

(** The operations on a voting round, with the changes of its collaborators. *)
Inductive vr_op :=
  | OpRegisterVote (eventID : EventID) (voterID : AgentID) (vote : bool) (verifiedValue now : Z)
  | OpTallyVotes (eventID : EventID)
  | OpMarkCallbackFired (eventID : EventID)
  | OpSetValidatorSet (s : ValidatorSetSource)
  | OpSetCommitteeSource (cs : EventID → option (gset AgentID))
  | OpSetPersistence (p : P)
  | OpRegistry (reg : Registry St).

Definition vr_exec (op : vr_op) vr : VotingRound St P :=
  match op with
  | OpRegisterVote e v b x now => (vr_RegisterVote e v b x now vr).1
  | OpTallyVotes e => (vr_TallyVotes e vr).1
  | OpMarkCallbackFired e => (vr_MarkCallbackFired e vr).1
  | OpSetValidatorSet s => vr_SetValidatorSet s vr
  | OpSetCommitteeSource cs => vr_SetCommitteeSource cs vr
  | OpSetPersistence p => vr_SetPersistence p vr
  | OpRegistry reg => vr_set_registry reg vr
  end.

Definition vr_run (ops : list vr_op) vr : VotingRound St P := foldl (λ v op, vr_exec op v) vr ops.

(** What a record's weights are, when it is bound to a validator set. *)
Definition tallied (r : VoteRecord) : Prop := ∀ s, vt_BoundSnapshot r = Some s →
  (vt_TotalWeight r, vt_YesWeight r, vt_NoWeight r)
  = (u64 (cast_weight s (vt_Votes r) true + cast_weight s (vt_Votes r) false),
     u64 (cast_weight s (vt_Votes r) true), u64 (cast_weight s (vt_Votes r) false)).

(** What the fields of a decided record say. *)
Record decided (cfg : ConsensusConfig) (r : VoteRecord) : Prop := {
  de_verdict : tally_verdict cfg r = Some (vt_FinalVerdict r);
  de_value : vt_FinalVerifiedValue r
    = if vt_FinalVerdict r then computeWeightedMedian (map_to_list (vt_Votes r)) r else 0;
  de_tallied : tallied r;
}.

(** How one operation changes one record, and the order counter. *)
Inductive evolves (cfg : ConsensusConfig) (seq : Z) (r : VoteRecord) : VoteRecord → Z → Prop :=
  | ev_same : evolves cfg seq r r seq
  | ev_keep r' : vt_Finalized r = false → vt_Finalized r' = false →
      vt_FinalOrder r' = vt_FinalOrder r → vt_CallbackFired r' = vt_CallbackFired r →
      vt_BoundSnapshot r' = vt_BoundSnapshot r → vt_TotalActiveWeight r' = vt_TotalActiveWeight r →
      vt_Votes r ⊆ vt_Votes r' → evolves cfg seq r r' seq
  | ev_final r' : vt_Finalized r = false → vt_Finalized r' = true →
      vt_FinalOrder r' = u64 (seq + 1) → vt_CallbackFired r' = vt_CallbackFired r →
      vt_BoundSnapshot r' = vt_BoundSnapshot r → vt_TotalActiveWeight r' = vt_TotalActiveWeight r →
      vt_Votes r ⊆ vt_Votes r' → decided cfg r' → evolves cfg seq r r' (u64 (seq + 1))
  | ev_fire : vt_Finalized r = true → vt_CallbackFired r = false → evolves cfg seq r (fire_callback r) seq.

(** An operation touches at most one record, opening it if need be. *)
Definition touches vr vr' : Prop :=
  vr_config vr' = vr_config vr
  ∧ ((vr_records vr' = vr_records vr ∧ vr_orderSeq vr' = vr_orderSeq vr)
     ∨ ∃ id r r' now,
         (vr_records vr !! id = Some r ∨ (vr_records vr !! id = None ∧ r = open_record id now vr))
         ∧ evolves (vr_config vr) (vr_orderSeq vr) r r' (vr_orderSeq vr')
         ∧ vr_records vr' = <[id := r']> (vr_records vr)).

Lemma tally_effect id r adv vr :
  let vr' := vr_tallyVotesLocked id r adv vr in
  vr_config vr' = vr_config vr
  ∧ ((vr' = vr ∧ (vt_Finalized r = true ∨ vt_Round r > MaxRounds (vr_config vr)))
     ∨ ∃ r', vt_Finalized r = false
         ∧ evolves (vr_config vr) (vr_orderSeq vr) r r' (vr_orderSeq vr')
         ∧ vr_records vr' = <[id := r']> (vr_records vr)).
Proof.
  unfold vr_tallyVotesLocked. destruct (vt_Finalized r) eqn:Hf; [by eauto|]. case_decide; [by eauto|].
  set (r1 := set_weights _ r). destruct (tally_verdict _ r1) as [verdict|] eqn:Hv; (split; [done|]); right.
  - eexists. split; [done|]. split; [|done]. simpl. apply ev_final; try done. split; [exact Hv|done|].
    intros s Hs. simpl in *. rewrite (tally_bound vr r s Hs). done.
  - eexists. split; [done|]. split; [|done]. by destruct adv; apply ev_keep.
Qed.

Lemma exec_touches op vr : touches vr (vr_exec op vr).
Proof.
  destruct op as [e v b x now|e|e|s|cs|p|reg]; simpl; try (split; [done|]; by left).
  - unfold vr_RegisterVote. destruct (vr_admits e v vr); [split; [done|]; by left|].
    set (r := default _ _).
    assert (vr_records vr !! e = Some r ∨ vr_records vr !! e = None ∧ r = open_record e now vr) as Hr.
    { unfold r. destruct (vr_records vr !! e); eauto. }
    assert (touches vr (vr_put e r (vr_orderSeq vr) (vr_persistence vr) vr)) as Hput.
    { split; [done|]. right. exists e, r, r, now. split_and!; [done|apply ev_same|done]. }
    destruct (vt_Finalized r) eqn:Hf; [done|]. case_decide; [done|].
    destruct (vt_Votes r !! v) eqn:Hvote; [done|]. simpl. clear Hput.
    set (p1 := match vr_persistence vr with Some _ => _ | None => _ end).
    pose proof (tally_effect e (cast_vote v b x r) false
      (vr_put e (cast_vote v b x r) (vr_orderSeq vr) p1 vr)) as [Hc Ht]. split; [done|]. right.
    assert (vt_Votes r ⊆ vt_Votes (cast_vote v b x r)) as Hsub by (by apply insert_subseteq).
    destruct Ht as [[-> _]|(r' & _ & Hev & Hrec)].
    + exists e, r, (cast_vote v b x r), now. split_and!; [done|by apply ev_keep|done].
    + exists e, r, r', now. split_and!; [done| |by rewrite Hrec; simpl; rewrite insert_insert_eq].
      simpl in Hev. inversion Hev; simpl in *; simplify_eq;
        [apply ev_keep|apply ev_keep|apply ev_final|congruence]; try done; by etrans.
  - unfold vr_TallyVotes. destruct (vr_records vr !! e) as [r|] eqn:Hr; [|split; [done|]; by left]. simpl.
    destruct (tally_effect e r true vr) as [Hc [[-> _]|(r' & _ & Hev & Hrec)]]; (split; [done|]); [by left|].
    right. exists e, r, r', 0. by split_and!; [left| |].
  - unfold vr_MarkCallbackFired. destruct (vr_records vr !! e) as [r|] eqn:Hr; [|split; [done|]; by left].
    destruct (negb (vt_Finalized r) || vt_CallbackFired r) eqn:Hb; [split; [done|]; by left|].
    apply orb_false_iff in Hb as [Hb1%negb_false_iff Hb2]. split; [done|]. right.
    exists e, r, (fire_callback r), 0. split_and!; [by left|by apply ev_fire|done].
Qed.

(** ** Invariants of executions *)

Lemma run_snoc ops op vr : vr_run (ops ++ [op]) vr = vr_exec op (vr_run ops vr).
Proof. unfold vr_run. by rewrite foldl_app. Qed.

Lemma run_config ops vr : vr_config (vr_run ops vr) = vr_config vr.
Proof.
  induction ops as [|op ops IH] using rev_ind; [done|]. rewrite run_snoc.
  by destruct (exec_touches op (vr_run ops vr)) as [-> _].
Qed.

Lemma decided_fire cfg r : decided cfg r → decided cfg (fire_callback r).
Proof. by intros []. Qed.

Lemma decided_cfg cfg r : decided cfg r → vt_Finalized r = true → decided cfg r.
Proof. done. Qed.

Record record_inv (cfg : ConsensusConfig) (r : VoteRecord) : Prop := {
  rv_decided : vt_Finalized r = true → decided cfg r;
  rv_active s : vt_BoundSnapshot r = Some s → vt_TotalActiveWeight r = vss_ActiveWeight s;
  rv_pending : vt_Finalized r = false → vt_CallbackFired r = false ∧ vt_FinalOrder r = 0;
}.

Lemma record_inv_open cfg id now vr : record_inv cfg (open_record id now vr).
Proof. split; [done| |done]. simpl. by intros s ->. Qed.

Lemma record_inv_evolves cfg seq r r' seq' : evolves cfg seq r r' seq' → record_inv cfg r → record_inv cfg r'.
Proof.
  intros Hev [Hd Ha Hp]. inversion Hev; subst; [done| | |].
  - split; [congruence| |intros _; destruct Hp; [done|]; split; congruence].
    intros s Hs. etrans; [done|]. apply Ha. congruence.
  - split; [done| |congruence]. intros s Hs. etrans; [done|]. apply Ha. congruence.
  - split; [intros _; by apply decided_fire, Hd|done|]. simpl. congruence.
Qed.

Lemma run_record_inv ops vr :
  map_Forall (λ _ r, record_inv (vr_config vr) r) (vr_records vr) →
  map_Forall (λ _ r, record_inv (vr_config vr) r) (vr_records (vr_run ops vr)).
Proof.
  intros H0. induction ops as [|op ops IH] using rev_ind; [done|]. rewrite run_snoc.
  destruct (exec_touches op (vr_run ops vr)) as [_ [[-> _]|(id & r & r' & now & Hr & Hev & ->)]]; [done|].
  apply map_Forall_insert_2; [|done]. rewrite run_config in Hev. eapply record_inv_evolves; [exact Hev|].
  destruct Hr as [Hr|[_ ->]]; [by apply (IH id r)|apply record_inv_open].
Qed.

(** How a record can change over a whole execution. *)
Definition later (r r' : VoteRecord) : Prop :=
  vt_BoundSnapshot r' = vt_BoundSnapshot r ∧ vt_TotalActiveWeight r' = vt_TotalActiveWeight r
  ∧ vt_Votes r ⊆ vt_Votes r' ∧ (vt_CallbackFired r = true → vt_CallbackFired r' = true)
  ∧ (vt_Finalized r = true → r' = r ∨ r' = fire_callback r).

Lemma later_refl r : later r r.
Proof. unfold later. eauto 10. Qed.

Lemma later_evolves cfg seq r0 r r' seq' : later r0 r → evolves cfg seq r r' seq' → later r0 r'.
Proof.
  intros (H1 & H2 & H3 & H4 & H5) Hev. inversion Hev; subst; [done| | |].
  - split_and!; [congruence|congruence|by etrans|intros Hc; rewrite <- (H4 Hc); congruence|].
    intros Hf. destruct (H5 Hf) as [->| ->]; simpl in *; congruence.
  - split_and!; [congruence|congruence|by etrans|intros Hc; rewrite <- (H4 Hc); congruence|].
    intros Hf. destruct (H5 Hf) as [->| ->]; simpl in *; congruence.
  - split_and!; [done..|]. intros Hf. right. by destruct (H5 Hf) as [->| ->].
Qed.

Lemma run_later ops vr id r : vr_records vr !! id = Some r →
  ∃ r', vr_records (vr_run ops vr) !! id = Some r' ∧ later r r'.
Proof.
  intros Hr. induction ops as [|op ops (r1 & Hr1 & Hl)] using rev_ind; [exists r; split; [done|apply later_refl]|].
  rewrite run_snoc.
  destruct (exec_touches op (vr_run ops vr)) as [_ [[-> _]|(i & r2 & r' & now & Hr2 & Hev & ->)]]; [eauto|].
  destruct (decide (i = id)) as [->|Hne]; [|rewrite lookup_insert_ne by done; eauto].
  rewrite lookup_insert_eq. exists r'. split; [done|].
  destruct Hr2 as [Hr2|[Hr2 _]]; [|congruence]. replace r2 with r1 in Hev by congruence.
  by eapply later_evolves.
Qed.

(** The order numbers given out so far. *)
Record order_inv vr : Prop := {
  oi_range id r : vr_records vr !! id = Some r → vt_Finalized r = true → 1 <= vt_FinalOrder r <= vr_orderSeq vr;
  oi_inj i j r1 r2 : vr_records vr !! i = Some r1 → vr_records vr !! j = Some r2 →
    vt_Finalized r1 = true → vt_Finalized r2 = true → vt_FinalOrder r1 = vt_FinalOrder r2 → i = j;
  oi_count : vr_orderSeq vr = map_sum (λ r, if vt_Finalized r then 1 else 0) (vr_records vr);
}.

(** A record replaced without deciding anything. *)
Lemma order_inv_quiet vr vr' id r r' :
  order_inv vr → vr_orderSeq vr' = vr_orderSeq vr → vr_records vr' = <[id := r']> (vr_records vr) →
  (vr_records vr !! id = Some r ∨ vr_records vr !! id = None ∧ vt_Finalized r = false) →
  vt_Finalized r' = vt_Finalized r → vt_FinalOrder r' = vt_FinalOrder r → order_inv vr'.
Proof.
  intros [Hr Hi Hc] Hseq Hrec Hold Hf Ho.
  assert (∀ j x, vr_records vr' !! j = Some x → vt_Finalized x = true →
    ∃ y, vr_records vr !! j = Some y ∧ vt_Finalized y = true ∧ vt_FinalOrder x = vt_FinalOrder y) as Hback.
  { intros j x Hx Hfx. rewrite Hrec in Hx. destruct (decide (id = j)) as [->|Hne].
    - rewrite lookup_insert_eq in Hx. simplify_eq. destruct Hold as [Hold|[_ Hold]]; [|congruence].
      exists r. by rewrite <- Hf.
    - rewrite lookup_insert_ne in Hx by done. eauto. }
  split.
  - intros j x Hx Hfx. destruct (Hback j x Hx Hfx) as (y & Hy & Hfy & ->). rewrite Hseq. eauto.
  - intros i j x1 x2 H1 H2 F1 F2 Heq. destruct (Hback _ _ H1 F1) as (y1 & Hy1 & Fy1 & E1).
    destruct (Hback _ _ H2 F2) as (y2 & Hy2 & Fy2 & E2). apply (Hi i j y1 y2); congruence.
  - rewrite Hseq, Hrec, Hc. destruct Hold as [Hold|[Hold Hf0]].
    + rewrite (map_sum_update _ _ _ _ _ Hold). simpl. rewrite Hf. lia.
    + rewrite map_sum_insert by done. rewrite Hf, Hf0. lia.
Qed.

Lemma order_inv_final vr vr' id r r' :
  order_inv vr → 0 <= vr_orderSeq vr < MaxUint64 → vr_orderSeq vr' = u64 (vr_orderSeq vr + 1) →
  vr_records vr' = <[id := r']> (vr_records vr) →
  (vr_records vr !! id = Some r ∨ vr_records vr !! id = None) → vt_Finalized r = false →
  vt_Finalized r' = true → vt_FinalOrder r' = u64 (vr_orderSeq vr + 1) → order_inv vr'.
Proof.
  intros [Hr Hi Hc] Hlt Hseq Hrec Hold Hf0 Hf Ho.
  rewrite u64_small in Hseq, Ho by (unfold is_u64, MaxUint64, u64_mod in *; lia).
  split.
  - intros j x Hx Hfx. rewrite Hrec in Hx. destruct (decide (id = j)) as [->|Hne].
    + rewrite lookup_insert_eq in Hx. simplify_eq. lia.
    + rewrite lookup_insert_ne in Hx by done. specialize (Hr j x Hx Hfx). lia.
  - intros i j x1 x2 H1 H2 F1 F2 Heq. rewrite Hrec in H1, H2.
    destruct (decide (id = i)) as [->|Hi'], (decide (i = j)) as [->|Hij]; [done| |done|].
    + rewrite lookup_insert_eq in H1. rewrite lookup_insert_ne in H2 by done. simplify_eq.
      specialize (Hr j x2 H2 F2). lia.
    + rewrite lookup_insert_ne in H1 by done. destruct (decide (id = j)) as [->|Hj'].
      * rewrite lookup_insert_eq in H2. simplify_eq. specialize (Hr i x1 H1 F1). lia.
      * rewrite lookup_insert_ne in H2 by done. by apply (Hi i j x1 x2).
  - rewrite Hseq, Hrec, Hc. destruct Hold as [Hold|Hold].
    + rewrite (map_sum_update _ _ _ _ _ Hold). simpl. rewrite Hf, Hf0. lia.
    + rewrite map_sum_insert by done. rewrite Hf. lia.
Qed.

Lemma order_inv_exec op vr : 0 <= vr_orderSeq vr < MaxUint64 → order_inv vr →
  order_inv (vr_exec op vr) ∧ vr_orderSeq vr <= vr_orderSeq (vr_exec op vr) <= vr_orderSeq vr + 1.
Proof.
  intros Hlt Hinv. destruct (exec_touches op vr) as [_ [[Hrec Hseq]|(id & r & r' & now & Hr & Hev & Hrec)]].
  { split; [|lia]. destruct Hinv as [H1 H2 H3]. by split; rewrite ?Hrec, ?Hseq. }
  assert (vr_records vr !! id = Some r ∨ vr_records vr !! id = None ∧ vt_Finalized r = false) as Hr'
    by (destruct Hr as [?|[? ->]]; auto).
  inversion Hev as [Heq1 Heq2|x F1 F2 O _ _ _ _ Heq1 Heq2|x F1 F2 O _ _ _ _ _ Heq1 Heq2|F1 C Heq1 Heq2]; subst.
  - split; [|lia]. eapply (order_inv_quiet vr _ id); try exact Hrec; [done|congruence|exact Hr'|congruence|congruence].
  - split; [|lia]. eapply (order_inv_quiet vr _ id); try exact Hrec; [done|congruence|exact Hr'|congruence|congruence].
  - split; [|rewrite u64_small; unfold is_u64, MaxUint64, u64_mod in *; lia].
    eapply (order_inv_final vr _ id); try exact Hrec; [done|lia|congruence|intuition eauto|done..].
  - split; [|lia]. eapply (order_inv_quiet vr _ id); try exact Hrec; [done|congruence|exact Hr'|done|done].
Qed.

Lemma run_order_inv ops vr :
  order_inv vr → 0 <= vr_orderSeq vr → vr_orderSeq vr + Z.of_nat (length ops) <= MaxUint64 →
  order_inv (vr_run ops vr) ∧ 0 <= vr_orderSeq (vr_run ops vr) <= vr_orderSeq vr + Z.of_nat (length ops).
Proof.
  intros Hinv H0. induction ops as [|op ops IH] using rev_ind; intros Hlen; [simpl; split; [done|lia]|].
  rewrite length_app in *. simpl in *. rewrite run_snoc. destruct IH as [Hi Hr]; [lia|].
  destruct (order_inv_exec op (vr_run ops vr)); [lia|done|]. split; [done|lia].
Qed.

End runs.

(** * The median *)

#[global] Instance wv_le_trans : Transitive wv_le.
Proof. unfold wv_le. intros [] [] []; simpl. lia. Qed.
#[global] Instance wv_le_total : Total wv_le.
Proof. unfold wv_le, Total. intros [] []; simpl. lia. Qed.
#[global] Instance wv_le_antisymm : AntiSymm (=) wv_le.
Proof. unfold wv_le. intros [a b] [c d]; simpl. intros. f_equal; lia. Qed.

(** The weight of the entries that satisfy [f]. *)
Definition entry_weight (f : Z → bool) (entries : list weightedValue) : Z :=
  sum_list_Z ((λ e, if f e.1 then e.2 else 0) <$> entries).

#[global] Instance entry_weight_proper f : Proper ((≡ₚ) ==> (=)) (entry_weight f).
Proof. intros l l' H. unfold entry_weight. by rewrite H. Qed.

Lemma entry_weight_sort f l : entry_weight f (sort_slice wv_le l) = entry_weight f l.
Proof. apply entry_weight_proper, sort_slice_perm. Qed.

Lemma entry_weight_nonneg f l : Forall (λ e, 0 < e.2) l → 0 <= entry_weight f l.
Proof. induction 1 as [|[v w] l Hw _ IH]; unfold entry_weight in *; csimpl; [done|]. simpl in *. destruct (f v); lia. Qed.

Lemma entry_weight_le f g l : Forall (λ e, 0 < e.2) l → (∀ v, f v = true → g v = true) →
  entry_weight f l <= entry_weight g l.
Proof.
  intros Hl Hfg. induction Hl as [|[v w] l Hw _ IH]; unfold entry_weight in *; csimpl; [done|]. simpl in *.
  destruct (f v) eqn:Hf; [rewrite (Hfg v Hf); lia|]. destruct (g v); lia.
Qed.

Lemma entry_weight_zero f l : Forall (λ e, f e.1 = false) l → entry_weight f l = 0.
Proof. induction 1 as [|[v w] l Hf _ IH]; unfold entry_weight in *; csimpl; [done|]. simpl in *. rewrite Hf. lia. Qed.

Lemma entry_weight_all f l : Forall (λ e, f e.1 = true) l → entry_weight f l = entry_weight (λ _, true) l.
Proof. induction 1 as [|[v w] l Hf _ IH]; unfold entry_weight in *; csimpl; [done|]. simpl in *. rewrite Hf. lia. Qed.

Lemma entry_weight_app f l1 l2 : entry_weight f (l1 ++ l2) = entry_weight f l1 + entry_weight f l2.
Proof. unfold entry_weight. by rewrite fmap_app, sum_list_Z_app. Qed.

(** The scan of a sorted list stops where the cumulated weight passes the threshold. *)
Lemma median_scan_spec threshold cum last l :
  StronglySorted wv_le l → Forall (λ e, 0 < e.2) l → 0 <= cum <= threshold →
  threshold < cum + entry_weight (λ _, true) l → cum + entry_weight (λ _, true) l < u64_mod →
  let m := median_scan threshold cum last l in
  (∃ w, (m, w) ∈ l) ∧ cum + entry_weight (λ v, v <? m) l <= threshold < cum + entry_weight (λ v, v <=? m) l.
Proof.
  intros Hs. revert cum last. induction Hs as [|[v w] l Hs IH Hall]; intros cum last Hpos Hcum Hgt Hlt m.
  { unfold entry_weight in *. simpl in *. lia. }
  apply Forall_cons in Hpos as [Hw Hpos]. simpl in Hw.
  pose proof (entry_weight_nonneg (λ _, true) l Hpos) as Hn.
  assert (∀ f, entry_weight f ((v, w) :: l) = (if f v then w else 0) + entry_weight f l) as Hcons by done.
  rewrite !Hcons in *. cbn beta iota in *. unfold m. simpl. rewrite u64_small by (split; lia). case_decide as Hd.
  - split; [exists w; left|]. rewrite Z.ltb_irrefl, Z.leb_refl.
    rewrite (entry_weight_zero (λ x, x <? v) l).
    + pose proof (entry_weight_nonneg (λ x, x <=? v) l Hpos). lia.
    + eapply Forall_impl; [exact Hall|]. intros [v' w'] [H|[H _]]; simpl in *; apply Z.ltb_ge; lia.
  - destruct (IH (cum + w) v Hpos) as [[w' Hin] Hr]; [lia|lia|lia|].
    set (m' := median_scan threshold (cum + w) v l) in *. split; [exists w'; by right|].
    assert (v <= m') as Hvm.
    { eapply Forall_forall in Hall; [|exact Hin]. destruct Hall as [H|[H _]]; simpl in *; lia. }
    rewrite (proj2 (Z.leb_le v m')) by done.
    destruct (decide (v = m')) as [Heq|Hne].
    + rewrite <- Heq in *. rewrite Z.ltb_irrefl. split; [|lia].
      rewrite (entry_weight_zero (λ x, x <? v) l); [lia|].
      eapply Forall_impl; [exact Hall|]. intros [v' w''] [H|[H _]]; simpl in *; apply Z.ltb_ge; lia.
    + rewrite (proj2 (Z.ltb_lt v m')) by lia. lia.
Qed.

Lemma total_weight_fold l a : is_u64 a →
  foldl (λ t e, u64 (t + e.2)) a l = u64 (a + entry_weight (λ _, true) l).
Proof.
  revert a. induction l as [|[v w] l IH]; intros a Ha; cbn [foldl].
  - unfold entry_weight. simpl. rewrite Z.add_0_r. symmetry. by apply u64_small.
  - rewrite IH by apply u64_range. apply u64_proper. eqm_norm.
    change (entry_weight (λ _, true) ((v, w) :: l)) with (w + entry_weight (λ _, true) l). simpl. eqm_lia.
Qed.

(** * Properties *)

(** What the default thresholds mean for integer weights. *)
Lemma default_thresholds x y : 0 <= x → 0 < y →
  (f64_leb (f64_round 667 1000) (f64_ratio x y) = true → 2 * y < 3 * x ∧ 666999 * y <= 1000000 * x)
  ∧ (f64_ltb (f64_sub f64_one (f64_round 667 1000)) (f64_ratio x y) = true → 332999 * y <= 1000000 * x)
  ∧ (f64_leb (f64_round 667 1000) (f64_ratio x y) = false → 1000000 * x <= 667001 * y).
Proof.
  intros Hx Hy.
  assert (f64_round 667 1000 = mkF64 6007801902912242 9007199254740992) as -> by (by vm_compute).
  assert (f64_sub f64_one (mkF64 6007801902912242 9007199254740992)
    = mkF64 5998794703657500 18014398509481984) as -> by (by vm_compute).
  destruct (f64_ratio_ge (mkF64 6007801902912242 9007199254740992) x y Hx Hy ltac:(done)) as [H1 H2].
  destruct (f64_ratio_ge (mkF64 5998794703657500 18014398509481984) x y Hx Hy ltac:(done)) as [H3 _].
  cbn [f64_num f64_den] in *. change (2 ^ 53) with 9007199254740992 in *. split_and!.
  - intros H. specialize (H1 H). lia.
  - intros H%f64_ltb_lt. specialize (H3 H). lia.
  - intros H. specialize (H2 H). lia.
Qed.

Section properties.
Context {St P : Type} `{!VotePersistence P}.
Implicit Types (vr : VotingRound St P) (ops : list (@vr_op St P)).

Lemma new_order_inv cfg reg : order_inv (vr_NewVotingRound cfg reg : VotingRound St P).
Proof. split; [done|done|]. simpl. by rewrite map_sum_empty. Qed.

Lemma FinalizedCount_sum vr : vr_FinalizedCount vr = map_sum (λ r, if vt_Finalized r then 1 else 0) (vr_records vr).
Proof.
  unfold vr_FinalizedCount, map_sum. rewrite !map_fold_foldr.
  induction (map_to_list (vr_records vr)) as [|[k r] l IH]; [done|]. simpl. rewrite IH. destruct (vt_Finalized r); lia.
Qed.

(** A decision of a record bound to a validator set, under the default thresholds. *)
Lemma default_decision ops reg e r s :
  let vr := vr_run ops (vr_NewVotingRound None reg) in
  vr_records vr !! e = Some r → vt_Finalized r = true → vt_BoundSnapshot r = Some s → SourceOk s →
  0 < vss_ActiveWeight s ∧ 3 <= Z.of_nat (size (vt_Votes r))
  ∧ vt_YesWeight r = cast_weight s (vt_Votes r) true ∧ vt_NoWeight r = cast_weight s (vt_Votes r) false
  ∧ (vt_FinalVerdict r = true → 2 * vss_ActiveWeight s < 3 * cast_weight s (vt_Votes r) true
       ∧ 666999 * vss_ActiveWeight s <= 1000000 * cast_weight s (vt_Votes r) true)
  ∧ (vt_FinalVerdict r = false →
       332999 * vss_ActiveWeight s <= 1000000 * cast_weight s (vt_Votes r) false).
Proof.
  intros vr Hr Hf Hs Hok.
  pose proof (run_record_inv ops (vr_NewVotingRound None reg) (map_Forall_empty _)) as Hinv.
  fold vr in Hinv. destruct (Hinv e r Hr) as [Hd Ha _]. destruct (Hd Hf) as [Hv _ Ht].
  specialize (Ha s Hs). specialize (Ht s Hs).
  change (vr_config (vr_NewVotingRound None reg)) with DefaultConsensusConfig in Hv.
  pose proof (cast_weight_nonneg s (vt_Votes r) true). pose proof (cast_weight_nonneg s (vt_Votes r) false).
  pose proof (cast_weight_disjoint s (vt_Votes r) (vt_Votes r) ltac:(congruence)).
  pose proof (so_u64 (s := s)). rewrite !u64_small in Ht by (split; lia).
  injection Ht as Htot Hyes Hno. unfold tally_verdict, DefaultConsensusConfig in Hv.
  cbn [SupermajorityThreshold MinParticipants] in Hv. rewrite Ha, Htot, Hyes, Hno in Hv.
  destruct (decide (vss_ActiveWeight s = 0)) as [Hz|Hz].
  { destruct (decide _) in Hv; [lia|done]. }
  destruct (decide _) as [[Hn _]|] in Hv; [|done].
  destruct (default_thresholds (cast_weight s (vt_Votes r) true) (vss_ActiveWeight s)) as (HT & _ & _); [lia|lia|].
  destruct (default_thresholds (cast_weight s (vt_Votes r) false) (vss_ActiveWeight s)) as (_ & HF & _); [lia|lia|].
  remember (f64_leb _ (f64_ratio (cast_weight s (vt_Votes r) true) _)) as approve eqn:Happ.
  remember (f64_ltb _ (f64_ratio (cast_weight s (vt_Votes r) false) _)) as reject eqn:Hrej.
  symmetry in Happ, Hrej. clear Happ Hrej. rewrite (decide_True (P := vss_ActiveWeight s > 0)) in Hv by lia.
  split; [lia|]. split; [lia|]. split; [exact Hyes|]. split; [exact Hno|].
  destruct approve.
  - injection Hv as Hv. rewrite <- Hv. split; [by apply HT|discriminate].
  - destruct reject; [|discriminate]. injection Hv as Hv. rewrite <- Hv. split; [discriminate|intros _; by apply HF].
Qed.

(** An event is approved only by a supermajority.  In every execution of a
    voting round with the default configuration, whatever votes, tallies,
    validator sets and stores come in between, an event that is finalized as
    approved under a validator set has at least three voters, and its yes
    votes weigh more than two thirds of the set's total active weight; one
    that is rejected has no votes weighing at least 33.2999%. *)
Theorem vr_quorum ops reg e r s :
  let vr := vr_run ops (vr_NewVotingRound None reg) in
  vr_GetRecord e vr = inl r → vr_IsFinalized e vr = inl true →
  vt_BoundSnapshot r = Some s → SourceOk s →
  0 < vt_TotalActiveWeight r ∧ vt_TotalActiveWeight r = vss_ActiveWeight s
  ∧ 3 <= Z.of_nat (size (vt_Votes r))
  ∧ vt_YesWeight r = cast_weight s (vt_Votes r) true ∧ vt_NoWeight r = cast_weight s (vt_Votes r) false
  ∧ (vt_FinalVerdict r = true → 2 * vt_TotalActiveWeight r < 3 * vt_YesWeight r)
  ∧ (vt_FinalVerdict r = false → 332999 * vt_TotalActiveWeight r <= 1000000 * vt_NoWeight r).
Proof.
  intros vr Hg Hi Hs Hok. unfold vr_GetRecord, vr_IsFinalized in *.
  destruct (vr_records vr !! e) as [r'|] eqn:Hr; [|done]. simplify_eq.
  destruct (default_decision ops reg e r s Hr Hi Hs Hok) as (Hpos & Hn & Hy & Hno & HT & HF).
  destruct (run_record_inv ops (vr_NewVotingRound None reg) (map_Forall_empty _) e r Hr) as [_ Ha _].
  rewrite (Ha s Hs), Hy, Hno. split_and!; try done. intros Hv. by destruct (HT Hv).
Qed.

(** Decisions and votes are final.  Whatever happens afterwards, a record
    keeps its validator set, every vote once cast stays as it was cast, and a
    finalized record never changes again, except that its callback is marked
    as fired. *)
Theorem vr_decision_final ops vr e r :
  vr_GetRecord e vr = inl r →
  ∃ r', vr_GetRecord e (vr_run ops vr) = inl r'
    ∧ vt_BoundSnapshot r' = vt_BoundSnapshot r ∧ vt_TotalActiveWeight r' = vt_TotalActiveWeight r
    ∧ (∀ v b, vt_Votes r !! v = Some b → vt_Votes r' !! v = Some b)
    ∧ (vt_Finalized r = true → r' = r ∨ r' = fire_callback r).
Proof.
  unfold vr_GetRecord. destruct (vr_records vr !! e) as [r0|] eqn:Hr; [|done]. intros [= ->].
  destruct (run_later ops vr e r Hr) as (r' & -> & H1 & H2 & H3 & _ & H5). exists r'. split_and!; try done.
  intros v b Hv. by eapply lookup_weaken.
Qed.

(** Finalized events are totally ordered.  In every execution of fewer than
    2^64 operations the order numbers are distinct and lie between 1 and the
    number of finalized events, so they are exactly 1..n; pending events have
    none. *)
Theorem vr_total_order ops cfg reg :
  Z.of_nat (length ops) <= MaxUint64 →
  let vr := vr_run ops (vr_NewVotingRound cfg reg) in
  (∀ e n, vr_FinalOrder e vr = inl n → 1 <= n <= vr_FinalizedCount vr)
  ∧ (∀ e1 e2 n, vr_FinalOrder e1 vr = inl n → vr_FinalOrder e2 vr = inl n → e1 = e2)
  ∧ (∀ e, vr_IsFinalized e vr = inl false → vr_FinalOrder e vr = inr ErrNotFinalized)
  ∧ vr_orderSeq vr = vr_FinalizedCount vr.
Proof.
  intros Hlen vr. destruct (run_order_inv ops (vr_NewVotingRound cfg reg) (new_order_inv cfg reg)) as [[Hr Hi Hc] _];
    [done|simpl; lia|]. fold vr in Hr, Hi, Hc. rewrite FinalizedCount_sum, <- Hc.
  unfold vr_FinalOrder, vr_IsFinalized. split_and!.
  - intros e n. destruct (vr_records vr !! e) as [r|] eqn:He; [|done]. destruct (vt_Finalized r) eqn:Hf; [|done].
    intros [= <-]. by eapply Hr.
  - intros e1 e2 n. destruct (vr_records vr !! e1) as [r1|] eqn:H1; [|done].
    destruct (vr_records vr !! e2) as [r2|] eqn:H2; [|done].
    destruct (vt_Finalized r1) eqn:F1; [|done]. destruct (vt_Finalized r2) eqn:F2; [|done].
    intros [= E1] [= E2]. by eapply (Hi e1 e2 r1 r2); [..|congruence].
  - intros e. destruct (vr_records vr !! e) as [r|]; [|done]. by intros [= ->].
  - done.
Qed.

(** The callback is handed out exactly once.  The first [MarkCallbackFired]
    after an event is finalized returns true; after a call that returned true
    none ever does again, whatever operations run in between. *)
Theorem vr_callback_once vr ops e :
  (∀ r, vr_GetRecord e vr = inl r → vt_Finalized r = true → vt_CallbackFired r = false →
     (vr_MarkCallbackFired e vr).2 = true)
  ∧ (vr_MarkCallbackFired e vr).2
    && (vr_MarkCallbackFired e (vr_run ops (vr_MarkCallbackFired e vr).1)).2 = false.
Proof.
  split.
  - unfold vr_GetRecord, vr_MarkCallbackFired. intros r. destruct (vr_records vr !! e); [|done].
    by intros [= ->] -> ->.
  - destruct (vr_MarkCallbackFired e vr) as [vr1 b] eqn:Hm. destruct b; [|done]. simpl.
    unfold vr_MarkCallbackFired in Hm. destruct (vr_records vr !! e) as [r|] eqn:Hr; [|done].
    destruct (negb _ || _) eqn:Hb; [done|]. injection Hm as <-.
    destruct (run_later ops (vr_put e (fire_callback r) (vr_orderSeq vr) (vr_persistence vr) vr) e (fire_callback r))
      as (r' & Hr' & _ & _ & _ & Hc & _); [simpl; by rewrite lookup_insert_eq|].
    unfold vr_MarkCallbackFired. rewrite Hr', (Hc eq_refl), orb_true_r. done.
Qed.

(** Nodes that count the same votes differently disagree only on the boundary.
    Take two executions that bind an event to the same validator set and in
    which no validator that votes yes in one votes no in the other.  If one
    approves the event and the other rejects it, then at most 33.3001% of the
    weight voted no and at most 66.7001% voted yes: any margin beyond the
    boundary of 2/3 and 1/3 excludes a split decision. *)
Theorem vr_agreement ops1 ops2 reg1 reg2 e r1 r2 s :
  let vr1 := vr_run ops1 (vr_NewVotingRound None reg1) in
  let vr2 := vr_run ops2 (vr_NewVotingRound None reg2) in
  vr_GetRecord e vr1 = inl r1 → vr_GetRecord e vr2 = inl r2 →
  vt_BoundSnapshot r1 = Some s → vt_BoundSnapshot r2 = Some s → SourceOk s →
  (∀ k, vt_Votes r1 !! k = Some true → vt_Votes r2 !! k = Some false → False) →
  vt_Finalized r1 = true → vt_FinalVerdict r1 = true →
  vt_Finalized r2 = true → vt_FinalVerdict r2 = false →
  let W := vss_ActiveWeight s in
  666999 * W <= 1000000 * vt_YesWeight r1 <= 667001 * W
  ∧ 332999 * W <= 1000000 * vt_NoWeight r2 <= 333001 * W.
Proof.
  intros vr1 vr2 H1 H2 S1 S2 Hok Hd F1 V1 F2 V2 W. unfold vr_GetRecord in *.
  destruct (vr_records vr1 !! e) as [x1|] eqn:E1; [|done]. destruct (vr_records vr2 !! e) as [x2|] eqn:E2; [|done].
  simplify_eq.
  destruct (default_decision ops1 reg1 e r1 s E1 F1 S1 Hok) as (_ & _ & -> & _ & HT & _).
  destruct (default_decision ops2 reg2 e r2 s E2 F2 S2 Hok) as (_ & _ & _ & -> & _ & HF).
  destruct (HT V1) as [_ HT']. specialize (HF V2).
  pose proof (cast_weight_disjoint s (vt_Votes r1) (vt_Votes r2) Hd). fold W in HT', HF, H. lia.
Qed.

End properties.

(** The consensus value is the weighted median of the approving votes, in
    whatever order the votes are enumerated: a value some approver reported,
    with at most half of the approving weight strictly below it and more than
    half at or below it. *)
Theorem weighted_median_spec r order :
  order ≡ₚ map_to_list (vt_Votes r) →
  (∀ s k, vt_BoundSnapshot r = Some s → 0 <= weight_of s k) →
  (∃ k, vt_Votes r !! k = Some true) →
  let es := median_entries order r in
  let total := entry_weight (λ _, true) es in
  total < u64_mod →
  let m := computeWeightedMedian order r in
  m = computeWeightedMedian (map_to_list (vt_Votes r)) r
  ∧ (∃ k, vt_Votes r !! k = Some true ∧ default 0 (vt_VerifiedValues r !! k) = m)
  ∧ entry_weight (λ v, v <? m) es <= total / 2 < entry_weight (λ v, v <=? m) es.
Proof.
  intros Ho Hw [k0 Hk0] es total Htot m.
  assert (es ≡ₚ median_entries (map_to_list (vt_Votes r)) r) as Hes by (unfold es, median_entries; by rewrite Ho).
  assert (Forall (λ e, 0 < e.2) es) as Hpos.
  { apply Forall_fmap, Forall_forall. intros [k b] _. simpl. unfold median_weight.
    destruct (vt_BoundSnapshot r) as [s|] eqn:Hs; simpl; [|done].
    specialize (Hw s k eq_refl). unfold weight_of in Hw. case_decide; lia. }
  assert (∀ v w, (v, w) ∈ es → ∃ k, vt_Votes r !! k = Some true ∧ default 0 (vt_VerifiedValues r !! k) = v) as Hback.
  { intros v w ([k b] & [= -> ->] & [Hb Hin]%list_elem_of_filter)%list_elem_of_fmap. simpl in Hb. subst b.
    rewrite Ho, elem_of_map_to_list in Hin. eauto. }
  assert (es ≠ []) as Hne.
  { intros He. assert ((default 0 (vt_VerifiedValues r !! k0), median_weight r k0) ∈ es) as Hin.
    { apply list_elem_of_fmap. exists (k0, true). split; [done|]. apply list_elem_of_filter. split; [done|].
      by rewrite Ho, elem_of_map_to_list. }
    rewrite He in Hin. by apply elem_of_nil in Hin. }
  assert (∀ l, l ≡ₚ es → match l with [] => 0 | _ => median_scan (foldl (λ t e, u64 (t + e.2)) 0 (sort_slice wv_le l) / 2)
    0 0 (sort_slice wv_le l) end = median_scan (total / 2) 0 0 (sort_slice wv_le es)) as Hcomp.
  { intros l Hl. destruct l as [|x l]; [by apply Permutation_nil_l in Hl|].
    rewrite (sort_slice_unique wv_le (x :: l) es Hl), total_weight_fold by (by vm_compute).
    rewrite entry_weight_sort. fold total. rewrite Z.add_0_l, u64_small; [done|].
    split; [by apply entry_weight_nonneg|done]. }
  assert (m = median_scan (total / 2) 0 0 (sort_slice wv_le es)) as Hm.
  { unfold m, computeWeightedMedian. fold es. rewrite <- (Hcomp es) by done. by destruct es. }
  destruct (median_scan_spec (total / 2) 0 0 (sort_slice wv_le es)) as [[w Hin] Hr].
  - apply sort_slice_sorted; apply _.
  - by rewrite sort_slice_perm.
  - split; [done|]. apply Z.div_pos; [by apply entry_weight_nonneg|done].
  - rewrite entry_weight_sort. fold total.
    assert (0 < total); [|pose proof (Z.div_lt total 2); lia].
    destruct es as [|[v w] es'] eqn:He; [done|]. apply Forall_cons in Hpos as [Hw0 Hpos].
    pose proof (entry_weight_nonneg (λ _, true) es' Hpos). unfold total.
    change (entry_weight (λ _, true) ((v, w) :: es')) with (w + entry_weight (λ _, true) es'). simpl in *. lia.
  - by rewrite entry_weight_sort.
  - rewrite <- Hm in Hin, Hr. rewrite sort_slice_perm in Hin. rewrite !entry_weight_sort in Hr.
    split_and!; [|by eapply Hback|lia|lia].
    rewrite Hm. unfold computeWeightedMedian.
    rewrite <- (Hcomp (median_entries (map_to_list (vt_Votes r)) r)) by done. clear.
    by destruct (median_entries (map_to_list (vt_Votes r)) r).
Qed.

(** * Concrete executions *)

(** A store of votes: a list of records, in insertion order. *)
#[global] Instance list_votes : VotePersistence (list PersistedVote) := {|
  PutVote e v b p := (p ++ [mkPersistedVote e v b], true);
  GetVotes e p := Some (filter (λ pv, pv_EventID pv = e) p);
  DeleteVotes e p := (filter (λ pv, pv_EventID pv ≠ e) p, true);
  AllVoteEventIDs p := Some (remove_dups (pv_EventID <$> p));
|}.

Definition DemoRound : Type := VotingRound (KeyedStore fp_AgentID) (list PersistedVote).

(** Four validators with 333, 333, 300 and 34 of a total weight of 1000. *)
Definition split_evs : list LifecycleEvent :=
  [demo_join EventJoin "a" "ka" 333; demo_join EventJoin "b" "kb" 333; demo_join EventJoin "c" "kc" 300;
   demo_join EventJoin "d" "kd" 34;
   demo_join EventReinstate "a" "ka" 0; demo_join EventReinstate "b" "kb" 0;
   demo_join EventReinstate "c" "kc" 0; demo_join EventReinstate "d" "kd" 0;
   demo_join EventActivate "a" "ka" 0; demo_join EventActivate "b" "kb" 0;
   demo_join EventActivate "c" "kc" 0; demo_join EventActivate "d" "kd" 0].

Definition split_snapshot : ValidatorSnapshot := TakeSnapshot (replay split_evs NewReducer).

Definition split_source : ValidatorSetSource :=
  snapshot_source (map_to_list (snap_Seats split_snapshot)) split_snapshot.

Definition vote (v : AgentID) (b : bool) (x : Z) : @vr_op (KeyedStore fp_AgentID) (list PersistedVote) :=
  OpRegisterVote "e" v b x 0.

Definition demo_ops (ops : list (@vr_op (KeyedStore fp_AgentID) (list PersistedVote))) :=
  OpSetValidatorSet split_source :: OpSetPersistence [] :: ops.

Notation demo_start :=
  (vr_NewVotingRound (St := KeyedStore fp_AgentID) (P := list PersistedVote) None (mkRegistry ∅ None)).
Notation demo_round ops := (vr_run (demo_ops ops) demo_start).

(** Yes from 333, 300 and 34; no from 333. *)
Definition split_yes_first : list (@vr_op (KeyedStore fp_AgentID) (list PersistedVote)) :=
  [vote "ka" true 70; vote "kc" true 80; vote "kd" true 90; vote "kb" false 0].
Definition split_no_first : list (@vr_op (KeyedStore fp_AgentID) (list PersistedVote)) :=
  [vote "ka" true 70; vote "kc" true 80; vote "kb" false 0; vote "kd" true 90].

Definition outcome (e : EventID) (vr : DemoRound) : option (bool * bool * Z) :=
  match vr_GetRecord e vr with
  | inl r => Some (vt_Finalized r, vt_FinalVerdict r, vt_FinalVerifiedValue r)
  | inr _ => None
  end.

(** Honest nodes can finalize opposite verdicts.  In double arithmetic
    [1.0 - 0.667] is just below 0.333, so no votes of exactly 33.3% reject an
    event that the remaining 66.7% would approve.  With the same four votes
    and the same validator set, a node that receives the last yes before the
    no approves, and a node that receives it after the no rejects. *)
Theorem vr_split_decision :
  outcome "e" (demo_round split_yes_first) = Some (true, true, 80)
  ∧ outcome "e" (demo_round split_no_first) = Some (true, false, 0)
  ∧ (∀ v, v ∈ [vote "ka" true 70; vote "kc" true 80; vote "kd" true 90; vote "kb" false 0]
       ↔ v ∈ [vote "ka" true 70; vote "kc" true 80; vote "kb" false 0; vote "kd" true 90])
  ∧ f64_ltb (f64_sub f64_one (SupermajorityThreshold DefaultConsensusConfig)) (f64_ratio 333 1000) = true
  ∧ f64_leb (SupermajorityThreshold DefaultConsensusConfig) (f64_ratio 667 1000) = true.
Proof.
  split_and!; [by vm_compute|by vm_compute| |by vm_compute|by vm_compute].
  intros v. rewrite !elem_of_cons. tauto.
Qed.

(** A restart changes the agreed value.  Verified values are not persisted
    and reload as zero, so a node that restarts after two of three votes
    finalizes the event with the value 0, where a node that stays up
    finalizes it with 80. *)
Theorem vr_restart_loses_values :
  let before := demo_round [vote "ka" true 70; vote "kc" true 80] in
  let booted := vr_run [OpSetValidatorSet split_source; OpSetPersistence (default [] (vr_persistence before))]
                  demo_start in
  let reloaded := vr_LoadPersistedVotes 0 booted in
  reloaded.2 = true
  ∧ (vt_Votes <$> vr_records reloaded.1 !! "e") = (vt_Votes <$> vr_records before !! "e")
  ∧ outcome "e" (vr_run [vote "kd" true 90] before) = Some (true, true, 80)
  ∧ outcome "e" (vr_run [vote "kd" true 90] reloaded.1) = Some (true, true, 0).
Proof. split_and!; by vm_compute. Qed.

Lemma split_source_ok : SourceOk split_source.
Proof.
  apply (snapshot_source_ok split_evs); [|by vm_compute|done|by vm_compute].
  repeat constructor; by vm_compute.
Qed.

(** Reads a field of the record of event "e". *)
Definition field {A} (f : VoteRecord → A) (vr : DemoRound) : option A :=
  match vr_GetRecord "e" vr with inl r => Some (f r) | inr _ => None end.

Lemma field_get {A} (f : VoteRecord → A) vr r x : vr_GetRecord "e" vr = inl r → field f vr = Some x → f r = x.
Proof. unfold field. intros ->. by intros [= ->]. Qed.

Lemma field_missing vr err : vr_GetRecord "e" vr = inr err → field (λ _, tt) vr = Some tt → False.
Proof. unfold field. by intros ->. Qed.

Lemma yes_first_bound : field vt_BoundSnapshot (demo_round split_yes_first) = Some (Some split_source).
Proof. vm_compute. reflexivity. Qed.

Lemma no_first_bound : field vt_BoundSnapshot (demo_round split_no_first) = Some (Some split_source).
Proof. vm_compute. reflexivity. Qed.

Lemma vr_quorum_witness : ∃ r, 2 * vt_TotalActiveWeight r < 3 * vt_YesWeight r.
Proof.
  destruct (vr_GetRecord "e" (demo_round split_yes_first)) as [r|] eqn:Hr.
  - exists r. destruct (vr_quorum (demo_ops split_yes_first) (mkRegistry ∅ None) "e" r split_source Hr)
      as (_ & _ & _ & _ & _ & HT & _).
    + vm_compute. reflexivity.
    + exact (field_get _ _ _ _ Hr yes_first_bound).
    + exact split_source_ok.
    + apply HT. apply (field_get _ _ _ _ Hr). vm_compute. reflexivity.
  - exact (False_ind _ (field_missing _ _ Hr ltac:(vm_compute; reflexivity))).
Defined.

Lemma vr_decision_final_witness :
  ∃ r, vr_GetRecord "e" (vr_run [vote "kb" false 0; OpTallyVotes "e"] (demo_round (take 3 split_yes_first))) = inl r
    ∧ vt_Finalized r = true.
Proof.
  destruct (vr_GetRecord "e" (demo_round (take 3 split_yes_first))) as [r|] eqn:Hr.
  - destruct (vr_decision_final [vote "kb" false 0; OpTallyVotes "e"] _ "e" r Hr) as (r' & Hr' & _ & _ & _ & Hfin).
    assert (vt_Finalized r = true) as Hf by (apply (field_get _ _ _ _ Hr); vm_compute; reflexivity).
    exists r'. split; [exact Hr'|]. destruct (Hfin Hf) as [->| ->]; exact Hf.
  - exact (False_ind _ (field_missing _ _ Hr ltac:(vm_compute; reflexivity))).
Defined.

Lemma vr_total_order_witness : vr_orderSeq (demo_round split_yes_first) = vr_FinalizedCount (demo_round split_yes_first).
Proof.
  destruct (vr_total_order (demo_ops split_yes_first) None (mkRegistry ∅ None)) as (_ & _ & _ & H);
    [vm_compute; discriminate|exact H].
Defined.

Lemma vr_agreement_witness : ∃ r1 r2, 1000000 * vt_YesWeight r1 <= 667001 * 1000 ∧ 1000000 * vt_NoWeight r2 <= 333001 * 1000.
Proof.
  destruct (vr_GetRecord "e" (demo_round split_yes_first)) as [r1|] eqn:H1.
  - destruct (vr_GetRecord "e" (demo_round split_no_first)) as [r2|] eqn:H2.
    + exists r1, r2.
      assert (vss_ActiveWeight split_source = 1000) as HW by (vm_compute; reflexivity). rewrite <- HW.
      destruct (vr_agreement (demo_ops split_yes_first) (demo_ops split_no_first) (mkRegistry ∅ None)
        (mkRegistry ∅ None) "e" r1 r2 split_source H1 H2) as [[_ Ha] [_ Hb]];
        [exact (field_get _ _ _ _ H1 yes_first_bound)|exact (field_get _ _ _ _ H2 no_first_bound)
        |exact split_source_ok| | | | | |split; [exact Ha|exact Hb]].
      * assert (vt_Votes r1 = {["ka" := true; "kc" := true; "kd" := true]}) as ->
          by (apply (field_get _ _ _ _ H1); vm_compute; reflexivity).
        assert (vt_Votes r2 = {["ka" := true; "kb" := false; "kc" := true]}) as ->
          by (apply (field_get _ _ _ _ H2); vm_compute; reflexivity).
        intros k Ht Hf. destruct (decide (k = "kb")) as [->|Hne]; [vm_compute in Ht; discriminate|].
        apply lookup_insert_Some in Hf as [[_ Hf]|[_ Hf]]; [discriminate|].
        apply lookup_insert_Some in Hf as [[Hk _]|[_ Hf]]; [by apply Hne|].
        apply lookup_singleton_Some in Hf as [_ Hf]. discriminate.
      * apply (field_get _ _ _ _ H1); vm_compute; reflexivity.
      * apply (field_get _ _ _ _ H1); vm_compute; reflexivity.
      * apply (field_get _ _ _ _ H2); vm_compute; reflexivity.
      * apply (field_get _ _ _ _ H2); vm_compute; reflexivity.
    + exact (False_ind _ (field_missing _ _ H2 ltac:(vm_compute; reflexivity))).
  - exact (False_ind _ (field_missing _ _ H1 ltac:(vm_compute; reflexivity))).
Defined.

(** Three approvals without a validator set: each weighs 1. *)
Definition demo_median : VoteRecord :=
  cast_vote "c" true 30 (cast_vote "b" true 10 (cast_vote "a" true 20
    (open_record "e" 0 demo_start))).

Lemma demo_votes_perm : [("c", true); ("b", true); ("a", true)] ≡ₚ map_to_list (vt_Votes demo_median).
Proof. apply (bool_decide_unpack _). vm_compute. exact I. Qed.

Lemma weighted_median_spec_witness :
  computeWeightedMedian [("c", true); ("b", true); ("a", true)] demo_median = 20
  ∧ ∃ k, vt_Votes demo_median !! k = Some true ∧ default 0 (vt_VerifiedValues demo_median !! k) = 20.
Proof.
  assert (computeWeightedMedian [("c", true); ("b", true); ("a", true)] demo_median = 20) as Hm
    by (vm_compute; reflexivity).
  split; [exact Hm|].
  destruct (weighted_median_spec demo_median [("c", true); ("b", true); ("a", true)]) as (_ & Hk & _).
  - exact demo_votes_perm.
  - intros s k. discriminate.
  - exists "a". vm_compute. reflexivity.
  - vm_compute. reflexivity.
  - rewrite Hm in Hk. exact Hk.
Defined.
