(* ===== verification/Jcs.v ===== *)
(** internal/jcs: RFC 8785 canonical JSON, and what is built on it: the canonical
    bytes, the ID and the signature of an event (internal/event/event.go,
    internal/crypto/signing.go).

    [Json] is the value [json.Unmarshal] produces; an object is the list of its
    members in some order.  Decoding, the formatting of non-integral numbers
    and Ed25519 are library code, operations of the classes below. *)

From S2P Require Import Prelude GoStd Event Float64.

Inductive Json :=
  | JNull
  | JBool (b : bool)
  | JNumber (f : F64)
  | JString (s : string)
  | JArray (l : list Json)
  | JObject (m : list (string * Json)).

(** [strconv.FormatFloat(f, 'G', -1, 64)]; [int64(f)] for an integral [f] that an
    int64 does not hold (Go leaves it to the architecture); [json.Unmarshal] of
    raw bytes. *)
Class JsonLib : Type := {
  FormatFloat : F64 → string;
  int64_out_of_range : Z → Z;
  Unmarshal : string → option Json;
}.

(** * Go strings as sequences of runes *)

Definition byte_at (i : nat) (s : string) : nat :=
  match String.get i s with Some c => Ascii.nat_of_ascii c | None => 0%nat end.

Definition in_range (lo hi n : nat) : bool := bool_decide (lo <= n <= hi)%nat.

(** The number of bytes of the rune at the head of [s], and 0 where the bytes
    are not UTF-8 (as [utf8.DecodeRuneInString] accepts them). *)
Definition rune_width (s : string) : nat :=
  let b0 := byte_at 0 s in
  let cont i := in_range 128 191 (byte_at i s) in
  if decide (b0 < 128)%nat then 1
  else if in_range 194 223 b0 then (if cont 1%nat then 2 else 0)
  else if in_range 224 239 b0
  then let lo := if decide (b0 = 224%nat) then 160%nat else 128%nat in
       let hi := if decide (b0 = 237%nat) then 159%nat else 191%nat in
       if in_range lo hi (byte_at 1 s) && cont 2%nat then 3 else 0
  else if in_range 240 244 b0
  then let lo := if decide (b0 = 240%nat) then 144%nat else 128%nat in
       let hi := if decide (b0 = 244%nat) then 143%nat else 191%nat in
       if in_range lo hi (byte_at 1 s) && cont 2%nat && cont 3%nat then 4 else 0
  else 0.

(** U+FFFD. *)
Definition rune_error : string :=
  String (Ascii.ascii_of_nat 239) (String (Ascii.ascii_of_nat 191) (String (Ascii.ascii_of_nat 189) "")).

(** The runes of [s], encoded again: each byte that is not UTF-8 becomes
    U+FFFD.  [pending] counts the bytes left of the current rune. *)
Fixpoint runes (pending : nat) (s : string) : string :=
  match s with
  | EmptyString => ""
  | String c s' =>
      match pending with
      | S k => String c (runes k s')
      | O => match rune_width s with
             | O => rune_error +:+ runes 0 s'
             | S k => String c (runes k s')
             end
      end
  end.

Definition utf8_coerce (s : string) : string := runes 0 s.

Definition valid_utf8 (s : string) : Prop := utf8_coerce s = s.

#[global] Instance valid_utf8_dec s : Decision (valid_utf8 s).
Proof. unfold valid_utf8. apply _. Defined.

(** * jcs.go *)

(** [strconv.FormatInt(z, 10)]. *)
Definition FormatInt (z : Z) : string := pretty z.

(** [int64(f)] for the integral value [z] of [f]. *)
Definition int64_of `{!JsonLib} (z : Z) : Z := if decide (is_i64 z) then z else int64_out_of_range z.

Definition number `{!JsonLib} (f : F64) : string :=
  if decide (f64_num f = 0) then "0"
  else if decide (f64_num f mod f64_den f = 0 ∧ Z.abs (f64_trunc f) < 10 ^ 20)
  then FormatInt (int64_of (f64_trunc f))
  else FormatFloat f.

Definition quote : Ascii.ascii := Ascii.ascii_of_nat 34.
Definition backslash : Ascii.ascii := Ascii.ascii_of_nat 92.

Definition hex_char (n : nat) : Ascii.ascii := Ascii.ascii_of_nat (if decide (n < 10)%nat then 48 + n else 87 + n).

(** One iteration of the loop of [str], byte by byte: the bytes of a rune above
    0x7f are copied. *)
Definition escape (c : Ascii.ascii) : string :=
  let n := Ascii.nat_of_ascii c in
  if decide (n = 34%nat) then String backslash (String quote "")
  else if decide (n = 92%nat) then String backslash (String backslash "")
  else if decide (n = 8%nat) then String backslash "b"
  else if decide (n = 12%nat) then String backslash "f"
  else if decide (n = 10%nat) then String backslash "n"
  else if decide (n = 13%nat) then String backslash "r"
  else if decide (n = 9%nat) then String backslash "t"
  else if decide (n < 32)%nat
  then String backslash ("u00" +:+ String (hex_char (n / 16)) (String (hex_char (n mod 16)) ""))
  else String c "".

Fixpoint escapes (s : string) : string :=
  match s with
  | EmptyString => ""
  | String c s' => escape c +:+ escapes s'
  end.

Definition str (s : string) : string := String quote (escapes (utf8_coerce s) +:+ String quote "").

(** The elements separated by commas. *)
Fixpoint commas (l : list string) : string :=
  match l with
  | [] => ""
  | [x] => x
  | x :: l' => x +:+ "," +:+ commas l'
  end.

Definition key_le {A} (a b : string * A) : Prop := String.le a.1 b.1.

#[global] Instance key_le_dec {A} (a b : string * A) : Decision (key_le a b).
Proof. unfold key_le, String.le. apply _. Defined.

Fixpoint write `{!JsonLib} (v : Json) : string :=
  match v with
  | JNull => "null"
  | JBool b => if b then "true" else "false"
  | JNumber f => number f
  | JString s => str s
  | JArray l => "[" +:+ commas (map write l) +:+ "]"
  | JObject m =>
      let members := map (λ kv, match kv with (k, x) => (k, write x) end) m in
      "{" +:+ commas ((λ kv, str kv.1 +:+ ":" +:+ kv.2) <$> sort_slice key_le members) +:+ "}"
  end.

Definition Canonicalize `{!JsonLib} (input : string) : option string := write <$> Unmarshal input.

(** * event.go, signing.go: canonical bytes, IDs and signatures *)

(** The payload as JSON; a nil [json.RawMessage] is null. *)
Definition payload_json `{!JsonLib} (e : Event) : option Json :=
  match Payload e with None => Some JNull | Some raw => Unmarshal raw end.

(** The canonical projection of an event as [json.Unmarshal] reads it back from
    [json.Marshal]: a nil slice is null, a string is coerced to UTF-8 and a
    number becomes a float64. *)
Definition event_members (payload : Json) (e : Event) : list (string * Json) :=
  [("type", JString (utf8_coerce (Type_ e)));
   ("causal_refs", match CausalRefsSlice e with
                   | None => JNull
                   | Some refs => JArray (JString ∘ utf8_coerce <$> refs)
                   end);
   ("payload", payload);
   ("agent_id", JString (utf8_coerce (AgentID_ e)));
   ("causal_timestamp", JNumber (f64_of_u64 (CausalTimestamp e)));
   ("stake_amount", JNumber (f64_of_u64 (StakeAmount e)))].

(** A payload that is not JSON cannot be marshalled. *)
Definition eventCanonical `{!JsonLib} (e : Event) : option Json :=
  payload ← payload_json e;
  Some (JObject (event_members payload e)).

(** [event.CanonicalBytes] and [crypto.CanonicalBytes], the same function. *)
Definition CanonicalBytes `{!JsonLib} (e : Event) : option string := write <$> eventCanonical e.

Definition ComputeID `{!JsonLib} (e : Event) : option EventID := sha256_hex <$> CanonicalBytes e.

(** The [payload interface{}] of [New]: nil, raw bytes (which may be a nil
    slice), or a value with the outcome of marshalling it. *)
Inductive NewPayload :=
  | NilPayload
  | RawPayload (raw : option string)
  | ValuePayload (marshalled : option string).

Definition marshal_payload (p : NewPayload) : option (option string) :=
  match p with
  | NilPayload => Some (Some "null")
  | RawPayload raw => Some raw
  | ValuePayload None => None
  | ValuePayload (Some data) => Some (Some data)
  end.

Definition New `{!JsonLib} (eventType : EventType) (causalRefs : option (list EventID)) (payload : NewPayload)
    (agentID : AgentID) (priorTimestamps : gmap EventID Z) (stakeAmount : Z) : option Event :=
  if decide (eventType = "") then None
  else if decide (agentID = "") then None
  else
    let refs := default [] causalRefs in
    rawPayload ← marshal_payload payload;
    let e id := mkEvent id eventType (Some refs) rawPayload agentID []
                  (ComputeCausalTimestamp refs priorTimestamps) stakeAmount SettlementOptimistic in
    id ← ComputeID (e "");
    Some (e id).

Definition ComputeBodyCommitment (e : Event) : string := sha256_hex (default "null" (Payload e)).

Record EventHeaderProjection := mkHeader {
  hdr_EventID : EventID; hdr_Type : EventType; hdr_CausalRefs : option (list EventID); hdr_AgentID : AgentID;
  hdr_CausalTimestamp : Z; hdr_StakeAmount : Z; hdr_BodyCommitment : string; hdr_Signature : list Z;
}.

(** [ProjectHeader]; the commitment never fails. *)
Definition ProjectHeader (e : Event) : EventHeaderProjection :=
  mkHeader (ID e) (Type_ e) (CausalRefsSlice e) (AgentID_ e) (CausalTimestamp e) (StakeAmount e)
    (ComputeBodyCommitment e) (Signature e).

(** crypto/ed25519: keys and signatures are byte strings. *)
Class Ed25519 : Type := {
  ed25519_Sign : list Z → string → list Z;
  ed25519_Verify : list Z → string → list Z → bool;
}.

Definition PublicKeySize : nat := 32.
Definition SignatureSize : nat := 64.

Record KeyPair := mkKeyPair { kp_PrivateKey : list Z; kp_PublicKey : list Z }.

(** [KeyPair.AgentID]: the hex of the public key. *)
Definition kp_AgentID (kp : KeyPair) : AgentID := hex_encode (kp_PublicKey kp).

(** [KeyPair.Sign]; [None] is the error. *)
Definition kp_Sign `{!Ed25519} (kp : KeyPair) (data : string) : option (list Z) :=
  if decide (length (kp_PrivateKey kp) = 0%nat) then None
  else Some (ed25519_Sign (kp_PrivateKey kp) data).

Definition Verify `{!Ed25519} (publicKey : list Z) (data : string) (signature : list Z) : bool :=
  if decide (length publicKey ≠ PublicKeySize) then false
  else if decide (length signature ≠ SignatureSize) then false
  else ed25519_Verify publicKey data signature.

Definition hex_value (c : Ascii.ascii) : option Z :=
  let n := Z.of_nat (Ascii.nat_of_ascii c) in
  if decide (48 <= n <= 57) then Some (n - 48)
  else if decide (97 <= n <= 102) then Some (n - 87)
  else if decide (65 <= n <= 70) then Some (n - 55)
  else None.

(** [hex.DecodeString]. *)
Fixpoint hex_decode (s : string) : option (list Z) :=
  match s with
  | EmptyString => Some []
  | String a (String b s') =>
      x ← hex_value a; y ← hex_value b; rest ← hex_decode s'; Some (16 * x + y :: rest)
  | String _ EmptyString => None
  end.

Definition set_Signature (sig : list Z) (e : Event) : Event :=
  mkEvent (ID e) (Type_ e) (CausalRefsSlice e) (Payload e) (AgentID_ e) sig (CausalTimestamp e) (StakeAmount e)
    (SettlementState_ e).

(** [SignEvent]: the event with its signature, or an error. *)
Definition SignEvent `{!JsonLib, !Ed25519} (e : Event) (kp : KeyPair) : option Event :=
  if decide (AgentID_ e ≠ kp_AgentID kp) then None
  else
    data ← CanonicalBytes e;
    sig ← kp_Sign kp data;
    Some (set_Signature sig e).

Definition VerifyEvent `{!JsonLib, !Ed25519} (e : Event) : bool :=
  if decide (length (Signature e) = 0%nat) then false
  else match hex_decode (AgentID_ e) with
  | None => false
  | Some pubKeyBytes =>
      match CanonicalBytes e with
      | None => false
      | Some data => Verify pubKeyBytes data (Signature e)
      end
  end.

(** * The canonical form

    [same_json v w]: [v] and [w] denote the same JSON value.  Numbers are
    compared by value and objects are unordered. *)
Inductive same_json : Json → Json → Prop :=
  | same_null : same_json JNull JNull
  | same_bool b : same_json (JBool b) (JBool b)
  | same_number f g : f64_num f * f64_den g = f64_num g * f64_den f → same_json (JNumber f) (JNumber g)
  | same_string s : same_json (JString s) (JString s)
  | same_array l1 l2 : Forall2 same_json l1 l2 → same_json (JArray l1) (JArray l2)
  | same_object m1 m1' m2 m2' :
      m1 ≡ₚ m1' → m2 ≡ₚ m2' → Forall2 (λ a b, a.1 = b.1 ∧ same_json a.2 b.2) m1' m2' →
      same_json (JObject m1) (JObject m2).

(** The values for which the canonical form is proved unique: what decoding
    yields (UTF-8 strings, distinct keys), with integral numbers of int64. *)
Fixpoint json_ok (v : Json) : bool :=
  match v with
  | JNull | JBool _ => true
  | JNumber f => bool_decide (0 < f64_den f ∧ f64_num f mod f64_den f = 0 ∧ is_i64 (f64_trunc f))
  | JString s => bool_decide (valid_utf8 s)
  | JArray l => forallb json_ok l
  | JObject m =>
      bool_decide (NoDup m.*1)
      && forallb (λ kv, match kv with (k, x) => bool_decide (valid_utf8 k) && json_ok x end) m
  end.

Section json_induction.
Context (P : Json → Prop) (Hnull : P JNull) (Hbool : ∀ b, P (JBool b)) (Hnum : ∀ f, P (JNumber f))
  (Hstr : ∀ s, P (JString s)) (Harr : ∀ l, Forall P l → P (JArray l))
  (Hobj : ∀ m, Forall (λ kv, P kv.2) m → P (JObject m)).

Fixpoint json_ind (v : Json) : P v :=
  match v with
  | JNull => Hnull
  | JBool b => Hbool b
  | JNumber f => Hnum f
  | JString s => Hstr s
  | JArray l =>
      Harr l ((fix go l : Forall P l := match l with
                           | [] => Forall_nil_2 P
                           | x :: l' => Forall_cons_2 P x l' (json_ind x) (go l')
                           end) l)
  | JObject m =>
      Hobj m ((fix go m : Forall (λ kv : string * Json, P kv.2) m := match m with
                           | [] => Forall_nil_2 (λ kv : string * Json, P kv.2)
                           | (k, x) :: m' => Forall_cons_2 (λ kv, P kv.2) (k, x) m' (json_ind x) (go m')
                           end) m)
  end.
End json_induction.

(** ** Strings are decoded uniquely *)

Lemma string_app_cons c (a b : string) : String c a +:+ b = String c (a +:+ b).
Proof. reflexivity. Qed.

Lemma string_nil_app (a : string) : "" +:+ a = a.
Proof. reflexivity. Qed.

Lemma string_app_assoc (a b c : string) : (a +:+ b) +:+ c = a +:+ (b +:+ c).
Proof. induction a as [|x a IH]; [done|]. rewrite !string_app_cons. by rewrite IH. Qed.

(** Normalises concatenations. *)
Ltac str_norm := repeat first [rewrite string_app_assoc|rewrite string_app_cons|rewrite string_nil_app].
Ltac str_norm_in H :=
  repeat first [rewrite string_app_assoc in H|rewrite string_app_cons in H|rewrite string_nil_app in H].

Lemma string_app_nil (a : string) : a +:+ "" = a.
Proof. induction a as [|x a IH]; [done|]. rewrite string_app_cons. by rewrite IH. Qed.

Lemma string_app_inj_len (a b c d : string) : String.length a = String.length c → a +:+ b = c +:+ d → a = c ∧ b = d.
Proof.
  revert c. induction a as [|x a IH]; intros [|y c]; try done. cbn. intros [= Hl] [= -> E]. destruct (IH _ Hl E). by subst.
Qed.

Lemma string_app_inv_l (a b c : string) : a +:+ b = a +:+ c → b = c.
Proof. intros E. by apply (string_app_inj_len a b a c). Qed.

(** A maximal run of characters that satisfy [p] splits off uniquely. *)
Definition all_chars (p : Ascii.ascii → bool) (s : string) : bool := forallb p (String.list_ascii_of_string s).
Definition stops (p : Ascii.ascii → bool) (s : string) : Prop :=
  match s with EmptyString => True | String c _ => p c = false end.

Lemma span_unique p x y s1 s2 :
  all_chars p x = true → all_chars p y = true → stops p s1 → stops p s2 →
  x +:+ s1 = y +:+ s2 → x = y ∧ s1 = s2.
Proof.
  unfold all_chars. revert y. induction x as [|a x IH]; intros [|b y] Hx Hy Hs1 Hs2 Heq; str_norm_in Heq; simpl in Hx, Hy.
  - done.
  - subst s1. simpl in Hs1. apply andb_true_iff in Hy as [Hb _]. congruence.
  - subst s2. simpl in Hs2. apply andb_true_iff in Hx as [Ha _]. congruence.
  - apply andb_true_iff in Hx as [_ Hx]. apply andb_true_iff in Hy as [_ Hy]. injection Heq as -> Heq.
    destruct (IH y Hx Hy Hs1 Hs2 Heq) as [-> ->]. done.
Qed.

(** [escape] is a prefix code that avoids a bare quote. *)
Definition escape_ok (a : Ascii.ascii) : bool :=
  match escape a with
  | EmptyString => false
  | String c _ => negb (Ascii.eqb c quote)
  end.

Lemma forall_ascii (p : Ascii.ascii → bool) :
  forallb (λ n, p (Ascii.ascii_of_nat n)) (seq 0 256) = true → ∀ a, p a = true.
Proof.
  intros Hp a. rewrite <- (Ascii.ascii_nat_embedding a). rewrite forallb_forall in Hp. apply Hp.
  apply in_seq. pose proof (Ascii.nat_ascii_bounded a). lia.
Qed.

Lemma escape_quote_free a : escape_ok a = true.
Proof. revert a. apply forall_ascii. vm_compute. reflexivity. Qed.

(** Neither of [x] and [y] is a prefix of the other, unless they are equal. *)
Fixpoint prefix_free (x y : string) : bool :=
  match x, y with
  | String a x', String b y' => negb (Ascii.eqb a b) || prefix_free x' y'
  | _, _ => false
  end.

Lemma prefix_free_app x y s1 s2 : prefix_free x y = true → x +:+ s1 ≠ y +:+ s2.
Proof.
  revert y. induction x as [|a x IH]; intros [|b y] Hp Heq; try done. str_norm_in Heq. simpl in Hp.
  injection Heq as -> Heq. rewrite Ascii.eqb_refl in Hp. simpl in Hp. by eapply IH.
Qed.

Lemma escape_prefix_code a b : (Ascii.eqb a b || prefix_free (escape a) (escape b)) = true.
Proof.
  revert a. apply forall_ascii. revert b.
  apply (forall_ascii (λ b, forallb (λ n, (Ascii.eqb (Ascii.ascii_of_nat n) b
    || prefix_free (escape (Ascii.ascii_of_nat n)) (escape b))) (seq 0 256))).
  vm_compute. reflexivity.
Qed.

Lemma escapes_unique x y s1 s2 :
  escapes x +:+ String quote s1 = escapes y +:+ String quote s2 → x = y ∧ s1 = s2.
Proof.
  revert y. induction x as [|a x IH]; intros [|b y] Heq; cbn [escapes] in Heq; str_norm_in Heq.
  - by injection Heq as ->.
  - pose proof (escape_quote_free b) as Hb. unfold escape_ok in Hb. destruct (escape b) as [|c r]; [done|].
    str_norm_in Heq. injection Heq as <- _. by rewrite Ascii.eqb_refl in Hb.
  - pose proof (escape_quote_free a) as Ha. unfold escape_ok in Ha. destruct (escape a) as [|c r]; [done|].
    str_norm_in Heq. injection Heq as -> _. by rewrite Ascii.eqb_refl in Ha.
  - pose proof (escape_prefix_code a b) as Hab. apply orb_true_iff in Hab as [->%Ascii.eqb_eq|Hab].
    + assert (escapes x +:+ String quote s1 = escapes y +:+ String quote s2) as Htl.
      { clear -Heq. induction (escape b) as [|c r IHr]; [done|]. str_norm_in Heq. injection Heq as Heq. by apply IHr. }
      by destruct (IH y Htl) as [-> ->].
    + by apply prefix_free_app in Heq.
Qed.

Lemma str_unique x y s1 s2 :
  valid_utf8 x → valid_utf8 y → str x +:+ s1 = str y +:+ s2 → x = y ∧ s1 = s2.
Proof.
  unfold str. intros -> ->. intros Heq. str_norm_in Heq. injection Heq as Heq. by apply escapes_unique.
Qed.

(** ** Integers are decoded uniquely *)

Definition num_char (c : Ascii.ascii) : bool :=
  let n := Ascii.nat_of_ascii c in bool_decide (48 <= n <= 57 ∨ n = 45)%nat.

Lemma pretty_N_char_num x : num_char (pretty_N_char x) = true.
Proof. destruct x as [|p]; [reflexivity|]. by repeat (destruct p as [p|p|]; try reflexivity). Qed.

Lemma pretty_N_go_num x s : all_chars num_char s = true → all_chars num_char (pretty_N_go x s) = true.
Proof.
  revert s. induction (N.lt_wf_0 x) as [x _ IH]; intros s Hs.
  destruct (decide (x = 0)%N) as [->|Hx]; [by rewrite pretty_N_go_0|].
  rewrite pretty_N_go_step by lia. apply IH; [apply N.div_lt; lia|].
  unfold all_chars in *. cbn. by rewrite pretty_N_char_num, Hs.
Qed.

Lemma pretty_N_num (x : N) : all_chars num_char (pretty x) = true.
Proof. unfold pretty, pretty_N. case_decide; [vm_compute; reflexivity|]. by apply pretty_N_go_num. Qed.

Lemma FormatInt_num z : all_chars num_char (FormatInt z) = true.
Proof.
  unfold FormatInt. destruct z as [|p|p]; [vm_compute; reflexivity| |].
  - exact (pretty_N_num (N.pos p)).
  - change (all_chars num_char ("-" +:+ pretty (N.pos p)) = true). unfold all_chars. cbn. apply pretty_N_num.
Qed.

Lemma FormatInt_cons z : ∃ c r, FormatInt z = String c r ∧ num_char c = true.
Proof.
  pose proof (FormatInt_num z) as H. destruct (FormatInt z) as [|c r] eqn:Hz.
  - unfold FormatInt in Hz. exfalso. destruct z as [|p|p]; [done| |done].
    apply (f_equal (λ s, s +:+ "")) in Hz.
    assert (pretty (N.pos p) = "") as Hp by (rewrite string_app_nil in Hz; exact Hz).
    unfold pretty, pretty_N in Hp. rewrite decide_False in Hp by done.
    rewrite pretty_N_go_step in Hp by lia. clear Hz H.
    assert (∀ x c s, pretty_N_go x (String c s) ≠ "") as Hne; [|by eapply Hne].
    intros x. induction (N.lt_wf_0 x) as [x _ IH]; intros c s.
    destruct (decide (x = 0)%N) as [->|Hx]; [by rewrite pretty_N_go_0|].
    rewrite pretty_N_go_step by lia. apply IH, N.div_lt; lia.
  - exists c, r. split; [done|]. unfold all_chars in H. cbn in H. by apply andb_true_iff in H as [? _].
Qed.

(** ** Comma-separated lists are decoded uniquely *)

Definition comma : Ascii.ascii := Ascii.ascii_of_nat 44.
Definition close_bracket : Ascii.ascii := Ascii.ascii_of_nat 93.
Definition close_brace : Ascii.ascii := Ascii.ascii_of_nat 125.

Definition delimiter (c : Ascii.ascii) : bool :=
  Ascii.eqb c comma || Ascii.eqb c close_bracket || Ascii.eqb c close_brace.

(** What may follow a value: nothing, or a delimiter. *)
Definition delimited (s : string) : Prop :=
  match s with EmptyString => True | String c _ => delimiter c = true end.

Lemma delimited_stops s : delimited s → stops num_char s.
Proof.
  destruct s as [|c s]; [done|]. unfold delimited, stops, delimiter. intros H.
  repeat (apply orb_true_iff in H as [H|H]); apply Ascii.eqb_eq in H as ->; reflexivity.
Qed.

Definition comma_tail (l : list string) : string :=
  match l with [] => "" | _ :: _ => "," +:+ commas l end.

Lemma commas_cons x l : commas (x :: l) = x +:+ comma_tail l.
Proof. destruct l; [by rewrite string_app_nil|done]. Qed.

Section commas.
Context {A : Type} (P : A → A → Prop) (f : A → string) (close : Ascii.ascii).
Context (Hclose : delimiter close = true) (Hcomma : Ascii.eqb comma close = false).
Variables (ok : A → Prop).
Hypothesis Hhead : ∀ x, ok x → ∃ c r, f x = String c r ∧ delimiter c = false.

Definition decodes (x y : A) : Prop :=
  ∀ s1 s2, delimited s1 → delimited s2 → f x +:+ s1 = f y +:+ s2 → P x y ∧ s1 = s2.

Lemma comma_tail_delimited l s : delimited (comma_tail l +:+ String close s).
Proof using Hclose. destruct l; [exact Hclose|reflexivity]. Qed.

Lemma comma_tail_unique l1 l2 s1 s2 :
  (∀ x y, x ∈ l1 → y ∈ l2 → decodes x y) →
  comma_tail (f <$> l1) +:+ String close s1 = comma_tail (f <$> l2) +:+ String close s2 →
  Forall2 P l1 l2 ∧ s1 = s2.
Proof using Hclose Hcomma.
  revert l2. induction l1 as [|x l1 IH]; intros [|y l2] Hdec Heq.
  - injection Heq as ->. by split.
  - cbn [fmap list_fmap comma_tail] in Heq. str_norm_in Heq. injection Heq as Hc _. subst close.
    by rewrite Ascii.eqb_refl in Hcomma.
  - cbn [fmap list_fmap comma_tail] in Heq. str_norm_in Heq. injection Heq as Hc _. subst close.
    by rewrite Ascii.eqb_refl in Hcomma.
  - cbn [fmap list_fmap comma_tail] in Heq. rewrite !commas_cons in Heq. str_norm_in Heq. injection Heq as Heq.
    apply Hdec in Heq as [HP Heq]; [|apply list_elem_of_here|apply list_elem_of_here|apply comma_tail_delimited..].
    apply IH in Heq as [Hl ->]; [by split; [constructor|]|].
    intros x' y' Hx Hy. by apply Hdec; apply list_elem_of_further.
Qed.

Lemma commas_unique l1 l2 s1 s2 :
  Forall ok l1 → Forall ok l2 → (∀ x y, x ∈ l1 → y ∈ l2 → decodes x y) →
  commas (f <$> l1) +:+ String close s1 = commas (f <$> l2) +:+ String close s2 →
  Forall2 P l1 l2 ∧ s1 = s2.
Proof using Hclose Hcomma Hhead.
  intros H1 H2 Hdec Heq. destruct l1 as [|x l1], l2 as [|y l2].
  - injection Heq as ->. by split.
  - apply Forall_cons in H2 as [(c & r & Hy & Hc)%Hhead _]. cbn [fmap list_fmap] in Heq.
    rewrite commas_cons, Hy in Heq. cbn [commas] in Heq. str_norm_in Heq. injection Heq as <- _. congruence.
  - apply Forall_cons in H1 as [(c & r & Hx & Hc)%Hhead _]. cbn [fmap list_fmap] in Heq.
    rewrite commas_cons, Hx in Heq. cbn [commas] in Heq. str_norm_in Heq. injection Heq as -> _. congruence.
  - apply (comma_tail_unique (x :: l1) (y :: l2)); [done|]. cbn [fmap list_fmap comma_tail].
    rewrite !(string_app_assoc ","). exact (f_equal (String.append ",") Heq).
Qed.
End commas.

(** ** Sorting by distinct keys *)

#[global] Instance key_le_trans {A} : Transitive (@key_le A).
Proof. intros a b c Hab Hbc. unfold key_le in *. by etrans. Qed.

#[global] Instance key_le_total {A} : Total (@key_le A).
Proof. intros a b. unfold key_le. apply (total String.le). Qed.

Lemma sort_keys_unique {A} (l1 l2 : list (string * A)) :
  NoDup l1.*1 → l1 ≡ₚ l2 → sort_slice key_le l1 = sort_slice key_le l2.
Proof.
  intros Hnd Hp. assert (sort_slice key_le l1 ≡ₚ l1) as Hp1 by apply sort_slice_perm.
  assert (sort_slice key_le l2 ≡ₚ l1) as Hp2 by (etrans; [apply sort_slice_perm|done]).
  apply (StronglySorted_unique_strong key_le); [|apply sort_slice_sorted; apply _..|by rewrite Hp1, Hp2].
  intros [k1 x1] [k2 x2] Hx1 Hx2 Hle1 Hle2. rewrite Hp1 in Hx1. rewrite Hp2 in Hx2.
  assert (k1 = k2) as <- by (by apply (anti_symm String.le)).
  apply list_elem_of_lookup in Hx1 as [i Hi]. apply list_elem_of_lookup in Hx2 as [j Hj].
  assert (i = j) as <-; [|congruence].
  eapply (NoDup_lookup _ _ _ k1 Hnd); rewrite list_lookup_fmap; [by rewrite Hi|by rewrite Hj].
Qed.

(** ** The canonical form is unique *)

Section canonical.
Context {lib : JsonLib}.

Lemma trunc_exact f : f64_num f mod f64_den f = 0 → f64_num f = f64_den f * f64_trunc f.
Proof. intros H. unfold f64_trunc. pose proof (Z_div_mod_eq_full (f64_num f) (f64_den f)). lia. Qed.

Lemma number_integral f : json_ok (JNumber f) = true → number f = FormatInt (f64_trunc f).
Proof.
  cbn. intros (Hd & Hm & Hi)%bool_decide_eq_true. unfold number. pose proof (trunc_exact f Hm).
  case_decide as H0; [by replace (f64_trunc f) with 0 by nia|].
  rewrite decide_True; [|split; [done|unfold is_i64 in Hi; lia]].
  unfold int64_of. by rewrite decide_True.
Qed.

Lemma same_number_trunc f g :
  json_ok (JNumber f) = true → json_ok (JNumber g) = true →
  f64_num f * f64_den g = f64_num g * f64_den f ↔ f64_trunc f = f64_trunc g.
Proof.
  cbn. intros (Hd1 & Hm1%trunc_exact & _)%bool_decide_eq_true (Hd2 & Hm2%trunc_exact & _)%bool_decide_eq_true.
  rewrite Hm1, Hm2. split; [|intros ->; lia]. intros H.
  apply (Z.mul_cancel_l _ _ (f64_den f * f64_den g)); [nia|]. lia.
Qed.

Lemma json_ok_array l : json_ok (JArray l) = true ↔ Forall (λ x, json_ok x = true) l.
Proof.
  cbn. rewrite forallb_forall, Forall_forall.
  by split; intros Hl x; [intros ?%list_elem_of_In|intros ?%list_elem_of_In]; apply Hl.
Qed.

Definition member_ok (kv : string * Json) : Prop := valid_utf8 kv.1 ∧ json_ok kv.2 = true.

Lemma json_ok_object m : json_ok (JObject m) = true ↔ NoDup m.*1 ∧ Forall member_ok m.
Proof.
  cbn. rewrite andb_true_iff, bool_decide_eq_true, forallb_forall, Forall_forall.
  apply and_iff_compat_l. split; intros Hm [k x]; [intros Hin%list_elem_of_In|intros Hin%list_elem_of_In];
    specialize (Hm _ Hin); unfold member_ok in *; rewrite ?andb_true_iff, ?bool_decide_eq_true in *; exact Hm.
Qed.

(** The members of an object as they are written. *)
Definition member (kv : string * Json) : string := str kv.1 +:+ ":" +:+ write kv.2.

Definition written (kv : string * Json) : string * string := (kv.1, write kv.2).

Lemma sort_written m : written <$> sort_slice key_le m = sort_slice key_le (written <$> m).
Proof. by apply (sort_slice_fmap written key_le key_le). Qed.

Lemma member_written (m : list (string * Json)) : member <$> m = (λ kv, str kv.1 +:+ ":" +:+ kv.2) <$> (written <$> m).
Proof. by rewrite <- list_fmap_compose. Qed.

Lemma write_object m :
  write (JObject m) = "{" +:+ commas (member <$> sort_slice key_le m) +:+ "}".
Proof.
  cbn [write]. rewrite member_written, sort_written.
  by rewrite (map_ext (λ kv : string * Json, let (k, x) := kv in (k, write x)) written) by (by intros [? ?]).
Qed.

Lemma member_head kv : member_ok kv → ∃ c r, member kv = String c r ∧ delimiter c = false.
Proof. intros _. unfold member, str. str_norm. by do 2 eexists. Qed.

(** What the first character of a value tells of its constructor. *)
Definition kind (v : Json) : nat :=
  match v with
  | JNull => 0 | JBool true => 1 | JBool false => 2 | JNumber _ => 3
  | JString _ => 4 | JArray _ => 5 | JObject _ => 6
  end.

Definition kind_of_char (c : Ascii.ascii) : nat :=
  if num_char c then 3
  else match Ascii.nat_of_ascii c with
  | 110 => 0 | 116 => 1 | 102 => 2 | 34 => 4 | 91 => 5 | 123 => 6 | _ => 7
  end%nat.

Lemma write_head v : json_ok v = true → ∃ c r, write v = String c r ∧ kind_of_char c = kind v.
Proof.
  destruct v as [|[]|f|s|l|m]; intros Hok; [by do 2 eexists..| |by do 2 eexists| |].
  - destruct (FormatInt_cons (f64_trunc f)) as (c & r & Hc & Hn). exists c, r. cbn [write kind].
    rewrite number_integral by done. split; [done|]. unfold kind_of_char. by rewrite Hn.
  - cbn [write]. rewrite string_app_cons. by do 2 eexists.
  - rewrite write_object, string_app_cons. by do 2 eexists.
Qed.

Lemma write_head_delimiter v :
  json_ok v = true → ∃ c r, write v = String c r ∧ delimiter c = false.
Proof.
  intros (c & r & Hw & Hc)%write_head. exists c, r. split; [done|].
  destruct (delimiter c) eqn:Hd; [|done]. exfalso. unfold delimiter in Hd.
  repeat (apply orb_true_iff in Hd as [Hd|Hd]); apply Ascii.eqb_eq in Hd as ->; vm_compute in Hc;
    by destruct v as [|[]| | | |].
Qed.

Lemma write_kind v w s1 s2 :
  json_ok v = true → json_ok w = true → write v +:+ s1 = write w +:+ s2 → kind v = kind w.
Proof.
  intros (c & r & -> & <-)%write_head (c' & r' & -> & <-)%write_head. str_norm. by intros [= -> _].
Qed.

Lemma member_decodes k x k' x' :
  (∀ w s1 s2, json_ok x = true → json_ok w = true → delimited s1 → delimited s2 →
    write x +:+ s1 = write w +:+ s2 → same_json x w ∧ s1 = s2) →
  member_ok (k, x) → member_ok (k', x') →
  decodes (λ a b, a.1 = b.1 ∧ same_json a.2 b.2) member (k, x) (k', x').
Proof.
  intros IH [Hk Hx] [Hk' Hx'] s1 s2 Hs1 Hs2 Heq. unfold member in Heq. cbn [fst snd] in *.
  rewrite !(string_app_assoc (str _)) in Heq. apply str_unique in Heq as [-> Heq]; [|done..].
  str_norm_in Heq. injection Heq as Heq. apply IH in Heq as [Hv ->]; done.
Qed.

Lemma write_unique v w s1 s2 :
  json_ok v = true → json_ok w = true → delimited s1 → delimited s2 →
  write v +:+ s1 = write w +:+ s2 → same_json v w ∧ s1 = s2.
Proof.
  revert w s1 s2. induction v as [|b|f|s|l IH|m IH] using json_ind; intros w s1 s2 Hv Hw Hs1 Hs2 Heq;
    pose proof (write_kind _ _ _ _ Hv Hw Heq) as Hk.
  - destruct w as [|[]| | | |]; try done. split; [constructor|by injection Heq].
  - destruct b, w as [|[]| | | |]; try done; (split; [constructor|by injection Heq]).
  - destruct w as [|[]|g| | |]; try done. cbn [write] in Heq. rewrite !number_integral in Heq by done.
    apply (span_unique num_char) in Heq as [Hfg ->]; [|apply FormatInt_num|apply FormatInt_num|by apply delimited_stops..].
    split; [constructor; apply same_number_trunc; [done..|by apply (inj pretty)]|done].
  - destruct w as [|[]| |t| |]; try done. cbn in Hv, Hw. apply bool_decide_eq_true in Hv, Hw.
    apply str_unique in Heq as [-> ->]; [|done..]. split; [constructor|done].
  - destruct w as [|[]| | |l'|]; try done. apply json_ok_array in Hv, Hw. cbn [write] in Heq.
    str_norm_in Heq. injection Heq as Heq.
    apply (commas_unique same_json write close_bracket eq_refl eq_refl _ write_head_delimiter) in Heq
      as [Hl ->]; [split; [by constructor|done]|done..|].
    intros x y Hx Hy t1 t2 Ht1 Ht2 Hxy. rewrite Forall_forall in IH, Hv, Hw. by apply (IH x Hx); [apply Hv|apply Hw|..].
  - destruct w as [|[]| | | |m']; try done. apply json_ok_object in Hv as [Hnd Hv], Hw as [Hnd' Hw].
    rewrite !write_object in Heq. str_norm_in Heq. injection Heq as Heq.
    rewrite <- (sort_slice_perm key_le) in Hv, IH. rewrite <- (sort_slice_perm key_le m') in Hw.
    apply (commas_unique (λ a b, a.1 = b.1 ∧ same_json a.2 b.2) member close_brace eq_refl eq_refl member_ok
      member_head) in Heq as [Hl ->]; [|done..|].
    + split; [|done]. by apply (same_object _ (sort_slice key_le m) _ (sort_slice key_le m'));
        [symmetry; apply sort_slice_perm..|].
    + intros [k x] [k' x'] Hx Hy. rewrite Forall_forall in IH, Hv, Hw.
      by apply member_decodes; [apply (IH _ Hx)|apply Hv|apply Hw].
Qed.

Lemma write_members_same (m m' : list (string * Json)) :
  Forall (λ kv, ∀ w, json_ok kv.2 = true → json_ok w = true → same_json kv.2 w → write kv.2 = write w) m →
  Forall member_ok m → Forall member_ok m' →
  Forall2 (λ a b, a.1 = b.1 ∧ same_json a.2 b.2) m m' →
  written <$> m = written <$> m'.
Proof.
  intros HIH Hm Hm' HF. induction HF as [|[k x] [k' x'] m m' [Hk Hs] HF IH]; [done|].
  apply Forall_cons in HIH as [Hx HIH], Hm as [[_ Hox] Hm], Hm' as [[_ Hox'] Hm'].
  rewrite !fmap_cons. f_equal; [|by apply IH]. unfold written. cbn [fst snd] in *. f_equal; [done|]. by apply Hx.
Qed.

Lemma write_same v w : json_ok v = true → json_ok w = true → same_json v w → write v = write w.
Proof.
  revert w. induction v as [|b|f|s|l IH|m IH] using json_ind; intros w Hv Hw Hs; inversion Hs; subst; try done.
  - cbn [write]. rewrite !number_integral by done. f_equal. by apply same_number_trunc.
  - cbn [write]. do 3 f_equal. apply json_ok_array in Hv, Hw. clear Hs.
    match goal with HF : Forall2 _ _ _ |- _ => revert IH Hv Hw; induction HF as [|x y ?? Hxy ? IHl] end;
      intros IH Hv Hw; [done|].
    apply Forall_cons in IH as [Hx IH], Hv as [Hox Hv], Hw as [Hoy Hw]. cbn [map]. f_equal; [by apply Hx|by apply IHl].
  - rewrite !write_object, !member_written, !sort_written.
    apply json_ok_object in Hv as [Hnd Hv], Hw as [Hnd' Hw]. do 4 f_equal.
    match goal with Hp1 : m ≡ₚ ?a, Hp2 : ?m2 ≡ₚ ?b, HF : Forall2 _ ?a ?b |- _ =>
      rewrite (sort_keys_unique (written <$> m) (written <$> a)), (sort_keys_unique (written <$> m2) (written <$> b));
      [|by rewrite <- list_fmap_compose|by rewrite Hp2|by rewrite <- list_fmap_compose|by rewrite Hp1];
      rewrite Hp1 in IH, Hv; rewrite Hp2 in Hw; f_equal; by apply write_members_same
    end.
Qed.

(** C37: the canonical form identifies exactly the JSON values that are equal: two values with UTF-8 strings,
    distinct keys and integral numbers of int64 are written to the same bytes if and only if they are the same
    value, whatever the order of the members of their objects.  No two different values share a canonical
    form. *)
Theorem canonical_form_unique v w :
  json_ok v = true → json_ok w = true → (write v = write w ↔ same_json v w).
Proof.
  intros Hv Hw. split; [|by apply write_same]. intros Heq.
  destruct (write_unique v w "" "") as [Hs _]; [done|done|done|done|by rewrite Heq|done].
Qed.
End canonical.

(** * Events *)

(** What the canonical form sees of an event; the payload is compared as a JSON
    value. *)
Definition same_content `{!JsonLib} (e1 e2 : Event) : Prop :=
  Type_ e1 = Type_ e2 ∧ CausalRefsSlice e1 = CausalRefsSlice e2 ∧ AgentID_ e1 = AgentID_ e2
  ∧ CausalTimestamp e1 = CausalTimestamp e2 ∧ StakeAmount e1 = StakeAmount e2
  ∧ option_Forall2 same_json (payload_json e1) (payload_json e2).

(** An event whose strings are UTF-8, whose counters a float64 holds exactly
    and whose payload decodes to a value the canonical form identifies. *)
Definition event_ok `{!JsonLib} (e : Event) : bool :=
  bool_decide (valid_utf8 (Type_ e) ∧ Forall valid_utf8 (CausalRefs e) ∧ valid_utf8 (AgentID_ e)
    ∧ 0 <= CausalTimestamp e <= 2 ^ 53 ∧ 0 <= StakeAmount e <= 2 ^ 53)
  && match payload_json e with Some p => json_ok p | None => false end.

Section events.
Context {lib : JsonLib}.

Lemma exact_number_ok x : 0 <= x <= 2 ^ 53 → json_ok (JNumber (f64_of_u64 x)) = true ∧ f64_trunc (f64_of_u64 x) = x.
Proof.
  intros Hx. destruct (f64_of_u64_exact x Hx) as [Hd Hn]. unfold f64_trunc. cbn [json_ok].
  assert (f64_num (f64_of_u64 x) / f64_den (f64_of_u64 x) = x) as Ht by (rewrite Hn; apply Z.div_mul; lia).
  split; [|done]. apply bool_decide_eq_true. unfold f64_trunc. rewrite Ht. split_and!; [done| |].
  - rewrite Hn. apply Z.mod_mul. lia.
  - unfold is_i64. lia.
Qed.

Lemma refs_ok refs : Forall valid_utf8 refs → json_ok (JArray (JString ∘ utf8_coerce <$> refs)) = true.
Proof.
  intros Hr. apply json_ok_array, Forall_fmap. eapply Forall_impl; [exact Hr|].
  intros s Hs. cbn. apply bool_decide_eq_true. by rewrite Hs.
Qed.

Lemma refs_same refs1 refs2 :
  Forall valid_utf8 refs1 → Forall valid_utf8 refs2 →
  Forall2 same_json (JString ∘ utf8_coerce <$> refs1) (JString ∘ utf8_coerce <$> refs2) → refs1 = refs2.
Proof.
  intros H1 H2 HF. revert refs2 H2 HF. induction H1 as [|s refs1 Hs H1 IH]; intros [|s' refs2] H2 HF;
    rewrite ?fmap_nil, ?fmap_cons in HF; inversion HF as [|???? Hss HF']; subst; [done|].
  apply Forall_cons in H2 as [Hs' H2]. f_equal; [|by apply IH].
  unfold valid_utf8 in *. cbn in Hss. inversion Hss. congruence.
Qed.

Lemma event_members_keys p e : NoDup (event_members p e).*1.
Proof. apply (bool_decide_unpack _). vm_compute. exact I. Qed.

Lemma event_members_ok e :
  event_ok e = true → ∃ p, payload_json e = Some p ∧ json_ok (JObject (event_members p e)) = true.
Proof.
  unfold event_ok. rewrite andb_true_iff, bool_decide_eq_true.
  intros [(Ht & Hr & Ha & Hts & Hst) Hp]. destruct (payload_json e) as [p|]; [|done]. exists p. split; [done|].
  destruct (exact_number_ok _ Hts) as [Hn1 _]. destruct (exact_number_ok _ Hst) as [Hn2 _].
  apply json_ok_object. split; [apply event_members_keys|].
  unfold CausalRefs in Hr. unfold member_ok, event_members. rewrite Ht, Ha.
  assert (∀ s, valid_utf8 s → json_ok (JString s) = true) as Hs by (intros s Hs; by apply bool_decide_eq_true).
  repeat apply Forall_cons_2; try apply Forall_nil_2; (split; [by vm_compute|cbn [snd]]);
    [by apply Hs| |done|by apply Hs|done|done].
  destruct (CausalRefsSlice e) as [refs|]; [by apply refs_ok|done].
Qed.

Lemma same_member k x y m1 m2 :
  NoDup m1.*1 → NoDup m2.*1 → (k, x) ∈ m1 → (k, y) ∈ m2 → same_json (JObject m1) (JObject m2) → same_json x y.
Proof.
  intros Hnd1 Hnd2 Hx Hy Hs. inversion Hs as [| | | | |? m1' ? m2' Hp1 Hp2 HF]; subst.
  rewrite Hp1 in Hx, Hnd1. rewrite Hp2 in Hy, Hnd2.
  apply list_elem_of_lookup in Hx as [i Hi]. destruct (Forall2_lookup_l _ _ _ _ _ HF Hi) as ([k' y'] & Hj & Hk & Hsame).
  cbn in Hk, Hsame. subst k'. apply list_elem_of_lookup in Hy as [j Hy].
  assert (i = j) as <-; [|congruence].
  eapply (NoDup_lookup _ _ _ k Hnd2); rewrite list_lookup_fmap; [by rewrite Hj|by rewrite Hy].
Qed.
Lemma same_json_refl v : same_json v v.
Proof.
  induction v as [| | | |l IH|m IH] using json_ind; try by constructor.
  - constructor. induction IH; by constructor.
  - apply (same_object m m m m); [done..|]. induction IH; by constructor.
Qed.

(** Membership in an explicit list. *)
Ltac solve_member := repeat first [apply list_elem_of_here|apply list_elem_of_further].

Lemma same_members_content p1 p2 e1 e2 :
  event_ok e1 = true → event_ok e2 = true → payload_json e1 = Some p1 → payload_json e2 = Some p2 →
  same_json (JObject (event_members p1 e1)) (JObject (event_members p2 e2)) → same_content e1 e2.
Proof.
  intros Hok1 Hok2 Hp1 Hp2 Hs.
  assert (∀ k x y, (k, x) ∈ event_members p1 e1 → (k, y) ∈ event_members p2 e2 → same_json x y) as Hm.
  { intros k x y Hx Hy. eapply same_member; [..|exact Hx|exact Hy|exact Hs]; apply event_members_keys. }
  unfold event_ok in Hok1, Hok2. rewrite andb_true_iff, bool_decide_eq_true in Hok1, Hok2.
  destruct Hok1 as [(Ht1 & Hr1 & Ha1 & Hts1 & Hst1) _], Hok2 as [(Ht2 & Hr2 & Ha2 & Hts2 & Hst2) _].
  assert (∀ a b, valid_utf8 a → valid_utf8 b → same_json (JString (utf8_coerce a)) (JString (utf8_coerce b)) → a = b)
    as Hstr by (unfold valid_utf8; intros a b ??; inversion 1; congruence).
  assert (∀ a b, 0 <= a <= 2 ^ 53 → 0 <= b <= 2 ^ 53 →
    same_json (JNumber (f64_of_u64 a)) (JNumber (f64_of_u64 b)) → a = b) as Hnum.
  { intros a b Ha Hb Hab. destruct (exact_number_ok a Ha) as [Ha' <-], (exact_number_ok b Hb) as [Hb' <-].
    apply same_number_trunc; [done..|]. inversion Hab. done. }
  unfold event_members in Hm. split_and!.
  - apply Hstr; [done..|]. eapply (Hm "type"); solve_member.
  - specialize (Hm "causal_refs"). unfold CausalRefs in Hr1, Hr2.
    destruct (CausalRefsSlice e1) as [r1|], (CausalRefsSlice e2) as [r2|]; cbn [default] in *; [..|done].
    + f_equal. assert (same_json (JArray (JString ∘ utf8_coerce <$> r1)) (JArray (JString ∘ utf8_coerce <$> r2))) as Hr
        by (eapply Hm; solve_member).
      apply refs_same; [done..|]. by inversion Hr.
    + assert (same_json (JArray (JString ∘ utf8_coerce <$> r1)) JNull) as Hr
        by (eapply Hm; solve_member). inversion Hr.
    + assert (same_json JNull (JArray (JString ∘ utf8_coerce <$> r2))) as Hr
        by (eapply Hm; solve_member). inversion Hr.
  - apply Hstr; [done..|]. eapply (Hm "agent_id"); solve_member.
  - apply Hnum; [done..|]. eapply (Hm "causal_timestamp"); solve_member.
  - apply Hnum; [done..|]. eapply (Hm "stake_amount"); solve_member.
  - rewrite Hp1, Hp2. constructor. eapply (Hm "payload"); solve_member.
Qed.

Lemma content_same_members p1 p2 e1 e2 :
  payload_json e1 = Some p1 → payload_json e2 = Some p2 → same_content e1 e2 →
  same_json (JObject (event_members p1 e1)) (JObject (event_members p2 e2)).
Proof.
  intros Hp1 Hp2 (Ht & Hr & Ha & Hts & Hst & Hp). rewrite Hp1, Hp2 in Hp. inversion Hp; subst.
  unfold event_members. rewrite Ht, Hr, Ha, Hts, Hst. eapply same_object; [done..|].
  repeat apply Forall2_cons_2; try apply Forall2_nil_2; (split; [done|]); (exact (same_json_refl _) || done).
Qed.

(** Two events have the same canonical bytes if and only if they have the same type, causal references,
    author, timestamp and stake and payloads that are the same JSON value.  The ID, the signature and the
    settlement state are not part of the canonical form. *)
Theorem canonical_bytes_identify e1 e2 :
  event_ok e1 = true → event_ok e2 = true → (CanonicalBytes e1 = CanonicalBytes e2 ↔ same_content e1 e2).
Proof.
  intros Hok1 Hok2. destruct (event_members_ok e1 Hok1) as (p1 & Hp1 & Hv1), (event_members_ok e2 Hok2) as (p2 & Hp2 & Hv2).
  assert (CanonicalBytes e1 = Some (write (JObject (event_members p1 e1)))) as ->
    by (unfold CanonicalBytes, eventCanonical; by rewrite Hp1).
  assert (CanonicalBytes e2 = Some (write (JObject (event_members p2 e2)))) as ->
    by (unfold CanonicalBytes, eventCanonical; by rewrite Hp2).
  split.
  - intros Heq%(inj Some). apply (same_members_content p1 p2); [done..|].
    apply (write_unique _ _ "" ""); [done|done|done|done|by rewrite Heq].
  - intros Hs. f_equal. apply write_same; [done..|]. by apply content_same_members.
Qed.
End events.

(** ** Identifiers *)

Section identifiers.
Context {lib : JsonLib}.

Lemma ComputeID_ext e1 e2 : CanonicalBytes e1 = CanonicalBytes e2 → ComputeID e1 = ComputeID e2.
Proof. unfold ComputeID. by intros ->. Qed.

(** [New] computes the ID of the event it returns. *)
Lemma New_id ty refs payload agent prior stake e :
  New ty refs payload agent prior stake = Some e →
  ComputeID e = Some (ID e) ∧ Type_ e = ty ∧ CausalRefsSlice e = Some (default [] refs) ∧ AgentID_ e = agent
  ∧ CausalTimestamp e = ComputeCausalTimestamp (default [] refs) prior ∧ StakeAmount e = stake
  ∧ Signature e = [] ∧ SettlementState_ e = SettlementOptimistic.
Proof.
  unfold New. do 2 (case_decide; [done|]). intros (raw & Hraw & Hr)%bind_Some.
  apply bind_Some in Hr as (id & Hid & [= <-]). split; [|done]. cbn [ID]. rewrite <- Hid. by apply ComputeID_ext.
Qed.

(** Event IDs are content addresses.  The ID [New] gives an event is the hash of its canonical bytes, and
    two events with the same ID have the same type, references, author, timestamp, stake and payload value, unless
    SHA-256 collides on their canonical bytes. *)
Theorem event_id_identifies ty1 refs1 pay1 ag1 prior1 stake1 e1 e2 :
  New ty1 refs1 pay1 ag1 prior1 stake1 = Some e1 → event_ok e1 = true → event_ok e2 = true →
  ComputeID e2 = Some (ID e1) →
  same_content e1 e2
  ∨ ∃ b1 b2, b1 ≠ b2 ∧ sha256_hex b1 = sha256_hex b2 ∧ CanonicalBytes e1 = Some b1 ∧ CanonicalBytes e2 = Some b2.
Proof.
  intros (Hid & _)%New_id Hok1 Hok2 Hid2. rewrite <- Hid in Hid2. unfold ComputeID in Hid, Hid2.
  destruct (CanonicalBytes e1) as [b1|] eqn:H1; [|done]. destruct (CanonicalBytes e2) as [b2|] eqn:H2; [|done].
  destruct (decide (b1 = b2)) as [->|Hne].
  - left. apply canonical_bytes_identify; [done..|]. by rewrite H1, H2.
  - right. exists b1, b2. apply (inj Some) in Hid2. done.
Qed.
End identifiers.

(** ** Signatures *)

(** What crypto/ed25519 documents: a generated pair has keys of the fixed sizes,
    signatures have theirs, and verification accepts what the pair signs. *)
Class Ed25519Ok `{!Ed25519} : Type := {
  generated : list Z → list Z → Prop;
  generated_sizes priv pub : generated priv pub →
    length priv = 64%nat ∧ length pub = PublicKeySize ∧ Forall (λ b, 0 <= b < 256) pub;
  sign_size priv pub d : generated priv pub → length (ed25519_Sign priv d) = SignatureSize;
  sign_accepted priv pub d : generated priv pub → ed25519_Verify pub d (ed25519_Sign priv d) = true;
}.

(** No key accepts [sig] for two different messages. *)
Definition signature_binds `{!Ed25519} (sig : list Z) : Prop :=
  ∀ pk1 pk2 d1 d2, ed25519_Verify pk1 d1 sig = true → ed25519_Verify pk2 d2 sig = true → d1 = d2.

Lemma hex_digit_value z : 0 <= z < 16 → hex_value (hex_digit z) = Some z.
Proof.
  intros Hz. assert (Forall (λ z, hex_value (hex_digit z) = Some z) (seqZ 0 16)) as Hall
    by (apply (bool_decide_unpack _); vm_compute; exact I).
  rewrite Forall_forall in Hall. apply Hall, elem_of_seqZ. lia.
Qed.

Lemma hex_decode_encode bs : Forall (λ b, 0 <= b < 256) bs → hex_decode (hex_encode bs) = Some bs.
Proof.
  induction 1 as [|b bs Hb Hbs IH]; [done|]. cbn [hex_encode hex_decode].
  assert (Z.shiftr b 4 = b / 16) as -> by (by rewrite Z.shiftr_div_pow2).
  assert (Z.land b 15 = b mod 16) as -> by exact (Z.land_ones b 4 ltac:(lia)).
  pose proof (Z_div_mod_eq_full b 16). pose proof (Z.mod_pos_bound b 16 ltac:(lia)).
  rewrite !hex_digit_value, IH by lia. cbn. f_equal. f_equal. lia.
Qed.

Section signatures.
Context {lib : JsonLib} {ed : Ed25519}.

Lemma VerifyEvent_true e :
  VerifyEvent e = true →
  ∃ pk d, hex_decode (AgentID_ e) = Some pk ∧ CanonicalBytes e = Some d ∧ ed25519_Verify pk d (Signature e) = true.
Proof.
  unfold VerifyEvent. case_decide; [done|]. destruct (hex_decode _) as [pk|]; [|done].
  destruct (CanonicalBytes e) as [d|]; [|done]. unfold Verify. do 2 (case_decide; [done|]). eauto.
Qed.

(** What [VerifyEvent] reads of an event. *)
Lemma VerifyEvent_ext e1 e2 :
  AgentID_ e1 = AgentID_ e2 → Signature e1 = Signature e2 → CanonicalBytes e1 = CanonicalBytes e2 →
  VerifyEvent e1 = VerifyEvent e2.
Proof. unfold VerifyEvent. by intros -> -> ->. Qed.

Lemma CanonicalBytes_ext e1 e2 :
  Payload e1 = Payload e2 → (∀ p, event_members p e1 = event_members p e2) → CanonicalBytes e1 = CanonicalBytes e2.
Proof.
  intros Hp Hm. unfold CanonicalBytes, eventCanonical, payload_json. rewrite Hp.
  destruct (match Payload e2 with Some raw => Unmarshal raw | None => Some JNull end) as [p|]; [|done].
  cbn [mbind option_bind]. by rewrite Hm.
Qed.

(** Signing round trip.  An event whose author is the key pair's identity is signed unless it has no canonical
    form, the signed event verifies in every settlement state, and its ID and canonical bytes are those of the
    unsigned event.  A key pair does not sign for another author. *)
Theorem sign_verify `{!Ed25519Ok} kp e :
  generated (kp_PrivateKey kp) (kp_PublicKey kp) →
  (AgentID_ e ≠ kp_AgentID kp → SignEvent e kp = None)
  ∧ (AgentID_ e = kp_AgentID kp → is_Some (CanonicalBytes e) →
     ∃ e', SignEvent e kp = Some e' ∧ ID e' = ID e ∧ CanonicalBytes e' = CanonicalBytes e
       ∧ ComputeID e' = ComputeID e ∧ ∀ s, VerifyEvent (set_SettlementState s e') = true).
Proof.
  intros Hgen. destruct (generated_sizes _ _ Hgen) as (Hpriv & Hpub & Hbytes). split.
  { intros Hne. unfold SignEvent. by rewrite decide_True. }
  intros Ha [d Hd]. exists (set_Signature (ed25519_Sign (kp_PrivateKey kp) d) e). split_and!.
  - unfold SignEvent. rewrite decide_False by (by intros ?). rewrite Hd. cbn. unfold kp_Sign.
    by rewrite decide_False by lia.
  - done.
  - done.
  - done.
  - intros s. unfold VerifyEvent. cbn [Signature set_SettlementState set_Signature AgentID_].
    change (CanonicalBytes (set_SettlementState s (set_Signature (ed25519_Sign (kp_PrivateKey kp) d) e)))
      with (CanonicalBytes e).
    rewrite (sign_size _ _ _ Hgen), Ha. rewrite decide_False by done. unfold kp_AgentID.
    rewrite hex_decode_encode, Hd by done. unfold Verify.
    rewrite Hpub, (sign_size _ _ _ Hgen). rewrite !decide_False by (by intros ?). by apply sign_accepted.
Qed.

(** Tampering is detected.  If an event verifies and its signature is valid for one message only, any change of
    its type, references, payload value, author, timestamp or stake makes verification fail. *)
Theorem tamper_detected e1 e2 :
  event_ok e1 = true → event_ok e2 = true → signature_binds (Signature e1) →
  VerifyEvent e1 = true → Signature e2 = Signature e1 → ¬ same_content e1 e2 → VerifyEvent e2 = false.
Proof.
  intros Hok1 Hok2 Hb (pk1 & d1 & _ & Hd1 & Hv1)%VerifyEvent_true Hsig Hne.
  destruct (VerifyEvent e2) eqn:Hv; [|done]. exfalso. apply Hne, canonical_bytes_identify; [done..|].
  apply VerifyEvent_true in Hv as (pk2 & d2 & _ & Hd2 & Hv2). rewrite Hsig in Hv2.
  rewrite Hd1, Hd2. f_equal. by apply (Hb pk1 pk2).
Qed.

Definition set_StakeAmount (v : Z) (e : Event) : Event :=
  mkEvent (ID e) (Type_ e) (CausalRefsSlice e) (Payload e) (AgentID_ e) (Signature e) (CausalTimestamp e) v
    (SettlementState_ e).

Definition set_CausalTimestamp (v : Z) (e : Event) : Event :=
  mkEvent (ID e) (Type_ e) (CausalRefsSlice e) (Payload e) (AgentID_ e) (Signature e) v (StakeAmount e)
    (SettlementState_ e).

(** The canonical form holds the stake and the timestamp as float64, so a change that rounds to the same
    double leaves the ID and the signature valid: above 2^53 the stake of a signed event can be changed by one
    without trace. *)
Theorem rounded_amounts_unsigned e v :
  (f64_of_u64 v = f64_of_u64 (StakeAmount e) →
   VerifyEvent (set_StakeAmount v e) = VerifyEvent e ∧ ComputeID (set_StakeAmount v e) = ComputeID e)
  ∧ (f64_of_u64 v = f64_of_u64 (CausalTimestamp e) →
     VerifyEvent (set_CausalTimestamp v e) = VerifyEvent e ∧ ComputeID (set_CausalTimestamp v e) = ComputeID e)
  ∧ f64_of_u64 (2 ^ 53 + 1) = f64_of_u64 (2 ^ 53).
Proof.
  assert (∀ e', AgentID_ e' = AgentID_ e → Signature e' = Signature e →
    CanonicalBytes e' = CanonicalBytes e → VerifyEvent e' = VerifyEvent e ∧ ComputeID e' = ComputeID e) as Hext
    by (split; [by apply VerifyEvent_ext|by apply ComputeID_ext]).
  split_and!; [intros Hv; apply Hext; [done..|]|intros Hv; apply Hext; [done..|]|by vm_compute];
    apply CanonicalBytes_ext; [done|intros p|done|intros p]; unfold event_members;
    cbn [StakeAmount set_StakeAmount CausalTimestamp set_CausalTimestamp]; by rewrite Hv.
Qed.
End signatures.

(** ** Concrete inputs *)

Definition sample_object : Json :=
  JObject [("b", JNumber (mkF64 2 1)); ("a", JArray [JBool true; JNull; JString "x"])].

Definition sample_lib : JsonLib := {|
  FormatFloat _ := "0.5";
  int64_out_of_range _ := -9223372036854775808;
  Unmarshal s := Some (if decide (s = "null") then JNull else sample_object);
|}.

Example write_sample :
  @write sample_lib sample_object
  = "{" +:+ str "a" +:+ ":[true,null," +:+ str "x" +:+ "]," +:+ str "b" +:+ ":2}".
Proof. vm_compute. reflexivity. Qed.

Example escape_sample : str (String (Ascii.ascii_of_nat 10) (String (Ascii.ascii_of_nat 1) "a"))
  = String quote (String backslash "n" +:+ String backslash "u0001a" +:+ String quote "").
Proof. vm_compute. reflexivity. Qed.

(** The same object, written in another order and with another representation of 2. *)
Definition sample_reordered : Json :=
  JObject [("a", JArray [JBool true; JNull; JString "x"]); ("b", JNumber (mkF64 4 2))].

Lemma canonical_form_unique_witness :
  @write sample_lib sample_object = @write sample_lib sample_reordered ∧ same_json sample_object sample_reordered.
Proof.
  split; [by vm_compute|]. apply (@canonical_form_unique sample_lib); by vm_compute.
Defined.

Definition sample_key : list Z := seqZ 1 32.
Definition sample_pair : KeyPair := mkKeyPair (replicate 32 7 ++ sample_key) sample_key.

Definition sample_unsigned : Event :=
  mkEvent "" "Transfer" (Some ["r1"]) (Some "{}") (hex_encode sample_key) [] 5 100 SettlementOptimistic.

Definition sample_event : Event :=
  mkEvent (default "" (@ComputeID sample_lib sample_unsigned)) "Transfer" (Some ["r1"]) (Some "{}")
    (hex_encode sample_key) [] 5 100 SettlementOptimistic.

(** The same event with its payload spelled differently. *)
Definition sample_respelled : Event :=
  mkEvent "" "Transfer" (Some ["r1"]) (Some "{ }") (hex_encode sample_key) [] 5 100 SettlementSettled.

Lemma event_id_identifies_witness :
  @New sample_lib "Transfer" (Some ["r1"]) (RawPayload (Some "{}")) (hex_encode sample_key) {["r1" := 4]} 100
    = Some sample_event
  ∧ (@same_content sample_lib sample_event sample_respelled
     ∨ ∃ b1 b2, b1 ≠ b2 ∧ sha256_hex b1 = sha256_hex b2
         ∧ @CanonicalBytes sample_lib sample_event = Some b1 ∧ @CanonicalBytes sample_lib sample_respelled = Some b2).
Proof.
  assert (@New sample_lib "Transfer" (Some ["r1"]) (RawPayload (Some "{}")) (hex_encode sample_key) {["r1" := 4]} 100
    = Some sample_event) as Hnew by (vm_compute; reflexivity).
  split; [exact Hnew|].
  apply (@event_id_identifies sample_lib _ _ _ _ _ _ _ _ Hnew); vm_compute; reflexivity.
Defined.

(** A signature scheme with the documented sizes. *)
Definition sample_tag (pub : list Z) (d : string) : list Z :=
  Sha256.Sum256 (pub ++ bytes_of_string d) ++ Sha256.Sum256 (bytes_of_string d ++ pub).

Definition sample_ed : Ed25519 := {|
  ed25519_Sign priv d := sample_tag (drop 32 priv) d;
  ed25519_Verify pub d s := bool_decide (s = sample_tag pub d);
|}.

#[global] Program Instance sample_ed_ok : @Ed25519Ok sample_ed := {|
  generated priv pub := length priv = 64%nat ∧ pub = drop 32 priv ∧ Forall (λ b, 0 <= b < 256) pub;
|}.
Next Obligation. intros priv pub (Hl & -> & Hb). split_and!; [done|by rewrite length_drop, Hl|done]. Qed.
Next Obligation. intros priv pub d _. cbn. unfold sample_tag. by rewrite length_app, !Sha256.Sum256_length. Qed.
Next Obligation. intros priv pub d (_ & -> & _). by apply bool_decide_eq_true. Qed.

Lemma sign_verify_witness :
  ∃ e', @SignEvent sample_lib sample_ed sample_event sample_pair = Some e' ∧ ID e' = ID sample_event
    ∧ @CanonicalBytes sample_lib e' = @CanonicalBytes sample_lib sample_event
    ∧ @ComputeID sample_lib e' = @ComputeID sample_lib sample_event
    ∧ ∀ s, @VerifyEvent sample_lib sample_ed (set_SettlementState s e') = true.
Proof.
  apply (@sign_verify sample_lib sample_ed sample_ed_ok sample_pair sample_event).
  - split_and!; [reflexivity|reflexivity|]. apply (bool_decide_unpack _). vm_compute. exact I.
  - reflexivity.
  - vm_compute. eexists. reflexivity.
Defined.

(** A scheme that accepts the canonical bytes of [sample_event] only. *)
Definition one_message_ed : Ed25519 := {|
  ed25519_Sign _ _ := replicate 64 0;
  ed25519_Verify _ d _ := bool_decide (Some d = @CanonicalBytes sample_lib sample_event);
|}.

Lemma tamper_detected_witness :
  let e := set_Signature (replicate 64 0) sample_event in
  @VerifyEvent sample_lib one_message_ed e = true
  ∧ @VerifyEvent sample_lib one_message_ed (set_StakeAmount 101 e) = false.
Proof.
  intros e. assert (@VerifyEvent sample_lib one_message_ed e = true) as Hv by (vm_compute; reflexivity).
  split; [exact Hv|]. apply (@tamper_detected sample_lib one_message_ed e).
  - vm_compute. reflexivity.
  - vm_compute. reflexivity.
  - intros pk1 pk2 d1 d2 H1%bool_decide_eq_true H2%bool_decide_eq_true. congruence.
  - exact Hv.
  - reflexivity.
  - intros (_ & _ & _ & _ & Hst & _). discriminate Hst.
Defined.

Lemma rounded_amounts_unsigned_witness :
  let e := set_StakeAmount (2 ^ 53) sample_event in
  @VerifyEvent sample_lib sample_ed (set_StakeAmount (2 ^ 53 + 1) e) = @VerifyEvent sample_lib sample_ed e
  ∧ @ComputeID sample_lib (set_StakeAmount (2 ^ 53 + 1) e) = @ComputeID sample_lib e.
Proof.
  intros e. apply (@rounded_amounts_unsigned sample_lib sample_ed e (2 ^ 53 + 1)). vm_compute. reflexivity.
Defined.
