(* ===== verification/Graph.v ===== *)
(** The two work-list loops of internal/dag/dag.go: Kahn's algorithm (the loops of
    [topoSort] and [TopologicalSort]) and the breadth-first traversal of the causal
    references (the loops of [ancestorsLocked] and [IsAncestor]).

    Both are loops [for len(queue) > 0] with no bound in the code.  They are
    modelled with fuel and return [None] when it runs out; [kahn_terminates] and
    [bfs_terminates] show that the number of pending nodes is enough fuel for any
    input, cyclic or not. *)

From stdpp Require Import sets fin_sets.
From S2P Require Import Prelude.

(** * Kahn's algorithm *)

(** [for _, child := range children[id]]: [inDegree[child]--], and enqueue the
    child when the count reaches 0. *)
Fixpoint kahn_visit (kids : list string) (deg : gmap string Z) (queue : list string) :
    gmap string Z * list string :=
  match kids with
  | [] => (deg, queue)
  | c :: kids' =>
      let n := default 0 (deg !! c) - 1 in
      kahn_visit kids' (<[c := n]> deg) (if decide (n = 0) then queue ++ [c] else queue)
  end.

(** The loop: the emitted nodes in order and the final counts. *)
Fixpoint kahn_loop (kids : string → list string) (fuel : nat) (deg : gmap string Z) (queue out : list string) :
    option (list string * gmap string Z) :=
  match queue with
  | [] => Some (out, deg)
  | cur :: queue' =>
      match fuel with
      | O => None
      | S fuel' =>
          let '(deg', queue'') := kahn_visit (kids cur) deg queue' in
          kahn_loop kids fuel' deg' queue'' (out ++ [cur])
      end
  end.

(** The nodes still to be emitted: those in the queue and those with pending
    parents. *)
Definition kahn_fuel (deg : gmap string Z) (queue : list string) : nat :=
  length queue + size (filter (λ kv : string * Z, 0 < kv.2) deg).

(** * Breadth-first traversal *)

(** [for _, ref := range refs]: enqueue the references not yet visited. *)
Fixpoint bfs_visit (refs : list string) (visited : gset string) (queue : list string) :
    gset string * list string :=
  match refs with
  | [] => (visited, queue)
  | r :: refs' =>
      if decide (r ∈ visited) then bfs_visit refs' visited queue
      else bfs_visit refs' ({[r]} ∪ visited) (queue ++ [r])
  end.

(** The loop of [ancestorsLocked]: everything dequeued, in order. *)
Fixpoint bfs_loop (refs : string → list string) (fuel : nat) (visited : gset string) (queue out : list string) :
    option (list string) :=
  match queue with
  | [] => Some out
  | cur :: queue' =>
      match fuel with
      | O => None
      | S fuel' =>
          let '(visited', queue'') := bfs_visit (refs cur) visited queue' in
          bfs_loop refs fuel' visited' queue'' (out ++ [cur])
      end
  end.

(** The loop of [IsAncestor]: stops at the target. *)
Fixpoint bfs_find (refs : string → list string) (target : string) (fuel : nat) (visited : gset string)
    (queue : list string) : option bool :=
  match queue with
  | [] => Some false
  | cur :: queue' =>
      match fuel with
      | O => None
      | S fuel' =>
          if decide (cur = target) then Some true
          else
            let '(visited', queue'') := bfs_visit (refs cur) visited queue' in
            bfs_find refs target fuel' visited' queue''
      end
  end.

(** * Termination *)

Definition pending (deg : gmap string Z) : nat := size (filter (λ kv : string * Z, 0 < kv.2) deg).

Lemma pending_insert deg c (v : Z) :
  let one := if decide (0 < v) then 1%nat else 0%nat in
  pending (<[c := v]> deg) = (pending (delete c deg) + one)%nat.
Proof.
  cbv zeta. unfold pending. rewrite <- insert_delete_eq, map_filter_insert. cbn [snd].
  assert (filter (λ kv : string * Z, 0 < kv.2) (delete c deg) !! c = None) as Hc
    by (apply map_lookup_filter_None; left; apply lookup_delete_eq).
  repeat case_decide; try done.
  - rewrite map_size_insert_None by done. lia.
  - rewrite delete_delete_eq. lia.
Qed.

Lemma pending_decrement deg c :
  let n := default 0 (deg !! c) - 1 in
  let enqueued := if decide (n = 0) then 1%nat else 0%nat in
  (pending (<[c := n]> deg) + enqueued <= pending deg)%nat.
Proof.
  cbv zeta. rewrite pending_insert. destruct (deg !! c) as [m|] eqn:Hc; cbn [default id].
  - rewrite <- (insert_id deg c m Hc) at 2. rewrite pending_insert. cbv zeta. repeat case_decide; lia.
  - rewrite (delete_id deg c) by done. repeat case_decide; simpl in *; lia.
Qed.

Lemma kahn_visit_fuel kids deg queue :
  let '(deg', queue') := kahn_visit kids deg queue in (kahn_fuel deg' queue' <= kahn_fuel deg queue)%nat.
Proof.
  revert deg queue. induction kids as [|c kids IH]; intros deg queue; cbn [kahn_visit]; [done|].
  cbv zeta. pose proof (pending_decrement deg c) as Hd. cbv zeta in Hd. set (n := default 0 (deg !! c) - 1) in *.
  specialize (IH (<[c := n]> deg) (if decide (n = 0) then queue ++ [c] else queue)).
  destruct (kahn_visit _ _ _) as [deg' queue']. etrans; [exact IH|]. unfold kahn_fuel.
  fold (pending (<[c := n]> deg)) (pending deg). case_decide; rewrite ?length_app; simpl in *; lia.
Qed.

Lemma kahn_terminates kids deg queue out :
  ∃ r, kahn_loop kids (kahn_fuel deg queue) deg queue out = Some r.
Proof.
  assert (∀ fuel, (kahn_fuel deg queue <= fuel)%nat → ∃ r, kahn_loop kids fuel deg queue out = Some r) as Hgen;
    [|by apply Hgen].
  intros fuel. revert deg queue out. induction fuel as [|fuel IH]; intros deg [|cur queue] out Hf; try by eexists.
  - unfold kahn_fuel in Hf. simpl in Hf. lia.
  - cbn [kahn_loop]. pose proof (kahn_visit_fuel (kids cur) deg queue) as Hv.
    destruct (kahn_visit _ _ _) as [deg' queue']. apply IH. unfold kahn_fuel in *. simpl in Hf. lia.
Qed.

(** * What Kahn's algorithm computes *)

(** The occurrences of [c] in [l]. *)
Definition occ (c : string) (l : list string) : Z := Z.of_nat (length (filter (λ x, x = c) l)).

Lemma occ_cons c x l : occ c (x :: l) = (if decide (x = c) then 1 else 0) + occ c l.
Proof. unfold occ. rewrite filter_cons. case_decide; simpl; lia. Qed.

Lemma occ_nonneg c l : 0 <= occ c l.
Proof. unfold occ. lia. Qed.

Lemma occ_pos c l : 0 < occ c l ↔ c ∈ l.
Proof.
  induction l as [|x l IH]; [split; [done|by intros ?%elem_of_nil]|].
  rewrite occ_cons, elem_of_cons. pose proof (occ_nonneg c l). case_decide; naive_solver lia.
Qed.

Lemma occ_NoDup c l : NoDup l → occ c l = if decide (c ∈ l) then 1 else 0.
Proof.
  induction 1 as [|x l Hx Hnd IH]; [done|]. rewrite occ_cons, IH.
  destruct (decide (x = c)) as [->|Hne].
  - rewrite (decide_True (P := c ∈ c :: l)) by apply list_elem_of_here. by rewrite decide_False.
  - destruct (decide (c ∈ l)) as [Hin|Hin].
    + rewrite decide_True by (by apply list_elem_of_further). lia.
    + rewrite decide_False; [lia|]. rewrite elem_of_cons. naive_solver.
Qed.

Definition degree (deg : gmap string Z) (c : string) : Z := default 0 (deg !! c).

Lemma degree_insert deg c c' (n : Z) : degree (<[c := n]> deg) c' = if decide (c = c') then n else degree deg c'.
Proof. unfold degree. rewrite lookup_insert. by case_decide. Qed.

Lemma kahn_visit_spec cs deg queue deg' queue' :
  kahn_visit cs deg queue = (deg', queue') → (∀ c, c ∈ cs → occ c cs <= degree deg c) →
  (∀ c, degree deg' c = degree deg c - occ c cs)
  ∧ ∃ z, queue' = queue ++ z ∧ NoDup z ∧ ∀ c, c ∈ z ↔ 0 < degree deg c ∧ degree deg c = occ c cs.
Proof.
  revert deg queue. induction cs as [|c cs IH]; intros deg queue Hv Hle; cbn [kahn_visit] in Hv.
  { injection Hv as <- <-. split; [intros c; unfold occ; simpl; lia|]. exists []. split_and!; [by rewrite app_nil_r|apply NoDup_nil_2|].
    intros c. unfold occ. simpl. rewrite elem_of_nil. split; [done|lia]. }
  cbv zeta in Hv. fold (degree deg c) in Hv. set (n := degree deg c - 1) in *.
  assert (∀ x, degree (<[c := n]> deg) x = degree deg x - if decide (c = x) then 1 else 0) as Hdeg.
  { intros x. unfold n. rewrite degree_insert. destruct (decide (c = x)) as [<-|]; lia. }
  pose proof (Hle c (list_elem_of_here _ _)) as Hc. rewrite occ_cons, decide_True in Hc by done.
  apply IH in Hv as [Hd (z & -> & Hnd & Hz)].
  2: { intros x Hx. rewrite Hdeg. specialize (Hle x (list_elem_of_further _ _ _ Hx)). rewrite occ_cons in Hle. lia. }
  split; [intros x; rewrite Hd, Hdeg, occ_cons; lia|].
  assert (∀ x, x ≠ c → (x ∈ z ↔ 0 < degree deg x ∧ degree deg x = occ x (c :: cs))) as Hother.
  { intros x Hx. rewrite Hz, Hdeg, occ_cons, decide_False by done. by rewrite Z.sub_0_r. }
  destruct (decide (n = 0)) as [Hn|Hn].
  - exists (c :: z). rewrite <- app_assoc. split_and!; [done| |].
    + constructor; [|done]. rewrite Hz, Hdeg, decide_True by done. lia.
    + intros x. rewrite elem_of_cons. destruct (decide (x = c)) as [->|Hx]; [|rewrite Hother by done; naive_solver].
      rewrite occ_cons, decide_True by done. pose proof (occ_nonneg c cs). split; [intros _; unfold n in Hn; lia|intros _; by left].
  - exists z. split_and!; [done..|]. intros x. destruct (decide (x = c)) as [->|Hx]; [|by apply Hother].
    rewrite Hz, Hdeg, occ_cons, decide_True by done. pose proof (occ_nonneg c cs). lia.
Qed.

Section kahn.
Context (nodes : list string) (kids : string → list string) (slack : string → Z).
Context (Hnodes : NoDup nodes) (Hkids : ∀ p c, p ∈ nodes → c ∈ kids p → c ∈ nodes).
Context (Hslack : ∀ c, c ∈ nodes → 0 <= slack c).

(** The edges into [c] from the nodes of [l]. *)
Definition edges_in (c : string) (l : list string) : Z := sum_list_Z ((λ p, occ c (kids p)) <$> l).

Lemma edges_in_app c l1 l2 : edges_in c (l1 ++ l2) = edges_in c l1 + edges_in c l2.
Proof. unfold edges_in. induction l1 as [|p l1 IH]; csimpl; [done|]. rewrite IH. lia. Qed.

Lemma edges_in_one c p : edges_in c [p] = occ c (kids p).
Proof. unfold edges_in. simpl. lia. Qed.

Lemma edges_in_nonneg c l : 0 <= edges_in c l.
Proof. unfold edges_in. induction l as [|p l IH]; csimpl; [done|]. pose proof (occ_nonneg c (kids p)). lia. Qed.

Lemma edges_in_zero c l p : edges_in c l = 0 → p ∈ l → c ∉ kids p.
Proof.
  intros H0 [l1 [l2 ->]]%list_elem_of_split Hc%occ_pos. rewrite edges_in_app in H0.
  change (p :: l2) with ([p] ++ l2) in H0. rewrite edges_in_app, edges_in_one in H0.
  pose proof (edges_in_nonneg c l1). pose proof (edges_in_nonneg c l2). lia.
Qed.

Lemma edges_in_perm c l1 l2 : l1 ≡ₚ l2 → edges_in c l1 = edges_in c l2.
Proof. unfold edges_in. induction 1; csimpl; lia. Qed.

(** The nodes outside a duplicate-free list of nodes. *)
Lemma rest_of l : NoDup l → l ⊆ nodes → ∃ rest, nodes ≡ₚ l ++ rest.
Proof. intros Hnd Hl. apply submseteq_Permutation, NoDup_submseteq; [done|]. intros x. apply Hl. Qed.

Record kahn_inv (deg : gmap string Z) (queue out : list string) : Prop := {
  kahn_nodup : NoDup (out ++ queue);
  kahn_nodes : out ++ queue ⊆ nodes;
  kahn_degree c : c ∈ nodes → degree deg c = slack c + edges_in c nodes - edges_in c out;
  kahn_zero c : c ∈ nodes → (degree deg c = 0 ↔ c ∈ out ++ queue);
  kahn_parents l1 x l2 p : out = l1 ++ x :: l2 → p ∈ nodes → x ∈ kids p → p ∈ l1;
}.

Lemma kahn_step deg cur queue out deg' queue' :
  kahn_inv deg (cur :: queue) out → kahn_visit (kids cur) deg queue = (deg', queue') →
  kahn_inv deg' queue' (out ++ [cur]).
Proof using Hnodes Hkids Hslack.
  intros [Hnd Hin Hdeg Hz Hp] Hv.
  assert (NoDup (out ++ [cur])) as Hnd1
    by (rewrite cons_middle, app_assoc in Hnd; by apply NoDup_app in Hnd as (? & _ & _)).
  assert (cur ∈ nodes) as Hcur by (apply Hin; set_solver).
  destruct (rest_of (out ++ [cur]) Hnd1) as [rest Hrest]; [intros x Hx; apply Hin; set_solver|].
  assert (∀ c, c ∈ nodes → degree deg c = slack c + occ c (kids cur) + edges_in c rest) as Hdeg'.
  { intros c Hc. rewrite Hdeg by done. rewrite (edges_in_perm _ _ _ Hrest), !edges_in_app, edges_in_one. lia. }
  apply kahn_visit_spec in Hv as [Hd (z & -> & Hndz & Hzz)].
  2: { intros c Hc. rewrite Hdeg' by eauto. pose proof (edges_in_nonneg c rest).
       pose proof (Hslack c (Hkids cur c Hcur Hc)). lia. }
  assert (∀ c, c ∈ nodes → degree deg c >= occ c (kids cur)) as Hge.
  { intros c Hc. rewrite Hdeg' by done. pose proof (edges_in_nonneg c rest). pose proof (Hslack c Hc). lia. }
  assert (∀ c, c ∈ z → c ∈ nodes) as Hzn.
  { intros c [Hpos Heq]%Hzz. apply (Hkids cur); [done|]. apply occ_pos. lia. }
  assert ((out ++ [cur]) ++ queue ++ z = (out ++ cur :: queue) ++ z) as Happ by (by rewrite <- !app_assoc).
  split.
  - rewrite Happ. apply NoDup_app. split_and!; [done| |done]. intros c Hc [Hpos _]%Hzz.
    apply Hz in Hc; [lia|by apply Hin].
  - rewrite Happ. intros c [Hc|Hc]%elem_of_app; [by apply Hin|by apply Hzn].
  - intros c Hc. rewrite Hd, Hdeg, edges_in_app, edges_in_one by done. lia.
  - intros c Hc. rewrite Hd, Happ, elem_of_app, Hzz, <- Hz by done. specialize (Hge c Hc).
    pose proof (occ_nonneg c (kids cur)). lia.
  - intros l1 x l2 p Heq Hpn Hx. destruct l2 as [|y l2 _] using rev_ind.
    + apply app_inj_tail in Heq as [-> ->].
      assert (degree deg x = 0) as H0 by (apply Hz; [done|set_solver]).
      assert (p ∈ l1 ++ [x] ++ rest) as Hpr by (rewrite app_assoc, <- Hrest; done).
      rewrite Hdeg' in H0 by done. pose proof (Hslack x Hcur). pose proof (occ_nonneg x (kids x)).
      pose proof (edges_in_nonneg x rest). apply elem_of_app in Hpr as [Hpr|[->%list_elem_of_singleton|Hpr]%elem_of_app];
        [done| |].
      * apply occ_pos in Hx. lia.
      * exfalso. eapply edges_in_zero; [|exact Hpr|exact Hx]. lia.
    + rewrite app_comm_cons, app_assoc in Heq. apply app_inj_tail in Heq as [Heq _]. by eapply Hp.
Qed.

Lemma kahn_run fuel deg queue out out' deg' :
  kahn_inv deg queue out → kahn_loop kids fuel deg queue out = Some (out', deg') → kahn_inv deg' [] out'.
Proof using Hnodes Hkids Hslack.
  revert deg queue out. induction fuel as [|fuel IH]; intros deg [|cur queue] out Hinv Hl; cbn [kahn_loop] in Hl;
    try (by injection Hl as <- <-); [done|].
  destruct (kahn_visit (kids cur) deg queue) as [deg1 queue1] eqn:Hv.
  eapply IH; [|exact Hl]. by eapply kahn_step.
Qed.

(** A node with more references than edges is never emitted. *)
Lemma kahn_slack deg out c : kahn_inv deg [] out → 0 < slack c → c ∉ out.
Proof using Hnodes.
  intros [Hnd Hin Hdeg Hz _] Hpos Hc. rewrite app_nil_r in *.
  assert (c ∈ nodes) as Hcn by (by apply Hin). destruct (rest_of out Hnd Hin) as [rest Hrest].
  apply Hz in Hc; [|done]. rewrite Hdeg in Hc by done. rewrite (edges_in_perm _ _ _ Hrest), edges_in_app in Hc.
  pose proof (edges_in_nonneg c rest). lia.
Qed.

(** Without slack and without cycles every node is emitted. *)
Lemma kahn_complete deg out (rank : string → nat) :
  kahn_inv deg [] out → (∀ c, c ∈ nodes → slack c = 0) →
  (∀ p c, p ∈ nodes → c ∈ kids p → (rank p < rank c)%nat) → out ≡ₚ nodes.
Proof using Hnodes Hkids Hslack.
  intros [Hnd Hin Hdeg Hz _] Hs Hrank. rewrite app_nil_r in *.
  apply NoDup_Permutation; [done..|]. intros c. split; [apply Hin|].
  induction (Nat.lt_wf_0_projected rank c) as [c _ IH]. intros Hc.
  destruct (decide (c ∈ out)) as [|Hout]; [done|exfalso]. destruct (rest_of out Hnd Hin) as [rest Hrest].
  assert (degree deg c = edges_in c rest) as Hd.
  { rewrite Hdeg, Hs by done. rewrite (edges_in_perm _ _ _ Hrest), edges_in_app. lia. }
  assert (edges_in c rest = 0) as H0; [|by apply Hout, Hz; [done|lia]].
  assert (∀ p, p ∈ rest → c ∉ kids p) as Hno.
  { intros p Hp Hcp. assert (p ∈ nodes) as Hpn by (rewrite Hrest; set_solver).
    pose proof (IH p (Hrank p c Hpn Hcp) Hpn) as Hpo.
    rewrite Hrest in Hnodes. apply NoDup_app in Hnodes as (_ & Hdis & _). by apply (Hdis p). }
  clear -Hno. induction rest as [|p rest IH]; [done|]. unfold edges_in in *. csimpl.
  assert (¬ 0 < occ c (kids p)) as Hp by (rewrite occ_pos; apply Hno, list_elem_of_here).
  pose proof (occ_nonneg c (kids p)). rewrite IH; [lia|]. intros q Hq. by apply Hno, list_elem_of_further.
Qed.

(** The state the loop starts from. *)
Lemma kahn_init deg queue :
  NoDup queue → (∀ c, c ∈ nodes → degree deg c = slack c + edges_in c nodes) →
  (∀ c, c ∈ queue ↔ c ∈ nodes ∧ degree deg c = 0) → kahn_inv deg queue [].
Proof.
  intros Hnd Hdeg Hq. split; [done|intros c Hc; by apply Hq| | |by intros [] ? ? ?].
  - intros c Hc. rewrite Hdeg by done. unfold edges_in at 3. simpl. lia.
  - intros c Hc. rewrite app_nil_l, Hq. tauto.
Qed.
End kahn.

(** * What the traversal computes *)

Lemma bfs_visit_spec refs visited queue :
  ∃ z, bfs_visit refs visited queue = (list_to_set z ∪ visited, queue ++ z) ∧ NoDup z
    ∧ ∀ c, c ∈ z ↔ c ∈ refs ∧ c ∉ visited.
Proof.
  revert visited queue. induction refs as [|r refs IH]; intros visited queue; cbn [bfs_visit].
  { exists []. split_and!; [f_equal; [set_solver|by rewrite app_nil_r]|apply NoDup_nil_2|set_solver]. }
  destruct (decide (r ∈ visited)) as [Hr|Hr].
  - destruct (IH visited queue) as (z & -> & Hnd & Hz). exists z. split_and!; [done..|set_solver].
  - destruct (IH ({[r]} ∪ visited) (queue ++ [r])) as (z & -> & Hnd & Hz). exists (r :: z).
    rewrite <- app_assoc. split_and!; [f_equal; set_solver|constructor; [set_solver|done]|].
    intros c. rewrite elem_of_cons, Hz. destruct (decide (c = r)); set_solver.
Qed.

Section bfs_fuel.
Context (refs : string → list string) (U : gset string) (HU : ∀ x c, c ∈ refs x → c ∈ U).

Definition bfs_fuel (visited : gset string) (queue : list string) : nat := length queue + size (U ∖ visited).

Lemma bfs_visit_fuel x visited queue :
  let '(visited', queue') := bfs_visit (refs x) visited queue in
  (bfs_fuel visited' queue' <= bfs_fuel visited queue)%nat.
Proof using HU.
  destruct (bfs_visit_spec (refs x) visited queue) as (z & -> & Hnd & Hz). unfold bfs_fuel. rewrite length_app.
  assert (U ∖ visited = list_to_set z ∪ U ∖ (list_to_set z ∪ visited)) as ->.
  { apply set_eq. intros c. destruct (decide (c ∈ z)) as [Hc|Hc]; [|set_solver].
    pose proof (proj1 (Hz c) Hc) as [Hc1 Hc2]. apply HU in Hc1. set_solver. }
  rewrite (size_union (list_to_set z) (U ∖ (list_to_set z ∪ visited))) by set_solver.
  rewrite (size_list_to_set (C := gset string) z) by done. lia.
Qed.

Lemma bfs_terminates visited queue out :
  ∃ l, bfs_loop refs (bfs_fuel visited queue) visited queue out = Some l.
Proof using HU.
  assert (∀ fuel, (bfs_fuel visited queue <= fuel)%nat → ∃ l, bfs_loop refs fuel visited queue out = Some l) as Hgen;
    [|by apply Hgen].
  intros fuel. revert visited queue out. induction fuel as [|fuel IH]; intros visited [|cur queue] out Hf; try by eexists.
  - unfold bfs_fuel in Hf. simpl in Hf. lia.
  - cbn [bfs_loop]. pose proof (bfs_visit_fuel cur visited queue) as Hv.
    destruct (bfs_visit _ _ _) as [visited' queue']. apply IH. unfold bfs_fuel in *. simpl in Hf. lia.
Qed.

End bfs_fuel.

Section bfs.
Context (refs : string → list string).

(** One step along a reference. *)
Definition edge (x c : string) : Prop := c ∈ refs x.

Record bfs_inv (q0 : list string) (visited : gset string) (queue out : list string) : Prop := {
  bfs_visited : visited = list_to_set (out ++ queue);
  bfs_nodup : NoDup (out ++ queue);
  bfs_closed x c : x ∈ out → edge x c → c ∈ visited;
  bfs_reach x : x ∈ out ++ queue → ∃ s, s ∈ q0 ∧ rtc edge s x;
  bfs_seed x : x ∈ q0 → x ∈ visited;
}.

Lemma bfs_step q0 visited cur queue out visited' queue' :
  bfs_inv q0 visited (cur :: queue) out → bfs_visit (refs cur) visited queue = (visited', queue') →
  bfs_inv q0 visited' queue' (out ++ [cur]).
Proof.
  intros [Hvis Hnd Hcl Hre Hs] Hv. destruct (bfs_visit_spec (refs cur) visited queue) as (z & Hz & Hndz & Hzz).
  rewrite Hz in Hv. injection Hv as <- <-.
  assert ((out ++ [cur]) ++ queue ++ z = (out ++ cur :: queue) ++ z) as Happ by (by rewrite <- !app_assoc).
  split.
  - rewrite Happ, list_to_set_app_L, Hvis. apply (comm_L (∪)).
  - rewrite Happ. apply NoDup_app. split_and!; [done| |done]. intros c Hc [_ Hn]%Hzz. set_solver.
  - intros x c [Hx| ->%list_elem_of_singleton]%elem_of_app Hxc; [apply elem_of_union_r; by eapply Hcl|].
    destruct (decide (c ∈ visited)); [set_solver|]. apply elem_of_union_l, elem_of_list_to_set, Hzz. done.
  - intros x Hx. rewrite Happ in Hx. apply elem_of_app in Hx as [Hx|[Hx _]%Hzz]; [by apply Hre|].
    destruct (Hre cur ltac:(set_solver)) as (s & Hs0 & Hsc). exists s. split; [done|]. by eapply rtc_r.
  - intros x Hx. apply elem_of_union_r. by apply Hs.
Qed.

Lemma bfs_run q0 fuel visited queue out l :
  bfs_inv q0 visited queue out → bfs_loop refs fuel visited queue out = Some l →
  bfs_inv q0 (list_to_set l) [] l.
Proof.
  revert visited queue out. induction fuel as [|fuel IH]; intros visited [|cur queue] out Hinv Hl; cbn [bfs_loop] in Hl;
    try done; try (injection Hl as <-; pose proof Hinv as [Hvis _ _ _ _]; rewrite app_nil_r in Hvis; by rewrite <- Hvis).
  destruct (bfs_visit (refs cur) visited queue) as [v1 q1] eqn:Hv. eapply IH; [|exact Hl]. by eapply bfs_step.
Qed.

Lemma bfs_spec q0 fuel l :
  NoDup q0 → bfs_loop refs fuel (list_to_set q0) q0 [] = Some l →
  NoDup l ∧ ∀ x, x ∈ l ↔ ∃ s, s ∈ q0 ∧ rtc edge s x.
Proof.
  intros Hnd Hl. apply (bfs_run q0) in Hl as [_ Hndl Hcl Hre Hs].
  2: { split; [done|done|by intros x c ?%elem_of_nil|intros x Hx; by exists x|set_solver]. }
  rewrite app_nil_r in *. split; [done|]. intros x. split; [apply Hre|]. intros (s & Hs0 & Hsx).
  assert (s ∈ l) as Hsl by (apply Hs in Hs0; set_solver). clear Hs0.
  induction Hsx as [|s y x Hsy Hyx IH]; [done|]. apply IH. pose proof (Hcl s y Hsl Hsy). set_solver.
Qed.

(** The search with early exit looks for the target in the same traversal. *)
Lemma bfs_find_loop target fuel visited queue out l :
  bfs_loop refs fuel visited queue out = Some l →
  ∃ l', l = out ++ l' ∧ bfs_find refs target fuel visited queue = Some (bool_decide (target ∈ l')).
Proof.
  revert visited queue out. induction fuel as [|fuel IH]; intros visited [|cur queue] out Hl; cbn [bfs_loop bfs_find] in *;
    try done; try (injection Hl as <-; exists []; split; [by rewrite app_nil_r|done]).
  destruct (bfs_visit (refs cur) visited queue) as [v1 q1]. apply IH in Hl as (l' & -> & Hf). exists (cur :: l').
  rewrite <- app_assoc. split; [done|]. destruct (decide (cur = target)) as [->|Hc].
  - by rewrite bool_decide_true by apply list_elem_of_here.
  - rewrite Hf. f_equal. apply bool_decide_ext. rewrite elem_of_cons. split; [by right|by intros [->|?]].
Qed.
End bfs.
