(* ===== verification/Dag.v ===== *)
(** internal/dag: the append-only graph of events.

    [DAG] is the record of the three maps, the attached store, and the calls made
    to the commit hook.  Events are shared by pointer in the code; the model holds
    their values, which the package itself never changes.  The order in which Go
    ranges over a map is the operation of the class [RangeOrder]; nothing but the
    order of a returned slice depends on it. *)

From stdpp Require Import sets fin_sets fin_map_dom.
From S2P Require Import Prelude GoStd Store Event Jcs Graph.

Inductive DagError :=
  | ErrEventNotFound (id : EventID)
  | ErrDuplicateEvent (id : EventID)
  | ErrMissingCausalRef (ref id : EventID)
  | ErrInvalidSignature (id : EventID)
  | ErrMissingSignature (id : EventID)
  | ErrComputeID (id : EventID)
  | ErrIDMismatch (id : EventID)
  | ErrLoadStore
  | ErrCycle.

Definition EventTypeTrajectoryCommit : EventType := "TrajectoryCommit".

(** The state.  [dag_commits] lists the calls of the hook with their replay
    flag, oldest first. *)
Record DAG (St : Type) := mkDAG {
  dag_events : gmap EventID Event;
  dag_children : gmap EventID (gset EventID);
  dag_tips : gset EventID;
  dag_store : option St;
  dag_onCommit : bool;
  dag_commits : list (Event * bool);
}.
#[global] Arguments mkDAG {St}.
#[global] Arguments dag_events {St} _.
#[global] Arguments dag_children {St} _.
#[global] Arguments dag_tips {St} _.
#[global] Arguments dag_store {St} _.
#[global] Arguments dag_onCommit {St} _.
#[global] Arguments dag_commits {St} _.

(** * Adding events *)

Section dag.
Context {lib : JsonLib} {ed : Ed25519} {St : Type} `{!Persistence St Event}.

Definition dag_New : DAG St := mkDAG ∅ ∅ ∅ None false [].

Definition dag_SetStore (s : St) (d : DAG St) : DAG St :=
  mkDAG (dag_events d) (dag_children d) (dag_tips d) (Some s) (dag_onCommit d) (dag_commits d).

Definition dag_SetOnCommit (d : DAG St) : DAG St :=
  mkDAG (dag_events d) (dag_children d) (dag_tips d) (dag_store d) true (dag_commits d).

(** The first causal reference that is not in the graph. *)
Definition missing_ref (d : DAG St) (e : Event) : option EventID :=
  List.find (λ r, bool_decide (dag_events d !! r = None)) (CausalRefs e).

(** The commit phase: [e] with its empty child set, the forward edges and the
    frontier. *)
Definition insert_event (e : Event) (d : DAG St) : DAG St :=
  mkDAG (<[ID e := e]> (dag_events d))
    (foldl (λ c r, alter (union {[ID e]}) r c) (<[ID e := ∅]> (dag_children d)) (CausalRefs e))
    ({[ID e]} ∪ foldl (λ t r, t ∖ {[r]}) (dag_tips d) (CausalRefs e))
    (dag_store d) (dag_onCommit d) (dag_commits d).

(** Write-through; a failure is logged. *)
Definition dag_persist (e : Event) (d : DAG St) : DAG St :=
  mkDAG (dag_events d) (dag_children d) (dag_tips d) (write_through e (dag_store d)) (dag_onCommit d) (dag_commits d).

(** The commit hook. *)
Definition dag_commit (e : Event) (replay : bool) (d : DAG St) : DAG St :=
  mkDAG (dag_events d) (dag_children d) (dag_tips d) (dag_store d) (dag_onCommit d)
    (if dag_onCommit d then dag_commits d ++ [(e, replay)] else dag_commits d).

Definition dag_Add (e : Event) (d : DAG St) : DAG St * option DagError :=
  if decide (is_Some (dag_events d !! ID e)) then (d, Some (ErrDuplicateEvent (ID e)))
  else match missing_ref d e with
  | Some r => (d, Some (ErrMissingCausalRef r (ID e)))
  | None =>
      if decide (length (Signature e) = 0%nat) then (d, Some (ErrMissingSignature (ID e)))
      else if negb (VerifyEvent e) then (d, Some (ErrInvalidSignature (ID e)))
      else (dag_commit e false (dag_persist e (insert_event e d)), None)
  end.

Definition dag_addFromStore (e : Event) (d : DAG St) : DAG St * option DagError :=
  if decide (is_Some (dag_events d !! ID e)) then (d, None)
  else match ComputeID e with
  | None => (d, Some (ErrComputeID (ID e)))
  | Some recomputed =>
      if decide (recomputed ≠ ID e) then (d, Some (ErrIDMismatch (ID e)))
      else if decide (length (Signature e) ≠ 0%nat ∧ VerifyEvent e = false)
      then (d, Some (ErrInvalidSignature (ID e)))
      else match missing_ref d e with
      | Some _ => (d, None)
      | None => (dag_commit e true (insert_event e d), None)
      end
  end.

(** * Loading from the store *)

(** [byID]. *)
Definition by_id (events : list Event) : gmap EventID Event := load_all ID events.

(** The references of [e] that are among the events. *)
Definition known_refs (events : list Event) (e : Event) : list EventID :=
  filter (λ r, is_Some (by_id events !! r)) (CausalRefs e).

(** [inDegree] and [children] of [topoSort]. *)
Definition topo_degrees (events : list Event) : gmap EventID Z :=
  foldl (λ m e, <[ID e := Z.of_nat (length (known_refs events e))]> m) ∅ events.

Definition topo_children (events : list Event) : gmap EventID (list EventID) :=
  foldl (λ m e, foldl (λ m r, <[r := default [] (m !! r) ++ [ID e]]> m) m (known_refs events e)) ∅ events.

(** [None]: out of fuel. *)
Definition topoSort (events : list Event) : option (list Event * list Event) :=
  let deg := topo_degrees events in
  let queue := ID <$> filter (λ e, degree deg (ID e) = 0) events in
  '(out, deg') ← kahn_loop (λ id, default [] (topo_children events !! id)) (kahn_fuel deg queue) deg queue [];
  let sorted := omap (λ id, by_id events !! id) out in
  Some (sorted,
        if decide (length sorted < length events)%nat then filter (λ e, 0 < degree deg' (ID e)) events else []).

(** The replay loop of [LoadFromStore]. *)
Fixpoint replay_events (events : list Event) (d : DAG St) : DagError + DAG St :=
  match events with
  | [] => inr d
  | e :: events' =>
      match dag_addFromStore e d with
      | (_, Some err) => inl err
      | (d', None) => replay_events events' d'
      end
  end.

Definition dag_LoadFromStore (s : St) : option (DagError + DAG St) :=
  match store_all s with
  | None => Some (inl ErrLoadStore)
  | Some events =>
      '(sorted, _) ← topoSort events;
      Some (replay_events sorted (dag_SetStore s dag_New))
  end.

(** * Queries *)

Definition dag_Get (id : EventID) (d : DAG St) : DagError + Event :=
  match dag_events d !! id with None => inl (ErrEventNotFound id) | Some e => inr e end.

Section range.
Context {order : RangeOrder}.

Definition dag_Tips (d : DAG St) : list EventID := range_set (dag_tips d).

(** A tip that is not a trajectory commit. *)
Definition is_primary (d : DAG St) (id : EventID) : Prop :=
  match dag_events d !! id with None => False | Some ev => Type_ ev ≠ EventTypeTrajectoryCommit end.

#[global] Instance is_primary_dec d id : Decision (is_primary d id).
Proof. unfold is_primary. destruct (dag_events d !! id); apply _. Defined.

Definition dag_PrimaryTips (d : DAG St) : list EventID :=
  let primary := filter (is_primary d) (range_set (dag_tips d)) in
  if decide (length primary = 0%nat ∧ (0 < size (dag_tips d))%nat) then range_set (dag_tips d) else primary.

Definition is_local (agentID : AgentID) (d : DAG St) (id : EventID) : Prop :=
  match dag_events d !! id with
  | None => False
  | Some ev => AgentID_ ev = agentID ∧ Type_ ev ≠ EventTypeTrajectoryCommit
  end.

#[global] Instance is_local_dec a d id : Decision (is_local a d id).
Proof. unfold is_local. destruct (dag_events d !! id); apply _. Defined.

Definition dag_LocalTips (agentID : AgentID) (d : DAG St) : list EventID :=
  filter (is_local agentID d) (range_set (dag_tips d)).

Definition dag_Size (d : DAG St) : nat := size (dag_events d).

(** [for _, e := range d.events]. *)
Definition dag_All (d : DAG St) : list Event :=
  omap (λ id, dag_events d !! id) (range_set (dom (dag_events d))).

Definition timestamp_le (a b : Event) : Prop := CausalTimestamp a <= CausalTimestamp b.

#[global] Instance timestamp_le_dec a b : Decision (timestamp_le a b).
Proof. unfold timestamp_le. apply _. Defined.

(** [None] is the panic of slicing with a negative [maxCount]. *)
Definition dag_RecentEvents (minTimestamp maxCount : Z) (d : DAG St) : option (list Event) :=
  let result := sort_slice timestamp_le (filter (λ e, minTimestamp <= CausalTimestamp e) (dag_All d)) in
  let n := Z.of_nat (length result) in
  if decide (n > maxCount)
  then if decide (maxCount < 0) then None else Some (drop (Z.to_nat (n - maxCount)) result)
  else Some result.

Definition dag_MaxTimestamp (d : DAG St) : Z :=
  foldl (λ m e, if decide (CausalTimestamp e > m) then CausalTimestamp e else m) 0 (dag_All d).

Definition dag_EventIDs (d : DAG St) : list EventID := range_set (dom (dag_events d)).

(** ** Ancestors *)

(** The causal references of a node; none for an unknown ID. *)
Definition refs_of (d : DAG St) (id : EventID) : list EventID :=
  match dag_events d !! id with None => [] | Some e => CausalRefs e end.

(** Everything any event references. *)
Definition all_refs (d : DAG St) : gset EventID :=
  map_fold (λ _ e acc, list_to_set (CausalRefs e) ∪ acc) ∅ (dag_events d).

Definition dag_Ancestors (id : EventID) (d : DAG St) : option (DagError + list EventID) :=
  match dag_events d !! id with
  | None => Some (inl (ErrEventNotFound id))
  | Some e =>
      let '(visited, queue) := bfs_visit (CausalRefs e) ∅ [] in
      inr <$> bfs_loop (refs_of d) (bfs_fuel (all_refs d) visited queue) visited queue []
  end.

Definition dag_IsAncestor (ancestor descendant : EventID) (d : DAG St) : option (DagError + bool) :=
  if decide (dag_events d !! ancestor = None) then Some (inl (ErrEventNotFound ancestor))
  else if decide (dag_events d !! descendant = None) then Some (inl (ErrEventNotFound descendant))
  else if decide (ancestor = descendant) then Some (inr false)
  else inr <$> bfs_find (refs_of d) ancestor (bfs_fuel (all_refs d) {[descendant]} [descendant])
                 {[descendant]} [descendant].

(** ** Topological order *)

Definition topo_le (a b : Event) : Prop :=
  CausalTimestamp a < CausalTimestamp b
  ∨ (CausalTimestamp a = CausalTimestamp b ∧ String.le (ID a) (ID b)).

#[global] Instance topo_le_dec a b : Decision (topo_le a b).
Proof. unfold topo_le, String.le. apply _. Defined.

Definition dag_children_of (d : DAG St) (id : EventID) : list EventID :=
  range_set (default ∅ (dag_children d !! id)).

(** [inDegree] of [TopologicalSort]. *)
Definition dag_degrees (d : DAG St) : gmap EventID Z :=
  (λ e, Z.of_nat (length (CausalRefs e))) <$> dag_events d.

Definition dag_TopologicalSort (d : DAG St) : option (DagError + list Event) :=
  let deg := dag_degrees d in
  let queue := filter (λ id, degree deg id = 0) (range_set (dom (dag_events d))) in
  '(out, _) ← kahn_loop (dag_children_of d) (kahn_fuel deg queue) deg queue [];
  let result := omap (λ id, dag_events d !! id) out in
  Some (if decide (length result ≠ size (dag_events d)) then inl ErrCycle
        else inr (sort_slice topo_le result)).
End range.
End dag.

(** * The invariant *)

(** [children] is the inverse of the causal references and [tips] the events
    without children; references stay inside the graph and never form a cycle. *)
Record dag_inv {St} (d : DAG St) : Prop := {
  inv_id id e : dag_events d !! id = Some e → ID e = id;
  inv_children_dom : dom (dag_children d) = dom (dag_events d);
  inv_children p c : c ∈ default ∅ (dag_children d !! p) ↔ ∃ e, dag_events d !! c = Some e ∧ p ∈ CausalRefs e;
  inv_tips p : p ∈ dag_tips d ↔
    is_Some (dag_events d !! p) ∧ ∀ c e, dag_events d !! c = Some e → p ∉ CausalRefs e;
  inv_refs id e r : dag_events d !! id = Some e → r ∈ CausalRefs e → is_Some (dag_events d !! r);
  inv_acyclic : ∃ rank : EventID → nat,
    ∀ id e r, dag_events d !! id = Some e → r ∈ CausalRefs e → (rank r < rank id)%nat;
}.

(** The states the package's operations produce. *)
Inductive dag_reach {St} `{!JsonLib, !Ed25519, !Persistence St Event} : DAG St → Prop :=
  | reach_New : dag_reach dag_New
  | reach_Add e d : dag_reach d → dag_reach (dag_Add e d).1
  | reach_addFromStore e d : dag_reach d → dag_reach (dag_addFromStore e d).1
  | reach_SetStore s d : dag_reach d → dag_reach (dag_SetStore s d)
  | reach_SetOnCommit d : dag_reach d → dag_reach (dag_SetOnCommit d).

Lemma foldl_alter_lookup (x : string) (refs : list string) (m : gmap string (gset string)) p :
  foldl (λ c r, alter (union {[x]}) r c) m refs !! p
  = (λ s, if decide (p ∈ refs) then {[x]} ∪ s else s) <$> m !! p.
Proof.
  revert m. induction refs as [|r refs IH]; intros m; simpl.
  { by destruct (m !! p). }
  rewrite IH. destruct (decide (p = r)) as [->|Hne].
  - rewrite lookup_alter_eq. destruct (m !! r) as [s|]; simpl; [|done]. f_equal.
    rewrite (decide_True (P := r ∈ r :: refs)) by apply list_elem_of_here. case_decide; set_solver.
  - rewrite lookup_alter_ne by done. destruct (m !! p) as [s|]; simpl; [|done]. f_equal.
    apply decide_ext. rewrite elem_of_cons. naive_solver.
Qed.

Lemma foldl_difference (refs : list string) (t : gset string) :
  foldl (λ t r, t ∖ {[r]}) t refs = t ∖ list_to_set refs.
Proof. revert t. induction refs as [|r refs IH]; intros t; simpl; [set_solver|]. rewrite IH. set_solver. Qed.

Lemma missing_ref_None {St} (d : DAG St) e :
  missing_ref d e = None ↔ ∀ r, r ∈ CausalRefs e → is_Some (dag_events d !! r).
Proof.
  unfold missing_ref. induction (CausalRefs e) as [|r refs IH]; simpl; [split; [intros _ r ?%elem_of_nil; done|done]|].
  case_bool_decide as Hr.
  - split; [done|]. intros H. specialize (H r (list_elem_of_here _ _)). rewrite Hr in H. by destruct H.
  - apply not_eq_None_Some in Hr. rewrite IH. split.
    + intros H r' [->|Hr']%elem_of_cons; [done|by apply H].
    + intros H r' Hr'. by apply H, list_elem_of_further.
Qed.

Lemma missing_ref_Some {St} (d : DAG St) e r :
  missing_ref d e = Some r → r ∈ CausalRefs e ∧ dag_events d !! r = None.
Proof.
  unfold missing_ref. intros [Hin Hr]%List.find_some. split; [by apply list_elem_of_In|].
  by apply bool_decide_eq_true in Hr.
Qed.

(** A rank for the extended graph. *)
Lemma acyclic_insert (E : gmap EventID Event) e (rank : EventID → nat) :
  E !! ID e = None → (∀ r, r ∈ CausalRefs e → is_Some (E !! r)) →
  (∀ id e' r, E !! id = Some e' → r ∈ CausalRefs e' → is_Some (E !! r)) →
  (∀ id e' r, E !! id = Some e' → r ∈ CausalRefs e' → (rank r < rank id)%nat) →
  ∃ rank' : EventID → nat, ∀ id e' r, <[ID e := e]> E !! id = Some e' → r ∈ CausalRefs e' → (rank' r < rank' id)%nat.
Proof.
  intros Hnew Hrefs Hcl Hrank.
  exists (λ id, if decide (id = ID e) then S (foldr max 0%nat (rank <$> CausalRefs e)) else rank id).
  intros id e' r Hid Hr. apply lookup_insert_Some in Hid as [[<- <-]|[Hne Hid]].
  - rewrite (decide_True (P := ID e = ID e)) by done.
    rewrite decide_False by (intros ->; apply Hrefs in Hr; rewrite Hnew in Hr; by destruct Hr).
    assert (rank r <= foldr max 0 (rank <$> CausalRefs e))%nat; [|lia]. clear -Hr.
    induction (CausalRefs e) as [|r' refs IH]; [by apply elem_of_nil in Hr|].
    apply elem_of_cons in Hr as [->|Hr]; csimpl; [lia|]. specialize (IH Hr). lia.
  - rewrite (decide_False (P := id = ID e)) by done.
    rewrite decide_False; [by eapply Hrank|]. intros ->. destruct (Hcl _ _ _ Hid Hr) as [? Hx]. congruence.
Qed.

Lemma insert_event_inv {St} (d : DAG St) e :
  dag_inv d → dag_events d !! ID e = None → (∀ r, r ∈ CausalRefs e → is_Some (dag_events d !! r)) →
  dag_inv (insert_event e d).
Proof.
  intros [Hid Hdom Hch Htips Hrefs [rank Hrank]] Hnew Hr.
  assert (∀ c e', dag_events d !! c = Some e' → ID e ∉ CausalRefs e') as Hnoref.
  { intros c e' Hc Hin. destruct (Hrefs _ _ _ Hc Hin). congruence. }
  split; cbn [dag_events dag_children dag_tips insert_event].
  - intros id e' [[<- <-]|[_ Hl]]%lookup_insert_Some; [done|by apply Hid].
  - apply set_eq. intros p. rewrite elem_of_dom, foldl_alter_lookup, fmap_is_Some, <- elem_of_dom, !dom_insert_L, Hdom. done.
  - intros p c. rewrite foldl_alter_lookup. destruct (decide (p = ID e)) as [->|Hp].
    + rewrite lookup_insert_eq. simpl. rewrite decide_False by (intros Hin; apply Hr in Hin; rewrite Hnew in Hin; by destruct Hin).
      split; [set_solver|]. intros (e' & [[<- <-]|[_ Hl]]%lookup_insert_Some & Hin); exfalso.
      * apply Hr in Hin. rewrite Hnew in Hin. by destruct Hin.
      * by eapply Hnoref.
    + rewrite lookup_insert_ne by done.
      assert ((∃ e', <[ID e := e]> (dag_events d) !! c = Some e' ∧ p ∈ CausalRefs e')
        ↔ (c = ID e ∧ p ∈ CausalRefs e) ∨ c ∈ default ∅ (dag_children d !! p)) as ->.
      { rewrite Hch. setoid_rewrite lookup_insert_Some. split; [naive_solver|].
        intros [[-> Hin]|(e' & Hl & Hin)]; [by eauto|]. exists e'. split; [right; split; [|done]|done]. congruence. }
      destruct (dag_children d !! p) as [s|] eqn:Hs; simpl.
      * case_decide; set_solver.
      * split; [set_solver|]. intros [[-> Hin]|?]; [|done]. apply Hr, elem_of_dom in Hin. rewrite <- Hdom in Hin.
        apply elem_of_dom in Hin. rewrite Hs in Hin. by destruct Hin.
  - intros p. rewrite foldl_difference, elem_of_union, elem_of_singleton, elem_of_difference, elem_of_list_to_set, Htips.
    setoid_rewrite lookup_insert_Some. rewrite lookup_insert_is_Some. split.
    + intros [->|[[Hp Hno] Hin]].
      * split; [by left|]. intros c e' [[<- <-]|[_ Hl]]; [|by eapply Hnoref].
        intros Hin. apply Hr in Hin. rewrite Hnew in Hin. by destruct Hin.
      * split; [destruct (decide (ID e = p)); naive_solver|]. intros c e' [[<- <-]|[_ Hl]]; [done|by eapply Hno].
    + intros [Hp Hno]. destruct (decide (p = ID e)) as [->|Hne]; [by left|right]. split; [split|].
      * destruct Hp as [Hp|[_ Hp]]; [congruence|done].
      * intros c e' Hl. apply (Hno c). right. split; [congruence|done].
      * apply (Hno (ID e) e). by left.
  - intros id e' r Hl Hin. rewrite lookup_insert_is_Some'. right.
    apply lookup_insert_Some in Hl as [[<- <-]|[_ Hl]]; [by apply Hr|by eapply Hrefs].
  - by eapply acyclic_insert.
Qed.

Section operations.
Context {lib : JsonLib} {ed : Ed25519} {St : Type} `{!Persistence St Event}.
Implicit Types (d : DAG St) (e : Event).

Lemma dag_New_inv : dag_inv (dag_New (St := St)).
Proof.
  split; cbn [dag_events dag_children dag_tips dag_New].
  - by intros id e ?%lookup_empty_Some.
  - done.
  - intros p c. rewrite lookup_empty. setoid_rewrite lookup_empty. set_solver.
  - intros p. setoid_rewrite lookup_empty. split; [set_solver|by intros [[? ?] _]].
  - by intros id e r ?%lookup_empty_Some.
  - exists (λ _, 0%nat). by intros id e r ?%lookup_empty_Some.
Qed.

(** The components the invariant speaks of. *)
Lemma dag_inv_ext d d' :
  dag_events d' = dag_events d → dag_children d' = dag_children d → dag_tips d' = dag_tips d →
  dag_inv d → dag_inv d'.
Proof. intros He Hc Ht [? ? ? ? ? ?]. by split; rewrite ?He, ?Hc, ?Ht. Qed.

(** What a successful [Add] has checked, and its state. *)
Lemma dag_Add_ok e d d' :
  dag_Add e d = (d', None) →
  dag_events d !! ID e = None ∧ (∀ r, r ∈ CausalRefs e → is_Some (dag_events d !! r)) ∧ VerifyEvent e = true
  ∧ d' = dag_commit e false (dag_persist e (insert_event e d)).
Proof.
  unfold dag_Add. case_decide as Hd; [done|]. destruct (missing_ref d e) eqn:Hm; [done|]. case_decide; [done|].
  destruct (VerifyEvent e); [|done]. intros [= <-]. split_and!; [by apply eq_None_not_Some|by apply missing_ref_None|done..].
Qed.

Lemma dag_Add_error e d d' err : dag_Add e d = (d', Some err) → d' = d.
Proof. unfold dag_Add. intros Ha. repeat case_match; by simplify_eq. Qed.

Lemma dag_Add_inv e d : dag_inv d → dag_inv (dag_Add e d).1.
Proof.
  intros Hinv. destruct (dag_Add e d) as [d' [err|]] eqn:Ha.
  - by apply dag_Add_error in Ha as ->.
  - apply dag_Add_ok in Ha as (Hn & Hr & _ & ->).
    by apply (dag_inv_ext (insert_event e d)); [..|apply insert_event_inv].
Qed.

(** The three outcomes of the replay of an event. *)
Lemma dag_addFromStore_cases e d :
  (∃ err, dag_addFromStore e d = (d, Some err))
  ∨ dag_addFromStore e d = (d, None)
  ∨ (dag_events d !! ID e = None ∧ missing_ref d e = None ∧ ComputeID e = Some (ID e)
     ∧ dag_addFromStore e d = (dag_commit e true (insert_event e d), None)).
Proof.
  unfold dag_addFromStore. case_decide as Hd; [by auto|]. destruct (ComputeID e) as [id|]; [|by eauto].
  case_decide as Hid; [by eauto|]. case_decide; [by eauto|]. destruct (missing_ref d e); [by auto|].
  right. right. split_and!; [by apply eq_None_not_Some|done| |done]. f_equal. destruct (decide (id = ID e)); [done|by destruct Hid].
Qed.

Lemma dag_addFromStore_inv e d : dag_inv d → dag_inv (dag_addFromStore e d).1.
Proof.
  intros Hinv. destruct (dag_addFromStore_cases e d) as [[err ->]|[->|(Hn & Hm & _ & ->)]]; [done..|].
  pose proof (proj1 (missing_ref_None d e) Hm). by apply (dag_inv_ext (insert_event e d)); [..|apply insert_event_inv].
Qed.

Lemma dag_reach_inv d : dag_reach d → dag_inv d.
Proof.
  induction 1 as [|e d _ IH|e d _ IH|s d _ IH|d _ IH];
    [apply dag_New_inv|by apply dag_Add_inv|by apply dag_addFromStore_inv|by apply (dag_inv_ext d)..].
Qed.

(** [a] is a direct reference of [b]. *)
Definition parent d (a b : EventID) : Prop := ∃ e, dag_events d !! b = Some e ∧ a ∈ CausalRefs e.

Lemma tc_parent_rank d (rank : EventID → nat) a b :
  (∀ id e r, dag_events d !! id = Some e → r ∈ CausalRefs e → (rank r < rank id)%nat) →
  tc (parent d) a b → (rank a < rank b)%nat.
Proof.
  intros Hrank Hab. induction Hab as [a b (e & He & Hr)|a b c (e & He & Hr) _ IH]; [by eapply Hrank|].
  specialize (Hrank _ _ _ He Hr). lia.
Qed.

Lemma parent_irrefl d id : dag_inv d → ¬ tc (parent d) id id.
Proof. intros [_ _ _ _ _ [rank Hrank]] Htc%(tc_parent_rank d rank); [lia|done]. Qed.

(** C38: in every state the operations produce, references stay inside the graph and never form a cycle, the
    children sets are the inverse of the causal references, and the frontier is exactly the set of events that no
    event references. *)
Theorem dag_graph_invariant d :
  dag_reach d →
  (∀ id e r, dag_events d !! id = Some e → r ∈ CausalRefs e → is_Some (dag_events d !! r))
  ∧ (∀ id, ¬ tc (parent d) id id)
  ∧ (∀ p c, c ∈ default ∅ (dag_children d !! p) ↔ ∃ e, dag_events d !! c = Some e ∧ p ∈ CausalRefs e)
  ∧ (∀ p, p ∈ dag_tips d ↔ is_Some (dag_events d !! p) ∧ dag_children d !! p = Some ∅).
Proof.
  intros Hinv%dag_reach_inv. pose proof Hinv as [Hid Hdom Hch Htips Hrefs _].
  split_and!; [done|by intros id; apply parent_irrefl|done|].
  - intros p. rewrite Htips.
    enough (is_Some (dag_events d !! p) →
      ((∀ c e, dag_events d !! c = Some e → p ∉ CausalRefs e) ↔ dag_children d !! p = Some ∅)) by tauto. intros Hp.
    assert (is_Some (dag_children d !! p)) as [s Hs] by (by apply elem_of_dom; rewrite Hdom; apply elem_of_dom).
    rewrite Hs. specialize (Hch p). rewrite Hs in Hch. cbn in Hch. split.
    + intros Hno. f_equal. apply set_eq. intros c. rewrite Hch. split; [|set_solver]. intros (e & He & Hin). by destruct (Hno c e).
    + intros [= ->] c e He Hin. assert (c ∈ (∅ : gset EventID)) by (apply Hch; eauto). set_solver.
Qed.

(** [Add] is all or nothing and append-only.  It fails on a known ID, an unknown reference, a missing or an
    invalid signature, in this order, and then changes nothing; otherwise the graph is the old one plus the event,
    the event joins the frontier, which its references leave, and the store and the hook receive it. *)
Theorem dag_Add_spec e d :
  match dag_Add e d with
  | (d', Some err) =>
      d' = d
      ∧ ((is_Some (dag_events d !! ID e) ∧ err = ErrDuplicateEvent (ID e))
         ∨ (dag_events d !! ID e = None ∧ ∃ r, r ∈ CausalRefs e ∧ dag_events d !! r = None ∧ err = ErrMissingCausalRef r (ID e))
         ∨ ((∀ r, r ∈ CausalRefs e → is_Some (dag_events d !! r)) ∧ VerifyEvent e = false
            ∧ err = (if decide (Signature e = []) then ErrMissingSignature (ID e) else ErrInvalidSignature (ID e))))
  | (d', None) =>
      dag_events d !! ID e = None ∧ VerifyEvent e = true
      ∧ dag_events d' = <[ID e := e]> (dag_events d)
      ∧ dag_tips d' = {[ID e]} ∪ dag_tips d ∖ list_to_set (CausalRefs e)
      ∧ dag_store d' = write_through e (dag_store d)
      ∧ dag_commits d' = (if dag_onCommit d then dag_commits d ++ [(e, false)] else dag_commits d)
  end.
Proof.
  destruct (dag_Add e d) as [d' [err|]] eqn:Ha.
  - unfold dag_Add in Ha. case_decide as Hd; [simplify_eq; auto|]. apply eq_None_not_Some in Hd.
    destruct (missing_ref d e) as [r|] eqn:Hm.
    { apply missing_ref_Some in Hm as [Hin Hr]. simplify_eq. split; [done|]. right. left. split; [done|]. eauto. }
    pose proof (proj1 (missing_ref_None d e) Hm) as Hrefs. case_decide as Hl.
    + apply nil_length_inv in Hl. simplify_eq. split; [done|]. right. right. rewrite decide_True by done.
      split_and!; [done| |done]. unfold VerifyEvent. by rewrite Hl.
    + destruct (VerifyEvent e) eqn:Hv; simplify_eq/=. split; [done|]. right. right.
      rewrite decide_False; [done|]. intros Hs. by rewrite Hs in Hl.
  - apply dag_Add_ok in Ha as (Hn & Hr & Hv & ->). cbn. by rewrite foldl_difference.
Qed.

(** ** Ancestors *)

Lemma all_refs_bound d x c : c ∈ refs_of d x → c ∈ all_refs d.
Proof.
  unfold refs_of, all_refs. destruct (dag_events d !! x) as [e|] eqn:Hx; [|by intros ?%elem_of_nil].
  revert Hx. generalize (dag_events d) as m. intros m. induction m as [|k v m Hk IH] using map_ind; [done|].
  intros Hx Hc. rewrite map_fold_insert_L; [|set_solver|done].
  apply lookup_insert_Some in Hx as [[<- ->]|[_ Hx]]; [set_solver|]. apply elem_of_union_r. by apply IH.
Qed.

Lemma edge_parent d x c : edge (refs_of d) x c ↔ parent d c x.
Proof. unfold edge, refs_of, parent. destruct (dag_events d !! x); [naive_solver|]. split; [by intros ?%elem_of_nil|naive_solver]. Qed.

(** Traversals run backwards along the references. *)
Lemma rtc_edge_parent d x c : rtc (edge (refs_of d)) x c ↔ rtc (parent d) c x.
Proof.
  split; induction 1 as [|a b c Hab _ IH]; [done| |done|]; (eapply rtc_r; [exact IH|]); by apply edge_parent.
Qed.

Lemma tc_last_first {A} (R : relation A) a b : tc R a b ↔ ∃ c, R c b ∧ rtc R a c.
Proof.
  split.
  - intros H. induction H as [a b H|a b c Hab _ (x & Hx & Hbx)]; [by exists a|]. exists x. split; [done|]. by eapply rtc_l.
  - intros (c & Hcb & Hac). by eapply tc_rtc_l; [|by apply tc_once].
Qed.

Lemma dag_Ancestors_total id d e :
  dag_events d !! id = Some e →
  ∃ l, dag_Ancestors id d = Some (inr l) ∧ NoDup l ∧ ∀ a, a ∈ l ↔ tc (parent d) a id.
Proof.
  intros He. unfold dag_Ancestors. rewrite He.
  destruct (bfs_visit_spec (CausalRefs e) ∅ []) as (z & -> & Hnd & Hz). rewrite app_nil_l, (right_id_L ∅ (∪)).
  destruct (bfs_terminates (refs_of d) (all_refs d) (all_refs_bound d) (list_to_set z) z []) as [l Hl].
  exists l. rewrite Hl. split; [done|]. apply bfs_spec in Hl as [Hndl Hl]; [|done]. split; [done|].
  intros a. rewrite Hl, tc_last_first. setoid_rewrite Hz. setoid_rewrite rtc_edge_parent. unfold parent at 2.
  rewrite He. set_solver.
Qed.

Lemma dag_IsAncestor_total a b d :
  dag_inv d → is_Some (dag_events d !! a) → is_Some (dag_events d !! b) →
  ∃ v, dag_IsAncestor a b d = Some (inr v) ∧ (v = true ↔ tc (parent d) a b).
Proof.
  intros Hinv [ea Ha] [eb Hb]. unfold dag_IsAncestor. rewrite decide_False by congruence. rewrite decide_False by congruence.
  destruct (decide (a = b)) as [->|Hne].
  { exists false. split; [done|]. split; [done|]. by intros ?%parent_irrefl. }
  destruct (bfs_terminates (refs_of d) (all_refs d) (all_refs_bound d) {[b]} [b] []) as [l Hl].
  destruct (bfs_find_loop (refs_of d) a _ _ _ _ _ Hl) as (l' & -> & ->). exists (bool_decide (a ∈ l')). split; [done|].
  assert (({[b]} : gset EventID) = list_to_set [b]) as Hset by (simpl; by rewrite (right_id_L ∅ (∪))).
  rewrite Hset in Hl at 2. apply bfs_spec in Hl as [_ Hl]; [|apply NoDup_singleton].
  rewrite bool_decide_eq_true, (Hl a). setoid_rewrite list_elem_of_singleton. setoid_rewrite rtc_edge_parent. split.
  - intros (s & -> & Hr). apply rtc_tc in Hr as [->|Hr]; done.
  - intros Hr%tc_rtc. by exists b.
Qed.

Lemma dag_IsAncestor_absent a b d :
  dag_events d !! a = None ∨ dag_events d !! b = None → ∃ err, dag_IsAncestor a b d = Some (inl err).
Proof.
  intros Hab. unfold dag_IsAncestor. case_decide; [by eexists|]. rewrite decide_True by naive_solver. by eexists.
Qed.

(** The ancestor queries compute the transitive closure of the causal references.  Both traversals end;
    [Ancestors] returns every strict ancestor exactly once, [IsAncestor], which stops as soon as it has found the
    ancestor, agrees with it, and both report an ID that is not in the graph. *)
Theorem dag_ancestors_spec d :
  dag_reach d →
  (∀ id, match dag_events d !! id with
         | None => dag_Ancestors id d = Some (inl (ErrEventNotFound id))
         | Some _ => ∃ l, dag_Ancestors id d = Some (inr l) ∧ NoDup l ∧ id ∉ l ∧ ∀ a, a ∈ l ↔ tc (parent d) a id
         end)
  ∧ (∀ a b, is_Some (dag_events d !! a) → is_Some (dag_events d !! b) →
       ∃ v, dag_IsAncestor a b d = Some (inr v) ∧ (v = true ↔ tc (parent d) a b))
  ∧ (∀ a b, dag_events d !! a = None ∨ dag_events d !! b = None → ∃ err, dag_IsAncestor a b d = Some (inl err)).
Proof.
  intros Hinv%dag_reach_inv. split_and!.
  - intros id. destruct (dag_events d !! id) as [e|] eqn:He; [|by unfold dag_Ancestors; rewrite He].
    destruct (dag_Ancestors_total id d e He) as (l & Hl & Hnd & Hin). exists l. split_and!; [done..| |done].
    rewrite Hin. by apply parent_irrefl.
  - intros a b. by apply dag_IsAncestor_total.
  - intros a b. apply dag_IsAncestor_absent.
Qed.

(** ** The frontier *)

Lemma map_rank_bound {A} (rank : EventID → nat) (m : gmap EventID A) :
  ∃ M, ∀ id, is_Some (m !! id) → (rank id <= M)%nat.
Proof.
  induction m as [|id x m Hid [M HM]] using map_ind.
  - exists 0%nat. intros id. rewrite lookup_empty. by intros [? ?].
  - exists (max (rank id) M). intros id'. rewrite lookup_insert_is_Some'. intros [->|H%HM]; lia.
Qed.

(** Every event leads to the frontier. *)
Lemma reaches_tip d id :
  dag_inv d → is_Some (dag_events d !! id) → ∃ t, t ∈ dag_tips d ∧ rtc (parent d) id t.
Proof.
  intros [Hid Hdom Hch Htips Hrefs [rank Hrank]] Hsome.
  destruct (map_rank_bound rank (dag_events d)) as [M HM].
  remember (M - rank id)%nat as n eqn:Hn. revert id Hsome Hn.
  induction (lt_wf n) as [n _ IH]. intros id Hsome Hn.
  destruct (set_choose_or_empty (default ∅ (dag_children d !! id))) as [[c Hc]|Hempty].
  - apply Hch in Hc as (e & He & Hin). pose proof (Hrank _ _ _ He Hin). pose proof (HM c ltac:(eauto)).
    destruct (IH (M - rank c)%nat ltac:(lia) c ltac:(eauto) eq_refl) as (t & Ht & Hr).
    exists t. split; [done|]. eapply rtc_l; [|exact Hr]. by exists e.
  - exists id. split; [|done]. apply Htips. split; [done|]. intros c e He Hin.
    assert (c ∈ default ∅ (dag_children d !! id)) by (apply Hch; eauto). set_solver.
Qed.
End operations.

(** * Topological order *)

Lemma edges_from_set (nodes refs : list string) (f : string → Z) :
  NoDup nodes → refs ⊆ nodes → (∀ p, p ∈ nodes → f p = if decide (p ∈ refs) then 1 else 0) →
  sum_list_Z (f <$> nodes) = Z.of_nat (length (remove_dups refs)).
Proof.
  intros Hnd Hsub Hf.
  assert (sum_list_Z (f <$> nodes) = Z.of_nat (length (filter (λ p, p ∈ refs) nodes))) as ->.
  { clear Hsub Hnd. induction nodes as [|p nodes IH]; [done|]. rewrite filter_cons, fmap_cons. cbn [sum_list_Z foldr].
    change (foldr Z.add 0 (f <$> nodes)) with (sum_list_Z (f <$> nodes)).
    rewrite IH by (intros q Hq; by apply Hf, list_elem_of_further).
    rewrite Hf by apply list_elem_of_here. destruct (decide (p ∈ refs)); cbn [length]; lia. }
  f_equal. apply Permutation_length, NoDup_Permutation; [by apply NoDup_filter|apply NoDup_remove_dups|].
  intros p. rewrite list_elem_of_filter, elem_of_remove_dups. split; [tauto|]. intros Hp. split; [done|by apply Hsub].
Qed.

Lemma remove_dups_length (l : list string) : (length (remove_dups l) <= length l)%nat.
Proof. induction l as [|x l IH]; simpl; [lia|]. case_decide; simpl; lia. Qed.

Lemma remove_dups_NoDup_length (l : list string) : length (remove_dups l) = length l ↔ NoDup l.
Proof.
  split.
  - induction l as [|x l IH]; simpl; [constructor|]. pose proof (remove_dups_length l). case_decide; simpl; [lia|].
    intros [= Hl]. constructor; [done|by apply IH].
  - induction 1 as [|x l Hx _ IH]; simpl; [done|]. case_decide; [done|]. simpl. by f_equal.
Qed.

#[global] Instance topo_le_trans : Transitive topo_le.
Proof.
  unfold topo_le. intros a b c [H1|[H1 H1']] [H2|[H2 H2']]; [lia|lia|lia|]. right. split; [lia|by etrans].
Qed.

#[global] Instance topo_le_total : Total topo_le.
Proof.
  unfold topo_le. intros a b. destruct (Z.lt_trichotomy (CausalTimestamp a) (CausalTimestamp b)) as [H|[H|H]]; [by left; left| |by right; left].
  destruct (total String.le (ID a) (ID b)); [left|right]; right; done.
Qed.

Section topological.
Context {St : Type} {order : RangeOrder}.
Implicit Types (d : DAG St) (e : Event).

(** References of [id] counted with repetition beyond the first. *)
Definition repeated_refs d (id : EventID) : Z :=
  Z.of_nat (length (refs_of d id)) - Z.of_nat (length (remove_dups (refs_of d id))).

Lemma repeated_refs_nonneg d id : 0 <= repeated_refs d id.
Proof. unfold repeated_refs. pose proof (remove_dups_length (refs_of d id)). lia. Qed.

Lemma repeated_refs_zero d id : repeated_refs d id = 0 ↔ NoDup (refs_of d id).
Proof. unfold repeated_refs. rewrite <- remove_dups_NoDup_length. lia. Qed.

Lemma dag_degrees_spec d c :
  dag_inv d → c ∈ range_set (dom (dag_events d)) →
  degree (dag_degrees d) c = repeated_refs d c + edges_in (dag_children_of d) c (range_set (dom (dag_events d))).
Proof.
  intros [Hid Hdom Hch Htips Hrefs _] Hc. apply elem_of_range_set, elem_of_dom in Hc as [e He].
  unfold edges_in. rewrite (edges_from_set _ (refs_of d c)).
  - unfold degree, dag_degrees, repeated_refs, refs_of. rewrite lookup_fmap, He. simpl. lia.
  - apply range_set_NoDup.
  - unfold refs_of. rewrite He. intros r Hr. apply elem_of_range_set, elem_of_dom. by eapply Hrefs.
  - intros p Hp. unfold dag_children_of. rewrite occ_NoDup by apply range_set_NoDup. apply decide_ext.
    rewrite elem_of_range_set, Hch. unfold refs_of. rewrite He. naive_solver.
Qed.

Lemma dag_children_of_nodes d p c :
  dag_inv d → c ∈ dag_children_of d p → c ∈ range_set (dom (dag_events d)).
Proof.
  intros [_ _ Hch _ _ _]. unfold dag_children_of. rewrite !elem_of_range_set, Hch, elem_of_dom. intros (e & He & _). eauto.
Qed.

(** Timestamps that increase along the references. *)
Definition lamport d : Prop :=
  ∀ id e r p, dag_events d !! id = Some e → r ∈ CausalRefs e → dag_events d !! r = Some p →
    CausalTimestamp p < CausalTimestamp e.

(** The loop of [TopologicalSort] ends in a state of Kahn's algorithm. *)
Lemma dag_sort_run d :
  dag_inv d →
  ∃ out deg', dag_TopologicalSort d
    = Some (let result := omap (λ id, dag_events d !! id) out in
            if decide (length result ≠ size (dag_events d)) then inl ErrCycle else inr (sort_slice topo_le result))
  ∧ kahn_inv (range_set (dom (dag_events d))) (dag_children_of d) (repeated_refs d) deg' [] out.
Proof.
  intros Hinv. unfold dag_TopologicalSort. cbv zeta. set (nodes := range_set (dom (dag_events d))).
  set (queue := filter _ nodes).
  destruct (kahn_terminates (dag_children_of d) (dag_degrees d) queue []) as [[out deg'] Hrun].
  exists out, deg'. rewrite Hrun. split; [done|].
  eapply (kahn_run nodes (dag_children_of d) (repeated_refs d)); [apply range_set_NoDup| |
    intros; apply repeated_refs_nonneg| |exact Hrun].
  - intros p c _ Hc. by eapply dag_children_of_nodes.
  - apply kahn_init; [apply NoDup_filter, range_set_NoDup|by intros; apply dag_degrees_spec|].
    intros c. unfold queue. rewrite list_elem_of_filter. tauto.
Qed.

Lemma nodes_size d : length (range_set (dom (dag_events d))) = size (dag_events d).
Proof. rewrite (Permutation_length (range_set_perm _)). change (size (dom (dag_events d) : gset EventID) = size (dag_events d)). apply size_dom. Qed.

Lemma sorted_parents_first d l :
  dag_inv d → lamport d → l ≡ₚ (map_to_list (dag_events d)).*2 → StronglySorted topo_le l →
  ∀ l1 e l2 r, l = l1 ++ e :: l2 → r ∈ CausalRefs e → ∃ p, p ∈ l1 ∧ ID p = r.
Proof.
  intros Hinv Hlam Hp Hs l1 e l2 r -> Hr.
  assert (∀ x, x ∈ l1 ++ e :: l2 ↔ dag_events d !! ID x = Some x) as Hmem.
  { intros x. rewrite Hp, list_elem_of_fmap. split.
    - intros ([id y] & -> & Hy%elem_of_map_to_list). cbn. by rewrite (inv_id d Hinv _ _ Hy).
    - intros Hx. exists (ID x, x). by rewrite elem_of_map_to_list. }
  assert (dag_events d !! ID e = Some e) as He by (apply Hmem; set_solver).
  destruct (inv_refs d Hinv _ _ _ He Hr) as [p Hpr]. pose proof (inv_id d Hinv _ _ Hpr) as Hpid.
  pose proof (Hlam _ _ _ _ He Hr Hpr) as Hts. exists p. split; [|done].
  assert (p ∈ l1 ++ e :: l2) as Hin by (apply Hmem; by rewrite Hpid).
  apply elem_of_app in Hin as [Hin|[->|Hin]%elem_of_cons]; [done|lia|exfalso].
  rewrite cons_middle, app_assoc in Hs. apply (StronglySorted_app_1_elem_of _ _ _ e p) in Hs; [|set_solver|done].
  destruct Hs; lia.
Qed.

Context {lib : JsonLib} {ed : Ed25519} `{!Persistence St Event}.

(** [TopologicalSort] ends, and it returns every event exactly once, ordered by timestamp and ID, if and only
    if no event lists a causal reference twice; one event that does makes it report a cycle for the whole graph.  Where
    the timestamps increase along the references, every event comes after the events it references. *)
Theorem dag_TopologicalSort_spec d :
  dag_reach d →
  ∃ r, dag_TopologicalSort d = Some r ∧
    match r with
    | inl err => err = ErrCycle ∧ ∃ id e, dag_events d !! id = Some e ∧ ¬ NoDup (CausalRefs e)
    | inr l =>
        (∀ id e, dag_events d !! id = Some e → NoDup (CausalRefs e))
        ∧ l ≡ₚ (map_to_list (dag_events d)).*2 ∧ StronglySorted topo_le l
        ∧ (lamport d → ∀ l1 e l2 r, l = l1 ++ e :: l2 → r ∈ CausalRefs e → ∃ p, p ∈ l1 ∧ ID p = r)
    end.
Proof.
  intros Hinv%dag_reach_inv. destruct (dag_sort_run d Hinv) as (out & deg' & -> & Hk). eexists. split; [done|].
  set (nodes := range_set (dom (dag_events d))) in *.
  assert (∀ id, id ∈ nodes ↔ is_Some (dag_events d !! id)) as Hnodes
    by (intros id; unfold nodes; by rewrite elem_of_range_set, elem_of_dom).
  assert (NoDup out) as Hnd by (pose proof (kahn_nodup _ _ _ _ _ _ Hk) as Hnd; by rewrite app_nil_r in Hnd).
  assert (out ⊆ nodes) as Hsub by (pose proof (kahn_nodes _ _ _ _ _ _ Hk) as Hsub; by rewrite app_nil_r in Hsub).
  cbv zeta. rewrite (omap_lookup_all (dag_events d) out) by (intros id Hid; by apply Hnodes, Hsub).
  rewrite <- nodes_size. fold nodes.
  destruct (decide (Exists (λ id, 0 < repeated_refs d id) nodes)) as [Hex|Hall].
  - apply Exists_exists in Hex as (c & Hc & Hpos). pose proof (kahn_slack _ _ _ (range_set_NoDup _) _ _ _ Hk Hpos) as Hno.
    rewrite decide_True.
    + split; [done|]. apply Hnodes in Hc as [e He]. exists c, e. split; [done|]. intros Hnde.
      assert (repeated_refs d c = 0); [|lia]. apply repeated_refs_zero. unfold refs_of. by rewrite He.
    + intros Hlen. apply Hno. assert (out ≡ₚ nodes) as ->; [|done].
      apply submseteq_length_Permutation; [|lia]. apply NoDup_submseteq; [done|]. intros x. apply Hsub.
  - assert (∀ c, c ∈ nodes → repeated_refs d c = 0) as Hzero.
    { intros c Hc. pose proof (repeated_refs_nonneg d c). destruct (decide (repeated_refs d c = 0)); [done|].
      exfalso. apply Hall, Exists_exists. exists c. split; [done|lia]. }
    assert (out ≡ₚ nodes) as Hperm.
    { destruct (inv_acyclic d Hinv) as [rank Hrank].
      eapply (kahn_complete nodes (dag_children_of d) (repeated_refs d)) with (rank := rank); [apply range_set_NoDup| |
        intros; apply repeated_refs_nonneg|exact Hk|done|].
      - intros p c _ Hc. by eapply dag_children_of_nodes.
      - intros p c _ Hc. unfold dag_children_of in Hc. apply elem_of_range_set, (inv_children d Hinv) in Hc as (e & He & Hp).
        by eapply Hrank. }
    rewrite decide_False by (rewrite (Permutation_length Hperm); tauto).
    assert (sort_slice topo_le (omap (λ id, dag_events d !! id) out) ≡ₚ (map_to_list (dag_events d)).*2) as Hsorted.
    { rewrite sort_slice_perm. apply omap_lookup_map. rewrite Hperm. apply range_set_perm. }
    pose proof (sort_slice_sorted topo_le (omap (λ id, dag_events d !! id) out)) as Hss.
    split_and!; [|done|done|intros Hlam; by apply (sorted_parents_first d)].
    intros id e He. assert (id ∈ nodes) as Hc by (apply Hnodes; eauto). apply Hzero, repeated_refs_zero in Hc.
    unfold refs_of in Hc. by rewrite He in Hc.
Qed.
End topological.

(** * Loading from the store *)

Lemma foldl_insert_fmap {A} (f : Event → A) (m : gmap EventID Event) es :
  foldl (λ m e, <[ID e := f e]> m) (f <$> m) es = f <$> foldl (λ m e, <[ID e := e]> m) m es.
Proof. revert m. induction es as [|e es IH]; intros m; simpl; [done|]. by rewrite <- fmap_insert, IH. Qed.

Lemma topo_degrees_by_id events :
  topo_degrees events = (λ e, Z.of_nat (length (known_refs events e))) <$> by_id events.
Proof. unfold topo_degrees, by_id, load_all. rewrite <- foldl_insert_fmap. by rewrite fmap_empty. Qed.

(** The occurrences of [c] among the children recorded for [p]. *)
Definition occ_child (c p : string) (m : gmap string (list string)) : Z := occ c (default [] (m !! p)).

Lemma occ_nil c : occ c [] = 0.
Proof. reflexivity. Qed.

Lemma occ_app c l1 l2 : occ c (l1 ++ l2) = occ c l1 + occ c l2.
Proof. unfold occ. rewrite filter_app, length_app. lia. Qed.

Lemma topo_children_inner x refs m c p :
  occ_child c p (foldl (λ m r, <[r := default [] (m !! r) ++ [x]]> m) m refs)
  = occ_child c p m + (if decide (x = c) then occ p refs else 0).
Proof.
  revert m. induction refs as [|r refs IH]; intros m; cbn [foldl].
  { rewrite occ_nil. case_decide; lia. }
  rewrite IH, occ_cons. unfold occ_child at 1. destruct (decide (r = p)) as [->|Hne].
  - rewrite lookup_insert_eq. change (default [] (Some ?y)) with y. rewrite occ_app, occ_cons, occ_nil. fold (occ_child c p m).
    repeat case_decide; lia.
  - rewrite lookup_insert_ne by done. fold (occ_child c p m). repeat case_decide; lia.
Qed.

Lemma topo_children_occ (K : Event → list string) es m c p :
  occ_child c p (foldl (λ m e, foldl (λ m r, <[r := default [] (m !! r) ++ [ID e]]> m) m (K e)) m es)
  = occ_child c p m + sum_list_Z ((λ e, if decide (ID e = c) then occ p (K e) else 0) <$> es).
Proof.
  revert m. induction es as [|e es IH]; intros m; [simpl; lia|]. cbn [foldl]. rewrite IH, topo_children_inner.
  rewrite fmap_cons. cbn [sum_list_Z foldr]. unfold sum_list_Z. lia.
Qed.

Lemma sum_of_one {A} (f : A → string) (g : A → Z) (es : list A) x :
  NoDup (f <$> es) → x ∈ es →
  sum_list_Z ((λ y, if decide (f y = f x) then g y else 0) <$> es) = g x.
Proof.
  assert (∀ es c, c ∉ f <$> es → sum_list_Z ((λ y, if decide (f y = c) then g y else 0) <$> es) = 0) as Hzero.
  { intros l c. induction l as [|y l IH]; [done|]. rewrite !fmap_cons, not_elem_of_cons. intros [Hy Hl].
    cbn [sum_list_Z foldr]. rewrite decide_False by congruence. apply IH in Hl. unfold sum_list_Z in Hl. lia. }
  induction es as [|y es IH]; intros Hnd Hx; [by apply elem_of_nil in Hx|].
  rewrite fmap_cons in *. apply NoDup_cons in Hnd as [Hy Hnd]. cbn [sum_list_Z foldr].
  apply elem_of_cons in Hx as [->|Hx].
  - rewrite decide_True by done. specialize (Hzero es (f y) Hy). unfold sum_list_Z in Hzero. lia.
  - rewrite decide_False by (intros Heq; apply Hy; rewrite Heq; by apply list_elem_of_fmap_2).
    specialize (IH Hnd Hx). unfold sum_list_Z in IH. lia.
Qed.

Lemma sum_occ (nodes refs : list string) :
  NoDup nodes → refs ⊆ nodes → sum_list_Z ((λ p, occ p refs) <$> nodes) = Z.of_nat (length refs).
Proof.
  intros Hnd. induction refs as [|r refs IH]; intros Hsub.
  { clear. induction nodes as [|p nodes IH]; [done|]. rewrite fmap_cons. cbn [sum_list_Z foldr].
    unfold sum_list_Z in IH. rewrite IH. done. }
  assert (sum_list_Z ((λ p, occ p (r :: refs)) <$> nodes)
    = sum_list_Z ((λ p, if decide (p = r) then 1 else 0) <$> nodes) + sum_list_Z ((λ p, occ p refs) <$> nodes)) as ->.
  { clear. induction nodes as [|p nodes IH]; [done|]. rewrite !fmap_cons. cbn [sum_list_Z foldr].
    unfold sum_list_Z in IH. rewrite IH, occ_cons. repeat case_decide; try congruence; lia. }
  rewrite IH by (intros x Hx; by apply Hsub, list_elem_of_further).
  pose proof (sum_of_one (λ x, x) (λ _, 1) nodes r ltac:(by rewrite list_fmap_id) ltac:(by apply Hsub, list_elem_of_here)) as Hone.
  rewrite Hone. cbn [length]. lia.
Qed.

Lemma list_omap_fmap_id (f : EventID → option Event) (es : list Event) :
  (∀ e, e ∈ es → f (ID e) = Some e) → omap f (ID <$> es) = es.
Proof.
  induction es as [|e es IH]; intros Hf; [done|]. csimpl. rewrite Hf by apply list_elem_of_here. f_equal.
  apply IH. intros e' He'. by apply Hf, list_elem_of_further.
Qed.

Lemma fmap_ID_omap (f : EventID → option Event) (ids : list EventID) :
  (∀ id, id ∈ ids → ∃ e, f id = Some e ∧ ID e = id) → ID <$> omap f ids = ids.
Proof.
  induction ids as [|id ids IH]; intros Hf; [done|]. csimpl.
  destruct (Hf id (list_elem_of_here _ _)) as (e & He & Hid). rewrite He. csimpl. rewrite Hid. f_equal.
  apply IH. intros id' Hid'. by apply Hf, list_elem_of_further.
Qed.

Section toposort.
Context (events : list Event) (Hnd : NoDup (ID <$> events)).

Lemma by_id_Some id e : by_id events !! id = Some e ↔ e ∈ events ∧ ID e = id.
Proof.
  unfold by_id. rewrite load_all_list_to_map by done. rewrite <- elem_of_list_to_map.
  - rewrite list_elem_of_fmap. split; [by intros (e' & [= -> ->] & ?)|]. intros [? <-]. by exists e.
  - by rewrite <- list_fmap_compose.
Qed.

Lemma known_refs_nodes e r : r ∈ known_refs events e ↔ r ∈ CausalRefs e ∧ r ∈ ID <$> events.
Proof.
  unfold known_refs. rewrite list_elem_of_filter, list_elem_of_fmap.
  enough (is_Some (by_id events !! r) ↔ ∃ x, r = ID x ∧ x ∈ events) by tauto. split.
  - intros [x Hx]. apply by_id_Some in Hx as [Hx <-]. by exists x.
  - intros (x & -> & Hx). exists x. by apply by_id_Some.
Qed.

Definition topo_kids (id : EventID) : list EventID := default [] (topo_children events !! id).

Lemma topo_kids_occ e p : e ∈ events → occ (ID e) (topo_kids p) = occ p (known_refs events e).
Proof.
  intros He. unfold topo_kids, topo_children. change (occ ?c (default [] (?m !! p))) with (occ_child c p m).
  rewrite topo_children_occ. rewrite (sum_of_one ID (λ e, occ p (known_refs events e))) by done.
  unfold occ_child. by rewrite lookup_empty.
Qed.

Lemma topo_kids_nodes p c : c ∈ topo_kids p → c ∈ ID <$> events.
Proof.
  intros Hc%occ_pos. unfold topo_kids, topo_children in Hc. change (occ c (default [] (?m !! p))) with (occ_child c p m) in Hc.
  rewrite topo_children_occ in Hc. unfold occ_child in Hc. rewrite lookup_empty in Hc.
  destruct (decide (c ∈ ID <$> events)) as [|Hno]; [done|exfalso].
  assert (∀ es, c ∉ ID <$> es → sum_list_Z ((λ e, if decide (ID e = c) then occ p (known_refs events e) else 0) <$> es) = 0)
    as Hz; [|rewrite Hz in Hc by done; by vm_compute in Hc].
  clear. intros es. induction es as [|e es IH]; [done|]. rewrite !fmap_cons, not_elem_of_cons. intros [He Hes].
  cbn [sum_list_Z foldr]. rewrite decide_False by congruence. apply IH in Hes. unfold sum_list_Z in Hes. lia.
Qed.

Lemma topoSort_spec (rank : EventID → nat) :
  (∀ e r, e ∈ events → r ∈ CausalRefs e → (rank r < rank (ID e))%nat) →
  ∃ sorted, topoSort events = Some (sorted, []) ∧ sorted ≡ₚ events
    ∧ ∀ l1 e l2 r, sorted = l1 ++ e :: l2 → r ∈ CausalRefs e → r ∈ ID <$> events → r ∈ ID <$> l1.
Proof using Hnd.
  intros Hrank. unfold topoSort. cbv zeta. set (nodes := ID <$> events) in *.
  set (queue := ID <$> filter _ events). change (λ id, default [] (topo_children events !! id)) with topo_kids.
  destruct (kahn_terminates topo_kids (topo_degrees events) queue []) as [[out deg'] Hrun]. rewrite Hrun.
  cbn [mbind option_bind].
  assert (∀ p c, p ∈ nodes → c ∈ topo_kids p → c ∈ nodes) as Hkids by (intros p c _; apply topo_kids_nodes).
  assert (kahn_inv nodes topo_kids (λ _, 0) deg' [] out) as Hk.
  { eapply (kahn_run nodes topo_kids (λ _, 0) Hnd Hkids ltac:(done)); [|exact Hrun].
    apply kahn_init.
    - unfold queue. eapply sublist_NoDup; [exact Hnd|]. apply fmap_sublist, sublist_filter.
    - intros c Hc. apply list_elem_of_fmap in Hc as (e & -> & He).
      rewrite topo_degrees_by_id. unfold degree. rewrite lookup_fmap, (proj2 (by_id_Some _ e)) by done. cbn.
      unfold edges_in. rewrite (list_fmap_ext _ (λ p, occ p (known_refs events e))) by (intros; by apply topo_kids_occ).
      rewrite sum_occ; [done|exact Hnd|]. intros r Hr. by apply known_refs_nodes in Hr as [_ Hr].
    - intros c. unfold queue. rewrite list_elem_of_fmap. setoid_rewrite list_elem_of_filter. unfold nodes.
      rewrite list_elem_of_fmap. naive_solver. }
  assert (out ≡ₚ nodes) as Hperm.
  { eapply (kahn_complete nodes topo_kids (λ _, 0) Hnd Hkids ltac:(done)); [exact Hk|done|].
    intros p c _ Hc. pose proof (topo_kids_nodes p c Hc) as Hcn. apply list_elem_of_fmap in Hcn as (e & -> & He).
    apply Hrank; [done|]. apply occ_pos in Hc. rewrite topo_kids_occ in Hc by done. apply occ_pos, known_refs_nodes in Hc. tauto. }
  assert (omap (λ id, by_id events !! id) out ≡ₚ events) as Hsorted.
  { rewrite Hperm. unfold nodes. rewrite list_omap_fmap_id; [done|]. intros e He. by apply by_id_Some. }
  exists (omap (λ id, by_id events !! id) out). split_and!; [|done|].
  - rewrite decide_False; [done|]. rewrite (Permutation_length Hsorted). lia.
  - intros l1 e l2 r Heq Hr Hrn.
    assert (ID <$> omap (λ id, by_id events !! id) out = out) as Hids.
    { apply fmap_ID_omap. intros id Hid. rewrite Hperm in Hid. apply list_elem_of_fmap in Hid as (e' & -> & He').
      exists e'. split; [by apply by_id_Some|done]. }
    rewrite Heq, fmap_app, fmap_cons in Hids.
    assert (e ∈ events) as He by (rewrite <- Hsorted, Heq; set_solver).
    eapply (kahn_parents _ _ _ _ _ _ Hk); [symmetry; exact Hids|exact Hrn|].
    apply occ_pos. rewrite topo_kids_occ by done. apply occ_pos, known_refs_nodes. done.
Qed.
End toposort.

Section load.
Context {lib : JsonLib} {ed : Ed25519} {St : Type} `{!Persistence St Event} `{!PersistenceLaws St Event ID}.
Implicit Types (d : DAG St) (e : Event).

(** The graph is determined by its events. *)
Lemma dag_inv_determined d d' :
  dag_inv d → dag_inv d' → dag_events d' = dag_events d →
  dag_children d' = dag_children d ∧ dag_tips d' = dag_tips d.
Proof.
  intros Hinv Hinv' He. split.
  - apply map_eq. intros p.
    assert (is_Some (dag_children d' !! p) ↔ is_Some (dag_children d !! p)) as Hdom.
    { rewrite <- !elem_of_dom, (inv_children_dom d Hinv), (inv_children_dom d' Hinv'), He. done. }
    pose proof (λ c, inv_children d Hinv p c) as Hc. pose proof (λ c, inv_children d' Hinv' p c) as Hc'.
    rewrite He in Hc'. destruct (dag_children d !! p) as [s|], (dag_children d' !! p) as [s'|]; [| | |done].
    + f_equal. apply set_eq. intros c. etrans; [exact (Hc' c)|]. symmetry. exact (Hc c).
    + destruct Hdom as [_ [? ?]]; [by eexists|done].
    + destruct Hdom as [[? ?] _]; [by eexists|done].
  - apply set_eq. intros p. by rewrite (inv_tips d' Hinv'), (inv_tips d Hinv), He.
Qed.

(** What the replay checks of an event. *)
Definition stored_ok e : Prop := ComputeID e = Some (ID e) ∧ (Signature e = [] ∨ VerifyEvent e = true).

Lemma addFromStore_ok d e :
  stored_ok e → dag_events d !! ID e = None → (∀ r, r ∈ CausalRefs e → is_Some (dag_events d !! r)) →
  dag_addFromStore e d = (dag_commit e true (insert_event e d), None).
Proof.
  intros [Hid Hsig] Hn Hr. unfold dag_addFromStore. rewrite decide_False by (rewrite Hn; by intros [? ?]).
  rewrite Hid. rewrite decide_False by (by intros ?). rewrite decide_False.
  - by rewrite (proj2 (missing_ref_None d e)).
  - intros [Hl Hv]. destruct Hsig as [Hs|Hs]; [by rewrite Hs in Hl|congruence].
Qed.

Lemma replay_ok l d :
  dag_inv d → dag_onCommit d = false → Forall stored_ok l → NoDup (ID <$> l) →
  (∀ e, e ∈ l → dag_events d !! ID e = None) →
  (∀ l1 e l2 r, l = l1 ++ e :: l2 → r ∈ CausalRefs e → is_Some (dag_events d !! r) ∨ r ∈ ID <$> l1) →
  ∃ d', replay_events l d = inr d' ∧ dag_inv d' ∧ dag_events d' = foldl (λ m e, <[ID e := e]> m) (dag_events d) l
    ∧ dag_store d' = dag_store d ∧ dag_commits d' = dag_commits d.
Proof.
  revert d. induction l as [|e l IH]; intros d Hinv Hhook Hok Hnd Hnew Hrefs; cbn [replay_events].
  { exists d. done. }
  apply Forall_cons in Hok as [He Hok]. rewrite fmap_cons in Hnd. apply NoDup_cons in Hnd as [Hid Hnd].
  assert (∀ r, r ∈ CausalRefs e → is_Some (dag_events d !! r)) as Hr.
  { intros r Hr. destruct (Hrefs [] e l r eq_refl Hr) as [|Hr']; [done|by apply elem_of_nil in Hr']. }
  pose proof (Hnew e (list_elem_of_here _ _)) as Hne.
  rewrite (addFromStore_ok d e He Hne Hr).
  destruct (IH (dag_commit e true (insert_event e d))) as (d' & -> & Hinv' & Hev & Hst & Hcm).
  - by apply (dag_inv_ext (insert_event e d)); [..|apply insert_event_inv].
  - done.
  - done.
  - done.
  - intros e' He'. cbn [dag_events dag_commit insert_event]. rewrite lookup_insert_ne.
    + by apply Hnew, list_elem_of_further.
    + intros Heq. apply Hid. rewrite Heq. by apply list_elem_of_fmap_2.
  - intros l1 e' l2 r -> Hr'. cbn [dag_events dag_commit insert_event]. rewrite lookup_insert_is_Some'.
    destruct (Hrefs (e :: l1) e' l2 r eq_refl Hr') as [|[->|]%elem_of_cons]; [by auto|by auto|by auto].
  - exists d'. split_and!; [done..|]. rewrite Hcm. cbn [dag_commits dag_commit insert_event dag_onCommit]. by rewrite Hhook.
Qed.

(** A stored event whose ID is not its content hash stops the replay. *)
Lemma replay_forged l d e :
  NoDup (ID <$> l) → (∀ e', e' ∈ l → dag_events d !! ID e' = None) → e ∈ l → ComputeID e ≠ Some (ID e) →
  ∃ err, replay_events l d = inl err.
Proof.
  revert d. induction l as [|e' l IH]; intros d Hnd Hnew He Hid; [by apply elem_of_nil in He|]. cbn [replay_events].
  rewrite fmap_cons in Hnd. apply NoDup_cons in Hnd as [Hne Hnd].
  pose proof (Hnew e' (list_elem_of_here _ _)) as Hn.
  apply elem_of_cons in He as [<-|He].
  - unfold dag_addFromStore. rewrite decide_False by (rewrite Hn; by intros [? ?]).
    destruct (ComputeID e) as [id|]; [|by eexists]. rewrite decide_True by congruence. by eexists.
  - assert (∀ e'', e'' ∈ l → dag_events d !! ID e'' = None) as Hnew'
      by (intros e'' He''; by apply Hnew, list_elem_of_further).
    destruct (dag_addFromStore_cases e' d) as [[err ->]|[->|(_ & _ & _ & ->)]]; [by eexists|by apply IH|].
    apply IH; [done| |done..]. intros e'' He''. cbn [dag_events dag_commit insert_event].
    rewrite lookup_insert_ne; [by apply Hnew'|]. intros Heq. apply Hne. rewrite Heq. by apply list_elem_of_fmap_2.
Qed.

(** The stored events of a graph, in any order. *)
Lemma stored_NoDup d (l : list Event) :
  dag_inv d → l ≡ₚ (map_to_list (dag_events d)).*2 → NoDup (ID <$> l) ∧ ∀ e, e ∈ l ↔ dag_events d !! ID e = Some e.
Proof.
  intros Hinv Hp. assert (ID <$> l ≡ₚ (map_to_list (dag_events d)).*1) as Hids.
  { rewrite Hp, <- list_fmap_compose. rewrite (list_fmap_ext _ fst); [done|].
    intros i [id e] Hi. cbn. apply list_elem_of_lookup_2, elem_of_map_to_list in Hi. by rewrite (inv_id d Hinv _ _ Hi). }
  split; [rewrite Hids; apply NoDup_fst_map_to_list|]. intros e. rewrite Hp, list_elem_of_fmap. split.
  - intros ([id y] & -> & Hy%elem_of_map_to_list). cbn. by rewrite (inv_id d Hinv _ _ Hy).
  - intros Hx. exists (ID e, e). by rewrite elem_of_map_to_list.
Qed.

Lemma stored_sorted d l :
  dag_inv d → l ≡ₚ (map_to_list (dag_events d)).*2 →
  ∃ sorted, topoSort l = Some (sorted, []) ∧ sorted ≡ₚ l
    ∧ ∀ l1 e l2 r, sorted = l1 ++ e :: l2 → r ∈ CausalRefs e → r ∈ ID <$> l1.
Proof.
  intros Hinv Hp. destruct (stored_NoDup d l Hinv Hp) as [Hnd Hmem]. destruct (inv_acyclic d Hinv) as [rank Hrank].
  destruct (topoSort_spec l Hnd rank) as (sorted & Hs & Hperm & Hfirst).
  { intros e r He Hr. apply Hmem in He. by eapply Hrank. }
  exists sorted. split_and!; [done..|]. intros l1 e l2 r Heq Hr. eapply Hfirst; [exact Heq|exact Hr|].
  assert (e ∈ l) as He by (rewrite <- Hperm, Heq; set_solver). apply Hmem in He.
  destruct (inv_refs d Hinv _ _ _ He Hr) as [p Hpr]. apply list_elem_of_fmap. exists p.
  pose proof (inv_id d Hinv _ _ Hpr) as Hpid. split; [done|]. apply Hmem. by rewrite Hpid.
Qed.

Lemma load_restores s d l :
  dag_inv d → store_all s = Some l → store_view s = dag_events d →
  (∀ id e, dag_events d !! id = Some e → stored_ok e) →
  ∃ d', dag_LoadFromStore s = Some (inr d')
    ∧ dag_events d' = dag_events d ∧ dag_children d' = dag_children d ∧ dag_tips d' = dag_tips d
    ∧ dag_store d' = Some s ∧ dag_commits d' = [].
Proof.
  intros Hinv Hall Hview Hok. pose proof (store_all_view _ _ Hall) as Hp. rewrite Hview in Hp.
  destruct (stored_sorted d l Hinv Hp) as (sorted & Hs & Hperm & Hfirst).
  assert (sorted ≡ₚ (map_to_list (dag_events d)).*2) as Hps by (by rewrite Hperm).
  destruct (stored_NoDup d sorted Hinv Hps) as [Hnd Hmem].
  destruct (replay_ok sorted (dag_SetStore s dag_New)) as (d' & Hr & Hinv' & Hev & Hst & Hcm).
  - apply (dag_inv_ext dag_New); [done..|apply dag_New_inv].
  - done.
  - apply Forall_forall. intros e He. apply Hmem in He. by eapply Hok.
  - done.
  - intros e _. apply lookup_empty.
  - intros l1 e l2 r Heq Hin. right. by eapply Hfirst.
  - exists d'. assert (dag_events d' = dag_events d) as He.
    { rewrite Hev. apply (load_all_view ID); [apply (inv_id d Hinv)|done]. }
    destruct (dag_inv_determined d d' Hinv Hinv' He) as [Hch Ht].
    split_and!; [|done..]. unfold dag_LoadFromStore. rewrite Hall, Hs. cbn. by rewrite Hr.
Qed.

Lemma load_fails s d l id e :
  dag_inv d → store_all s = Some l → store_view s = dag_events d →
  dag_events d !! id = Some e → ComputeID e ≠ Some (ID e) →
  ∃ err, dag_LoadFromStore s = Some (inl err).
Proof.
  intros Hinv Hall Hview He Hid. pose proof (store_all_view _ _ Hall) as Hp. rewrite Hview in Hp.
  destruct (stored_sorted d l Hinv Hp) as (sorted & Hs & Hperm & _).
  assert (sorted ≡ₚ (map_to_list (dag_events d)).*2) as Hps by (by rewrite Hperm).
  destruct (stored_NoDup d sorted Hinv Hps) as [Hnd Hmem].
  destruct (replay_forged sorted (dag_SetStore s dag_New) e) as [err Herr]; [done| | |done|].
  - intros e' _. apply lookup_empty.
  - apply Hmem. by rewrite (inv_id d Hinv _ _ He).
  - exists err. unfold dag_LoadFromStore. rewrite Hall, Hs. cbn. by rewrite Herr.
Qed.

(** A node's life between two starts: events are added one by one to a graph
    with an empty store. *)
Definition dag_run (s : St) (es : list Event) : DAG St :=
  foldl (λ d e, (dag_Add e d).1) (dag_SetStore s dag_New) es.

Context (Hput : ∀ e (s : St), (store_put e s).2 = true).

Lemma dag_run_inv s es :
  store_view s = ∅ →
  dag_inv (dag_run s es) ∧ ∃ s', dag_store (dag_run s es) = Some s' ∧ store_view s' = dag_events (dag_run s es)
    ∧ ∀ id e, dag_events (dag_run s es) !! id = Some e → VerifyEvent e = true.
Proof using Hput.
  intros Hempty. unfold dag_run. induction es as [|e es IH] using rev_ind.
  { split; [apply (dag_inv_ext dag_New); [done..|apply dag_New_inv]|]. exists s. split_and!; [done|done|].
    intros id e He. exfalso. exact (lookup_empty_Some id e He). }
  rewrite foldl_snoc. set (d := foldl _ _ es) in *. destruct IH as [Hinv (s' & Hs & Hview & Hv)].
  split; [by apply dag_Add_inv|]. destruct (dag_Add e d) as [d' [err|]] eqn:Ha.
  - apply dag_Add_error in Ha as ->. by exists s'.
  - apply dag_Add_ok in Ha as (Hn & Hr & Hve & ->). destruct (store_put e s') as [s'' ok] eqn:Hp.
    pose proof (Hput e s') as Hok. rewrite Hp in Hok. cbn in Hok. subst ok.
    exists s''. cbn [dag_store dag_commit dag_persist insert_event dag_events fst]. rewrite Hs. cbn [write_through]. rewrite Hp.
    split_and!; [done| |].
    + rewrite (store_put_ok _ _ _ Hp). by rewrite Hview.
    + intros id e' [[<- <-]|[_ Hl]]%lookup_insert_Some; [done|by eapply Hv].
Qed.

(** Restart.  Whatever was submitted, loading the store after the run restores the events, the children and the
    frontier if every accepted event's ID is its content hash, and it fails, so that the node does not start, as soon
    as one accepted event's ID is not: [Add] does not compare them.  The replay calls no hook. *)
Theorem dag_restart s es :
  let d := dag_run s es in
  store_view s = ∅ → (∀ s', store_all s' ≠ None) →
  ∃ s', dag_store d = Some s' ∧
    ((∀ id e, dag_events d !! id = Some e → ComputeID e = Some (ID e)) →
     ∃ d', dag_LoadFromStore s' = Some (inr d')
       ∧ dag_events d' = dag_events d ∧ dag_children d' = dag_children d ∧ dag_tips d' = dag_tips d
       ∧ dag_store d' = Some s' ∧ dag_commits d' = [])
    ∧ ((∃ id e, dag_events d !! id = Some e ∧ ComputeID e ≠ Some (ID e)) →
       ∃ err, dag_LoadFromStore s' = Some (inl err)).
Proof using Hput.
  intros d Hempty Hall. destruct (dag_run_inv s es Hempty) as [Hinv (s' & Hs & Hview & Hv)]. fold d in Hinv, Hs, Hview, Hv.
  exists s'. split; [done|]. destruct (store_all s') as [l|] eqn:Hl; [|by destruct (Hall s')]. split.
  - intros Hid. eapply load_restores; [done..|]. intros id e He. split; [by eapply Hid|right; by eapply Hv].
  - intros (id & e & He & Hid). by eapply load_fails.
Qed.
End load.

(** * Refinement

    The contract of the package: a set of events closed under references, from which
    the frontier and the forward edges are computed when asked for. *)

Section refinement.
Context {lib : JsonLib} {ed : Ed25519} {St : Type} `{!Persistence St Event}.
Implicit Types (A : gmap EventID Event).

Definition spec_Add (e : Event) A : gmap EventID Event * option DagError :=
  if decide (is_Some (A !! ID e)) then (A, Some (ErrDuplicateEvent (ID e)))
  else match List.find (λ r, bool_decide (A !! r = None)) (CausalRefs e) with
  | Some r => (A, Some (ErrMissingCausalRef r (ID e)))
  | None =>
      if decide (Signature e = []) then (A, Some (ErrMissingSignature (ID e)))
      else if VerifyEvent e then (<[ID e := e]> A, None)
      else (A, Some (ErrInvalidSignature (ID e)))
  end.

Definition spec_referenced A : gset EventID :=
  map_fold (λ _ e acc, list_to_set (CausalRefs e) ∪ acc) ∅ A.

Definition spec_tips A : gset EventID := dom A ∖ spec_referenced A.

Definition spec_children (p : EventID) A : gset EventID := dom (filter (λ kv : EventID * Event, p ∈ CausalRefs kv.2) A).

(** The answers to a sequence of submissions. *)
Fixpoint spec_run (es : list Event) A : gmap EventID Event * list (option DagError) :=
  match es with
  | [] => (A, [])
  | e :: es' =>
      let '(A1, r) := spec_Add e A in
      let '(A2, rs) := spec_run es' A1 in (A2, r :: rs)
  end.

Fixpoint dag_answers (es : list Event) (d : DAG St) : DAG St * list (option DagError) :=
  match es with
  | [] => (d, [])
  | e :: es' =>
      let '(d1, r) := dag_Add e d in
      let '(d2, rs) := dag_answers es' d1 in (d2, r :: rs)
  end.

Lemma elem_of_referenced A p : p ∈ spec_referenced A ↔ ∃ c e, A !! c = Some e ∧ p ∈ CausalRefs e.
Proof.
  unfold spec_referenced. induction A as [|c e A Hc IH] using map_ind.
  - rewrite map_fold_empty. setoid_rewrite lookup_empty. set_solver.
  - rewrite map_fold_insert_L; [|set_solver|done]. rewrite elem_of_union, elem_of_list_to_set, IH.
    setoid_rewrite lookup_insert_Some. split.
    + intros [Hp|(c' & e' & Hl & Hp)]; [exists c, e; by split; [left|]|].
      exists c', e'. split; [right|done]. split; [congruence|done].
    + intros (c' & e' & [[<- <-]|[_ Hl]] & Hp); [by left|right; eauto].
Qed.

Lemma dag_inv_views (d : DAG St) p :
  dag_inv d →
  dag_tips d = spec_tips (dag_events d) ∧ default ∅ (dag_children d !! p) = spec_children p (dag_events d).
Proof.
  intros Hinv. split; apply set_eq; intros c.
  - unfold spec_tips. rewrite (inv_tips d Hinv), elem_of_difference, elem_of_dom, elem_of_referenced. naive_solver.
  - unfold spec_children. rewrite (inv_children d Hinv), elem_of_dom. unfold is_Some.
    setoid_rewrite map_lookup_filter_Some. done.
Qed.

Lemma dag_Add_simulates e (d : DAG St) :
  dag_events (dag_Add e d).1 = (spec_Add e (dag_events d)).1 ∧ (dag_Add e d).2 = (spec_Add e (dag_events d)).2.
Proof.
  unfold dag_Add, spec_Add, missing_ref. case_decide; [done|].
  destruct (List.find _ _); [done|]. destruct (Signature e) as [|b bs] eqn:Hs; [done|].
  rewrite decide_False by done. rewrite decide_False by done. by destruct (VerifyEvent e).
Qed.

(** The graph refines its specification.  Over any sequence of submissions the code gives the answers of the
    specification, which keeps only the set of events, error for error, and the children and the frontier it
    maintains step by step are the ones the specification computes from that set. *)
Theorem dag_refines_spec es :
  let '(d, answers) := dag_answers es dag_New in
  let '(A, spec_answers) := spec_run es ∅ in
  answers = spec_answers ∧ dag_events d = A ∧ dag_tips d = spec_tips A
  ∧ ∀ p, default ∅ (dag_children d !! p) = spec_children p A.
Proof.
  assert (∀ d0, dag_inv d0 → (dag_answers es d0).2 = (spec_run es (dag_events d0)).2
    ∧ dag_events (dag_answers es d0).1 = (spec_run es (dag_events d0)).1 ∧ dag_inv (dag_answers es d0).1) as Hsim.
  { induction es as [|e es IH]; intros d0 Hinv; [done|]. cbn [dag_answers spec_run].
    pose proof (dag_Add_simulates e d0) as [He Hr]. pose proof (dag_Add_inv e d0 Hinv) as Hinv1.
    destruct (dag_Add e d0) as [d1 r], (spec_Add e (dag_events d0)) as [A1 r']. cbn [fst snd] in *. subst A1 r'.
    specialize (IH d1 Hinv1). destruct (dag_answers es d1) as [d2 rs], (spec_run es (dag_events d1)) as [A2 rs'].
    cbn [fst snd] in *. destruct IH as (-> & He2 & Hinv2). done. }
  specialize (Hsim dag_New dag_New_inv). change (dag_events dag_New) with (∅ : gmap EventID Event) in Hsim.
  destruct (dag_answers es dag_New) as [d answers], (spec_run es ∅) as [A spec_answers]. cbn [fst snd] in *.
  destruct Hsim as (-> & <- & Hinv). split_and!; [done|done|by apply (dag_inv_views d "")|].
  intros p. by apply dag_inv_views.
Qed.
End refinement.

(** * Views of the frontier *)

Section views.
Context {St : Type} {order : RangeOrder}.
Implicit Types (d : DAG St).

(** A graph with events has parents to offer to the next event. *)
Lemma PrimaryTips_nonempty d :
  dag_inv d → dag_events d ≠ ∅ → dag_PrimaryTips d ≠ [] ∧ dag_PrimaryTips d ⊆ dag_Tips d.
Proof.
  intros Hinv Hne. destruct (map_choose (dag_events d) Hne) as (id & e & He).
  destruct (reaches_tip d id Hinv ltac:(eauto)) as (t & Ht & _).
  assert (size (dag_tips d) ≠ 0%nat) as Hsize by (intros Hz; apply size_empty_inv in Hz; set_solver).
  unfold dag_PrimaryTips, dag_Tips. cbv zeta. case_decide as Hd.
  - split; [|done]. intros Hnil. assert (t ∈ range_set (dag_tips d)) as Hin by (by apply elem_of_range_set).
    rewrite Hnil in Hin. by apply elem_of_nil in Hin.
  - split.
    + intros Hnil. apply Hd. rewrite Hnil. split; [done|lia].
    + intros x. rewrite list_elem_of_filter. tauto.
Qed.

(** The newest events at or after [minTimestamp], oldest first, at most
    [maxCount] of them. *)
Lemma RecentEvents_spec d minTimestamp maxCount l :
  dag_RecentEvents minTimestamp maxCount d = Some l →
  Z.of_nat (length l) <= Z.max 0 maxCount
  ∧ ∃ older, older ++ l ≡ₚ filter (λ e, minTimestamp <= CausalTimestamp e) (dag_All d)
      ∧ ∀ a b, a ∈ older → b ∈ l → CausalTimestamp a <= CausalTimestamp b.
Proof.
  unfold dag_RecentEvents. cbv zeta. set (all := filter _ (dag_All d)).
  assert (StronglySorted timestamp_le (sort_slice timestamp_le all)) as Hs.
  { apply sort_slice_sorted.
    - intros a b c. unfold timestamp_le. lia.
    - intros a b. unfold timestamp_le. lia. }
  pose proof (sort_slice_perm timestamp_le all) as Hp. remember (sort_slice timestamp_le all) as s eqn:Heq. clear Heq.
  case_decide; [case_decide; [done|]|]; intros [= <-].
  - split; [rewrite length_drop; lia|]. exists (take (Z.to_nat (Z.of_nat (length s) - maxCount)) s).
    rewrite take_drop. split; [done|]. intros a b Ha Hb.
    rewrite <- (take_drop (Z.to_nat (Z.of_nat (length s) - maxCount)) s) in Hs.
    by apply (StronglySorted_app_1_elem_of _ _ _ a b) in Hs.
  - split; [lia|]. exists []. split; [done|]. by intros a b ?%elem_of_nil.
Qed.

Lemma MaxTimestamp_spec d e : e ∈ dag_All d → CausalTimestamp e <= dag_MaxTimestamp d.
Proof.
  unfold dag_MaxTimestamp. generalize 0 as m. induction (dag_All d) as [|x l IH]; intros m He; [by apply elem_of_nil in He|].
  assert (∀ l m, m <= foldl (λ m e, if decide (CausalTimestamp e > m) then CausalTimestamp e else m) m l) as Hge.
  { clear. intros l. induction l as [|x l IH]; intros m; simpl; [lia|]. etrans; [|apply IH]. case_decide; lia. }
  apply elem_of_cons in He as [->|He]; simpl; [|by apply IH]. etrans; [|apply Hge]. case_decide; lia.
Qed.
End views.

(** * Concrete graphs *)

#[local] Existing Instance sample_lib.
#[local] Existing Instance sample_ed.
#[local] Instance event_store : Persistence (KeyedStore ID) Event := ks_persistence ID.

(** An event signed by [sample_pair]. *)
Definition signed (id : EventID) (refs : list EventID) (ts : Z) : Event :=
  let e := mkEvent id "Transfer" (Some refs) (Some "{}") (hex_encode sample_key) [] ts 0 SettlementOptimistic in
  default e (SignEvent e sample_pair).

(** The same, with the ID the code computes. *)
Definition addressed (refs : list EventID) (ts : Z) : Event :=
  signed (default "" (ComputeID (signed "" refs ts))) refs ts.

Definition root_event : Event := Eval vm_compute in addressed [] 1.
Definition child_event : Event := Eval vm_compute in addressed [ID root_event] 2.
Definition forged_event : Event := Eval vm_compute in signed "forged" [ID root_event] 2.
Definition doubled_event : Event := Eval vm_compute in addressed [ID root_event; ID root_event] 2.
Definition early_event : Event := Eval vm_compute in addressed [ID root_event] 0.

(** The graph after adding [es]. *)
Definition graph (es : list Event) : DAG (KeyedStore ID) := dag_run (ks_empty ID) es.

Lemma graph_reach es : dag_reach (graph es).
Proof.
  unfold graph, dag_run. induction es as [|e es IH] using rev_ind; [repeat constructor|].
  rewrite foldl_snoc. by apply reach_Add.
Qed.

Lemma dag_graph_invariant_witness :
  dag_reach (graph [root_event; child_event]) ∧ ¬ tc (parent (graph [root_event; child_event])) (ID root_event) (ID root_event).
Proof.
  split; [apply graph_reach|]. apply (dag_graph_invariant (graph [root_event; child_event])). apply graph_reach.
Defined.

Lemma dag_ancestors_spec_witness :
  ∃ v, dag_IsAncestor (ID root_event) (ID child_event) (graph [root_event; child_event]) = Some (inr v)
    ∧ (v = true ↔ tc (parent (graph [root_event; child_event])) (ID root_event) (ID child_event)).
Proof.
  apply (dag_ancestors_spec (graph [root_event; child_event])).
  - apply graph_reach.
  - vm_compute. eexists. reflexivity.
  - vm_compute. eexists. reflexivity.
Defined.

Example ancestors_of_child :
  dag_Ancestors (ID child_event) (graph [root_event; child_event]) = Some (inr [ID root_event])
  ∧ dag_IsAncestor (ID root_event) (ID child_event) (graph [root_event; child_event]) = Some (inr true).
Proof. by vm_compute. Qed.

(** A duplicated reference is accepted and breaks the sort of the whole graph. *)
Lemma dag_TopologicalSort_spec_witness :
  dag_TopologicalSort (graph [root_event; doubled_event]) = Some (inl ErrCycle)
  ∧ ∃ r, dag_TopologicalSort (graph [root_event; doubled_event]) = Some r ∧
    match r with
    | inl err => err = ErrCycle ∧ ∃ id e, dag_events (graph [root_event; doubled_event]) !! id = Some e ∧ ¬ NoDup (CausalRefs e)
    | inr l =>
        (∀ id e, dag_events (graph [root_event; doubled_event]) !! id = Some e → NoDup (CausalRefs e))
        ∧ l ≡ₚ (map_to_list (dag_events (graph [root_event; doubled_event]))).*2 ∧ StronglySorted topo_le l
        ∧ (lamport (graph [root_event; doubled_event]) →
           ∀ l1 e l2 r, l = l1 ++ e :: l2 → r ∈ CausalRefs e → ∃ p, p ∈ l1 ∧ ID p = r)
    end.
Proof.
  split; [vm_compute; reflexivity|].
  apply (dag_TopologicalSort_spec (graph [root_event; doubled_event])). apply graph_reach.
Defined.

(** [Add] does not compare timestamps: an event with an earlier timestamp than
    its reference is accepted and sorted before it. *)
Lemma dag_sort_against_causality :
  dag_TopologicalSort (graph [root_event; early_event]) = Some (inr [early_event; root_event])
  ∧ CausalRefs early_event = [ID root_event].
Proof. by vm_compute. Qed.

Lemma dag_restart_witness :
  (∃ s' d', dag_store (graph [root_event; child_event]) = Some s' ∧ dag_LoadFromStore s' = Some (inr d')
     ∧ dag_events d' = dag_events (graph [root_event; child_event]))
  ∧ (∃ s' err, dag_store (graph [root_event; forged_event]) = Some s' ∧ dag_LoadFromStore s' = Some (inl err)).
Proof.
  assert (∀ e (s : KeyedStore ID), (store_put e s).2 = true) as Hput by reflexivity.
  assert (∀ s' : KeyedStore ID, store_all s' ≠ None) as Hall by (intros s'; discriminate).
  assert (store_view (key := ID) (ks_empty ID) = ∅) as Hempty by reflexivity.
  split.
  - destruct (dag_restart Hput (ks_empty ID) [root_event; child_event] Hempty Hall) as (s' & Hs & Hok & _).
    destruct Hok as (d' & Hd & He & _).
    + enough (map_Forall (λ _ e, ComputeID e = Some (ID e)) (dag_events (graph [root_event; child_event]))) as Hm by exact Hm.
      apply (bool_decide_unpack _). vm_compute. exact I.
    + exists s', d'. split; [exact Hs|]. split; [exact Hd|exact He].
  - destruct (dag_restart Hput (ks_empty ID) [root_event; forged_event] Hempty Hall) as (s' & Hs & _ & Hbad).
    destruct Hbad as [err Herr].
    + exists "forged", forged_event. split; [vm_compute; reflexivity|]. vm_compute. discriminate.
    + exists s', err. split; [exact Hs|exact Herr].
Defined.
