(* ===== verification/Dispatch.v ===== *)
(** internal/dispatch: the canonical event dispatcher, its admission records,
    prerequisites and deferrals.

    The dispatcher reads the graph of [Dag] and keeps its records in a store,
    the class [AdmissionStore].  A consumer is a record of functions; [Apply] and
    [RecoveryProbe] act on the world [W], which holds whatever consumers change.
    [disp_calls] lists the calls of [Apply] the dispatcher made. *)

From stdpp Require Import sets fin_sets fin_map_dom.
From S2P Require Import Prelude GoStd Store Event Jcs Graph Dag.

(** * types.go, consumer.go *)

Inductive AdmissionState :=
  | StateAbsent
  | StateReservedPendingPrereqs
  | StateProcessing
  | StateApplied
  | StateFailedRetryable.

#[global] Instance AdmissionState_eq_dec : EqDecision AdmissionState.
Proof. solve_decision. Defined.

Inductive PerConsumerStatus := ConsumerPending | ConsumerApplied | ConsumerFailedRetryable.

#[global] Instance PerConsumerStatus_eq_dec : EqDecision PerConsumerStatus.
Proof. solve_decision. Defined.

(** [ConsumerType] is an integer; only the four constants are valid. *)
Inductive ConsumerType := TypeA | TypeB | TypeC | TypeD | TypeOther (n : Z).

Inductive RecoveryStatus := RecoveryNotStarted | RecoveryCompleted.

Record AdmissionRecord := mkAdmission {
  rec_Key : string;
  rec_State : AdmissionState;
  rec_DAGAnchor : EventID;
  rec_SchemaVersion : Z;
  rec_Consumers : gmap string PerConsumerStatus;
  rec_EventID : EventID;
  rec_EventType : string;
  rec_CreatedAtEpoch : Z;
  rec_MissingPrerequisites : list EventID;
  rec_EvidenceEmitted : bool;
}.

Definition set_State (s : AdmissionState) (r : AdmissionRecord) : AdmissionRecord :=
  mkAdmission (rec_Key r) s (rec_DAGAnchor r) (rec_SchemaVersion r) (rec_Consumers r) (rec_EventID r)
    (rec_EventType r) (rec_CreatedAtEpoch r) (rec_MissingPrerequisites r) (rec_EvidenceEmitted r).

Definition set_Consumers (m : gmap string PerConsumerStatus) (r : AdmissionRecord) : AdmissionRecord :=
  mkAdmission (rec_Key r) (rec_State r) (rec_DAGAnchor r) (rec_SchemaVersion r) m (rec_EventID r)
    (rec_EventType r) (rec_CreatedAtEpoch r) (rec_MissingPrerequisites r) (rec_EvidenceEmitted r).

Definition set_Missing (l : list EventID) (r : AdmissionRecord) : AdmissionRecord :=
  mkAdmission (rec_Key r) (rec_State r) (rec_DAGAnchor r) (rec_SchemaVersion r) (rec_Consumers r) (rec_EventID r)
    (rec_EventType r) (rec_CreatedAtEpoch r) l (rec_EvidenceEmitted r).

Definition set_EvidenceEmitted (b : bool) (r : AdmissionRecord) : AdmissionRecord :=
  mkAdmission (rec_Key r) (rec_State r) (rec_DAGAnchor r) (rec_SchemaVersion r) (rec_Consumers r) (rec_EventID r)
    (rec_EventType r) (rec_CreatedAtEpoch r) (rec_MissingPrerequisites r) b.

(** [computeTopLevelState]. *)
Definition computeTopLevelState (consumers : gmap string PerConsumerStatus) : AdmissionState :=
  let statuses := (map_to_list consumers).*2 in
  if decide (ConsumerFailedRetryable ∈ statuses) then StateFailedRetryable
  else if decide (ConsumerPending ∈ statuses) then StateProcessing
  else if decide (0 < length statuses)%nat then StateApplied
  else StateProcessing.

(** A consumer; [None] and [false] are errors, a panic of [Apply] included. *)
Record Consumer (W : Type) := mkConsumer {
  c_Name : string;
  c_Type : ConsumerType;
  c_Interested : Event → bool;
  c_Apply : Event → W → W * bool;
  c_RecoveryProbe : Event → W → option RecoveryStatus;
  c_Prerequisites : Event → list EventID;
  c_SchemaVersion : Z;
}.
#[global] Arguments mkConsumer {W}.
#[global] Arguments c_Name {W} _.
#[global] Arguments c_Type {W} _.
#[global] Arguments c_Interested {W} _.
#[global] Arguments c_Apply {W} _.
#[global] Arguments c_RecoveryProbe {W} _.
#[global] Arguments c_Prerequisites {W} _.
#[global] Arguments c_SchemaVersion {W} _.

Inductive AdmissionGet := AdmFound (r : AdmissionRecord) | AdmNotFound | AdmGetError.

(** [AdmissionStore]; the boolean is [err == nil]. *)
Class AdmissionStore (St : Type) : Type := {
  adm_get : string → St → AdmissionGet;
  adm_put : string → AdmissionRecord → St → St * bool;
  adm_all : St → option (list AdmissionRecord);
  adm_delete : string → St → St * bool;
}.

(** lukechampine.com/blake3, and the JSON encoding of the evidence payload. *)
Class DispatchLib : Type := {
  blake3_Sum256 : string → list Z;
  marshal_withholding : AdmissionRecord → Z → option string;
}.

Inductive DispatchError :=
  | ErrConsumerName
  | ErrConsumerType (name : string)
  | ErrAlreadyRegistered (name : string)
  | ErrAdmissionKey (id : EventID)
  | ErrCorruptedAdmissionState
  | ErrPrerequisiteForgery (pid id : EventID)
  | ErrGetAdmission (key : string)
  | ErrPutAdmission (key : string)
  | ErrAllAdmissions
  | ErrSchemaVersion (name key : string)
  | ErrDeferredTooLong (key : string)
  | ErrEventNotInDAG (id : EventID)
  | ErrRecoveryProbe (name : string) (id : EventID).

Record Dispatcher (St W : Type) := mkDispatcher {
  disp_consumers : gmap string (Consumer W);
  disp_store : St;
  disp_world : W;
  disp_emitter : option (Event → W → W * bool);
  disp_deferralIndex : gmap EventID (list string);
  disp_calls : list (string * string * bool);
}.
#[global] Arguments mkDispatcher {St W}.
#[global] Arguments disp_consumers {St W} _.
#[global] Arguments disp_store {St W} _.
#[global] Arguments disp_world {St W} _.
#[global] Arguments disp_emitter {St W} _.
#[global] Arguments disp_deferralIndex {St W} _.
#[global] Arguments disp_calls {St W} _.

(** * anchor.go *)

Section anchor.
Context {Sd : Type} {order : RangeOrder}.

(** [IsAncestor]; its traversal has enough fuel ([bfs_terminates]). *)
Definition is_ancestor (a b : EventID) (dag : DAG Sd) : DagError + bool :=
  default (inl ErrCycle) (dag_IsAncestor a b dag).

(** The loop of [VerifyAnchor]. *)
Fixpoint anchor_loop (storedAnchor : EventID) (tips : list EventID) (dag : DAG Sd) : bool :=
  match tips with
  | [] => false
  | tip :: tips' =>
      if decide (tip = storedAnchor) then true
      else match is_ancestor storedAnchor tip dag with
      | inr true => true
      | _ => anchor_loop storedAnchor tips' dag
      end
  end.

(** [VerifyAnchor]: [true] is nil, [false] is [ErrCorruptedAdmissionState]. *)
Definition VerifyAnchor (dag : DAG Sd) (storedAnchor : EventID) : bool :=
  if decide (storedAnchor = "") then true
  else if decide (length (dag_Tips dag) = 0%nat) then false
  else anchor_loop storedAnchor (dag_Tips dag) dag.

Definition currentAnchor (dag : DAG Sd) : EventID :=
  match dag_Tips dag with [] => "" | tip :: _ => tip end.
End anchor.

(** * keys.go *)

Definition admissionKeyFromBytes `{!DispatchLib} (b : string) : string := "dispatch:" +:+ hex_encode (blake3_Sum256 b).

Definition AdmissionKey `{!JsonLib, !DispatchLib} (ev : Event) : option string :=
  admissionKeyFromBytes <$> CanonicalBytes ev.

Section dispatch.
Context {lib : JsonLib} {dlib : DispatchLib} {order : RangeOrder}.
Context {Sd St W : Type} `{!AdmissionStore St}.
Implicit Types (d : Dispatcher St W) (dag : DAG Sd).

Definition NewDispatcher (s : St) (w : W) : Dispatcher St W := mkDispatcher ∅ s w None ∅ [].

Definition disp_SetEvidenceEmitter (fn : Event → W → W * bool) d : Dispatcher St W :=
  mkDispatcher (disp_consumers d) (disp_store d) (disp_world d) (Some fn) (disp_deferralIndex d) (disp_calls d).

Definition set_disp_store (s : St) d : Dispatcher St W :=
  mkDispatcher (disp_consumers d) s (disp_world d) (disp_emitter d) (disp_deferralIndex d) (disp_calls d).

Definition set_disp_world (w : W) d : Dispatcher St W :=
  mkDispatcher (disp_consumers d) (disp_store d) w (disp_emitter d) (disp_deferralIndex d) (disp_calls d).

Definition set_deferralIndex (m : gmap EventID (list string)) d : Dispatcher St W :=
  mkDispatcher (disp_consumers d) (disp_store d) (disp_world d) (disp_emitter d) m (disp_calls d).

(** * dispatcher.go: registration *)

Definition validateConsumer (c : Consumer W) : option DispatchError :=
  if decide (c_Name c = "") then Some ErrConsumerName
  else match c_Type c with TypeOther _ => Some (ErrConsumerType (c_Name c)) | _ => None end.

Definition disp_Register (c : Consumer W) d : Dispatcher St W * option DispatchError :=
  match validateConsumer c with
  | Some err => (d, Some err)
  | None =>
      if decide (is_Some (disp_consumers d !! c_Name c)) then (d, Some (ErrAlreadyRegistered (c_Name c)))
      else (mkDispatcher (<[c_Name c := c]> (disp_consumers d)) (disp_store d) (disp_world d) (disp_emitter d)
              (disp_deferralIndex d) (disp_calls d), None)
  end.

Definition disp_ConsumerCount d : nat := size (disp_consumers d).

(** [for _, c := range d.consumers]. *)
Definition all_consumers d : list (Consumer W) :=
  omap (λ n, disp_consumers d !! n) (range_set (dom (disp_consumers d))).

Definition snapshotInterestedConsumers (ev : Event) d : list (Consumer W) :=
  filter (λ c, c_Interested c ev = true) (all_consumers d).

(** * prerequisites.go *)

(** The loop over the prerequisite set: the missing ones, or the error. *)
Fixpoint prereq_loop dag (ev : Event) (pids missing : list EventID) : DispatchError + list EventID :=
  match pids with
  | [] => inr missing
  | pid :: pids' =>
      match is_ancestor pid (ID ev) dag with
      | inr true =>
          prereq_loop dag ev pids'
            (match dag_Get pid dag with inl _ => missing ++ [pid] | inr _ => missing end)
      | _ => inl (ErrPrerequisiteForgery pid (ID ev))
      end
  end.

Definition prereq_set (ev : Event) (consumers : list (Consumer W)) : gset EventID :=
  list_to_set (consumers ≫= λ c, c_Prerequisites c ev).

Definition checkPrerequisites dag (ev : Event) (consumers : list (Consumer W)) : DispatchError + list EventID :=
  prereq_loop dag ev (range_set (prereq_set ev consumers)) [].

(** * dispatcher.go: admission *)

Definition createReservation (epoch : Z) dag (key : string) (ev : Event) (consumers : list (Consumer W)) d :
    Dispatcher St W * (DispatchError + AdmissionRecord) :=
  let rec := mkAdmission key StateReservedPendingPrereqs (currentAnchor dag)
    (foldl (λ m c, if decide (c_SchemaVersion c > m) then c_SchemaVersion c else m) 0 consumers)
    (foldl (λ m c, <[c_Name c := ConsumerPending]> m) ∅ consumers)
    (ID ev) (Type_ ev) epoch [] false in
  let '(s, ok) := adm_put key rec (disp_store d) in
  (set_disp_store s d, if ok then inr rec else inl (ErrPutAdmission key)).

Definition reserveOrLoad (epoch : Z) dag (key : string) (ev : Event) (consumers : list (Consumer W)) d :
    Dispatcher St W * (DispatchError + AdmissionRecord) :=
  match adm_get key (disp_store d) with
  | AdmNotFound => createReservation epoch dag key ev consumers d
  | AdmGetError => (d, inl (ErrGetAdmission key))
  | AdmFound existing =>
      match rec_State existing with
      | StateFailedRetryable =>
          let existing' := set_State StateProcessing existing in
          let '(s, ok) := adm_put key existing' (disp_store d) in
          (set_disp_store s d, if ok then inr existing' else inl (ErrPutAdmission key))
      | _ => (d, inr existing)
      end
  end.

(** One iteration of the loop of [invokeConsumers]: the statuses, the
    dispatcher, and [changed]. *)
Definition invoke_one (ev : Event) (key : string) (acc : gmap string PerConsumerStatus * Dispatcher St W * bool)
    (name : string) : gmap string PerConsumerStatus * Dispatcher St W * bool :=
  let '(statuses, d, changed) := acc in
  match statuses !! name with
  | None | Some ConsumerApplied => acc
  | Some _ =>
      match disp_consumers d !! name with
      | None => acc
      | Some c =>
          let '(w, ok) := c_Apply c ev (disp_world d) in
          (<[name := if ok then ConsumerApplied else ConsumerFailedRetryable]> statuses,
           mkDispatcher (disp_consumers d) (disp_store d) w (disp_emitter d) (disp_deferralIndex d)
             (disp_calls d ++ [(key, name, ok)]),
           true)
      end
  end.

Definition invokeConsumers (ev : Event) (key : string) (rec : AdmissionRecord) d :
    Dispatcher St W * option DispatchError :=
  let '(statuses, d', changed) :=
    foldl (invoke_one ev key) (rec_Consumers rec, d, false) (range_set (dom (rec_Consumers rec))) in
  if changed : bool then
    let rec' := set_State (computeTopLevelState statuses) (set_Consumers statuses rec) in
    let '(s, ok) := adm_put key rec' (disp_store d') in
    (set_disp_store s d', if ok then None else Some (ErrPutAdmission key))
  else (d', None).

(** [addToDeferralIndex]. *)
Definition addToDeferralIndex (missing : list EventID) (admissionKey : string) d : Dispatcher St W :=
  set_deferralIndex
    (foldl (λ m pid, <[pid := default [] (m !! pid) ++ [admissionKey]]> m) (disp_deferralIndex d) missing) d.

(** [Admit] after the reservation. *)
Definition admit_run (ev : Event) (key : string) (rec : AdmissionRecord) (consumers : list (Consumer W)) dag d :
    Dispatcher St W * option DispatchError :=
  if decide (rec_State rec = StateApplied) then (d, None)
  else match checkPrerequisites dag ev consumers with
  | inl err => (set_disp_store (adm_delete key (disp_store d)).1 d, Some err)
  | inr ((_ :: _) as missing) =>
      let rec' := set_Missing missing (set_State StateReservedPendingPrereqs rec) in
      let '(s, ok) := adm_put key rec' (disp_store d) in
      let d' := set_disp_store s d in
      if ok : bool then (addToDeferralIndex missing key d', None) else (d', Some (ErrPutAdmission key))
  | inr [] =>
      if decide (rec_State rec = StateReservedPendingPrereqs) then
        let rec' := set_Missing [] (set_State StateProcessing rec) in
        let '(s, ok) := adm_put key rec' (disp_store d) in
        let d' := set_disp_store s d in
        if ok : bool then invokeConsumers ev key rec' d' else (d', Some (ErrPutAdmission key))
      else invokeConsumers ev key rec d
  end.

(** [Admit] up to and including the reservation; [inr None] has nothing to do. *)
Definition admit_reserve (epoch : Z) (ev : Event) dag d :
    Dispatcher St W * (DispatchError + option (string * AdmissionRecord * list (Consumer W))) :=
  match AdmissionKey ev with
  | None => (d, inl (ErrAdmissionKey (ID ev)))
  | Some key =>
      if negb (VerifyAnchor dag (currentAnchor dag)) then (d, inl ErrCorruptedAdmissionState)
      else match snapshotInterestedConsumers ev d with
      | [] => (d, inr None)
      | consumers =>
          let '(d', r) := reserveOrLoad epoch dag key ev consumers d in
          (d', match r with inl err => inl err | inr rec => inr (Some (key, rec, consumers)) end)
      end
  end.

Definition disp_Admit (epoch : Z) (ev : Event) dag d : Dispatcher St W * option DispatchError :=
  match admit_reserve epoch ev dag d with
  | (d', inl err) => (d', Some err)
  | (d', inr None) => (d', None)
  | (d', inr (Some (key, rec, consumers))) => admit_run ev key rec consumers dag d'
  end.

(** * deferral.go *)

Definition DeferralComplaintThreshold : Z := 30.
Definition DeferralFailoverThreshold : Z := 100.

Definition removeFromDeferralIndex (admissionKey : string) d : Dispatcher St W :=
  set_deferralIndex
    (omap (λ keys, match filter (λ k, k ≠ admissionKey) keys with [] => None | l => Some l end)
       (disp_deferralIndex d)) d.

Definition rebuildDeferralIndex (records : list AdmissionRecord) d : Dispatcher St W :=
  foldl (λ d rec, if decide (rec_State rec = StateReservedPendingPrereqs)
                  then addToDeferralIndex (rec_MissingPrerequisites rec) (rec_Key rec) d else d)
    (set_deferralIndex ∅ d) records.

(** The prerequisites that are not in the graph. *)
Definition still_missing dag (rec : AdmissionRecord) : list EventID :=
  filter (λ pid, dag_events dag !! pid = None) (rec_MissingPrerequisites rec).

Definition emitWithholdingEvidence (rec : AdmissionRecord) (currentEpoch : Z) d : Dispatcher St W :=
  match disp_emitter d with
  | None => d
  | Some emitter =>
      match New "PrerequisiteWithholding" None (ValuePayload (marshal_withholding rec currentEpoch)) "dispatcher" ∅ 0 with
      | None => d
      | Some ev =>
          let '(w, ok) := emitter ev (disp_world d) in
          let d' := set_disp_world w d in
          if ok : bool then set_disp_store (adm_put (rec_Key rec) (set_EvidenceEmitted true rec) (disp_store d')).1 d'
          else d'
      end
  end.

Definition checkDeferralThresholds (epoch : Z) (rec : AdmissionRecord) d : Dispatcher St W :=
  if decide (rec_CreatedAtEpoch rec > epoch) then d
  else if decide (epoch - rec_CreatedAtEpoch rec >= DeferralComplaintThreshold ∧ rec_EvidenceEmitted rec = false)
  then emitWithholdingEvidence rec epoch d else d.

(** One iteration of the loop of [NotifyProjection]. *)
Definition notify_one (epoch : Z) dag d (key : string) : Dispatcher St W :=
  match adm_get key (disp_store d) with
  | AdmFound rec =>
      if decide (rec_State rec ≠ StateReservedPendingPrereqs) then d
      else
        let missing := still_missing dag rec in
        let ready := bool_decide (missing = []) in
        let rec' := if ready then set_Missing [] (set_State StateProcessing rec) else set_Missing missing rec in
        let d1 := if ready then removeFromDeferralIndex key d else d in
        let '(s, ok) := adm_put key rec' (disp_store d1) in
        let d2 := set_disp_store s d1 in
        if ok : bool then
          if ready then match dag_Get (rec_EventID rec') dag with
                        | inl _ => d2
                        | inr ev => (invokeConsumers ev key rec' d2).1
                        end
          else checkDeferralThresholds epoch rec' d2
        else d2
  | _ => d
  end.

Definition disp_NotifyProjection (epoch : Z) (projectedEventID : EventID) dag d : Dispatcher St W :=
  foldl (notify_one epoch dag) d (default [] (disp_deferralIndex d !! projectedEventID)).

(** * Recovery *)

Fixpoint schema_loop (rec : AdmissionRecord) (names : list string) d : option DispatchError :=
  match names with
  | [] => None
  | name :: names' =>
      match rec_Consumers rec !! name, disp_consumers d !! name with
      | Some ConsumerApplied, _ | None, _ | _, None => schema_loop rec names' d
      | Some _, Some c =>
          if decide (rec_SchemaVersion rec ≠ c_SchemaVersion c) then Some (ErrSchemaVersion name (rec_Key rec))
          else schema_loop rec names' d
      end
  end.

Definition checkSchemaVersions (rec : AdmissionRecord) d : option DispatchError :=
  schema_loop rec (range_set (dom (rec_Consumers rec))) d.

(** The probes of the pending consumers. *)
Fixpoint probe_loop (ev : Event) (id : EventID) (names : list string) (statuses : gmap string PerConsumerStatus) d :
    DispatchError + gmap string PerConsumerStatus :=
  match names with
  | [] => inr statuses
  | name :: names' =>
      match statuses !! name, disp_consumers d !! name with
      | Some ConsumerPending, Some c =>
          match c_RecoveryProbe c ev (disp_world d) with
          | None => inl (ErrRecoveryProbe name id)
          | Some RecoveryCompleted => probe_loop ev id names' (<[name := ConsumerApplied]> statuses) d
          | Some RecoveryNotStarted => probe_loop ev id names' (<[name := ConsumerFailedRetryable]> statuses) d
          end
      | _, _ => probe_loop ev id names' statuses d
      end
  end.

(** The end of an iteration: the top-level state is recomputed and stored. *)
Definition recover_persist (rec : AdmissionRecord) d : Dispatcher St W * option DispatchError :=
  let rec' := set_State (computeTopLevelState (rec_Consumers rec)) rec in
  let '(s, ok) := adm_put (rec_Key rec) rec' (disp_store d) in
  (set_disp_store s d, if ok then None else Some (ErrPutAdmission (rec_Key rec))).

(** The case [StateProcessing]. *)
Definition recover_processing dag (rec : AdmissionRecord) d : Dispatcher St W * option DispatchError :=
  match dag_Get (rec_EventID rec) dag with
  | inl _ => (d, Some (ErrEventNotInDAG (rec_EventID rec)))
  | inr ev =>
      match probe_loop ev (rec_EventID rec) (range_set (dom (rec_Consumers rec))) (rec_Consumers rec) d with
      | inl err => (d, Some err)
      | inr statuses => recover_persist (set_Consumers statuses rec) d
      end
  end.

Definition recover_one (epoch : Z) dag (rec : AdmissionRecord) d : Dispatcher St W * option DispatchError :=
  match rec_State rec, checkSchemaVersions rec d with
  | StateApplied, _ => (d, None)
  | _, Some err => (d, Some err)
  | StateFailedRetryable, None => (d, None)
  | StateAbsent, None => recover_persist rec d
  | StateProcessing, None => recover_processing dag rec d
  | StateReservedPendingPrereqs, None =>
      match still_missing dag rec with
      | [] => recover_processing dag (set_Missing [] (set_State StateProcessing rec))
                (removeFromDeferralIndex (rec_Key rec) d)
      | missing =>
          if decide (rec_CreatedAtEpoch rec <= epoch ∧ epoch - rec_CreatedAtEpoch rec >= DeferralFailoverThreshold)
          then (d, Some (ErrDeferredTooLong (rec_Key rec)))
          else let '(s, ok) := adm_put (rec_Key rec) (set_Missing missing rec) (disp_store d) in
               (set_disp_store s d, if ok then None else Some (ErrPutAdmission (rec_Key rec)))
      end
  end.

Fixpoint recover_loop (epoch : Z) dag (records : list AdmissionRecord) d : Dispatcher St W * option DispatchError :=
  match records with
  | [] => (d, None)
  | rec :: records' =>
      match recover_one epoch dag rec d with
      | (d', Some err) => (d', Some err)
      | (d', None) => recover_loop epoch dag records' d'
      end
  end.

Definition disp_Recover (epoch : Z) dag d : Dispatcher St W * option DispatchError :=
  match adm_all (disp_store d) with
  | None => (d, Some ErrAllAdmissions)
  | Some records => recover_loop epoch dag records (rebuildDeferralIndex records d)
  end.
End dispatch.

(** * Anchors and prerequisites *)

Section anchors.
Context {Sd : Type} {order : RangeOrder} {lib : JsonLib} {ed : Ed25519} `{!Persistence Sd Event}.
Implicit Types (dag : DAG Sd).

Lemma tc_parent_events a b dag :
  dag_inv dag → tc (parent dag) a b → is_Some (dag_events dag !! a) ∧ is_Some (dag_events dag !! b).
Proof.
  intros Hinv Htc. assert (∀ x y, parent dag x y → is_Some (dag_events dag !! x) ∧ is_Some (dag_events dag !! y)) as Hp.
  { intros x y (e & He & Hx). split; [by eapply (inv_refs dag Hinv)|by eexists]. }
  induction Htc as [x y Hxy|x y z Hxy _ IH]; [by apply Hp|]. destruct IH as [_ Hz]. split; [|done]. by apply (Hp x y).
Qed.

Lemma is_ancestor_spec a b dag : dag_inv dag → (is_ancestor a b dag = inr true ↔ tc (parent dag) a b).
Proof.
  intros Hinv. unfold is_ancestor. pose proof (tc_parent_events a b dag Hinv) as Hin.
  destruct (decide (is_Some (dag_events dag !! a) ∧ is_Some (dag_events dag !! b))) as [[Ha Hb]|Hab].
  - destruct (dag_IsAncestor_total a b dag Hinv Ha Hb) as (v & -> & Hv). simpl. rewrite <- Hv. split; [by intros [= ->]|by intros ->].
  - destruct (dag_IsAncestor_absent a b dag) as [err ->].
    { destruct (dag_events dag !! a), (dag_events dag !! b); [|by auto..]. exfalso. apply Hab. split; by eexists. }
    simpl. split; [done|]. by intros ?%Hin.
Qed.

Lemma anchor_loop_spec a tips dag :
  anchor_loop a tips dag = true ↔ ∃ t, t ∈ tips ∧ (t = a ∨ is_ancestor a t dag = inr true).
Proof.
  induction tips as [|t tips IH]; cbn [anchor_loop]; [split; [done|by intros (? & ?%elem_of_nil & _)]|].
  case_decide as Ht; [split; [intros _; exists t; split; [apply list_elem_of_here|by left]|done]|].
  assert (is_ancestor a t dag = inr true ∨ is_ancestor a t dag ≠ inr true) as [Ha|Ha].
  { destruct (is_ancestor a t dag) as [|[]]; [by right|by left|by right]. }
  - rewrite Ha. split; [|done]. intros _. exists t. split; [apply list_elem_of_here|by right].
  - assert ((match is_ancestor a t dag with inr true => true | _ => anchor_loop a tips dag end) = anchor_loop a tips dag)
      as -> by (by destruct (is_ancestor a t dag) as [|[]]).
    rewrite IH. split; intros (t' & Hin & H).
    + exists t'. split; [by apply list_elem_of_further|done].
    + apply elem_of_cons in Hin as [->|Hin]; [by destruct H|]. by exists t'.
Qed.

Lemma elem_of_Tips t dag : t ∈ dag_Tips dag ↔ t ∈ dag_tips dag.
Proof. unfold dag_Tips. apply elem_of_range_set. Qed.

Lemma currentAnchor_accepted dag : VerifyAnchor dag (currentAnchor dag) = true.
Proof.
  unfold VerifyAnchor, currentAnchor. destruct (dag_Tips dag) as [|t tips] eqn:Ht; [done|].
  case_decide; [done|]. rewrite decide_False by done. cbn [anchor_loop]. by rewrite decide_True.
Qed.

(** The anchor check.  [VerifyAnchor] accepts exactly the empty anchor and the events of the graph, since every
    event leads to the frontier; so a stored anchor that the graph has lost would be found.  The check that [Admit] makes
    is on the first current tip, and that one passes in every state: the anchor stored in a record is never
    verified. *)
Theorem VerifyAnchor_spec dag a :
  dag_reach dag →
  (VerifyAnchor dag a = true ↔ a = "" ∨ is_Some (dag_events dag !! a))
  ∧ VerifyAnchor dag (currentAnchor dag) = true.
Proof.
  intros Hinv%dag_reach_inv. split; [|apply currentAnchor_accepted]. unfold VerifyAnchor.
  destruct (decide (a = "")) as [->|Hne]; [by split; [left|]|].
  assert ((if decide (length (dag_Tips dag) = 0%nat) then false else anchor_loop a (dag_Tips dag) dag)
    = anchor_loop a (dag_Tips dag) dag) as ->.
  { case_decide as Hl; [|done]. apply nil_length_inv in Hl. by rewrite Hl. }
  rewrite anchor_loop_spec. split.
  - intros (t & Ht & [->|Ha]).
    + right. apply elem_of_Tips, (inv_tips dag Hinv) in Ht. tauto.
    + right. apply is_ancestor_spec in Ha; [|done]. by destruct (tc_parent_events _ _ _ Hinv Ha).
  - intros [->|Hsome]; [done|]. destruct (reaches_tip dag a Hinv Hsome) as (t & Ht & Hr). exists t.
    split; [by apply elem_of_Tips|]. apply rtc_tc in Hr as [->|Hr]; [by left|right]. by apply is_ancestor_spec.
Qed.

Context {W : Type}.

Lemma prereq_loop_spec dag ev pids missing :
  dag_inv dag →
  (prereq_loop dag ev pids missing = inr missing ∧ ∀ pid, pid ∈ pids → tc (parent dag) pid (ID ev))
  ∨ ∃ pid, pid ∈ pids ∧ ¬ tc (parent dag) pid (ID ev)
      ∧ prereq_loop dag ev pids missing = inl (ErrPrerequisiteForgery pid (ID ev)).
Proof.
  intros Hinv. induction pids as [|pid pids IH]; cbn [prereq_loop]; [left; split; [done|by intros pid ?%elem_of_nil]|].
  assert (is_ancestor pid (ID ev) dag = inr true ∨ is_ancestor pid (ID ev) dag ≠ inr true) as [Ha|Ha]
    by (destruct (is_ancestor pid (ID ev) dag) as [|[]]; [by right|by left|by right]).
  - rewrite Ha. apply is_ancestor_spec in Ha; [|done]. destruct (tc_parent_events _ _ _ Hinv Ha) as [[e He] _].
    unfold dag_Get. rewrite He. destruct IH as [[-> Hall]|(pid' & Hin & Hno & ->)].
    + left. split; [done|]. intros p [->|Hp]%elem_of_cons; [done|by apply Hall].
    + right. exists pid'. split; [by apply list_elem_of_further|done].
  - right. exists pid. split; [apply list_elem_of_here|]. split; [intros Htc; by apply Ha, is_ancestor_spec|].
    destruct (is_ancestor pid (ID ev) dag) as [|[]]; done.
Qed.

(** Over the causal graph of Dag the prerequisite check passes if every declared prerequisite is an ancestor of the event
    and fails as a forgery as soon as one is not, one that is not yet known included.  (The third outcome, prerequisites that are ancestors and
    cannot be read, needs a graph that knows the ancestry of events it does not hold, such as the stubs of the tests.) *)
Theorem checkPrerequisites_spec dag ev (consumers : list (Consumer W)) :
  dag_reach dag →
  (checkPrerequisites dag ev consumers = inr []
   ∧ ∀ c pid, c ∈ consumers → pid ∈ c_Prerequisites c ev → tc (parent dag) pid (ID ev))
  ∨ ∃ c pid, c ∈ consumers ∧ pid ∈ c_Prerequisites c ev ∧ ¬ tc (parent dag) pid (ID ev)
      ∧ checkPrerequisites dag ev consumers = inl (ErrPrerequisiteForgery pid (ID ev)).
Proof.
  intros Hinv%dag_reach_inv. unfold checkPrerequisites.
  assert (∀ pid, pid ∈ range_set (prereq_set ev consumers) ↔ ∃ c, c ∈ consumers ∧ pid ∈ c_Prerequisites c ev) as Hset.
  { intros pid. unfold prereq_set. rewrite elem_of_range_set, elem_of_list_to_set, list_elem_of_bind. naive_solver. }
  destruct (prereq_loop_spec dag ev (range_set (prereq_set ev consumers)) [] Hinv) as [[-> Hall]|(pid & Hin & Hno & ->)].
  - left. split; [done|]. intros c pid Hc Hp. apply Hall, Hset. by exists c.
  - right. apply Hset in Hin as (c & Hc & Hp). by exists c, pid.
Qed.
End anchors.

(** * At most one successful application *)

(** What the store provides: a read sees the last committed write. *)
Class AdmissionLaws (St : Type) `{!AdmissionStore St} : Type := {
  adm_view : St → gmap string AdmissionRecord;
  adm_get_found k s r : adm_get k s = AdmFound r → adm_view s !! k = Some r;
  adm_get_none k s : adm_get k s = AdmNotFound → adm_view s !! k = None;
  adm_put_ok k r s s' : adm_put k r s = (s', true) → adm_view s' = <[k := r]> (adm_view s);
  adm_delete_any k s s' b : adm_delete k s = (s', b) → adm_view s' = adm_view s ∨ adm_view s' = delete k (adm_view s);
  adm_all_view s l : adm_all s = Some l → l ≡ₚ (map_to_list (adm_view s)).*2;
}.

Section once.
Context {lib : JsonLib} {dlib : DispatchLib} {order : RangeOrder}.
Context {Sd St W : Type} `{!AdmissionStore St, !AdmissionLaws St}.
Context (Hput : ∀ k r (s : St), (adm_put k r s).2 = true).
Implicit Types (d : Dispatcher St W) (dag : DAG Sd).

Definition successes (key name : string) d : nat :=
  length (filter (λ x, x = (key, name, true)) (disp_calls d)).

(** 1 if the record says that the consumer has applied the event. *)
Definition applied_in (o : option AdmissionRecord) (name : string) : nat :=
  match o with
  | Some r => if decide (rec_Consumers r !! name = Some ConsumerApplied) then 1 else 0
  | None => 0
  end.

Definition once d : Prop :=
  ∀ key name, (successes key name d <= applied_in (adm_view (disp_store d) !! key) name)%nat.

(** Records are stored under their own keys. *)
Definition keyed_records d : Prop := ∀ k r, adm_view (disp_store d) !! k = Some r → rec_Key r = k.

Definition disp_inv d : Prop := once d ∧ keyed_records d.

(** Storing a record that forgets no application. *)
Lemma put_inv key r d :
  disp_inv d → rec_Key r = key →
  (∀ name, (applied_in (adm_view (disp_store d) !! key) name <= applied_in (Some r) name)%nat) →
  disp_inv (set_disp_store (adm_put key r (disp_store d)).1 d)
  ∧ adm_view (adm_put key r (disp_store d)).1 !! key = Some r.
Proof using Hput.
  intros [Honce Hkey] Hr Hap. pose proof (Hput key r (disp_store d)) as Hok.
  destruct (adm_put key r (disp_store d)) as [s ok] eqn:Hp. cbn in Hok. subst ok.
  apply adm_put_ok in Hp. cbn [fst]. split; [|by rewrite Hp, lookup_insert_eq]. split.
  - intros k name. unfold successes. cbn [disp_calls set_disp_store disp_store]. rewrite Hp.
    destruct (decide (key = k)) as [<-|Hne].
    + rewrite lookup_insert_eq. etrans; [apply Honce|apply Hap].
    + rewrite lookup_insert_ne by done. apply Honce.
  - intros k r'. cbn [disp_store set_disp_store]. rewrite Hp. intros [[<- <-]|[_ Hl]]%lookup_insert_Some; [done|by apply Hkey].
Qed.

Lemma same_inv d d' :
  disp_store d' = disp_store d → disp_calls d' = disp_calls d → disp_inv d → disp_inv d'.
Proof. unfold disp_inv, once, keyed_records, successes. by intros -> ->. Qed.

Lemma successes_snoc key name d w k n ok :
  successes key name (mkDispatcher (disp_consumers d) (disp_store d) w (disp_emitter d) (disp_deferralIndex d)
    (disp_calls d ++ [(k, n, ok)]))
  = (successes key name d + (if decide ((k, n, ok) = (key, name, true)) then 1 else 0))%nat.
Proof. unfold successes. cbn [disp_calls]. rewrite filter_app, length_app, filter_cons. by case_decide. Qed.

(** An iteration skips the consumer or calls it. *)
Lemma invoke_one_cases ev key statuses d changed name :
  invoke_one ev key (statuses, d, changed) name = (statuses, d, changed)
  ∨ ∃ c w (ok : bool), statuses !! name ≠ Some ConsumerApplied
      ∧ invoke_one ev key (statuses, d, changed) name
        = (<[name := if ok then ConsumerApplied else ConsumerFailedRetryable]> statuses,
           mkDispatcher (disp_consumers d) (disp_store d) w (disp_emitter d) (disp_deferralIndex d)
             (disp_calls d ++ [(key, name, ok)]), true)
      ∧ disp_consumers d !! name = Some c ∧ c_Apply c ev (disp_world d) = (w, ok).
Proof.
  unfold invoke_one. destruct (statuses !! name) as [[]|]; [|by left| |by left];
    (destruct (disp_consumers d !! name) as [c|] eqn:Hc; [|by left]);
    right; destruct (c_Apply c ev (disp_world d)) as [w ok] eqn:Ha; exists c, w, ok; split_and!; done.
Qed.

(** The calls made by the loop of [invokeConsumers]. *)
Lemma invoke_fold ev key names statuses d changed statuses' d' changed' :
  foldl (invoke_one ev key) (statuses, d, changed) names = (statuses', d', changed') →
  (∀ n, successes key n d <= if decide (statuses !! n = Some ConsumerApplied) then 1 else 0)%nat →
  disp_store d' = disp_store d
  ∧ (∀ k n, k ≠ key → successes k n d' = successes k n d)
  ∧ (∀ n, successes key n d' <= if decide (statuses' !! n = Some ConsumerApplied) then 1 else 0)%nat
  ∧ (∀ n, statuses !! n = Some ConsumerApplied → statuses' !! n = Some ConsumerApplied)
  ∧ (changed' = false → statuses' = statuses ∧ d' = d ∧ changed = false).
Proof.
  revert statuses d changed. induction names as [|name names IH]; intros statuses d changed Hf Hs.
  { injection Hf as <- <- <-. split_and!; done. }
  cbn [foldl] in Hf. destruct (invoke_one_cases ev key statuses d changed name) as [Hi|(c & w & ok & Hst & Hi & _)];
    rewrite Hi in Hf; [exact (IH _ _ _ Hf Hs)|].
  apply IH in Hf as (Hst' & Hoth & Hsucc & Happ & Hch).
  - split_and!; [done| |done| |intros Hc; by destruct (Hch Hc) as (_ & _ & ?)].
    + intros k n Hk. rewrite Hoth by done. rewrite successes_snoc. case_decide as Heq; [congruence|lia].
    + intros n Hn. apply Happ. rewrite lookup_insert_ne; [done|]. intros ->. congruence.
  - intros n. rewrite successes_snoc. specialize (Hs n). destruct (decide (name = n)) as [->|Hn].
    + rewrite lookup_insert_eq. rewrite decide_False in Hs by done.
      destruct ok; [rewrite (decide_True (P := Some ConsumerApplied = Some ConsumerApplied)) by done|
        rewrite (decide_False (P := Some ConsumerFailedRetryable = Some ConsumerApplied)) by done];
        case_decide; simplify_eq; lia.
    + rewrite lookup_insert_ne by done. rewrite (decide_False (P := (key, name, ok) = (key, n, true))) by congruence. lia.
Qed.

Lemma invoke_inv ev key rec d r0 :
  disp_inv d → adm_view (disp_store d) !! key = Some r0 → rec_Key rec = key → rec_Consumers r0 = rec_Consumers rec →
  disp_inv (invokeConsumers ev key rec d).1.
Proof using Hput.
  intros [Honce Hkey] Hr0 Hk Hc. unfold invokeConsumers.
  destruct (foldl _ _ _) as [[statuses d'] changed] eqn:Hf.
  apply invoke_fold in Hf as (Hst & Hoth & Hsucc & Happ & Hch).
  2: { intros n. specialize (Honce key n). rewrite Hr0 in Honce. cbn [applied_in] in Honce. by rewrite Hc in Honce. }
  destruct changed; [|destruct (Hch eq_refl) as (_ & -> & _); done].
  set (rec' := set_State _ (set_Consumers statuses rec)).
  pose proof (Hput key rec' (disp_store d')) as Hok. destruct (adm_put key rec' (disp_store d')) as [s ok] eqn:Hp.
  cbn in Hok. subst ok. apply adm_put_ok in Hp. rewrite Hst in Hp. cbn [fst]. split.
  - intros k n. cbn [disp_store set_disp_store]. rewrite Hp. unfold successes. cbn [disp_calls set_disp_store].
    fold (successes k n d'). destruct (decide (key = k)) as [<-|Hne].
    + rewrite lookup_insert_eq. cbn [applied_in]. apply Hsucc.
    + rewrite lookup_insert_ne by done. rewrite Hoth by done. apply Honce.
  - intros k r. cbn [disp_store set_disp_store]. rewrite Hp. intros [[<- <-]|[_ Hl]]%lookup_insert_Some; [done|by apply Hkey].
Qed.

(** A record whose statuses contain those of the stored one. *)
Definition extends (r r' : AdmissionRecord) : Prop :=
  rec_Key r' = rec_Key r
  ∧ ∀ n, rec_Consumers r !! n = Some ConsumerApplied → rec_Consumers r' !! n = Some ConsumerApplied.

Lemma applied_in_extends r r' n : extends r r' → (applied_in (Some r) n <= applied_in (Some r') n)%nat.
Proof. intros [_ He]. cbn [applied_in]. specialize (He n). do 2 case_decide; tauto || lia. Qed.

(** Storing such a record. *)
Lemma put_extends key r r' d :
  disp_inv d → adm_view (disp_store d) !! key = Some r → extends r r' →
  disp_inv (set_disp_store (adm_put key r' (disp_store d)).1 d)
  ∧ adm_view (adm_put key r' (disp_store d)).1 !! key = Some r'.
Proof using Hput.
  intros Hinv Hr He. apply put_inv; [done| |].
  - destruct He as [-> _]. destruct Hinv as [_ Hk]. by apply Hk.
  - intros n. rewrite Hr. by apply applied_in_extends.
Qed.

Lemma reserve_inv epoch dag key ev consumers d :
  disp_inv d →
  match reserveOrLoad epoch dag key ev consumers d with
  | (d', inl _) => disp_inv d'
  | (d', inr rec) => disp_inv d' ∧ adm_view (disp_store d') !! key = Some rec ∧ disp_consumers d' = disp_consumers d
      ∧ disp_calls d' = disp_calls d
  end.
Proof using Hput.
  intros Hinv. unfold reserveOrLoad. destruct (adm_get key (disp_store d)) as [r| |] eqn:Hg.
  - apply adm_get_found in Hg. destruct (rec_State r); try (by split_and!).
    destruct (put_extends key r (set_State StateProcessing r) d Hinv Hg) as [Hi Hv]; [by split|].
    pose proof (Hput key (set_State StateProcessing r) (disp_store d)) as Hok.
    destruct (adm_put _ _ _) as [s ok]. cbn in Hok. subst ok. by split_and!.
  - apply adm_get_none in Hg. unfold createReservation. cbv zeta. set (rec := mkAdmission _ _ _ _ _ _ _ _ _ _).
    destruct (put_inv key rec d Hinv eq_refl) as [Hi Hv].
    { intros n. rewrite Hg. cbn [applied_in]. lia. }
    pose proof (Hput key rec (disp_store d)) as Hok. destruct (adm_put _ _ _) as [s ok]. cbn in Hok. subst ok. by split_and!.
  - done.
Qed.

Lemma admit_inv epoch ev dag d :
  disp_inv d → (∀ err, checkPrerequisites dag ev (snapshotInterestedConsumers ev d) ≠ inl err) →
  disp_inv (disp_Admit epoch ev dag d).1.
Proof using Hput.
  intros Hinv Hpre. unfold disp_Admit, admit_reserve. destruct (AdmissionKey ev) as [key|]; [|done].
  rewrite currentAnchor_accepted. cbn [negb].
  destruct (snapshotInterestedConsumers ev d) as [|c cs] eqn:Hcs; [done|].
  pose proof (reserve_inv epoch dag key ev (c :: cs) d Hinv) as Hres.
  destruct (reserveOrLoad epoch dag key ev (c :: cs) d) as [d1 [err|rec]]; [done|].
  destruct Hres as (Hi & Hv & _ & _). unfold admit_run. cbv zeta. case_decide; [done|].
  destruct (checkPrerequisites dag ev (c :: cs)) as [err|missing] eqn:Hck; [by destruct (Hpre err)|].
  assert (rec_Key rec = key) as Hk by (by apply Hi).
  destruct missing as [|m ms].
  - case_decide as Hst; [|by eapply invoke_inv].
    destruct (put_extends key rec (set_Missing [] (set_State StateProcessing rec)) d1 Hi Hv) as [Hi' Hv']; [by split|].
    pose proof (Hput key (set_Missing [] (set_State StateProcessing rec)) (disp_store d1)) as Hok.
    destruct (adm_put _ _ _) as [s ok]. cbn in Hok. subst ok. by eapply invoke_inv.
  - destruct (put_extends key rec (set_Missing (m :: ms) (set_State StateReservedPendingPrereqs rec)) d1 Hi Hv) as [Hi' _]; [by split|].
    destruct (adm_put _ _ _) as [s []]; [|exact Hi']. by eapply same_inv; [..|exact Hi'].
Qed.

Lemma notify_one_inv epoch dag key d : disp_inv d → disp_inv (notify_one epoch dag d key).
Proof using Hput.
  intros Hinv. unfold notify_one. destruct (adm_get key (disp_store d)) as [r| |] eqn:Hg; [|done..].
  apply adm_get_found in Hg. case_decide; [done|]. cbv zeta. case_bool_decide.
  - assert (disp_inv (removeFromDeferralIndex key d)) as Hinv' by (by apply (same_inv d)).
    destruct (put_extends key r (set_Missing [] (set_State StateProcessing r)) (removeFromDeferralIndex key d) Hinv' Hg) as [Hi Hv]; [by split|].
    destruct (adm_put _ _ _) as [s []]; cbn [fst] in *; [|exact Hi].
    destruct (dag_Get _ dag); [done|]. eapply invoke_inv; [done|exact Hv| |done].
    cbn [rec_Key set_Missing set_State]. by apply Hinv.
  - destruct (put_extends key r (set_Missing (still_missing dag r) r) d Hinv Hg) as [Hi Hv]; [by split|].
    destruct (adm_put _ _ _) as [s []]; cbn [fst] in *; [|exact Hi].
    unfold checkDeferralThresholds. case_decide; [done|]. case_decide; [|done].
    unfold emitWithholdingEvidence. destruct (disp_emitter _) as [emitter|]; [|done].
    destruct (New _ _ _ _ _ _) as [evd|]; [|done]. destruct (emitter evd _) as [w []]; [|by apply (same_inv _ _ eq_refl eq_refl) in Hi].
    assert (rec_Key r = key) as Hk by (by apply Hinv).
    cbn [rec_Key set_Missing]. rewrite Hk.
    apply (put_extends key (set_Missing (still_missing dag r) r)); [by eapply same_inv; [..|exact Hi]|exact Hv|by split].
Qed.

Lemma probe_loop_applied ev id names statuses d statuses' n :
  probe_loop ev id names statuses d = inr statuses' →
  statuses !! n = Some ConsumerApplied → statuses' !! n = Some ConsumerApplied.
Proof.
  revert statuses. induction names as [|name names IH]; intros statuses Hp Hn; cbn [probe_loop] in Hp; [by simplify_eq|].
  destruct (statuses !! name) as [[]|] eqn:Hst; [|by eapply IH..].
  destruct (disp_consumers d !! name) as [c|]; [|by eapply IH].
  assert (name ≠ n) as Hne by congruence.
  destruct (c_RecoveryProbe c ev (disp_world d)) as [[]|]; [| |done]; (eapply IH; [exact Hp|]; by rewrite lookup_insert_ne).
Qed.

Lemma recover_persist_inv rec r d :
  disp_inv d → adm_view (disp_store d) !! rec_Key rec = Some r → extends r rec →
  disp_inv (recover_persist rec d).1
  ∧ ∀ k, k ≠ rec_Key rec → adm_view (disp_store (recover_persist rec d).1) !! k = adm_view (disp_store d) !! k.
Proof using Hput.
  intros Hinv Hr He. unfold recover_persist. set (rec' := set_State _ rec).
  destruct (put_extends (rec_Key rec) r rec' d Hinv Hr) as [Hi _]; [by destruct He|].
  pose proof (Hput (rec_Key rec) rec' (disp_store d)) as Hok.
  destruct (adm_put _ _ _) as [s ok] eqn:Hp. cbn in Hok. subst ok. split; [done|].
  intros k Hk. apply adm_put_ok in Hp. cbn [fst disp_store set_disp_store]. by rewrite Hp, lookup_insert_ne.
Qed.

Lemma recover_processing_inv dag rec r d :
  disp_inv d → adm_view (disp_store d) !! rec_Key rec = Some r → extends r rec →
  disp_inv (recover_processing dag rec d).1
  ∧ ∀ k, k ≠ rec_Key rec → adm_view (disp_store (recover_processing dag rec d).1) !! k = adm_view (disp_store d) !! k.
Proof using Hput.
  intros Hinv Hr He. unfold recover_processing. destruct (dag_Get _ dag) as [|ev]; [done|].
  destruct (probe_loop _ _ _ _ _) as [|statuses] eqn:Hp; [done|].
  apply (recover_persist_inv (set_Consumers statuses rec) r); [done|done|].
  destruct He as [Hk He]. split; [done|]. intros n Hn. eapply probe_loop_applied; [exact Hp|]. by apply He.
Qed.

Lemma recover_one_inv epoch dag rec d :
  disp_inv d → adm_view (disp_store d) !! rec_Key rec = Some rec →
  disp_inv (recover_one epoch dag rec d).1
  ∧ ∀ k, k ≠ rec_Key rec → adm_view (disp_store (recover_one epoch dag rec d).1) !! k = adm_view (disp_store d) !! k.
Proof using Hput.
  intros Hinv Hr. unfold recover_one. destruct (rec_State rec), (checkSchemaVersions rec d); try done.
  - by eapply recover_persist_inv.
  - destruct (still_missing dag rec) as [|m ms].
    + apply (recover_processing_inv dag (set_Missing [] (set_State StateProcessing rec)) rec
        (removeFromDeferralIndex (rec_Key rec) d));
        [by apply (same_inv d)|done|by split].
    + case_decide; [done|].
      destruct (put_extends (rec_Key rec) rec (set_Missing (m :: ms) rec) d Hinv Hr) as [Hi _]; [by split|].
      pose proof (Hput (rec_Key rec) (set_Missing (m :: ms) rec) (disp_store d)) as Hok.
      destruct (adm_put _ _ _) as [s ok] eqn:Hp. cbn in Hok. subst ok. split; [done|].
      intros k Hk. apply adm_put_ok in Hp. cbn [fst disp_store set_disp_store]. by rewrite Hp, lookup_insert_ne.
  - by eapply recover_processing_inv.
Qed.

Lemma recover_loop_inv epoch dag records d :
  disp_inv d → NoDup (rec_Key <$> records) →
  (∀ r, r ∈ records → adm_view (disp_store d) !! rec_Key r = Some r) →
  disp_inv (recover_loop epoch dag records d).1.
Proof using Hput.
  revert d. induction records as [|r records IH]; intros d Hinv Hnd Hall; [done|]. cbn [recover_loop].
  rewrite fmap_cons in Hnd. apply NoDup_cons in Hnd as [Hr Hnd].
  destruct (recover_one_inv epoch dag r d Hinv (Hall r (list_elem_of_here _ _))) as [Hi Hoth].
  destruct (recover_one epoch dag r d) as [d1 [err|]]; [done|]. cbn [fst] in *. apply IH; [done..|].
  intros r' Hr'. rewrite Hoth; [by apply Hall, list_elem_of_further|].
  intros Heq. apply Hr. rewrite <- Heq. by apply list_elem_of_fmap_2.
Qed.

Lemma rebuild_store records d :
  disp_store (rebuildDeferralIndex records d) = disp_store d ∧ disp_calls (rebuildDeferralIndex records d) = disp_calls d.
Proof.
  unfold rebuildDeferralIndex.
  assert (∀ d0, disp_store (foldl (λ d rec, if decide (rec_State rec = StateReservedPendingPrereqs)
    then addToDeferralIndex (rec_MissingPrerequisites rec) (rec_Key rec) d else d) d0 records) = disp_store d0
    ∧ disp_calls (foldl (λ d rec, if decide (rec_State rec = StateReservedPendingPrereqs)
    then addToDeferralIndex (rec_MissingPrerequisites rec) (rec_Key rec) d else d) d0 records) = disp_calls d0) as Hf; [|exact (Hf (set_deferralIndex ∅ d))].
  induction records as [|r records IH]; intros d0; [done|]. cbn [foldl]. destruct (IH (if decide (rec_State r = StateReservedPendingPrereqs)
    then addToDeferralIndex (rec_MissingPrerequisites r) (rec_Key r) d0 else d0)) as [-> ->]. by case_decide.
Qed.

Lemma recover_inv epoch dag d : disp_inv d → disp_inv (disp_Recover epoch dag d).1.
Proof using Hput.
  intros Hinv. unfold disp_Recover. destruct (adm_all (disp_store d)) as [records|] eqn:Hall; [|done].
  apply adm_all_view in Hall. destruct (rebuild_store records d) as [Hs Hc].
  assert (∀ r, r ∈ records → adm_view (disp_store d) !! rec_Key r = Some r) as Hrec.
  { intros r Hr. rewrite Hall in Hr. apply list_elem_of_fmap in Hr as ([k r'] & -> & Hr%elem_of_map_to_list).
    destruct Hinv as [_ Hk]. cbn. by rewrite (Hk _ _ Hr). }
  apply recover_loop_inv; [by apply (same_inv d)| |by rewrite Hs].
  assert (rec_Key <$> records ≡ₚ (map_to_list (adm_view (disp_store d))).*1) as ->; [|apply NoDup_fst_map_to_list].
  rewrite Hall, <- list_fmap_compose. rewrite (list_fmap_ext _ fst); [done|].
  intros i [k r] Hi. apply list_elem_of_lookup_2, elem_of_map_to_list in Hi. cbn. by apply Hinv.
Qed.

(** The operations, one after the other; [step_world] stands for everything
    else that changes the consumers' state. *)
Inductive disp_step : Dispatcher St W → Dispatcher St W → Prop :=
  | step_register c d : disp_step d (disp_Register c d).1
  | step_emitter fn d : disp_step d (disp_SetEvidenceEmitter fn d)
  | step_world w d : disp_step d (set_disp_world w d)
  | step_admit epoch ev dag d :
      (∀ err, checkPrerequisites dag ev (snapshotInterestedConsumers ev d) ≠ inl err) →
      disp_step d (disp_Admit epoch ev dag d).1
  | step_notify epoch id dag d : disp_step d (disp_NotifyProjection epoch id dag d)
  | step_recover epoch dag d : disp_step d (disp_Recover epoch dag d).1.

(** C39: at most once.  However often an event is delivered, in whatever order the dispatcher's operations follow one
    another, restarts with recovery included, no consumer's Apply succeeds twice for one admission key, as long as
    operations do not overlap, the store's writes succeed and no prerequisite is forged. *)
Theorem dispatcher_applies_once s w d key name :
  adm_view s = ∅ → rtc disp_step (NewDispatcher s w) d → (successes key name d <= 1)%nat.
Proof using Hput.
  intros Hs Hsteps. assert (disp_inv d) as [Honce _].
  { assert (disp_inv (NewDispatcher (W := W) s w)) as H0.
    { split; [intros k n|intros k r]; cbn [disp_store NewDispatcher]; rewrite Hs, lookup_empty; [done|done]. }
    revert H0. induction Hsteps as [|d1 d2 d3 Hstep _ IH]; [done|]. intros Hinv. apply IH. clear IH.
    inversion Hstep as [c d'|fn d'|w' d'|epoch ev dag d' Hpre|epoch id dag d'|epoch dag d']; subst.
    - unfold disp_Register. destruct (validateConsumer c); [done|]. by case_decide; [|apply (same_inv d1)].
    - by apply (same_inv d1).
    - by apply (same_inv d1).
    - by apply admit_inv.
    - unfold disp_NotifyProjection. generalize (default [] (disp_deferralIndex d1 !! id)) as keys. intros keys.
      clear Hstep. revert d1 Hinv. induction keys as [|k keys IH]; intros d1 Hinv; [done|]. apply IH. by apply notify_one_inv.
    - by apply recover_inv. }
  etrans; [apply Honce|]. unfold applied_in. destruct (adm_view (disp_store d) !! key); [case_decide|]; lia.
Qed.
End once.

(** * Progress *)

Section progress.
Context {lib : JsonLib} {dlib : DispatchLib} {order : RangeOrder}.
Context {Sd St W : Type} `{!AdmissionStore St, !AdmissionLaws St}.
Context (Hput : ∀ k r (s : St), (adm_put k r s).2 = true) (Hget : ∀ k (s : St), adm_get k s ≠ AdmGetError).
Implicit Types (d : Dispatcher St W) (dag : DAG Sd).

(** Every consumer of the record is registered and applies [ev]. *)
Definition all_apply (ev : Event) (statuses : gmap string PerConsumerStatus) d : Prop :=
  ∀ n, is_Some (statuses !! n) → ∃ c, disp_consumers d !! n = Some c ∧ ∀ w, (c_Apply c ev w).2 = true.

Lemma invoke_fold_success ev key names statuses d changed statuses' d' changed' :
  all_apply ev statuses d →
  foldl (invoke_one ev key) (statuses, d, changed) names = (statuses', d', changed') →
  (∀ n, is_Some (statuses' !! n) ↔ is_Some (statuses !! n))
  ∧ (∀ n, n ∈ names → is_Some (statuses !! n) → statuses' !! n = Some ConsumerApplied)
  ∧ (∀ n, statuses !! n = Some ConsumerApplied → statuses' !! n = Some ConsumerApplied)
  ∧ ((changed = true ∨ ∃ n, n ∈ names ∧ is_Some (statuses !! n) ∧ statuses !! n ≠ Some ConsumerApplied) → changed' = true).
Proof.
  revert statuses d changed. induction names as [|name names IH]; intros statuses d changed Hall Hf.
  { injection Hf as <- <- <-. split_and!; [done|by intros n ?%elem_of_nil|done|].
    intros [|(n & ?%elem_of_nil & _)]; done. }
  cbn [foldl] in Hf. destruct (invoke_one ev key (statuses, d, changed) name) as [[st1 d1] ch1] eqn:Hi.
  destruct (decide (is_Some (statuses !! name) ∧ statuses !! name ≠ Some ConsumerApplied)) as [[[st Hst] Hna]|Hskip].
  - destruct (Hall name ltac:(eauto)) as (c & Hc & Happly).
    unfold invoke_one in Hi. rewrite Hst, Hc in Hi. specialize (Happly (disp_world d)).
    destruct (c_Apply c ev (disp_world d)) as [w ok]. cbn in Happly. subst ok.
    assert (st1 = <[name := ConsumerApplied]> statuses ∧ disp_consumers d1 = disp_consumers d ∧ ch1 = true) as (-> & Hd1 & ->)
      by (destruct st; [|done|]; by injection Hi as <- <- <-).
    apply IH in Hf as (Hdom & Hin & Happ & Hch).
    2: { intros n Hn. rewrite Hd1. apply Hall. rewrite lookup_insert_is_Some' in Hn. destruct Hn as [<-|Hn]; [by eexists|done]. }
    split_and!; [| | |intros _; by apply Hch; left].
    + intros n. rewrite Hdom, lookup_insert_is_Some'. split; [intros [<-|]; [by eexists|done]|by right].
    + intros n Hn Hs. destruct (decide (n = name)) as [->|Hne]; [apply Happ; apply lookup_insert_eq|].
      apply elem_of_cons in Hn as [->|Hn]; [done|]. apply Hin; [done|]. by rewrite lookup_insert_ne.
    + intros n Hn. apply Happ. rewrite lookup_insert_ne; [done|congruence].
  - assert (st1 = statuses ∧ d1 = d ∧ ch1 = changed) as (-> & -> & ->).
    { unfold invoke_one in Hi. destruct (statuses !! name) as [[]|] eqn:Hst; [|by injection Hi..| |by injection Hi];
        destruct Hskip; (split; [by eexists|done]). }
    apply IH in Hf as (Hdom & Hin & Happ & Hch); [|done]. split_and!; [done| |done|].
    + intros n [->|Hn]%elem_of_cons Hs; [|by apply Hin]. apply Happ.
      destruct (statuses !! name) as [[]|] eqn:Hst; [|done| |by destruct Hs]; destruct Hskip; (split; [by eexists|done]).
    + intros [Hc|(n & [->|Hn]%elem_of_cons & Hs)]; [by apply Hch; left|by destruct Hskip|apply Hch; right; by exists n].
Qed.

Lemma computeTop_applied (m : gmap string PerConsumerStatus) n :
  (∀ n, is_Some (m !! n) → m !! n = Some ConsumerApplied) → is_Some (m !! n) → computeTopLevelState m = StateApplied.
Proof.
  intros Hall [st Hn]. unfold computeTopLevelState. cbv zeta.
  assert (∀ s, s ∈ (map_to_list m).*2 → s = ConsumerApplied) as Hs.
  { intros s Hs. apply list_elem_of_fmap in Hs as ([k s'] & -> & Hk%elem_of_map_to_list). cbn.
    specialize (Hall k ltac:(eauto)). congruence. }
  rewrite decide_False by (by intros ?%Hs). rewrite decide_False by (by intros ?%Hs). rewrite decide_True; [done|].
  assert (st ∈ (map_to_list m).*2) as Hin by (apply list_elem_of_fmap; exists (n, st); by rewrite elem_of_map_to_list).
  destruct ((map_to_list m).*2); [by apply elem_of_nil in Hin|simpl; lia].
Qed.

Lemma invoke_completes ev key rec d name :
  all_apply ev (rec_Consumers rec) d → is_Some (rec_Consumers rec !! name) →
  rec_Consumers rec !! name ≠ Some ConsumerApplied →
  ∃ d' r, invokeConsumers ev key rec d = (d', None)
    ∧ adm_view (disp_store d') !! key = Some r ∧ rec_State r = StateApplied.
Proof using Hput.
  intros Hall Hname Hna. unfold invokeConsumers.
  destruct (foldl (invoke_one ev key) (rec_Consumers rec, d, false) (range_set (dom (rec_Consumers rec)))) as [[statuses d'] changed] eqn:Hf.
  apply invoke_fold_success in Hf as (Hdom & Hin & Happ & Hch); [|done].
  assert (∀ n, n ∈ range_set (dom (rec_Consumers rec)) ↔ is_Some (rec_Consumers rec !! n)) as Hrange
    by (intros n; by rewrite elem_of_range_set, elem_of_dom).
  rewrite Hch by (right; exists name; by rewrite Hrange). cbv zeta. set (rec' := set_State _ (set_Consumers statuses rec)).
  pose proof (Hput key rec' (disp_store d')) as Hok. destruct (adm_put key rec' (disp_store d')) as [s ok] eqn:Hp.
  cbn in Hok. subst ok. exists (set_disp_store s d'), rec'. split; [done|]. apply adm_put_ok in Hp. split.
  - cbn [disp_store set_disp_store]. by rewrite Hp, lookup_insert_eq.
  - unfold rec'. cbn [rec_State set_State]. apply (computeTop_applied _ name); [|by apply Hdom].
    intros n Hn. apply Hin; [apply Hrange|]; by apply Hdom.
Qed.

(** The consumers an admission of [ev] involves: those of the record, or the
    interested ones. *)
Definition involved (ev : Event) (key : string) d : gmap string PerConsumerStatus :=
  match adm_view (disp_store d) !! key with
  | Some r => rec_Consumers r
  | None => foldl (λ m c, <[c_Name c := ConsumerPending]> m) ∅ (snapshotInterestedConsumers ev d)
  end.

(** Progress.  A delivery whose prerequisites hold and whose consumers succeed completes the admission: whether
    the event is new, failed before or was interrupted, [Admit] returns without error and the stored record is in
    the state applied. *)
Theorem admit_completes epoch ev key dag d name :
  AdmissionKey ev = Some key → snapshotInterestedConsumers ev d ≠ [] →
  checkPrerequisites dag ev (snapshotInterestedConsumers ev d) = inr [] →
  all_apply ev (involved ev key d) d →
  is_Some (involved ev key d !! name) → involved ev key d !! name ≠ Some ConsumerApplied →
  (∀ r, adm_view (disp_store d) !! key = Some r → rec_State r ≠ StateApplied) →
  ∃ d' r, disp_Admit epoch ev dag d = (d', None)
    ∧ adm_view (disp_store d') !! key = Some r ∧ rec_State r = StateApplied.
Proof using Hput Hget.
  intros Hkey Hne Hpre Hall Hname Hna Hstate. unfold disp_Admit, admit_reserve. rewrite Hkey, currentAnchor_accepted. cbn [negb].
  destruct (snapshotInterestedConsumers ev d) as [|c cs] eqn:Hcs; [done|]. unfold involved in *. rewrite Hcs in *.
  assert (∃ d1 rec, reserveOrLoad epoch dag key ev (c :: cs) d = (d1, inr rec) ∧ disp_consumers d1 = disp_consumers d
    ∧ rec_Consumers rec = (match adm_view (disp_store d) !! key with Some r => rec_Consumers r
        | None => foldl (λ m c, <[c_Name c := ConsumerPending]> m) ∅ (c :: cs) end)
    ∧ rec_State rec ≠ StateApplied) as (d1 & rec & -> & Hc1 & Hrec & Hst).
  { unfold reserveOrLoad. destruct (adm_get key (disp_store d)) as [r| |] eqn:Hg; [| |by destruct (Hget key (disp_store d))].
    - apply adm_get_found in Hg. rewrite Hg. specialize (Hstate r Hg). destruct (rec_State r) eqn:Hr; try done;
        try (exists d, r; split_and!; [done..|congruence]).
      pose proof (Hput key (set_State StateProcessing r) (disp_store d)) as Hok. destruct (adm_put _ _ _) as [s ok]. cbn in Hok. subst ok.
      exists (set_disp_store s d), (set_State StateProcessing r). by split_and!.
    - apply adm_get_none in Hg. rewrite Hg. unfold createReservation. cbv zeta. set (rec := mkAdmission _ _ _ _ _ _ _ _ _ _).
      pose proof (Hput key rec (disp_store d)) as Hok. destruct (adm_put key rec (disp_store d)) as [s ok]. cbn in Hok. subst ok.
      exists (set_disp_store s d), rec. by split_and!. }
  rewrite <- Hrec in *. unfold admit_run. cbv zeta. rewrite decide_False by done. rewrite Hpre.
  assert (∀ d2, disp_consumers d2 = disp_consumers d → all_apply ev (rec_Consumers rec) d2) as Hall2
    by (intros d2 Hd2 n Hn; rewrite Hd2; by apply Hall).
  case_decide; [|by eapply invoke_completes; [apply Hall2| |]].
  pose proof (Hput key (set_Missing [] (set_State StateProcessing rec)) (disp_store d1)) as Hok.
  destruct (adm_put _ _ _) as [s ok]. cbn in Hok. subst ok.
  apply (invoke_completes ev key _ _ name); [by apply Hall2|done|done].
Qed.
End progress.

(** * Concrete dispatchers *)

#[local] Existing Instance sample_lib.
#[local] Existing Instance sample_ed.
#[local] Existing Instance event_store.

#[local] Instance sample_dispatch_lib : DispatchLib := {|
  blake3_Sum256 b := Sha256.Sum256 (bytes_of_string b);
  marshal_withholding _ _ := None;
|}.

#[global] Instance map_admissions : AdmissionStore (gmap string AdmissionRecord) := {|
  adm_get k s := match s !! k with Some r => AdmFound r | None => AdmNotFound end;
  adm_put k r s := (<[k := r]> s, true);
  adm_all s := Some (map_to_list s).*2;
  adm_delete k s := (delete k s, true);
|}.

#[global] Program Instance map_admission_laws : AdmissionLaws (gmap string AdmissionRecord) := {| adm_view s := s |}.
Next Obligation. intros k s r. cbn. destruct (s !! k); by intros [= ->]. Qed.
Next Obligation. intros k s. cbn. by destruct (s !! k). Qed.
Next Obligation. intros k r s s'. cbn. by intros [= <-]. Qed.
Next Obligation. intros k s s' b. cbn. intros [= <- _]. by right. Qed.
Next Obligation. intros s l. cbn. by intros [= <-]. Qed.

(** A consumer that pays once per call, and one whose first call fails.  The
    world is the number of calls. *)
Definition payer : Consumer nat :=
  mkConsumer "payer" TypeA (λ _, true) (λ _ w, (S w, true)) (λ _ w, Some (if w is O then RecoveryNotStarted else RecoveryCompleted))
    (λ _, []) 1.

Definition flaky : Consumer nat :=
  mkConsumer "payer" TypeA (λ _, true) (λ _ w, (S w, if w is O then false else true))
    (λ _ w, Some (if w is S (S _) then RecoveryCompleted else RecoveryNotStarted)) (λ _, []) 1.

Definition with_consumer (c : Consumer nat) : Dispatcher (gmap string AdmissionRecord) nat :=
  (disp_Register c (NewDispatcher ∅ 0%nat)).1.

Definition sample_dag : DAG (KeyedStore ID) := graph [root_event; child_event].

Definition admit_child (d : Dispatcher (gmap string AdmissionRecord) nat) : Dispatcher (gmap string AdmissionRecord) nat :=
  (disp_Admit 0 child_event sample_dag d).1.

Definition child_key : string := Eval vm_compute in default "" (AdmissionKey child_event).

Lemma VerifyAnchor_spec_witness :
  dag_reach sample_dag ∧ (VerifyAnchor sample_dag "lost" = true ↔ "lost" = "" ∨ is_Some (dag_events sample_dag !! "lost"))
  ∧ VerifyAnchor sample_dag (currentAnchor sample_dag) = true.
Proof. split; [apply graph_reach|]. apply (VerifyAnchor_spec sample_dag). apply graph_reach. Defined.

(** A consumer that waits for an event the node does not have. *)
Definition waiting : Consumer nat :=
  mkConsumer "waiting" TypeA (λ _, true) (λ _ w, (w, true)) (λ _ _, Some RecoveryNotStarted) (λ _, ["not-yet-seen"]) 1.

Lemma checkPrerequisites_spec_witness :
  checkPrerequisites sample_dag child_event [waiting] = inl (ErrPrerequisiteForgery "not-yet-seen" (ID child_event))
  ∧ ((checkPrerequisites sample_dag child_event [waiting] = inr []
      ∧ ∀ c pid, c ∈ [waiting] → pid ∈ c_Prerequisites c child_event → tc (parent sample_dag) pid (ID child_event))
     ∨ ∃ c pid, c ∈ [waiting] ∧ pid ∈ c_Prerequisites c child_event ∧ ¬ tc (parent sample_dag) pid (ID child_event)
         ∧ checkPrerequisites sample_dag child_event [waiting] = inl (ErrPrerequisiteForgery pid (ID child_event))).
Proof.
  split; [vm_compute; reflexivity|]. apply (checkPrerequisites_spec sample_dag child_event [waiting]). apply graph_reach.
Defined.

(** Two deliveries of the child event, a restart and a third delivery. *)
Lemma dispatcher_applies_once_witness :
  let d := admit_child (disp_Recover 0 sample_dag (admit_child (admit_child (with_consumer payer)))).1 in
  disp_calls d = [(child_key, "payer", true)] ∧ (successes child_key "payer" d <= 1)%nat.
Proof.
  cbv zeta. split; [vm_compute; reflexivity|].
  assert (∀ k r (s : gmap string AdmissionRecord), (adm_put k r s).2 = true) as Hput by reflexivity.
  apply (dispatcher_applies_once (Sd := KeyedStore ID) Hput ∅ 0%nat).
  - reflexivity.
  - unfold with_consumer, admit_child.
    eapply rtc_l; [apply (step_register payer)|]. eapply rtc_l; [apply (step_admit 0 child_event sample_dag); intros err Heq; vm_compute in Heq; discriminate Heq|].
    eapply rtc_l; [apply (step_admit 0 child_event sample_dag); intros err Heq; vm_compute in Heq; discriminate Heq|]. eapply rtc_l; [apply (step_recover 0 sample_dag)|].
    eapply rtc_l; [apply (step_admit 0 child_event sample_dag); intros err Heq; vm_compute in Heq; discriminate Heq|]. apply rtc_refl.
Defined.

Lemma admit_completes_witness :
  ∃ d' r, disp_Admit 0 child_event sample_dag (with_consumer payer) = (d', None)
    ∧ adm_view (disp_store d') !! child_key = Some r ∧ rec_State r = StateApplied.
Proof.
  assert (∀ k r (s : gmap string AdmissionRecord), (adm_put k r s).2 = true) as Hput by reflexivity.
  assert (∀ k (s : gmap string AdmissionRecord), adm_get k s ≠ AdmGetError) as Hget by (intros k s; cbn; by destruct (s !! k)).
  apply (admit_completes Hput Hget 0 child_event child_key sample_dag
    (with_consumer payer) "payer").
  - vm_compute. reflexivity.
  - intros Heq. vm_compute in Heq. discriminate Heq.
  - vm_compute. reflexivity.
  - intros n [st Hn]. assert (involved child_event child_key (with_consumer payer) = {["payer" := ConsumerPending]}) as Hi
      by (apply (bool_decide_unpack _); vm_compute; exact I).
    rewrite Hi in Hn. apply lookup_singleton_Some in Hn as [<- _]. exists payer. split; [reflexivity|reflexivity].
  - vm_compute. eexists. reflexivity.
  - intros Heq. vm_compute in Heq. discriminate Heq.
  - intros r Hr. vm_compute in Hr. discriminate Hr.
Defined.

(** Overlapping deliveries: the reservation is not atomic.  Two deliveries that
    both reserve before either applies call the consumer twice. *)
Lemma overlapping_admits_apply_twice :
  match admit_reserve 0 child_event sample_dag (with_consumer payer) with
  | (d1, inr (Some (key1, rec1, cs1))) =>
      match admit_reserve 0 child_event sample_dag d1 with
      | (d2, inr (Some (key2, rec2, cs2))) =>
          let d3 := (admit_run child_event key1 rec1 cs1 sample_dag d2).1 in
          let d4 := (admit_run child_event key2 rec2 cs2 sample_dag d3).1 in
          disp_calls d4 = [(child_key, "payer", true); (child_key, "payer", true)] ∧ disp_world d4 = 2%nat
      | _ => False
      end
  | _ => False
  end.
Proof. vm_compute. by split. Qed.

(** A crash between the successful retry of a failed consumer and the write of
    its record: recovery probes only pending consumers, so the next delivery
    applies the event again although the probe reports completion. *)
Lemma crash_in_retry_applies_twice :
  let failed := admit_child (with_consumer flaky) in
  let reserved := (admit_reserve 0 child_event sample_dag failed).1 in
  let retried := admit_child failed in
  let crashed := set_disp_store (disp_store reserved) retried in
  let recovered := (disp_Recover 0 sample_dag crashed).1 in
  c_RecoveryProbe flaky child_event (disp_world crashed) = Some RecoveryCompleted
  ∧ disp_calls (admit_child recovered)
    = [(child_key, "payer", false); (child_key, "payer", true); (child_key, "payer", true)].
Proof. vm_compute. by split. Qed.
