(* ===== verification/Assurance.v ===== *)
(** internal/assurance: assurance lanes and fees (assurance.go), the fee split
    (fee_split.go), the replay reserve (replay_reserve.go), the security floor
    (security_floor.go), challenge bonds (challenge.go) and the bootstrap rewards
    (bootstrap.go).

    The configuration is internal/config's [AssuranceConfig].  The reserve and the
    challenges are kept in memory and written through to a store; the store of the
    reserve is the class [ReserveStore], challenges are encoded by
    [encoding/json], the class [ChallengeCodec].  The security floor holds a pointer
    to the reserve, so the operations that consult it take the current reserve and
    return it (a lazy load may fill it). *)

From Stdlib Require Import QArith Lqa.
From stdpp Require Import sets fin_sets fin_map_dom.
From S2P Require Import Prelude GoStd Store Float64.
#[local] Open Scope Z_scope.

(** * Configuration *)

Record AssuranceConfig := mkAssuranceConfig {
  StandardFeeRate : F64;
  StandardFeeFloor : Z;
  HighAssuranceFeeRate : F64;
  HighAssuranceFeeFloor : Z;
  EnterpriseFeeRate : F64;
  EnterpriseFeeFloor : Z;
  MinTaskBudgetAssured : Z;
  SecurityFloorStandard : F64;
  SecurityFloorHigh : F64;
  SecurityFloorEnterprise : F64;
  SecurityDegradedRatio : F64;
  SecurityTrailingDays : Z;
  StructuredCategories : list string;
  VerifierShareNoReplay : F64;
  ReplayReserveShare : F64;
  ProtocolShareNoReplay : F64;
  VerifierShareWithReplay : F64;
  ReplayExecutorShare : F64;
  ProtocolShareReplay : F64;
  TreasuryShareOfProtocol : F64;
  DisputeShareOfProtocol : F64;
  CanaryShareOfProtocol : F64;
  MinReplayPayout : Z;
  ReplayReserveCircuitBreaker : F64;
  ChallengeBondRate : F64;
  ChallengeBondFloor : Z;
  BootstrapDurationDays : Z;
  BootstrapMinValidators : Z;
  BootstrapBaselineReplay : F64;
  BootstrapGenerationReplay : F64;
  BootstrapNewAgentReplay : F64;
  BootstrapBaseReward : Z;
  BootstrapTargetMonthlyVolume : Z;
  BootstrapSunsetMonths : Z;
}.

(** A decimal constant of the code: the double nearest to [n / d]. *)
Notation dec n d := (f64_round n d) (only parsing).

(** [config.DefaultConfig().Assurance]. *)
Definition DefaultAssuranceConfig : AssuranceConfig := {|
  StandardFeeRate := dec 3 100; StandardFeeFloor := 2000000;
  HighAssuranceFeeRate := dec 6 100; HighAssuranceFeeFloor := 4000000;
  EnterpriseFeeRate := dec 8 100; EnterpriseFeeFloor := 8000000;
  MinTaskBudgetAssured := 25000000;
  SecurityFloorStandard := dec 3 1; SecurityFloorHigh := dec 5 1; SecurityFloorEnterprise := dec 10 1;
  SecurityDegradedRatio := dec 2 1; SecurityTrailingDays := 30;
  StructuredCategories := ["code"; "data"; "api"; "infrastructure"];
  VerifierShareNoReplay := dec 60 100; ReplayReserveShare := dec 25 100; ProtocolShareNoReplay := dec 15 100;
  VerifierShareWithReplay := dec 40 100; ReplayExecutorShare := dec 45 100; ProtocolShareReplay := dec 15 100;
  TreasuryShareOfProtocol := dec 667 1000; DisputeShareOfProtocol := dec 200 1000;
  CanaryShareOfProtocol := dec 133 1000;
  MinReplayPayout := 5000000; ReplayReserveCircuitBreaker := dec 20 100;
  ChallengeBondRate := dec 1 100; ChallengeBondFloor := 1000000;
  BootstrapDurationDays := 90; BootstrapMinValidators := 20;
  BootstrapBaselineReplay := dec 40 100; BootstrapGenerationReplay := dec 50 100;
  BootstrapNewAgentReplay := dec 75 100;
  BootstrapBaseReward := 1000000; BootstrapTargetMonthlyVolume := 100000000000; BootstrapSunsetMonths := 36;
|}.

(** * Lanes and fees *)

Notation AssuranceLane := string (only parsing).
Definition LaneNone : AssuranceLane := "".
Definition LaneStandard : AssuranceLane := "standard".
Definition LaneHighAssurance : AssuranceLane := "high_assurance".
Definition LaneEnterprise : AssuranceLane := "enterprise".

Record AssuranceFeeResult := mkFeeResult { fr_Lane : AssuranceLane; fr_Fee : Z; fr_NetPayout : Z }.

Inductive AssuranceError :=
  | ErrBudgetBelowMinimum (budget minimum : Z)
  | ErrUnknownLane (lane : AssuranceLane).

(** The rate and the floor of a lane. *)
Definition lane_rate (lane : AssuranceLane) (cfg : AssuranceConfig) : option (F64 * Z) :=
  if decide (lane = LaneStandard) then Some (StandardFeeRate cfg, StandardFeeFloor cfg)
  else if decide (lane = LaneHighAssurance) then Some (HighAssuranceFeeRate cfg, HighAssuranceFeeFloor cfg)
  else if decide (lane = LaneEnterprise) then Some (EnterpriseFeeRate cfg, EnterpriseFeeFloor cfg)
  else None.

Definition ComputeAssuranceFee `{!F64Conv} (budget : Z) (lane : AssuranceLane) (cfg : AssuranceConfig) :
    AssuranceError + AssuranceFeeResult :=
  if decide (lane = LaneNone) then inr (mkFeeResult LaneNone 0 0)
  else if decide (budget < MinTaskBudgetAssured cfg)
  then inl (ErrBudgetBelowMinimum budget (MinTaskBudgetAssured cfg))
  else match lane_rate lane cfg with
  | None => inl (ErrUnknownLane lane)
  | Some (rate, floor) =>
      let fee := f64_to_u64 (f64_Round (f64_mul (f64_of_u64 budget) rate)) in
      let fee := if decide (fee < floor) then floor else fee in
      let fee := if decide (fee > budget) then budget else fee in
      inr (mkFeeResult lane fee (u64 (budget - fee)))
  end.

(** * The split of a fee *)

Record FeeSplitResult := mkSplit {
  TotalAssuranceFee : Z;
  VerifierPayout : Z;
  ReplayReservePortion : Z;
  ReplayExecutorPayout : Z;
  ProtocolPortion : Z;
  TreasuryAmount : Z;
  DisputeReserveAmount : Z;
  CanaryReserveAmount : Z;
  ReplayOccurred : bool;
}.

(** [splitProtocol]: treasury, dispute and canary; the remainder goes to the
    treasury. *)
Definition splitProtocol `{!F64Conv} (protocolPortion : Z) (cfg : AssuranceConfig) : Z * Z * Z :=
  if decide (protocolPortion = 0) then (0, 0, 0)
  else
    let treasury := f64_share protocolPortion (TreasuryShareOfProtocol cfg) in
    let dispute := f64_share protocolPortion (DisputeShareOfProtocol cfg) in
    let canary := f64_share protocolPortion (CanaryShareOfProtocol cfg) in
    let remainder := u64 (protocolPortion - treasury - dispute - canary) in
    (u64 (treasury + remainder), dispute, canary).

Definition ComputeFeeSplit `{!F64Conv} (assuranceFee : Z) (replayOccurred : bool) (cfg : AssuranceConfig) :
    FeeSplitResult :=
  if decide (assuranceFee = 0) then mkSplit assuranceFee 0 0 0 0 0 0 0 replayOccurred
  else if replayOccurred then
    let verifierPayout := f64_share assuranceFee (VerifierShareWithReplay cfg) in
    let executorPayout := f64_share assuranceFee (ReplayExecutorShare cfg) in
    let protocolPortion := u64 (assuranceFee - verifierPayout - executorPayout) in
    let '(treasury, dispute, canary) := splitProtocol protocolPortion cfg in
    mkSplit assuranceFee verifierPayout 0 executorPayout protocolPortion treasury dispute canary true
  else
    let verifierPayout := f64_share assuranceFee (VerifierShareNoReplay cfg) in
    let reservePortion := f64_share assuranceFee (ReplayReserveShare cfg) in
    let protocolPortion := u64 (assuranceFee - verifierPayout - reservePortion) in
    let '(treasury, dispute, canary) := splitProtocol protocolPortion cfg in
    mkSplit assuranceFee verifierPayout reservePortion 0 protocolPortion treasury dispute canary false.

(** * The replay reserve *)

(** PutReplayReserve/GetReplayReserve; [None] is a failed read, a category
    without a record reads as zero. *)
Class ReserveStore (St : Type) : Type := {
  reserve_put : string → Z → St → St * bool;
  reserve_get : string → St → option Z;
}.

Class ReserveLaws (St : Type) `{!ReserveStore St} : Type := {
  reserve_view : St → gmap string Z;
  reserve_put_ok c v s s' : reserve_put c v s = (s', true) → reserve_view s' = <[c := v]> (reserve_view s);
  reserve_put_fail c v s s' : reserve_put c v s = (s', false) → reserve_view s' = reserve_view s;
  reserve_get_view c s v : reserve_get c s = Some v → v = default 0 (reserve_view s !! c);
}.

Record ReplayReserve (St : Type) := mkReserve {
  rr_balances : gmap string Z;
  rr_store : option St;
  rr_cfg : AssuranceConfig;
}.
#[global] Arguments mkReserve {St} _ _ _.
#[global] Arguments rr_balances {St} _.
#[global] Arguments rr_store {St} _.
#[global] Arguments rr_cfg {St} _.

Section reserve.
Context {St : Type} `{!ReserveStore St, !F64Conv}.
Implicit Types (r : ReplayReserve St).

Definition NewReplayReserve (cfg : AssuranceConfig) (s : option St) : ReplayReserve St := mkReserve ∅ s cfg.

(** The loop of [LoadFromStore]. *)
Fixpoint rr_load (s : St) (categories : list string) (balances : gmap string Z) : option (gmap string Z) :=
  match categories with
  | [] => Some balances
  | cat :: rest => bal ← reserve_get cat s; rr_load s rest (<[cat := bal]> balances)
  end.

Definition rr_LoadFromStore (cfg : AssuranceConfig) (s : option St) (categories : list string) :
    option (ReplayReserve St) :=
  match s with
  | None => Some (NewReplayReserve cfg None)
  | Some st => balances ← rr_load st categories ∅; Some (mkReserve balances (Some st) cfg)
  end.

Definition set_balance (category : string) (v : Z) r : ReplayReserve St :=
  mkReserve (<[category := v]> (rr_balances r)) (rr_store r) (rr_cfg r).

(** [r.balances[category]]. *)
Definition rr_bal r (category : string) : Z := default 0 (rr_balances r !! category).

Definition rr_lazyLoad (category : string) r : ReplayReserve St :=
  match rr_store r with
  | None => r
  | Some s =>
      match rr_balances r !! category with
      | Some _ => r
      | None => match reserve_get category s with
                | None => r
                | Some bal => set_balance category bal r
                end
      end
  end.

Definition rr_persistLocked (category : string) r : ReplayReserve St * bool :=
  match rr_store r with
  | None => (r, true)
  | Some s => let '(s', ok) := reserve_put category (rr_bal r category) s in
              (mkReserve (rr_balances r) (Some s') (rr_cfg r), ok)
  end.

Definition rr_Accrue (category : string) (amount : Z) r : ReplayReserve St * bool :=
  let r := rr_lazyLoad category r in
  rr_persistLocked category (set_balance category (u64 (rr_bal r category + amount)) r).

(** [Draw]: the amount drawn, or an error. *)
Definition rr_Draw (category : string) (amount : Z) r : ReplayReserve St * option Z :=
  let r := rr_lazyLoad category r in
  let bal := rr_bal r category in
  let drawn := if decide (amount > bal) then bal else amount in
  let '(r', ok) := rr_persistLocked category (set_balance category (u64 (bal - drawn)) r) in
  if ok then (r', Some drawn) else (set_balance category bal r', None).

Definition rr_Balance (category : string) r : ReplayReserve St * Z :=
  match rr_balances r !! category with
  | Some bal => (r, bal)
  | None => let r := rr_lazyLoad category r in (r, rr_bal r category)
  end.

Definition rr_IsHealthy (category : string) (targetBalance : Z) r : ReplayReserve St * bool :=
  let '(r, bal) := rr_Balance category r in
  let threshold := f64_to_u64 (f64_mul (ReplayReserveCircuitBreaker (rr_cfg r)) (f64_of_u64 targetBalance)) in
  (r, bool_decide (threshold <= bal)).

Definition rr_TopUp (category : string) (amount : Z) r : ReplayReserve St * bool := rr_Accrue category amount r.

Definition rr_CategoryHealthy (category : string) r : ReplayReserve St * bool :=
  rr_IsHealthy category (u64 (10 * MinReplayPayout (rr_cfg r))) r.

(** * Settlement of a fee *)

(** The payout of a replay executor and what it drew from the reserve; a failed
    draw counts as zero. *)
Definition ComputeReplayExecutorPayout (assuranceFee : Z) (category : string) (cfg : AssuranceConfig) r :
    ReplayReserve St * (Z * Z) :=
  let basePayout := f64_share assuranceFee (ReplayExecutorShare cfg) in
  if decide (MinReplayPayout cfg <= basePayout) then (r, (basePayout, 0))
  else
    let shortfall := u64 (MinReplayPayout cfg - basePayout) in
    let '(r, res) := rr_Draw category shortfall r in
    let drawn := default 0 res in
    (r, (u64 (basePayout + drawn), drawn)).

Definition ProcessSettlement (assuranceFee : Z) (category : string) (replayOccurred : bool)
    (reserve : option (ReplayReserve St)) (cfg : AssuranceConfig) :
    option (ReplayReserve St) * option FeeSplitResult :=
  let result := ComputeFeeSplit assuranceFee replayOccurred cfg in
  match reserve with
  | None => (None, Some result)
  | Some r =>
      if negb replayOccurred && bool_decide (0 < ReplayReservePortion result) then
        let '(r', ok) := rr_Accrue category (ReplayReservePortion result) r in
        (Some r', if ok then Some result else None)
      else (Some r, Some result)
  end.

(** * The security floor *)

Record SecurityFloor := mkFloor {
  sf_states : gmap string F64;
  sf_cfg : AssuranceConfig;
}.

Definition NewSecurityFloor (cfg : AssuranceConfig) : SecurityFloor := mkFloor ∅ cfg.

Definition sf_SetState (category : string) (validatorCount : F64) (sf : SecurityFloor) : SecurityFloor :=
  mkFloor (<[category := validatorCount]> (sf_states sf)) (sf_cfg sf).

Definition floorForLane (sf : SecurityFloor) (lane : AssuranceLane) : F64 :=
  if decide (lane = LaneStandard) then SecurityFloorStandard (sf_cfg sf)
  else if decide (lane = LaneHighAssurance) then SecurityFloorHigh (sf_cfg sf)
  else if decide (lane = LaneEnterprise) then SecurityFloorEnterprise (sf_cfg sf)
  else mkF64 0 1.

Definition bestAvailableLane (sf : SecurityFloor) (count : F64) : AssuranceLane :=
  if f64_leb (SecurityFloorEnterprise (sf_cfg sf)) count then LaneEnterprise
  else if f64_leb (SecurityFloorHigh (sf_cfg sf)) count then LaneHighAssurance
  else if f64_leb (SecurityFloorStandard (sf_cfg sf)) count then LaneStandard
  else LaneNone.

(** [CheckLane]; [rr] is the reserve set by [SetReplayReserve]. *)
Definition sf_CheckLane (category : string) (lane : AssuranceLane) (sf : SecurityFloor)
    (rr : option (ReplayReserve St)) : option (ReplayReserve St) * AssuranceFeeResult :=
  if decide (lane = LaneNone) then (rr, mkFeeResult LaneNone 0 0)
  else
    let count := default (mkF64 0 1) (sf_states sf !! category) in
    if f64_leb (floorForLane sf lane) count then
      match rr with
      | None => (rr, mkFeeResult lane 0 0)
      | Some r =>
          let '(r', healthy) := rr_CategoryHealthy category r in
          (Some r', mkFeeResult (if healthy : bool then lane else LaneNone) 0 0)
      end
    else (rr, mkFeeResult (bestAvailableLane sf count) 0 0).

Definition IsStructuredCategory (sf : SecurityFloor) (category : string) : bool :=
  bool_decide (category ∈ StructuredCategories (sf_cfg sf)).
End reserve.

(** * Challenge bonds *)

Inductive ChallengeStatus :=
  | ChallengeOpen | ChallengeSucceeded | ChallengeFailed | ChallengePartial | ChallengeOther (s : string).

#[global] Instance ChallengeStatus_eq_dec : EqDecision ChallengeStatus.
Proof. solve_decision. Defined.

Record Challenge := mkChallenge {
  ch_ID : string;
  ch_TaskID : string;
  ch_ChallengerID : string;
  ch_TargetID : string;
  ch_Bond : Z;
  ch_Status : ChallengeStatus;
  ch_CreatedAt : Z;
  ch_ResolvedAt : Z;
}.

Record ChallengeResolution := mkResolution {
  res_ChallengeID : string;
  res_Outcome : ChallengeStatus;
  FraudBounty : Z;
  RefundedBond : Z;
  ForfeitAmount : Z;
  AccusedShare : Z;
  ReserveSplit : Z;
}.

Inductive ChallengeError :=
  | ErrChallengeNotFound (id : string)
  | ErrChallengeAlreadyResolved (id : string) (s : ChallengeStatus)
  | ErrChallengeInvalidOutcome (s : ChallengeStatus)
  | ErrChallengePersist
  | ErrChallengeLoad.

(** [json.Marshal] and [json.Unmarshal] of a challenge. *)
Class ChallengeCodec : Type := {
  marshal_challenge : Challenge → option string;
  unmarshal_challenge : string → option Challenge;
}.

(** [challenges]; the store holds the encoded challenges by ID. *)
Record ChallengeManager (St : Type) := mkChallenges {
  cm_challenges : gmap string Challenge;
  cm_store : option St;
  cm_cfg : AssuranceConfig;
}.
#[global] Arguments mkChallenges {St} _ _ _.
#[global] Arguments cm_challenges {St} _.
#[global] Arguments cm_store {St} _.
#[global] Arguments cm_cfg {St} _.

Section challenges.
Context {St : Type} `{!Persistence St (string * string), !ChallengeCodec, !F64Conv}.
Implicit Types (m : ChallengeManager St).

Definition NewChallengeManager (cfg : AssuranceConfig) (s : option St) : ChallengeManager St := mkChallenges ∅ s cfg.

Definition set_challenges (c : gmap string Challenge) m : ChallengeManager St :=
  mkChallenges c (cm_store m) (cm_cfg m).

(** The loop of [LoadChallengesFromStore]. *)
Fixpoint load_challenges (blobs : list (string * string)) (acc : gmap string Challenge) : option (gmap string Challenge) :=
  match blobs with
  | [] => Some acc
  | (_, blob) :: rest => c ← unmarshal_challenge blob; load_challenges rest (<[ch_ID c := c]> acc)
  end.

Definition LoadChallengesFromStore (cfg : AssuranceConfig) (s : option St) : ChallengeError + ChallengeManager St :=
  match s with
  | None => inr (NewChallengeManager cfg None)
  | Some st =>
      match store_all st with
      | None => inl ErrChallengeLoad
      | Some blobs => match load_challenges blobs ∅ with
                      | None => inl ErrChallengeLoad
                      | Some c => inr (mkChallenges c (Some st) cfg)
                      end
      end
  end.

Definition ComputeBond (taskBudget : Z) (cfg : AssuranceConfig) : Z :=
  let computed := f64_to_u64 (f64_mul (ChallengeBondRate cfg) (f64_of_u64 taskBudget)) in
  if decide (computed < ChallengeBondFloor cfg) then ChallengeBondFloor cfg else computed.

Definition MinBond (taskBudget : Z) m : Z := ComputeBond taskBudget (cm_cfg m).

(** [generateChallengeID]: twelve bytes of the hash. *)
Definition generateChallengeID (taskID challengerID : string) (now : Z) : string :=
  "chal-" +:+ String.substring 0 24 (sha256_hex (taskID +:+ "|" +:+ challengerID +:+ "|" +:+ pretty now)).

Definition cm_persist (c : Challenge) m : ChallengeManager St * bool :=
  match cm_store m with
  | None => (m, true)
  | Some s =>
      match marshal_challenge c with
      | None => (m, false)
      | Some data => let '(s', ok) := store_put (ch_ID c, data) s in
                     (mkChallenges (cm_challenges m) (Some s') (cm_cfg m), ok)
      end
  end.

Definition OpenChallenge (taskID challengerID targetID : string) (bond now : Z) m :
    ChallengeManager St * (ChallengeError + Challenge) :=
  let id := generateChallengeID taskID challengerID now in
  let c := mkChallenge id taskID challengerID targetID bond ChallengeOpen now 0 in
  let '(m, ok) := cm_persist c m in
  if ok then (set_challenges (<[id := c]> (cm_challenges m)) m, inr c) else (m, inl ErrChallengePersist).

Definition valid_outcome (outcome : ChallengeStatus) : bool :=
  match outcome with ChallengeSucceeded | ChallengeFailed | ChallengePartial => true | _ => false end.

Definition set_resolved (outcome : ChallengeStatus) (now : Z) (c : Challenge) : Challenge :=
  mkChallenge (ch_ID c) (ch_TaskID c) (ch_ChallengerID c) (ch_TargetID c) (ch_Bond c) outcome (ch_CreatedAt c) now.

(** The economic outcome. *)
Definition resolution (challengeID : string) (outcome : ChallengeStatus) (fraudBounty bond : Z) : ChallengeResolution :=
  match outcome with
  | ChallengeSucceeded => mkResolution challengeID outcome fraudBounty bond 0 0 0
  | ChallengeFailed => mkResolution challengeID outcome 0 0 bond (bond / 2) (u64 (bond - bond / 2))
  | ChallengePartial => mkResolution challengeID outcome 0 bond 0 0 0
  | _ => mkResolution challengeID outcome 0 0 0 0 0
  end.

Definition ResolveChallenge (challengeID : string) (outcome : ChallengeStatus) (fraudBounty now : Z) m :
    ChallengeManager St * (ChallengeError + ChallengeResolution) :=
  if negb (valid_outcome outcome) then (m, inl (ErrChallengeInvalidOutcome outcome))
  else match cm_challenges m !! challengeID with
  | None => (m, inl (ErrChallengeNotFound challengeID))
  | Some c =>
      if decide (ch_Status c ≠ ChallengeOpen) then (m, inl (ErrChallengeAlreadyResolved challengeID (ch_Status c)))
      else
        let c := set_resolved outcome now c in
        let '(m, ok) := cm_persist c (set_challenges (<[challengeID := c]> (cm_challenges m)) m) in
        (m, if ok then inr (resolution challengeID outcome fraudBounty (ch_Bond c)) else inl ErrChallengePersist)
  end.

Definition GetChallenge (challengeID : string) m : ChallengeError + Challenge :=
  match cm_challenges m !! challengeID with
  | None => inl (ErrChallengeNotFound challengeID)
  | Some c => inr c
  end.

Definition ChallengesForTask `{!RangeOrder} (taskID : string) m : list Challenge :=
  filter (λ c, ch_TaskID c = taskID) (range_map (cm_challenges m)).
End challenges.

(** * Bootstrap *)

Record BootstrapRates := mkRates { BaselineReplay : F64; GenerationReplay : F64; NewAgentReplay : F64 }.

Record BootstrapOverride := mkBootstrap {
  bo_cfg : AssuranceConfig;
  bo_launchTime : Z;
  bo_normalRates : BootstrapRates;
}.




(** [count] is the answer of [counter.ActiveEligibleCount()]. *)
Definition IsBootstrapActive (b : BootstrapOverride) (count now : Z) : bool :=
  let durationMet := bool_decide (i64 (i64 (BootstrapDurationDays (bo_cfg b) * 24) * 3600000000000) <= now - bo_launchTime b) in
  let validatorsMet := bool_decide (BootstrapMinValidators (bo_cfg b) <= count) in
  negb (durationMet && validatorsMet).

Definition EffectiveReplayRates (b : BootstrapOverride) (count now : Z) : BootstrapRates :=
  if IsBootstrapActive b count now
  then mkRates (BootstrapBaselineReplay (bo_cfg b)) (BootstrapGenerationReplay (bo_cfg b)) (BootstrapNewAgentReplay (bo_cfg b))
  else bo_normalRates b.

Definition EffectiveRates (b : BootstrapOverride) (count now : Z) : F64 * F64 * F64 :=
  let r := EffectiveReplayRates b count now in (BaselineReplay r, GenerationReplay r, NewAgentReplay r).

Definition ComputeBootstrapReward `{!F64Conv} (b : BootstrapOverride) (monthsSinceLaunch monthlyVolume : Z) : Z :=
  if decide (BootstrapSunsetMonths (bo_cfg b) <= monthsSinceLaunch) then 0
  else
    let target := BootstrapTargetMonthlyVolume (bo_cfg b) in
    if decide (target = 0 ∨ target <= monthlyVolume) then 0
    else f64_share (BootstrapBaseReward (bo_cfg b)) (f64_sub f64_one (f64_ratio monthlyVolume target)).

(** * Theorems *)

(** ** Fees *)

Section fees.
Context {conv : F64Conv}.

(** A fraction the configuration may use. *)
Definition fraction (r : F64) : Prop := f64_ok r ∧ (f64_Q r <= 1 - 3 * ulp)%Q.

Definition sum_Q (rs : list F64) : Q := foldr (λ r q, f64_Q r + q)%Q 0%Q rs.

Definition shares (x : Z) (rs : list F64) : Z := sum_list_Z (f64_share x <$> rs).

Lemma shares_bound x rs : is_u64 x → Forall fraction rs →
  0 <= shares x rs ∧ (inject_Z (shares x rs) <= inject_Z x * (sum_Q rs * (1 + 3 * ulp)))%Q.
Proof.
  intros Hx. induction 1 as [|r rs [Hok Hr] _ [IH0 IH]]; 
    [split; [done|change (inject_Z (shares x [])) with 0%Q; change (sum_Q []) with 0%Q; lra]|].
  destruct (f64_share_bound x r Hx Hok Hr) as [[Hs0 _] Hs].
  change (shares x (r :: rs)) with (f64_share x r + shares x rs). split; [lia|].
  rewrite inject_Z_plus. cbn [sum_Q foldr]. fold (sum_Q rs). unfold ulp in *. lra.
Qed.

(** Shares of at most the whole do not exceed the amount: the rounding errors
    add up to less than one unit. *)
Lemma shares_le x rs : 0 <= x < 2 ^ 50 → Forall fraction rs → (sum_Q rs <= 1 + ulp)%Q → 0 <= shares x rs <= x.
Proof.
  intros Hx Hrs Hsum. assert (is_u64 x) as Hu by (unfold is_u64, u64_mod; lia).
  destruct (shares_bound x rs Hu Hrs) as [H0 Hb]. split; [done|].
  enough (inject_Z (shares x rs) < inject_Z (x + 1))%Q as Hlt by (rewrite <- Zlt_Qlt in Hlt; lia).
  rewrite inject_Z_plus. set (S := inject_Z (shares x rs)) in *. set (X := inject_Z x) in *.
  assert (0 <= X)%Q by (change 0%Q with (inject_Z 0); unfold X; rewrite <- Zle_Qle; lia).
  assert (X <= 1125899906842624)%Q as HX.
  { change 1125899906842624%Q with (inject_Z 1125899906842624). unfold X. rewrite <- Zle_Qle. change (2 ^ 50) with 1125899906842624 in Hx. lia. }
  assert (sum_Q rs * (1 + 3 * ulp) <= 1 + 5 * ulp)%Q as Hq.
  { eapply Qle_trans; [apply Qmult_le_compat_r; [exact Hsum|unfold ulp; lra]|]. unfold ulp. lra. }
  assert (X * (sum_Q rs * (1 + 3 * ulp)) <= X * (1 + 5 * ulp))%Q as Hm.
  { rewrite !(Qmult_comm X). by apply Qmult_le_compat_r. }
  change (inject_Z 1) with 1%Q. unfold ulp in *. lra.
Qed.

(** The fractions of a configuration are fractions, and those of one amount add
    up to at most one. *)
Record splittable (cfg : AssuranceConfig) : Prop := {
  split_no_replay : Forall fraction [VerifierShareNoReplay cfg; ReplayReserveShare cfg];
  split_no_replay_sum : (sum_Q [VerifierShareNoReplay cfg; ReplayReserveShare cfg] <= 1 + ulp)%Q;
  split_replay : Forall fraction [VerifierShareWithReplay cfg; ReplayExecutorShare cfg];
  split_replay_sum : (sum_Q [VerifierShareWithReplay cfg; ReplayExecutorShare cfg] <= 1 + ulp)%Q;
  split_protocol : Forall fraction [TreasuryShareOfProtocol cfg; DisputeShareOfProtocol cfg; CanaryShareOfProtocol cfg];
  split_protocol_sum :
    (sum_Q [TreasuryShareOfProtocol cfg; DisputeShareOfProtocol cfg; CanaryShareOfProtocol cfg] <= 1 + ulp)%Q;
}.

Lemma splitProtocol_sum p cfg : splittable cfg → 0 <= p < 2 ^ 50 →
  let '(treasury, dispute, canary) := splitProtocol p cfg in
  0 <= treasury ∧ 0 <= dispute ∧ 0 <= canary ∧ treasury + dispute + canary = p.
Proof.
  intros Hcfg Hp. unfold splitProtocol. case_decide; [lia|]. cbv zeta.
  pose proof (shares_le p _ Hp (split_protocol cfg Hcfg) (split_protocol_sum cfg Hcfg)) as Hs.
  pose proof (split_protocol cfg Hcfg) as Hf. rewrite !Forall_cons in Hf. destruct Hf as ([Ht1 Ht2] & [Hd1 Hd2] & [Hc1 Hc2] & _).
  assert (is_u64 p) as Hu by (unfold is_u64, u64_mod; lia).
  pose proof (f64_share_bound p _ Hu Ht1 Ht2) as [[Ht _] _].
  pose proof (f64_share_bound p _ Hu Hd1 Hd2) as [[Hd _] _].
  pose proof (f64_share_bound p _ Hu Hc1 Hc2) as [[Hc _] _].
  unfold shares in Hs. cbn [fmap list_fmap sum_list_Z foldr] in Hs.
  set (t := f64_share p (TreasuryShareOfProtocol cfg)) in *. set (d := f64_share p (DisputeShareOfProtocol cfg)) in *.
  set (c := f64_share p (CanaryShareOfProtocol cfg)) in *.
  unfold is_u64, u64_mod in Hu. rewrite !u64_small by (unfold is_u64, u64_mod; rewrite ?u64_small; unfold is_u64, u64_mod; lia).
  lia.
Qed.

(** The split of an assurance fee conserves it.  For a configuration whose fractions add up to at most one (to
    within a rounding error) and a fee below 2^50, the payouts to verifier, reserve, executor, treasury, dispute
    reserve and canary budget are non-negative and add up to the fee exactly: no subtraction wraps around. *)
Theorem fee_split_conserves fee replayed cfg :
  splittable cfg → 0 <= fee < 2 ^ 50 →
  let r := ComputeFeeSplit fee replayed cfg in
  Forall (λ part, 0 <= part)
    [VerifierPayout r; ReplayReservePortion r; ReplayExecutorPayout r; TreasuryAmount r; DisputeReserveAmount r;
     CanaryReserveAmount r]
  ∧ VerifierPayout r + ReplayReservePortion r + ReplayExecutorPayout r + TreasuryAmount r + DisputeReserveAmount r
    + CanaryReserveAmount r = fee
  ∧ (if replayed then ReplayReservePortion r = 0 else ReplayExecutorPayout r = 0).
Proof.
  intros Hcfg Hfee. cbv zeta. unfold ComputeFeeSplit. case_decide as H0.
  { subst fee. cbn. split; [repeat constructor; lia|]. by destruct replayed. }
  assert (is_u64 fee) as Hu by (unfold is_u64, u64_mod; lia).
  destruct replayed; cbv zeta.
  - pose proof (shares_le fee _ Hfee (split_replay cfg Hcfg) (split_replay_sum cfg Hcfg)) as Hs.
    pose proof (split_replay cfg Hcfg) as Hf. rewrite !Forall_cons in Hf. destruct Hf as ([Ha1 Ha2] & [Hb1 Hb2] & _).
    pose proof (f64_share_bound fee _ Hu Ha1 Ha2) as [[Ha _] _]. pose proof (f64_share_bound fee _ Hu Hb1 Hb2) as [[Hb _] _].
    unfold shares in Hs. cbn [fmap list_fmap sum_list_Z foldr] in Hs.
    rewrite u64_small by (unfold is_u64, u64_mod in *; lia).
    set (p := fee - _ - _). pose proof (splitProtocol_sum p cfg Hcfg ltac:(lia)) as Hp.
    destruct (splitProtocol p cfg) as [[t d] c]. cbn. split; [repeat constructor; lia|]. lia.
  - pose proof (shares_le fee _ Hfee (split_no_replay cfg Hcfg) (split_no_replay_sum cfg Hcfg)) as Hs.
    pose proof (split_no_replay cfg Hcfg) as Hf. rewrite !Forall_cons in Hf. destruct Hf as ([Ha1 Ha2] & [Hb1 Hb2] & _).
    pose proof (f64_share_bound fee _ Hu Ha1 Ha2) as [[Ha _] _]. pose proof (f64_share_bound fee _ Hu Hb1 Hb2) as [[Hb _] _].
    unfold shares in Hs. cbn [fmap list_fmap sum_list_Z foldr] in Hs.
    rewrite u64_small by (unfold is_u64, u64_mod in *; lia).
    set (p := fee - _ - _). pose proof (splitProtocol_sum p cfg Hcfg ltac:(lia)) as Hp.
    destruct (splitProtocol p cfg) as [[t d] c]. cbn. split; [repeat constructor; lia|]. lia.
Qed.

(** The fee of a lane: never more than the budget, at least the floor of the
    lane if the budget covers it; fee and net payout make up the budget. *)
Lemma ComputeAssuranceFee_spec budget lane cfg :
  is_u64 budget →
  match ComputeAssuranceFee budget lane cfg with
  | inr r => fr_Lane r = lane ∧ 0 <= fr_Fee r ∧ 0 <= fr_NetPayout r
      ∧ (lane = LaneNone → fr_Fee r = 0 ∧ fr_NetPayout r = 0)
      ∧ (lane ≠ LaneNone → fr_Fee r + fr_NetPayout r = budget ∧ MinTaskBudgetAssured cfg <= budget
           ∧ ∃ rate floor, lane_rate lane cfg = Some (rate, floor) ∧ Z.min floor budget <= fr_Fee r)
  | inl (ErrBudgetBelowMinimum b m) => b = budget ∧ m = MinTaskBudgetAssured cfg ∧ budget < m
  | inl (ErrUnknownLane l) => l = lane ∧ lane_rate lane cfg = None
  end.
Proof.
  intros Hb. unfold ComputeAssuranceFee. case_decide as Hl; [subst; cbn; done|]. case_decide as Hm; [done|].
  destruct (lane_rate lane cfg) as [[rate floor]|] eqn:Hr; [|done]. cbv zeta.
  assert (0 <= f64_to_u64 (f64_Round (f64_mul (f64_of_u64 budget) rate))) as H0.
  { unfold f64_to_u64. case_decide as Hd; [unfold is_u64 in Hd; lia|]. by destruct (u64_out_of_range_u64 (f64_trunc (f64_Round (f64_mul (f64_of_u64 budget) rate)))). }
  set (f := f64_to_u64 _) in *. clearbody f. unfold is_u64 in Hb.
  assert (∀ x, 0 <= x <= budget → u64 (budget - x) = budget - x) as Hsub by (intros x Hx; apply u64_small; unfold is_u64; lia).
  repeat case_decide; cbn; rewrite Hsub by lia; split_and!; try done; try lia; intros _; split_and!; try lia; 
    eexists _, _; (split; [done|]); lia.
Qed.
End fees.

(** ** The replay reserve *)

(** A store none of whose operations fails. *)
Class ReliableReserve (St : Type) `{!ReserveStore St} : Prop := {
  reliable_get c s : reserve_get c s ≠ None;
  reliable_reserve_put c v s : (reserve_put c v s).2 = true;
}.

(** One movement of a reserve. *)
Inductive Movement := Accrue (cat : string) (amount : Z) | Draw (cat : string) (amount : Z).

(** What the movements [ms] bring into the reserve of [cat]. *)
Fixpoint accrued (cat : string) (ms : list Movement) : Z :=
  match ms with
  | [] => 0
  | Accrue c a :: rest => (if decide (c = cat) then a else 0) + accrued cat rest
  | Draw _ _ :: rest => accrued cat rest
  end.

(** What the draws among [ms] took out of it, given what each draw paid. *)
Fixpoint drawn (cat : string) (ms : list Movement) (paid : list (option Z)) : Z :=
  match ms with
  | [] => 0
  | Accrue _ _ :: rest => drawn cat rest paid
  | Draw c _ :: rest =>
      match paid with
      | [] => 0
      | p :: paid' => (if decide (c = cat) then default 0 p else 0) + drawn cat rest paid'
      end
  end.

Definition movement_ok (mv : Movement) : Prop := match mv with Accrue _ a | Draw _ a => 0 <= a end.

Section reserve_theorems.
Context {St : Type} `{!ReserveStore St} {conv : F64Conv}.
Implicit Types (r : ReplayReserve St).

(** The movements in order, with what each draw paid. *)
Fixpoint rr_run (ms : list Movement) r : ReplayReserve St * list (option Z) :=
  match ms with
  | [] => (r, [])
  | Accrue cat amount :: rest => rr_run rest (rr_Accrue cat amount r).1
  | Draw cat amount :: rest =>
      let '(r, d) := rr_Draw cat amount r in
      let '(r, paid) := rr_run rest r in (r, d :: paid)
  end.

Context {laws : ReserveLaws St} {reliable : ReliableReserve St}.

(** The reserve a category has: the cached balance, or the stored one. *)
Definition rr_value r (cat : string) : Z :=
  match rr_balances r !! cat with
  | Some v => v
  | None => match rr_store r with Some s => default 0 (reserve_view s !! cat) | None => 0 end
  end.

(** Memory and store agree. *)
Definition rr_synced r : Prop :=
  ∀ s cat, rr_store r = Some s → default 0 (reserve_view s !! cat) = rr_value r cat.

Lemma lazyLoad_value cat r : rr_bal (rr_lazyLoad cat r) cat = rr_value r cat.
Proof.
  unfold rr_lazyLoad, rr_bal, rr_value. destruct (rr_store r) as [s|] eqn:Hs.
  - destruct (rr_balances r !! cat) as [v|] eqn:Hv; [by rewrite Hv|].
    destruct (reserve_get cat s) as [b|] eqn:Hg; [|by destruct (reliable_get cat s)].
    cbn. rewrite lookup_insert_eq. cbn. by eapply reserve_get_view.
  - by destruct (rr_balances r !! cat).
Qed.

Lemma lazyLoad_other cat c r : c ≠ cat → rr_balances (rr_lazyLoad cat r) !! c = rr_balances r !! c.
Proof. intros Hc. unfold rr_lazyLoad. repeat case_match; try done. cbn. by rewrite lookup_insert_ne. Qed.

Lemma lazyLoad_store cat r : rr_store (rr_lazyLoad cat r) = rr_store r.
Proof. unfold rr_lazyLoad. by repeat case_match. Qed.

(** Writing a balance changes the value of its category, in memory and in the
    store, and no other value. *)
Lemma persist_value cat v r :
  rr_synced r →
  let '(r', ok) := rr_persistLocked cat (set_balance cat v (rr_lazyLoad cat r)) in
  ok = true ∧ rr_synced r' ∧ ∀ c, rr_value r' c = if decide (c = cat) then v else rr_value r c.
Proof.
  intros Hsync. unfold rr_persistLocked. cbn [set_balance rr_store]. rewrite lazyLoad_store.
  assert (∀ c s', rr_value (mkReserve (<[cat := v]> (rr_balances (rr_lazyLoad cat r))) s' (rr_cfg r)) c
    = if decide (c = cat) then v else match rr_balances r !! c with Some v => v
        | None => match s' with Some s => default 0 (reserve_view s !! c) | None => 0 end end) as Hval.
  { intros c s'. unfold rr_value. cbn. case_decide as Hc; [subst; by rewrite lookup_insert_eq|].
    rewrite lookup_insert_ne, lazyLoad_other by done. done. }
  assert (rr_cfg (rr_lazyLoad cat r) = rr_cfg r) as Hcfg by (unfold rr_lazyLoad; by repeat case_match).
  destruct (rr_store r) as [s|] eqn:Hs.
  - unfold rr_bal, set_balance. cbn [rr_balances rr_cfg]. rewrite lookup_insert_eq, Hcfg. change (default 0 (Some v)) with v. cbv zeta.
    destruct (reserve_put cat v s) as [s' ok] eqn:Hput.
    assert (ok = true) as -> by (pose proof (reliable_reserve_put cat v s) as Hp; by rewrite Hput in Hp).
    pose proof (reserve_put_ok _ _ _ _ Hput) as Hview.
    assert (∀ c, default 0 (reserve_view s' !! c) = if decide (c = cat) then v else default 0 (reserve_view s !! c)) as Hv'.
    { intros c. rewrite Hview. destruct (decide (c = cat)) as [->|Hne]; [by rewrite lookup_insert_eq|by rewrite lookup_insert_ne]. }
    cbn [rr_balances]. split_and!; [done| |].
    + intros s1 c [= <-]. rewrite Hval, Hv'. destruct (decide (c = cat)); [done|]. rewrite (Hsync s c Hs). unfold rr_value. rewrite Hs.
      by destruct (rr_balances r !! c).
    + intros c. rewrite Hval. destruct (decide (c = cat)); [done|]. rewrite Hv'. rewrite decide_False by done. unfold rr_value. by rewrite Hs.
  - cbn [rr_balances rr_store rr_cfg]. unfold set_balance. rewrite lazyLoad_store, Hs, Hcfg. split_and!; [done|intros s c [=]|].
    intros c. rewrite Hval. case_decide; [done|]. unfold rr_value. by rewrite Hs.
Qed.

Lemma Accrue_value cat a r :
  rr_synced r → let '(r', ok) := rr_Accrue cat a r in
  ok = true ∧ rr_synced r' ∧ ∀ c, rr_value r' c = if decide (c = cat) then u64 (rr_value r cat + a) else rr_value r c.
Proof. intros Hs. unfold rr_Accrue. rewrite lazyLoad_value. by apply persist_value. Qed.

Lemma Draw_value cat a r :
  rr_synced r → is_u64 (rr_value r cat) → 0 <= a →
  let '(r', paid) := rr_Draw cat a r in
  paid = Some (Z.min a (rr_value r cat)) ∧ rr_synced r'
  ∧ ∀ c, rr_value r' c = if decide (c = cat) then rr_value r cat - Z.min a (rr_value r cat) else rr_value r c.
Proof.
  intros Hs Hu Ha. unfold rr_Draw. rewrite lazyLoad_value. unfold is_u64 in Hu.
  assert ((if decide (a > rr_value r cat) then rr_value r cat else a) = Z.min a (rr_value r cat)) as -> by (case_decide; lia).
  rewrite u64_small by (unfold is_u64; lia).
  pose proof (persist_value cat (rr_value r cat - Z.min a (rr_value r cat)) r Hs) as Hp.
  destruct (rr_persistLocked _ _) as [r' ok]. destruct Hp as (-> & Hs' & Hv). done.
Qed.

(** The replay reserve is solvent.  Over any sequence of accruals and draws the reserve of a category is exactly what
    it was plus what was accrued minus what the draws paid: no draw pays more than the reserve holds, and a reserve
    that is loaded again from the store has the same value, provided the total of the accruals stays in range. *)
Theorem reserve_solvent r ms cat :
  rr_synced r → Forall movement_ok ms → (∀ c, 0 <= rr_value r c ∧ rr_value r c + accrued c ms < u64_mod) →
  let '(r', paid) := rr_run ms r in
  rr_value r' cat = rr_value r cat + accrued cat ms - drawn cat ms paid
  ∧ 0 <= drawn cat ms paid <= rr_value r cat + accrued cat ms
  ∧ rr_value (NewReplayReserve (rr_cfg r) (rr_store r')) cat = (if rr_store r' then rr_value r' cat else 0).
Proof.
  intros Hs Hms Hrange.
  assert (let '(r', paid) := rr_run ms r in rr_synced r' ∧ 0 <= rr_value r' cat ∧ 0 <= drawn cat ms paid
    ∧ rr_value r' cat = rr_value r cat + accrued cat ms - drawn cat ms paid) as Hrun.
  { revert r Hs Hrange. induction Hms as [|mv ms Hmv Hms IH]; intros r Hs Hrange.
    { pose proof (Hrange cat). cbn. split_and!; [done|lia|lia|lia]. }
    assert (∀ c, 0 <= accrued c ms) as Hacc.
    { clear -Hms. intros c. induction Hms as [|[]]; simpl in *; [lia| |done]. case_decide; lia. }
    destruct mv as [c a|c a]; cbn [rr_run accrued drawn movement_ok] in *; pose proof (Hrange c) as Hc.
    - pose proof (Accrue_value c a r Hs) as Hv. destruct (rr_Accrue c a r) as [r1 ok]. destruct Hv as (_ & Hs1 & Hv). cbn [fst].
      rewrite decide_True in Hc by done. specialize (Hacc c).
      rewrite u64_small in Hv by (unfold is_u64; lia).
      specialize (IH r1 Hs1). destruct (rr_run ms r1) as [r' paid]. rewrite Hv in IH.
      destruct IH as (? & ? & ? & IH).
      { intros c'. rewrite Hv. specialize (Hrange c'). repeat case_decide; subst; try done; lia. }
      split_and!; try done. repeat case_decide; subst; try done; lia.
    - specialize (Hacc c). pose proof (Draw_value c a r Hs ltac:(unfold is_u64; lia) Hmv) as Hv.
      destruct (rr_Draw c a r) as [r1 d]. destruct Hv as (-> & Hs1 & Hv).
      specialize (IH r1 Hs1). destruct (rr_run ms r1) as [r' paid]. rewrite Hv in IH.
      set (p := Z.min a (rr_value r c)) in *. assert (0 <= p <= rr_value r c) by (unfold p; lia).
      change (default 0 (Some p)) with p. clearbody p.
      destruct IH as (? & ? & ? & IH).
      { intros c'. rewrite Hv. specialize (Hrange c'). repeat case_decide; subst; try done; lia. }
      split_and!; try done; repeat case_decide; subst; try done; lia. }
  destruct (rr_run ms r) as [r' paid]. destruct Hrun as (Hs' & H0 & Hd & Hv). split_and!; [done|lia|lia|].
  unfold rr_value at 1. cbn. destruct (rr_store r') as [s'|] eqn:Hst; [|done]. by apply Hs'.
Qed.
End reserve_theorems.

(** ** Challenges *)

Section challenge_theorems.
Context {St : Type} `{!Persistence St (string * string), !ChallengeCodec}.
Implicit Types (m : ChallengeManager St).

(** A resolution conserves the bond, is final, and happens to open challenges
    only. *)
Lemma ResolveChallenge_spec id outcome bounty now m m' res :
  ResolveChallenge id outcome bounty now m = (m', inr res) →
  ∃ c, cm_challenges m !! id = Some c ∧ ch_Status c = ChallengeOpen ∧ valid_outcome outcome = true
    ∧ cm_challenges m' = <[id := set_resolved outcome now c]> (cm_challenges m)
    ∧ (is_u64 (ch_Bond c) → RefundedBond res + ForfeitAmount res = ch_Bond c
         ∧ AccusedShare res + ReserveSplit res = ForfeitAmount res)
    ∧ (FraudBounty res ≠ 0 → outcome = ChallengeSucceeded)
    ∧ ∀ outcome' bounty' now', ∃ err, ResolveChallenge id outcome' bounty' now' m' = (m', inl err).
Proof.
  unfold ResolveChallenge at 1. destruct (valid_outcome outcome) eqn:Hv; [|done]. cbn [negb].
  destruct (cm_challenges m !! id) as [c|] eqn:Hc; [|done]. case_decide as Hopen; [done|]. cbv zeta.
  destruct (cm_persist _ _) as [m1 ok] eqn:Hp. destruct ok; [|done]. intros [= <- <-].
  assert (cm_challenges m1 = <[id := set_resolved outcome now c]> (cm_challenges m)) as Hm1.
  { unfold cm_persist in Hp. repeat case_match; simplify_eq; done. }
  exists c. split_and!; try done.
  - intros Hb. unfold is_u64, u64_mod in Hb. pose proof (Z.div_le_upper_bound (ch_Bond c) 2 (ch_Bond c) ltac:(lia) ltac:(lia)).
    pose proof (Z.div_pos (ch_Bond c) 2 ltac:(lia) ltac:(lia)).
    destruct outcome; try done; cbn; rewrite ?u64_small by (unfold is_u64, u64_mod; lia); lia.
  - by destruct outcome.
  - intros o' b' n'. unfold ResolveChallenge. destruct (valid_outcome o'); [|by eexists]. cbn [negb].
    rewrite Hm1, lookup_insert_eq. rewrite decide_True; [by eexists|]. cbn. by destruct outcome.
Qed.

(** A resolution that cannot be persisted is an error, but the challenge stays
    resolved in memory: the caller cannot retry it, and the bond is neither
    refunded nor forfeited. *)
Lemma ResolveChallenge_persist_failure id outcome bounty now m m' :
  ResolveChallenge id outcome bounty now m = (m', inl ErrChallengePersist) →
  ∀ outcome' bounty' now', valid_outcome outcome' = true →
    ResolveChallenge id outcome' bounty' now' m' = (m', inl (ErrChallengeAlreadyResolved id outcome)).
Proof.
  unfold ResolveChallenge at 1. destruct (valid_outcome outcome) eqn:Hv; [|done]. cbn [negb].
  destruct (cm_challenges m !! id) as [c|] eqn:Hc; [|done]. case_decide as Hopen; [done|]. cbv zeta.
  destruct (cm_persist _ _) as [m1 ok] eqn:Hp. destruct ok; [done|]. intros [= <-] o' b' n' Ho'.
  assert (cm_challenges m1 = <[id := set_resolved outcome now c]> (cm_challenges m)) as Hm1.
  { unfold cm_persist in Hp. repeat case_match; simplify_eq; done. }
  unfold ResolveChallenge. rewrite Ho'. cbn [negb]. rewrite Hm1, lookup_insert_eq. rewrite decide_True; [done|].
  cbn. by destruct outcome.
Qed.
End challenge_theorems.

(** * Concrete runs *)

#[global] Instance saturating_conv : F64Conv.
Proof. refine {| u64_out_of_range z := 0 |}. intros _. by unfold is_u64, u64_mod. Defined.

(** A store in memory. *)
#[global] Instance map_reserve : ReserveStore (gmap string Z) := {|
  reserve_put c v s := (<[c := v]> s, true);
  reserve_get c s := Some (default 0 (s !! c));
|}.

#[global] Program Instance map_reserve_laws : ReserveLaws (gmap string Z) := {| reserve_view s := s |}.
Solve All Obligations with by intros; simplify_eq/=.

#[global] Instance map_reserve_reliable : ReliableReserve (gmap string Z).
Proof. by split. Qed.

Lemma default_splittable : splittable DefaultAssuranceConfig.
Proof.
  split; cbn [VerifierShareNoReplay ReplayReserveShare VerifierShareWithReplay ReplayExecutorShare
    TreasuryShareOfProtocol DisputeShareOfProtocol CanaryShareOfProtocol DefaultAssuranceConfig];
    rewrite ?Forall_cons, ?Forall_nil; unfold fraction, f64_ok; split_and?; by vm_compute.
Qed.

Lemma fee_split_conserves_witness :
  let r := ComputeFeeSplit 2000000 false DefaultAssuranceConfig in
  VerifierPayout r = 1200000 ∧ ReplayReservePortion r = 500000 ∧ TreasuryAmount r = 200100
  ∧ VerifierPayout r + ReplayReservePortion r + ReplayExecutorPayout r + TreasuryAmount r + DisputeReserveAmount r
    + CanaryReserveAmount r = 2000000.
Proof.
  intros r. split; [vm_compute; reflexivity|]. split; [vm_compute; reflexivity|]. split; [vm_compute; reflexivity|].
  destruct (fee_split_conserves 2000000 false DefaultAssuranceConfig default_splittable ltac:(lia)) as (_ & Hsum & _).
  exact Hsum.
Defined.

Definition empty_reserve : ReplayReserve (gmap string Z) := NewReplayReserve DefaultAssuranceConfig (Some ∅).

Definition sample_movements : list Movement :=
  [Accrue "code" 500000; Draw "code" 200000; Accrue "data" 7; Draw "code" 900000].

Lemma reserve_solvent_witness :
  (rr_run sample_movements empty_reserve).2 = [Some 200000; Some 300000]
  ∧ let '(r', paid) := rr_run sample_movements empty_reserve in
    rr_value r' "code" = 0 + 500000 - drawn "code" sample_movements paid.
Proof.
  split; [vm_compute; reflexivity|].
  pose proof (reserve_solvent empty_reserve sample_movements "code") as Hs.
  destruct (rr_run sample_movements empty_reserve) as [r' paid].
  destruct Hs as [Hv _].
  - intros s cat [= <-]. reflexivity.
  - repeat constructor; done.
  - intros c. split; [reflexivity|]. cbn [accrued sample_movements].
    change (rr_value empty_reserve c) with 0. unfold u64_mod. repeat case_decide; lia.
  - exact Hv.
Defined.

(** A store whose writes fail. *)
Definition readonly_reserve : ReserveStore (gmap string Z) := {|
  reserve_put _ _ s := (s, false);
  reserve_get c s := Some (default 0 (s !! c));
|}.

(** An accrual that is not persisted is kept in memory all the same. *)
Lemma Accrue_keeps_unpersisted_amount :
  let '(r, ok) := @rr_Accrue _ readonly_reserve "code" 5 empty_reserve in ok = false ∧ rr_bal r "code" = 5.
Proof. vm_compute. done. Qed.

(** A store one of whose reads fails. *)
Definition unreadable_reserve : ReserveStore (gmap string Z) := {|
  reserve_put c v s := (<[c := v]> s, true);
  reserve_get _ _ := None;
|}.

(** When the balance of a category cannot be read, the next accrual overwrites
    it. *)
Lemma Accrue_overwrites_unread_balance :
  let r := @NewReplayReserve (gmap string Z) DefaultAssuranceConfig (Some {["code" := 1000]}) in
  let '(r', ok) := @rr_Accrue _ unreadable_reserve "code" 5 r in
  ok = true ∧ rr_store r' = Some ({["code" := 5]} : gmap string Z).
Proof. split; [vm_compute; reflexivity|]. apply (bool_decide_unpack _). vm_compute. exact I. Qed.
