(* ===== verification/Tasks.v ===== *)
(** internal/tasks/tasks.go: the task marketplace.

    A task is posted, claimed, submitted and then completed, cancelled, rejected
    or settled by a dispute.  The code's struct [Task] is flat; here its fields are
    grouped in three records, those fixed when the task is posted ([TaskSpec]),
    those of the current claim and those of the current result, and coercions
    give the accessors back.  A task is reached through a pointer in the map, so
    an operation replaces the entry it was found under.

    The store holds JSON: encoding and decoding are the operations of the class
    [TaskCodec].  The canary injector, which only observes tasks, acts on a world
    of its own.  Each operation takes the readings of the clock it makes, in
    nanoseconds. *)

From stdpp Require Import sets fin_sets fin_map_dom.
From S2P Require Import Prelude GoStd Store Event Float64 Assurance.

(** * Data *)

Inductive TaskStatus :=
  | TaskStatusOpen
  | TaskStatusClaimed
  | TaskStatusSubmitted
  | TaskStatusCompleted
  | TaskStatusDisputed
  | TaskStatusCancelled
  | TaskStatusRejected
  | TaskStatusDisputedResolved
  | TaskStatusOther (s : string).  (* any other string, "" included *)

#[global] Instance TaskStatus_eq_dec : EqDecision TaskStatus.
Proof. solve_decision. Defined.

Definition DefaultClaimDeadline : Z := 600000000000.
Definition MaxRejections : Z := 3.
Definition MinTaskBudget : Z := 100000.
Definition MaxCompletedAge : Z := 604800000000000.

Inductive TaskError :=
  | ErrTitleRequired
  | ErrBudgetRequired
  | ErrPosterRequired
  | ErrSecurityFloor (requested offered : AssuranceLane)
  | ErrAssuranceFee (e : AssuranceError)
  | ErrTaskNotFound (id : string)
  | ErrTaskAlreadyClaimed (id : string)
  | ErrTaskNotClaimed (id : string) (s : TaskStatus)
  | ErrTaskNotSubmitted (id : string) (s : TaskStatus)
  | ErrTaskNotOpen (id : string) (s : TaskStatus)
  | ErrTaskNotDisputed (id : string) (s : TaskStatus)
  | ErrWrongClaimer (id : string)
  | ErrWrongPoster (id : string)
  | ErrNotClaimer (id : string)
  | ErrSelfClaim (id : string)
  | ErrTaskAlreadyRouted (id : string) (agent : string)
  | ErrUnknownConsensusVerdict (verdict : string)
  | ErrSubtaskBudget (budget remaining : Z)
  | ErrLoadTasks
  | ErrUnmarshalTask.

(** [evidence.Evidence] and [evidence.Score]. *)
Record Evidence := mkEvidence {
  ev_Hash : string;
  ev_OutputType : string;
  ev_OutputSize : Z;
  ev_Summary : string;
  ev_InputHash : string;
  ev_Metrics : gmap string string;
  ev_OutputPreview : string;
  ev_OutputURL : string;
  ev_ResultContent : string;
  ev_GenesisChain : list string;
  ev_ExplorationRoot : string;
  ev_ExplorationSample : list string;
  ev_ProducerSignature : string;
  ev_ProducerPublicKey : string;
  ev_ValidatorSignature : string;
  ev_ValidatorPublicKey : string;
}.

Record Score := mkScore { sc_Relevance : F64; sc_Completeness : F64; sc_Quality : F64; sc_Overall : F64 }.

Record AcceptanceContract := mkContract {
  ac_SpecHash : string;
  ac_SuccessCriteria : list string;
  ac_RequiredChecks : list string;
  ac_PolicyVersion : string;
  ac_ChallengeWindowSecs : Z;
  ac_GenerationEligible : bool;
  ac_MaxDeliveryTimeSecs : Z;
  ac_AssuranceLane : AssuranceLane;
}.

Definition no_contract : AcceptanceContract := mkContract "" [] [] "" 0 false 0 "".

Record PostTaskOpts := mkPostTaskOpts {
  o_TaskID : string;
  o_DeliveryMethod : string;
  o_SuccessCriteria : list string;
  o_RequiredChecks : list string;
  o_PolicyVersion : string;
  o_ChallengeWindowSecs : Z;
  o_GenerationEligible : option bool;
  o_MaxDeliveryTimeSecs : Z;
  o_AssuranceLane : AssuranceLane;
}.

(** The zero value. *)
Definition no_opts : PostTaskOpts := mkPostTaskOpts "" "" [] [] "" 0 None 0 "".

(** The fields of [Task] that are set when it is posted. *)
Record TaskSpec := mkTaskSpec {
  t_ID : string;
  t_Title : string;
  t_Description : string;
  t_Category : string;
  t_PosterID : string;
  t_PostedAt : Z;
  t_Tags : list string;
  t_ParentTaskID : string;
  t_IsSubtask : bool;
  t_DeliveryMethod : string;
  t_Contract : AcceptanceContract;
  t_AssuranceFee : Z;
  t_WorkerNetPayout : Z;
}.

(** The fields a claim sets. *)
Record TaskClaim := mkTaskClaim {
  t_ClaimerID : string;
  t_ClaimEventID : string;
  t_ClaimedAt : Z;
  t_ClaimDeadline : Z;
}.

(** The fields a submission sets. *)
Record TaskResult := mkTaskResult {
  t_ResultHash : string;
  t_ResultNote : string;
  t_ResultURI : string;
  t_ResultContent : string;
  t_ResultEncrypted : bool;
  t_SubmitEventID : string;
  t_SubmittedAt : Z;
  t_SubmittedEvidence : option Evidence;
  t_VerificationScore : option Score;
  t_EvidenceBodyHash : string;
  t_EvidenceReady : bool;
}.

Record Task := mkTask {
  t_spec :> TaskSpec;
  t_claim :> TaskClaim;
  t_result :> TaskResult;
  t_PostEventID : string;
  t_Budget : Z;
  t_Status : TaskStatus;
  t_SubtaskIDs : list string;
  t_RoutedTo : string;
  t_RoutedAt : Z;
  t_ReplayStatus : string;
  t_ReplayJobID : string;
  t_GenerationStatus : string;
  t_RejectionCount : Z;
  t_DisputedAt : Z;
  t_CompletedAt : Z;
}.

(** ** Assignments to fields *)

Section updates.
Implicit Types (t : Task).

Definition with_claim (c : TaskClaim) t : Task :=
  mkTask t c t (t_PostEventID t) (t_Budget t) (t_Status t) (t_SubtaskIDs t) (t_RoutedTo t) (t_RoutedAt t)
    (t_ReplayStatus t) (t_ReplayJobID t) (t_GenerationStatus t) (t_RejectionCount t) (t_DisputedAt t) (t_CompletedAt t).

Definition with_result (r : TaskResult) t : Task :=
  mkTask t t r (t_PostEventID t) (t_Budget t) (t_Status t) (t_SubtaskIDs t) (t_RoutedTo t) (t_RoutedAt t)
    (t_ReplayStatus t) (t_ReplayJobID t) (t_GenerationStatus t) (t_RejectionCount t) (t_DisputedAt t) (t_CompletedAt t).

Definition with_PostEventID (id : string) t : Task :=
  mkTask t t t id (t_Budget t) (t_Status t) (t_SubtaskIDs t) (t_RoutedTo t) (t_RoutedAt t)
    (t_ReplayStatus t) (t_ReplayJobID t) (t_GenerationStatus t) (t_RejectionCount t) (t_DisputedAt t) (t_CompletedAt t).

Definition with_Status (s : TaskStatus) t : Task :=
  mkTask t t t (t_PostEventID t) (t_Budget t) s (t_SubtaskIDs t) (t_RoutedTo t) (t_RoutedAt t)
    (t_ReplayStatus t) (t_ReplayJobID t) (t_GenerationStatus t) (t_RejectionCount t) (t_DisputedAt t) (t_CompletedAt t).

Definition with_subtask (budget : Z) (ids : list string) t : Task :=
  mkTask t t t (t_PostEventID t) budget (t_Status t) ids (t_RoutedTo t) (t_RoutedAt t)
    (t_ReplayStatus t) (t_ReplayJobID t) (t_GenerationStatus t) (t_RejectionCount t) (t_DisputedAt t) (t_CompletedAt t).

Definition with_routing (agent : string) (at_ : Z) t : Task :=
  mkTask t t t (t_PostEventID t) (t_Budget t) (t_Status t) (t_SubtaskIDs t) agent at_
    (t_ReplayStatus t) (t_ReplayJobID t) (t_GenerationStatus t) (t_RejectionCount t) (t_DisputedAt t) (t_CompletedAt t).

Definition with_replay (status job : string) t : Task :=
  mkTask t t t (t_PostEventID t) (t_Budget t) (t_Status t) (t_SubtaskIDs t) (t_RoutedTo t) (t_RoutedAt t)
    status job (t_GenerationStatus t) (t_RejectionCount t) (t_DisputedAt t) (t_CompletedAt t).

Definition with_GenerationStatus (s : string) t : Task :=
  mkTask t t t (t_PostEventID t) (t_Budget t) (t_Status t) (t_SubtaskIDs t) (t_RoutedTo t) (t_RoutedAt t)
    (t_ReplayStatus t) (t_ReplayJobID t) s (t_RejectionCount t) (t_DisputedAt t) (t_CompletedAt t).

Definition with_RejectionCount (n : Z) t : Task :=
  mkTask t t t (t_PostEventID t) (t_Budget t) (t_Status t) (t_SubtaskIDs t) (t_RoutedTo t) (t_RoutedAt t)
    (t_ReplayStatus t) (t_ReplayJobID t) (t_GenerationStatus t) n (t_DisputedAt t) (t_CompletedAt t).

Definition with_DisputedAt (at_ : Z) t : Task :=
  mkTask t t t (t_PostEventID t) (t_Budget t) (t_Status t) (t_SubtaskIDs t) (t_RoutedTo t) (t_RoutedAt t)
    (t_ReplayStatus t) (t_ReplayJobID t) (t_GenerationStatus t) (t_RejectionCount t) at_ (t_CompletedAt t).

Definition with_CompletedAt (at_ : Z) t : Task :=
  mkTask t t t (t_PostEventID t) (t_Budget t) (t_Status t) (t_SubtaskIDs t) (t_RoutedTo t) (t_RoutedAt t)
    (t_ReplayStatus t) (t_ReplayJobID t) (t_GenerationStatus t) (t_RejectionCount t) (t_DisputedAt t) at_.
End updates.

(** The zero values of the claim and result fields. *)
Definition no_claim : TaskClaim := mkTaskClaim "" "" 0 0.
Definition no_result : TaskResult := mkTaskResult "" "" "" "" false "" 0 None None "" false.

(** ** Payloads of the task events

    The schema version of a payload is not read. *)

Notation EventTypeTaskPosted := "TaskPosted" (only parsing).
Notation EventTypeTaskClaimed := "TaskClaimed" (only parsing).
Notation EventTypeTaskSubmitted := "TaskSubmitted" (only parsing).
Notation EventTypeTaskApproved := "TaskApproved" (only parsing).
Notation EventTypeTaskDisputed := "TaskDisputed" (only parsing).

Record TaskPostedPayload := mkPosted {
  pp_TaskID : string; pp_PosterID : string; pp_Title : string; pp_Description : string; pp_Category : string;
  pp_Budget : Z; pp_DeliveryMethod : string; pp_SuccessCriteria : list string; pp_AssuranceLane : string;
  pp_MaxDeliveryTime : Z;
}.

Record TaskClaimedPayload := mkClaimed { cp_TaskID : string; cp_ClaimerID : string }.

Record TaskSubmittedPayload := mkSubmitted {
  sp_TaskID : string; sp_ClaimerID : string; sp_ResultHash : string; sp_ResultNote : string; sp_ResultURI : string;
  sp_EvidenceBodyHash : string;
}.

Record TaskApprovedPayload := mkApproved { ap_TaskID : string; ap_ApproverID : string }.
Record TaskDisputedPayload := mkDisputed { dp_TaskID : string; dp_PosterID : string }.

(** The evidence blob of [fetchEvidenceBlob]. *)
Record EvidenceBlob := mkBlob { eb_Evidence : option Evidence; eb_ResultContent : string; eb_Encrypted : bool }.

(** [json.Marshal] and [json.Unmarshal]. *)
Class TaskCodec : Type := {
  marshal_task : Task → option string;
  unmarshal_task : string → option Task;
  unmarshal_posted : string → option TaskPostedPayload;
  unmarshal_claimed : string → option TaskClaimedPayload;
  unmarshal_submitted : string → option TaskSubmittedPayload;
  unmarshal_approved : string → option TaskApprovedPayload;
  unmarshal_disputed : string → option TaskDisputedPayload;
  unmarshal_blob : string → option EvidenceBlob;
}.

(** [taskCanaryInjector]. *)
Class CanaryInjector (W : Type) : Type := {
  canary_task : Type;
  ShouldInject : W → W * bool;
  NextCanary : string → W → W * option canary_task;
  LinkTask : canary_task → string → W → W * bool;
}.

(** The store maps task IDs to encoded tasks.  The evidence fetcher answers its
    n-th call for a hash; the security floor answers with the lane it offers. *)
Record TaskManager (St W : Type) := mkTM {
  tm_tasks : gmap string Task;
  tm_store : option St;
  tm_running : bool;
  tm_claimDeadline : Z;
  tm_maxCompletedAge : Z;
  tm_evidenceBlobFetcher : option (string → nat → option string);
  tm_canaryInj : option W;
  tm_securityFloor : option (string → AssuranceLane → AssuranceLane);
  tm_assuranceCfg : option AssuranceConfig;
}.
#[global] Arguments mkTM {St W} _ _ _ _ _ _ _ _ _.
#[global] Arguments tm_tasks {St W} _.
#[global] Arguments tm_store {St W} _.
#[global] Arguments tm_running {St W} _.
#[global] Arguments tm_claimDeadline {St W} _.
#[global] Arguments tm_maxCompletedAge {St W} _.
#[global] Arguments tm_evidenceBlobFetcher {St W} _.
#[global] Arguments tm_canaryInj {St W} _.
#[global] Arguments tm_securityFloor {St W} _.
#[global] Arguments tm_assuranceCfg {St W} _.

(** * The manager *)

Section manager.
Context {St W : Type} {conv : F64Conv} {codec : TaskCodec} `{!Persistence St (string * string), !CanaryInjector W}.
Implicit Types (m : TaskManager St W) (t : Task).

Definition NewTaskManager : TaskManager St W :=
  mkTM ∅ None false DefaultClaimDeadline MaxCompletedAge None None None None.

Definition tm_SetClaimDeadline (d : Z) m : TaskManager St W :=
  mkTM (tm_tasks m) (tm_store m) (tm_running m) d (tm_maxCompletedAge m) (tm_evidenceBlobFetcher m) (tm_canaryInj m)
    (tm_securityFloor m) (tm_assuranceCfg m).

Definition tm_SetEvidenceBlobFetcher (fn : option (string → nat → option string)) m : TaskManager St W :=
  mkTM (tm_tasks m) (tm_store m) (tm_running m) (tm_claimDeadline m) (tm_maxCompletedAge m) fn (tm_canaryInj m)
    (tm_securityFloor m) (tm_assuranceCfg m).

Definition tm_SetMaxCompletedAge (d : Z) m : TaskManager St W :=
  mkTM (tm_tasks m) (tm_store m) (tm_running m) (tm_claimDeadline m) d (tm_evidenceBlobFetcher m) (tm_canaryInj m)
    (tm_securityFloor m) (tm_assuranceCfg m).

Definition tm_SetCanaryInjector (inj : option W) m : TaskManager St W :=
  mkTM (tm_tasks m) (tm_store m) (tm_running m) (tm_claimDeadline m) (tm_maxCompletedAge m) (tm_evidenceBlobFetcher m) inj
    (tm_securityFloor m) (tm_assuranceCfg m).

Definition tm_SetSecurityFloor (sf : option (string → AssuranceLane → AssuranceLane)) m : TaskManager St W :=
  mkTM (tm_tasks m) (tm_store m) (tm_running m) (tm_claimDeadline m) (tm_maxCompletedAge m) (tm_evidenceBlobFetcher m)
    (tm_canaryInj m) sf (tm_assuranceCfg m).

Definition tm_SetAssuranceConfig (cfg : option AssuranceConfig) m : TaskManager St W :=
  mkTM (tm_tasks m) (tm_store m) (tm_running m) (tm_claimDeadline m) (tm_maxCompletedAge m) (tm_evidenceBlobFetcher m)
    (tm_canaryInj m) (tm_securityFloor m) cfg.

Definition tm_SetStore (s : option St) m : TaskManager St W :=
  mkTM (tm_tasks m) s (tm_running m) (tm_claimDeadline m) (tm_maxCompletedAge m) (tm_evidenceBlobFetcher m) (tm_canaryInj m)
    (tm_securityFloor m) (tm_assuranceCfg m).

(** Whether the cleanup goroutine runs. *)
Definition set_tm_running (b : bool) m : TaskManager St W :=
  mkTM (tm_tasks m) (tm_store m) b (tm_claimDeadline m) (tm_maxCompletedAge m) (tm_evidenceBlobFetcher m) (tm_canaryInj m)
    (tm_securityFloor m) (tm_assuranceCfg m).

Definition tm_Start m : TaskManager St W := if tm_running m then m else set_tm_running true m.
Definition tm_Stop m : TaskManager St W := set_tm_running false m.

Definition set_tasks (ts : gmap string Task) m : TaskManager St W :=
  mkTM ts (tm_store m) (tm_running m) (tm_claimDeadline m) (tm_maxCompletedAge m) (tm_evidenceBlobFetcher m) (tm_canaryInj m)
    (tm_securityFloor m) (tm_assuranceCfg m).

(** [persist]: failures are logged. *)
Definition tm_persist t m : TaskManager St W :=
  match tm_store m with
  | None => m
  | Some _ => match marshal_task t with
              | None => m
              | Some data => tm_SetStore (write_through (t_ID t, data) (tm_store m)) m
              end
  end.

(** ** Archival and loading *)

(** A finished task older than [cutoff]. *)
Definition archivable (cutoff : Z) t : bool :=
  bool_decide (t_CompletedAt t ≠ 0)
  && bool_decide (t_Status t ∈ [TaskStatusCompleted; TaskStatusCancelled; TaskStatusRejected; TaskStatusDisputedResolved])
  && bool_decide (t_CompletedAt t < cutoff).

(** [archiveCompleted]: one tick of the cleanup loop. *)
Definition tm_archiveCompleted `{!RangeOrder} (now : Z) m : TaskManager St W :=
  let cutoff := now - tm_maxCompletedAge m in
  let old := filter (λ kv : string * Task, archivable cutoff kv.2 = true) (tm_tasks m) in
  let kept := filter (λ kv : string * Task, archivable cutoff kv.2 = false) (tm_tasks m) in
  tm_SetStore (foldl (λ s id, delete_through (string * string) id s) (tm_store m) (range_set (dom old)))
    (set_tasks kept m).

(** The loop of [LoadFromStore], which stops at the first task that cannot be
    decoded. *)
Fixpoint load_tasks (blobs : list (string * string)) (ts : gmap string Task) : gmap string Task * bool :=
  match blobs with
  | [] => (ts, true)
  | (_, data) :: rest =>
      match unmarshal_task data with
      | None => (ts, false)
      | Some t => load_tasks rest (<[t_ID t := t]> ts)
      end
  end.

Definition tm_LoadFromStore (s : St) m : TaskManager St W * option TaskError :=
  match store_all s with
  | None => (m, Some ErrLoadTasks)
  | Some blobs => let '(ts, ok) := load_tasks blobs (tm_tasks m) in
                  (set_tasks ts m, if ok : bool then None else Some ErrUnmarshalTask)
  end.

Definition LoadTaskManagerFromStore (s : St) : TaskError + TaskManager St W :=
  let '(m, err) := tm_LoadFromStore s (tm_SetStore (Some s) NewTaskManager) in
  match err with Some e => inl e | None => inr m end.

(** ** Posting *)

Definition computeSpecHash (title description category : string) (successCriteria requiredChecks : list string) : string :=
  "sha256:" +:+ sha256_hex (title +:+ description +:+ category +:+ String.concat "," successCriteria
                            +:+ String.concat "," requiredChecks).

(** Sixteen bytes of the hash. *)
Definition generateTaskID (posterID title : string) (now : Z) : string :=
  String.substring 0 32 (sha256_hex (posterID +:+ ":" +:+ title +:+ ":" +:+ pretty now)).

Definition generateID (prefix : string) (now : Z) m : string :=
  String.substring 0 32 (sha256_hex (prefix +:+ ":" +:+ pretty now +:+ ":" +:+ pretty (Z.of_nat (size (tm_tasks m))))).

(** The lane is offered and its fee computed: fee and net payout. *)
Definition post_assurance (budget : Z) (category : string) (lane : AssuranceLane) m : TaskError + Z * Z :=
  if decide (lane = LaneNone) then inr (0, 0)
  else
    let offered := match tm_securityFloor m with None => lane | Some floor => floor category lane end in
    if decide (offered ≠ lane) then inl (ErrSecurityFloor lane offered)
    else match tm_assuranceCfg m with
    | None => inr (0, 0)
    | Some cfg => match ComputeAssuranceFee budget lane cfg with
                  | inl e => inl (ErrAssuranceFee e)
                  | inr r => inr (fr_Fee r, fr_NetPayout r)
                  end
    end.

(** The acceptance contract with its defaults. *)
Definition post_contract (title description category : string) (o : PostTaskOpts) (assured_active : bool) :
    AcceptanceContract :=
  let lane := o_AssuranceLane o in
  let eligible := if decide (lane = LaneNone ∧ assured_active = true) then false else true in
  mkContract (computeSpecHash title description category (o_SuccessCriteria o) (o_RequiredChecks o))
    (o_SuccessCriteria o) (o_RequiredChecks o)
    (if decide (o_PolicyVersion o = "") then "v1" else o_PolicyVersion o)
    (if decide (o_ChallengeWindowSecs o = 0) then 300 else o_ChallengeWindowSecs o)
    (default eligible (o_GenerationEligible o))
    (if decide (o_MaxDeliveryTimeSecs o = 0) then 600 else o_MaxDeliveryTimeSecs o)
    lane.

(** The canary step of [PostTask]; it does not touch the tasks. *)
Definition post_canary t m : TaskManager St W :=
  match tm_canaryInj m with
  | None => m
  | Some w =>
      let '(w, inject) := ShouldInject w in
      if inject then
        let '(w, c) := NextCanary (t_Category t) w in
        tm_SetCanaryInjector (Some (match c with None => w | Some c => (LinkTask c (t_ID t) w).1 end)) m
      else tm_SetCanaryInjector (Some w) m
  end.

Definition tm_PostTask (posterID title description category : string) (budget : Z) (opts : option PostTaskOpts)
    (now : Z) m : TaskManager St W * (TaskError + Task) :=
  if decide (title = "") then (m, inl ErrTitleRequired)
  else if decide (budget = 0) then (m, inl ErrBudgetRequired)
  else if decide (posterID = "") then (m, inl ErrPosterRequired)
  else
    let o := default no_opts opts in
    match post_assurance budget category (o_AssuranceLane o) m with
    | inl e => (m, inl e)
    | inr (fee, net) =>
        let contract := post_contract title description category o (bool_decide (is_Some (tm_assuranceCfg m))) in
        let id := if decide (o_TaskID o = "") then generateTaskID posterID title now else o_TaskID o in
        let dm := if decide (o_DeliveryMethod o = "") then "public" else o_DeliveryMethod o in
        let t := mkTask (mkTaskSpec id title description category posterID now [] "" false dm contract fee net)
                   no_claim no_result "" budget TaskStatusOpen [] "" 0 "" "" "" 0 0 0 in
        (post_canary t (tm_persist t (set_tasks (<[id := t]> (tm_tasks m)) m)), inr t)
    end.

(** ** Operations on a task *)

(** The shape of an operation: find the task, check and change it, persist it. *)
Definition tm_on (taskID : string) (f : Task → TaskError + Task) m : TaskManager St W * option TaskError :=
  match tm_tasks m !! taskID with
  | None => (m, Some (ErrTaskNotFound taskID))
  | Some t => match f t with
              | inl e => (m, Some e)
              | inr t' => (tm_persist t' (set_tasks (<[taskID := t']> (tm_tasks m)) m), None)
              end
  end.

(** The same for the operations that ignore an unknown task. *)
Definition tm_alter (taskID : string) (f : Task → Task) m : TaskManager St W := (tm_on taskID (λ t, inr (f t)) m).1.

(** The checks of [ClaimTask] and [ValidateClaimTask]. *)
Definition check_claim (taskID claimerID : string) t : option TaskError :=
  match t_Status t with
  | TaskStatusOpen => if decide (t_PosterID t = claimerID) then Some (ErrSelfClaim taskID) else None
  | TaskStatusClaimed => Some (ErrTaskAlreadyClaimed taskID)
  | s => Some (ErrTaskNotOpen taskID s)
  end.

(** The assignments of a claim; [eventID] is kept by [ClaimTask]. *)
Definition claim_task (claimerID eventID : string) (now deadline : Z) t : Task :=
  with_Status TaskStatusClaimed (with_claim (mkTaskClaim claimerID eventID now (i64 (now + deadline))) t).

Definition tm_ClaimTask (taskID claimerID : string) (now : Z) m : TaskManager St W * option TaskError :=
  tm_on taskID (λ t, match check_claim taskID claimerID t with
                     | Some e => inl e
                     | None => inr (claim_task claimerID (t_ClaimEventID t) now (tm_claimDeadline m) t)
                     end) m.

Definition tm_SetRoutedTo (taskID agentID : string) (now : Z) m : TaskManager St W * option TaskError :=
  tm_on taskID (λ t,
    if decide (t_Status t ≠ TaskStatusOpen) then inl (ErrTaskNotOpen taskID (t_Status t))
    else if decide (t_RoutedTo t ≠ "" ∧ t_RoutedTo t ≠ agentID) then inl (ErrTaskAlreadyRouted taskID (t_RoutedTo t))
    else inr (with_routing agentID now t)) m.

Definition tm_ClearRoutedTo (taskID : string) m : TaskManager St W * option TaskError :=
  tm_on taskID (λ t,
    if decide (t_Status t ≠ TaskStatusOpen) then inl (ErrTaskNotOpen taskID (t_Status t))
    else inr (with_routing "" 0 t)) m.

Definition check_submit (taskID claimerID : string) t : option TaskError :=
  if decide (t_Status t ≠ TaskStatusClaimed) then Some (ErrTaskNotClaimed taskID (t_Status t))
  else if decide (t_ClaimerID t ≠ claimerID) then Some (ErrWrongClaimer taskID)
  else None.

Definition tm_SubmitResult (taskID claimerID resultHash resultNote resultURI : string) (ev : option Evidence) (now : Z) m :
    TaskManager St W * option TaskError :=
  tm_on taskID (λ t, match check_submit taskID claimerID t with
    | Some e => inl e
    | None => inr (with_Status TaskStatusSubmitted (with_result
        (mkTaskResult resultHash resultNote resultURI (t_ResultContent t) (t_ResultEncrypted t) (t_SubmitEventID t) now
           (match ev with Some e => Some e | None => t_SubmittedEvidence t end) (t_VerificationScore t)
           (t_EvidenceBodyHash t) (t_EvidenceReady t)) t))
    end) m.

Definition with_evidence (ev : option Evidence) t : Task :=
  with_result (mkTaskResult (t_ResultHash t) (t_ResultNote t) (t_ResultURI t) (t_ResultContent t) (t_ResultEncrypted t)
    (t_SubmitEventID t) (t_SubmittedAt t) ev (t_VerificationScore t) (t_EvidenceBodyHash t) (t_EvidenceReady t)) t.

Definition with_content (content : string) (encrypted : bool) t : Task :=
  with_result (mkTaskResult (t_ResultHash t) (t_ResultNote t) (t_ResultURI t) content encrypted
    (t_SubmitEventID t) (t_SubmittedAt t) (t_SubmittedEvidence t) (t_VerificationScore t) (t_EvidenceBodyHash t)
    (t_EvidenceReady t)) t.

Definition with_body (hash : string) (ready : bool) t : Task :=
  with_result (mkTaskResult (t_ResultHash t) (t_ResultNote t) (t_ResultURI t) (t_ResultContent t) (t_ResultEncrypted t)
    (t_SubmitEventID t) (t_SubmittedAt t) (t_SubmittedEvidence t) (t_VerificationScore t) hash ready) t.

Definition with_score (score : option Score) t : Task :=
  with_result (mkTaskResult (t_ResultHash t) (t_ResultNote t) (t_ResultURI t) (t_ResultContent t) (t_ResultEncrypted t)
    (t_SubmitEventID t) (t_SubmittedAt t) (t_SubmittedEvidence t) score (t_EvidenceBodyHash t) (t_EvidenceReady t)) t.

Definition tm_SetSubmittedEvidence (taskID : string) (ev : option Evidence) m : TaskManager St W :=
  tm_alter taskID (with_evidence ev) m.

Definition tm_SetResultContent (taskID content : string) (encrypted : bool) m : TaskManager St W * option TaskError :=
  tm_on taskID (λ t, inr (with_content content encrypted t)) m.

Definition tm_SetEvidenceBodyHash (taskID hash : string) m : TaskManager St W :=
  tm_alter taskID (with_body hash (bool_decide (hash = ""))) m.

(** [MarkEvidenceReady] does not persist a task that is ready already. *)
Definition tm_MarkEvidenceReady (taskID : string) m : TaskManager St W :=
  match tm_tasks m !! taskID with
  | None => m
  | Some t => if t_EvidenceReady (t_result t) then m else tm_alter taskID (λ t, with_body (t_EvidenceBodyHash t) true t) m
  end.

Definition tm_SetVerificationScore (taskID : string) (score : option Score) m : TaskManager St W * option TaskError :=
  tm_on taskID (λ t, inr (with_score score t)) m.

Definition tm_SetReplayStatus (taskID status jobID : string) m : TaskManager St W * option TaskError :=
  tm_on taskID (λ t, inr (with_replay status jobID t)) m.

Definition tm_SetGenerationStatus (taskID status : string) m : TaskManager St W * option TaskError :=
  tm_on taskID (λ t, inr (with_GenerationStatus status t)) m.

(** ** Completion *)

Definition check_submitted (taskID : string) t : option TaskError :=
  if decide (t_Status t ≠ TaskStatusSubmitted) then Some (ErrTaskNotSubmitted taskID (t_Status t)) else None.

Definition complete_task (now : Z) t : Task := with_CompletedAt now (with_Status TaskStatusCompleted t).

Definition tm_ApproveTask (taskID approverID : string) (now : Z) m : TaskManager St W * option TaskError :=
  tm_on taskID (λ t, match check_submitted taskID t with Some e => inl e | None => inr (complete_task now t) end) m.

Definition tm_ResolveDispute (taskID resolverID : string) (approve : bool) (now : Z) m : TaskManager St W * option TaskError :=
  tm_on taskID (λ t,
    if decide (t_Status t ≠ TaskStatusDisputed) then inl (ErrTaskNotDisputed taskID (t_Status t))
    else inr (if approve then complete_task now t else with_Status TaskStatusCancelled t)) m.

(** A status [ApplyVerificationConsensusResolution] leaves alone. *)
Definition terminal (s : TaskStatus) : bool :=
  match s with
  | TaskStatusCompleted | TaskStatusRejected | TaskStatusDisputedResolved | TaskStatusCancelled => true
  | _ => false
  end.

Definition tm_ApplyVerificationConsensusResolution (taskID verdict : string) (finalScoreBP : Z) (roundID : string)
    (now : Z) m : TaskManager St W * option TaskError :=
  match tm_tasks m !! taskID with
  | None => (m, Some (ErrTaskNotFound taskID))
  | Some t =>
      if terminal (t_Status t) then (m, None)
      else tm_on taskID (λ t,
        if decide (verdict = "pass") then inr (complete_task now t)
        else if decide (verdict = "fail") then inr (with_Status TaskStatusRejected t)
        else if decide (verdict = "abstain") then inr (with_Status TaskStatusDisputedResolved t)
        else inl (ErrUnknownConsensusVerdict verdict)) m
  end.

Definition check_dispute (taskID posterID : string) t : option TaskError :=
  if decide (t_Status t ≠ TaskStatusSubmitted) then Some (ErrTaskNotSubmitted taskID (t_Status t))
  else if decide (t_PosterID t ≠ posterID) then Some (ErrWrongPoster taskID)
  else None.

Definition dispute_task (now : Z) t : Task := with_DisputedAt now (with_Status TaskStatusDisputed t).

Definition tm_DisputeTask (taskID posterID : string) (now : Z) m : TaskManager St W * option TaskError :=
  tm_on taskID (λ t, match check_dispute taskID posterID t with Some e => inl e | None => inr (dispute_task now t) end) m.

(** The checks the API runs before it emits an event. *)
Definition tm_validate (taskID : string) (check : Task → option TaskError) m : option TaskError :=
  match tm_tasks m !! taskID with None => Some (ErrTaskNotFound taskID) | Some t => check t end.

Definition tm_ValidateClaimTask (taskID claimerID : string) m := tm_validate taskID (check_claim taskID claimerID) m.
Definition tm_ValidateSubmitResult (taskID claimerID : string) m := tm_validate taskID (check_submit taskID claimerID) m.
Definition tm_ValidateApproveTask (taskID : string) m := tm_validate taskID (check_submitted taskID) m.
Definition tm_ValidateDisputeTask (taskID posterID : string) m := tm_validate taskID (check_dispute taskID posterID) m.

Definition tm_CancelTask (taskID posterID : string) m : TaskManager St W * option TaskError :=
  tm_on taskID (λ t,
    if decide (t_Status t ≠ TaskStatusOpen) then inl (ErrTaskNotOpen taskID (t_Status t))
    else if decide (t_PosterID t ≠ posterID) then inl (ErrWrongPoster taskID)
    else inr (with_Status TaskStatusCancelled t)) m.

(** Back to Open; the claim event is kept. *)
Definition reopen t : Task :=
  with_Status TaskStatusOpen (with_claim (mkTaskClaim "" (t_ClaimEventID t) 0 0) t).

(** [ReleaseTask]: the former claimer. *)
Definition tm_ReleaseTask (taskID : string) m : TaskManager St W * (TaskError + string) :=
  match tm_tasks m !! taskID with
  | None => (m, inl (ErrTaskNotFound taskID))
  | Some t =>
      if decide (t_Status t ≠ TaskStatusClaimed) then (m, inl (ErrTaskNotClaimed taskID (t_Status t)))
      else (tm_alter taskID reopen m, inr (t_ClaimerID t))
  end.

(** The fields [RejectSubmission] clears for the next attempt. *)
Definition clear_submission t : Task :=
  with_result (mkTaskResult "" "" "" "" (t_ResultEncrypted t) (t_SubmitEventID t) 0 None None (t_EvidenceBodyHash t)
    (t_EvidenceReady t)) t.

(** [RejectSubmission]: the former claimer, and whether the task is closed. *)
Definition tm_RejectSubmission (taskID : string) (now : Z) m : TaskManager St W * (TaskError + string * bool) :=
  match tm_tasks m !! taskID with
  | None => (m, inl (ErrTaskNotFound taskID))
  | Some t =>
      if decide (t_Status t ≠ TaskStatusSubmitted) then (m, inl (ErrTaskNotSubmitted taskID (t_Status t)))
      else
        let count := t_RejectionCount t + 1 in
        if decide (MaxRejections <= count)
        then (tm_alter taskID (λ t, with_CompletedAt now (with_Status TaskStatusCancelled (with_RejectionCount count t))) m,
              inr (t_ClaimerID t, true))
        else (tm_alter taskID (λ t, clear_submission (reopen (with_RejectionCount count t))) m, inr (t_ClaimerID t, false))
  end.

(** ** Events *)

(** [applyTaskPosted]: idempotent by ID; the event ID is set after the task was
    persisted. *)
Definition applyTaskPosted (tp : TaskPostedPayload) (eventID : string) (now : Z) m : TaskManager St W :=
  if decide (is_Some (tm_tasks m !! pp_TaskID tp)) then m
  else
    let opts := mkPostTaskOpts (pp_TaskID tp) (pp_DeliveryMethod tp) (pp_SuccessCriteria tp) [] "" 0 None
                  (pp_MaxDeliveryTime tp) (pp_AssuranceLane tp) in
    let '(m', res) := tm_PostTask (pp_PosterID tp) (pp_Title tp) (pp_Description tp) (pp_Category tp) (pp_Budget tp)
                        (Some opts) now m in
    match res with
    | inl _ => m'
    | inr t => if decide (eventID = "") then m'
               else set_tasks (<[t_ID t := with_PostEventID eventID t]> (tm_tasks m')) m'
    end.

(** Whether a claim event applies: an open task, or a claimed one when the new
    event has the lower ID. *)
Definition claim_applies (eventID : string) t : bool :=
  match t_Status t with
  | TaskStatusOpen => true
  | TaskStatusClaimed =>
      negb (bool_decide (eventID = "") || bool_decide (t_ClaimEventID t = "") || negb (String.ltb eventID (t_ClaimEventID t)))
  | _ => false
  end.

Definition applyTaskClaimed (tp : TaskClaimedPayload) (eventID : string) (now : Z) m : TaskManager St W :=
  match tm_tasks m !! cp_TaskID tp with
  | None => m
  | Some t => if claim_applies eventID t
              then tm_alter (cp_TaskID tp) (claim_task (cp_ClaimerID tp) eventID now (tm_claimDeadline m)) m
              else m
  end.

(** The first successful of the calls [i], [i + 1], ... of the fetcher. *)
Fixpoint first_fetch (fetch : nat → option string) (i n : nat) : option string :=
  match n with
  | O => None
  | S n' => match fetch i with Some d => Some d | None => first_fetch fetch (S i) n' end
  end.

Definition fetchEvidenceBlob (fetcher : string → nat → option string) (taskID blobHash : string) m : TaskManager St W :=
  match first_fetch (fetcher blobHash) 0 3 with
  | None => m
  | Some data =>
      match unmarshal_blob data with
      | None => m
      | Some blob =>
          let m := match eb_Evidence blob with None => m | Some ev => tm_SetSubmittedEvidence taskID (Some ev) m end in
          let m := if decide (eb_ResultContent blob = "") then m
                   else (tm_SetResultContent taskID (eb_ResultContent blob) (eb_Encrypted blob) m).1 in
          tm_MarkEvidenceReady taskID m
      end
  end.

Definition tm_RetryEvidenceBlobFetch (taskID blobHash : string) m : TaskManager St W :=
  match tm_evidenceBlobFetcher m with
  | None => m
  | Some fetcher => if decide (blobHash = "") then m else fetchEvidenceBlob fetcher taskID blobHash m
  end.

Definition submit_by_event (tp : TaskSubmittedPayload) (eventID : string) (now : Z) t : Task :=
  with_Status TaskStatusSubmitted (with_result
    (mkTaskResult (sp_ResultHash tp) (sp_ResultNote tp) (sp_ResultURI tp) (t_ResultContent t) (t_ResultEncrypted t)
       eventID now (t_SubmittedEvidence t) (t_VerificationScore t) (sp_EvidenceBodyHash tp)
       (if decide (sp_EvidenceBodyHash tp = "") then true else t_EvidenceReady t)) t).

Definition applyTaskSubmitted (tp : TaskSubmittedPayload) (eventID : string) (now : Z) m : TaskManager St W :=
  match tm_tasks m !! sp_TaskID tp with
  | None => m
  | Some t =>
      if decide (t_Status t ≠ TaskStatusClaimed) then m
      else
        let m := tm_alter (sp_TaskID tp) (submit_by_event tp eventID now) m in
        match tm_evidenceBlobFetcher m with
        | Some fetcher =>
            if decide (sp_EvidenceBodyHash tp ≠ "" ∧ t_SubmittedEvidence t = None)
            then fetchEvidenceBlob fetcher (sp_TaskID tp) (sp_EvidenceBodyHash tp) m else m
        | None => m
        end
  end.

Definition applyTaskApproved (tp : TaskApprovedPayload) (now : Z) m : TaskManager St W :=
  match tm_tasks m !! ap_TaskID tp with
  | None => m
  | Some t => if decide (t_Status t ≠ TaskStatusSubmitted) then m else tm_alter (ap_TaskID tp) (complete_task now) m
  end.

Definition applyTaskDisputed (tp : TaskDisputedPayload) (now : Z) m : TaskManager St W :=
  match tm_tasks m !! dp_TaskID tp with
  | None => m
  | Some t => if decide (t_Status t ≠ TaskStatusSubmitted) then m else tm_alter (dp_TaskID tp) (dispute_task now) m
  end.

(** [ApplyDAGEvent]. *)
Definition tm_ApplyDAGEvent (ev : Event) (now : Z) m : TaskManager St W :=
  if decide (Type_ ev = EventTypeTaskPosted) then
    match GetPayload unmarshal_posted ev with None => m | Some tp => applyTaskPosted tp (ID ev) now m end
  else if decide (Type_ ev = EventTypeTaskClaimed) then
    match GetPayload unmarshal_claimed ev with None => m | Some tp => applyTaskClaimed tp (ID ev) now m end
  else if decide (Type_ ev = EventTypeTaskSubmitted) then
    match GetPayload unmarshal_submitted ev with None => m | Some tp => applyTaskSubmitted tp (ID ev) now m end
  else if decide (Type_ ev = EventTypeTaskApproved) then
    match GetPayload unmarshal_approved ev with None => m | Some tp => applyTaskApproved tp now m end
  else if decide (Type_ ev = EventTypeTaskDisputed) then
    match GetPayload unmarshal_disputed ev with None => m | Some tp => applyTaskDisputed tp now m end
  else m.

(** ** Subtasks *)

(** [CreateSubtask]; [idNow] is the clock reading of [generateID]. *)
Definition tm_CreateSubtask (parentTaskID claimerID title description category : string) (budget now idNow : Z) m :
    TaskManager St W * (TaskError + Task) :=
  if decide (title = "") then (m, inl ErrTitleRequired)
  else if decide (budget = 0) then (m, inl ErrBudgetRequired)
  else match tm_tasks m !! parentTaskID with
  | None => (m, inl (ErrTaskNotFound parentTaskID))
  | Some parent =>
      if decide (t_Status parent ≠ TaskStatusClaimed) then (m, inl (ErrTaskNotClaimed parentTaskID (t_Status parent)))
      else if decide (t_ClaimerID parent ≠ claimerID) then (m, inl (ErrNotClaimer parentTaskID))
      else if decide (budget > t_Budget parent) then (m, inl (ErrSubtaskBudget budget (t_Budget parent)))
      else
        let id := generateID parentTaskID idNow m in
        let sub := mkTask (mkTaskSpec id title description category claimerID now [] parentTaskID true "" no_contract 0 0)
                     no_claim no_result "" budget TaskStatusOpen [] "" 0 "" "" "" 0 0 0 in
        let parent' := with_subtask (u64 (t_Budget parent - budget)) (t_SubtaskIDs parent ++ [id]) parent in
        (tm_persist parent' (tm_persist sub
           (set_tasks (<[id := sub]> (<[parentTaskID := parent']> (tm_tasks m))) m)), inr sub)
  end.

Definition tm_AllSubtasksComplete (taskID : string) m : TaskError + bool :=
  match tm_tasks m !! taskID with
  | None => inl (ErrTaskNotFound taskID)
  | Some t => inr (forallb (λ id, match tm_tasks m !! id with
                                  | Some s => bool_decide (t_Status s = TaskStatusCompleted)
                                  | None => false
                                  end) (t_SubtaskIDs t))
  end.

(** ** Queries *)

Definition tm_Get (taskID : string) m : TaskError + Task :=
  match tm_tasks m !! taskID with None => inl (ErrTaskNotFound taskID) | Some t => inr t end.

Definition tm_IsCleanlyFinalized (taskID : string) m : TaskError + bool :=
  match tm_tasks m !! taskID with
  | None => inl (ErrTaskNotFound taskID)
  | Some t =>
      inr (bool_decide (t_Status t = TaskStatusCompleted)
           && bool_decide (t_ReplayStatus t ∈ [""; "replay_complete"])
           && bool_decide (t_GenerationStatus t ∈ [""; "recognized"]))
  end.

(** Most recent first. *)
Definition posted_ge (a b : Task) : Prop := t_PostedAt b <= t_PostedAt a.

#[global] Instance posted_ge_dec a b : Decision (posted_ge a b).
Proof. unfold posted_ge. apply _. Defined.

Context {order : RangeOrder}.

(** The tasks that satisfy a test, most recent first. *)
Definition tm_select (p : Task → bool) m : list Task :=
  sort_slice posted_ge (filter (λ t, p t = true) (range_map (tm_tasks m))).

Definition tm_GetDisputedTasks m : list Task := tm_select (λ t, bool_decide (t_ReplayStatus t = "replay_disputed")) m.

Definition tm_Search (status : TaskStatus) (category : string) (limit : Z) m : list Task :=
  let results := tm_select (λ t,
    (bool_decide (status = TaskStatusOther "") || bool_decide (t_Status t = status))
    && (bool_decide (category = "") || bool_decide (t_Category t = category))) m in
  if decide (0 < limit ∧ limit < Z.of_nat (length results)) then take (Z.to_nat limit) results else results.

Definition tm_OpenTasks (limit : Z) m : list Task := tm_Search TaskStatusOpen "" limit m.

Definition tm_AgentTasks (agentID : string) m : list Task :=
  tm_select (λ t, bool_decide (t_PosterID t = agentID) || bool_decide (t_ClaimerID t = agentID)) m.
End manager.

(** [Stats]. *)
Record Stats := mkStats {
  TotalTasks : Z; OpenTasks : Z; ClaimedTasks : Z; SubmittedTasks : Z; CompletedTasks : Z; DisputedTasks : Z;
  CancelledTasks : Z; TotalBudget : Z;
}.

Definition count_status {St W} (s : TaskStatus) (m : TaskManager St W) : Z :=
  Z.of_nat (size (filter (λ kv : string * Task, t_Status kv.2 = s) (tm_tasks m))).

Definition tm_Stats {St W} (m : TaskManager St W) : Stats :=
  mkStats (Z.of_nat (size (tm_tasks m))) (count_status TaskStatusOpen m) (count_status TaskStatusClaimed m)
    (count_status TaskStatusSubmitted m) (count_status TaskStatusCompleted m) (count_status TaskStatusDisputed m)
    (count_status TaskStatusCancelled m) (wrapped_sum t_Budget (tm_tasks m)).

(** * The life of a task *)

(** A change the multi-validator consensus may make. *)
Definition resolved (s' : TaskStatus) : Prop :=
  s' = TaskStatusCompleted ∨ s' = TaskStatusRejected ∨ s' = TaskStatusDisputedResolved.

(** The edges of the state machine. *)
Definition status_edge (s s' : TaskStatus) : Prop :=
  s' = s ∨
  match s with
  | TaskStatusOpen => s' = TaskStatusClaimed ∨ s' = TaskStatusCancelled ∨ resolved s'
  | TaskStatusClaimed => s' = TaskStatusOpen ∨ s' = TaskStatusSubmitted ∨ resolved s'
  | TaskStatusSubmitted =>
      s' = TaskStatusDisputed ∨ s' = TaskStatusOpen ∨ s' = TaskStatusCancelled ∨ resolved s'
  | TaskStatusDisputed => s' = TaskStatusCancelled ∨ resolved s'
  | TaskStatusOther _ => resolved s'
  | TaskStatusCompleted | TaskStatusCancelled | TaskStatusRejected | TaskStatusDisputedResolved => False
  end.

(** What an operation may do to a task. *)
Record lifecycle (t t' : Task) : Prop := {
  lc_spec : t_spec t' = t_spec t;
  lc_edge : status_edge (t_Status t) (t_Status t');
  lc_final : terminal (t_Status t) = true →
    t_claim t' = t_claim t ∧ t_Budget t' = t_Budget t ∧ t_CompletedAt t' = t_CompletedAt t;
  lc_budget : is_u64 (t_Budget t) → 0 <= t_Budget t' <= t_Budget t;
  lc_rejections : t_RejectionCount t' = t_RejectionCount t
    ∨ t_Status t = TaskStatusSubmitted ∧ t_RejectionCount t' = t_RejectionCount t + 1
      ∧ t_Status t' = (if decide (MaxRejections <= t_RejectionCount t + 1) then TaskStatusCancelled else TaskStatusOpen);
}.

(** An operation that leaves the progress of a task alone. *)
Record same_progress (t t' : Task) : Prop := {
  sp_spec : t_spec t' = t_spec t;
  sp_status : t_Status t' = t_Status t;
  sp_claim : t_claim t' = t_claim t;
  sp_budget : t_Budget t' = t_Budget t;
  sp_completed : t_CompletedAt t' = t_CompletedAt t;
  sp_rejections : t_RejectionCount t' = t_RejectionCount t;
}.

Lemma same_progress_refl t : same_progress t t.
Proof. done. Qed.

Lemma same_progress_trans t1 t2 t3 : same_progress t1 t2 → same_progress t2 t3 → same_progress t1 t3.
Proof. intros [] []. split; congruence. Qed.

Lemma same_progress_lifecycle t t' : same_progress t t' → lifecycle t t'.
Proof.
  intros [H1 H2 H3 H4 H5 H6]. split; [done|by left| |unfold is_u64; rewrite H4; lia|by left]. intros _. done.
Qed.

Lemma lifecycle_same t t1 t2 : lifecycle t t1 → same_progress t1 t2 → lifecycle t t2.
Proof.
  intros [A1 A2 A3 A4 A5] [B1 B2 B3 B4 B5 B6].
  split; [congruence|by rewrite B2| |by rewrite B4|by rewrite B2, B6].
  intros Ht. destruct (A3 Ht) as (? & ? & ?). split_and!; congruence.
Qed.

Lemma lifecycle_refl t : lifecycle t t.
Proof. apply same_progress_lifecycle, same_progress_refl. Qed.

(** A task as it is posted. *)
Definition fresh_task (id : string) (t : Task) : Prop :=
  t_ID t = id ∧ t_Status t = TaskStatusOpen ∧ t_claim t = no_claim ∧ t_RejectionCount t = 0 ∧ t_CompletedAt t = 0.

Section effects.
Context {St W : Type} {conv : F64Conv} {codec : TaskCodec} `{!Persistence St (string * string), !CanaryInjector W}.
Implicit Types (m : TaskManager St W) (t : Task).

(** The effect of an operation that posts no task: tasks live on, finished ones may be archived. *)
Definition tm_effect m m' : Prop :=
  ∀ id, match tm_tasks m !! id, tm_tasks m' !! id with
        | Some t, Some t' => lifecycle t t'
        | Some t, None => terminal (t_Status t) = true
        | None, Some _ => False
        | None, None => True
        end.

Lemma tm_effect_refl m : tm_effect m m.
Proof. intros id. destruct (tm_tasks m !! id); [apply lifecycle_refl|done]. Qed.

Lemma tm_effect_tasks m m1 m' : tm_effect m m1 → tm_tasks m' = tm_tasks m1 → tm_effect m m'.
Proof. intros He Ht id. specialize (He id). by rewrite Ht. Qed.

(** The operations on a task leave the tasks alone apart from one entry. *)
Lemma persist_tasks t m : tm_tasks (tm_persist t m) = tm_tasks m.
Proof. unfold tm_persist. by repeat case_match. Qed.

Lemma tm_on_tasks id f m :
  tm_tasks (tm_on id f m).1 =
  match tm_tasks m !! id with
  | Some t => match f t with inr t' => <[id := t']> (tm_tasks m) | inl _ => tm_tasks m end
  | None => tm_tasks m
  end.
Proof. unfold tm_on. destruct (_ !! id); [|done]. destruct (f _); [done|]. cbn. by rewrite persist_tasks. Qed.

Lemma tm_alter_tasks id f m : tm_tasks (tm_alter id f m) = alter f id (tm_tasks m).
Proof.
  unfold tm_alter. rewrite tm_on_tasks. destruct (tm_tasks m !! id) as [t|] eqn:Ht.
  - apply map_eq. intros j. destruct (decide (j = id)) as [->|];
      [by rewrite lookup_insert_eq, lookup_alter_eq, Ht|by rewrite lookup_insert_ne, lookup_alter_ne].
  - symmetry. apply map_eq. intros j. destruct (decide (j = id)) as [->|];
      [by rewrite lookup_alter_eq, Ht|by rewrite lookup_alter_ne].
Qed.

Lemma tm_on_effect id f m : (∀ t t', f t = inr t' → lifecycle t t') → tm_effect m (tm_on id f m).1.
Proof.
  intros Hf j. rewrite tm_on_tasks. destruct (tm_tasks m !! id) as [t|] eqn:Ht; [|apply tm_effect_refl].
  destruct (f t) as [e|t'] eqn:Hft; [apply tm_effect_refl|].
  destruct (decide (j = id)) as [->|Hne]; [rewrite Ht, lookup_insert_eq; by apply Hf|].
  rewrite lookup_insert_ne by done. apply tm_effect_refl.
Qed.

Lemma tm_alter_effect id f m :
  (∀ t, tm_tasks m !! id = Some t → lifecycle t (f t)) → tm_effect m (tm_alter id f m).
Proof.
  intros Hf j. rewrite tm_alter_tasks. destruct (decide (j = id)) as [->|Hne].
  - rewrite lookup_alter_eq. destruct (tm_tasks m !! id) as [t|] eqn:Ht; [by apply Hf|done].
  - rewrite lookup_alter_ne by done. apply tm_effect_refl.
Qed.

(** Operations that only change the result fields. *)
Definition tm_quiet m m' : Prop :=
  ∀ id, match tm_tasks m !! id, tm_tasks m' !! id with
        | Some t, Some t' => same_progress t t'
        | None, None => True
        | _, _ => False
        end.

Lemma tm_quiet_refl m : tm_quiet m m.
Proof. intros id. by destruct (tm_tasks m !! id). Qed.

Lemma tm_quiet_trans m1 m2 m3 : tm_quiet m1 m2 → tm_quiet m2 m3 → tm_quiet m1 m3.
Proof.
  intros H1 H2 id. specialize (H1 id). specialize (H2 id).
  destruct (tm_tasks m1 !! id), (tm_tasks m2 !! id), (tm_tasks m3 !! id); try done. by eapply same_progress_trans.
Qed.

Lemma effect_quiet m m1 m2 : tm_effect m m1 → tm_quiet m1 m2 → tm_effect m m2.
Proof.
  intros H1 H2 id. specialize (H1 id). specialize (H2 id).
  destruct (tm_tasks m !! id), (tm_tasks m1 !! id), (tm_tasks m2 !! id); try done. by eapply lifecycle_same.
Qed.

Lemma tm_alter_quiet id f m : (∀ t, same_progress t (f t)) → tm_quiet m (tm_alter id f m).
Proof.
  intros Hf j. rewrite tm_alter_tasks. destruct (decide (j = id)) as [->|Hne].
  - rewrite lookup_alter_eq. destruct (tm_tasks m !! id) as [t|] eqn:Ht; [apply Hf|done].
  - rewrite lookup_alter_ne by done. apply tm_quiet_refl.
Qed.

Lemma fetch_quiet fetcher id hash m : tm_quiet m (fetchEvidenceBlob fetcher id hash m).
Proof.
  unfold fetchEvidenceBlob. destruct (first_fetch _ _ _) as [data|]; [|apply tm_quiet_refl].
  destruct (unmarshal_blob data) as [blob|]; [|apply tm_quiet_refl].
  assert (∀ x, tm_quiet m x → tm_quiet m (tm_MarkEvidenceReady id x)) as Hready.
  { intros x Hx. unfold tm_MarkEvidenceReady. repeat (case_match; try done).
    eapply tm_quiet_trans; [exact Hx|]. by apply tm_alter_quiet. }
  assert (∀ x, tm_quiet m x → tm_quiet m (if decide (eb_ResultContent blob = "") then x
    else (tm_SetResultContent id (eb_ResultContent blob) (eb_Encrypted blob) x).1)) as Hcontent.
  { intros x Hx. case_decide; [done|]. eapply tm_quiet_trans; [exact Hx|]. by apply tm_alter_quiet. }
  apply Hready, Hcontent. destruct (eb_Evidence blob); [by apply tm_alter_quiet|apply tm_quiet_refl].
Qed.

(** ** Posting *)

Lemma post_canary_tasks t m : tm_tasks (post_canary t m) = tm_tasks m.
Proof. unfold post_canary. by repeat case_match. Qed.

Lemma PostTask_tasks poster title desc cat budget opts now m :
  match tm_PostTask poster title desc cat budget opts now m with
  | (m', inr t) => tm_tasks m' = <[t_ID t := t]> (tm_tasks m) ∧ fresh_task (t_ID t) t ∧ t_Budget t = budget
      ∧ t_PosterID t = poster ∧ poster ≠ "" ∧ budget ≠ 0 ∧ title ≠ ""
      ∧ t_ID t = (let o := default no_opts opts in
                  if decide (o_TaskID o = "") then generateTaskID poster title now else o_TaskID o)
  | (m', inl _) => m' = m
  end.
Proof.
  unfold tm_PostTask. repeat (case_decide; [done|]). destruct (post_assurance _ _ _ _) as [e|[fee net]]; [done|].
  cbv zeta. rewrite post_canary_tasks, persist_tasks. by split_and!.
Qed.

(** The effect on one task. *)
Definition effect_at m m' (id : string) : Prop :=
  match tm_tasks m !! id, tm_tasks m' !! id with
  | Some t, Some t' => lifecycle t t'
  | Some t, None => terminal (t_Status t) = true
  | None, Some _ => False
  | None, None => True
  end.

(** The effect of an operation that may store a new task, under an ID that is perhaps in use: that ID then has the new task. *)
Definition tm_renews (new : option string) m m' : Prop :=
  (∀ id, new = Some id → ∃ t, tm_tasks m' !! id = Some t ∧ fresh_task id t) ∧ ∀ id, new ≠ Some id → effect_at m m' id.

Lemma renews_insert m m' t :
  tm_tasks m' = <[t_ID t := t]> (tm_tasks m) → fresh_task (t_ID t) t → tm_renews (Some (t_ID t)) m m'.
Proof.
  intros Hm Hf. split.
  - intros id [= <-]. exists t. by rewrite Hm, lookup_insert_eq.
  - intros id Hne. unfold effect_at. rewrite Hm, lookup_insert_ne by congruence. exact (tm_effect_refl m id).
Qed.

(** The ID under which a posted event stores a new task. *)
Definition posted_id (tp : TaskPostedPayload) (now : Z) m : option string :=
  if decide (is_Some (tm_tasks m !! pp_TaskID tp)) then None
  else Some (if decide (pp_TaskID tp = "") then generateTaskID (pp_PosterID tp) (pp_Title tp) now else pp_TaskID tp).

Lemma applyTaskPosted_renews tp eventID now m :
  tm_effect m (applyTaskPosted tp eventID now m) ∨ ∃ id, posted_id tp now m = Some id ∧ tm_renews (Some id) m (applyTaskPosted tp eventID now m).
Proof.
  unfold applyTaskPosted, posted_id. case_decide as Hid; [left; apply tm_effect_refl|].
  set (opts := mkPostTaskOpts _ _ _ _ _ _ _ _ _).
  pose proof (PostTask_tasks (pp_PosterID tp) (pp_Title tp) (pp_Description tp) (pp_Category tp) (pp_Budget tp)
    (Some opts) now m) as Hp.
  destruct (tm_PostTask _ _ _ _ _ _ _ _) as [m1 [e|t]]; [left; by subst m1; apply tm_effect_refl|].
  destruct Hp as (Hm1 & Hf & _ & _ & _ & _ & _ & Hteq). cbn in Hteq. right. exists (t_ID t). split; [by rewrite Hteq|].
  destruct (decide (eventID = "")); [by apply renews_insert|].
  apply (renews_insert m _ (with_PostEventID eventID t)); [|done]. cbn. rewrite Hm1. by rewrite insert_insert_eq.
Qed.

(** ** Every operation *)

Lemma status_lifecycle t t' :
  t_spec t' = t_spec t → t_Budget t' = t_Budget t → t_RejectionCount t' = t_RejectionCount t →
  terminal (t_Status t) = false → status_edge (t_Status t) (t_Status t') → lifecycle t t'.
Proof. intros ? Hb ? Ht ?. split; try done; [by rewrite Ht|unfold is_u64; rewrite Hb; lia|by left]. Qed.

(** Solves [lifecycle t t'] when the status of [t] is known. *)
Ltac edge_tac :=
  apply status_lifecycle; try done;
  repeat match goal with H : t_Status _ = _ |- _ => rewrite H end; cbn; unfold status_edge, resolved; tauto.

(** The ID under which replaying an event stores a new task. *)
Definition event_posts (ev : Event) (now : Z) m : option string :=
  if decide (Type_ ev = EventTypeTaskPosted) then tp ← GetPayload unmarshal_posted ev; posted_id tp now m else None.

(** An operation, and the ID under which it stores a new task if it does: posting overwrites whatever has the ID. *)
Inductive tm_op : option string → TaskManager St W → TaskManager St W → Prop :=
  | op_setter m m' : tm_tasks m' = tm_tasks m → tm_op None m m'
  | op_post poster title desc cat budget opts now m m' t :
      tm_PostTask poster title desc cat budget opts now m = (m', inr t) → tm_op (Some (t_ID t)) m m'
  | op_subtask parent claimer title desc cat budget now idNow m m' t :
      tm_CreateSubtask parent claimer title desc cat budget now idNow m = (m', inr t) →
      0 <= budget → tm_op (Some (t_ID t)) m m'
  | op_event ev now m : tm_op (event_posts ev now m) m (tm_ApplyDAGEvent ev now m)
  | op_claim id claimer now m : tm_op None m (tm_ClaimTask id claimer now m).1
  | op_route id agent now m : tm_op None m (tm_SetRoutedTo id agent now m).1
  | op_unroute id m : tm_op None m (tm_ClearRoutedTo id m).1
  | op_submit id claimer h note uri ev now m : tm_op None m (tm_SubmitResult id claimer h note uri ev now m).1
  | op_evidence id ev m : tm_op None m (tm_SetSubmittedEvidence id ev m)
  | op_content id c enc m : tm_op None m (tm_SetResultContent id c enc m).1
  | op_body id h m : tm_op None m (tm_SetEvidenceBodyHash id h m)
  | op_ready id m : tm_op None m (tm_MarkEvidenceReady id m)
  | op_retry id h m : tm_op None m (tm_RetryEvidenceBlobFetch id h m)
  | op_score id sc m : tm_op None m (tm_SetVerificationScore id sc m).1
  | op_replay id s j m : tm_op None m (tm_SetReplayStatus id s j m).1
  | op_generation id s m : tm_op None m (tm_SetGenerationStatus id s m).1
  | op_approve id a now m : tm_op None m (tm_ApproveTask id a now m).1
  | op_resolve id r b now m : tm_op None m (tm_ResolveDispute id r b now m).1
  | op_consensus id v sc round now m : tm_op None m (tm_ApplyVerificationConsensusResolution id v sc round now m).1
  | op_dispute id p now m : tm_op None m (tm_DisputeTask id p now m).1
  | op_cancel id p m : tm_op None m (tm_CancelTask id p m).1
  | op_release id m : tm_op None m (tm_ReleaseTask id m).1
  | op_reject id now m : tm_op None m (tm_RejectSubmission id now m).1
  | op_archive order now m : tm_op None m (@tm_archiveCompleted _ _ _ order now m).

Lemma subtask_renews parent claimer title desc cat budget now idNow m m' t :
  tm_CreateSubtask parent claimer title desc cat budget now idNow m = (m', inr t) →
  0 <= budget → tm_renews (Some (t_ID t)) m m'.
Proof.
  unfold tm_CreateSubtask. repeat (case_decide; [done|]). destruct (tm_tasks m !! parent) as [p|] eqn:Hp; [|done].
  repeat (case_decide; [done|]). cbv zeta. intros [= <- <-] Hb. unfold tm_renews, effect_at.
  rewrite !persist_tasks. cbn [tm_tasks set_tasks t_ID t_spec].
  set (id := generateID parent idNow m) in *. set (sub := mkTask _ _ _ _ _ _ _ _ _ _ _ _ _ _ _). split.
  - intros j [= <-]. exists sub. by rewrite lookup_insert_eq.
  - intros j Hne. rewrite lookup_insert_ne by (intros E; apply Hne; rewrite <- E; done).
    destruct (decide (j = parent)) as [->|Hnp]; [|rewrite lookup_insert_ne by done; exact (tm_effect_refl m j)].
    rewrite Hp, lookup_insert_eq. split; cbn; try done; [by left| | |by left].
    + intros Ht. destruct (t_Status p); simplify_eq/=; exfalso; auto.
    + intros Hu. unfold is_u64 in Hu. rewrite u64_small by (unfold is_u64; lia). lia.
Qed.

Lemma event_renews ev now m :
  tm_effect m (tm_ApplyDAGEvent ev now m) ∨ ∃ id, event_posts ev now m = Some id ∧ tm_renews (Some id) m (tm_ApplyDAGEvent ev now m).
Proof.
  unfold tm_ApplyDAGEvent, event_posts. case_decide.
  { destruct (GetPayload _ _) as [tp|] eqn:Hg; [|left; apply tm_effect_refl]. apply applyTaskPosted_renews. }
  left.
  repeat case_decide; try apply tm_effect_refl; destruct (GetPayload _ _) as [tp|]; try apply tm_effect_refl.
  - unfold applyTaskClaimed. destruct (tm_tasks m !! _) as [t|] eqn:Ht; [|apply tm_effect_refl].
    destruct (claim_applies _ t) eqn:Hc; [|apply tm_effect_refl]. apply tm_alter_effect. intros t' Ht'.
    rewrite Ht in Ht'. injection Ht' as <-. unfold claim_applies in Hc.
    destruct (t_Status t) eqn:Hs; try done; edge_tac.
  - unfold applyTaskSubmitted. destruct (tm_tasks m !! _) as [t|] eqn:Ht; [|apply tm_effect_refl].
    case_decide as Hs; [apply tm_effect_refl|].
    assert (tm_effect m (tm_alter (sp_TaskID tp) (submit_by_event tp (ID ev) now) m)) as He.
    { apply tm_alter_effect. intros t' Ht'. rewrite Ht in Ht'. injection Ht' as <-.
      edge_tac. }
    cbv zeta. destruct (tm_evidenceBlobFetcher _); [|done]. case_decide; [|done].
    eapply effect_quiet; [exact He|apply fetch_quiet].
  - unfold applyTaskApproved. destruct (tm_tasks m !! _) as [t|] eqn:Ht; [|apply tm_effect_refl].
    case_decide as Hs; [apply tm_effect_refl|].
    apply tm_alter_effect. intros t' Ht'. rewrite Ht in Ht'. injection Ht' as <-.
    edge_tac.
  - unfold applyTaskDisputed. destruct (tm_tasks m !! _) as [t|] eqn:Ht; [|apply tm_effect_refl].
    case_decide as Hs; [apply tm_effect_refl|].
    apply tm_alter_effect. intros t' Ht'. rewrite Ht in Ht'. injection Ht' as <-.
    edge_tac.
Qed.

Lemma terminal_false s : terminal s = false ↔ s ≠ TaskStatusCompleted ∧ s ≠ TaskStatusRejected ∧ s ≠ TaskStatusDisputedResolved ∧ s ≠ TaskStatusCancelled.
Proof. destruct s; cbn; split; intros; try done; naive_solver. Qed.

Lemma consensus_effect id v sc round now m :
  tm_effect m (tm_ApplyVerificationConsensusResolution id v sc round now m).1.
Proof.
  unfold tm_ApplyVerificationConsensusResolution. destruct (tm_tasks m !! id) as [t|] eqn:Ht; [|apply tm_effect_refl].
  destruct (terminal (t_Status t)) eqn:Hterm; [apply tm_effect_refl|]. intros j. rewrite tm_on_tasks, Ht.
  repeat case_decide; try apply tm_effect_refl;
    (destruct (decide (j = id)) as [->|Hne]; [|rewrite lookup_insert_ne by done; apply tm_effect_refl]);
    rewrite Ht, lookup_insert_eq; apply status_lifecycle; try done; destruct (t_Status t); try done;
    cbn; unfold status_edge, resolved; tauto.
Qed.

Lemma reject_effect id now m : tm_effect m (tm_RejectSubmission id now m).1.
Proof.
  unfold tm_RejectSubmission. destruct (tm_tasks m !! id) as [t|] eqn:Ht; [|apply tm_effect_refl].
  case_decide as Hs; [apply tm_effect_refl|]. cbv zeta. case_decide as Hmax; cbn [fst]; apply tm_alter_effect;
    intros t' Ht'; rewrite Ht in Ht'; injection Ht' as <-; split; cbn; rewrite ?Hs; try done;
    try (unfold status_edge; tauto); try (unfold is_u64; lia); right; split_and!; try done;
    [by rewrite decide_True by done|by rewrite decide_False by done].
Qed.

Lemma archive_effect (order : RangeOrder) now m : tm_effect m (tm_archiveCompleted now m).
Proof.
  intros id. unfold tm_archiveCompleted. cbn. set (cutoff := now - tm_maxCompletedAge m).
  destruct (tm_tasks m !! id) as [t|] eqn:Ht.
  - destruct (archivable cutoff t) eqn:Ha.
    + rewrite (proj2 (map_lookup_filter_None _ _ _)); [|right; intros x Hx; rewrite Ht in Hx; injection Hx as <-; cbn; congruence].
      unfold archivable in Ha. apply andb_prop in Ha as [[_ Ha]%andb_prop _]. apply bool_decide_eq_true in Ha.
      rewrite !elem_of_cons, elem_of_nil in Ha. destruct Ha as [->|[->|[->|[->|[]]]]]; done.
    + rewrite (proj2 (map_lookup_filter_Some _ _ id t) (conj Ht Ha)). apply lifecycle_refl.
  - by rewrite (proj2 (map_lookup_filter_None _ _ _)) by (by left).
Qed.

Lemma claim_effect id claimer now m : tm_effect m (tm_ClaimTask id claimer now m).1.
Proof.
  apply tm_on_effect. intros t t'. unfold check_claim. destruct (t_Status t) eqn:Hs; try done.
  case_decide; [done|]. intros [= <-]. edge_tac.
Qed.

Lemma submit_effect id claimer h note uri ev now m : tm_effect m (tm_SubmitResult id claimer h note uri ev now m).1.
Proof.
  apply tm_on_effect. intros t t'. unfold check_submit. case_decide as Hs; [done|]. case_decide; [done|].
  intros [= <-]. edge_tac.
Qed.

Lemma approve_effect id a now m : tm_effect m (tm_ApproveTask id a now m).1.
Proof. apply tm_on_effect. intros t t'. unfold check_submitted. case_decide as Hs; [done|]. intros [= <-]. edge_tac. Qed.

Lemma resolve_effect id r b now m : tm_effect m (tm_ResolveDispute id r b now m).1.
Proof. apply tm_on_effect. intros t t'. case_decide as Hs; [done|]. intros [= <-]. destruct b; edge_tac. Qed.

Lemma dispute_effect id p now m : tm_effect m (tm_DisputeTask id p now m).1.
Proof.
  apply tm_on_effect. intros t t'. unfold check_dispute. case_decide as Hs; [done|]. case_decide; [done|].
  intros [= <-]. edge_tac.
Qed.

Lemma cancel_effect id p m : tm_effect m (tm_CancelTask id p m).1.
Proof. apply tm_on_effect. intros t t'. case_decide as Hs; [done|]. case_decide; [done|]. intros [= <-]. edge_tac. Qed.

Lemma release_effect id m : tm_effect m (tm_ReleaseTask id m).1.
Proof.
  unfold tm_ReleaseTask. destruct (tm_tasks m !! id) as [t|] eqn:Ht; [|apply tm_effect_refl].
  case_decide as Hs; [apply tm_effect_refl|]. apply tm_alter_effect. intros t' Ht'. rewrite Ht in Ht'.
  injection Ht' as <-. edge_tac.
Qed.

Lemma quiet_on id f m : (∀ t t', f t = inr t' → same_progress t t') → tm_effect m (tm_on id f m).1.
Proof. intros Hf. apply tm_on_effect. intros t t' Ht. apply same_progress_lifecycle. eauto. Qed.

(** What an operation does to a task under whose ID it stores no new one, and to the task it stores. *)
Definition op_result (new : option string) m m' : Prop :=
  ∀ id, effect_at m m' id ∨ new = Some id ∧ ∃ t, tm_tasks m' !! id = Some t ∧ fresh_task id t.

Lemma effect_result new m m' : tm_effect m m' → op_result new m m'.
Proof. intros He id. left. exact (He id). Qed.

Lemma renews_result id m m' : tm_renews (Some id) m m' → op_result (Some id) m m'.
Proof. intros [Hn Ho] j. destruct (decide (id = j)) as [->|Hne]; [right; eauto|left]. apply Ho. congruence. Qed.

Lemma tm_op_result new m m' : tm_op new m m' → op_result new m m'.
Proof.
  intros Hop. destruct Hop as [m m' Hm|poster title desc cat budget opts now m m' t Hp|parent claimer title desc cat budget now idNow m m' t Hs Hb|ev now m| | | | | | | | | | | | | | | | | | | |];
    [apply effect_result|apply renews_result|apply renews_result|destruct (event_renews ev now m) as [He|(id & -> & He)]; [by apply effect_result|by apply renews_result]
    |apply effect_result..].
  - eapply tm_effect_tasks; [apply tm_effect_refl|done].
  - pose proof (PostTask_tasks poster title desc cat budget opts now m) as Ht.
    rewrite Hp in Ht. destruct Ht as (Hm & Hf & _). by apply renews_insert.
  - by eapply subtask_renews.
  - apply claim_effect.
  - apply quiet_on. intros t t'. repeat (case_decide; [done|]). by intros [= <-].
  - apply quiet_on. intros t t'. repeat (case_decide; [done|]). by intros [= <-].
  - apply submit_effect.
  - by apply quiet_on; intros t t' [= <-].
  - by apply quiet_on; intros t t' [= <-].
  - by apply quiet_on; intros t t' [= <-].
  - unfold tm_MarkEvidenceReady. destruct (tm_tasks m !! id) as [t0|]; [|apply tm_effect_refl].
    destruct (t_EvidenceReady _); [apply tm_effect_refl|]. by apply quiet_on; intros t t' [= <-].
  - unfold tm_RetryEvidenceBlobFetch. destruct (tm_evidenceBlobFetcher m); [|apply tm_effect_refl].
    case_decide; [apply tm_effect_refl|]. eapply effect_quiet; [apply tm_effect_refl|apply fetch_quiet].
  - by apply quiet_on; intros t t' [= <-].
  - by apply quiet_on; intros t t' [= <-].
  - by apply quiet_on; intros t t' [= <-].
  - apply approve_effect.
  - apply resolve_effect.
  - apply consensus_effect.
  - apply dispute_effect.
  - apply cancel_effect.
  - apply release_effect.
  - apply reject_effect.
  - apply archive_effect.
Qed.
End effects.

(** * Reachable managers *)

Section history.
Context {St W : Type} {conv : F64Conv} {codec : TaskCodec} `{!Persistence St (string * string), !CanaryInjector W}.
Implicit Types (m : TaskManager St W) (t : Task).

(** Any operation, and any one that does not post a new task under [id]. *)
Definition tm_step m m' : Prop := ∃ new, tm_op new m m'.

Definition tm_step_keeping (id : string) m m' : Prop := ∃ new, new ≠ Some id ∧ tm_op new m m'.

(** A task under its ID, with a known status and at most [MaxRejections]
    rejections. *)
Record task_ok (id : string) t : Prop := {
  tok_id : t_ID t = id;
  tok_status : ∀ x, t_Status t ≠ TaskStatusOther x;
  tok_rejections : 0 <= t_RejectionCount t <= MaxRejections;
  tok_closed : t_RejectionCount t = MaxRejections → t_Status t = TaskStatusCancelled;
}.

Definition tm_ok m : Prop := map_Forall task_ok (tm_tasks m).

Lemma fresh_task_ok id t : fresh_task id t → task_ok id t.
Proof. intros (Hid & Hs & _ & Hr & _). split; [done|by rewrite Hs|rewrite Hr; unfold MaxRejections; lia|by rewrite Hr]. Qed.

Lemma status_edge_known (x1 x2 : TaskStatus) : (∀ x, x1 ≠ TaskStatusOther x) → status_edge x1 x2 → ∀ x, x2 ≠ TaskStatusOther x.
Proof.
  intros Hs [->|He] x; [done|]. unfold resolved in He. intros ->. destruct x1; naive_solver.
Qed.

Lemma status_edge_terminal (x1 x2 : TaskStatus) : terminal x1 = true → status_edge x1 x2 → x2 = x1.
Proof. intros Ht [->|He]; [done|]. by destruct x1. Qed.

Lemma lifecycle_ok id t t' : task_ok id t → lifecycle t t' → task_ok id t'.
Proof.
  intros [Hid Hs Hr Hc] [Lsp Led Lf Lb Lr]. split.
  - by rewrite Lsp.
  - by eapply status_edge_known.
  - destruct Lr as [->|(Hsub & -> & _)]; [done|]. unfold MaxRejections in *.
    assert (t_RejectionCount t ≠ 3) by (intros H3; rewrite Hsub in Hc; by specialize (Hc H3)). lia.
  - destruct Lr as [->|(Hsub & -> & ->)].
    + intros H3. rewrite (status_edge_terminal (t_Status t) (t_Status t')); [auto|by rewrite Hc|done].
    + intros H3. rewrite decide_True by lia. done.
Qed.

Lemma tm_step_ok m m' : tm_step m m' → tm_ok m → tm_ok m'.
Proof.
  intros [new Hop%tm_op_result] Hall id t' Ht'. destruct (Hop id) as [He|(_ & t & Ht & Hf)].
  - unfold effect_at in He. rewrite Ht' in He.
    destruct (tm_tasks m !! id) as [t|] eqn:Ht; [|done]. eapply lifecycle_ok; [by apply Hall|done].
  - rewrite Ht' in Ht. injection Ht as ->. by apply fresh_task_ok.
Qed.

Lemma tm_steps_ok m m' : rtc tm_step m m' → tm_ok m → tm_ok m'.
Proof. induction 1; eauto using tm_step_ok. Qed.

(** A task some steps later. *)
Record outcome (t t' : Task) : Prop := {
  oc_spec : t_spec t' = t_spec t;
  oc_budget : is_u64 (t_Budget t) → 0 <= t_Budget t' <= t_Budget t;
  oc_final : terminal (t_Status t) = true →
    t_Status t' = t_Status t ∧ t_claim t' = t_claim t ∧ t_Budget t' = t_Budget t ∧ t_CompletedAt t' = t_CompletedAt t;
}.

Lemma lifecycle_outcome t t' : lifecycle t t' → outcome t t'.
Proof.
  intros [Lsp Led Lf Lb Lr]. split; [done|done|]. intros Ht. split; [by apply status_edge_terminal|auto].
Qed.

Lemma outcome_trans t1 t2 t3 : outcome t1 t2 → outcome t2 t3 → outcome t1 t3.
Proof.
  intros [A1 A2 A3] [B1 B2 B3]. split; [congruence| |].
  - intros Hu. specialize (A2 Hu). assert (is_u64 (t_Budget t2)) as Hu2 by (unfold is_u64 in *; lia).
    specialize (B2 Hu2). lia.
  - intros Ht. destruct (A3 Ht) as (Hs & ? & ? & ?). rewrite <- Hs in Ht. destruct (B3 Ht) as (? & ? & ? & ?).
    split_and!; congruence.
Qed.

(** What a later manager says about a task: it went on, or it reached a terminal
    status and was archived. *)
Definition task_later (id : string) t (later : option Task) : Prop :=
  match later with
  | Some t' => outcome t t'
  | None => ∃ t1, outcome t t1 ∧ terminal (t_Status t1) = true
  end.

Lemma task_later_step id t m m' :
  task_later id t (tm_tasks m !! id) → tm_step_keeping id m m' → task_later id t (tm_tasks m' !! id).
Proof.
  intros Hl (new & Hne & Hop). destruct (tm_op_result _ _ _ Hop id) as [He|[? _]]; [|done]. unfold effect_at in He.
  destruct (tm_tasks m !! id) as [t1|], (tm_tasks m' !! id) as [t2|]; cbn in *; [|by eauto|done..].
  eapply outcome_trans; [done|by apply lifecycle_outcome].
Qed.

Lemma task_later_steps id t m m' :
  rtc (tm_step_keeping id) m m' → task_later id t (tm_tasks m !! id) → task_later id t (tm_tasks m' !! id).
Proof. induction 1; eauto using task_later_step. Qed.

Lemma outcome_refl t : outcome t t.
Proof. apply lifecycle_outcome, lifecycle_refl. Qed.

(** C40: every task a fresh manager can reach by any operations sits under its ID, has one of the eight
    statuses and has been rejected at most three times, the third time closing it; and
    whatever operations follow, event replay and consensus resolutions included, as long as none of them posts a new task
    under the same ID, a task keeps what it was posted with, its budget only shrinks (into subtasks), and
    once it is completed, cancelled, rejected or settled by a dispute its status,
    claimer, budget and completion time are final until it is archived; only such
    tasks are archived.  (Posting does not look whether the ID is taken: [PostTask] with the ID of a completed task replaces it, see
    [PostTask_overwrites].) *)
Theorem task_outcome_final m m' id t :
  rtc tm_step NewTaskManager m → rtc (tm_step_keeping id) m m' →
  tm_tasks m !! id = Some t →
  task_ok id t ∧ task_later id t (tm_tasks m' !! id).
Proof.
  intros Hreach Hsteps Ht. split.
  - apply (tm_steps_ok _ _ Hreach); [|done]. by apply map_Forall_empty.
  - apply (task_later_steps id t m m' Hsteps). rewrite Ht. apply outcome_refl.
Qed.
End history.

(** * Competing claims *)

Lemma ltb_false_le a b : String.ltb a b = false ↔ String.le b a.
Proof.
  unfold String.le, String.leb, String.ltb. rewrite (String.compare_antisym a b).
  destruct (String.compare b a); cbn; naive_solver.
Qed.

Lemma ltb_true_le a b : String.ltb a b = true → String.le a b.
Proof.
  unfold String.le, String.leb, String.ltb. by destruct (String.compare a b).
Qed.

Section claims.
Context {St W : Type} {conv : F64Conv} {codec : TaskCodec} `{!Persistence St (string * string), !CanaryInjector W}.
Implicit Types (m : TaskManager St W) (t : Task).

(** A claim event of a task as a node applies it: the event's ID, the claimer and
    the node's clock. *)
Record ClaimArrival := mkArrival { ca_event : string; ca_claimer : string; ca_now : Z }.

Definition apply_claims (id : string) (evs : list ClaimArrival) m : TaskManager St W :=
  foldl (λ m e, applyTaskClaimed (mkClaimed id (ca_claimer e)) (ca_event e) (ca_now e) m) m evs.

(** The task is claimed through [e], the least of [evs]. *)
Definition claimed_by (id : string) (e : ClaimArrival) (evs : list ClaimArrival) m : Prop :=
  e ∈ evs ∧ Forall (λ e', String.le (ca_event e) (ca_event e')) evs ∧
  ∃ t, tm_tasks m !! id = Some t ∧ t_Status t = TaskStatusClaimed
       ∧ t_ClaimEventID t = ca_event e ∧ t_ClaimerID t = ca_claimer e.

Lemma applyTaskClaimed_tasks id claimer eventID now m t :
  tm_tasks m !! id = Some t →
  tm_tasks (applyTaskClaimed (mkClaimed id claimer) eventID now m) !! id =
  Some (if claim_applies eventID t then claim_task claimer eventID now (tm_claimDeadline m) t else t).
Proof.
  intros Ht. unfold applyTaskClaimed. cbn. rewrite Ht. destruct (claim_applies eventID t); [|done].
  by rewrite tm_alter_tasks, lookup_alter_eq, Ht.
Qed.

Lemma claims_first id e m t :
  tm_tasks m !! id = Some t → t_Status t = TaskStatusOpen → claimed_by id e [e] (apply_claims id [e] m).
Proof.
  intros Ht Hs. split; [by left|]. split; [by constructor|]. eexists. cbn.
  rewrite (applyTaskClaimed_tasks _ _ _ _ _ t Ht). unfold claim_applies. rewrite Hs. by split_and!.
Qed.

Lemma claims_next id e x evs m :
  Forall (λ e, ca_event e ≠ "") (x :: evs) → claimed_by id e evs m →
  ∃ e', claimed_by id e' (evs ++ [x]) (applyTaskClaimed (mkClaimed id (ca_claimer x)) (ca_event x) (ca_now x) m).
Proof.
  intros [Hx Hne]%Forall_cons (Hin & Hle & t & Ht & Hs & He & Hc).
  pose proof (applyTaskClaimed_tasks id (ca_claimer x) (ca_event x) (ca_now x) m t Ht) as Hm.
  assert (claim_applies (ca_event x) t = String.ltb (ca_event x) (ca_event e)) as Hap.
  { unfold claim_applies. rewrite Hs, He. rewrite Forall_forall in Hne. specialize (Hne e Hin).
    rewrite !bool_decide_eq_false_2 by done. cbn. apply negb_involutive. }
  rewrite Hap in Hm. destruct (String.ltb (ca_event x) (ca_event e)) eqn:Hlt.
  - exists x. split; [set_solver|]. split; [|eexists; split; [exact Hm|done]].
    apply Forall_app. split; [|by constructor]. eapply Forall_impl; [exact Hle|].
    intros e' H. cbn. etrans; [by apply ltb_true_le|done].
  - exists e. split; [set_solver|]. split; [|by eexists].
    apply Forall_app. split; [done|]. constructor; [|constructor]. by apply ltb_false_le.
Qed.

Lemma claims_least id evs m t :
  tm_tasks m !! id = Some t → t_Status t = TaskStatusOpen → evs ≠ [] → Forall (λ e, ca_event e ≠ "") evs →
  ∃ e, claimed_by id e evs (apply_claims id evs m).
Proof.
  intros Ht Hs. induction evs as [|x evs IH] using rev_ind; [done|]. intros _ Hne.
  apply Forall_app in Hne as [Hne Hx].
  destruct (decide (evs = [])) as [->|Hev]; [exists x; by eapply claims_first|].
  destruct (IH Hev Hne) as [e He]. unfold apply_claims. rewrite foldl_app.
  eapply claims_next; [|exact He]. apply Forall_cons. split; [by inversion Hx|done].
Qed.
End claims.

(** Two nodes that hold a task open and apply the same claim events (distinct,
    non-empty event IDs), each in its own order and at its own times, end with the
    task claimed by the same agent: the claimer of the event with the least ID. *)
Theorem claims_converge {St W : Type} {conv : F64Conv} {codec : TaskCodec} `{!Persistence St (string * string),
    !CanaryInjector W} (m1 m2 : TaskManager St W) id t1 t2 evs1 evs2 :
  tm_tasks m1 !! id = Some t1 → t_Status t1 = TaskStatusOpen →
  tm_tasks m2 !! id = Some t2 → t_Status t2 = TaskStatusOpen →
  (λ e, (ca_event e, ca_claimer e)) <$> evs1 ≡ₚ (λ e, (ca_event e, ca_claimer e)) <$> evs2 →
  evs1 ≠ [] → NoDup (ca_event <$> evs1) → Forall (λ e, ca_event e ≠ "") evs1 →
  ∃ e t1' t2', e ∈ evs1 ∧ Forall (λ e', String.le (ca_event e) (ca_event e')) evs1 ∧
    tm_tasks (apply_claims id evs1 m1) !! id = Some t1' ∧ tm_tasks (apply_claims id evs2 m2) !! id = Some t2' ∧
    t_Status t1' = TaskStatusClaimed ∧ t_ClaimerID t1' = ca_claimer e ∧ t_ClaimEventID t1' = ca_event e ∧
    t_Status t2' = TaskStatusClaimed ∧ t_ClaimerID t2' = ca_claimer e ∧ t_ClaimEventID t2' = ca_event e.
Proof.
  intros Ht1 Hs1 Ht2 Hs2 Hperm Hne Hnd Hids.
  set (f := λ e, (ca_event e, ca_claimer e)) in *.
  assert (∀ e2, e2 ∈ evs2 → ∃ e1, e1 ∈ evs1 ∧ f e1 = f e2) as H21.
  { intros e2 H. assert (f e2 ∈ f <$> evs1) as H' by (rewrite Hperm; apply list_elem_of_fmap; eauto).
    apply list_elem_of_fmap in H' as (e1 & ? & ?). eauto. }
  assert (∀ e1, e1 ∈ evs1 → ∃ e2, e2 ∈ evs2 ∧ f e2 = f e1) as H12.
  { intros e1 H. assert (f e1 ∈ f <$> evs2) as H' by (rewrite <- Hperm; apply list_elem_of_fmap; eauto).
    apply list_elem_of_fmap in H' as (e2 & ? & ?). eauto. }
  destruct (claims_least id evs1 m1 t1) as (e & Hin & Hle & t1' & ? & ? & ? & ?); [done..|].
  destruct (claims_least id evs2 m2 t2) as (e2 & Hin2 & Hle2 & t2' & Hl2 & Hst2 & Hev2 & Hcl2); [done|done| | |].
  { intros ->. destruct evs1; [done|]. by apply Permutation_nil_r in Hperm. }
  { apply Forall_forall. intros e2 Hx2. destruct (H21 e2 Hx2) as (e1 & Hi1 & [= <- _]). rewrite Forall_forall in Hids. by apply Hids. }
  assert (f e2 = f e) as [= Heq Hcq].
  { destruct (H21 e2 Hin2) as (e1 & Hi1 & He1). rewrite <- He1. destruct (H12 e Hin) as (e3 & Hi3 & He3).
    assert (ca_event e = ca_event e1) as Hee.
    { rewrite Forall_forall in Hle, Hle2. eapply (anti_symm String.le); [by apply Hle|].
      injection He1 as He1 _. injection He3 as He3 _. rewrite He1, <- He3. by apply Hle2. }
    apply list_elem_of_lookup_1 in Hin as [i Hi], Hi1 as [j Hj].
    assert (i = j) as <-; [|congruence]. eapply (NoDup_lookup _ i j (ca_event e) Hnd).
    - by rewrite list_lookup_fmap, Hi.
    - by rewrite list_lookup_fmap, Hj, Hee. }
  exists e, t1', t2'. split_and!; congruence.
Qed.

(** * Subtasks *)

Section subtasks.
Context {St W : Type} {conv : F64Conv} {codec : TaskCodec} `{!Persistence St (string * string), !CanaryInjector W}.
Implicit Types (m : TaskManager St W).

(** A subtask is paid out of its parent's budget: the two add up to what the
    parent had. *)
Lemma CreateSubtask_conserves parent claimer title desc cat budget now idNow m m' sub p :
  tm_CreateSubtask parent claimer title desc cat budget now idNow m = (m', inr sub) →
  tm_tasks m !! parent = Some p → is_u64 (t_Budget p) → 0 <= budget → tm_tasks m !! t_ID sub = None →
  ∃ p', tm_tasks m' !! parent = Some p' ∧ tm_tasks m' !! t_ID sub = Some sub ∧
        t_Budget p' + t_Budget sub = t_Budget p ∧ t_ParentTaskID sub = parent ∧
        t_SubtaskIDs p' = t_SubtaskIDs p ++ [t_ID sub].
Proof.
  unfold tm_CreateSubtask. repeat (case_decide; [done|]). intros Heq Hp. rewrite Hp in Heq.
  repeat (case_decide; [done|]). cbv zeta in Heq. injection Heq as <- <-. intros Hu Hb Hnew. cbn in Hnew.
  assert (generateID parent idNow m ≠ parent) as Hne by congruence.
  eexists. rewrite !persist_tasks. cbn [tm_tasks set_tasks].
  rewrite lookup_insert_ne, lookup_insert_eq by done. split; [done|]. rewrite lookup_insert_eq. split; [done|].
  cbn. split; [|done]. unfold is_u64 in *. rewrite u64_small by (unfold is_u64; lia). lia.
Qed.
End subtasks.

(** * Examples *)

Section examples.

#[local] Instance demo_task_codec : TaskCodec := {|
  marshal_task t := Some (t_ID t);
  unmarshal_task _ := None;
  unmarshal_posted _ := None;
  unmarshal_claimed _ := None;
  unmarshal_submitted _ := None;
  unmarshal_approved _ := None;
  unmarshal_disputed _ := None;
  unmarshal_blob _ := None;
|}.

#[local] Instance demo_canaries : CanaryInjector unit := {|
  canary_task := unit;
  ShouldInject w := (w, false);
  NextCanary _ w := (w, None);
  LinkTask _ _ w := (w, true);
|}.

#[local] Instance task_store : Persistence (KeyedStore (fst (A := string) (B := string))) (string * string) :=
  ks_persistence fst.

Let TM := TaskManager (KeyedStore (fst (A := string) (B := string))) unit.

Definition demo_opts : PostTaskOpts := mkPostTaskOpts "t1" "" [] [] "" 0 None 0 "".
Definition demo_m1 : TM := (tm_PostTask "poster" "title" "work" "code" 200000 (Some demo_opts) 1 NewTaskManager).1.
Definition demo_m2 : TM := (tm_ClaimTask "t1" "worker" 2 demo_m1).1.
Definition demo_m3 : TM := (tm_SubmitResult "t1" "worker" "hash" "" "" None 3 demo_m2).1.
Definition demo_m4 : TM := (tm_ApplyVerificationConsensusResolution "t1" "pass" 9000 "r1" 4 demo_m3).1.
Definition demo_m5 : TM := (tm_ApplyVerificationConsensusResolution "t1" "fail" 1000 "r2" 5 demo_m4).1.

Definition zero_task : Task :=
  mkTask (mkTaskSpec "" "" "" "" "" 0 [] "" false "" no_contract 0 0) no_claim no_result "" 0 (TaskStatusOther "") []
    "" 0 "" "" "" 0 0 0.
Definition demo_task : Task := default zero_task (tm_tasks demo_m4 !! "t1").

Lemma demo_reach : rtc tm_step NewTaskManager demo_m4 ∧ rtc (tm_step_keeping "t1") demo_m4 demo_m5.
Proof.
  split.
  - apply rtc_l with demo_m1.
    { eexists. apply (op_post "poster" "title" "work" "code" 200000 (Some demo_opts) 1 _ _ (default zero_task (tm_tasks demo_m1 !! "t1"))). vm_compute; reflexivity. }
    apply rtc_l with demo_m2; [eexists; exact (op_claim "t1" "worker" 2 demo_m1)|].
    apply rtc_l with demo_m3; [eexists; exact (op_submit "t1" "worker" "hash" "" "" None 3 demo_m2)|].
    apply rtc_once. eexists. exact (op_consensus "t1" "pass" 9000 "r1" 4 demo_m3).
  - apply rtc_once. exists None. split; [done|]. exact (op_consensus "t1" "fail" 1000 "r2" 5 demo_m4).
Qed.

(** A task that passed stays completed when a second resolution says it failed. *)
Lemma task_outcome_final_witness :
  task_ok "t1" demo_task ∧ t_Status demo_task = TaskStatusCompleted ∧ t_ClaimerID demo_task = "worker" ∧
  task_later "t1" demo_task (tm_tasks demo_m5 !! "t1").
Proof.
  destruct demo_reach as [H1 H2].
  pose proof (task_outcome_final demo_m4 demo_m5 "t1" demo_task H1 H2) as [Hok Hl];
    [vm_compute; reflexivity|].
  split_and!; [exact Hok|vm_compute; reflexivity|vm_compute; reflexivity|exact Hl].
Defined.

Definition claim_b : ClaimArrival := mkArrival "b" "bob" 10.
Definition claim_a : ClaimArrival := mkArrival "a" "alice" 20.

Lemma claims_converge_witness :
  ∃ e t1' t2', e ∈ [claim_b; claim_a] ∧ Forall (λ e', String.le (ca_event e) (ca_event e')) [claim_b; claim_a] ∧
    tm_tasks (apply_claims "t1" [claim_b; claim_a] demo_m1) !! "t1" = Some t1' ∧
    tm_tasks (apply_claims "t1" [claim_a; claim_b] demo_m1) !! "t1" = Some t2' ∧
    t_Status t1' = TaskStatusClaimed ∧ t_ClaimerID t1' = ca_claimer e ∧ t_ClaimEventID t1' = ca_event e ∧
    t_Status t2' = TaskStatusClaimed ∧ t_ClaimerID t2' = ca_claimer e ∧ t_ClaimEventID t2' = ca_event e.
Proof.
  apply (claims_converge demo_m1 demo_m1 "t1" (default zero_task (tm_tasks demo_m1 !! "t1"))
           (default zero_task (tm_tasks demo_m1 !! "t1")) [claim_b; claim_a] [claim_a; claim_b]).
  - vm_compute; reflexivity.
  - vm_compute; reflexivity.
  - vm_compute; reflexivity.
  - vm_compute; reflexivity.
  - apply Permutation_swap.
  - done.
  - apply (bool_decide_unpack _). vm_compute. exact I.
  - rewrite !Forall_cons, Forall_nil. by split_and!.
Defined.

(** [applyTaskSubmitted] does not compare the submission's claimer with the task's: a claim that
    arrives before the submission on one node and after it on another leaves the
    result with different claimers, and so with different payees. *)
Definition bobs_result : TaskSubmittedPayload := mkSubmitted "t1" "bob" "hash" "" "" "".
Definition node1 : TM := apply_claims "t1" [claim_a] (applyTaskSubmitted bobs_result "s" 15 (apply_claims "t1" [claim_b] demo_m1)).
Definition node2 : TM := applyTaskSubmitted bobs_result "s" 15 (apply_claims "t1" [claim_b; claim_a] demo_m1).

Lemma claim_and_submission_diverge :
  (λ t, (t_Status t, t_ClaimerID (t_claim t), t_ResultHash (t_result t))) <$> tm_tasks node1 !! "t1" = Some (TaskStatusSubmitted, "bob", "hash") ∧
  (λ t, (t_Status t, t_ClaimerID (t_claim t), t_ResultHash (t_result t))) <$> tm_tasks node2 !! "t1" = Some (TaskStatusSubmitted, "alice", "hash").
Proof. by vm_compute. Qed.

(** The poster claims its own task through an event; [ClaimTask] refuses. *)
Lemma event_self_claim :
  (tm_ClaimTask "t1" "poster" 2 demo_m1).2 = Some (ErrSelfClaim "t1") ∧
  (λ t, t_ClaimerID (t_claim t)) <$> tm_tasks (applyTaskClaimed (mkClaimed "t1" "poster") "c" 2 demo_m1) !! "t1" = Some "poster".
Proof. by vm_compute. Qed.

(** [PostTask] with the ID of a completed task replaces it. *)
Lemma PostTask_overwrites :
  t_Status <$> tm_tasks demo_m4 !! "t1" = Some TaskStatusCompleted ∧
  t_Status <$> tm_tasks (tm_PostTask "other" "title" "work" "code" 1 (Some demo_opts) 9 demo_m4).1 !! "t1" = Some TaskStatusOpen.
Proof. by vm_compute. Qed.

(** A rejected task is never archived: [ApplyVerificationConsensusResolution] leaves its
    completion time unset. *)
Lemma rejected_never_archived now :
  tm_tasks (tm_archiveCompleted now (tm_ApplyVerificationConsensusResolution "t1" "fail" 1000 "r" 4 demo_m3).1) !! "t1"
  = tm_tasks (tm_ApplyVerificationConsensusResolution "t1" "fail" 1000 "r" 4 demo_m3).1 !! "t1".
Proof.
  unfold tm_archiveCompleted. cbn [tm_tasks tm_SetStore set_tasks]. set (m := (tm_ApplyVerificationConsensusResolution _ _ _ _ _ _).1).
  assert (∃ t, tm_tasks m !! "t1" = Some t ∧ t_CompletedAt t = 0) as (t & Ht & Hc).
  { exists (default zero_task (tm_tasks m !! "t1")). split; vm_compute; reflexivity. }
  rewrite Ht. apply map_lookup_filter_Some. split; [done|]. cbn. unfold archivable. rewrite bool_decide_eq_false_2; [done|]. tauto.
Qed.
End examples.
