(* ===== verification/RoundProgress.v ===== *)
(** internal/roundprogress: the signed progress of validators in a round.

    A validator announces the phase it is in; the aggregator keeps the latest
    snapshot per round, validator and analyzer family, and grants a lease that
    the deadline checker waits for.  Times are Unix seconds in [int64].  The
    snapshot store is any instance of [SnapshotStore]; [MemorySnapshotStore] is the
    one the code keeps in memory, the other one is a table of BadgerDB. *)

From stdpp Require Import sets fin_sets fin_map_dom.
From S2P Require Import Prelude GoStd Store.

(** * Phases *)

(** [ProgressPhase] is a [uint8], and any byte can arrive in a message. *)
Notation ProgressPhase := Z (only parsing).
Definition ProgressPhaseAcknowledged : Z := 0.
Definition ProgressPhaseFetchingBlob : Z := 1.
Definition ProgressPhaseAnalyzing : Z := 2.
Definition ProgressPhaseScorePending : Z := 3.
Definition ProgressPhaseVoteEmitted : Z := 4.
Definition ProgressPhaseAbstained : Z := 5.
Definition ProgressPhaseFailed : Z := 6.

(** [ProgressPhase.IsTerminal]. *)
Definition phase_IsTerminal (p : Z) : bool :=
  bool_decide (p = ProgressPhaseVoteEmitted) || bool_decide (p = ProgressPhaseAbstained)
  || bool_decide (p = ProgressPhaseFailed).

Definition ValidTransition (from to : Z) : bool :=
  if phase_IsTerminal from then false else if decide (to <= from) then false else true.

Record ProgressUpdate := mkUpdate {
  pu_RoundID : string;
  pu_ValidatorID : string;
  pu_AnalyzerFamily : string;
  pu_Phase : Z;
  pu_ProgressGeneration : Z;
  pu_ProgressEvidence : list Z;
  pu_EstimatedReadyUnix : Z;
  pu_ReasonCode : Z;
  pu_DiagnosticText : string;
  pu_TimestampUnix : Z;
  pu_Signature : list Z;
}.

Record RoundProgressSnapshot := mkSnap {
  sn_RoundID : string;
  sn_ValidatorID : string;
  sn_AnalyzerFamily : string;
  sn_CurrentPhase : Z;
  sn_PhaseEnteredUnix : Z;
  sn_LastUpdateUnix : Z;
  sn_LeaseExpiryUnix : Z;
  sn_ProgressGeneration : Z;
  sn_EstimatedReadyUnix : Z;
  sn_ReasonCode : Z;
  sn_DiagnosticText : string;
}.

Inductive ProgressError :=
  | ErrRateLimited
  | ErrStoreGet
  | ErrStorePut
  | ErrInvalidPhase (from to : Z)
  | ErrStaleGeneration (update current : Z)
  | ErrScorePendingRepeated.

(** * Leases *)

Definition maxETAFetchingBlobSec : Z := 30.
Definition maxETAAnalyzingSec : Z := 60.

Definition ClampETA (phase reportedETA nowUnix : Z) : Z :=
  if decide (reportedETA = 0) then 0
  else if decide (phase = ProgressPhaseFetchingBlob) then
    let maxETA := i64 (nowUnix + maxETAFetchingBlobSec) in if decide (reportedETA > maxETA) then maxETA else reportedETA
  else if decide (phase = ProgressPhaseAnalyzing) then
    let maxETA := i64 (nowUnix + maxETAAnalyzingSec) in if decide (reportedETA > maxETA) then maxETA else reportedETA
  else 0.

Definition maxLeaseFetchingBlobSec : Z := 30.
Definition maxLeaseAnalyzingSec : Z := 60.
Definition leaseScorePendingSec : Z := 10.
Definition defaultInitialLeaseSec : Z := 30.

Definition ComputeLeaseExpiry (phase currentExpiry clampedETA nowUnix : Z) : Z :=
  if decide (phase = ProgressPhaseAcknowledged) then i64 (nowUnix + defaultInitialLeaseSec)
  else if decide (phase = ProgressPhaseFetchingBlob) then
    let maxExpiry := i64 (nowUnix + maxLeaseFetchingBlobSec) in
    if decide (clampedETA > 0 ∧ clampedETA < maxExpiry) then clampedETA else maxExpiry
  else if decide (phase = ProgressPhaseAnalyzing) then
    let maxExpiry := i64 (nowUnix + maxLeaseAnalyzingSec) in
    if decide (clampedETA > 0 ∧ clampedETA < maxExpiry) then clampedETA else maxExpiry
  else if decide (phase = ProgressPhaseScorePending) then i64 (nowUnix + leaseScorePendingSec)
  else 0.

(** [ValidateLeaseExtension]; the evidence is not looked at. *)
Definition ValidateLeaseExtension (current : RoundProgressSnapshot) (update : ProgressUpdate) : option ProgressError :=
  if negb (ValidTransition (sn_CurrentPhase current) (pu_Phase update))
  then Some (ErrInvalidPhase (sn_CurrentPhase current) (pu_Phase update))
  else if phase_IsTerminal (pu_Phase update) then None
  else if decide (pu_ProgressGeneration update <= sn_ProgressGeneration current)
  then Some (ErrStaleGeneration (pu_ProgressGeneration update) (sn_ProgressGeneration current))
  else if decide (pu_Phase update = ProgressPhaseScorePending ∧ sn_CurrentPhase current = ProgressPhaseScorePending)
  then Some ErrScorePendingRepeated
  else None.

(** * The rate limiter *)

Definition defaultRateLimitIntervalSec : Z := 10.

Record RateLimiter := mkLimiter { rl_intervalSec : Z; rl_last : gmap string Z }.

Definition NewRateLimiter (intervalSec : Z) : RateLimiter :=
  mkLimiter (if decide (intervalSec = 0) then defaultRateLimitIntervalSec else intervalSec) ∅.

Definition rateLimitKey (roundID validatorID family : string) : string :=
  roundID +:+ ":" +:+ validatorID +:+ ":" +:+ family.

Definition rl_Allow (roundID validatorID family : string) (nowUnix : Z) (rl : RateLimiter) : RateLimiter * bool :=
  let key := rateLimitKey roundID validatorID family in
  if decide (rl_intervalSec rl < 0) then (rl, true)
  else
    let fresh := (mkLimiter (rl_intervalSec rl) (<[key := nowUnix]> (rl_last rl)), true) in
    match rl_last rl !! key with
    | Some lastUpdate => if decide (i64 (nowUnix - lastUpdate) < rl_intervalSec rl) then (rl, false) else fresh
    | None => fresh
    end.

(** [len(k) >= len(prefix) && k[:len(prefix)] == prefix]. *)
Definition has_prefix (prefix k : string) : bool := String.prefix prefix k.

Definition rl_CleanupRound (roundID : string) (rl : RateLimiter) : RateLimiter :=
  mkLimiter (rl_intervalSec rl)
    (filter (λ kv : string * Z, has_prefix (roundID +:+ ":") kv.1 = false) (rl_last rl)).

(** * Snapshot stores *)

(** An operation answers [None], or [false], when the store fails. *)
Class SnapshotStore (S : Type) : Type := {
  snap_get : string → string → string → S → option (option RoundProgressSnapshot);
  snap_all : string → S → option (list RoundProgressSnapshot);
  snap_put : RoundProgressSnapshot → S → S * bool;
  snap_delete_round : string → S → S * bool;
}.

Definition snapKey (roundID validatorID family : string) : string :=
  roundID +:+ ":" +:+ validatorID +:+ ":" +:+ family.

Definition key_of (sn : RoundProgressSnapshot) : string :=
  snapKey (sn_RoundID sn) (sn_ValidatorID sn) (sn_AnalyzerFamily sn).

Class SnapshotLaws (S : Type) `{!SnapshotStore S} : Type := {
  snap_view : S → gmap string RoundProgressSnapshot;
  snap_get_view r v f s x : snap_get r v f s = Some x → snap_view s !! snapKey r v f = x;
  snap_put_ok sn s s' : snap_put sn s = (s', true) → snap_view s' = <[key_of sn := sn]> (snap_view s);
  snap_put_fail sn s s' : snap_put sn s = (s', false) → snap_view s' = snap_view s;
}.

Definition MemorySnapshotStore : Type := gmap string RoundProgressSnapshot.
Definition NewMemorySnapshotStore : MemorySnapshotStore := ∅.

Definition mem_Get (roundID validatorID family : string) (s : MemorySnapshotStore) : option RoundProgressSnapshot :=
  s !! snapKey roundID validatorID family.

Definition mem_GetAllForRound `{!RangeOrder} (roundID : string) (s : MemorySnapshotStore) : list RoundProgressSnapshot :=
  range_map (filter (λ kv : string * RoundProgressSnapshot, has_prefix (roundID +:+ ":") kv.1 = true) s).

Definition mem_Put (sn : RoundProgressSnapshot) (s : MemorySnapshotStore) : MemorySnapshotStore := <[key_of sn := sn]> s.

Definition mem_DeleteRound (roundID : string) (s : MemorySnapshotStore) : MemorySnapshotStore :=
  filter (λ kv : string * RoundProgressSnapshot, has_prefix (roundID +:+ ":") kv.1 = false) s.

#[global] Instance memory_snapshots `{!RangeOrder} : SnapshotStore MemorySnapshotStore := {|
  snap_get r v f s := Some (mem_Get r v f s);
  snap_all r s := Some (mem_GetAllForRound r s);
  snap_put sn s := (mem_Put sn s, true);
  snap_delete_round r s := (mem_DeleteRound r s, true);
|}.

#[global] Program Instance memory_snapshot_laws `{!RangeOrder} : SnapshotLaws MemorySnapshotStore := {| snap_view s := s |}.
Solve All Obligations with by intros; simplify_eq/=.

(** * The aggregator *)

Record ProgressAggregator (S : Type) := mkAggregator {
  pa_store : S;
  pa_rateLimiter : RateLimiter;
  pa_anomalyCount : gmap string Z;
}.
#[global] Arguments mkAggregator {S} _ _ _.
#[global] Arguments pa_store {S} _.
#[global] Arguments pa_rateLimiter {S} _.
#[global] Arguments pa_anomalyCount {S} _.

Section aggregator.
Context {S : Type} `{!SnapshotStore S}.
Implicit Types (a : ProgressAggregator S) (u : ProgressUpdate) (sn : RoundProgressSnapshot).

Definition NewProgressAggregator (store : S) (rl : RateLimiter) : ProgressAggregator S := mkAggregator store rl ∅.

(** [uint32] counters. *)
Definition incrementAnomaly (validatorID : string) a : ProgressAggregator S :=
  mkAggregator (pa_store a) (pa_rateLimiter a)
    (<[validatorID := (default 0 (pa_anomalyCount a !! validatorID) + 1) mod 4294967296]> (pa_anomalyCount a)).

Definition AnomalyCount (validatorID : string) a : Z := default 0 (pa_anomalyCount a !! validatorID).

Definition pa_put sn a : ProgressAggregator S * option ProgressError :=
  let '(s, ok) := snap_put sn (pa_store a) in
  (mkAggregator s (pa_rateLimiter a) (pa_anomalyCount a), if ok : bool then None else Some ErrStorePut).

(** The first snapshot of a validator. *)
Definition first_snapshot u (nowUnix : Z) : RoundProgressSnapshot :=
  let clampedETA := ClampETA (pu_Phase u) (pu_EstimatedReadyUnix u) nowUnix in
  let leaseExpiry := if decide (pu_Phase u ≠ ProgressPhaseAcknowledged)
    then ComputeLeaseExpiry (pu_Phase u) 0 clampedETA nowUnix
    else ComputeLeaseExpiry ProgressPhaseAcknowledged 0 0 nowUnix in
  mkSnap (pu_RoundID u) (pu_ValidatorID u) (pu_AnalyzerFamily u) (pu_Phase u) nowUnix nowUnix leaseExpiry
    (pu_ProgressGeneration u) clampedETA (pu_ReasonCode u) (pu_DiagnosticText u).

(** The same phase and generation again. *)
Definition heartbeat sn u (nowUnix : Z) : RoundProgressSnapshot :=
  mkSnap (sn_RoundID sn) (sn_ValidatorID sn) (sn_AnalyzerFamily sn) (sn_CurrentPhase sn) (sn_PhaseEnteredUnix sn) nowUnix
    (sn_LeaseExpiryUnix sn) (sn_ProgressGeneration sn) (sn_EstimatedReadyUnix sn) (pu_ReasonCode u) (pu_DiagnosticText u).

Definition next_snapshot sn u (nowUnix : Z) : RoundProgressSnapshot :=
  let clampedETA := ClampETA (pu_Phase u) (pu_EstimatedReadyUnix u) nowUnix in
  let leaseExpiry := ComputeLeaseExpiry (pu_Phase u) (sn_LeaseExpiryUnix sn) clampedETA nowUnix in
  let phaseEnteredUnix := if decide (pu_Phase u ≠ sn_CurrentPhase sn) then nowUnix else sn_PhaseEnteredUnix sn in
  mkSnap (sn_RoundID sn) (sn_ValidatorID sn) (sn_AnalyzerFamily sn) (pu_Phase u) phaseEnteredUnix nowUnix leaseExpiry
    (pu_ProgressGeneration u) clampedETA (pu_ReasonCode u) (pu_DiagnosticText u).

(** [Apply]. *)
Definition pa_Apply u (nowUnix : Z) a : ProgressAggregator S * option ProgressError :=
  let '(rl, ok) := rl_Allow (pu_RoundID u) (pu_ValidatorID u) (pu_AnalyzerFamily u) nowUnix (pa_rateLimiter a) in
  let a := mkAggregator (pa_store a) rl (pa_anomalyCount a) in
  if negb ok then (incrementAnomaly (pu_ValidatorID u) a, Some ErrRateLimited)
  else match snap_get (pu_RoundID u) (pu_ValidatorID u) (pu_AnalyzerFamily u) (pa_store a) with
  | None => (a, Some ErrStoreGet)
  | Some None => pa_put (first_snapshot u nowUnix) a
  | Some (Some current) =>
      if decide (pu_Phase u = sn_CurrentPhase current ∧ pu_ProgressGeneration u = sn_ProgressGeneration current)
      then pa_put (heartbeat current u nowUnix) a
      else match ValidateLeaseExtension current u with
      | Some e => (incrementAnomaly (pu_ValidatorID u) a, Some e)
      | None => pa_put (next_snapshot current u nowUnix) a
      end
  end.
End aggregator.

(** * Leases are bounded and phases only advance *)

Definition lease_cap : Z := 60.

Lemma ComputeLeaseExpiry_bound phase cur eta now :
  0 <= now <= 2 ^ 62 → ComputeLeaseExpiry phase cur eta now <= now + lease_cap.
Proof.
  intros Hnow. unfold ComputeLeaseExpiry, lease_cap, defaultInitialLeaseSec, maxLeaseFetchingBlobSec, maxLeaseAnalyzingSec,
    leaseScorePendingSec.
  rewrite !i64_small by (unfold is_i64; lia). repeat case_decide; lia.
Qed.

Lemma ComputeLeaseExpiry_terminal phase cur eta now : phase_IsTerminal phase = true → ComputeLeaseExpiry phase cur eta now = 0.
Proof.
  unfold phase_IsTerminal, ComputeLeaseExpiry, ProgressPhaseVoteEmitted, ProgressPhaseAbstained, ProgressPhaseFailed,
    ProgressPhaseAcknowledged, ProgressPhaseFetchingBlob, ProgressPhaseAnalyzing, ProgressPhaseScorePending.
  rewrite !orb_true_iff, !bool_decide_eq_true. intros H. destruct H as [[-> | ->] | ->]; done.
Qed.

(** The lease of a snapshot was granted when its phase was entered. *)
Record snap_ok (k : string) (sn : RoundProgressSnapshot) : Prop := {
  so_key : key_of sn = k;
  so_lease : sn_LeaseExpiryUnix sn <= sn_PhaseEnteredUnix sn + lease_cap;
  so_terminal : phase_IsTerminal (sn_CurrentPhase sn) = true → sn_LeaseExpiryUnix sn = 0;
}.

(** What happens to the snapshot of a key: nothing but a heartbeat, or a new
    phase. *)
Definition snap_advances (sn sn' : RoundProgressSnapshot) : Prop :=
  (sn_CurrentPhase sn' = sn_CurrentPhase sn ∧ sn_PhaseEnteredUnix sn' = sn_PhaseEnteredUnix sn
   ∧ sn_LeaseExpiryUnix sn' = sn_LeaseExpiryUnix sn ∧ sn_ProgressGeneration sn' = sn_ProgressGeneration sn)
  ∨ (sn_CurrentPhase sn < sn_CurrentPhase sn' ∧ phase_IsTerminal (sn_CurrentPhase sn) = false).

#[global] Instance snap_advances_refl : Reflexive snap_advances.
Proof. intros sn. by left. Qed.

#[global] Instance snap_advances_trans : Transitive snap_advances.
Proof.
  intros a b c [(A1 & A2 & A3 & A4)|[A1 A2]] [(B1 & B2 & B3 & B4)|[B1 B2]]; unfold snap_advances.
  - left. split_and!; congruence.
  - right. rewrite A1 in *. done.
  - right. rewrite B1. done.
  - right. split; [lia|done].
Qed.

Section progress.
Context {S : Type} `{!SnapshotStore S, !SnapshotLaws S}.
Implicit Types (a : ProgressAggregator S) (u : ProgressUpdate).

Definition pa_view a : gmap string RoundProgressSnapshot := snap_view (pa_store a).

(** The snapshots after an update. *)
Definition view_step (v v' : gmap string RoundProgressSnapshot) : Prop :=
  ∀ k, match v !! k, v' !! k with
       | Some sn, Some sn' => snap_advances sn sn' ∧ (snap_ok k sn → snap_ok k sn')
       | None, Some sn' => snap_ok k sn'
       | None, None => True
       | Some _, None => False
       end.

#[global] Instance view_step_refl : Reflexive view_step.
Proof. intros v k. by destruct (v !! k). Qed.

Lemma view_step_insert v k sn' :
  match v !! k with
  | Some sn => snap_advances sn sn' ∧ (snap_ok k sn → snap_ok k sn')
  | None => snap_ok k sn'
  end → view_step v (<[k := sn']> v).
Proof.
  intros H j. destruct (decide (j = k)) as [->|Hne].
  - rewrite lookup_insert_eq. by destruct (v !! k).
  - rewrite lookup_insert_ne by done. by destruct (v !! j).
Qed.

Lemma pa_put_view sn a v :
  snap_view (pa_store a) = v → view_step v (<[key_of sn := sn]> v) → view_step v (pa_view (pa_put sn a).1).
Proof.
  intros Hv Hstep. unfold pa_put, pa_view. destruct (snap_put sn (pa_store a)) as [s []] eqn:Hp; cbn.
  - by rewrite (snap_put_ok _ _ _ Hp), Hv.
  - by rewrite (snap_put_fail _ _ _ Hp), Hv.
Qed.

Lemma first_snapshot_ok u now : 0 <= now <= 2 ^ 62 →
  snap_ok (snapKey (pu_RoundID u) (pu_ValidatorID u) (pu_AnalyzerFamily u)) (first_snapshot u now).
Proof.
  intros Hnow. split; cbn; [done| |].
  - case_decide; by apply ComputeLeaseExpiry_bound.
  - intros Ht. case_decide as Hp; [by apply ComputeLeaseExpiry_terminal|]. rewrite Hp in Ht. done.
Qed.

Lemma next_snapshot_ok k sn u now : 0 <= now <= 2 ^ 62 → key_of sn = k →
  ValidateLeaseExtension sn u = None →
  snap_advances sn (next_snapshot sn u now) ∧ snap_ok k (next_snapshot sn u now).
Proof.
  intros Hnow Hk Hv. unfold ValidateLeaseExtension in Hv.
  destruct (ValidTransition _ _) eqn:Ht; [|done]. unfold ValidTransition in Ht.
  destruct (phase_IsTerminal (sn_CurrentPhase sn)) eqn:Hterm; [done|]. clear Hv.
  destruct (decide (pu_Phase u <= sn_CurrentPhase sn)) as [|Hle]; [done|].
  split; [right; cbn; split; [lia|done]|]. split; cbn; [done| |].
  - rewrite decide_True by lia. by apply ComputeLeaseExpiry_bound.
  - apply ComputeLeaseExpiry_terminal.
Qed.

(** A heartbeat changes nothing the finalizer reads. *)
Lemma heartbeat_ok k sn u now : snap_advances sn (heartbeat sn u now) ∧ (snap_ok k sn → snap_ok k (heartbeat sn u now)).
Proof. split; [by left|]. by intros [? ? ?]. Qed.

(** The view of every reachable store keeps its snapshots under their keys. *)
Definition view_keyed (v : gmap string RoundProgressSnapshot) : Prop := ∀ k sn, v !! k = Some sn → snap_ok k sn.

Lemma view_step_keyed v v' : view_step v v' → view_keyed v → view_keyed v'.
Proof.
  intros Hs Hv k sn' Hk. specialize (Hs k). rewrite Hk in Hs. destruct (v !! k) eqn:Hvk; [|done].
  destruct Hs as [_ Hs]. apply Hs. by apply Hv.
Qed.

Lemma pa_Apply_view u now a : 0 <= now <= 2 ^ 62 → view_keyed (pa_view a) →
  view_step (pa_view a) (pa_view (pa_Apply u now a).1).
Proof.
  intros Hnow Hkeyed. unfold pa_Apply. destruct (rl_Allow _ _ _ _ _) as [rl ok]. destruct ok; cbn [negb]; [|reflexivity].
  cbn [pa_store]. destruct (snap_get _ _ _ _) as [cur|] eqn:Hg; [|reflexivity].
  apply snap_get_view in Hg. fold (pa_view a) in Hg. destruct cur as [sn|].
  - pose proof (Hkeyed _ _ Hg) as Hok. case_decide.
    + apply pa_put_view; [done|]. apply view_step_insert.
      assert (key_of (heartbeat sn u now) = key_of sn) as -> by done. rewrite (so_key _ _ Hok), Hg. apply heartbeat_ok.
    + destruct (ValidateLeaseExtension sn u) as [e|] eqn:Hv; [reflexivity|]. apply pa_put_view; [done|].
      apply view_step_insert. assert (key_of (next_snapshot sn u now) = key_of sn) as -> by done.
      rewrite (so_key _ _ Hok), Hg.
      destruct (next_snapshot_ok _ sn u now Hnow (so_key _ _ Hok) Hv) as [H1 H2]. by split.
  - apply pa_put_view; [done|]. apply view_step_insert.
    assert (key_of (first_snapshot u now) = snapKey (pu_RoundID u) (pu_ValidatorID u) (pu_AnalyzerFamily u)) as -> by done.
    rewrite Hg. by apply first_snapshot_ok.
Qed.

(** A run of the aggregator. *)
Definition pa_run (msgs : list (ProgressUpdate * Z)) a : ProgressAggregator S :=
  foldl (λ a m, (pa_Apply m.1 m.2 a).1) a msgs.

Lemma pa_run_view msgs a : Forall (λ m, 0 <= m.2 <= 2 ^ 62) msgs → view_keyed (pa_view a) →
  view_keyed (pa_view (pa_run msgs a))
  ∧ ∀ k sn, pa_view a !! k = Some sn → ∃ sn', pa_view (pa_run msgs a) !! k = Some sn' ∧ snap_advances sn sn'.
Proof.
  revert a. induction msgs as [|m msgs IH]; intros a Ht Hv; [split; [done|]; intros k sn Hk; by exists sn|].
  apply Forall_cons in Ht as [Hm Ht]. pose proof (pa_Apply_view m.1 m.2 a Hm Hv) as Hs.
  destruct (IH (pa_Apply m.1 m.2 a).1 Ht (view_step_keyed _ _ Hs Hv)) as [IH1 IH2]. split; [done|].
  intros k sn Hk. specialize (Hs k). rewrite Hk in Hs. destruct (pa_view (pa_Apply m.1 m.2 a).1 !! k) as [sn1|] eqn:Hk1; [|done].
  destruct (IH2 k sn1 Hk1) as (sn2 & H2 & H12). exists sn2. split; [done|]. etrans; [apply Hs|done].
Qed.

(** Whatever messages validators send, and whether or not the store accepts the
    writes, a lease ends at most 60 seconds after its phase was entered and a
    finished validator has none; a snapshot is never lost, its phase only advances,
    its lease and the start of its phase change only with the phase, and a terminal
    phase is final. *)
Theorem progress_bounded store rl msgs1 msgs2 k sn :
  snap_view store = ∅ → Forall (λ m, 0 <= m.2 <= 2 ^ 62) (msgs1 ++ msgs2) →
  let a1 := pa_run msgs1 (NewProgressAggregator store rl) in
  pa_view a1 !! k = Some sn →
  sn_LeaseExpiryUnix sn <= sn_PhaseEnteredUnix sn + 60
  ∧ (phase_IsTerminal (sn_CurrentPhase sn) = true → sn_LeaseExpiryUnix sn = 0)
  ∧ ∃ sn', pa_view (pa_run msgs2 a1) !! k = Some sn'
    ∧ sn_CurrentPhase sn <= sn_CurrentPhase sn'
    ∧ (sn_CurrentPhase sn' = sn_CurrentPhase sn →
         sn_LeaseExpiryUnix sn' = sn_LeaseExpiryUnix sn ∧ sn_PhaseEnteredUnix sn' = sn_PhaseEnteredUnix sn)
    ∧ (phase_IsTerminal (sn_CurrentPhase sn) = true → sn_CurrentPhase sn' = sn_CurrentPhase sn).
Proof.
  intros Hempty [Ht1 Ht2]%Forall_app a1 Hk.
  assert (view_keyed (pa_view (NewProgressAggregator store rl))) as Hv0.
  { intros j x. unfold pa_view. cbn. by rewrite Hempty, lookup_empty. }
  destruct (pa_run_view msgs1 _ Ht1 Hv0) as [Hv1 _]. destruct (Hv1 k sn Hk) as [_ Hl Hterm].
  destruct (pa_run_view msgs2 a1 Ht2 Hv1) as [_ H2]. destruct (H2 k sn Hk) as (sn' & Hk' & Hadv).
  split; [exact Hl|]. split; [done|]. exists sn'. split; [done|].
  destruct Hadv as [(E1 & E2 & E3 & _)|[E1 E2]].
  - split_and!; [lia|done|done].
  - split_and!; [lia|lia|congruence].
Qed.
End progress.

(** ** Concrete messages *)

Section progress_examples.
#[local] Existing Instance elements_order.

Definition demo_update (phase gen : Z) : ProgressUpdate := mkUpdate "r" "v" "f" phase gen [] 0 0 "" 0 [].
Definition demo_agg : ProgressAggregator MemorySnapshotStore := NewProgressAggregator NewMemorySnapshotStore (NewRateLimiter 10).
Definition demo_agg1 : ProgressAggregator MemorySnapshotStore := pa_run [(demo_update 0 1, 100); (demo_update 2 2, 110)] demo_agg.
Definition demo_snap : RoundProgressSnapshot := mkSnap "r" "v" "f" 2 110 110 170 2 0 0 "".

Lemma progress_bounded_witness :
  170 <= 110 + 60
  ∧ ∃ sn', pa_view (pa_run [(demo_update 2 3, 130); (demo_update 4 4, 150)] demo_agg1) !! snapKey "r" "v" "f" = Some sn'
    ∧ sn_CurrentPhase sn' = 4.
Proof.
  destruct (progress_bounded NewMemorySnapshotStore (NewRateLimiter 10) [(demo_update 0 1, 100); (demo_update 2 2, 110)]
    [(demo_update 2 3, 130); (demo_update 4 4, 150)] (snapKey "r" "v" "f") demo_snap) as (H1 & _ & sn' & H2 & _).
  - reflexivity.
  - rewrite !Forall_app, !Forall_cons, !Forall_nil. cbn. lia.
  - vm_compute. reflexivity.
  - split; [exact H1|]. exists sn'. split; [exact H2|].
    assert (pa_view (pa_run [(demo_update 2 3, 130); (demo_update 4 4, 150)] demo_agg1) !! snapKey "r" "v" "f"
            = Some (mkSnap "r" "v" "f" 4 150 150 0 4 0 0 "")) as H3 by (vm_compute; reflexivity).
    assert (Some sn' = Some (mkSnap "r" "v" "f" 4 150 150 0 4 0 0 "")) as H4 by (rewrite <- H3; symmetry; exact H2).
    injection H4 as ->. reflexivity.
Defined.

(** A lease is never renewed within a phase: the generation bump that
    [ValidateLeaseExtension] describes is refused as a transition to the same
    phase, so the rule on repeated ScorePending extensions is never reached. *)
Lemma no_renewal sn u : pu_Phase u = sn_CurrentPhase sn →
  ValidateLeaseExtension sn u = Some (ErrInvalidPhase (sn_CurrentPhase sn) (pu_Phase u)).
Proof.
  intros Hp. rewrite Hp. assert (ValidTransition (sn_CurrentPhase sn) (sn_CurrentPhase sn) = false) as H.
  { unfold ValidTransition. destruct (phase_IsTerminal _); [done|]. by case_decide; [|lia]. }
  unfold ValidateLeaseExtension. by rewrite Hp, H.
Qed.
End progress_examples.
