(* ===== verification/TaskRound.v ===== *)
(** internal/taskverification: the verification round of a submission.

    A round collects the votes of validators on a submitted task, weighted by
    stake, and is finalized by a supermajority, by a deadline, or by the policy of
    internal/roundpolicy over the validators' progress (RoundProgress.v).  The
    struct [TaskVerificationRound] is flat; here the fields fixed when the round
    is opened are the record [RoundSpec].  A round is saved in its canonical form;
    the consumers load a copy, change it and save it again.  Rounds live in any
    [RoundStore]; [BadgerStore], with its secondary indexes, is proved to be one
    in RoundStore.v. *)

From stdpp Require Import sets fin_sets fin_map_dom.
From S2P Require Import Prelude GoStd Store Event Float64 Jcs RoundProgress.

(** * Constants, states and verdicts *)

Definition DefaultAcceptanceThresholdBP : Z := 6000.
Definition DefaultParticipationFloor : Z := 3.
Definition DefaultRoundDeadlineSeconds : Z := 180.
Definition DefaultRoundExtensionSeconds : Z := 60.
Definition DefaultDiversityFloor : Z := 2.

Definition EffectiveParticipationFloor (totalConfiguredFamilies : Z) : Z :=
  if decide (DefaultParticipationFloor <= totalConfiguredFamilies) then DefaultParticipationFloor
  else if decide (2 <= totalConfiguredFamilies - 1) then totalConfiguredFamilies - 1
  else 2.

Notation RoundID := string (only parsing).

Definition NewRoundID (submissionEventID : EventID) : RoundID := sha256_hex ("tvr:" +:+ submissionEventID).

(** The values of the two enumerations; [UnmarshalJSON] refuses other names. *)
Inductive RoundState :=
  | RoundStateOpen
  | RoundStateFinalizedAccept
  | RoundStateFinalizedReject
  | RoundStateDisputed
  | RoundStateExpired.

#[global] Instance RoundState_eq_dec : EqDecision RoundState.
Proof. solve_decision. Defined.

Definition RoundState_int (s : RoundState) : Z :=
  match s with
  | RoundStateOpen => 0
  | RoundStateFinalizedAccept => 1
  | RoundStateFinalizedReject => 2
  | RoundStateDisputed => 3
  | RoundStateExpired => 4
  end.

Definition RoundState_String (s : RoundState) : string :=
  match s with
  | RoundStateOpen => "open"
  | RoundStateFinalizedAccept => "finalized_accept"
  | RoundStateFinalizedReject => "finalized_reject"
  | RoundStateDisputed => "disputed"
  | RoundStateExpired => "expired"
  end.

Definition roundStateFromName (name : string) : option RoundState :=
  if decide (name = "open") then Some RoundStateOpen
  else if decide (name = "finalized_accept") then Some RoundStateFinalizedAccept
  else if decide (name = "finalized_reject") then Some RoundStateFinalizedReject
  else if decide (name = "disputed") then Some RoundStateDisputed
  else if decide (name = "expired") then Some RoundStateExpired
  else None.

Inductive Verdict := VerdictPass | VerdictFail | VerdictAbstain.

#[global] Instance Verdict_eq_dec : EqDecision Verdict.
Proof. solve_decision. Defined.

Definition Verdict_String (v : Verdict) : string :=
  match v with VerdictPass => "pass" | VerdictFail => "fail" | VerdictAbstain => "abstain" end.

Definition verdictFromName (name : string) : option Verdict :=
  if decide (name = "pass") then Some VerdictPass
  else if decide (name = "fail") then Some VerdictFail
  else if decide (name = "abstain") then Some VerdictAbstain
  else None.

(** The JSON names are read back. *)
Lemma roundStateFromName_String s : roundStateFromName (RoundState_String s) = Some s.
Proof. by destruct s. Qed.

Lemma verdictFromName_String v : verdictFromName (Verdict_String v) = Some v.
Proof. by destruct v. Qed.

Inductive TVError :=
  | ErrRoundNotFound
  | ErrInvalidStateTransition (from to : RoundState)
  | ErrInvalidRoundID (field : string)
  | ErrInvalidDeadline (field : string)
  | ErrSerializationFailed
  | ErrPersistenceFailed
  | ErrRoundNotOpen
  | ErrEquivocation.

(** * The round *)

Record TaskVerificationVoteRecord := mkVote {
  v_ValidatorID : AgentID;
  v_Verdict : Verdict;
  v_ScoreBP : Z;
  v_ScoreBreakdown : gmap string Z;
  v_AnalyzerFamily : string;
  v_AnalyzerVersion : string;
  v_PolicyVersion : string;
  v_AnalysisArtifactHash : string;
  v_Stake : Z;
  v_TimestampUnix : Z;
}.

Record RoundSpec := mkRoundSpec {
  r_RoundID : RoundID;
  r_TaskID : string;
  r_SubmissionEventID : EventID;
  r_WorkerID : AgentID;
  r_PosterID : AgentID;
  r_Category : string;
  r_ValidatorSetVersion : Z;
  r_Committee : list AgentID;
  r_AnalyzerPolicyID : string;
  r_DiversityFloor : Z;
  r_AcceptanceThresholdBP : Z;
  r_OpenedAtUnix : Z;
  r_DeadlineUnix : Z;
}.

Record TaskVerificationRound := mkRound {
  r_spec :> RoundSpec;
  r_ExtendedUntilUnix : Z;
  r_State : RoundState;
  r_PassWeight : Z;
  r_FailWeight : Z;
  r_AbstainWeight : Z;
  r_ParticipatingFamilies : gmap string Z;
  r_AllParticipatingFamilies : gset string;
  r_Votes : list TaskVerificationVoteRecord;
  r_FinalVerdict : Verdict;
  r_FinalScoreBP : Z;
  r_FinalizationTime : Z;
  r_CalibrationApplied : bool;
}.

Section round_updates.
Implicit Types (r : TaskVerificationRound).

Definition set_tally (pass fail abstain : Z) (families : gmap string Z) r : TaskVerificationRound :=
  mkRound r (r_ExtendedUntilUnix r) (r_State r) pass fail abstain families (r_AllParticipatingFamilies r) (r_Votes r)
    (r_FinalVerdict r) (r_FinalScoreBP r) (r_FinalizationTime r) (r_CalibrationApplied r).

Definition set_votes (families : gset string) (votes : list TaskVerificationVoteRecord) r : TaskVerificationRound :=
  mkRound r (r_ExtendedUntilUnix r) (r_State r) (r_PassWeight r) (r_FailWeight r) (r_AbstainWeight r)
    (r_ParticipatingFamilies r) families votes
    (r_FinalVerdict r) (r_FinalScoreBP r) (r_FinalizationTime r) (r_CalibrationApplied r).

Definition set_state (s : RoundState) (finalizationTime : Z) r : TaskVerificationRound :=
  mkRound r (r_ExtendedUntilUnix r) s (r_PassWeight r) (r_FailWeight r) (r_AbstainWeight r)
    (r_ParticipatingFamilies r) (r_AllParticipatingFamilies r) (r_Votes r)
    (r_FinalVerdict r) (r_FinalScoreBP r) finalizationTime (r_CalibrationApplied r).

Definition set_outcome (v : Verdict) (scoreBP : Z) r : TaskVerificationRound :=
  mkRound r (r_ExtendedUntilUnix r) (r_State r) (r_PassWeight r) (r_FailWeight r) (r_AbstainWeight r)
    (r_ParticipatingFamilies r) (r_AllParticipatingFamilies r) (r_Votes r)
    v scoreBP (r_FinalizationTime r) (r_CalibrationApplied r).

Definition set_extended (until : Z) r : TaskVerificationRound :=
  mkRound r until (r_State r) (r_PassWeight r) (r_FailWeight r) (r_AbstainWeight r)
    (r_ParticipatingFamilies r) (r_AllParticipatingFamilies r) (r_Votes r)
    (r_FinalVerdict r) (r_FinalScoreBP r) (r_FinalizationTime r) (r_CalibrationApplied r).

Definition set_calibrated r : TaskVerificationRound :=
  mkRound r (r_ExtendedUntilUnix r) (r_State r) (r_PassWeight r) (r_FailWeight r) (r_AbstainWeight r)
    (r_ParticipatingFamilies r) (r_AllParticipatingFamilies r) (r_Votes r)
    (r_FinalVerdict r) (r_FinalScoreBP r) (r_FinalizationTime r) true.
End round_updates.

Record OpenRoundParams := mkParams {
  p_TaskID : string;
  p_SubmissionEventID : EventID;
  p_WorkerID : AgentID;
  p_PosterID : AgentID;
  p_Category : string;
  p_ValidatorSetVersion : Z;
  p_Committee : list AgentID;
  p_AnalyzerPolicyID : string;
  p_DiversityFloor : Z;
  p_AcceptanceThresholdBP : Z;
  p_DeadlineSeconds : Z;
  p_Now : Z;
}.

Definition OpenRound (p : OpenRoundParams) : TVError + TaskVerificationRound :=
  if decide (p_TaskID p = "") then inl (ErrInvalidRoundID "TaskID")
  else if decide (p_SubmissionEventID p = "") then inl (ErrInvalidRoundID "SubmissionEventID")
  else if decide (p_WorkerID p = "") then inl (ErrInvalidRoundID "WorkerID")
  else if decide (p_PosterID p = "") then inl (ErrInvalidRoundID "PosterID")
  else if decide (p_Category p = "") then inl (ErrInvalidRoundID "Category")
  else if decide (p_DeadlineSeconds p <= 0) then inl (ErrInvalidDeadline "DeadlineSeconds")
  else if decide (p_DiversityFloor p < 1) then inl (ErrInvalidDeadline "DiversityFloor")
  else if decide (p_AcceptanceThresholdBP p > 10000) then inl (ErrInvalidDeadline "AcceptanceThresholdBP")
  else inr (mkRound
    (mkRoundSpec (NewRoundID (p_SubmissionEventID p)) (p_TaskID p) (p_SubmissionEventID p) (p_WorkerID p) (p_PosterID p)
       (p_Category p) (p_ValidatorSetVersion p) (p_Committee p) (p_AnalyzerPolicyID p) (p_DiversityFloor p)
       (p_AcceptanceThresholdBP p) (p_Now p) (i64 (p_Now p + p_DeadlineSeconds p)))
    0 RoundStateOpen 0 0 0 ∅ ∅ [] VerdictPass 0 0 false).

(** [validTransitions] and [CanTransitionTo]. *)
Definition round_transitions (s : RoundState) : list RoundState :=
  match s with
  | RoundStateOpen => [RoundStateFinalizedAccept; RoundStateFinalizedReject; RoundStateDisputed; RoundStateExpired]
  | RoundStateFinalizedAccept | RoundStateFinalizedReject | RoundStateDisputed | RoundStateExpired => []
  end.

Definition round_CanTransitionTo (r : TaskVerificationRound) (next : RoundState) : bool :=
  bool_decide (next ∈ round_transitions (r_State r)).

Definition round_Transition (r : TaskVerificationRound) (next : RoundState) (now : Z) : TVError + TaskVerificationRound :=
  if negb (round_CanTransitionTo r next) then inl (ErrInvalidStateTransition (r_State r) next)
  else inr (set_state next (if decide (next ≠ RoundStateOpen) then now else r_FinalizationTime r) r).

(** [TaskVerificationRound.IsTerminal]. *)
Definition round_IsTerminal (r : TaskVerificationRound) : bool := bool_decide (r_State r ≠ RoundStateOpen).

Definition DeadlineForCurrentPhase (r : TaskVerificationRound) : Z :=
  if decide (r_ExtendedUntilUnix r > 0) then r_ExtendedUntilUnix r else r_DeadlineUnix r.

Definition DistinctPassFamilies (r : TaskVerificationRound) : Z :=
  Z.of_nat (size (filter (λ kv : string * Z, kv.2 > 0) (r_ParticipatingFamilies r))).

(** The families of a list of votes, the empty one left out. *)
Definition vote_families (votes : list TaskVerificationVoteRecord) : gset string :=
  list_to_set (filter (λ f, f ≠ "") (v_AnalyzerFamily <$> votes)).

Definition DistinctParticipatingFamilies (r : TaskVerificationRound) : Z := Z.of_nat (size (vote_families (r_Votes r))).

Definition VerdictToState (v : Verdict) : RoundState :=
  match v with
  | VerdictPass => RoundStateFinalizedAccept
  | VerdictFail => RoundStateFinalizedReject
  | VerdictAbstain => RoundStateDisputed
  end.

(** * Aggregation *)

Record AggregationResult := mkAggResult {
  ar_Applied : bool;
  ar_DuplicateVote : bool;
  ar_EquivocationDetected : bool;
  ar_NewPassWeight : Z;
  ar_NewFailWeight : Z;
  ar_NewAbstainWeight : Z;
}.

Definition same_voter (vote existing : TaskVerificationVoteRecord) : bool :=
  bool_decide (v_ValidatorID existing = v_ValidatorID vote)
  && bool_decide (v_AnalyzerFamily existing = v_AnalyzerFamily vote).

Definition add_vote (vote : TaskVerificationVoteRecord) (r : TaskVerificationRound) : TaskVerificationRound :=
  let fam := v_AnalyzerFamily vote in
  let r := set_votes (if decide (fam = "") then r_AllParticipatingFamilies r else {[fam]} ∪ r_AllParticipatingFamilies r)
             (r_Votes r ++ [vote]) r in
  match v_Verdict vote with
  | VerdictPass =>
      set_tally (u64 (r_PassWeight r + v_Stake vote)) (r_FailWeight r) (r_AbstainWeight r)
        (if decide (fam = "") then r_ParticipatingFamilies r
         else <[fam := u64 (default 0 (r_ParticipatingFamilies r !! fam) + v_Stake vote)]> (r_ParticipatingFamilies r)) r
  | VerdictFail =>
      set_tally (r_PassWeight r) (u64 (r_FailWeight r + v_Stake vote)) (r_AbstainWeight r) (r_ParticipatingFamilies r) r
  | VerdictAbstain =>
      set_tally (r_PassWeight r) (r_FailWeight r) (u64 (r_AbstainWeight r + v_Stake vote)) (r_ParticipatingFamilies r) r
  end.

(** The round, the result and the error. *)
Definition ApplyVoteToRound (round : TaskVerificationRound) (vote : TaskVerificationVoteRecord) :
    TaskVerificationRound * AggregationResult * option TVError :=
  if decide (r_State round ≠ RoundStateOpen) then (round, mkAggResult false false false 0 0 0, Some ErrRoundNotOpen)
  else match List.find (same_voter vote) (r_Votes round) with
  | Some existing =>
      if decide (v_Verdict existing = v_Verdict vote ∧ v_ScoreBP existing = v_ScoreBP vote)
      then (round, mkAggResult false true false 0 0 0, None)
      else (round, mkAggResult false false true 0 0 0, Some ErrEquivocation)
  | None =>
      let r := add_vote vote round in
      (r, mkAggResult true false false (r_PassWeight r) (r_FailWeight r) (r_AbstainWeight r), None)
  end.

Definition RecordPostFinalizationVote (round : TaskVerificationRound) (vote : TaskVerificationVoteRecord) :
    TaskVerificationRound := set_votes (r_AllParticipatingFamilies round) (r_Votes round ++ [vote]) round.

(** * Finalization *)

Inductive FinalizationReason :=
  | ReasonNone
  | ReasonAcceptSupermajority
  | ReasonRejectSupermajority
  | ReasonDeadlineExpiredDispute.

#[global] Instance FinalizationReason_eq_dec : EqDecision FinalizationReason.
Proof. solve_decision. Defined.

Record FinalizationDecision := mkDecision {
  fd_ShouldFinalize : bool;
  fd_Verdict : Verdict;
  fd_FinalScoreBP : Z;
  fd_Reason : FinalizationReason;
}.

Definition no_decision : FinalizationDecision := mkDecision false VerdictPass 0 ReasonNone.

Record FinalizerConfig := mkFinalizerConfig {
  fc_BFTThresholdBP : Z;
  fc_AcceptanceScoreThreshold : Z;
  fc_DiversityFloor : Z;
  fc_ParticipationFloor : Z;
  fc_EnforceFailDiversity : bool;
}.

Definition DefaultFinalizerConfig : FinalizerConfig := mkFinalizerConfig 6667 6000 2 DefaultParticipationFloor false.

Definition ceilMulDiv (a b c : Z) : Z := if decide (c = 0) then 0 else u64 (u64 (u64 (a * b) + c) - 1) / c.

Definition MedianScore (votes : list TaskVerificationVoteRecord) (filterVerdict : Verdict) : Z :=
  let scores := v_ScoreBP <$> filter (λ v, v_Verdict v = filterVerdict) votes in
  let scores := sort_slice Z.le scores in
  let n := length scores in
  if decide (n = 0%nat) then 0
  else if decide (n mod 2 = 1)%nat then nth (n / 2)%nat scores 0
  else u64 (nth (n / 2 - 1)%nat scores 0 + nth (n / 2)%nat scores 0) / 2.

(** The three parts of [Evaluate]: acceptance, rejection, the deadline. *)
Definition accepts (cfg : FinalizerConfig) (round : TaskVerificationRound) (threshold : Z) : bool :=
  let participationFloor := if decide (fc_ParticipationFloor cfg = 0) then DefaultParticipationFloor
                            else fc_ParticipationFloor cfg in
  bool_decide (threshold <= r_PassWeight round)
  && (bool_decide (fc_DiversityFloor cfg <= DistinctPassFamilies round)
      && bool_decide (participationFloor <= DistinctParticipatingFamilies round)).

Definition fin_Evaluate (cfg : FinalizerConfig) (round : TaskVerificationRound) (totalActiveWeight now : Z) :
    FinalizationDecision :=
  if decide (r_State round ≠ RoundStateOpen) then no_decision
  else
    let threshold := ceilMulDiv totalActiveWeight (fc_BFTThresholdBP cfg) 10000 in
    if accepts cfg round threshold
    then mkDecision true VerdictPass (MedianScore (r_Votes round) VerdictPass) ReasonAcceptSupermajority
    else if decide (threshold <= r_FailWeight round) then mkDecision true VerdictFail 0 ReasonRejectSupermajority
    else if decide (now > DeadlineForCurrentPhase round) then
      if decide (r_ExtendedUntilUnix round > 0) then mkDecision true VerdictAbstain 0 ReasonDeadlineExpiredDispute
      else
        let halfWeight := totalActiveWeight / 2 in
        if decide (halfWeight <= r_PassWeight round ∨ halfWeight <= r_FailWeight round) then no_decision
        else mkDecision true VerdictAbstain 0 ReasonDeadlineExpiredDispute
    else no_decision.

(** * What the votes add up to *)

Definition stake_of (w : Verdict) (votes : list TaskVerificationVoteRecord) : Z :=
  sum_list_Z (v_Stake <$> filter (λ v, v_Verdict v = w) votes).

(** The families of the votes with a verdict. *)
Definition families_of (w : Verdict) (votes : list TaskVerificationVoteRecord) : gset string :=
  vote_families (filter (λ v, v_Verdict v = w) votes).

Definition voter (v : TaskVerificationVoteRecord) : AgentID * string := (v_ValidatorID v, v_AnalyzerFamily v).

Definition stakes_u64 (votes : list TaskVerificationVoteRecord) : Prop := Forall (λ v, is_u64 (v_Stake v)) votes.

(** The aggregation state of an open round is determined by its votes. *)
Record round_ok (r : TaskVerificationRound) : Prop := {
  ro_voters : NoDup (voter <$> r_Votes r);
  ro_pass : r_PassWeight r = u64 (stake_of VerdictPass (r_Votes r));
  ro_fail : r_FailWeight r = u64 (stake_of VerdictFail (r_Votes r));
  ro_abstain : r_AbstainWeight r = u64 (stake_of VerdictAbstain (r_Votes r));
  ro_families : dom (r_ParticipatingFamilies r) = families_of VerdictPass (r_Votes r);
  ro_all : r_AllParticipatingFamilies r = vote_families (r_Votes r);
}.

Lemma stake_of_snoc w votes v :
  stake_of w (votes ++ [v]) = stake_of w votes + (if decide (v_Verdict v = w) then v_Stake v else 0).
Proof.
  unfold stake_of. rewrite filter_app, fmap_app, sum_list_Z_app. f_equal.
  rewrite filter_cons, filter_nil. case_decide; cbn; lia.
Qed.

Lemma vote_families_snoc votes v :
  vote_families (votes ++ [v]) =
  (if decide (v_AnalyzerFamily v = "") then vote_families votes else {[v_AnalyzerFamily v]} ∪ vote_families votes).
Proof.
  unfold vote_families. rewrite fmap_app, filter_app, list_to_set_app_L.
  change (v_AnalyzerFamily <$> [v]) with [v_AnalyzerFamily v]. rewrite filter_cons, filter_nil.
  repeat case_decide; try done; set_solver.
Qed.

Lemma families_of_snoc w votes v :
  families_of w (votes ++ [v]) =
  (if decide (v_Verdict v = w ∧ v_AnalyzerFamily v ≠ "") then {[v_AnalyzerFamily v]} ∪ families_of w votes
   else families_of w votes).
Proof.
  unfold families_of. rewrite filter_app, filter_cons, filter_nil. case_decide as Hv; cycle 1.
  { rewrite app_nil_r, decide_False by tauto. done. }
  rewrite vote_families_snoc. repeat case_decide; tauto || done.
Qed.

Lemma find_none_voter vote votes :
  List.find (same_voter vote) votes = None → voter vote ∉ voter <$> votes.
Proof.
  intros Hf Hin. apply list_elem_of_fmap in Hin as (v & Heq & Hv). apply list_elem_of_In in Hv.
  pose proof (List.find_none _ _ Hf _ Hv) as Hs. unfold same_voter in Hs. injection Heq as H1 H2.
  rewrite !bool_decide_eq_true_2 in Hs by done. done.
Qed.

Lemma add_vote_ok vote r : round_ok r → voter vote ∉ voter <$> r_Votes r → round_ok (add_vote vote r).
Proof.
  intros [Hnd Hp Hf Ha Hfam Hall] Hnew.
  assert (r_Votes (add_vote vote r) = r_Votes r ++ [vote]) as Hvotes by (unfold add_vote; by destruct (v_Verdict vote)).
  assert (NoDup (voter <$> r_Votes r ++ [vote])) as Hnd'.
  { rewrite fmap_app. apply NoDup_app. split_and!; [done| |apply NoDup_singleton]. intros x Hx Hv.
    apply list_elem_of_singleton in Hv. by subst. }
  assert (r_AllParticipatingFamilies (add_vote vote r) = vote_families (r_Votes r ++ [vote])) as Hall'.
  { rewrite vote_families_snoc, <- Hall. unfold add_vote. destruct (v_Verdict vote); cbn; by case_decide. }
  split; rewrite ?Hvotes, ?stake_of_snoc, ?families_of_snoc; [done|..|done];
    unfold add_vote; destruct (v_Verdict vote) eqn:Hv; cbn [r_PassWeight r_FailWeight r_AbstainWeight r_ParticipatingFamilies
      set_tally set_votes].
  all: try (rewrite decide_True by done); try (rewrite decide_False by done); rewrite ?Z.add_0_r; try done.
  all: try (rewrite ?Hp, ?Hf, ?Ha; apply u64_proper; by eqm_norm).
  all: try (rewrite decide_False by naive_solver; done).
  case_decide as Hfe; [rewrite decide_False by naive_solver; done|]. rewrite decide_True by done.
  by rewrite dom_insert_L, Hfam.
Qed.

Lemma ApplyVote_cases round vote :
  let '(r, res, err) := ApplyVoteToRound round vote in
  (r = round ∧ ar_Applied res = false)
  ∨ (r = add_vote vote round ∧ ar_Applied res = true ∧ err = None ∧ r_State round = RoundStateOpen
     ∧ voter vote ∉ voter <$> r_Votes round).
Proof.
  unfold ApplyVoteToRound. case_decide as Hs; [by left|]. destruct (List.find _ _) as [v|] eqn:Hf.
  - case_decide; by left.
  - right. split_and!; [done|done|done|done|by apply find_none_voter].
Qed.

(** A round that receives votes, in any order, with duplicates and conflicts. *)
Definition receive (r : TaskVerificationRound) (votes : list TaskVerificationVoteRecord) : TaskVerificationRound :=
  foldl (λ r v, (ApplyVoteToRound r v).1.1) r votes.

Lemma receive_ok r votes : round_ok r → stakes_u64 (r_Votes r) → stakes_u64 votes →
  round_ok (receive r votes) ∧ stakes_u64 (r_Votes (receive r votes)) ∧ r_State (receive r votes) = r_State r.
Proof.
  revert r. induction votes as [|v votes IH]; intros r Hr Hs Hv; [done|]. apply Forall_cons in Hv as [Hv Hvs]. cbn.
  pose proof (ApplyVote_cases r v) as Hc. destruct (ApplyVoteToRound r v) as [[r1 res] err].
  cbn [fst]. destruct Hc as [[-> _]|(-> & _ & _ & _ & Hnew)]; [by apply IH|].
  assert (r_Votes (add_vote v r) = r_Votes r ++ [v]) as Hvotes by (unfold add_vote; by destruct (v_Verdict v)).
  assert (r_State (add_vote v r) = r_State r) as Hst by (unfold add_vote; by destruct (v_Verdict v)).
  rewrite <- Hst. apply IH; [by apply add_vote_ok| |done]. rewrite Hvotes. apply Forall_app. split; [done|by apply Forall_singleton].
Qed.

Lemma OpenRound_ok p r : OpenRound p = inr r → round_ok r ∧ r_Votes r = [] ∧ r_State r = RoundStateOpen.
Proof.
  unfold OpenRound. repeat (case_decide; [done|]). intros [= <-]. split; [|done].
  split; try done; [constructor].
Qed.

(** * When a round is decided *)

Lemma stake_of_le w votes : stakes_u64 votes → 0 <= stake_of w votes.
Proof.
  intros Hs. unfold stake_of. induction Hs as [|v votes Hv Hs IH]; [done|]. rewrite filter_cons.
  case_decide; [|done]. cbn. fold (sum_list_Z (v_Stake <$> filter (λ v, v_Verdict v = w) votes)).
  unfold is_u64 in Hv. lia.
Qed.

(** The stakes of a list of votes, and of those with a verdict. *)
Definition total_stake (votes : list TaskVerificationVoteRecord) : Z := sum_list_Z (v_Stake <$> votes).

Lemma stake_of_total w votes : stakes_u64 votes → stake_of w votes <= total_stake votes.
Proof.
  intros Hs. unfold stake_of, total_stake. induction Hs as [|v votes Hv Hs IH]; [done|]. rewrite filter_cons.
  unfold is_u64 in Hv. case_decide; cbn; fold (sum_list_Z (v_Stake <$> votes));
    [fold (sum_list_Z (v_Stake <$> filter (λ v, v_Verdict v = w) votes))|]; lia.
Qed.

(** The threshold, where the products do not wrap around. *)
Lemma ceilMulDiv_spec a b c : 0 <= a → 0 <= b → 0 < c → a * b + c <= 2 ^ 64 →
  a * b <= ceilMulDiv a b c * c < a * b + c.
Proof.
  intros Ha Hb Hc Hn. assert (2 ^ 64 = u64_mod) as H64 by done. rewrite H64 in Hn.
  unfold ceilMulDiv. rewrite decide_False by lia.
  assert (u64 (u64 (u64 (a * b) + c) - 1) = a * b + c - 1) as ->.
  { rewrite (u64_unique _ (a * b + c - 1)); [done|unfold is_u64; nia|]. unfold Z.sub at 1. rewrite !eqm_u64. eqm_lia. }
  pose proof (Z_div_mod_eq_full (a * b + c - 1) c). pose proof (Z.mod_pos_bound (a * b + c - 1) c Hc). lia.
Qed.

(** A total weight for which the finalizer's arithmetic is exact. *)
Definition weight_ok (total : Z) : Prop := 0 <= total < 2 ^ 51.

Lemma default_threshold total : weight_ok total →
  6667 * total <= 10000 * ceilMulDiv total (fc_BFTThresholdBP DefaultFinalizerConfig) 10000.
Proof. unfold weight_ok. intros H. pose proof (ceilMulDiv_spec total 6667 10000). cbn. lia. Qed.

Lemma pass_families_le r : round_ok r → DistinctPassFamilies r <= Z.of_nat (size (families_of VerdictPass (r_Votes r))).
Proof.
  intros Hr. unfold DistinctPassFamilies. rewrite <- (ro_families r Hr), size_dom.
  apply inj_le. apply map_size_filter.
Qed.

Lemma decision_quorum r total now :
  round_ok r → r_State r = RoundStateOpen → weight_ok total →
  (∀ w, 0 <= stake_of w (r_Votes r) < 2 ^ 64) →
  let d := fin_Evaluate DefaultFinalizerConfig r total now in
  fd_ShouldFinalize d = true →
  match fd_Verdict d with
  | VerdictPass => 6667 * total <= 10000 * stake_of VerdictPass (r_Votes r)
      ∧ 2 <= Z.of_nat (size (families_of VerdictPass (r_Votes r)))
      ∧ 3 <= Z.of_nat (size (vote_families (r_Votes r)))
  | VerdictFail => 6667 * total <= 10000 * stake_of VerdictFail (r_Votes r)
  | VerdictAbstain => now > DeadlineForCurrentPhase r
  end.
Proof.
  intros Hr Hopen Htotal Hst d. pose proof (default_threshold total Htotal) as Hth.
  assert (∀ w, u64 (stake_of w (r_Votes r)) = stake_of w (r_Votes r)) as Hw
    by (intros w; apply u64_small; exact (Hst w)).
  unfold d, fin_Evaluate. rewrite decide_False by (rewrite Hopen; tauto).
  set (th := ceilMulDiv _ _ _) in *. destruct (accepts _ r th) eqn:Ha; cbn [fd_ShouldFinalize fd_Verdict].
  - intros _. unfold accepts in Ha. rewrite decide_False in Ha by done.
    rewrite !andb_true_iff, !bool_decide_eq_true, (ro_pass r Hr), Hw in Ha. destruct Ha as (Hp & Hd & Hf).
    pose proof (pass_families_le r Hr). unfold DistinctParticipatingFamilies in Hf.
    cbn in Hd, Hf. unfold DefaultParticipationFloor in Hf. lia.
  - case_decide as Hfail; cbn [fd_ShouldFinalize fd_Verdict].
    + intros _. rewrite (ro_fail r Hr), Hw in Hfail. lia.
    + clear Hth. repeat (case_decide; cbn [fd_ShouldFinalize fd_Verdict no_decision]; try done).
Qed.

(** C35: what the default finalizer decides on.  A round that received any sequence of votes, repeated and conflicting ones
    included, holds at most one vote per validator and analyzer family; for a total weight below 2^51 (beyond, the product in
    [ceilMulDiv] can wrap and the threshold with it), the finalizer accepts the round only when its pass votes carry at least
    66.67% of the total weight it is given, come from at least two families, and at least three families voted, and
    rejects it only when its fail votes carry at least 66.67%.  The weight is counted per vote, so a validator counts once for each
    of its families: this is not the supermajority of the full validator set that docs/blobsync-design.md
    speaks of, see [one_validator_decides]. *)
Theorem verdict_needs_quorum p r0 votes total now :
  OpenRound p = inr r0 → stakes_u64 votes → weight_ok total →
  let r := receive r0 votes in
  total_stake (r_Votes r) < 2 ^ 64 →
  let d := fin_Evaluate DefaultFinalizerConfig r total now in
  NoDup (voter <$> r_Votes r)
  ∧ (fd_ShouldFinalize d = true → fd_Verdict d = VerdictPass →
      6667 * total <= 10000 * stake_of VerdictPass (r_Votes r)
      ∧ 2 <= Z.of_nat (size (families_of VerdictPass (r_Votes r)))
      ∧ 3 <= Z.of_nat (size (vote_families (r_Votes r))))
  ∧ (fd_ShouldFinalize d = true → fd_Verdict d = VerdictFail →
      6667 * total <= 10000 * stake_of VerdictFail (r_Votes r)).
Proof.
  intros Hopen Hstakes Htotal r Hsum d. destruct (OpenRound_ok p r0 Hopen) as (Hr0 & Hv0 & Hs0).
  destruct (receive_ok r0 votes Hr0) as (Hr & Hs & Hst); [rewrite Hv0; constructor|done|]. fold r in Hr, Hs, Hst.
  assert (∀ w, 0 <= stake_of w (r_Votes r) < 2 ^ 64) as Hw.
  { intros w. pose proof (stake_of_le w _ Hs). pose proof (stake_of_total w _ Hs). lia. }
  pose proof (decision_quorum r total now Hr ltac:(congruence) Htotal Hw) as Hd. fold d in Hd.
  split; [apply Hr|]. split; intros Hf Hv; specialize (Hd Hf); by rewrite Hv in Hd.
Qed.

(** ** Agreement *)

(** What every validator votes, and its stake. *)
Definition votes_by (ballot : gmap AgentID (Verdict * Z)) (votes : list TaskVerificationVoteRecord) : Prop :=
  NoDup (v_ValidatorID <$> votes) ∧ Forall (λ v, ballot !! v_ValidatorID v = Some (v_Verdict v, v_Stake v)) votes.

Definition ballot_stake (w : Verdict) (b : Verdict * Z) : Z := if decide (b.1 = w) then b.2 else 0.

Lemma stake_of_ballot w ballot votes :
  (∀ a b, ballot !! a = Some b → 0 <= b.2) → votes_by ballot votes → stake_of w votes <= map_sum (ballot_stake w) ballot.
Proof.
  intros Hpos [Hnd Hall].
  assert (stake_of w votes = sum_list_Z ((λ kv : AgentID * (Verdict * Z), ballot_stake w kv.2) <$>
    ((λ v, (v_ValidatorID v, (v_Verdict v, v_Stake v))) <$> votes))) as ->.
  { clear. unfold stake_of. induction votes as [|v votes IH]; [done|]. rewrite filter_cons. cbn.
    unfold ballot_stake at 1. cbn. case_decide; cbn; [exact (f_equal (Z.add (v_Stake v)) IH)|exact IH]. }
  apply sum_keys_le.
  - intros a b Hb. unfold ballot_stake. case_decide; [by eapply Hpos|done].
  - rewrite <- list_fmap_compose. exact Hnd.
  - intros a b Hin. apply list_elem_of_fmap in Hin as (v & [= -> ->] & Hv). by apply (proj1 (Forall_forall _ _) Hall).
Qed.

(** No node accepts what another one rejects.  When every validator votes once per round, through one analyzer family and
    the same way to everybody, and two nodes' finalizers both reach a verdict other than the dispute of an expired round,
    it is the same verdict, whichever votes each of them has received.  (One node can still dispute a round at its deadline that
    another one accepts.  The total weight, the same on both, is positive, at least the stakes of the voters, and below 2^51, from where
    the finalizer's arithmetic can wrap.) *)
Theorem verdicts_agree ballot total p1 p2 r1 r2 votes1 votes2 now1 now2 :
  (∀ a b, ballot !! a = Some b → 0 <= b.2) → map_sum snd ballot <= total → 0 < total → weight_ok total →
  OpenRound p1 = inr r1 → OpenRound p2 = inr r2 → stakes_u64 votes1 → stakes_u64 votes2 →
  votes_by ballot (r_Votes (receive r1 votes1)) → votes_by ballot (r_Votes (receive r2 votes2)) →
  let d1 := fin_Evaluate DefaultFinalizerConfig (receive r1 votes1) total now1 in
  let d2 := fin_Evaluate DefaultFinalizerConfig (receive r2 votes2) total now2 in
  fd_ShouldFinalize d1 = true → fd_ShouldFinalize d2 = true →
  fd_Verdict d1 ≠ VerdictAbstain → fd_Verdict d2 ≠ VerdictAbstain → fd_Verdict d1 = fd_Verdict d2.
Proof.
  intros Hpos Hsum Htot Hok Ho1 Ho2 Hu1 Hu2 Hb1 Hb2 d1 d2 Hd1 Hd2 Ha1 Ha2.
  assert (∀ w, map_sum (ballot_stake w) ballot <= map_sum snd ballot) as Hle.
  { intros w. apply map_sum_le. intros a b Hb. specialize (Hpos a b Hb). unfold ballot_stake. case_decide; lia. }
  assert (map_sum (ballot_stake VerdictPass) ballot + map_sum (ballot_stake VerdictFail) ballot <= map_sum snd ballot) as Hpf.
  { rewrite <- map_sum_add. apply map_sum_le. intros a b Hb. specialize (Hpos a b Hb). unfold ballot_stake.
    repeat case_decide; try lia. congruence. }
  assert (∀ p r0 votes now, OpenRound p = inr r0 → stakes_u64 votes → votes_by ballot (r_Votes (receive r0 votes)) →
    let d := fin_Evaluate DefaultFinalizerConfig (receive r0 votes) total now in
    fd_ShouldFinalize d = true → fd_Verdict d ≠ VerdictAbstain →
    6667 * total <= 10000 * map_sum (ballot_stake (fd_Verdict d)) ballot) as Hq.
  { intros p r0 votes now Ho Hu Hb d Hd Ha. destruct (OpenRound_ok p r0 Ho) as (Hr0 & Hv0 & Hs0).
    destruct (receive_ok r0 votes Hr0) as (Hr & Hs & Hst); [rewrite Hv0; constructor|done|].
    assert (∀ w, stake_of w (r_Votes (receive r0 votes)) <= map_sum (ballot_stake w) ballot) as Hw
      by (intros w; by apply stake_of_ballot).
    assert (∀ w, 0 <= stake_of w (r_Votes (receive r0 votes)) < 2 ^ 64) as Hw64.
    { intros w. pose proof (stake_of_le w _ Hs). specialize (Hw w). specialize (Hle w). unfold weight_ok in Hok. lia. }
    pose proof (decision_quorum (receive r0 votes) total now Hr ltac:(congruence) Hok Hw64 Hd) as Hdq. fold d in Hdq.
    pose proof (Hw VerdictPass). pose proof (Hw VerdictFail). destruct (fd_Verdict d); [lia|lia|done]. }
  pose proof (Hq p1 r1 votes1 now1 Ho1 Hu1 Hb1 Hd1 Ha1) as H1. pose proof (Hq p2 r2 votes2 now2 Ho2 Hu2 Hb2 Hd2 Ha2) as H2.
  fold d1 in H1. fold d2 in H2. destruct (fd_Verdict d1), (fd_Verdict d2); try done; lia.
Qed.

(** ** Concrete rounds *)

Definition demo_params : OpenRoundParams :=
  mkParams "t1" "sub1" "worker" "poster" "code" 1 [] "bootstrap_v1" DefaultDiversityFloor DefaultAcceptanceThresholdBP
    DefaultRoundDeadlineSeconds 1000.

Definition demo_round : TaskVerificationRound :=
  mkRound (mkRoundSpec (NewRoundID "sub1") "t1" "sub1" "worker" "poster" "code" 1 [] "bootstrap_v1" 2 6000 1000 1180)
    0 RoundStateOpen 0 0 0 ∅ ∅ [] VerdictPass 0 0 false.

Lemma demo_open : OpenRound demo_params = inr demo_round.
Proof. reflexivity. Qed.

Definition demo_vote (validator family : string) (v : Verdict) (stake : Z) : TaskVerificationVoteRecord :=
  mkVote validator v 8000 ∅ family "" "" "" stake 1010.

Definition demo_votes : list TaskVerificationVoteRecord :=
  [demo_vote "v1" "f1" VerdictPass 40; demo_vote "v2" "f2" VerdictPass 40; demo_vote "v1" "f1" VerdictFail 40;
   demo_vote "v3" "f3" VerdictAbstain 20].

Lemma demo_votes_u64 : stakes_u64 demo_votes.
Proof. unfold stakes_u64, demo_votes. rewrite !Forall_cons, Forall_nil. by split_and!. Qed.

Lemma verdict_needs_quorum_witness :
  let r := receive demo_round demo_votes in
  length (r_Votes r) = 3%nat
  ∧ fd_Verdict (fin_Evaluate DefaultFinalizerConfig r 100 1020) = VerdictPass
  ∧ 6667 * 100 <= 10000 * stake_of VerdictPass (r_Votes r).
Proof.
  intros r. split; [reflexivity|]. split; [by vm_compute|].
  destruct (verdict_needs_quorum demo_params demo_round demo_votes 100 1020 demo_open demo_votes_u64) as (_ & Hp & _).
  - unfold weight_ok. lia.
  - by vm_compute.
  - apply Hp; by vm_compute.
Defined.

Definition demo_ballot : gmap AgentID (Verdict * Z) :=
  list_to_map [("v1", (VerdictPass, 40)); ("v2", (VerdictPass, 40)); ("v3", (VerdictAbstain, 20))].

(** Another node has not heard of the abstention's family before the others, and
    gets the votes in another order. *)
Definition demo_votes' : list TaskVerificationVoteRecord :=
  [demo_vote "v3" "f3" VerdictAbstain 20; demo_vote "v2" "f2" VerdictPass 40; demo_vote "v1" "f1" VerdictPass 40].

Lemma verdicts_agree_witness :
  fd_Verdict (fin_Evaluate DefaultFinalizerConfig (receive demo_round demo_votes) 100 1020)
  = fd_Verdict (fin_Evaluate DefaultFinalizerConfig (receive demo_round demo_votes') 100 1030).
Proof.
  apply (verdicts_agree demo_ballot 100 demo_params demo_params demo_round demo_round demo_votes demo_votes' 1020 1030).
  - intros a b Hb. apply elem_of_list_to_map_2 in Hb. set_unfold in Hb. naive_solver lia.
  - by vm_compute.
  - lia.
  - unfold weight_ok. lia.
  - exact demo_open.
  - exact demo_open.
  - exact demo_votes_u64.
  - unfold stakes_u64, demo_votes'. rewrite !Forall_cons, Forall_nil. by split_and!.
  - split; [apply (bool_decide_unpack _); vm_compute; exact I|].
    change (r_Votes (receive demo_round demo_votes)) with
      [demo_vote "v1" "f1" VerdictPass 40; demo_vote "v2" "f2" VerdictPass 40; demo_vote "v3" "f3" VerdictAbstain 20].
    rewrite !Forall_cons, Forall_nil. by split_and!.
  - split; [apply (bool_decide_unpack _); vm_compute; exact I|].
    change (r_Votes (receive demo_round demo_votes')) with demo_votes'.
    unfold demo_votes'. rewrite !Forall_cons, Forall_nil. by split_and!.
  - by vm_compute.
  - by vm_compute.
  - by vm_compute.
  - by vm_compute.
Defined.

(** The stake of a validator counts once per analyzer family: one validator with
    34 of 100 and three families passes a task alone, and another one with as much
    fails it on a node that hears of its votes first. *)
Lemma one_validator_decides :
  let alone w v := receive demo_round [demo_vote v "f1" w 34; demo_vote v "f2" w 34; demo_vote v "f3" w 34] in
  let d w v := fin_Evaluate DefaultFinalizerConfig (alone w v) 100 1020 in
  (fd_ShouldFinalize (d VerdictPass "v1") = true ∧ fd_Verdict (d VerdictPass "v1") = VerdictPass)
  ∧ (fd_ShouldFinalize (d VerdictFail "v2") = true ∧ fd_Verdict (d VerdictFail "v2") = VerdictFail).
Proof. by vm_compute. Qed.

(** With no active weight a round without votes is rejected at once. *)
Lemma no_weight_rejects :
  fin_Evaluate DefaultFinalizerConfig demo_round 0 1001 = mkDecision true VerdictFail 0 ReasonRejectSupermajority.
Proof. by vm_compute. Qed.
