(* ===== verification/RoundStore.v ===== *)
(** internal/taskverification/store.go and badger_store.go: the store of rounds.

    The clients of the store are modelled over the class [RoundStore] and its
    laws, a map of rounds.  [BadgerStore] writes a round and three index entries in
    one transaction of BadgerDB, which is any instance of [Badger]; it is proved to
    satisfy the laws.  The canonical JSON of a round is a parameter. *)

From stdpp Require Import sets fin_sets fin_map_dom.
From S2P Require Import Prelude GoStd Store Event TaskRound.

(** * The interface *)

(** [Canonical] keeps the votes in the order of their validators and leaves
    [AllParticipatingFamilies] out. *)
Definition vote_le (a b : TaskVerificationVoteRecord) : Prop := String.le (v_ValidatorID a) (v_ValidatorID b).

#[global] Instance vote_le_dec a b : Decision (vote_le a b).
Proof. unfold vote_le. apply _. Defined.

Definition canonical_round (r : TaskVerificationRound) : TaskVerificationRound := set_votes ∅ (sort_slice vote_le (r_Votes r)) r.

(** What the checker and the consumers use of [taskverification.Store]. *)
Class RoundStore (S : Type) : Type := {
  rs_save : TaskVerificationRound → S → S * option TVError;
  rs_load : RoundID → S → TVError + TaskVerificationRound;
  rs_load_sub : EventID → S → TVError + TaskVerificationRound;
  rs_list : RoundState → S → option (list TaskVerificationRound);
}.

(** What a saved round reads back as. *)
Class RoundEncoding : Type := {
  rs_stored : TaskVerificationRound → TaskVerificationRound;
  stored_id r : r_RoundID (rs_stored r) = r_RoundID r;
  stored_state r : r_State (rs_stored r) = r_State r;
  stored_verdict r : r_FinalVerdict (rs_stored r) = r_FinalVerdict r;
  stored_sub r : r_SubmissionEventID (rs_stored r) = r_SubmissionEventID r;
  stored_calibrated r : r_CalibrationApplied (rs_stored r) = r_CalibrationApplied r;
}.

Class RoundStoreLaws (S : Type) `{!RoundStore S, !RoundEncoding} : Type := {
  rs_ok : S → Prop;
  rs_view : S → gmap RoundID TaskVerificationRound;
  rs_view_key s id (r : TaskVerificationRound) : rs_ok s → rs_view s !! id = Some r → r_RoundID r = id;
  rs_save_ok r s s' : rs_ok s → rs_save r s = (s', None) →
    rs_ok s' ∧ rs_view s' = <[r_RoundID r := rs_stored r]> (rs_view s);
  rs_save_fail r s s' e : rs_ok s → rs_save r s = (s', Some e) → rs_ok s' ∧ rs_view s' = rs_view s;
  rs_load_ok id s r : rs_ok s → rs_load id s = inr r → rs_view s !! id = Some r;
  rs_load_missing id s : rs_ok s → rs_load id s = inl ErrRoundNotFound → rs_view s !! id = None;
  rs_load_sub_missing e s id (r : TaskVerificationRound) : rs_ok s → rs_load_sub e s = inl ErrRoundNotFound →
    rs_view s !! id = Some r → r_SubmissionEventID r ≠ e;
  rs_list_ok st s l : rs_ok s → rs_list st s = Some l →
    NoDup ((λ r : TaskVerificationRound, r_RoundID r) <$> l)
    ∧ ∀ r : TaskVerificationRound, r ∈ l ↔ rs_view s !! r_RoundID r = Some r ∧ r_State r = st;
}.

(** A store whose operations do not fail. *)
Class ReliableRounds (S : Type) `{!RoundStore S} : Prop := {
  reliable_save r s : (rs_save r s).2 = None;
  reliable_list st s : is_Some (rs_list st s);
}.

(** * BadgerDB *)

Inductive KVOp := KVSet (k v : string) | KVDelete (k : string).

Definition apply_op (m : gmap string string) (op : KVOp) : gmap string string :=
  match op with KVSet k v => <[k := v]> m | KVDelete k => delete k m end.

(** [View] with [Get] ([None] is a read that fails, [Some None] an absent key), [Update] (the
    writes of one transaction, and whether it committed), and the scan of a key prefix. *)
Class Badger (D : Type) : Type := {
  bg_read : string → D → option (option string);
  bg_update : list KVOp → D → D * bool;
  bg_scan : string → D → option (list (string * string));
}.

(** A read where the code takes a failure for an absent key. *)
Definition bg_get {D} `{!Badger D} (k : string) (d : D) : option string := default None (bg_read k d).

Class BadgerLaws (D : Type) `{!Badger D} : Type := {
  bg_view : D → gmap string string;
  bg_read_view k d x : bg_read k d = Some x → x = bg_view d !! k;
  bg_update_ok ops d d' : bg_update ops d = (d', true) → bg_view d' = foldl apply_op (bg_view d) ops;
  bg_update_fail ops d d' : bg_update ops d = (d', false) → bg_view d' = bg_view d;
  bg_scan_view p d l : bg_scan p d = Some l →
    l ≡ₚ map_to_list (filter (λ kv : string * string, String.prefix p kv.1 = true) (bg_view d));
}.

(** A database whose reads do not fail. *)
Class BadgerReads (D : Type) `{!Badger D} : Prop := bg_reads k d : is_Some (bg_read k d).

Lemma bg_read_total {D} `{!Badger D, !BadgerLaws D, !BadgerReads D} k (d : D) : bg_read k d = Some (bg_view d !! k).
Proof. destruct (bg_reads k d) as [x Hx]. rewrite Hx. f_equal. by apply bg_read_view. Qed.

Lemma bg_get_view {D} `{!Badger D, !BadgerLaws D, !BadgerReads D} k (d : D) : bg_get k d = bg_view d !! k.
Proof. unfold bg_get. by rewrite bg_read_total. Qed.

(** [json.Marshal] followed by [jcs.Canonicalize], and [json.Unmarshal]. *)
Class RoundCodec : Type := {
  marshal_round : TaskVerificationRound → option string;
  unmarshal_round : string → option TaskVerificationRound;
}.

(** Decoding the JSON of a round gives its JSON value: the numbers as canonical
    JSON writes them, the state as it was, and the IDs as they were when they are
    UTF-8 ([json_exact]; [encoding/json] replaces other bytes). *)
Class RoundCodecOk `{!RoundCodec} : Type := {
  json_value : TaskVerificationRound → TaskVerificationRound;
  json_exact : string → Prop;
  unmarshal_marshal_round r d : marshal_round r = Some d → unmarshal_round d = Some (json_value r);
  json_id (r : TaskVerificationRound) : json_exact (r_RoundID r) → r_RoundID (json_value r) = r_RoundID r;
  json_state r : r_State (json_value r) = r_State r;
  json_verdict r : r_FinalVerdict (json_value r) = r_FinalVerdict r;
  json_sub (r : TaskVerificationRound) : json_exact (r_SubmissionEventID r) → r_SubmissionEventID (json_value r) = r_SubmissionEventID r;
  json_calibrated r : r_CalibrationApplied (json_value r) = r_CalibrationApplied r;
}.

(** All the IDs of a node are UTF-8, as they are when they come from events decoded from JSON. *)
Class ExactIDs `{!RoundCodec, !RoundCodecOk} : Prop := exact_ids s : json_exact s.

Section badger_store.
Context {D : Type} `{!Badger D, !RoundCodec}.

Definition Canonical (r : TaskVerificationRound) : option string := marshal_round (canonical_round r).

Definition RoundFromCanonical (data : string) : TVError + TaskVerificationRound :=
  match unmarshal_round data with Some r => inr r | None => inl ErrSerializationFailed end.

Definition round_key (id : RoundID) : string := "tv:round:" +:+ id.
Definition sub_key (e : EventID) : string := "tv:by_sub:" +:+ e.
Definition task_key (taskID : string) (id : RoundID) : string := "tv:by_task:" +:+ taskID +:+ ":" +:+ id.
Definition state_prefix (st : RoundState) : string := "tv:by_state:" +:+ pretty (RoundState_int st) +:+ ":".
Definition state_key (st : RoundState) (id : RoundID) : string := state_prefix st +:+ id.

(** [Empty]; [None] when the scan fails. *)
Definition bs_Empty (d : D) : option bool := (λ l, bool_decide (l = [])) <$> bg_scan "tv:round:" d.

(** The state the stored record of a round has; [SaveRound] ignores why a record cannot
    be read or decoded. *)
Definition old_state (id : RoundID) (d : D) : option RoundState :=
  data ← bg_get (round_key id) d;
  match RoundFromCanonical data with inr r => Some (r_State r) | inl _ => None end.

Definition save_ops (r : TaskVerificationRound) (data : string) (oldState : option RoundState) : list KVOp :=
  [KVSet (round_key (r_RoundID r)) data;
   KVSet (sub_key (r_SubmissionEventID r)) (r_RoundID r);
   KVSet (task_key (r_TaskID r) (r_RoundID r)) (r_RoundID r)]
  ++ match oldState with
     | Some st => if decide (st ≠ r_State r) then [KVDelete (state_key st (r_RoundID r))] else []
     | None => []
     end
  ++ [KVSet (state_key (r_State r) (r_RoundID r)) (r_RoundID r)].

Definition SaveRound (r : TaskVerificationRound) (d : D) : D * option TVError :=
  match Canonical r with
  | None => (d, Some ErrSerializationFailed)
  | Some data =>
      let '(d', ok) := bg_update (save_ops r data (old_state (r_RoundID r) d)) d in
      (d', if ok : bool then None else Some ErrPersistenceFailed)
  end.

Definition LoadRound (id : RoundID) (d : D) : TVError + TaskVerificationRound :=
  match bg_read (round_key id) d with
  | None => inl ErrPersistenceFailed
  | Some None => inl ErrRoundNotFound
  | Some (Some data) => match RoundFromCanonical data with inr r => inr r | inl _ => inl ErrPersistenceFailed end
  end.

Definition LoadRoundBySubmissionEvent (e : EventID) (d : D) : TVError + TaskVerificationRound :=
  match bg_read (sub_key e) d with None => inl ErrPersistenceFailed | Some None => inl ErrRoundNotFound | Some (Some id) => LoadRound id d end.

(** The rounds a scan of an index names, those that do not load left out. *)
Definition load_scanned (ids : list RoundID) (d : D) : list TaskVerificationRound :=
  omap (λ id, match LoadRound id d with inr r => Some r | inl _ => None end) ids.

Definition LoadRoundsByTaskID (taskID : string) (d : D) : option (list TaskVerificationRound) :=
  l ← bg_scan ("tv:by_task:" +:+ taskID +:+ ":") d;
  Some (load_scanned (sort_slice String.le l.*2) d).

Definition DeleteRound (id : RoundID) (d : D) : D * option TVError :=
  match LoadRound id d with
  | inl e => (d, Some e)
  | inr r =>
      let '(d', ok) := bg_update [KVDelete (round_key id); KVDelete (sub_key (r_SubmissionEventID r));
                         KVDelete (task_key (r_TaskID r) id); KVDelete (state_key (r_State r) id)] d in
      (d', if ok : bool then None else Some ErrPersistenceFailed)
  end.

Definition ListRoundsByState (st : RoundState) (d : D) : option (list TaskVerificationRound) :=
  l ← bg_scan (state_prefix st) d; Some (load_scanned l.*2 d).

Definition ListOpenRounds (d : D) : option (list TaskVerificationRound) := ListRoundsByState RoundStateOpen d.

#[global] Instance BadgerStore : RoundStore D := {|
  rs_save := SaveRound;
  rs_load := LoadRound;
  rs_load_sub := LoadRoundBySubmissionEvent;
  rs_list := ListRoundsByState;
|}.

(** What a saved round reads back as. *)
Definition stored_round `{!RoundCodecOk} (r : TaskVerificationRound) : TaskVerificationRound := json_value (canonical_round r).

#[global] Program Instance json_encoding `{!RoundCodecOk, !ExactIDs} : RoundEncoding := {| rs_stored := stored_round |}.
Next Obligation. intros. exact (json_id (canonical_round r) (exact_ids _)). Qed.
Next Obligation. intros. exact (json_state (canonical_round r)). Qed.
Next Obligation. intros. exact (json_verdict (canonical_round r)). Qed.
Next Obligation. intros. exact (json_sub (canonical_round r) (exact_ids _)). Qed.
Next Obligation. intros. exact (json_calibrated (canonical_round r)). Qed.
End badger_store.

(** * BadgerStore is a store of rounds *)

(** ** Keys *)

Lemma app_inj p a b : p +:+ a = p +:+ b → a = b.
Proof. induction p as [|c p IH]; cbn; [done|]. intros [= H]. by apply IH. Qed.

Lemma prefix_app p a : String.prefix p (p +:+ a) = true.
Proof. 
  induction p as [|c p IH]; [by destruct a|]. change (String c p +:+ a) with (String c (p +:+ a)). cbn [String.prefix].
  destruct (Ascii.ascii_dec c c); [exact IH|congruence].
Qed.

Lemma prefix_inv p k : String.prefix p k = true → ∃ a, k = p +:+ a.
Proof.
  revert k. induction p as [|c p IH]; intros k Hp; [by exists k|]. destruct k as [|c' k]; [done|]. cbn in Hp.
  destruct (Ascii.ascii_dec c c') as [->|]; [|done]. destruct (IH k Hp) as [a ->]. by exists a.
Qed.

Lemma state_prefix_eq st : state_prefix st =
  match st with
  | RoundStateOpen => "tv:by_state:0:"
  | RoundStateFinalizedAccept => "tv:by_state:1:"
  | RoundStateFinalizedReject => "tv:by_state:2:"
  | RoundStateDisputed => "tv:by_state:3:"
  | RoundStateExpired => "tv:by_state:4:"
  end.
Proof. by destruct st; vm_compute. Qed.

(** Refutes an equation of keys of two different kinds. *)
Ltac key_clash :=
  exfalso; repeat match goal with
  | H : _ = _ :> string |- _ =>
      first [apply (f_equal (String.substring 0 13)) in H; vm_compute in H; discriminate H|clear H]
  end.

Lemma state_key_inj st1 st2 i j : state_key st1 i = state_key st2 j → st1 = st2 ∧ i = j.
Proof.
  unfold state_key. rewrite !state_prefix_eq. intros H.
  destruct st1, st2; try (by apply app_inj in H); key_clash.
Qed.

Lemma round_key_inj i j : round_key i = round_key j → i = j.
Proof. apply app_inj. Qed.

(** The ways a key can be written. *)
Lemma keys_disjoint i e t j st x :
  round_key i ≠ sub_key e ∧ round_key i ≠ task_key t j ∧ round_key i ≠ state_key st x
  ∧ sub_key e ≠ state_key st x ∧ task_key t j ≠ state_key st x.
Proof.
  unfold round_key, sub_key, task_key, state_key. rewrite state_prefix_eq.
  split_and!; intros H; destruct st; key_clash.
Qed.

Section badger_laws.
Context {D : Type} `{!Badger D, !BadgerLaws D, !BadgerReads D, !RoundCodec, !RoundCodecOk}.
Implicit Types (d : D) (m : gmap string string) (r : TaskVerificationRound).

(** The record of a round, decoded. *)
Definition db_round m (id : RoundID) : option TaskVerificationRound := data ← m !! round_key id; unmarshal_round data.

(** Records decode to rounds under their IDs, and the index of states holds
    exactly the current state of every round. *)
Record db_ok m : Prop := {
  db_decodes id data : m !! round_key id = Some data → ∃ r, unmarshal_round data = Some r ∧ r_RoundID r = id;
  db_indexed id st x : m !! state_key st id = Some x ↔ x = id ∧ ∃ r, db_round m id = Some r ∧ r_State r = st;
}.

Lemma db_ok_empty : db_ok ∅.
Proof.
  split; [by intros id data; rewrite lookup_empty|]. intros id st x. rewrite lookup_empty. split; [done|].
  unfold db_round. intros (_ & r & Hr & _). by rewrite lookup_empty in Hr.
Qed.

(** The primary and the state keys after a save. *)
Lemma save_lookup m r data :
  db_ok m →
  let old := data ← m !! round_key (r_RoundID r); r_State <$> unmarshal_round data in
  let m' := foldl apply_op m (save_ops r data old) in
  (∀ id, m' !! round_key id = if decide (id = r_RoundID r) then Some data else m !! round_key id)
  ∧ (∀ id st, m' !! state_key st id =
       if decide (id = r_RoundID r) then (if decide (st = r_State r) then Some id else None) else m !! state_key st id).
Proof.
  intros Hok old m'. set (rid := r_RoundID r) in *.
  set (m1 := <[task_key (r_TaskID r) rid := rid]> (<[sub_key (r_SubmissionEventID r) := rid]> (<[round_key rid := data]> m))).
  assert (∀ id, m1 !! round_key id = if decide (id = rid) then Some data else m !! round_key id) as Hr1.
  { intros id. destruct (keys_disjoint id (r_SubmissionEventID r) (r_TaskID r) rid RoundStateOpen "") as (K1 & K2 & _).
    unfold m1. rewrite !lookup_insert_ne by done. case_decide as Hid; [subst; apply lookup_insert_eq|].
    apply lookup_insert_ne. intros Heq%round_key_inj. by apply Hid. }
  assert (∀ id st, m1 !! state_key st id = m !! state_key st id) as Hs1.
  { intros id st. destruct (keys_disjoint rid (r_SubmissionEventID r) (r_TaskID r) rid st id) as (_ & _ & K3 & K4 & K5).
    unfold m1. by rewrite !lookup_insert_ne by done. }
  set (m2 := match old with
             | Some st => if decide (st ≠ r_State r) then delete (state_key st rid) m1 else m1
             | None => m1 end).
  assert (m' = <[state_key (r_State r) rid := rid]> m2) as ->.
  { unfold m', save_ops. rewrite !foldl_app. cbn [foldl apply_op]. fold m1. unfold m2. f_equal.
    destruct old as [st|]; [|done]. by case_decide. }
  assert (∀ id, m2 !! round_key id = m1 !! round_key id) as Hr2.
  { intros id. unfold m2. destruct old as [st|]; [|done]. case_decide; [|done]. apply lookup_delete_ne.
    intros Heq. by destruct (keys_disjoint id "" "" "" st rid) as (_ & _ & K & _). }
  assert (∀ st, st ≠ r_State r → m2 !! state_key st rid = None) as Hs2.
  { intros st Hst. unfold m2. destruct old as [st0|] eqn:Hold; cbn.
    - assert (m !! state_key st rid = None ∨ st = st0) as [Hn| ->].
      { destruct (m !! state_key st rid) as [x|] eqn:Hx; [right|by left].
        apply (db_indexed m Hok) in Hx as (_ & r0 & Hr0 & <-). unfold db_round in Hr0. unfold old in Hold. fold rid in Hold.
        destruct (m !! round_key rid) as [dt|]; [|done]. cbn in *. rewrite Hr0 in Hold. by injection Hold. }
      + destruct (decide (st0 ≠ r_State r)); [|by rewrite Hs1].
        destruct (decide (st0 = st)) as [->|Hne]; [apply lookup_delete_eq|].
        rewrite lookup_delete_ne; [by rewrite Hs1|]. intros [Heq _]%state_key_inj. by apply Hne.
      + rewrite decide_True by done. apply lookup_delete_eq.
    - rewrite Hs1. destruct (m !! state_key st rid) as [x|] eqn:Hx; [|done]. exfalso.
      apply (db_indexed m Hok) in Hx as (_ & r0 & Hr0 & _). unfold db_round in Hr0. unfold old in Hold. fold rid in Hold.
      destruct (m !! round_key rid) as [dt|]; [|done]. cbn in *. by rewrite Hr0 in Hold. }
  assert (∀ st id, id ≠ rid → m2 !! state_key st id = m !! state_key st id) as Hs3.
  { intros st id Hid. unfold m2. destruct old as [st0|]; [|apply Hs1]. case_decide; [|apply Hs1].
    rewrite lookup_delete_ne; [apply Hs1|]. intros [_ <-]%state_key_inj. congruence. }
  split.
  - intros id. rewrite lookup_insert_ne; [by rewrite Hr2, Hr1|]. intros Heq.
    by destruct (keys_disjoint id "" "" "" (r_State r) rid) as (_ & _ & K & _).
  - intros id st. case_decide as Hid; [subst id|].
    + case_decide as Hst; [subst st; by rewrite lookup_insert_eq|].
      rewrite lookup_insert_ne; [by apply Hs2|]. intros [Heq _]%state_key_inj. congruence.
    + rewrite lookup_insert_ne; [by apply Hs3|]. intros [_ Heq]%state_key_inj. congruence.
Qed.

Lemma save_db_ok m r data :
  db_ok m → json_exact (r_RoundID r) → marshal_round (canonical_round r) = Some data →
  let old := data ← m !! round_key (r_RoundID r); r_State <$> unmarshal_round data in
  let m' := foldl apply_op m (save_ops r data old) in
  db_ok m' ∧ ∀ id, db_round m' id = if decide (id = r_RoundID r) then Some (stored_round r) else db_round m id.
Proof.
  intros Hok Hex Hdata old m'. destruct (save_lookup m r data Hok) as [Hr Hs]. fold old in Hr, Hs. fold m' in Hr, Hs.
  apply unmarshal_marshal_round in Hdata.
  assert (∀ id, db_round m' id = if decide (id = r_RoundID r) then Some (stored_round r) else db_round m id) as Hdb.
  { intros id. unfold db_round. rewrite Hr. by case_decide. }
  split; [|done]. split.
  - intros id dt Hd. rewrite Hr in Hd. case_decide as Hid; [|by eapply db_decodes]. injection Hd as <-.
    exists (stored_round r). split; [done|]. rewrite Hid. exact (json_id (canonical_round r) Hex).
  - intros id st x. rewrite Hs, Hdb. case_decide as Hid; [|apply (db_indexed m Hok)].
    split.
    + case_decide as Hst; [|done]. intros [= <-]. split; [done|]. exists (stored_round r). split; [done|]. etrans; [exact (json_state (canonical_round r))|done].
    + intros (-> & r0 & Heq & Hst). apply (inj Some) in Heq. rewrite <- Heq in Hst. change (r_State (json_value (canonical_round r)) = st) in Hst.
      rewrite json_state in Hst. by rewrite decide_True by done.
Qed.

(** The rounds a database holds. *)
Definition rounds_of m : gmap RoundID TaskVerificationRound :=
  let ids : gset RoundID := list_to_set (omap (M := list) (λ kv : string * string, option_map (λ r : TaskVerificationRound, r_RoundID r) (unmarshal_round kv.2)) (map_to_list m)) in
  map_imap (λ id _, db_round m id) (gset_to_gmap () ids).

Lemma rounds_of_lookup m id : db_ok m → rounds_of m !! id = db_round m id.
Proof.
  intros Hok. unfold rounds_of. rewrite map_lookup_imap, lookup_gset_to_gmap. case_guard as Hin; [done|]. cbn.
  unfold db_round. destruct (m !! round_key id) as [data|] eqn:Hd; [|done]. exfalso. apply Hin.
  apply elem_of_list_to_set, list_elem_of_omap. destruct (db_decodes m Hok id data Hd) as (r & Hr & Hid).
  exists (round_key id, data). split; [by apply elem_of_map_to_list|]. cbn. by rewrite Hr, <- Hid.
Qed.

Lemma rounds_of_update m m' (r : TaskVerificationRound) :
  db_ok m → db_ok m' → (∀ id, db_round m' id = if decide (id = r_RoundID r) then Some (stored_round r) else db_round m id) →
  rounds_of m' = <[r_RoundID r := stored_round r]> (rounds_of m).
Proof.
  intros Hok Hok' Hdb. apply map_eq. intros id. rewrite rounds_of_lookup, Hdb by done. case_decide as Hid.
  - subst id. by rewrite lookup_insert_eq.
  - by rewrite lookup_insert_ne, rounds_of_lookup by congruence.
Qed.

(** A load reads the record the map has; a record that is there always loads. *)
Lemma LoadRound_view id d :
  db_ok (bg_view d) →
  LoadRound id d = match rounds_of (bg_view d) !! id with Some r => inr r | None => inl ErrRoundNotFound end.
Proof.
  intros Hok. rewrite rounds_of_lookup by done. unfold LoadRound, db_round. rewrite bg_read_total.
  destruct (bg_view d !! round_key id) as [data|] eqn:Hd; [|done]. cbn.
  destruct (db_decodes _ Hok id data Hd) as (r & Hr & _). unfold RoundFromCanonical. by rewrite Hr.
Qed.

Lemma rounds_of_key m id (r : TaskVerificationRound) : db_ok m → rounds_of m !! id = Some r → r_RoundID r = id.
Proof.
  intros Hok. rewrite rounds_of_lookup by done. unfold db_round.
  destruct (m !! round_key id) as [data|] eqn:Hd; [|done]. cbn. intros Hr.
  destruct (db_decodes _ Hok id data Hd) as (r' & Hr' & Hid). congruence.
Qed.

Lemma old_state_view r d :
  old_state (r_RoundID r) d = data ← bg_view d !! round_key (r_RoundID r); r_State <$> unmarshal_round data.
Proof.
  unfold old_state, RoundFromCanonical. rewrite bg_get_view. destruct (bg_view d !! _) as [data|]; [|done]. cbn.
  by destruct (unmarshal_round data).
Qed.

Lemma SaveRound_view r d d' e :
  db_ok (bg_view d) → json_exact (r_RoundID r) → SaveRound r d = (d', e) →
  db_ok (bg_view d')
  ∧ rounds_of (bg_view d') = match e with None => <[r_RoundID r := stored_round r]> (rounds_of (bg_view d)) | Some _ => rounds_of (bg_view d) end.
Proof.
  intros Hok Hex. unfold SaveRound, Canonical. destruct (marshal_round (canonical_round r)) as [data|] eqn:Hdata; [|by intros [= <- <-]].
  destruct (bg_update _ d) as [d1 ok] eqn:Hu. intros [= <- <-]. destruct ok.
  - apply bg_update_ok in Hu. rewrite old_state_view in Hu.
    destruct (save_db_ok (bg_view d) r data Hok Hex Hdata) as [Hok' Hdb]. rewrite <- Hu in Hok', Hdb.
    split; [done|]. by apply rounds_of_update.
  - apply bg_update_fail in Hu. by rewrite Hu.
Qed.

(** ** Deletion *)

Lemma delete_db_ok m (r : TaskVerificationRound) :
  db_ok m → db_round m (r_RoundID r) = Some r →
  let m' := foldl apply_op m [KVDelete (round_key (r_RoundID r)); KVDelete (sub_key (r_SubmissionEventID r));
              KVDelete (task_key (r_TaskID r) (r_RoundID r)); KVDelete (state_key (r_State r) (r_RoundID r))] in
  db_ok m' ∧ ∀ id, db_round m' id = if decide (id = r_RoundID r) then None else db_round m id.
Proof.
  intros Hok Hr m'. set (rid := r_RoundID r) in *.
  assert (∀ id, m' !! round_key id = if decide (id = rid) then None else m !! round_key id) as Hm.
  { intros id. destruct (keys_disjoint id (r_SubmissionEventID r) (r_TaskID r) rid (r_State r) rid) as (K1 & K2 & K3 & _).
    unfold m'. cbn [foldl apply_op]. rewrite !lookup_delete_ne by done.
    case_decide as Hid; [subst; apply lookup_delete_eq|]. apply lookup_delete_ne. intros Heq%round_key_inj. by apply Hid. }
  assert (∀ st id, m' !! state_key st id = if decide (st = r_State r ∧ id = rid) then None else m !! state_key st id) as Hs.
  { intros st id. destruct (keys_disjoint rid (r_SubmissionEventID r) (r_TaskID r) rid st id) as (_ & _ & K3 & K4 & K5).
    unfold m'. cbn [foldl apply_op]. case_decide as Hid; [destruct Hid; subst; apply lookup_delete_eq|].
    rewrite lookup_delete_ne by (intros [<- <-]%state_key_inj; by apply Hid). by rewrite !lookup_delete_ne by done. }
  assert (∀ id, db_round m' id = if decide (id = rid) then None else db_round m id) as Hdb.
  { intros id. unfold db_round. rewrite Hm. by case_decide. }
  split; [|done]. split.
  - intros id data. rewrite Hm. case_decide; [done|]. apply (db_decodes m Hok).
  - intros id st x. rewrite Hs, Hdb. destruct (decide (id = rid)) as [->|Hid].
    + split; [|by intros (_ & ? & ? & _)]. case_decide as Hst; [done|].
      rewrite (db_indexed m Hok). intros (_ & r0 & Hr0 & <-). rewrite Hr in Hr0. injection Hr0 as <-. by destruct Hst.
    + rewrite decide_False by naive_solver. apply (db_indexed m Hok).
Qed.

Lemma DeleteRound_view id d d' e :
  db_ok (bg_view d) → DeleteRound id d = (d', e) →
  db_ok (bg_view d')
  ∧ rounds_of (bg_view d') = match e with None => delete id (rounds_of (bg_view d)) | Some _ => rounds_of (bg_view d) end
  ∧ (e = None → is_Some (rounds_of (bg_view d) !! id)).
Proof.
  intros Hok. unfold DeleteRound. rewrite LoadRound_view by done.
  destruct (rounds_of (bg_view d) !! id) as [r|] eqn:Hr; [|by intros [= <- <-]].
  pose proof (rounds_of_key _ _ _ Hok Hr) as <-. rewrite rounds_of_lookup in Hr by done.
  destruct (bg_update _ d) as [d1 ok] eqn:Hu. intros [= <- <-]. destruct ok.
  - apply bg_update_ok in Hu. destruct (delete_db_ok (bg_view d) r Hok Hr) as [Hok' Hdb]. rewrite <- Hu in Hok', Hdb.
    split_and!; [done| |done]. apply map_eq. intros id. rewrite rounds_of_lookup, Hdb by done. case_decide as Hid.
    + subst id. by rewrite lookup_delete_eq.
    + by rewrite lookup_delete_ne, rounds_of_lookup by congruence.
  - apply bg_update_fail in Hu. rewrite Hu. by split_and!.
Qed.

(** ** Listing *)

Lemma scan_state_key m st k x :
  db_ok m → (k, x) ∈ map_to_list (filter (λ kv : string * string, String.prefix (state_prefix st) kv.1 = true) m) →
  k = state_key st x ∧ ∃ r, db_round m x = Some r ∧ r_State r = st.
Proof.
  intros Hok [Hm Hp]%elem_of_map_to_list%map_lookup_filter_Some. cbn in Hp.
  apply prefix_inv in Hp as [id Hk]. rewrite Hk in Hm |- *.
  change (m !! state_key st id = Some x) in Hm. by apply (db_indexed m Hok) in Hm as (-> & Hr).
Qed.

Lemma ListRoundsByState_view st d l :
  db_ok (bg_view d) → ListRoundsByState st d = Some l →
  NoDup ((λ r : TaskVerificationRound, r_RoundID r) <$> l)
  ∧ ∀ r : TaskVerificationRound, r ∈ l ↔ rounds_of (bg_view d) !! r_RoundID r = Some r ∧ r_State r = st.
Proof.
  intros Hok. unfold ListRoundsByState. destruct (bg_scan (state_prefix st) d) as [kvs|] eqn:Hscan; [|done].
  cbn. intros [= <-]. apply bg_scan_view in Hscan. set (m := bg_view d) in *.
  assert (∀ id r, rounds_of m !! id = Some r ↔ LoadRound id d = inr r) as Hload.
  { intros id r. rewrite LoadRound_view by done. fold m. destruct (rounds_of m !! id); naive_solver. }
  assert (∀ k x, (k, x) ∈ kvs → k = state_key st x ∧ ∃ r, rounds_of m !! x = Some r ∧ r_State r = st) as Hkv.
  { intros k x Hk. rewrite Hscan in Hk. apply scan_state_key in Hk as (-> & r & Hr & Hst); [|done].
    split; [done|]. exists r. by rewrite rounds_of_lookup. }
  assert (NoDup kvs.*2) as Hnd.
  { apply (NoDup_fmap_1 (state_key st)).
    assert (state_key st <$> kvs.*2 = kvs.*1) as ->.
    { rewrite <- list_fmap_compose. apply list_fmap_ext. intros i [k x] Hi. cbn.
      by destruct (Hkv k x (list_elem_of_lookup_2 _ _ _ Hi)) as [-> _]. }
    rewrite Hscan. apply NoDup_fst_map_to_list. }
  assert (∀ r, r ∈ load_scanned kvs.*2 d ↔ ∃ id, id ∈ kvs.*2 ∧ rounds_of m !! id = Some r) as Hin.
  { intros r. unfold load_scanned. rewrite list_elem_of_omap. split.
    - intros (id & Hid & Hl). exists id. split; [done|]. apply Hload. destruct (LoadRound id d); naive_solver.
    - intros (id & Hid & Hl). exists id. split; [done|]. apply Hload in Hl. by rewrite Hl. }
  split.
  - assert ((λ r : TaskVerificationRound, r_RoundID r) <$> load_scanned kvs.*2 d = kvs.*2) as ->; [|done].
    assert (∀ x, x ∈ kvs.*2 → ∃ r, LoadRound x d = inr r ∧ r_RoundID r = x) as Hx.
    { intros x ([k y] & -> & Hk)%list_elem_of_fmap. destruct (Hkv k y Hk) as (_ & r & Hr & _).
      exists r. split; [by apply Hload|]. exact (rounds_of_key m y r Hok Hr). }
    clear -Hx. induction kvs.*2 as [|x xs IH]; [done|]. destruct (Hx x) as (r & Hr & Hid); [left|].
    unfold load_scanned. cbn. rewrite Hr. cbn. f_equal; [done|]. apply IH. intros y Hy. apply Hx. by right.
  - intros r. rewrite Hin. split.
    + intros (id & ([k y] & -> & Hk)%list_elem_of_fmap & Hr). destruct (Hkv k y Hk) as (_ & r' & Hr' & Hst).
      cbn in Hr. assert (r' = r) as -> by congruence. split; [|done]. by rewrite (rounds_of_key m y r Hok Hr).
    + intros [Hr Hst]. exists (r_RoundID r). split; [|done]. apply list_elem_of_fmap.
      exists (state_key st (r_RoundID r), r_RoundID r). split; [done|]. rewrite Hscan. apply elem_of_map_to_list.
      apply map_lookup_filter_Some. split; [|apply prefix_app]. apply (db_indexed m Hok). split; [done|].
      exists r. by rewrite <- rounds_of_lookup.
Qed.

(** ** The submission index

    Kept by saves; a deletion removes the entry of a submission that another round
    may share. *)
Record sub_ok m : Prop := {
  sub_indexed id (r : TaskVerificationRound) : db_round m id = Some r → is_Some (m !! sub_key (r_SubmissionEventID r));
  sub_loads e id : m !! sub_key e = Some id → is_Some (db_round m id);
}.

Lemma sub_ok_empty : sub_ok ∅.
Proof. split; [|by intros e id; rewrite lookup_empty]. intros id r. unfold db_round. by rewrite lookup_empty. Qed.

Lemma save_sub m r data old e :
  foldl apply_op m (save_ops r data old) !! sub_key e =
  if decide (e = r_SubmissionEventID r) then Some (r_RoundID r) else m !! sub_key e.
Proof.
  set (id := r_RoundID r).
  assert (∀ st x, sub_key e ≠ state_key st x ∧ sub_key e ≠ task_key (r_TaskID r) id ∧ sub_key e ≠ round_key id) as Hk.
  { intros st x. destruct (keys_disjoint id e (r_TaskID r) id st x) as (K1 & _ & _ & K4 & _). split_and!; [done| |done].
    intros Heq. unfold sub_key, task_key in Heq. key_clash. }
  unfold save_ops. rewrite !foldl_app. cbn [foldl apply_op]. fold id.
  rewrite lookup_insert_ne by (intros Heq; by destruct (Hk (r_State r) id)).
  set (m1 := <[task_key (r_TaskID r) id := id]> _).
  assert (m1 !! sub_key e = if decide (e = r_SubmissionEventID r) then Some id else m !! sub_key e) as Hm1.
  { unfold m1. rewrite lookup_insert_ne by (intros Heq; by destruct (Hk (r_State r) id)). case_decide as He.
    - subst e. by rewrite lookup_insert_eq.
    - rewrite lookup_insert_ne by (intros Heq; apply He; symmetry; exact (app_inj _ _ _ Heq)).
      apply lookup_insert_ne. intros Heq. by destruct (Hk (r_State r) id). }
  destruct old as [st|]; [|exact Hm1]. destruct (decide (st ≠ r_State r)); cbn; [|exact Hm1].
  rewrite lookup_delete_ne; [exact Hm1|]. intros Heq. by destruct (Hk st id).
Qed.

Lemma save_sub_ok m r data :
  db_ok m → sub_ok m → json_exact (r_RoundID r) → json_exact (r_SubmissionEventID r) → marshal_round (canonical_round r) = Some data →
  let old := data ← m !! round_key (r_RoundID r); r_State <$> unmarshal_round data in
  sub_ok (foldl apply_op m (save_ops r data old)).
Proof.
  intros Hok Hsub Hex Hexs Hdata old. destruct (save_db_ok m r data Hok Hex Hdata) as [_ Hdb]. fold old in Hdb.
  split.
  - intros id r0. rewrite Hdb, save_sub. intros Hr0. destruct (decide (id = r_RoundID r)).
    + apply (inj Some) in Hr0. rewrite <- Hr0. unfold stored_round. rewrite (json_sub (canonical_round r) Hexs). by rewrite decide_True by done.
    + case_decide; [done|]. by apply (sub_indexed m Hsub id).
  - intros e id. rewrite Hdb, save_sub. destruct (decide (id = r_RoundID r)) as [|Hid]; [done|].
    case_decide; [congruence|]. apply (sub_loads m Hsub).
Qed.

Lemma SaveRound_sub r d d' e :
  db_ok (bg_view d) → sub_ok (bg_view d) → json_exact (r_RoundID r) → json_exact (r_SubmissionEventID r) →
  SaveRound r d = (d', e) → sub_ok (bg_view d').
Proof.
  intros Hok Hsub Hex Hexs. unfold SaveRound, Canonical. destruct (marshal_round (canonical_round r)) as [data|] eqn:Hdata; [|by intros [= <- _]].
  destruct (bg_update _ d) as [d1 ok] eqn:Hu. intros [= <- _]. destruct ok.
  - apply bg_update_ok in Hu. rewrite old_state_view in Hu. rewrite Hu. by apply save_sub_ok.
  - apply bg_update_fail in Hu. by rewrite Hu.
Qed.

Lemma LoadRoundBySubmissionEvent_missing e d id (r : TaskVerificationRound) :
  db_ok (bg_view d) → sub_ok (bg_view d) → LoadRoundBySubmissionEvent e d = inl ErrRoundNotFound →
  rounds_of (bg_view d) !! id = Some r → r_SubmissionEventID r ≠ e.
Proof.
  intros Hok Hsub Hl Hr <-. rewrite rounds_of_lookup in Hr by done.
  destruct (sub_indexed _ Hsub id r Hr) as [id' Hid']. unfold LoadRoundBySubmissionEvent in Hl.
  rewrite bg_read_total, Hid', LoadRound_view, rounds_of_lookup in Hl by done.
  destruct (sub_loads _ Hsub _ id' Hid') as [r' Hr']. by rewrite Hr' in Hl.
Qed.

(** [BadgerStore] is a store of rounds. *)
#[global] Program Instance badger_round_store `{!ExactIDs} : RoundStoreLaws D := {|
  rs_ok d := db_ok (bg_view d) ∧ sub_ok (bg_view d);
  rs_view d := rounds_of (bg_view d);
|}.
Next Obligation. intros _ d id r [Hok _]. by apply rounds_of_key. Qed.
Next Obligation.
  intros ? r d d' [Hok Hsub] Hs. destruct (SaveRound_view r d d' None Hok (exact_ids _) Hs) as [? ?]. split; [split|]; [done| |done].
  exact (SaveRound_sub r d d' None Hok Hsub (exact_ids _) (exact_ids _) Hs).
Qed.
Next Obligation.
  intros ? r d d' e [Hok Hsub] Hs. destruct (SaveRound_view r d d' (Some e) Hok (exact_ids _) Hs) as [? ?]. split; [split|]; [done| |done].
  exact (SaveRound_sub r d d' (Some e) Hok Hsub (exact_ids _) (exact_ids _) Hs).
Qed.
Next Obligation.
  intros ? id d r [Hok _]. cbn. rewrite LoadRound_view by done. destruct (rounds_of (bg_view d) !! id); naive_solver.
Qed.
Next Obligation.
  intros ? id d [Hok _]. cbn. rewrite LoadRound_view by done. by destruct (rounds_of (bg_view d) !! id).
Qed.
Next Obligation. intros _ e d id r [Hok Hsub]. by apply LoadRoundBySubmissionEvent_missing. Qed.
Next Obligation. intros _ st d l [Hok _]. by apply ListRoundsByState_view. Qed.

Lemma bs_Empty_view d b : db_ok (bg_view d) → bs_Empty d = Some b → b = bool_decide (rounds_of (bg_view d) = ∅).
Proof.
  intros Hok. unfold bs_Empty. destruct (bg_scan "tv:round:" d) as [l|] eqn:Hl; [|done]. cbn. intros [= <-].
  apply bg_scan_view in Hl. apply bool_decide_ext. split.
  - intros ->. apply map_eq. intros id. rewrite rounds_of_lookup, lookup_empty by done. unfold db_round.
    destruct (bg_view d !! round_key id) as [data|] eqn:Hd; [|done]. exfalso. symmetry in Hl. apply Permutation_nil_r in Hl.
    apply map_to_list_empty_iff in Hl. apply (map_filter_empty_not_lookup _ _ (round_key id) data Hl); [|done].
    exact (prefix_app "tv:round:" id).
  - intros Hm. apply Permutation_nil_r. rewrite Hl. apply Permutation_nil_r, map_to_list_empty_iff. apply map_eq. intros k.
    rewrite lookup_empty. apply map_lookup_filter_None. right. intros data Hd Hp. cbn in Hp. apply prefix_inv in Hp as [id Hk]. rewrite Hk in Hd.
    destruct (db_decodes _ Hok id data Hd) as (r & Hr & Hid). assert (rounds_of (bg_view d) !! id = Some r) as He.
    { rewrite rounds_of_lookup by done. unfold db_round. fold (round_key id) in Hd. rewrite Hd. exact Hr. }
    by rewrite Hm, lookup_empty in He.
Qed.

(** ** Histories *)

Inductive RoundOp := OpSave (r : TaskVerificationRound) | OpDelete (id : RoundID).

Definition run_op (op : RoundOp) d : D * option TVError :=
  match op with OpSave r => SaveRound r d | OpDelete id => DeleteRound id d end.

(** The operations one after the other, with their errors. *)
Fixpoint run_ops (ops : list RoundOp) d : D * list (option TVError) :=
  match ops with
  | [] => (d, [])
  | op :: ops' => let '(d1, e) := run_op op d in let '(d2, es) := run_ops ops' d1 in (d2, e :: es)
  end.

(** The IDs of the rounds saved are UTF-8. *)
Definition exact_op (op : RoundOp) : Prop := match op with OpSave r => json_exact (r_RoundID r) | OpDelete _ => True end.

(** What an operation that ended with [e] means for a map of rounds and the index of submissions.  A deletion drops
    the entry of the round's submission, whichever round it names. *)
Definition spec_op (x : gmap RoundID TaskVerificationRound * gmap EventID RoundID) (oe : RoundOp * option TVError) :
    gmap RoundID TaskVerificationRound * gmap EventID RoundID :=
  let '(m, subs) := x in
  match oe with
  | (OpSave r, None) => (<[r_RoundID r := stored_round r]> m, <[r_SubmissionEventID r := r_RoundID r]> subs)
  | (OpDelete id, None) => (delete id m, match m !! id with Some r => delete (r_SubmissionEventID (r : TaskVerificationRound)) subs | None => subs end)
  | (_, Some _) => (m, subs)
  end.

(** The index entries of submissions in a database. *)
Definition subs_match m (subs : gmap EventID RoundID) : Prop := ∀ e, m !! sub_key e = subs !! e.

Lemma SaveRound_subs r d d' e subs :
  SaveRound r d = (d', e) → subs_match (bg_view d) subs →
  subs_match (bg_view d') (match e with None => <[r_SubmissionEventID r := r_RoundID r]> subs | Some _ => subs end).
Proof.
  unfold SaveRound, Canonical. destruct (marshal_round (canonical_round r)) as [data|]; [|by intros [= <- <-]].
  destruct (bg_update _ d) as [d1 ok] eqn:Hu. intros [= <- <-] Hm ev. destruct ok.
  - apply bg_update_ok in Hu. rewrite Hu, save_sub. case_decide as Hev; [subst; by rewrite lookup_insert_eq|]. rewrite lookup_insert_ne by congruence. apply Hm.
  - apply bg_update_fail in Hu. rewrite Hu. apply Hm.
Qed.

Lemma DeleteRound_subs id d d' e subs :
  db_ok (bg_view d) → DeleteRound id d = (d', e) → subs_match (bg_view d) subs →
  subs_match (bg_view d') (match e with
    | None => match rounds_of (bg_view d) !! id with Some r => delete (r_SubmissionEventID (r : TaskVerificationRound)) subs | None => subs end
    | Some _ => subs end).
Proof.
  intros Hok. unfold DeleteRound. rewrite LoadRound_view by done. destruct (rounds_of (bg_view d) !! id) as [r|]; [|by intros [= <- <-]].
  destruct (bg_update _ d) as [d1 ok] eqn:Hu. intros [= <- <-] Hm ev. destruct ok.
  - apply bg_update_ok in Hu. rewrite Hu. cbn [foldl apply_op].
    destruct (keys_disjoint id ev (r_TaskID r) id (r_State r) id) as (K1 & _ & _ & K4 & _). rewrite lookup_delete_ne by done.
    rewrite lookup_delete_ne by (intros Heq; unfold sub_key, task_key in Heq; key_clash).
    destruct (decide (ev = r_SubmissionEventID r)) as [->|Hne]; [by rewrite !lookup_delete_eq|].
    rewrite !lookup_delete_ne; [apply Hm|congruence|done|]. intros Heq. apply Hne. symmetry. exact (app_inj _ _ _ Heq).
  - apply bg_update_fail in Hu. rewrite Hu. apply Hm.
Qed.

Lemma run_ops_view ops : ∀ d d' es subs,
  db_ok (bg_view d) → subs_match (bg_view d) subs → Forall exact_op ops → run_ops ops d = (d', es) →
  let x := foldl spec_op (rounds_of (bg_view d), subs) (zip ops es) in
  db_ok (bg_view d') ∧ rounds_of (bg_view d') = x.1 ∧ subs_match (bg_view d') x.2.
Proof.
  induction ops as [|op ops IH]; intros d d' es subs Hok Hsub Hex Hrun; cbn in Hrun; [by injection Hrun as <- <-|].
  apply Forall_cons in Hex as [Hex1 Hex].
  destruct (run_op op d) as [d1 e] eqn:Hop, (run_ops ops d1) as [d2 es'] eqn:Hrest. injection Hrun as <- <-. cbn [zip zip_with foldl].
  assert (∃ subs1, db_ok (bg_view d1) ∧ spec_op (rounds_of (bg_view d), subs) (op, e) = (rounds_of (bg_view d1), subs1) ∧ subs_match (bg_view d1) subs1) as (subs1 & Hok1 & -> & Hsub1); [|by apply IH].
  destruct op as [r|id]; cbn in Hop |- *.
  - destruct (SaveRound_view r d d1 e Hok Hex1 Hop) as [? ->]. pose proof (SaveRound_subs r d d1 e subs Hop Hsub). destruct e; by eexists.
  - destruct (DeleteRound_view id d d1 e Hok Hop) as (? & -> & _). pose proof (DeleteRound_subs id d d1 e subs Hok Hop Hsub). destruct e; by eexists.
Qed.

Lemma rounds_of_empty : rounds_of ∅ = ∅.
Proof. apply map_eq. intros id. by rewrite rounds_of_lookup by apply db_ok_empty. Qed.
End badger_laws.

(** ** A concrete database *)

(** A database in memory, and the JSON of a round cut down to its state and ID. *)
Module DemoDB.
Definition db := gmap string string.

#[global] Instance demo_badger : Badger db := {|
  bg_read k d := Some (d !! k);
  bg_update ops d := (foldl apply_op d ops, true);
  bg_scan p d := Some (map_to_list (filter (λ kv : string * string, String.prefix p kv.1 = true) d));
|}.

#[global] Instance demo_badger_laws : BadgerLaws db.
Proof. refine {| bg_view d := d |}; by intros; simplify_eq/=. Defined.

#[global] Instance demo_badger_reads : BadgerReads db.
Proof. intros k d. by eexists. Defined.

Definition record (id : RoundID) (sub : EventID) (st : RoundState) (v : Verdict) (calibrated : bool) : TaskVerificationRound :=
  mkRound (mkRoundSpec id "task" sub "worker" "poster" "code" 1 [] "bootstrap_v1" 2 6000 1000 1180)
    0 st 0 0 0 ∅ ∅ [] v 0 0 calibrated.

Definition blank (id : RoundID) (sub : EventID) (st : RoundState) (v : Verdict) : TaskVerificationRound := record id sub st v false.

Fixpoint bits (p : positive) : string :=
  match p with xH => "" | xO p => String (Ascii.ascii_of_nat 48) (bits p) | xI p => String (Ascii.ascii_of_nat 49) (bits p) end.

Fixpoint positive_of (s : string) : positive :=
  match s with
  | String c s => if decide (c = Ascii.ascii_of_nat 49) then (positive_of s)~1 else (positive_of s)~0
  | EmptyString => xH
  end.

Lemma positive_of_bits p : positive_of (bits p) = p.
Proof. induction p as [p IH|p IH|]; cbn; by rewrite ?IH. Qed.

#[global] Instance demo_codec : RoundCodec := {|
  marshal_round r :=
    Some (bits (encode ((r_RoundID r, r_SubmissionEventID r), (RoundState_String (r_State r), Verdict_String (r_FinalVerdict r)), r_CalibrationApplied r)));
  unmarshal_round s :=
    x ← decode (A := (string * string) * (string * string) * bool) (positive_of s);
    st ← roundStateFromName x.1.2.1; v ← verdictFromName x.1.2.2; Some (record x.1.1.1 x.1.1.2 st v x.2);
|}.

#[global] Program Instance demo_codec_ok : RoundCodecOk :=
  {| json_exact _ := True; json_value r := record (r_RoundID r) (r_SubmissionEventID r) (r_State r) (r_FinalVerdict r) (r_CalibrationApplied r) |}.
Next Obligation.
  intros r d [= <-]. unfold unmarshal_round. cbn [demo_codec]. rewrite positive_of_bits, decode_encode. cbn.
  rewrite roundStateFromName_String. cbn. by rewrite verdictFromName_String.
Qed.
Solve All Obligations with done.

(** A round saved, finalized and saved again; a second one saved and deleted. *)
Definition history : list RoundOp :=
  [OpSave (blank "r1" "s1" RoundStateOpen VerdictPass); OpSave (blank "r2" "s2" RoundStateOpen VerdictPass);
   OpSave (blank "r1" "s1" RoundStateFinalizedReject VerdictFail); OpDelete "r2"; OpDelete "r3"].
End DemoDB.

(** ** The property *)

(** C33: after any saves and deletions, one after the other, on an empty database whose reads do not fail,
    failed transactions included, [BadgerStore] answers as the map of rounds that the successful operations
    make: a load finds the round last saved and not deleted, as its JSON reads back; the list of a state has exactly
    the rounds of that state, each once; a load by submission follows an index that a save sets to the
    round and a deletion drops for the submission of the deleted round, also where it names another round;
    and an empty store is reported as such.  The IDs of the rounds saved are UTF-8, since [encoding/json] replaces other
    bytes.  Not covered: reads that fail (a save ignores a failed read and leaves an old index entry behind, see
    [failed_read_stale_index]) and the index of tasks ([task_prefix_ambiguous]). *)
Theorem badger_store_refines {D} `{!Badger D, !BadgerLaws D, !BadgerReads D, !RoundCodec, !RoundCodecOk}
    (ops : list RoundOp) (d d' : D) (es : list (option TVError)) :
  bg_view d = ∅ → Forall exact_op ops → run_ops ops d = (d', es) →
  let '(m, subs) := foldl spec_op (∅, ∅) (zip ops es) in
  (∀ id, LoadRound id d' = match m !! id with Some r => inr r | None => inl ErrRoundNotFound end)
  ∧ (∀ st l, ListRoundsByState st d' = Some l →
       NoDup ((λ r : TaskVerificationRound, r_RoundID r) <$> l)
       ∧ ∀ r : TaskVerificationRound, r ∈ l ↔ m !! r_RoundID r = Some r ∧ r_State r = st)
  ∧ (∀ e, LoadRoundBySubmissionEvent e d' = match subs !! e with Some id => LoadRound id d' | None => inl ErrRoundNotFound end)
  ∧ (∀ b, bs_Empty d' = Some b → b = bool_decide (m = ∅)).
Proof.
  intros Hd Hex Hrun.
  assert (db_ok (bg_view d)) as Hok by (rewrite Hd; apply db_ok_empty).
  assert (subs_match (bg_view d) ∅) as Hsub by (intros e; by rewrite Hd, !lookup_empty).
  destruct (run_ops_view ops d d' es ∅ Hok Hsub Hex Hrun) as (Hok' & Hm & Hs).
  rewrite Hd, rounds_of_empty in Hm, Hs. destruct (foldl spec_op _ _) as [m subs]. cbn in Hm, Hs. rewrite <- Hm. split_and!.
  - intros id. by apply LoadRound_view.
  - intros st l. by apply ListRoundsByState_view.
  - intros e. unfold LoadRoundBySubmissionEvent. by rewrite bg_read_total, Hs.
  - intros b. by apply bs_Empty_view.
Qed.

Lemma badger_store_refines_witness :
  let '(d', es) := run_ops (D := DemoDB.db) DemoDB.history ∅ in
  es = [None; None; None; None; Some ErrRoundNotFound]
  ∧ LoadRound "r1" d' = inr (DemoDB.blank "r1" "s1" RoundStateFinalizedReject VerdictFail)
  ∧ LoadRound "r2" d' = inl ErrRoundNotFound
  ∧ ∀ l, ListRoundsByState RoundStateOpen d' = Some l → ∀ r, r ∈ l → False.
Proof.
  destruct (run_ops (D := DemoDB.db) DemoDB.history ∅) as [d' es] eqn:Hrun.
  assert (bg_view (∅ : DemoDB.db) = ∅) as Hempty by reflexivity.
  assert (es = [None; None; None; None; Some ErrRoundNotFound]) as Hes.
  { change es with (d', es).2. rewrite <- Hrun. vm_compute. reflexivity. }
  assert (Forall exact_op DemoDB.history) as Hex by (repeat constructor).
  pose proof (badger_store_refines DemoDB.history ∅ d' es Hempty Hex Hrun) as H. rewrite Hes in H.
  destruct (foldl spec_op (∅, ∅) _) as [m subs] eqn:Hx. destruct H as (Hload & Hlist & _). cbn [zip zip_with DemoDB.history foldl spec_op] in Hx.
  apply pair_equal_spec in Hx as [Hx _].
  assert (Hm : m !! "r1" = Some (DemoDB.blank "r1" "s1" RoundStateFinalizedReject VerdictFail) ∧ m !! "r2" = None) by (rewrite <- Hx; split; vm_compute; reflexivity).
  split_and!; [exact Hes|rewrite Hload, (proj1 Hm); reflexivity|rewrite Hload, (proj2 Hm); reflexivity|].
  intros l Hl r Hr. destruct (Hlist _ l Hl) as [_ Hin]. apply Hin in Hr as [Hr Hst]. rewrite <- Hx in Hr.
  apply lookup_delete_Some in Hr as [H2 Hr]. apply lookup_insert_Some in Hr as [[_ Hr]|[H1 Hr]]; [by rewrite <- Hr in Hst|].
  rewrite lookup_insert_ne in Hr by done. rewrite lookup_insert_ne in Hr by done. vm_compute in Hr. discriminate Hr.
Defined.

(** ** Findings *)

(** The prefix of one task's index is a prefix of another's: the rounds of task
    [a] include those of task [a:b]. *)
Lemma task_prefix_ambiguous :
  let r := mkRound (mkRoundSpec "r1" "a:b" "sub" "w" "p" "c" 1 [] "" 2 6000 0 0) 0 RoundStateOpen 0 0 0 ∅ ∅ [] VerdictPass 0 0 false in
  r_TaskID r = "a:b"
  ∧ (λ l, length l) <$> LoadRoundsByTaskID "a" (SaveRound r (∅ : DemoDB.db)).1 = Some 1%nat.
Proof. split; vm_compute; reflexivity. Qed.

(** Two rounds of one submission: deleting the first drops the entry of the second, which is still stored. *)
Example delete_drops_submission :
  let d := (run_ops [OpSave (DemoDB.blank "r1" "s" RoundStateOpen VerdictPass); OpSave (DemoDB.blank "r2" "s" RoundStateOpen VerdictPass); OpDelete "r1"] (∅ : DemoDB.db)).1 in
  LoadRoundBySubmissionEvent "s" d = inl ErrRoundNotFound ∧ LoadRound "r2" d = inr (DemoDB.blank "r2" "s" RoundStateOpen VerdictPass).
Proof. split; vm_compute; reflexivity. Qed.

(** A database that can fail its next read; the writes of a transaction succeed. *)
Module FlakyDB.
Definition db : Type := (gmap string string * bool)%type.

#[local] Instance flaky : Badger db := {|
  bg_read k (d : db) := if snd d then None else Some ((fst d : gmap string string) !! k);
  bg_update ops (d : db) := ((foldl apply_op d.1 ops, false), true);
  bg_scan p (d : db) := Some (map_to_list (filter (λ kv : string * string, String.prefix p kv.1 = true) (d.1 : gmap string string)));
|}.

#[local] Instance flaky_laws : BadgerLaws db.
Proof. refine {| bg_view (d : db) := d.1 |}; intros; cbn in *; repeat case_match; by simplify_eq/=. Defined.

Definition open : db := (SaveRound (DemoDB.blank "r1" "s" RoundStateOpen VerdictPass) ((∅ : gmap string string, false) : db)).1.

(** The round is finalized while its stored state cannot be read: it is listed as open and as final. *)
Example failed_read_stale_index :
  let d := (SaveRound (DemoDB.blank "r1" "s" RoundStateFinalizedAccept VerdictPass) ((open.1, true) : db)).1 in
  let final := [DemoDB.blank "r1" "s" RoundStateFinalizedAccept VerdictPass] in
  ListRoundsByState RoundStateOpen d = Some final ∧ ListRoundsByState RoundStateFinalizedAccept d = Some final.
Proof. split; vm_compute; reflexivity. Qed.
End FlakyDB.
