(* ===== verification/RoundFlow.v ===== *)
(** From votes to verdicts: internal/roundpolicy, taskverification/deadline_checker.go,
    recognition/task_verification_round_consumer.go and task_verification_vote_consumer.go,
    and the round part of task_verification_consensus_consumer.go.

    The checker and the consumers share the store of rounds, any instance of
    [RoundStore], and a publisher of events.  What they may do to a round is the
    relation [table_step]: open it once, and finalize it once.  Every operation is a
    sequence of such steps, and the checker resolves the rounds that are due. *)

From stdpp Require Import sets fin_sets fin_map_dom.
From S2P Require Import Prelude GoStd Store Event Jcs RoundProgress TaskRound RoundStore.

(** * The policy of internal/roundpolicy *)

Inductive WaitDecision :=
  | WaitDecisionFinalizeNow
  | WaitDecisionWaitForActive
  | WaitDecisionWaitForBackstop
  | WaitDecisionExpired.

(** [roundpolicy.RoundState]. *)
Record PolicyState := mkPolicyState {
  ps_TotalValidators : Z;
  ps_VotedCount : Z;
  ps_TerminalCount : Z;
  ps_ActiveLeaseCount : Z;
  ps_StaleCount : Z;
  ps_MaxLeaseExpiryUnix : Z;
  ps_OutcomeSecured : bool;
  ps_BackstopUnix : Z;
}.

(** [RoundPolicyEvaluator.Evaluate]. *)
Definition policy_Evaluate (state : PolicyState) (nowUnix : Z) : WaitDecision :=
  if decide (ps_TotalValidators state > 0 ∧ ps_TotalValidators state <= ps_TerminalCount state) then WaitDecisionFinalizeNow
  else if ps_OutcomeSecured state then WaitDecisionFinalizeNow
  else if decide (ps_BackstopUnix state > 0 ∧ ps_BackstopUnix state <= nowUnix) then WaitDecisionExpired
  else if decide (ps_ActiveLeaseCount state > 0 ∧ ps_MaxLeaseExpiryUnix state > nowUnix) then WaitDecisionWaitForActive
  else if decide (nowUnix < ps_BackstopUnix state) then WaitDecisionWaitForBackstop
  else WaitDecisionExpired.

(** * Publishing the outcome *)

Record TaskVerificationConsensusPayload := mkConsensus {
  k_RoundID : string;
  k_TaskID : string;
  k_SubmissionEventID : string;
  k_WorkerID : string;
  k_PosterID : string;
  k_FinalVerdict : string;
  k_FinalScoreBP : Z;
  k_PassWeight : Z;
  k_FailWeight : Z;
  k_AbstainWeight : Z;
  k_TotalActiveWeight : Z;
  k_ParticipatingFamilies : list string;
  k_DiversityFloorMet : bool;
  k_VoteCount : Z;
  k_FinalizationTimeUnix : Z;
}.

Notation EventTypeTaskVerificationConsensus := "TaskVerificationConsensus" (only parsing).

(** [json.Marshal] of the payload (version 1), and [json.Unmarshal]. *)
Class ConsensusCodec : Type := {
  marshal_consensus : TaskVerificationConsensusPayload → option string;
  unmarshal_consensus : string → option TaskVerificationConsensusPayload;
}.

(** [ConsensusPublisher]: whether [Publish] returned nil. *)
Class ConsensusPublisher (W : Type) : Type := { Publish : Event → W → W * bool }.

Section checker.
Context {S P W : Type} `{!RoundStore S, !SnapshotStore P, !ConsensusPublisher W}.
Context {lib : JsonLib} {ed : Ed25519} {codec : ConsensusCodec} {order : RangeOrder}.

Definition consensus_payload (round : TaskVerificationRound) : TaskVerificationConsensusPayload :=
  mkConsensus (r_RoundID round) (r_TaskID round) (r_SubmissionEventID round) (r_WorkerID round) (r_PosterID round)
    (Verdict_String (r_FinalVerdict round)) (r_FinalScoreBP round) (r_PassWeight round) (r_FailWeight round)
    (r_AbstainWeight round) 0
    (range_set (dom (filter (λ kv : string * Z, kv.2 > 0) (r_ParticipatingFamilies round))))
    (bool_decide (r_DiversityFloor round <= DistinctPassFamilies round)) (Z.of_nat (length (r_Votes round)))
    (r_FinalizationTime round).

(** [EmitConsensusEvent]: failures are logged. *)
Definition EmitConsensusEvent (round : TaskVerificationRound) (publisher : option W) (kp : option KeyPair)
    (validatorID : AgentID) : option W :=
  match publisher, kp with
  | Some w, Some kp =>
      match ev ← New EventTypeTaskVerificationConsensus (Some [r_SubmissionEventID round])
                   (ValuePayload (marshal_consensus (consensus_payload round))) validatorID ∅ 0;
            SignEvent ev kp with
      | None => publisher
      | Some ev => Some (Publish ev w).1
      end
  | _, _ => publisher
  end.

(** * The deadline checker *)

(** [dc_progress] is set by [SetProgressAware]: the progress store, the count of
    active validators and the backstop. *)
Record DeadlineChecker := mkChecker {
  dc_rounds : S;
  dc_finalizer : FinalizerConfig;
  dc_publisher : option W;
  dc_kp : option KeyPair;
  dc_validatorID : AgentID;
  dc_extensionSeconds : Z;
  dc_progress : option (P * option Z * Z);
}.

Definition NewDeadlineChecker (rounds : S) (finalizer : FinalizerConfig) (publisher : option W) (kp : option KeyPair)
    (validatorID : AgentID) (extensionSeconds : Z) : DeadlineChecker :=
  mkChecker rounds finalizer publisher kp validatorID extensionSeconds None.

Definition SetProgressAware (progressStore : P) (activeCount : option Z) (backstopSeconds : Z) (d : DeadlineChecker) :
    DeadlineChecker :=
  mkChecker (dc_rounds d) (dc_finalizer d) (dc_publisher d) (dc_kp d) (dc_validatorID d) (dc_extensionSeconds d)
    (Some (progressStore, activeCount, if decide (backstopSeconds <= 0) then 300 else backstopSeconds)).

Definition set_checker (rounds : S) (publisher : option W) (d : DeadlineChecker) : DeadlineChecker :=
  mkChecker rounds (dc_finalizer d) publisher (dc_kp d) (dc_validatorID d) (dc_extensionSeconds d) (dc_progress d).

Definition applyFinalization (round : TaskVerificationRound) (decision : FinalizationDecision) (now : Z)
    (d : DeadlineChecker) : DeadlineChecker :=
  match round_Transition round (VerdictToState (fd_Verdict decision)) now with
  | inl _ => d
  | inr round =>
      let round := set_outcome (fd_Verdict decision) (fd_FinalScoreBP decision) round in
      let '(s, err) := rs_save round (dc_rounds d) in
      match err with
      | Some _ => set_checker s (dc_publisher d) d
      | None => set_checker s (EmitConsensusEvent round (dc_publisher d) (dc_kp d) (dc_validatorID d)) d
      end
  end.

(** One round of [checkLegacy]. *)
Definition legacy_step (now totalWeight : Z) (d : DeadlineChecker) (round : TaskVerificationRound) : DeadlineChecker :=
  if decide (now <= DeadlineForCurrentPhase round) then d
  else
    let decision := fin_Evaluate (dc_finalizer d) round totalWeight now in
    if fd_ShouldFinalize decision then applyFinalization round decision now d
    else if decide (r_ExtendedUntilUnix round = 0) then
      set_checker (rs_save (set_extended (i64 (r_DeadlineUnix round + dc_extensionSeconds d)) round) (dc_rounds d)).1
        (dc_publisher d) d
    else d.

Definition checkLegacy (now totalWeight : Z) (d : DeadlineChecker) : DeadlineChecker :=
  match rs_list RoundStateOpen (dc_rounds d) with
  | None => d
  | Some open => foldl (legacy_step now totalWeight) d open
  end.

(** [isOutcomeSecured]; [clock] is its own reading of the clock. *)
Definition isOutcomeSecured (cfg : FinalizerConfig) (activeCount : option Z) (round : TaskVerificationRound)
    (totalWeight activeLeaseCount clock : Z) : bool :=
  let decision := fin_Evaluate cfg round totalWeight clock in
  if negb (fd_ShouldFinalize decision) || bool_decide (fd_Reason decision = ReasonDeadlineExpiredDispute) then false
  else if decide (activeLeaseCount = 0) then true
  else
    let worstCaseWeight := match activeCount with
      | Some n => if decide (n > 0) then u64 (totalWeight / n * activeLeaseCount) else 0
      | None => 0
      end in
    let threshold := ceilMulDiv totalWeight (fc_BFTThresholdBP cfg) 10000 in
    match fd_Verdict decision with
    | VerdictPass => negb (bool_decide (threshold <= u64 (r_FailWeight round + worstCaseWeight)))
    | VerdictFail => negb (bool_decide (threshold <= u64 (r_PassWeight round + worstCaseWeight)))
    | VerdictAbstain => false
    end.

(** The counts of the loop over the snapshots: terminal, active, latest expiry. *)
Definition count_snapshot (voted : gset AgentID) (nowUnix : Z) (acc : Z * Z * Z) (sn : RoundProgressSnapshot) : Z * Z * Z :=
  let '(terminal, active, maxExpiry) := acc in
  if decide (sn_ValidatorID sn ∈ voted) then acc
  else if phase_IsTerminal (sn_CurrentPhase sn) then (terminal + 1, active, maxExpiry)
  else if decide (sn_LeaseExpiryUnix sn > nowUnix) then
    (terminal, active + 1, if decide (sn_LeaseExpiryUnix sn > maxExpiry) then sn_LeaseExpiryUnix sn else maxExpiry)
  else acc.

Definition buildRoundState (cfg : FinalizerConfig) (progress : P) (activeCount : option Z) (backstopSeconds : Z)
    (round : TaskVerificationRound) (totalWeight nowUnix clock : Z) : PolicyState :=
  let totalValidators := default 0 activeCount in
  let totalValidators := if decide (totalValidators = 0) then 5 else totalValidators in
  let voted : gset AgentID := list_to_set (v_ValidatorID <$> r_Votes round) in
  let votedCount := Z.of_nat (size voted) in
  let snapshots := default [] (snap_all (r_RoundID round) progress) in
  let '(terminalFromProgress, activeLeaseCount, maxLeaseExpiry) :=
    foldl (count_snapshot voted nowUnix) (0, 0, 0) snapshots in
  let terminalCount := votedCount + terminalFromProgress in
  let staleCount := totalValidators - terminalCount - activeLeaseCount in
  mkPolicyState totalValidators votedCount terminalCount activeLeaseCount (if decide (staleCount < 0) then 0 else staleCount)
    maxLeaseExpiry (isOutcomeSecured cfg activeCount round totalWeight activeLeaseCount clock)
    (i64 (r_OpenedAtUnix round + backstopSeconds)).

(** The decision of the finalizer, or a dispute. *)
Definition or_dispute (decision : FinalizationDecision) : FinalizationDecision :=
  if fd_ShouldFinalize decision then decision else mkDecision true VerdictAbstain 0 ReasonDeadlineExpiredDispute.

(** One round of [checkProgressAware]; [clock] reads the clock for a round. *)
Definition aware_step (progress : P) (activeCount : option Z) (backstopSeconds now totalWeight : Z) (clock : RoundID → Z)
    (d : DeadlineChecker) (round : TaskVerificationRound) : DeadlineChecker :=
  let state := buildRoundState (dc_finalizer d) progress activeCount backstopSeconds round totalWeight now
                 (clock (r_RoundID round)) in
  match policy_Evaluate state now with
  | WaitDecisionFinalizeNow | WaitDecisionExpired =>
      applyFinalization round (or_dispute (fin_Evaluate (dc_finalizer d) round totalWeight now)) now d
  | WaitDecisionWaitForActive | WaitDecisionWaitForBackstop => d
  end.

Definition checkProgressAware (progress : P) (activeCount : option Z) (backstopSeconds now totalWeight : Z)
    (clock : RoundID → Z) (d : DeadlineChecker) : DeadlineChecker :=
  match rs_list RoundStateOpen (dc_rounds d) with
  | None => d
  | Some open => foldl (aware_step progress activeCount backstopSeconds now totalWeight clock) d open
  end.

(** [check]: one tick. *)
Definition dc_check (now totalWeight : Z) (clock : RoundID → Z) (d : DeadlineChecker) : DeadlineChecker :=
  match dc_progress d with
  | Some (progress, activeCount, backstopSeconds) =>
      checkProgressAware progress activeCount backstopSeconds now totalWeight clock d
  | None => checkLegacy now totalWeight d
  end.

(** * The round consumer *)

(** The struct it unmarshals, and what [TaskMetadataReader] answers. *)
Record SubmittedHead := mkSubmittedHead { sh_TaskID : string; sh_ClaimerID : string }.

Record TaskVerificationVotePayload := mkVotePayload {
  vp_RoundID : string;
  vp_ValidatorID : string;
  vp_Verdict : string;
  vp_ScoreBP : Z;
  vp_ScoreBreakdown : gmap string Z;
  vp_AnalyzerFamily : string;
  vp_AnalyzerVersion : string;
  vp_PolicyVersion : string;
  vp_AnalysisArtifactHash : string;
  vp_TimestampUnix : Z;
}.

(** [json.Unmarshal] into the structs of the consumers. *)
Class RoundPayloads : Type := {
  unmarshal_submitted_head : string → option SubmittedHead;
  unmarshal_round_head : string → option string;
  unmarshal_vote : string → option TaskVerificationVotePayload;
}.

Inductive ConsumeError :=
  | ErrUnmarshal
  | ErrMissingField
  | ErrLoad (e : TVError)
  | ErrMetadata
  | ErrOpen (e : TVError)
  | ErrSave (e : TVError)
  | ErrApply (e : TVError).

Section consumers.
Context `{!RoundPayloads}.

(** The whole of [Consume] but for the signal to the waiting vote consumers, which
    the third component asks for. *)
Definition round_Consume (taskMeta : string → option (string * string)) (validatorVer now : Z) (ev : Event) (s : S) :
    S * option ConsumeError * option string :=
  match GetPayload unmarshal_submitted_head ev with
  | None => (s, Some ErrUnmarshal, None)
  | Some p =>
      if decide (sh_TaskID p = "" ∨ sh_ClaimerID p = "") then (s, Some ErrMissingField, None)
      else match rs_load_sub (ID ev) s with
      | inr _ => (s, None, None)
      | inl ErrRoundNotFound =>
          match taskMeta (sh_TaskID p) with
          | None => (s, Some ErrMetadata, None)
          | Some (posterID, category) =>
              match OpenRound (mkParams (sh_TaskID p) (ID ev) (sh_ClaimerID p) posterID category validatorVer [] "bootstrap_v1"
                                 DefaultDiversityFloor DefaultAcceptanceThresholdBP DefaultRoundDeadlineSeconds now) with
              | inl e => (s, Some (ErrOpen e), None)
              | inr r =>
                  let '(s', err) := rs_save r s in
                  match err with
                  | Some e => (s', Some (ErrSave e), None)
                  | None => (s', None, Some ("tv_round:" +:+ r_RoundID r))
                  end
              end
          end
      | inl e => (s, Some (ErrLoad e), None)
      end
  end.

(** * The vote consumer *)

Record VoteConsumer := mkVoteConsumer {
  vc_rounds : S;
  vc_weightFn : AgentID → option Z;
  vc_finalizer : option FinalizerConfig;
  vc_publisher : option W;
  vc_kp : option KeyPair;
  vc_validatorID : AgentID;
  vc_activeWeight : option Z;
}.

Definition set_vc (s : S) (w : option W) (c : VoteConsumer) : VoteConsumer :=
  mkVoteConsumer s (vc_weightFn c) (vc_finalizer c) w (vc_kp c) (vc_validatorID c) (vc_activeWeight c).

(** [Ready]: the prerequisite key when the round is not there. *)
Definition vote_Ready (ev : Event) (c : VoteConsumer) : option string :=
  match GetPayload unmarshal_round_head ev with
  | None => None
  | Some id =>
      if decide (id = "") then None
      else match rs_load id (vc_rounds c) with inr _ => None | inl _ => Some ("tv_round:" +:+ id) end
  end.

Definition vote_record (p : TaskVerificationVotePayload) (verdict : Verdict) (stake : Z) : TaskVerificationVoteRecord :=
  mkVote (vp_ValidatorID p) verdict (vp_ScoreBP p) (vp_ScoreBreakdown p) (vp_AnalyzerFamily p) (vp_AnalyzerVersion p)
    (vp_PolicyVersion p) (vp_AnalysisArtifactHash p) stake (vp_TimestampUnix p).

(** The finalizer's turn after a vote was saved. *)
Definition vote_finalize (round : TaskVerificationRound) (now : Z) (c : VoteConsumer) : VoteConsumer :=
  match vc_finalizer c, vc_activeWeight c with
  | Some cfg, Some totalWeight =>
      let decision := fin_Evaluate cfg round totalWeight now in
      if fd_ShouldFinalize decision then
        match round_Transition round (VerdictToState (fd_Verdict decision)) now with
        | inl _ => c
        | inr round =>
            let round := set_outcome (fd_Verdict decision) (fd_FinalScoreBP decision) round in
            let '(s, err) := rs_save round (vc_rounds c) in
            match err with
            | Some _ => set_vc s (vc_publisher c) c
            | None => set_vc s (EmitConsensusEvent round (vc_publisher c) (vc_kp c) (vc_validatorID c)) c
            end
        end
      else c
  | _, _ => c
  end.

Definition vote_apply (round : TaskVerificationRound) (record : TaskVerificationVoteRecord) (now : Z) (c : VoteConsumer) :
    VoteConsumer * option ConsumeError :=
  let '(round, result, err) := ApplyVoteToRound round record in
  match err with
  | Some ErrEquivocation => (c, None)
  | Some e => (c, Some (ErrApply e))
  | None =>
      if ar_DuplicateVote result then (c, None)
      else
        let '(s, err) := rs_save round (vc_rounds c) in
        match err with
        | Some e => (set_vc s (vc_publisher c) c, Some (ErrSave e))
        | None => (vote_finalize round now (set_vc s (vc_publisher c) c), None)
        end
  end.

Definition vote_Consume (ev : Event) (now : Z) (c : VoteConsumer) : VoteConsumer * option ConsumeError :=
  match GetPayload unmarshal_vote ev with
  | None => (c, Some ErrUnmarshal)
  | Some p =>
      match rs_load (vp_RoundID p) (vc_rounds c) with
      | inl ErrRoundNotFound => (c, None)
      | inl e => (c, Some (ErrLoad e))
      | inr round =>
          match vc_weightFn c (vp_ValidatorID p) with
          | None => (c, None)
          | Some stake =>
              match verdictFromName (vp_Verdict p) with
              | None => (c, None)
              | Some verdict =>
                  let record := vote_record p verdict stake in
                  if round_IsTerminal round then
                    let '(s, err) := rs_save (RecordPostFinalizationVote round record) (vc_rounds c) in
                    (set_vc s (vc_publisher c) c, ErrSave <$> err)
                  else vote_apply round record now c
              end
          end
      end
  end.

(** * The consensus consumer, its rounds *)

Definition parseConsensusVerdict (s : string) : Verdict :=
  if decide (s = "pass") then VerdictPass else if decide (s = "fail") then VerdictFail else VerdictAbstain.

Definition consensusVerdictToState (v : Verdict) : RoundState :=
  match v with
  | VerdictPass => RoundStateFinalizedAccept
  | VerdictFail => RoundStateFinalizedReject
  | VerdictAbstain => RoundStateDisputed
  end.

(** The first part of [Consume]: the round as an event says it was finalized, [None]
    in the error and [inl] when [Consume] ends there. *)
Definition consensus_round (p : TaskVerificationConsensusPayload) (s : S) :
    S * (option ConsumeError + TaskVerificationRound) :=
  match rs_load (k_RoundID p) s with
  | inl ErrRoundNotFound => (s, inl None)
  | inl e => (s, inl (Some (ErrLoad e)))
  | inr round =>
      if round_IsTerminal round then (s, inr round)
      else
        let verdict := parseConsensusVerdict (k_FinalVerdict p) in
        match round_Transition round (consensusVerdictToState verdict) (k_FinalizationTimeUnix p) with
        | inl _ => (s, inr round)
        | inr round =>
            let round := set_outcome verdict (k_FinalScoreBP p) round in
            let '(s', err) := rs_save round s in
            match err with
            | Some e => (s', inl (Some (ErrSave e)))
            | None => (s', inr round)
            end
        end
  end.
End consumers.
End checker.
#[global] Arguments DeadlineChecker : clear implicits.
#[global] Arguments VoteConsumer : clear implicits.

(** * What may happen to a round *)

Inductive table_step (t : gmap RoundID RoundState) : gmap RoundID RoundState → Prop :=
  | table_open id : t !! id = None → table_step t (<[id := RoundStateOpen]> t)
  | table_finalize id v : t !! id = Some RoundStateOpen → table_step t (<[id := VerdictToState v]> t).

Lemma VerdictToState_final v : VerdictToState v ≠ RoundStateOpen.
Proof. by destruct v. Qed.

Lemma VerdictToState_inj v1 v2 : VerdictToState v1 = VerdictToState v2 → v1 = v2.
Proof. by destruct v1, v2. Qed.

Lemma table_final t t' id st : rtc table_step t t' → t !! id = Some st → st ≠ RoundStateOpen → t' !! id = Some st.
Proof.
  intros Hrtc. revert id st. induction Hrtc as [t|t t1 t' Hstep _ IH]; intros id st Ht Hst; [done|]. apply IH; [|done].
  destruct Hstep as [id'|id' v]; rewrite lookup_insert_ne; naive_solver.
Qed.

Section effects.
Context {S P W : Type} `{!RoundStore S, !RoundEncoding, !RoundStoreLaws S, !SnapshotStore P, !ConsensusPublisher W}.
Context {lib : JsonLib} {ed : Ed25519} {codec : ConsensusCodec} {order : RangeOrder} {payloads : RoundPayloads}.
Implicit Types (s : S) (w : option W) (r : TaskVerificationRound).

(** The submissions the node has seen, whose round IDs differ. *)
Variable subs : gset EventID.

(** Rounds are kept under the ID of their submission, and a finalized one has the
    state its verdict stands for. *)
Record rounds_ok s : Prop := {
  rk_ok : rs_ok s;
  rk_sub id r : rs_view s !! id = Some r → r_RoundID r = NewRoundID (r_SubmissionEventID r) ∧ r_SubmissionEventID r ∈ subs;
  rk_verdict id r : rs_view s !! id = Some r → r_State r ≠ RoundStateOpen → r_State r = VerdictToState (r_FinalVerdict r);
}.

Definition table s : gmap RoundID RoundState := (λ r : TaskVerificationRound, r_State r) <$> rs_view s.

Lemma table_lookup s id r : rs_view s !! id = Some r → table s !! id = Some (r_State r).
Proof. intros Hr. unfold table. by rewrite lookup_fmap, Hr. Qed.

Definition well_formed r : Prop :=
  r_RoundID r = NewRoundID (r_SubmissionEventID r) ∧ r_SubmissionEventID r ∈ subs
  ∧ (r_State r ≠ RoundStateOpen → r_State r = VerdictToState (r_FinalVerdict r)).

Lemma save_round r s s' e :
  rounds_ok s → well_formed r → rs_save r s = (s', e) →
  rounds_ok s'
  ∧ rs_view s' = match e with None => <[r_RoundID r := rs_stored r]> (rs_view s) | Some _ => rs_view s end
  ∧ table s' = match e with None => <[r_RoundID r := r_State r]> (table s) | Some _ => table s end.
Proof.
  intros [Hok Hsub Hv] (Hid & Hin & Hver) Hs. destruct e as [e|].
  - apply rs_save_fail in Hs as [Hok' Hview]; [|done]. unfold table. rewrite Hview. split; [|done].
    split; [done|rewrite Hview; apply Hsub|rewrite Hview; apply Hv].
  - apply rs_save_ok in Hs as [Hok' Hview]; [|done]. unfold table. rewrite Hview, fmap_insert, stored_state. split; [|done].
    split; [done|..]; rewrite Hview; intros id r0 [[_ <-]|[_ Hr0]]%lookup_insert_Some.
    + by rewrite stored_id, stored_sub.
    + by apply (Hsub id).
    + rewrite stored_state, stored_verdict. done.
    + by apply (Hv id).
Qed.

(** The effect of an operation on the store and the publisher: steps of the table, and
    one publication for some of the rounds it finalized, after they were stored. *)
Definition emit (kp : option KeyPair) (vid : AgentID) w r : option W := EmitConsensusEvent r w kp vid.

Definition stored_final s r : Prop :=
  table s !! r_RoundID r = Some (r_State r) ∧ r_State r = VerdictToState (r_FinalVerdict r).

Record effect (kp : option KeyPair) (vid : AgentID) s w s' w' : Prop := {
  ef_ok : rounds_ok s';
  ef_steps : rtc table_step (table s) (table s');
  ef_published : ∃ l, w' = foldl (emit kp vid) w l ∧ NoDup ((λ r : TaskVerificationRound, r_RoundID r) <$> l)
                      ∧ Forall (λ r, stored_final s' r ∧ ∀ st, table s !! r_RoundID r = Some st → st = RoundStateOpen) l;
}.

Lemma effect_same kp vid s w s' : rounds_ok s' → table s' = table s → effect kp vid s w s' w.
Proof. intros Hs Ht. split; [done|by rewrite Ht|]. exists []. split_and!; [done|constructor|constructor]. Qed.

Lemma effect_step kp vid s w s' : rounds_ok s' → table_step (table s) (table s') → effect kp vid s w s' w.
Proof. intros Hs Hstep. split; [done|by apply rtc_once|]. exists []. split_and!; [done|constructor|constructor]. Qed.

Lemma stored_final_later s s' r : rtc table_step (table s) (table s') → stored_final s r → stored_final s' r.
Proof.
  intros Hrtc [Ht Hv]. split; [|done]. eapply table_final; [done|done|]. rewrite Hv. apply VerdictToState_final.
Qed.

Lemma effect_trans kp vid s1 w1 s2 w2 s3 w3 :
  effect kp vid s1 w1 s2 w2 → effect kp vid s2 w2 s3 w3 → effect kp vid s1 w1 s3 w3.
Proof.
  intros [_ Hr1 (l1 & -> & Hn1 & Hf1)] [Hok Hr2 (l2 & -> & Hn2 & Hf2)]. split; [done|by etrans|].
  exists (l1 ++ l2). rewrite foldl_app, fmap_app. split_and!; [done| |].
  - apply NoDup_app. split_and!; [done| |done]. intros id (r1 & -> & Hin1)%list_elem_of_fmap (r2 & Heq & Hin2)%list_elem_of_fmap.
    rewrite Forall_forall in Hf1, Hf2. destruct (Hf1 r1 Hin1) as [[Ht1 Hv1] _], (Hf2 r2 Hin2) as [_ Hopen].
    rewrite Heq in Ht1. apply Hopen in Ht1. rewrite Hv1 in Ht1. by apply VerdictToState_final in Ht1.
  - apply Forall_app. split; [|]; apply Forall_forall; intros r Hin.
    + rewrite Forall_forall in Hf1. destruct (Hf1 r Hin) as [Hs Ho]. split; [by eapply stored_final_later|done].
    + rewrite Forall_forall in Hf2. destruct (Hf2 r Hin) as [Hs Ho]. split; [done|]. intros st Ht.
      destruct (decide (st = RoundStateOpen)) as [|Hne]; [done|]. by apply Ho, (table_final _ _ _ _ Hr1 Ht Hne).
Qed.

(** ** The common steps *)

Definition same_round r r0 : Prop := r_RoundID r = r_RoundID r0 ∧ r_SubmissionEventID r = r_SubmissionEventID r0.

Lemma Transition_final r v now r1 :
  round_Transition r (VerdictToState v) now = inr r1 →
  r_State r = RoundStateOpen ∧ r_spec r1 = r_spec r ∧ r_State r1 = VerdictToState v.
Proof.
  unfold round_Transition, round_CanTransitionTo. case_bool_decide as Hin; [|done]. cbn. intros [= <-].
  split_and!; [|done|done]. destruct (r_State r); [done|set_solver..].
Qed.

(** Saving a round that an open one becomes, and perhaps publishing it. *)
Lemma finalize_effect kp vid r0 r v sc now r1 s s' w e (pub : bool) :
  rounds_ok s → rs_view s !! r_RoundID r0 = Some r0 → r_State r0 = RoundStateOpen → same_round r r0 →
  round_Transition r (VerdictToState v) now = inr r1 → rs_save (set_outcome v sc r1) s = (s', e) →
  effect kp vid s w s' (match e with None => if pub then emit kp vid w (set_outcome v sc r1) else w | Some _ => w end)
  ∧ rs_view s' = match e with None => <[r_RoundID r0 := rs_stored (set_outcome v sc r1)]> (rs_view s) | Some _ => rs_view s end.
Proof.
  intros Hok Hr0 Hopen [Hrid Hrsub] Htr Hs. apply Transition_final in Htr as (_ & Hspec1 & Hst1).
  assert (r_RoundID (set_outcome v sc r1) = r_RoundID r0) as Hs1 by (cbn; congruence).
  assert (r_SubmissionEventID (set_outcome v sc r1) = r_SubmissionEventID r0) as Hs2 by (cbn; congruence).
  destruct (rk_sub s Hok _ _ Hr0) as [Hid Hsub].
  assert (well_formed (set_outcome v sc r1)) as Hwf.
  { split_and!; [by rewrite Hs1, Hs2|by rewrite Hs2|]. by cbn. }
  destruct (save_round _ _ _ _ Hok Hwf Hs) as (Hok' & Hview & Htab). rewrite Hs1 in Hview, Htab. split; [|done].
  change (r_State (set_outcome v sc r1)) with (r_State r1) in Htab. rewrite Hst1 in Htab.
  destruct e as [e|]; [by apply effect_same|].
  assert (table_step (table s) (table s')) as Hstep.
  { rewrite Htab. apply table_finalize. rewrite <- Hopen. by apply table_lookup. }
  destruct pub; [|by apply effect_step]. split; [done|by apply rtc_once|].
  exists [set_outcome v sc r1]. split_and!; [done|apply NoDup_singleton|]. apply Forall_singleton. unfold stored_final.
  rewrite Hs1. split; [split; [|done]|].
  - rewrite Htab. cbn. rewrite Hst1. apply lookup_insert_eq.
  - intros st. rewrite (table_lookup _ _ _ Hr0). congruence.
Qed.

(** Saving a round whose state and verdict are those of the stored one. *)
Lemma save_same r0 r s s' e w kp vid :
  rounds_ok s → rs_view s !! r_RoundID r0 = Some r0 → same_round r r0 → r_State r = r_State r0 →
  r_FinalVerdict r = r_FinalVerdict r0 → rs_save r s = (s', e) →
  effect kp vid s w s' w
  ∧ rs_view s' = match e with None => <[r_RoundID r0 := rs_stored r]> (rs_view s) | Some _ => rs_view s end.
Proof.
  intros Hok Hr0 [Hrid Hrsub] Hst Hfv Hs. destruct (rk_sub s Hok _ _ Hr0) as [Hid Hsub].
  assert (well_formed r) as Hwf.
  { split_and!; [by rewrite Hrid, Hrsub|by rewrite Hrsub|]. rewrite Hst, Hfv. by apply (rk_verdict s Hok (r_RoundID r0)). }
  destruct (save_round _ _ _ _ Hok Hwf Hs) as (Hok' & Hview & Htab). rewrite Hrid in Hview, Htab. split; [|done].
  apply effect_same; [done|]. destruct e as [e|]; [done|]. rewrite Htab, Hst. apply insert_id. by apply table_lookup.
Qed.

Lemma loaded id s r : rounds_ok s → rs_load id s = inr r → rs_view s !! r_RoundID r = Some r.
Proof.
  intros Hok Hl. apply rs_load_ok in Hl; [|apply Hok]. by rewrite (rs_view_key s id r (rk_ok s Hok) Hl).
Qed.

(** ** The checker *)

Section checker_effects.
Context (d : DeadlineChecker S P W).

(** A step of the checker on a listed round: its effect, the other rounds as they were,
    and [Q]. *)
Definition step_on r s w (Q : S → Prop) (d' : DeadlineChecker S P W) : Prop :=
  ∃ s' w', d' = set_checker s' w' d ∧ effect (dc_kp d) (dc_validatorID d) s w s' w'
    ∧ (∀ id, id ≠ r_RoundID r → rs_view s' !! id = rs_view s !! id) ∧ Q s'.

Definition settled r s : Prop := ∃ r', rs_view s !! r_RoundID r = Some r' ∧ r_State r' ≠ RoundStateOpen.

Lemma step_same r s w (Q : S → Prop) : rounds_ok s → Q s → step_on r s w Q (set_checker s w d).
Proof. intros Hok HQ. exists s, w. split_and!; [done|by apply effect_same|done|done]. Qed.

Lemma applyFinalization_step r s w dec now :
  rounds_ok s → rs_view s !! r_RoundID r = Some r → r_State r = RoundStateOpen →
  step_on r s w (λ s', ReliableRounds S → settled r s') (applyFinalization r dec now (set_checker s w d)).
Proof.
  intros Hok Hr Hopen. unfold applyFinalization.
  destruct (round_Transition r _ now) as [e|r1] eqn:Htr; cycle 1.
  - cbn [dc_rounds dc_publisher dc_kp dc_validatorID set_checker].
    destruct (rs_save _ s) as [s' e] eqn:Hs.
    destruct (finalize_effect (dc_kp d) (dc_validatorID d) r r _ _ now r1 s s' w e true Hok Hr Hopen (conj eq_refl eq_refl) Htr Hs) as [He Hview].
    assert (∀ id, id ≠ r_RoundID r → rs_view s' !! id = rs_view s !! id) as Hrest.
    { intros id Hid. rewrite Hview. destruct e; [done|]. by rewrite lookup_insert_ne. }
    destruct e as [e|]; (eexists _, _; split_and!; [reflexivity|exact He|done|]).
    + intros Hrel. pose proof (reliable_save (set_outcome (fd_Verdict dec) (fd_FinalScoreBP dec) r1) s) as Hsave. by rewrite Hs in Hsave.
    + intros _. eexists. rewrite Hview, lookup_insert_eq. split; [done|]. rewrite stored_state. cbn.
      apply Transition_final in Htr as (_ & _ & ->). apply VerdictToState_final.
  - exfalso. unfold round_Transition, round_CanTransitionTo in Htr. rewrite Hopen in Htr.
    destruct (fd_Verdict dec); vm_compute in Htr; discriminate.
Qed.

(** When the checker must resolve a round: its backstop has passed, or its extension. *)
Definition overdue (now : Z) r : Prop :=
  match dc_progress d with
  | Some (_, _, backstop) => 0 < i64 (r_OpenedAtUnix r + backstop) <= now
  | None => 0 < r_ExtendedUntilUnix r < now
  end.

Lemma overdue_decided cfg r total now :
  r_State r = RoundStateOpen → 0 < r_ExtendedUntilUnix r < now → fd_ShouldFinalize (fin_Evaluate cfg r total now) = true.
Proof.
  intros Hopen Hext. unfold fin_Evaluate. rewrite decide_False by (intros H'; by apply H').
  destruct (accepts _ _ _); [done|]. case_decide; [done|]. unfold DeadlineForCurrentPhase.
  rewrite (decide_True (P := r_ExtendedUntilUnix r > 0)) by lia. by rewrite !decide_True by lia.
Qed.

Definition resolved (now : Z) r s : Prop := ReliableRounds S → overdue now r → settled r s.

Lemma legacy_step_on now total r s w :
  rounds_ok s → rs_view s !! r_RoundID r = Some r → r_State r = RoundStateOpen → dc_progress d = None →
  step_on r s w (resolved now r) (legacy_step now total (set_checker s w d) r).
Proof.
  intros Hok Hr Hopen Hmode. unfold legacy_step. unfold resolved, overdue. rewrite Hmode.
  case_decide as Hnow.
  { apply step_same; [done|]. intros _ Hdue. unfold DeadlineForCurrentPhase in Hnow. rewrite decide_True in Hnow by lia. lia. }
  destruct (fd_ShouldFinalize (fin_Evaluate (dc_finalizer (set_checker s w d)) r total now)) eqn:Hdec.
  { destruct (applyFinalization_step r s w (fin_Evaluate (dc_finalizer d) r total now) now Hok Hr Hopen)
      as (s' & w' & Heq & He & Hrest & HQ). exists s', w'. split_and!; [exact Heq|done|done|]. intros Hrel _. by apply HQ. }
  case_decide as Hext; cycle 1.
  { apply step_same; [done|]. intros _ Hdue. by rewrite overdue_decided in Hdec by done. }
  cbn [dc_rounds dc_publisher set_checker]. destruct (rs_save _ s) as [s' e] eqn:Hs.
  destruct (save_same r (set_extended (i64 (r_DeadlineUnix r + dc_extensionSeconds d)) r) s s' e w (dc_kp d) (dc_validatorID d) Hok Hr (conj eq_refl eq_refl) eq_refl eq_refl Hs) as [He Hview].
  exists s', w. split_and!; [done|done| |intros _ Hdue; lia].
  intros id Hid. rewrite Hview. destruct e; [done|]. by rewrite lookup_insert_ne.
Qed.

Lemma aware_step_on progress count backstop now total clock r s w :
  rounds_ok s → rs_view s !! r_RoundID r = Some r → r_State r = RoundStateOpen →
  dc_progress d = Some (progress, count, backstop) →
  step_on r s w (resolved now r) (aware_step progress count backstop now total clock (set_checker s w d) r).
Proof.
  intros Hok Hr Hopen Hmode. unfold aware_step, resolved, overdue. rewrite Hmode.
  set (state := buildRoundState _ _ _ _ _ _ _ _).
  assert (step_on r s w (λ s', ReliableRounds S → 0 < i64 (r_OpenedAtUnix r + backstop) <= now → settled r s')
           (applyFinalization r (or_dispute (fin_Evaluate (dc_finalizer d) r total now)) now (set_checker s w d))) as Hfin.
  { destruct (applyFinalization_step r s w (or_dispute (fin_Evaluate (dc_finalizer d) r total now)) now Hok Hr Hopen)
      as (s' & w' & Heq & He & Hrest & HQ). exists s', w'. split_and!; [exact Heq|done|done|]. intros Hrel _. by apply HQ. }
  assert (0 < i64 (r_OpenedAtUnix r + backstop) <= now →
    policy_Evaluate state now = WaitDecisionFinalizeNow ∨ policy_Evaluate state now = WaitDecisionExpired) as Hpol.
  { intros Hdue. assert (ps_BackstopUnix state = i64 (r_OpenedAtUnix r + backstop)) as Hb.
    { unfold state, buildRoundState. by destruct (foldl _ _ _) as [[? ?] ?]. }
    unfold policy_Evaluate. rewrite Hb. case_decide; [by left|]. destruct (ps_OutcomeSecured state); [by left|].
    rewrite decide_True by lia. by right. }
  destruct (policy_Evaluate state now); [exact Hfin| | |exact Hfin];
    (apply step_same; [done|]; intros _ Hdue; by destruct (Hpol Hdue)).
Qed.

(** The rounds of a tick, one after the other. *)
Lemma check_fold (step : DeadlineChecker S P W → TaskVerificationRound → DeadlineChecker S P W) (Q : TaskVerificationRound → S → Prop) l s w :
  (∀ r s w, rounds_ok s → rs_view s !! r_RoundID r = Some r → r_State r = RoundStateOpen →
     step_on r s w (λ s', Q r s') (step (set_checker s w d) r)) →
  (∀ r s s', rs_view s' !! r_RoundID r = rs_view s !! r_RoundID r → Q r s → Q r s') →
  NoDup ((λ r : TaskVerificationRound, r_RoundID r) <$> l) →
  Forall (λ r, rs_view s !! r_RoundID r = Some r ∧ r_State r = RoundStateOpen) l → rounds_ok s →
  ∃ s' w', foldl step (set_checker s w d) l = set_checker s' w' d ∧ effect (dc_kp d) (dc_validatorID d) s w s' w'
    ∧ (∀ id, id ∉ (λ r : TaskVerificationRound, r_RoundID r) <$> l → rs_view s' !! id = rs_view s !! id)
    ∧ Forall (λ r, Q r s') l.
Proof.
  intros Hstep HQ. revert s w. induction l as [|r l IH]; intros s w Hnd Hl Hok.
  { exists s, w. split_and!; [done|by apply effect_same|done|constructor]. }
  cbn in Hnd. apply NoDup_cons in Hnd as [Hnr Hnd]. apply Forall_cons in Hl as [[Hr Hopen] Hl]. cbn [foldl].
  destruct (Hstep r s w Hok Hr Hopen) as (s1 & w1 & -> & He1 & Hrest1 & HQ1).
  destruct (IH s1 w1 Hnd) as (s2 & w2 & -> & He2 & Hrest2 & HQ2); [|by apply He1|].
  { apply Forall_forall. intros r' Hin. rewrite Forall_forall in Hl. destruct (Hl r' Hin). rewrite Hrest1; [done|].
    intros Heq. apply Hnr. rewrite <- Heq. apply list_elem_of_fmap. by exists r'. }
  exists s2, w2. split_and!; [done|by eapply effect_trans| |].
  - intros id Hid. cbn in Hid. apply not_elem_of_cons in Hid as [Hid1 Hid2]. by rewrite Hrest2, Hrest1.
  - apply Forall_cons. split; [|done]. eapply HQ; [|done]. by apply Hrest2.
Qed.

Lemma dc_check_effect now total clock :
  rounds_ok (dc_rounds d) →
  ∃ s' w', dc_check now total clock d = set_checker s' w' d
    ∧ effect (dc_kp d) (dc_validatorID d) (dc_rounds d) (dc_publisher d) s' w'
    ∧ (ReliableRounds S → ∀ id r, rs_view (dc_rounds d) !! id = Some r → r_State r = RoundStateOpen → overdue now r → settled r s').
Proof.
  intros Hok. set (s := dc_rounds d). set (w := dc_publisher d).
  assert (set_checker s w d = d) as Hd by (by destruct d).
  assert (∀ r s1 s2, rs_view s2 !! r_RoundID r = rs_view s1 !! r_RoundID r → resolved now r s1 → resolved now r s2) as HQ.
  { intros r s1 s2 Heq Hres Hrel Hdue. destruct (Hres Hrel Hdue) as (r' & Hr' & Hst). exists r'. by rewrite Heq. }
  assert (∀ l, rs_list RoundStateOpen s = Some l →
    NoDup ((λ r : TaskVerificationRound, r_RoundID r) <$> l)
    ∧ Forall (λ r, rs_view s !! r_RoundID r = Some r ∧ r_State r = RoundStateOpen) l
    ∧ ∀ r, rs_view s !! r_RoundID r = Some r → r_State r = RoundStateOpen → r ∈ l) as Hlist.
  { intros l Hl. destruct (rs_list_ok _ s l (rk_ok s Hok) Hl) as [Hnd Hin]. split_and!; [done| |].
    - apply Forall_forall. intros r Hr. by apply Hin.
    - intros r Hr Hst. by apply Hin. }
  assert (∀ step, (∀ r s w, rounds_ok s → rs_view s !! r_RoundID r = Some r → r_State r = RoundStateOpen →
     step_on r s w (λ s', resolved now r s') (step (set_checker s w d) r)) →
    ∃ s' w', match rs_list RoundStateOpen s with None => d | Some open => foldl step d open end = set_checker s' w' d
    ∧ effect (dc_kp d) (dc_validatorID d) s w s' w'
    ∧ (ReliableRounds S → ∀ id r, rs_view s !! id = Some r → r_State r = RoundStateOpen → overdue now r → settled r s')) as Hall.
  { intros step Hstep. destruct (rs_list RoundStateOpen s) as [l|] eqn:Hl.
    - destruct (Hlist l eq_refl) as (Hnd & Hf & Hin).
      destruct (check_fold step (resolved now) l s w Hstep HQ Hnd Hf Hok) as (s' & w' & Heq & He & _ & Hres).
      rewrite Hd in Heq. exists s', w'. split_and!; [done|done|]. intros Hrel id r Hr Hopen Hdue.
      rewrite Forall_forall in Hres. pose proof (rs_view_key s id r (rk_ok s Hok) Hr) as Hid.
      apply Hres; [|done|done]. apply Hin; [by rewrite Hid|done].
    - exists s, w. split_and!; [by rewrite Hd|by apply effect_same|]. intros Hrel.
      destruct (reliable_list RoundStateOpen s) as [l Hl']. congruence. }
  unfold dc_check. destruct (dc_progress d) as [[[progress count] backstop]|] eqn:Hmode; apply Hall.
  - intros r s1 w1 Hok1 Hr Hopen. by apply aware_step_on.
  - intros r s1 w1 Hok1 Hr Hopen. by apply legacy_step_on.
Qed.
End checker_effects.

(** ** The consumers *)

Section consumer_effects.
Variables (kp : option KeyPair) (vid : AgentID).

Lemma vote_finalize_effect r r0 now (c : VoteConsumer S W) :
  vc_kp c = kp → vc_validatorID c = vid → rounds_ok (vc_rounds c) →
  rs_view (vc_rounds c) !! r_RoundID r0 = Some r0 → r_State r0 = RoundStateOpen → same_round r r0 →
  ∃ s' w', vote_finalize r now c = set_vc s' w' c ∧ effect kp vid (vc_rounds c) (vc_publisher c) s' w'.
Proof.
  intros Hkp Hvid Hok Hr0 Hopen Hsame.
  assert (∃ s' w', c = set_vc s' w' c ∧ effect kp vid (vc_rounds c) (vc_publisher c) s' w') as Hnone.
  { exists (vc_rounds c), (vc_publisher c). split; [by destruct c|by apply effect_same]. }
  unfold vote_finalize. destruct (vc_finalizer c) as [cfg|]; [|done]. destruct (vc_activeWeight c) as [total|]; [|done].
  destruct (fd_ShouldFinalize _); [|done]. destruct (round_Transition r _ now) as [|r1] eqn:Htr; [done|].
  destruct (rs_save _ (vc_rounds c)) as [s' e] eqn:Hs.
  destruct (finalize_effect kp vid r0 r _ _ now r1 _ s' (vc_publisher c) e true Hok Hr0 Hopen Hsame Htr Hs) as [He _].
  destruct e as [e|]; (eexists _, _; split; [reflexivity|]); [exact He|]. rewrite Hkp, Hvid. exact He.
Qed.

Lemma vote_apply_effect r record now (c : VoteConsumer S W) :
  vc_kp c = kp → vc_validatorID c = vid → rounds_ok (vc_rounds c) →
  rs_view (vc_rounds c) !! r_RoundID r = Some r → r_State r = RoundStateOpen →
  ∃ s' w', (vote_apply r record now c).1 = set_vc s' w' c ∧ effect kp vid (vc_rounds c) (vc_publisher c) s' w'.
Proof.
  intros Hkp Hvid Hok Hr Hopen.
  assert (∃ s' w', c = set_vc s' w' c ∧ effect kp vid (vc_rounds c) (vc_publisher c) s' w') as Hnone.
  { exists (vc_rounds c), (vc_publisher c). split; [by destruct c|by apply effect_same]. }
  unfold vote_apply. pose proof (ApplyVote_cases r record) as Hc.
  destruct (ApplyVoteToRound r record) as [[r1 res] err]. destruct err as [[]|]; try done.
  destruct (ar_DuplicateVote res); [done|].
  assert (same_round r1 r ∧ r_State r1 = r_State r ∧ r_FinalVerdict r1 = r_FinalVerdict r) as (Hsame & Hst & Hfv).
  { destruct Hc as [[-> _]|(-> & _)]; [done|]. unfold add_vote. by destruct (v_Verdict record). }
  destruct (rs_save r1 (vc_rounds c)) as [s' e] eqn:Hs.
  destruct (save_same r r1 _ s' e (vc_publisher c) kp vid Hok Hr Hsame Hst Hfv Hs) as [He Hview].
  destruct e as [e|]; [by eexists _, _|]. cbn [fst]. destruct Hsame as [Hid Hsub].
  destruct (vote_finalize_effect r1 (rs_stored r1) now (set_vc s' (vc_publisher c) c)) as (s2 & w2 & -> & He2);
    [done|done|by apply He| | | |].
  - cbn. rewrite Hview, stored_id, Hid. apply lookup_insert_eq.
  - by rewrite stored_state, Hst.
  - split; [by rewrite stored_id|by rewrite stored_sub].
  - exists s2, w2. split; [done|]. by eapply effect_trans.
Qed.

Lemma vote_Consume_effect ev now (c : VoteConsumer S W) :
  vc_kp c = kp → vc_validatorID c = vid → rounds_ok (vc_rounds c) →
  ∃ s' w', (vote_Consume ev now c).1 = set_vc s' w' c ∧ effect kp vid (vc_rounds c) (vc_publisher c) s' w'.
Proof.
  intros Hkp Hvid Hok.
  assert (∃ s' w', c = set_vc s' w' c ∧ effect kp vid (vc_rounds c) (vc_publisher c) s' w') as Hnone.
  { exists (vc_rounds c), (vc_publisher c). split; [by destruct c|by apply effect_same]. }
  unfold vote_Consume. destruct (GetPayload unmarshal_vote ev) as [p|]; [|done].
  destruct (rs_load (vp_RoundID p) (vc_rounds c)) as [[]|r] eqn:Hr; try done. apply loaded in Hr; [|done].
  destruct (vc_weightFn c (vp_ValidatorID p)) as [stake|]; [|done]. destruct (verdictFromName (vp_Verdict p)) as [v|]; [|done].
  unfold round_IsTerminal. case_bool_decide as Hst; cycle 1.
  { by apply vote_apply_effect. }
  destruct (rs_save _ (vc_rounds c)) as [s' e] eqn:Hs.
  destruct (save_same r (RecordPostFinalizationVote r (vote_record p v stake)) _ s' e (vc_publisher c) kp vid Hok Hr
    (conj eq_refl eq_refl) eq_refl eq_refl Hs) as [He _].
  by exists s', (vc_publisher c).
Qed.

(** No other submission of the node has the round ID of this one. *)
Definition no_collision (e : EventID) : Prop := ∀ e', e' ∈ subs → NewRoundID e' = NewRoundID e → e' = e.

Lemma OpenRound_fields p r : OpenRound p = inr r →
  r_RoundID r = NewRoundID (p_SubmissionEventID p) ∧ r_SubmissionEventID r = p_SubmissionEventID p ∧ r_State r = RoundStateOpen.
Proof. unfold OpenRound. repeat (case_decide; [done|]). by intros [= <-]. Qed.

Lemma round_Consume_effect meta ver now ev s w :
  rounds_ok s → ID ev ∈ subs → no_collision (ID ev) → effect kp vid s w (round_Consume meta ver now ev s).1.1 w.
Proof.
  intros Hok Hin Hcol. assert (effect kp vid s w s w) as Hnone by by apply effect_same.
  unfold round_Consume. destruct (GetPayload _ ev) as [p|]; [|done]. case_decide; [done|].
  destruct (rs_load_sub (ID ev) s) as [[]|] eqn:Hl; try done. destruct (meta (sh_TaskID p)) as [[poster cat]|]; [|done].
  destruct (OpenRound _) as [|r] eqn:Hopen; [done|]. apply OpenRound_fields in Hopen as (Hid & Hsub & Hst). cbn in Hid, Hsub.
  destruct (rs_save r s) as [s' e] eqn:Hs.
  assert (well_formed r) as Hwf by (split_and!; rewrite ?Hid, ?Hsub; [done|done|by intros []]).
  destruct (save_round r s s' e Hok Hwf Hs) as (Hok' & _ & Htab).
  assert (table s !! r_RoundID r = None) as Hfresh.
  { unfold table. rewrite lookup_fmap. destruct (rs_view s !! r_RoundID r) as [r0|] eqn:Hr0; [|done]. exfalso.
    destruct (rk_sub s Hok _ _ Hr0) as [Hid0 Hsub0]. apply (rs_load_sub_missing _ _ _ _ (rk_ok s Hok) Hl Hr0).
    apply Hcol; [done|]. rewrite <- Hid0, <- Hid. by apply (rs_view_key s _ r0 (rk_ok s Hok)). }
  destruct e as [e|]; cbn; [by apply effect_same|]. apply effect_step; [done|]. rewrite Htab, Hst. by apply table_open.
Qed.

Lemma consensus_round_effect p s w : rounds_ok s → effect kp vid s w (consensus_round p s).1 w.
Proof.
  intros Hok. assert (effect kp vid s w s w) as Hnone by by apply effect_same.
  unfold consensus_round. destruct (rs_load (k_RoundID p) s) as [[]|r] eqn:Hl; try done. apply loaded in Hl; [|done].
  unfold round_IsTerminal. case_bool_decide as Hst; [done|].
  assert (r_State r = RoundStateOpen) as Hopen by done.
  set (v := parseConsensusVerdict (k_FinalVerdict p)).
  assert (consensusVerdictToState v = VerdictToState v) as -> by by destruct v.
  destruct (round_Transition r _ _) as [|r1] eqn:Htr; [done|]. destruct (rs_save _ s) as [s' e] eqn:Hs.
  destruct (finalize_effect kp vid r r v _ _ r1 s s' w e false Hok Hl Hopen (conj eq_refl eq_refl) Htr Hs) as [He _].
  by destruct e.
Qed.
End consumer_effects.

(** ** A node's history *)

Record NodeConfig := mkNode {
  nc_finalizer : FinalizerConfig;
  nc_kp : option KeyPair;
  nc_validatorID : AgentID;
  nc_extensionSeconds : Z;
}.

(** A tick of the checker, a vote, a submission, the event of another node's verdict;
    with what each reads of the rest of the node.

    An action runs from the load of its round to its last save without another action on the same round in between.
    The code does not enforce that: [SaveRound] and [DeleteRound] are the only steps under a lock, and the workers of the bus and
    the checker are goroutines of their own ([overlap_reopens_final] is an overlap that loses a final round). *)
Inductive RoundAction :=
  | ActTick (progress : option (P * option Z * Z)) (now total : Z) (clock : RoundID → Z)
  | ActVote (ev : Event) (now total : Z) (weightFn : AgentID → option Z)
  | ActSubmitted (ev : Event) (taskMeta : string → option (string * string)) (validatorVer now : Z)
  | ActConsensus (p : TaskVerificationConsensusPayload).

Definition node_step (cfg : NodeConfig) (sw : S * option W) (a : RoundAction) : S * option W :=
  let '(s, w) := sw in
  match a with
  | ActTick progress now total clock =>
      let d := dc_check now total clock (mkChecker s (nc_finalizer cfg) w (nc_kp cfg) (nc_validatorID cfg) (nc_extensionSeconds cfg) progress) in
      (dc_rounds d, dc_publisher d)
  | ActVote ev now total weightFn =>
      let c := (vote_Consume ev now (mkVoteConsumer s weightFn (Some (nc_finalizer cfg)) w (nc_kp cfg) (nc_validatorID cfg) (Some total))).1 in
      (vc_rounds c, vc_publisher c)
  | ActSubmitted ev taskMeta validatorVer now => ((round_Consume taskMeta validatorVer now ev s).1.1, w)
  | ActConsensus p => ((consensus_round p s).1, w)
  end.

Definition submitted_in_subs (a : RoundAction) : Prop :=
  match a with ActSubmitted ev _ _ _ => ID ev ∈ subs | _ => True end.

Lemma node_step_effect cfg s w a :
  (∀ e1 e2, e1 ∈ subs → e2 ∈ subs → NewRoundID e1 = NewRoundID e2 → e1 = e2) → submitted_in_subs a → rounds_ok s →
  effect (nc_kp cfg) (nc_validatorID cfg) s w (node_step cfg (s, w) a).1 (node_step cfg (s, w) a).2.
Proof.
  intros Hinj Hsub Hok. destruct a as [progress now total clock|ev now total weightFn|ev meta ver now|p].
  - cbn [node_step]. set (d := mkChecker s _ w _ _ _ progress).
    destruct (dc_check_effect d now total clock Hok) as (s' & w' & -> & He & _). exact He.
  - cbn [node_step]. set (c := mkVoteConsumer s weightFn _ w _ _ _).
    destruct (vote_Consume_effect (nc_kp cfg) (nc_validatorID cfg) ev now c eq_refl eq_refl Hok) as (s' & w' & -> & He). exact He.
  - apply round_Consume_effect; [done|done|]. intros e' He' Heq. by apply Hinj.
  - by apply consensus_round_effect.
Qed.

Lemma node_run_effect cfg acts s w :
  (∀ e1 e2, e1 ∈ subs → e2 ∈ subs → NewRoundID e1 = NewRoundID e2 → e1 = e2) → Forall submitted_in_subs acts → rounds_ok s →
  effect (nc_kp cfg) (nc_validatorID cfg) s w (foldl (node_step cfg) (s, w) acts).1 (foldl (node_step cfg) (s, w) acts).2.
Proof.
  intros Hinj Hsubs. revert s w. induction Hsubs as [|a acts Ha _ IH]; intros s w Hok; [by apply effect_same|]. cbn [foldl].
  pose proof (node_step_effect cfg s w a Hinj Ha Hok) as He.
  destruct (node_step cfg (s, w) a) as [s1 w1]. eapply effect_trans; [exact He|]. apply IH. apply He.
Qed.

Lemma rounds_ok_empty s : rs_ok s → rs_view s = ∅ → rounds_ok s.
Proof. intros Hok Hv. split; [done|..]; intros id r; by rewrite Hv, lookup_empty. Qed.

(** A finalized round later on. *)
Lemma effect_final kp vid s w s' w' id r :
  rounds_ok s → effect kp vid s w s' w' → rs_view s !! id = Some r → r_State r ≠ RoundStateOpen →
  ∃ r', rs_view s' !! id = Some r' ∧ r_State r' = r_State r ∧ r_FinalVerdict r' = r_FinalVerdict r.
Proof.
  intros Hok He Hr Hst. pose proof (table_final _ _ id _ (ef_steps _ _ _ _ _ _ He) (table_lookup s id r Hr) Hst) as Ht.
  unfold table in Ht. rewrite lookup_fmap in Ht. destruct (rs_view s' !! id) as [r'|] eqn:Hr'; [|done].
  injection Ht as Ht. exists r'. split_and!; [done|done|]. apply VerdictToState_inj.
  rewrite <- (rk_verdict s Hok id r Hr Hst), <- Ht. symmetry. apply (rk_verdict s' (ef_ok _ _ _ _ _ _ He) id r' Hr'). congruence.
Qed.
End effects.

(** * The properties *)

(** C5: on one node, as long as no two of them overlap on one round: whatever submissions, votes, other nodes' verdicts
    and ticks of the checker arrive in whatever order, and however often saving fails, a finalized round
    keeps its state and its verdict for good, and the node publishes an outcome at
    most once per round, only for a round that is stored as final, and with the stored
    verdict.  (Without overlap: from the load of a round to its last save no other action works on that round.  The code does not
    prevent overlaps, only [SaveRound] is locked, and an overlap can lose a final round, see [overlap_reopens_final].
    The IDs of the rounds of the node's submissions are assumed not to collide.) *)
Theorem rounds_final_once {S P W} `{!RoundStore S, !RoundEncoding, !RoundStoreLaws S, !SnapshotStore P, !ConsensusPublisher W,
    !JsonLib, !Ed25519, !ConsensusCodec, !RangeOrder, !RoundPayloads}
    (subs : gset EventID) (cfg : NodeConfig) (acts1 acts2 : list (RoundAction (P := P))) (s0 : S) (w0 : option W) :
  rs_ok s0 → rs_view s0 = ∅ →
  (∀ e1 e2, e1 ∈ subs → e2 ∈ subs → NewRoundID e1 = NewRoundID e2 → e1 = e2) →
  Forall (submitted_in_subs subs) (acts1 ++ acts2) →
  let sw1 := foldl (node_step cfg) (s0, w0) acts1 in
  let sw2 := foldl (node_step cfg) sw1 acts2 in
  (∀ id r, rs_view sw1.1 !! id = Some r → r_State r ≠ RoundStateOpen →
     ∃ r', rs_view sw2.1 !! id = Some r' ∧ r_State r' = r_State r ∧ r_FinalVerdict r' = r_FinalVerdict r)
  ∧ ∃ l, sw2.2 = foldl (emit (nc_kp cfg) (nc_validatorID cfg)) w0 l
      ∧ NoDup ((λ r : TaskVerificationRound, r_RoundID r) <$> l)
      ∧ Forall (λ r : TaskVerificationRound, r_State r ≠ RoundStateOpen
          ∧ ∃ r', rs_view sw2.1 !! r_RoundID r = Some r' ∧ r_State r' = r_State r ∧ r_FinalVerdict r' = r_FinalVerdict r) l.
Proof.
  intros Hok Hempty Hinj Hsubs sw1 sw2. pose proof (rounds_ok_empty subs s0 Hok Hempty) as Hok0.
  pose proof Hsubs as Hall. apply Forall_app in Hsubs as [Hsubs1 Hsubs2].
  pose proof (node_run_effect subs cfg acts1 s0 w0 Hinj Hsubs1 Hok0) as He1. fold sw1 in He1.
  pose proof (node_run_effect subs cfg acts2 sw1.1 sw1.2 Hinj Hsubs2 (ef_ok _ _ _ _ _ _ _ He1)) as He2.
  rewrite <- surjective_pairing in He2. fold sw2 in He2. split.
  - intros id r Hr Hst. exact (effect_final subs _ _ _ _ _ _ id r (ef_ok _ _ _ _ _ _ _ He1) He2 Hr Hst).
  - pose proof (effect_trans subs _ _ _ _ _ _ _ _ He1 He2) as [Hok2 _ (l & Hw & Hnd & Hf)].
    exists l. split_and!; [done|done|]. eapply Forall_impl; [exact Hf|]. intros r [[Ht Hv] _].
    assert (r_State r ≠ RoundStateOpen) as Hst by (rewrite Hv; apply VerdictToState_final). split; [done|].
    unfold table in Ht. rewrite lookup_fmap in Ht. destruct (rs_view sw2.1 !! r_RoundID r) as [r'|] eqn:Hr'; [|done].
    injection Ht as Ht. exists r'. split_and!; [done|done|]. apply VerdictToState_inj. rewrite <- Hv, <- Ht. symmetry.
    apply (rk_verdict subs _ Hok2 _ r' Hr'). congruence.
Qed.

(** C34: on a store that does not fail, one tick of the checker resolves every open
    round that is overdue: in the progress-aware mode every round whose backstop has
    passed, whatever the validators' leases, snapshots and votes are, and in the legacy
    mode every extended round whose extension has passed. *)
Theorem rounds_resolve {S P W} `{!RoundStore S, !RoundEncoding, !RoundStoreLaws S, !ReliableRounds S, !SnapshotStore P,
    !ConsensusPublisher W, !JsonLib, !Ed25519, !ConsensusCodec, !RangeOrder}
    (subs : gset EventID) (d : DeadlineChecker S P W) (now total : Z) (clock : RoundID → Z) id (r : TaskVerificationRound) :
  rounds_ok subs (dc_rounds d) → rs_view (dc_rounds d) !! id = Some r → r_State r = RoundStateOpen → overdue d now r →
  ∃ r', rs_view (dc_rounds (dc_check now total clock d)) !! id = Some r' ∧ r_State r' ≠ RoundStateOpen
    ∧ r_State r' = VerdictToState (r_FinalVerdict r').
Proof.
  intros Hok Hr Hopen Hdue. destruct (dc_check_effect subs d now total clock Hok) as (s' & w' & -> & He & Hres).
  destruct (Hres _ id r Hr Hopen Hdue) as (r' & Hr' & Hst). rewrite (rs_view_key _ id r (rk_ok _ _ Hok) Hr) in Hr'.
  exists r'. cbn. split_and!; [done|done|]. exact (rk_verdict _ _ (ef_ok _ _ _ _ _ _ _ He) id r' Hr' Hst).
Qed.

(** * A concrete node *)

Module DemoNode.
(** A store in memory; the events that were published. *)
Definition mem := gmap RoundID TaskVerificationRound.

#[global] Instance mem_rounds : RoundStore mem := {|
  rs_save r m := (<[r_RoundID r := canonical_round r]> m, None);
  rs_load id m := match m !! id with Some r => inr r | None => inl ErrRoundNotFound end;
  rs_load_sub e m :=
    match filter (λ kv : RoundID * TaskVerificationRound, r_SubmissionEventID kv.2 = e) (map_to_list m) with
    | kv :: _ => inr kv.2 | [] => inl ErrRoundNotFound end;
  rs_list st m := Some (filter (λ r, r_State r = st) (map_to_list m).*2);
|}.

#[global] Program Instance mem_encoding : RoundEncoding := {| rs_stored := canonical_round |}.
Solve All Obligations with done.

#[global] Instance mem_laws : RoundStoreLaws mem.
Proof.
  refine {| rs_ok (m : mem) := ∀ id (r : TaskVerificationRound), m !! id = Some r → r_RoundID r = id; rs_view (m : mem) := m |}.
  - intros m id r Hok. apply Hok.
  - intros r m m' Hok [= <-]. split; [|done]. intros id r0 [[<- <-]|[_ Hr0]]%lookup_insert_Some; [done|by apply Hok].
  - intros r m m' e Hok. done.
  - intros id m r _ Hl. cbn in Hl. destruct (m !! id) as [r0|] eqn:Hr; [|discriminate Hl]. injection Hl as <-. exact Hr.
  - intros id m _ Hl. cbn in Hl. destruct (m !! id) eqn:Hr; [discriminate Hl|exact Hr].
  - intros e m id r _ Hl Hr He. cbn in Hl.
    destruct (filter (λ kv : RoundID * TaskVerificationRound, r_SubmissionEventID kv.2 = e) (map_to_list m)) as [|kv l] eqn:Hf; [|done].
    assert ((id, r) ∈ filter (λ kv : RoundID * TaskVerificationRound, r_SubmissionEventID kv.2 = e) (map_to_list m)) as Hin.
    { apply list_elem_of_filter. split; [done|]. by apply elem_of_map_to_list. }
    rewrite Hf in Hin. by apply not_elem_of_nil in Hin.
  - intros st m l Hok [= <-]. split.
    + assert ((λ r : TaskVerificationRound, r_RoundID r) <$> (map_to_list m).*2 = (map_to_list m).*1) as Heq.
      { rewrite <- list_fmap_compose. apply list_fmap_ext. intros i [id r] Hi%list_elem_of_lookup_2.
        apply elem_of_map_to_list in Hi. by apply Hok. }
      apply (sublist_NoDup _ ((map_to_list m).*1)); [apply NoDup_fst_map_to_list|]. rewrite <- Heq.
      apply fmap_sublist, sublist_filter.
    + intros r. rewrite list_elem_of_filter, list_elem_of_fmap. split.
      * intros (Hst & [id r'] & -> & Hin). apply elem_of_map_to_list in Hin. cbn in *. by rewrite (Hok _ _ Hin).
      * intros [Hr Hst]. split; [done|]. exists (r_RoundID r, r). split; [done|]. by apply elem_of_map_to_list.
Defined.

#[global] Instance mem_reliable : ReliableRounds mem.
Proof. split; [done|]. intros st m. by eexists. Qed.

#[global] Instance log_publisher : ConsensusPublisher (list Event) := {| Publish ev w := (w ++ [ev], true) |}.
#[global] Instance demo_lib : JsonLib := sample_lib.
#[global] Instance demo_ed : Ed25519 := sample_ed.

(** A payload is the name of its author; a verdict's payload says what it decides. *)
#[global] Instance demo_consensus : ConsensusCodec := {|
  marshal_consensus p := Some (k_FinalVerdict p);
  unmarshal_consensus _ := None;
|}.

#[global] Instance demo_payloads : RoundPayloads := {|
  unmarshal_submitted_head s := Some (mkSubmittedHead "t1" s);
  unmarshal_round_head _ := Some (NewRoundID "sub1");
  unmarshal_vote s := Some (mkVotePayload (NewRoundID "sub1") s "pass" 8000 ∅ ("family " +:+ s) "" "" "" 1010);
|}.

Definition ev (id : EventID) (payload : string) : Event := mkEvent id "" None (Some payload) "" [] 0 0 SettlementOptimistic.

Definition cfg : NodeConfig := mkNode DefaultFinalizerConfig (Some sample_pair) (kp_AgentID sample_pair) 60.

Definition stakes (v : AgentID) : option Z :=
  if decide (v = "v1") then Some 40 else if decide (v = "v2") then Some 40 else if decide (v = "v3") then Some 20 else None.

Definition vote (v : AgentID) (now : Z) : RoundAction (P := MemorySnapshotStore) := ActVote (ev ("vote " +:+ v) v) now 100 stakes.

Definition submitted : RoundAction (P := MemorySnapshotStore) :=
  ActSubmitted (ev "sub1" "worker") (λ _, Some ("poster", "code")) 1 1000.

(** The votes decide the round; then a vote, a contrary verdict and a late tick arrive. *)
Definition acts1 : list (RoundAction (P := MemorySnapshotStore)) := [submitted; vote "v1" 1010; vote "v2" 1011; vote "v3" 1012].

Definition acts2 : list (RoundAction (P := MemorySnapshotStore)) :=
  [vote "v1" 1020;
   ActConsensus (mkConsensus (NewRoundID "sub1") "t1" "sub1" "thief" "poster" "fail" 0 0 0 0 0 [] false 0 1030);
   ActTick (Some (∅, Some 3, 300)) 2000 100 (λ _, 2000)].

Definition run1 := foldl (node_step cfg) (∅, Some []) acts1.

Example run1_published : length <$> run1.2 = Some 1%nat.
Proof. vm_compute. reflexivity. Qed.

Lemma run1_outcome :
  (λ r : TaskVerificationRound, (r_State r, r_FinalVerdict r)) <$> run1.1 !! NewRoundID "sub1" = Some (RoundStateFinalizedAccept, VerdictPass).
Proof. vm_compute. reflexivity. Qed.

Lemma run1_round : ∃ r, run1.1 !! NewRoundID "sub1" = Some r ∧ r_State r = RoundStateFinalizedAccept ∧ r_FinalVerdict r = VerdictPass.
Proof.
  pose proof run1_outcome as Hrun. apply fmap_Some_1 in Hrun as (r & Hr & Heq). exists r. split; [exact Hr|].
  injection Heq as Hst Hv. split; [by symmetry|by symmetry].
Qed.

(** The vote of [v2] loads the round, the checker's tick disputes it at the backstop, and then the vote is saved: the round is
    open again. *)
Definition one_vote := foldl (node_step cfg) (∅, Some []) [submitted; vote "v1" 1010].

Definition state_of (m : mem) : option RoundState := (λ r : TaskVerificationRound, r_State r) <$> m !! NewRoundID "sub1".

Example overlap_reopens_final :
  let ticked := (node_step cfg one_vote (ActTick (Some (∅, Some 3, 300)) 2000 100 (λ _, 2000))).1 in
  let voted := (node_step cfg one_vote (vote "v2" 2000)).1 in
  state_of ticked = Some RoundStateDisputed ∧ (λ r, state_of (rs_save r ticked).1) <$> voted !! NewRoundID "sub1" = Some (Some RoundStateOpen).
Proof. split; vm_compute; reflexivity. Qed.

(** A checker with a round that nobody voted on. *)
Definition idle : mem := (node_step cfg (∅, None) submitted).1.

Definition checker : DeadlineChecker mem MemorySnapshotStore (list Event) :=
  SetProgressAware ∅ (Some 3) 300 (NewDeadlineChecker idle DefaultFinalizerConfig (Some []) (Some sample_pair) "node" 60).

Lemma one_submission e1 e2 : e1 ∈ ({["sub1"]} : gset EventID) → e2 ∈ ({["sub1"]} : gset EventID) → NewRoundID e1 = NewRoundID e2 → e1 = e2.
Proof. intros ->%elem_of_singleton ->%elem_of_singleton. done. Qed.

Lemma empty_ok : rs_ok (∅ : mem).
Proof. intros id r Hr. exfalso. change ((∅ : gmap RoundID TaskVerificationRound) !! id = Some r) in Hr. by rewrite lookup_empty in Hr. Qed.

Lemma submitted_ok : submitted_in_subs {["sub1"]} submitted.
Proof. apply elem_of_singleton. reflexivity. Qed.

Lemma acts_ok : Forall (submitted_in_subs {["sub1"]}) (acts1 ++ acts2).
Proof.
  apply Forall_cons_2; [exact submitted_ok|]. do 6 (apply Forall_cons_2; [exact I|]). apply Forall_nil_2.
Qed.

Lemma idle_ok : rounds_ok {["sub1"]} idle.
Proof.
  pose proof (node_step_effect (W := list Event) {["sub1"]} cfg ∅ None submitted one_submission submitted_ok
    (rounds_ok_empty {["sub1"]} ∅ empty_ok eq_refl)) as He.
  exact (ef_ok _ _ _ _ _ _ _ He).
Qed.
End DemoNode.

Lemma rounds_final_once_witness :
  ∃ r', (foldl (node_step DemoNode.cfg) DemoNode.run1 DemoNode.acts2).1 !! NewRoundID "sub1" = Some r'
    ∧ r_State r' = RoundStateFinalizedAccept ∧ r_FinalVerdict r' = VerdictPass.
Proof.
  destruct (rounds_final_once (W := list Event) {["sub1"]} DemoNode.cfg DemoNode.acts1 DemoNode.acts2 ∅ (Some [])
    DemoNode.empty_ok eq_refl DemoNode.one_submission DemoNode.acts_ok) as [Hfinal _].
  destruct DemoNode.run1_round as (r & Hr & Hst & Hv).
  destruct (Hfinal (NewRoundID "sub1") r Hr) as (r' & Hr' & Hst' & Hv').
  - rewrite Hst. discriminate.
  - exists r'. split; [exact Hr'|]. rewrite Hst', Hv'. split; [exact Hst|exact Hv].
Defined.

Lemma rounds_resolve_witness :
  ∃ r', dc_rounds (dc_check 1300 100 (λ _, 1300) DemoNode.checker) !! NewRoundID "sub1" = Some r' ∧ r_State r' ≠ RoundStateOpen.
Proof.
  destruct (DemoNode.idle !! NewRoundID "sub1") as [r|] eqn:Hr; [|vm_compute in Hr; discriminate Hr].
  destruct (rounds_resolve {["sub1"]} DemoNode.checker 1300 100 (λ _, 1300) (NewRoundID "sub1") r DemoNode.idle_ok Hr) as (r' & Hr' & Hst & _).
  - vm_compute in Hr. injection Hr as <-. reflexivity.
  - vm_compute in Hr. injection Hr as <-. vm_compute. split; [reflexivity|discriminate].
  - exists r'. split; [exact Hr'|exact Hst].
Defined.

(** * Findings *)

Section findings.
Context {S P W : Type} `{!RoundStore S, !ConsensusPublisher W}.
Context {lib : JsonLib} {ed : Ed25519} {codec : ConsensusCodec} {order : RangeOrder} {payloads : RoundPayloads}.

(** The author of a vote event is never looked at: a vote counts for whichever
    validator its payload names. *)
Lemma vote_author_ignored (e1 e2 : Event) now (c : VoteConsumer S W) : Payload e1 = Payload e2 → vote_Consume e1 now c = vote_Consume e2 now c.
Proof. intros Heq. unfold vote_Consume, GetPayload. by rewrite Heq. Qed.
End findings.

(** The event of another node is believed: it passes a round nobody voted on. *)
Lemma consensus_believed :
  let forged := mkConsensus (NewRoundID "sub1") "" "" "" "" "pass" 10000 0 0 0 0 [] false 0 1001 in
  (λ r : TaskVerificationRound, (r_State r, r_Votes r)) <$> (consensus_round forged DemoNode.idle).1 !! NewRoundID "sub1"
  = Some (RoundStateFinalizedAccept, []).
Proof. vm_compute. reflexivity. Qed.

(** Snapshots are counted, not validators: with the claims of failure of one validator
    under three families, a round of three validators is disputed at once. *)
Lemma one_validator_ends_round :
  let failed f := mkSnap (NewRoundID "sub1") "v1" f ProgressPhaseFailed 1001 1001 0 1 0 0 "" in
  let snaps : MemorySnapshotStore := mem_Put (failed "f1") (mem_Put (failed "f2") (mem_Put (failed "f3") ∅)) in
  let d := SetProgressAware snaps (Some 3) 300
             (NewDeadlineChecker DemoNode.idle DefaultFinalizerConfig (Some []) (Some sample_pair) "node" 60) in
  (λ r : TaskVerificationRound, r_State r) <$> dc_rounds (dc_check 1002 100 (λ _, 1002) d) !! NewRoundID "sub1"
  = Some RoundStateDisputed.
Proof. vm_compute. reflexivity. Qed.

(** A vote that comes after the verdict is kept with the votes that led to it. *)
Lemma late_vote_kept (r : TaskVerificationRound) v : v ∈ r_Votes (RecordPostFinalizationVote r v).
Proof. cbn. set_solver. Qed.
