(* ===== verification/Royalty.v ===== *)
(** internal/settlement/generation_ledger_calculator.go, and the splitting of a pool that
    the settler shares with it: who gets which part of an amount, in float64 shares of
    which the last one is what is left.

    The traversal of the cited events is bounded by [queue_size], the number of paths of
    at most three references, and [traverse_total] shows that to be enough. *)

From Stdlib Require Import QArith Lqa Qround.
From stdpp Require Import sets fin_sets.
From S2P Require Import Prelude GoStd Event Float64.
#[local] Open Scope Z_scope.

(** * Splitting a pool *)

Section splitting.
Context {conv : F64Conv}.

(** The loops that give every recipient [uint64(float64(pool) * (w / total))] and the
    last one what is left. *)
Fixpoint weighted_shares (pool : Z) (total : F64) (allocated : Z) (weights : list F64) : list Z :=
  match weights with
  | [] => []
  | w :: rest =>
      let amount := match rest with [] => u64 (pool - allocated) | _ => f64_share pool (f64_div w total) end in
      amount :: weighted_shares pool total (u64 (allocated + amount)) rest
  end.

Fixpoint even_shares (pool perValidator distributed : Z) (n : nat) : list Z :=
  match n with
  | O => []
  | S n' =>
      let amount := match n' with O => u64 (pool - distributed) | _ => perValidator end in
      amount :: even_shares pool perValidator (u64 (distributed + amount)) n'
  end.

(** [if amount > 0 { payouts[id] = amount }], in the order of the list. *)
Definition payouts_of (shares : list (AgentID * Z)) : gmap AgentID Z :=
  foldl (λ m kv, if decide (kv.2 > 0) then <[kv.1 := kv.2]> m else m) ∅ shares.

Definition f64_sum (ws : list F64) : F64 := foldl f64_add (mkF64 0 1) ws.

Definition f64_is_zero (f : F64) : bool := bool_decide (f64_num f = 0).

(** * Royalties *)

Record GenerationLedgerCalculator := mkCalculator {
  gc_dag : option (EventID → option Event);
  gc_qualityFn : EventID → F64;
}.

Record RoyaltyRecipient := mkRecipient {
  rr_EventID : EventID;
  rr_AgentID : AgentID;
  rr_Depth : Z;
  rr_Weight : F64;
  rr_Amount : Z;
}.

Record GenerationLedgerDistribution := mkGenDist {
  gd_Recipients : list RoyaltyRecipient;
  gd_Treasury : Z;
  gd_Total : Z;
}.

Definition GenerationLedgerMaxDepth : nat := 3.

Record ancestor := mkAncestor { an_id : EventID; an_agentID : AgentID; an_depth : nat; an_weight : F64 }.

(** [if !seen { queue = append(queue, ...); visited[ref] = struct{}{} }], over the references. *)
Definition enqueue (depth : nat) (refs : list EventID) (vq : gset EventID * list (EventID * nat)) : gset EventID * list (EventID * nat) :=
  foldl (λ vq ref, if decide (ref ∈ vq.1) then vq else ({[ref]} ∪ vq.1, vq.2 ++ [(ref, depth)])) vq refs.

Section calculator.
Variables (dag : EventID → option Event) (qualityFn : EventID → F64).

Definition ancestor_weight (id : EventID) (depth : nat) : F64 :=
  f64_mul (f64_div f64_one (f64_of_u64 (Z.of_nat depth * Z.of_nat depth))) (qualityFn id).

(** The loop over the queue; [None] when the fuel runs out. *)
Fixpoint traverse (fuel : nat) (visited : gset EventID) (queue : list (EventID * nat)) (ancestors : list ancestor) :
    option (list ancestor) :=
  match queue, fuel with
  | [], _ => Some ancestors
  | _, O => None
  | (id, depth) :: queue, S fuel =>
      if decide (GenerationLedgerMaxDepth < depth)%nat then traverse fuel visited queue ancestors
      else match dag id with
      | None => traverse fuel visited queue ancestors
      | Some ev =>
          let ancestors := ancestors ++ [mkAncestor id (AgentID_ ev) depth (ancestor_weight id depth)] in
          let '(visited, queue) :=
            if decide (depth < GenerationLedgerMaxDepth)%nat then enqueue (S depth) (CausalRefs ev) (visited, queue)
            else (visited, queue) in
          traverse fuel visited queue ancestors
      end
  end.

(** The number of paths of [n] references that start at an event: the fuel. *)
Fixpoint tree_size (n : nat) (id : EventID) : nat :=
  match n with
  | O => 1
  | S n' => S (sum_list_with (tree_size n') (match dag id with Some ev => CausalRefs ev | None => [] end))
  end.

Definition queue_size (queue : list (EventID * nat)) : nat :=
  sum_list_with (λ q, tree_size (GenerationLedgerMaxDepth - q.2) q.1) queue.

Definition ancestors_of (root : EventID) (ev : Event) : option (list ancestor) :=
  let '(visited, queue) := enqueue 1 (CausalRefs ev) ({[root]}, []) in traverse (queue_size queue) visited queue [].
End calculator.

Definition royalty (total : F64) (a : ancestor) (amount : Z) : RoyaltyRecipient :=
  mkRecipient (an_id a) (an_agentID a) (Z.of_nat (an_depth a)) (f64_div (an_weight a) total) amount.

(** The distribution among the ancestors. *)
Definition royalties (pool : Z) (ancestors : list ancestor) : GenerationLedgerDistribution :=
  let total := f64_sum (an_weight <$> ancestors) in
  if decide (ancestors = []) then mkGenDist [] pool pool
  else if f64_is_zero total then mkGenDist [] pool pool
  else
    let shares := weighted_shares pool total 0 (an_weight <$> ancestors) in
    let allocated := u64 (sum_list_Z shares) in
    mkGenDist (zip_with (royalty total) ancestors shares) (if decide (allocated < pool) then pool - allocated else 0) pool.

Definition Calculate (g : GenerationLedgerCalculator) (acceptedTaskEventID : EventID) (poolMicroAET : Z) :
    GenerationLedgerDistribution :=
  match gc_dag g with
  | None => mkGenDist [] poolMicroAET poolMicroAET
  | Some dag =>
      if decide (poolMicroAET = 0) then mkGenDist [] poolMicroAET poolMicroAET
      else match dag acceptedTaskEventID with
      | None => mkGenDist [] poolMicroAET poolMicroAET
      | Some ev => royalties poolMicroAET (default [] (ancestors_of dag (gc_qualityFn g) acceptedTaskEventID ev))
      end
  end.
End splitting.

(** * Splitting is exact

    The doubles may round every share up; while the pool times the number of shares
    stays below 2^53 the shares still do not exceed the pool. *)

Definition sum_Qs (ws : list F64) : Q := foldr (λ w q, f64_Q w + q)%Q 0%Q ws.

Lemma sum_Qs_nonneg ws : Forall f64_ok ws → (0 <= sum_Qs ws)%Q.
Proof. induction 1 as [|w ws Hw _ IH]; cbn [sum_Qs foldr]; [lra|]. pose proof (f64_ok_Q w Hw). fold (sum_Qs ws). lra. Qed.

Lemma f64_fold_Q ws acc : Forall f64_ok ws → f64_ok acc → Z.of_nat (length ws) <= 2 ^ 53 →
  f64_ok (foldl f64_add acc ws)
  ∧ ((f64_Q acc + sum_Qs ws) * (1 - inject_Z (Z.of_nat (length ws)) * ulp) <= f64_Q (foldl f64_add acc ws))%Q.
Proof.
  intros Hws. revert acc. induction Hws as [|w ws Hw Hws IH]; intros acc Hacc Hlen.
  { cbn [foldl length sum_Qs foldr]. split; [done|]. change (inject_Z (Z.of_nat 0)) with 0%Q. unfold ulp. lra. }
  cbn [foldl sum_Qs foldr length] in *. fold (sum_Qs ws). destruct (f64_add_Q acc w Hacc Hw) as [Hok [Hlo _]].
  destruct (IH (f64_add acc w) Hok ltac:(lia)) as [Hok' Hb]. split; [done|].
  eapply Qle_trans; [|exact Hb]. clear Hb IH.
  assert (inject_Z (Z.of_nat (S (length ws))) == inject_Z (Z.of_nat (length ws)) + 1)%Q as ->
    by (rewrite Nat2Z.inj_succ, <- Z.add_1_r, inject_Z_plus; reflexivity).
  assert (0 <= inject_Z (Z.of_nat (length ws)))%Q as Hn0 by (change 0%Q with (inject_Z 0); rewrite <- Zle_Qle; lia).
  assert (inject_Z (Z.of_nat (length ws)) <= 9007199254740991)%Q as Hn1.
  { change 9007199254740991%Q with (inject_Z 9007199254740991). rewrite <- Zle_Qle. change (2 ^ 53) with 9007199254740992 in Hlen. lia. }
  set (n := inject_Z (Z.of_nat (length ws))) in *. pose proof (f64_ok_Q _ Hacc) as H1. pose proof (f64_ok_Q _ Hw) as H2.
  pose proof (sum_Qs_nonneg ws Hws) as H3. set (A := f64_Q acc) in *. set (B := f64_Q w) in *. set (C := sum_Qs ws) in *.
  set (D := f64_Q (f64_add acc w)) in *.
  assert (0 <= 1 - n * ulp)%Q as Hk by (unfold ulp; lra).
  apply (Qle_trans _ (((A + B) * (1 - ulp) + C) * (1 - n * ulp))); [|apply Qmult_le_compat_r; [lra|done]].
  assert (0 <= (A + B) * (n * ulp * ulp))%Q as Hx by (apply Qmult_le_0_compat; [lra|apply Qmult_le_0_compat; unfold ulp; lra]).
  assert (0 <= C * ulp)%Q as Hy by (apply Qmult_le_0_compat; unfold ulp; lra).
  lra.
Qed.

Lemma f64_of_u64_exact_Q x : 0 <= x <= 2 ^ 53 → f64_ok (f64_of_u64 x) ∧ (f64_Q (f64_of_u64 x) == inject_Z x)%Q.
Proof.
  intros Hx. destruct (f64_of_u64_exact x Hx) as [Hd Hn]. split; [split; [done|nia]|].
  unfold f64_Q, Qeq, inject_Z. cbn [Qnum Qden]. rewrite Z2Pos.id by done. lia.
Qed.

Section exact.
Context {conv : F64Conv}.

Lemma share_bound pool total w :
  0 <= pool <= 2 ^ 53 → f64_ok w → f64_ok total → 0 < f64_num total → (f64_Q w <= 2 * f64_Q total)%Q →
  let s := f64_share pool (f64_div w total) in
  0 <= s ∧ (inject_Z s <= inject_Z pool * (f64_Q w / f64_Q total) * (1 + 3 * ulp))%Q.
Proof.
  intros Hp Hw Ht Hnt Hwt s. destruct (f64_of_u64_exact_Q pool Hp) as [Hpok HpQ].
  destruct (f64_div_Q w total Hw Ht Hnt) as [Hrok [_ Hr]]. destruct (f64_mul_Q _ _ Hpok Hrok) as [Hmok [_ Hm]].
  destruct (f64_trunc_Q _ Hmok) as [Ht0 Htr]. unfold s, f64_share, f64_to_u64. set (t := f64_trunc _) in *. clearbody t.
  rewrite HpQ in Hm. pose proof (f64_ok_Q _ Hrok) as HR0. set (R := f64_Q (f64_div w total)) in *.
  assert (0 < f64_Q total)%Q as HT.
  { destruct Ht as [Hd _]. unfold f64_Q, Qlt. cbn. lia. }
  assert (0 <= f64_Q w / f64_Q total)%Q as HX0 by (apply Qle_shift_div_l; [done|]; pose proof (f64_ok_Q _ Hw); lra).
  assert (f64_Q w / f64_Q total <= 2)%Q as HX2 by (apply Qle_shift_div_r; [done|lra]).
  set (X := (f64_Q w / f64_Q total)%Q) in *.
  assert (0 <= inject_Z pool)%Q as HP0 by (change 0%Q with (inject_Z 0); rewrite <- Zle_Qle; lia).
  assert (inject_Z pool <= 9007199254740992)%Q as HP1.
  { change 9007199254740992%Q with (inject_Z 9007199254740992). rewrite <- Zle_Qle. change (2 ^ 53) with 9007199254740992 in Hp. lia. }
  set (P := inject_Z pool) in *.
  assert (P * R <= P * (X * (1 + ulp)))%Q as H1 by (rewrite !(Qmult_comm P); apply Qmult_le_compat_r; done).
  assert (0 <= P * X)%Q as H2 by (apply Qmult_le_0_compat; done).
  assert (inject_Z t <= P * X * (1 + 3 * ulp))%Q as Hb.
  { eapply Qle_trans; [exact Htr|]. eapply Qle_trans; [exact Hm|].
    eapply Qle_trans; [apply (Qmult_le_compat_r _ (P * (X * (1 + ulp)))); [exact H1|unfold ulp; lra]|]. unfold ulp. lra. }
  assert (P * X <= 9007199254740992 * 2)%Q as H3.
  { apply (Qle_trans _ (P * 2)); [rewrite !(Qmult_comm P); by apply Qmult_le_compat_r|lra]. }
  assert (t < 2 ^ 64) as Hlt.
  { change (2 ^ 64) with 18446744073709551616 in *. enough (inject_Z t < inject_Z 18446744073709551616)%Q as Hq by by rewrite <- Zlt_Qlt in Hq.
    change (inject_Z 18446744073709551616) with 18446744073709551616%Q.
    assert (P * X * (1 + 3 * ulp) <= 18014398509481984 + 6)%Q by (unfold ulp; lra). 
    eapply Qle_lt_trans; [exact Hb|]. lra. }
  rewrite decide_True by (unfold is_u64, u64_mod; change (2 ^ 64) with 18446744073709551616 in *; lia). done.
Qed.

(** The shares of the weights of a list that add up to at most [total], up to rounding. *)
Lemma shares_sum pool total ws :
  0 <= pool <= 2 ^ 53 → Forall f64_ok ws → f64_ok total → 0 < f64_num total → (sum_Qs ws <= 2 * f64_Q total)%Q →
  let shares := (λ w, f64_share pool (f64_div w total)) <$> ws in
  Forall (λ s, 0 <= s) shares
  ∧ (inject_Z (sum_list_Z shares) <= inject_Z pool * (sum_Qs ws / f64_Q total) * (1 + 3 * ulp))%Q.
Proof.
  intros Hp Hws Ht Hnt.
  assert (0 < f64_Q total)%Q as HT by (destruct Ht as [Hd _]; unfold f64_Q, Qlt; cbn; lia).
  assert (¬ f64_Q total == 0)%Q as HT0 by lra.
  induction Hws as [|w ws Hw Hws IH]; intros Hsum.
  { split; [constructor|]. cbn [sum_Qs foldr fmap list_fmap sum_list_Z]. change (inject_Z 0) with 0%Q.
    assert (inject_Z pool * (0 / f64_Q total) * (1 + 3 * ulp) == 0)%Q as -> by (field; exact HT0). lra. }
  cbn [sum_Qs foldr] in Hsum. fold (sum_Qs ws) in Hsum.
  pose proof (f64_ok_Q w Hw). pose proof (sum_Qs_nonneg ws Hws).
  destruct (IH ltac:(lra)) as [IH1 IH2]. destruct (share_bound pool total w Hp Hw Ht Hnt ltac:(lra)) as [Hs1 Hs2].
  cbn [fmap list_fmap]. split; [by apply Forall_cons_2|].
  change (sum_list_Z (?x :: ?l)) with (x + sum_list_Z l). rewrite inject_Z_plus. cbn [sum_Qs foldr]. fold (sum_Qs ws).
  assert (inject_Z pool * ((f64_Q w + sum_Qs ws) / f64_Q total) * (1 + 3 * ulp)
    == inject_Z pool * (f64_Q w / f64_Q total) * (1 + 3 * ulp) + inject_Z pool * (sum_Qs ws / f64_Q total) * (1 + 3 * ulp))%Q
    as -> by (field; exact HT0).
  apply Qplus_le_compat; [exact Hs2|exact IH2].
Qed.

(** With the sum of the weights itself as the total, they do not exceed the pool. *)
Lemma shares_within pool ws :
  Forall f64_ok ws → 0 < pool → (pool + 1) * (Z.of_nat (length ws) + 3) < 2 ^ 53 →
  f64_is_zero (f64_sum ws) = false →
  let shares := (λ w, f64_share pool (f64_div w (f64_sum ws))) <$> ws in
  Forall (λ s, 0 <= s) shares ∧ sum_list_Z shares <= pool.
Proof.
  intros Hws Hp Hlen Hz shares. unfold f64_is_zero in Hz. apply bool_decide_eq_false in Hz.
  set (n := Z.of_nat (length ws)) in *.
  assert (pool + 1 + n < 2 ^ 53 ∧ pool * (n + 3) + n + 3 < 2 ^ 53) as [Hsmall Hprod] by nia.
  change (2 ^ 53) with 9007199254740992 in Hlen, Hsmall, Hprod.
  destruct (f64_fold_Q ws (mkF64 0 1) Hws ltac:(done)) as [Hok Hlo]; [change (2 ^ 53) with 9007199254740992; lia|].
  fold (f64_sum ws) in Hok, Hlo. fold n in Hlo. change (f64_Q (mkF64 0 1)) with 0%Q in Hlo.
  set (T := f64_sum ws) in *. assert (0 < f64_num T) as HnT by (destruct Hok; lia).
  assert (0 < f64_Q T)%Q as HT by (destruct Hok as [Hd _]; unfold f64_Q, Qlt; cbn; lia).
  pose proof (sum_Qs_nonneg ws Hws) as HS0. 
  assert (0 <= inject_Z n)%Q as HN0 by (change 0%Q with (inject_Z 0); rewrite <- Zle_Qle; lia).
  assert (0 <= inject_Z pool)%Q as HP0 by (change 0%Q with (inject_Z 0); rewrite <- Zle_Qle; lia).
  assert (inject_Z pool * (inject_Z n + 3) + inject_Z n + 3 < 9007199254740992)%Q as HPN.
  { change 9007199254740992%Q with (inject_Z 9007199254740992). change 3%Q with (inject_Z 3).
    rewrite <- !inject_Z_plus, <- inject_Z_mult, <- !inject_Z_plus, <- Zlt_Qlt. lia. }
  assert (inject_Z n + inject_Z pool < 9007199254740991)%Q as HNs.
  { change 9007199254740991%Q with (inject_Z 9007199254740991). rewrite <- inject_Z_plus, <- Zlt_Qlt. lia. }
  assert (n * 2 <= 9007199254740992) as Hn2 by nia.
  assert (inject_Z n * 2 <= 9007199254740992)%Q as HN2.
  { change 9007199254740992%Q with (inject_Z 9007199254740992). change 2%Q with (inject_Z 2). rewrite <- inject_Z_mult, <- Zle_Qle. lia. }
  set (N := inject_Z n) in *. set (S := sum_Qs ws) in *.
  assert (S * (1 - N * ulp) <= f64_Q T)%Q as Hlo' by lra. clear Hlo.
  assert (1 # 2 <= 1 - N * ulp)%Q as Hhalf by (unfold ulp; lra).
  assert (S <= 2 * f64_Q T)%Q as H2T.
  { assert (S * (1 # 2) <= S * (1 - N * ulp))%Q as Hx by (rewrite !(Qmult_comm S); by apply Qmult_le_compat_r). lra. }
  destruct (shares_sum pool T ws ltac:(change (2 ^ 53) with 9007199254740992; lia) Hws Hok HnT H2T) as [Hpos Hb].
  fold shares in Hpos, Hb. split; [done|].
  enough (inject_Z (sum_list_Z shares) < inject_Z (pool + 1))%Q as Hlt by (rewrite <- Zlt_Qlt in Hlt; lia).
  eapply Qle_lt_trans; [exact Hb|]. rewrite inject_Z_plus. change (inject_Z 1) with 1%Q. set (P := inject_Z pool) in *.
  fold S. assert (S / f64_Q T <= / (1 - N * ulp))%Q as HX.
  { apply Qle_shift_div_r; [done|]. rewrite Qmult_comm. apply Qle_shift_div_l; [lra|]. done. }
  assert (0 <= / (1 - N * ulp))%Q as HI0 by (apply Qinv_le_0_compat; lra).
  apply (Qle_lt_trans _ (P * / (1 - N * ulp) * (1 + 3 * ulp))).
  { apply Qmult_le_compat_r; [|unfold ulp; lra]. rewrite !(Qmult_comm P). by apply Qmult_le_compat_r. }
  assert (P * / (1 - N * ulp) * (1 + 3 * ulp) == P * (1 + 3 * ulp) / (1 - N * ulp))%Q as -> by (field; lra).
  apply Qlt_shift_div_r; [lra|].
  assert (P * (N + 3) * ulp < 1 - N * ulp)%Q as Hfin.
  { assert (P * (N + 3) + N < 9007199254740992)%Q as Hy by lra. unfold ulp. lra. }
  lra.
Qed.
End exact.

(** ** The shares of a pool add up to it *)

Section sums.
Context {conv : F64Conv}.

Lemma weighted_shares_sum pool total allocated ws :
  ws ≠ [] → is_u64 pool → 0 <= allocated →
  let shares := (λ w, f64_share pool (f64_div w total)) <$> ws in
  Forall (λ s, 0 <= s) shares → allocated + sum_list_Z shares <= pool →
  let out := weighted_shares pool total allocated ws in
  length out = length ws ∧ Forall (λ s, 0 <= s <= pool) out ∧ sum_list_Z out = pool - allocated.
Proof.
  intros Hne Hu Ha. revert allocated Ha. induction ws as [|w ws IH]; intros allocated Ha shares Hpos Hle; [done|].
  subst shares. cbn [fmap list_fmap] in Hpos, Hle. apply Forall_cons in Hpos as [Hw Hpos].
  assert (0 <= sum_list_Z ((λ w, f64_share pool (f64_div w total)) <$> ws)) as Hrest
    by (clear -Hpos; induction Hpos as [|x l Hx _ IHl]; cbn; [done|unfold sum_list_Z in IHl; lia]).
  change (sum_list_Z (?x :: ?l)) with (x + sum_list_Z l) in Hle. set (s := f64_share pool (f64_div w total)) in *.
  unfold is_u64 in Hu. destruct ws as [|w' ws].
  - cbn [weighted_shares]. cbn in Hle. rewrite u64_small by (unfold is_u64; lia). split_and!; [done| |cbn; lia].
    apply Forall_singleton. lia.
  - cbn zeta. set (ws' := w' :: ws) in *. change (weighted_shares pool total allocated (w :: ws'))
      with (s :: weighted_shares pool total (u64 (allocated + s)) ws').
    rewrite u64_small by (unfold is_u64; lia).
    destruct (IH ltac:(done) (allocated + s) ltac:(lia) Hpos ltac:(lia)) as (Hlen & Hall & Hsum).
    cbn [length]. split_and!; [by rewrite Hlen|apply Forall_cons_2; [lia|done]|].
    change (sum_list_Z (?x :: ?l)) with (x + sum_list_Z l). lia.
Qed.

Lemma even_shares_sum pool pv distributed n :
  n ≠ O → is_u64 pool → 0 <= distributed → 0 <= pv → distributed + Z.of_nat n * pv <= pool →
  let out := even_shares pool pv distributed n in
  length out = n ∧ Forall (λ s, 0 <= s <= pool) out ∧ sum_list_Z out = pool - distributed.
Proof.
  intros Hne Hu. revert distributed. induction n as [|n IH]; intros d Hd Hpv Hle; [done|]. unfold is_u64 in Hu.
  destruct n as [|n].
  - cbn [even_shares]. rewrite u64_small by (unfold is_u64; lia). split_and!; [done| |cbn; lia]. apply Forall_singleton. lia.
  - cbn zeta. change (even_shares pool pv d (S (S n))) with (pv :: even_shares pool pv (u64 (d + pv)) (S n)).
    rewrite u64_small by (unfold is_u64; nia).
    destruct (IH ltac:(done) (d + pv) ltac:(lia) Hpv ltac:(lia)) as (Hlen & Hall & Hsum).
    cbn [length]. split_and!; [by rewrite Hlen|apply Forall_cons_2; [nia|done]|].
    change (sum_list_Z (?x :: ?l)) with (x + sum_list_Z l). lia.
Qed.

(** A map of payouts: nothing is paid twice, and everything is unless two shares go to
    the same agent. *)
Lemma payouts_fold (m : gmap AgentID Z) (l : list (AgentID * Z)) :
  map_Forall (λ _, λ x : Z, 0 < x) m → Forall (λ s, 0 <= s) l.*2 →
  let m' := foldl (λ m kv, if decide (kv.2 > 0) then <[kv.1 := kv.2]> m else m) m l in
  map_Forall (λ _, λ x : Z, 0 < x) m'
  ∧ map_sum id m' <= map_sum id m + sum_list_Z l.*2
  ∧ (NoDup l.*1 → (∀ k, k ∈ l.*1 → m !! k = None) → map_sum id m' = map_sum id m + sum_list_Z l.*2).
Proof.
  revert m. induction l as [|[k x] l IH]; intros m Hm Hl; cbn [foldl fmap list_fmap fst snd] in *.
  { split_and!; [done|cbn; lia|cbn; lia]. }
  apply Forall_cons in Hl as [Hx Hl]. change (sum_list_Z (x :: l.*2)) with (x + sum_list_Z l.*2).
  destruct (decide (x > 0)) as [Hx0|Hx0].
  - assert (map_Forall (λ _, λ x : Z, 0 < x) (<[k := x]> m)) as Hm'.
    { intros j y [[_ <-]|[_ Hj]]%lookup_insert_Some; [lia|by apply (Hm j)]. }
    destruct (IH (<[k := x]> m) Hm' Hl) as (H1 & H2 & H3).
    assert (map_sum id (<[k := x]> m) <= map_sum id m + x ∧ (m !! k = None → map_sum id (<[k := x]> m) = map_sum id m + x)) as [H4 H5].
    { destruct (m !! k) as [y|] eqn:Hk.
      - rewrite (map_sum_update id m k y x Hk). specialize (Hm k y Hk). unfold id. split; [cbn in Hm; lia|done].
      - rewrite map_sum_insert by done. unfold id. split; [lia|intros _; lia]. }
    split_and!; [done|lia|]. intros [Hk Hnd]%NoDup_cons Hnone. rewrite H3, H5; [lia|apply Hnone; left|done|].
    intros j Hj. rewrite lookup_insert_ne by set_solver. apply Hnone. by right.
  - assert (x = 0) as -> by lia. destruct (IH m Hm Hl) as (H1 & H2 & H3). split_and!; [done|lia|].
    intros [Hk Hnd]%NoDup_cons Hnone. rewrite H3; [lia|done|]. intros j Hj. apply Hnone. by right.
Qed.

Lemma payouts_of_sum (l : list (AgentID * Z)) :
  Forall (λ s, 0 <= s) l.*2 →
  map_Forall (λ _, λ x : Z, 0 < x) (payouts_of l) ∧ map_sum id (payouts_of l) <= sum_list_Z l.*2
  ∧ (NoDup l.*1 → map_sum id (payouts_of l) = sum_list_Z l.*2).
Proof.
  intros Hl. destruct (payouts_fold ∅ l ltac:(apply map_Forall_empty) Hl) as (H1 & H2 & H3).
  rewrite map_sum_empty, Z.add_0_l in H2, H3. split_and!; [done|done|]. intros Hnd. by apply H3.
Qed.
End sums.

(** * The traversal *)

Section traversal.
Context (dag : EventID → option Event) (qualityFn : EventID → F64).
Implicit Types (q : list (EventID * nat)).

Lemma enqueue_spec depth refs v q :
  ∃ new, enqueue depth refs (v, q) = (list_to_set new ∪ v, q ++ ((λ r, (r, depth)) <$> new))
    ∧ NoDup new ∧ (∀ x, x ∈ new → x ∉ v ∧ x ∈ refs) ∧ sublist new refs.
Proof.
  unfold enqueue. revert v q. induction refs as [|r refs IH]; intros v q.
  { exists []. cbn. rewrite app_nil_r. split_and!; [f_equal; set_solver|constructor|set_solver|constructor]. }
  cbn [foldl fst snd]. destruct (decide (r ∈ v)) as [Hr|Hr].
  - destruct (IH v q) as (new & -> & Hnd & Hin & Hsub). exists new. split_and!; [done|done|set_solver|by apply sublist_cons].
  - destruct (IH ({[r]} ∪ v) (q ++ [(r, depth)])) as (new & -> & Hnd & Hin & Hsub). exists (r :: new).
    rewrite <- app_assoc. split_and!; [cbn; f_equal; set_solver| |set_solver|by apply sublist_skip].
    apply NoDup_cons. split; [|done]. intros Hr'. apply Hin in Hr'. set_solver.
Qed.

Lemma tree_size_pos n id : (1 <= tree_size dag n id)%nat.
Proof. destruct n; cbn; lia. Qed.

Lemma sum_list_with_sublist {A} (f : A → nat) l1 l2 : sublist l1 l2 → (sum_list_with f l1 <= sum_list_with f l2)%nat.
Proof. induction 1; cbn; lia. Qed.

Lemma enqueue_size depth refs v q :
  (queue_size dag (enqueue depth refs (v, q)).2
   <= queue_size dag q + sum_list_with (tree_size dag (GenerationLedgerMaxDepth - depth)) refs)%nat.
Proof.
  destruct (enqueue_spec depth refs v q) as (new & -> & _ & _ & Hsub). cbn [snd]. unfold queue_size.
  rewrite sum_list_with_app. apply Nat.add_le_mono_l.
  etrans; [|by apply (sum_list_with_sublist _ new)]. clear Hsub. induction new as [|x new IH]; cbn [fmap list_fmap sum_list_with fst snd]; lia.
Qed.

(** The fuel is enough. *)
Lemma traverse_total fuel v q acc : (queue_size dag q <= fuel)%nat → is_Some (traverse dag qualityFn fuel v q acc).
Proof.
  revert v q acc. induction fuel as [|fuel IH]; intros v [|[id depth] q] acc Hle; cbn [traverse]; try by eexists.
  { exfalso. unfold queue_size in Hle. cbn [sum_list_with fst snd] in Hle. pose proof (tree_size_pos (GenerationLedgerMaxDepth - depth) id). lia. }
  unfold queue_size in Hle. cbn [sum_list_with fst snd] in Hle. fold (queue_size dag q) in Hle.
  pose proof (tree_size_pos (GenerationLedgerMaxDepth - depth) id) as Hpos.
  case_decide; [apply IH; lia|]. destruct (dag id) as [ev|] eqn:Hev; [|apply IH; lia].
  destruct (decide (depth < GenerationLedgerMaxDepth)%nat) as [Hd|]; [|apply IH; lia].
  pose proof (enqueue_size (S depth) (CausalRefs ev) v q) as Hs.
  destruct (enqueue (S depth) (CausalRefs ev) (v, q)) as [v' q']. cbn [snd] in Hs. apply IH.
  assert (GenerationLedgerMaxDepth - depth = S (GenerationLedgerMaxDepth - S depth))%nat as Heq by lia.
  rewrite Heq in Hle. cbn [tree_size] in Hle. rewrite Hev in Hle. lia.
Qed.

(** An ancestor's parent relation. *)
Definition cites (a b : EventID) : Prop := ∃ ev, dag a = Some ev ∧ b ∈ CausalRefs ev.

Context (root : EventID).

Definition ancestor_ok (a : ancestor) : Prop :=
  (1 <= an_depth a <= GenerationLedgerMaxDepth)%nat ∧ nsteps cites (an_depth a) root (an_id a)
  ∧ an_weight a = ancestor_weight qualityFn (an_id a) (an_depth a) ∧ ∃ ev, dag (an_id a) = Some ev ∧ AgentID_ ev = an_agentID a.

Record traverse_inv (v : gset EventID) q (acc : list ancestor) : Prop := {
  ti_visited x : x ∈ root :: (an_id <$> acc) ++ q.*1 → x ∈ v;
  ti_nodup : NoDup (root :: (an_id <$> acc) ++ q.*1);
  ti_queue id d : (id, d) ∈ q → (1 <= d)%nat ∧ nsteps cites d root id;
  ti_acc : Forall ancestor_ok acc;
}.

Lemma enqueue_inv a ev depth v q acc :
  traverse_inv v q acc → dag a = Some ev → nsteps cites depth root a →
  traverse_inv (enqueue (S depth) (CausalRefs ev) (v, q)).1 (enqueue (S depth) (CausalRefs ev) (v, q)).2 acc.
Proof.
  intros [Hv Hnd Hq Ha] Hev Hpath. destruct (enqueue_spec (S depth) (CausalRefs ev) v q) as (new & -> & Hnn & Hin & _). cbn [fst snd].
  assert ((q ++ ((λ r, (r, S depth)) <$> new)).*1 = q.*1 ++ new) as Heq.
  { rewrite fmap_app, <- list_fmap_compose. f_equal. apply list_fmap_id. }
  split; [| | |done]; rewrite ?Heq.
  - intros x Hx. specialize (Hv x). set_solver.
  - rewrite app_assoc, app_comm_cons. apply NoDup_app. split_and!; [done| |done]. intros x Hx Hnew. apply Hin in Hnew. naive_solver.
  - intros id d [Hd|Hd]%elem_of_app; [by apply Hq|]. apply list_elem_of_fmap in Hd as (r & [= -> ->] & Hr). split; [lia|].
    replace (S depth) with (depth + 1)%nat by lia. eapply nsteps_trans; [exact Hpath|]. apply nsteps_once. exists ev. split; [done|]. by apply Hin.
Qed.

Lemma traverse_spec fuel v q acc out :
  traverse_inv v q acc → traverse dag qualityFn fuel v q acc = Some out → NoDup (root :: (an_id <$> out)) ∧ Forall ancestor_ok out.
Proof.
  revert v q acc. induction fuel as [|fuel IH]; intros v [|[id depth] q] acc Hinv Hrun; cbn [traverse] in Hrun; try done;
    try (injection Hrun as <-; destruct Hinv as [_ Hnd _ Ha]; cbn in Hnd; by rewrite app_nil_r in Hnd).
  destruct Hinv as [Hv Hnd Hq Ha].
  assert (traverse_inv v q acc) as Hskip.
  { split; [set_solver| |set_solver|done]. cbn [fmap list_fmap fst] in Hnd.
    rewrite app_comm_cons in Hnd. apply NoDup_app in Hnd as (H1 & H2 & [_ H3]%NoDup_cons). rewrite app_comm_cons. apply NoDup_app. set_solver. }
  destruct (Hq id depth ltac:(left)) as [Hd1 Hpath].
  case_decide as Hdeep; [by eapply IH|]. destruct (dag id) as [ev|] eqn:Hev; [|by eapply IH].
  set (a := mkAncestor id (AgentID_ ev) depth (ancestor_weight qualityFn id depth)) in Hrun.
  assert (traverse_inv v q (acc ++ [a])) as Hadd.
  { split.
    - intros x Hx. apply Hv. rewrite fmap_app in Hx. cbn in Hx. set_solver.
    - rewrite fmap_app. cbn [fmap list_fmap fst] in Hnd |- *. by rewrite <- app_assoc.
    - intros id' d' Hin. apply Hq. by right.
    - apply Forall_app. split; [done|]. apply Forall_singleton. split_and!; [cbn; lia|cbn; lia|done|done|]. by exists ev. }
  destruct (decide (depth < GenerationLedgerMaxDepth)%nat); [|by eapply IH].
  pose proof (enqueue_inv id ev depth v q _ Hadd Hev Hpath) as Hen.
  destruct (enqueue (S depth) (CausalRefs ev) (v, q)) as [v' q']. by eapply IH.
Qed.

Lemma ancestors_of_spec ev : dag root = Some ev →
  ∃ out, ancestors_of dag qualityFn root ev = Some out ∧ NoDup (root :: (an_id <$> out)) ∧ Forall ancestor_ok out.
Proof.
  intros Hev. unfold ancestors_of.
  assert (traverse_inv {[root]} [] []) as H0.
  { split; cbn; [set_solver|apply NoDup_singleton|set_solver|constructor]. }
  pose proof (enqueue_inv root ev 0 {[root]} [] [] H0 Hev ltac:(constructor)) as H1.
  destruct (enqueue 1 (CausalRefs ev) ({[root]}, [])) as [v q]. cbn [fst snd] in H1.
  destruct (traverse_total (queue_size dag q) v q [] ltac:(done)) as [out Hout]. exists out. split; [done|]. by eapply traverse_spec.
Qed.
End traversal.

(** * The royalties of a pool *)

Section royalty_sums.
Context {conv : F64Conv}.

End royalty_sums.

Lemma zip_with_fields {A B C D} (f : A → B → C) (h : C → D) (k : A → D) l out :
  (∀ x y, h (f x y) = k x) → (length l <= length out)%nat → h <$> zip_with f l out = k <$> l.
Proof.
  intros Hf. revert out. induction l as [|x l IH]; intros [|y out] Hl; cbn in *; try done; [lia|]. rewrite Hf. f_equal. apply IH. lia.
Qed.

Section royalty_sums.
Context {conv : F64Conv}.

Lemma depth_square_positive d : (1 <= d <= 3)%nat → f64_ok (f64_of_u64 (Z.of_nat d * Z.of_nat d)) ∧ 0 < f64_num (f64_of_u64 (Z.of_nat d * Z.of_nat d)).
Proof. intros Hd. destruct d as [|[|[|[|d]]]]; try lia; vm_compute; split_and!; done. Qed.

Lemma ancestor_weight_ok (quality : EventID → F64) id d :
  (∀ e, f64_ok (quality e)) → (1 <= d <= 3)%nat → f64_ok (ancestor_weight quality id d).
Proof.
  intros Hq Hd. unfold ancestor_weight. destruct (depth_square_positive d Hd) as [Hok Hpos].
  destruct (f64_div_Q f64_one _ ltac:(done) Hok Hpos) as [Hdiv _]. by destruct (f64_mul_Q _ _ Hdiv (Hq id)) as [Hm _].
Qed.

Lemma royalties_sum pool (l : list ancestor) :
  Forall f64_ok (an_weight <$> l) → is_u64 pool → pool ≠ 0 →
  (pool + 1) * (Z.of_nat (length (gd_Recipients (royalties pool l))) + 3) < 2 ^ 53 →
  let dist := royalties pool l in
  sum_list_Z (rr_Amount <$> gd_Recipients dist) + gd_Treasury dist = pool ∧ 0 <= gd_Treasury dist
  ∧ Forall (λ r, 0 <= rr_Amount r <= pool) (gd_Recipients dist)
  ∧ (gd_Recipients dist = [] ∨ (rr_EventID <$> gd_Recipients dist = an_id <$> l) ∧ (rr_AgentID <$> gd_Recipients dist = an_agentID <$> l)
     ∧ (rr_Depth <$> gd_Recipients dist = (λ a, Z.of_nat (an_depth a)) <$> l)).
Proof.
  intros Hws Hu Hp0. unfold royalties. set (total := f64_sum (an_weight <$> l)).
  destruct (decide (l = [])) as [->|Hne]; [intros _; cbn; split_and!; [lia|unfold is_u64 in Hu; lia|constructor|by left]|].
  destruct (f64_is_zero total) eqn:Hz; [intros _; cbn; split_and!; [lia|unfold is_u64 in Hu; lia|constructor|by left]|].
  cbn [gd_Recipients gd_Treasury]. set (out := weighted_shares pool total 0 (an_weight <$> l)).
  assert (length out = length l) as Hlen.
  { unfold out. generalize total, 0. clear. intros t. induction l as [|a l IH]; intros z; [done|].
    cbn [fmap list_fmap weighted_shares length]. by rewrite IH. }
  assert (length (zip_with (royalty total) l out) = length l) as Hzl by (rewrite length_zip_with_l; [done|by rewrite Hlen]).
  rewrite Hzl. intros Hb. unfold is_u64 in Hu.
  destruct (shares_within pool (an_weight <$> l) Hws ltac:(lia) ltac:(by rewrite length_fmap) Hz) as [H1 H2].
  destruct (weighted_shares_sum pool total 0 (an_weight <$> l)) as (_ & H4 & H5); [by destruct l|done|done|exact H1|fold total in H2; lia|].
  fold out in H4, H5. rewrite Z.sub_0_r in H5.
  assert (rr_Amount <$> zip_with (royalty total) l out = out) as Ha.
  { apply fmap_zip_with_r; [done|lia]. }
  rewrite H5, u64_small, decide_False by (unfold is_u64; lia). rewrite Ha. split_and!; [lia|done| |].
  - apply Forall_forall. intros r Hr. rewrite Forall_forall in H4. apply H4. rewrite <- Ha. apply list_elem_of_fmap. by exists r.
  - right. split_and!; apply zip_with_fields; try done; lia.
Qed.

Lemma Calculate_sum g id pool :
  (∀ e, f64_ok (gc_qualityFn g e)) → is_u64 pool →
  (pool + 1) * (Z.of_nat (length (gd_Recipients (Calculate g id pool))) + 3) < 2 ^ 53 →
  let dist := Calculate g id pool in
  sum_list_Z (rr_Amount <$> gd_Recipients dist) + gd_Treasury dist = pool ∧ 0 <= gd_Treasury dist
  ∧ Forall (λ r, 0 <= rr_Amount r <= pool) (gd_Recipients dist).
Proof.
  intros Hq Hu. assert (0 <= pool) as H0 by (unfold is_u64 in Hu; lia).
  unfold Calculate. destruct (gc_dag g) as [dag|]; [|intros _; cbn; split_and!; [lia|lia|constructor]].
  case_decide as Hp; [intros _; cbn; split_and!; [lia|lia|constructor]|].
  destruct (dag id) as [ev|] eqn:Hev; [|intros _; cbn; split_and!; [lia|lia|constructor]].
  destruct (ancestors_of_spec dag (gc_qualityFn g) id ev Hev) as (l & -> & _ & Hl). cbn [default]. intros Hb.
  destruct (royalties_sum pool l) as (H1 & H2 & H3 & _); [|done|done|exact Hb|done].
  apply Forall_fmap. eapply Forall_impl; [exact Hl|]. intros a (Hd & _ & Hw & _). cbn. rewrite Hw. by apply ancestor_weight_ok.
Qed.
End royalty_sums.

(** * The property *)

(** C36: the royalties of a pool: every recipient is a distinct event other than the
    accepted one, reached from it by as many references as its depth says, at most
    three; the shares and what is left for the treasury add up to the pool.  (For qualities that are finite and not negative, and for
    n recipients of a pool with (pool + 1) * (n + 3) < 2^53, where the float shares cannot exceed the pool; beyond,
    they can, and the subtraction from the pool wraps, see [large_pool_wraps].) *)
Theorem royalties_exact {conv : F64Conv} (g : GenerationLedgerCalculator) (submission : EventID) (pool : Z) :
  (∀ e, f64_ok (gc_qualityFn g e)) → is_u64 pool →
  (pool + 1) * (Z.of_nat (length (gd_Recipients (Calculate g submission pool))) + 3) < 2 ^ 53 →
  let dist := Calculate g submission pool in
  sum_list_Z (rr_Amount <$> gd_Recipients dist) + gd_Treasury dist = pool
  ∧ NoDup (submission :: (rr_EventID <$> gd_Recipients dist))
  ∧ ∀ r, r ∈ gd_Recipients dist → ∃ dag n ev, gc_dag g = Some dag ∧ rr_Depth r = Z.of_nat n ∧ (1 <= n <= 3)%nat
      ∧ nsteps (cites dag) n submission (rr_EventID r) ∧ dag (rr_EventID r) = Some ev ∧ AgentID_ ev = rr_AgentID r.
Proof.
  intros Hq Hu Hb dist. split; [by apply Calculate_sum|].
  assert (gd_Recipients dist = [] → NoDup (submission :: (rr_EventID <$> gd_Recipients dist))
    ∧ ∀ r, r ∈ gd_Recipients dist → ∃ dag n ev, gc_dag g = Some dag ∧ rr_Depth r = Z.of_nat n ∧ (1 <= n <= 3)%nat
      ∧ nsteps (cites dag) n submission (rr_EventID r) ∧ dag (rr_EventID r) = Some ev ∧ AgentID_ ev = rr_AgentID r) as Hnil.
  { intros ->. split; [apply NoDup_singleton|]. intros r Hr. by apply not_elem_of_nil in Hr. }
  unfold dist, Calculate in *. destruct (gc_dag g) as [dag|] eqn:Hdag; [|by apply Hnil]. case_decide as Hp; [by apply Hnil|].
  destruct (dag submission) as [ev|] eqn:Hev; [|by apply Hnil].
  destruct (ancestors_of_spec dag (gc_qualityFn g) submission ev Hev) as (l & Hl & Hnd & Hall). rewrite Hl in *. change (default [] (Some l)) with l in *.
  destruct (royalties_sum pool l) as (_ & _ & _ & Hfields); [|done|done|exact Hb|].
  { apply Forall_fmap. eapply Forall_impl; [exact Hall|]. intros a (Hd & _ & Hw & _). cbn. rewrite Hw. by apply ancestor_weight_ok. }
  destruct Hfields as [Hempty|(Hids & Hagents & Hdepths)]; [by apply Hnil|]. split; [by rewrite Hids|].
  intros r Hr. apply list_elem_of_lookup in Hr as [i Hi].
  assert ((rr_EventID <$> gd_Recipients (royalties pool l)) !! i = Some (rr_EventID r)) as H1 by by rewrite list_lookup_fmap, Hi.
  assert ((rr_AgentID <$> gd_Recipients (royalties pool l)) !! i = Some (rr_AgentID r)) as H2 by by rewrite list_lookup_fmap, Hi.
  assert ((rr_Depth <$> gd_Recipients (royalties pool l)) !! i = Some (rr_Depth r)) as H3 by by rewrite list_lookup_fmap, Hi.
  rewrite Hids, list_lookup_fmap in H1. rewrite Hagents, list_lookup_fmap in H2. rewrite Hdepths, list_lookup_fmap in H3.
  destruct (l !! i) as [an|] eqn:Hai; [|done]. cbn in H1, H2, H3. injection H1 as <-. injection H2 as <-. injection H3 as <-.
  rewrite Forall_lookup in Hall. destruct (Hall i an Hai) as (Hd & Hpath & _ & ev' & Hev' & Hag).
  exists dag, (an_depth an), ev'. split_and!; try done; apply Hd.
Qed.

(** The submission cites an event of Alice, which cites one of [bob]. *)
Module DemoRoyalty.
#[global] Instance zero_conv : F64Conv.
Proof. refine {| u64_out_of_range _ := 0 |}. done. Defined.

Definition cited (agent : AgentID) (refs : list EventID) : Event := mkEvent "" "TaskSubmitted" (Some refs) None agent [] 0 0 SettlementOptimistic.

Definition dag (bob : AgentID) (id : EventID) : option Event :=
  if decide (id = "sub1") then Some (cited "worker" ["a"])
  else if decide (id = "a") then Some (cited "alice" ["b"])
  else if decide (id = "b") then Some (cited bob [])
  else None.

Definition calculator (bob : AgentID) : GenerationLedgerCalculator := mkCalculator (Some (dag bob)) (λ _, f64_one).
End DemoRoyalty.

Lemma royalties_exact_witness :
  let dist := Calculate (DemoRoyalty.calculator "bob") "sub1" 4000 in
  (λ r, (rr_EventID r, rr_Amount r)) <$> gd_Recipients dist = [("a", 3200); ("b", 800)]
  ∧ sum_list_Z (rr_Amount <$> gd_Recipients dist) + gd_Treasury dist = 4000.
Proof.
  split; [vm_compute; reflexivity|].
  destruct (royalties_exact (DemoRoyalty.calculator "bob") "sub1" 4000) as [Hsum _].
  - intros e. change (f64_ok f64_one). split; reflexivity || discriminate.
  - by vm_compute.
  - by vm_compute.
  - exact Hsum.
Defined.

(** A pool of 2^53 + 3 has no exact double: the first share is rounded above it, and the last one, with no weight, is what wraps around. *)
Example large_pool_wraps :
  let g := mkCalculator (Some (DemoRoyalty.dag "bob")) (λ e, if decide (e = "a") then f64_one else mkF64 0 1) in
  let dist := Calculate g "sub1" (2 ^ 53 + 3) in
  rr_Amount <$> gd_Recipients dist = [2 ^ 53 + 4; 2 ^ 64 - 1].
Proof. vm_compute. reflexivity. Qed.
