(* ===== verification/Settlement.v ===== *)
(** internal/settlement (verification_consensus_settler.go, funding_transfer_lookup.go) and dispatch/tv_consensus_consumer.go: how a task's budget
    is paid out when its verification round has a verdict.

    The settler is composed of the task manager (Tasks), the escrow (Escrow), which
    moves the money, and the round (TaskRound) whose votes it pays.  Its consumer is a
    [Consumer] of the dispatcher.  A call takes one reading of the clock. *)

From Stdlib Require Import QArith Lqa Qround.
From stdpp Require Import sets fin_sets fin_map_dom.
From S2P Require Import Prelude GoStd Store Event Float64 Accounts Transfer Escrow Jcs Dispatch Assurance Tasks RoundProgress TaskRound RoundStore RoundFlow Royalty.
#[local] Open Scope Z_scope.

(** * The funding transfer *)

Definition is_escrow_lock `{!PayloadCodec} (taskID : string) (poster : AgentID) (amount : Z) (e : Event) : bool :=
  bool_decide (Type_ e = EventTypeTransfer)
  && match GetPayload unmarshal_transfer e with
     | None => false
     | Some tp => bool_decide (tp_Reason tp = "escrow-lock") && bool_decide (tp_FromAgent tp = poster)
         && bool_decide (tp_ToAgent tp = "escrow:" +:+ taskID) && bool_decide (tp_Amount tp = amount)
         && bool_decide (tp_TaskID tp = taskID)
     end.

(** [LookupEscrowLockTransfer]: the first match of [scanner.All()]. *)
Definition LookupEscrowLockTransfer `{!PayloadCodec} (all : list Event) (taskID : string) (poster : AgentID) (amount : Z) :
    option EventID := ID <$> List.find (is_escrow_lock taskID poster amount) all.

(** * The settler *)

Definition workerShareBP : Z := 7300.
Definition validatorShareBP : Z := 2300.
Definition generationShareBP : Z := 200.
Definition treasuryShareBP : Z := 200.

(** [budget * shareBP / 10000]. *)
Definition share_bp (budget bp : Z) : Z := u64 (budget * bp) / 10000.

Inductive SettleError :=
  | SettleTaskNotFound
  | SettleNoScanner
  | SettleNoFunding
  | SettleRegister (e : EscrowError)
  | SettleEscrowGet
  | SettleRelease (e : EscrowError)
  | SettleTaskState (e : TaskError)
  | SettleUnknownVerdict (v : string).

Record SettleResult := mkResult {
  sr_Applied : bool;
  sr_AlreadyApplied : bool;
  sr_Verdict : string;
  sr_WorkerPayout : Z;
  sr_PosterRefund : Z;
  sr_ValidatorPayouts : gmap AgentID Z;
  sr_GenerationLedger : GenerationLedgerDistribution;
  sr_TreasuryAmount : Z;
  sr_TotalDistributed : Z;
}.

Definition no_gen : GenerationLedgerDistribution := mkGenDist [] 0 0.

(** The configuration of [VerificationConsensusSettler]. *)
Record SettlerConfig := mkSettlerConfig {
  sc_dagScanner : option (list Event);
  sc_genLedger : option GenerationLedgerCalculator;
  sc_treasuryID : AgentID;
  sc_qScoreFn : option (AgentID → string → string → F64);
}.

(** [collectAgreeingValidators]. *)
Definition collectAgreeingValidators (round : TaskVerificationRound) (verdict : Verdict) : list AgentID :=
  foldl (λ result v, if decide (v_Verdict v = verdict ∧ v_ValidatorID v ∉ result) then result ++ [v_ValidatorID v] else result)
    [] (r_Votes round).

Section settler.
Context {L Err StE StT WC : Type} `{!BucketLedger L Err, !PayloadCodec, !Persistence StE EscrowEntry}.
Context {conv : F64Conv} {tcodec : TaskCodec} `{!Persistence StT (string * string), !CanaryInjector WC} {order : RangeOrder}.

(** The parts of the node that settling changes. *)
Record SettlerState := mkSettler {
  ss_tasks : TaskManager StT WC;
  ss_escrow : Escrow L StE;
}.

Definition computeValidatorPayouts (cfg : SettlerConfig) (recipients : list AgentID) (pool : Z) (category : string) : gmap AgentID Z :=
  if decide (recipients = [] ∨ pool = 0) then ∅
  else
    let weights := (λ v, match sc_qScoreFn cfg with Some q => q v "" category | None => f64_one end) <$> recipients in
    let totalQ := f64_sum weights in
    if f64_is_zero totalQ then
      let n := length recipients in
      payouts_of (zip recipients (even_shares pool (pool / Z.of_nat n) 0 n))
    else payouts_of (zip recipients (weighted_shares pool totalQ 0 weights)).

(** The pool of the agreeing validators: their payouts, and what goes to the treasury. *)
Definition validator_split (cfg : SettlerConfig) (round : TaskVerificationRound) (verdict : Verdict) (pool : Z) : gmap AgentID Z * Z :=
  let agreeing := collectAgreeingValidators round verdict in
  if decide (agreeing = []) then (∅, pool) else (computeValidatorPayouts cfg agreeing pool (r_Category round), 0).

Definition royalty_split (cfg : SettlerConfig) (submission : EventID) (genPool : Z) : gmap AgentID Z * Z * GenerationLedgerDistribution :=
  match sc_genLedger cfg with
  | None => (∅, genPool, no_gen)
  | Some g =>
      let dist := Calculate g submission genPool in
      (payouts_of ((λ r, (rr_AgentID r, rr_Amount r)) <$> gd_Recipients dist), gd_Treasury dist, dist)
  end.

(** The arguments of [ReleaseSettlement] in [settleAccept], [settleReject] and
    [settleDispute], with the royalty distribution. *)
Definition accept_distribution (cfg : SettlerConfig) (budget : Z) (p : TaskVerificationConsensusPayload) (round : TaskVerificationRound) :
    Distribution * GenerationLedgerDistribution :=
  let workerAmount := share_bp budget workerShareBP in
  let validatorPool := share_bp budget validatorShareBP in
  let genPool := share_bp budget generationShareBP in
  let treasuryAmount := u64 (budget - workerAmount - validatorPool - genPool) in
  let '(validators, rest) := validator_split cfg round VerdictPass validatorPool in
  let '(genRecipients, genRest, dist) := royalty_split cfg (k_SubmissionEventID p) genPool in
  (mkDistribution (k_WorkerID p) workerAmount (k_PosterID p) 0 validators genRecipients (sc_treasuryID cfg)
     (u64 (u64 (treasuryAmount + rest) + genRest)), dist).

Definition reject_distribution (cfg : SettlerConfig) (budget : Z) (p : TaskVerificationConsensusPayload) (round : TaskVerificationRound) :
    Distribution :=
  let posterAmount := share_bp budget workerShareBP in
  let validatorPool := share_bp budget validatorShareBP in
  let treasuryAmount := u64 (budget - posterAmount - validatorPool) in
  let '(validators, rest) := validator_split cfg round VerdictFail validatorPool in
  mkDistribution "" 0 (k_PosterID p) posterAmount validators ∅ (sc_treasuryID cfg) (u64 (treasuryAmount + rest)).

Definition dispute_distribution (cfg : SettlerConfig) (budget : Z) (p : TaskVerificationConsensusPayload) : Distribution :=
  let workerPortion := share_bp budget workerShareBP in
  let workerAmount := workerPortion / 2 in
  mkDistribution (k_WorkerID p) workerAmount (k_PosterID p) (workerPortion - workerAmount) ∅ ∅ (sc_treasuryID cfg)
    (u64 (budget - workerPortion)).

(** The common end of the three: release, resolve the task, report. *)
Definition settle_with (taskID verdict : string) (scoreBP : Z) (roundID : string) (d : Distribution) (dist : GenerationLedgerDistribution)
    (now : Z) (s : SettlerState) : SettlerState * SettleResult * option SettleError :=
  let vorder := omap (λ k, pair k <$> d_validators d !! k) (range_set (dom (d_validators d))) in
  let gorder := omap (λ k, pair k <$> d_genRecipients d !! k) (range_set (dom (d_genRecipients d))) in
  let result applied := mkResult applied false verdict (d_workerAmount d) (d_posterRefundAmount d) (d_validators d) dist
    (d_treasuryAmount d)
    (if applied : bool then
       u64 (d_workerAmount d + d_posterRefundAmount d + wrapped_sum id (d_validators d)
            + sum_list_Z (rr_Amount <$> gd_Recipients dist) + d_treasuryAmount d) else 0) in
  match esc_ReleaseSettlement taskID d vorder gorder now (ss_escrow s) with
  | (e, inl err) =>
      (mkSettler (ss_tasks s) e, mkResult false false verdict 0 0 (d_validators d) dist 0 0, Some (SettleRelease err))
  | (e, inr _) =>
      let '(m, err) := tm_ApplyVerificationConsensusResolution taskID verdict scoreBP roundID now (ss_tasks s) in
      match err with
      | Some err => (mkSettler m e, result false, Some (SettleTaskState err))
      | None => (mkSettler m e, result true, None)
      end
  end.

Definition settle_verdict (cfg : SettlerConfig) (budget : Z) (p : TaskVerificationConsensusPayload) (round : TaskVerificationRound)
    (now : Z) (s : SettlerState) : SettlerState * SettleResult * option SettleError :=
  if decide (k_FinalVerdict p = "pass") then
    let '(d, dist) := accept_distribution cfg budget p round in
    settle_with (k_TaskID p) "pass" (k_FinalScoreBP p) (k_RoundID p) d dist now s
  else if decide (k_FinalVerdict p = "fail") then
    settle_with (k_TaskID p) "fail" 0 (k_RoundID p) (reject_distribution cfg budget p round) no_gen now s
  else if decide (k_FinalVerdict p = "abstain") then
    settle_with (k_TaskID p) "abstain" 0 (k_RoundID p) (dispute_distribution cfg budget p) no_gen now s
  else (s, mkResult false false (k_FinalVerdict p) 0 0 ∅ no_gen 0 0, Some (SettleUnknownVerdict (k_FinalVerdict p))).

(** The escrowed entry, registered from the funding transfer when it is missing. *)
Definition settle_entry (cfg : SettlerConfig) (taskID : string) (task : Task) (s : SettlerState) : SettlerState * (SettleError + EscrowEntry) :=
  match (esc_Get taskID (ss_escrow s)).2 with
  | inr entry => (s, inr entry)
  | inl _ =>
      if esc_IsLocked (ss_escrow s) taskID then (s, inl SettleEscrowGet)
      else match sc_dagScanner cfg with
      | None => (s, inl SettleNoScanner)
      | Some all =>
          match LookupEscrowLockTransfer all taskID (t_PosterID task) (t_Budget task) with
          | None => (s, inl SettleNoFunding)
          | Some fundingRef =>
              match esc_RegisterEscrow taskID (t_PosterID task) (t_Budget task) fundingRef (ss_escrow s) with
              | (e, inl err) => (mkSettler (ss_tasks s) e, inl (SettleRegister err))
              | (e, inr _) =>
                  match (esc_Get taskID e).2 with
                  | inl _ => (mkSettler (ss_tasks s) e, inl SettleEscrowGet)
                  | inr entry => (mkSettler (ss_tasks s) e, inr entry)
                  end
              end
          end
      end
  end.

Definition Settle (cfg : SettlerConfig) (p : TaskVerificationConsensusPayload) (round : TaskVerificationRound) (now : Z) (s : SettlerState) :
    SettlerState * SettleResult * option SettleError :=
  let result applied := mkResult false applied (k_FinalVerdict p) 0 0 ∅ no_gen 0 0 in
  match tm_Get (k_TaskID p) (ss_tasks s) with
  | inl _ => (s, result false, Some SettleTaskNotFound)
  | inr task =>
      if terminal (t_Status task) then (s, result true, None)
      else match settle_entry cfg (k_TaskID p) task s with
      | (s, inl err) => (s, result false, Some err)
      | (s, inr entry) => settle_verdict cfg (ee_Amount entry) p round now s
      end
  end.

(** * The consumer of the dispatcher *)

(** What it works on: the settler, the store of rounds and a clock. *)
Context {S : Type} `{!RoundStore S} {ccodec : ConsensusCodec}.

Record SettleWorld := mkWorld {
  wd_settler : SettlerState;
  wd_rounds : S;
  wd_now : Z;
}.

(** Whether the task is in a state in which [Apply] and [Settle] do nothing. *)
Definition task_terminal (taskID : string) (m : TaskManager StT WC) : bool :=
  match tm_Get taskID m with inr task => terminal (t_Status task) | inl _ => false end.

Inductive TVApplyError := ErrTVUnmarshal | ErrTVLoad (e : TVError) | ErrTVSettle (e : SettleError).

Definition tv_Apply (cfg : SettlerConfig) (ev : Event) (w : SettleWorld) : SettleWorld * option TVApplyError :=
  match GetPayload unmarshal_consensus ev with
  | None => (w, Some ErrTVUnmarshal)
  | Some p =>
      if task_terminal (k_TaskID p) (ss_tasks (wd_settler w)) then (w, None)
      else if esc_HasSettlementStarted (ss_escrow (wd_settler w)) (k_TaskID p) then (w, None)
      else match rs_load (k_RoundID p) (wd_rounds w) with
      | inl e => (w, Some (ErrTVLoad e))
      | inr round =>
          let '(s, _, err) := Settle cfg p round (wd_now w) (wd_settler w) in
          (mkWorld s (wd_rounds w) (wd_now w), ErrTVSettle <$> err)
      end
  end.

Definition tv_RecoveryProbe (ev : Event) (w : SettleWorld) : option RecoveryStatus :=
  match GetPayload unmarshal_consensus ev with
  | None => Some RecoveryNotStarted
  | Some p =>
      match tm_Get (k_TaskID p) (ss_tasks (wd_settler w)) with
      | inl _ => Some RecoveryNotStarted
      | inr task =>
          match t_Status task with
          | TaskStatusCompleted | TaskStatusRejected | TaskStatusDisputedResolved => Some RecoveryCompleted
          | _ => Some RecoveryNotStarted
          end
      end
  end.

(** [TVConsensusConsumer] as the dispatcher sees it. *)
Definition TVConsensusConsumer (cfg : SettlerConfig) : Consumer SettleWorld :=
  mkConsumer "tv_consensus_settlement" TypeA (λ ev, bool_decide (Type_ ev = EventTypeTaskVerificationConsensus))
    (λ ev w, let '(w', err) := tv_Apply cfg ev w in (w', bool_decide (err = None)))
    tv_RecoveryProbe (λ _, []) 1.
End settler.
#[global] Arguments SettlerState : clear implicits.
#[global] Arguments SettleWorld : clear implicits.

(** * The two pools *)

Section pools.
Context {conv : F64Conv}.

Lemma collectAgreeing_NoDup round v : NoDup (collectAgreeingValidators round v).
Proof.
  unfold collectAgreeingValidators. generalize (r_Votes round). intros votes.
  enough (∀ acc, NoDup acc → NoDup (foldl (λ result w, if decide (v_Verdict w = v ∧ v_ValidatorID w ∉ result)
    then result ++ [v_ValidatorID w] else result) acc votes)) as H by apply H, NoDup_nil_2.
  induction votes as [|w votes IH]; intros acc Hacc; [done|]. cbn [foldl]. apply IH. case_decide as Hw; [|done].
  apply NoDup_app. split_and!; [done| |apply NoDup_singleton]. intros x Hx ->%list_elem_of_singleton. by apply Hw.
Qed.

Lemma collectAgreeing_length round v : (length (collectAgreeingValidators round v) <= length (r_Votes round))%nat.
Proof.
  unfold collectAgreeingValidators. generalize (r_Votes round). intros votes.
  enough (∀ acc, (length (foldl (λ result w, if decide (v_Verdict w = v ∧ v_ValidatorID w ∉ result)
    then result ++ [v_ValidatorID w] else result) acc votes) <= length acc + length votes)%nat) as H by apply (H []).
  induction votes as [|w votes IH]; intros acc; cbn [foldl length]; [lia|]. etrans; [apply IH|].
  case_decide; rewrite ?length_app; cbn; lia.
Qed.

Definition scores_ok (cfg : SettlerConfig) : Prop := ∀ q v f c, sc_qScoreFn cfg = Some q → f64_ok (q v f c).

Lemma payouts_positive_u64 (m : gmap AgentID Z) B :
  map_Forall (λ _, λ x : Z, 0 < x) m → map_sum id m <= B → is_u64 B → map_Forall (λ _, is_u64) m.
Proof.
  intros Hm Hs HB k x Hk. unfold is_u64 in *. pose proof (Hm k x Hk) as Hx. cbn in Hx.
  pose proof (map_sum_lookup_le id m k x ltac:(intros j y Hj; specialize (Hm j y Hj); unfold id; cbn in Hm; lia) Hk). unfold id in *. lia.
Qed.

Lemma validator_split_sum cfg round v pool m rest :
  scores_ok cfg → is_u64 pool → (pool + 1) * (Z.of_nat (length (r_Votes round)) + 3) < 2 ^ 53 →
  validator_split cfg round v pool = (m, rest) →
  map_sum id m + rest = pool ∧ 0 <= rest ∧ map_Forall (λ _, λ x : Z, 0 < x) m.
Proof.
  intros Hq Hu Hb. unfold validator_split. set (ids := collectAgreeingValidators round v).
  pose proof (collectAgreeing_NoDup round v) as Hnd. fold ids in Hnd.
  pose proof (collectAgreeing_length round v) as Hlen. fold ids in Hlen.
  assert (0 <= pool) as Hp0 by (unfold is_u64 in Hu; lia).
  case_decide as Hne; intros [= <- <-]; [rewrite map_sum_empty; split_and!; [lia|done|apply map_Forall_empty]|].
  unfold computeValidatorPayouts. destruct (decide (ids = [] ∨ pool = 0)) as [[Hid| ->]|Hn]; [done| |].
  { rewrite map_sum_empty. split_and!; [done|done|apply map_Forall_empty]. }
  set (ws := (λ w, match sc_qScoreFn cfg with Some q => q w "" (r_Category round) | None => f64_one end) <$> ids).
  assert (length ws = length ids) as Hlws by apply length_fmap.
  assert (Forall f64_ok ws) as Hws.
  { apply Forall_fmap, Forall_forall. intros w _. cbn. destruct (sc_qScoreFn cfg) as [q|] eqn:Hqf; [by eapply Hq|done]. }
  assert (∃ out, length out = length ids ∧ Forall (λ s, 0 <= s <= pool) out ∧ sum_list_Z out = pool
    ∧ (if f64_is_zero (f64_sum ws)
       then payouts_of (zip ids (even_shares pool (pool / Z.of_nat (length ids)) 0 (length ids)))
       else payouts_of (zip ids (weighted_shares pool (f64_sum ws) 0 ws))) = payouts_of (zip ids out)) as (out & Hlo & Hpos & Hsum & ->).
  { destruct (f64_is_zero (f64_sum ws)) eqn:Hz.
    - assert (length ids ≠ O) as Hl0 by by destruct ids.
      destruct (even_shares_sum pool (pool / Z.of_nat (length ids)) 0 (length ids) Hl0 Hu ltac:(done)) as (H1 & H2 & H3).
      + apply Z.div_pos; lia.
      + pose proof (Z.mul_div_le pool (Z.of_nat (length ids)) ltac:(lia)). lia.
      + eexists. split_and!; [exact H1|exact H2|by rewrite H3, Z.sub_0_r|done].
    - destruct (shares_within pool ws Hws ltac:(naive_solver lia)) as [H1 H2]; [rewrite Hlws; nia|done|].
      destruct (weighted_shares_sum pool (f64_sum ws) 0 ws) as (H3 & H4 & H5); [by destruct ids|done|done|done|lia|].
      eexists. split_and!; [by rewrite H3|exact H4|by rewrite H5, Z.sub_0_r|done]. }
  assert ((zip ids out).*1 = ids) as Hfst by (apply fst_zip; lia).
  assert ((zip ids out).*2 = out) as Hsnd by (apply snd_zip; lia).
  destruct (payouts_of_sum (zip ids out)) as (H1 & _ & H3).
  { rewrite Hsnd. eapply Forall_impl; [exact Hpos|]. cbn. lia. }
  rewrite Hsnd, Hfst in H3. split_and!; [rewrite H3 by done; lia|done|done].
Qed.
End pools.

(** * The distribution of a budget *)

Section distributions.
Context {conv : F64Conv}.

(** The amounts for which the arithmetic is exact. *)
Record exact_budget (cfg : SettlerConfig) (budget : Z) (round : TaskVerificationRound) : Prop := {
  eb_budget : 0 <= budget ∧ budget * 7300 < 2 ^ 64;
  eb_votes : (budget + 1) * (Z.of_nat (length (r_Votes round)) + 3) < 2 ^ 53;
  eb_scores : scores_ok cfg;
  eb_quality g : sc_genLedger cfg = Some g → ∀ e, f64_ok (gc_qualityFn g e);
}.

(** The recipients of royalties, for whom the pool must suffice. *)
Definition royalty_recipients (cfg : SettlerConfig) (submission : EventID) (genPool : Z) : list RoyaltyRecipient :=
  match sc_genLedger cfg with None => [] | Some g => gd_Recipients (Calculate g submission genPool) end.

Lemma share_bp_bounds cfg budget round bp : exact_budget cfg budget round → 0 <= bp <= 7300 →
  0 <= share_bp budget bp <= budget ∧ share_bp budget bp = budget * bp / 10000.
Proof.
  intros [[H0 H1] _ _ _] Hbp. unfold share_bp. rewrite u64_small by (unfold is_u64, u64_mod; nia).
  pose proof (Z.div_pos (budget * bp) 10000 ltac:(nia) ltac:(lia)). split; [split; [done|]|done].
  apply Z.div_le_upper_bound; nia.
Qed.

Lemma shares_bp_le budget : 0 <= budget →
  budget * 7300 / 10000 + budget * 2300 / 10000 + budget * 200 / 10000 <= budget.
Proof.
  intros Hb. pose proof (Z.mul_div_le (budget * 7300) 10000 ltac:(lia)). pose proof (Z.mul_div_le (budget * 2300) 10000 ltac:(lia)).
  pose proof (Z.mul_div_le (budget * 200) 10000 ltac:(lia)). lia.
Qed.

Definition total_of (d : Distribution) : Z :=
  d_workerAmount d + d_posterRefundAmount d + map_sum id (d_validators d) + map_sum id (d_genRecipients d) + d_treasuryAmount d.

(** A distribution pays out at most the budget, with amounts of 64 bits. *)
Definition pays_within (budget : Z) (d : Distribution) : Prop :=
  amounts_u64 d ∧ 0 <= d_workerAmount d ∧ 0 <= d_posterRefundAmount d ∧ 0 <= d_treasuryAmount d
  ∧ map_Forall (λ _, λ x : Z, 0 < x) (d_validators d) ∧ map_Forall (λ _, λ x : Z, 0 < x) (d_genRecipients d)
  ∧ total_of d <= budget.

Lemma positive_sum (m : gmap AgentID Z) : map_Forall (λ _, λ x : Z, 0 < x) m → 0 <= map_sum id m.
Proof. intros Hm. apply map_sum_nonneg. intros k x Hk. specialize (Hm k x Hk). cbn in Hm. unfold id. lia. Qed.

Lemma pays_within_intro budget d :
  is_u64 budget → 0 <= d_workerAmount d → 0 <= d_posterRefundAmount d → 0 <= d_treasuryAmount d →
  map_Forall (λ _, λ x : Z, 0 < x) (d_validators d) → map_Forall (λ _, λ x : Z, 0 < x) (d_genRecipients d) →
  total_of d <= budget → pays_within budget d.
Proof.
  intros Hu Hw Hp Ht Hv Hg Htot. pose proof (positive_sum _ Hv). pose proof (positive_sum _ Hg). unfold total_of in Htot.
  split_and!; try done. unfold amounts_u64, is_u64 in *. split_and!; try lia.
  - apply (payouts_positive_u64 _ budget Hv); [lia|done].
  - apply (payouts_positive_u64 _ budget Hg); [lia|done].
Qed.

(** ** Who is paid *)

Lemma payouts_of_app l (kv : AgentID * Z) : payouts_of (l ++ [kv]) = if decide (kv.2 > 0) then <[kv.1 := kv.2]> (payouts_of l) else payouts_of l.
Proof. unfold payouts_of. by rewrite foldl_app. Qed.

Lemma payouts_of_in l a (x : Z) : payouts_of l !! a = Some x → (a, x) ∈ l.
Proof.
  induction l as [|[k y] l IH] using rev_ind; [done|]. rewrite payouts_of_app, elem_of_app, list_elem_of_singleton. cbn [fst snd].
  case_decide; [|by left; apply IH]. intros [[-> ->]|[_ Hx]]%lookup_insert_Some; [by right|left; by apply IH].
Qed.

Lemma payouts_of_has l a (x : Z) : (a, x) ∈ l → 0 < x → is_Some (payouts_of l !! a).
Proof.
  intros Hin Hx. induction l as [|[k y] l IH] using rev_ind; [by apply not_elem_of_nil in Hin|]. rewrite payouts_of_app. cbn [fst snd].
  apply elem_of_app in Hin as [Hin|Hin].
  - case_decide; [|by apply IH]. apply lookup_insert_is_Some'. right. by apply IH.
  - apply list_elem_of_singleton in Hin. injection Hin as <- <-. rewrite decide_True by lia. rewrite lookup_insert_eq. by eexists.
Qed.

(** The validators with a vote for a verdict. *)
Definition voters_for (round : TaskVerificationRound) (v : Verdict) : gset AgentID :=
  list_to_set (v_ValidatorID <$> filter (λ w, v_Verdict w = v) (r_Votes round)).

Lemma collectAgreeing_set round v : list_to_set (collectAgreeingValidators round v) = voters_for round v.
Proof.
  unfold collectAgreeingValidators, voters_for. generalize (r_Votes round). intros votes.
  induction votes as [|w votes IH] using rev_ind; [done|]. rewrite foldl_app, filter_app, fmap_app, list_to_set_app_L, <- IH. cbn [foldl].
  set (acc := foldl _ _ _). rewrite filter_cons, filter_nil. case_decide as Hw; case_decide as Hv; cbn; [|tauto|..].
  - rewrite list_to_set_app_L. cbn. set_solver.
  - assert (v_ValidatorID w ∈ acc) by (apply dec_stable; tauto). set_solver.
  - set_solver.
Qed.

Lemma computeValidatorPayouts_dom cfg ids pool category : dom (computeValidatorPayouts cfg ids pool category) ⊆ list_to_set ids.
Proof.
  intros a [x Hx]%elem_of_dom. apply elem_of_list_to_set. unfold computeValidatorPayouts in Hx. case_decide; [done|].
  destruct (f64_is_zero _); apply payouts_of_in in Hx; by apply elem_of_zip_l in Hx.
Qed.

Lemma validator_split_payees cfg round v pool m rest : validator_split cfg round v pool = (m, rest) →
  dom m ⊆ voters_for round v ∧ rest = if decide (voters_for round v = ∅) then pool else 0.
Proof.
  rewrite <- collectAgreeing_set. unfold validator_split. set (ids := collectAgreeingValidators round v). case_decide as Hids; intros [= <- <-].
  - rewrite Hids, decide_True by done. set_solver.
  - rewrite decide_False; [split; [apply computeValidatorPayouts_dom|done]|]. destruct ids as [|i ids']; [done|]. cbn. set_solver.
Qed.

Lemma royalty_split_payees cfg submission pool m rest dist :
  (∀ g, sc_genLedger cfg = Some g → ∀ e, f64_ok (gc_qualityFn g e)) → is_u64 pool →
  (pool + 1) * (Z.of_nat (length (royalty_recipients cfg submission pool)) + 3) < 2 ^ 53 →
  royalty_split cfg submission pool = (m, rest, dist) →
  rest = pool - sum_list_Z (rr_Amount <$> royalty_recipients cfg submission pool)
  ∧ (∀ a x, m !! a = Some x → ∃ r, r ∈ royalty_recipients cfg submission pool ∧ rr_AgentID r = a ∧ rr_Amount r = x)
  ∧ ∀ r, r ∈ royalty_recipients cfg submission pool → 0 < rr_Amount r → is_Some (m !! rr_AgentID r).
Proof.
  intros Hq Hu Hb. unfold royalty_split, royalty_recipients in *. destruct (sc_genLedger cfg) as [g|]; cycle 1.
  { intros [= <- <- <-]. split_and!; [cbn; lia|by intros a x Hx; rewrite lookup_empty in Hx|by intros r ?%not_elem_of_nil]. }
  intros [= <- <- <-]. destruct (Calculate_sum g submission pool (Hq g eq_refl) Hu Hb) as (Hsum & _). split_and!; [lia| |].
  - intros a x (r & Hr & Hin)%payouts_of_in%list_elem_of_fmap. injection Hr as -> ->. by exists r.
  - intros r Hr Hx. apply (payouts_of_has _ _ (rr_Amount r)); [|done]. apply list_elem_of_fmap. by exists r.
Qed.

(** The accounts a verdict pays apart from the worker and the poster: the validators who voted for it, the agents with a royalty
    when the work is accepted, and the treasury, which gets all that is left. *)
Definition verdict_voters (p : TaskVerificationConsensusPayload) (round : TaskVerificationRound) : gset AgentID :=
  if decide (k_FinalVerdict p = "pass") then voters_for round VerdictPass
  else if decide (k_FinalVerdict p = "fail") then voters_for round VerdictFail else ∅.

Definition verdict_royalties (cfg : SettlerConfig) (budget : Z) (p : TaskVerificationConsensusPayload) : list RoyaltyRecipient :=
  if decide (k_FinalVerdict p = "pass") then royalty_recipients cfg (k_SubmissionEventID p) (share_bp budget generationShareBP) else [].

Record right_accounts (cfg : SettlerConfig) (budget : Z) (p : TaskVerificationConsensusPayload) (round : TaskVerificationRound) (d : Distribution) : Prop := {
  ra_validators : dom (d_validators d) ⊆ verdict_voters p round;
  ra_validator_pool : map_sum id (d_validators d) = if decide (verdict_voters p round = ∅) then 0 else budget * 2300 / 10000;
  ra_royalty a x : d_genRecipients d !! a = Some x → ∃ r, r ∈ verdict_royalties cfg budget p ∧ rr_AgentID r = a ∧ rr_Amount r = x;
  ra_royalties r : r ∈ verdict_royalties cfg budget p → 0 < rr_Amount r → is_Some (d_genRecipients d !! rr_AgentID r);
  ra_treasury : d_treasury d = sc_treasuryID cfg;
  ra_rest : d_treasuryAmount d = budget - d_workerAmount d - d_posterRefundAmount d - map_sum id (d_validators d)
    - sum_list_Z (rr_Amount <$> verdict_royalties cfg budget p);
}.

Lemma royalty_split_sum cfg submission pool m rest dist :
  (∀ g, sc_genLedger cfg = Some g → ∀ e, f64_ok (gc_qualityFn g e)) → is_u64 pool →
  (pool + 1) * (Z.of_nat (length (royalty_recipients cfg submission pool)) + 3) < 2 ^ 53 →
  royalty_split cfg submission pool = (m, rest, dist) →
  map_Forall (λ _, λ x : Z, 0 < x) m ∧ 0 <= rest ∧ map_sum id m + rest <= pool
  ∧ (NoDup (rr_AgentID <$> royalty_recipients cfg submission pool) → map_sum id m + rest = pool).
Proof.
  intros Hq Hu Hb. unfold royalty_split, royalty_recipients in *. destruct (sc_genLedger cfg) as [g|]; cycle 1.
  { intros [= <- <- <-]. rewrite map_sum_empty. unfold is_u64 in Hu. split_and!; [apply map_Forall_empty|lia|lia|lia]. }
  intros [= <- <- <-]. destruct (Calculate_sum g submission pool (Hq g eq_refl) Hu Hb) as (Hsum & Hr & Hall).
  set (l := gd_Recipients (Calculate g submission pool)) in *.
  assert (((λ r, (rr_AgentID r, rr_Amount r)) <$> l).*2 = rr_Amount <$> l) as H2 by by rewrite <- list_fmap_compose.
  assert (((λ r, (rr_AgentID r, rr_Amount r)) <$> l).*1 = rr_AgentID <$> l) as H1 by by rewrite <- list_fmap_compose.
  destruct (payouts_of_sum ((λ r, (rr_AgentID r, rr_Amount r)) <$> l)) as (Hpos & Hle & Heq).
  { rewrite H2. apply Forall_fmap. eapply Forall_impl; [exact Hall|]. cbn. lia. }
  rewrite H2 in Hle, Heq. rewrite H1 in Heq. split_and!; [done|done|lia|]. intros Hnd. rewrite Heq by done. lia.
Qed.

Lemma amounts_of_accept cfg budget p round d dist :
  exact_budget cfg budget round →
  (budget + 1) * (Z.of_nat (length (royalty_recipients cfg (k_SubmissionEventID p) (share_bp budget generationShareBP))) + 3) < 2 ^ 53 →
  accept_distribution cfg budget p round = (d, dist) →
  pays_within budget d ∧ d_workerAmount d = budget * 7300 / 10000 ∧ d_posterRefundAmount d = 0
  ∧ d_worker d = k_WorkerID p ∧ d_posterRefund d = k_PosterID p
  ∧ (NoDup (rr_AgentID <$> royalty_recipients cfg (k_SubmissionEventID p) (share_bp budget generationShareBP)) → total_of d = budget)
  ∧ (k_FinalVerdict p = "pass" → right_accounts cfg budget p round d).
Proof.
  intros Hb Hr. unfold accept_distribution.
  destruct (share_bp_bounds cfg budget round 7300 Hb ltac:(lia)) as [Hw Hwe].
  destruct (share_bp_bounds cfg budget round 2300 Hb ltac:(lia)) as [Hv Hve].
  destruct (share_bp_bounds cfg budget round 200 Hb ltac:(lia)) as [Hg Hge].
  destruct Hb as [[Hb0 Hb1] Hvotes Hscores Hquality]. pose proof (shares_bp_le budget Hb0) as Hsum.
  unfold workerShareBP, validatorShareBP, generationShareBP in *.
  set (W := share_bp budget 7300) in *. set (V := share_bp budget 2300) in *. set (G := share_bp budget 200) in *.
  assert (is_u64 budget) as Hu by (unfold is_u64, u64_mod; lia).
  rewrite (u64_small (budget - W - V - G)) by (unfold is_u64 in *; lia).
  destruct (validator_split cfg round VerdictPass V) as [vm vrest] eqn:Hvs.
  destruct (royalty_split cfg (k_SubmissionEventID p) G) as [[gm grest] gdist] eqn:Hgs.
  destruct (validator_split_sum cfg round VerdictPass V vm vrest Hscores) as (H1 & H2 & H3);
    [unfold is_u64 in *; lia|nia|done|].
  destruct (royalty_split_sum cfg (k_SubmissionEventID p) G gm grest gdist Hquality) as (H4 & H5 & H6 & H7);
    [unfold is_u64 in *; lia|nia|done|].
  pose proof (positive_sum _ H3). pose proof (positive_sum _ H4).
  rewrite (u64_small (budget - W - V - G + vrest)) by (unfold is_u64 in *; lia). rewrite u64_small by (unfold is_u64 in *; lia).
  destruct (validator_split_payees cfg round VerdictPass V vm vrest Hvs) as [Hvd Hvr].
  destruct (royalty_split_payees cfg (k_SubmissionEventID p) G gm grest gdist Hquality) as (Hgr & Hg1 & Hg2); [unfold is_u64 in *; lia|nia|done|].
  intros [= <- <-]. split; [|split_and!; [done|done|done|done| |]].
  - apply pays_within_intro; cbn; try done; try lia. unfold total_of. cbn. lia.
  - intros Hnd. specialize (H7 Hnd). unfold total_of. cbn. lia.
  - intros Hpass. assert (verdict_voters p round = voters_for round VerdictPass) as Hvv by (unfold verdict_voters; by rewrite decide_True).
    assert (verdict_royalties cfg budget p = royalty_recipients cfg (k_SubmissionEventID p) G) as Hvr' by (unfold verdict_royalties; by rewrite decide_True).
    split; rewrite ?Hvv, ?Hvr'; cbn; try done; [|lia]. rewrite Hvr in H1. rewrite <- Hve. destruct (decide (voters_for round VerdictPass = ∅)); lia.
Qed.

Lemma amounts_of_reject cfg budget p round :
  exact_budget cfg budget round →
  let d := reject_distribution cfg budget p round in
  pays_within budget d ∧ d_workerAmount d = 0 ∧ d_posterRefundAmount d = budget * 7300 / 10000 ∧ d_posterRefund d = k_PosterID p ∧ total_of d = budget
  ∧ (k_FinalVerdict p = "fail" → right_accounts cfg budget p round d).
Proof.
  intros Hb. unfold reject_distribution.
  destruct (share_bp_bounds cfg budget round 7300 Hb ltac:(lia)) as [Hw Hwe].
  destruct (share_bp_bounds cfg budget round 2300 Hb ltac:(lia)) as [Hv Hve].
  destruct Hb as [[Hb0 Hb1] Hvotes Hscores Hquality]. pose proof (shares_bp_le budget Hb0) as Hsum.
  unfold workerShareBP, validatorShareBP in *. pose proof (Z.div_pos (budget * 200) 10000 ltac:(lia) ltac:(lia)).
  set (W := share_bp budget 7300) in *. set (V := share_bp budget 2300) in *.
  assert (is_u64 budget) as Hu by (unfold is_u64, u64_mod; lia).
  rewrite (u64_small (budget - W - V)) by (unfold is_u64 in *; lia).
  destruct (validator_split cfg round VerdictFail V) as [vm vrest] eqn:Hvs.
  destruct (validator_split_sum cfg round VerdictFail V vm vrest Hscores) as (H1 & H2 & H3); [unfold is_u64 in *; lia|nia|done|].
  pose proof (positive_sum _ H3). rewrite u64_small by (unfold is_u64 in *; lia). cbn zeta.
  assert (∀ r, total_of (mkDistribution "" 0 r W vm ∅ (sc_treasuryID cfg) (budget - W - V + vrest)) = budget) as Htot.
  { intros r. unfold total_of. cbn. rewrite map_sum_empty. lia. }
  destruct (validator_split_payees cfg round VerdictFail V vm vrest Hvs) as [Hvd Hvr]. split; [|split_and!; [done|done|done|done|]].
  - apply pays_within_intro; cbn; try done; try lia. by rewrite Htot.
  - intros Hfail. assert (k_FinalVerdict p ≠ "pass") by (rewrite Hfail; discriminate).
    assert (verdict_voters p round = voters_for round VerdictFail) as Hvv by (unfold verdict_voters; by rewrite decide_False, decide_True).
    assert (verdict_royalties cfg budget p = []) as Hvr' by (unfold verdict_royalties; by rewrite decide_False).
    split; rewrite ?Hvv, ?Hvr'; cbn; try done; [|by intros r ?%not_elem_of_nil|lia]. rewrite Hvr in H1. rewrite <- Hve.
    destruct (decide (voters_for round VerdictFail = ∅)); lia.
Qed.

Lemma amounts_of_dispute cfg budget p round :
  exact_budget cfg budget round →
  let d := dispute_distribution cfg budget p in
  pays_within budget d ∧ d_workerAmount d + d_posterRefundAmount d = budget * 7300 / 10000
  ∧ 0 <= d_posterRefundAmount d - d_workerAmount d <= 1 ∧ d_worker d = k_WorkerID p ∧ d_posterRefund d = k_PosterID p ∧ total_of d = budget
  ∧ (k_FinalVerdict p = "abstain" → right_accounts cfg budget p round d).
Proof.
  intros Hb. unfold dispute_distribution.
  destruct (share_bp_bounds cfg budget round 7300 Hb ltac:(lia)) as [Hw Hwe].
  destruct Hb as [[Hb0 Hb1] _ _ _]. unfold workerShareBP in *. set (W := share_bp budget 7300) in *.
  assert (is_u64 budget) as Hu by (unfold is_u64, u64_mod; lia).
  rewrite (u64_small (budget - W)) by (unfold is_u64 in *; lia).
  pose proof (Z_div_mod_eq_full W 2) as Hdm. pose proof (Z.mod_pos_bound W 2 ltac:(lia)) as Hm. cbn zeta.
  assert (total_of (mkDistribution (k_WorkerID p) (W / 2) (k_PosterID p) (W - W / 2) ∅ ∅ (sc_treasuryID cfg) (budget - W)) = budget) as Htot.
  { unfold total_of. cbn. rewrite map_sum_empty. lia. }
  split; [apply pays_within_intro; cbn; try done; try lia; by rewrite Htot|]. cbn. split_and!; [lia|lia|lia|done|done|done|].
  intros Habs. assert (k_FinalVerdict p ≠ "pass" ∧ k_FinalVerdict p ≠ "fail") as [? ?] by (rewrite Habs; split; discriminate).
  assert (verdict_voters p round = ∅) as Hvv by (unfold verdict_voters; by rewrite !decide_False).
  assert (verdict_royalties cfg budget p = []) as Hvr' by (unfold verdict_royalties; by rewrite decide_False).
  split; rewrite ?Hvv, ?Hvr'; cbn; rewrite ?map_sum_empty; try done; [by intros r ?%not_elem_of_nil|lia].
Qed.
End distributions.

(** * Settling *)

Section settling.
Context {L Err StE StT WC : Type} `{!BucketLedger L Err, !BucketLedgerLaws L Err, !PayloadCodec, !Persistence StE EscrowEntry}.
Context {conv : F64Conv} {tcodec : TaskCodec} `{!Persistence StT (string * string), !CanaryInjector WC} {order : RangeOrder}.
Notation State := (SettlerState L StE StT WC).
Implicit Types (s : State).

Definition sacct s (a : AgentID) : Z := bl_acct (es_ledger (ss_escrow s)) a.

Lemma range_pairs_perm (m : gmap AgentID Z) : omap (λ k, pair k <$> m !! k) (range_set (dom m)) ≡ₚ map_to_list m.
Proof.
  apply NoDup_Permutation; [|apply NoDup_map_to_list|].
  - pose proof (range_set_NoDup (dom m)) as Hnd. induction Hnd as [|k l Hk _ IH]; [constructor|]. cbn.
    destruct (m !! k) as [x|]; [|done]. cbn. apply NoDup_cons. split; [|done].
    intros (k' & Hin & Heq)%list_elem_of_omap. destruct (m !! k'); [|done]. cbn in Heq. by injection Heq as -> ->.
  - intros [k x]. rewrite list_elem_of_omap, elem_of_map_to_list. split.
    + intros (k' & _ & Hk). destruct (m !! k') eqn:E; cbn in Hk; naive_solver.
    + intros Hk. exists k. rewrite Hk. split; [|done]. apply elem_of_range_set, elem_of_dom. by exists x.
Qed.

(** What the tasks look like after the resolution of one of them. *)
Lemma resolution_tasks id verdict sc rid now (m : TaskManager StT WC) task :
  tm_tasks m !! id = Some task → terminal (t_Status task) = false → verdict ∈ ["pass"; "fail"; "abstain"] →
  let '(m', err) := tm_ApplyVerificationConsensusResolution id verdict sc rid now m in
  err = None ∧ (∀ j, j ≠ id → tm_tasks m' !! j = tm_tasks m !! j)
  ∧ ∃ task', tm_tasks m' !! id = Some task' ∧ t_Status task' =
      (if decide (verdict = "pass") then TaskStatusCompleted else if decide (verdict = "fail") then TaskStatusRejected else TaskStatusDisputedResolved).
Proof.
  intros Ht Hterm Hv. unfold tm_ApplyVerificationConsensusResolution. rewrite Ht, Hterm. unfold tm_on. rewrite Ht.
  assert (verdict = "pass" ∨ verdict = "fail" ∨ verdict = "abstain") as Hcases by set_solver.
  destruct (decide (verdict = "pass")); [|destruct (decide (verdict = "fail")); [|destruct (decide (verdict = "abstain")); [|naive_solver]]];
    (split; [done|]; rewrite persist_tasks; cbn [tm_tasks set_tasks];
     split; [intros j Hj; by rewrite lookup_insert_ne|]; eexists; split; [apply lookup_insert_eq|done]).
Qed.

Lemma total_due_fresh t poster amount ref d : total_due d (fresh_entry t poster amount ref) = total_of d.
Proof.
  unfold total_due, total_of, fresh_entry, open_claim. cbn.
  assert (∀ m : gmap AgentID Z, unpaid m ∅ = m) as Hu.
  { intros m. unfold unpaid. apply map_filter_id. intros k x _. cbn. set_solver. }
  by rewrite !Hu.
Qed.

(** Finding or registering the entry moves no money. *)
Lemma settle_entry_spec cfg t task s s1 r :
  settle_entry cfg t task s = (s1, r) →
  ss_tasks s1 = ss_tasks s ∧ es_ledger (ss_escrow s1) = es_ledger (ss_escrow s)
  ∧ (∀ u, u ≠ t → es_entries (ss_escrow s1) !! u = es_entries (ss_escrow s) !! u)
  ∧ (is_Some (es_entries (ss_escrow s) !! t) → s1 = s)
  ∧ (∀ e, r = inr e → es_entries (ss_escrow s1) !! t = Some e
       ∧ (es_entries (ss_escrow s) !! t = Some e ∨ ∃ ref, e = fresh_entry t (t_PosterID task) (t_Budget task) ref)).
Proof.
  unfold settle_entry, esc_Get, esc_entry, esc_IsLocked. destruct (es_entries (ss_escrow s) !! t) as [e|] eqn:He; cbn [snd].
  { intros [= <- <-]. split_and!; [done|done|done|done|]. intros e' [= <-]. split; [done|by left]. }
  rewrite bool_decide_eq_false_2 by (by intros []).
  assert (∀ err : SettleError, (s, inl err) = (s1, r) → ss_tasks s1 = ss_tasks s ∧ es_ledger (ss_escrow s1) = es_ledger (ss_escrow s)
    ∧ (∀ u, u ≠ t → es_entries (ss_escrow s1) !! u = es_entries (ss_escrow s) !! u)
    ∧ (is_Some (None : option EscrowEntry) → s1 = s) ∧ (∀ e, r = inr e → es_entries (ss_escrow s1) !! t = Some e
       ∧ ((None : option EscrowEntry) = Some e ∨ ∃ ref, e = fresh_entry t (t_PosterID task) (t_Budget task) ref))) as Herr.
  { intros err [= <- <-]. split_and!; [done|done|done|done|]. intros e He'. discriminate He'. }
  destruct (sc_dagScanner cfg) as [all|]; [|apply Herr].
  destruct (LookupEscrowLockTransfer all t _ _) as [ref|]; [|apply Herr].
  destruct (esc_RegisterEscrow t _ _ ref (ss_escrow s)) as [e1 r1] eqn:Hreg.
  destruct (esc_RegisterEscrow_spec _ _ _ _ _ _ _ Hreg) as (Hled & _ & Hnew & Herror). destruct (Hnew He) as [_ Hentries].
  destruct r1 as [err|[]].
  { rewrite (Herror err eq_refl). intros [= <- <-]. split_and!; [done|done|done|by intros []|done]. }
  rewrite (Hentries eq_refl), lookup_insert_eq. cbn [snd]. intros [= <- <-]. cbn [ss_tasks ss_escrow].
  rewrite (Hentries eq_refl). split_and!; [done|done|intros u Hu; by rewrite lookup_insert_ne|by intros []|].
  intros e [= <-]. rewrite lookup_insert_eq. split; [done|]. right. by exists ref.
Qed.

(** The three verdicts. *)
Definition distribution_of cfg budget p round : option Distribution :=
  if decide (k_FinalVerdict p = "pass") then Some (accept_distribution cfg budget p round).1
  else if decide (k_FinalVerdict p = "fail") then Some (reject_distribution cfg budget p round)
  else if decide (k_FinalVerdict p = "abstain") then Some (dispute_distribution cfg budget p)
  else None.

Definition status_of_verdict (v : string) : TaskStatus :=
  if decide (v = "pass") then TaskStatusCompleted else if decide (v = "fail") then TaskStatusRejected else TaskStatusDisputedResolved.

Lemma settle_verdict_cases cfg budget p round now s :
  match distribution_of cfg budget p round with
  | None => ∃ res err, settle_verdict cfg budget p round now s = (s, res, Some err)
  | Some d => k_FinalVerdict p ∈ ["pass"; "fail"; "abstain"]
      ∧ ∃ sc dist, settle_verdict cfg budget p round now s = settle_with (k_TaskID p) (k_FinalVerdict p) sc (k_RoundID p) d dist now s
  end.
Proof.
  unfold distribution_of, settle_verdict. destruct (decide (k_FinalVerdict p = "pass")) as [->|].
  { destruct (accept_distribution cfg budget p round) as [d dist]. split; [set_solver|]. by eexists _, _. }
  destruct (decide (k_FinalVerdict p = "fail")) as [->|]; [split; [set_solver|]; by eexists _, _|].
  destruct (decide (k_FinalVerdict p = "abstain")) as [->|]; [split; [set_solver|]; by eexists _, _|]. by eexists _, _.
Qed.

(** Releasing and resolving.  A failure leaves the task; whether it paid something shows
    in the entry. *)
Lemma settle_with_spec t v sc rid d dist now s e task s' res err :
  bl_ok (es_ledger (ss_escrow s)) → es_entries (ss_escrow s) !! t = Some e → amounts_u64 d →
  tm_tasks (ss_tasks s) !! t = Some task → terminal (t_Status task) = false → v ∈ ["pass"; "fail"; "abstain"] →
  settle_with t v sc rid d dist now s = (s', res, err) →
  bl_ok (es_ledger (ss_escrow s')) ∧ sr_AlreadyApplied res = false
  ∧ (∀ u, u ≠ t → es_entries (ss_escrow s') !! u = es_entries (ss_escrow s) !! u ∧ tm_tasks (ss_tasks s') !! u = tm_tasks (ss_tasks s) !! u)
  ∧ match err with
    | None => sr_Applied res = true ∧ es_entries (ss_escrow s') !! t = None ∧ (∀ a, sacct s' a = sacct s a + claim t d e a)
        ∧ ∃ task', tm_tasks (ss_tasks s') !! t = Some task' ∧ t_Status task' = status_of_verdict v
    | Some _ => ss_tasks s' = ss_tasks s ∧ ∃ e', es_entries (ss_escrow s') !! t = Some e' ∧ progress e e'
        ∧ ∀ a, sacct s' a + claim t d e' a = sacct s a + claim t d e a
    end.
Proof.
  intros Hok He Hu Htask Hterm Hv. unfold settle_with.
  destruct (esc_ReleaseSettlement t d _ _ now (ss_escrow s)) as [e1 r] eqn:Hrel.
  pose proof (esc_release_spec t d _ _ now (ss_escrow s) e e1 r Hok He Hu
    (conj (range_pairs_perm (d_validators d)) (range_pairs_perm (d_genRecipients d))) Hrel) as Hspec.
  destruct r as [rerr|[]].
  - intros [= <- <- <-]. destruct Hspec as (e' & Hok' & He' & Hpr & Hcl & Hothers). cbn.
    split_and!; [done|done|intros u Hne; split; [by apply Hothers|done]|done|]. by exists e'.
  - destruct Hspec as (Hok' & Hdel & Hothers & Hcl).
    pose proof (resolution_tasks t v sc rid now (ss_tasks s) task Htask Hterm Hv) as Hres.
    destruct (tm_ApplyVerificationConsensusResolution t v sc rid now (ss_tasks s)) as [m merr]. destruct Hres as (-> & Hrest & Hdone).
    intros [= <- <- <-]. cbn. split_and!; [done|done|intros u Hne; split; [by apply Hothers|by apply Hrest]|done| |done|done].
    rewrite Hdel. apply lookup_delete_eq.
Qed.

(** ** The amounts are always 64-bit *)

Lemma weighted_shares_u64 pool total a ws : Forall is_u64 (weighted_shares pool total a ws).
Proof.
  revert a. induction ws as [|w ws IH]; intros a; [constructor|]. cbn [weighted_shares]. apply Forall_cons_2; [|apply IH].
  destruct ws; [apply u64_range|]. unfold f64_share, f64_to_u64. case_decide; [done|]. apply u64_out_of_range_u64.
Qed.

Lemma even_shares_u64 pool pv a n : is_u64 pv → Forall is_u64 (even_shares pool pv a n).
Proof.
  intros Hpv. revert a. induction n as [|n IH]; intros a; [constructor|]. cbn [even_shares]. apply Forall_cons_2; [|apply IH].
  destruct n; [apply u64_range|done].
Qed.

Lemma payouts_of_u64 l : Forall is_u64 l.*2 → map_Forall (λ _, is_u64) (payouts_of l).
Proof.
  unfold payouts_of. enough (∀ m : gmap AgentID Z, map_Forall (λ _, is_u64) m → Forall is_u64 l.*2 →
    map_Forall (λ _, is_u64) (foldl (λ m kv, if decide (kv.2 > 0) then <[kv.1 := kv.2]> m else m) m l)) as Hgen
    by (intros Hl; apply Hgen; [apply map_Forall_empty|done]).
  induction l as [|[k x] l IH]; intros m Hm Hl; [done|]. cbn [foldl fmap list_fmap fst snd] in *. apply Forall_cons in Hl as [Hx Hl].
  apply IH; [|done]. case_decide; [|done]. intros j y [[_ <-]|[_ Hj]]%lookup_insert_Some; [done|by apply (Hm j)].
Qed.

Lemma share_bp_u64 budget bp : is_u64 (share_bp budget bp).
Proof.
  unfold share_bp. pose proof (u64_range (budget * bp)) as Hr. set (x := u64 (budget * bp)) in *. unfold is_u64, u64_mod in *.
  pose proof (Z.div_pos x 10000 ltac:(lia) ltac:(lia)). pose proof (Z.div_le_upper_bound x 10000 x ltac:(lia) ltac:(lia)). lia.
Qed.

Lemma Forall_zip_snd {A B} (P : B → Prop) (l : list A) k : Forall P k → Forall P (zip l k).*2.
Proof. intros Hk. revert l. induction Hk as [|y k Hy _ IH]; intros [|x l]; cbn; constructor; auto. Qed.

Lemma validator_split_u64 cfg round v pool : is_u64 pool → map_Forall (λ _, is_u64) (validator_split cfg round v pool).1.
Proof.
  intros Hp. unfold validator_split. case_decide; [apply map_Forall_empty|]. cbn [fst]. unfold computeValidatorPayouts.
  case_decide as Hc; [apply map_Forall_empty|]. destruct (f64_is_zero _); apply payouts_of_u64, Forall_zip_snd; [|apply weighted_shares_u64].
  apply even_shares_u64. set (n := length _). unfold is_u64, u64_mod in *.
  pose proof (Z.div_pos pool (Z.of_nat n)). destruct (decide (n = O)) as [->|]; [rewrite Zdiv_0_r; lia|].
  pose proof (Z.div_le_upper_bound pool (Z.of_nat n) pool ltac:(lia) ltac:(nia)). lia.
Qed.

Lemma royalty_split_u64 cfg sub pool : map_Forall (λ _, is_u64) (royalty_split cfg sub pool).1.1.
Proof.
  unfold royalty_split. destruct (sc_genLedger cfg) as [g|]; [|apply map_Forall_empty]. cbn [fst]. apply payouts_of_u64.
  rewrite <- list_fmap_compose. change (snd ∘ λ r, (rr_AgentID r, rr_Amount r)) with rr_Amount.
  enough (∀ l, Forall is_u64 (rr_Amount <$> gd_Recipients (royalties pool l))) as Hroy.
  { unfold Calculate. destruct (gc_dag g) as [dag|]; [|constructor]. case_decide; [constructor|].
    destruct (dag sub) as [ev|]; [|constructor]. apply Hroy. }
  intros l. unfold royalties. case_decide; [constructor|]. destruct (f64_is_zero _); [constructor|]. cbn [gd_Recipients].
  pose proof (weighted_shares_u64 pool (f64_sum (an_weight <$> l)) 0 (an_weight <$> l)) as Hs.
  revert Hs. generalize (weighted_shares pool (f64_sum (an_weight <$> l)) 0 (an_weight <$> l)). generalize (f64_sum (an_weight <$> l)).
  intros total out Hs. clear -Hs. revert l. induction Hs as [|x out Hx _ IH]; intros [|a l]; cbn; constructor; [done|apply IH].
Qed.

Lemma distribution_u64 cfg budget p round d : distribution_of cfg budget p round = Some d → amounts_u64 d.
Proof.
  unfold distribution_of. assert (is_u64 0) as H0 by done.
  destruct (decide (k_FinalVerdict p = "pass")); [|destruct (decide (k_FinalVerdict p = "fail")); [|case_decide; [|done]]]; intros [= <-].
  - unfold accept_distribution. pose proof (validator_split_u64 cfg round VerdictPass _ (share_bp_u64 budget validatorShareBP)) as Hv.
    pose proof (royalty_split_u64 cfg (k_SubmissionEventID p) (share_bp budget generationShareBP)) as Hg.
    destruct (validator_split cfg round VerdictPass _) as [vm vr]. destruct (royalty_split cfg _ _) as [[gm gr] gd].
    split_and!; cbn; [apply share_bp_u64|done|apply u64_range|done|done].
  - unfold reject_distribution. pose proof (validator_split_u64 cfg round VerdictFail _ (share_bp_u64 budget validatorShareBP)) as Hv.
    destruct (validator_split cfg round VerdictFail _) as [vm vr].
    split_and!; cbn; [done|apply share_bp_u64|apply u64_range|done|apply map_Forall_empty].
  - unfold dispute_distribution. pose proof (share_bp_u64 budget workerShareBP) as Hw. set (x := share_bp budget workerShareBP) in *.
    pose proof (Z_div_mod_eq_full x 2). pose proof (Z.mod_pos_bound x 2 ltac:(lia)). unfold is_u64, u64_mod in Hw.
    split_and!; cbn; try apply map_Forall_empty; [unfold is_u64, u64_mod; lia|unfold is_u64, u64_mod; lia|apply u64_range].
Qed.

(** ** A whole call *)

Lemma tm_Get_Some t (m : TaskManager StT WC) task : tm_Get t m = inr task ↔ tm_tasks m !! t = Some task.
Proof. unfold tm_Get. destruct (tm_tasks m !! t); split; intros; simplify_eq; done. Qed.

(** What a call of [Settle] does, whatever its arguments: nothing to other tasks; an
    error leaves the task manager as it was, and the entry of the task tells whether
    something was paid; a success resolves the task. *)
Lemma Settle_spec cfg p round now s s' res err :
  bl_ok (es_ledger (ss_escrow s)) → Settle cfg p round now s = (s', res, err) →
  let t := k_TaskID p in
  bl_ok (es_ledger (ss_escrow s'))
  ∧ (∀ u, u ≠ t → es_entries (ss_escrow s') !! u = es_entries (ss_escrow s) !! u ∧ tm_tasks (ss_tasks s') !! u = tm_tasks (ss_tasks s) !! u)
  ∧ ((s' = s ∧ (err = None → ∃ task, tm_tasks (ss_tasks s) !! t = Some task ∧ terminal (t_Status task) = true ∧ sr_AlreadyApplied res = true))
     ∨ (ss_tasks s' = ss_tasks s ∧ is_Some err ∧ ∀ a, sacct s' a = sacct s a)
     ∨ ∃ task e d, tm_tasks (ss_tasks s) !! t = Some task ∧ terminal (t_Status task) = false
       ∧ (es_entries (ss_escrow s) !! t = Some e
          ∨ es_entries (ss_escrow s) !! t = None ∧ ∃ ref, e = fresh_entry t (t_PosterID task) (t_Budget task) ref)
       ∧ distribution_of cfg (ee_Amount e) p round = Some d ∧ sr_AlreadyApplied res = false
       ∧ match err with
         | None => sr_Applied res = true ∧ es_entries (ss_escrow s') !! t = None ∧ (∀ a, sacct s' a = sacct s a + claim t d e a)
             ∧ ∃ task', tm_tasks (ss_tasks s') !! t = Some task' ∧ t_Status task' = status_of_verdict (k_FinalVerdict p)
         | Some _ => ss_tasks s' = ss_tasks s ∧ ∃ e', es_entries (ss_escrow s') !! t = Some e' ∧ progress e e'
             ∧ ∀ a, sacct s' a + claim t d e' a = sacct s a + claim t d e a
         end).
Proof.
  intros Hok. unfold Settle. destruct (tm_Get (k_TaskID p) (ss_tasks s)) as [terr|task] eqn:Ht.
  { intros [= <- <- <-]. split_and!; [done|done|by left]. }
  apply tm_Get_Some in Ht. destruct (terminal (t_Status task)) eqn:Hterm.
  { intros [= <- <- <-]. split_and!; [done|done|]. left. split; [done|]. intros _. by exists task. }
  destruct (settle_entry cfg (k_TaskID p) task s) as [s1 r1] eqn:Hent.
  destruct (settle_entry_spec _ _ _ _ _ _ Hent) as (Htasks & Hled & Hoth & Hsame & Hgot).
  assert (∀ a, sacct s1 a = sacct s a) as Hacct by (intros a; unfold sacct; by rewrite Hled).
  destruct r1 as [serr|e].
  { intros [= <- <- <-]. split_and!; [by rewrite Hled|intros u Hu; split; [by apply Hoth|by rewrite Htasks]|].
    right; left. split_and!; [done|by eexists|done]. }
  destruct (Hgot e eq_refl) as [He1 He]. intros Hrun.
  pose proof (settle_verdict_cases cfg (ee_Amount e) p round now s1) as Hcases.
  destruct (distribution_of cfg (ee_Amount e) p round) as [d|] eqn:Hd; cycle 1.
  { destruct Hcases as (res' & err' & Heq). rewrite Heq in Hrun. injection Hrun as <- <- <-.
    split_and!; [by rewrite Hled|intros u Hu; split; [by apply Hoth|by rewrite Htasks]|].
    right; left. split_and!; [done|by eexists|done]. }
  destruct Hcases as (Hv & sc & dist & Heq). rewrite Heq in Hrun.
  assert (tm_tasks (ss_tasks s1) !! k_TaskID p = Some task) as Ht1 by by rewrite Htasks.
  assert (bl_ok (es_ledger (ss_escrow s1))) as Hok1 by by rewrite Hled.
  destruct (settle_with_spec _ _ _ _ _ _ _ s1 e task s' res err Hok1 He1 (distribution_u64 _ _ _ _ _ Hd) Ht1 Hterm Hv Hrun)
    as (Hok' & Hna & Hothers & Hout).
  split_and!; [done|intros u Hu; destruct (Hothers u Hu) as [-> ->]; split; [by apply Hoth|by rewrite Htasks]|].
  right; right. exists task, e, d. split_and!; [done|done| |done|done|].
  - destruct (es_entries (ss_escrow s) !! k_TaskID p) as [e0|] eqn:He0.
    + left. destruct He as [He|[ref He]]; [done|]. rewrite (Hsame ltac:(by eexists)), He0 in He1. done.
    + right. split; [done|]. by destruct He.
  - destruct err as [err|].
    + destruct Hout as (Htk & e' & He' & Hpr & Hcl). split; [by rewrite Htk|]. exists e'. split_and!; [done|done|]. intros a. by rewrite Hcl, Hacct.
    + destruct Hout as (Happ & Hnone & Hcl & Hdone). split_and!; [done|done| |done]. intros a. by rewrite Hcl, Hacct.
Qed.

(** ** One settlement per task *)

Context {S : Type} `{!RoundStore S} {ccodec : ConsensusCodec}.
Notation World := (SettleWorld L StE StT WC S).

(** The task is resolved, or some of its recipients were paid. *)
Definition closed (t : string) (w : World) : Prop :=
  task_terminal t (ss_tasks (wd_settler w)) = true ∨ esc_HasSettlementStarted (ss_escrow (wd_settler w)) t = true.

Definition wacct (w : World) (a : AgentID) : Z := sacct (wd_settler w) a.
Definition world_ok (w : World) : Prop := bl_ok (es_ledger (ss_escrow (wd_settler w))).

Lemma tv_Apply_closed cfg ev p (w : World) :
  GetPayload unmarshal_consensus ev = Some p → closed (k_TaskID p) w → tv_Apply cfg ev w = (w, None).
Proof. intros Hp Hc. unfold tv_Apply. rewrite Hp. destruct Hc as [-> | ->]; [done|]. by case_match. Qed.

Lemma tv_Apply_cases cfg ev (w : World) :
  let '(w', err) := tv_Apply cfg ev w in
  w' = w ∨ ∃ p round s' res serr, GetPayload unmarshal_consensus ev = Some p
    ∧ task_terminal (k_TaskID p) (ss_tasks (wd_settler w)) = false
    ∧ esc_HasSettlementStarted (ss_escrow (wd_settler w)) (k_TaskID p) = false
    ∧ Settle cfg p round (wd_now w) (wd_settler w) = (s', res, serr) ∧ w' = mkWorld s' (wd_rounds w) (wd_now w) ∧ err = ErrTVSettle <$> serr.
Proof.
  unfold tv_Apply. destruct (GetPayload unmarshal_consensus ev) as [p|]; [|by left].
  destruct (task_terminal _ _) eqn:Hterm; [by left|]. destruct (esc_HasSettlementStarted _ _) eqn:Hst; [by left|].
  destruct (rs_load _ _) as [|round]; [by left|]. destruct (Settle cfg p round (wd_now w) (wd_settler w)) as [[s' res] serr] eqn:Hs.
  right. exists p, round, s', res, serr. split_and!; done.
Qed.

Lemma started_entry (e1 e2 : Escrow L StE) t : es_entries e1 !! t = es_entries e2 !! t → esc_HasSettlementStarted e1 t = esc_HasSettlementStarted e2 t.
Proof. intros He. unfold esc_HasSettlementStarted. by rewrite He. Qed.

Lemma terminal_task (m1 m2 : TaskManager StT WC) t : tm_tasks m1 !! t = tm_tasks m2 !! t → task_terminal t m1 = task_terminal t m2.
Proof. intros He. unfold task_terminal, tm_Get. by rewrite He. Qed.

Lemma tv_Apply_keeps cfg ev t (w : World) :
  world_ok w → world_ok (tv_Apply cfg ev w).1 ∧ (closed t w → closed t (tv_Apply cfg ev w).1).
Proof.
  intros Hok. pose proof (tv_Apply_cases cfg ev w) as Hc. destruct (tv_Apply cfg ev w) as [w' err] eqn:Happ. cbn [fst].
  destruct Hc as [->|(p & round & s' & res & serr & Hp & Hterm & Hst & Hs & -> & _)]; [done|].
  destruct (Settle_spec cfg p round _ _ s' res serr Hok Hs) as (Hok' & Hoth & _). split; [exact Hok'|]. intros Hclosed.
  destruct (decide (t = k_TaskID p)) as [->|Hne].
  - destruct Hclosed as [H1|H1]; congruence.
  - destruct (Hoth t Hne) as [He Ht]. unfold closed. cbn. by rewrite (started_entry _ _ t He), (terminal_task _ _ t Ht).
Qed.

(** Without flags on the entries before and after, nothing was paid. *)
Lemma unstarted_claim (t : string) d e e' a :
  progress e e' →
  ee_WorkerPaid e' = false → ee_PosterRefundPaid e' = false → ee_TreasuryPaid e' = false → ee_ValidatorsPaid e' = ∅ → ee_GenLedgerPaid e' = ∅ →
  claim t d e' a = claim t d e a.
Proof.
  intros (H1 & H2 & H3 & H4 & H5 & _) E1 E2 E3 E4 E5.
  assert (ee_WorkerPaid e = false) as F1 by (destruct (ee_WorkerPaid e); [|done]; rewrite E1 in H1; destruct (H1 I)).
  assert (ee_PosterRefundPaid e = false) as F2 by (destruct (ee_PosterRefundPaid e); [|done]; rewrite E2 in H2; destruct (H2 I)).
  assert (ee_TreasuryPaid e = false) as F3 by (destruct (ee_TreasuryPaid e); [|done]; rewrite E3 in H3; destruct (H3 I)).
  assert (ee_ValidatorsPaid e = ∅) as F4 by (rewrite E4 in H4; set_solver).
  assert (ee_GenLedgerPaid e = ∅) as F5 by (rewrite E5 in H5; set_solver).
  unfold claim, due, total_due. by rewrite E1, E2, E3, E4, E5, F1, F2, F3, F4, F5.
Qed.

Lemma not_started_flags (es : Escrow L StE) t e : es_entries es !! t = Some e → esc_HasSettlementStarted es t = false →
  ee_WorkerPaid e = false ∧ ee_PosterRefundPaid e = false ∧ ee_TreasuryPaid e = false ∧ ee_ValidatorsPaid e = ∅ ∧ ee_GenLedgerPaid e = ∅.
Proof.
  intros He. unfold esc_HasSettlementStarted. rewrite He. rewrite !orb_false_iff, !bool_decide_eq_false.
  intros [[[[[H1 _] H2] H3] H4] H5]. split_and!; [done|done|done| |]; apply leibniz_equiv, size_empty_inv; lia.
Qed.

Lemma tv_Apply_moved cfg ev p (w : World) a :
  world_ok w → GetPayload unmarshal_consensus ev = Some p → wacct (tv_Apply cfg ev w).1 a ≠ wacct w a → closed (k_TaskID p) (tv_Apply cfg ev w).1.
Proof.
  intros Hok Hp Hmoved. pose proof (tv_Apply_cases cfg ev w) as Hc. destruct (tv_Apply cfg ev w) as [w' err] eqn:Happ. cbn [fst] in *.
  destruct Hc as [->|(p' & round & s' & res & serr & Hp' & Hterm & Hst & Hs & -> & _)]; [done|].
  assert (p' = p) as -> by congruence. unfold wacct, closed in *. cbn [wd_settler] in *.
  destruct (Settle_spec cfg p round _ _ s' res serr Hok Hs) as (_ & _ & [[-> _]|[(_ & _ & Hsame)|(task & e & d & Ht & Hnt & He & Hd & _ & Hout)]]).
  - done.
  - by rewrite Hsame in Hmoved.
  - destruct serr as [serr|].
    + destruct Hout as (_ & e' & He' & Hpr & Hcl). right. destruct (esc_HasSettlementStarted (ss_escrow s') (k_TaskID p)) eqn:Hst'; [done|].
      exfalso. destruct (not_started_flags _ _ _ He' Hst') as (E1 & E2 & E3 & E4 & E5). apply Hmoved.
      specialize (Hcl a). rewrite (unstarted_claim _ d e e' a Hpr E1 E2 E3 E4 E5) in Hcl. lia.
    + destruct Hout as (_ & _ & _ & task' & Ht' & Hst'). left. unfold task_terminal, tm_Get. rewrite Ht'. rewrite Hst'.
      unfold status_of_verdict. by repeat case_decide.
Qed.

Definition tv_run (cfg : SettlerConfig) (evs : list Event) (w : World) : World := foldl (λ w ev, (tv_Apply cfg ev w).1) w evs.

Lemma tv_run_keeps cfg evs t (w : World) : world_ok w → closed t w → closed t (tv_run cfg evs w).
Proof.
  revert w. induction evs as [|ev evs IH]; intros w Hok Hc; [done|]. cbn. destruct (tv_Apply_keeps cfg ev t w Hok) as [Hok' Hc'].
  apply IH; auto.
Qed.
End settling.

(** * The properties *)

(** C7: a settled task's budget goes exactly where the settler's code says.  When [Settle] reports success (and was not a repeat),
    the escrow's bucket has paid the amounts of one distribution, to these accounts and no others: on "pass" 73 percent to the worker, on
    "fail" 73 percent to the poster, on "abstain" 73 percent to the two of them in halves; on "pass" and "fail" 23 percent to the
    validators with a vote for the verdict, if there is one; on "pass" the amount of the royalty distribution to each agent it
    names; and all the rest to the configured treasury.  The payments add up to the budget to the last unit when no two royalties name
    the same agent, and never exceed it; the entry is gone, and the task has the status of the verdict.  (Conditions: the
    entry, if there is one, is unpaid and holds the budget; the worker and the poster are those the event names; the budget is small
    enough for 64-bit products and for exact floats, (budget + 1) * (n + 3) < 2^53 for n votes and for n royalties; scores and
    qualities are finite and not negative.  The comments of the settler announce other shares on "fail" and "abstain", see
    [reject_keeps_a_quarter].) *)
Theorem settle_pays_budget {L Err StE StT WC} `{!BucketLedger L Err, !BucketLedgerLaws L Err, !PayloadCodec, !Persistence StE EscrowEntry,
    !F64Conv, !TaskCodec, !Persistence StT (string * string), !CanaryInjector WC, !RangeOrder}
    (cfg : SettlerConfig) (p : TaskVerificationConsensusPayload) (round : TaskVerificationRound) (now budget : Z)
    (s s' : SettlerState L StE StT WC) (res : SettleResult) (task : Task) :
  let t := k_TaskID p in
  let royalty_agents := royalty_recipients cfg (k_SubmissionEventID p) (share_bp budget generationShareBP) in
  bl_ok (es_ledger (ss_escrow s)) → tm_tasks (ss_tasks s) !! t = Some task → t_Budget task = budget →
  (∀ e, es_entries (ss_escrow s) !! t = Some e → ∃ poster ref, e = fresh_entry t poster budget ref) →
  exact_budget cfg budget round → (budget + 1) * (Z.of_nat (length royalty_agents) + 3) < 2 ^ 53 →
  Settle cfg p round now s = (s', res, None) → sr_AlreadyApplied res = false →
  ∃ d,
    total_of d <= budget ∧ (k_FinalVerdict p ≠ "pass" ∨ NoDup (rr_AgentID <$> royalty_agents) → total_of d = budget)
    ∧ (∀ a, a ≠ bucketID t → sacct s' a = sacct s a + due d (fresh_entry t "" budget "") a)
    ∧ sacct s' (bucketID t) = sacct s (bucketID t) + due d (fresh_entry t "" budget "") (bucketID t) - total_of d
    ∧ (if decide (k_FinalVerdict p = "pass") then d_worker d = k_WorkerID p ∧ d_workerAmount d = budget * 7300 / 10000 ∧ d_posterRefundAmount d = 0
       else if decide (k_FinalVerdict p = "fail") then d_workerAmount d = 0 ∧ d_posterRefund d = k_PosterID p ∧ d_posterRefundAmount d = budget * 7300 / 10000
       else d_worker d = k_WorkerID p ∧ d_posterRefund d = k_PosterID p ∧ d_workerAmount d + d_posterRefundAmount d = budget * 7300 / 10000
            ∧ 0 <= d_posterRefundAmount d - d_workerAmount d <= 1)
    ∧ right_accounts cfg budget p round d
    ∧ es_entries (ss_escrow s') !! t = None
    ∧ ∃ task', tm_tasks (ss_tasks s') !! t = Some task' ∧ t_Status task' = status_of_verdict (k_FinalVerdict p).
Proof.
  intros t agents Hok Ht Hbud Hentry Hexact Hroy Hs Hna.
  destruct (Settle_spec cfg p round now s s' res None Hok Hs) as (_ & _ & [[-> Hdone]|[(_ & [? [=]] & _)|(task1 & e & d & Ht1 & _ & He & Hd & _ & Hout)]]).
  { destruct (Hdone eq_refl) as (? & _ & _ & Ha). congruence. }
  fold t in Ht1, He. assert (task1 = task) as -> by congruence.
  assert (∃ poster ref, e = fresh_entry t poster budget ref) as (poster & ref & ->).
  { destruct He as [He|(_ & ref & ->)]; [by apply Hentry|]. exists (t_PosterID task), ref. by rewrite Hbud. }
  cbn [ee_Amount fresh_entry] in Hd. destruct Hout as (_ & Hnone & Hacct & Hresolved). exists d.
  assert (∀ a, due d (fresh_entry t poster budget ref) a = due d (fresh_entry t "" budget "") a) as Hdue by done.
  assert (pays_within budget d ∧ (k_FinalVerdict p ≠ "pass" ∨ NoDup (rr_AgentID <$> agents) → total_of d = budget)
    ∧ (if decide (k_FinalVerdict p = "pass") then d_worker d = k_WorkerID p ∧ d_workerAmount d = budget * 7300 / 10000 ∧ d_posterRefundAmount d = 0
       else if decide (k_FinalVerdict p = "fail") then d_workerAmount d = 0 ∧ d_posterRefund d = k_PosterID p ∧ d_posterRefundAmount d = budget * 7300 / 10000
       else d_worker d = k_WorkerID p ∧ d_posterRefund d = k_PosterID p ∧ d_workerAmount d + d_posterRefundAmount d = budget * 7300 / 10000
            ∧ 0 <= d_posterRefundAmount d - d_workerAmount d <= 1)
    ∧ right_accounts cfg budget p round d) as (Hwithin & Htotal & Hshares & Hright).
  { unfold distribution_of in Hd. destruct (decide (k_FinalVerdict p = "pass")) as [Hv|].
    - destruct (accept_distribution cfg budget p round) as [d1 dist] eqn:Hacc. injection Hd as <-.
      destruct (amounts_of_accept cfg budget p round d1 dist Hexact Hroy Hacc) as (K1 & K2 & K3 & K4 & K5 & K6 & K7).
      split_and!; [done| |done|done|done|by apply K7]. intros [?|Hnd]; [done|by apply K6].
    - destruct (decide (k_FinalVerdict p = "fail")).
      + injection Hd as <-. destruct (amounts_of_reject cfg budget p round Hexact) as (K1 & K2 & K3 & K4 & K5 & K6). split_and!; try done. by apply K6.
      + case_decide; [|done]. injection Hd as <-.
        destruct (amounts_of_dispute cfg budget p round Hexact) as (K1 & K2 & K3 & K4 & K5 & K6 & K7). split_and!; try done; try lia. by apply K7. }
  split_and!; [apply Hwithin|done| | |done|done|done|done].
  - intros a Ha. by rewrite Hacct, due_bucket_only, Hdue.
  - rewrite Hacct. unfold claim. rewrite decide_True by done. rewrite total_due_fresh, Hdue. lia.
Qed.

(** C6: however many consensus events for a task arrive, from whichever validators, with
    whichever verdicts and between whichever other events: once one of them has moved
    money, no later one for the same task does anything at all.  (The dispatcher
    admits every such event, since each finalizing validator emits its own.) *)
Theorem tv_settles_once {L Err StE StT WC S} `{!BucketLedger L Err, !BucketLedgerLaws L Err, !PayloadCodec, !Persistence StE EscrowEntry,
    !F64Conv, !TaskCodec, !Persistence StT (string * string), !CanaryInjector WC, !RangeOrder, !RoundStore S, !ConsensusCodec}
    (cfg : SettlerConfig) (ev1 ev2 : Event) (between : list Event) (p1 p2 : TaskVerificationConsensusPayload) (w : SettleWorld L StE StT WC S) (a : AgentID) :
  world_ok w → GetPayload unmarshal_consensus ev1 = Some p1 → GetPayload unmarshal_consensus ev2 = Some p2 → k_TaskID p1 = k_TaskID p2 →
  let w1 := (tv_Apply cfg ev1 w).1 in
  wacct w1 a ≠ wacct w a →
  let w2 := tv_run cfg between w1 in
  tv_Apply cfg ev2 w2 = (w2, None) ∧ ∀ b, wacct (tv_Apply cfg ev2 w2).1 b = wacct w2 b.
Proof.
  intros Hok Hp1 Hp2 Heq w1 Hmoved w2.
  assert (closed (k_TaskID p2) w2) as Hc.
  { apply tv_run_keeps; [by apply (tv_Apply_keeps cfg ev1 (k_TaskID p1) w Hok)|]. rewrite <- Heq. by apply (tv_Apply_moved cfg ev1 p1 w a). }
  pose proof (tv_Apply_closed cfg ev2 p2 w2 Hp2 Hc) as Happ. by rewrite Happ.
Qed.

(** * Concrete settlements *)

Module DemoSettle.
#[global] Existing Instances demo_task_codec demo_canaries task_store.

Notation TaskDB := (KeyedStore (fst (A := string) (B := string))) (only parsing).
Notation EscrowDB := (KeyedStore ee_TaskID) (only parsing).

#[global] Existing Instance DemoRoyalty.zero_conv.

#[global] Instance no_transfers : PayloadCodec := {|
  unmarshal_transfer _ := None; unmarshal_generation _ := None; unmarshal_task_settlement _ := None |}.

(** An event's payload is its verdict, which comes from the task "t1". *)
#[global] Instance verdict_codec : ConsensusCodec := {|
  marshal_consensus p := Some (k_FinalVerdict p);
  unmarshal_consensus v :=
    Some (mkConsensus (NewRoundID "sub1") "t1" "sub1" "worker" "poster" v 8000 80 0 20 0 ["f1"; "f2"] true 3 1020);
|}.

Definition payload (v : string) : TaskVerificationConsensusPayload :=
  mkConsensus (NewRoundID "sub1") "t1" "sub1" "worker" "poster" v 8000 80 0 20 0 ["f1"; "f2"] true 3 1020.

Definition event (id v : string) : Event :=
  mkEvent id EventTypeTaskVerificationConsensus None (Some v) "validator" [] 0 0 SettlementOptimistic.

Definition cfg (bob : AgentID) : SettlerConfig := mkSettlerConfig None (Some (DemoRoyalty.calculator bob)) "treasury" None.

(** The bucket holds [funds], of a budget of 200000. *)
Definition state (funds : Z) : SettlerState (gmap AgentID Z) EscrowDB TaskDB unit :=
  mkSettler demo_m3 (mkEscrow {["t1" := fresh_entry "t1" "poster" 200000 ""]} (move system_agent (bucketID "t1") funds ∅) None None).

Definition round : TaskVerificationRound := receive demo_round demo_votes.

Definition settled (bob : AgentID) (v : string) := Settle (cfg bob) (payload v) round 5 (state 200000).

Example pass_pays :
  let s := (settled "bob" "pass").1.1 in
  (settled "bob" "pass").2 = None
  ∧ (λ a, sacct s a) <$> ["worker"; "v1"; "v2"; "alice"; "bob"; "treasury"; "escrow:t1"] = [146000; 23000; 23000; 3200; 800; 4000; 0].
Proof. vm_compute. split; reflexivity. Qed.

Definition world (funds : Z) : SettleWorld (gmap AgentID Z) EscrowDB TaskDB unit DemoNode.mem :=
  mkWorld (state funds) {[NewRoundID "sub1" := round]} 5.

Lemma state_ok funds : 0 <= funds < 1000000 → bl_ok (es_ledger (ss_escrow (state funds))).
Proof. intros Hf. apply solvent_issue; [done|lia]. Qed.
End DemoSettle.

Lemma settle_pays_budget_witness :
  ∃ d, total_of d = 200000
    ∧ sacct (DemoSettle.settled "bob" "pass").1.1 "worker" = sacct (DemoSettle.state 200000) "worker" + due d (fresh_entry "t1" "" 200000 "") "worker".
Proof.
  assert ((DemoSettle.settled "bob" "pass").2 = None ∧ sr_AlreadyApplied (DemoSettle.settled "bob" "pass").1.2 = false) as [Herr Hna]
    by (vm_compute; split; reflexivity).
  destruct (DemoSettle.settled "bob" "pass") as [[s' res] err] eqn:Hs. cbn [fst snd] in *. rewrite Herr in Hs.
  destruct (settle_pays_budget (DemoSettle.cfg "bob") (DemoSettle.payload "pass") DemoSettle.round 5 200000 (DemoSettle.state 200000) s' res (default zero_task (tm_tasks demo_m3 !! "t1")))
    as (d & _ & Htotal & Hpay & _).
  - apply DemoSettle.state_ok. lia.
  - vm_compute. reflexivity.
  - vm_compute. reflexivity.
  - intros e He. vm_compute in He. injection He as <-. exists "poster", "". reflexivity.
  - split; [lia|vm_compute; reflexivity|intros q v f c Hq; discriminate Hq|].
    intros g Hg e. assert (g = DemoRoyalty.calculator "bob") as -> by (change (Some (DemoRoyalty.calculator "bob") = Some g) in Hg; congruence).
    change (f64_ok f64_one). split; reflexivity || discriminate.
  - vm_compute. reflexivity.
  - exact Hs.
  - exact Hna.
  - exists d. split; [|apply Hpay; discriminate]. apply Htotal. right. apply (bool_decide_unpack _). vm_compute. exact I.
Defined.

Lemma tv_settles_once_witness :
  let w1 := (tv_Apply (DemoSettle.cfg "bob") (DemoSettle.event "e1" "pass") (DemoSettle.world 200000)).1 in
  wacct w1 "worker" = 146000 ∧ tv_Apply (DemoSettle.cfg "bob") (DemoSettle.event "e2" "fail") w1 = (w1, None).
Proof.
  intros w1. assert (wacct w1 "worker" = 146000) as Hw by (vm_compute; reflexivity). split; [exact Hw|].
  destruct (tv_settles_once (DemoSettle.cfg "bob") (DemoSettle.event "e1" "pass") (DemoSettle.event "e2" "fail") []
    (DemoSettle.payload "pass") (DemoSettle.payload "fail") (DemoSettle.world 200000) "worker") as [Happ _].
  - apply DemoSettle.state_ok. lia.
  - reflexivity.
  - reflexivity.
  - reflexivity.
  - fold w1. rewrite Hw. vm_compute. discriminate.
  - exact Happ.
Defined.

(** * Findings *)

(** The royalties are collected in a map by agent: when two cited events have the same
    author, only the second share is paid.  The call reports success, the entry is
    removed, and the first share stays in the bucket for good. *)
Lemma royalties_stranded :
  let '(s, res, err) := DemoSettle.settled "alice" "pass" in
  err = None ∧ sr_TotalDistributed res = 200000 ∧ es_entries (ss_escrow s) !! "t1" = None
  ∧ sacct s "alice" = 800 ∧ sacct s (bucketID "t1") = 3200.
Proof. vm_compute. split_and!; reflexivity. Qed.

(** A settlement that fails after its first transfer is never resumed: the entry has a
    paid flag, so every retry returns success without doing anything, and the task is
    never resolved. *)
Lemma partial_settlement_stuck :
  let w1 := (tv_Apply (DemoSettle.cfg "bob") (DemoSettle.event "e1" "pass") (DemoSettle.world 150000)) in
  w1.2 = Some (ErrTVSettle (SettleRelease ErrEscrowTransfer)) ∧ wacct w1.1 "worker" = 146000
  ∧ task_terminal "t1" (ss_tasks (wd_settler w1.1)) = false
  ∧ (tv_Apply (DemoSettle.cfg "bob") (DemoSettle.event "e1" "pass") w1.1).2 = None
  ∧ task_terminal "t1" (ss_tasks (wd_settler (tv_Apply (DemoSettle.cfg "bob") (DemoSettle.event "e1" "pass") w1.1).1)) = false.
Proof. vm_compute. split_and!; reflexivity. Qed.

(** A rejected task's poster gets back 73 percent of the budget, not all of it. *)
Lemma reject_keeps_a_quarter :
  let s := (DemoSettle.settled "bob" "fail").1.1 in
  (DemoSettle.settled "bob" "fail").2 = None ∧ sacct s "poster" = 146000 ∧ sacct s "treasury" = 54000.
Proof. vm_compute. split_and!; reflexivity. Qed.

(** A vote recorded after the verdict is paid like the votes that made it. *)
Lemma late_vote_paid :
  let late := RecordPostFinalizationVote DemoSettle.round (demo_vote "late" "f9" VerdictPass 1) in
  let '(s, _, err) := Settle (DemoSettle.cfg "bob") (DemoSettle.payload "pass") late 5 (DemoSettle.state 200000) in
  err = None ∧ (λ a, sacct s a) <$> ["v1"; "v2"; "late"] = [15333; 15333; 15334].
Proof. vm_compute. split; reflexivity. Qed.

(** The worker and the poster are those the event names. *)
Lemma payee_from_event :
  let p := mkConsensus (NewRoundID "sub1") "t1" "sub1" "thief" "poster" "pass" 8000 0 0 0 0 [] true 0 0 in
  let '(s, _, err) := Settle (DemoSettle.cfg "bob") p DemoSettle.round 5 (DemoSettle.state 200000) in
  err = None ∧ sacct s "thief" = 146000 ∧ sacct s "worker" = 0.
Proof. vm_compute. split_and!; reflexivity. Qed.
