(* ===== verification/Slashing.v ===== *)
(** What finalized rounds say about their validators: taskverification/calibration.go,
    reputation.go and slashing.go, and the whole of
    recognition/task_verification_consensus_consumer.go.

    Counters and records are kept in BadgerDB, any instance of [Badger]. *)

From Stdlib Require Import QArith Lqa.
From stdpp Require Import sets fin_sets fin_map_dom.
From S2P Require Import Prelude GoStd Event Float64 TaskRound RoundProgress RoundStore RoundFlow Jcs.
#[local] Open Scope Z_scope.

(** * Bytes *)

Definition string_of_bytes (bs : list Z) : string := String.string_of_list_ascii ((λ b, Ascii.ascii_of_N (Z.to_N b)) <$> bs).

Lemma bytes_of_string_of_bytes bs : Forall (λ b, 0 <= b < 256) bs → bytes_of_string (string_of_bytes bs) = bs.
Proof.
  intros Hbs. unfold bytes_of_string, string_of_bytes. rewrite String.list_ascii_of_string_of_list_ascii, <- list_fmap_compose.
  induction Hbs as [|b bs Hb _ IH]; [done|]. cbn [fmap list_fmap]. f_equal; [|exact IH]. cbn.
  rewrite Ascii.N_ascii_embedding by lia. lia.
Qed.

Lemma le_put_bytes n z : Forall (λ b, 0 <= b < 256) (le_put n z).
Proof. revert z. induction n as [|n IH]; intros z; cbn; [constructor|]. apply Forall_cons_2; [|apply IH]. by apply Z.mod_pos_bound. Qed.

(** * Calibration *)

Record CalibrationConfig := mkCalibration {
  cal_DefaultThreshold : Z;
  cal_CategoryOverrides : gmap string Z;
  cal_FamilyOverrides : gmap string Z;
}.

Section calibration.
Context {D : Type} `{!Badger D}.

Record CalibrationStore := mkCalibrationStore { cs_db : D; cs_config : CalibrationConfig }.

Definition NewCalibrationStore (db : D) (config : CalibrationConfig) : CalibrationStore :=
  mkCalibrationStore db
    (mkCalibration (if decide (cal_DefaultThreshold config <= 0) then 100 else cal_DefaultThreshold config)
       (cal_CategoryOverrides config) (cal_FamilyOverrides config)).

Definition calibrationKey (category family : string) : string := "cal:" +:+ category +:+ ":" +:+ family.

(** A value of another length counts as zero. *)
Definition counter_of (val : option string) : Z :=
  match val with
  | Some v => let bs := bytes_of_string v in if decide (length bs = 8%nat) then le_get bs else 0
  | None => 0
  end.

Definition counter_bytes (n : Z) : string := string_of_bytes (le_put 8 n).

(** The new store and, unless the transaction failed, the new count. *)
Definition Increment (category family : string) (s : CalibrationStore) : CalibrationStore * option Z :=
  let key := calibrationKey category family in
  let newCount := u64 (counter_of (bg_get key (cs_db s)) + 1) in
  let '(d, ok) := bg_update [KVSet key (counter_bytes newCount)] (cs_db s) in
  (mkCalibrationStore d (cs_config s), if ok : bool then Some (i64 newCount) else None).

(** [Get]; a failing read is an absent key. *)
Definition cal_Get (category family : string) (s : CalibrationStore) : Z :=
  i64 (counter_of (bg_get (calibrationKey category family) (cs_db s))).

Definition GetThreshold (category family : string) (s : CalibrationStore) : Z :=
  match cal_CategoryOverrides (cs_config s) !! category with
  | Some v => v
  | None => match cal_FamilyOverrides (cs_config s) !! family with Some v => v | None => cal_DefaultThreshold (cs_config s) end
  end.

Definition IsCalibrated (category family : string) (s : CalibrationStore) : bool :=
  bool_decide (GetThreshold category family s <= cal_Get category family s).

Definition cal_Empty (s : CalibrationStore) : option bool := (λ l, bool_decide (l = [])) <$> bg_scan "cal:" (cs_db s).
End calibration.
#[global] Arguments CalibrationStore : clear implicits.

(** * Validator reputation *)

Record ValidatorReputation := mkReputation {
  rep_ValidatorID : AgentID;
  rep_Family : string;
  rep_Category : string;
  rep_TotalVotes : Z;
  rep_AgreeingVotes : Z;
  rep_DeviatingVotes : Z;
  rep_AbstainedVotes : Z;
  rep_EquivocationEvents : Z;
  rep_LastUpdated : Z;
}.

Definition no_reputation (validatorID : AgentID) (family category : string) : ValidatorReputation :=
  mkReputation validatorID family category 0 0 0 0 0 0.

(** [AgreementRate]. *)
Definition AgreementRate (r : ValidatorReputation) : F64 :=
  if decide (rep_TotalVotes r = 0) then mkF64 0 1 else f64_ratio (rep_AgreeingVotes r) (rep_TotalVotes r).

(** [json.Marshal], and [json.Unmarshal] into a given record: what it leaves in the
    record and whether it succeeded. *)
Class ReputationCodec : Type := {
  marshal_reputation : ValidatorReputation → option string;
  unmarshal_reputation : string → ValidatorReputation → ValidatorReputation * bool;
}.

Section reputation.
Context {D : Type} `{!Badger D, !ReputationCodec}.

Definition reputationKey (validatorID : AgentID) (family category : string) : string :=
  "tvr:" +:+ validatorID +:+ ":" +:+ family +:+ ":" +:+ category.

(** The record of a validator as it decodes, a zero record when there is none, and
    whether decoding failed, which the writers ignore. *)
Definition rep_read (validatorID : AgentID) (family category : string) (d : D) : ValidatorReputation * bool :=
  let zero := no_reputation validatorID family category in
  match bg_get (reputationKey validatorID family category) d with None => (zero, true) | Some val => unmarshal_reputation val zero end.

Definition rep_load (validatorID : AgentID) (family category : string) (d : D) : ValidatorReputation :=
  (rep_read validatorID family category d).1.

(** [Get]. *)
Definition rep_Get (validatorID : AgentID) (family category : string) (d : D) : option ValidatorReputation :=
  let '(rep, ok) := rep_read validatorID family category d in if ok : bool then Some rep else None.

Definition count_vote (agreed abstained : bool) (now : Z) (r : ValidatorReputation) : ValidatorReputation :=
  mkReputation (rep_ValidatorID r) (rep_Family r) (rep_Category r) (u64 (rep_TotalVotes r + 1))
    (if abstained then rep_AgreeingVotes r else if agreed then u64 (rep_AgreeingVotes r + 1) else rep_AgreeingVotes r)
    (if abstained then rep_DeviatingVotes r else if agreed then rep_DeviatingVotes r else u64 (rep_DeviatingVotes r + 1))
    (if abstained then u64 (rep_AbstainedVotes r + 1) else rep_AbstainedVotes r)
    (rep_EquivocationEvents r) now.

Definition count_equivocation (now : Z) (r : ValidatorReputation) : ValidatorReputation :=
  mkReputation (rep_ValidatorID r) (rep_Family r) (rep_Category r) (rep_TotalVotes r) (rep_AgreeingVotes r) (rep_DeviatingVotes r)
    (rep_AbstainedVotes r) (u64 (rep_EquivocationEvents r + 1)) now.

(** The database and whether the write succeeded. *)
Definition RecordVote (validatorID : AgentID) (family category : string) (agreed abstained : bool) (now : Z) (d : D) : D * bool :=
  match marshal_reputation (count_vote agreed abstained now (rep_load validatorID family category d)) with
  | None => (d, false)
  | Some data => bg_update [KVSet (reputationKey validatorID family category) data] d
  end.

(** A marshalling failure is ignored and writes an empty value. *)
Definition RecordEquivocation (validatorID : AgentID) (family category : string) (now : Z) (d : D) : D * bool :=
  let data := default "" (marshal_reputation (count_equivocation now (rep_load validatorID family category d))) in
  bg_update [KVSet (reputationKey validatorID family category) data] d.

Definition ValidatorQScore (validatorID : AgentID) (family category : string) (d : D) : F64 :=
  match rep_Get validatorID family category d with
  | None => f64_one
  | Some rep =>
      if decide (rep_TotalVotes rep = 0) then f64_one
      else
        let rate := AgreementRate rep in
        if decide (f64_num rate = 0) then f64_round 1 100 else rate
  end.
End reputation.

(** * Slashing *)

Inductive SlashingType := SlashingTypeSoft | SlashingTypeHard.

Record SlashingAction := mkAction {
  sa_ValidatorID : AgentID;
  sa_Type : SlashingType;
  sa_Reason : string;
  sa_StakePenaltyBP : Z;
  sa_ReputationPenalty : Z;
}.

Record SlashingPolicy := mkPolicy {
  sp_SoftSlashingEnabled : bool;
  sp_HardSlashingEnabled : bool;
  sp_EquivocationAutoSlash : bool;
  sp_SystematicDivergenceThreshold : F64;
  sp_SystematicDivergenceMinVotes : Z;
  sp_EquivocationStakePenaltyBP : Z;
  sp_SystematicDivergenceStakePenaltyBP : Z;
  sp_ChallengeWindowSeconds : Z;
}.

Definition DefaultSlashingPolicy : SlashingPolicy := mkPolicy true true true (f64_round 30 100) 50 3000 1000 60.

(** [detectEquivocators]: the first verdict and score of every (validator, family), and
    the validators found so far. *)
Definition equivocation_step (acc : gmap (AgentID * string) (Verdict * Z) * list AgentID) (v : TaskVerificationVoteRecord) :
    gmap (AgentID * string) (Verdict * Z) * list AgentID :=
  let '(first, equivocators) := acc in
  match first !! voter v with
  | Some prev =>
      if decide (prev.1 ≠ v_Verdict v ∨ prev.2 ≠ v_ScoreBP v) then
        (first, if decide (v_ValidatorID v ∈ equivocators) then equivocators else equivocators ++ [v_ValidatorID v])
      else acc
  | None => (<[voter v := (v_Verdict v, v_ScoreBP v)]> first, equivocators)
  end.

Definition detectEquivocators (round : TaskVerificationRound) : list AgentID := (foldl equivocation_step (∅, []) (r_Votes round)).2.

Section slashing.
Context {D R : Type} `{!Badger D, !Badger R, !ReputationCodec}.

Record SlashingEvaluator := mkSlashing {
  se_policy : SlashingPolicy;
  se_reputation : option R;
  se_calibration : option (CalibrationStore D);
}.

Definition soft_slash (e : SlashingEvaluator) (round : TaskVerificationRound) (v : TaskVerificationVoteRecord) : list SlashingAction :=
  if sp_SoftSlashingEnabled (se_policy e) && bool_decide (v_Verdict v ≠ r_FinalVerdict round) && bool_decide (v_Verdict v ≠ VerdictAbstain)
  then [mkAction (v_ValidatorID v) SlashingTypeSoft "deviation from consensus" 0 1] else [].

Definition systematic_slash (e : SlashingEvaluator) (round : TaskVerificationRound) (v : TaskVerificationVoteRecord) : list SlashingAction :=
  match se_reputation e with
  | None => []
  | Some reps =>
      if sp_HardSlashingEnabled (se_policy e) && bool_decide (v_Verdict v ≠ r_FinalVerdict round) then
        match rep_Get (v_ValidatorID v) (v_AnalyzerFamily v) (r_Category round) reps with
        | None => []
        | Some rep =>
            if decide (u64 (sp_SystematicDivergenceMinVotes (se_policy e)) <= rep_TotalVotes rep)
            then if f64_ltb (AgreementRate rep) (sp_SystematicDivergenceThreshold (se_policy e))
                 then [mkAction (v_ValidatorID v) SlashingTypeHard "systematic divergence: agreement rate below threshold"
                         (sp_SystematicDivergenceStakePenaltyBP (se_policy e)) 0]
                 else []
            else []
        end
      else []
  end.

(** The body of the loop over the votes. *)
Definition slash_vote (e : SlashingEvaluator) (round : TaskVerificationRound) (v : TaskVerificationVoteRecord) : list SlashingAction :=
  let calibrated := match se_calibration e with None => true | Some c => IsCalibrated (r_Category round) (v_AnalyzerFamily v) c end in
  if calibrated then soft_slash e round v ++ systematic_slash e round v else [].

Definition equivocation_slashes (e : SlashingEvaluator) (round : TaskVerificationRound) : list SlashingAction :=
  if sp_HardSlashingEnabled (se_policy e) && sp_EquivocationAutoSlash (se_policy e) then
    (λ vid, mkAction vid SlashingTypeHard "equivocation: conflicting votes for same family" (sp_EquivocationStakePenaltyBP (se_policy e)) 0)
      <$> detectEquivocators round
  else [].

Definition EvaluateRound (e : SlashingEvaluator) (round : TaskVerificationRound) : list SlashingAction :=
  if negb (round_IsTerminal round) then []
  else (r_Votes round ≫= slash_vote e round) ++ equivocation_slashes e round.
End slashing.
#[global] Arguments SlashingEvaluator : clear implicits.

(** * The consensus consumer *)

(** [DispatcherAdmitter]: whether [Admit] returned nil. *)
Class DispatcherAdmitter (W : Type) : Type := { Admit : Event → W → W * bool }.

(** The settler, called directly when there is no dispatcher. *)
Class RoundSettler (W : Type) : Type := { settle_round : TaskVerificationConsensusPayload → TaskVerificationRound → W → W }.

Section consensus_consumer.
Context {S D R W V : Type} `{!RoundStore S, !Badger D, !Badger R, !ReputationCodec, !DispatcherAdmitter W, !RoundSettler V, !ConsensusCodec}.

Record ConsensusConsumer := mkConsensusConsumer {
  cc_rounds : S;
  cc_settler : option V;
  cc_dispatcher : option W;
  cc_slashing : option (SlashingEvaluator D R);
  cc_calibration : option (CalibrationStore D);
}.

Definition set_cc (s : S) (v : option V) (w : option W) (cal : option (CalibrationStore D)) (c : ConsensusConsumer) : ConsensusConsumer :=
  mkConsensusConsumer s v w (cc_slashing c) cal.

(** The loop over the votes: every family once, in the order of the votes, until an
    increment fails. *)
Fixpoint calibrate (category : string) (votes : list TaskVerificationVoteRecord) (seen : gset string) (cal : CalibrationStore D) :
    CalibrationStore D * bool :=
  match votes with
  | [] => (cal, true)
  | v :: votes =>
      let fam := v_AnalyzerFamily v in
      if decide (fam = "" ∨ fam ∈ seen) then calibrate category votes seen cal
      else
        let '(cal, n) := Increment category fam cal in
        match n with
        | None => (cal, false)
        | Some _ => calibrate category votes ({[fam]} ∪ seen) cal
        end
  end.

(** Calibration: the round has the flag in memory also when it cannot be saved. *)
Definition cc_calibrate (round : TaskVerificationRound) (c : ConsensusConsumer) : ConsensusConsumer * TaskVerificationRound :=
  match cc_calibration c with
  | None => (c, round)
  | Some cal =>
      if r_CalibrationApplied round then (c, round)
      else
        let '(cal, allSucceeded) := calibrate (r_Category round) (r_Votes round) ∅ cal in
        if allSucceeded : bool then
          let round := set_calibrated round in
          let '(s, _) := rs_save round (cc_rounds c) in
          (set_cc s (cc_settler c) (cc_dispatcher c) (Some cal) c, round)
        else (set_cc (cc_rounds c) (cc_settler c) (cc_dispatcher c) (Some cal) c, round)
  end.

(** The evaluator reads the counters of the same database. *)
Definition cc_slash (round : TaskVerificationRound) (c : ConsensusConsumer) : list SlashingAction :=
  match cc_slashing c with
  | None => []
  | Some e =>
      let cal := match se_calibration e, cc_calibration c with Some _, Some cal => Some cal | old, _ => old end in
      EvaluateRound (mkSlashing (se_policy e) (se_reputation e) cal) round
  end.

(** [Consume]: the slashing actions are only logged. *)
Definition consensus_Consume (ev : Event) (c : ConsensusConsumer) : ConsensusConsumer * option ConsumeError * list SlashingAction :=
  match GetPayload unmarshal_consensus ev with
  | None => (c, Some ErrUnmarshal, [])
  | Some p =>
      let '(s, out) := consensus_round p (cc_rounds c) in
      let c := set_cc s (cc_settler c) (cc_dispatcher c) (cc_calibration c) c in
      match out with
      | inl err => (c, err, [])
      | inr round =>
          let c := match cc_dispatcher c with
            | Some w => set_cc s (cc_settler c) (Some (Admit ev w).1) (cc_calibration c) c
            | None => set_cc s (settle_round p round <$> cc_settler c) None (cc_calibration c) c
            end in
          let '(c, round) := cc_calibrate round c in
          (c, None, cc_slash round c)
      end
  end.
End consensus_consumer.
#[global] Arguments ConsensusConsumer : clear implicits.

(** * Equivocation *)

Section equivocation.
Implicit Types (votes : list TaskVerificationVoteRecord).

Definition conflict (v1 v2 : TaskVerificationVoteRecord) : Prop :=
  voter v1 = voter v2 ∧ (v_Verdict v1 ≠ v_Verdict v2 ∨ v_ScoreBP v1 ≠ v_ScoreBP v2).

(** What the loop knows after a prefix of the votes. *)
Record equivocation_inv (votes : list TaskVerificationVoteRecord) (acc : gmap (AgentID * string) (Verdict * Z) * list AgentID) : Prop := {
  eq_first k x : acc.1 !! k = Some x ↔ ∃ v pre post, votes = pre ++ v :: post ∧ voter v = k ∧ x = (v_Verdict v, v_ScoreBP v) ∧ k ∉ voter <$> pre;
  eq_nodup : NoDup acc.2;
  eq_found vid : vid ∈ acc.2 ↔ ∃ v1 v2, v1 ∈ votes ∧ v2 ∈ votes ∧ v_ValidatorID v1 = vid ∧ conflict v1 v2;
}.

Lemma first_occurrence votes k : k ∈ voter <$> votes → ∃ v pre post, votes = pre ++ v :: post ∧ voter v = k ∧ k ∉ voter <$> pre.
Proof.
  induction votes as [|v votes IH]; cbn; [set_solver|]. intros Hk.
  destruct (decide (voter v = k)) as [<-|Hne]; [exists v, [], votes; split_and!; [done|done|apply not_elem_of_nil]|].
  apply elem_of_cons in Hk as [Hk|Hk]; [congruence|].
  destruct (IH Hk) as (v' & pre & post & -> & Hv & Hn). exists v', (v :: pre), post. split_and!; [done|done|]. cbn. rewrite not_elem_of_cons. by split; [apply not_eq_sym|].
Qed.

Lemma equivocation_snoc votes acc v : equivocation_inv votes acc → equivocation_inv (votes ++ [v]) (equivocation_step acc v).
Proof.
  intros [Hfirst Hnd Hfound]. destruct acc as [first eqs]. cbn [fst snd] in *. unfold equivocation_step.
  assert (∀ k x, (∃ v0 pre post, votes ++ [v] = pre ++ v0 :: post ∧ voter v0 = k ∧ x = (v_Verdict v0, v_ScoreBP v0) ∧ k ∉ voter <$> pre)
    ↔ first !! k = Some x ∨ (voter v = k ∧ x = (v_Verdict v, v_ScoreBP v) ∧ k ∉ voter <$> votes)) as Hsnoc.
  { intros k x. rewrite Hfirst. split.
    - intros (v0 & pre & post & Heq & Hv & Hx & Hn). destruct post as [|y post _] using rev_ind.
      + apply app_inj_2 in Heq as [-> [= ->]]; [by right|done].
      + rewrite app_comm_cons, app_assoc in Heq. apply app_inj_2 in Heq as [-> _]; [|done]. left. by exists v0, pre, post.
    - intros [(v0 & pre & post & Heq & Hv & Hx & Hn)|(Hv & Hx & Hn)].
      + exists v0, pre, (post ++ [v]). subst votes. rewrite <- app_assoc. by split_and!.
      + exists v, votes, []. by split_and!. }
  assert (∀ vid, (∃ v1 v2, v1 ∈ votes ++ [v] ∧ v2 ∈ votes ++ [v] ∧ v_ValidatorID v1 = vid ∧ conflict v1 v2)
    ↔ vid ∈ eqs ∨ (v_ValidatorID v = vid ∧ ∃ v1, v1 ∈ votes ∧ conflict v1 v)) as Hnew.
  { intros vid. rewrite Hfound. split.
    - intros (v1 & v2 & [H1|H1%list_elem_of_singleton]%elem_of_app & [H2|H2%list_elem_of_singleton]%elem_of_app & Hid & Hc).
      + left. by exists v1, v2.
      + subst v2. right. split; [|by exists v1]. destruct Hc as [Hvt _]. injection Hvt as Hvid _. congruence.
      + subst v1. right. split; [done|]. exists v2. split; [done|]. destruct Hc as [Hvt Hc]. split; [done|naive_solver].
      + subst v1 v2. destruct Hc as [_ [Hc|Hc]]; done.
    - intros [(v1 & v2 & H1 & H2 & Hid & Hc)|(Hid & v1 & H1 & Hc)].
      + exists v1, v2. rewrite !elem_of_app. tauto.
      + exists v1, v. rewrite !elem_of_app. split; [by left|]. split; [right; by apply list_elem_of_singleton|]. split; [|done].
        destruct Hc as [Hvt _]. injection Hvt as Hvid _. congruence. }
  destruct (first !! voter v) as [prev|] eqn:Hprev.
  - destruct (proj1 (Hfirst (voter v) prev) Hprev) as (v0 & pre & post & Hvotes & Hv0 & Hx & Hnpre).
    assert (voter v ∈ voter <$> votes) as Hin by (rewrite <- Hv0, Hvotes, fmap_app; cbn; set_solver).
    assert (∀ k x, first !! k = Some x ∨ (voter v = k ∧ x = (v_Verdict v, v_ScoreBP v) ∧ k ∉ voter <$> votes) ↔ first !! k = Some x) as Hkeep
      by (intros k x; split; [intros [?|(<- & _ & ?)]; done|by left]).
    assert (v0 ∈ votes) as Hv0in by (rewrite Hvotes; set_solver).
    destruct (decide (prev.1 ≠ v_Verdict v ∨ prev.2 ≠ v_ScoreBP v)) as [Hd|Hd].
    + assert (conflict v0 v) as Hconf by (split; [done|]; by subst prev).
      assert (∀ vid, (v_ValidatorID v = vid ∧ ∃ v1, v1 ∈ votes ∧ conflict v1 v) ↔ vid = v_ValidatorID v) as Hwho by (intros vid; naive_solver).
      split; cbn [fst snd].
      * intros k x. by rewrite Hsnoc, Hkeep.
      * case_decide; [done|]. apply NoDup_app. split_and!; [done|set_solver|apply NoDup_singleton].
      * intros vid. rewrite Hnew, Hwho. case_decide; rewrite ?elem_of_app, ?list_elem_of_singleton; naive_solver.
    + assert (prev.1 = v_Verdict v ∧ prev.2 = v_ScoreBP v) as [Hp1 Hp2] by (split; apply dec_stable; tauto).
      split; cbn [fst snd]; [intros k x; by rewrite Hsnoc, Hkeep|done|].
      intros vid. rewrite Hnew. split; [by left|]. intros [Hq|(<- & v1 & Hv1 & Hc)]; [done|]. apply Hfound. exists v1, v0.
      subst prev. cbn in Hp1, Hp2. destruct Hc as [Hvt Hc]. split_and!; [done|done| |split; [congruence|]].
      * injection Hvt as Hvid _. congruence.
      * rewrite Hp1, Hp2. done.
  - assert (voter v ∉ voter <$> votes) as Hnin.
    { intros Hin. destruct (first_occurrence votes _ Hin) as (v0 & pre & post & Hvotes & Hv0 & Hn).
      assert (first !! voter v = Some (v_Verdict v0, v_ScoreBP v0)) as Hs by (apply Hfirst; by exists v0, pre, post). congruence. }
    split; cbn [fst snd].
    + intros k x. rewrite Hsnoc, lookup_insert_Some. split; [naive_solver|]. intros [Hk|(<- & -> & _)]; [|by left].
      right. split; [|done]. intros <-. congruence.
    + done.
    + intros vid. rewrite Hnew. split; [by left|]. intros [?|(_ & v1 & Hv1 & [Hvt _])]; [done|]. exfalso. apply Hnin.
      rewrite <- Hvt. apply list_elem_of_fmap. by exists v1.
Qed.

Lemma detectEquivocators_spec round :
  NoDup (detectEquivocators round)
  ∧ ∀ vid, vid ∈ detectEquivocators round ↔
      ∃ v1 v2, v1 ∈ r_Votes round ∧ v2 ∈ r_Votes round ∧ v_ValidatorID v1 = vid ∧ conflict v1 v2.
Proof.
  assert (equivocation_inv (r_Votes round) (foldl equivocation_step (∅, []) (r_Votes round))) as [_ Hnd Hfound]; [|done].
  induction (r_Votes round) as [|v votes IH] using rev_ind.
  - split; cbn; [|constructor|set_solver]. intros k x. rewrite lookup_empty. split; [done|]. intros (v & pre & post & Heq & _).
    by destruct pre.
  - rewrite foldl_app. cbn [foldl]. by apply equivocation_snoc.
Qed.

(** The votes of an open round never conflict. *)
Lemma round_ok_no_equivocators round : round_ok round → detectEquivocators round = [].
Proof.
  intros Hok. destruct (detectEquivocators round) as [|vid l] eqn:Hd; [done|]. exfalso.
  destruct (detectEquivocators_spec round) as [_ Hspec]. destruct (proj1 (Hspec vid)) as (v1 & v2 & H1 & H2 & _ & Hvt & Hc); [rewrite Hd; left|].
  pose proof (ro_voters round Hok) as Hnd. apply list_elem_of_lookup in H1 as [i Hi]. apply list_elem_of_lookup in H2 as [j Hj].
  assert (i = j) as ->.
  { apply (NoDup_lookup (voter <$> r_Votes round) i j (voter v1)); [done|by rewrite list_lookup_fmap, Hi|by rewrite list_lookup_fmap, Hj, Hvt]. }
  assert (v1 = v2) as -> by congruence. naive_solver.
Qed.
End equivocation.

(** * Slashing, vote by vote *)

Section slashing_spec.
Context {D R : Type} `{!Badger D, !Badger R, !ReputationCodec}.
Implicit Types (e : SlashingEvaluator D R) (round : TaskVerificationRound).

Definition family_calibrated e round (v : TaskVerificationVoteRecord) : Prop :=
  ∀ c, se_calibration e = Some c → GetThreshold (r_Category round) (v_AnalyzerFamily v) c <= cal_Get (r_Category round) (v_AnalyzerFamily v) c.

(** The validator has been wrong too often: at least the minimal number of votes,
    and an agreement rate below the threshold. *)
Definition diverges e round (v : TaskVerificationVoteRecord) : Prop :=
  ∃ reps rep, se_reputation e = Some reps ∧ rep_Get (v_ValidatorID v) (v_AnalyzerFamily v) (r_Category round) reps = Some rep
    ∧ u64 (sp_SystematicDivergenceMinVotes (se_policy e)) <= rep_TotalVotes rep
    ∧ f64_ltb (AgreementRate rep) (sp_SystematicDivergenceThreshold (se_policy e)) = true.

Lemma soft_slash_spec e round v a : a ∈ soft_slash e round v ↔
  sp_SoftSlashingEnabled (se_policy e) = true ∧ v_Verdict v ≠ r_FinalVerdict round ∧ v_Verdict v ≠ VerdictAbstain
  ∧ a = mkAction (v_ValidatorID v) SlashingTypeSoft "deviation from consensus" 0 1.
Proof.
  unfold soft_slash. destruct (sp_SoftSlashingEnabled _); cbn [andb]; [|set_solver].
  repeat case_bool_decide; cbn [andb]; rewrite ?list_elem_of_singleton, ?elem_of_nil; tauto.
Qed.

Lemma systematic_slash_spec e round v a : a ∈ systematic_slash e round v ↔
  sp_HardSlashingEnabled (se_policy e) = true ∧ v_Verdict v ≠ r_FinalVerdict round ∧ diverges e round v
  ∧ a = mkAction (v_ValidatorID v) SlashingTypeHard "systematic divergence: agreement rate below threshold"
          (sp_SystematicDivergenceStakePenaltyBP (se_policy e)) 0.
Proof.
  unfold systematic_slash, diverges. destruct (se_reputation e) as [reps|]; [|split; [by intros ?%elem_of_nil|naive_solver]].
  destruct (sp_HardSlashingEnabled _); cbn [andb]; [|split; [by intros ?%elem_of_nil|naive_solver]].
  case_bool_decide; [|split; [by intros ?%elem_of_nil|tauto]].
  destruct (rep_Get _ _ _ reps) as [rep|] eqn:Hrep; [|split; [by intros ?%elem_of_nil|naive_solver]].
  case_decide; [|split; [by intros ?%elem_of_nil|naive_solver]].
  destruct (f64_ltb _ _) eqn:Hlt; [rewrite list_elem_of_singleton|split; [by intros ?%elem_of_nil|intros (_ & _ & (? & ? & [= <-] & Hg & _ & Hlt') & _); congruence]].
  split; [|tauto]. intros ->. split_and!; [done|done| |done]. by exists reps, rep.
Qed.

Lemma slash_vote_spec e round v a : a ∈ slash_vote e round v ↔ family_calibrated e round v ∧ (a ∈ soft_slash e round v ∨ a ∈ systematic_slash e round v).
Proof.
  unfold slash_vote, family_calibrated, IsCalibrated. destruct (se_calibration e) as [c|].
  - case_bool_decide; rewrite ?elem_of_app, ?elem_of_nil; naive_solver.
  - rewrite elem_of_app. naive_solver.
Qed.

Lemma equivocation_slashes_spec e round a : a ∈ equivocation_slashes e round ↔
  sp_HardSlashingEnabled (se_policy e) = true ∧ sp_EquivocationAutoSlash (se_policy e) = true
  ∧ ∃ v1 v2, v1 ∈ r_Votes round ∧ v2 ∈ r_Votes round ∧ conflict v1 v2
      ∧ a = mkAction (v_ValidatorID v1) SlashingTypeHard "equivocation: conflicting votes for same family"
              (sp_EquivocationStakePenaltyBP (se_policy e)) 0.
Proof.
  unfold equivocation_slashes. destruct (detectEquivocators_spec round) as [_ Hd].
  destruct (sp_HardSlashingEnabled _), (sp_EquivocationAutoSlash _); cbn [andb]; rewrite ?elem_of_nil; [|naive_solver..].
  rewrite list_elem_of_fmap. setoid_rewrite Hd. split.
  - intros (vid & -> & v1 & v2 & H1 & H2 & <- & Hc). split_and!; [done|done|]. by exists v1, v2.
  - intros (_ & _ & v1 & v2 & H1 & H2 & Hc & ->). exists (v_ValidatorID v1). split; [done|]. by exists v1, v2.
Qed.
End slashing_spec.

(** * Scores *)

Lemma f64_ratio_ok x y : 0 <= x → 0 < y → f64_ok (f64_ratio x y).
Proof. intros Hx Hy. destruct (f64_ratio_bounds x y Hx Hy) as (Hd & Hn & _). by split. Qed.

(** A score is positive, whatever the record: settlement divides by a sum of them. *)
Lemma ValidatorQScore_ok {D} `{!Badger D, !ReputationCodec} validatorID family category (d : D) :
  (∀ s z, let r := (unmarshal_reputation s z).1 in is_u64 (rep_TotalVotes r) ∧ is_u64 (rep_AgreeingVotes r)) →
  f64_ok (ValidatorQScore validatorID family category d) ∧ 0 < f64_num (ValidatorQScore validatorID family category d).
Proof.
  intros Hu. assert (f64_ok f64_one ∧ 0 < f64_num f64_one) as Hone by by split; [vm_compute; split; [reflexivity|discriminate]|].
  assert (f64_ok (f64_round 1 100) ∧ 0 < f64_num (f64_round 1 100)) as Hmin by (split; [vm_compute; split; [reflexivity|discriminate]|vm_compute; reflexivity]).
  unfold ValidatorQScore. destruct (rep_Get _ _ _ d) as [rep|] eqn:Hrep; [|done].
  assert (is_u64 (rep_TotalVotes rep) ∧ is_u64 (rep_AgreeingVotes rep)) as [Ht Ha].
  { unfold rep_Get, rep_read in Hrep. destruct (bg_get _ d) as [val|]; [|injection Hrep as <-].
    - pose proof (Hu val (no_reputation validatorID family category)) as Hval.
      destruct (unmarshal_reputation val _) as [r []]; [|done]. by injection Hrep as <-.
    - cbn. unfold is_u64, MaxUint64, u64_mod. lia. }
  case_decide as Ht0; [done|]. assert (AgreementRate rep = f64_ratio (rep_AgreeingVotes rep) (rep_TotalVotes rep)) as -> by by apply decide_False.
  case_decide as Hn0; [done|]. assert (f64_ok (f64_ratio (rep_AgreeingVotes rep) (rep_TotalVotes rep))) as Hok.
  { unfold is_u64 in Ht, Ha. apply f64_ratio_ok; lia. }
  split; [done|]. destruct Hok. lia.
Qed.

(** * Counting families *)

Section calibration_spec.
Context {D : Type} `{!Badger D, !BadgerLaws D, !BadgerReads D}.
Context (reliable : ∀ ops (d : D), (bg_update ops d).2 = true).
Implicit Types (cal : CalibrationStore D).

Lemma counter_of_bytes n : is_u64 n → counter_of (Some (counter_bytes n)) = n.
Proof.
  intros Hn. unfold counter_of, counter_bytes. rewrite bytes_of_string_of_bytes by apply le_put_bytes.
  rewrite le_put_length, decide_True by done. apply le_get_put. exact Hn.
Qed.

Lemma calibrationKey_inj category f1 f2 : calibrationKey category f1 = calibrationKey category f2 → f1 = f2.
Proof. unfold calibrationKey. intros Heq. by repeat apply (inj (String.append _)) in Heq. Qed.

(** The counter of one family, one more. *)
Definition bump category cal (fam : string) : Z := i64 (cal_Get category fam cal + 1).

Lemma i64_u64 z : i64 (u64 z) = i64 z.
Proof. by rewrite eqm_u64. Qed.

Lemma Increment_spec category family cal :
  ∃ cal' n, Increment category family cal = (cal', Some n)
    ∧ ∀ fam, cal_Get category fam cal' = if decide (fam = family) then bump category cal fam else cal_Get category fam cal.
Proof.
  unfold Increment. pose proof (reliable [KVSet (calibrationKey category family) (counter_bytes
    (u64 (counter_of (bg_get (calibrationKey category family) (cs_db cal)) + 1)))] (cs_db cal)) as Hr.
  destruct (bg_update _ (cs_db cal)) as [d ok] eqn:Hu. cbn in Hr. subst ok. apply bg_update_ok in Hu. cbn [foldl apply_op] in Hu.
  eexists _, _. split; [done|]. intros fam. unfold bump, cal_Get. cbn [cs_db]. rewrite !bg_get_view, Hu. case_decide as Hf.
  - subst fam. rewrite lookup_insert_eq, counter_of_bytes by apply u64_range. rewrite i64_u64. rewrite bg_get_view. apply i64_proper. f_equiv. symmetry. apply eqm_i64.
  - rewrite lookup_insert_ne; [done|]. intros Hk%calibrationKey_inj. congruence.
Qed.

Lemma calibrate_spec category votes seen cal :
  ∃ cal', calibrate category votes seen cal = (cal', true)
    ∧ ∀ fam, cal_Get category fam cal' =
        if decide (fam ≠ "" ∧ fam ∉ seen ∧ fam ∈ v_AnalyzerFamily <$> votes) then bump category cal fam else cal_Get category fam cal.
Proof.
  revert seen cal. induction votes as [|v votes IH]; intros seen cal; cbn [calibrate].
  - exists cal. split; [done|]. intros fam. rewrite decide_False; [done|]. intros (_ & _ & ?%elem_of_nil). done.
  - case_decide as Hs.
    + destruct (IH seen cal) as (cal' & -> & Hc). exists cal'. split; [done|]. intros fam. rewrite Hc.
      apply decide_ext. cbn. rewrite elem_of_cons. split; naive_solver.
    + destruct (Increment_spec category (v_AnalyzerFamily v) cal) as (cal1 & n & -> & Hinc).
      destruct (IH ({[v_AnalyzerFamily v]} ∪ seen) cal1) as (cal' & -> & Hc). exists cal'. split; [done|]. intros fam. rewrite Hc.
      unfold bump. rewrite !Hinc. destruct (decide (fam = v_AnalyzerFamily v)) as [->|Hne].
      * rewrite decide_False by set_solver. rewrite decide_True; [done|]. cbn. split_and!; [tauto|tauto|left].
      * apply decide_ext. cbn. rewrite elem_of_cons. set_solver.
Qed.
End calibration_spec.

(** * Repeated verdict events *)

Section consumer_spec.
Context {S D R W V : Type} `{!RoundStore S, !RoundEncoding, !RoundStoreLaws S, !ReliableRounds S, !Badger D, !BadgerLaws D, !BadgerReads D, !Badger R,
  !ReputationCodec, !DispatcherAdmitter W, !RoundSettler V, !ConsensusCodec}.
Implicit Types (c : ConsensusConsumer S D R W V) (r : TaskVerificationRound).

(** Reads of rounds that are there, and writes of counters, succeed. *)
Context (loads : ∀ (s : S) id r, rs_ok s → rs_view s !! id = Some r → rs_load id s = inr r).
Context (reliable : ∀ ops (d : D), (bg_update ops d).2 = true).

(** The same votes, seen by calibration. *)
Definition same_counts r r' : Prop :=
  r_Category r' = r_Category r ∧ r_Votes r' = r_Votes r ∧ r_RoundID r' = r_RoundID r ∧ r_CalibrationApplied r' = r_CalibrationApplied r.

Lemma consensus_round_loaded p (s : S) r : rs_ok s → rs_view s !! k_RoundID p = Some r →
  ∃ s' r', consensus_round p s = (s', inr r') ∧ rs_ok s' ∧ same_counts r r'
    ∧ ∃ r'', rs_view s' !! k_RoundID p = Some r'' ∧ r_CalibrationApplied r'' = r_CalibrationApplied r.
Proof.
  intros Hok Hr. assert (r_RoundID r = k_RoundID p) as Hid by (exact (rs_view_key _ _ _ Hok Hr)). unfold consensus_round. rewrite (loads _ _ _ Hok Hr).
  assert (same_counts r r) as Hrefl by done.
  assert (∃ s' r', (s, inr r : option ConsumeError + TaskVerificationRound) = (s', inr r') ∧ rs_ok s' ∧ same_counts r r'
    ∧ ∃ r'', rs_view s' !! k_RoundID p = Some r'' ∧ r_CalibrationApplied r'' = r_CalibrationApplied r) as Hsame0.
  { exists s, r. split_and!; [done|done|done|]. by exists r. }
  destruct (round_IsTerminal r); [exact Hsame0|].
  destruct (round_Transition r _ _) as [|r1] eqn:Ht; [exact Hsame0|]. clear Hsame0.
  assert (same_counts r r1) as Hsame by (unfold round_Transition in Ht; destruct (negb _); [done|]; by injection Ht as <-).
  set (r2 := set_outcome _ _ r1). assert (same_counts r r2) as Hsame2 by exact Hsame.
  pose proof (reliable_save r2 s) as Hs. destruct (rs_save r2 s) as [s' e] eqn:Hsave. cbn in Hs. subst e.
  destruct (rs_save_ok _ _ _ Hok Hsave) as [Hok' Hview]. exists s', r2. split_and!; [done|done|done|]. exists (rs_stored r2).
  rewrite Hview. destruct Hsame2 as (_ & _ & Hid2 & Hc). rewrite Hid2, Hid, lookup_insert_eq. split; [done|]. by rewrite stored_calibrated.
Qed.

(** What one event of the round does to the counters. *)
Lemma consensus_Consume_counts ev p c cal r :
  rs_ok (cc_rounds c) → GetPayload unmarshal_consensus ev = Some p → rs_view (cc_rounds c) !! k_RoundID p = Some r → cc_calibration c = Some cal →
  let c' := (consensus_Consume ev c).1.1 in
  rs_ok (cc_rounds c') ∧ (∃ r', rs_view (cc_rounds c') !! k_RoundID p = Some r' ∧ r_CalibrationApplied r' = true)
  ∧ ∃ cal', cc_calibration c' = Some cal' ∧
      if r_CalibrationApplied r then cal' = cal
      else ∀ fam, cal_Get (r_Category r) fam cal' =
        if decide (fam ≠ "" ∧ fam ∈ v_AnalyzerFamily <$> r_Votes r) then i64 (cal_Get (r_Category r) fam cal + 1) else cal_Get (r_Category r) fam cal.
Proof.
  intros Hok Hp Hr Hcal. unfold consensus_Consume. rewrite Hp.
  destruct (consensus_round_loaded p (cc_rounds c) r Hok Hr) as (s' & r' & -> & Hok' & (Hcat & Hvotes & Hid & Happ) & r'' & Hr'' & Happ'').
  assert (r_RoundID r = k_RoundID p) as Hkey by (exact (rs_view_key _ _ _ Hok Hr)).
  set (c1 := match cc_dispatcher _ with Some w => _ | None => _ end).
  assert (cc_rounds c1 = s' ∧ cc_calibration c1 = Some cal) as [Hs1 Hc1] by (subst c1; cbn; by destruct (cc_dispatcher c)).
  clearbody c1. unfold cc_calibrate. rewrite Hc1, Happ. destruct (r_CalibrationApplied r) eqn:Ha.
  - cbn. rewrite Hs1. split_and!; [done|by exists r''|by exists cal].
  - rewrite Hcat, Hvotes. destruct (calibrate_spec reliable (r_Category r) (r_Votes r) ∅ cal) as (cal' & -> & Hc).
    rewrite Hs1. pose proof (reliable_save (set_calibrated r') s') as Hs. destruct (rs_save _ s') as [s2 e] eqn:Hsave. cbn in Hs. subst e.
    destruct (rs_save_ok _ _ _ Hok' Hsave) as [Hok2 Hview]. cbn. split_and!; [done| |].
    + exists (rs_stored (set_calibrated r')). rewrite Hview. cbn. rewrite Hid, Hkey, lookup_insert_eq. split; [done|]. by rewrite stored_calibrated.
    + exists cal'. split; [done|]. intros fam. rewrite Hc. apply decide_ext. set_solver.
Qed.
End consumer_spec.

(** * The properties *)

(** Which slashing actions a round leads to: none before it is final; then a
    warning for every vote against the verdict that is not an abstention, a stake
    penalty for every vote against the verdict by a validator whose record diverges,
    both only where the family is calibrated; and a stake penalty for every validator
    with two conflicting votes for one family.  In particular a validator who voted
    as the round decided, once per family, is never slashed. *)
Theorem slashing_exact {D R} `{!Badger D, !Badger R, !ReputationCodec} (e : SlashingEvaluator D R) (round : TaskVerificationRound) (a : SlashingAction) :
  a ∈ EvaluateRound e round ↔
  round_IsTerminal round = true ∧
  ((∃ v, v ∈ r_Votes round ∧ family_calibrated e round v ∧ v_Verdict v ≠ r_FinalVerdict round ∧
      ((sp_SoftSlashingEnabled (se_policy e) = true ∧ v_Verdict v ≠ VerdictAbstain
        ∧ a = mkAction (v_ValidatorID v) SlashingTypeSoft "deviation from consensus" 0 1)
       ∨ (sp_HardSlashingEnabled (se_policy e) = true ∧ diverges e round v
          ∧ a = mkAction (v_ValidatorID v) SlashingTypeHard "systematic divergence: agreement rate below threshold"
                  (sp_SystematicDivergenceStakePenaltyBP (se_policy e)) 0)))
   ∨ (sp_HardSlashingEnabled (se_policy e) = true ∧ sp_EquivocationAutoSlash (se_policy e) = true
      ∧ ∃ v1 v2, v1 ∈ r_Votes round ∧ v2 ∈ r_Votes round ∧ conflict v1 v2
          ∧ a = mkAction (v_ValidatorID v1) SlashingTypeHard "equivocation: conflicting votes for same family"
                  (sp_EquivocationStakePenaltyBP (se_policy e)) 0)).
Proof.
  unfold EvaluateRound. destruct (round_IsTerminal round); cbn [negb]; [|rewrite elem_of_nil; naive_solver].
  rewrite elem_of_app, list_elem_of_bind, equivocation_slashes_spec. setoid_rewrite slash_vote_spec.
  setoid_rewrite soft_slash_spec. setoid_rewrite systematic_slash_spec. naive_solver.
Qed.

(** However often a verdict arrives, replays and other nodes' events included,
    each family that voted on the round is counted once for its category, and no
    other family of the category is. *)
Theorem calibration_once {S D R W V} `{!RoundStore S, !RoundEncoding, !RoundStoreLaws S, !ReliableRounds S, !Badger D, !BadgerLaws D, !BadgerReads D, !Badger R,
    !ReputationCodec, !DispatcherAdmitter W, !RoundSettler V, !ConsensusCodec}
    (c : ConsensusConsumer S D R W V) (cal : CalibrationStore D) (r : TaskVerificationRound) (ev : Event) (evs : list Event) :
  (∀ (s : S) id r, rs_ok s → rs_view s !! id = Some r → rs_load id s = inr r) →
  (∀ ops (d : D), (bg_update ops d).2 = true) →
  rs_ok (cc_rounds c) → rs_view (cc_rounds c) !! r_RoundID r = Some r → r_CalibrationApplied r = false → cc_calibration c = Some cal →
  Forall (λ ev, ∃ p, GetPayload unmarshal_consensus ev = Some p ∧ k_RoundID p = r_RoundID r) (ev :: evs) →
  ∃ cal', cc_calibration (foldl (λ c ev, (consensus_Consume ev c).1.1) c (ev :: evs)) = Some cal'
    ∧ ∀ fam, cal_Get (r_Category r) fam cal' =
        if decide (fam ≠ "" ∧ fam ∈ v_AnalyzerFamily <$> r_Votes r) then i64 (cal_Get (r_Category r) fam cal + 1) else cal_Get (r_Category r) fam cal.
Proof.
  intros loads reliable Hok Hr Ha Hcal [(p & Hp & Hid) Hevs]%Forall_cons. rewrite <- Hid in *. cbn [foldl].
  destruct (consensus_Consume_counts loads reliable ev p c cal r Hok Hp Hr Hcal) as (Hok1 & Hdone & cal1 & Hcal1 & Hcount).
  rewrite Ha in Hcount. set (c1 := (consensus_Consume ev c).1.1) in *. clearbody c1. exists cal1. split; [|exact Hcount]. clear Hcount.
  revert c1 Hok1 Hdone Hcal1. induction Hevs as [|ev2 evs (p2 & Hp2 & Hid2) _ IH]; intros c1 Hok1 (r1 & Hr1 & Ha1) Hcal1; cbn [foldl]; [done|].
  rewrite <- Hid2 in Hr1.
  destruct (consensus_Consume_counts loads reliable ev2 p2 c1 cal1 r1 Hok1 Hp2 Hr1 Hcal1) as (Hok2 & Hdone2 & cal2 & Hcal2 & Hsame).
  rewrite Ha1 in Hsame. subst cal2. rewrite Hid2 in Hdone2. by apply IH.
Qed.

(** ** A node with three votes on a round *)

Module DemoConsensus.
#[local] Existing Instances DemoNode.mem_rounds DemoNode.mem_encoding DemoNode.mem_laws DemoNode.mem_reliable DemoDB.demo_badger DemoDB.demo_badger_laws DemoDB.demo_badger_reads.

(** Every event is a verdict on the round of submission [sub1]. *)
#[global] Instance one_round : ConsensusCodec := {|
  marshal_consensus _ := None;
  unmarshal_consensus v := Some (mkConsensus (NewRoundID "sub1") "t1" "sub1" "worker" "poster" v 9000 0 0 0 0 [] true 3 1100);
|}.

(** Records read as a validator with 60 votes, 10 of them with the majority. *)
#[global] Instance bad_record : ReputationCodec := {|
  marshal_reputation _ := Some "bad";
  unmarshal_reputation _ r := (mkReputation (rep_ValidatorID r) (rep_Family r) (rep_Category r) 60 10 50 0 0 0, true);
|}.

#[global] Instance no_dispatcher : DispatcherAdmitter unit := {| Admit _ w := (w, true) |}.
#[global] Instance no_settler : RoundSettler unit := {| settle_round _ _ v := v |}.

Definition vote (v fam : string) (verdict : Verdict) : TaskVerificationVoteRecord :=
  mkVote v verdict 8000 ∅ fam "" "" "" 10 1010.

Definition round (st : RoundState) (votes : list TaskVerificationVoteRecord) : TaskVerificationRound :=
  mkRound (mkRoundSpec (NewRoundID "sub1") "t1" "sub1" "worker" "poster" "code" 1 [] "" 2 6000 1000 1180)
    0 st 0 0 0 ∅ ∅ votes VerdictPass 9000 0 false.

Definition votes := [vote "v1" "lint" VerdictPass; vote "v2" "lint" VerdictPass; vote "v3" "test" VerdictFail].

Definition counters : CalibrationStore DemoDB.db := NewCalibrationStore ∅ (mkCalibration 1 ∅ ∅).

Definition consumer : ConsensusConsumer DemoNode.mem DemoDB.db DemoDB.db unit unit :=
  mkConsensusConsumer {[NewRoundID "sub1" := round RoundStateOpen votes]} None None
    (Some (mkSlashing DefaultSlashingPolicy (Some {["tvr:v3:test:code" := "bad"]}) (Some counters))) (Some counters).

Definition verdict (id : string) : Event := mkEvent id "" None (Some "pass") "" [] 0 0 SettlementOptimistic.

Lemma single_ok (id : RoundID) (r : TaskVerificationRound) : r_RoundID r = id → rs_ok ({[id := r]} : DemoNode.mem).
Proof. intros Hr id' r'. change (({[id := r]} : gmap RoundID TaskVerificationRound) !! id' = Some r' → r_RoundID r' = id').
  rewrite lookup_singleton_Some. by intros [<- <-]. Qed.

Lemma mem_loads (s : DemoNode.mem) id (r : TaskVerificationRound) : rs_ok s → rs_view s !! id = Some r → rs_load id s = inr r.
Proof. intros _ Hr. change ((s : gmap RoundID TaskVerificationRound) !! id = Some r) in Hr.
  change (match (s : gmap RoundID TaskVerificationRound) !! id with Some r => inr r | None => inl ErrRoundNotFound end = (inr r : TVError + TaskVerificationRound)).
  by rewrite Hr. Qed.
End DemoConsensus.

Lemma calibration_once_witness :
  ∃ cal', cc_calibration (foldl (λ c ev, (consensus_Consume ev c).1.1) DemoConsensus.consumer [DemoConsensus.verdict "e1"; DemoConsensus.verdict "e2"]) = Some cal'
    ∧ cal_Get "code" "lint" cal' = 1 ∧ cal_Get "code" "other" cal' = 0.
Proof.
  destruct (calibration_once DemoConsensus.consumer DemoConsensus.counters (DemoConsensus.round RoundStateOpen DemoConsensus.votes)
    (DemoConsensus.verdict "e1") [DemoConsensus.verdict "e2"]) as (cal' & Hcal & Hcount).
  - exact DemoConsensus.mem_loads.
  - done.
  - change (rs_ok ({[NewRoundID "sub1" := DemoConsensus.round RoundStateOpen DemoConsensus.votes]} : DemoNode.mem)). by apply DemoConsensus.single_ok.
  - exact (lookup_singleton_eq _ _).
  - reflexivity.
  - reflexivity.
  - apply Forall_cons_2; [by eexists|]. apply Forall_cons_2; [by eexists|constructor].
  - exists cal'. split; [exact Hcal|]. split.
    + etransitivity; [exact (Hcount "lint")|vm_compute; reflexivity].
    + etransitivity; [exact (Hcount "other")|vm_compute; reflexivity].
Defined.

(** The dissenter is warned and, with its record, slashed; the others are not. *)
Example demo_slashing :
  (consensus_Consume (DemoConsensus.verdict "e1") DemoConsensus.consumer).2
  = [mkAction "v3" SlashingTypeSoft "deviation from consensus" 0 1;
     mkAction "v3" SlashingTypeHard "systematic divergence: agreement rate below threshold" 1000 0].
Proof. vm_compute. reflexivity. Qed.

(** ** Findings *)

(** Nothing is slashed for equivocation in a round as the aggregator built it: two
    votes that conflict never get into it. *)
Lemma no_equivocation_slashed {D R} (e : SlashingEvaluator D R) (round : TaskVerificationRound) :
  round_ok round → equivocation_slashes e round = [].
Proof. intros Hok. unfold equivocation_slashes. rewrite round_ok_no_equivocators by done. by destruct (_ && _). Qed.
