(* ===== verification/Ocs.v ===== *)
(** internal/ocs/engine.go: optimistic capability settlement.

    An event that was submitted is pending until the vote of the validators on it is
    final or its deadline has passed; the engine moves no value.  The engine is one
    state with the voting round (Voting) it drives; a call of a callback ([broadcastVote],
    [onFinalized]) is an output.  The goroutine of [Start] is [run_step], one step per
    received verdict and per tick. *)

From stdpp Require Import sets fin_sets fin_map_dom.
From S2P Require Import Prelude GoStd Store Event Accounts Identity Lifecycle Snapshot Float64 Voting.
#[local] Open Scope Z_scope.

Notation EventTypeVerificationVote := "VerificationVote" (only parsing).

(** The budget that [SubmitFromSync] reads out of a task settlement. *)
Class BudgetCodec : Type := { unmarshal_budget : string → option Z }.

Inductive OcsError :=
  | ErrAlreadyRunning
  | ErrNotRunning
  | ErrQueueFull
  | ErrInsufficientStake
  | ErrUnsupportedEventType
  | ErrAlreadyPending
  | ErrNotPending
  | ErrTransferPayload
  | ErrBalance
  | ErrLoadPending.

Definition resultsBufferSize : nat := 256.
Definition expiredCheckInterval : Z := 5000000000.

Record VerificationResult := mkVerification {
  vf_EventID : EventID;
  vf_Verdict : bool;
  vf_VerifiedValue : Z;
  vf_VerifierID : AgentID;
  vf_Reason : string;
  vf_Timestamp : Z;
}.

Record PendingItem := mkPending {
  pi_EventID : EventID;
  pi_EventType : EventType;
  pi_AgentID : AgentID;
  pi_Amount : Z;
  pi_RecipientID : AgentID;
  pi_OptimisticAt : Z;
  pi_Deadline : Z;
}.

(** Durations and times are in nanoseconds. *)
Record EngineConfig := mkEngineConfig {
  ec_VerificationTimeout : Z;
  ec_MaxPendingItems : Z;
  ec_AdjustmentPenalty : Z;
  ec_MinStakeRequired : Z;
  ec_CheckInterval : Z;
}.

Definition DefaultConfig : EngineConfig := mkEngineConfig 30000000000 10000 500 1000 5000000000.

(** [processed] and [processedAt] always have the same keys; they are one map. *)
Record Engine (St P D : Type) := mkEngine {
  en_config : EngineConfig;
  en_voting : option (VotingRound St P);
  en_broadcastVote : bool;
  en_onFinalized : bool;
  en_pending : gmap EventID PendingItem;
  en_processed : gmap EventID Z;
  en_results : list VerificationResult;
  en_running : bool;
  en_store : option D;
}.
#[global] Arguments mkEngine {St P D} _ _ _ _ _ _ _ _ _.
#[global] Arguments en_config {St P D} _.
#[global] Arguments en_voting {St P D} _.
#[global] Arguments en_broadcastVote {St P D} _.
#[global] Arguments en_onFinalized {St P D} _.
#[global] Arguments en_pending {St P D} _.
#[global] Arguments en_processed {St P D} _.
#[global] Arguments en_results {St P D} _.
#[global] Arguments en_running {St P D} _.
#[global] Arguments en_store {St P D} _.

(** The calls of the two callbacks. *)
Inductive EngineCall :=
  | CallBroadcast (eventID : EventID) (verdict : bool) (voterID : AgentID)
  | CallFinalized (targetID : EventID) (verdict : bool) (verifiedValue finalOrder : Z).

Section engine.
Context {St P D : Type} `{!VotePersistence P, !Persistence D PendingItem, !PayloadCodec, !BudgetCodec}.
Notation Engine := (Engine St P D).
Implicit Types (e : Engine).

Definition NewEngine (config : option EngineConfig) : Engine :=
  mkEngine (default DefaultConfig config) None false false ∅ ∅ [] false None.

Definition MinEventStake e : Z := ec_MinStakeRequired (en_config e).

Definition en_SetStore (s : D) e : Engine :=
  mkEngine (en_config e) (en_voting e) (en_broadcastVote e) (en_onFinalized e) (en_pending e) (en_processed e)
    (en_results e) (en_running e) (Some s).

Definition SetConsensus (vr : option (VotingRound St P)) e : Engine :=
  mkEngine (en_config e) vr (en_broadcastVote e) (en_onFinalized e) (en_pending e) (en_processed e)
    (en_results e) (en_running e) (en_store e).

(** [SetVoteBroadcaster], [SetFinalizationHandler]: whether there is a callback. *)
Definition SetVoteBroadcaster (fn : bool) e : Engine :=
  mkEngine (en_config e) (en_voting e) fn (en_onFinalized e) (en_pending e) (en_processed e)
    (en_results e) (en_running e) (en_store e).

Definition SetFinalizationHandler (fn : bool) e : Engine :=
  mkEngine (en_config e) (en_voting e) (en_broadcastVote e) fn (en_pending e) (en_processed e)
    (en_results e) (en_running e) (en_store e).

Definition set_pending (pending : gmap EventID PendingItem) (processed : gmap EventID Z) (s : option D) e : Engine :=
  mkEngine (en_config e) (en_voting e) (en_broadcastVote e) (en_onFinalized e) pending processed
    (en_results e) (en_running e) s.

Definition set_queue (results : list VerificationResult) (running : bool) e : Engine :=
  mkEngine (en_config e) (en_voting e) (en_broadcastVote e) (en_onFinalized e) (en_pending e) (en_processed e)
    results running (en_store e).

Definition PendingEmpty e : bool := bool_decide (size (en_pending e) = 0%nat).
Definition PendingCount e : Z := Z.of_nat (size (en_pending e)).
Definition IsPending (eventID : EventID) e : bool := bool_decide (is_Some (en_pending e !! eventID)).

(** [Pending], for one order of the map iteration. *)
Definition en_Pending `{!RangeOrder} e : list PendingItem :=
  omap (λ id, en_pending e !! id) (range_set (dom (en_pending e))).

(** ** Submission *)

(** What the pending item of an event says: amount, recipient, sender. *)
Definition item_of (ev : Event) : Z * AgentID * AgentID :=
  if decide (Type_ ev = EventTypeTransfer) then
    match GetPayload unmarshal_transfer ev with
    | Some tp => (tp_Amount tp, tp_ToAgent tp, tp_FromAgent tp)
    | None => (0, "", AgentID_ ev)
    end
  else if decide (Type_ ev = EventTypeGeneration) then
    match GetPayload unmarshal_generation ev with
    | Some gp => (gp_ClaimedValue gp, gp_BeneficiaryAgent gp, AgentID_ ev)
    | None => (0, "", AgentID_ ev)
    end
  else (default 0 (GetPayload unmarshal_budget ev), "", AgentID_ ev).

(** The item is stored in the map and written through. *)
Definition add_pending (ev : Event) (now : Z) e : Engine :=
  let '(amount, recipientID, senderID) := item_of ev in
  let item := mkPending (ID ev) (Type_ ev) senderID amount recipientID now (ec_VerificationTimeout (en_config e)) in
  set_pending (<[ID ev := item]> (en_pending e)) (en_processed e) (write_through item (en_store e)) e.

(** [Submit]; [balanceCheck] asks the transfer ledger. *)
Definition Submit (balanceCheck : AgentID → Z → bool) (ev : Event) (now : Z) e : Engine * option OcsError :=
  if decide (StakeAmount ev < ec_MinStakeRequired (en_config e)) then (e, Some ErrInsufficientStake)
  else if decide (ec_MaxPendingItems (en_config e) <= PendingCount e) then (e, Some ErrQueueFull)
  else if IsPending (ID ev) e then (e, Some ErrAlreadyPending)
  else if decide (Type_ ev = EventTypeTransfer) then
    match GetPayload unmarshal_transfer ev with
    | None => (e, Some ErrTransferPayload)
    | Some tp => if balanceCheck (tp_FromAgent tp) (tp_Amount tp) then (add_pending ev now e, None) else (e, Some ErrBalance)
    end
  else if decide (Type_ ev = EventTypeGeneration) then (add_pending ev now e, None)
  else (e, Some ErrUnsupportedEventType).

Definition SubmitFromSync (ev : Event) (now : Z) e : Engine * option OcsError :=
  if decide (Type_ ev ≠ EventTypeTransfer ∧ Type_ ev ≠ EventTypeGeneration ∧ Type_ ev ≠ EventTypeTaskSettlement) then (e, None)
  else if decide (SettlementState_ ev ≠ SettlementOptimistic) then (e, None)
  else if IsPending (ID ev) e then (e, None)
  else if decide (is_Some (en_processed e !! ID ev)) then (e, None)
  else if decide (ec_MaxPendingItems (en_config e) <= PendingCount e) then (e, Some ErrQueueFull)
  else (add_pending ev now e, None).

(** ** Verdicts *)

(** [ProcessResult] (the metrics and the event bus are left out). *)
Definition ProcessResult (result : VerificationResult) (now : Z) e : Engine * option OcsError :=
  let id := vf_EventID result in
  if decide (is_Some (en_processed e !! id)) then (e, None)
  else match en_pending e !! id with
  | None => (e, Some ErrNotPending)
  | Some _ => (set_pending (delete id (en_pending e)) (<[id := now]> (en_processed e)) (delete_through PendingItem id (en_store e)) e, None)
  end.

(** The end of [processVoteInternal], after the vote was registered: the exactly-once
    guard, clearing the event, the handler. *)
Definition finalize_event (result : VerificationResult) (now : Z) e : Engine * list EngineCall :=
  match en_voting e with
  | None => (e, [])
  | Some vr =>
      let '(vr, fired) := vr_MarkCallbackFired (vf_EventID result) vr in
      let e := SetConsensus (Some vr) e in
      if negb fired then (e, [])
      else match vr_GetRecord (vf_EventID result) vr with
      | inr _ => (e, [])
      | inl rec =>
          let '(e, _) := ProcessResult (mkVerification (vf_EventID result) (vt_FinalVerdict rec) (vt_FinalVerifiedValue rec) ""
                           "consensus: BFT finalized" (vf_Timestamp result)) now e in
          (e, if en_onFinalized e
              then [CallFinalized (vf_EventID result) (vt_FinalVerdict rec) (vt_FinalVerifiedValue rec) (vt_FinalOrder rec)] else [])
      end
  end.

Definition processVoteInternal (result : VerificationResult) (broadcast : bool) (now : Z) e :
    Engine * list EngineCall * option OcsError :=
  match en_voting e with
  | None => if broadcast then let '(e, err) := ProcessResult result now e in (e, [], err) else (e, [], None)
  | Some vr =>
      let '(vr, err) := vr_RegisterVote (vf_EventID result) (vf_VerifierID result) (vf_Verdict result) (vf_VerifiedValue result) now vr in
      let e := SetConsensus (Some vr) e in
      match err with
      | Some _ => (e, [], None)
      | None =>
          let sent := if broadcast && en_broadcastVote e
                      then [CallBroadcast (vf_EventID result) (vf_Verdict result) (vf_VerifierID result)] else [] in
          let '(e, calls) := finalize_event result now e in
          (e, sent ++ calls, None)
      end
  end.

Definition ProcessVote (result : VerificationResult) (now : Z) e : Engine * list EngineCall * option OcsError :=
  processVoteInternal result true now e.

(** [AcceptPeerVote]: the value a peer verified is not passed on. *)
Definition AcceptPeerVote (eventID : EventID) (voterID : AgentID) (verdict : bool) (now : Z) e :
    Engine * list EngineCall * option OcsError :=
  processVoteInternal (mkVerification eventID verdict 0 voterID "" now) false now e.

(** ** Expiry *)

Definition hour : Z := 3600000000000.

(** The IDs that are past their deadline, in the order of the iteration. *)
Definition expired_ids `{!RangeOrder} (now : Z) e : list EventID :=
  List.filter (λ id, match en_pending e !! id with
                     | Some item => bool_decide (pi_Deadline item < now - pi_OptimisticAt item)
                     | None => false end) (range_set (dom (en_pending e))).

Definition voted_final (id : EventID) e : bool :=
  match en_voting e with
  | None => false
  | Some vr => match vr_GetRecord id vr with inl rec => vt_Finalized rec | inr _ => false end
  end.

(** The loop over the expired events, which skips those whose vote is final. *)
Definition expire_one (now : Z) e (id : EventID) : Engine :=
  if voted_final id e then e
  else (ProcessResult (mkVerification id false 0 "" "consensus: expired without BFT supermajority" now) now e).1.

Definition checkExpired `{!RangeOrder} (now : Z) e : Engine :=
  let expired := expired_ids now e in
  let e := set_pending (en_pending e) (filter (λ kv, now - hour <= kv.2) (en_processed e)) (en_store e) e in
  foldl (expire_one now) e expired.

(** ** The goroutine *)

Definition en_Start e : Engine * option OcsError :=
  if en_running e then (e, Some ErrAlreadyRunning) else (set_queue (en_results e) true e, None).

Definition en_Stop e : Engine := set_queue (en_results e) false e.

(** [SubmitVerification]; [None] is a call that blocks because the buffer is full. *)
Definition SubmitVerification (result : VerificationResult) e : option (Engine * option OcsError) :=
  if negb (en_running e) then Some (e, Some ErrNotRunning)
  else if decide (length (en_results e) < resultsBufferSize)%nat then Some (set_queue (en_results e ++ [result]) true e, None)
  else None.

(** One step of [run]: the next verdict of the queue, or a tick. *)
Definition run_step `{!RangeOrder} (tick : bool) (now : Z) e : Engine * list EngineCall :=
  if negb (en_running e) then (e, [])
  else if tick then (checkExpired now e, [])
  else match en_results e with
  | [] => (e, [])
  | result :: rest => (ProcessVote result now (set_queue rest true e)).1
  end.

(** ** Restart *)

Definition LoadPendingFromStore (s : D) e : Engine * option OcsError :=
  match store_all s with
  | None => (e, Some ErrLoadPending)
  | Some items => (set_pending (foldl (λ m item, <[pi_EventID item := item]> m) (en_pending e) items) (en_processed e) (en_store e) e, None)
  end.

(** ** The consumers of the commit bus

    internal/recognition/ocs_submit_consumer.go, ocs_vote_consumer.go. *)

Definition PrerequisiteKeyOCSPending (targetEventID : string) : string := "ocs_pending:" +:+ targetEventID.

(** [OCSSubmitConsumer.Consume], with the prerequisite it signals. *)
Definition ocs_submit_Consume (ev : Event) (now : Z) e : Engine * option OcsError * option string :=
  if decide (SettlementState_ ev ≠ SettlementOptimistic) then (e, None, None)
  else let '(e, err) := SubmitFromSync ev now e in
       (e, err, match err with None => Some (PrerequisiteKeyOCSPending (ID ev)) | Some _ => None end).

Record VotePayload := mkOcsVote { op_TargetEventID : string; op_VoterID : string; op_Verdict : string; op_VerifiedValue : Z }.

Section vote_consumer.
Context (unmarshal_ocs_vote : string → option VotePayload).

(** [parsePayload]. *)
Definition parse_vote (ev : Event) : option VotePayload :=
  match GetPayload unmarshal_ocs_vote ev with
  | Some vp => if decide (op_TargetEventID vp = "" ∨ op_VoterID vp = "") then None else Some vp
  | None => None
  end.

(** [OCSVoteConsumer.Ready]: [Some] prerequisite, or ready; [view] is the read model. *)
Definition ocs_vote_Ready (view : option (EventID → bool)) (ev : Event) e : option string :=
  match parse_vote ev with
  | None => None
  | Some vp =>
      if match view with Some has => negb (has (op_TargetEventID vp)) | None => false end
      then Some (PrerequisiteKeyOCSPending (op_TargetEventID vp))
      else if negb (IsPending (op_TargetEventID vp) e) then Some (PrerequisiteKeyOCSPending (op_TargetEventID vp)) else None
  end.

(** [OCSVoteConsumer.Consume]. *)
Definition ocs_vote_Consume (ev : Event) (now : Z) e : Engine * list EngineCall * option OcsError :=
  match parse_vote ev with
  | None => (e, [], None)
  | Some vp => AcceptPeerVote (op_TargetEventID vp) (op_VoterID vp) (bool_decide (op_Verdict vp = "accepted")) now e
  end.
End vote_consumer.
End engine.

(** * Runs *)

Section runs.
Context {St P D : Type} `{!VotePersistence P, !Persistence D PendingItem, !PayloadCodec, !BudgetCodec, !RangeOrder}.
Notation Engine := (Engine St P D).
Implicit Types (e : Engine) (vr : VotingRound St P) (calls : list EngineCall).

(** What the node does with the engine; every operation with its clock reading. *)
Inductive ocs_op :=
  | OpSubmit (balanceCheck : AgentID → Z → bool) (ev : Event) (now : Z)
  | OpSubmitFromSync (ev : Event) (now : Z)
  | OpProcessVote (result : VerificationResult) (now : Z)
  | OpAcceptPeerVote (eventID : EventID) (voterID : AgentID) (verdict : bool) (now : Z)
  | OpProcessResult (result : VerificationResult) (now : Z)
  | OpSubmitVerification (result : VerificationResult)
  | OpRunStep (tick : bool) (now : Z)
  | OpStart
  | OpStop.

Definition ocs_exec (op : ocs_op) e : Engine * list EngineCall :=
  match op with
  | OpSubmit bc ev now => ((Submit bc ev now e).1, [])
  | OpSubmitFromSync ev now => ((SubmitFromSync ev now e).1, [])
  | OpProcessVote r now => (ProcessVote r now e).1
  | OpAcceptPeerVote id voter v now => (AcceptPeerVote id voter v now e).1
  | OpProcessResult r now => ((ProcessResult r now e).1, [])
  | OpSubmitVerification r => (match SubmitVerification r e with Some (e', _) => e' | None => e end, [])
  | OpRunStep tick now => run_step tick now e
  | OpStart => ((en_Start e).1, [])
  | OpStop => (en_Stop e, [])
  end.

Definition ocs_step (acc : Engine * list EngineCall) (op : ocs_op) : Engine * list EngineCall :=
  let '(e, calls) := ocs_exec op acc.1 in (e, acc.2 ++ calls).

Definition ocs_run (ops : list ocs_op) e : Engine * list EngineCall := foldl ocs_step (e, []) ops.

Lemma ocs_run_snoc ops op e : ocs_run (ops ++ [op]) e = ocs_step (ocs_run ops e) op.
Proof. unfold ocs_run. by rewrite foldl_app. Qed.

(** ** What the operations leave alone *)

(** The voting round, the wiring and the configuration. *)
Definition same_wiring e e' : Prop := en_voting e' = en_voting e ∧ en_config e' = en_config e ∧ en_onFinalized e' = en_onFinalized e.

Lemma ProcessResult_wiring r now e : same_wiring e (ProcessResult r now e).1.
Proof. unfold ProcessResult. case_decide; [done|]. by destruct (en_pending e !! _). Qed.

Lemma add_pending_wiring ev now e : same_wiring e (add_pending ev now e).
Proof. unfold add_pending. by destruct (item_of ev) as [[? ?] ?]. Qed.

(** Every branch of a goal. *)
Ltac branches := repeat match goal with
  | |- context [decide ?P] => destruct (decide P)
  | |- context [match ?x with _ => _ end] => destruct x
  end.

Lemma Submit_cases bc ev now e :
  (Submit bc ev now e).1 = e ∨ ((Submit bc ev now e).1 = add_pending ev now e ∧ PendingCount e < ec_MaxPendingItems (en_config e)).
Proof.
  unfold Submit. branches; try (by left); right; (split; [done|lia]).
Qed.

Lemma SubmitFromSync_cases ev now e :
  (SubmitFromSync ev now e).1 = e ∨ ((SubmitFromSync ev now e).1 = add_pending ev now e ∧ PendingCount e < ec_MaxPendingItems (en_config e)).
Proof. unfold SubmitFromSync. branches; try (by left); right; (split; [done|lia]). Qed.

Lemma expire_wiring now ids e : same_wiring e (foldl (expire_one now) e ids).
Proof.
  revert e. induction ids as [|id ids IH]; intros e; cbn [foldl]; [done|].
  assert (same_wiring e (expire_one now e id)) as (K1 & K2 & K3).
  { unfold expire_one. destruct (voted_final id e); [done|]. apply ProcessResult_wiring. }
  destruct (IH (expire_one now e id)) as (K4 & K5 & K6). split_and!; congruence.
Qed.

Lemma checkExpired_wiring now e : same_wiring e (checkExpired now e).
Proof. unfold checkExpired. destruct (expire_wiring now (expired_ids now e) (set_pending (en_pending e)
  (filter (λ kv, now - hour <= kv.2) (en_processed e)) (en_store e) e)) as (K1 & K2 & K3). by split_and!. Qed.

(** ** The votes behind the calls *)

Definition is_final (id : EventID) (c : EngineCall) : bool :=
  match c with CallFinalized id' _ _ _ => bool_decide (id' = id) | CallBroadcast _ _ _ => false end.

(** The record of an event whose outcome was handed to the handler. *)
Definition handed (id : EventID) (verdict : bool) (value order : Z) vr : Prop :=
  ∃ r, vr_records vr !! id = Some r ∧ vt_Finalized r = true ∧ vt_CallbackFired r = true
    ∧ vt_FinalVerdict r = verdict ∧ vt_FinalVerifiedValue r = value ∧ vt_FinalOrder r = order.

(** What one operation does to the voting round, and the calls it makes. *)
Record vote_step vr vr' calls : Prop := {
  vs_run : ∃ vops, vr' = vr_run vops vr;
  vs_once id : (length (List.filter (is_final id) calls) <= 1)%nat;
  vs_fresh id v x o : CallFinalized id v x o ∈ calls → handed id v x o vr' ∧ ∀ v' x' o', ¬ handed id v' x' o' vr;
}.

Lemma vote_step_quiet vr vops : vote_step vr (vr_run vops vr) [].
Proof. split; [by exists vops|cbn; lia|by intros ???? ?%elem_of_nil]. Qed.

Lemma vote_step_same vr : vote_step vr vr [].
Proof. apply (vote_step_quiet vr []). Qed.

Lemma handed_later vr vops id v x o : handed id v x o vr → handed id v x o (vr_run vops vr).
Proof.
  intros (r & Hr & Hf & Hc & Hv & Hx & Ho). destruct (run_later vops vr id r Hr) as (r' & Hr' & _ & _ & _ & Hc' & Hf').
  exists r'. destruct (Hf' Hf) as [->| ->]; by split_and!.
Qed.

Lemma finalize_event_step r now e vr vops : en_voting e = Some (vr_run vops vr) →
  ∃ vr', en_voting (finalize_event r now e).1 = Some vr' ∧ vote_step vr vr' (finalize_event r now e).2
    ∧ en_config (finalize_event r now e).1 = en_config e.
Proof.
  intros Hvr. unfold finalize_event. rewrite Hvr. set (vr1 := vr_run vops vr). set (id := vf_EventID r).
  assert ((vr_MarkCallbackFired id vr1).1 = vr_run (vops ++ [OpMarkCallbackFired id]) vr) as Hrun by (by rewrite run_snoc).
  assert ((vr_MarkCallbackFired id vr1).2 = true → ∃ r0, vr_records vr1 !! id = Some r0 ∧ vt_Finalized r0 = true ∧ vt_CallbackFired r0 = false
    ∧ vr_records (vr_MarkCallbackFired id vr1).1 !! id = Some (fire_callback r0)) as Hfire.
  { unfold vr_MarkCallbackFired. destruct (vr_records vr1 !! id) as [r0|]; [|done]. destruct (negb (vt_Finalized r0) || vt_CallbackFired r0) eqn:Hb; [done|].
    apply orb_false_iff in Hb as [Hb1%negb_false_iff Hb2]. intros _. exists r0. split_and!; [done..|]. cbn. by rewrite lookup_insert_eq. }
  destruct (vr_MarkCallbackFired id vr1) as [vr2 fired]. cbn [fst snd] in *. subst vr2.
  set (vr2 := vr_run (vops ++ [OpMarkCallbackFired id]) vr) in *. destruct fired; cbn [negb].
  2:{ exists vr2. split_and!; [done|apply vote_step_quiet|done]. }
  destruct (Hfire eq_refl) as (r0 & Hr1 & Hf & Hc & Hr2). unfold vr_GetRecord. rewrite Hr2.
  set (res := mkVerification _ _ _ _ _ _). destruct (ProcessResult_wiring res now (SetConsensus (Some vr2) e)) as (Hv & Hcfg & Hon).
  destruct (ProcessResult res now (SetConsensus (Some vr2) e)) as [e' err]. cbn [fst snd] in *.
  exists vr2. split_and!; [done| |done]. split; [by exists (vops ++ [OpMarkCallbackFired id])| |].
  - intros id'. destruct (en_onFinalized e'); cbn; [|lia]. case_bool_decide; cbn; lia.
  - intros id' v x o Hin. destruct (en_onFinalized e'); [|by apply elem_of_nil in Hin]. apply list_elem_of_singleton in Hin. injection Hin as -> -> -> ->.
    split; [by exists (fire_callback r0)|]. intros v' x' o' Hh. destruct (handed_later vr vops _ _ _ _ Hh) as (r1 & Hr1' & _ & Hc' & _).
    fold vr1 in Hr1'. congruence.
Qed.

Lemma vote_step_sent vr vr' sent calls : Forall (λ c, ∀ id, is_final id c = false) sent → vote_step vr vr' calls → vote_step vr vr' (sent ++ calls).
Proof.
  intros Hsent [Hrun Honce Hfresh]. split; [done| |].
  - intros id. rewrite List.filter_app, length_app. assert (List.filter (is_final id) sent = []) as ->; [|apply Honce].
    induction Hsent as [|c l Hc _ IH]; [done|]. cbn. by rewrite Hc.
  - intros id v x o [Hin|Hin]%elem_of_app; [|by apply Hfresh]. pose proof (proj1 (Forall_forall _ _) Hsent _ Hin id) as Hb.
    cbn in Hb. by rewrite bool_decide_true in Hb.
Qed.

Lemma processVoteInternal_step r broadcast now e vr : en_voting e = Some vr →
  ∃ vr', en_voting (processVoteInternal r broadcast now e).1.1 = Some vr' ∧ vote_step vr vr' (processVoteInternal r broadcast now e).1.2
    ∧ en_config (processVoteInternal r broadcast now e).1.1 = en_config e.
Proof.
  intros Hvr. unfold processVoteInternal. rewrite Hvr.
  set (op := OpRegisterVote (vf_EventID r) (vf_VerifierID r) (vf_Verdict r) (vf_VerifiedValue r) now : @vr_op St P).
  assert ((vr_RegisterVote (vf_EventID r) (vf_VerifierID r) (vf_Verdict r) (vf_VerifiedValue r) now vr).1 = vr_run [op] vr) as Hrun by done.
  destruct (vr_RegisterVote _ _ _ _ _ vr) as [vr1 [err|]]; cbn [fst] in Hrun; subst vr1.
  - eexists. split_and!; [done|apply (vote_step_quiet vr [op])|done].
  - destruct (finalize_event_step r now (SetConsensus (Some (vr_run [op] vr)) e) vr [op] eq_refl) as (vr' & Hv' & Hstep & Hcfg).
    destruct (finalize_event r now _) as [e' calls]. cbn [fst snd] in *. exists vr'. split_and!; [done| |done].
    apply vote_step_sent; [|done]. destruct (broadcast && en_broadcastVote _); repeat constructor.
Qed.

Lemma ocs_exec_step op e vr : en_voting e = Some vr →
  ∃ vr', en_voting (ocs_exec op e).1 = Some vr' ∧ vote_step vr vr' (ocs_exec op e).2 ∧ en_config (ocs_exec op e).1 = en_config e.
Proof.
  intros Hvr. assert (∀ e', same_wiring e e' → ∃ vr', en_voting e' = Some vr' ∧ vote_step vr vr' [] ∧ en_config e' = en_config e) as Hquiet.
  { intros e' (Hv & Hc & _). exists vr. split_and!; [congruence|apply vote_step_same|done]. }
  destruct op as [bc ev now|ev now|r now|id voter v now|r now|r|tick now| |]; cbn [ocs_exec fst snd].
  - apply Hquiet. destruct (Submit_cases bc ev now e) as [->|[-> _]]; [done|apply add_pending_wiring].
  - apply Hquiet. destruct (SubmitFromSync_cases ev now e) as [->|[-> _]]; [done|apply add_pending_wiring].
  - by apply processVoteInternal_step.
  - by apply processVoteInternal_step.
  - apply Hquiet, ProcessResult_wiring.
  - apply Hquiet. unfold SubmitVerification. destruct (en_running e); cbn [negb]; [|done]. by destruct (decide _).
  - unfold run_step. destruct (en_running e); cbn [negb]; [|cbn [fst snd]; by apply Hquiet]. destruct tick; [apply Hquiet, checkExpired_wiring|].
    destruct (en_results e) as [|r rest]; [cbn [fst snd]; by apply Hquiet|].
    exact (processVoteInternal_step r true now (set_queue rest true e) vr Hvr).
  - apply Hquiet. unfold en_Start. by destruct (en_running e).
  - by apply Hquiet.
Qed.

Lemma ocs_run_step ops e vr : en_voting e = Some vr →
  ∃ vr' vops, en_voting (ocs_run ops e).1 = Some vr' ∧ vr' = vr_run vops vr ∧ en_config (ocs_run ops e).1 = en_config e
    ∧ (∀ id, (length (List.filter (is_final id) (ocs_run ops e).2) <= 1)%nat)
    ∧ (∀ id v x o, CallFinalized id v x o ∈ (ocs_run ops e).2 → handed id v x o vr').
Proof.
  intros Hvr. induction ops as [|op ops IH] using rev_ind.
  - exists vr, []. split_and!; [done|done|done|cbn; lia|by intros ???? ?%elem_of_nil].
  - destruct IH as (vr1 & vops & Hv1 & Hrun1 & Hcfg & Honce & Hhanded). rewrite ocs_run_snoc. unfold ocs_step.
    destruct (ocs_exec_step op (ocs_run ops e).1 vr1 Hv1) as (vr2 & Hv2 & [[vops2 Hrun2] Honce2 Hfresh] & Hcfg2).
    destruct (ocs_exec op _) as [e2 calls2]. cbn [fst snd] in *. exists vr2, (vops ++ vops2). subst vr1 vr2.
    split_and!; [done|by unfold vr_run; rewrite foldl_app|congruence| |].
    + intros id. rewrite List.filter_app, length_app. specialize (Honce id). specialize (Honce2 id).
      destruct (List.filter (is_final id) calls2) as [|c l] eqn:Hc2; [cbn; lia|].
      assert (c ∈ calls2 ∧ is_final id c = true) as [Hin Hc].
      { assert (In c (List.filter (is_final id) calls2)) as Hin by (rewrite Hc2; by left). apply filter_In in Hin as [Hin Hb].
        split; [by apply list_elem_of_In|done]. }
      destruct c as [|id' v x o]; [done|]. cbn in Hc. apply bool_decide_eq_true in Hc as ->.
      destruct (Hfresh id v x o Hin) as [_ Hno].
      destruct (List.filter (is_final id) (ocs_run ops e).2) as [|c1 l1] eqn:Hc1; [cbn in *; lia|]. exfalso.
      assert (In c1 (List.filter (is_final id) (ocs_run ops e).2)) as Hin1 by (rewrite Hc1; by left). apply filter_In in Hin1 as [Hin1 Hb1].
      destruct c1 as [|id1 v1 x1 o1]; [done|]. cbn in Hb1. apply bool_decide_eq_true in Hb1 as ->.
      eapply Hno, Hhanded. by apply list_elem_of_In.
    + intros id v x o [Hin|Hin]%elem_of_app; [by apply handed_later, Hhanded|]. by apply Hfresh.
Qed.

Lemma ocs_exec_config op e : en_config (ocs_exec op e).1 = en_config e.
Proof.
  destruct (en_voting e) as [vr|] eqn:Hvr; [by destruct (ocs_exec_step op e vr Hvr) as (? & _ & _ & Hc)|].
  destruct op as [bc ev now|ev now|r now|id voter v now|r now|r|tick now| |]; cbn [ocs_exec fst snd].
  - destruct (Submit_cases bc ev now e) as [->|[-> _]]; [done|apply add_pending_wiring].
  - destruct (SubmitFromSync_cases ev now e) as [->|[-> _]]; [done|apply add_pending_wiring].
  - unfold ProcessVote, processVoteInternal. rewrite Hvr. destruct (ProcessResult_wiring r now e) as (_ & Hc & _).
    by destruct (ProcessResult r now e).
  - unfold AcceptPeerVote, processVoteInternal. by rewrite Hvr.
  - apply ProcessResult_wiring.
  - unfold SubmitVerification. destruct (en_running e); cbn [negb]; [|done]. by destruct (decide _).
  - unfold run_step. destruct (en_running e); cbn [negb]; [|done]. destruct tick; [apply checkExpired_wiring|].
    destruct (en_results e) as [|r rest]; [done|]. unfold ProcessVote, processVoteInternal. cbn [en_voting set_queue]. rewrite Hvr.
    destruct (ProcessResult_wiring r now (set_queue rest true e)) as (_ & Hc & _). by destruct (ProcessResult r now _).
  - unfold en_Start. by destruct (en_running e).
  - done.
Qed.

Lemma ocs_run_config ops e : en_config (ocs_run ops e).1 = en_config e.
Proof.
  induction ops as [|op ops IH] using rev_ind; [done|]. rewrite ocs_run_snoc. unfold ocs_step.
  pose proof (ocs_exec_config op (ocs_run ops e).1) as Hop. destruct (ocs_exec op _). cbn in *. congruence.
Qed.
End runs.

(** * Expiry, exactly *)

Section expiry.
Context {St P D : Type} `{!VotePersistence P, !Persistence D PendingItem, !RangeOrder}.
Implicit Types (e : Engine St P D).

Definition overdue_item (now : Z) (item : PendingItem) : Prop := pi_Deadline item < now - pi_OptimisticAt item.

#[global] Instance overdue_item_dec now item : Decision (overdue_item now item).
Proof. unfold overdue_item. apply _. Defined.

(** The event is not among those processed within the last hour. *)
Definition not_recent (now : Z) (processedAt : option Z) : Prop := match processedAt with Some t => t < now - hour | None => True end.

#[global] Instance not_recent_dec now t : Decision (not_recent now t).
Proof. unfold not_recent. destruct t; apply _. Defined.

Lemma expired_ids_spec now e id : id ∈ expired_ids now e ↔ ∃ item, en_pending e !! id = Some item ∧ overdue_item now item.
Proof.
  unfold expired_ids. rewrite list_elem_of_In, filter_In, <- list_elem_of_In, range_set_perm, elem_of_elements. unfold overdue_item. split.
  - intros [_ Hb]. destruct (en_pending e !! id) as [item|]; [|done]. apply bool_decide_eq_true in Hb. eauto.
  - intros (item & Hitem & Ho). rewrite Hitem. split; [by apply elem_of_dom_2 in Hitem|]. by apply bool_decide_eq_true.
Qed.

(** One expired event: it leaves the map unless its vote is final or it was
    processed before. *)
Lemma expire_one_pending now e id j :
  en_pending (expire_one now e id) !! j
  = if decide (j = id ∧ voted_final id e = false ∧ en_processed e !! id = None) then None else en_pending e !! j.
Proof.
  unfold expire_one. destruct (voted_final id e); [by rewrite decide_False by naive_solver|].
  unfold ProcessResult. cbn [vf_EventID]. destruct (en_processed e !! id) as [t|] eqn:Hp.
  - rewrite decide_True by done. cbn. rewrite decide_False; [done|]. intros (_ & _ & ?); congruence.
  - rewrite (decide_False (P := is_Some None)) by (intros [? ?]; done). destruct (en_pending e !! id) as [item|] eqn:Hid; cbn.
    + case_decide as Hj; [destruct Hj as [-> _]; apply lookup_delete_eq|]. apply lookup_delete_ne. naive_solver.
    + case_decide as Hj; [|done]. by destruct Hj as [-> _].
Qed.

Lemma expire_one_processed now e id j :
  en_processed (expire_one now e id) !! j = None ↔
  en_processed e !! j = None ∧ ¬ (j = id ∧ voted_final id e = false ∧ is_Some (en_pending e !! id)).
Proof.
  unfold expire_one. destruct (voted_final id e); [naive_solver|]. unfold ProcessResult. cbn [vf_EventID].
  destruct (en_processed e !! id) as [t|] eqn:Hp.
  - rewrite decide_True by done. cbn. split; [intros Hj; split; [done|intros (-> & _); congruence]|tauto].
  - rewrite (decide_False (P := is_Some None)) by (intros [? ?]; done). destruct (en_pending e !! id) as [item|] eqn:Hid; cbn.
    + rewrite lookup_insert_None. naive_solver.
    + split; [intros Hj; split; [done|intros (_ & _ & ? & ?); done]|tauto].
Qed.

Lemma expire_one_voted now e id j : voted_final j (expire_one now e id) = voted_final j e.
Proof.
  unfold expire_one. destruct (voted_final id e); [done|]. unfold voted_final.
  by destruct (ProcessResult_wiring (mkVerification id false 0 "" "consensus: expired without BFT supermajority" now) now e) as (-> & _).
Qed.

Lemma expire_pending now ids e j :
  en_pending (foldl (expire_one now) e ids) !! j
  = if decide (j ∈ ids ∧ voted_final j e = false ∧ en_processed e !! j = None) then None else en_pending e !! j.
Proof.
  revert e. induction ids as [|id ids IH]; intros e; cbn [foldl].
  - rewrite decide_False; [done|]. by intros [?%elem_of_nil _].
  - rewrite IH, expire_one_voted, expire_one_pending. destruct (decide (j = id)) as [->|Hne].
    + destruct (decide (voted_final id e = false ∧ en_processed e !! id = None)) as [Hd|Hd].
      * rewrite (decide_True (P := id ∈ id :: ids ∧ _)) by (split; [left|done]).
        rewrite (decide_True (P := id = id ∧ _)) by done. by destruct (decide _).
      * rewrite (decide_False (P := id ∈ id :: ids ∧ _)) by tauto. rewrite (decide_False (P := id = id ∧ _)) by tauto.
        rewrite decide_False; [done|]. intros (_ & Hv & Hp). apply Hd. split; [done|]. by apply expire_one_processed in Hp as [Hp _].
    + rewrite (decide_False (P := j = id ∧ _)) by tauto. apply decide_ext. rewrite elem_of_cons, expire_one_processed. naive_solver.
Qed.

Lemma checkExpired_pending now e j :
  en_pending (checkExpired now e) !! j
  = match en_pending e !! j with
    | Some item => if decide (overdue_item now item ∧ voted_final j e = false ∧ not_recent now (en_processed e !! j))
                   then None else Some item
    | None => None
    end.
Proof.
  unfold checkExpired. rewrite expire_pending. cbn [en_pending en_processed set_pending].
  assert (voted_final j (set_pending (en_pending e) (filter (λ kv, now - hour <= kv.2) (en_processed e)) (en_store e) e) = voted_final j e) as -> by done.
  destruct (en_pending e !! j) as [item|] eqn:Hj; [|by destruct (decide _)]. apply decide_ext.
  rewrite expired_ids_spec, map_lookup_filter_None. setoid_rewrite Hj. cbn. split.
  - intros ((item' & [= <-] & Ho) & Hv & Hp). split_and!; [done|done|]. unfold not_recent. destruct Hp as [->|Hp]; [done|].
    destruct (en_processed e !! j) as [t|]; [|done]. specialize (Hp t eq_refl). cbn in Hp. lia.
  - intros (Ho & Hv & Hp). split_and!; [by exists item|done|]. destruct (en_processed e !! j) as [t|] eqn:Ht; [right|by left].
    intros x [= ->]. cbn in *. lia.
Qed.
End expiry.

(** * The store of pending items *)

Section durable.
Context {St P D : Type} `{!VotePersistence P, !Persistence D PendingItem, !MetaPersistence D, !PersistenceLaws D PendingItem pi_EventID,
  !Reliable D PendingItem, !PayloadCodec, !BudgetCodec, !RangeOrder}.
Implicit Types (e : Engine St P D).

(** The store holds what is pending, and the map is within its bound. *)
Record pending_ok e : Prop := {
  po_store : ∃ s, en_store e = Some s ∧ store_view s = en_pending e;
  po_bound : PendingCount e <= ec_MaxPendingItems (en_config e);
}.

Lemma pending_ok_wiring e e' : pending_ok e → en_store e' = en_store e → en_pending e' = en_pending e → en_config e' = en_config e → pending_ok e'.
Proof. intros [Hs Hb] K1 K2 K3. split; [by rewrite K1, K2|]. unfold PendingCount. by rewrite K2, K3. Qed.

Lemma pending_ok_add ev now e : pending_ok e → PendingCount e < ec_MaxPendingItems (en_config e) → pending_ok (add_pending ev now e).
Proof.
  intros [(s & Hs & Hv) _] Hlt. unfold add_pending. destruct (item_of ev) as [[amount recipient] sender]. set (item := mkPending _ _ _ _ _ _ _).
  rewrite Hs. cbn [write_through]. pose proof (reliable_put item s) as Hr. destruct (store_put item s) as [s' ok] eqn:Hp. cbn in Hr. subst ok.
  split; cbn.
  - exists s'. split; [done|]. by rewrite (store_put_ok _ _ _ Hp), Hv.
  - unfold PendingCount in *. cbn. destruct (en_pending e !! ID ev) eqn:Hid.
    + rewrite map_size_insert_Some by eauto. lia.
    + rewrite map_size_insert_None by done. lia.
Qed.

Lemma pending_ok_result r now e : pending_ok e → pending_ok (ProcessResult r now e).1.
Proof.
  intros Hok. unfold ProcessResult. case_decide; [done|]. destruct (en_pending e !! vf_EventID r) as [item|] eqn:Hid; [|done].
  destruct Hok as [(s & Hs & Hv) Hb]. rewrite Hs. cbn [delete_through].
  pose proof (reliable_delete (vf_EventID r) s) as Hr. destruct (store_delete (vf_EventID r) s) as [s' ok] eqn:Hp. cbn in Hr. subst ok. split; cbn.
  - exists s'. split; [done|]. by rewrite (store_delete_ok _ _ _ Hp), Hv.
  - unfold PendingCount in *. cbn. rewrite map_size_delete, Hid. lia.
Qed.

Lemma pending_ok_expire now ids e : pending_ok e → pending_ok (foldl (expire_one now) e ids).
Proof.
  revert e. induction ids as [|id ids IH]; intros e Hok; [done|]. cbn [foldl]. apply IH. unfold expire_one.
  destruct (voted_final id e); [done|]. by apply pending_ok_result.
Qed.

Lemma pending_ok_finalize r now e : pending_ok e → pending_ok (finalize_event r now e).1.
Proof.
  intros Hok. unfold finalize_event. destruct (en_voting e) as [vr|]; [|done]. destruct (vr_MarkCallbackFired _ vr) as [vr1 fired].
  assert (pending_ok (SetConsensus (Some vr1) e)) as Hok1 by by apply (pending_ok_wiring e).
  destruct fired; cbn [negb]; [|done]. destruct (vr_GetRecord _ vr1) as [rec|]; [|done].
  set (res := mkVerification _ _ _ _ _ _). pose proof (pending_ok_result res now _ Hok1) as Hres. by destruct (ProcessResult res now _).
Qed.

Lemma pending_ok_vote r broadcast now e : pending_ok e → pending_ok (processVoteInternal r broadcast now e).1.1.
Proof.
  intros Hok. unfold processVoteInternal. destruct (en_voting e) as [vr|].
  - destruct (vr_RegisterVote _ _ _ _ _ vr) as [vr1 err]. assert (pending_ok (SetConsensus (Some vr1) e)) as Hok1 by by apply (pending_ok_wiring e).
    destruct err; [done|]. pose proof (pending_ok_finalize r now _ Hok1) as Hfin. by destruct (finalize_event r now _).
  - destruct broadcast; [|done]. pose proof (pending_ok_result r now e Hok) as Hres. by destruct (ProcessResult r now e).
Qed.

Lemma pending_ok_exec op e : pending_ok e → pending_ok (ocs_exec op e).1.
Proof.
  intros Hok. destruct op as [bc ev now|ev now|r now|id voter v now|r now|r|tick now| |]; cbn [ocs_exec fst snd].
  - destruct (Submit_cases bc ev now e) as [->|[-> Hlt]]; [done|by apply pending_ok_add].
  - destruct (SubmitFromSync_cases ev now e) as [->|[-> Hlt]]; [done|by apply pending_ok_add].
  - by apply pending_ok_vote.
  - by apply pending_ok_vote.
  - by apply pending_ok_result.
  - unfold SubmitVerification. destruct (en_running e); cbn [negb]; [|done]. destruct (decide _); [|done]. by apply (pending_ok_wiring e).
  - unfold run_step. destruct (en_running e); cbn [negb fst]; [|done]. destruct tick; cbn [fst].
    + unfold checkExpired. apply pending_ok_expire. by apply (pending_ok_wiring e).
    + destruct (en_results e) as [|r rest]; cbn [fst]; [done|]. apply pending_ok_vote. by apply (pending_ok_wiring e).
  - unfold en_Start. destruct (en_running e); [done|]. by apply (pending_ok_wiring e).
  - by apply (pending_ok_wiring e).
Qed.

Lemma pending_ok_run ops e : pending_ok e → pending_ok (ocs_run ops e).1.
Proof.
  intros Hok. induction ops as [|op ops IH] using rev_ind; [done|]. rewrite ocs_run_snoc. unfold ocs_step.
  pose proof (pending_ok_exec op _ IH) as Hop. by destruct (ocs_exec op _).
Qed.
End durable.

(** * A final vote on a pending event *)

Section stuck.
Context {St P D : Type} `{!VotePersistence P, !Persistence D PendingItem, !PayloadCodec, !BudgetCodec, !RangeOrder}.
Implicit Types (e : Engine St P D) (vr : VotingRound St P).

(** The vote on the event is final and was handed over, or was final from the start,
    while the event is pending. *)
Record stuck (id : EventID) e : Prop := {
  st_pending : is_Some (en_pending e !! id);
  st_final : voted_final id e = true;
}.

Lemma voted_final_run id e vr vops e' : en_voting e = Some vr → en_voting e' = Some (vr_run vops vr) → voted_final id e = true → voted_final id e' = true.
Proof.
  unfold voted_final, vr_GetRecord. intros -> ->. destruct (vr_records vr !! id) as [r|] eqn:Hr; [|done]. intros Hf.
  destruct (run_later vops vr id r Hr) as (r' & -> & _ & _ & _ & _ & Hl). by destruct (Hl Hf) as [->| ->].
Qed.

(** Votes on an event with a final record are refused. *)
Lemma vote_on_final id voter v x now vr r :
  vr_records vr !! id = Some r → vt_Finalized r = true → (vr_RegisterVote id voter v x now vr).2 ≠ None.
Proof.
  intros Hr Hf. unfold vr_RegisterVote. destruct (vr_admits id voter vr); [done|]. rewrite Hr. cbn [from_option]. unfold Datatypes.id. by rewrite Hf.
Qed.

Lemma ProcessResult_other r now e id : vf_EventID r ≠ id → en_pending (ProcessResult r now e).1 !! id = en_pending e !! id.
Proof. intros Hne. unfold ProcessResult. case_decide; [done|]. destruct (en_pending e !! vf_EventID r); [|done]. cbn. by rewrite lookup_delete_ne. Qed.

Lemma finalize_other r now e id : vf_EventID r ≠ id →
  en_pending (finalize_event r now e).1 !! id = en_pending e !! id ∧ Forall (λ c, is_final id c = false) (finalize_event r now e).2.
Proof.
  intros Hne. unfold finalize_event. destruct (en_voting e) as [vr|]; [|done]. destruct (vr_MarkCallbackFired _ vr) as [vr1 []]; cbn [negb]; [|done].
  destruct (vr_GetRecord _ vr1) as [rec|]; [|done]. set (res := mkVerification _ _ _ _ _ _).
  assert (vf_EventID res ≠ id) as Hne' by done. pose proof (ProcessResult_other res now (SetConsensus (Some vr1) e) id Hne') as Hp.
  destruct (ProcessResult res now _) as [e' err]. cbn [fst snd] in *. split; [exact Hp|]. destruct (en_onFinalized e'); [|constructor].
  apply Forall_singleton. cbn. by apply bool_decide_eq_false.
Qed.

Lemma stuck_vote id r broadcast now e : stuck id e →
  is_Some (en_pending (processVoteInternal r broadcast now e).1.1 !! id) ∧ Forall (λ c, is_final id c = false) (processVoteInternal r broadcast now e).1.2.
Proof.
  intros [Hp Hf]. unfold processVoteInternal. unfold voted_final in Hf. destruct (en_voting e) as [vr|] eqn:Hvr; [|done].
  destruct (vr_RegisterVote _ _ _ _ _ vr) as [vr1 err] eqn:Hreg. destruct err as [err|]; [done|].
  assert (vf_EventID r ≠ id) as Hne.
  { intros Hid. unfold vr_GetRecord in Hf. destruct (vr_records vr !! id) as [rec|] eqn:Hrec; [|done]. rewrite Hid in Hreg.
    apply (vote_on_final id (vf_VerifierID r) (vf_Verdict r) (vf_VerifiedValue r) now vr rec Hrec Hf). by rewrite Hreg. }
  destruct (finalize_other r now (SetConsensus (Some vr1) e) id Hne) as [Hpend Hcalls]. destruct (finalize_event r now _) as [e' calls]. cbn [fst snd] in *.
  split; [by rewrite Hpend|]. apply Forall_app_2; [|done]. destruct (broadcast && _); repeat constructor.
Qed.

(** Direct calls of [ProcessResult] apart, such an event stays pending, its outcome
    is never handed to the handler (again), and it is never expired. *)
Lemma stuck_exec id op e : stuck id e → (∀ r now, op ≠ OpProcessResult r now) →
  stuck id (ocs_exec op e).1 ∧ Forall (λ c, is_final id c = false) (ocs_exec op e).2.
Proof.
  intros Hst Hop. assert (∃ vr, en_voting e = Some vr) as [vr Hvr].
  { destruct Hst as [_ Hf]. unfold voted_final in Hf. destruct (en_voting e) as [vr|]; [by exists vr|done]. }
  destruct (ocs_exec_step op e vr Hvr) as (vr' & Hvr' & [[vops ->] _ _] & _).
  assert (voted_final id (ocs_exec op e).1 = true) as Hf by (eapply voted_final_run; [exact Hvr|exact Hvr'|apply Hst]).
  assert (is_Some (en_pending (ocs_exec op e).1 !! id) ∧ Forall (λ c, is_final id c = false) (ocs_exec op e).2) as [Hp Hc]; [|by split].
  assert (∀ ev now e0, is_Some (en_pending e0 !! id) → is_Some (en_pending (add_pending ev now e0) !! id)) as Hadd.
  { intros ev now e0 He. unfold add_pending. destruct (item_of ev) as [[? ?] ?]. cbn. rewrite lookup_insert_is_Some. destruct (decide (ID ev = id)); eauto. }
  destruct op as [bc ev now|ev now|r now|i voter v now|r now|r|tick now| |]; cbn [ocs_exec fst snd] in *.
  - split; [|constructor]. destruct (Submit_cases bc ev now e) as [->|[-> _]]; [apply Hst|apply Hadd, Hst].
  - split; [|constructor]. destruct (SubmitFromSync_cases ev now e) as [->|[-> _]]; [apply Hst|apply Hadd, Hst].
  - by apply stuck_vote.
  - by apply stuck_vote.
  - by destruct (Hop r now).
  - split; [|constructor]. unfold SubmitVerification. destruct (en_running e); cbn [negb]; [|apply Hst]. destruct (decide _); apply Hst.
  - unfold run_step. destruct (en_running e); cbn [negb fst snd]; [|split; [apply Hst|constructor]]. destruct tick; cbn [fst snd].
    + split; [|constructor]. rewrite checkExpired_pending. destruct Hst as [[item ->] ->]. rewrite decide_False; [done|]. by intros (_ & ? & _).
    + destruct (en_results e) as [|r rest]; cbn [fst snd]; [split; [apply Hst|constructor]|]. apply stuck_vote. by split; apply Hst.
  - split; [|constructor]. unfold en_Start. destruct (en_running e); apply Hst.
  - split; [apply Hst|constructor].
Qed.
End stuck.

(** * The properties *)

(** C8: whatever is submitted, voted, expired or synchronised in whatever order: the
    handler that creates the settlement is called at most once per event, only
    when the vote on the event is final, and with the verdict, value and order of the
    voting record; the verdict is the one its tally gives, and the round is one that
    voting operations reach, so what Voting proves of it holds. *)
Theorem ocs_finalized_once {St P D} `{!VotePersistence P, !Persistence D PendingItem, !PayloadCodec, !BudgetCodec, !RangeOrder}
    (ops : list ocs_op) (e0 : Engine St P D) (vr0 : VotingRound St P) :
  en_voting e0 = Some vr0 → vr_records vr0 = ∅ →
  let '(e, calls) := ocs_run ops e0 in
  ∃ vops, en_voting e = Some (vr_run vops vr0)
  ∧ ∀ id, (length (List.filter (is_final id) calls) <= 1)%nat
  ∧ ∀ v x o, CallFinalized id v x o ∈ calls → ∃ r, vr_GetRecord id (vr_run vops vr0) = inl r
      ∧ vt_Finalized r = true ∧ vt_FinalVerdict r = v ∧ vt_FinalVerifiedValue r = x ∧ vt_FinalOrder r = o
      ∧ tally_verdict (vr_config vr0) r = Some v.
Proof.
  intros Hvr Hnew. destruct (ocs_run_step ops e0 vr0 Hvr) as (vr & vops & Hv & -> & _ & Honce & Hhanded).
  destruct (ocs_run ops e0) as [e calls]. cbn [fst snd] in *. exists vops. split; [done|]. intros id. split; [apply Honce|].
  intros v x o Hin. destruct (Hhanded id v x o Hin) as (r & Hr & Hf & _ & Hvd & Hx & Ho). exists r. unfold vr_GetRecord. rewrite Hr.
  split_and!; [done..|]. assert (map_Forall (λ _ r, record_inv (vr_config vr0) r) (vr_records vr0)) as Hinv by (rewrite Hnew; apply map_Forall_empty).
  pose proof (run_record_inv vops vr0 Hinv id r Hr) as Hri. destruct (rv_decided _ _ Hri Hf) as [Hd _ _]. by rewrite Hd, Hvd.
Qed.

(** A tick of the running engine removes exactly the pending events that are
    past their deadline, whose vote is not final and that were not processed within the
    last hour; it keeps every other one as it was. *)
Theorem ocs_tick_expires {St P D} `{!VotePersistence P, !Persistence D PendingItem, !PayloadCodec, !BudgetCodec, !RangeOrder}
    (e : Engine St P D) (now : Z) (id : EventID) :
  en_running e = true →
  en_pending (run_step true now e).1 !! id
  = match en_pending e !! id with
    | Some item => if decide (overdue_item now item ∧ voted_final id e = false ∧ not_recent now (en_processed e !! id)) then None else Some item
    | None => None
    end.
Proof. intros Hrun. unfold run_step. rewrite Hrun. cbn [negb fst]. apply checkExpired_pending. Qed.

(** After any operations of an engine that started empty, with writes that
    succeed: no more events are pending than the configuration allows, the store
    holds exactly the pending events, and a new engine that loads it has the same
    events pending, with their deadlines. *)
Theorem ocs_restart {St P D} `{!VotePersistence P, !Persistence D PendingItem, !MetaPersistence D, !PersistenceLaws D PendingItem pi_EventID,
    !Reliable D PendingItem, !PayloadCodec, !BudgetCodec, !RangeOrder}
    (ops : list ocs_op) (config : EngineConfig) (vr : option (VotingRound St P)) (d : D) :
  store_view d = ∅ → 0 <= ec_MaxPendingItems config →
  let e := (ocs_run ops (en_SetStore d (SetConsensus vr (NewEngine (Some config))))).1 in
  PendingCount e <= ec_MaxPendingItems config
  ∧ ∃ s, en_store e = Some s ∧ ∀ e1 : Engine St P D, LoadPendingFromStore s (NewEngine (Some config)) = (e1, None) → en_pending e1 = en_pending e.
Proof.
  intros Hd Hmax e. assert (pending_ok (en_SetStore d (SetConsensus vr (NewEngine (Some config))))) as Hok0.
  { split; cbn; [by exists d|]. unfold PendingCount. cbn [en_pending en_SetStore set_pending SetConsensus NewEngine en_config from_option]. rewrite map_size_empty. exact Hmax. }
  assert (en_config e = config) as Hcfg.
  { subst e. by rewrite ocs_run_config. }
  destruct (pending_ok_run ops _ Hok0) as [(s & Hs & Hv) Hb]. fold e in Hs, Hv, Hb. rewrite Hcfg in Hb. split; [done|]. exists s. split; [done|].
  intros e1. unfold LoadPendingFromStore. destruct (store_all s) as [items|] eqn:Hall; [|done]. intros [= <-]. cbn. rewrite <- Hv.
  apply (load_all_view pi_EventID).
  - intros k v. apply store_view_key.
  - by apply store_all_view.
Qed.

(** * A node with four validators *)

Module DemoOcs.
Notation DemoEngine := (Engine (KeyedStore fp_AgentID) (list PersistedVote) (KeyedStore pi_EventID)).

(** A payload is the amount of a transfer from a to b. *)
#[global] Instance demo_codec : PayloadCodec := {|
  unmarshal_transfer _ := Some (mkTransferPayload "a" "b" 100 "AET" "" "" "");
  unmarshal_generation _ := None;
  unmarshal_task_settlement _ := None;
|}.
#[global] Instance demo_budget : BudgetCodec := {| unmarshal_budget _ := None |}.

Definition transfer (id : EventID) : Event := mkEvent id EventTypeTransfer None (Some "") "a" [] 0 1000 SettlementOptimistic.

Definition round0 : DemoRound := vr_SetValidatorSet split_source (vr_NewVotingRound None (mkRegistry ∅ None)).

Definition start : DemoEngine :=
  SetFinalizationHandler true (en_SetStore (mkKeyed pi_EventID ∅ ∅ (keyed_empty pi_EventID)) (SetConsensus (Some round0) (NewEngine None))).

Definition peer_vote (v : AgentID) (now : Z) : ocs_op := OpAcceptPeerVote "t1" v true now.

Definition ops : list ocs_op :=
  [OpStart; OpSubmitFromSync (transfer "t1") 10; OpSubmitFromSync (transfer "t2") 11; peer_vote "ka" 20; peer_vote "kb" 21; peer_vote "kc" 22;
   peer_vote "kd" 23].

(** The votes first, then the event. *)
Definition late_ops : list ocs_op :=
  [OpStart; peer_vote "ka" 20; peer_vote "kb" 21; peer_vote "kc" 22; OpSubmitFromSync (transfer "t1") 30; OpRunStep true 90000000000].
End DemoOcs.

Example demo_ocs :
  (ocs_run DemoOcs.ops DemoOcs.start).2 = [CallFinalized "t1" true 0 1]
  ∧ PendingCount (ocs_run DemoOcs.ops DemoOcs.start).1 = 1.
Proof. split; vm_compute; reflexivity. Qed.

Lemma ocs_finalized_once_witness :
  let '(e, calls) := ocs_run DemoOcs.ops DemoOcs.start in
  (length (List.filter (is_final "t1") calls) <= 1)%nat.
Proof.
  pose proof (ocs_finalized_once DemoOcs.ops DemoOcs.start DemoOcs.round0 eq_refl eq_refl) as H.
  destruct (ocs_run DemoOcs.ops DemoOcs.start) as [e calls]. destruct H as (vops & _ & H). exact (proj1 (H "t1")).
Defined.

Lemma ocs_tick_expires_witness :
  en_pending (run_step true 90000000000 (ocs_run DemoOcs.ops DemoOcs.start).1).1 !! "t2" = None.
Proof.
  etransitivity; [apply ocs_tick_expires; vm_compute; reflexivity|]. vm_compute. reflexivity.
Defined.

Lemma ocs_restart_witness :
  PendingCount (ocs_run DemoOcs.ops (en_SetStore (mkKeyed pi_EventID ∅ ∅ (keyed_empty pi_EventID)) (SetConsensus (Some DemoOcs.round0)
    (NewEngine (Some DefaultConfig))))).1 <= 10000.
Proof.
  refine (proj1 (ocs_restart (St := KeyedStore fp_AgentID) (P := list PersistedVote) DemoOcs.ops DefaultConfig (Some DemoOcs.round0)
    (mkKeyed pi_EventID ∅ ∅ (keyed_empty pi_EventID)) eq_refl _)).
  vm_compute. discriminate.
Defined.

(** ** Findings *)

(** Votes that arrive before the event they are about: the event becomes pending
    after its vote is final, and nothing ever removes it. *)
Lemma votes_before_event_stuck : stuck "t1" (ocs_run DemoOcs.late_ops DemoOcs.start).1.
Proof. split; [eexists|]; vm_compute; reflexivity. Qed.

(** An event that was processed can be submitted again; every verdict on it is then
    silently dropped, until it is forgotten an hour later. *)
Lemma resubmitted_ignored :
  let e := (ocs_run (DemoOcs.ops ++ [OpSubmit (λ _ _, true) (DemoOcs.transfer "t1") 30]) DemoOcs.start).1 in
  IsPending "t1" e = true ∧ ∀ r now, vf_EventID r = "t1" → ProcessResult r now e = (e, None).
Proof.
  split; [vm_compute; reflexivity|]. intros r now Hr. unfold ProcessResult. rewrite Hr. apply decide_True. eexists. vm_compute. reflexivity.
Qed.

(** The author of a vote event is never compared with the voter it names. *)
Lemma ocs_voter_ignored {St P D} `{!VotePersistence P, !Persistence D PendingItem} (unmarshal : string → option VotePayload)
    (ev1 ev2 : Event) now (e : Engine St P D) :
  Payload ev1 = Payload ev2 → ocs_vote_Consume unmarshal ev1 now e = ocs_vote_Consume unmarshal ev2 now e.
Proof. intros Hp. unfold ocs_vote_Consume, parse_vote, GetPayload. by rewrite Hp. Qed.
