(* ===== verification/Applicator.v ===== *)
(** internal/settlement/applicator.go and verdict.go: the single writer of the ledgers,
    the task settler and the finalization handler that cmd/node/main.go wires to it.

    The ledgers, the registry, escrow, fees and stakes that an application changes are
    the [Parts] of the node.  The transfer ledger is one object shared by several of
    them: it is kept in [pt_transfer], and a component that moves value is given it for
    the call ([with_ledger], [fc_set_ledger]).  Metrics and the event bus are left out. *)

From stdpp Require Import sets fin_sets fin_map_dom.
From S2P Require Import Prelude GoStd Store Event Accounts Transfer Generation Escrow Staking Fees Identity Jcs Tasks Lifecycle Snapshot Float64 Voting RoundStore RoundFlow Settlement Ocs.
#[local] Open Scope Z_scope.

Notation EventTypeSettlement := "Settlement" (only parsing).

(** * Verdicts *)

Definition VerdictAccepted : string := "accepted".
Definition VerdictRejected : string := "rejected".
Definition VerdictAdjusted : string := "adjusted".

Record VoterAttestation := mkAttestation { va_VoterID : string; va_Verdict : string; va_Weight : Z }.

Record SettlementPayload := mkSettlement {
  sp_Version : Z;
  sp_TargetEventID : EventID;
  sp_Verdict : string;
  sp_VerifiedValue : Z;
  sp_ConsensusRound : Z;
  sp_Attestations : list VoterAttestation;
}.

Definition voter_le (a b : VoterAttestation) : Prop := String.le (va_VoterID a) (va_VoterID b).

#[global] Instance voter_le_dec a b : Decision (voter_le a b).
Proof. unfold voter_le. apply _. Defined.

Definition SortAttestations (sp : SettlementPayload) : SettlementPayload :=
  mkSettlement (sp_Version sp) (sp_TargetEventID sp) (sp_Verdict sp) (sp_VerifiedValue sp) (sp_ConsensusRound sp)
    (sort_slice voter_le (sp_Attestations sp)).

(** [isProtocolInternalTransfer]. *)
Definition isProtocolInternalTransfer (reason : string) : bool :=
  bool_decide (reason ∈ ["stake-lock"; "stake-unlock"; "escrow-lock"; "escrow-release"; "task-refund"; "faucet-grant"; "onboarding-grant"; "node-bootstrap"]).

(** * What an application changes *)

(** [escrowHolder]; whether the registration succeeded. *)
Class EscrowHolder (X : Type) : Type := {
  eh_IsLocked : string → X → bool;
  eh_RegisterEscrow : string → AgentID → Z → EventID → X → X * bool;
}.

Record Parts (SL SG SI SF SS X : Type) := mkParts {
  pt_transfer : TransferLedger SL;
  pt_generation : GenerationLedger SG;
  pt_identity : Registry SI;
  pt_escrow : option X;
  pt_fees : option (Collector (TransferLedger SL) SF);
  pt_stakes : option (StakeManager (TransferLedger SL) SS);
}.
#[global] Arguments mkParts {SL SG SI SF SS X} _ _ _ _ _ _.
#[global] Arguments pt_transfer {SL SG SI SF SS X} _.
#[global] Arguments pt_generation {SL SG SI SF SS X} _.
#[global] Arguments pt_identity {SL SG SI SF SS X} _.
#[global] Arguments pt_escrow {SL SG SI SF SS X} _.
#[global] Arguments pt_fees {SL SG SI SF SS X} _.
#[global] Arguments pt_stakes {SL SG SI SF SS X} _.

Inductive ApplicatorError :=
  | ErrRecordTransfer (e : LedgerError)
  | ErrSettle (e : LedgerError)
  | ErrRecordGeneration (e : GenError)
  | ErrVerifyGeneration (e : GenError)
  | ErrDecodeTaskSettlement
  | ErrTaskSettler
  | ErrDecodeSettlement
  | ErrLoadApplied.

Section parts.
Context `{!PayloadCodec, !FingerprintCodec} {SL SG SI SF SS X : Type}.
Context {per_l : Persistence SL TransferEntry} {meta_l : MetaPersistence SL} {per_g : Persistence SG GenerationEntry}.
Context {per_i : Persistence SI CapabilityFingerprint} {meta_f : MetaPersistence SF} {per_s : Persistence SS StakeMeta} {holder : EscrowHolder X}.
Notation Parts := (Parts SL SG SI SF SS X).
Implicit Types (p : Parts).

Definition set_transfer (l : TransferLedger SL) p : Parts :=
  mkParts l (pt_generation p) (pt_identity p) (pt_escrow p) (pt_fees p) (pt_stakes p).
Definition set_generation (l : GenerationLedger SG) p : Parts :=
  mkParts (pt_transfer p) l (pt_identity p) (pt_escrow p) (pt_fees p) (pt_stakes p).
Definition set_identity (r : Registry SI) p : Parts :=
  mkParts (pt_transfer p) (pt_generation p) r (pt_escrow p) (pt_fees p) (pt_stakes p).
Definition set_escrow (x : option X) p : Parts :=
  mkParts (pt_transfer p) (pt_generation p) (pt_identity p) x (pt_fees p) (pt_stakes p).
Definition set_fees (c : option (Collector (TransferLedger SL) SF)) p : Parts :=
  mkParts (pt_transfer p) (pt_generation p) (pt_identity p) (pt_escrow p) c (pt_stakes p).
Definition set_stakes (m : option (StakeManager (TransferLedger SL) SS)) p : Parts :=
  mkParts (pt_transfer p) (pt_generation p) (pt_identity p) (pt_escrow p) (pt_fees p) m.

(** ** Transfers *)

(** The bookkeeping of an accepted transfer, by its reason. *)
Definition settle_reason (targetID : EventID) (tp : TransferPayload) (now : Z) p : Parts :=
  if decide (tp_Reason tp = "escrow-lock") then
    match pt_escrow p with
    | Some x =>
        if decide (tp_TaskID tp ≠ "" ∧ eh_IsLocked (tp_TaskID tp) x = false)
        then set_escrow (Some (eh_RegisterEscrow (tp_TaskID tp) (tp_FromAgent tp) (tp_Amount tp) targetID x).1) p else p
    | None => p
    end
  else if decide (tp_Reason tp = "stake-lock") then
    set_stakes (sm_RecordCanonicalStake (tp_FromAgent tp) (tp_Amount tp) now <$> pt_stakes p) p
  else if decide (tp_Reason tp = "stake-unlock") then
    set_stakes (sm_RecordCanonicalUnstake (tp_ToAgent tp) (tp_Amount tp) <$> pt_stakes p) p
  else p.

Definition applyTransfer (targetID : EventID) (verdict : string) (target : Event) (now : Z) p : Parts * option ApplicatorError :=
  match tl_RecordFromSync target now (pt_transfer p) with
  | (l, Some err) => (set_transfer l p, Some (ErrRecordTransfer err))
  | (l, None) =>
      let settleState := if decide (verdict ≠ VerdictAccepted) then SettlementAdjusted else SettlementSettled in
      match tl_Settle targetID settleState l with
      | (l, Some err) => (set_transfer l p, Some (ErrSettle err))
      | (l, None) =>
          let p := set_transfer l p in
          (if decide (verdict = VerdictAccepted) then
             match GetPayload unmarshal_transfer target with Some tp => settle_reason targetID tp now p | None => p end
           else p, None)
      end
  end.

(** ** Generations and task settlements *)

Definition applyGeneration (targetID : EventID) (verdict : string) (verifiedValue : Z) (target : Event) (now : Z) p :
    Parts * option ApplicatorError :=
  match gl_RecordFromSync target now (pt_generation p) with
  | (l, Some err) => (set_generation l p, Some (ErrRecordGeneration err))
  | (l, None) =>
      let '(l, err) := if decide (verdict = VerdictAccepted) then gl_Verify targetID verifiedValue l else gl_Reject targetID l in
      (set_generation l p, ErrVerifyGeneration <$> err)
  end.

Definition applyTaskSettlement (taskSettlerFn : option (TaskSettlementPayload → Parts → Parts * bool)) (target : Event) (verdict : string) p :
    Parts * option ApplicatorError :=
  if decide (verdict ≠ VerdictAccepted) then (p, None)
  else match taskSettlerFn with
  | None => (p, None)
  | Some settle =>
      match GetPayload unmarshal_task_settlement target with
      | None => (p, Some ErrDecodeTaskSettlement)
      | Some payload => let '(p, ok) := settle payload p in (p, if ok : bool then None else Some ErrTaskSettler)
      end
  end.

(** ** Identity, fees, stakes *)

Definition record_outcome (sp : SettlementPayload) (target : Event) (now : Z) p : Parts :=
  set_identity (if decide (sp_Verdict sp = VerdictAccepted)
                then (reg_RecordTaskCompletion (AgentID_ target) (sp_VerifiedValue sp) (Type_ target) now (pt_identity p)).1
                else (reg_RecordTaskFailure (AgentID_ target) (Type_ target) now (pt_identity p)).1) p.

(** Fees are taken from the recipient by the collector, which works on the same ledger. *)
Definition collect_fee (treasuryID : AgentID) (recipient : AgentID) (amount : Z) (now : Z) p : Parts :=
  match pt_fees p with
  | None => p
  | Some c =>
      let '(c, _, _) := fc_CollectFeeFromRecipient recipient amount "" treasuryID now (fc_set_ledger (pt_transfer p) c) in
      set_transfer (fc_transfer c) (set_fees (Some c) p)
  end.

Definition track_generation_fee (verifiedValue : Z) p : Parts :=
  let fee := CalculateFee verifiedValue in
  let share pct := u64 (fee * pct) / 100 in
  let burned := u64 (u64 (fee - share ValidatorShare) - share TreasuryShare) in
  set_fees (fc_TrackFee fee burned (share TreasuryShare) <$> pt_fees p) p.

Definition settle_economics (treasuryID : AgentID) (sp : SettlementPayload) (target : Event) (now : Z) p : Parts :=
  if decide (sp_Verdict sp ≠ VerdictAccepted) then p
  else
    let p :=
      if decide (0 < sp_VerifiedValue sp) then
        if decide (Type_ target = EventTypeTransfer) then
          match GetPayload unmarshal_transfer target with
          | Some tp => if isProtocolInternalTransfer (tp_Reason tp) then p else collect_fee treasuryID (tp_ToAgent tp) (tp_Amount tp) now p
          | None => p
          end
        else if decide (Type_ target = EventTypeGeneration) then track_generation_fee (sp_VerifiedValue sp) p else p
      else p in
    set_stakes (sm_RecordActivity (AgentID_ target) now <$> pt_stakes p) p.

(** [applyToTarget] up to the mark: the mutations, and whether they failed. *)
Definition apply_parts (taskSettlerFn : option (TaskSettlementPayload → Parts → Parts * bool)) (treasuryID : AgentID)
    (sp : SettlementPayload) (target : Event) (now : Z) p : Parts * option ApplicatorError :=
  let '(p, err) :=
    if decide (Type_ target = EventTypeTransfer) then applyTransfer (sp_TargetEventID sp) (sp_Verdict sp) target now p
    else if decide (Type_ target = EventTypeGeneration) then applyGeneration (sp_TargetEventID sp) (sp_Verdict sp) (sp_VerifiedValue sp) target now p
    else if decide (Type_ target = EventTypeTaskSettlement) then applyTaskSettlement taskSettlerFn target (sp_Verdict sp) p
    else (p, None) in
  match err with
  | Some err => (p, Some err)
  | None => (settle_economics treasuryID sp target now (record_outcome sp target now p), None)
  end.
End parts.

(** * The applicator *)

Record Applicator (SL SG SI SF SS X SA : Type) := mkApplicator {
  ap_parts : Parts SL SG SI SF SS X;
  ap_taskSettlerFn : option (TaskSettlementPayload → Parts SL SG SI SF SS X → Parts SL SG SI SF SS X * bool);
  ap_treasuryID : AgentID;
  ap_store : option SA;
  ap_applied : gset EventID;
  ap_deferred : gmap EventID SettlementPayload;
  ap_appliedTotal : Z;
  ap_duplicatedTotal : Z;
  ap_deferredTotal : Z;
  ap_failedTotal : Z;
}.
#[global] Arguments mkApplicator {SL SG SI SF SS X SA} _ _ _ _ _ _ _ _ _ _.
#[global] Arguments ap_parts {SL SG SI SF SS X SA} _.
#[global] Arguments ap_taskSettlerFn {SL SG SI SF SS X SA} _.
#[global] Arguments ap_treasuryID {SL SG SI SF SS X SA} _.
#[global] Arguments ap_store {SL SG SI SF SS X SA} _.
#[global] Arguments ap_applied {SL SG SI SF SS X SA} _.
#[global] Arguments ap_deferred {SL SG SI SF SS X SA} _.
#[global] Arguments ap_appliedTotal {SL SG SI SF SS X SA} _.
#[global] Arguments ap_duplicatedTotal {SL SG SI SF SS X SA} _.
#[global] Arguments ap_deferredTotal {SL SG SI SF SS X SA} _.
#[global] Arguments ap_failedTotal {SL SG SI SF SS X SA} _.

Definition applied_prefix : string := "settlement:applied:".
Definition appliedKey (targetID : EventID) : string := applied_prefix +:+ targetID.

Section applicator.
Context `{!PayloadCodec, !FingerprintCodec} {SL SG SI SF SS X SA : Type}.
Context {per_l : Persistence SL TransferEntry} {meta_l : MetaPersistence SL} {per_g : Persistence SG GenerationEntry}.
Context {per_i : Persistence SI CapabilityFingerprint} {meta_f : MetaPersistence SF} {per_s : Persistence SS StakeMeta} {holder : EscrowHolder X}.
Context {meta_a : MetaPersistence SA} {order : RangeOrder}.
Notation Parts := (Parts SL SG SI SF SS X).
Notation Applicator := (Applicator SL SG SI SF SS X SA).
Implicit Types (a : Applicator) (sp : SettlementPayload).

(** The graph of the node. *)
Context (lookup : EventID → option Event).

Definition NewApplicator (tl : TransferLedger SL) (gl : GenerationLedger SG) (reg : Registry SI) : Applicator :=
  mkApplicator (mkParts tl gl reg None None None) None "" None ∅ ∅ 0 0 0 0.

Definition set_parts (p : Parts) a : Applicator :=
  mkApplicator p (ap_taskSettlerFn a) (ap_treasuryID a) (ap_store a) (ap_applied a) (ap_deferred a)
    (ap_appliedTotal a) (ap_duplicatedTotal a) (ap_deferredTotal a) (ap_failedTotal a).

(** The counters: applied, duplicated, deferred, failed. *)
Definition count (applied duplicated deferred failed : Z) a : Applicator :=
  mkApplicator (ap_parts a) (ap_taskSettlerFn a) (ap_treasuryID a) (ap_store a) (ap_applied a) (ap_deferred a)
    (u64 (ap_appliedTotal a + applied)) (u64 (ap_duplicatedTotal a + duplicated)) (u64 (ap_deferredTotal a + deferred))
    (u64 (ap_failedTotal a + failed)).

Definition ap_SetStore (s : SA) a : Applicator :=
  mkApplicator (ap_parts a) (ap_taskSettlerFn a) (ap_treasuryID a) (Some s) (ap_applied a) (ap_deferred a)
    (ap_appliedTotal a) (ap_duplicatedTotal a) (ap_deferredTotal a) (ap_failedTotal a).

Definition SetTaskSettler (fn : TaskSettlementPayload → Parts → Parts * bool) a : Applicator :=
  mkApplicator (ap_parts a) (Some fn) (ap_treasuryID a) (ap_store a) (ap_applied a) (ap_deferred a)
    (ap_appliedTotal a) (ap_duplicatedTotal a) (ap_deferredTotal a) (ap_failedTotal a).

Definition SetFeeCollector (fc : Collector (TransferLedger SL) SF) (treasuryID : AgentID) a : Applicator :=
  mkApplicator (set_fees (Some fc) (ap_parts a)) (ap_taskSettlerFn a) treasuryID (ap_store a) (ap_applied a) (ap_deferred a)
    (ap_appliedTotal a) (ap_duplicatedTotal a) (ap_deferredTotal a) (ap_failedTotal a).

Definition SetStakeManager (sm : StakeManager (TransferLedger SL) SS) a : Applicator := set_parts (set_stakes (Some sm) (ap_parts a)) a.
Definition SetEscrowManager (x : X) a : Applicator := set_parts (set_escrow (Some x) (ap_parts a)) a.

(** The mark that ends [applyToTarget]: the applied set, then its record. *)
Definition mark_applied sp a : Applicator :=
  count 1 0 0 0
    (mkApplicator (ap_parts a) (ap_taskSettlerFn a) (ap_treasuryID a)
       ((λ s, (meta_put (appliedKey (sp_TargetEventID sp)) (bytes_of_string (sp_Verdict sp)) s).1) <$> ap_store a)
       ({[sp_TargetEventID sp]} ∪ ap_applied a) (delete (sp_TargetEventID sp) (ap_deferred a))
       (ap_appliedTotal a) (ap_duplicatedTotal a) (ap_deferredTotal a) (ap_failedTotal a)).

(** A failed application keeps what was changed before the failure. *)
Definition applyToTarget sp (target : Event) (now : Z) a : Applicator * option ApplicatorError :=
  let '(p, err) := apply_parts (ap_taskSettlerFn a) (ap_treasuryID a) sp target now (ap_parts a) in
  match err with
  | Some err => (count 0 0 0 1 (set_parts p a), Some err)
  | None => (mark_applied sp (set_parts p a), None)
  end.

Definition defer sp a : Applicator :=
  match ap_deferred a !! sp_TargetEventID sp with
  | Some _ => a
  | None => count 0 0 1 0
      (mkApplicator (ap_parts a) (ap_taskSettlerFn a) (ap_treasuryID a) (ap_store a) (ap_applied a)
         (<[sp_TargetEventID sp := sp]> (ap_deferred a)) (ap_appliedTotal a) (ap_duplicatedTotal a) (ap_deferredTotal a) (ap_failedTotal a))
  end.

(** [Apply] tests the applied set under the lock and then works without it. *)
Definition Apply_begin sp a : Applicator * bool :=
  if decide (sp_TargetEventID sp ∈ ap_applied a) then (count 0 1 0 0 a, false) else (a, true).

Definition Apply_rest sp (now : Z) a : Applicator * option ApplicatorError :=
  match lookup (sp_TargetEventID sp) with
  | None => (defer sp a, None)
  | Some target => applyToTarget sp target now a
  end.

Definition ap_Apply sp (now : Z) a : Applicator * option ApplicatorError :=
  let '(a, go) := Apply_begin sp a in if go : bool then Apply_rest sp now a else (a, None).

Definition IsApplied (targetID : EventID) a : bool := bool_decide (targetID ∈ ap_applied a).
Definition AppliedCount a : Z := Z.of_nat (size (ap_applied a)).
Definition Metrics a : Z * Z * Z * Z := (ap_appliedTotal a, ap_duplicatedTotal a, ap_deferredTotal a, ap_failedTotal a).

(** [reconcile]: the deferred settlements of the moment, in the order of the map; the
    applied set is not tested again. *)
Definition reconcile_one (now : Z) a (sp : SettlementPayload) : Applicator :=
  match lookup (sp_TargetEventID sp) with None => a | Some target => (applyToTarget sp target now a).1 end.

Definition deferred_list a : list SettlementPayload := omap (λ id, ap_deferred a !! id) (range_set (dom (ap_deferred a))).

Definition reconcile (now : Z) a : Applicator := foldl (reconcile_one now) a (deferred_list a).

(** [LoadApplied]: [allMeta] gives the keys of the store that start with a prefix. *)
Definition LoadApplied (allMeta : string → option (list string)) a : Applicator * option ApplicatorError :=
  match allMeta applied_prefix with
  | None => (a, Some ErrLoadApplied)
  | Some keys =>
      (mkApplicator (ap_parts a) (ap_taskSettlerFn a) (ap_treasuryID a) (ap_store a)
         (list_to_set ((λ k, String.substring (String.length applied_prefix) (String.length k - String.length applied_prefix) k) <$> keys)
          ∪ ap_applied a)
         (ap_deferred a) (ap_appliedTotal a) (ap_duplicatedTotal a) (ap_deferredTotal a) (ap_failedTotal a), None)
  end.

(** The consumer of settlement events: whatever settlement an event carries. *)
Definition settlement_Consume (unmarshal_settlement : string → option SettlementPayload) (ev : Event) (now : Z) a :
    Applicator * option ApplicatorError :=
  match GetPayload unmarshal_settlement ev with None => (a, Some ErrDecodeSettlement) | Some sp => ap_Apply sp now a end.

(** ** The finalization handler of cmd/node/main.go *)

(** The settlement of a finalized vote. *)
Definition settlement_of (targetID : EventID) (verdict : bool) (verifiedValue finalOrder : Z) (rec : VoteRecord) : SettlementPayload :=
  SortAttestations (mkSettlement 1 targetID (if verdict then VerdictAccepted else VerdictRejected) verifiedValue finalOrder
    ((λ id, mkAttestation id (if default false (vt_Votes rec !! id) then VerdictAccepted else VerdictRejected) 0)
       <$> range_set (dom (vt_Votes rec)))).

(** The handler: it publishes the settlement event and applies it, unless the event is
    refused; [create] stands for [event.New] and [SignEvent]. *)
Definition finalization_handler {W : Type} `{!ConsensusPublisher W} {SV PV : Type} (create : SettlementPayload → option Event)
    (vr : VotingRound SV PV) (targetID : EventID) (verdict : bool) (verifiedValue finalOrder : Z) (now : Z) (a : Applicator) (w : W) :
    Applicator * W :=
  if IsApplied targetID a then (a, w)
  else match vr_GetRecord targetID vr with
  | inr _ => (a, w)
  | inl rec =>
      let sp := settlement_of targetID verdict verifiedValue finalOrder rec in
      match create sp with
      | None => (a, w)
      | Some ev => let '(w, ok) := Publish ev w in if ok : bool then ((ap_Apply sp now a).1, w) else (a, w)
      end
  end.
End applicator.

(** * The task settler of cmd/node/main.go *)

Section task_settler.
Context `{!PayloadCodec} {SL SG SI SF SS SE : Type}.
Context {per_l : Persistence SL TransferEntry} {meta_l : MetaPersistence SL} {meta_f : MetaPersistence SF} {per_e : Persistence SE EscrowEntry}.
Notation EscrowManager := (Escrow (TransferLedger SL) SE).
Notation Parts := (Parts SL SG SI SF SS EscrowManager).

#[global] Instance escrow_holder : EscrowHolder EscrowManager := {|
  eh_IsLocked taskID x := esc_IsLocked x taskID;
  eh_RegisterEscrow taskID poster amount ref x :=
    let '(x, res) := esc_RegisterEscrow taskID poster amount ref x in (x, match res with inr _ => true | inl _ => false end);
|}.

(** The escrow manager with the ledger of the node. *)
Definition with_ledger (l : TransferLedger SL) (x : EscrowManager) : EscrowManager := mkEscrow (es_entries x) l (es_store x) (es_dagReader x).

(** The escrow entry, registered from the funding transfer when it is missing. *)
Definition ensure_escrow (all : list Event) (payload : TaskSettlementPayload) (x : EscrowManager) : EscrowManager * bool :=
  if esc_IsLocked x (tsp_TaskID payload) then (x, true)
  else match LookupEscrowLockTransfer all (tsp_TaskID payload) (tsp_PosterID payload) (tsp_Budget payload) with
  | None => (x, false)
  | Some fundingRef => eh_RegisterEscrow (tsp_TaskID payload) (tsp_PosterID payload) (tsp_Budget payload) fundingRef x
  end.

Definition task_settler (all : list Event) (taskStatus : string → option TaskStatus) (treasuryID : AgentID) (now : Z)
    (payload : TaskSettlementPayload) (p : Parts) : Parts * bool :=
  if decide (tsp_ClaimerID payload = "") then (p, true)
  else if decide (taskStatus (tsp_TaskID payload) ∈ [Some TaskStatusCompleted; Some TaskStatusRejected; Some TaskStatusDisputedResolved])
  then (p, true)
  else match pt_escrow p with
  | None => (p, false)
  | Some x =>
      match ensure_escrow all payload (with_ledger (pt_transfer p) x) with
      | (x, false) => (set_escrow (Some x) p, false)
      | (x, true) =>
          let fee := CalculateFee (tsp_Budget payload) in
          let validatorAmount := u64 (fee * ValidatorShare) / 100 in
          let treasuryAmount := u64 (fee * TreasuryShare) / 100 in
          let burned := u64 (u64 (fee - validatorAmount) - treasuryAmount) in
          let '(x, res) := esc_ReleaseNet (tsp_TaskID payload) (tsp_ClaimerID payload) (u64 (tsp_Budget payload - fee)) "" validatorAmount
                             treasuryID treasuryAmount now x in
          let p := set_transfer (es_ledger x) (set_escrow (Some x) p) in
          match res with
          | inl _ => (p, false)
          | inr _ => (if decide (0 < fee) then set_fees (fc_TrackFee fee burned treasuryAmount <$> pt_fees p) p else p, true)
          end
      end
  end.
End task_settler.

(** * Once per target *)

Lemma substring_all t : String.substring 0 (String.length t) t = t.
Proof. induction t as [|c t IH]; cbn; [done|]. by rewrite IH. Qed.

Lemma substring_after p t : String.substring (String.length p) (String.length (p +:+ t) - String.length p) (p +:+ t) = t.
Proof. induction p as [|c p IH]; [cbn; rewrite Nat.sub_0_r; apply substring_all|]. exact IH. Qed.

Lemma prefix_self p t : String.prefix p (p +:+ t) = true.
Proof. apply RoundStore.prefix_app. Qed.

Ltac ap_cbn := cbn [ap_appliedTotal ap_applied ap_deferred ap_store ap_parts ap_taskSettlerFn ap_treasuryID fst snd].

(** The keys of a store and their listing by prefix. *)
Class MetaListing (SA : Type) `{!MetaPersistence SA} : Type := {
  meta_all : string → SA → option (list string);
  meta_keys : SA → gset string;
  meta_put_keys k b s : meta_keys (meta_put k b s).1 = (if (meta_put k b s).2 then {[k]} ∪ meta_keys s else meta_keys s);
  meta_all_keys p s l : meta_all p s = Some l → ∀ k, k ∈ l ↔ k ∈ meta_keys s ∧ String.prefix p k = true;
}.

Section once.
Context `{!PayloadCodec, !FingerprintCodec} {SL SG SI SF SS X SA : Type}.
Context {per_l : Persistence SL TransferEntry} {meta_l : MetaPersistence SL} {per_g : Persistence SG GenerationEntry}.
Context {per_i : Persistence SI CapabilityFingerprint} {meta_f : MetaPersistence SF} {per_s : Persistence SS StakeMeta} {holder : EscrowHolder X}.
Context {meta_a : MetaPersistence SA} {order : RangeOrder} `{!MetaListing SA}.
Notation Parts := (Parts SL SG SI SF SS X).
Notation Applicator := (Applicator SL SG SI SF SS X SA).
Implicit Types (a : Applicator) (sp : SettlementPayload) (s : SA).

(** Each operation comes with the events that are in the graph when it runs. *)
Inductive ap_op :=
  | OpApply (lookup : EventID → option Event) (sp : SettlementPayload) (now : Z)
  | OpReconcile (lookup : EventID → option Event) (now : Z)
  | OpRestart (reload : Parts → Parts).

(** A restart: the parts come from their stores, the applied set from its own, and
    what was deferred is forgotten. *)
Definition restart (reload : Parts → Parts) a : Applicator :=
  let fresh := mkApplicator (reload (ap_parts a)) (ap_taskSettlerFn a) (ap_treasuryID a) (ap_store a) ∅ ∅ 0 0 0 0 in
  match ap_store a with
  | Some s => (LoadApplied (λ p, meta_all p s) fresh).1
  | None => fresh
  end.

(** The applications counted by the processes that ended. *)
Definition ap_exec (past : Z * Applicator) (op : ap_op) : Z * Applicator :=
  let '(n, a) := past in
  match op with
  | OpApply lookup sp now => (n, (ap_Apply lookup sp now a).1)
  | OpReconcile lookup now => (n, reconcile lookup now a)
  | OpRestart reload => (n + ap_appliedTotal a, restart reload a)
  end.

(** What holds of the applicator and its store; [n] is the number of applications
    that earlier processes counted. *)
Record once_inv (n : Z) a : Prop := {
  oi_count : n + ap_appliedTotal a ≡64 Z.of_nat (size (ap_applied a));
  oi_keys id sp : ap_deferred a !! id = Some sp → sp_TargetEventID sp = id;
  oi_disjoint id : is_Some (ap_deferred a !! id) → id ∉ ap_applied a;
  oi_store : ∃ s, ap_store a = Some s ∧ ∀ k, k ∈ meta_keys s ∧ String.prefix applied_prefix k = true ↔ ∃ id, id ∈ ap_applied a ∧ k = appliedKey id;
}.

(** Applying touches the applied set and the deferred settlements at the target only. *)
Lemma applyToTarget_others sp target now a id : id ≠ sp_TargetEventID sp →
  (id ∈ ap_applied (applyToTarget sp target now a).1 ↔ id ∈ ap_applied a).
Proof.
  intros Hne. unfold applyToTarget. destruct (apply_parts _ _ sp target now _) as [p [err|]]; cbn [fst]; [done|].
  unfold mark_applied, count, set_parts. cbn [ap_applied]. set_solver.
Qed.

Lemma deferred_list_spec a : (∀ id sp, ap_deferred a !! id = Some sp → sp_TargetEventID sp = id) →
  NoDup (sp_TargetEventID <$> deferred_list a) ∧ ∀ sp, sp ∈ deferred_list a → ap_deferred a !! sp_TargetEventID sp = Some sp.
Proof.
  intros Hi. unfold deferred_list. set (ids := range_set _). assert (NoDup ids) as Hnd by (unfold ids; rewrite range_set_perm; apply NoDup_elements). clearbody ids.
  assert (∀ sp, sp ∈ omap (λ id, ap_deferred a !! id) ids → ap_deferred a !! sp_TargetEventID sp = Some sp ∧ sp_TargetEventID sp ∈ ids) as Hin.
  { intros sp (id & Hid & Hsp)%list_elem_of_omap. by rewrite (Hi id sp Hsp). }
  split; [|intros sp Hsp; by apply Hin]. clear Hin. induction Hnd as [|id ids Hid _ IH]; cbn; [constructor|].
  destruct (ap_deferred a !! id) as [sp|] eqn:Hsp; [|exact IH]. cbn. apply NoDup_cons. split; [|exact IH].
  intros (sp' & Heq & (id' & Hid' & Hsp')%list_elem_of_omap)%list_elem_of_fmap.
  rewrite (Hi id sp Hsp), (Hi id' sp' Hsp') in Heq. by subst id'.
Qed.

Context (reliable : ∀ k b s, (meta_put k b s).2 = true) (listing : ∀ p s, is_Some (meta_all p s)).

Lemma once_inv_same n a a' :
  ap_appliedTotal a' = ap_appliedTotal a → ap_applied a' = ap_applied a → ap_deferred a' = ap_deferred a → ap_store a' = ap_store a →
  once_inv n a → once_inv n a'.
Proof. intros E1 E2 E3 E4 [K1 K2 K3 K4]. split; rewrite ?E1, ?E2, ?E3, ?E4; done. Qed.

Lemma mark_applied_inv n sp a : sp_TargetEventID sp ∉ ap_applied a → once_inv n a → once_inv n (mark_applied sp a).
Proof.
  intros Hnew [K1 K2 K3 (s & Hs & Hk)]. unfold mark_applied, count. split; cbn [ap_appliedTotal ap_applied ap_deferred ap_store].
  - rewrite size_union by set_solver. rewrite size_singleton, Nat2Z.inj_add, <- K1, eqm_u64. eqm_lia.
  - intros id sp' [_ Hid]%lookup_delete_Some. by apply K2.
  - intros id [sp' [Hne Hid]%lookup_delete_Some]. specialize (K3 id (ex_intro _ _ Hid)). set_solver.
  - rewrite Hs. cbn. eexists. split; [done|]. intros k. rewrite meta_put_keys, reliable. rewrite elem_of_union, elem_of_singleton. split.
    + intros [[->|Hin] Hp]; [exists (sp_TargetEventID sp); set_solver|]. destruct (proj1 (Hk k) (conj Hin Hp)) as (id & Hid & ->). exists id. set_solver.
    + intros (id & Hid & ->). split; [|apply prefix_self]. apply elem_of_union in Hid as [->%elem_of_singleton|Hid]; [by left|]. right.
      apply Hk. by exists id.
Qed.

Lemma applyToTarget_inv n sp target now a : sp_TargetEventID sp ∉ ap_applied a → once_inv n a → once_inv n (applyToTarget sp target now a).1.
Proof.
  intros Hnew Hi. unfold applyToTarget. destruct (apply_parts _ _ sp target now _) as [p [err|]]; cbn [fst].
  - destruct Hi as [K1 K2 K3 K4]. split; unfold count, set_parts; ap_cbn; [|done..]. rewrite eqm_u64, Z.add_0_r. exact K1.
  - apply mark_applied_inv; [done|]. by apply (once_inv_same n a).
Qed.

Lemma Apply_inv n lookup sp now a : once_inv n a → once_inv n (ap_Apply lookup sp now a).1.
Proof.
  intros Hi. unfold ap_Apply, Apply_begin. case_decide as Hin.
  - destruct Hi as [K1 K2 K3 K4]. split; unfold count, set_parts; ap_cbn; [|done..]. rewrite eqm_u64, Z.add_0_r. exact K1.
  - unfold Apply_rest. destruct (lookup _) as [target|]; [by apply applyToTarget_inv|]. unfold defer.
    destruct (ap_deferred a !! sp_TargetEventID sp) eqn:Hd; [done|]. destruct Hi as [K1 K2 K3 K4]. unfold count. split; ap_cbn.
    + rewrite eqm_u64, Z.add_0_r. exact K1.
    + intros id sp' [[<- <-]|[_ Hid]]%lookup_insert_Some; [done|by apply K2].
    + intros id Hid. apply lookup_insert_is_Some in Hid as [<-|[_ Hid]]; [done|by apply K3].
    + done.
Qed.

Lemma reconcile_list_inv n lookup now (l : list SettlementPayload) a : NoDup (sp_TargetEventID <$> l) →
  (∀ sp, sp ∈ l → sp_TargetEventID sp ∉ ap_applied a) → once_inv n a → once_inv n (foldl (reconcile_one lookup now) a l).
Proof.
  revert a. induction l as [|sp l IH]; intros a Hnd Hnew Hi; cbn [foldl]; [done|].
  rewrite fmap_cons in Hnd. apply NoDup_cons in Hnd as [Hsp Hnd]. unfold reconcile_one at 2. destruct (lookup (sp_TargetEventID sp)) as [target|].
  - apply IH; [done| |apply applyToTarget_inv; [apply Hnew; left|done]]. intros sp' Hsp'. rewrite applyToTarget_others; [apply Hnew; by right|].
    intros Heq. apply Hsp, list_elem_of_fmap. by exists sp'.
  - apply IH; [done| |done]. intros sp' Hsp'. apply Hnew. by right.
Qed.

Lemma reconcile_inv n lookup now a : once_inv n a → once_inv n (reconcile lookup now a).
Proof.
  intros Hi. destruct (deferred_list_spec a (oi_keys n a Hi)) as [Hnd Hin]. apply reconcile_list_inv; [done| |done].
  intros sp Hsp. apply (oi_disjoint n a Hi). rewrite (Hin sp Hsp). by eexists.
Qed.

Lemma restart_inv n reload a : once_inv n a →
  once_inv (n + ap_appliedTotal a) (restart reload a) ∧ ap_applied (restart reload a) = ap_applied a.
Proof.
  intros [K1 K2 K3 (s & Hs & Hk)]. assert (ap_applied (restart reload a) = ap_applied a) as Happ.
  { unfold restart, LoadApplied. rewrite Hs. destruct (listing applied_prefix s) as [keys Hkeys]. rewrite Hkeys. cbn [fst ap_applied].
    apply set_eq. intros id. rewrite (right_id_L ∅ (∪)), elem_of_list_to_set, list_elem_of_fmap. split.
    - intros (k & -> & Hin). apply (meta_all_keys _ _ _ Hkeys), Hk in Hin as (id & Hid & ->). unfold appliedKey.
      by rewrite substring_after.
    - intros Hid. exists (appliedKey id). unfold appliedKey at 1 2. rewrite substring_after. split; [done|].
      apply (meta_all_keys _ _ _ Hkeys), Hk. by exists id. }
  split; [|done]. split.
  - rewrite Happ. unfold restart, LoadApplied. rewrite Hs. destruct (meta_all applied_prefix s); cbn [ap_appliedTotal fst]; by rewrite Z.add_0_r.
  - unfold restart, LoadApplied. rewrite Hs. destruct (meta_all applied_prefix s); cbn; intros id sp Hid; by rewrite lookup_empty in Hid.
  - unfold restart, LoadApplied. rewrite Hs. destruct (meta_all applied_prefix s); cbn; intros id [sp Hid]; by rewrite lookup_empty in Hid.
  - rewrite Happ. exists s. split; [|done]. unfold restart, LoadApplied. rewrite Hs. by destruct (meta_all applied_prefix s).
Qed.

Lemma ap_exec_inv na op : once_inv na.1 na.2 → once_inv (ap_exec na op).1 (ap_exec na op).2.
Proof.
  destruct na as [n a], op as [lookup sp now|lookup now|reload]; cbn [ap_exec fst snd]; intros Hi.
  - by apply Apply_inv.
  - by apply reconcile_inv.
  - by apply restart_inv.
Qed.

Lemma ap_run_inv ops na : once_inv na.1 na.2 → once_inv (foldl ap_exec na ops).1 (foldl ap_exec na ops).2.
Proof. revert na. induction ops as [|op ops IH]; intros na Hi; [done|]. cbn [foldl]. by apply IH, ap_exec_inv. Qed.

(** Nothing ever leaves the applied set. *)
Lemma applied_grows na op : once_inv na.1 na.2 → ap_applied na.2 ⊆ ap_applied (ap_exec na op).2.
Proof.
  destruct na as [n a], op as [lookup sp now|lookup now|reload]; cbn [ap_exec fst snd]; intros Hi.
  - unfold ap_Apply, Apply_begin. case_decide; [done|]. unfold Apply_rest. destruct (lookup _) as [target|].
    + unfold applyToTarget. destruct (apply_parts _ _ _ _ _ _) as [p [err|]]; [done|]. unfold mark_applied, count. cbn. set_solver.
    + unfold defer. by destruct (ap_deferred a !! _).
  - unfold reconcile. generalize (deferred_list a). clear Hi. intros l. revert a. induction l as [|sp l IH]; intros a; [done|]. cbn [foldl].
    etrans; [|apply IH]. unfold reconcile_one. destruct (lookup _) as [target|]; [|done]. unfold applyToTarget.
    destruct (apply_parts _ _ _ _ _ _) as [p [err|]]; [done|]. unfold mark_applied, count. cbn. set_solver.
  - by destruct (restart_inv n reload a Hi) as [_ ->].
Qed.

Lemma applied_run_grows ops na : once_inv na.1 na.2 → ap_applied na.2 ⊆ ap_applied (foldl ap_exec na ops).2.
Proof.
  revert na. induction ops as [|op ops IH]; intros na Hi; [done|]. cbn [foldl]. etrans; [by apply applied_grows|]. by apply IH, ap_exec_inv.
Qed.
End once.

(** * Convergence *)

Section converge.
Context `{!PayloadCodec, !FingerprintCodec} {SL SG SI SF SS X SA : Type}.
Context {per_l : Persistence SL TransferEntry} {meta_l : MetaPersistence SL} {per_g : Persistence SG GenerationEntry}.
Context {per_i : Persistence SI CapabilityFingerprint} {meta_f : MetaPersistence SF} {per_s : Persistence SS StakeMeta} {holder : EscrowHolder X}.
Context {meta_a : MetaPersistence SA} {order : RangeOrder} `{!MetaListing SA}.
Notation Parts := (Parts SL SG SI SF SS X).
Notation Applicator := (Applicator SL SG SI SF SS X SA).
Implicit Types (a : Applicator) (sp : SettlementPayload) (p : Parts) (l : TransferLedger SL).

(** The events that exist, of which a node has some at any time, and the verdict
    of each target. *)
Context (G : EventID → option Event) (verdict_of : EventID → string).

Definition graph_ok : Prop := ∀ id ev, G id = Some ev →
  ID ev = id ∧ SettlementState_ ev = SettlementOptimistic ∧ Type_ ev ≠ EventTypeTaskSettlement.

(** The transfer that an event makes. *)
Definition transfer_of (id : EventID) : option (Event * TransferPayload) :=
  ev ← G id;
  if decide (Type_ ev = EventTypeTransfer) then tp ← GetPayload unmarshal_transfer ev; Some (ev, tp) else None.

(** An entry without its clock reading, which is the only part that differs between nodes. *)
Definition content (e : TransferEntry) : TransferEntry :=
  mkTransferEntry (te_EventID e) (te_FromAgent e) (te_ToAgent e) (te_Amount e) (te_Currency e)
    (te_Memo e) (te_Reason e) (te_Timestamp e) (te_Settlement e) 0 (te_IsGenesis e).

Definition entry_at (id : EventID) l : option TransferEntry := content <$> tl_entries l !! id.

Definition final_state (id : EventID) : SettlementState :=
  if decide (verdict_of id ≠ VerdictAccepted) then SettlementAdjusted else SettlementSettled.

Definition settled_entry (id : EventID) (ev : Event) (tp : TransferPayload) : TransferEntry :=
  content (set_Settlement (final_state id) (entry_of_event ev tp 0)).

(** Before a transfer is settled the ledger has no entry for it, or the optimistic
    one of its submission. *)
Definition unsettled l : Prop := ∀ id ev tp, transfer_of id = Some (ev, tp) →
  entry_at id l = None ∨ entry_at id l = Some (content (entry_of_event ev tp 0)).

(** What a node does: settlements of the agreed verdicts, over some of the events. *)
Definition agreed (op : ap_op (SL := SL) (SG := SG) (SI := SI) (SF := SF) (SS := SS) (X := X)) : Prop :=
  match op with
  | OpApply lookup sp _ => sp_Verdict sp = verdict_of (sp_TargetEventID sp) ∧ ∀ id ev, lookup id = Some ev → G id = Some ev
  | OpReconcile lookup _ => ∀ id ev, lookup id = Some ev → G id = Some ev
  | OpRestart _ => False
  end.

(** A node that has applied nothing and takes no fees. *)
Definition starting a : Prop :=
  ap_applied a = ∅ ∧ ap_deferred a = ∅ ∧ pt_fees (ap_parts a) = None ∧ unsettled (pt_transfer (ap_parts a)).

Definition settles (id : EventID) (applied : gset EventID) : Prop := id ∈ applied ∧ is_Some (transfer_of id).

Record converge_inv l0 a : Prop := {
  ci_fees : pt_fees (ap_parts a) = None;
  ci_deferred id sp : ap_deferred a !! id = Some sp → sp_TargetEventID sp = id ∧ sp_Verdict sp = verdict_of id;
  ci_disjoint id : is_Some (ap_deferred a !! id) → id ∉ ap_applied a;
  ci_archived : tl_archivedNetSettled (pt_transfer (ap_parts a)) = tl_archivedNetSettled l0;
  ci_settled id ev tp : id ∈ ap_applied a → transfer_of id = Some (ev, tp) →
    entry_at id (pt_transfer (ap_parts a)) = Some (settled_entry id ev tp);
  ci_open id ev tp : id ∉ ap_applied a → transfer_of id = Some (ev, tp) →
    entry_at id (pt_transfer (ap_parts a)) = entry_at id l0;
  ci_other id : transfer_of id = None → entry_at id (pt_transfer (ap_parts a)) = entry_at id l0;
}.

Lemma entry_at_put id e l : entry_at id (tl_put e l) = if decide (id = te_EventID e) then Some (content e) else entry_at id l.
Proof. unfold entry_at, tl_put. cbn. case_decide as E; [by rewrite E, lookup_insert_eq|by rewrite lookup_insert_ne]. Qed.

(** Bookkeeping besides the transfer leaves the transfer ledger alone. *)
Lemma settle_reason_transfer id tp now p : pt_transfer (settle_reason id tp now p) = pt_transfer p ∧ pt_fees (settle_reason id tp now p) = pt_fees p.
Proof.
  unfold settle_reason. destruct (decide (tp_Reason tp = "escrow-lock")).
  - destruct (pt_escrow p); [|done]. by destruct (decide (tp_TaskID tp ≠ "" ∧ _)).
  - destruct (decide _); [done|]. by destruct (decide _).
Qed.

Lemma economics_transfer treasury sp ev now p : pt_fees p = None →
  pt_transfer (settle_economics treasury sp ev now (record_outcome sp ev now p)) = pt_transfer p
  ∧ pt_fees (settle_economics treasury sp ev now (record_outcome sp ev now p)) = None.
Proof.
  intros Hf. unfold settle_economics. case_decide; [done|]. repeat case_decide; unfold collect_fee, track_generation_fee; cbn; rewrite ?Hf; try done.
  destruct (GetPayload _ ev) as [tp|]; cbn; rewrite ?Hf; [|done]. by destruct (isProtocolInternalTransfer _).
Qed.

(** [applyTransfer] on a transfer that is not settled yet. *)
Lemma applyTransfer_entry id ev tp now p : graph_ok → transfer_of id = Some (ev, tp) →
  entry_at id (pt_transfer p) = None ∨ entry_at id (pt_transfer p) = Some (content (entry_of_event ev tp 0)) →
  ∃ p', applyTransfer id (verdict_of id) ev now p = (p', None) ∧ pt_fees p' = pt_fees p
  ∧ tl_archivedNetSettled (pt_transfer p') = tl_archivedNetSettled (pt_transfer p)
  ∧ ∀ j, entry_at j (pt_transfer p') = if decide (j = id) then Some (settled_entry id ev tp) else entry_at j (pt_transfer p).
Proof.
  intros Hg Ht Hu. unfold transfer_of in Ht. destruct (G id) as [ev'|] eqn:Hev; cbn in Ht; [|done].
  destruct (decide (Type_ ev' = EventTypeTransfer)) as [Hty|]; [|done].
  destruct (GetPayload unmarshal_transfer ev') as [tp'|] eqn:Htp; cbn in Ht; [|done]. injection Ht as -> ->.
  destruct (Hg id ev Hev) as (Hid & Hopt & _).
  assert (∃ l e, tl_RecordFromSync ev now (pt_transfer p) = (l, None) ∧ tl_entries l !! id = Some e
    ∧ content e = content (entry_of_event ev tp 0) ∧ tl_archivedNetSettled l = tl_archivedNetSettled (pt_transfer p)
    ∧ ∀ j, j ≠ id → entry_at j l = entry_at j (pt_transfer p)) as (l & e & Hrec & He & Hce & Har & Hoth).
  { unfold tl_RecordFromSync. rewrite decide_False by (intros K; by apply K). rewrite Htp, Hid.
    unfold entry_at in Hu. destruct (tl_entries (pt_transfer p) !! id) as [e|] eqn:He; cbn in Hu.
    - exists (pt_transfer p), e. destruct Hu as [|[= Hu]]; [done|]. repeat split; [exact He|]. unfold content. by f_equal.
    - exists (tl_put (entry_of_event ev tp now) (pt_transfer p)), (entry_of_event ev tp now). split; [done|].
      split; [cbn; rewrite Hid; apply lookup_insert_eq|]. split; [done|]. split; [done|]. intros j Hj. rewrite entry_at_put. cbn. by rewrite Hid, decide_False. }
  unfold applyTransfer. rewrite Hrec. unfold tl_Settle. rewrite He.
  assert (te_Settlement e = SettlementOptimistic) as Hst by (change (te_Settlement (content e) = SettlementOptimistic); rewrite Hce; exact Hopt).
  rewrite Hst. cbn [validLedgerTransitions]. fold (final_state id).
  assert (bool_decide (final_state id = SettlementSettled ∨ final_state id = SettlementAdjusted) = true) as ->.
  { apply bool_decide_eq_true. unfold final_state. case_decide; auto. }
  set (l' := mkTL _ _ _ _ _ _ _). eexists. split; [reflexivity|].
  assert (∀ p', pt_transfer p' = l' → tl_archivedNetSettled (pt_transfer p') = tl_archivedNetSettled (pt_transfer p)
    ∧ ∀ j, entry_at j (pt_transfer p') = if decide (j = id) then Some (settled_entry id ev tp) else entry_at j (pt_transfer p)) as Hl'.
  { intros p' ->. split; [exact Har|]. intros j. unfold entry_at, l'. cbn. case_decide as Hj.
    - rewrite Hj, lookup_insert_eq. cbn. unfold settled_entry. f_equal. unfold content in Hce |- *. injection Hce as ???????. cbn. by f_equal.
    - rewrite lookup_insert_ne by done. by apply Hoth. }
  destruct (decide (verdict_of id = VerdictAccepted)); [|split; [done|by apply Hl']].
  rewrite Htp. destruct (settle_reason_transfer id tp now (set_transfer l' p)) as [E1 E2]. split; [by rewrite E2|by apply Hl'].
Qed.
Lemma apply_parts_transfer fn treasury sp ev tp now p : graph_ok → pt_fees p = None →
  let id := sp_TargetEventID sp in
  sp_Verdict sp = verdict_of id → G id = Some ev → transfer_of id = Some (ev, tp) →
  entry_at id (pt_transfer p) = None ∨ entry_at id (pt_transfer p) = Some (content (entry_of_event ev tp 0)) →
  ∃ p', apply_parts fn treasury sp ev now p = (p', None) ∧ pt_fees p' = None
  ∧ tl_archivedNetSettled (pt_transfer p') = tl_archivedNetSettled (pt_transfer p)
  ∧ ∀ j, entry_at j (pt_transfer p') = if decide (j = id) then Some (settled_entry id ev tp) else entry_at j (pt_transfer p).
Proof.
  intros Hg Hf id Hv Hev Ht Hu. destruct (applyTransfer_entry id ev tp now p Hg Ht Hu) as (p' & Happ & Hf' & Har & Hent).
  assert (Type_ ev = EventTypeTransfer) as Hty.
  { unfold transfer_of in Ht. rewrite Hev in Ht. cbn in Ht. by destruct (decide (Type_ ev = EventTypeTransfer)). }
  unfold apply_parts. rewrite decide_True by done. rewrite Hv. fold id. rewrite Happ.
  destruct (economics_transfer treasury sp ev now p') as [E1 E2]; [by rewrite Hf'|]. eexists. split; [done|]. by rewrite E1, E2.
Qed.

Lemma apply_parts_other fn treasury sp ev now p : graph_ok → pt_fees p = None →
  G (sp_TargetEventID sp) = Some ev → transfer_of (sp_TargetEventID sp) = None →
  pt_fees (apply_parts fn treasury sp ev now p).1 = None ∧ pt_transfer (apply_parts fn treasury sp ev now p).1 = pt_transfer p.
Proof.
  intros Hg Hf Hev Ht. destruct (Hg _ _ Hev) as (Hid & _ & Hts). unfold transfer_of in Ht. rewrite Hev in Ht. cbn in Ht. unfold apply_parts.
  destruct (decide (Type_ ev = EventTypeTransfer)) as [Hty|].
  - destruct (GetPayload unmarshal_transfer ev) as [tp|] eqn:Htp; cbn in Ht; [done|].
    unfold applyTransfer, tl_RecordFromSync. rewrite decide_False by (intros K; by apply K). by rewrite Htp.
  - rewrite (decide_False (P := Type_ ev = EventTypeTaskSettlement)) by done. destruct (decide (Type_ ev = EventTypeGeneration)).
    + unfold applyGeneration. destruct (gl_RecordFromSync _ _ _) as [g [err|]]; [done|].
      destruct (if decide _ then _ else _) as [g' [err|]]; [done|].
      destruct (economics_transfer treasury sp ev now (set_generation g' p) Hf) as [E1 E2]. exact (conj E2 E1).
    + cbn [fst]. by destruct (economics_transfer treasury sp ev now p Hf) as [-> ->].
Qed.

Lemma transfer_of_G id ev tp : transfer_of id = Some (ev, tp) → G id = Some ev.
Proof. unfold transfer_of. destruct (G id) as [ev'|]; cbn; [|done]. destruct (decide _); [|done]. destruct (GetPayload _ _); cbn; congruence. Qed.

(** What of the applicator the invariant depends on. *)
Lemma converge_inv_same l0 a a' :
  ap_parts a' = ap_parts a → ap_applied a' = ap_applied a → ap_deferred a' = ap_deferred a → converge_inv l0 a → converge_inv l0 a'.
Proof. intros E1 E2 E3 [K1 K2 K3 K4 K5 K6 K7]. split; rewrite ?E1, ?E2, ?E3; done. Qed.

Lemma applyToTarget_converge l0 sp ev now a : graph_ok → unsettled l0 →
  sp_Verdict sp = verdict_of (sp_TargetEventID sp) → G (sp_TargetEventID sp) = Some ev → sp_TargetEventID sp ∉ ap_applied a →
  converge_inv l0 a → converge_inv l0 (applyToTarget sp ev now a).1.
Proof.
  intros Hg Hl0 Hv Hev Hnew Hi. pose proof Hi as [K1 K2 K3 K4 K5 K6 K7]. unfold applyToTarget.
  destruct (transfer_of (sp_TargetEventID sp)) as [[ev' tp]|] eqn:Ht.
  - pose proof (transfer_of_G _ _ _ Ht) as Hev'. assert (ev' = ev) as -> by congruence.
    destruct (apply_parts_transfer (ap_taskSettlerFn a) (ap_treasuryID a) sp ev tp now (ap_parts a) Hg K1 Hv Hev Ht) as (p' & -> & Hf & Har & Hent).
    { rewrite (K6 _ _ _ Hnew Ht). by apply Hl0. }
    unfold mark_applied, count, set_parts. split; ap_cbn.
    + exact Hf.
    + intros id sp' [_ Hd]%lookup_delete_Some. by apply K2.
    + intros id [sp' [Hne Hd]%lookup_delete_Some]. specialize (K3 id (ex_intro _ _ Hd)). set_solver.
    + by rewrite Har.
    + intros id ev' tp' Hin Ht'. rewrite Hent. case_decide as Hj; [subst id; by simplify_eq|]. apply K5; [set_solver|done].
    + intros id ev' tp' Hin Ht'. rewrite Hent, decide_False by set_solver. apply (K6 id ev' tp'); [set_solver|done].
    + intros id Hid. rewrite Hent, decide_False by congruence. by apply K7.
  - pose proof (apply_parts_other (ap_taskSettlerFn a) (ap_treasuryID a) sp ev now (ap_parts a) Hg K1 Hev Ht) as [Hf Htr].
    destruct (apply_parts _ _ _ _ _ _) as [p' [err|]]; cbn [fst] in Hf, Htr.
    + unfold count, set_parts. split; ap_cbn; rewrite ?Htr; try done; exact Hf.
    + unfold mark_applied, count, set_parts. split; ap_cbn; rewrite ?Htr; try done.
      * intros id sp' [_ Hd]%lookup_delete_Some. by apply K2.
      * intros id [sp' [Hne Hd]%lookup_delete_Some]. specialize (K3 id (ex_intro _ _ Hd)). set_solver.
      * intros id ev' tp' Hin Ht'. apply K5; [|done]. apply elem_of_union in Hin as [Hin%elem_of_singleton|Hin]; [congruence|done].
      * intros id ev' tp' Hin Ht'. apply (K6 id ev' tp'); [set_solver|done].
Qed.

Lemma Apply_converge l0 lookup sp now a : graph_ok → unsettled l0 → agreed (OpApply lookup sp now) → converge_inv l0 a →
  converge_inv l0 (ap_Apply lookup sp now a).1.
Proof.
  intros Hg Hl0 [Hv Hlk] Hi. unfold ap_Apply, Apply_begin. case_decide as Hin.
  - by apply (converge_inv_same l0 a).
  - unfold Apply_rest. destruct (lookup _) as [ev|] eqn:Hl; [apply applyToTarget_converge; auto|]. unfold defer.
    destruct (ap_deferred a !! sp_TargetEventID sp) eqn:Hd; [done|]. destruct Hi as [K1 K2 K3 K4 K5 K6 K7]. unfold count. split; ap_cbn; try done.
    + intros id sp' [[<- <-]|[_ Hid]]%lookup_insert_Some; [done|by apply K2].
    + intros id Hid. apply lookup_insert_is_Some in Hid as [<-|[_ Hid]]; [done|by apply K3].
Qed.

Lemma reconcile_list_converge l0 lookup now (l : list SettlementPayload) a : graph_ok → unsettled l0 → agreed (OpReconcile lookup now) →
  NoDup (sp_TargetEventID <$> l) →
  (∀ sp, sp ∈ l → sp_TargetEventID sp ∉ ap_applied a ∧ sp_Verdict sp = verdict_of (sp_TargetEventID sp)) → converge_inv l0 a →
  converge_inv l0 (foldl (reconcile_one lookup now) a l).
Proof.
  intros Hg Hl0 Hlk. revert a. induction l as [|sp l IH]; intros a Hnd Hnew Hi; cbn [foldl]; [done|].
  rewrite fmap_cons in Hnd. apply NoDup_cons in Hnd as [Hsp Hnd]. unfold reconcile_one at 2. destruct (lookup (sp_TargetEventID sp)) as [target|] eqn:Hl.
  - destruct (Hnew sp) as [Hns Hvs]; [left|]. apply IH; [done| |by apply applyToTarget_converge; auto]. intros sp' Hsp'.
    rewrite (applyToTarget_others sp target now a (sp_TargetEventID sp')); [apply Hnew; by right|].
    intros Heq. apply Hsp, list_elem_of_fmap. by exists sp'.
  - apply IH; [done| |done]. intros sp' Hsp'. apply Hnew. by right.
Qed.

Lemma exec_converge l0 na op : graph_ok → unsettled l0 → agreed op → converge_inv l0 na.2 → converge_inv l0 (ap_exec na op).2.
Proof.
  intros Hg Hl0 Hop Hi. destruct na as [n a], op as [lookup sp now|lookup now|reload]; cbn [ap_exec fst snd] in *; [|  |done].
  - by apply Apply_converge.
  - unfold reconcile. destruct (deferred_list_spec a) as [Hnd Hin]; [intros id sp Hd; by apply (ci_deferred l0 a Hi)|].
    apply (reconcile_list_converge l0 lookup now (deferred_list a) a Hg Hl0 Hop Hnd); [|done]. intros sp Hsp. specialize (Hin sp Hsp). split.
    + apply (ci_disjoint l0 a Hi). by eexists.
    + by apply (ci_deferred l0 a Hi _ _ Hin).
Qed.

Lemma run_converge l0 ops na : graph_ok → unsettled l0 → Forall agreed ops → converge_inv l0 na.2 → converge_inv l0 (foldl ap_exec na ops).2.
Proof.
  intros Hg Hl0 Hops. revert na. induction Hops as [|op ops Hop _ IH]; intros na Hi; [done|]. cbn [foldl]. by apply IH, exec_converge.
Qed.

Lemma starting_inv a : starting a → converge_inv (pt_transfer (ap_parts a)) a.
Proof.
  intros (E1 & E2 & E3 & _). by split; rewrite ?E1, ?E2.
Qed.

(** The net position only depends on the contents of the entries. *)
Lemma net_content l1 l2 agent : tl_archivedNetSettled l1 = tl_archivedNetSettled l2 → (∀ id, entry_at id l1 = entry_at id l2) →
  tl_net l1 agent = tl_net l2 agent.
Proof.
  intros Ha He. unfold tl_net. rewrite Ha. f_equal.
  assert (∀ m : gmap EventID TransferEntry, map_sum (flow agent) m = map_sum (flow agent) (content <$> m)) as Hm
    by (intros m; rewrite map_sum_fmap; by apply map_sum_ext).
  rewrite (Hm (tl_entries l1)), (Hm (tl_entries l2)). f_equal. apply map_eq. intros id. rewrite !lookup_fmap. apply He.
Qed.
End converge.

(** * The properties *)

(** C9: through every sequence of settlements, reconciliations and restarts, started
    with nothing applied and a store whose writes succeed: the applications that
    the processes counted are exactly the targets applied, one for each; an applied
    target stays applied, and another settlement of it changes no ledger, escrow,
    stake, fee or fingerprint. *)
Theorem settlements_applied_once `{!PayloadCodec, !FingerprintCodec} {SL SG SI SF SS X SA : Type}
    `{!Persistence SL TransferEntry, !MetaPersistence SL, !Persistence SG GenerationEntry, !Persistence SI CapabilityFingerprint,
      !MetaPersistence SF, !Persistence SS StakeMeta, !EscrowHolder X, !MetaPersistence SA, !MetaListing SA, !RangeOrder}
    (reliable : ∀ k b (s : SA), (meta_put k b s).2 = true) (listing : ∀ p (s : SA), is_Some (meta_all p s))
    (a0 : Applicator SL SG SI SF SS X SA) (s : SA) ops1 ops2 n1 a1 n2 a2 :
  ap_store a0 = Some s → (∀ k, k ∈ meta_keys s → String.prefix applied_prefix k = false) →
  ap_applied a0 = ∅ → ap_deferred a0 = ∅ → ap_appliedTotal a0 = 0 →
  foldl ap_exec (0, a0) ops1 = (n1, a1) → foldl ap_exec (n1, a1) ops2 = (n2, a2) →
  n2 + ap_appliedTotal a2 ≡64 AppliedCount a2
  ∧ ap_applied a1 ⊆ ap_applied a2
  ∧ ∀ lookup sp now, IsApplied (sp_TargetEventID sp) a1 = true → ap_parts (ap_Apply lookup sp now a2).1 = ap_parts a2.
Proof.
  intros Hs Hk Ha Hd Ht R1 R2. assert (once_inv 0 a0) as Hi0.
  { split; [by rewrite Ht, Ha, size_empty|rewrite Hd..|].
    - intros id sp Hid. by rewrite lookup_empty in Hid.
    - intros id [sp Hid]. by rewrite lookup_empty in Hid.
    - exists s. split; [done|]. intros k. rewrite Ha. split; [|set_solver]. intros [Hin Hp]. by rewrite Hk in Hp. }
  pose proof (ap_run_inv reliable listing ops1 (0, a0) Hi0) as Hi1. rewrite R1 in Hi1.
  pose proof (ap_run_inv reliable listing ops2 (n1, a1) Hi1) as Hi2. rewrite R2 in Hi2.
  pose proof (applied_run_grows reliable listing ops2 (n1, a1) Hi1) as Hgrow. rewrite R2 in Hgrow. cbn [fst snd] in *.
  split; [exact (oi_count _ _ Hi2)|]. split; [done|]. intros lookup sp now Hin%bool_decide_eq_true. unfold ap_Apply, Apply_begin.
  by rewrite decide_True by set_solver.
Qed.

(** C10: two nodes without a fee collector that settle the same transfers with the
    same verdicts agree on every balance, whatever the order of the
    settlements, their repetition, the clock readings, which events arrived after
    their settlement, and who had recorded which transfer before. *)
Theorem settlements_converge `{!PayloadCodec, !FingerprintCodec} {SL SG SI SF SS X SA : Type}
    `{!Persistence SL TransferEntry, !MetaPersistence SL, !Persistence SG GenerationEntry, !Persistence SI CapabilityFingerprint,
      !MetaPersistence SF, !Persistence SS StakeMeta, !EscrowHolder X, !MetaPersistence SA, !MetaListing SA, !RangeOrder}
    (G : EventID → option Event) (verdict_of : EventID → string) (a1 a2 : Applicator SL SG SI SF SS X SA) ops1 ops2 :
  graph_ok G → starting G a1 → starting G a2 → Forall (agreed G verdict_of) ops1 → Forall (agreed G verdict_of) ops2 →
  let l a := pt_transfer (ap_parts a) in
  let b1 := (foldl ap_exec (0, a1) ops1).2 in
  let b2 := (foldl ap_exec (0, a2) ops2).2 in
  ap_applied b1 = ap_applied b2 →
  tl_archivedNetSettled (l a1) = tl_archivedNetSettled (l a2) →
  (∀ id, ¬ settles G id (ap_applied b1) → entry_at id (l a1) = entry_at id (l a2)) →
  ∀ agent, tl_Balance (l b1) agent = tl_Balance (l b2) agent.
Proof.
  intros Hg S1 S2 R1 R2 l b1 b2 Hsame Har Hent agent. subst l. cbv beta in *.
  pose proof (run_converge G verdict_of (pt_transfer (ap_parts a1)) ops1 (0, a1) Hg (proj2 (proj2 (proj2 S1))) R1 (starting_inv G verdict_of a1 S1)) as I1.
  pose proof (run_converge G verdict_of (pt_transfer (ap_parts a2)) ops2 (0, a2) Hg (proj2 (proj2 (proj2 S2))) R2 (starting_inv G verdict_of a2 S2)) as I2.
  fold b1 in I1. fold b2 in I2. unfold tl_Balance. rewrite !balance_net. do 2 f_equal. apply net_content.
  - etrans; [exact (ci_archived _ _ _ _ I1)|]. rewrite Har. symmetry. exact (ci_archived _ _ _ _ I2).
  - intros id. destruct (transfer_of G id) as [[ev tp]|] eqn:Ht.
    + destruct (decide (id ∈ ap_applied b1)) as [Hin|Hout].
      * rewrite (ci_settled _ _ _ _ I1 id ev tp Hin Ht). symmetry. apply (ci_settled _ _ _ _ I2 id ev tp); [by rewrite <- Hsame|done].
      * rewrite (ci_open _ _ _ _ I1 id ev tp Hout Ht), Hent by (intros [? _]; done). symmetry. apply (ci_open _ _ _ _ I2 id ev tp); [by rewrite <- Hsame|done].
    + rewrite (ci_other _ _ _ _ I1 id Ht), Hent by (intros [_ [? ?]]; congruence). symmetry. exact (ci_other _ _ _ _ I2 id Ht).
Qed.

(** * A node with one account *)

Section listing.
Context {V : Type} (key : V → string).

(** The keys of a keyed store with a prefix. *)
#[global] Program Instance ks_listing : MetaListing (KeyedStore key) := {|
  meta_all p s := Some (List.filter (String.prefix p) (elements (dom (ks_meta key s))));
  meta_keys s := dom (ks_meta key s);
|}.
Next Obligation. intros k b s. cbn. apply dom_insert_L. Qed.
Next Obligation.
  intros p s l [= <-] k. rewrite list_elem_of_In, filter_In, <- list_elem_of_In, elem_of_elements. done.
Qed.
End listing.

Module DemoApplicator.
Notation DemoParts := (Parts (KeyedStore te_EventID) (KeyedStore ge_EventID) (KeyedStore fp_AgentID) (KeyedStore te_EventID) (KeyedStore sk_agent)
  (Escrow (TransferLedger (KeyedStore te_EventID)) (KeyedStore ee_TaskID))).
Notation DemoAp := (Applicator (KeyedStore te_EventID) (KeyedStore ge_EventID) (KeyedStore fp_AgentID) (KeyedStore te_EventID) (KeyedStore sk_agent)
  (Escrow (TransferLedger (KeyedStore te_EventID)) (KeyedStore ee_TaskID)) (KeyedStore te_EventID)).

(** A payload names the parties of a transfer of 10000. *)
#[global] Instance transfers : PayloadCodec := {|
  unmarshal_transfer s :=
    if decide (s = "ab") then Some (mkTransferPayload "a" "b" 10000 "AET" "" "" "")
    else if decide (s = "ac") then Some (mkTransferPayload "a" "c" 10000 "AET" "" "" "")
    else if decide (s = "bc") then Some (mkTransferPayload "b" "c" 10000 "AET" "" "" "") else None;
  unmarshal_generation _ := None;
  unmarshal_task_settlement _ := None;
|}.

(** The events of the network, which have the names of their payloads. *)
Definition graph (id : EventID) : option Event :=
  if decide (id ∈ ["ab"; "ac"; "bc"]) then Some (mkEvent id EventTypeTransfer None (Some id) "a" [] 0 1000 SettlementOptimistic) else None.

Definition start : DemoAp :=
  ap_SetStore (ks_empty te_EventID) (NewApplicator (tl_FundAgent "a" 10000 5 (tl_NewTransferLedger 0)).1 gl_NewGenerationLedger reg_NewRegistry).

(** The same node with a fee collector. *)
Definition with_fees : DemoAp := SetFeeCollector (fc_NewCollector (tl_NewTransferLedger 0)) "treasury" start.

Definition accept (id : EventID) : SettlementPayload := mkSettlement 1 id VerdictAccepted 10000 1 [].

Definition settle (lookup : EventID → option Event) (id : EventID) (now : Z) :
  ap_op (SL := KeyedStore te_EventID) (SG := KeyedStore ge_EventID) (SI := KeyedStore fp_AgentID) (SF := KeyedStore te_EventID)
    (SS := KeyedStore sk_agent) (X := Escrow (TransferLedger (KeyedStore te_EventID)) (KeyedStore ee_TaskID)) := OpApply lookup (accept id) now.

Definition balances (a : DemoAp) : list Z := tl_Balance (pt_transfer (ap_parts a)) <$> ["a"; "b"; "c"; "treasury"].

(** Both nodes settle two transfers; the second gets the settlement of the first
    before the event. *)
Definition ops1 : list (ap_op (SL := KeyedStore te_EventID) (SG := KeyedStore ge_EventID) (SI := KeyedStore fp_AgentID) (SF := KeyedStore te_EventID)
    (SS := KeyedStore sk_agent) (X := Escrow (TransferLedger (KeyedStore te_EventID)) (KeyedStore ee_TaskID))) :=
  [settle graph "ab" 10; settle graph "ab" 11; settle graph "bc" 12].
Definition ops2 : list (ap_op (SL := KeyedStore te_EventID) (SG := KeyedStore ge_EventID) (SI := KeyedStore fp_AgentID) (SF := KeyedStore te_EventID)
    (SS := KeyedStore sk_agent) (X := Escrow (TransferLedger (KeyedStore te_EventID)) (KeyedStore ee_TaskID))) :=
  [settle (λ _, None) "ab" 20; settle graph "bc" 21; OpReconcile graph 22].

Definition run ops (a : DemoAp) : DemoAp := (foldl ap_exec (0, a) ops).2.

Lemma graph_fine : graph_ok graph.
Proof. intros id ev. unfold graph. case_decide; [|done]. by intros [= <-]. Qed.

Lemma start_fine : starting graph start.
Proof.
  split_and!; [reflexivity..|]. intros id ev tp Ht. left. apply transfer_of_G in Ht. unfold graph in Ht. case_decide as Hid; [|done].
  set_unfold in Hid. destruct Hid as [->|[->|[->|[]]]]; vm_compute; reflexivity.
Qed.

Lemma agreed1 : Forall (agreed graph (λ _, VerdictAccepted)) ops1.
Proof. apply Forall_cons; split; [done|]. apply Forall_cons; split; [done|]. by apply Forall_singleton. Qed.

Lemma agreed2 : Forall (agreed graph (λ _, VerdictAccepted)) ops2.
Proof. apply Forall_cons; split; [by split|]. apply Forall_cons; split; [done|]. apply Forall_singleton. by intros id ev Hid. Qed.
End DemoApplicator.

Example demo_settled :
  DemoApplicator.balances (DemoApplicator.run DemoApplicator.ops1 DemoApplicator.start) = [0; 0; 10000; 0]
  ∧ DemoApplicator.balances (DemoApplicator.run DemoApplicator.ops2 DemoApplicator.start) = [0; 0; 10000; 0].
Proof. split; vm_compute; reflexivity. Qed.

Lemma settlements_applied_once_witness :
  let na := foldl ap_exec (0, DemoApplicator.start) (DemoApplicator.ops1 ++ [OpRestart (λ p, p)]) in
  let na' := foldl ap_exec na DemoApplicator.ops2 in
  na'.1 + ap_appliedTotal na'.2 ≡64 AppliedCount na'.2 ∧ AppliedCount na'.2 = 2.
Proof.
  split; [|vm_compute; reflexivity].
  exact (proj1 (settlements_applied_once (λ _ _ _, eq_refl) (λ _ _, mk_is_Some _ _ eq_refl) DemoApplicator.start (ks_empty te_EventID)
    (DemoApplicator.ops1 ++ [OpRestart (λ p, p)]) DemoApplicator.ops2 _ _ _ _ eq_refl (λ k Hk, match not_elem_of_empty k Hk with end)
    eq_refl eq_refl eq_refl (surjective_pairing _) (surjective_pairing _))).
Defined.

Lemma settlements_converge_witness :
  tl_Balance (pt_transfer (ap_parts (DemoApplicator.run DemoApplicator.ops1 DemoApplicator.start))) "c"
  = tl_Balance (pt_transfer (ap_parts (DemoApplicator.run DemoApplicator.ops2 DemoApplicator.start))) "c".
Proof.
  apply (settlements_converge DemoApplicator.graph (λ _, VerdictAccepted) DemoApplicator.start DemoApplicator.start DemoApplicator.ops1 DemoApplicator.ops2
    DemoApplicator.graph_fine DemoApplicator.start_fine DemoApplicator.start_fine DemoApplicator.agreed1 DemoApplicator.agreed2).
  - vm_compute. reflexivity.
  - reflexivity.
  - reflexivity.
Defined.

(** ** Findings *)

(** Two accepted transfers of the whole balance are both paid: nothing between the
    submission and the settlement tests the balance again. *)
Lemma settlement_overdraws :
  DemoApplicator.balances DemoApplicator.start = [10000; 0; 0; 0]
  ∧ DemoApplicator.balances (DemoApplicator.run [DemoApplicator.settle DemoApplicator.graph "ab" 10; DemoApplicator.settle DemoApplicator.graph "ac" 11]
      DemoApplicator.start) = [0; 10000; 10000; 0].
Proof. split; vm_compute; reflexivity. Qed.

(** With fees, the order of two settlements decides what the treasury gets: the fee is
    not taken from a recipient whose balance is too low at that moment. *)
Lemma fee_order_matters :
  DemoApplicator.balances (DemoApplicator.run [DemoApplicator.settle DemoApplicator.graph "ab" 10; DemoApplicator.settle DemoApplicator.graph "bc" 11]
      DemoApplicator.with_fees)
  ≠ DemoApplicator.balances (DemoApplicator.run [DemoApplicator.settle DemoApplicator.graph "bc" 10; DemoApplicator.settle DemoApplicator.graph "ab" 11]
      DemoApplicator.with_fees).
Proof. vm_compute. discriminate. Qed.

(** A settlement event is believed whoever signed it: only its payload is read. *)
Lemma settlement_author_ignored `{!PayloadCodec, !FingerprintCodec} {SL SG SI SF SS X SA : Type}
    `{!Persistence SL TransferEntry, !MetaPersistence SL, !Persistence SG GenerationEntry, !Persistence SI CapabilityFingerprint,
      !MetaPersistence SF, !Persistence SS StakeMeta, !EscrowHolder X, !MetaPersistence SA} lookup (unmarshal : string → option SettlementPayload)
    (ev1 ev2 : Event) now (a : Applicator SL SG SI SF SS X SA) :
  Payload ev1 = Payload ev2 → settlement_Consume lookup unmarshal ev1 now a = settlement_Consume lookup unmarshal ev2 now a.
Proof. intros Hp. unfold settlement_Consume, GetPayload. by rewrite Hp. Qed.

(** After a crash between the settlement of the ledger and the mark of the
    applicator, the settlement fails for ever: the bookkeeping after it is lost. *)
Lemma settled_never_marked :
  let p := (applyTransfer "ab" VerdictAccepted (default (mkEvent "" "" None None "" [] 0 0 SettlementOptimistic) (DemoApplicator.graph "ab")) 9
              (ap_parts DemoApplicator.start)).1 in
  let a := DemoApplicator.run [DemoApplicator.settle DemoApplicator.graph "ab" 10; DemoApplicator.settle DemoApplicator.graph "ab" 11]
             (set_parts p DemoApplicator.start) in
  IsApplied "ab" a = false ∧ Metrics a = (0, 0, 0, 2).
Proof. split; vm_compute; reflexivity. Qed.
