(* ===== verification/Recognition.v ===== *)
(** internal/recognition: the recognition index, the commit bus and the activator.

    The index (index.go, badger_index.go) records for every consumer and event whether
    it was recognised, deferred or done, with a secondary map from prerequisites to the
    deferred pairs.  The bus (bus.go) has a bounded queue and several workers; a worker is the
    list of the steps it has still to make, each of which holds a lock at most
    once, so the interleavings of the workers are the schedules of [bus_exec].  A
    consumer calls [Signal] of activation.go as the last thing it does: the
    prerequisites it signals are part of the result of [c_Consume]. *)

From stdpp Require Import sets fin_sets fin_map_dom.
From S2P Require Import Prelude GoStd Store Event Jcs Tasks Identity Voting RoundStore Ocs.
#[local] Open Scope Z_scope.

(** * Records *)

Definition SourceLocal : string := "local".
Definition SourceRemoteFastPath : string := "remote_fastpath".
Definition SourceRemoteLegacy : string := "remote_legacy".
Definition SourceRepair : string := "repair".
Definition SourceReplay : string := "replay".

Record CommitRecord := mkCommit {
  cr_EventID : EventID;
  cr_EventType : EventType;
  cr_Source : string;
  cr_Replay : bool;
  cr_CommittedAt : Z;
}.

(** [Attempts] counts retries, which never come near the end of its range. *)
Record RecognitionState := mkRecognition {
  rs_ConsumerName : string;
  rs_EventID : EventID;
  rs_Recognized : bool;
  rs_Ready : bool;
  rs_DeferredReason : string;
  rs_PrerequisiteKey : string;
  rs_LastAttemptUnix : Z;
  rs_Attempts : Z;
}.

Inductive RecognitionError := ErrNotFound | ErrIndexStore | ErrMarshalState | ErrUnmarshalState.

#[global] Instance RecognitionError_eq_dec : EqDecision RecognitionError.
Proof. solve_decision. Defined.

Class StateCodec : Type := {
  marshal_state : RecognitionState → option string;
  unmarshal_state : string → option RecognitionState;
}.

(** [IndexStore]; a get finds the data, nothing, or fails. *)
Class IndexStore (S : Type) : Type := {
  ix_put : string → string → S → S * bool;
  ix_get : string → S → option (option string);
  ix_delete : string → S → S * bool;
  ix_scan : string → S → option (list (string * string));
}.

Record Index (S : Type) := mkIndex {
  ix_items : gmap string RecognitionState;
  ix_prereq : gmap string (gset string);
  ix_store : option S;
}.
#[global] Arguments mkIndex {S} _ _ _.
#[global] Arguments ix_items {S} _.
#[global] Arguments ix_prereq {S} _.
#[global] Arguments ix_store {S} _.

Definition stateKey (consumer : string) (eventID : EventID) : string := consumer +:+ ":" +:+ eventID.

Definition rs_stateKey (s : RecognitionState) : string := stateKey (rs_ConsumerName s) (rs_EventID s).

(** * The secondary index *)

(** [delete(set, key)], and the set itself when it became empty. *)
Definition without (key : string) (set : gset string) : option (gset string) :=
  let set := set ∖ {[key]} in if decide (set = ∅) then None else Some set.

Definition leave (pk key : string) (m : gmap string (gset string)) : gmap string (gset string) :=
  match m !! pk with Some set => partial_alter (λ _, without key set) pk m | None => m end.

Definition enter (pk key : string) (m : gmap string (gset string)) : gmap string (gset string) :=
  <[pk := {[key]} ∪ default ∅ (m !! pk)]> m.

(** The clean-up over all prerequisites. *)
Definition leave_all (key : string) (m : gmap string (gset string)) : gmap string (gset string) :=
  omap (λ set, if decide (key ∈ set) then without key set else Some set) m.

(** An item that is deferred for [pk]. *)
Definition waits_for (pk : string) (s : RecognitionState) : Prop := pk ≠ "" ∧ rs_PrerequisiteKey s = pk ∧ rs_Ready s = false.

#[global] Instance waiting_dec pk s : Decision (waits_for pk s).
Proof. unfold waits_for. apply _. Defined.

(** * Operations of the index *)

Section index.
Context `{!StateCodec} {S : Type} `{!IndexStore S}.
Notation Index := (Index S).
Implicit Types (idx : Index) (s : RecognitionState).

Definition NewIndex (store : option S) : Index := mkIndex ∅ ∅ store.

Definition set_items (items : gmap string RecognitionState) (prereq : gmap string (gset string)) idx : Index := mkIndex items prereq (ix_store idx).

(** The write of a state to the store. *)
Definition idx_write (key : string) s idx : Index * option RecognitionError :=
  match ix_store idx with
  | None => (idx, None)
  | Some st =>
      match marshal_state s with
      | None => (idx, Some ErrMarshalState)
      | Some data => let '(st, ok) := ix_put key data st in
                     (mkIndex (ix_items idx) (ix_prereq idx) (Some st), if ok : bool then None else Some ErrIndexStore)
      end
  end.

Definition idx_Get (consumer : string) (eventID : EventID) idx : Index * (RecognitionState + RecognitionError) :=
  let key := stateKey consumer eventID in
  match ix_items idx !! key with
  | Some s => (idx, inl s)
  | None =>
      match ix_store idx with
      | None => (idx, inr ErrNotFound)
      | Some st =>
          match ix_get key st with
          | None => (idx, inr ErrIndexStore)
          | Some None => (idx, inr ErrNotFound)
          | Some (Some data) =>
              match unmarshal_state data with
              | None => (idx, inr ErrUnmarshalState)
              | Some s => (set_items (<[key := s]> (ix_items idx)) (ix_prereq idx) idx, inl s)
              end
          end
      end
  end.

(** The part of [Put] under the lock. *)
Definition put_locked s idx : Index :=
  let key := rs_stateKey s in
  let prereq :=
    match ix_items idx !! key with
    | Some old => if decide (rs_PrerequisiteKey old ≠ "" ∧ rs_PrerequisiteKey old ≠ rs_PrerequisiteKey s)
                  then leave (rs_PrerequisiteKey old) key (ix_prereq idx) else ix_prereq idx
    | None => ix_prereq idx
    end in
  let prereq :=
    if decide (rs_PrerequisiteKey s ≠ "" ∧ rs_Ready s = false) then enter (rs_PrerequisiteKey s) key prereq else leave_all key prereq in
  set_items (<[key := s]> (ix_items idx)) prereq idx.

Definition idx_Put s idx : Index * option RecognitionError := idx_write (rs_stateKey s) s (put_locked s idx).

Definition new_state (consumer : string) (eventID : EventID) : RecognitionState := mkRecognition consumer eventID false false "" "" 0 0.

Definition recognized s : RecognitionState :=
  mkRecognition (rs_ConsumerName s) (rs_EventID s) true (rs_Ready s) (rs_DeferredReason s) (rs_PrerequisiteKey s) (rs_LastAttemptUnix s) (rs_Attempts s).

(** The gate of the workers: whether this call was the first, and the error of the write. *)
Definition idx_MarkRecognizedOnce (consumer : string) (eventID : EventID) idx : Index * bool * option RecognitionError :=
  let key := stateKey consumer eventID in
  if match ix_items idx !! key with Some s => rs_Recognized s | None => false end then (idx, false, None)
  else
    let s := recognized (new_state consumer eventID) in
    let '(idx, err) := idx_write key s (set_items (<[key := s]> (ix_items idx)) (ix_prereq idx) idx) in (idx, true, err).

Definition idx_MarkRecognized (consumer : string) (eventID : EventID) idx : Index * (RecognitionState + RecognitionError) :=
  let '(idx, found) := idx_Get consumer eventID idx in
  match found with
  | inr err => if decide (err = ErrNotFound) then
                 let s := recognized (new_state consumer eventID) in
                 match idx_Put s idx with (idx, Some err) => (idx, inr err) | (idx, None) => (idx, inl s) end
               else (idx, inr err)
  | inl s => if rs_Recognized s then (idx, inl s)
             else match idx_Put (recognized s) idx with (idx, Some err) => (idx, inr err) | (idx, None) => (idx, inl (recognized s)) end
  end.

(** What [MarkReady] puts. *)
Definition made_ready s : RecognitionState :=
  mkRecognition (rs_ConsumerName s) (rs_EventID s) (rs_Recognized s) true "" "" (rs_LastAttemptUnix s) (rs_Attempts s).

Definition idx_MarkReady (consumer : string) (eventID : EventID) idx : Index * option RecognitionError :=
  match idx_Get consumer eventID idx with
  | (idx, inr err) => (idx, Some err)
  | (idx, inl s) => if rs_Ready s then (idx, None) else idx_Put (made_ready s) idx
  end.

(** What [SetDeferred] puts. *)
Definition made_deferred (reason prereqKey : string) s : RecognitionState :=
  mkRecognition (rs_ConsumerName s) (rs_EventID s) true false reason prereqKey (rs_LastAttemptUnix s) (rs_Attempts s).

Definition idx_SetDeferred (consumer : string) (eventID : EventID) (reason prereqKey : string) idx : Index * option RecognitionError :=
  match idx_Get consumer eventID idx with
  | (idx, inr err) => if decide (err = ErrNotFound) then idx_Put (made_deferred reason prereqKey (new_state consumer eventID)) idx
                      else (idx, Some err)
  | (idx, inl s) => idx_Put (made_deferred reason prereqKey s) idx
  end.

Definition attempted (now : Z) s : RecognitionState :=
  mkRecognition (rs_ConsumerName s) (rs_EventID s) (rs_Recognized s) (rs_Ready s) (rs_DeferredReason s) (rs_PrerequisiteKey s) now (rs_Attempts s + 1).

(** Best effort: an error of the write is dropped. *)
Definition idx_IncrementAttempt (consumer : string) (eventID : EventID) (now : Z) idx : Index :=
  let key := stateKey consumer eventID in
  match ix_items idx !! key with
  | None => idx
  | Some s => (idx_write key (attempted now s) (set_items (<[key := attempted now s]> (ix_items idx)) (ix_prereq idx) idx)).1
  end.

Definition idx_DeferredByPrerequisite `{!RangeOrder} (prereqKey : string) idx : list RecognitionState :=
  match ix_prereq idx !! prereqKey with
  | None => []
  | Some keys => omap (λ key, s ← ix_items idx !! key; if rs_Ready s then None else Some s) (range_set keys)
  end.

Record IndexStats := mkStats { is_Total : Z; is_Recognized : Z; is_Ready : Z; is_Deferred : Z }.

Definition idx_Stats idx : IndexStats :=
  let count (p : RecognitionState → bool) := map_sum (λ s, if p s then 1 else 0) (ix_items idx) in
  mkStats (Z.of_nat (size (ix_items idx))) (count rs_Recognized) (count rs_Ready) (count (λ s, rs_Recognized s && negb (rs_Ready s))).

Definition load_entry idx (entry : string * string) : Index :=
  match unmarshal_state entry.2 with
  | None => idx
  | Some s =>
      set_items (<[entry.1 := s]> (ix_items idx))
        (if decide (rs_PrerequisiteKey s ≠ "" ∧ rs_Ready s = false) then enter (rs_PrerequisiteKey s) entry.1 (ix_prereq idx) else ix_prereq idx) idx
  end.

Definition idx_LoadFromStore idx : Index * option RecognitionError :=
  match ix_store idx with
  | None => (idx, None)
  | Some st => match ix_scan "" st with None => (idx, Some ErrIndexStore) | Some entries => (foldl load_entry idx entries, None) end
  end.
End index.

(** ** Stores *)

(** [MemoryIndexStore]. *)
#[global] Instance memory_index : IndexStore (gmap string string) := {|
  ix_put key data m := (<[key := data]> m, true);
  ix_get key m := Some (m !! key);
  ix_delete key m := (delete key m, true);
  ix_scan prefix m := Some (List.filter (λ kd, String.prefix prefix kd.1) (map_to_list m));
|}.

Definition recognitionPrefix : string := "rcg:".

(** [StoreAdapter]: the keys of an index inside a larger store. *)
Definition StoreAdapter {S : Type} (inner : IndexStore S) : IndexStore S := {|
  ix_put key data s := ix_put (recognitionPrefix +:+ key) data s;
  ix_get key s := ix_get (recognitionPrefix +:+ key) s;
  ix_delete key s := ix_delete (recognitionPrefix +:+ key) s;
  ix_scan prefix s :=
    match ix_scan (recognitionPrefix +:+ prefix) s with
    | None => None
    | Some raw =>
        Some (omap (λ kd : string * string,
                if (String.length recognitionPrefix <? String.length kd.1)%nat
                then Some (String.substring (String.length recognitionPrefix) (String.length kd.1 - String.length recognitionPrefix) kd.1, kd.2)
                else None) raw)
    end;
|}.

(** * The secondary index is exact *)

Section exact.
Implicit Types (items : gmap string RecognitionState) (m : gmap string (gset string)) (s : RecognitionState).

(** [m] gives for each prerequisite the items that wait for it, and nothing else. *)
Definition prereq_exact items m : Prop :=
  (∀ pk key, key ∈ default ∅ (m !! pk) ↔ ∃ s, items !! key = Some s ∧ waits_for pk s) ∧ ∀ pk, m !! pk ≠ Some ∅.

Lemma without_spec key set : default ∅ (without key set) = set ∖ {[key]} ∧ without key set ≠ Some ∅.
Proof. unfold without. case_decide as Hs; [by rewrite Hs|]. split; [done|]. congruence. Qed.

Lemma leave_spec pk key m : (∀ p, m !! p ≠ Some ∅) →
  (∀ p k, k ∈ default ∅ (leave pk key m !! p) ↔ k ∈ default ∅ (m !! p) ∧ ¬ (p = pk ∧ k = key)) ∧ ∀ p, leave pk key m !! p ≠ Some ∅.
Proof.
  intros Hne. unfold leave. destruct (m !! pk) as [set|] eqn:Hm.
  - destruct (without_spec key set) as [Hw Hw']. split; intros p.
    + intros k. destruct (decide (p = pk)) as [->|Hp].
      * rewrite lookup_partial_alter_eq, Hw, Hm. cbn. set_solver.
      * rewrite lookup_partial_alter_ne by done. naive_solver.
    + destruct (decide (p = pk)) as [->|Hp]; [by rewrite lookup_partial_alter_eq|by rewrite lookup_partial_alter_ne].
  - split; [|done]. intros p k. split; [|by intros [? _]]. intros Hk. split; [done|]. intros [-> ->]. by rewrite Hm in Hk.
Qed.

Lemma enter_spec pk key m : (∀ p, m !! p ≠ Some ∅) →
  (∀ p k, k ∈ default ∅ (enter pk key m !! p) ↔ k ∈ default ∅ (m !! p) ∨ (p = pk ∧ k = key)) ∧ ∀ p, enter pk key m !! p ≠ Some ∅.
Proof.
  intros Hne. unfold enter. split; intros p.
  - intros k. destruct (decide (p = pk)) as [->|Hp].
    + rewrite lookup_insert_eq. cbn. set_solver.
    + rewrite lookup_insert_ne by done. naive_solver.
  - destruct (decide (p = pk)) as [->|Hp]; [|by rewrite lookup_insert_ne]. rewrite lookup_insert_eq. intros [= Heq]. set_solver.
Qed.

Lemma leave_all_spec key m : (∀ p, m !! p ≠ Some ∅) →
  (∀ p k, k ∈ default ∅ (leave_all key m !! p) ↔ k ∈ default ∅ (m !! p) ∧ k ≠ key) ∧ ∀ p, leave_all key m !! p ≠ Some ∅.
Proof.
  intros Hne. assert (∀ p, default ∅ (leave_all key m !! p) = default ∅ (m !! p) ∖ {[key]} ∧ leave_all key m !! p ≠ Some ∅) as Hall.
  { intros p. unfold leave_all. rewrite lookup_omap. specialize (Hne p). destruct (m !! p) as [set|]; cbn; [|split; [set_solver|done]].
    destruct (decide (key ∈ set)); [apply without_spec|]. split; [set_solver|done]. }
  split; intros p; [|apply Hall]. intros k. destruct (Hall p) as [-> _]. set_solver.
Qed.

(** Replacing one item. *)
Lemma exact_insert items m m' key s : prereq_exact items m →
  (∀ p k, k ∈ default ∅ (m' !! p) ↔ (k ≠ key ∧ k ∈ default ∅ (m !! p)) ∨ (k = key ∧ waits_for p s)) → (∀ p, m' !! p ≠ Some ∅) →
  prereq_exact (<[key := s]> items) m'.
Proof.
  intros [He Hne] Hm' Hne'. split; [|done]. intros p k. rewrite Hm', He. destruct (decide (k = key)) as [->|Hk].
  - rewrite lookup_insert_eq. naive_solver.
  - rewrite lookup_insert_ne by done. naive_solver.
Qed.

(** Two maps exact for the same items are the same. *)
Lemma exact_unique items m1 m2 : prereq_exact items m1 → prereq_exact items m2 → m1 = m2.
Proof.
  intros [E1 N1] [E2 N2]. apply map_eq. intros p. assert (default ∅ (m1 !! p) = default ∅ (m2 !! p)) as Hd.
  { apply set_eq. intros k. by rewrite E1, E2. }
  specialize (N1 p). specialize (N2 p). destruct (m1 !! p), (m2 !! p); cbn in Hd; congruence.
Qed.

Lemma waiting_iff p s : waits_for p s ↔ (rs_PrerequisiteKey s ≠ "" ∧ rs_Ready s = false) ∧ p = rs_PrerequisiteKey s.
Proof. unfold waits_for. naive_solver. Qed.

(** What [Put] does to the map. *)
Lemma exact_put items m key s : prereq_exact items m →
  prereq_exact (<[key := s]> items)
    (let m1 := match items !! key with
               | Some old => if decide (rs_PrerequisiteKey old ≠ "" ∧ rs_PrerequisiteKey old ≠ rs_PrerequisiteKey s)
                             then leave (rs_PrerequisiteKey old) key m else m
               | None => m
               end in
     if decide (rs_PrerequisiteKey s ≠ "" ∧ rs_Ready s = false) then enter (rs_PrerequisiteKey s) key m1 else leave_all key m1).
Proof.
  intros He. pose proof He as [Hm Hne]. set (m1 := match _ with Some _ => _ | None => _ end).
  assert ((∀ p k, k ∈ default ∅ (m1 !! p) ↔ k ∈ default ∅ (m !! p) ∧ ¬ (k = key ∧ p ≠ rs_PrerequisiteKey s)) ∧ ∀ p, m1 !! p ≠ Some ∅) as [Hm1 Hne1].
  { assert (∀ p, key ∈ default ∅ (m !! p) → ∃ old, items !! key = Some old ∧ waits_for p old) as Hold by (intros p; apply Hm).
    subst m1. destruct (items !! key) as [old|] eqn:Hk.
    - destruct (decide _) as [Hd|Hd].
      + destruct (leave_spec (rs_PrerequisiteKey old) key m Hne) as [Hl Hl']. split; [|done]. intros p k. rewrite Hl.
        destruct (decide (k = key)) as [->|]; [|naive_solver]. split; intros [Hin Hno]; (split; [done|]);
          destruct (Hold p Hin) as (old' & [= <-] & _ & Hpk & _); naive_solver.
      + split; [|done]. intros p k. split; [|naive_solver]. intros Hin. split; [done|]. intros [-> Hp].
        destruct (Hold p Hin) as (old' & [= <-] & Hpne & Hpk & _). apply Hd. by rewrite Hpk.
    - split; [|done]. intros p k. split; [|naive_solver]. intros Hin. split; [done|]. intros [-> _]. by destruct (Hold p Hin) as (? & ? & _). }
  cbv zeta. destruct (decide _) as [Hd|Hd].
  - destruct (enter_spec (rs_PrerequisiteKey s) key m1 Hne1) as [Hn Hn']. apply (exact_insert items m); [done| |done]. intros p k.
    rewrite Hn, Hm1, waiting_iff. destruct (decide (k = key)) as [->|], (decide (p = rs_PrerequisiteKey s)); intuition congruence.
  - destruct (leave_all_spec key m1 Hne1) as [Hn Hn']. apply (exact_insert items m); [done| |done]. intros p k.
    rewrite Hn, Hm1, waiting_iff. destruct (decide (k = key)) as [->|], (decide (p = rs_PrerequisiteKey s)); intuition congruence.
Qed.

(** A change that leaves the prerequisite alone. *)
Lemma exact_update items m key s s' : prereq_exact items m → items !! key = Some s → (∀ p, waits_for p s' ↔ waits_for p s) →
  prereq_exact (<[key := s']> items) m.
Proof.
  intros He Hk Hw. pose proof He as [Hm Hne]. apply (exact_insert items m); [done| |done]. intros p k. rewrite Hw.
  destruct (decide (k = key)) as [->|]; [|naive_solver]. rewrite Hm, Hk. naive_solver.
Qed.

Lemma exact_fresh items m key s : prereq_exact items m → items !! key = None →
  prereq_exact (<[key := s]> items) (if decide (rs_PrerequisiteKey s ≠ "" ∧ rs_Ready s = false) then enter (rs_PrerequisiteKey s) key m else m).
Proof.
  intros He Hk. pose proof He as [Hm Hne].
  assert (∀ p, key ∉ default ∅ (m !! p)) as Hno by (intros p (s' & Hs' & _)%Hm; congruence).
  destruct (decide _) as [Hd|Hd]; apply (exact_insert items m); try done.
  - intros p k. destruct (enter_spec (rs_PrerequisiteKey s) key m Hne) as [-> _]. rewrite waiting_iff. specialize (Hno p).
    destruct (decide (k = key)); [subst k|]; intuition congruence.
  - by apply enter_spec.
  - intros p k. rewrite waiting_iff. specialize (Hno p). destruct (decide (k = key)); [subst k|]; intuition congruence.
Qed.
End exact.

(** * Runs of the index *)

(** What the index relies on of a store: a view that its operations read and write. *)
Class IndexLaws (S : Type) `{!IndexStore S} : Type := {
  ix_view : S → gmap string string;
  ix_put_ok key data s : (ix_put key data s).2 = true → ix_view (ix_put key data s).1 = <[key := data]> (ix_view s);
  ix_put_fail key data s : (ix_put key data s).2 = false → ix_view (ix_put key data s).1 = ix_view s;
  ix_get_view key s r : ix_get key s = Some r → r = ix_view s !! key;
  ix_scan_view s l : ix_scan "" s = Some l → l ≡ₚ map_to_list (ix_view s);
}.

Class StateCodecOk `{!StateCodec} : Prop := unmarshal_marshal s data : marshal_state s = Some data → unmarshal_state data = Some s.

Inductive idx_op :=
  | OpGet (consumer : string) (eventID : EventID)
  | OpMarkRecognizedOnce (consumer : string) (eventID : EventID)
  | OpMarkRecognized (consumer : string) (eventID : EventID)
  | OpMarkReady (consumer : string) (eventID : EventID)
  | OpSetDeferred (consumer : string) (eventID : EventID) (reason prereqKey : string)
  | OpIncrementAttempt (consumer : string) (eventID : EventID) (now : Z).

Section runs.
Context `{!StateCodec} {S : Type} `{!IndexStore S, !IndexLaws S}.
Notation Index := (Index S).
Implicit Types (idx : Index) (s : RecognitionState).

Definition idx_exec idx (op : idx_op) : Index :=
  match op with
  | OpGet c id => (idx_Get c id idx).1
  | OpMarkRecognizedOnce c id => (idx_MarkRecognizedOnce c id idx).1.1
  | OpMarkRecognized c id => (idx_MarkRecognized c id idx).1
  | OpMarkReady c id => (idx_MarkReady c id idx).1
  | OpSetDeferred c id reason pk => (idx_SetDeferred c id reason pk idx).1
  | OpIncrementAttempt c id now => idx_IncrementAttempt c id now idx
  end.

Definition stored (key : string) idx : option RecognitionState := st ← ix_store idx; data ← ix_view st !! key; unmarshal_state data.

Definition keyed_state (key : string) s : Prop := key = rs_stateKey s.

Record idx_ok idx : Prop := {
  io_exact : prereq_exact (ix_items idx) (ix_prereq idx);
  io_recognized key s : ix_items idx !! key = Some s → rs_Recognized s = true;
  io_keyed key s : ix_items idx !! key = Some s → keyed_state key s;
  io_loaded key : is_Some (stored key idx) → is_Some (ix_items idx !! key);
}.

Lemma write_items key s idx : ix_items (idx_write key s idx).1 = ix_items idx ∧ ix_prereq (idx_write key s idx).1 = ix_prereq idx.
Proof. unfold idx_write. destruct (ix_store idx); [|done]. destruct (marshal_state s); [|done]. by destruct (ix_put _ _ _). Qed.

(** A write reaches the store at its key, or nothing changes. *)
Lemma write_stored key s idx j : j ≠ key → stored j (idx_write key s idx).1 = stored j idx.
Proof.
  intros Hj. unfold idx_write, stored. destruct (ix_store idx) as [st|] eqn:Hst; cbn; [|by rewrite Hst]. destruct (marshal_state s) as [data|]; cbn; [|by rewrite Hst].
  destruct (ix_put key data st) as [st' [|]] eqn:Hp; cbn.
  - pose proof (ix_put_ok key data st) as Hv. rewrite Hp in Hv. cbn in Hv. rewrite Hv by done. by rewrite lookup_insert_ne by congruence.
  - pose proof (ix_put_fail key data st) as Hv. rewrite Hp in Hv. cbn in Hv. by rewrite Hv by done.
Qed.

(** Replacing one item in memory. *)
Lemma ok_set key s idx m : idx_ok idx → prereq_exact (<[key := s]> (ix_items idx)) m → rs_Recognized s = true → key = rs_stateKey s →
  idx_ok (set_items (<[key := s]> (ix_items idx)) m idx).
Proof.
  intros [K1 K2 K3 K4] Hm Hr Hk. split; cbn [ix_items ix_prereq set_items].
  - done.
  - intros j s' [[<- <-]|[_ Hj]]%lookup_insert_Some; [done|]. by apply (K2 j).
  - intros j s' [[<- <-]|[_ Hj]]%lookup_insert_Some; [done|]. by apply K3.
  - intros j Hj. destruct (decide (j = key)) as [->|Hne]; [rewrite lookup_insert_eq; by eexists|]. rewrite lookup_insert_ne by done. by apply K4.
Qed.

(** Writing an item to the store. *)
Lemma write_ok key s idx : idx_ok idx → is_Some (ix_items idx !! key) → idx_ok (idx_write key s idx).1.
Proof.
  intros [K1 K2 K3 K4] Hk. destruct (write_items key s idx) as [E1 E2]. split; rewrite ?E1, ?E2; [done..|].
  intros j. destruct (decide (j = key)) as [->|Hne]; [done|]. rewrite write_stored by done. apply K4.
Qed.

Lemma ok_write key s idx m : idx_ok idx → prereq_exact (<[key := s]> (ix_items idx)) m → rs_Recognized s = true → key = rs_stateKey s →
  idx_ok (idx_write key s (set_items (<[key := s]> (ix_items idx)) m idx)).1.
Proof. intros Hi Hm Hr Hk. apply write_ok; [by apply ok_set|]. cbn. rewrite lookup_insert_eq. by eexists. Qed.

Lemma put_locked_ok s idx : idx_ok idx → rs_Recognized s = true → idx_ok (put_locked s idx).
Proof. intros Hi Hr. unfold put_locked. apply ok_set; [done| |done|done]. apply exact_put, Hi. Qed.

Lemma Put_ok s idx : idx_ok idx → rs_Recognized s = true → idx_ok (idx_Put s idx).1.
Proof. intros Hi Hr. unfold idx_Put, put_locked. apply ok_write; [done| |done|done]. apply exact_put, Hi. Qed.

Lemma Get_cases c id idx : idx_ok idx →
  (idx_Get c id idx).1 = idx ∧ match (idx_Get c id idx).2 with
                               | inl s => ix_items idx !! stateKey c id = Some s
                               | inr err => ix_items idx !! stateKey c id = None
                               end.
Proof.
  intros Hi. unfold idx_Get. destruct (ix_items idx !! stateKey c id) as [s|] eqn:Hk; [done|].
  destruct (ix_store idx) as [st|] eqn:Hst; [|done]. destruct (ix_get (stateKey c id) st) as [[data|]|] eqn:Hg; try done.
  destruct (unmarshal_state data) as [s|] eqn:Hu; [|done]. exfalso.
  destruct (io_loaded idx Hi (stateKey c id)) as [s' Hs']; [|congruence].
  unfold stored. rewrite Hst. cbn. rewrite <- (ix_get_view _ _ _ Hg). cbn. rewrite Hu. by eexists.
Qed.

Lemma exec_ok idx op : idx_ok idx → idx_ok (idx_exec idx op).
Proof.
  intros Hi. destruct op as [c id|c id|c id|c id|c id reason pk|c id now]; cbn [idx_exec].
  - by rewrite (proj1 (Get_cases c id idx Hi)).
  - unfold idx_MarkRecognizedOnce. destruct (ix_items idx !! stateKey c id) as [s|] eqn:Hk.
    { by rewrite (io_recognized idx Hi _ _ Hk). }
    assert (idx_ok (idx_write (stateKey c id) (recognized (new_state c id))
      (set_items (<[stateKey c id := recognized (new_state c id)]> (ix_items idx)) (ix_prereq idx) idx)).1) as Hok.
    { apply ok_write; [done| |done|done]. exact (exact_fresh _ _ _ (recognized (new_state c id)) (io_exact idx Hi) Hk). }
    by destruct (idx_write _ _ _).
  - unfold idx_MarkRecognized. destruct (Get_cases c id idx Hi) as [Hg Hr]. destruct (idx_Get c id idx) as [idx' [s|err]]; cbn [fst snd] in *; subst idx'.
    + by rewrite (io_recognized idx Hi _ _ Hr).
    + case_decide; [|done]. pose proof (Put_ok (recognized (new_state c id)) idx Hi eq_refl) as Hp.
      by destruct (idx_Put _ idx) as [idx' [?|]].
  - unfold idx_MarkReady. destruct (Get_cases c id idx Hi) as [Hg Hr]. destruct (idx_Get c id idx) as [idx' [s|err]]; cbn [fst snd] in *; subst idx'; [|done].
    destruct (rs_Ready s); [done|]. apply Put_ok; [done|]. apply (io_recognized idx Hi _ _ Hr).
  - unfold idx_SetDeferred. destruct (Get_cases c id idx Hi) as [Hg Hr]. destruct (idx_Get c id idx) as [idx' [s|err]]; cbn [fst snd] in *; subst idx'; [|case_decide; [|done]];
      by apply Put_ok.
  - unfold idx_IncrementAttempt. destruct (ix_items idx !! stateKey c id) as [s|] eqn:Hk; [|done].
    apply ok_write; [done| |by apply (io_recognized idx Hi _ _ Hk)|exact (io_keyed idx Hi _ _ Hk)].
    by apply (exact_update _ _ _ s); [apply Hi|done|].
Qed.

Lemma run_ok ops idx : idx_ok idx → idx_ok (foldl idx_exec idx ops).
Proof. revert idx. induction ops as [|op ops IH]; intros idx Hi; [done|]. by apply IH, exec_ok. Qed.

(** ** Loading *)

Definition entry_ok (entry : string * string) : Prop :=
  ∀ s, unmarshal_state entry.2 = Some s → rs_Recognized s = true ∧ entry.1 = rs_stateKey s.

Lemma load_entries (entries : list (string * string)) idx :
  prereq_exact (ix_items idx) (ix_prereq idx) → NoDup entries.*1 → (∀ k, k ∈ entries.*1 → ix_items idx !! k = None) →
  let idx' := foldl load_entry idx entries in
  prereq_exact (ix_items idx') (ix_prereq idx') ∧ ix_store idx' = ix_store idx
  ∧ ∀ k, ix_items idx' !! k = match ix_items idx !! k with
                              | Some s => Some s
                              | None => data ← (list_to_map entries : gmap string string) !! k; unmarshal_state data
                              end.
Proof.
  revert idx. induction entries as [|[k data] entries IH]; intros idx He Hnd Hfresh; cbn [foldl].
  { split_and!; [done|done|]. intros k. by destruct (ix_items idx !! k). }
  cbn in Hnd. apply NoDup_cons in Hnd as [Hk Hnd]. assert (ix_items idx !! k = None) as Hkn by (apply Hfresh; left).
  destruct (unmarshal_state data) as [s|] eqn:Hu.
  - assert (load_entry idx (k, data) = set_items (<[k := s]> (ix_items idx))
      (if decide (rs_PrerequisiteKey s ≠ "" ∧ rs_Ready s = false) then enter (rs_PrerequisiteKey s) k (ix_prereq idx) else ix_prereq idx) idx) as ->
      by (unfold load_entry; cbn [fst snd]; by rewrite Hu).
    destruct (IH (set_items (<[k := s]> (ix_items idx))
      (if decide (rs_PrerequisiteKey s ≠ "" ∧ rs_Ready s = false) then enter (rs_PrerequisiteKey s) k (ix_prereq idx) else ix_prereq idx) idx)) as (K1 & K2 & K3).
    + cbn. by apply exact_fresh.
    + done.
    + cbn. intros j Hj. rewrite lookup_insert_ne by congruence. apply Hfresh. by right.
    + split_and!; [done|by rewrite K2|]. intros j. rewrite K3. cbn. destruct (decide (j = k)) as [->|Hj].
      * by rewrite !lookup_insert_eq, Hkn.
      * by rewrite !lookup_insert_ne by done.
  - assert (load_entry idx (k, data) = idx) as -> by (unfold load_entry; cbn [snd]; by rewrite Hu).
    destruct (IH idx) as (K1 & K2 & K3); [done|done|intros j Hj; apply Hfresh; by right|]. split_and!; [done..|]. intros j. rewrite K3. cbn.
    destruct (decide (j = k)) as [->|Hj]; [|by rewrite lookup_insert_ne]. rewrite lookup_insert_eq, Hkn. cbn. rewrite Hu.
    by rewrite not_elem_of_list_to_map_1.
Qed.

(** Loading a new index from a store gives the states that the store holds. *)
Lemma load_spec st : (∀ k data, ix_view st !! k = Some data → entry_ok (k, data)) →
  ∀ idx, idx_LoadFromStore (NewIndex (Some st)) = (idx, None) →
  idx_ok idx ∧ ix_store idx = Some st ∧ ∀ k, ix_items idx !! k = stored k idx.
Proof.
  intros Hst idx. unfold idx_LoadFromStore. cbn [ix_store NewIndex]. destruct (ix_scan "" st) as [entries|] eqn:Hs; [|done]. intros [= <-].
  apply ix_scan_view in Hs. destruct (load_entries entries (NewIndex (Some st))) as (K1 & K2 & K3).
  - split; cbn; [|intros pk; by rewrite lookup_empty]. intros pk key. rewrite lookup_empty. cbn. split; [set_solver|]. intros (s & Hk & _). by rewrite lookup_empty in Hk.
  - rewrite Hs. apply NoDup_fst_map_to_list.
  - intros k _. apply lookup_empty.
  - assert (list_to_map entries = ix_view st) as Hl.
    { rewrite <- (list_to_map_to_list (ix_view st)). apply list_to_map_proper; [|done]. rewrite Hs. apply NoDup_fst_map_to_list. }
    rewrite Hl in K3. set (idx' := foldl _ _ _) in *. cbn in K2. assert (∀ k, ix_items idx' !! k = stored k idx') as Hk.
    { intros k. rewrite K3. unfold stored. by rewrite K2. }
    split; [|done]. split; [done|..].
    + intros key s. rewrite K3. cbn. destruct (ix_view st !! key) as [data|] eqn:Hd; cbn; [|done]. intros Hu. by apply (Hst key data Hd s).
    + intros key s. rewrite K3. cbn. destruct (ix_view st !! key) as [data|] eqn:Hd; cbn; [|done]. intros Hu. by apply (Hst key data Hd s).
    + intros key. by rewrite Hk.
Qed.

(** With a store whose writes succeed, it holds what the index holds. *)
Definition synced idx : Prop := is_Some (ix_store idx) ∧ ∀ k, stored k idx = ix_items idx !! k.
Context (marshals : ∀ s, is_Some (marshal_state s)) (reliable : ∀ key data (st : S), (ix_put key data st).2 = true).

Lemma write_synced `{!StateCodecOk} key s idx m : synced idx → synced (idx_write key s (set_items (<[key := s]> (ix_items idx)) m idx)).1.
Proof.
  intros [[st Hst] Hs]. unfold idx_write. cbn [ix_store set_items]. rewrite Hst. destruct (marshals s) as [data Hdata]. rewrite Hdata.
  pose proof (ix_put_ok key data st (reliable key data st)) as Hv. destruct (ix_put key data st) as [st' ok]. cbn in Hv. split; [by eexists|].
  intros k. unfold stored. cbn. rewrite Hv. destruct (decide (k = key)) as [->|Hk].
  - rewrite !lookup_insert_eq. cbn. by apply unmarshal_marshal.
  - rewrite !lookup_insert_ne by done. specialize (Hs k). unfold stored in Hs. by rewrite Hst in Hs.
Qed.

Lemma exec_synced `{!StateCodecOk} idx op : idx_ok idx → synced idx → synced (idx_exec idx op).
Proof.
  intros Hi Hs. assert (∀ s, synced (idx_Put s idx).1) as Hput by (intros s; unfold idx_Put, put_locked; by apply write_synced).
  destruct op as [c id|c id|c id|c id|c id reason pk|c id now]; cbn [idx_exec].
  - by rewrite (proj1 (Get_cases c id idx Hi)).
  - unfold idx_MarkRecognizedOnce. destruct (match ix_items idx !! stateKey c id with Some s => rs_Recognized s | None => false end); [done|].
    pose proof (write_synced (stateKey c id) (recognized (new_state c id)) idx (ix_prereq idx) Hs) as Hw. by destruct (idx_write _ _ _).
  - unfold idx_MarkRecognized. destruct (Get_cases c id idx Hi) as [Hg Hr]. destruct (idx_Get c id idx) as [idx' [s|err]]; cbn [fst snd] in *; subst idx'.
    + destruct (rs_Recognized s); [done|]. specialize (Hput (recognized s)). by destruct (idx_Put _ idx) as [? [?|]].
    + case_decide; [|done]. specialize (Hput (recognized (new_state c id))). by destruct (idx_Put _ idx) as [? [?|]].
  - unfold idx_MarkReady. destruct (Get_cases c id idx Hi) as [Hg Hr]. destruct (idx_Get c id idx) as [idx' [s|err]]; cbn [fst snd] in *; subst idx'; [|done].
    by destruct (rs_Ready s).
  - unfold idx_SetDeferred. destruct (Get_cases c id idx Hi) as [Hg Hr]. destruct (idx_Get c id idx) as [idx' [s|err]]; cbn [fst snd] in *; subst idx'; [done|].
    by case_decide.
  - unfold idx_IncrementAttempt. destruct (ix_items idx !! stateKey c id) as [s|]; [|done]. by apply write_synced.
Qed.

Lemma run_synced `{!StateCodecOk} ops idx : idx_ok idx → synced idx → synced (foldl idx_exec idx ops).
Proof. revert idx. induction ops as [|op ops IH]; intros idx Hi Hs; [done|]. cbn [foldl]. by apply IH; [apply exec_ok|apply exec_synced]. Qed.
End runs.

Lemma new_ok `{!StateCodec} {S : Type} `{!IndexStore S, !IndexLaws S} (store : option S) :
  (∀ st, store = Some st → ix_view st = ∅) → idx_ok (NewIndex store).
Proof.
  intros Hst. split; cbn.
  - split; [|intros pk; by rewrite lookup_empty]. intros pk key. rewrite lookup_empty. cbn. split; [set_solver|]. intros (s & Hk & _). by rewrite lookup_empty in Hk.
  - intros key s Hk. by rewrite lookup_empty in Hk.
  - intros key s Hk. by rewrite lookup_empty in Hk.
  - intros key [s Hk]. unfold stored in Hk. cbn in Hk. destruct store as [st|]; cbn in Hk; [|done]. by rewrite (Hst st eq_refl), lookup_empty in Hk.
Qed.

(** The items that wait, found by looking at all of them. *)
Definition deferred_scan {S} (pk : string) (idx : Index S) : list RecognitionState := filter (waits_for pk) (map_to_list (ix_items idx)).*2.

Lemma filter_snd_omap {A} (P : A → Prop) `{∀ x, Decision (P x)} (l : list (string * A)) :
  filter P l.*2 = (filter (λ kv, P kv.2) l).*2.
Proof. induction l as [|[k x] l IH]; [done|]. rewrite fmap_cons. rewrite !filter_cons. cbn [snd]. case_decide; rewrite IH; done. Qed.

Lemma deferred_exact `{!RangeOrder} {S} (idx : Index S) pk : prereq_exact (ix_items idx) (ix_prereq idx) →
  idx_DeferredByPrerequisite pk idx ≡ₚ deferred_scan pk idx.
Proof.
  intros [He _]. unfold idx_DeferredByPrerequisite, deferred_scan. rewrite filter_snd_omap.
  set (m := filter (λ kv, waits_for pk kv.2) (ix_items idx)).
  assert (filter (λ kv : string * RecognitionState, waits_for pk kv.2) (map_to_list (ix_items idx)) ≡ₚ map_to_list m) as ->.
  { apply NoDup_Permutation; [apply NoDup_filter, NoDup_map_to_list|apply NoDup_map_to_list|]. intros [k s].
    rewrite list_elem_of_filter, !elem_of_map_to_list. unfold m. rewrite map_lookup_filter_Some. cbn. naive_solver. }
  assert (default ∅ (ix_prereq idx !! pk) = dom m) as Hdom.
  { apply set_eq. intros key. rewrite He, elem_of_dom. unfold m. split.
    - intros (s & Hk & Hw). exists s. by apply map_lookup_filter_Some.
    - intros [s [Hk Hw]%map_lookup_filter_Some]. by exists s. }
  assert (∀ keys, keys ≡ₚ elements (dom m) → omap (λ key, s ← ix_items idx !! key; if rs_Ready s then None else Some s) keys ≡ₚ (map_to_list m).*2) as Hall.
  { intros keys Hkeys. rewrite <- (omap_lookup_map m keys Hkeys). apply Permutation_refl'. apply list_omap_ext, Forall_Forall2_diag, Forall_forall. intros key Hin.
    rewrite Hkeys, elem_of_elements, elem_of_dom in Hin. destruct Hin as [s Hs]. rewrite Hs. apply map_lookup_filter_Some in Hs as [Hs (_ & _ & Hr)].
    rewrite Hs. cbn in *. by rewrite Hr. }
  destruct (ix_prereq idx !! pk) as [keys|]; cbn in Hdom.
  - rewrite <- Hdom in Hall. by apply Hall, range_set_perm.
  - by rewrite <- (Hall []) by by rewrite <- Hdom.
Qed.

(** * The bus *)

Definition DefaultQueueSize : Z := 4096.
Definition DefaultWorkers : Z := 4.
Definition MaxActivationAttempts : Z := 10.

Record BusConfig := mkBusConfig { bc_QueueSize : Z; bc_Workers : Z }.

Definition DefaultBusConfig : BusConfig := mkBusConfig DefaultQueueSize DefaultWorkers.

(** [ReadModel]: the events of the graph, which is part of the world. *)
Definition ReadModel (W : Type) : Type := W → EventID → option Event.

(** [CommitConsumer] over the world it reads and changes.  [Ready] fails, or tells
    whether the event can be consumed and what it waits for; [Consume] tells whether
    it succeeded and gives the prerequisites it signals. *)
Record CommitConsumer (W : Type) := mkConsumer {
  c_Name : string;
  c_Interested : Event → bool;
  c_Ready : Event → option (ReadModel W) → W → option (bool * string);
  c_Consume : Event → Z → W → W * bool * list string;
}.
#[global] Arguments mkConsumer {W} _ _ _ _.
#[global] Arguments c_Name {W} _.
#[global] Arguments c_Interested {W} _ _.
#[global] Arguments c_Ready {W} _ _ _ _.
#[global] Arguments c_Consume {W} _ _ _ _.

Notation commitItem := (CommitRecord * Event)%type.

(** What a worker has still to do: the steps of [processConsumer], of the operations of
    the index it calls and of [Signal]. *)
Inductive task (W : Type) :=
  | TGate (c : CommitConsumer W) (item : commitItem)
  | TAttempt (c : CommitConsumer W) (item : commitItem)
  | TReady (c : CommitConsumer W) (item : commitItem)
  | TConsume (c : CommitConsumer W) (eventID : EventID) (ev : Event)
  | TSetDeferred (consumer : string) (eventID : EventID) (reason prereqKey : string)
  | TMarkReady (consumer : string) (eventID : EventID)
  | TPut (s : RecognitionState)
  | TStore (s : RecognitionState)
  | TSignal (prereqKey : string)
  | TActivate (s : RecognitionState)
  | TRecheck (c : CommitConsumer W) (s : RecognitionState) (ev : Event).
#[global] Arguments TGate {W} _ _.
#[global] Arguments TAttempt {W} _ _.
#[global] Arguments TReady {W} _ _.
#[global] Arguments TConsume {W} _ _ _.
#[global] Arguments TSetDeferred {W} _ _ _ _.
#[global] Arguments TMarkReady {W} _ _.
#[global] Arguments TPut {W} _.
#[global] Arguments TStore {W} _.
#[global] Arguments TSignal {W} _.
#[global] Arguments TActivate {W} _.
#[global] Arguments TRecheck {W} _ _ _.

(** The bus; a worker that exited is [None].  [bus_dispatched] lists the pairs that
    passed the gate. *)
Record Bus (S W : Type) := mkBus {
  bus_config : BusConfig;
  bus_index : Index S;
  bus_readModel : option (ReadModel W);
  bus_consumers : gmap string (CommitConsumer W);
  bus_queue : list commitItem;
  bus_stopped : bool;
  bus_workers : list (option (list (task W)));
  bus_world : W;
  bus_dispatched : list string;
}.
#[global] Arguments mkBus {S W} _ _ _ _ _ _ _ _ _.
#[global] Arguments bus_config {S W} _.
#[global] Arguments bus_index {S W} _.
#[global] Arguments bus_readModel {S W} _.
#[global] Arguments bus_consumers {S W} _.
#[global] Arguments bus_queue {S W} _.
#[global] Arguments bus_stopped {S W} _.
#[global] Arguments bus_workers {S W} _.
#[global] Arguments bus_world {S W} _.
#[global] Arguments bus_dispatched {S W} _.

Inductive BusError := ErrQueueFull | ErrConsumerAlreadyRegistered.

Section bus.
Context `{!StateCodec, !RangeOrder} {S W : Type} `{!IndexStore S}.
Notation Index := (Index S).
Notation Bus := (Bus S W).
Notation task := (task W).
Implicit Types (b : Bus) (idx : Index) (s : RecognitionState) (w : W).

Definition NewBus (cfg : BusConfig) (index : Index) (readModel : option (ReadModel W)) (w : W) : Bus :=
  let cfg := mkBusConfig (if decide (bc_QueueSize cfg <= 0) then DefaultQueueSize else bc_QueueSize cfg)
                         (if decide (bc_Workers cfg <= 0) then DefaultWorkers else bc_Workers cfg) in
  mkBus cfg index readModel ∅ [] false [] w [].

Definition Register (c : CommitConsumer W) b : Bus * option BusError :=
  match bus_consumers b !! c_Name c with
  | Some _ => (b, Some ErrConsumerAlreadyRegistered)
  | None => (mkBus (bus_config b) (bus_index b) (bus_readModel b) (<[c_Name c := c]> (bus_consumers b)) (bus_queue b) (bus_stopped b)
               (bus_workers b) (bus_world b) (bus_dispatched b), None)
  end.

Definition set_workers (queue : list commitItem) (stopped : bool) (workers : list (option (list task))) b : Bus :=
  mkBus (bus_config b) (bus_index b) (bus_readModel b) (bus_consumers b) queue stopped workers (bus_world b) (bus_dispatched b).

Definition bus_Start b : Bus :=
  set_workers (bus_queue b) (bus_stopped b) (bus_workers b ++ replicate (Z.to_nat (bc_Workers (bus_config b))) (Some [])) b.

(** [Stop] cancels the context, then waits until every worker has exited. *)
Definition bus_Stop b : Bus := set_workers (bus_queue b) true (bus_workers b) b.

Definition Emit (record : CommitRecord) (ev : Event) b : Bus * option BusError :=
  if decide (Z.of_nat (length (bus_queue b)) < bc_QueueSize (bus_config b))
  then (set_workers (bus_queue b ++ [(record, ev)]) (bus_stopped b) (bus_workers b) b, None)
  else (b, Some ErrQueueFull).

(** [EmitCommit]: a full queue drops the event. *)
Definition EmitCommit (ev : Event) (source : string) (replay : bool) (now : Z) b : Bus :=
  (Emit (mkCommit (ID ev) (Type_ ev) source replay now) ev b).1.

Definition QueueDepth b : Z := Z.of_nat (length (bus_queue b)).
Definition ConsumerCount b : Z := Z.of_nat (size (bus_consumers b)).

(** [dispatch]: the interested consumers, in the order of the map. *)
Definition dispatch (item : commitItem) b : list task :=
  omap (λ name, c ← bus_consumers b !! name; if c_Interested c item.2 then Some (TGate c item) else None) (range_set (dom (bus_consumers b))).

(** ** The steps of [processConsumer] *)

Definition process_gate (c : CommitConsumer W) (item : commitItem) idx : Index * list task :=
  match idx_MarkRecognizedOnce (c_Name c) (cr_EventID item.1) idx with
  | (idx, true, None) => (idx, [TAttempt c item])
  | (idx, _, _) => (idx, [])
  end.

Definition process_ready (c : CommitConsumer W) (item : commitItem) (rm : option (ReadModel W)) w : list task :=
  match c_Ready c item.2 rm w with
  | None => []
  | Some (false, pk) => [TSetDeferred (c_Name c) (cr_EventID item.1) pk pk]
  | Some (true, _) => [TConsume c (cr_EventID item.1) item.2]
  end.

Definition process_consume (c : CommitConsumer W) (eventID : EventID) (ev : Event) (now : Z) w : W * list task :=
  let '(w, ok, signals) := c_Consume c ev now w in
  (w, (TSignal <$> signals) ++ (if ok : bool then [TMarkReady (c_Name c) eventID] else [])).

(** [SetDeferred] and [MarkReady] read the state, then put a changed copy. *)
Definition step_SetDeferred (consumer : string) (eventID : EventID) (reason pk : string) idx : Index * list task :=
  match idx_Get consumer eventID idx with
  | (idx, inl s) => (idx, [TPut (made_deferred reason pk s)])
  | (idx, inr ErrNotFound) => (idx, [TPut (made_deferred reason pk (new_state consumer eventID))])
  | (idx, inr _) => (idx, [])
  end.

Definition step_MarkReady (consumer : string) (eventID : EventID) idx : Index * list task :=
  match idx_Get consumer eventID idx with
  | (idx, inl s) => (idx, if rs_Ready s then [] else [TPut (made_ready s)])
  | (idx, inr _) => (idx, [])
  end.

(** ** The steps of [Signal] *)

Definition signal_start (prereqKey : string) idx : list task := TActivate <$> idx_DeferredByPrerequisite prereqKey idx.

Definition signal_activate s (now : Z) (rm : option (ReadModel W)) (consumers : gmap string (CommitConsumer W)) idx w : Index * list task :=
  if decide (MaxActivationAttempts <= rs_Attempts s) then (idx, [TMarkReady (rs_ConsumerName s) (rs_EventID s)])
  else match consumers !! rs_ConsumerName s, (get ← rm; get w (rs_EventID s)) with
  | Some c, Some ev => (idx_IncrementAttempt (rs_ConsumerName s) (rs_EventID s) now idx, [TRecheck c s ev])
  | _, _ => (idx, [])
  end.

Definition signal_recheck (c : CommitConsumer W) s (ev : Event) (rm : option (ReadModel W)) w : list task :=
  match c_Ready c ev rm w with
  | None => []
  | Some (false, pk) => if decide (pk ≠ rs_PrerequisiteKey s) then [TSetDeferred (rs_ConsumerName s) (rs_EventID s) (rs_DeferredReason s) pk] else []
  | Some (true, _) => [TConsume c (rs_EventID s) ev]
  end.

(** ** Workers *)

(** One step: the index, the world, and what is to be done next. *)
Definition exec_task (now : Z) (rm : option (ReadModel W)) (consumers : gmap string (CommitConsumer W)) (t : task) (idx : Index) (w : W) :
    Index * W * list task :=
  match t with
  | TGate c item => let '(idx, new) := process_gate c item idx in (idx, w, new)
  | TAttempt c item => (idx_IncrementAttempt (c_Name c) (cr_EventID item.1) now idx, w, [TReady c item])
  | TReady c item => (idx, w, process_ready c item rm w)
  | TConsume c eventID ev => let '(w, new) := process_consume c eventID ev now w in (idx, w, new)
  | TSetDeferred consumer eventID reason pk => let '(idx, new) := step_SetDeferred consumer eventID reason pk idx in (idx, w, new)
  | TMarkReady consumer eventID => let '(idx, new) := step_MarkReady consumer eventID idx in (idx, w, new)
  | TPut s => (put_locked s idx, w, [TStore s])
  | TStore s => ((idx_write (rs_stateKey s) s idx).1, w, [])
  | TSignal pk => (idx, w, signal_start pk idx)
  | TActivate s => let '(idx, new) := signal_activate s now rm consumers idx w in (idx, w, new)
  | TRecheck c s ev => (idx, w, signal_recheck c s ev rm w)
  end.

(** The pair that passes the gate in a step. *)
Definition passed (t : task) (new : list task) : list string :=
  match t, new with TGate c item, [TAttempt _ _] => [stateKey (c_Name c) (cr_EventID item.1)] | _, _ => [] end.

Definition run_worker (i : nat) (now : Z) b : Bus :=
  match bus_workers b !! i with
  | Some (Some (t :: rest)) =>
      let '(idx, w, new) := exec_task now (bus_readModel b) (bus_consumers b) t (bus_index b) (bus_world b) in
      mkBus (bus_config b) idx (bus_readModel b) (bus_consumers b) (bus_queue b) (bus_stopped b) (<[i := Some (new ++ rest)]> (bus_workers b)) w
        (bus_dispatched b ++ passed t new)
  | _ => b
  end.

(** An idle worker takes an item; a cancelled bus may still hand one out. *)
Definition take_item (i : nat) b : Bus :=
  match bus_workers b !! i, bus_queue b with
  | Some (Some []), item :: queue => set_workers queue (bus_stopped b) (<[i := Some (dispatch item b)]> (bus_workers b)) b
  | _, _ => b
  end.

Definition worker_exit (i : nat) b : Bus :=
  match bus_workers b !! i with
  | Some (Some []) => if bus_stopped b then set_workers (bus_queue b) true (<[i := None]> (bus_workers b)) b else b
  | _ => b
  end.

(** The schedule of a node; [BWorld] is a change by another part of it. *)
Inductive bus_op :=
  | BRegister (c : CommitConsumer W)
  | BStart
  | BStop
  | BEmit (ev : Event) (source : string) (replay : bool) (now : Z)
  | BTake (i : nat)
  | BRun (i : nat) (now : Z)
  | BExit (i : nat)
  | BWorld (f : W → W).

Definition bus_exec b (op : bus_op) : Bus :=
  match op with
  | BRegister c => (Register c b).1
  | BStart => bus_Start b
  | BStop => bus_Stop b
  | BEmit ev source replay now => EmitCommit ev source replay now b
  | BTake i => take_item i b
  | BRun i now => run_worker i now b
  | BExit i => worker_exit i b
  | BWorld f => mkBus (bus_config b) (bus_index b) (bus_readModel b) (bus_consumers b) (bus_queue b) (bus_stopped b) (bus_workers b)
                  (f (bus_world b)) (bus_dispatched b)
  end.
End bus.

(** * The invariant of the bus *)

Section bus_inv.
Context `{!StateCodec, !RangeOrder} {S W : Type} `{!IndexStore S, !IndexLaws S}.
Notation Index := (Index S).
Notation Bus := (Bus S W).
Notation task := (task W).
Implicit Types (b : Bus) (idx : Index) (s : RecognitionState) (w : W) (t : task).

Definition task_ok idx t : Prop :=
  match t with
  | TPut s => rs_Recognized s = true
  | TStore s => is_Some (ix_items idx !! rs_stateKey s)
  | _ => True
  end.

(** No item disappears. *)
Definition keeps idx idx' : Prop := dom (ix_items idx) ⊆ dom (ix_items idx').

Lemma keeps_refl idx : keeps idx idx.
Proof. unfold keeps. done. Qed.
#[local] Hint Resolve keeps_refl : core.

Lemma task_ok_keeps idx idx' t : keeps idx idx' → task_ok idx t → task_ok idx' t.
Proof. unfold keeps. destruct t; cbn; try done. rewrite <- !elem_of_dom. set_solver. Qed.

Lemma Attempt_keeps c id now idx : keeps idx (idx_IncrementAttempt c id now idx).
Proof.
  unfold idx_IncrementAttempt, keeps. destruct (ix_items idx !! _) as [s|]; [|done]. destruct (write_items (stateKey c id) (attempted now s)
    (set_items (<[stateKey c id := attempted now s]> (ix_items idx)) (ix_prereq idx) idx)) as [-> _]. cbn. set_solver.
Qed.

Lemma Once_spec c id idx : idx_ok idx →
  let '(idx', first, err) := idx_MarkRecognizedOnce c id idx in
  idx_ok idx' ∧ keeps idx idx' ∧ (first = true → ix_items idx !! stateKey c id = None) ∧ stateKey c id ∈ dom (ix_items idx').
Proof.
  intros Hi. pose proof (exec_ok idx (OpMarkRecognizedOnce c id) Hi) as Hok. cbn [idx_exec] in Hok. unfold idx_MarkRecognizedOnce in *.
  destruct (ix_items idx !! stateKey c id) as [s|] eqn:Hk.
  - rewrite (io_recognized idx Hi _ _ Hk) in *. split_and!; [done|done|done|]. apply elem_of_dom. by eexists.
  - pose proof (proj1 (write_items (stateKey c id) (recognized (new_state c id))
      (set_items (<[stateKey c id := recognized (new_state c id)]> (ix_items idx)) (ix_prereq idx) idx))) as Hw.
    destruct (idx_write _ _ _) as [idx' err]. cbn in Hw, Hok. split_and!; [done| |done|]; unfold keeps; rewrite Hw; set_solver.
Qed.

(** Every step keeps the invariant of the index and leaves sound steps to do. *)
Lemma exec_task_ok now rm consumers t idx w : idx_ok idx → task_ok idx t →
  let '(idx', w', new) := exec_task now rm consumers t idx w in
  idx_ok idx' ∧ keeps idx idx' ∧ Forall (task_ok idx') new
  ∧ ∀ key, key ∈ passed t new → ix_items idx !! key = None ∧ key ∈ dom (ix_items idx').
Proof.
  intros Hi Ht. destruct t as [c item|c item|c item|c id ev|c id reason pk|c id|s|s|pk|s|c s ev]; cbn [exec_task].
  - unfold process_gate. pose proof (Once_spec (c_Name c) (cr_EventID item.1) idx Hi) as Ho.
    destruct (idx_MarkRecognizedOnce _ _ idx) as [[idx' [|]] [err|]]; destruct Ho as (K1 & K2 & K3 & K4); (split_and!; [done|done|by repeat constructor|]); cbn; set_solver.
  - split_and!; [by apply (exec_ok idx (OpIncrementAttempt _ _ now))|apply Attempt_keeps|by repeat constructor|cbn; set_solver].
  - split_and!; [done|done| |cbn; set_solver]. unfold process_ready. destruct (c_Ready _ _ _ _) as [[[|] pk]|]; by repeat constructor.
  - unfold process_consume. destruct (c_Consume _ _ _ _) as [[w' ok] sigs]. split_and!; [done|done| |cbn; set_solver].
    apply Forall_app. split; [by apply Forall_fmap, Forall_true|]. by destruct ok; repeat constructor.
  - unfold step_SetDeferred. destruct (Get_cases c id idx Hi) as [Hg Hr]. destruct (idx_Get c id idx) as [idx' [s|[]]]; cbn [fst] in Hg; subst idx';
      (split_and!; [done|done|by repeat constructor|cbn; set_solver]).
  - unfold step_MarkReady. destruct (Get_cases c id idx Hi) as [Hg Hr]. destruct (idx_Get c id idx) as [idx' [s|err]]; cbn [fst snd] in Hg, Hr; subst idx';
      (split_and!; [done|done| |cbn; set_solver]); [|constructor]. destruct (rs_Ready s); repeat constructor. exact (io_recognized idx Hi _ _ Hr).
  - cbn in Ht. split_and!; [by apply put_locked_ok| | |cbn; set_solver].
    + unfold keeps, put_locked. cbn. set_solver.
    + repeat constructor. unfold put_locked. cbn. rewrite lookup_insert_eq. by eexists.
  - cbn in Ht. destruct (write_items (rs_stateKey s) s idx) as [E1 E2]. split_and!; [by apply write_ok|unfold keeps; by rewrite E1|constructor|cbn; set_solver].
  - split_and!; [done|done| |cbn; set_solver]. unfold signal_start. by apply Forall_fmap, Forall_true.
  - unfold signal_activate. destruct (decide _); [split_and!; [done|done|by repeat constructor|cbn; set_solver]|].
    destruct (consumers !! _); [|split_and!; [done|done|constructor|cbn; set_solver]]. destruct (get ← rm; get w (rs_EventID s)) as [ev|];
      [|split_and!; [done|done|constructor|cbn; set_solver]].
    split_and!; [by apply (exec_ok idx (OpIncrementAttempt _ _ now))|apply Attempt_keeps|by repeat constructor|cbn; set_solver].
  - split_and!; [done|done| |cbn; set_solver]. unfold signal_recheck. destruct (c_Ready _ _ _ _) as [[[|] pk]|]; try (by repeat constructor).
    destruct (decide _); by repeat constructor.
Qed.

Record bus_ok b : Prop := {
  bo_index : idx_ok (bus_index b);
  bo_tasks i ts t : bus_workers b !! i = Some (Some ts) → t ∈ ts → task_ok (bus_index b) t;
  bo_once : NoDup (bus_dispatched b);
  bo_recorded key : key ∈ bus_dispatched b → key ∈ dom (ix_items (bus_index b));
  bo_queue : Z.of_nat (length (bus_queue b)) <= bc_QueueSize (bus_config b);
}.

Lemma dispatch_ok idx item b t : t ∈ dispatch item b → task_ok idx t.
Proof.
  intros (name & _ & Hc)%list_elem_of_omap. destruct (bus_consumers b !! name) as [c|]; cbn in Hc; [|done]. destruct (c_Interested c item.2); [|done].
  by injection Hc as <-.
Qed.

Lemma run_worker_ok i now b : bus_ok b → bus_ok (run_worker i now b).
Proof.
  intros Hb. unfold run_worker. destruct (bus_workers b !! i) as [[[|t rest]|]|] eqn:Hi; try done.
  pose proof (exec_task_ok now (bus_readModel b) (bus_consumers b) t (bus_index b) (bus_world b) (bo_index b Hb)
    (bo_tasks b Hb i _ t Hi (list_elem_of_here _ _))) as Ht.
  destruct (exec_task _ _ _ _ _ _) as [[idx w] new]. destruct Ht as (K1 & K2 & K3 & K4). split; cbn.
  - done.
  - intros j ts t' Hj Hin. destruct (decide (j = i)) as [->|Hne].
    + rewrite list_lookup_insert_eq in Hj by (by eapply lookup_lt_Some). injection Hj as <-. apply elem_of_app in Hin as [Hin|Hin].
      * by apply (proj1 (Forall_forall _ _) K3).
      * apply (task_ok_keeps (bus_index b)); [done|]. apply (bo_tasks b Hb i _ t' Hi). by right.
    + rewrite list_lookup_insert_ne in Hj by done. apply (task_ok_keeps (bus_index b)); [done|]. by apply (bo_tasks b Hb j ts).
  - apply NoDup_app. split_and!; [apply Hb| |].
    + intros key Hold Hnew. apply K4 in Hnew as [Hnew _]. apply (bo_recorded b Hb), elem_of_dom in Hold as [s Hs]. congruence.
    + destruct t; cbn; try apply NoDup_nil_2. destruct new as [|[] [|]]; cbn; try apply NoDup_nil_2. apply NoDup_singleton.
  - intros key [Hold|Hnew]%elem_of_app; [by apply K2, Hb|by apply K4].
  - apply Hb.
Qed.

(** The queue and the workers; tasks that are new are sound. *)
Lemma set_workers_ok queue stopped workers b : bus_ok b → Z.of_nat (length queue) <= bc_QueueSize (bus_config b) →
  (∀ i ts t, workers !! i = Some (Some ts) → t ∈ ts → task_ok (bus_index b) t) → bus_ok (set_workers queue stopped workers b).
Proof. intros [K1 K2 K3 K4 K5] Hq Hw. by split. Qed.

Lemma bus_exec_ok b op : bus_ok b → bus_ok (bus_exec b op).
Proof.
  intros Hb. pose proof Hb as [K1 K2 K3 K4 K5]. destruct op as [c| | |ev source replay now|i|i now|i|f]; cbn [bus_exec].
  - unfold Register. by destruct (bus_consumers b !! c_Name c).
  - apply set_workers_ok; [done..|]. intros i ts t [Hi|[_ [[= ->] _]%lookup_replicate]]%lookup_app_Some Hin; [by apply (K2 i ts)|set_solver].
  - by apply set_workers_ok.
  - unfold EmitCommit, Emit. case_decide; [|done]. apply set_workers_ok; [done| |done]. rewrite length_app. cbn. lia.
  - unfold take_item. destruct (bus_workers b !! i) as [[[|]|]|]; try done. destruct (bus_queue b) as [|item queue] eqn:Hq; [done|].
    apply set_workers_ok; [done|cbn in K5; lia|]. intros j ts t Hj Hin. apply list_lookup_insert_Some in Hj as [(<- & [= <-] & _)|[_ Hj]].
    + by eapply dispatch_ok.
    + by apply (K2 j ts).
  - by apply run_worker_ok.
  - unfold worker_exit. destruct (bus_workers b !! i) as [[[|]|]|]; try done. destruct (bus_stopped b); [|done]. apply set_workers_ok; [done..|].
    intros j ts t Hj Hin. apply list_lookup_insert_Some in Hj as [(_ & [=] & _)|[_ Hj]]. by apply (K2 j ts).
  - by split.
Qed.

Lemma bus_run_ok ops b : bus_ok b → bus_ok (foldl bus_exec b ops).
Proof. revert b. induction ops as [|op ops IH]; intros b Hb; [done|]. by apply IH, bus_exec_ok. Qed.

Lemma NewBus_ok cfg idx rm w : idx_ok idx → bus_ok (NewBus cfg idx rm w).
Proof.
  intros Hi. split; cbn; [done|set_solver|apply NoDup_nil_2|set_solver|]. case_decide; unfold DefaultQueueSize; lia.
Qed.

(** * Termination of a worker *)

(** The worker's steps come to an end, whatever the clock shows, and then [Q] holds. *)
Inductive finishes (rm : option (ReadModel W)) (consumers : gmap string (CommitConsumer W)) (Q : Index → Prop) : Index → W → list task → Prop :=
  | fin_nil idx w : Q idx → finishes rm consumers Q idx w []
  | fin_step idx w t rest :
      (∀ now idx' w' new, exec_task now rm consumers t idx w = (idx', w', new) → finishes rm consumers Q idx' w' (new ++ rest)) →
      finishes rm consumers Q idx w (t :: rest).

Section termination.
Context (rm : option (ReadModel W)) (consumers : gmap string (CommitConsumer W)).
Notation finishes := (finishes rm consumers).

Lemma fin_run Q idx w t rest :
  (∀ now, let '(idx', w', new) := exec_task now rm consumers t idx w in finishes Q idx' w' (new ++ rest)) → finishes Q idx w (t :: rest).
Proof. intros Hf. constructor. intros now idx' w' new Hex. specialize (Hf now). by rewrite Hex in Hf. Qed.

Lemma finishes_bind (Q R : Index → Prop) idx w ts us :
  finishes Q idx w ts → (∀ idx' w', Q idx' → finishes R idx' w' us) → finishes R idx w (ts ++ us).
Proof.
  intros Hf Hk. induction Hf as [idx w Hq|idx w t rest _ IH]; [by apply Hk|]. cbn. constructor. intros now idx' w' new Hex. specialize (IH now idx' w' new Hex).
  by rewrite <- (assoc_L (++)) in IH.
Qed.

(** The retries that are left. *)
Definition retries (s : RecognitionState) : Z := Z.max 0 (MaxActivationAttempts - rs_Attempts s).
Definition left idx : Z := map_sum retries (ix_items idx).

Lemma left_nonneg idx : 0 <= left idx.
Proof. apply map_sum_nonneg. intros k s _. unfold retries. lia. Qed.

(** Attempts only grow, and no item is new. *)
Definition grows idx idx' : Prop :=
  idx_ok idx' ∧ ∀ key, match ix_items idx !! key, ix_items idx' !! key with
                       | Some s, Some s' => rs_Attempts s <= rs_Attempts s'
                       | None, None => True
                       | _, _ => False
                       end.

Lemma grows_refl idx : idx_ok idx → grows idx idx.
Proof. intros Hi. split; [done|]. intros key. by destruct (ix_items idx !! key). Qed.

Lemma grows_trans idx1 idx2 idx3 : grows idx1 idx2 → grows idx2 idx3 → grows idx1 idx3.
Proof.
  intros [_ G1] [H2 G2]. split; [done|]. intros key. specialize (G1 key). specialize (G2 key).
  destruct (ix_items idx1 !! key), (ix_items idx2 !! key), (ix_items idx3 !! key); try done; lia.
Qed.

(** Replacing an item by one with at least as many attempts. *)
Lemma grows_set key s s' idx idx' : idx_ok idx' → ix_items idx' = <[key := s']> (ix_items idx) → ix_items idx !! key = Some s →
  rs_Attempts s <= rs_Attempts s' → grows idx idx'.
Proof.
  intros Hi He Hk Ha. split; [done|]. intros j. rewrite He. destruct (decide (j = key)) as [->|Hj].
  - by rewrite lookup_insert_eq, Hk.
  - rewrite lookup_insert_ne by done. by destruct (ix_items idx !! j).
Qed.

Lemma left_set key s s' idx idx' : ix_items idx' = <[key := s']> (ix_items idx) → ix_items idx !! key = Some s →
  left idx' = left idx + retries s' - retries s.
Proof. intros He Hk. unfold left. rewrite He. rewrite (map_sum_update _ _ _ _ s' Hk). lia. Qed.

Lemma grows_zip idx idx' : grows idx idx' →
  left idx - left idx' = map_sum (λ p, retries p.1 - retries p.2) (map_zip (ix_items idx) (ix_items idx'))
  ∧ ∀ key p, map_zip (ix_items idx) (ix_items idx') !! key = Some p → 0 <= retries p.1 - retries p.2.
Proof.
  intros [_ G]. split.
  - assert (left idx = map_sum (retries ∘ fst) (map_zip (ix_items idx) (ix_items idx'))) as ->.
    { rewrite <- map_sum_fmap, fst_map_zip; [done|]. intros k [s Hk]. specialize (G k). rewrite Hk in G. destruct (ix_items idx' !! k); [by eexists|done]. }
    assert (left idx' = map_sum (retries ∘ snd) (map_zip (ix_items idx) (ix_items idx'))) as ->.
    { rewrite <- map_sum_fmap, snd_map_zip; [done|]. intros k [s Hk]. specialize (G k). rewrite Hk in G. destruct (ix_items idx !! k); [by eexists|done]. }
    induction (map_zip (ix_items idx) (ix_items idx')) as [|k p m Hk IH] using map_ind; [done|]. rewrite !map_sum_insert by done. cbn. lia.
  - intros key [s s'] [Hs Hs']%map_lookup_zip_Some. specialize (G key). cbn in *. rewrite Hs, Hs' in G. unfold retries. lia.
Qed.

Lemma grows_left idx idx' : grows idx idx' → left idx' <= left idx.
Proof. intros G. destruct (grows_zip idx idx' G) as [He Hp]. pose proof (map_sum_nonneg _ _ Hp). lia. Qed.

Lemma grows_strict idx idx' key s s' : grows idx idx' → ix_items idx !! key = Some s → ix_items idx' !! key = Some s' →
  left idx' + (retries s - retries s') <= left idx.
Proof.
  intros G Hs Hs'. destruct (grows_zip idx idx' G) as [He Hp].
  assert (map_zip (ix_items idx) (ix_items idx') !! key = Some (s, s')) as Hz by by apply map_lookup_zip_Some.
  pose proof (map_sum_lookup_le _ _ key (s, s') Hp Hz) as Hle. cbn in Hle. lia.
Qed.

(** ** The steps without a signal *)

Lemma finishes_Put s idx w : idx_ok idx → rs_Recognized s = true →
  (∀ old, ix_items idx !! rs_stateKey s = Some old → rs_Attempts old <= rs_Attempts s) → is_Some (ix_items idx !! rs_stateKey s) →
  finishes (grows idx) idx w [TPut s].
Proof.
  intros Hi Hr Ha [old Ho]. apply fin_run. intros now. cbn. apply fin_run. intros now'. cbn. constructor.
  pose proof (write_items (rs_stateKey s) s (put_locked s idx)) as [E _]. apply (grows_set (rs_stateKey s) old s); [|by rewrite E|done|by apply Ha].
  apply write_ok; [by apply put_locked_ok|]. unfold put_locked. cbn. rewrite lookup_insert_eq. by eexists.
Qed.

Lemma finishes_MarkReady c id idx w : idx_ok idx → finishes (grows idx) idx w [TMarkReady c id].
Proof.
  intros Hi. apply fin_run. intros now. cbn. unfold step_MarkReady. destruct (Get_cases c id idx Hi) as [Hg Hr].
  destruct (idx_Get c id idx) as [idx' [s|err]]; cbn [fst snd] in *; subst idx'; [|constructor; by apply grows_refl].
  destruct (rs_Ready s); [constructor; by apply grows_refl|]. pose proof (io_keyed idx Hi _ _ Hr) as Hk. unfold keyed_state in Hk.
  rewrite app_nil_r. apply finishes_Put; [done|exact (io_recognized idx Hi _ _ Hr)|..];
    (assert (rs_stateKey (made_ready s) = stateKey c id) as -> by exact (eq_sym Hk)); rewrite Hr; [by intros old [= <-]|by eexists].
Qed.

Lemma finishes_SetDeferred c id reason pk idx w : idx_ok idx → is_Some (ix_items idx !! stateKey c id) →
  finishes (grows idx) idx w [TSetDeferred c id reason pk].
Proof.
  intros Hi [s0 Hs0]. apply fin_run. intros now. cbn. unfold step_SetDeferred. destruct (Get_cases c id idx Hi) as [Hg Hr].
  destruct (idx_Get c id idx) as [idx' [s|err]]; cbn [fst snd] in *; subst idx'; [|congruence]. pose proof (io_keyed idx Hi _ _ Hr) as Hk. unfold keyed_state in Hk.
  rewrite app_nil_r. apply finishes_Put; [done|done|..];
    (assert (rs_stateKey (made_deferred reason pk s) = stateKey c id) as -> by exact (eq_sym Hk)); rewrite Hr; [by intros old [= <-]|by eexists].
Qed.

Lemma Attempt_grows c id now idx : idx_ok idx → grows idx (idx_IncrementAttempt c id now idx).
Proof.
  intros Hi. pose proof (exec_ok idx (OpIncrementAttempt c id now) Hi) as Hok. cbn in Hok. unfold idx_IncrementAttempt in *.
  destruct (ix_items idx !! stateKey c id) as [s|] eqn:Hk; [|by apply grows_refl].
  destruct (write_items (stateKey c id) (attempted now s) (set_items (<[stateKey c id := attempted now s]> (ix_items idx)) (ix_prereq idx) idx)) as [E _].
  apply (grows_set (stateKey c id) s (attempted now s)); [done|by rewrite E|done|]. cbn. lia.
Qed.

Lemma Attempt_item c id now idx s : ix_items idx !! stateKey c id = Some s →
  ix_items (idx_IncrementAttempt c id now idx) !! stateKey c id = Some (attempted now s).
Proof.
  intros Hk. unfold idx_IncrementAttempt. rewrite Hk.
  destruct (write_items (stateKey c id) (attempted now s) (set_items (<[stateKey c id := attempted now s]> (ix_items idx)) (ix_prereq idx) idx)) as [-> _].
  apply lookup_insert_eq.
Qed.

(** ** Signals *)

(** A list of signals, when each of them comes to an end. *)
Lemma finishes_signals (sigs : list string) idx w : idx_ok idx →
  (∀ idx' w' pk, grows idx idx' → finishes (grows idx') idx' w' [TSignal pk]) → finishes (grows idx) idx w (TSignal <$> sigs).
Proof.
  intros Hi Hs. assert (∀ idx' w', grows idx idx' → finishes (grows idx) idx' w' (TSignal <$> sigs)) as Hall; [|by apply Hall, grows_refl].
  induction sigs as [|pk sigs IH]; intros idx' w' G; [by constructor|]. rewrite fmap_cons.
  apply (finishes_bind (grows idx') _ idx' w' [TSignal pk]); [by apply Hs|]. intros idx2 w2 G2. apply IH. by eapply grows_trans.
Qed.

Lemma finishes_Consume c id ev idx w : idx_ok idx →
  (∀ idx' w' pk, grows idx idx' → finishes (grows idx') idx' w' [TSignal pk]) → finishes (grows idx) idx w [TConsume c id ev].
Proof.
  intros Hi Hs. apply fin_run. intros now. cbn. unfold process_consume. destruct (c_Consume c ev now w) as [[w' ok] sigs]. rewrite app_nil_r.
  apply (finishes_bind (grows idx)); [by apply finishes_signals|]. intros idx2 w2 G. destruct ok; [|by constructor].
  pose proof (finishes_MarkReady (c_Name c) id idx2 w2 (proj1 G)) as Hm. rewrite <- (app_nil_r [_]).
  apply (finishes_bind (grows idx2)); [done|]. intros idx3 w3 G3. constructor. by eapply grows_trans.
Qed.

(** A snapshot [s] of an item, at most as advanced as the item; if the item has no retries
    left although the snapshot has, then some retry was used since [n] were left. *)
Definition fresh (n : Z) idx s : Prop :=
  ∃ s', ix_items idx !! rs_stateKey s = Some s' ∧ rs_Attempts s <= rs_Attempts s' ∧ (rs_Attempts s' < MaxActivationAttempts ∨ left idx < n).

Lemma fresh_grows n idx idx' s : left idx <= n → grows idx idx' → fresh n idx s → fresh n idx' s.
Proof.
  intros Hn G (s1 & Hs1 & Ha & Hl). pose proof (proj2 G (rs_stateKey s)) as Gk. rewrite Hs1 in Gk. destruct (ix_items idx' !! rs_stateKey s) as [s2|] eqn:Hs2; [|done].
  exists s2. split; [done|]. split; [lia|]. pose proof (grows_left _ _ G) as Hle. pose proof (grows_strict _ _ _ _ _ G Hs1 Hs2) as Hst.
  destruct (decide (rs_Attempts s2 < MaxActivationAttempts)); [by left|right]. destruct Hl as [Hl|Hl]; [|lia]. unfold retries in Hst. lia.
Qed.

Lemma finishes_activations n (l : list RecognitionState) idx w : idx_ok idx → left idx <= n →
  (∀ idx' w' pk, idx_ok idx' → left idx' < n → finishes (grows idx') idx' w' [TSignal pk]) →
  (∀ s, s ∈ l → rs_Attempts s < MaxActivationAttempts → fresh n idx s) → finishes (grows idx) idx w (TActivate <$> l).
Proof.
  intros Hi Hn Hsig. revert idx w Hi Hn. induction l as [|s l IH]; intros idx w Hi Hn Hl; [constructor; by apply grows_refl|]. rewrite fmap_cons.
  apply (finishes_bind (grows idx) _ idx w [TActivate s]).
  - assert (grows idx idx) as G0 by by apply grows_refl. apply fin_run. intros now. cbn. unfold signal_activate. destruct (decide _) as [Hd|Hd].
    { rewrite app_nil_r. by apply finishes_MarkReady. }
    destruct (consumers !! _) as [c|]; [|by constructor]. destruct (get ← rm; get w (rs_EventID s)) as [ev|]; [|by constructor].
    set (idx1 := idx_IncrementAttempt _ _ _ _).
    assert (grows idx idx1) as G1 by by apply Attempt_grows.
    destruct (Hl s (list_elem_of_here _ _)) as (s' & Hs' & Ha & Hf); [lia|]. pose proof (Attempt_item _ _ now _ _ Hs') as Hs1. fold idx1 in Hs1.
    assert (left idx1 < n) as Hlt.
    { pose proof (grows_strict _ _ _ _ _ G1 Hs' Hs1) as Hst. pose proof (grows_left _ _ G1). destruct Hf as [Hf|Hf]; [|lia]. unfold retries in Hst. cbn in Hst. lia. }
    cbn. apply fin_run. intros now'. cbn. rewrite app_nil_r. unfold signal_recheck. destruct (c_Ready _ _ _ _) as [[[|] pk]|].
    + assert (finishes (grows idx1) idx1 w [TConsume c (rs_EventID s) ev]) as Hc.
      { apply finishes_Consume; [apply G1|]. intros idx2 w2 pk2 G2. apply Hsig; [apply G2|]. pose proof (grows_left _ _ G2). lia. }
      rewrite <- (app_nil_r [_]). apply (finishes_bind (grows idx1)); [done|]. intros idx2 w2 G2. constructor. by eapply grows_trans.
    + destruct (decide _); [|by constructor].
      assert (finishes (grows idx1) idx1 w [TSetDeferred (rs_ConsumerName s) (rs_EventID s) (rs_DeferredReason s) pk]) as Hc.
      { apply finishes_SetDeferred; [apply G1|]. unfold rs_stateKey in Hs1. rewrite Hs1. by eexists. }
      rewrite <- (app_nil_r [_]). apply (finishes_bind (grows idx1)); [done|]. intros idx2 w2 G2. constructor. by eapply grows_trans.
    + by constructor.
  - intros idx1 w1 G1. pose proof (grows_left _ _ G1).
    assert (finishes (grows idx1) idx1 w1 (TActivate <$> l)) as Hr.
    { apply IH; [apply G1|lia|]. intros s' Hs' Ha. apply (fresh_grows n idx); [done|done|]. apply Hl; [by right|done]. }
    rewrite <- (app_nil_r (_ <$> _)). apply (finishes_bind (grows idx1)); [done|]. intros idx2 w2 G2. constructor. by eapply grows_trans.
Qed.

Lemma finishes_Signal pk idx w : idx_ok idx → finishes (grows idx) idx w [TSignal pk].
Proof.
  remember (Z.to_nat (left idx)) as n eqn:Hn. revert pk idx w Hn. induction (lt_wf n) as [n _ IH]. intros pk idx w -> Hi.
  apply fin_run. intros now. cbn. rewrite app_nil_r. apply (finishes_activations (left idx)); [done|done| |].
  - intros idx' w' pk' Hi' Hlt. apply (IH (Z.to_nat (left idx'))); [|done|done]. pose proof (left_nonneg idx'). lia.
  - intros s Hs Ha. unfold idx_DeferredByPrerequisite in Hs. destruct (ix_prereq idx !! pk); [|set_solver].
    apply list_elem_of_omap in Hs as (key & _ & Hs). destruct (ix_items idx !! key) as [s'|] eqn:Hk; cbn in Hs; [|done].
    destruct (rs_Ready s'); [done|]. injection Hs as ->. pose proof (io_keyed idx Hi _ _ Hk) as Hkey. unfold keyed_state in Hkey. subst key.
    exists s. split; [done|]. split; [done|by left].
Qed.

(** Every step of a worker comes to an end. *)
Lemma finishes_task t idx w : idx_ok idx → task_ok idx t → finishes idx_ok idx w [t].
Proof.
  assert (∀ ts i w', finishes (grows i) i w' ts → finishes idx_ok i w' ts) as Hweak.
  { intros ts i w' Hf. rewrite <- (app_nil_r ts). apply (finishes_bind (grows i)); [done|]. intros i2 w2 G. constructor. apply G. }
  assert (∀ c id ev i w', idx_ok i → finishes (grows i) i w' [TConsume c id ev]) as Hcons.
  { intros c id ev i w' Hi. apply finishes_Consume; [done|]. intros i2 w2 pk G. apply finishes_Signal, G. }
  assert (∀ s i w', idx_ok i → rs_Recognized s = true → finishes idx_ok i w' [TPut s]) as Hput.
  { intros s i w' Hi Hr. apply fin_run. intros now. cbn. apply fin_run. intros now'. cbn. constructor. apply write_ok; [by apply put_locked_ok|].
    unfold put_locked. cbn. rewrite lookup_insert_eq. by eexists. }
  assert (∀ c id reason pk i w', idx_ok i → finishes idx_ok i w' [TSetDeferred c id reason pk]) as Hdef.
  { intros c id reason pk i w' Hi. apply fin_run. intros now. cbn. unfold step_SetDeferred. destruct (Get_cases c id i Hi) as [Hg _].
    destruct (idx_Get c id i) as [i' [s|[]]]; cbn in Hg; subst i'; try (by constructor); rewrite app_nil_r; by apply Hput. }
  assert (∀ c item i w', idx_ok i → finishes idx_ok i w' [TReady c item]) as Hready.
  { intros c item i w' Hi. apply fin_run. intros now. cbn. unfold process_ready. destruct (c_Ready _ _ _ _) as [[[|] pk]|]; cbn; [by apply Hweak, Hcons|by apply Hdef|by constructor]. }
  assert (∀ c item i w', idx_ok i → finishes idx_ok i w' [TAttempt c item]) as Hatt.
  { intros c item i w' Hi. apply fin_run. intros now. cbn. apply Hready. by apply (exec_ok i (OpIncrementAttempt _ _ now)). }
  intros Hi Ht. destruct t as [c item|c item|c item|c id ev|c id reason pk|c id|s|s|pk|s|c s ev].
  - apply fin_run. intros now. cbn. pose proof (Once_spec (c_Name c) (cr_EventID item.1) idx Hi) as Ho. unfold process_gate.
    destruct (idx_MarkRecognizedOnce _ _ idx) as [[idx' [|]] [err|]]; destruct Ho as (K & _); cbn; try (by constructor). by apply Hatt.
  - by apply Hatt.
  - by apply Hready.
  - by apply Hweak, Hcons.
  - by apply Hdef.
  - by apply Hweak, finishes_MarkReady.
  - by apply Hput.
  - apply fin_run. intros now. cbn. constructor. by apply write_ok.
  - by apply Hweak, finishes_Signal.
  - apply fin_run. intros now. cbn. unfold signal_activate. destruct (decide _); [cbn; by apply Hweak, finishes_MarkReady|].
    destruct (consumers !! _); [|by constructor]. destruct (get ← rm; get w (rs_EventID s)) as [ev|]; [|by constructor].
    cbn. apply fin_run. intros now'. cbn. rewrite app_nil_r. pose proof (exec_ok idx (OpIncrementAttempt (rs_ConsumerName s) (rs_EventID s) now) Hi) as Hi1. cbn in Hi1.
    unfold signal_recheck. destruct (c_Ready _ _ _ _) as [[[|] pk]|]; [by apply Hweak, Hcons|destruct (decide _); [by apply Hdef|by constructor]|by constructor].
  - apply fin_run. intros now. cbn. rewrite app_nil_r. unfold signal_recheck.
    destruct (c_Ready _ _ _ _) as [[[|] pk]|]; [by apply Hweak, Hcons|destruct (decide _); [by apply Hdef|by constructor]|by constructor].
Qed.

(** Ending, the worker has kept the items of the index. *)
Lemma finishes_keeps Q idx w ts : finishes Q idx w ts → idx_ok idx → Forall (task_ok idx) ts → finishes (λ i, Q i ∧ keeps idx i) idx w ts.
Proof.
  intros Hf. induction Hf as [idx w Hq|idx w t rest _ IH]; intros Hi Hts; [by constructor|]. apply Forall_cons in Hts as [Ht Hrest].
  constructor. intros now idx' w' new Hex. pose proof (exec_task_ok now rm consumers t idx w Hi Ht) as Hok. rewrite Hex in Hok. destruct Hok as (K1 & K2 & K3 & _).
  assert (Forall (task_ok idx') (new ++ rest)) as Hall.
  { apply Forall_app. split; [done|]. eapply Forall_impl; [exact Hrest|]. intros t' Ht'. by apply (task_ok_keeps idx). }
  specialize (IH now idx' w' new Hex K1 Hall). rewrite <- (app_nil_r (new ++ rest)). apply (finishes_bind (λ i, Q i ∧ keeps idx' i)); [exact IH|].
  intros i2 w2 [Hq Hk]. constructor. split; [done|]. unfold keeps in *. set_solver.
Qed.

Lemma finishes_all ts idx w : idx_ok idx → Forall (task_ok idx) ts → finishes idx_ok idx w ts.
Proof.
  revert idx w. induction ts as [|t ts IH]; intros idx w Hi Hts; [by constructor|]. apply Forall_cons in Hts as [Ht Hts].
  apply (finishes_bind (λ i, idx_ok i ∧ keeps idx i) _ idx w [t]).
  - apply finishes_keeps; [by apply finishes_task|done|by constructor].
  - intros i2 w2 [Hi2 Hk]. apply IH; [done|]. eapply Forall_impl; [exact Hts|]. intros t' Ht'. by apply (task_ok_keeps idx).
Qed.
End termination.

(** The steps that [finishes] describes, made by a worker of the bus. *)
Lemma finishes_run rm consumers Q idx w ts : finishes rm consumers Q idx w ts → ∀ b i k (clock : nat → Z),
  bus_readModel b = rm → bus_consumers b = consumers → bus_index b = idx → bus_world b = w → bus_workers b !! i = Some (Some ts) →
  ∃ n, bus_workers (foldl (λ b k, run_worker i (clock k) b) b (seq k n)) !! i = Some (Some []).
Proof.
  intros Hf. induction Hf as [idx w Hq|idx w t rest _ IH]; intros b i k clock E1 E2 E3 E4 Hi; [by exists 0%nat|].
  destruct (exec_task (clock k) rm consumers t idx w) as [[idx' w'] new] eqn:Hex.
  assert (∃ b', run_worker i (clock k) b = b' ∧ bus_readModel b' = rm ∧ bus_consumers b' = consumers ∧ bus_index b' = idx' ∧ bus_world b' = w'
    ∧ bus_workers b' !! i = Some (Some (new ++ rest))) as (b' & Hrun & F1 & F2 & F3 & F4 & F5).
  { eexists. split; [reflexivity|]. unfold run_worker. rewrite Hi, E1, E2, E3, E4, Hex. cbn. split_and!; try done.
    apply list_lookup_insert_eq. by eapply lookup_lt_Some. }
  destruct (IH (clock k) idx' w' new Hex b' i (Datatypes.S k) clock F1 F2 F3 F4 F5) as [n Hn]. exists (Datatypes.S n). cbn. by rewrite Hrun.
Qed.
End bus_inv.

(** * Consumers

    The consumers of the package, over the operations they are wired to. *)

Section consumers.
Context `{!PayloadCodec, !BudgetCodec} {St P D : Type} `{!VotePersistence P, !Persistence D PendingItem, !MetaPersistence D} {W : Type}.
Notation Engine := (Engine St P D).

(** The settlement engine as a part of the world. *)
Context (engine : W → Engine) (set_engine : Engine → W → W).

Definition ocs_submit_consumer : CommitConsumer W := {|
  c_Name := "ocs_submit";
  c_Interested ev := bool_decide (Type_ ev ∈ [EventTypeTransfer; EventTypeGeneration; EventTypeTaskSettlement]);
  c_Ready _ _ _ := Some (true, "");
  c_Consume ev now w :=
    let '(e, err, signal) := ocs_submit_Consume ev now (engine w) in
    (set_engine e w, bool_decide (err = None), match signal with Some key => [key] | None => [] end);
|}.

Definition ocs_vote_consumer (unmarshal_ocs_vote : string → option VotePayload) : CommitConsumer W := {|
  c_Name := "ocs_vote";
  c_Interested ev := bool_decide (Type_ ev = EventTypeVerificationVote);
  c_Ready ev rm w :=
    match ocs_vote_Ready unmarshal_ocs_vote ((λ get id, bool_decide (is_Some (get w id))) <$> rm) ev (engine w) with
    | Some key => Some (false, key)
    | None => Some (true, "")
    end;
  c_Consume ev now w :=
    let '(e, _, err) := ocs_vote_Consume unmarshal_ocs_vote ev now (engine w) in (set_engine e w, bool_decide (err = None), []);
|}.
End consumers.

Definition PrerequisiteKeyTaskMetadata (taskID : string) : string := "task_metadata:" +:+ taskID.

(** [TaskLifecycleConsumer]; [ApplyDAGEvent] is the task manager's. *)
Definition task_lifecycle_consumer {W : Type} (ApplyDAGEvent : Event → Z → W → W) (unmarshal_task_id : string → option string) : CommitConsumer W := {|
  c_Name := "task_lifecycle";
  c_Interested ev := bool_decide (Type_ ev ∈ [EventTypeTaskPosted; EventTypeTaskClaimed; EventTypeTaskSubmitted; EventTypeTaskApproved; EventTypeTaskDisputed]);
  c_Ready _ _ _ := Some (true, "");
  c_Consume ev now w :=
    (ApplyDAGEvent ev now w, true,
     if decide (Type_ ev = EventTypeTaskPosted)
     then match GetPayload unmarshal_task_id ev with
          | Some taskID => if decide (taskID ≠ "") then [PrerequisiteKeyTaskMetadata taskID] else []
          | None => []
          end
     else []);
|}.

Definition PrerequisiteKeyEvidenceBlob (blobHash : string) : string := "evidence_blob:" +:+ blobHash.

Record taskSubmittedPayload := mkTaskSubmitted { ts_TaskID : string; ts_EvidenceBodyHash : string }.

(** [EvidenceReadinessConsumer]; without a checker a blob counts as present. *)
Definition evidence_consumer {W : Type} (MarkEvidenceReady : string → W → W) (has : option (string → W → option bool))
    (unmarshal_submitted : string → option taskSubmittedPayload) : CommitConsumer W := {|
  c_Name := "evidence_readiness";
  c_Interested ev := bool_decide (Type_ ev = EventTypeTaskSubmitted);
  c_Ready ev _ w :=
    Some (match GetPayload unmarshal_submitted ev with
          | None => (true, "")
          | Some tp =>
              if decide (ts_EvidenceBodyHash tp = "") then (true, "")
              else match has with
              | None => (true, "")
              | Some has =>
                  match has (ts_EvidenceBodyHash tp) w with
                  | Some true => (true, "")
                  | _ => (false, PrerequisiteKeyEvidenceBlob (ts_EvidenceBodyHash tp))
                  end
              end
          end);
  c_Consume ev _ w := (match GetPayload unmarshal_submitted ev with Some tp => MarkEvidenceReady (ts_TaskID tp) w | None => w end, true, []);
|}.

(** * The properties *)

(** C11: whatever the workers interleave, with a store that may fail: each pair of a
    consumer and an event passes the gate of the bus at most once, every pair that passed
    is recorded as recognised, and the queue never exceeds its size. *)
Theorem bus_dispatches_once `{!StateCodec, !RangeOrder} {S W : Type} `{!IndexStore S, !IndexLaws S}
    cfg (store : option S) rm (w : W) (ops : list (bus_op (W := W))) :
  (∀ st, store = Some st → ix_view st = ∅) →
  let b := foldl bus_exec (NewBus cfg (NewIndex store) rm w) ops in
  NoDup (bus_dispatched b) ∧ QueueDepth b <= bc_QueueSize (bus_config b)
  ∧ ∀ key, key ∈ bus_dispatched b → ∃ s, ix_items (bus_index b) !! key = Some s ∧ rs_Recognized s = true.
Proof.
  intros Hst b. destruct (bus_run_ok ops _ (NewBus_ok cfg _ rm w (new_ok store Hst))) as [K1 K2 K3 K4 K5]. split; [done|]. split; [done|].
  intros key Hin. apply K4, elem_of_dom in Hin as [s Hs]. exists s. split; [done|]. by apply (io_recognized _ K1 key).
Qed.

(** C12: in every state the workers can reach, the map of prerequisites finds exactly the
    pairs that a scan of all states finds: those deferred for that prerequisite. *)
Theorem deferred_index_exact `{!StateCodec, !RangeOrder} {S W : Type} `{!IndexStore S, !IndexLaws S}
    cfg (store : option S) rm (w : W) (ops : list (bus_op (W := W))) pk :
  (∀ st, store = Some st → ix_view st = ∅) →
  let b := foldl bus_exec (NewBus cfg (NewIndex store) rm w) ops in
  idx_DeferredByPrerequisite pk (bus_index b) ≡ₚ deferred_scan pk (bus_index b).
Proof. intros Hst b. apply deferred_exact, (io_exact (bus_index b)), (bus_run_ok ops), NewBus_ok, new_ok, Hst. Qed.

(** C13: a worker that is left to run finishes its item, whatever the consumers do, even
    when they signal the prerequisites of each other: the bound on the attempts
    ends the nested activations. *)
Theorem worker_terminates `{!StateCodec, !RangeOrder} {S W : Type} `{!IndexStore S, !IndexLaws S}
    cfg (store : option S) rm (w : W) (ops : list (bus_op (W := W))) i ts (clock : nat → Z) :
  (∀ st, store = Some st → ix_view st = ∅) →
  let b := foldl bus_exec (NewBus cfg (NewIndex store) rm w) ops in
  bus_workers b !! i = Some (Some ts) →
  ∃ n, bus_workers (foldl (λ b k, run_worker i (clock k) b) b (seq 0 n)) !! i = Some (Some []).
Proof.
  intros Hst b Hi. assert (bus_ok b) as Hb by (apply bus_run_ok, NewBus_ok, new_ok, Hst).
  apply (finishes_run _ _ idx_ok _ _ ts (finishes_all (bus_readModel b) (bus_consumers b) ts (bus_index b) (bus_world b) (bo_index b Hb)
    (proj2 (Forall_forall _ _) (λ t, bo_tasks b Hb i ts t Hi)))); done.
Qed.

(** An index whose writes succeed is restored from its store: loading gives the same
    states and the same map of prerequisites. *)
Theorem index_restart `{!StateCodec, !StateCodecOk} {S : Type} `{!IndexStore S, !IndexLaws S} (ops : list idx_op) (st0 : S) idx st :
  (∀ s, is_Some (marshal_state s)) → (∀ key data (s : S), (ix_put key data s).2 = true) → ix_view st0 = ∅ →
  foldl idx_exec (NewIndex (Some st0)) ops = idx → ix_store idx = Some st →
  ∀ idx', idx_LoadFromStore (NewIndex (Some st)) = (idx', None) → ix_items idx' = ix_items idx ∧ ix_prereq idx' = ix_prereq idx.
Proof.
  intros Hm Hr Hv Hrun Hst idx' Hl. assert (idx_ok (NewIndex (Some st0))) as Hi0 by (apply new_ok; by intros ? [= ->]).
  assert (synced (NewIndex (Some st0))) as Hs0 by (split; [by eexists|]; intros k; unfold stored; cbn; by rewrite Hv).
  pose proof (run_ok ops _ Hi0) as Hi. pose proof (run_synced Hm Hr ops _ Hi0 Hs0) as [_ Hs]. rewrite Hrun in Hi, Hs.
  assert (∀ k, stored k idx = data ← ix_view st !! k; unmarshal_state data) as Hstored by (intros k; unfold stored; by rewrite Hst).
  destruct (load_spec st) with (idx := idx') as (Hi' & Hst' & Hitems); [|done|].
  - intros k data Hd s Hu. cbn in Hu. specialize (Hs k). rewrite Hstored, Hd in Hs. cbn in Hs. rewrite Hu in Hs. symmetry in Hs.
    split; [exact (io_recognized idx Hi _ _ Hs)|exact (io_keyed idx Hi _ _ Hs)].
  - assert (ix_items idx' = ix_items idx) as Heq.
    { apply map_eq. intros k. rewrite Hitems, <- Hs, Hstored. unfold stored. by rewrite Hst'. }
    split; [done|]. apply (exact_unique (ix_items idx)); [|apply Hi]. rewrite <- Heq. apply Hi'.
Qed.

(** * A node with two workers *)

#[global] Program Instance memory_index_laws : IndexLaws (gmap string string) := {| ix_view m := m |}.
Next Obligation. done. Qed.
Next Obligation. intros key data s. cbn. done. Qed.
Next Obligation. intros key s r. cbn. congruence. Qed.
Next Obligation.
  intros s l [= <-]. assert (∀ l : list (string * string), List.filter (λ kd, String.prefix "" kd.1) l = l) as ->; [|done].
  induction l as [|kd l IH]; [done|]. cbn. destruct kd.1; by rewrite IH.
Qed.

Module DemoBus.
#[global] Existing Instances DemoOcs.demo_codec DemoOcs.demo_budget.

(** States as bit strings. *)
#[global] Instance state_codec : StateCodec := {|
  marshal_state s :=
    Some (RoundStore.DemoDB.bits (encode ((rs_ConsumerName s, rs_EventID s), (rs_Recognized s, rs_Ready s),
      (rs_DeferredReason s, rs_PrerequisiteKey s), (rs_LastAttemptUnix s, rs_Attempts s))));
  unmarshal_state d :=
    x ← decode (A := (string * string) * (bool * bool) * (string * string) * (Z * Z)) (RoundStore.DemoDB.positive_of d);
    Some (mkRecognition x.1.1.1.1 x.1.1.1.2 x.1.1.2.1 x.1.1.2.2 x.1.2.1 x.1.2.2 x.2.1 x.2.2);
|}.

#[global] Instance state_codec_ok : StateCodecOk.
Proof.
  intros s data [= <-]. unfold unmarshal_state. cbn [state_codec]. rewrite RoundStore.DemoDB.positive_of_bits, decode_encode. by destruct s.
Qed.

Notation World := (Engine (KeyedStore fp_AgentID) (list PersistedVote) (KeyedStore pi_EventID)) (only parsing).

(** A payload of a vote is its target; "ka" accepts. *)
Definition vote_payload (target : string) : option VotePayload := Some (mkOcsVote target "ka" "accepted" 0).

Definition vote_event : Event := mkEvent "v1" EventTypeVerificationVote None (Some "t1") "ka" [] 0 0 SettlementOptimistic.

(** The graph has the transfer and the vote on it. *)
Definition graph : ReadModel World := λ _ id,
  if decide (id = "t1") then Some (DemoOcs.transfer "t1") else if decide (id = "v1") then Some vote_event else None.

Definition submit : CommitConsumer World := ocs_submit_consumer (λ e, e) (λ e _, e).
Definition votes : CommitConsumer World := ocs_vote_consumer (λ e, e) (λ e _, e) vote_payload.

Notation DemoB := (Bus (gmap string string) World).

Definition start : DemoB := NewBus DefaultBusConfig (NewIndex (Some ∅)) (Some graph) DemoOcs.start.

Definition wired : list (bus_op (W := World)) :=
  [BRegister submit; BRegister votes; BStart; BEmit vote_event SourceLocal false 1; BEmit (DemoOcs.transfer "t1") SourceLocal false 2].

Definition steps (i n : nat) : list (bus_op (W := World)) := repeat (BRun i 3) n.

(** The worker of the vote finishes before the transfer is dispatched. *)
Definition in_order : list (bus_op (W := World)) := wired ++ [BTake 0] ++ steps 0 9 ++ [BTake 1] ++ steps 1 20.

(** The transfer is submitted between the test of the vote and its deferral. *)
Definition racing : list (bus_op (W := World)) := wired ++ [BTake 0] ++ steps 0 3 ++ [BTake 1] ++ steps 1 20 ++ steps 0 9.

Definition run (ops : list (bus_op (W := World))) : DemoB := foldl bus_exec start ops.

Definition idle (b : DemoB) : bool :=
  forallb (λ w, match w with Some [] => true | _ => false end) (bus_workers b) && bool_decide (bus_queue b = []).
End DemoBus.

(** In order: the vote is deferred, the transfer wakes it and it is counted. *)
Example demo_in_order :
  let b := DemoBus.run DemoBus.in_order in
  DemoBus.idle b = true ∧ idx_Stats (bus_index b) = mkStats 2 2 2 0
  ∧ idx_DeferredByPrerequisite (PrerequisiteKeyOCSPending "t1") (bus_index b) = [].
Proof. split_and!; vm_compute; reflexivity. Qed.

Lemma bus_dispatches_once_witness :
  let b := DemoBus.run DemoBus.racing in NoDup (bus_dispatched b) ∧ length (bus_dispatched b) = 2%nat.
Proof.
  split; [|vm_compute; reflexivity].
  exact (proj1 (bus_dispatches_once DefaultBusConfig (Some ∅) (Some DemoBus.graph) DemoOcs.start DemoBus.racing
    (λ st Hst, eq_sym (Some_inj _ _ Hst)))).
Defined.

Lemma deferred_index_exact_witness :
  let b := DemoBus.run DemoBus.racing in
  idx_DeferredByPrerequisite (PrerequisiteKeyOCSPending "t1") (bus_index b) ≡ₚ deferred_scan (PrerequisiteKeyOCSPending "t1") (bus_index b).
Proof.
  exact (deferred_index_exact DefaultBusConfig (Some ∅) (Some DemoBus.graph) DemoOcs.start DemoBus.racing (PrerequisiteKeyOCSPending "t1")
    (λ st Hst, eq_sym (Some_inj _ _ Hst))).
Defined.

Lemma worker_terminates_witness :
  let b := DemoBus.run (DemoBus.wired ++ [BTake 0]) in
  ∃ n, bus_workers (foldl (λ b k, run_worker 0 (Z.of_nat k) b) b (seq 0 n)) !! 0%nat = Some (Some []).
Proof.
  exact (worker_terminates DefaultBusConfig (Some ∅) (Some DemoBus.graph) DemoOcs.start (DemoBus.wired ++ [BTake 0]) 0
    [TGate DemoBus.votes (mkCommit "v1" EventTypeVerificationVote SourceLocal false 1, DemoBus.vote_event)] Z.of_nat
    (λ st Hst, eq_sym (Some_inj _ _ Hst)) eq_refl).
Defined.

Lemma demo_marshals s : is_Some (marshal_state s).
Proof. by eexists. Qed.

Lemma memory_reliable key data (m : gmap string string) : (ix_put key data m).2 = true.
Proof. reflexivity. Qed.

Lemma memory_empty : ix_view (∅ : gmap string string) = ∅.
Proof. reflexivity. Qed.

Definition demo_index_ops : list idx_op :=
  [OpMarkRecognizedOnce "ocs_vote" "v1"; OpIncrementAttempt "ocs_vote" "v1" 5; OpSetDeferred "ocs_vote" "v1" "k" "k"; OpMarkRecognizedOnce "ocs_submit" "t1";
   OpMarkReady "ocs_submit" "t1"].

Definition demo_index : Index (gmap string string) := foldl idx_exec (NewIndex (Some ∅)) demo_index_ops.

Lemma index_restart_witness :
  let idx' := (idx_LoadFromStore (NewIndex (ix_store demo_index))).1 in
  ix_items idx' = ix_items demo_index ∧ ix_prereq idx' = ix_prereq demo_index ∧ idx_DeferredByPrerequisite "k" idx' ≠ [].
Proof.
  assert (∀ st, idx_LoadFromStore (NewIndex (Some st)) = ((idx_LoadFromStore (NewIndex (Some st))).1, None)) as Hl by (intros st; reflexivity).
  assert (ix_store demo_index = Some (default ∅ (ix_store demo_index))) as Hst by (vm_compute; reflexivity).
  cbv zeta. split; [|split; [|vm_compute; discriminate]]; rewrite Hst;
    apply (index_restart demo_index_ops (∅ : gmap string string) demo_index (default ∅ (ix_store demo_index)) demo_marshals memory_reliable
      memory_empty eq_refl Hst _ (Hl _)).
Defined.

(** ** Findings *)

(** A lost wake-up: the signal falls between the readiness test of the vote and its
    deferral.  The vote then waits for a prerequisite that is met already. *)
Lemma lost_wakeup :
  let b := DemoBus.run DemoBus.racing in
  DemoBus.idle b = true
  ∧ rs_EventID <$> idx_DeferredByPrerequisite (PrerequisiteKeyOCSPending "t1") (bus_index b) = ["v1"]
  ∧ c_Ready DemoBus.votes DemoBus.vote_event (Some DemoBus.graph) (bus_world b) = Some (true, "").
Proof. split_and!; vm_compute; reflexivity. Qed.

(** A pair whose consumption failed is recognised and waits for nothing: no activation
    finds it, and emitting the event again does not dispatch it. *)
Lemma failed_consume_final `{!StateCodec, !RangeOrder} {S W : Type} `{!IndexStore S, !IndexLaws S} (idx : Index S) (c : CommitConsumer W)
    (item : commitItem) (s : RecognitionState) (now : Z) (w w' : W) :
  idx_ok idx → ix_items idx !! stateKey (c_Name c) (cr_EventID item.1) = Some s → rs_PrerequisiteKey s = "" →
  c_Consume c item.2 now w = (w', false, []) →
  process_consume c (cr_EventID item.1) item.2 now w = (w', [])
  ∧ process_gate c item idx = (idx, []) ∧ ∀ pk, s ∉ idx_DeferredByPrerequisite pk idx.
Proof.
  intros Hi Hk Hpk Hc. split_and!.
  - unfold process_consume. by rewrite Hc.
  - unfold process_gate, idx_MarkRecognizedOnce. by rewrite Hk, (io_recognized idx Hi _ _ Hk).
  - intros pk Hin. rewrite (deferred_exact idx pk (io_exact idx Hi)) in Hin. apply list_elem_of_filter in Hin as [(Hne & Heq & _) _]. congruence.
Qed.

(** A committed event that finds the queue full is dropped without a trace. *)
Lemma full_queue_drops `{!StateCodec, !RangeOrder} {S W : Type} `{!IndexStore S} (b : Bus S W) ev source replay now :
  bc_QueueSize (bus_config b) <= QueueDepth b → EmitCommit ev source replay now b = b.
Proof. intros Hq. unfold EmitCommit, Emit. unfold QueueDepth in Hq. by rewrite decide_False by lia. Qed.
