(* ===== verification/Blobs.v ===== *)
(** internal/blobstore and internal/blobsync: content-addressed blobs and their
    fetching from peers.

    The disk of [FSStore] is the class [Disk]: what the program relies on of the
    file system, an atomic installation by renaming included.  A hash is the list of its 32
    bytes, or its hexadecimal string where the code uses one.  A channel that a subscriber
    waits on is a number, and closing it puts the number in the set of closed ones.
    The network is the class [BlobFetcher]; peers answer whatever they like. *)

From stdpp Require Import sets fin_sets fin_map_dom.
From S2P Require Import Prelude GoStd Store Event Float64 Jcs Tasks.
#[local] Open Scope Z_scope.

(** * References *)

Inductive BlobError :=
  | ErrInvalidHash
  | ErrBlobNotFound
  | ErrHashMismatch
  | ErrBlobTooLarge
  | ErrDisk.

(** [BlobKind], a byte. *)
Notation BlobKind := Z (only parsing).
Definition BlobKindEvidence : BlobKind := 0.
Definition BlobKindManifest : BlobKind := 1.
Definition BlobKindMethodology : BlobKind := 2.
Definition BlobKindTrajectory : BlobKind := 3.
Definition BlobKindCitation : BlobKind := 4.
Definition BlobKindDiagnostic : BlobKind := 5.
Definition BlobKindArchival : BlobKind := 6.

Definition blobKindNames (k : BlobKind) : option string :=
  match k with
  | 0 => Some "evidence" | 1 => Some "manifest" | 2 => Some "methodology" | 3 => Some "trajectory"
  | 4 => Some "citation" | 5 => Some "diagnostic" | 6 => Some "archival" | _ => None
  end.

Definition BlobKind_String (k : BlobKind) : string :=
  match blobKindNames k with Some name => name | None => "BlobKind(" +:+ fmt_d k +:+ ")" end.

Notation Hash := (list Z) (only parsing).

Record BlobRef := mkBlobRef {
  br_Hash : Hash;
  br_Kind : BlobKind;
  br_SizeHint : Z;
  br_RequiredForConsensus : bool;
  br_OriginNodeHint : string;
  br_PersistenceClass : Z;
}.

Definition kind_blocking (k : BlobKind) : bool := bool_decide (k = BlobKindEvidence ∨ k = BlobKindManifest ∨ k = BlobKindTrajectory).

Definition ConsensusBlocking (b : BlobRef) : bool := kind_blocking (br_Kind b).

Definition HexHash (b : BlobRef) : string := hex_encode (br_Hash b).

Definition NewBlobRef (hexHash : string) (kind : BlobKind) (originHint : string) : option BlobRef :=
  if decide (String.length hexHash ≠ 64%nat) then None
  else
    decoded ← hex_decode hexHash;
    let required := kind_blocking kind in
    Some (mkBlobRef decoded kind 0 required originHint (if required then 0 else 1)).

(** * The store on disk *)

(** [Store]. *)
Class BlobStore (S : Type) : Type := {
  blob_Put : list Z → S → S * (string * Z + BlobError);
  blob_Get : string → S → list Z + BlobError;
  blob_Has : string → S → bool + BlobError;
  blob_Delete : string → S → S * option BlobError;
}.

Inductive FileInfo := FileSize (size : Z) | NoFile | FileError.
Inductive FileContent := FileData (data : list Z) | NoContent | ContentError.

(** [os.Stat]; the directories, the temporary file and the rename of [Put]; reading;
    [os.Remove], whose failure on a missing file is no failure here. *)
Class Disk (D : Type) : Type := {
  disk_stat : string → D → FileInfo;
  disk_install : string → list Z → D → D * bool;
  disk_read : string → D → FileContent;
  disk_remove : string → D → D * bool;
}.

Record FSStore (D : Type) := mkFSStore { fs_root : string; fs_maxBlobSize : Z; fs_disk : D }.
#[global] Arguments mkFSStore {D} _ _ _.
#[global] Arguments fs_root {D} _.
#[global] Arguments fs_maxBlobSize {D} _.
#[global] Arguments fs_disk {D} _.

Definition DefaultMaxBlobSize : Z := 10 * 1024 * 1024.

Definition NewFSStore {D} (root : string) (maxBlobSize : Z) (d : D) : FSStore D :=
  mkFSStore root (if decide (maxBlobSize <= 0) then DefaultMaxBlobSize else maxBlobSize) d.

Definition hash_char (c : Ascii.ascii) : bool :=
  let n := Z.of_nat (Ascii.nat_of_ascii c) in bool_decide (48 <= n <= 57 ∨ 97 <= n <= 102).

(** [isValidHash]: the pattern [^[0-9a-f]{64}$]. *)
Definition isValidHash (h : string) : bool := bool_decide (String.length h = 64%nat) && all_chars hash_char h.

Section fs.
Context {D : Type} `{!Disk D}.
Implicit Types (s : FSStore D).

Definition blobPath (hash : string) s : string :=
  fs_root s +:+ "/" +:+ String.substring 0 2 hash +:+ "/" +:+ String.substring 2 2 hash +:+ "/" +:+ hash.

Definition hash_of (data : list Z) : string := hex_encode (Sha256.Sum256 data).

Definition fs_Put (data : list Z) s : FSStore D * (string * Z + BlobError) :=
  let size := Z.of_nat (length data) in
  if decide (fs_maxBlobSize s < size) then (s, inr ErrBlobTooLarge)
  else
    let hash := hash_of data in
    let present := match disk_stat (blobPath hash s) (fs_disk s) with FileSize n => bool_decide (n = size) | _ => false end in
    if present then (s, inl (hash, size))
    else let '(d, ok) := disk_install (blobPath hash s) data (fs_disk s) in
         (mkFSStore (fs_root s) (fs_maxBlobSize s) d, if ok : bool then inl (hash, size) else inr ErrDisk).

Definition fs_Get (hash : string) s : list Z + BlobError :=
  if negb (isValidHash hash) then inr ErrInvalidHash
  else match disk_read (blobPath hash s) (fs_disk s) with
  | NoContent => inr ErrBlobNotFound
  | ContentError => inr ErrDisk
  | FileData data => if decide (hash_of data ≠ hash) then inr ErrHashMismatch else inl data
  end.

Definition fs_Has (hash : string) s : bool + BlobError :=
  if negb (isValidHash hash) then inr ErrInvalidHash
  else match disk_stat (blobPath hash s) (fs_disk s) with FileSize _ => inl true | NoFile => inl false | FileError => inr ErrDisk end.

Definition fs_Delete (hash : string) s : FSStore D * option BlobError :=
  if negb (isValidHash hash) then (s, Some ErrInvalidHash)
  else let '(d, ok) := disk_remove (blobPath hash s) (fs_disk s) in
       (mkFSStore (fs_root s) (fs_maxBlobSize s) d, if ok : bool then None else Some ErrDisk).

#[global] Instance fs_store : BlobStore (FSStore D) :=
  {| blob_Put := fs_Put; blob_Get := fs_Get; blob_Has := fs_Has; blob_Delete := fs_Delete |}.
End fs.

(** * Subscriptions *)

(** [subscriberRegistry] with the channels it has made: the next channel and the
    closed ones. *)
Record Subscribers := mkSubs { sub_waiting : gmap Hash (list nat); sub_next : nat; sub_closed : gset nat }.

Definition newSubscriberRegistry : Subscribers := mkSubs ∅ 0 ∅.

Definition subscribe (hash : Hash) (r : Subscribers) : Subscribers * nat :=
  (mkSubs (<[hash := default [] (sub_waiting r !! hash) ++ [sub_next r]]> (sub_waiting r)) (S (sub_next r)) (sub_closed r), sub_next r).

Definition signal (hash : Hash) (r : Subscribers) : Subscribers :=
  mkSubs (delete hash (sub_waiting r)) (sub_next r) (list_to_set (default [] (sub_waiting r !! hash)) ∪ sub_closed r).

(** A channel that is closed at once. *)
Definition closed_channel (r : Subscribers) : Subscribers * nat :=
  (mkSubs (sub_waiting r) (S (sub_next r)) ({[sub_next r]} ∪ sub_closed r), sub_next r).

Record SubscribableStore (S : Type) := mkSubStore { ss_inner : S; ss_subs : Subscribers }.
#[global] Arguments mkSubStore {S} _ _.
#[global] Arguments ss_inner {S} _.
#[global] Arguments ss_subs {S} _.

Section subscribable.
Context {S : Type} `{!BlobStore S}.
Implicit Types (s : SubscribableStore S).

Definition NewSubscribableStore (inner : S) : SubscribableStore S := mkSubStore inner newSubscriberRegistry.

Definition ss_Put (data : list Z) s : SubscribableStore S * (string * Z + BlobError) :=
  let '(inner, res) := blob_Put data (ss_inner s) in
  match res with
  | inr err => (mkSubStore inner (ss_subs s), inr err)
  | inl (hash, size) =>
      let subs := match hex_decode hash with
                  | Some h => if decide (length h = 32%nat) then signal h (ss_subs s) else ss_subs s
                  | None => ss_subs s
                  end in
      (mkSubStore inner subs, inl (hash, size))
  end.

Definition ss_Get (hash : string) s : list Z + BlobError := blob_Get hash (ss_inner s).
Definition ss_Has (hash : string) s : bool + BlobError := blob_Has hash (ss_inner s).
Definition ss_Delete (hash : string) s : SubscribableStore S * option BlobError :=
  let '(inner, err) := blob_Delete hash (ss_inner s) in (mkSubStore inner (ss_subs s), err).

Definition PutVerified (ref : BlobRef) (data : list Z) s : SubscribableStore S * option BlobError :=
  if decide (Sha256.Sum256 data ≠ br_Hash ref) then (s, Some ErrHashMismatch)
  else let '(inner, res) := blob_Put data (ss_inner s) in
       match res with
       | inr err => (mkSubStore inner (ss_subs s), Some err)
       | inl _ => (mkSubStore inner (signal (br_Hash ref) (ss_subs s)), None)
       end.

Definition HasByHash (hash : Hash) s : bool := match blob_Has (hex_encode hash) (ss_inner s) with inl b => b | inr _ => false end.

Definition GetByHash (hash : Hash) s : list Z + BlobError := blob_Get (hex_encode hash) (ss_inner s).

(** [Subscribe]: the test for the blob, then the subscription; the locks are
    released in between. *)
Definition Subscribe_rest (exists_ : bool) (hash : Hash) s : SubscribableStore S * nat :=
  let '(subs, ch) := if exists_ then closed_channel (ss_subs s) else subscribe hash (ss_subs s) in (mkSubStore (ss_inner s) subs, ch).

Definition Subscribe (hash : Hash) s : SubscribableStore S * nat := Subscribe_rest (HasByHash hash s) hash s.

(** [WaitForBlob] returns when the channel is closed or its context ends. *)
Definition wait_over (ch : nat) s : bool := bool_decide (ch ∈ sub_closed (ss_subs s)).
End subscribable.

(** * References in events *)

Notation BlobRefExtractor := (option string → option (list BlobRef)) (only parsing).

Definition registryKey (eventType payloadVersion : string) : string := eventType +:+ ":" +:+ payloadVersion.

Definition brr_Register (eventType payloadVersion : string) (extractor : BlobRefExtractor) (r : gmap string BlobRefExtractor) :
    gmap string BlobRefExtractor * bool :=
  match r !! registryKey eventType payloadVersion with
  | Some _ => (r, false)
  | None => (<[registryKey eventType payloadVersion := extractor]> r, true)
  end.

Definition brr_Extract (eventType payloadVersion : string) (payload : option string) (r : gmap string BlobRefExtractor) : option (list BlobRef) :=
  match r !! registryKey eventType payloadVersion with
  | Some extractor => extractor payload
  | None =>
      if decide (payloadVersion ≠ "") then
        match r !! registryKey eventType "" with Some extractor => extractor payload | None => Some [] end
      else Some []
  end.

(** [unmarshal_evidence] gives the field evidence_body_hash. *)
Definition extractTaskSubmittedBlobs (unmarshal_evidence : string → option string) : BlobRefExtractor := λ payload,
  hash ← (payload ≫= unmarshal_evidence);
  if decide (hash = "") then Some []
  else Some (match NewBlobRef hash BlobKindEvidence "" with Some ref => [ref] | None => [] end).

Definition RegisterBootstrapExtractors (unmarshal_evidence : string → option string) (r : gmap string BlobRefExtractor) : gmap string BlobRefExtractor :=
  (brr_Register EventTypeTaskSubmitted "" (extractTaskSubmittedBlobs unmarshal_evidence) r).1.

(** * Hints *)

Record HolderHint := mkHolderHint { hh_BlobHash : Hash; hh_HolderPeerID : string; hh_ValidUntilUnix : Z; hh_Signature : list Z }.

Record HolderHintCache := mkHintCache {
  hc_hints : gmap Hash (list HolderHint);
  hc_accessOrder : list Hash;
  hc_maxSize : Z;
  hc_blacklist : gmap string Z;
}.

Definition NewHolderHintCache (maxSize : Z) : HolderHintCache :=
  mkHintCache ∅ [] (if decide (maxSize <= 0) then 1000000 else maxSize) ∅.

(** The loop of [Add] over [accessOrder]. *)
Fixpoint hc_evict (maxSize : Z) (hints : gmap Hash (list HolderHint)) (order : list Hash) : gmap Hash (list HolderHint) * list Hash :=
  match order with
  | [] => (hints, [])
  | oldest :: order' =>
      if decide (maxSize <= Z.of_nat (size hints)) then hc_evict maxSize (delete oldest hints) order' else (hints, order)
  end.

(** The entry of the same peer, replaced in place. *)
Fixpoint update_peer (hint : HolderHint) (l : list HolderHint) : option (list HolderHint) :=
  match l with
  | [] => None
  | h :: l' =>
      if decide (hh_HolderPeerID h = hh_HolderPeerID hint) then Some (hint :: l')
      else match update_peer hint l' with Some l'' => Some (h :: l'') | None => None end
  end.

Definition hc_Add (now : Z) (hint : HolderHint) (c : HolderHintCache) : HolderHintCache :=
  if decide (hh_ValidUntilUnix hint <= now) then c
  else
    let '(hints, order) := hc_evict (hc_maxSize c) (hc_hints c) (hc_accessOrder c) in
    let existing := default [] (hints !! hh_BlobHash hint) in
    match update_peer hint existing with
    | Some l => mkHintCache (<[hh_BlobHash hint := l]> hints) order (hc_maxSize c) (hc_blacklist c)
    | None => mkHintCache (<[hh_BlobHash hint := existing ++ [hint]]> hints) (order ++ [hh_BlobHash hint]) (hc_maxSize c) (hc_blacklist c)
    end.

Definition hint_usable (now : Z) (blacklist : gmap string Z) (h : HolderHint) : bool :=
  bool_decide (now < hh_ValidUntilUnix h) &&
  match blacklist !! hh_HolderPeerID h with Some until => negb (bool_decide (now < until)) | None => true end.

Definition hc_Get (now : Z) (hash : Hash) (c : HolderHintCache) : list HolderHint :=
  List.filter (hint_usable now (hc_blacklist c)) (default [] (hc_hints c !! hash)).

Fixpoint remove_peer (peerID : string) (l : list HolderHint) : list HolderHint :=
  match l with
  | [] => []
  | h :: l' => if decide (hh_HolderPeerID h = peerID) then l' else h :: remove_peer peerID l'
  end.

Definition hc_Remove (hash : Hash) (peerID : string) (c : HolderHintCache) : HolderHintCache :=
  match hc_hints c !! hash with
  | None => c
  | Some l => mkHintCache (<[hash := remove_peer peerID l]> (hc_hints c)) (hc_accessOrder c) (hc_maxSize c) (hc_blacklist c)
  end.

(** [time.Now().Add(duration).Unix()], with [now] and the duration in nanoseconds. *)
Definition hc_Blacklist (now_ns : Z) (peerID : string) (duration : Z) (c : HolderHintCache) : HolderHintCache :=
  mkHintCache (hc_hints c) (hc_accessOrder c) (hc_maxSize c) (<[peerID := (now_ns + duration) / 1000000000]> (hc_blacklist c)).

Definition hc_Size (c : HolderHintCache) : Z := Z.of_nat (size (hc_hints c)).

(** * Policies *)

Record BlobFetchPolicy := mkFetchPolicy {
  fp_MaxRetries : Z;
  fp_InitialBackoffMs : Z;
  fp_MaxBackoffMs : Z;
  fp_OriginFirst : bool;
  fp_DiscoveryFanout : Z;
  fp_PerFetchTimeoutMs : Z;
  fp_TotalDeadlineMs : Z;
  fp_AbstainOnExhaustion : bool;
}.

Definition ConsensusBlockingPolicy : BlobFetchPolicy := mkFetchPolicy 5 100 2000 true 3 10000 30000 true.
Definition InformationalPolicy : BlobFetchPolicy := mkFetchPolicy 2 500 5000 true 1 15000 60000 false.

Definition PolicyForBlobKind (kind : BlobKind) : BlobFetchPolicy :=
  if ConsensusBlocking (mkBlobRef [] kind 0 false "" 0) then ConsensusBlockingPolicy else InformationalPolicy.

(** * Serving reputation *)

Definition u32 (z : Z) : Z := z mod 4294967296.

Record peerServingStats := mkServing { ps_Successes : Z; ps_Failures : Z; ps_Timeouts : Z; ps_TotalLatency : Z; ps_LastUpdated : Z }.

Notation BlobServingReputation := (gmap string peerServingStats) (only parsing).

(** [getOrCreate] with the change that follows it. *)
Definition with_stats (peerID : string) (f : peerServingStats → peerServingStats) (r : BlobServingReputation) : BlobServingReputation :=
  <[peerID := f (default (mkServing 0 0 0 0 0) (r !! peerID))]> r.

Definition bsr_RecordSuccess (now : Z) (peerID : string) (latency : Z) : BlobServingReputation → BlobServingReputation :=
  with_stats peerID (λ s, mkServing (u32 (ps_Successes s + 1)) (ps_Failures s) (ps_Timeouts s) (i64 (ps_TotalLatency s + latency)) now).
Definition bsr_RecordFailure (now : Z) (peerID : string) : BlobServingReputation → BlobServingReputation :=
  with_stats peerID (λ s, mkServing (ps_Successes s) (u32 (ps_Failures s + 1)) (ps_Timeouts s) (ps_TotalLatency s) now).
Definition bsr_RecordTimeout (now : Z) (peerID : string) : BlobServingReputation → BlobServingReputation :=
  with_stats peerID (λ s, mkServing (ps_Successes s) (ps_Failures s) (u32 (ps_Timeouts s + 1)) (ps_TotalLatency s) now).

Definition bsr_SuccessRate (peerID : string) (r : BlobServingReputation) : F64 :=
  match r !! peerID with
  | None => f64_one
  | Some s =>
      let total := u32 (u32 (ps_Successes s + ps_Failures s) + ps_Timeouts s) in
      if decide (total = 0) then f64_one else f64_ratio (ps_Successes s) total
  end.

Definition bsr_AverageLatency (peerID : string) (r : BlobServingReputation) : Z :=
  match r !! peerID with
  | None => 0
  | Some s => if decide (ps_Successes s = 0) then 0 else Z.quot (ps_TotalLatency s) (ps_Successes s)
  end.

Definition bsr_Stats (peerID : string) (r : BlobServingReputation) : Z * Z * Z :=
  match r !! peerID with None => (0, 0, 0) | Some s => (ps_Successes s, ps_Failures s, ps_Timeouts s) end.

(** * Fetching *)

Inductive FetchState := FetchNotStarted | FetchInFlight | FetchCompleted | FetchFailed.

Inductive FetchErr := PeerError | FetchExhausted | StoreRefused (e : BlobError).

(** A session; [fs_done] tells how often its channel has been closed. *)
Record FetchSession := mkSession {
  fs_Ref : BlobRef;
  fs_Policy : BlobFetchPolicy;
  fs_State : FetchState;
  fs_Attempts : Z;
  fs_StartedAt : Z;
  fs_LastError : option FetchErr;
}.

(** [BlobFetcher] with the clock and [time.After]: the world that answers.  A deadline is the one of the
    call's context.  A nil slice is [None]. *)
Class BlobFetcher (W : Type) : Type := {
  net_now : W → Z;
  net_sleep : Z → W → W;
  FetchFromPeer : Z → string → Hash → W → W * (option (list Z) + FetchErr);
  BroadcastQuery : Z → Hash → Z → W → W * (list string + FetchErr);
}.

Definition ms : Z := 1000000.

(** The doubling loop, capped. *)
Fixpoint backoff_loop (n : nat) (maxBackoff backoff : Z) : Z :=
  match n with
  | O => backoff
  | S n => let b := backoff * 2 in if decide (maxBackoff < b) then maxBackoff else backoff_loop n maxBackoff b
  end.

Section fetch.
Context {W : Type} `{!BlobFetcher W}.
Context {St : Type} `{!BlobStore St}.

(** The loop of [tryFetch] over the hints; a peer that fails loses its hint. *)
Fixpoint try_hints (ctx : Z) (hash : Hash) (hints : list HolderHint) (c : HolderHintCache) (w : W) : HolderHintCache * W * option (option (list Z)) :=
  match hints with
  | [] => (c, w, None)
  | hint :: hints' =>
      let '(w, res) := FetchFromPeer ctx (hh_HolderPeerID hint) hash w in
      match res with
      | inl data => (c, w, Some data)
      | inr _ => try_hints ctx hash hints' (hc_Remove hash (hh_HolderPeerID hint) c) w
      end
  end.

Fixpoint try_peers (ctx : Z) (hash : Hash) (peers : list string) (w : W) : W * option (option (list Z)) :=
  match peers with
  | [] => (w, None)
  | peerID :: peers' =>
      let '(w, res) := FetchFromPeer ctx peerID hash w in
      match res with inl data => (w, Some data) | inr _ => try_peers ctx hash peers' w end
  end.

(** [tryFetch] with a cache and a fetcher. *)
Definition tryFetch (ctx : Z) (ref : BlobRef) (c : HolderHintCache) (w : W) : HolderHintCache * W * (option (list Z) + FetchErr) :=
  let '(c, w, found) := try_hints ctx (br_Hash ref) (hc_Get (net_now w / 1000000000) (br_Hash ref) c) c w in
  match found with
  | Some data => (c, w, inl data)
  | None =>
      let '(w, found) :=
        if decide (br_OriginNodeHint ref ≠ "") then try_peers ctx (br_Hash ref) [br_OriginNodeHint ref] w else (w, None) in
      match found with
      | Some data => (c, w, inl data)
      | None =>
          let '(w, res) := BroadcastQuery ctx (br_Hash ref) (fp_DiscoveryFanout (PolicyForBlobKind (br_Kind ref))) w in
          match res with
          | inr _ => (c, w, inr FetchExhausted)
          | inl peers =>
              let '(w, found) := try_peers ctx (br_Hash ref) peers w in
              (c, w, match found with Some data => inl data | None => inr FetchExhausted end)
          end
      end
  end.

(** What the attempts of [executeFetch] leave. *)
Record FetchRun := mkRun {
  run_store : SubscribableStore St;
  run_cache : HolderHintCache;
  run_world : W;
  run_attempts : Z;
  run_err : option FetchErr;
  run_ok : bool;
}.

(** The loop of [executeFetch]: [n] attempts remain.  The [break] after
    the cancellation of the context leaves the [select] only. *)
Fixpoint fetch_loop (n : nat) (attempt : Z) (deadline : Z) (policy : BlobFetchPolicy) (ref : BlobRef) (r : FetchRun) : FetchRun :=
  match n with
  | O => r
  | S n =>
      if decide (deadline < net_now (run_world r)) then r
      else
        let ctx := net_now (run_world r) + fp_PerFetchTimeoutMs policy * ms in
        let '(c, w, res) := tryFetch ctx ref (run_cache r) (run_world r) in
        let retry err :=
          let w := net_sleep (backoff_loop (Z.to_nat attempt) (fp_MaxBackoffMs policy * ms) (fp_InitialBackoffMs policy * ms)) w in
          fetch_loop n (attempt + 1) deadline policy ref (mkRun (run_store r) c w (attempt + 1) err false) in
        match res with
        | inl (Some data) =>
            let '(store, err) := PutVerified ref data (run_store r) in
            match err with
            | Some e => fetch_loop n (attempt + 1) deadline policy ref (mkRun store c w (attempt + 1) (Some (StoreRefused e)) false)
            | None => mkRun store c w (attempt + 1) (run_err r) true
            end
        | inl None => retry None
        | inr err => retry (Some err)
        end
  end.
End fetch.
#[global] Arguments FetchRun : clear implicits.
#[global] Arguments mkRun {W St} _ _ _ _ _ _.

(** * The engine *)

Record BlobSyncEngine := mkSyncEngine {
  bse_demandQueue : list BlobRef;
  bse_inFlight : gmap Hash FetchSession;
  bse_workers : Z;
}.

Definition NewBlobSyncEngine (workers : Z) : BlobSyncEngine := mkSyncEngine [] ∅ (if decide (workers <= 0) then 4 else workers).

Definition demandQueueSize : Z := 1024.

(** [RequestFetch] is the test of the store, the entry of the session, and the attempt to
    enqueue; the lock is released in between.  [rf_begin] tells whether to go on. *)
Definition rf_begin (has : bool) (now : Z) (ref : BlobRef) (e : BlobSyncEngine) : BlobSyncEngine * bool :=
  if has then (e, false)
  else match bse_inFlight e !! br_Hash ref with
  | Some _ => (e, false)
  | None => (mkSyncEngine (bse_demandQueue e)
               (<[br_Hash ref := mkSession ref (PolicyForBlobKind (br_Kind ref)) FetchInFlight 0 now None]> (bse_inFlight e)) (bse_workers e), true)
  end.

Definition rf_enqueue (ref : BlobRef) (e : BlobSyncEngine) : BlobSyncEngine :=
  if decide (Z.of_nat (length (bse_demandQueue e)) < demandQueueSize) then mkSyncEngine (bse_demandQueue e ++ [ref]) (bse_inFlight e) (bse_workers e)
  else mkSyncEngine (bse_demandQueue e) (delete (br_Hash ref) (bse_inFlight e)) (bse_workers e).

Definition RequestFetch (has : bool) (now : Z) (ref : BlobRef) (e : BlobSyncEngine) : BlobSyncEngine :=
  let '(e, go) := rf_begin has now ref e in if go then rf_enqueue ref e else e.

Definition FetchStatus (has : bool) (hash : Hash) (e : BlobSyncEngine) : FetchState :=
  if has then FetchCompleted
  else match bse_inFlight e !! hash with Some session => fs_State session | None => FetchNotStarted end.

(** A worker takes the head of the queue. *)
Definition bse_take (e : BlobSyncEngine) : option (BlobRef * BlobSyncEngine) :=
  match bse_demandQueue e with [] => None | ref :: q => Some (ref, mkSyncEngine q (bse_inFlight e) (bse_workers e)) end.

(** The end of [executeFetch], successful or not: the session leaves the map. *)
Definition ef_finish (ref : BlobRef) (e : BlobSyncEngine) : BlobSyncEngine :=
  mkSyncEngine (bse_demandQueue e) (delete (br_Hash ref) (bse_inFlight e)) (bse_workers e).

Section execute.
Context {W : Type} `{!BlobFetcher W}.
Context {St : Type} `{!BlobStore St}.

(** [executeFetch]; the result is the last state of the session, if there is one. *)
Definition executeFetch (ref : BlobRef) (e : BlobSyncEngine) (s : SubscribableStore St) (c : HolderHintCache) (w : W) :
    BlobSyncEngine * FetchRun W St * option FetchSession :=
  match bse_inFlight e !! br_Hash ref with
  | None => (e, mkRun s c w 0 None false, None)
  | Some session =>
      let policy := fs_Policy session in
      let deadline := net_now w + fp_TotalDeadlineMs policy * ms in
      let r := fetch_loop (Z.to_nat (fp_MaxRetries policy)) 0 deadline policy ref (mkRun s c w 0 None false) in
      (ef_finish ref e, r,
       Some (mkSession (fs_Ref session) policy (if run_ok r then FetchCompleted else FetchFailed) (run_attempts r) (fs_StartedAt session)
               (if run_ok r then fs_LastError session else run_err r)))
  end.

(** [BlobDemandConsumer.Consume], with the registry's [Extract]. *)
Fixpoint demand_loop (now : Z) (refs : list BlobRef) (s : SubscribableStore St) (e : BlobSyncEngine) : BlobSyncEngine :=
  match refs with
  | [] => e
  | ref :: refs' =>
      demand_loop now refs' s (if HasByHash (br_Hash ref) s then e else RequestFetch (HasByHash (br_Hash ref) s) now ref e)
  end.

Definition bdc_Consume (registry : gmap string BlobRefExtractor) (now : Z) (ev : Event) (s : SubscribableStore St) (e : BlobSyncEngine) : BlobSyncEngine :=
  match brr_Extract (Type_ ev) "" (Payload ev) registry with None => e | Some refs => demand_loop now refs s e end.
End execute.

Definition bdc_Interested (ev : Event) : bool := true.
Definition bdc_Ready (ev : Event) : option (bool * string) := Some (true, "").

(** * The transport *)

Record blobResponseWire := mkBlobResponse { brw_Hash : string; brw_Data : list Z }.
Record blobQueryResponseWire := mkBlobQueryResponse { bqr_Hash : string; bqr_HasBlob : bool }.

(** encoding/json on the messages. *)
Class BlobWire : Type := {
  unmarshal_response : list Z → option blobResponseWire;
  unmarshal_query : list Z → option string;
  unmarshal_queryResponse : list Z → option blobQueryResponseWire;
}.

Record pendingQuery := mkQuery { pq_peerIDs : list string; pq_expected : Z; pq_done : bool }.

(** Pending calls by number; the maps of the code give the number of a key.  A fetch's channel holds
    one answer. *)
Record BlobTransport := mkTransport {
  bt_reputation : BlobServingReputation;
  bt_fetches : gmap nat (option (list Z));
  bt_pendingFetches : gmap string nat;
  bt_queries : gmap nat pendingQuery;
  bt_pendingQueries : gmap string nat;
  bt_next : nat;
}.

Definition NewBlobTransport (reputation : BlobServingReputation) : BlobTransport := mkTransport reputation ∅ ∅ ∅ ∅ 0.

Definition fetchKey (hash : string) (peerID : string) : string := hash +:+ ":" +:+ peerID.

(** [FetchFromPeer]: the entry of the pending fetch, and what happens once the [select]
    has an answer ([Some]) or the context's end ([None]).  [sent] is the result of [SendToPeer]. *)
Definition ffp_begin (peerID : string) (hash : Hash) (t : BlobTransport) : BlobTransport * nat :=
  (mkTransport (bt_reputation t) (<[bt_next t := None]> (bt_fetches t))
     (<[fetchKey (hex_encode hash) peerID := bt_next t]> (bt_pendingFetches t)) (bt_queries t) (bt_pendingQueries t) (S (bt_next t)), bt_next t).

Definition ffp_end (sent timeout : bool) (start now : Z) (peerID : string) (hash : Hash) (id : nat) (t : BlobTransport) :
    option (BlobTransport * option (list Z)) :=
  let finish reputation res :=
    Some (mkTransport reputation (bt_fetches t) (delete (fetchKey (hex_encode hash) peerID) (bt_pendingFetches t))
            (bt_queries t) (bt_pendingQueries t) (bt_next t), res) in
  if negb sent then finish (bt_reputation t) None
  else if timeout then finish (bsr_RecordTimeout now peerID (bt_reputation t)) None
  else match bt_fetches t !! id with
  | Some (Some data) => finish (bsr_RecordSuccess now peerID (i64 (now - start)) (bt_reputation t)) (Some data)
  | _ => None
  end.

(** [BroadcastQuery]: the entry, the number of peers asked, the result after the answers, the timer or
    the context's end ([cancelled]). *)
Definition bq_begin (hash : Hash) (t : BlobTransport) : BlobTransport * nat :=
  (mkTransport (bt_reputation t) (bt_fetches t) (bt_pendingFetches t) (<[bt_next t := mkQuery [] 0 false]> (bt_queries t))
     (<[hex_encode hash := bt_next t]> (bt_pendingQueries t)) (S (bt_next t)), bt_next t).

Definition alter_query (id : nat) (f : pendingQuery → pendingQuery) (t : BlobTransport) : BlobTransport :=
  mkTransport (bt_reputation t) (bt_fetches t) (bt_pendingFetches t) (alter f id (bt_queries t)) (bt_pendingQueries t) (bt_next t).

Definition bq_sent (sentTo : list string) (id : nat) : BlobTransport → BlobTransport :=
  alter_query id (λ q, mkQuery (pq_peerIDs q) (Z.of_nat (length sentTo)) (pq_done q)).

Definition bq_end (sentTo : option (list string)) (cancelled : bool) (hash : Hash) (id : nat) (t : BlobTransport) : BlobTransport * option (list string) :=
  let t' := mkTransport (bt_reputation t) (bt_fetches t) (bt_pendingFetches t) (bt_queries t) (delete (hex_encode hash) (bt_pendingQueries t)) (bt_next t) in
  match sentTo with
  | None => (t', None)
  | Some [] => (t', Some [])
  | Some _ => (t', if cancelled then None else Some (match bt_queries t !! id with Some q => pq_peerIDs q | None => [] end))
  end.

Section handlers.
Context `{!BlobWire}.

Definition HandleBlobResponse (peerID : string) (payload : list Z) (t : BlobTransport) : BlobTransport :=
  match unmarshal_response payload with
  | None => t
  | Some resp =>
      if decide (brw_Hash resp = "" ∨ brw_Data resp = []) then t
      else match bt_pendingFetches t !! fetchKey (brw_Hash resp) peerID with
      | None => t
      | Some id =>
          mkTransport (bt_reputation t)
            (alter (λ buf, match buf with None => Some (brw_Data resp) | Some data => Some data end) id (bt_fetches t))
            (bt_pendingFetches t) (bt_queries t) (bt_pendingQueries t) (bt_next t)
      end
  end.

(** [HandleBlobQueryResponse] up to the test of [doneCh]: [Some id] when the channel of that query is
    then to be closed.  Closing it a second time panics. *)
Definition hbqr_begin (peerID : string) (payload : list Z) (t : BlobTransport) : BlobTransport * option nat :=
  match unmarshal_queryResponse payload with
  | None => (t, None)
  | Some resp =>
      match bt_pendingQueries t !! bqr_Hash resp with
      | None => (t, None)
      | Some id =>
          let t := if bqr_HasBlob resp then alter_query id (λ q, mkQuery (pq_peerIDs q ++ [peerID]) (pq_expected q) (pq_done q)) t else t in
          match bt_queries t !! id with
          | None => (t, None)
          | Some q =>
              let received := Z.of_nat (length (pq_peerIDs q)) in
              (t, if bool_decide (pq_expected q <= received ∨ 1 <= received) && negb (pq_done q) then Some id else None)
          end
      end
  end.

(** [None]: the close panics. *)
Definition hbqr_close (id : nat) (t : BlobTransport) : option BlobTransport :=
  match bt_queries t !! id with
  | Some q => if pq_done q then None else Some (alter_query id (λ q, mkQuery (pq_peerIDs q) (pq_expected q) true) t)
  | None => None
  end.

Definition HandleBlobQueryResponse (peerID : string) (payload : list Z) (t : BlobTransport) : option BlobTransport :=
  let '(t, close) := hbqr_begin peerID payload t in
  match close with Some id => hbqr_close id t | None => Some t end.

(** [HandleBlobQuery]: the answer sent, if any. *)
Definition HandleBlobQuery (hasBlob : string → bool) (payload : list Z) : option blobQueryResponseWire :=
  match unmarshal_query payload with
  | None => None
  | Some hash => if decide (hash = "") then None else Some (mkBlobQueryResponse hash (hasBlob hash))
  end.
End handlers.

(** * The hint cache is bounded *)

Record hc_inv (c : HolderHintCache) : Prop := {
  hci_max : 1 <= hc_maxSize c;
  hci_size : hc_Size c <= hc_maxSize c;
  hci_order : ∀ h, is_Some (hc_hints c !! h) → h ∈ hc_accessOrder c;
  hci_hash : ∀ h l, hc_hints c !! h = Some l → Forall (λ x, hh_BlobHash x = h) l;
  hci_peers : ∀ h l, hc_hints c !! h = Some l → NoDup (hh_HolderPeerID <$> l);
}.

Lemma hc_evict_spec maxSize hints order hints' order' :
  1 <= maxSize → (∀ h, is_Some (hints !! h) → h ∈ order) → hc_evict maxSize hints order = (hints', order') →
  Z.of_nat (size hints') < maxSize ∧ hints' ⊆ hints ∧ ∀ h, is_Some (hints' !! h) → h ∈ order'.
Proof.
  intros Hmax. revert hints. induction order as [|o order IH]; intros hints Ho.
  - intros [= <- <-]. assert (hints = ∅) as ->.
    { apply map_eq. intros h. rewrite lookup_empty. destruct (hints !! h) eqn:E; [|done]. destruct (not_elem_of_nil h). apply Ho. eauto. }
    rewrite map_size_empty. split_and!; [lia|done|done].
  - cbn [hc_evict]. case_decide as Hs.
    + intros E. edestruct (IH (delete o hints)) as (? & Hsub & ?); [|exact E|].
      * intros h [l [Hne Hl]%lookup_delete_Some]. specialize (Ho h (mk_is_Some _ _ Hl)). set_solver.
      * split_and!; [done| |done]. etrans; [exact Hsub|apply delete_subseteq].
    + intros [= <- <-]. split_and!; [lia|done|done].
Qed.

Lemma update_peer_spec hint l l' : update_peer hint l = Some l' →
  hh_HolderPeerID <$> l' = hh_HolderPeerID <$> l ∧ ∀ x, x ∈ l' → x = hint ∨ x ∈ l.
Proof.
  revert l'. induction l as [|h l IH]; intros l'; [done|]. cbn [update_peer]. case_decide as Hh.
  - intros [= <-]. split; [by rewrite !fmap_cons, Hh|]. set_solver.
  - destruct (update_peer hint l) as [l1|]; [|done]. intros [= <-]. destruct (IH l1 eq_refl) as [E Hin].
    split; [by rewrite !fmap_cons, E|]. set_solver.
Qed.

Lemma update_peer_None hint l : update_peer hint l = None → hh_HolderPeerID hint ∉ (hh_HolderPeerID <$> l).
Proof.
  induction l as [|h l IH]; [set_solver|]. cbn [update_peer]. case_decide as Hh; [done|].
  destruct (update_peer hint l); [done|]. intros _. rewrite fmap_cons, not_elem_of_cons. auto.
Qed.

Lemma remove_peer_sublist p l : remove_peer p l `sublist_of` l.
Proof. induction l as [|h l IH]; [done|]. cbn [remove_peer]. case_decide; [by apply sublist_cons|by apply sublist_skip]. Qed.

Lemma remove_peer_names p l : hh_HolderPeerID <$> remove_peer p l `sublist_of` hh_HolderPeerID <$> l.
Proof. induction l as [|h l IH]; [done|]. cbn [remove_peer fmap list_fmap]. case_decide; [by apply sublist_cons|by apply sublist_skip]. Qed.

Lemma hc_size_insert (hints : gmap Hash (list HolderHint)) h l : Z.of_nat (size (<[h := l]> hints)) <= Z.of_nat (size hints) + 1.
Proof. rewrite map_size_insert. destruct (hints !! h); unfold id; lia. Qed.

Lemma hc_Add_inv now hint c : hc_inv c → hc_inv (hc_Add now hint c).
Proof.
  intros [Hmax Hsize Ho Hh Hp]. unfold hc_Add. case_decide; [by split|].
  destruct (hc_evict _ _ _) as [hints order] eqn:E. destruct (hc_evict_spec _ _ _ _ _ Hmax Ho E) as (Hlt & Hsub & Ho').
  set (k := hh_BlobHash hint). set (existing := default [] (hints !! k)).
  assert (Hex : Forall (λ x, hh_BlobHash x = k) existing ∧ NoDup (hh_HolderPeerID <$> existing)).
  { unfold existing. destruct (hints !! k) as [l|] eqn:El; [|split; constructor]. assert (hc_hints c !! k = Some l) by (by eapply lookup_weaken). eauto. }
  destruct Hex as [Hf Hn].
  assert (Hbound : ∀ l, Z.of_nat (size (<[k := l]> hints)) <= hc_maxSize c) by (intros l; pose proof (hc_size_insert hints k l); lia).
  destruct (update_peer hint existing) as [l|] eqn:Eu; split; unfold hc_Size; cbn; try done.
  - intros h [l' Hl']. destruct (decide (h = k)) as [->|Hne]; [|rewrite lookup_insert_ne in Hl' by done; eauto].
    apply Ho'. unfold existing in Eu. destruct (hints !! k); [eauto|done].
  - intros h l'. destruct (decide (h = k)) as [->|Hne]; [rewrite lookup_insert_eq|rewrite lookup_insert_ne by done; eauto using lookup_weaken].
    intros [= <-]. apply Forall_forall. intros x Hx. destruct (proj2 (update_peer_spec _ _ _ Eu) x Hx) as [->|?]; [done|].
    rewrite Forall_forall in Hf. auto.
  - intros h l'. destruct (decide (h = k)) as [->|Hne]; [rewrite lookup_insert_eq|rewrite lookup_insert_ne by done; eauto using lookup_weaken].
    intros [= <-]. by rewrite (proj1 (update_peer_spec _ _ _ Eu)).
  - intros h [l' Hl']. destruct (decide (h = k)) as [->|Hne]; [set_solver|]. rewrite lookup_insert_ne in Hl' by done.
    apply elem_of_app. eauto.
  - intros h l'. destruct (decide (h = k)) as [->|Hne]; [rewrite lookup_insert_eq|rewrite lookup_insert_ne by done; eauto using lookup_weaken].
    intros [= <-]. apply Forall_app. auto.
  - intros h l'. destruct (decide (h = k)) as [->|Hne]; [rewrite lookup_insert_eq|rewrite lookup_insert_ne by done; eauto using lookup_weaken].
    intros [= <-]. rewrite fmap_app. apply NoDup_app. split; [done|]. split; [|apply NoDup_singleton].
    intros x Hx. rewrite list_fmap_singleton, list_elem_of_singleton. intros ->. by apply (update_peer_None _ _ Eu).
Qed.

Lemma hc_Remove_inv h p c : hc_inv c → hc_inv (hc_Remove h p c).
Proof.
  intros [Hmax Hsize Ho Hh Hp]. unfold hc_Remove. destruct (hc_hints c !! h) as [l|] eqn:El; [|by split].
  split; unfold hc_Size in *; cbn; [done| | | |].
  - rewrite map_size_insert, El. unfold id. lia.
  - intros k [l' Hl']. destruct (decide (k = h)) as [->|]; [eauto|]. rewrite lookup_insert_ne in Hl' by done. eauto.
  - intros k l'. destruct (decide (k = h)) as [->|]; [rewrite lookup_insert_eq|rewrite lookup_insert_ne by done; eauto].
    intros [= <-]. apply Forall_forall. intros x Hx. specialize (Hh _ _ El). rewrite Forall_forall in Hh.
    eapply Hh, elem_of_sublist; [exact Hx|apply remove_peer_sublist].
  - intros k l'. destruct (decide (k = h)) as [->|]; [rewrite lookup_insert_eq|rewrite lookup_insert_ne by done; eauto].
    intros [= <-]. eapply sublist_NoDup; [eauto|apply remove_peer_names].
Qed.

Lemma hc_Blacklist_inv now p d c : hc_inv c → hc_inv (hc_Blacklist now p d c).
Proof. intros []. by split. Qed.

Lemma NewHolderHintCache_inv n : hc_inv (NewHolderHintCache n).
Proof. unfold NewHolderHintCache. split; unfold hc_Size; cbn.
  1,2: rewrite ?map_size_empty; case_decide; lia.
  all: intros h; rewrite lookup_empty; by intros []. Qed.

(** The operations of the cache. *)
Inductive hint_op := OpAdd (now : Z) (hint : HolderHint) | OpRemove (hash : Hash) (peerID : string) | OpBlacklist (now : Z) (peerID : string) (d : Z).

Definition run_hint_op (c : HolderHintCache) (o : hint_op) : HolderHintCache :=
  match o with OpAdd now h => hc_Add now h c | OpRemove h p => hc_Remove h p c | OpBlacklist now p d => hc_Blacklist now p d c end.

Lemma run_hint_ops_inv ops c : hc_inv c → hc_inv (foldl run_hint_op c ops).
Proof.
  revert c. induction ops as [|[] ops IH]; intros c Hc; cbn; [done| | |]; apply IH; auto using hc_Add_inv, hc_Remove_inv, hc_Blacklist_inv.
Qed.

(** * The store is content addressed *)

(** A disk that works: reads see the installed files. *)
Class DiskLaws (D : Type) `{!Disk D} : Type := {
  disk_files : D → gmap string (list Z);
  disk_stat_files p d : disk_stat p d = match disk_files d !! p with Some data => FileSize (Z.of_nat (length data)) | None => NoFile end;
  disk_read_files p d : disk_read p d = match disk_files d !! p with Some data => FileData data | None => NoContent end;
  disk_install_files p data d : disk_files (disk_install p data d).1 = if (disk_install p data d).2 then <[p := data]> (disk_files d) else disk_files d;
  disk_remove_files p d : disk_files (disk_remove p d).1 = if (disk_remove p d).2 then delete p (disk_files d) else disk_files d;
}.

#[global] Instance map_disk : Disk (gmap string (list Z)) := {|
  disk_stat p d := match d !! p with Some data => FileSize (Z.of_nat (length data)) | None => NoFile end;
  disk_install p data d := (<[p := data]> d, true);
  disk_read p d := match d !! p with Some data => FileData data | None => NoContent end;
  disk_remove p d := (delete p d, true);
|}.

#[global] Instance map_disk_laws : DiskLaws (gmap string (list Z)).
Proof. by refine (Build_DiskLaws _ _ (λ d, d) _ _ _ _). Defined.

Lemma hex_encode_length bs : String.length (hex_encode bs) = (2 * length bs)%nat.
Proof. induction bs as [|b bs IH]; cbn [hex_encode String.length length]; lia. Qed.

Lemma hex_digit_hash_char z : 0 <= z < 16 → hash_char (hex_digit z) = true.
Proof.
  intros Hz. assert (Hall : Forall (λ z, hash_char (hex_digit z) = true) (seqZ 0 16)) by (apply (bool_decide_unpack _); vm_compute; exact I).
  rewrite Forall_forall in Hall. apply Hall, elem_of_seqZ. lia.
Qed.

Lemma hex_encode_chars bs : Forall (λ b, 0 <= b < 256) bs → all_chars hash_char (hex_encode bs) = true.
Proof.
  unfold all_chars. induction 1 as [|b bs Hb Hbs IH]; [done|]. cbn [hex_encode String.list_ascii_of_string forallb].
  assert (Z.shiftr b 4 = b / 16) as -> by (by rewrite Z.shiftr_div_pow2).
  assert (Z.land b 15 = b mod 16) as -> by exact (Z.land_ones b 4 ltac:(lia)).
  pose proof (Z_div_mod_eq_full b 16). pose proof (Z.mod_pos_bound b 16 ltac:(lia)).
  rewrite !hex_digit_hash_char, IH by lia. done.
Qed.

Lemma hex_encode_inj a b : Forall (λ x, 0 <= x < 256) a → Forall (λ x, 0 <= x < 256) b → hex_encode a = hex_encode b → a = b.
Proof. intros Ha Hb E. apply hex_decode_encode in Ha, Hb. congruence. Qed.

(** A valid identifier of a blob. *)
Definition hash_ok (h : Hash) : Prop := length h = 32%nat ∧ Forall (λ b, 0 <= b < 256) h.

Lemma hash_ok_valid h : hash_ok h → isValidHash (hex_encode h) = true.
Proof.
  intros [Hl Hb]. unfold isValidHash. rewrite hex_encode_length, Hl, hex_encode_chars by done. done.
Qed.

Lemma substring_length n m s : (n + m <= String.length s)%nat → String.length (String.substring n m s) = m.
Proof.
  revert n m. induction s as [|c s IH]; intros n m; cbn [String.length]; [destruct n, m; cbn; lia|].
  intros Hl. destruct n; cbn [String.substring]; [destruct m; [done|]; cbn [String.length]; rewrite IH; lia|apply IH; lia].
Qed.

Lemma hash_of_valid data : isValidHash (hash_of data) = true.
Proof. apply hash_ok_valid. split; [apply Sha256.Sum256_length|apply Sha256.Sum256_bytes]. Qed.

Section store.
Context {D : Type} `{!Disk D} {L : DiskLaws D}.
Implicit Types (s : FSStore D).

Lemma blobPath_inj h h' s : isValidHash h = true → isValidHash h' = true → blobPath h s = blobPath h' s → h = h'.
Proof.
  unfold isValidHash. intros [Hl _]%andb_prop [Hl' _]%andb_prop. case_bool_decide as H1; [|done]. case_bool_decide as H2; [|done].
  unfold blobPath. intros E%string_app_inv_l%string_app_inv_l.
  apply string_app_inj_len in E as [_ E]; [|rewrite !substring_length; lia]. apply string_app_inv_l in E.
  apply string_app_inj_len in E as [_ E]; [|rewrite !substring_length; lia]. by apply string_app_inv_l in E.
Qed.

(** What is filed under a hash. *)
Definition blob_at (hash : string) s : option (list Z) := disk_files (fs_disk s) !! blobPath hash s.

(** No file has been damaged. *)
Definition fs_sound s : Prop := ∀ hash data, isValidHash hash = true → blob_at hash s = Some data → hash_of data = hash.

Lemma fs_Get_eq hash s : isValidHash hash = true →
  fs_Get hash s = match blob_at hash s with None => inr ErrBlobNotFound | Some data => if decide (hash_of data ≠ hash) then inr ErrHashMismatch else inl data end.
Proof. intros Hv. unfold fs_Get, blob_at. rewrite Hv, disk_read_files. cbn. by destruct (_ !! _). Qed.

Lemma fs_Has_eq hash s : isValidHash hash = true → fs_Has hash s = inl (bool_decide (is_Some (blob_at hash s))).
Proof.
  intros Hv. unfold fs_Has, blob_at. rewrite Hv, disk_stat_files. cbn.
  destruct (_ !! _); [by rewrite bool_decide_true by eauto|by rewrite bool_decide_false by (by intros [])].
Qed.

(** [Put] files the data under its hash, unless a file of its size is there. *)
Lemma fs_Put_files data s s' res : fs_Put data s = (s', res) →
  match res with
  | inr _ => ∀ hash, isValidHash hash = true → blob_at hash s' = blob_at hash s
  | inl r => r = (hash_of data, Z.of_nat (length data)) ∧
      ∃ data', (data' = data ∨ blob_at (hash_of data) s = Some data') ∧
        ∀ hash, isValidHash hash = true → blob_at hash s' = if decide (hash = hash_of data) then Some data' else blob_at hash s
  end.
Proof.
  unfold fs_Put. case_decide as Hb; [by intros [= <- <-]|].
  rewrite disk_stat_files. fold (blob_at (hash_of data) s).
  assert (Hins : ∀ d (ok : bool), disk_install (blobPath (hash_of data) s) data (fs_disk s) = (d, ok) →
    ∀ hash, isValidHash hash = true → blob_at hash (mkFSStore (fs_root s) (fs_maxBlobSize s) d) =
      if ok then if decide (hash = hash_of data) then Some data else blob_at hash s else blob_at hash s).
  { intros d ok Ei hash Hv. pose proof (disk_install_files (blobPath (hash_of data) s) data (fs_disk s)) as Hf. rewrite Ei in Hf. cbn in Hf.
    unfold blob_at at 1. change (blobPath hash _) with (blobPath hash s). cbn [fs_disk]. rewrite Hf. destruct ok; [|done].
    case_decide as Eh; [subst; apply lookup_insert_eq|]. rewrite lookup_insert_ne; [done|]. intros E. apply Eh. symmetry.
    by apply (blobPath_inj _ _ s); [apply hash_of_valid|..]. }
  assert (Hput : ∀ s' res, (let '(d, ok) := disk_install (blobPath (hash_of data) s) data (fs_disk s) in
      (mkFSStore (fs_root s) (fs_maxBlobSize s) d, if ok : bool then inl (hash_of data, Z.of_nat (length data)) else inr ErrDisk)) = (s', res) →
    match res with
    | inr _ => ∀ hash, isValidHash hash = true → blob_at hash s' = blob_at hash s
    | inl r => r = (hash_of data, Z.of_nat (length data)) ∧
        ∃ data', (data' = data ∨ blob_at (hash_of data) s = Some data') ∧
          ∀ hash, isValidHash hash = true → blob_at hash s' = if decide (hash = hash_of data) then Some data' else blob_at hash s
    end).
  { intros s1 r1. destruct (disk_install _ _ _) as [d [|]] eqn:Ei; intros [= <- <-].
    - split; [done|]. exists data. split; [by left|]. intros hash Hv. by rewrite (Hins _ _ eq_refl).
    - intros hash Hv. by rewrite (Hins _ _ eq_refl). }
  destruct (blob_at (hash_of data) s) as [old|] eqn:Eo; [case_bool_decide as Hn|]; [|exact (Hput s' res)..].
  intros [= <- <-]. split; [done|]. exists old. split; [by right|]. intros hash Hv. case_decide; [by subst|done].
Qed.

Lemma fs_Put_sound data s s' res : fs_sound s → fs_Put data s = (s', res) → fs_sound s'.
Proof.
  intros Hs E%fs_Put_files h x Hv Hx. destruct res as [r|err].
  - destruct E as [_ (data' & Hd & Hat)]. rewrite Hat in Hx by done. case_decide; [|eauto]. subst h. simplify_eq.
    destruct Hd as [->|Hd]; [done|]. eauto using hash_of_valid.
  - rewrite E in Hx by done. eauto.
Qed.

Lemma fs_Delete_sound h s : fs_sound s → fs_sound (fs_Delete h s).1.
Proof.
  intros Hs. unfold fs_Delete. destruct (isValidHash h) eqn:Hv; [|done]. cbn.
  pose proof (disk_remove_files (blobPath h s) (fs_disk s)) as Hf. destruct (disk_remove _ _) as [d ok]. cbn in *.
  intros k x Hk Hx. unfold blob_at in Hx. cbn in Hx. change (blobPath k _) with (blobPath k s) in Hx. rewrite Hf in Hx.
  apply (Hs k x Hk). unfold blob_at. destruct ok; [|done]. by apply lookup_delete_Some in Hx as [_ ?].
Qed.

(** An intact store returns everything that was put. *)
Lemma fs_Put_Get data s s' r : fs_sound s → fs_Put data s = (s', inl r) →
  ∃ data', fs_Get (hash_of data) s' = inl data' ∧ Sha256.Sum256 data' = Sha256.Sum256 data.
Proof.
  intros Hs E. pose proof (fs_Put_sound _ _ _ _ Hs E) as Hs'. apply fs_Put_files in E as [_ (data' & _ & Hat)].
  pose proof (hash_of_valid data) as Hv. specialize (Hat _ Hv). rewrite decide_True in Hat by done.
  pose proof (Hs' _ _ Hv Hat) as Hh. exists data'. rewrite fs_Get_eq, Hat by done. rewrite decide_False by tauto.
  split; [done|]. by apply hex_encode_inj; [apply Sha256.Sum256_bytes..|].
Qed.
End store.

(** * Subscribers are woken *)

Inductive sub_op := SubSubscribe (h : Hash) | SubPut (data : list Z) | SubPutVerified (ref : BlobRef) (data : list Z) | SubDelete (h : Hash).

Section subscribers.
Context {D : Type} `{!Disk D} {L : DiskLaws D}.
Notation SS := (SubscribableStore (FSStore D)).
Implicit Types (s : SS).

(** The store with the channels it has handed out and their hashes. *)
Definition run_sub_op (st : SS * list (Hash * nat)) (o : sub_op) : SS * list (Hash * nat) :=
  let '(s, issued) := st in
  match o with
  | SubSubscribe h => let '(s, ch) := Subscribe h s in (s, issued ++ [(h, ch)])
  | SubPut data => ((ss_Put data s).1, issued)
  | SubPutVerified ref data => ((PutVerified ref data s).1, issued)
  | SubDelete h => ((ss_Delete (hex_encode h) s).1, issued)
  end.

Definition sub_op_ok (o : sub_op) : Prop :=
  match o with SubSubscribe h => hash_ok h | _ => True end.

Record subs_inv (st : SS * list (Hash * nat)) : Prop := {
  sbi_sound : fs_sound (ss_inner st.1);
  sbi_absent : ∀ h ch, ch ∈ default [] (sub_waiting (ss_subs st.1) !! h) → hash_ok h ∧ HasByHash h st.1 = false;
  sbi_issued : ∀ h ch, (h, ch) ∈ st.2 → wait_over ch st.1 = true ∨ ch ∈ default [] (sub_waiting (ss_subs st.1) !! h);
}.

Lemma HasByHash_eq h s : hash_ok h → HasByHash h s = bool_decide (is_Some (blob_at (hex_encode h) (ss_inner s))).
Proof. intros Hh. unfold HasByHash. cbn. by rewrite fs_Has_eq by (by apply hash_ok_valid). Qed.

Lemma hash_ok_Sum256 data : hash_ok (Sha256.Sum256 data).
Proof. split; [apply Sha256.Sum256_length|apply Sha256.Sum256_bytes]. Qed.

Lemma hex_hash_ne h data : hash_ok h → h ≠ Sha256.Sum256 data → hex_encode h ≠ hash_of data.
Proof. intros Hh Hne E. apply Hne. apply hex_encode_inj; [apply Hh|apply Sha256.Sum256_bytes|done]. Qed.

(** A successful [Put] makes its own blob present and no other. *)
Lemma put_has data s inner res h : fs_Put data (ss_inner s) = (inner, res) → hash_ok h →
  ∀ subs, HasByHash h (mkSubStore inner subs) =
    match res with inl _ => bool_decide (h = Sha256.Sum256 data) || HasByHash h s | inr _ => HasByHash h s end.
Proof.
  intros E Hh subs. rewrite !HasByHash_eq by done. cbn [ss_inner]. apply fs_Put_files in E. pose proof (hash_ok_valid _ Hh) as Hv.
  destruct res as [r|err]; [|by rewrite E]. destruct E as [_ (data' & _ & Hat)]. rewrite Hat by done.
  destruct (decide (h = Sha256.Sum256 data)) as [->|Hne].
  - rewrite decide_True by done. rewrite (bool_decide_true (_ = _)) by done. by rewrite bool_decide_true by eauto.
  - rewrite decide_False by (by apply hex_hash_ne). by rewrite (bool_decide_false (_ = _)) by done.
Qed.

Lemma signal_spec h s :
  ∀ k ch, ch ∈ default [] (sub_waiting (signal h (ss_subs s)) !! k) ↔ k ≠ h ∧ ch ∈ default [] (sub_waiting (ss_subs s) !! k).
Proof.
  intros k ch. cbn. destruct (decide (k = h)) as [->|Hne]; [rewrite lookup_delete_eq|rewrite lookup_delete_ne by done]; set_solver.
Qed.

Lemma signal_inv data s issued inner r : subs_inv (s, issued) → fs_Put data (ss_inner s) = (inner, inl r) →
  subs_inv (mkSubStore inner (signal (Sha256.Sum256 data) (ss_subs s)), issued).
Proof.
  intros [Hs Ha Hi] E. cbn [fst snd] in *. split; cbn [fst snd ss_inner ss_subs].
  - by eapply fs_Put_sound.
  - intros k ch [Hk Hc]%(signal_spec _ _). destruct (Ha _ _ Hc) as [Hok Habs]. split; [done|].
    rewrite (put_has _ _ _ _ _ E) by done. by rewrite bool_decide_false, Habs by done.
  - intros k ch Hin. destruct (Hi _ _ Hin) as [Hw|Hw].
    + left. unfold wait_over in *. apply bool_decide_eq_true in Hw. apply bool_decide_true. cbn. set_solver.
    + destruct (decide (k = Sha256.Sum256 data)) as [->|Hne].
      * left. unfold wait_over. apply bool_decide_true. cbn. apply elem_of_union_l. by apply elem_of_list_to_set.
      * right. by apply (signal_spec _ _).
Qed.

(** Nothing changes for the subscribers when no blob becomes present. *)
Lemma quiet_inv s issued inner : subs_inv (s, issued) → fs_sound inner →
  (∀ h, hash_ok h → HasByHash h s = false → HasByHash h (mkSubStore inner (ss_subs s)) = false) → subs_inv (mkSubStore inner (ss_subs s), issued).
Proof.
  intros [Hs Ha Hi] Hsound Hq. split; cbn in *; [done| |done]. intros h ch Hc. destruct (Ha _ _ Hc). auto.
Qed.

Lemma run_sub_op_inv st o : sub_op_ok o → subs_inv st → subs_inv (run_sub_op st o).
Proof.
  intros Hok Hinv. destruct st as [s issued]. pose proof Hinv as [Hs Ha Hi]. cbn [fst snd] in *. destruct o as [h|data|ref data|h]; cbn [run_sub_op].
  - unfold Subscribe, Subscribe_rest. destruct (HasByHash h s) eqn:Hh; cbn [closed_channel subscribe].
    + split; cbn in *; [done| |]; [intros k ch Hc; destruct (Ha _ _ Hc); done|].
      intros k ch [Hin|[= -> ->]%list_elem_of_singleton]%elem_of_app; unfold wait_over in *; cbn.
      * destruct (Hi _ _ Hin) as [Hw|]; [left|by right]. apply bool_decide_eq_true in Hw. apply bool_decide_true. set_solver.
      * left. apply bool_decide_true. set_solver.
    + split; cbn in *; [done| |].
      * intros k ch. destruct (decide (k = h)) as [->|Hne]; [rewrite lookup_insert_eq|rewrite lookup_insert_ne by done; apply Ha]. done.
      * intros k ch [Hin|[= -> ->]%list_elem_of_singleton]%elem_of_app.
        -- destruct (Hi _ _ Hin) as [|Hw]; [by left|right].
           destruct (decide (k = h)) as [->|Hne]; [rewrite lookup_insert_eq; set_solver|by rewrite lookup_insert_ne].
        -- right. rewrite lookup_insert_eq. set_solver.
  - unfold ss_Put. cbn [blob_Put fs_store]. destruct (fs_Put data (ss_inner s)) as [inner res] eqn:E. destruct res as [r|err]; cbn [fst].
    + pose proof (fs_Put_files _ _ _ _ E) as [-> _]. unfold hash_of. rewrite hex_decode_encode by apply Sha256.Sum256_bytes.
      cbn [fst]. rewrite decide_True by apply Sha256.Sum256_length. by eapply signal_inv.
    + apply quiet_inv; [done|by eapply fs_Put_sound|]. intros k Hk. by rewrite (put_has _ _ _ _ _ E).
  - unfold PutVerified. cbn [blob_Put fs_store]. case_decide as Hd; [done|].
    destruct (fs_Put data (ss_inner s)) as [inner res] eqn:E. destruct res as [r|err]; cbn [fst].
    + rewrite <- Hd. by eapply signal_inv.
    + apply quiet_inv; [done|by eapply fs_Put_sound|]. intros k Hk. by rewrite (put_has _ _ _ _ _ E).
  - unfold ss_Delete. cbn [blob_Delete fs_store]. destruct (fs_Delete (hex_encode h) (ss_inner s)) as [inner err] eqn:E. cbn [fst].
    assert (inner = (fs_Delete (hex_encode h) (ss_inner s)).1) as -> by (by rewrite E).
    apply quiet_inv; [done|by apply fs_Delete_sound|]. intros k Hk. rewrite !HasByHash_eq by done. cbn [ss_inner].
    rewrite !bool_decide_eq_false. intros Hn [x Hx]. apply Hn. unfold fs_Delete in Hx. destruct (isValidHash (hex_encode h)) eqn:Hv; [|eauto].
    pose proof (disk_remove_files (blobPath (hex_encode h) (ss_inner s)) (fs_disk (ss_inner s))) as Hf. destruct (disk_remove _ _) as [d ok].
    cbn in *. unfold blob_at in *. cbn in Hx. change (blobPath (hex_encode k) _) with (blobPath (hex_encode k) (ss_inner s)) in Hx.
    rewrite Hf in Hx. destruct ok; [|eauto]. apply lookup_delete_Some in Hx as [_ ?]. eauto.
Qed.

Lemma run_sub_ops_inv ops st : Forall sub_op_ok ops → subs_inv st → subs_inv (foldl run_sub_op st ops).
Proof. intros Hops. revert st. induction Hops as [|o ops Ho Hops IH]; intros st Hst; [done|]. cbn. by apply IH, run_sub_op_inv. Qed.

Lemma new_subs_inv root maxSize d : fs_sound (NewFSStore root maxSize d) → subs_inv (NewSubscribableStore (NewFSStore root maxSize d), []).
Proof. intros Hs. split; cbn; [done| |]; intros h ch; [rewrite lookup_empty|]; cbn; by intros ?%elem_of_nil. Qed.
End subscribers.

(** * One worker per blob *)

(** The engine with the threads that are inside [RequestFetch] and the fetches the workers run. *)
Record EngineRun := mkEngineRun { er_engine : BlobSyncEngine; er_entering : list BlobRef; er_running : list BlobRef }.

Inductive eng_step : EngineRun → EngineRun → Prop :=
  | es_request has now ref e e' go ent run : rf_begin has now ref e = (e', go) →
      eng_step (mkEngineRun e ent run) (mkEngineRun e' (if go : bool then ref :: ent else ent) run)
  | es_enqueue ref e ent1 ent2 run : eng_step (mkEngineRun e (ent1 ++ ref :: ent2) run) (mkEngineRun (rf_enqueue ref e) (ent1 ++ ent2) run)
  | es_take ref e e' ent run : bse_take e = Some (ref, e') → eng_step (mkEngineRun e ent run) (mkEngineRun e' ent (ref :: run))
  | es_finish ref e ent run1 run2 : eng_step (mkEngineRun e ent (run1 ++ ref :: run2)) (mkEngineRun (ef_finish ref e) ent (run1 ++ run2)).

Definition er_working (x : EngineRun) : list Hash := br_Hash <$> (er_entering x ++ bse_demandQueue (er_engine x) ++ er_running x).

Record eng_inv (x : EngineRun) : Prop := {
  ei_once : NoDup (er_working x);
  ei_sessions : ∀ h, is_Some (bse_inFlight (er_engine x) !! h) ↔ h ∈ er_working x;
  ei_state : map_Forall (λ _ ses, fs_State ses = FetchInFlight) (bse_inFlight (er_engine x));
  ei_queue : Z.of_nat (length (bse_demandQueue (er_engine x))) <= demandQueueSize;
}.

Lemma NoDup_perm {A} (l l' : list A) : l' ≡ₚ l → NoDup l → NoDup l'.
Proof. by intros ->. Qed.

Lemma eng_remove (ref : BlobRef) (work : list Hash) (m : gmap Hash FetchSession) :
  NoDup (br_Hash ref :: work) → (∀ h, is_Some (m !! h) ↔ h ∈ br_Hash ref :: work) → ∀ h, is_Some (delete (br_Hash ref) m !! h) ↔ h ∈ work.
Proof.
  intros [Hn _]%NoDup_cons Hm h. destruct (decide (h = br_Hash ref)) as [->|Hne].
  - rewrite lookup_delete_eq. split; [by intros []|done].
  - rewrite lookup_delete_ne, Hm, elem_of_cons by done. tauto.
Qed.

Lemma eng_step_inv x y : eng_step x y → eng_inv x → eng_inv y.
Proof.
  intros Hstep [Ho Hs Ht Hq]. unfold er_working in *. destruct Hstep as [has now ref e e' go ent run E|ref e ent1 ent2 run|ref e e' ent run E|ref e ent run1 run2]; cbn [er_engine er_entering er_running] in *.
  - unfold rf_begin in E. destruct has; [by simplify_eq; split|]. destruct (bse_inFlight e !! br_Hash ref) eqn:Ei; [by simplify_eq; split|].
    simplify_eq. split; unfold er_working; cbn [er_engine er_entering er_running bse_demandQueue bse_inFlight]; [| | |done].
    + cbn. apply NoDup_cons. split; [|done]. rewrite <- Hs, Ei. by intros [].
    + intros h. cbn. rewrite elem_of_cons, <- Hs. destruct (decide (h = br_Hash ref)) as [->|]; [rewrite lookup_insert_eq; naive_solver|].
      rewrite lookup_insert_ne by done. naive_solver.
    + by apply map_Forall_insert_2.
  - rewrite <- !app_assoc, fmap_app in Ho, Hs. cbn [app] in Ho, Hs. rewrite fmap_cons in Ho, Hs. unfold rf_enqueue. case_decide as Hl.
    + split; unfold er_working; cbn [er_engine er_entering er_running bse_demandQueue bse_inFlight]; [| |done|rewrite length_app; cbn; lia].
      * eapply NoDup_perm; [|exact Ho]. rewrite <- !app_assoc, !fmap_app, fmap_cons. solve_Permutation.
      * intros h. rewrite Hs. rewrite <- !app_assoc, !fmap_app, fmap_cons. set_solver.
    + split; unfold er_working; cbn [er_engine er_entering er_running bse_demandQueue bse_inFlight]; [| |by apply map_Forall_delete|done].
      * rewrite <- app_assoc, fmap_app. rewrite <- Permutation_middle in Ho. by apply NoDup_cons in Ho as [_ ?].
      * rewrite <- app_assoc, fmap_app. apply eng_remove; [by rewrite Permutation_middle|]. intros h. rewrite Hs. set_solver.
  - unfold bse_take in E. destruct (bse_demandQueue e) as [|r q] eqn:Eq; [done|]. simplify_eq.
    split; unfold er_working; cbn [er_engine er_entering er_running bse_demandQueue bse_inFlight]; [| |done|cbn in Hq; lia].
    + eapply NoDup_perm; [|exact Ho]. rewrite !fmap_app, !fmap_cons. solve_Permutation.
    + intros h. rewrite Hs, !fmap_app, !fmap_cons. set_solver.
  - rewrite !fmap_app, fmap_cons, !app_assoc in Ho, Hs.
    split; unfold er_working; cbn [er_engine er_entering er_running ef_finish bse_demandQueue bse_inFlight]; [| |by apply map_Forall_delete|done].
    + rewrite !fmap_app, !app_assoc. rewrite <- Permutation_middle in Ho. by apply NoDup_cons in Ho as [_ ?].
    + rewrite !fmap_app, !app_assoc. apply eng_remove; [by rewrite Permutation_middle|]. intros h. rewrite Hs. set_solver.
Qed.

Lemma eng_steps_inv x y : rtc eng_step x y → eng_inv x → eng_inv y.
Proof. induction 1; eauto using eng_step_inv. Qed.

Lemma new_engine_inv n : eng_inv (mkEngineRun (NewBlobSyncEngine n) [] []).
Proof.
  split; unfold er_working; cbn; [apply NoDup_nil_2| |apply map_Forall_empty|unfold demandQueueSize; lia].
  intros h. rewrite lookup_empty. split; [by intros []|by intros ?%elem_of_nil].
Qed.

(** * What is fetched is what was asked for *)

Section verified.
Context {W : Type} `{!BlobFetcher W}.
Context {D : Type} `{!Disk D} {L : DiskLaws D}.
Notation SS := (SubscribableStore (FSStore D)).
Notation Run := (FetchRun W (FSStore D)).
Implicit Types (s : SS) (r : Run).

Lemma try_hints_inv ctx h hints c w c' w' x : try_hints ctx h hints c w = (c', w', x) → hc_inv c → hc_inv c'.
Proof.
  revert c w. induction hints as [|hint hints IH]; intros c w; cbn [try_hints]; [by intros [= <- <- <-]|].
  destruct (FetchFromPeer _ _ _ _) as [w1 [data|err]]; [by intros [= <- <- <-]|]. intros E Hc. eapply IH; [exact E|]. by apply hc_Remove_inv.
Qed.

Lemma tryFetch_inv ctx ref c w c' w' x : tryFetch ctx ref c w = (c', w', x) → hc_inv c → hc_inv c'.
Proof.
  unfold tryFetch. destruct (try_hints _ _ _ _ _) as [[c1 w1] found] eqn:E. intros E2 Hc.
  assert (c' = c1) as -> by (repeat case_match; by simplify_eq). eauto using try_hints_inv.
Qed.

(** What the loop keeps: the other blobs and, once it succeeds, the blob itself. *)
Record run_inv (ref : BlobRef) s0 (n : Z) r : Prop := {
  ri_sound : fs_sound (ss_inner (run_store r));
  ri_others : ∀ h, hash_ok h → h ≠ br_Hash ref → blob_at (hex_encode h) (ss_inner (run_store r)) = blob_at (hex_encode h) (ss_inner s0);
  ri_blob : run_ok r = true → ∃ data, GetByHash (br_Hash ref) (run_store r) = inl data ∧ Sha256.Sum256 data = br_Hash ref;
  ri_cache : hc_inv (run_cache r);
  ri_attempts : run_attempts r <= n;
}.

Lemma run_inv_weaken ref s0 n m r : n <= m → run_inv ref s0 n r → run_inv ref s0 m r.
Proof. intros Hnm []. split; try done. lia. Qed.

Lemma run_inv_retry ref s0 n r c w a err : run_inv ref s0 n r → hc_inv c → a <= n → run_inv ref s0 n (mkRun (run_store r) c w a err false).
Proof. intros [] Hc Ha. by split. Qed.

Lemma PutVerified_inv ref s0 n r c w a err data store e : run_inv ref s0 n r → hc_inv c → a <= n →
  PutVerified ref data (run_store r) = (store, e) → run_inv ref s0 n (mkRun store c w a err (bool_decide (e = None))).
Proof.
  intros [Hs Ho Hb Hc Ha] Hc' Ha'. unfold PutVerified. case_decide as Hd; [by intros [= <- <-]; split|]. cbn [blob_Put fs_store].
  destruct (fs_Put data (ss_inner (run_store r))) as [inner res] eqn:E. pose proof (fs_Put_sound _ _ _ _ Hs E) as Hs'.
  pose proof (fs_Put_files _ _ _ _ E) as Hf.
  destruct res as [x|x]; intros [= <- <-]; (split; cbn [run_store ss_inner run_cache run_attempts run_ok]; [done| | |done..]).
  - intros h Hh Hne. destruct Hf as [_ (d' & _ & Hat)]. rewrite Hat by (by apply hash_ok_valid).
    rewrite decide_False by (apply hex_hash_ne; congruence). by apply Ho.
  - intros _. apply (fs_Put_Get _ _ _ _ Hs) in E as (d' & Hg & He). exists d'. unfold GetByHash. cbn. rewrite <- Hd. by split.
  - intros h Hh Hne. rewrite Hf by (by apply hash_ok_valid). by apply Ho.
  - by rewrite bool_decide_false.
Qed.

Lemma fetch_loop_inv ref s0 n attempt deadline policy r : run_inv ref s0 attempt r →
  run_inv ref s0 (attempt + Z.of_nat n) (fetch_loop n attempt deadline policy ref r).
Proof.
  revert attempt r. induction n as [|n IH]; intros attempt r Hr; [by apply (run_inv_weaken _ _ attempt); [lia|]|].
  cbn [fetch_loop]. case_decide; [by apply (run_inv_weaken _ _ attempt); [lia|]|].
  destruct (tryFetch _ _ _ _) as [[c w] res] eqn:E. pose proof (tryFetch_inv _ _ _ _ _ _ _ E (ri_cache _ _ _ _ Hr)) as Hc.
  assert (Hr1 : run_inv ref s0 (attempt + 1) r) by (by apply (run_inv_weaken _ _ attempt); [lia|]).
  assert (Hnext : ∀ r', run_inv ref s0 (attempt + 1) r' → run_inv ref s0 (attempt + Z.of_nat (S n)) (fetch_loop n (attempt + 1) deadline policy ref r')).
  { intros r' Hr'. apply (run_inv_weaken _ _ (attempt + 1 + Z.of_nat n)); [lia|]. by apply IH. }
  destruct res as [[data|]|err]; [|apply Hnext, run_inv_retry; (done || lia)..].
  destruct (PutVerified ref data (run_store r)) as [store e] eqn:Ep.
  destruct e as [e|].
  - apply Hnext. by apply (PutVerified_inv _ _ _ _ c w (attempt + 1) (Some (StoreRefused e)) _ _ _ Hr1 Hc ltac:(lia)) in Ep.
  - apply (run_inv_weaken _ _ (attempt + 1)); [lia|].
    by apply (PutVerified_inv _ _ _ _ c w (attempt + 1) (run_err r) _ _ _ Hr1 Hc ltac:(lia)) in Ep.
Qed.

Lemma initial_run_inv ref s c w : fs_sound (ss_inner s) → hc_inv c → run_inv ref s 0 (mkRun s c w 0 None false).
Proof. by split. Qed.

(** A peer with a usable hint that answers with another blob keeps its hint: it is asked first in every attempt. *)
Lemma liar_starves liar bad ref c n attempt deadline policy r :
  Sha256.Sum256 bad ≠ br_Hash ref → (∀ ctx w, ∃ w', FetchFromPeer ctx liar (br_Hash ref) w = (w', inl (Some bad))) →
  (∀ w : W, ∃ hint rest, hc_Get (net_now w / 1000000000) (br_Hash ref) c = hint :: rest ∧ hh_HolderPeerID hint = liar) →
  run_cache r = c → run_ok r = false →
  run_ok (fetch_loop n attempt deadline policy ref r) = false ∧ run_store (fetch_loop n attempt deadline policy ref r) = run_store r.
Proof.
  intros Hbad Hliar Hfirst. revert attempt r. induction n as [|n IH]; intros attempt r Hc Hok; [done|]. cbn [fetch_loop].
  case_decide; [done|]. unfold tryFetch. rewrite Hc. destruct (Hfirst (run_world r)) as (hint & rest & -> & Hp). cbn [try_hints]. rewrite Hp.
  destruct (Hliar (net_now (run_world r) + fp_PerFetchTimeoutMs policy * ms) (run_world r)) as [w' ->].
  unfold PutVerified. rewrite decide_True by done. destruct (IH (attempt + 1) (mkRun (run_store r) c w' (attempt + 1) (Some (StoreRefused ErrHashMismatch)) false)) as [E1 E2]; [done..|].
  by split.
Qed.
End verified.

(** * Properties *)

Section blob_properties.
Context {W : Type} `{!BlobFetcher W}.
Context {D : Type} `{!Disk D} {L : DiskLaws D}.
Notation SS := (SubscribableStore (FSStore D)).
Implicit Types (s : SS).

(** C14: whatever the peers answer, from a store without damaged files a fetch that completes leaves data with the hash that was asked for
    readable in the store, every other blob of the store is untouched and no damaged file appears; a fetch makes at most
    its policy's attempts and its session leaves the engine.  (A file whose content does not have the hash of its name is damaged; a fetch
    over one can complete and leave it as it is, see [damaged_not_repaired].  The hint cache is any one its operations make, and the policy's
    number of attempts is not negative.) *)
Theorem fetch_verified ref e s c (w : W) e' r ses :
  hc_inv c → fs_sound (ss_inner s) → 0 <= fp_MaxRetries (fs_Policy ses) → executeFetch ref e s c w = (e', r, Some ses) →
  (fs_State ses = FetchFailed ∨
   fs_State ses = FetchCompleted ∧ ∃ data, GetByHash (br_Hash ref) (run_store r) = inl data ∧ Sha256.Sum256 data = br_Hash ref) ∧
  fs_sound (ss_inner (run_store r)) ∧
  (∀ h, hash_ok h → h ≠ br_Hash ref → GetByHash h (run_store r) = GetByHash h s) ∧
  fs_Attempts ses <= fp_MaxRetries (fs_Policy ses) ∧ bse_inFlight e' !! br_Hash ref = None.
Proof.
  intros Hc Hs Hm. unfold executeFetch. destruct (bse_inFlight e !! br_Hash ref) as [session|] eqn:Es; [|done]. intros [= <- <- <-]. cbn in Hm.
  cbn [fs_State fs_Attempts fs_Policy]. set (n := Z.to_nat _). set (r := fetch_loop _ _ _ _ _ _).
  pose proof (fetch_loop_inv ref s n 0 (net_now w + fp_TotalDeadlineMs (fs_Policy session) * ms) (fs_Policy session) _ (initial_run_inv ref s c w Hs Hc)) as [Hs' Ho Hb _ Ha].
  fold r in Hs', Ho, Hb, Ha. split_and!; [| |intros h Hh Hne| |].
  - destruct (run_ok r); [right|by left]. split; [done|]. by apply Hb.
  - done.
  - unfold GetByHash. cbn. rewrite !fs_Get_eq by (by apply hash_ok_valid). by rewrite Ho.
  - lia.
  - apply lookup_delete_eq.
Qed.

(** A fetch ends.  When no hint is usable, the first answer of the origin is accepted: if it sends the blob and
    the disk takes it, the fetch completes in one attempt. *)
Theorem fetch_from_origin ref e s c (w : W) session data inner r0 :
  bse_inFlight e !! br_Hash ref = Some session → 1 <= fp_MaxRetries (fs_Policy session) → 0 <= fp_TotalDeadlineMs (fs_Policy session) →
  hc_Get (net_now w / 1000000000) (br_Hash ref) c = [] → br_OriginNodeHint ref ≠ "" →
  (∀ ctx w, ∃ w', FetchFromPeer ctx (br_OriginNodeHint ref) (br_Hash ref) w = (w', inl (Some data))) →
  Sha256.Sum256 data = br_Hash ref → fs_Put data (ss_inner s) = (inner, inl r0) →
  ∃ e' r, executeFetch ref e s c w =
    (e', r, Some (mkSession (fs_Ref session) (fs_Policy session) FetchCompleted 1 (fs_StartedAt session) (fs_LastError session))) ∧
    sub_waiting (ss_subs (run_store r)) !! br_Hash ref = None.
Proof.
  intros Hse Hm Hd Hh Ho Hf Hdata Hput. unfold executeFetch. rewrite Hse.
  destruct (Z.to_nat (fp_MaxRetries (fs_Policy session))) as [|n] eqn:En; [lia|]. cbn [fetch_loop run_world run_cache run_store run_err].
  rewrite decide_False by (unfold ms; lia). unfold tryFetch. rewrite Hh. cbn [try_hints]. rewrite decide_True by done. cbn [try_peers].
  destruct (Hf (net_now w + fp_PerFetchTimeoutMs (fs_Policy session) * ms) w) as [w' ->].
  unfold PutVerified. rewrite decide_False by tauto. cbn [blob_Put fs_store]. rewrite Hput. cbn [run_ok run_attempts run_store].
  eexists _, _. split; [done|]. cbn. apply lookup_delete_eq.
Qed.

(** Under every interleaving of requests and workers a blob is queued or fetched at most once, the engine's
    sessions are exactly those of the fetches under way, and the queue stays within its capacity.
    So no session is ever seen as failed. *)
Theorem one_fetch_per_blob n x :
  rtc eng_step (mkEngineRun (NewBlobSyncEngine n) [] []) x →
  NoDup (er_working x) ∧ (∀ h, is_Some (bse_inFlight (er_engine x) !! h) ↔ h ∈ er_working x) ∧
  Z.of_nat (length (bse_demandQueue (er_engine x))) <= demandQueueSize ∧
  ∀ has h, FetchStatus has h (er_engine x) ≠ FetchFailed.
Proof.
  intros Hx. destruct (eng_steps_inv _ _ Hx (new_engine_inv n)) as [Ho Hs Ht Hq]. split_and!; [done..|].
  intros has h. unfold FetchStatus. destruct has; [done|]. destruct (bse_inFlight _ !! h) eqn:E; [|done]. by rewrite (Ht _ _ E).
Qed.

(** After any sequence of operations on an intact store, every channel handed out for a blob that is present is
    closed, whether the blob came before or after the subscription. *)
Theorem subscribers_woken root maxSize (d : D) ops s issued h ch :
  fs_sound (NewFSStore root maxSize d) → Forall sub_op_ok ops →
  foldl run_sub_op (NewSubscribableStore (NewFSStore root maxSize d), []) ops = (s, issued) →
  (h, ch) ∈ issued → HasByHash h s = true → wait_over ch s = true.
Proof.
  intros Hs Hops E Hin Hh. pose proof (run_sub_ops_inv ops _ Hops (new_subs_inv _ _ _ Hs)) as [_ Ha Hi]. rewrite E in Ha, Hi.
  destruct (Hi _ _ Hin) as [|Hw]; [done|]. destruct (Ha _ _ Hw) as [_ Hn]. cbn [fst] in Hn. congruence.
Qed.

(** The cache of hints never exceeds its capacity, and the hints it gives for a blob are for that blob, unexpired,
    of different peers, none of them blacklisted. *)
Theorem hint_cache_bounded maxSize ops now h :
  let c := foldl run_hint_op (NewHolderHintCache maxSize) ops in
  hc_Size c <= hc_maxSize c ∧ NoDup (hh_HolderPeerID <$> hc_Get now h c) ∧
  Forall (λ x, hh_BlobHash x = h ∧ now < hh_ValidUntilUnix x ∧
    ∀ until, hc_blacklist c !! hh_HolderPeerID x = Some until → until <= now) (hc_Get now h c).
Proof.
  intros c. pose proof (run_hint_ops_inv ops _ (NewHolderHintCache_inv maxSize)) as [_ Hsize _ Hhash Hpeers]. fold c in Hsize, Hhash, Hpeers.
  split; [done|]. unfold hc_Get. destruct (hc_hints c !! h) as [l|] eqn:El; [|split; constructor]. specialize (Hhash _ _ El). specialize (Hpeers _ _ El). change (default [] (Some l)) with l.
  split.
  - clear El Hhash. induction l as [|x l IH]; [constructor|]. cbn [List.filter]. rewrite fmap_cons in Hpeers. apply NoDup_cons in Hpeers as [Hx Hl].
    destruct (hint_usable now (hc_blacklist c) x); [|auto]. rewrite fmap_cons. apply NoDup_cons. split; [|auto].
    intros (y & Hy & Hin)%list_elem_of_fmap. apply Hx, list_elem_of_fmap. exists y. split; [done|]. apply list_elem_of_In, filter_In in Hin as [Hin _]. by apply list_elem_of_In.
  - apply Forall_forall. intros x [Hin Hu]%list_elem_of_In%filter_In. apply list_elem_of_In in Hin. rewrite Forall_forall in Hhash.
    unfold hint_usable in Hu. apply andb_prop in Hu as [Ht Hb]. apply bool_decide_eq_true in Ht. split; [by apply Hhash|]. split; [done|].
    intros u E. rewrite E in Hb. apply negb_true_iff, bool_decide_eq_false in Hb. lia.
Qed.

(** A damaged file of the right size is never replaced: [Put] reports success, [Get] fails. *)
Lemma damaged_not_repaired (fs : FSStore D) data bad :
  Z.of_nat (length data) <= fs_maxBlobSize fs → blob_at (hash_of data) fs = Some bad → length bad = length data → Sha256.Sum256 bad ≠ Sha256.Sum256 data →
  fs_Put data fs = (fs, inl (hash_of data, Z.of_nat (length data))) ∧ fs_Get (hash_of data) fs = inr ErrHashMismatch.
Proof.
  intros Hl Hb Hlen Hne. split.
  - unfold fs_Put. rewrite decide_False by lia. rewrite disk_stat_files. fold (blob_at (hash_of data) fs). rewrite Hb. rewrite Hlen. by rewrite bool_decide_true.
  - rewrite fs_Get_eq, Hb by apply hash_of_valid. rewrite decide_True; [done|]. intros E%hex_encode_inj; [done|apply Sha256.Sum256_bytes..].
Qed.

(** As long as a peer with the first usable hint answers with another blob, the fetch fails: a failed
    verification removes no hint, so the origin is never asked. *)
Lemma lying_hint_starves liar bad ref e s c (w : W) session e' r ses :
  Sha256.Sum256 bad ≠ br_Hash ref → (∀ ctx w, ∃ w', FetchFromPeer ctx liar (br_Hash ref) w = (w', inl (Some bad))) →
  (∀ w : W, ∃ hint rest, hc_Get (net_now w / 1000000000) (br_Hash ref) c = hint :: rest ∧ hh_HolderPeerID hint = liar) →
  bse_inFlight e !! br_Hash ref = Some session → executeFetch ref e s c w = (e', r, Some ses) →
  fs_State ses = FetchFailed ∧ run_store r = s.
Proof.
  intros Hbad Hliar Hfirst Hse. unfold executeFetch. rewrite Hse. intros [= <- <- <-]. cbn [fs_State].
  destruct (liar_starves liar bad ref c (Z.to_nat (fp_MaxRetries (fs_Policy session))) 0 (net_now w + fp_TotalDeadlineMs (fs_Policy session) * ms)
    (fs_Policy session) (mkRun s c w 0 None false) Hbad Hliar Hfirst eq_refl eq_refl) as [-> ->]. done.
Qed.
End blob_properties.

(** * Instances *)

Section demo.
Notation Files := (gmap string (list Z)).

(** A network at a fixed time: the peer "origin" holds one blob, every other answer is a lie. *)
Definition demo_blob : list Z := bytes_of_string "evidence".
Definition demo_bad : list Z := bytes_of_string "forgery".

#[local] Instance demo_net : BlobFetcher unit := {|
  net_now _ := 1000000000000;
  net_sleep _ w := w;
  FetchFromPeer _ peer _ w := (w, inl (Some (if decide (peer = "origin") then demo_blob else demo_bad)));
  BroadcastQuery _ _ _ w := (w, inl []);
|}.

Definition demo_hash : list Z := Eval vm_compute in Sha256.Sum256 demo_blob.
Definition demo_ref : BlobRef := mkBlobRef demo_hash BlobKindEvidence 0 true "origin" 0.
Definition demo_engine : BlobSyncEngine := RequestFetch false 0 demo_ref (NewBlobSyncEngine 4).
Definition demo_store : SubscribableStore (FSStore Files) := NewSubscribableStore (NewFSStore "/blobs" 0 ∅).
Definition demo_cache : HolderHintCache := hc_Add 1000 (mkHolderHint demo_hash "liar" 5000 []) (NewHolderHintCache 0).

Lemma demo_sound : fs_sound (ss_inner demo_store).
Proof. intros h x _. unfold blob_at. cbn. by rewrite lookup_empty. Qed.

Lemma fetch_verified_witness : ∃ e' r ses,
  executeFetch demo_ref demo_engine demo_store (NewHolderHintCache 0) tt = (e', r, Some ses) ∧
  (fs_State ses = FetchFailed ∨
   fs_State ses = FetchCompleted ∧ ∃ data, GetByHash demo_hash (run_store r) = inl data ∧ Sha256.Sum256 data = demo_hash) ∧ fs_Attempts ses <= 5.
Proof.
  eexists _, _, _. split; [unfold executeFetch; reflexivity|].
  edestruct (fetch_verified demo_ref demo_engine demo_store (NewHolderHintCache 0) tt) as (H1 & _ & _ & H2 & _);
    [apply NewHolderHintCache_inv|apply demo_sound| |reflexivity|]; [apply Z.leb_le; vm_compute; reflexivity|]. split; [exact H1|exact H2].
Defined.

Lemma fetch_from_origin_witness : ∃ e' r,
  executeFetch demo_ref demo_engine demo_store (NewHolderHintCache 0) tt =
    (e', r, Some (mkSession demo_ref ConsensusBlockingPolicy FetchCompleted 1 0 None)) ∧
  sub_waiting (ss_subs (run_store r)) !! demo_hash = None.
Proof.
  apply (fetch_from_origin demo_ref demo_engine demo_store (NewHolderHintCache 0) tt (mkSession demo_ref ConsensusBlockingPolicy FetchInFlight 0 0 None)
    demo_blob (fs_Put demo_blob (ss_inner demo_store)).1 (hash_of demo_blob, 8)).
  - vm_compute. reflexivity.
  - cbn. lia.
  - cbn. lia.
  - reflexivity.
  - by vm_compute.
  - intros ctx w. exists w. reflexivity.
  - vm_compute. reflexivity.
  - reflexivity.
Defined.

Lemma one_fetch_per_blob_witness : ∃ x, rtc eng_step (mkEngineRun (NewBlobSyncEngine 4) [] []) x ∧ er_running x = [demo_ref] ∧ NoDup (er_working x).
Proof.
  set (e1 := (rf_begin false 0 demo_ref (NewBlobSyncEngine 4)).1).
  exists (mkEngineRun (mkSyncEngine [] (bse_inFlight e1) 4) [] [demo_ref]).
  assert (Hx : rtc eng_step (mkEngineRun (NewBlobSyncEngine 4) [] []) (mkEngineRun (mkSyncEngine [] (bse_inFlight e1) 4) [] [demo_ref])).
  { eapply rtc_l; [apply (es_request false 0 demo_ref); reflexivity|]. eapply rtc_l; [apply (es_enqueue demo_ref _ [] [])|].
    eapply rtc_l; [apply es_take; reflexivity|]. apply rtc_refl. }
  split; [exact Hx|]. split; [reflexivity|]. exact (proj1 (one_fetch_per_blob 4 _ Hx)).
Defined.

Lemma demo_hash_ok : hash_ok demo_hash.
Proof. split; [done|]. apply (bool_decide_unpack _). vm_compute. exact I. Qed.

Lemma subscribers_woken_witness :
  let '(s, issued) := foldl run_sub_op (demo_store, []) [SubSubscribe demo_hash; SubPutVerified demo_ref demo_blob; SubSubscribe demo_hash] in
  issued = [(demo_hash, 0%nat); (demo_hash, 1%nat)] ∧ HasByHash demo_hash s = true ∧ wait_over 0 s = true ∧ wait_over 1 s = true.
Proof.
  destruct (foldl _ _ _) as [s issued] eqn:E.
  assert (Ei : issued = [(demo_hash, 0%nat); (demo_hash, 1%nat)]) by (change issued with (s, issued).2; rewrite <- E; vm_compute; reflexivity).
  assert (Eh : HasByHash demo_hash s = true) by (change s with (s, issued).1; rewrite <- E; vm_compute; reflexivity).
  split; [done|]. split; [done|]. subst issued.
  split; eapply (subscribers_woken "/blobs" 0 (∅ : Files) _ s _ demo_hash); try exact E; try exact Eh; try apply demo_sound.
  1,3: repeat (constructor; [exact demo_hash_ok || exact I|]); constructor.
  all: apply list_elem_of_In; cbn; tauto.
Defined.

(** The test of [Subscribe], a [Put], then the subscription: the channel stays open although the blob is there. *)
Lemma lost_subscription :
  let s := (ss_Put demo_blob demo_store).1 in
  let '(s, ch) := Subscribe_rest (HasByHash demo_hash demo_store) demo_hash s in
  HasByHash demo_hash s = true ∧ wait_over ch s = false.
Proof. vm_compute. done. Qed.

(** The liar's hint is kept: the fetch fails although the origin has the blob. *)
Lemma lying_hint_demo : ∃ e' r ses,
  executeFetch demo_ref demo_engine demo_store (mkHintCache {[demo_hash := [mkHolderHint demo_hash "liar" 5000 []]]} [demo_hash] 10 ∅) tt = (e', r, Some ses) ∧
  fs_State ses = FetchFailed.
Proof.
  eexists _, _, _. split; [unfold executeFetch; reflexivity|].
  eapply (lying_hint_starves "liar" demo_bad demo_ref demo_engine demo_store (mkHintCache {[demo_hash := [mkHolderHint demo_hash "liar" 5000 []]]} [demo_hash] 10 ∅) tt);
    [|intros ctx w; by exists w| | |unfold executeFetch; reflexivity].
  - by vm_compute.
  - intros w. eexists _, _. split; vm_compute; reflexivity.
  - vm_compute. reflexivity.
Qed.
End demo.

(** * The transport *)

(** A fetch ends with data only if the peer that was asked answered for that hash. *)
Definition fetch_answered (t : BlobTransport) (id : nat) : bool := match bt_fetches t !! id with Some (Some _) => true | _ => false end.

Lemma response_routed `{!BlobWire} peer payload t id :
  fetch_answered t id = false → fetch_answered (HandleBlobResponse peer payload t) id = true →
  ∃ resp, unmarshal_response payload = Some resp ∧ bt_pendingFetches t !! fetchKey (brw_Hash resp) peer = Some id.
Proof.
  unfold HandleBlobResponse. destruct (unmarshal_response payload) as [resp|]; [|congruence]. case_decide; [congruence|].
  destruct (bt_pendingFetches t !! _) as [k|] eqn:E; [|congruence]. unfold fetch_answered. cbn [bt_fetches].
  destruct (decide (k = id)) as [->|Hne]; [eauto|]. rewrite lookup_alter_ne by done. congruence.
Qed.

(** Two answers handled at once both find the channel open: the second close panics. *)
Lemma query_close_race `{!BlobWire} p1 p2 pay1 pay2 t id q r1 r2 :
  unmarshal_queryResponse pay1 = Some r1 → unmarshal_queryResponse pay2 = Some r2 → bqr_HasBlob r1 = true → bqr_HasBlob r2 = true →
  bt_pendingQueries t !! bqr_Hash r1 = Some id → bt_pendingQueries t !! bqr_Hash r2 = Some id → bt_queries t !! id = Some q → pq_done q = false →
  let '(t1, c1) := hbqr_begin p1 pay1 t in let '(t2, c2) := hbqr_begin p2 pay2 t1 in
  c1 = Some id ∧ c2 = Some id ∧ (t3 ← hbqr_close id t2; hbqr_close id t3) = None.
Proof.
  intros E1 E2 H1 H2 K1 K2 Hq Hd. unfold hbqr_begin. rewrite E1, K1, H1. cbn. rewrite lookup_alter_eq, Hq. cbn.
  rewrite E2. cbn. rewrite K2, H2. cbn. rewrite !lookup_alter_eq, Hq. cbn. rewrite Hd. rewrite !length_app. cbn.
  rewrite !bool_decide_true by (right; lia). split_and!; [done..|]. unfold hbqr_close. cbn. rewrite !lookup_alter_eq, Hq. cbn. rewrite Hd. cbn.
  by rewrite !lookup_alter_eq, Hq.
Qed.
