(* ===== verification/Trajectory.v ===== *)
(** internal/localpub and internal/trajectory, with event/trajectory.go: the publication of
    local events, and the commits by which the agent of a task records its exploration.

    The publisher adds to the graph of Dag and then disseminates.  A commit is signed as in Jcs, its
    checkpoint is a blob of the store class of Blobs, and its task is looked up in Tasks.
    encoding/json is written out for the two structs that are marshalled; decoding is the class
    [TrajectoryCodec]. *)

From stdpp Require Import sets fin_sets.
From S2P Require Import Prelude GoStd Store Event Float64 Jcs Graph Dag Assurance Tasks Slashing Blobs.
#[local] Open Scope Z_scope.

(** * Publication *)

(** [EventDisseminator]: both calls may fail. *)
Class EventDisseminator (N : Type) : Type := {
  diss_SubmitLocalEvent : Event → N → N * bool;
  diss_Broadcast : Event → N → N * bool;
}.

Record Publisher (St N : Type) := mkPublisher { pub_dag : DAG St; pub_disseminator : option N }.
#[global] Arguments mkPublisher {St N} _ _.
#[global] Arguments pub_dag {St N} _.
#[global] Arguments pub_disseminator {St N} _.

Inductive PublishError := ErrNilEvent | ErrDAGAddFailed (e : DagError).

Section publisher.
Context {lib : JsonLib} {ed : Ed25519} {St : Type} `{!Persistence St Event} {N : Type} `{!EventDisseminator N}.
Notation Publisher := (Publisher St N).
Implicit Types (p : Publisher).

Definition pub_New (d : DAG St) (n : option N) : Publisher := mkPublisher d n.

Definition SetDisseminator (n : option N) p : Publisher := mkPublisher (pub_dag p) n.

Definition disseminate (ev : Event) p : Publisher :=
  match pub_disseminator p with
  | None => p
  | Some n => mkPublisher (pub_dag p) (Some (diss_Broadcast ev (diss_SubmitLocalEvent ev n).1).1)
  end.

Definition Publish (ev : option Event) p : Publisher * option PublishError :=
  match ev with
  | None => (p, Some ErrNilEvent)
  | Some ev =>
      let '(d, err) := dag_Add ev (pub_dag p) in
      match err with
      | Some err => (mkPublisher d (pub_disseminator p), Some (ErrDAGAddFailed err))
      | None => (disseminate ev (mkPublisher d (pub_disseminator p)), None)
      end
  end.

Fixpoint publish_loop (events : list (option Event)) (published : Z) (firstErr : option PublishError) p : Publisher * Z * option PublishError :=
  match events with
  | [] => (p, published, firstErr)
  | ev :: events' =>
      let '(p, err) := Publish ev p in
      match err with
      | Some err => publish_loop events' published (Some (default err firstErr)) p
      | None => publish_loop events' (published + 1) firstErr p
      end
  end.

Definition PublishBatch (events : list (option Event)) p : Publisher * Z * option PublishError := publish_loop events 0 None p.
End publisher.

(** * Commit payloads *)

Notation TrajectoryOutcome := string (only parsing).
Definition OutcomeExploring : TrajectoryOutcome := "exploring".
Definition OutcomeDeadEnd : TrajectoryOutcome := "dead_end".
Definition OutcomePivot : TrajectoryOutcome := "pivot".
Definition OutcomeConverged : TrajectoryOutcome := "converged".

Definition validOutcomes : gmap TrajectoryOutcome bool :=
  {[OutcomeExploring := true; OutcomeDeadEnd := true; OutcomePivot := true; OutcomeConverged := true]}.

Definition IsValidOutcome (o : TrajectoryOutcome) : bool := default false (validOutcomes !! o).

Record TrajectoryCommitPayload := mkCommitPayload {
  tc_Version : Z;
  tc_TaskID : string;
  tc_ParentCommitID : string;
  tc_Outcome : TrajectoryOutcome;
  tc_CheckpointHash : string;
  tc_CheckpointSize : Z;
  tc_ComputeCost : Z;
  tc_QualityScoreBP : Z;
  tc_CategoryHint : string;
  tc_BranchID : string;
}.

Inductive TrajectoryPayloadError :=
  | ErrTrajectoryMissingTaskID
  | ErrTrajectoryMissingOutcome
  | ErrTrajectoryInvalidOutcome (o : TrajectoryOutcome)
  | ErrTrajectoryMissingCheckpointHash
  | ErrTrajectoryInvalidCheckpointSize
  | ErrTrajectoryInvalidQualityScore.

Definition tc_Validate (p : TrajectoryCommitPayload) : option TrajectoryPayloadError :=
  if decide (tc_TaskID p = "") then Some ErrTrajectoryMissingTaskID
  else if decide (tc_Outcome p = "") then Some ErrTrajectoryMissingOutcome
  else if negb (IsValidOutcome (tc_Outcome p)) then Some (ErrTrajectoryInvalidOutcome (tc_Outcome p))
  else if decide (tc_CheckpointHash p = "") then Some ErrTrajectoryMissingCheckpointHash
  else if decide (tc_CheckpointSize p <= 0) then Some ErrTrajectoryInvalidCheckpointSize
  else if decide (10000 < tc_QualityScoreBP p) then Some ErrTrajectoryInvalidQualityScore
  else None.

Definition IsRootCommit (p : TrajectoryCommitPayload) : bool := bool_decide (tc_ParentCommitID p = "").

(** * encoding/json

    A string is a sequence of tokens: a byte of a rune, a line or paragraph separator
    (U+2028, U+2029, by its last digit), or a byte that is not UTF-8. *)
Inductive gtoken := GByte (c : Ascii.ascii) | GSep (digit : Ascii.ascii) | GBad.

(** The last digit of a separator at the head of [s]: the bytes e2 80 a8 or e2 80 a9. *)
Definition sep_digit (s : string) : option Ascii.ascii :=
  if bool_decide (byte_at 0 s = 226%nat) && bool_decide (byte_at 1 s = 128%nat) then
    if bool_decide (byte_at 2 s = 168%nat) then Some (Ascii.ascii_of_nat 56)
    else if bool_decide (byte_at 2 s = 169%nat) then Some (Ascii.ascii_of_nat 57) else None
  else None.

(** [pending] bytes of the current rune are left, copied or [skip]ped. *)
Fixpoint gtokens (pending : nat) (skip : bool) (s : string) : list gtoken :=
  match s with
  | EmptyString => []
  | String c s' =>
      match pending with
      | S k => if skip then gtokens k skip s' else GByte c :: gtokens k skip s'
      | O =>
          match rune_width s with
          | O => GBad :: gtokens 0 false s'
          | S k => match sep_digit s with Some d => GSep d :: gtokens k true s' | None => GByte c :: gtokens k false s' end
          end
      end
  end.

(** [<], [>] and [&] are escaped too. *)
Definition html_char (c : Ascii.ascii) : bool :=
  let n := Ascii.nat_of_ascii c in bool_decide (n = 60%nat ∨ n = 62%nat ∨ n = 38%nat).

Definition gescape (t : gtoken) : string :=
  match t with
  | GByte c =>
      let n := Ascii.nat_of_ascii c in
      if html_char c then String backslash ("u00" +:+ String (hex_char (n / 16)) (String (hex_char (n mod 16)) "")) else escape c
  | GSep d => String backslash ("u202" +:+ String d "")
  | GBad => String backslash "ufffd"
  end.

Fixpoint gescapes (l : list gtoken) : string :=
  match l with [] => "" | t :: l' => gescape t +:+ gescapes l' end.

Definition gquote (s : string) : string := String quote (gescapes (gtokens 0 false s) +:+ String quote "").

Definition json_member (name : string) (value : string) : string := gquote name +:+ ":" +:+ value.

(** [omitempty] on a string. *)
Definition json_omitempty (name : string) (value : string) : list string :=
  if decide (value = "") then [] else [json_member name (gquote value)].

Definition json_object (members : list string) : string := "{" +:+ commas members +:+ "}".

Definition marshal_commit (p : TrajectoryCommitPayload) : string :=
  json_object (
    [json_member "v" (FormatInt (tc_Version p)); json_member "task_id" (gquote (tc_TaskID p))] ++
    json_omitempty "parent_commit_id" (tc_ParentCommitID p) ++
    [json_member "outcome" (gquote (tc_Outcome p)); json_member "checkpoint_hash" (gquote (tc_CheckpointHash p));
     json_member "checkpoint_size" (FormatInt (tc_CheckpointSize p)); json_member "compute_cost" (FormatInt (tc_ComputeCost p));
     json_member "quality_score_bp" (FormatInt (tc_QualityScoreBP p))] ++
    json_omitempty "category_hint" (tc_CategoryHint p) ++ json_omitempty "branch_id" (tc_BranchID p)).

(** * Checkpoints *)

Record CheckpointBody := mkCheckpoint {
  cb_ApproachDescription : string;
  cb_Parameters : option (gmap string string);
  cb_EvidenceSnippet : string;
  cb_ErrorDetail : string;
  cb_IntermediateOutputHash : string;
}.

(** A map is marshalled in the order of its keys. *)
Definition json_map (m : gmap string string) : string :=
  json_object ((λ kv, json_member kv.1 (gquote kv.2)) <$> sort_slice key_le (map_to_list m)).

Definition CanonicalCheckpointBytes (body : CheckpointBody) : string :=
  json_object [
    json_member "approach_description" (gquote (cb_ApproachDescription body));
    json_member "error_detail" (gquote (cb_ErrorDetail body));
    json_member "evidence_snippet" (gquote (cb_EvidenceSnippet body));
    json_member "intermediate_output_hash" (gquote (cb_IntermediateOutputHash body));
    json_member "parameters" (json_map (default ∅ (cb_Parameters body)))].

Definition ComputeCheckpointHash (body : CheckpointBody) : string * Z :=
  let data := CanonicalCheckpointBytes body in (hex_encode (Sha256.Sum256 (bytes_of_string data)), Z.of_nat (String.length data)).

(** * The exploration root *)

Definition MaxExplorationSample : Z := 10.

#[global] Instance string_le_dec (a b : string) : Decision (String.le a b).
Proof. unfold String.le. apply _. Defined.

(** [sort.Strings]. *)
Definition sort_strings (l : list string) : list string := sort_slice String.le l.

(** One pass of the loop; an odd element is kept. *)
Fixpoint merkle_level (hashes : list (list Z)) : list (list Z) :=
  match hashes with
  | l :: r :: hashes' => Sha256.Sum256 (l ++ r) :: merkle_level hashes'
  | _ => hashes
  end.

(** The loop; [fuel] bounds its passes. *)
Fixpoint merkle_loop (fuel : nat) (hashes : list (list Z)) : option (list Z) :=
  match hashes with
  | [] => None
  | [root] => Some root
  | _ => match fuel with O => None | S fuel => merkle_loop fuel (merkle_level hashes) end
  end.

Definition merkle_leaves (ids : list string) : list (list Z) := (λ id, Sha256.Sum256 (bytes_of_string id)) <$> sort_strings ids.

Definition ComputeExplorationRoot (eventIDs : list string) : option string :=
  if decide (eventIDs = []) then Some ""
  else hex_encode <$> merkle_loop (length eventIDs) (merkle_leaves eventIDs).

Definition SampleExplorationCommits (eventIDs : list string) (max : Z) : list string :=
  let max := if decide (max <= 0 ∨ MaxExplorationSample < max) then MaxExplorationSample else max in
  take (Z.to_nat max) (sort_strings eventIDs).

(** * The service *)

Record TrajectoryConfig := mkTrajConfig {
  tcf_Enabled : bool;
  tcf_MaxCommitsPerTask : Z;
  tcf_MaxCommitsPerMinute : Z;
  tcf_MaxCheckpointBodySize : Z;
  tcf_MaxCommitPayloadSize : Z;
  tcf_FetchCheckpointBodiesByDefault : bool;
  tcf_IndexTrajectoryBlobs : bool;
}.

Definition DefaultTrajectoryConfig : TrajectoryConfig := mkTrajConfig true 100 10 1048576 65536 false true.

Inductive TrajectoryError :=
  | ErrTrajectoryDisabled
  | ErrNotClaimer
  | ErrTaskNotClaimedT
  | ErrPerTaskLimitExceeded
  | ErrRateLimitExceeded
  | ErrCheckpointTooLarge
  | ErrPayloadTooLarge
  | ErrParentNotFound
  | ErrClaimEventMissing
  | TrajTask (e : TaskError)
  | TrajBlob (e : BlobError)
  | TrajPayload (e : TrajectoryPayloadError)
  | TrajCreate
  | TrajSign
  | TrajPublish (e : PublishError).

Record rateWindow := mkRate { rw_count : Z; rw_windowAt : Z }.

(** The counters of [Service]. *)
Record TrajLimits := mkTrajLimits { tl_taskCommits : gmap string Z; tl_agentRate : gmap AgentID rateWindow }.

Record CommitRequest := mkCommitRequest {
  cr_TaskID : string;
  cr_ParentCommitID : string;
  cr_Outcome : TrajectoryOutcome;
  cr_ApproachDescription : string;
  cr_Parameters : option (gmap string string);
  cr_EvidenceSnippet : string;
  cr_ErrorDetail : string;
  cr_IntermediateOutputHash : string;
  cr_ComputeCost : Z;
  cr_QualityScoreBP : Z;
  cr_CategoryHint : string;
  cr_BranchID : string;
}.

Record CommitResponse := mkCommitResponse { cres_EventID : EventID; cres_CheckpointHash : string; cres_CheckpointSize : Z; cres_TaskID : string }.

(** Decoding: [json.Unmarshal] into the payload and into a checkpoint. *)
Class TrajectoryCodec : Type := {
  unmarshal_commit : string → option TrajectoryCommitPayload;
  unmarshal_checkpoint : string → option CheckpointBody;
}.

Record CommitNode := mkCommitNode {
  cn_EventID : EventID;
  cn_TaskID : string;
  cn_ParentCommitID : string;
  cn_Outcome : TrajectoryOutcome;
  cn_CheckpointHash : string;
  cn_CheckpointSize : Z;
  cn_ComputeCost : Z;
  cn_QualityScoreBP : Z;
  cn_CategoryHint : string;
  cn_BranchID : string;
  cn_CausalTimestamp : Z;
  cn_AgentID : string;
}.

Record CommitWithBody := mkCommitWithBody { cw_node :> CommitNode; cw_CheckpointBody : option CheckpointBody; cw_BodyAvailable : bool }.

Record TreeResponse := mkTree { tr_TaskID : string; tr_Count : Z; tr_Commits : list CommitWithBody }.

Definition MaxTrajectoryLimit : Z := 500.

Section service.
Context {lib : JsonLib} {ed : Ed25519} {St : Type} `{!Persistence St Event} {N : Type} `{!EventDisseminator N}.
Context {B : Type} `{!BlobStore B} {TS TW : Type} {codec : TrajectoryCodec} {order : RangeOrder}.

(** The service with what it shares: the publisher, which holds the graph and the node, the blobs,
    the tasks.  [sv_publisher] tells whether [SetPublisher] was called. *)
Record TService := mkTService {
  sv_config : TrajectoryConfig;
  sv_pub : Publisher St N;
  sv_blob : B;
  sv_taskMgr : TaskManager TS TW;
  sv_kp : KeyPair;
  sv_publisher : bool;
  sv_limits : TrajLimits;
}.
Implicit Types (s : TService).

Definition sv_dag s : DAG St := pub_dag (sv_pub s).
Definition set_pub p s : TService := mkTService (sv_config s) p (sv_blob s) (sv_taskMgr s) (sv_kp s) (sv_publisher s) (sv_limits s).
Definition set_blob b s : TService := mkTService (sv_config s) (sv_pub s) b (sv_taskMgr s) (sv_kp s) (sv_publisher s) (sv_limits s).
Definition set_limits l s : TService := mkTService (sv_config s) (sv_pub s) (sv_blob s) (sv_taskMgr s) (sv_kp s) (sv_publisher s) l.

Definition sv_New (config : TrajectoryConfig) (p : Publisher St N) (b : B) (tm : TaskManager TS TW) (kp : KeyPair) : TService :=
  mkTService config p b tm kp false (mkTrajLimits ∅ ∅).

Definition SetPublisher s : TService :=
  mkTService (sv_config s) (sv_pub s) (sv_blob s) (sv_taskMgr s) (sv_kp s) true (sv_limits s).

Definition CommitCount (taskID : string) s : Z := default 0 (tl_taskCommits (sv_limits s) !! taskID).

(** The task of a request, if the actor may commit to it. *)
Definition authorize (actorID : AgentID) (req : CommitRequest) s : TrajectoryError + Task :=
  if negb (tcf_Enabled (sv_config s)) then inl ErrTrajectoryDisabled
  else match tm_Get (cr_TaskID req) (sv_taskMgr s) with
  | inl e => inl (TrajTask e)
  | inr task =>
      if decide (t_Status task ≠ TaskStatusClaimed ∧ t_Status task ≠ TaskStatusSubmitted) then inl ErrTaskNotClaimedT
      else if decide (t_ClaimerID task ≠ actorID) then inl ErrNotClaimer
      else if decide (t_ClaimEventID task = "") then inl ErrClaimEventMissing
      else inr task
  end.

(** The two limits, under the mutex. *)
Definition pass_limits (minute : Z) (actorID : AgentID) (taskID : string) s : TService * option TrajectoryError :=
  let l := sv_limits s in
  if decide (tcf_MaxCommitsPerTask (sv_config s) <= CommitCount taskID s) then (s, Some ErrPerTaskLimitExceeded)
  else
    let rate rw := set_limits (mkTrajLimits (tl_taskCommits l) (<[actorID := rw]> (tl_agentRate l))) s in
    match tl_agentRate l !! actorID with
    | Some rw =>
        if decide (rw_windowAt rw ≠ minute) then (rate (mkRate 1 minute), None)
        else if decide (tcf_MaxCommitsPerMinute (sv_config s) <= rw_count rw) then (s, Some ErrRateLimitExceeded)
        else (rate (mkRate (rw_count rw + 1) minute), None)
    | None => (rate (mkRate 1 minute), None)
    end.

Definition checkpoint_of (req : CommitRequest) : CheckpointBody :=
  mkCheckpoint (cr_ApproachDescription req) (cr_Parameters req) (cr_EvidenceSnippet req) (cr_ErrorDetail req) (cr_IntermediateOutputHash req).

Definition store_checkpoint (req : CommitRequest) s : TService * (TrajectoryError + string * Z) :=
  let canonical := CanonicalCheckpointBytes (checkpoint_of req) in
  if decide (tcf_MaxCheckpointBodySize (sv_config s) < Z.of_nat (String.length canonical)) then (s, inl ErrCheckpointTooLarge)
  else let '(b, res) := blob_Put (bytes_of_string canonical) (sv_blob s) in
       (set_blob b s, match res with inl r => inr r | inr e => inl (TrajBlob e) end).

Definition payload_of (req : CommitRequest) (blobHash : string) (blobSize : Z) : TrajectoryCommitPayload :=
  mkCommitPayload 1 (cr_TaskID req) (cr_ParentCommitID req) (cr_Outcome req) blobHash blobSize (cr_ComputeCost req) (cr_QualityScoreBP req)
    (cr_CategoryHint req) (cr_BranchID req).

(** The prior timestamp of a reference, if it is in the graph. *)
Definition prior_of s (ids : list EventID) : gmap EventID Z :=
  foldl (λ m id, match dag_events (sv_dag s) !! id with Some ev => <[id := CausalTimestamp ev]> m | None => m end) ∅ ids.

Definition commit_refs (task : Task) (req : CommitRequest) s : TrajectoryError + list EventID :=
  if decide (cr_ParentCommitID req = "") then inr [t_ClaimEventID task]
  else match dag_Get (cr_ParentCommitID req) (sv_dag s) with
  | inl _ => inl ErrParentNotFound
  | inr _ => inr [t_ClaimEventID task; cr_ParentCommitID req]
  end.

(** The publisher, or the fallback: both add to the graph, then disseminate. *)
Definition publish (ev : Event) s : TService * option TrajectoryError :=
  if sv_publisher s then
    let '(p, err) := Publish (Some ev) (sv_pub s) in (set_pub p s, TrajPublish <$> err)
  else
    let '(d, err) := dag_Add ev (sv_dag s) in
    let p := mkPublisher d (pub_disseminator (sv_pub s)) in
    match err with
    | Some e => (set_pub p s, Some (TrajPublish (ErrDAGAddFailed e)))
    | None => (set_pub (disseminate ev p) s, None)
    end.

(** The event of a commit, signed. *)
Definition commit_event (actorID : AgentID) (task : Task) (req : CommitRequest) (payload : TrajectoryCommitPayload) s : TrajectoryError + Event :=
  match tc_Validate payload with
  | Some e => inl (TrajPayload e)
  | None =>
      let payloadBytes := marshal_commit payload in
      if decide (tcf_MaxCommitPayloadSize (sv_config s) < Z.of_nat (String.length payloadBytes)) then inl ErrPayloadTooLarge
      else match commit_refs task req s with
      | inl e => inl e
      | inr refs =>
          match New EventTypeTrajectoryCommit (Some refs) (ValuePayload (Some payloadBytes)) actorID (prior_of s refs) 0 with
          | None => inl TrajCreate
          | Some ev => match SignEvent ev (sv_kp s) with None => inl TrajSign | Some ev => inr ev end
          end
      end
  end.

Definition count_commit (taskID : string) s : TService :=
  set_limits (mkTrajLimits (<[taskID := CommitCount taskID s + 1]> (tl_taskCommits (sv_limits s))) (tl_agentRate (sv_limits s))) s.

(** [EmitCommit] after the limits: the mutex is released until the commit is counted. *)
Definition emit_rest (actorID : AgentID) (task : Task) (req : CommitRequest) s : TService * (TrajectoryError + CommitResponse) :=
  let '(s, res) := store_checkpoint req s in
  match res with
  | inl e => (s, inl e)
  | inr (blobHash, blobSize) =>
      match commit_event actorID task req (payload_of req blobHash blobSize) s with
      | inl e => (s, inl e)
      | inr ev =>
          let '(s, err) := publish ev s in
          match err with
          | Some e => (s, inl e)
          | None => (count_commit (cr_TaskID req) s, inr (mkCommitResponse (ID ev) blobHash blobSize (cr_TaskID req)))
          end
      end
  end.

(** [now] is [time.Now().Unix()]. *)
Definition sv_EmitCommit (now : Z) (actorID : AgentID) (req : CommitRequest) s : TService * (TrajectoryError + CommitResponse) :=
  match authorize actorID req s with
  | inl e => (s, inl e)
  | inr task =>
      let '(s, err) := pass_limits (Z.quot now 60) actorID (cr_TaskID req) s in
      match err with Some e => (s, inl e) | None => emit_rest actorID task req s end
  end.

(** * Reading *)

Definition CommitNodeFromEvent (ev : Event) : option CommitNode :=
  if decide (Type_ ev ≠ EventTypeTrajectoryCommit) then None
  else
    payload ← (Payload ev ≫= unmarshal_commit);
    Some (mkCommitNode (ID ev) (tc_TaskID payload) (tc_ParentCommitID payload) (tc_Outcome payload) (tc_CheckpointHash payload)
      (tc_CheckpointSize payload) (tc_ComputeCost payload) (tc_QualityScoreBP payload) (tc_CategoryHint payload) (tc_BranchID payload)
      (CausalTimestamp ev) (AgentID_ ev)).

Definition commit_le (a b : CommitWithBody) : Prop :=
  cn_CausalTimestamp a < cn_CausalTimestamp b ∨ (cn_CausalTimestamp a = cn_CausalTimestamp b ∧ String.le (cn_EventID a) (cn_EventID b)).

#[global] Instance commit_le_dec a b : Decision (commit_le a b).
Proof. unfold commit_le. apply _. Defined.

Definition sortCommits (nodes : list CommitWithBody) : list CommitWithBody := sort_slice commit_le nodes.

(** The scan of the graph. *)
Definition commit_matches (taskID branchID : string) (ev : Event) : option CommitWithBody :=
  node ← CommitNodeFromEvent ev;
  if decide (cn_TaskID node ≠ taskID) then None
  else if decide (branchID ≠ "" ∧ cn_BranchID node ≠ branchID) then None
  else Some (mkCommitWithBody node None false).

Definition fetch_body (b : B) (n : CommitWithBody) : CommitWithBody :=
  if decide (cn_CheckpointHash n = "") then n
  else match blob_Get (cn_CheckpointHash n) b with
  | inr _ => mkCommitWithBody n (cw_CheckpointBody n) false
  | inl data =>
      match unmarshal_checkpoint (string_of_bytes data) with
      | None => mkCommitWithBody n (cw_CheckpointBody n) false
      | Some body => mkCommitWithBody n (Some body) true
      end
  end.

Definition GetTrajectories (taskID : string) (includeBodies : bool) (branchID : string) (limit : Z) s : TreeResponse :=
  let limit := if decide (limit <= 0 ∨ MaxTrajectoryLimit < limit) then MaxTrajectoryLimit else limit in
  let nodes := take (Z.to_nat limit) (sortCommits (omap (commit_matches taskID branchID) (dag_All (sv_dag s)))) in
  let nodes := if includeBodies then fetch_body (sv_blob s) <$> nodes else nodes in
  mkTree taskID (Z.of_nat (length nodes)) nodes.
End service.
#[global] Arguments TService : clear implicits.

(** * The exploration root *)

Lemma sort_strings_perm l l' : l ≡ₚ l' → sort_strings l = sort_strings l'.
Proof. intros Hp. unfold sort_strings. by apply (sort_slice_unique String.le). Qed.

Lemma sort_strings_Permutation l : sort_strings l ≡ₚ l.
Proof. apply sort_slice_perm. Qed.

#[global] Instance bytes_of_string_inj : Inj (=) (=) bytes_of_string.
Proof.
  assert (Hinj : Inj (=) (=) (λ c, Z.of_N (Ascii.N_of_ascii c))).
  { intros x y Hxy. rewrite <- (Ascii.ascii_N_embedding x), <- (Ascii.ascii_N_embedding y). f_equal. lia. }
  intros a b E. unfold bytes_of_string in E. apply (inj (fmap _)) in E.
  by rewrite <- (String.string_of_list_ascii_of_string a), E, String.string_of_list_ascii_of_string.
Qed.

(** Two different messages, one of each list, with the same SHA-256. *)
Definition collision (A B : list (list Z)) : Prop := ∃ x y, x ∈ A ∧ y ∈ B ∧ x ≠ y ∧ Sha256.Sum256 x = Sha256.Sum256 y.

Lemma collision_mono A A' B B' : A ⊆ A' → B ⊆ B' → collision A B → collision A' B'.
Proof. intros HA HB (x & y & ? & ? & ? & ?). exists x, y. auto. Qed.

(** The messages hashed by a pass, by the loop, and by the whole computation. *)
Fixpoint level_inputs (hashes : list (list Z)) : list (list Z) :=
  match hashes with l :: r :: hashes' => (l ++ r) :: level_inputs hashes' | _ => [] end.

Fixpoint loop_inputs (fuel : nat) (hashes : list (list Z)) : list (list Z) :=
  match hashes with
  | [] | [_] => []
  | _ => match fuel with O => [] | S fuel => level_inputs hashes ++ loop_inputs fuel (merkle_level hashes) end
  end.

Definition merkle_inputs (ids : list string) : list (list Z) :=
  (bytes_of_string <$> sort_strings ids) ++ loop_inputs (length ids) (merkle_leaves ids).

(** Lists are taken apart two elements at a time. *)
Lemma pair_ind {A} (P : list A → Prop) : P [] → (∀ x, P [x]) → (∀ x y l, P l → P (x :: y :: l)) → ∀ l, P l.
Proof.
  intros H0 H1 H2 l. assert (P l ∧ ∀ x, P (x :: l)) as [? _]; [|done].
  induction l as [|y l [IH1 IH2]]; [auto|]. split; [done|]. intros x. auto.
Qed.

Definition digests (l : list (list Z)) : Prop := Forall (λ h, length h = 32%nat) l.

Lemma merkle_level_digests l : digests l → digests (merkle_level l).
Proof.
  unfold digests. induction l as [|x|x y l IH] using pair_ind; cbn [merkle_level]; [done|done|].
  rewrite !Forall_cons. intros (_ & _ & Hl). split; [apply Sha256.Sum256_length|auto].
Qed.

Lemma merkle_leaves_digests ids : digests (merkle_leaves ids).
Proof. apply Forall_fmap, Forall_forall. intros id _. apply Sha256.Sum256_length. Qed.

Lemma merkle_level_length l : (length (merkle_level l) <= length l)%nat ∧ ((2 <= length l)%nat → (1 <= length (merkle_level l) < length l)%nat).
Proof. induction l as [|x|x y l IH] using pair_ind; cbn [merkle_level length] in *; lia. Qed.

(** A pass tells lists of the same length apart, unless it hits a collision. *)
Lemma merkle_level_binds l1 l2 : length l1 = length l2 → digests l1 → digests l2 → merkle_level l1 = merkle_level l2 →
  l1 = l2 ∨ collision (level_inputs l1) (level_inputs l2).
Proof.
  unfold digests. revert l2. induction l1 as [|x|x y l1 IH] using pair_ind; intros [|a [|b l2]] Hlen; try done; cbn [merkle_level level_inputs].
  - intros _ _ _. by left.
  - intros _ _ [= ->]. by left.
  - rewrite !Forall_cons. intros (Hx & Hy & H1) (Ha & Hb & H2) [= Hs E]. destruct (decide (x ++ y = a ++ b)) as [Heq|Hne].
    + apply app_inj_1 in Heq as [-> ->]; [|congruence]. destruct (IH l2 ltac:(cbn in Hlen; lia) H1 H2 E) as [->|Hc]; [by left|right].
      eapply collision_mono; [..|exact Hc]; set_solver.
    + right. exists (x ++ y), (a ++ b). split_and!; [set_solver|set_solver|done|done].
Qed.

Lemma merkle_level_length_eq l1 l2 : length l1 = length l2 → length (merkle_level l1) = length (merkle_level l2).
Proof.
  revert l2. induction l1 as [|x|x y l1 IH] using pair_ind; intros [|a [|b l2]] Hlen; try done. cbn in *. f_equal. apply IH. lia.
Qed.

Lemma merkle_loop_total fuel l : l ≠ [] → (length l <= S fuel)%nat → is_Some (merkle_loop fuel l).
Proof.
  revert l. induction fuel as [|fuel IH]; intros [|x [|y l]] Hne Hl; cbn [merkle_loop]; try done; try (by eauto); [cbn in Hl; lia|].
  pose proof (merkle_level_length (x :: y :: l)) as [_ Hlen]. specialize (Hlen ltac:(cbn; lia)).
  apply IH; [intros E; rewrite E in Hlen; cbn in Hlen; lia|lia].
Qed.

Lemma merkle_loop_binds fuel l1 l2 r : length l1 = length l2 → digests l1 → digests l2 →
  merkle_loop fuel l1 = Some r → merkle_loop fuel l2 = Some r → l1 = l2 ∨ collision (loop_inputs fuel l1) (loop_inputs fuel l2).
Proof.
  revert l1 l2. induction fuel as [|fuel IH]; intros l1 l2 Hlen D1 D2.
  - destruct l1 as [|x [|y l1]], l2 as [|a [|b l2]]; cbn; try done; intros [= ->] [= ->]; by left.
  - destruct l1 as [|x [|y l1]], l2 as [|a [|b l2]]; try done; [cbn; intros [= ->] [= ->]; by left|].
    cbn [merkle_loop loop_inputs]. intros E1 E2.
    destruct (IH _ _ (merkle_level_length_eq _ _ Hlen) (merkle_level_digests _ D1) (merkle_level_digests _ D2) E1 E2) as [E|Hc].
    + destruct (merkle_level_binds _ _ Hlen D1 D2 E) as [|Hc]; [by left|right]. eapply collision_mono; [..|exact Hc]; set_solver.
    + right. eapply collision_mono; [..|exact Hc]; set_solver.
Qed.

Lemma merkle_leaves_binds ids1 ids2 : merkle_leaves ids1 = merkle_leaves ids2 →
  sort_strings ids1 = sort_strings ids2 ∨ collision (bytes_of_string <$> sort_strings ids1) (bytes_of_string <$> sort_strings ids2).
Proof.
  unfold merkle_leaves. generalize (sort_strings ids1) (sort_strings ids2). intros l1.
  induction l1 as [|x l1 IH]; intros [|y l2]; try done; [by left|]. rewrite !fmap_cons. intros [= Hs E].
  destruct (decide (x = y)) as [->|Hne].
  - destruct (IH _ E) as [->|Hc]; [by left|right]. eapply collision_mono; [..|exact Hc]; set_solver.
  - right. exists (bytes_of_string x), (bytes_of_string y). split_and!; [set_solver|set_solver|by intros ?%(inj _)|done].
Qed.

Lemma merkle_leaves_length ids : length (merkle_leaves ids) = length ids.
Proof. unfold merkle_leaves. rewrite length_fmap. apply Permutation_length, sort_strings_Permutation. Qed.

Lemma merkle_loop_digest fuel l r : digests l → merkle_loop fuel l = Some r → length r = 32%nat ∧ (Forall (Forall (λ b, 0 <= b < 256)) l → Forall (λ b, 0 <= b < 256) r).
Proof.
  revert l. induction fuel as [|fuel IH]; intros [|x [|y l]] D; cbn [merkle_loop]; try done;
    try (intros [= <-]; unfold digests in D; rewrite !Forall_cons in *; naive_solver).
  intros E. destruct (IH _ (merkle_level_digests _ D) E) as [? Hb]. split; [done|]. intros Hl. apply Hb. clear -Hl.
  revert Hl. generalize (x :: y :: l). intros l'. induction l' as [|a|a b l' IHl] using pair_ind; cbn [merkle_level]; [done|done|].
  rewrite !Forall_cons. intros (_ & _ & Hl). split; [apply Sha256.Sum256_bytes|auto].
Qed.

(** The root of the leaves [a] and [b] is the root of the single leaf that consists of their hashes:
    leaves and inner nodes are not told apart. *)
Lemma root_not_separated a b : String.le a b →
  let id := string_of_bytes (Sha256.Sum256 (bytes_of_string a) ++ Sha256.Sum256 (bytes_of_string b)) in
  ComputeExplorationRoot [a; b] = ComputeExplorationRoot [id].
Proof.
  intros Hab. cbn zeta. unfold ComputeExplorationRoot. rewrite !decide_False by done. unfold merkle_leaves.
  assert (E : sort_strings [a; b] = [a; b]).
  { apply (StronglySorted_unique String.le); [by apply (sort_slice_sorted String.le)|by repeat constructor|apply sort_strings_Permutation]. }
  rewrite E. assert (E1 : ∀ x, sort_strings [x] = [x]) by done. rewrite E1. cbn [length fmap list_fmap merkle_loop merkle_level].
  rewrite bytes_of_string_of_bytes; [done|]. apply Forall_app. split; apply Sha256.Sum256_bytes.
Qed.

(** * What is written to JSON is written uniquely *)

Definition ascii_of (n : nat) : Ascii.ascii := Ascii.ascii_of_nat n.

(** The string of a list of tokens without bad bytes. *)
Fixpoint untoken (l : list gtoken) : string :=
  match l with
  | [] => ""
  | GByte c :: l' => String c (untoken l')
  | GSep d :: l' => String (ascii_of 226) (String (ascii_of 128) (String (ascii_of (Ascii.nat_of_ascii d + 112)) (untoken l')))
  | GBad :: l' => untoken l'
  end.

Fixpoint sdrop (n : nat) (s : string) : string :=
  match n, s with S n, String _ s' => sdrop n s' | _, _ => s end.

Lemma byte_is n i s : byte_at i s = n → n ≠ 0%nat → String.get i s = Some (ascii_of n).
Proof.
  unfold byte_at. destruct (String.get i s) as [c|]; [|by intros <-]. intros <- _. unfold ascii_of. by rewrite Ascii.ascii_nat_embedding.
Qed.

Lemma sep_digit_Some s d : sep_digit s = Some d → ∃ s', s = untoken [GSep d] +:+ s' ∧ rune_width s = 3%nat.
Proof.
  unfold sep_digit. repeat case_bool_decide; cbn; try done; intros [= <-].
  all: repeat match goal with E : byte_at _ _ = _ |- _ => apply byte_is in E; [|done] end.
  all: destruct s as [|a [|b [|c s]]]; try done; cbn in *; simplify_eq; exists s; split; reflexivity.
Qed.

Lemma runes_width_0 c s : rune_width (String c s) = 0%nat → runes 0 (String c s) ≠ String c s.
Proof.
  intros Hw E. cbn [runes] in E. rewrite Hw in E. unfold rune_error in E. str_norm_in E. injection E as <- E.
  destruct s as [|x s]; [done|]. injection E as <- E. destruct s as [|y s]; [done|]. injection E as <- _. done.
Qed.

Lemma untoken_gtokens s : ∀ pending, runes pending s = s →
  untoken (gtokens pending false s) = s ∧ untoken (gtokens pending true s) = sdrop pending s.
Proof.
  induction s as [|c s IH]; intros pending E; [by destruct pending|]. destruct pending as [|k].
  - destruct (rune_width (String c s)) as [|k] eqn:Hw; [by apply runes_width_0 in E|]. cbn [gtokens sdrop]. rewrite Hw.
    cbn [runes] in E. rewrite Hw in E. injection E as E. destruct (IH k E) as [H1 H2].
    destruct (sep_digit (String c s)) as [d|] eqn:Hd; [|cbn; by rewrite H1].
    apply sep_digit_Some in Hd as (s' & Es & H3). assert (k = 2%nat) as -> by congruence. cbn [untoken] in *. rewrite H2.
    str_norm_in Es. by injection Es as -> ->.
  - cbn [runes] in E. injection E as E. destruct (IH k E) as [H1 H2]. cbn. by rewrite H1.
Qed.

Lemma valid_untoken s : valid_utf8 s → untoken (gtokens 0 false s) = s.
Proof. intros Hs. by apply untoken_gtokens. Qed.

(** [gescape] is a prefix code. *)
Lemma forall_ascii2 (p : Ascii.ascii → Ascii.ascii → bool) :
  forallb (λ m, forallb (λ n, p (Ascii.ascii_of_nat m) (Ascii.ascii_of_nat n)) (seq 0 256)) (seq 0 256) = true → ∀ a b, p a b = true.
Proof.
  intros Hp a b. revert a. apply forall_ascii. rewrite forallb_forall in Hp. apply forallb_forall. intros m Hm.
  specialize (Hp m Hm). revert b. by apply forall_ascii.
Qed.

Lemma gescape_html a b :
  (if html_char a then Ascii.eqb a b || prefix_free (gescape (GByte a)) (gescape (GByte b)) && prefix_free (gescape (GByte b)) (gescape (GByte a))
   else true) = true.
Proof. revert a b. apply forall_ascii2. vm_compute. reflexivity. Qed.

Lemma gescape_bytes a b : (Ascii.eqb a b || prefix_free (gescape (GByte a)) (gescape (GByte b))) = true.
Proof.
  pose proof (gescape_html a b) as Ha. pose proof (gescape_html b a) as Hb. rewrite Ascii.eqb_sym in Hb.
  destruct (html_char a) eqn:Ea; [|destruct (html_char b) eqn:Eb].
  - destruct (Ascii.eqb a b); [done|]. by apply andb_true_iff in Ha as [-> _].
  - destruct (Ascii.eqb a b); [done|]. by apply andb_true_iff in Hb as [_ ->].
  - cbn [gescape]. rewrite Ea, Eb. apply escape_prefix_code.
Qed.

Lemma gescape_byte_sep a d : (prefix_free (gescape (GByte a)) (gescape (GSep d)) && prefix_free (gescape (GSep d)) (gescape (GByte a))) = true.
Proof. revert a. apply forall_ascii. vm_compute. reflexivity. Qed.

Lemma gescape_bad a : (prefix_free (gescape (GByte a)) (gescape GBad) && prefix_free (gescape GBad) (gescape (GByte a))) = true.
Proof. revert a. apply forall_ascii. vm_compute. reflexivity. Qed.

Lemma gescape_seps d d' : (Ascii.eqb d d' || prefix_free (gescape (GSep d)) (gescape (GSep d'))) = true.
Proof. change (Ascii.eqb d d' || (negb (Ascii.eqb d d') || false) = true). by destruct (Ascii.eqb d d'). Qed.

Lemma gescape_prefix_code t1 t2 : t1 = t2 ∨ prefix_free (gescape t1) (gescape t2) = true.
Proof.
  destruct t1 as [a|d|], t2 as [b|d'|].
  - pose proof (gescape_bytes a b) as H. apply orb_true_iff in H as [->%Ascii.eqb_eq|]; auto.
  - pose proof (gescape_byte_sep a d') as H. apply andb_true_iff in H as [? ?]. auto.
  - pose proof (gescape_bad a) as H. apply andb_true_iff in H as [? ?]. auto.
  - pose proof (gescape_byte_sep b d) as H. apply andb_true_iff in H as [? ?]. auto.
  - pose proof (gescape_seps d d') as H. apply orb_true_iff in H as [->%Ascii.eqb_eq|]; auto.
  - right. reflexivity.
  - pose proof (gescape_bad b) as H. apply andb_true_iff in H as [? ?]. auto.
  - right. reflexivity.
  - by left.
Qed.

Lemma gescape_quote t : ∃ c r, gescape t = String c r ∧ c ≠ quote.
Proof.
  destruct t as [a|d|]; [|by eexists _, _..].
  assert (match gescape (GByte a) with EmptyString => false | String c _ => negb (Ascii.eqb c quote) end = true) as H.
  { revert a. apply forall_ascii. vm_compute. reflexivity. }
  destruct (gescape (GByte a)) as [|c r]; [done|]. eexists _, _. split; [done|]. intros ->. by rewrite Ascii.eqb_refl in H.
Qed.

Lemma gescapes_unique l1 l2 s1 s2 :
  gescapes l1 +:+ String quote s1 = gescapes l2 +:+ String quote s2 → l1 = l2 ∧ s1 = s2.
Proof.
  revert l2. induction l1 as [|a l1 IH]; intros [|b l2] Heq; cbn [gescapes] in Heq; str_norm_in Heq.
  - by injection Heq as ->.
  - destruct (gescape_quote b) as (c & r & Hb & Hc). rewrite Hb in Heq. str_norm_in Heq. injection Heq as <- _. done.
  - destruct (gescape_quote a) as (c & r & Ha & Hc). rewrite Ha in Heq. str_norm_in Heq. injection Heq as -> _. done.
  - destruct (gescape_prefix_code a b) as [->|Hab]; [|by apply prefix_free_app in Heq].
    apply string_app_inv_l in Heq. by destruct (IH l2 Heq) as [-> ->].
Qed.

Lemma gquote_unique x y s1 s2 : valid_utf8 x → valid_utf8 y → gquote x +:+ s1 = gquote y +:+ s2 → x = y ∧ s1 = s2.
Proof.
  intros Hx Hy Heq. unfold gquote in Heq. str_norm_in Heq. injection Heq as Heq. apply gescapes_unique in Heq as [E ->].
  split; [|done]. rewrite <- (valid_untoken x Hx), <- (valid_untoken y Hy). by f_equal.
Qed.

Lemma json_member_unique name x y s1 s2 : valid_utf8 x → valid_utf8 y →
  json_member name (gquote x) +:+ s1 = json_member name (gquote y) +:+ s2 → x = y ∧ s1 = s2.
Proof.
  intros Hx Hy Heq. unfold json_member in Heq. rewrite !string_app_assoc in Heq. apply string_app_inv_l, string_app_inv_l in Heq.
  by apply gquote_unique.
Qed.

(** A map with valid keys and values. *)
Definition valid_map (m : gmap string string) : Prop := map_Forall (λ k v, valid_utf8 k ∧ valid_utf8 v) m.

Definition valid_body (b : CheckpointBody) : Prop :=
  valid_utf8 (cb_ApproachDescription b) ∧ valid_utf8 (cb_ErrorDetail b) ∧ valid_utf8 (cb_EvidenceSnippet b) ∧
  valid_utf8 (cb_IntermediateOutputHash b) ∧ valid_map (default ∅ (cb_Parameters b)).

Lemma json_map_unique m1 m2 s1 s2 : valid_map m1 → valid_map m2 → json_map m1 +:+ s1 = json_map m2 +:+ s2 → m1 = m2 ∧ s1 = s2.
Proof.
  intros H1 H2 Heq. unfold json_map, json_object in Heq. rewrite !string_app_assoc in Heq. apply string_app_inv_l in Heq.
  set (l1 := sort_slice key_le (map_to_list m1)) in *. set (l2 := sort_slice key_le (map_to_list m2)) in *.
  assert (P1 : l1 ≡ₚ map_to_list m1) by apply sort_slice_perm. assert (P2 : l2 ≡ₚ map_to_list m2) by apply sort_slice_perm.
  assert (V : ∀ (l : list (string * string)) m, l ≡ₚ map_to_list m → valid_map m → Forall (λ kv, valid_utf8 kv.1 ∧ valid_utf8 kv.2) l).
  { intros l m Hp Hm. rewrite Hp. apply Forall_forall. intros [k v] Hkv%elem_of_map_to_list. exact (Hm k v Hkv). }
  pose proof (V _ _ P1 H1) as V1. pose proof (V _ _ P2 H2) as V2.
  apply (commas_unique eq _ close_brace eq_refl eq_refl (λ _, True)) in Heq as [Hl ->].
  - split; [|done]. assert (l1 = l2) as E by (clear -Hl; induction Hl; congruence). apply map_to_list_inj. by rewrite <- P1, <- P2, E.
  - intros [k v] _. eexists _, _. split; [reflexivity|done].
  - by apply Forall_true.
  - by apply Forall_true.
  - intros [k v] [k' v'] Hk Hk' t1 t2 _ _ E. rewrite Forall_forall in V1, V2. destruct (V1 _ Hk) as [Vk Vv], (V2 _ Hk') as [Vk' Vv']. cbn in *.
    unfold json_member in E. rewrite !string_app_assoc in E. apply gquote_unique in E as [-> E]; [|done..].
    apply string_app_inv_l in E. apply gquote_unique in E as [-> E]; [|done..]. done.
Qed.

(** A nil map and an empty one are the same checkpoint. *)
Definition same_body (a b : CheckpointBody) : Prop :=
  cb_ApproachDescription a = cb_ApproachDescription b ∧ cb_ErrorDetail a = cb_ErrorDetail b ∧ cb_EvidenceSnippet a = cb_EvidenceSnippet b ∧
  cb_IntermediateOutputHash a = cb_IntermediateOutputHash b ∧ default ∅ (cb_Parameters a) = default ∅ (cb_Parameters b).

Lemma canonical_checkpoint_unique a b : valid_body a → valid_body b → CanonicalCheckpointBytes a = CanonicalCheckpointBytes b → same_body a b.
Proof.
  intros (A1 & A2 & A3 & A4 & A5) (B1 & B2 & B3 & B4 & B5) E. unfold CanonicalCheckpointBytes, json_object in E. cbn [commas] in E.
  rewrite !string_app_assoc in E. apply string_app_inv_l in E.
  apply json_member_unique in E as [E1 E]; [|done..]. apply string_app_inv_l in E.
  apply json_member_unique in E as [E2 E]; [|done..]. apply string_app_inv_l in E.
  apply json_member_unique in E as [E3 E]; [|done..]. apply string_app_inv_l in E.
  apply json_member_unique in E as [E4 E]; [|done..]. apply string_app_inv_l in E.
  unfold json_member in E. rewrite !string_app_assoc in E. apply string_app_inv_l, string_app_inv_l in E.
  apply json_map_unique in E as [E5 _]; [|done..]. done.
Qed.

(** * What a commit leaves *)

Section service_proofs.
Context {lib : JsonLib} {ed : Ed25519} {St : Type} `{!Persistence St Event} {N : Type} `{!EventDisseminator N}.
Context {B : Type} `{!BlobStore B} {TS TW : Type} {codec : TrajectoryCodec}.
Notation TService := (TService St N B TS TW).
Implicit Types (s : TService).

Lemma disseminate_dag ev (p : Publisher St N) : pub_dag (disseminate ev p) = pub_dag p.
Proof. unfold disseminate. by destruct (pub_disseminator p). Qed.

(** The publisher and the fallback leave the same graph. *)
Lemma publish_spec ev s s' err : publish ev s = (s', err) →
  sv_dag s' = (dag_Add ev (sv_dag s)).1 ∧ (err = None ↔ (dag_Add ev (sv_dag s)).2 = None) ∧
  sv_config s' = sv_config s ∧ sv_blob s' = sv_blob s ∧ sv_taskMgr s' = sv_taskMgr s ∧ sv_kp s' = sv_kp s ∧ sv_limits s' = sv_limits s.
Proof.
  unfold publish, Publish. change (pub_dag (sv_pub s)) with (sv_dag s). destruct (dag_Add ev (sv_dag s)) as [d e]. destruct (sv_publisher s), e as [e|]; intros [= <- <-]; unfold sv_dag; cbn; rewrite ?disseminate_dag; cbn; done.
Qed.

Lemma dag_Add_events ev (d : DAG St) :
  match (dag_Add ev d).2 with
  | Some _ => dag_events (dag_Add ev d).1 = dag_events d
  | None => dag_events d !! ID ev = None ∧ (∀ r, r ∈ CausalRefs ev → is_Some (dag_events d !! r)) ∧ VerifyEvent ev = true ∧
      dag_events (dag_Add ev d).1 = <[ID ev := ev]> (dag_events d)
  end.
Proof.
  unfold dag_Add. case_decide as Hd; [done|]. destruct (missing_ref d ev) eqn:Hm; [done|]. case_decide; [done|].
  destruct (VerifyEvent ev) eqn:Hv; [|done]. cbn. split_and!; [by apply eq_None_not_Some|by apply missing_ref_None|done|done].
Qed.

Definition same_but_limits s s' : Prop :=
  sv_config s' = sv_config s ∧ sv_taskMgr s' = sv_taskMgr s ∧ sv_kp s' = sv_kp s.

Lemma pass_limits_spec minute actor taskID s s' err : pass_limits minute actor taskID s = (s', err) →
  sv_config s' = sv_config s ∧ sv_pub s' = sv_pub s ∧ sv_blob s' = sv_blob s ∧ sv_taskMgr s' = sv_taskMgr s ∧ sv_kp s' = sv_kp s ∧
  sv_publisher s' = sv_publisher s ∧ tl_taskCommits (sv_limits s') = tl_taskCommits (sv_limits s).
Proof. unfold pass_limits. repeat (case_decide || case_match); intros [= <- <-]; done. Qed.

Lemma authorize_Some actor req s task : authorize actor req s = inr task →
  tm_tasks (sv_taskMgr s) !! cr_TaskID req = Some task ∧ (t_Status task = TaskStatusClaimed ∨ t_Status task = TaskStatusSubmitted) ∧
  t_ClaimerID task = actor ∧ t_ClaimEventID task ≠ "".
Proof.
  unfold authorize, tm_Get. destruct (tcf_Enabled _); [|done]. cbn. destruct (tm_tasks _ !! _) as [t|]; [|done].
  case_decide as H1; [done|]. case_decide as H2; [done|]. case_decide as H3; [done|]. intros [= ->].
  split_and!; [done| |done|done]. destruct (decide (t_Status task = TaskStatusClaimed)); [by left|right]. destruct (decide (t_Status task = TaskStatusSubmitted)); [done|tauto].
Qed.

Lemma commit_event_Some actor task req payload s ev : commit_event actor task req payload s = inr ev →
  tc_Validate payload = None ∧ Type_ ev = EventTypeTrajectoryCommit ∧ AgentID_ ev = actor ∧ actor = kp_AgentID (sv_kp s) ∧
  Payload ev = Some (marshal_commit payload) ∧
  CausalRefs ev = (if decide (cr_ParentCommitID req = "") then [t_ClaimEventID task] else [t_ClaimEventID task; cr_ParentCommitID req]).
Proof.
  unfold commit_event, commit_refs, dag_Get. destruct (tc_Validate payload); [done|]. case_decide; [done|].
  assert (Hnew : ∀ refs, match New EventTypeTrajectoryCommit (Some refs) (ValuePayload (Some (marshal_commit payload))) actor (prior_of s refs) 0 with
      | None => inl TrajCreate | Some ev => match SignEvent ev (sv_kp s) with None => inl TrajSign | Some ev => inr ev end end = inr ev →
    Type_ ev = EventTypeTrajectoryCommit ∧ AgentID_ ev = actor ∧ actor = kp_AgentID (sv_kp s) ∧ Payload ev = Some (marshal_commit payload) ∧ CausalRefs ev = refs).
  { intros refs. unfold New. repeat (case_decide; [done|]). cbn -[ComputeID CanonicalBytes kp_Sign marshal_commit ComputeCausalTimestamp]. match goal with |- context [ComputeID ?x] => destruct (ComputeID x) as [id|] end; [|done].
    cbn -[CanonicalBytes kp_Sign marshal_commit ComputeCausalTimestamp SignEvent]. unfold SignEvent. cbn [AgentID_]. case_decide as Ha; [done|]. match goal with |- context [CanonicalBytes ?x] => destruct (CanonicalBytes x) as [data|] end; [|done]. cbn.
    match goal with |- context [kp_Sign ?x ?y] => destruct (kp_Sign x y) as [sig|] end; [|done]. intros [= <-]. cbn. split_and!; done. }
  case_decide; [intros E%Hnew|destruct (dag_events _ !! _); [intros E%Hnew|done]]; naive_solver.
Qed.

Lemma store_checkpoint_spec req s s' res : store_checkpoint req s = (s', res) →
  sv_config s' = sv_config s ∧ sv_pub s' = sv_pub s ∧ sv_taskMgr s' = sv_taskMgr s ∧ sv_kp s' = sv_kp s ∧ sv_limits s' = sv_limits s ∧
  (∀ r, res = inr r → blob_Put (bytes_of_string (CanonicalCheckpointBytes (checkpoint_of req))) (sv_blob s) = (sv_blob s', inl r)).
Proof.
  unfold store_checkpoint. case_decide; [intros [= <- <-]; done|]. destruct (blob_Put _ _) as [b [r|e]]; intros [= <- <-]; cbn; [|done].
  split_and!; [done..|]. by intros ? [= ->].
Qed.

(** The outcome of [EmitCommit] after the limits. *)
Lemma emit_rest_spec actor task req s s' res : emit_rest actor task req s = (s', res) →
  sv_config s' = sv_config s ∧ sv_taskMgr s' = sv_taskMgr s ∧ sv_kp s' = sv_kp s ∧ tl_agentRate (sv_limits s') = tl_agentRate (sv_limits s) ∧
  match res with
  | inl _ => dag_events (sv_dag s') = dag_events (sv_dag s) ∧ tl_taskCommits (sv_limits s') = tl_taskCommits (sv_limits s)
  | inr resp =>
      tl_taskCommits (sv_limits s') = <[cr_TaskID req := CommitCount (cr_TaskID req) s + 1]> (tl_taskCommits (sv_limits s)) ∧
      blob_Put (bytes_of_string (CanonicalCheckpointBytes (checkpoint_of req))) (sv_blob s) =
        (sv_blob s', inl (cres_CheckpointHash resp, cres_CheckpointSize resp)) ∧
      ∃ ev, commit_event actor task req (payload_of req (cres_CheckpointHash resp) (cres_CheckpointSize resp)) (set_blob (sv_blob s') s) = inr ev ∧
        cres_EventID resp = ID ev ∧ sv_dag s' = (dag_Add ev (sv_dag s)).1 ∧ (dag_Add ev (sv_dag s)).2 = None
  end.
Proof.
  unfold emit_rest. destruct (store_checkpoint req s) as [s1 [e|[h n]]] eqn:Es;
    pose proof (store_checkpoint_spec _ _ _ _ Es) as (C1 & P1 & T1 & K1 & L1 & Hput).
  - intros [= <- <-]. rewrite C1, T1, K1, L1. unfold sv_dag. by rewrite P1.
  - specialize (Hput _ eq_refl). assert (Hs1 : commit_event actor task req (payload_of req h n) s1 = commit_event actor task req (payload_of req h n) (set_blob (sv_blob s1) s)).
    { unfold commit_event, commit_refs, prior_of, sv_dag. cbn. by rewrite C1, P1, K1. }
    rewrite Hs1. clear Hs1. destruct (commit_event actor task req (payload_of req h n) (set_blob (sv_blob s1) s)) as [e|ev] eqn:Ee.
    + intros [= <- <-]. rewrite C1, T1, K1, L1. unfold sv_dag. by rewrite P1.
    + destruct (publish ev s1) as [s2 err] eqn:Ep. pose proof (publish_spec _ _ _ _ Ep) as (D2 & Herr & C2 & B2 & T2 & K2 & L2).
      assert (Hd : sv_dag s1 = sv_dag s) by (unfold sv_dag; by rewrite P1). rewrite Hd in D2, Herr.
      destruct err as [e|]; intros [= <- <-]; cbn [sv_config count_commit set_limits sv_taskMgr sv_kp sv_limits tl_agentRate tl_taskCommits];
        rewrite C2, T2, K2, L2, C1, T1, K1, L1; refine (conj eq_refl (conj eq_refl (conj eq_refl (conj eq_refl _)))).
      * rewrite D2. split; [|done]. pose proof (dag_Add_events ev (sv_dag s)) as Ha. destruct ((dag_Add ev (sv_dag s)).2); [done|]. by destruct Herr as [_ Hn]; specialize (Hn eq_refl).
      * cbn. unfold CommitCount. rewrite L2, L1, B2. split_and!; [done|done|]. exists ev. split_and!; [done|done|exact D2|]. by apply Herr.
Qed.

Lemma EmitCommit_cases now actor req s s' res : sv_EmitCommit now actor req s = (s', res) →
  (∃ e, authorize actor req s = inl e ∧ s' = s ∧ res = inl e) ∨
  (∃ task, authorize actor req s = inr task ∧
     ((∃ e, pass_limits (Z.quot now 60) actor (cr_TaskID req) s = (s', Some e) ∧ res = inl e) ∨
      (∃ s1, pass_limits (Z.quot now 60) actor (cr_TaskID req) s = (s1, None) ∧ emit_rest actor task req s1 = (s', res)))).
Proof.
  unfold sv_EmitCommit. destruct (authorize actor req s) as [e|task]; [intros [= <- <-]; left; eauto|intros E; right; exists task; split; [done|]].
  destruct (pass_limits _ _ _ s) as [s1 [e|]]; [injection E as <- <-; left; eauto|right; eauto].
Qed.
End service_proofs.

(** * Limits *)

Section limits.
Context {lib : JsonLib} {ed : Ed25519} {St : Type} `{!Persistence St Event} {N : Type} `{!EventDisseminator N}.
Context {B : Type} `{!BlobStore B} {TS TW : Type} {codec : TrajectoryCodec}.
Notation TService := (TService St N B TS TW).
Implicit Types (s : TService) (acc : list (Z * AgentID * string)).

(** Requests one after the other; a commit is listed with its minute, its agent and its task. *)
Definition emit_step (x : TService * list (Z * AgentID * string)) (r : Z * AgentID * CommitRequest) : TService * list (Z * AgentID * string) :=
  let '(s, acc) := x in let '(now, actor, req) := r in
  let '(s', res) := sv_EmitCommit now actor req s in
  (s', match res with inr _ => acc ++ [(Z.quot now 60, actor, cr_TaskID req)] | inl _ => acc end).

Definition task_commits (taskID : string) acc : Z := Z.of_nat (length (filter (λ x, x.2 = taskID) acc)).
Definition minute_commits (minute : Z) (actor : AgentID) acc : Z := Z.of_nat (length (filter (λ x, x.1 = (minute, actor)) acc)).

Lemma task_commits_snoc t x acc : task_commits t (acc ++ [x]) = task_commits t acc + (if decide (x.2 = t) then 1 else 0).
Proof. unfold task_commits. rewrite filter_app, length_app. cbn. case_decide; cbn; lia. Qed.

Lemma minute_commits_snoc m a x acc : minute_commits m a (acc ++ [x]) = minute_commits m a acc + (if decide (x.1 = (m, a)) then 1 else 0).
Proof. unfold minute_commits. rewrite filter_app, length_app. cbn. case_decide; cbn; lia. Qed.

Record limits_inv (cfg : TrajectoryConfig) (last : Z) s acc : Prop := {
  li_config : sv_config s = cfg;
  li_task t : task_commits t acc = CommitCount t s;
  li_task_max t : CommitCount t s <= Z.max 0 (tcf_MaxCommitsPerTask cfg);
  li_minute m a : minute_commits m a acc <= Z.max 1 (tcf_MaxCommitsPerMinute cfg);
  li_later m a : last < m → minute_commits m a acc = 0;
  li_window a rw : tl_agentRate (sv_limits s) !! a = Some rw →
    rw_windowAt rw <= last ∧ rw_count rw <= Z.max 1 (tcf_MaxCommitsPerMinute cfg) ∧ minute_commits (rw_windowAt rw) a acc <= rw_count rw ∧
    ∀ m, rw_windowAt rw < m → minute_commits m a acc = 0;
  li_fresh m a : tl_agentRate (sv_limits s) !! a = None → minute_commits m a acc = 0;
}.

Lemma limits_same cfg last s s' acc : sv_config s' = sv_config s → sv_limits s' = sv_limits s → limits_inv cfg last s acc → limits_inv cfg last s' acc.
Proof. intros Hc Hl []. split; unfold CommitCount in *; rewrite ?Hc, ?Hl; done. Qed.

Lemma limits_later cfg last last' s acc : last <= last' → limits_inv cfg last s acc → limits_inv cfg last' s acc.
Proof.
  intros Hle [? ? ? ? Hlate Hw ?]. split; try done.
  - intros m a Hm. apply Hlate. lia.
  - intros a rw Ha. destruct (Hw a rw Ha) as (? & ? & ? & ?). split_and!; [lia|done..].
Qed.

(** The window of the agent after its request passed: it has room for one more. *)
Lemma pass_limits_window cfg minute actor taskID s s' acc : limits_inv cfg minute s acc → pass_limits minute actor taskID s = (s', None) →
  limits_inv cfg minute s' acc ∧ CommitCount taskID s' < tcf_MaxCommitsPerTask cfg ∧
  ∃ rw, tl_agentRate (sv_limits s') !! actor = Some rw ∧ rw_windowAt rw = minute ∧ minute_commits minute actor acc < rw_count rw.
Proof.
  intros [Hcfg Ht Htm Hm Hlate Hw Hf] E. unfold pass_limits in E. case_decide as Hlim; [done|]. rewrite Hcfg in *.
  assert (Hset : ∀ rw, rw_windowAt rw = minute → rw_count rw <= Z.max 1 (tcf_MaxCommitsPerMinute cfg) → minute_commits minute actor acc < rw_count rw →
    s' = set_limits (mkTrajLimits (tl_taskCommits (sv_limits s)) (<[actor := rw]> (tl_agentRate (sv_limits s)))) s →
    limits_inv cfg minute s' acc ∧ CommitCount taskID s' < tcf_MaxCommitsPerTask cfg ∧
    ∃ rw, tl_agentRate (sv_limits s') !! actor = Some rw ∧ rw_windowAt rw = minute ∧ minute_commits minute actor acc < rw_count rw).
  { intros rw Hwin Hmax Hroom ->. split; [|split; [unfold CommitCount in *; cbn; lia|]].
    - split; cbn; try done.
      + intros a rw' Ha. destruct (decide (a = actor)) as [->|Hne]; [rewrite lookup_insert_eq in Ha|rewrite lookup_insert_ne in Ha by done; by apply Hw].
        injection Ha as <-. split_and!; [lia|done|rewrite Hwin; lia|]. intros m Hlt. apply Hlate. lia.
      + intros m a Ha. destruct (decide (a = actor)) as [->|Hne]; [by rewrite lookup_insert_eq in Ha|]. rewrite lookup_insert_ne in Ha by done. by apply Hf.
    - exists rw. cbn. rewrite lookup_insert_eq. done. }
  destruct (tl_agentRate (sv_limits s) !! actor) as [rw|] eqn:Erw.
  - destruct (Hw _ _ Erw) as (Hle & Hmax & Hcount & Hzero). case_decide as Hmin.
    + injection E as <-. eapply Hset; [| | |reflexivity]; cbn; [done|lia|]. rewrite Hzero by lia. lia.
    + apply dec_stable in Hmin || idtac. case_decide as Hfull; [done|]. injection E as <-. assert (rw_windowAt rw = minute) as Hwin by (destruct (decide (rw_windowAt rw = minute)); tauto).
      eapply Hset; [| | |reflexivity]; cbn; [done|lia|]. rewrite Hwin in Hcount. lia.
  - injection E as <-. eapply Hset; [| | |reflexivity]; cbn; [done|lia|]. rewrite Hf by done. lia.
Qed.

Lemma pass_limits_error minute actor taskID s s' e : pass_limits minute actor taskID s = (s', Some e) → s' = s.
Proof. unfold pass_limits. repeat (case_decide || case_match); by intros [= <- <-]. Qed.

Lemma emit_step_inv cfg last s acc now actor req : last <= Z.quot now 60 → limits_inv cfg last s acc →
  limits_inv cfg (Z.quot now 60) (emit_step (s, acc) (now, actor, req)).1 (emit_step (s, acc) (now, actor, req)).2.
Proof.
  intros Hle Hinv. apply (limits_later _ _ (Z.quot now 60)) in Hinv; [|done]. set (minute := Z.quot now 60) in *. cbn [emit_step].
  destruct (sv_EmitCommit now actor req s) as [s' res] eqn:E. cbn [fst snd].
  apply EmitCommit_cases in E as [(e & _ & -> & ->)|(task & _ & [(e & Ha & ->)|(s1 & Ha & Hr)])]; [done|by apply pass_limits_error in Ha as ->|].
  fold minute in Ha. fold minute. clearbody minute. destruct (pass_limits_window _ _ _ _ _ _ _ Hinv Ha) as (Hinv1 & Hroom & rw & Erw & Hwin & Hfree).
  apply emit_rest_spec in Hr as (C & _ & _ & R & Hres). pose proof Hinv1 as [Hcfg Ht Htm Hm Hlate Hw Hf].
  destruct res as [e|resp].
  - destruct Hres as [_ Htc]. apply (limits_same _ _ s1); [done| |done]. destruct (sv_limits s'), (sv_limits s1). cbn in *. congruence.
  - destruct Hres as [Htc _].
    assert (HC : ∀ t, CommitCount t s' = CommitCount t s1 + (if decide (cr_TaskID req = t) then 1 else 0)).
    { intros t. unfold CommitCount at 1. rewrite Htc. case_decide as Ht'; [subst t; by rewrite lookup_insert_eq|]. rewrite lookup_insert_ne by done. unfold CommitCount. lia. }
    split.
    + congruence.
    + intros t. rewrite task_commits_snoc, HC, Ht. done.
    + intros t. rewrite HC. case_decide as Ht'; [subst t; lia|]. specialize (Htm t). lia.
    + intros m a. rewrite minute_commits_snoc. cbn [fst]. case_decide as Hma; [|specialize (Hm m a); lia]. injection Hma as <- <-.
      destruct (Hw _ _ Erw) as (_ & Hmax & _). lia.
    + intros m a Hlt. rewrite minute_commits_snoc. cbn [fst]. rewrite decide_False by (intros [= -> _]; lia). rewrite Hlate by done. lia.
    + intros a rw'. rewrite R. intros Ha'. destruct (Hw _ _ Ha') as (W1 & W2 & W3 & W4). split_and!; [done|done| |].
      * rewrite minute_commits_snoc. cbn [fst]. case_decide as Hma; [|lia]. injection Hma as Hm1 Ha1. assert (rw' = rw) as -> by congruence.
        rewrite <- Ha1, Hwin. lia.
      * intros m Hlt. rewrite minute_commits_snoc. cbn [fst]. rewrite W4 by done.
        rewrite decide_False; [lia|]. intros [= Hmm Haa]. subst a. assert (rw' = rw) as -> by congruence. lia.
    + intros m a. rewrite R. intros Ha'. rewrite minute_commits_snoc. cbn [fst]. rewrite Hf by done. rewrite decide_False; [lia|]. intros [= _ <-]. congruence.
Qed.

(** Requests whose clock readings do not go back. *)
Fixpoint clock_forward (last : Z) (l : list (Z * AgentID * CommitRequest)) : Prop :=
  match l with [] => True | (now, _, _) :: l' => last <= now ∧ clock_forward now l' end.

Lemma emit_run_inv cfg l : ∀ last s acc, clock_forward last l → limits_inv cfg (Z.quot last 60) s acc →
  ∃ last', limits_inv cfg last' (foldl emit_step (s, acc) l).1 (foldl emit_step (s, acc) l).2.
Proof.
  induction l as [|[[now actor] req] l IH]; intros last s acc; [intros _ Hinv; by eexists|]. intros [Hle Hl] Hinv. cbn [foldl].
  pose proof (emit_step_inv cfg (Z.quot last 60) s acc now actor req ltac:(apply Z.quot_le_mono; lia) Hinv) as Hstep.
  destruct (emit_step (s, acc) (now, actor, req)) as [s1 acc1]. eapply IH; [exact Hl|exact Hstep].
Qed.

Lemma new_limits cfg p (b : B) (tm : TaskManager TS TW) kp last : limits_inv cfg last (sv_New cfg p b tm kp) [].
Proof. split; try done; intros; unfold task_commits, minute_commits, CommitCount; cbn; rewrite ?lookup_empty; cbn; try lia; done. Qed.

Lemma CommitCount_count t s : CommitCount t (count_commit t s) = CommitCount t s + 1.
Proof. unfold CommitCount at 1. cbn. by rewrite lookup_insert_eq. Qed.

(** Requests that passed the limits and then commit together are not limited: the count is taken when the commit is done. *)
Lemma pass_limits_race minute a1 a2 t s : a1 ≠ a2 → CommitCount t s < tcf_MaxCommitsPerTask (sv_config s) →
  tl_agentRate (sv_limits s) !! a1 = None → tl_agentRate (sv_limits s) !! a2 = None →
  let '(s1, e1) := pass_limits minute a1 t s in let '(s2, e2) := pass_limits minute a2 t s1 in
  e1 = None ∧ e2 = None ∧ CommitCount t (count_commit t (count_commit t s2)) = CommitCount t s + 2.
Proof.
  intros Hne Hlt H1 H2. unfold pass_limits at 1. rewrite decide_False by lia. rewrite H1. unfold pass_limits. cbn. change (CommitCount t (set_limits _ s)) with (CommitCount t s).
  rewrite decide_False by lia. rewrite lookup_insert_ne, H2 by done. split_and!; [done..|]. rewrite !CommitCount_count.
  change (CommitCount t (set_limits _ _)) with (CommitCount t s). lia.
Qed.
End limits.

(** * Reading *)

#[global] Instance commit_le_trans : Transitive commit_le.
Proof. intros a b c [H1|[H1 H1']] [H2|[H2 H2']]; unfold commit_le; [lia|lia|lia|]. right. split; [lia|by etrans]. Qed.

#[global] Instance commit_le_total : Total commit_le.
Proof.
  intros a b. unfold commit_le. destruct (Z.lt_trichotomy (cn_CausalTimestamp a) (cn_CausalTimestamp b)) as [H|[H|H]]; [by left; left| |by right; left].
  destruct (total String.le (cn_EventID a) (cn_EventID b)); [left|right]; right; done.
Qed.

Section reading.
Context {lib : JsonLib} {ed : Ed25519} {St : Type} `{!Persistence St Event} {N : Type} `{!EventDisseminator N}.
Context {B : Type} `{!BlobStore B} {TS TW : Type} {codec : TrajectoryCodec}.
Notation TService := (TService St N B TS TW).
Implicit Types (s : TService).

(** The commits of a task in the graph, in no particular order. *)
Definition all_commits (taskID branchID : string) (d : DAG St) : list CommitWithBody :=
  omap (commit_matches taskID branchID) (map_to_list (dag_events d)).*2.

Lemma dag_All_perm `{!RangeOrder} (d : DAG St) : dag_All d ≡ₚ (map_to_list (dag_events d)).*2.
Proof.
  change (dag_All d) with (range_map (dag_events d)). apply range_map_perm.
Qed.

Lemma commit_matches_Some taskID branchID ev n : commit_matches taskID branchID ev = Some n →
  cn_EventID n = ID ev ∧ cn_CausalTimestamp n = CausalTimestamp ev ∧ cn_TaskID n = taskID.
Proof.
  unfold commit_matches. destruct (CommitNodeFromEvent ev) as [node|] eqn:E; [|done]. cbn. case_decide as Ht; [done|]. case_decide; [done|]. intros [= <-]. cbn.
  unfold CommitNodeFromEvent in E. case_decide; [done|]. destruct (Payload ev ≫= unmarshal_commit) as [p|]; [|done]. injection E as <-. cbn in *.
  split_and!; [done|done|]. by destruct (decide (tc_TaskID p = taskID)).
Qed.

Lemma elem_of_all_commits taskID branchID (d : DAG St) n :
  n ∈ all_commits taskID branchID d ↔ ∃ id ev, dag_events d !! id = Some ev ∧ commit_matches taskID branchID ev = Some n.
Proof.
  unfold all_commits. rewrite list_elem_of_omap. split.
  - intros (ev & Hev & Hm). apply list_elem_of_fmap in Hev as ([id ev'] & -> & Hin%elem_of_map_to_list). eauto.
  - intros (id & ev & Hd & Hm). exists ev. split; [|done]. apply list_elem_of_fmap. exists (id, ev). split; [done|]. by apply elem_of_map_to_list.
Qed.

(** Two commits of the graph that are ordered both ways are the same. *)
Lemma all_commits_antisym taskID branchID (d : DAG St) a b : dag_inv d → a ∈ all_commits taskID branchID d → b ∈ all_commits taskID branchID d →
  commit_le a b → commit_le b a → a = b.
Proof.
  intros Hd (i & e & Hi & Ha)%elem_of_all_commits (j & f & Hj & Hb)%elem_of_all_commits Hab Hba.
  pose proof (commit_matches_Some _ _ _ _ Ha) as (Ea & Ta & _). pose proof (commit_matches_Some _ _ _ _ Hb) as (Eb & Tb & _).
  assert (cn_EventID a = cn_EventID b) as Hid.
  { destruct Hab as [|[? H1]], Hba as [|[? H2]]; try lia. by apply (anti_symm String.le). }
  rewrite Ea, Eb in Hid. rewrite (inv_id _ Hd _ _ Hi), (inv_id _ Hd _ _ Hj) in Hid. subst j. congruence.
Qed.

Lemma sortCommits_unique taskID branchID (d : DAG St) l1 l2 : dag_inv d →
  l1 ≡ₚ all_commits taskID branchID d → l2 ≡ₚ all_commits taskID branchID d → sortCommits l1 = sortCommits l2.
Proof.
  intros Hd P1 P2. assert (S1 : sortCommits l1 ≡ₚ l1) by apply sort_slice_perm. assert (S2 : sortCommits l2 ≡ₚ l2) by apply sort_slice_perm.
  apply (StronglySorted_unique_strong commit_le); [|apply (sort_slice_sorted commit_le)|apply (sort_slice_sorted commit_le)|by rewrite S1, S2, P1, P2].
  intros a b Ha Hb. rewrite S1, P1 in Ha. rewrite S2, P2 in Hb. by apply (all_commits_antisym taskID branchID d).
Qed.

Lemma omap_Permutation {X Y} (f : X → option Y) (l l' : list X) : l ≡ₚ l' → omap f l ≡ₚ omap f l'.
Proof. induction 1 as [|x l l' Hl IH|x y l|l l' l'' H1 IH1 H2 IH2]; cbn; [done|destruct (f x); by rewrite ?IH| |by etrans]. destruct (f x), (f y); try done. constructor. Qed.

Definition effective_limit (limit : Z) : Z := if decide (limit <= 0 ∨ MaxTrajectoryLimit < limit) then MaxTrajectoryLimit else limit.

Lemma GetTrajectories_eq {order : RangeOrder} taskID branchID limit s : dag_inv (sv_dag s) →
  tr_Commits (GetTrajectories taskID false branchID limit s) =
    take (Z.to_nat (effective_limit limit)) (sortCommits (all_commits taskID branchID (sv_dag s))).
Proof.
  intros Hd. unfold GetTrajectories. cbn [tr_Commits]. f_equal. apply (sortCommits_unique taskID branchID (sv_dag s)); [done| |done].
  unfold all_commits. apply omap_Permutation, dag_All_perm.
Qed.
End reading.

(** * Properties *)

(** The exploration root does not depend on the order of the events, always exists, and binds the set: two lists of
    as many events with the same root are permutations of each other, unless the two computations hashed two
    different messages to the same SHA-256. *)
Theorem exploration_root_binds ids1 ids2 :
  (ids1 ≡ₚ ids2 → ComputeExplorationRoot ids1 = ComputeExplorationRoot ids2) ∧
  is_Some (ComputeExplorationRoot ids1) ∧
  (length ids1 = length ids2 → ComputeExplorationRoot ids1 = ComputeExplorationRoot ids2 →
   ids1 ≡ₚ ids2 ∨ collision (merkle_inputs ids1) (merkle_inputs ids2)).
Proof.
  assert (Hl : ∀ ids, ids ≠ [] → merkle_leaves ids ≠ []).
  { intros ids Hne E. apply (f_equal length) in E. rewrite merkle_leaves_length in E. by destruct ids. }
  assert (Ht : ∀ ids, ids ≠ [] → is_Some (merkle_loop (length ids) (merkle_leaves ids))).
  { intros ids Hne. apply merkle_loop_total; [by apply Hl|]. rewrite merkle_leaves_length. lia. }
  split_and!.
  - intros Hp. unfold ComputeExplorationRoot, merkle_leaves. rewrite (sort_strings_perm _ _ Hp), (Permutation_length Hp).
    apply decide_ext. split; intros ->; [by apply Permutation_nil_l in Hp|by apply Permutation_nil_r in Hp].
  - unfold ComputeExplorationRoot. case_decide; [eauto|]. destruct (Ht ids1) as [r ->]; [done|]. eauto.
  - intros Hlen E. unfold ComputeExplorationRoot in E. destruct (decide (ids1 = [])) as [->|H1], (decide (ids2 = [])) as [->|H2]; [by left|by destruct ids2|by destruct ids1|].
    destruct (Ht ids1 H1) as [r1 E1], (Ht ids2 H2) as [r2 E2]. rewrite E1, E2 in E. injection E as E.
    assert (Hb : ∀ ids r, merkle_loop (length ids) (merkle_leaves ids) = Some r → Forall (λ b, 0 <= b < 256) r).
    { intros ids r Er. eapply (merkle_loop_digest _ _ _ (merkle_leaves_digests ids) Er), Forall_fmap, Forall_forall. intros id _. apply Sha256.Sum256_bytes. }
    apply hex_encode_inj in E as ->; [|by eapply Hb..].
    rewrite <- Hlen in E2. destruct (merkle_loop_binds _ _ _ r2 ltac:(by rewrite !merkle_leaves_length) (merkle_leaves_digests ids1) (merkle_leaves_digests ids2) E1 E2) as [El|Hc].
    + apply merkle_leaves_binds in El as [Es|Hc].
      * left. by rewrite <- (sort_strings_Permutation ids1), Es, sort_strings_Permutation.
      * right. eapply collision_mono; [..|exact Hc]; unfold merkle_inputs; set_solver.
    + right. eapply collision_mono; [..|exact Hc]; unfold merkle_inputs; rewrite ?Hlen; set_solver.
Qed.

(** A checkpoint hash identifies its checkpoint: two bodies of valid UTF-8 with the same hash are the same body, up to
    a missing and an empty map of parameters, unless their canonical bytes are a collision of SHA-256. *)
Theorem checkpoint_hash_binds a b : valid_body a → valid_body b → ComputeCheckpointHash a = ComputeCheckpointHash b →
  same_body a b ∨ collision [bytes_of_string (CanonicalCheckpointBytes a)] [bytes_of_string (CanonicalCheckpointBytes b)].
Proof.
  intros Ha Hb E. pose proof (f_equal fst E : hex_encode (Sha256.Sum256 (bytes_of_string (CanonicalCheckpointBytes a)))
    = hex_encode (Sha256.Sum256 (bytes_of_string (CanonicalCheckpointBytes b)))) as Eh. apply hex_encode_inj in Eh; [|apply Sha256.Sum256_bytes..].
  destruct (decide (CanonicalCheckpointBytes a = CanonicalCheckpointBytes b)) as [Ec|Hne].
  - left. by apply canonical_checkpoint_unique.
  - right. eexists _, _. split; [by apply list_elem_of_singleton|]. split; [by apply list_elem_of_singleton|]. split; [|exact Eh].
    intros Ec. apply Hne. by apply (inj bytes_of_string).
Qed.

Section trajectory_properties.
Context {lib : JsonLib} {ed : Ed25519} {St : Type} `{!Persistence St Event} {N : Type} `{!EventDisseminator N}.
Context {B : Type} `{!BlobStore B} {TS TW : Type} {codec : TrajectoryCodec}.
Notation TService := (TService St N B TS TW).
Implicit Types (s : TService).

(** A commit is recorded only for the claimer of a claimed or submitted task, which must be the node's own key.
    It adds one event to the graph, signed, that refers to the claim (and to the parent, if any), all of them in the graph;
    its payload names the blob that was stored.  A request that fails leaves the graph as it was. *)
Theorem commit_recorded now actor req s s' res : sv_EmitCommit now actor req s = (s', res) →
  match res with
  | inl _ => dag_events (sv_dag s') = dag_events (sv_dag s) ∧ ∀ t, CommitCount t s' = CommitCount t s
  | inr resp => ∃ task ev,
      tm_tasks (sv_taskMgr s) !! cr_TaskID req = Some task ∧ (t_Status task = TaskStatusClaimed ∨ t_Status task = TaskStatusSubmitted) ∧
      t_ClaimerID task = actor ∧ actor = kp_AgentID (sv_kp s) ∧
      cres_EventID resp = ID ev ∧ AgentID_ ev = actor ∧ VerifyEvent ev = true ∧
      Payload ev = Some (marshal_commit (payload_of req (cres_CheckpointHash resp) (cres_CheckpointSize resp))) ∧
      CausalRefs ev = t_ClaimEventID task :: (if decide (cr_ParentCommitID req = "") then [] else [cr_ParentCommitID req]) ∧
      (∀ r, r ∈ CausalRefs ev → is_Some (dag_events (sv_dag s) !! r)) ∧
      dag_events (sv_dag s) !! ID ev = None ∧ dag_events (sv_dag s') = <[ID ev := ev]> (dag_events (sv_dag s)) ∧
      CommitCount (cr_TaskID req) s' = CommitCount (cr_TaskID req) s + 1
  end.
Proof.
  intros [(e & _ & -> & ->)|(task & Hauth & [(e & Ha & ->)|(s1 & Ha & Hr)])]%EmitCommit_cases; [done|by apply pass_limits_error in Ha as ->|].
  apply authorize_Some in Hauth as (Htask & Hst & Hcl & _). apply pass_limits_spec in Ha as (_ & P1 & B1 & T1 & K1 & _ & L1).
  assert (Hd : sv_dag s1 = sv_dag s) by (unfold sv_dag; by rewrite P1). assert (HC : ∀ t, CommitCount t s1 = CommitCount t s) by (intros t; unfold CommitCount; by rewrite L1).
  apply emit_rest_spec in Hr as (_ & _ & _ & _ & Hres). destruct res as [e|resp].
  - destruct Hres as [-> Htc]. rewrite Hd. split; [done|]. intros t. unfold CommitCount. by rewrite Htc, L1.
  - destruct Hres as (Htc & _ & ev & Hev & Hid & Hdag & Hadd). apply commit_event_Some in Hev as (_ & _ & Hag & Hkp & Hpay & Hrefs). cbn in Hkp.
    pose proof (dag_Add_events ev (sv_dag s1)) as Hae. rewrite Hadd, <- Hdag, Hd in Hae. destruct Hae as (Hnew & Hin & Hver & Hins).
    exists task, ev. split_and!; try done; [congruence| |].
    + rewrite Hrefs. by case_decide.
    + unfold CommitCount at 1. rewrite Htc, lookup_insert_eq. cbn. by rewrite HC.
Qed.

(** Over requests one after the other, with a clock that does not go back, a task gets at most its number of commits and an
    agent at most its number per minute (but at least one). *)
Theorem commit_limits cfg p (b : B) (tm : TaskManager TS TW) kp start reqs s acc :
  0 <= tcf_MaxCommitsPerTask cfg → clock_forward start reqs → foldl emit_step (sv_New cfg p b tm kp, []) reqs = (s, acc) →
  (∀ t, task_commits t acc = CommitCount t s ∧ task_commits t acc <= tcf_MaxCommitsPerTask cfg) ∧
  ∀ m a, minute_commits m a acc <= Z.max 1 (tcf_MaxCommitsPerMinute cfg).
Proof.
  intros Hmax Hclock E. destruct (emit_run_inv cfg reqs start _ _ Hclock (new_limits cfg p b tm kp _)) as [last [_ Ht Htm Hm _ _ _]].
  rewrite E in Ht, Htm, Hm. cbn [fst snd] in *. split; [|done]. intros t. rewrite Ht. split; [done|]. specialize (Htm t). lia.
Qed.

(** What is read is the commits of the task, and of the branch if one is given, sorted by timestamp and ID and
    cut at the limit, whatever the order in which the graph is scanned. *)
Theorem trajectories_exact (o1 o2 : RangeOrder) taskID branchID limit s : dag_inv (sv_dag s) →
  GetTrajectories (order := o1) taskID false branchID limit s = GetTrajectories (order := o2) taskID false branchID limit s ∧
  ∃ l, StronglySorted commit_le l ∧ NoDup l ∧
    (∀ n, n ∈ l ↔ ∃ id ev, dag_events (sv_dag s) !! id = Some ev ∧ commit_matches taskID branchID ev = Some n) ∧
    tr_Commits (GetTrajectories (order := o1) taskID false branchID limit s) = take (Z.to_nat (effective_limit limit)) l.
Proof.
  intros Hd. split.
  - pose proof (GetTrajectories_eq (order := o1) taskID branchID limit s Hd) as E1.
    pose proof (GetTrajectories_eq (order := o2) taskID branchID limit s Hd) as E2. rewrite <- E2 in E1.
    unfold GetTrajectories in *. cbn [tr_Commits] in E1. by rewrite E1.
  - exists (sortCommits (all_commits taskID branchID (sv_dag s))). assert (Hp : sortCommits (all_commits taskID branchID (sv_dag s)) ≡ₚ all_commits taskID branchID (sv_dag s)) by apply sort_slice_perm.
    split_and!; [apply (sort_slice_sorted commit_le)| |intros n; rewrite Hp; apply elem_of_all_commits|by apply GetTrajectories_eq].
    rewrite Hp. unfold all_commits. apply (NoDup_fmap_1 (λ n : CommitWithBody, cn_EventID n)).
    assert (Hsub : ∀ evs, NoDup (ID <$> evs) → NoDup ((λ n : CommitWithBody, cn_EventID n) <$> omap (commit_matches taskID branchID) evs)).
    { intros evs. induction evs as [|ev evs IH]; [constructor|]. rewrite fmap_cons, NoDup_cons. intros [Hn Hl]. cbn.
      destruct (commit_matches taskID branchID ev) as [n|] eqn:E; [|auto]. rewrite fmap_cons, NoDup_cons. split; [|auto].
      intros (x & Hx & (e' & He' & Hm)%list_elem_of_omap)%list_elem_of_fmap. apply Hn. apply list_elem_of_fmap. exists e'. split; [|done].
      apply commit_matches_Some in E as (<- & _). apply commit_matches_Some in Hm as (<- & _). done. }
    apply Hsub. rewrite <- list_fmap_compose.
    assert (Hids : (ID ∘ snd) <$> map_to_list (dag_events (sv_dag s)) = (map_to_list (dag_events (sv_dag s))).*1).
    { apply list_fmap_ext. intros i [id ev] Hi. cbn. apply list_elem_of_lookup_2, elem_of_map_to_list in Hi. by apply (inv_id _ Hd). }
    rewrite Hids. apply NoDup_fst_map_to_list.
Qed.
End trajectory_properties.

Section read_back.
Context {lib : JsonLib} {ed : Ed25519} {St : Type} `{!Persistence St Event} {N : Type} `{!EventDisseminator N}.
Context {D : Type} `{!Disk D} {L : DiskLaws D} {TS TW : Type} {codec : TrajectoryCodec} {order : RangeOrder}.
Notation TService := (TService St N (FSStore D) TS TW).
Implicit Types (s : TService).

Lemma tc_Validate_hash p : tc_Validate p = None → tc_CheckpointHash p ≠ "".
Proof. unfold tc_Validate. do 2 (case_decide; [done|]). destruct (IsValidOutcome _); [|done]. cbn. by case_decide. Qed.

Lemma string_of_bytes_of_string x : string_of_bytes (bytes_of_string x) = x.
Proof.
  apply (inj bytes_of_string). apply bytes_of_string_of_bytes. unfold bytes_of_string. apply Forall_fmap, Forall_forall. intros c _. cbn.
  pose proof (Ascii.N_ascii_bounded c). lia.
Qed.

(** A commit is read back with its checkpoint: after a successful commit the commits of its task include it, by its author, and
    with bodies asked for the body is the one that was submitted, unless another blob with the same SHA-256 was in
    the store.  The task has no more commits than a query returns, and the decoder reads what was written. *)
Theorem commit_read_back now actor req s s' resp body0 :
  (let p := payload_of req (cres_CheckpointHash resp) (cres_CheckpointSize resp) in unmarshal_commit (marshal_commit p) = Some p) →
  unmarshal_checkpoint (CanonicalCheckpointBytes (checkpoint_of req)) = Some body0 → same_body body0 (checkpoint_of req) →
  sv_EmitCommit now actor req s = (s', inr resp) → dag_inv (sv_dag s) → fs_sound (sv_blob s) →
  (length (all_commits (cr_TaskID req) "" (sv_dag s')) <= 500)%nat →
  ∃ n : CommitWithBody, n ∈ tr_Commits (GetTrajectories (cr_TaskID req) true "" 0 s') ∧ cn_EventID n = cres_EventID resp ∧ cn_AgentID n = actor ∧
    cn_CheckpointHash n = cres_CheckpointHash resp ∧
    ((∃ body, cw_CheckpointBody n = Some body ∧ cw_BodyAvailable n = true ∧ same_body body (checkpoint_of req)) ∨
     ∃ data, data ≠ bytes_of_string (CanonicalCheckpointBytes (checkpoint_of req)) ∧
       Sha256.Sum256 data = Sha256.Sum256 (bytes_of_string (CanonicalCheckpointBytes (checkpoint_of req)))).
Proof.
  cbn zeta. intros Hdec Hb Hsame. intros [(e & _ & _ & [=])|(task & Hauth & [(e & _ & [=])|(s1 & Ha & Hr)])]%EmitCommit_cases Hd Hs Hlen.
  apply pass_limits_spec in Ha as (_ & P1 & B1 & _). assert (Hds : sv_dag s1 = sv_dag s) by (unfold sv_dag; by rewrite P1).
  apply emit_rest_spec in Hr as (_ & _ & _ & _ & _ & Hput & ev & Hev & Hid & Hdag & Hadd). rewrite B1 in Hput. rewrite Hds in Hdag, Hadd.
  apply commit_event_Some in Hev as (Hval & Hty & Hag & _ & Hpay & _).
  set (pl := payload_of req (cres_CheckpointHash resp) (cres_CheckpointSize resp)) in *.
  pose proof (dag_Add_events ev (sv_dag s)) as Hae. rewrite Hadd, <- Hdag in Hae. destruct Hae as (_ & _ & _ & Hins).
  assert (Hd' : dag_inv (sv_dag s')) by (rewrite Hdag; by apply dag_Add_inv).
  set (node := mkCommitNode (ID ev) (tc_TaskID pl) (tc_ParentCommitID pl) (tc_Outcome pl) (tc_CheckpointHash pl) (tc_CheckpointSize pl)
    (tc_ComputeCost pl) (tc_QualityScoreBP pl) (tc_CategoryHint pl) (tc_BranchID pl) (CausalTimestamp ev) (AgentID_ ev)).
  assert (Hm : commit_matches (cr_TaskID req) "" ev = Some (mkCommitWithBody node None false)).
  { unfold commit_matches, CommitNodeFromEvent. rewrite decide_False by tauto. rewrite Hpay. cbn [mbind option_bind]. rewrite Hdec. cbn.
    rewrite decide_False by tauto. by rewrite decide_False by (intros [? _]; done). }
  assert (Hin : mkCommitWithBody node None false ∈ tr_Commits (GetTrajectories (cr_TaskID req) false "" 0 s')).
  { rewrite GetTrajectories_eq by done. change (effective_limit 0) with 500.
    assert (Hp : sortCommits (all_commits (cr_TaskID req) "" (sv_dag s')) ≡ₚ all_commits (cr_TaskID req) "" (sv_dag s')) by apply sort_slice_perm.
    rewrite take_ge by (rewrite (Permutation_length Hp); lia). rewrite Hp. apply elem_of_all_commits. exists (ID ev), ev. by rewrite Hins, lookup_insert_eq. }
  exists (fetch_body (sv_blob s') (mkCommitWithBody node None false)). split.
  { unfold GetTrajectories in *. cbn [tr_Commits] in *. by apply list_elem_of_fmap_2. }
  cbn in Hput. pose proof (fs_Put_files _ _ _ _ Hput) as [Hres _]. pose proof (f_equal fst Hres : cres_CheckpointHash resp = hash_of (bytes_of_string (CanonicalCheckpointBytes (checkpoint_of req)))) as Hhash.
  destruct (fs_Put_Get _ _ _ _ Hs Hput) as (data & Hget & Hsum). rewrite <- Hhash in Hget.
  assert (Hne : cn_CheckpointHash node ≠ "").
  { exact (tc_Validate_hash _ Hval). }
  assert (Hf : ∀ n : CommitWithBody, cw_node (fetch_body (sv_blob s') n) = cw_node n) by (intros n; unfold fetch_body; by repeat (case_decide || case_match)).
  rewrite Hf. cbn [cw_node]. split_and!; [by rewrite Hid|done|done|].
  destruct (decide (data = bytes_of_string (CanonicalCheckpointBytes (checkpoint_of req)))) as [->|Hdiff]; [left|right; eauto].
  exists body0.
  unfold fetch_body. cbn [cw_node]. rewrite decide_False by done. cbn [node cn_CheckpointHash tc_CheckpointHash pl payload_of]. unfold node, pl. cbn.
  rewrite Hget, string_of_bytes_of_string, Hb. split; [reflexivity|]. by split.
Qed.
End read_back.

(** A commit of a claimer other than the node fails at its signature, after its blob was stored and its minute charged. *)
Lemma remote_claimer_fails {lib : JsonLib} {ed : Ed25519} {St} `{!Persistence St Event} {N} `{!EventDisseminator N} {B} `{!BlobStore B} {TS TW}
    now actor req (s s' : TService St N B TS TW) res : actor ≠ kp_AgentID (sv_kp s) → sv_EmitCommit now actor req s = (s', res) → ∃ e, res = inl e.
Proof.
  intros Hne [(e & _ & _ & ->)|(task & _ & [(e & _ & ->)|(s1 & Ha & Hr)])]%EmitCommit_cases; [eauto..|].
  apply pass_limits_spec in Ha as (_ & _ & _ & _ & K1 & _). apply emit_rest_spec in Hr as (_ & _ & _ & _ & Hres). destruct res as [e|resp]; [eauto|].
  destruct Hres as (_ & _ & ev & Hev & _). apply commit_event_Some in Hev as (_ & _ & _ & Hkp & _). cbn in Hkp. congruence.
Qed.

(** * Instances *)

Section demo.
#[local] Existing Instance sample_lib.
#[local] Existing Instance sample_ed.
#[local] Instance demo_events : Persistence (KeyedStore ID) Event := ks_persistence ID.
#[local] Instance demo_diss : EventDisseminator (list EventID) := {|
  diss_SubmitLocalEvent ev n := (n ++ [ID ev], true);
  diss_Broadcast ev n := (n ++ [ID ev], false);
|}.

Definition demo_agent : AgentID := hex_encode sample_key.
Definition demo_claimed : Task := with_Status TaskStatusClaimed (with_claim (mkTaskClaim demo_agent (ID root_event) 1 0) zero_task).
Definition demo_tasks : TaskManager unit unit := mkTM {["t1" := demo_claimed]} None false 0 0 None None None None.
Definition demo_service : TService (KeyedStore ID) (list EventID) (FSStore (gmap string (list Z))) unit unit :=
  SetPublisher (sv_New DefaultTrajectoryConfig (pub_New (graph [root_event]) (Some [])) (NewFSStore "/blobs" 0 ∅) demo_tasks sample_pair).

Definition demo_req : CommitRequest := mkCommitRequest "t1" "" OutcomeExploring "try <a> & b" (Some {["k" := "v"]}) "" "" "" 5 7000 "" "".
Definition demo_commit_payload : TrajectoryCommitPayload := Eval vm_compute in
  let b := checkpoint_of demo_req in payload_of demo_req (ComputeCheckpointHash b).1 (ComputeCheckpointHash b).2.

#[local] Instance demo_traj_codec : TrajectoryCodec := {|
  unmarshal_commit x := if decide (x = marshal_commit demo_commit_payload) then Some demo_commit_payload else None;
  unmarshal_checkpoint x := if decide (x = CanonicalCheckpointBytes (checkpoint_of demo_req)) then Some (checkpoint_of demo_req) else None;
|}.

Definition demo_result : TService (KeyedStore ID) (list EventID) (FSStore (gmap string (list Z))) unit unit * (TrajectoryError + CommitResponse) :=
  sv_EmitCommit 120 demo_agent demo_req demo_service.

Definition demo_resp : CommitResponse := Eval vm_compute in match demo_result.2 with inr r => r | inl _ => mkCommitResponse "" "" 0 "" end.

Lemma demo_emits : demo_result.2 = inr demo_resp.
Proof. vm_compute. reflexivity. Qed.

Lemma demo_emit_eq : sv_EmitCommit 120 demo_agent demo_req demo_service = (demo_result.1, inr demo_resp).
Proof. unfold demo_result at 1. rewrite <- demo_emits. unfold demo_result. by destruct (sv_EmitCommit _ _ _ _). Qed.

(** [<], [>] and [&] are escaped, which JavaScript and Python do not do. *)
Example escaped_markup : gquote "<a>&" = String quote ("\u003ca\u003e\u0026" +:+ String quote "").
Proof. reflexivity. Qed.

Lemma exploration_root_binds_witness :
  ["b"; "a"; "c"] ≡ₚ ["a"; "b"; "c"] ∧ ComputeExplorationRoot ["b"; "a"; "c"] = ComputeExplorationRoot ["a"; "b"; "c"] ∧
  (["b"; "a"; "c"] ≡ₚ ["a"; "b"; "c"] ∨ collision (merkle_inputs ["b"; "a"; "c"]) (merkle_inputs ["a"; "b"; "c"])).
Proof.
  assert (Hp : ["b"; "a"; "c"] ≡ₚ ["a"; "b"; "c"]) by constructor.
  destruct (exploration_root_binds ["b"; "a"; "c"] ["a"; "b"; "c"]) as (H1 & _ & H3).
  split; [exact Hp|]. split; [exact (H1 Hp)|]. apply H3; [reflexivity|exact (H1 Hp)].
Defined.

Lemma demo_body_valid : valid_body (checkpoint_of demo_req).
Proof. unfold valid_body. do 4 (split; [by vm_compute|]). intros k v Hkv. apply (lookup_singleton_Some "k" k "v" v) in Hkv as [<- <-]. by split; vm_compute. Qed.

Lemma checkpoint_hash_binds_witness : same_body (checkpoint_of demo_req) (checkpoint_of demo_req) ∨
  collision [bytes_of_string (CanonicalCheckpointBytes (checkpoint_of demo_req))] [bytes_of_string (CanonicalCheckpointBytes (checkpoint_of demo_req))].
Proof. apply (checkpoint_hash_binds (checkpoint_of demo_req) (checkpoint_of demo_req)); [exact demo_body_valid|exact demo_body_valid|reflexivity]. Defined.

Lemma commit_recorded_witness : ∃ ev, dag_events (sv_dag demo_result.1) !! cres_EventID demo_resp = Some ev ∧ VerifyEvent ev = true ∧
  CausalRefs ev = [ID root_event] ∧ AgentID_ ev = demo_agent.
Proof.
  destruct (commit_recorded 120 demo_agent demo_req demo_service demo_result.1 (inr demo_resp) demo_emit_eq)
    as (task & ev & Htask & _ & _ & _ & Hid & Hag & Hver & _ & Hrefs & _ & _ & Hins & _).
  exists ev. rewrite Hins, Hid, lookup_insert_eq. split; [reflexivity|]. split; [exact Hver|]. split; [|exact Hag].
  rewrite Hrefs. injection Htask as <-. reflexivity.
Defined.

Definition demo_requests : list (Z * AgentID * CommitRequest) := [(120, demo_agent, demo_req); (121, demo_agent, demo_req)].

Lemma commit_limits_witness : ∃ s acc, foldl emit_step (sv_New DefaultTrajectoryConfig (sv_pub demo_service) (sv_blob demo_service) demo_tasks sample_pair, []) demo_requests = (s, acc) ∧
  task_commits "t1" acc <= 100 ∧ minute_commits 2 demo_agent acc <= 10.
Proof.
  destruct (foldl emit_step (sv_New DefaultTrajectoryConfig (sv_pub demo_service) (sv_blob demo_service) demo_tasks sample_pair, []) demo_requests) as [s acc] eqn:E.
  exists s, acc. split; [reflexivity|].
  destruct (commit_limits DefaultTrajectoryConfig (sv_pub demo_service) (sv_blob demo_service) demo_tasks sample_pair 120 demo_requests s acc) as [H1 H2];
    [cbn; lia|cbn; lia|exact E|]. split; [apply (H1 "t1")|exact (H2 2 demo_agent)].
Defined.


Definition demo_commit : Event := Eval vm_compute in default root_event (dag_events (sv_dag demo_result.1) !! cres_EventID demo_resp).
Definition demo_read : TService (KeyedStore ID) (list EventID) (FSStore (gmap string (list Z))) unit unit :=
  set_pub (pub_New (graph [root_event; demo_commit]) None) demo_service.

Lemma trajectories_exact_witness :
  length (tr_Commits (GetTrajectories "t1" false "" 0 demo_read)) = 1%nat ∧
  ∃ l, StronglySorted commit_le l ∧ NoDup l ∧ tr_Commits (GetTrajectories "t1" false "" 0 demo_read) = take 500 l.
Proof.
  split; [vm_compute; reflexivity|].
  destruct (trajectories_exact elements_order elements_order "t1" "" 0 demo_read (dag_reach_inv _ (graph_reach _))) as (_ & l & H1 & H2 & _ & H4).
  exists l. split; [exact H1|]. split; [exact H2|exact H4].
Defined.

Lemma commit_read_back_witness : ∃ n : CommitWithBody, n ∈ tr_Commits (GetTrajectories "t1" true "" 0 demo_result.1) ∧
  cn_EventID n = cres_EventID demo_resp ∧
  ((∃ body, cw_CheckpointBody n = Some body ∧ cw_BodyAvailable n = true ∧ same_body body (checkpoint_of demo_req)) ∨
   ∃ data, data ≠ bytes_of_string (CanonicalCheckpointBytes (checkpoint_of demo_req)) ∧
     Sha256.Sum256 data = Sha256.Sum256 (bytes_of_string (CanonicalCheckpointBytes (checkpoint_of demo_req)))).
Proof.
  destruct (commit_read_back 120 demo_agent demo_req demo_service demo_result.1 demo_resp (checkpoint_of demo_req)) as (n & H1 & H2 & _ & _ & H3).
  - vm_compute. reflexivity.
  - vm_compute. reflexivity.
  - by split_and!.
  - exact demo_emit_eq.
  - apply dag_reach_inv, graph_reach.
  - intros h x _. unfold blob_at. cbn. by rewrite lookup_empty.
  - vm_compute. lia.
  - exists n. split; [exact H1|]. split; [exact H2|exact H3].
Defined.
End demo.
