(* ===== verification/Address.v ===== *)
(** internal/crypto/address.go: bech32 addresses of public keys (BIP-173).

    A Go string is a [string] of bytes; what is not ASCII is refused, so ranging over runes and over bytes is the same.  Five-bit groups and bytes are [Z]; the checksum is a
    [uint32]. *)

From S2P Require Import Prelude GoStd Jcs.
#[local] Open Scope Z_scope.

Definition TestnetHRP : string := "taet".
Definition MainnetHRP : string := "aet".

Definition bech32Charset : string := "qpzry9x8gf2tvdw0s3jn54khce6mua7l".

Definition charset_at (i : Z) : option Ascii.ascii := String.get (Z.to_nat i) bech32Charset.

Fixpoint index_of (c : Ascii.ascii) (s : string) (i : Z) : option Z :=
  match s with EmptyString => None | String a s' => if Ascii.eqb a c then Some i else index_of c s' (i + 1) end.

(** [bech32CharsetRev]; -1 is [None]. *)
Definition bech32CharsetRev (c : Ascii.ascii) : option Z := index_of c bech32Charset 0.

Definition gen : list Z := [0x3b6a57b2; 0x26508e6d; 0x1ea119fa; 0x3d4233dd; 0x2a1462b3].

(** The inner loop of [bech32Polymod]. *)
Fixpoint mix (b : Z) (i : Z) (gen : list Z) (chk : Z) : Z :=
  match gen with
  | [] => chk
  | g :: gen' => mix b (i + 1) gen' (if decide (Z.land (Z.shiftr b i) 1 = 1) then Z.lxor chk g else chk)
  end.

Definition polymod_step (chk v : Z) : Z :=
  let b := Z.shiftr chk 25 in
  mix b 0 gen (Z.lxor (Z.shiftl (Z.land chk 0x1ffffff) 5) v).

Definition bech32Polymod (values : list Z) : Z := foldl polymod_step 1 values.

Definition bech32HRPExpand (hrp : string) : list Z :=
  ((λ c, Z.shiftr c 5) <$> bytes_of_string hrp) ++ [0] ++ ((λ c, Z.land c 31) <$> bytes_of_string hrp).

Definition bech32CreateChecksum (hrp : string) (data : list Z) : list Z :=
  let values := bech32HRPExpand hrp ++ data ++ [0; 0; 0; 0; 0; 0] in
  let polymod := Z.lxor (bech32Polymod values) 1 in
  (λ i, Z.land (Z.shiftr polymod (5 * (5 - i))) 31) <$> [0; 1; 2; 3; 4; 5].

Definition bech32VerifyChecksum (hrp : string) (data : list Z) : bool := bool_decide (bech32Polymod (bech32HRPExpand hrp ++ data) = 1).

(** The characters of the groups; [None] when one of them is no group. *)
Fixpoint charset_string (l : list Z) : option string :=
  match l with
  | [] => Some ""
  | d :: l' => if decide (Z.of_nat (String.length bech32Charset) <= d) then None else c ← charset_at d; s ← charset_string l'; Some (String c s)
  end.

Definition bech32Encode (hrp : string) (data : list Z) : option string :=
  let combined := data ++ bech32CreateChecksum hrp data in
  s ← charset_string combined; Some (hrp +:+ "1" +:+ s).

(** [strings.ToLower].  Outside ASCII only the Kelvin sign (E2 84 AA, lower case k) and the dotted capital I (C4 B0,
    lower case i) have an ASCII lower case; the other characters stay outside ASCII, and what is not ASCII is refused below. *)
Definition lower (c : Ascii.ascii) : Ascii.ascii :=
  let n := Ascii.nat_of_ascii c in if decide (65 <= n <= 90)%nat then Ascii.ascii_of_nat (n + 32) else c.

Definition is_code (n : nat) (c : Ascii.ascii) : bool := Ascii.eqb c (Ascii.ascii_of_nat n).

Fixpoint ToLower (s : string) : string :=
  match s with
  | EmptyString => ""
  | String c s' =>
      match s' with
      | String c1 s1 =>
          if is_code 196 c && is_code 176 c1 then String (Ascii.ascii_of_nat 105) (ToLower s1)
          else
            match s1 with
            | String c2 s2 =>
                if is_code 226 c && is_code 132 c1 && is_code 170 c2 then String (Ascii.ascii_of_nat 107) (ToLower s2)
                else String (lower c) (ToLower s')
            | EmptyString => String (lower c) (ToLower s')
            end
      | EmptyString => String (lower c) (ToLower s')
      end
  end.

(** [strings.LastIndexByte(s, '1')] splits the string. *)
Fixpoint split_last (s : string) : option (string * string) :=
  match s with
  | EmptyString => None
  | String c s' =>
      match split_last s' with
      | Some (a, b) => Some (String c a, b)
      | None => if Ascii.eqb c (Ascii.ascii_of_nat 49) then Some ("", s') else None
      end
  end.

Fixpoint charset_values (s : string) : option (list Z) :=
  match s with EmptyString => Some [] | String c s' => d ← bech32CharsetRev c; l ← charset_values s'; Some (d :: l) end.

Definition bech32Decode (s : string) : option (string * list Z) :=
  if decide (90 < String.length s)%nat then None
  else
    '(hrp, dataStr) ← split_last (ToLower s);
    if decide (String.length hrp < 1 ∨ String.length dataStr < 6)%nat then None
    else
      data ← charset_values dataStr;
      if bech32VerifyChecksum hrp data then Some (hrp, take (length data - 6) data) else None.

(** The loop of [convertBits] over the bits of one group: [bits] is below [toBits] afterwards. *)
Fixpoint emit_groups (fuel : nat) (acc bits toBits : Z) : Z * list Z :=
  match fuel with
  | O => (bits, [])
  | S fuel =>
      if decide (toBits <= bits) then
        let '(bits', out) := emit_groups fuel acc (bits - toBits) toBits in
        (bits', Z.land (Z.shiftr acc (bits - toBits)) (Z.shiftl 1 toBits - 1) :: out)
      else (bits, [])
  end.

Definition mask32 (z : Z) : Z := z mod 4294967296.

(** Both groups have at most eight bits, so at most eight groups come out of one. *)
Fixpoint convert_loop (data : list Z) (fromBits toBits acc bits : Z) : Z * Z * list Z :=
  match data with
  | [] => (acc, bits, [])
  | b :: data' =>
      let acc := Z.lor (mask32 (Z.shiftl acc fromBits)) b in
      let '(bits, out) := emit_groups 16 acc (bits + fromBits) toBits in
      let '(acc, bits, rest) := convert_loop data' fromBits toBits acc bits in
      (acc, bits, out ++ rest)
  end.

Definition convertBits (data : list Z) (fromBits toBits : Z) (pad : bool) : option (list Z) :=
  let maxv := Z.shiftl 1 toBits - 1 in
  let '(acc, bits, result) := convert_loop data fromBits toBits 0 0 in
  let last := Z.land (mask32 (Z.shiftl acc (toBits - bits))) maxv in
  if pad then Some (if decide (0 < bits) then result ++ [last] else result)
  else if decide (fromBits <= bits) then None
  else if decide (last ≠ 0) then None
  else Some result.

(** * Addresses *)

Definition AddressFromPublicKey (pubKey : list Z) (testnet : bool) : option string :=
  if decide (length pubKey ≠ PublicKeySize) then None
  else data ← convertBits pubKey 8 5 true; bech32Encode (if testnet then TestnetHRP else MainnetHRP) data.

Definition PublicKeyFromAddress (address : string) : option (list Z * string) :=
  '(hrp, data) ← bech32Decode address;
  if decide (hrp ≠ TestnetHRP ∧ hrp ≠ MainnetHRP) then None
  else
    converted ← convertBits data 5 8 false;
    if decide (length converted ≠ PublicKeySize) then None else Some (converted, hrp).

Definition ValidateAddress (address : string) : bool := bool_decide (is_Some (PublicKeyFromAddress address)).

(** [KeyPair.Address]; an error gives the empty string. *)
Definition kp_Address (kp : KeyPair) (testnet : bool) : string := default "" (AddressFromPublicKey (kp_PublicKey kp) testnet).

Definition ResolveAgentID (input : string) : string :=
  if String.prefix (TestnetHRP +:+ "1") input || String.prefix (MainnetHRP +:+ "1") input then
    match PublicKeyFromAddress input with Some (pk, _) => hex_encode pk | None => input end
  else input.

Definition demo_key : list Z := seqZ 1 32.
Example demo_addr : (a ← AddressFromPublicKey demo_key true; PublicKeyFromAddress a) = Some (demo_key, "taet").
Proof. vm_compute. reflexivity. Qed.

(** * Groups of bits *)

(** The number that a list of [k]-bit groups writes, most significant first. *)
Definition num (k : Z) (l : list Z) : Z := foldl (λ n d, n * 2 ^ k + d) 0 l.

Definition groups (k : Z) (l : list Z) : Prop := Forall (λ d, 0 <= d < 2 ^ k) l.

Lemma num_from k l n : 0 <= k → foldl (λ n d, n * 2 ^ k + d) n l = n * 2 ^ (k * Z.of_nat (length l)) + num k l.
Proof.
  intros Hk. unfold num. revert n. induction l as [|d l IH]; intros n; cbn [foldl length].
  - change (Z.of_nat 0) with 0. rewrite Z.mul_0_r, Z.pow_0_r. lia.
  - rewrite IH, (IH (0 * 2 ^ k + d)). replace (k * Z.of_nat (S (length l))) with (k + k * Z.of_nat (length l)) by lia. rewrite Z.pow_add_r by lia. lia.
Qed.

Lemma num_cons k d l : 0 <= k → num k (d :: l) = d * 2 ^ (k * Z.of_nat (length l)) + num k l.
Proof. intros Hk. unfold num at 1. cbn [foldl]. rewrite num_from by done. lia. Qed.

Lemma num_app k l1 l2 : 0 <= k → num k (l1 ++ l2) = num k l1 * 2 ^ (k * Z.of_nat (length l2)) + num k l2.
Proof. intros Hk. unfold num at 1. by rewrite foldl_app, num_from. Qed.

Lemma num_bound k l : 0 <= k → groups k l → 0 <= num k l < 2 ^ (k * Z.of_nat (length l)).
Proof.
  intros Hk. induction 1 as [|d l Hd Hl IH]; [cbn [length]; change (Z.of_nat 0) with 0; rewrite Z.mul_0_r; done|]. rewrite num_cons by done. cbn [length].
  replace (k * Z.of_nat (S (length l))) with (k + k * Z.of_nat (length l)) by lia. rewrite Z.pow_add_r by lia. nia.
Qed.

Lemma num_inj k l1 l2 : 0 <= k → groups k l1 → groups k l2 → length l1 = length l2 → num k l1 = num k l2 → l1 = l2.
Proof.
  intros Hk H1. revert l2. induction H1 as [|d l Hd Hl IH]; intros [|e l2] H2 Hlen E; try done.
  apply Forall_cons in H2 as [He H2]. injection Hlen as Hlen. rewrite !num_cons, <- Hlen in E by done.
  pose proof (num_bound k l Hk Hl). pose proof (num_bound k l2 Hk H2) as Hb2. rewrite <- Hlen in Hb2.
  assert (d = e) as -> by nia. f_equal. apply IH; [done|done|]. lia.
Qed.

Lemma low_bits z n : 0 <= n → Z.land z (Z.shiftl 1 n - 1) = z mod 2 ^ n.
Proof. intros Hn. rewrite Z.shiftl_1_l. replace (2 ^ n - 1) with (Z.ones n) by (rewrite Z.ones_equiv; lia). by apply Z.land_ones. Qed.

(** The groups cut from the low [bits] bits of the accumulator. *)
Lemma emit_groups_spec fuel acc bits toBits bits' out : 0 < toBits → 0 <= bits → bits < toBits * Z.of_nat fuel + toBits →
  emit_groups fuel acc bits toBits = (bits', out) →
  0 <= bits' < toBits ∧ groups toBits out ∧ bits = toBits * Z.of_nat (length out) + bits' ∧
  acc mod 2 ^ bits = num toBits out * 2 ^ bits' + acc mod 2 ^ bits'.
Proof.
  intros Ht. revert bits bits' out. induction fuel as [|fuel IH]; intros bits bits' out Hb Hf; cbn [emit_groups].
  - intros [= <- <-]. cbn. split_and!; [lia|lia|constructor|lia|lia].
  - case_decide as Hd; [|intros [= <- <-]; cbn; split_and!; [lia|lia|constructor|lia|lia]].
    destruct (emit_groups fuel acc (bits - toBits) toBits) as [b1 o1] eqn:E. intros [= <- <-].
    apply IH in E as (Hb1 & Ho & Hbits & Hval); [|lia|lia]. rewrite low_bits by lia. rewrite Z.shiftr_div_pow2 by lia.
    pose proof (Z.mod_pos_bound (acc `div` 2 ^ (bits - toBits)) (2 ^ toBits) ltac:(lia)).
    split_and!; [lia|lia|by constructor|cbn [length]; lia|].
    rewrite num_cons by lia. assert (Hpow : 2 ^ bits = 2 ^ (bits - toBits) * 2 ^ toBits) by (rewrite <- Z.pow_add_r by lia; f_equal; lia).
    rewrite Hpow, Z.rem_mul_r by lia. rewrite Hval. replace (bits - toBits) with (toBits * Z.of_nat (length o1) + b1) at 1 by lia.
    rewrite Z.pow_add_r by lia. lia.
Qed.

Lemma push_group acc from b bits : 0 <= from <= 16 → 0 <= bits → bits + from <= 32 → 0 <= b < 2 ^ from →
  Z.lor (mask32 (Z.shiftl acc from)) b mod 2 ^ (bits + from) = (acc mod 2 ^ bits) * 2 ^ from + b.
Proof.
  intros Hf Hb Hbf Hbb. unfold mask32. change 4294967296 with (2 ^ 32).
  assert (Hs : Z.shiftl acc from mod 2 ^ 32 = ((acc mod 2 ^ (32 - from)) * 2 ^ from)).
  { rewrite Z.shiftl_mul_pow2 by lia. replace (2 ^ 32) with (2 ^ (32 - from) * 2 ^ from) by (rewrite <- Z.pow_add_r by lia; f_equal; lia).
    apply Zmult_mod_distr_r. }
  rewrite Hs.
  assert (Hlor : Z.lor ((acc mod 2 ^ (32 - from)) * 2 ^ from) b = (acc mod 2 ^ (32 - from)) * 2 ^ from + b).
  { symmetry. rewrite Z.add_nocarry_lxor, Z.lxor_lor; [done| |]; apply Z.bits_inj'; intros i Hi; rewrite Z.land_spec, Z.bits_0.
    all: destruct (Z.ltb_spec i from); [rewrite Z.mul_pow2_bits_low by lia; done|].
    all: assert (Htb : Z.testbit b i = false); [|by rewrite Htb, andb_false_r].
    all: destruct (decide (b = 0)) as [->|Hb0]; [apply Z.bits_0|]; apply Z.bits_above_log2; [lia|]; apply Z.log2_lt_pow2; [lia|].
    all: eapply Z.lt_le_trans; [apply Hbb|apply Z.pow_le_mono_r; lia]. }
  rewrite Hlor. set (A := acc mod 2 ^ (32 - from)).
  assert (HA : A mod 2 ^ bits = acc mod 2 ^ bits).
  { unfold A. symmetry. apply Znumtheory.Zmod_div_mod; [lia|lia|]. exists (2 ^ (32 - from - bits)). rewrite <- Z.pow_add_r by lia. f_equal. lia. }
  pose proof (Z_div_mod_eq_full A (2 ^ bits)) as Hdm. rewrite HA in Hdm. pose proof (Z.mod_pos_bound acc (2 ^ bits) ltac:(lia)).
  symmetry. apply (Z.mod_unique_pos _ _ (A / 2 ^ bits)); rewrite Z.pow_add_r by lia; nia.
Qed.

(** The loop of [convertBits]: the bits that went in are those that came out and those that are left. *)
Lemma convert_loop_spec from to data : 0 < from <= 8 → 0 < to <= 8 → groups from data → ∀ acc bits, 0 <= bits < to →
  ∀ acc' bits' out, convert_loop data from to acc bits = (acc', bits', out) →
  0 <= bits' < to ∧ groups to out ∧ bits + from * Z.of_nat (length data) = to * Z.of_nat (length out) + bits' ∧
  (acc mod 2 ^ bits) * 2 ^ (from * Z.of_nat (length data)) + num from data = num to out * 2 ^ bits' + acc' mod 2 ^ bits'.
Proof.
  intros Hf Ht. induction 1 as [|b data Hb Hdata IH]; intros acc bits Hbits acc' bits' out; cbn [convert_loop].
  - intros [= <- <- <-]. cbn [length]. change (Z.of_nat 0) with 0. rewrite !Z.mul_0_r, Z.pow_0_r. change (num from []) with 0. change (num to []) with 0.
    split_and!; [lia|lia|constructor|lia|lia].
  - set (acc1 := Z.lor (mask32 (Z.shiftl acc from)) b).
    destruct (emit_groups 16 acc1 (bits + from) to) as [b1 o1] eqn:E1. destruct (convert_loop data from to acc1 b1) as [[a2 b2] o2] eqn:E2. intros [= <- <- <-].
    apply emit_groups_spec in E1 as (B1 & G1 & L1 & V1); [|lia|lia|lia].
    apply IH in E2 as (B2 & G2 & L2 & V2); [|lia].
    assert (Hp : acc1 mod 2 ^ (bits + from) = (acc mod 2 ^ bits) * 2 ^ from + b) by (apply push_group; lia).
    split_and!; [lia|lia|by apply Forall_app|rewrite length_app; cbn [length]; lia|].
    rewrite num_app, num_cons by lia. cbn [length].
    replace (from * Z.of_nat (S (length data))) with (from + from * Z.of_nat (length data)) by lia. rewrite Z.pow_add_r by lia.
    set (P := 2 ^ (from * Z.of_nat (length data))) in *.
    assert (Hpow : 2 ^ b1 * P = 2 ^ (to * Z.of_nat (length o2)) * 2 ^ b2).
    { unfold P. rewrite <- !Z.pow_add_r by lia. f_equal. lia. }
    rewrite Hp in V1. set (A := acc mod 2 ^ bits) in *. set (m := acc1 mod 2 ^ b1) in *.
    transitivity ((A * 2 ^ from + b) * P + num from data); [ring|]. rewrite V1.
    transitivity (num to o1 * (2 ^ b1 * P) + (m * P + num from data)); [ring|]. rewrite Hpow, V2. ring.
Qed.

(** * The checksum *)

Lemma lxor_range n a b : 0 <= n → 0 <= a < 2 ^ n → 0 <= b < 2 ^ n → 0 <= Z.lxor a b < 2 ^ n.
Proof.
  intros Hn Ha Hb. assert (H0 : 0 <= Z.lxor a b) by (apply Z.lxor_nonneg; lia). split; [done|].
  destruct (decide (Z.lxor a b = 0)) as [->|Hx]; [apply Z.pow_pos_nonneg; lia|]. apply Z.log2_lt_pow2; [lia|].
  assert (Hp : 0 < n) by (destruct (decide (n = 0)) as [->|]; [|lia]; change (2 ^ 0) with 1 in *; assert (a = 0) as -> by lia; assert (b = 0) as -> by lia; done).
  assert (Hlog : ∀ x, 0 <= x < 2 ^ n → Z.log2 x < n).
  { intros x Hr. destruct (decide (x = 0)) as [->|]; [done|]. apply Z.log2_lt_pow2; lia. }
  pose proof (Z.log2_lxor a b ltac:(lia) ltac:(lia)). pose proof (Hlog a Ha). pose proof (Hlog b Hb). lia.
Qed.

Lemma bit_test b i : 0 <= i → Z.land (Z.shiftr b i) 1 = 1 ↔ Z.testbit b i = true.
Proof.
  intros Hi. change 1 with (Z.ones 1) at 1. rewrite Z.land_ones by lia. change (2 ^ 1) with 2. rewrite Z.shiftr_div_pow2 by lia. symmetry. apply Z.testbit_true. lia.
Qed.

Lemma if_bit {A} b i (x y : A) : 0 <= i → (if decide (Z.land (Z.shiftr b i) 1 = 1) then x else y) = if Z.testbit b i then x else y.
Proof. intros Hi. case_decide as H; rewrite bit_test in H by done; [by rewrite H|]. by apply not_true_is_false in H as ->. Qed.

Lemma mix_lxor gen b b' : ∀ i c c', 0 <= i → mix (Z.lxor b b') i gen (Z.lxor c c') = Z.lxor (mix b i gen c) (mix b' i gen c').
Proof.
  induction gen as [|g gen IH]; intros i c c' Hi; [done|]. cbn [mix]. rewrite !if_bit, Z.lxor_spec by done. rewrite <- IH by lia. f_equal.
  apply Z.bits_inj'. intros j Hj. destruct (Z.testbit b i), (Z.testbit b' i); cbn; rewrite !Z.lxor_spec.
  all: by destruct (Z.testbit c j), (Z.testbit c' j), (Z.testbit g j).
Qed.

Lemma polymod_step_lxor a b v w : polymod_step (Z.lxor a b) (Z.lxor v w) = Z.lxor (polymod_step a v) (polymod_step b w).
Proof.
  unfold polymod_step. rewrite Z.shiftr_lxor, <- mix_lxor by lia. f_equal.
  apply Z.bits_inj'. intros i Hi. rewrite !Z.lxor_spec, !Z.shiftl_spec, !Z.land_spec, !Z.lxor_spec by done.
  destruct (Z.testbit a (i - 5)), (Z.testbit b (i - 5)), (Z.testbit 33554431 (i - 5)), (Z.testbit v i), (Z.testbit w i); reflexivity.
Qed.

Lemma mix_range b gen : Forall (λ g, 0 <= g < 2 ^ 30) gen → ∀ i chk, 0 <= chk < 2 ^ 30 → 0 <= mix b i gen chk < 2 ^ 30.
Proof.
  induction 1 as [|g gen Hg Hgen IH]; intros i chk Hc; [done|]. cbn [mix]. apply IH. case_decide; [|done]. apply lxor_range; [lia|done|done].
Qed.

Definition group (v : Z) : Prop := 0 <= v < 32.

Lemma polymod_step_range chk v : 0 <= v < 32 → 0 <= polymod_step chk v < 2 ^ 30.
Proof.
  intros Hv. unfold polymod_step. apply mix_range; [by repeat constructor|].
  apply lxor_range; [lia| |lia]. change 33554431 with (Z.ones 25). rewrite Z.land_ones, Z.shiftl_mul_pow2 by lia.
  pose proof (Z.mod_pos_bound chk (2 ^ 25) ltac:(lia)). lia.
Qed.

Lemma polymod_range l chk : groups 5 l → 0 <= chk < 2 ^ 30 → 0 <= foldl polymod_step chk l < 2 ^ 30.
Proof. intros H. revert chk. induction H as [|d l Hd Hl IH]; intros chk Hc; [done|]. cbn [foldl]. by apply IH, polymod_step_range. Qed.

(** Before the register is full a step only shifts. *)
Lemma polymod_step_shift n d : 0 <= n < 2 ^ 25 → 0 <= d < 32 → polymod_step n d = n * 2 ^ 5 + d.
Proof.
  intros Hn Hd. unfold polymod_step. assert (Z.shiftr n 25 = 0) as -> by (rewrite Z.shiftr_div_pow2 by lia; apply Z.div_small; lia).
  change (mix 0 0 gen ?x) with x. change 33554431 with (Z.ones 25). rewrite Z.land_ones, Z.mod_small, Z.shiftl_mul_pow2 by lia.
  symmetry. apply Z.add_nocarry_lxor, Z.bits_inj'. intros i Hi. rewrite Z.land_spec, Z.bits_0.
  destruct (Z.ltb_spec i 5); [by rewrite Z.mul_pow2_bits_low by lia|].
  assert (Z.testbit d i = false) as ->; [|by rewrite andb_false_r].
  destruct (decide (d = 0)) as [->|]; [apply Z.bits_0|]. apply Z.bits_above_log2; [lia|].
  apply Z.log2_lt_pow2; [lia|]. apply (Z.lt_le_trans _ (2 ^ 5)); [lia|apply Z.pow_le_mono_r; lia].
Qed.

Lemma polymod_packs l : groups 5 l → (length l <= 6)%nat → foldl polymod_step 0 l = num 5 l.
Proof.
  intros H Hlen. unfold num. induction l as [|d l IH] using rev_ind; [done|].
  apply Forall_app in H as [Hl Hd]. apply Forall_cons in Hd as [Hd _]. rewrite length_app in Hlen. cbn [length] in Hlen.
  rewrite !foldl_app, IH by (done || lia). cbn [foldl]. change (foldl _ 0 l) with (num 5 l). apply polymod_step_shift; [|exact Hd].
  pose proof (num_bound 5 l ltac:(lia) Hl) as Hb. split; [lia|]. eapply Z.lt_le_trans; [apply Hb|]. apply Z.pow_le_mono_r; lia.
Qed.

Lemma polymod_split l : ∀ s, foldl polymod_step s l = Z.lxor (foldl polymod_step s (replicate (length l) 0)) (foldl polymod_step 0 l).
Proof.
  assert (G : ∀ s t, foldl polymod_step (Z.lxor s t) l = Z.lxor (foldl polymod_step s (replicate (length l) 0)) (foldl polymod_step t l)).
  { induction l as [|d l IH]; intros s t; [done|]. cbn [foldl length replicate]. rewrite <- IH. f_equal. by rewrite <- polymod_step_lxor. }
  intros s. rewrite <- G. by rewrite Z.lxor_0_r.
Qed.

Lemma checksum_num P : 0 <= P < 2 ^ 30 → num 5 ((λ i, Z.land (Z.shiftr P (5 * (5 - i))) 31) <$> [0; 1; 2; 3; 4; 5]) = P.
Proof.
  intros HP. cbn [fmap list_fmap]. unfold num. cbn [foldl]. change 31 with (Z.ones 5). rewrite !Z.land_ones, !Z.shiftr_div_pow2 by lia.
  change (5 * (5 - 0)) with 25. change (5 * (5 - 1)) with 20. change (5 * (5 - 2)) with 15. change (5 * (5 - 3)) with 10. change (5 * (5 - 4)) with 5. change (5 * (5 - 5)) with 0.
  Z.to_euclidean_division_equations. lia.
Qed.

Lemma groups_map {A} f (l : list A) : (∀ x, f x = Z.land (f x) 31) → groups 5 (f <$> l).
Proof.
  intros Hf. apply Forall_fmap, Forall_true. intros x. cbn. rewrite Hf. change 31 with (Z.ones 5). rewrite Z.land_ones by lia. apply Z.mod_pos_bound. lia.
Qed.

(** Six groups make a valid checksum exactly when they are those that [bech32CreateChecksum] appends. *)
Lemma checksum_unique hrp data cs : groups 5 (bech32HRPExpand hrp) → groups 5 data → groups 5 cs → length cs = 6%nat →
  bech32VerifyChecksum hrp (data ++ cs) = true ↔ cs = bech32CreateChecksum hrp data.
Proof.
  intros Hh Hd Hc Hlen. unfold bech32VerifyChecksum, bech32Polymod. rewrite bool_decide_eq_true, app_assoc, foldl_app.
  rewrite polymod_split, Hlen. change (replicate 6 0) with [0; 0; 0; 0; 0; 0]. rewrite (polymod_packs cs Hc) by lia. rewrite <- foldl_app, <- app_assoc.
  unfold bech32CreateChecksum. change (foldl polymod_step 1 ?v) with (bech32Polymod v). set (Q := bech32Polymod _).
  assert (HQ : 0 <= Q < 2 ^ 30).
  { apply polymod_range; [|lia]. apply Forall_app. split; [done|]. apply Forall_app. split; [done|]. repeat constructor; lia. }
  clearbody Q. assert (HP : 0 <= Z.lxor Q 1 < 2 ^ 30) by (apply lxor_range; lia). pose proof (checksum_num _ HP) as HN.
  assert (HG : groups 5 ((λ i, Z.land (Z.shiftr (Z.lxor Q 1) (5 * (5 - i))) 31) <$> [0; 1; 2; 3; 4; 5])).
  { apply groups_map. intros x. rewrite <- Z.land_assoc. done. }
  split.
  - intros E. apply (num_inj 5); [lia|done|done|done|]. rewrite HN. rewrite <- E, <- Z.lxor_assoc, Z.lxor_nilpotent, Z.lxor_0_l. done.
  - intros ->. rewrite HN. by rewrite <- Z.lxor_assoc, Z.lxor_nilpotent, Z.lxor_0_l.
Qed.

Lemma polymod_step_inj d : 0 <= d < 2 ^ 30 → polymod_step d 0 = 0 → d = 0.
Proof.
  intros Hd E. unfold polymod_step in E. rewrite Z.lxor_0_r in E. change 33554431 with (Z.ones 25) in E. rewrite Z.land_ones, Z.shiftl_mul_pow2 in E by lia.
  set (b := Z.shiftr d 25) in *. assert (Hb : 0 <= b < 32).
  { unfold b. rewrite Z.shiftr_div_pow2 by lia. split; [apply Z.div_pos; lia|apply Z.div_lt_upper_bound; lia]. }
  assert (Hlin : ∀ x, mix b 0 gen x = Z.lxor x (mix b 0 gen 0)).
  { intros x. rewrite <- (Z.lxor_0_r x) at 1. rewrite <- (Z.lxor_0_l b) at 1. rewrite mix_lxor by lia. done. }
  rewrite Hlin in E. apply Z.lxor_eq in E.
  assert (Hlow : (mix b 0 gen 0) mod 32 = 0) by (rewrite <- E; change (2 ^ 5) with 32; apply Z_mod_mult).
  assert (Hall : Forall (λ x, (mix x 0 gen 0) mod 32 = 0 → x = 0) (seqZ 0 32)).
  { apply (bool_decide_unpack _). vm_compute. done. }
  assert (Hb0 : b = 0) by (rewrite Forall_forall in Hall; apply Hall; [apply elem_of_seqZ; lia|done]).
  rewrite Hb0 in E. change (mix 0 0 gen 0) with 0 in E. assert (d mod 2 ^ 25 = 0) by lia.
  unfold b in Hb0. rewrite Z.shiftr_div_pow2 in Hb0 by lia. pose proof (Z_div_mod_eq_full d (2 ^ 25)). lia.
Qed.

Lemma polymod_inj l : groups 5 l → ∀ s t, 0 <= s < 2 ^ 30 → 0 <= t < 2 ^ 30 → foldl polymod_step s l = foldl polymod_step t l → s = t.
Proof.
  induction 1 as [|v l Hv Hl IH]; intros s t Hs Ht E; [done|]. cbn [foldl] in E.
  apply IH in E; [|by apply polymod_step_range|by apply polymod_step_range].
  apply Z.lxor_eq, polymod_step_inj; [apply lxor_range; lia|]. transitivity (polymod_step (Z.lxor s t) (Z.lxor v v)); [by rewrite Z.lxor_nilpotent|]. rewrite polymod_step_lxor, E. apply Z.lxor_nilpotent.
Qed.

(** One wrong group changes the checksum. *)
Lemma polymod_one_error pre v v' post : groups 5 pre → group v → group v' → groups 5 post →
  bech32Polymod (pre ++ v :: post) = bech32Polymod (pre ++ v' :: post) → v = v'.
Proof.
  intros H1 Hv Hv' H2. unfold bech32Polymod. rewrite !foldl_app. cbn [foldl]. intros E. apply polymod_inj in E; [|done|by apply polymod_step_range..].
  assert (Hx : polymod_step 0 (Z.lxor v v') = 0).
  { transitivity (polymod_step (Z.lxor (foldl polymod_step 1 pre) (foldl polymod_step 1 pre)) (Z.lxor v v')); [by rewrite Z.lxor_nilpotent|].
    rewrite polymod_step_lxor, E. apply Z.lxor_nilpotent. }
  rewrite polymod_step_shift in Hx; [|lia|apply (lxor_range 5); unfold group in *; lia]. apply Z.lxor_eq. lia.
Qed.

(** * The characters *)

#[local] Notation sep := (Ascii.ascii_of_nat 49).

Fixpoint each_char (p : Ascii.ascii → bool) (s : string) : Prop :=
  match s with EmptyString => True | String c s' => p c = true ∧ each_char p s' end.

Lemma each_char_app p a b : each_char p (a +:+ b) ↔ each_char p a ∧ each_char p b.
Proof. induction a as [|c a IH]; [by cbn; split; [|intros [_ ?]]|]. rewrite string_app_cons. cbn [each_char]. rewrite IH. tauto. Qed.

Lemma each_char_mono (p q : Ascii.ascii → bool) s : (∀ c, p c = true → q c = true) → each_char p s → each_char q s.
Proof. intros H. induction s as [|c s IH]; [done|]. cbn. intros [Hc Hs]. split; [by apply H|by apply IH]. Qed.

Definition is_ascii (c : Ascii.ascii) : bool := bool_decide (Ascii.nat_of_ascii c < 128)%nat.

(** The characters of a generated data part: lower case, never the separator. *)
Definition data_char (c : Ascii.ascii) : bool := is_ascii c && Ascii.eqb (lower c) c && negb (Ascii.eqb c sep).

Fixpoint lower_all (s : string) : string := match s with EmptyString => "" | String c s' => String (lower c) (lower_all s') end.

Lemma ToLower_cons c s : is_code 196 c = false → is_code 226 c = false → ToLower (String c s) = String (lower c) (ToLower s).
Proof. intros H1 H2. cbn [ToLower]. rewrite H1, H2. by destruct s as [|? [|? ?]]. Qed.

Lemma ascii_not_code c n : is_ascii c = true → (128 <= n < 256)%nat → is_code n c = false.
Proof.
  unfold is_ascii, is_code. rewrite bool_decide_eq_true. intros Hc Hn. apply Ascii.eqb_neq. intros ->.
  rewrite Ascii.nat_ascii_embedding in Hc by lia. lia.
Qed.

Lemma ToLower_ascii a s : each_char is_ascii a → ToLower (a +:+ s) = lower_all a +:+ ToLower s.
Proof.
  induction a as [|c a IH]; [done|]. intros [Hc Ha]. rewrite string_app_cons, ToLower_cons by (apply ascii_not_code; [done|lia]). cbn [lower_all].
  by rewrite string_app_cons, IH.
Qed.

Lemma ToLower_one c s : each_char is_ascii s → ToLower (String c s) = String (lower c) (lower_all s).
Proof.
  intros Hs. assert (Hlow : ToLower s = lower_all s) by (rewrite <- (string_app_nil s) at 1; rewrite ToLower_ascii by done; apply string_app_nil).
  destruct s as [|c1 s1]; [done|]. destruct Hs as [Hc1 Hs1].
  transitivity (String (lower c) (ToLower (String c1 s1))); [|by rewrite Hlow].
  change (ToLower (String c (String c1 s1))) with
    (if is_code 196 c && is_code 176 c1 then String (Ascii.ascii_of_nat 105) (ToLower s1) else
     match s1 with
     | String c2 s2 => if is_code 226 c && is_code 132 c1 && is_code 170 c2 then String (Ascii.ascii_of_nat 107) (ToLower s2) else String (lower c) (ToLower (String c1 s1))
     | EmptyString => String (lower c) (ToLower (String c1 s1)) end).
  rewrite (ascii_not_code c1 176), (ascii_not_code c1 132), !andb_false_r by (done || lia). by destruct s1.
Qed.

Lemma lower_data s : each_char data_char s → lower_all s = s.
Proof.
  induction s as [|c s IH]; [done|]. cbn. intros [Hc Hs]. rewrite IH by done. unfold data_char in Hc.
  apply andb_prop in Hc as [Hc _]. apply andb_prop in Hc as [_ Hc]. apply Ascii.eqb_eq in Hc. by rewrite Hc.
Qed.

Lemma data_ascii s : each_char data_char s → each_char is_ascii s.
Proof. apply each_char_mono. intros c Hc. unfold data_char in Hc. apply andb_prop in Hc as [Hc _]. by apply andb_prop in Hc as [Hc _]. Qed.

Definition not_sep (c : Ascii.ascii) : bool := negb (Ascii.eqb c sep).

Lemma data_not_sep s : each_char data_char s → each_char not_sep s.
Proof. apply each_char_mono. intros c Hc. unfold data_char in Hc. by apply andb_prop in Hc as [_ Hc]. Qed.

Lemma split_last_none s : each_char not_sep s → split_last s = None.
Proof. induction s as [|c s IH]; [done|]. cbn [each_char split_last]. intros [Hc Hs]. rewrite IH by done. unfold not_sep in Hc. apply negb_true_iff in Hc. by rewrite Hc. Qed.

Lemma split_last_at h d : each_char not_sep d → split_last (h +:+ String sep d) = Some (h, d).
Proof.
  intros Hd. induction h as [|c h IH]; [rewrite string_nil_app; cbn [split_last]; by rewrite split_last_none|].
  rewrite string_app_cons. cbn [split_last]. by rewrite IH.
Qed.

Lemma split_last_inv s h d : split_last s = Some (h, d) → s = h +:+ String sep d.
Proof.
  revert h. induction s as [|c s IH]; intros h; [done|]. cbn [split_last]. destruct (split_last s) as [[a b]|].
  - intros [= <- ->]. rewrite string_app_cons. f_equal. by apply IH.
  - destruct (Ascii.eqb_spec c sep) as [->|]; [|done]. by intros [= <- ->].
Qed.

Lemma charset_rev d : group d → ∃ c, charset_at d = Some c ∧ bech32CharsetRev c = Some d ∧ data_char c = true.
Proof.
  intros Hd. assert (Hall : Forall (λ d, match charset_at d with Some c => bool_decide (bech32CharsetRev c = Some d) && data_char c | None => false end = true) (seqZ 0 32)).
  { apply (bool_decide_unpack _). vm_compute. done. }
  rewrite Forall_forall in Hall. specialize (Hall d ltac:(apply elem_of_seqZ; unfold group in Hd; lia)).
  destruct (charset_at d) as [c|]; [|done]. apply andb_prop in Hall as [H1 H2]. apply bool_decide_eq_true in H1. by exists c.
Qed.

Lemma charset_char c d : bech32CharsetRev c = Some d → group d ∧ charset_at d = Some c ∧ data_char c = true.
Proof.
  intros E. pose proof (forall_ascii (λ c, match bech32CharsetRev c with Some d => bool_decide (0 <= d < 32) && bool_decide (charset_at d = Some c) && data_char c | None => true end)) as H.
  specialize (H ltac:(vm_compute; reflexivity) c). cbv beta in H. rewrite E in H. apply andb_prop in H as [H H3]. apply andb_prop in H as [H1 H2].
  apply bool_decide_eq_true in H1, H2. done.
Qed.

Lemma charset_string_ok l : groups 5 l → ∃ s, charset_string l = Some s ∧ charset_values s = Some l ∧ each_char data_char s ∧ String.length s = length l.
Proof.
  induction 1 as [|d l Hd Hl (s & Hs & Hv & Hc & Hlen)]; [by exists ""|]. destruct (charset_rev d Hd) as (c & Hat & Hrev & Hdc).
  exists (String c s). cbn [charset_string]. rewrite decide_False by (change (Z.of_nat (String.length bech32Charset)) with 32; lia). rewrite Hat, Hs. cbn [mbind option_bind charset_values].
  rewrite Hrev, Hv. cbn. split_and!; [done|done|done|done|by rewrite Hlen].
Qed.

Lemma charset_values_ok s l : charset_values s = Some l → groups 5 l ∧ charset_string l = Some s ∧ each_char data_char s ∧ String.length s = length l.
Proof.
  revert l. induction s as [|c s IH]; intros l; [intros [= <-]; repeat split; constructor|]. cbn [charset_values].
  destruct (bech32CharsetRev c) as [d|] eqn:Ec; [|done]. destruct (charset_values s) as [l'|] eqn:Es; [|done]. cbn. intros [= <-].
  apply charset_char in Ec as (Hd & Hat & Hdc). destruct (IH l' eq_refl) as (Hg & Hs & Hc & Hlen).
  split_and!; [by constructor| |done|done|by cbn; rewrite Hlen].
  cbn [charset_string]. rewrite decide_False by (change (Z.of_nat (String.length bech32Charset)) with 32; unfold group in Hd; lia). by rewrite Hat, Hs.
Qed.

Lemma charset_values_app a b : charset_values (a +:+ b) = (la ← charset_values a; lb ← charset_values b; Some (la ++ lb)).
Proof.
  induction a as [|c a IH]; [rewrite string_nil_app; by destruct (charset_values b)|]. rewrite string_app_cons. cbn [charset_values]. rewrite IH.
  destruct (bech32CharsetRev c); [|done]. cbn. destruct (charset_values a); [|done]. cbn. by destruct (charset_values b).
Qed.

(** * Groups of eight and of five bits *)

Lemma last_group acc bits to : 0 <= bits < to → to <= 8 →
  Z.land (mask32 (Z.shiftl acc (to - bits))) (Z.shiftl 1 to - 1) = (acc mod 2 ^ bits) * 2 ^ (to - bits).
Proof.
  intros Hb Ht. rewrite low_bits by lia. unfold mask32. change 4294967296 with (2 ^ 32). rewrite Z.shiftl_mul_pow2 by lia.
  rewrite <- (Znumtheory.Zmod_div_mod (2 ^ to) (2 ^ 32)); [|lia|lia|exists (2 ^ (32 - to)); rewrite <- Z.pow_add_r by lia; f_equal; lia].
  replace (2 ^ to) with (2 ^ bits * 2 ^ (to - bits)) by (rewrite <- Z.pow_add_r by lia; f_equal; lia). apply Zmult_mod_distr_r.
Qed.

Definition bytes_ok (l : list Z) : Prop := groups 8 l.

Lemma convert_to_five pk : bytes_ok pk → length pk = 32%nat →
  ∃ l, convertBits pk 8 5 true = Some l ∧ groups 5 l ∧ length l = 52%nat ∧ num 5 l = num 8 pk * 2 ^ 4.
Proof.
  intros Hb Hlen. unfold convertBits. destruct (convert_loop pk 8 5 0 0) as [[acc bits] out] eqn:E.
  apply convert_loop_spec in E as (Hbits & Hout & Hl & Hv); [|lia|lia|done|lia]. rewrite Hlen in Hl, Hv.
  assert (Hbits1 : bits = 1) by lia. assert (Hout51 : length out = 51%nat) by lia. subst bits. rewrite decide_True by lia.
  rewrite last_group by lia. change (2 ^ (5 - 1)) with 16. pose proof (Z.mod_pos_bound acc (2 ^ 1) ltac:(lia)) as Hm. change (2 ^ 1) with 2 in *.
  eexists. split; [done|]. split_and!.
  - apply Forall_app. split; [done|]. constructor; [lia|constructor].
  - rewrite length_app, Hout51. done.
  - rewrite num_app, num_cons by lia. cbn [length]. change (num 5 []) with 0. change (Z.of_nat 0) with 0. change (Z.of_nat 1) with 1.
    change (2 ^ (5 * 1)) with 32. change (2 ^ (5 * 0)) with 1. rewrite Zmod_0_l in Hv. lia.
Qed.

Lemma convert_to_eight l pk : groups 5 l → convertBits l 5 8 false = Some pk → length pk = 32%nat →
  bytes_ok pk ∧ length l = 52%nat ∧ num 5 l = num 8 pk * 2 ^ 4.
Proof.
  intros Hg. unfold convertBits. destruct (convert_loop l 5 8 0 0) as [[acc bits] out] eqn:E.
  apply convert_loop_spec in E as (Hbits & Hout & Hl & Hv); [|lia|lia|done|lia].
  case_decide as H5; [done|]. case_decide as Hlast; [done|]. intros [= ->] Hlen. rewrite Hlen in Hl.
  assert (bits = 4) as -> by lia. rewrite last_group in Hlast by lia. rewrite Zmod_0_l in Hv.
  split_and!; [done|lia|]. lia.
Qed.

Lemma convert_back l pk : groups 5 l → length l = 52%nat → bytes_ok pk → length pk = 32%nat → num 5 l = num 8 pk * 2 ^ 4 → convertBits l 5 8 false = Some pk.
Proof.
  intros Hg Hlen Hpk Hpl Hn. unfold convertBits. destruct (convert_loop l 5 8 0 0) as [[acc bits] out] eqn:E.
  apply convert_loop_spec in E as (Hbits & Hout & Hl & Hv); [|lia|lia|done|lia]. rewrite Hlen in Hl, Hv. rewrite Zmod_0_l in Hv.
  assert (bits = 4) as -> by lia. rewrite decide_False by lia. rewrite last_group by lia. change (2 ^ (8 - 4)) with 16.
  pose proof (Z.mod_pos_bound acc (2 ^ 4) ltac:(lia)) as Hm. assert (Hz : acc mod 2 ^ 4 = 0) by lia.
  rewrite decide_False by (rewrite Hz; intros Hx; by apply Hx). f_equal. apply (num_inj 8); [lia|done|done|lia|lia].
Qed.

(** * Addresses *)

Definition hrp_of (testnet : bool) : string := if testnet then TestnetHRP else MainnetHRP.

Definition fixed_char (c : Ascii.ascii) : bool := is_ascii c && Ascii.eqb (lower c) c.

Lemma data_fixed s : each_char data_char s → each_char fixed_char s.
Proof. apply each_char_mono. intros c Hc. unfold data_char in Hc. by apply andb_prop in Hc as [Hc _]. Qed.

Lemma fixed_lower c : fixed_char c = true → lower c = c.
Proof. intros H. apply andb_prop in H as [_ H]. by apply Ascii.eqb_eq. Qed.

Lemma lower_fixed s : each_char fixed_char s → lower_all s = s ∧ each_char is_ascii s.
Proof.
  induction s as [|c s IH]; [done|]. cbn [each_char lower_all]. intros [Hc Hs]. destruct (IH Hs) as [E Ha].
  rewrite E, fixed_lower by done. apply andb_prop in Hc as [Hc _]. done.
Qed.

Lemma ToLower_typo x c y : each_char fixed_char x → each_char fixed_char y → ToLower (x +:+ String c y) = x +:+ String (lower c) y.
Proof.
  intros Hx Hy. destruct (lower_fixed x Hx) as [Ex Ax]. destruct (lower_fixed y Hy) as [Ey Ay].
  by rewrite ToLower_ascii, ToLower_one, Ex, Ey.
Qed.

Lemma ToLower_fixed s : each_char fixed_char s → ToLower s = s.
Proof.
  intros Hs. destruct s as [|c s]; [done|]. destruct Hs as [Hc Hs].
  change (ToLower ("" +:+ String c s) = String c s). rewrite ToLower_typo by done. by rewrite fixed_lower.
Qed.

Lemma hrp_ok t : groups 5 (bech32HRPExpand (hrp_of t)) ∧ each_char data_char (hrp_of t).
Proof. split; [apply (bool_decide_unpack _); by destruct t|by destruct t]. Qed.

Lemma checksum_groups hrp data : groups 5 (bech32CreateChecksum hrp data).
Proof. apply groups_map. intros x. rewrite <- Z.land_assoc. done. Qed.

Lemma encode_ok hrp data : groups 5 data → ∃ s, bech32Encode hrp data = Some (hrp +:+ String sep s) ∧
  charset_values s = Some (data ++ bech32CreateChecksum hrp data) ∧ each_char data_char s ∧ String.length s = (length data + 6)%nat.
Proof.
  intros Hd. destruct (charset_string_ok (data ++ bech32CreateChecksum hrp data)) as (s & Hs & Hv & Hc & Hl).
  { apply Forall_app. split; [done|apply checksum_groups]. }
  exists s. unfold bech32Encode. rewrite Hs. split_and!; [done|done|done|]. rewrite Hl, length_app. done.
Qed.

Lemma string_length_app (a b : string) : String.length (a +:+ b) = (String.length a + String.length b)%nat.
Proof. induction a as [|c a IH]; [done|]. rewrite string_app_cons. cbn [String.length]. by rewrite IH. Qed.

(** The shape of a generated address. *)
Lemma address_shape pk t : bytes_ok pk → length pk = PublicKeySize → ∃ l s, AddressFromPublicKey pk t = Some (hrp_of t +:+ String sep s) ∧
  convertBits pk 8 5 true = Some l ∧ groups 5 l ∧ length l = 52%nat ∧ num 5 l = num 8 pk * 2 ^ 4 ∧
  charset_values s = Some (l ++ bech32CreateChecksum (hrp_of t) l) ∧ each_char data_char s ∧ String.length s = 58%nat.
Proof.
  intros Hb Hlen. destruct (convert_to_five pk Hb Hlen) as (l & Hl & Hg & Hll & Hn). destruct (encode_ok (hrp_of t) l Hg) as (s & He & Hv & Hc & Hs).
  exists l, s. split_and!; try done; [|by rewrite Hs, Hll]. unfold AddressFromPublicKey. rewrite decide_False by (rewrite Hlen; by intros []). by rewrite Hl.
Qed.

Lemma sep_fixed : fixed_char sep = true.
Proof. done. Qed.

Lemma shape_fixed t s : each_char data_char s → each_char fixed_char (hrp_of t +:+ String sep s).
Proof. intros Hs. apply each_char_app. split; [apply data_fixed, hrp_ok|]. split; [done|by apply data_fixed]. Qed.

(** What an accepted address consists of. *)
Lemma valid_inv a pk h : PublicKeyFromAddress a = Some (pk, h) → ∃ t d data cs, h = hrp_of t ∧ split_last (ToLower a) = Some (h, d) ∧
  charset_values d = Some (data ++ cs) ∧ length cs = 6%nat ∧ bech32VerifyChecksum h (data ++ cs) = true ∧
  convertBits data 5 8 false = Some pk ∧ length pk = PublicKeySize.
Proof.
  unfold PublicKeyFromAddress, bech32Decode. case_decide; [done|]. destruct (split_last (ToLower a)) as [[h' d]|]; [|done]. cbn [mbind option_bind].
  case_decide as Hlen; [done|]. destruct (charset_values d) as [l|] eqn:Ed; [|done]. cbn [mbind option_bind].
  destruct (bech32VerifyChecksum h' l) eqn:Ev; [|done]. cbn [mbind option_bind]. case_decide as Hh; [done|].
  destruct (convertBits _ 5 8 false) as [k|] eqn:Ek; [|done]. cbn [mbind option_bind]. case_decide as Hk; [done|]. intros [= <- <-].
  apply charset_values_ok in Ed as Hd. destruct Hd as (_ & _ & _ & Hdl).
  assert (Ht : ∃ t, h' = hrp_of t).
  { destruct (decide (h' = TestnetHRP)) as [->|]; [by exists true|]. destruct (decide (h' = MainnetHRP)) as [->|]; [by exists false|]. tauto. }
  destruct Ht as [t ->]. exists t, d, (take (length l - 6) l), (drop (length l - 6) l). rewrite take_drop, length_drop.
  split_and!; try done. lia.
Qed.

Lemma ValidateAddress_inv a : ValidateAddress a = true → ∃ t d l, split_last (ToLower a) = Some (hrp_of t, d) ∧ charset_values d = Some l ∧ bech32VerifyChecksum (hrp_of t) l = true.
Proof.
  unfold ValidateAddress. rewrite bool_decide_eq_true. intros [[pk h] E]. apply valid_inv in E as (t & d & data & cs & -> & Hs & Hc & _ & Hv & _). eauto 10.
Qed.

Lemma string_app_split a b c d : a +:+ b = c +:+ d → (∃ e, c = a +:+ e ∧ b = e +:+ d) ∨ (∃ e, a = c +:+ e ∧ d = e +:+ b).
Proof.
  revert c. induction a as [|x a IH]; intros [|y c] E.
  - left. by exists "".
  - left. by exists (String y c).
  - right. by exists (String x a).
  - rewrite !string_app_cons in E. injection E as -> E. destruct (IH _ E) as [(e & -> & ->)|(e & -> & ->)]; [left|right]; by exists e.
Qed.

Lemma fixed_of x c y : each_char fixed_char (x +:+ String c y) → each_char fixed_char x ∧ lower c = c ∧ each_char fixed_char y.
Proof. rewrite each_char_app. cbn [each_char]. intros (Hx & Hc & Hy). split_and!; [done|by apply fixed_lower|done]. Qed.

(** A wrong character before, at and after the separator. *)
Lemma typo_in_prefix t x c c' e s : hrp_of t = x +:+ String c e → c' ≠ c → each_char not_sep s →
  ∀ t' d, split_last (x +:+ String c' (e +:+ String sep s)) ≠ Some (hrp_of t', d).
Proof.
  intros Hh Hc Hs t' d E. rewrite <- string_app_cons, <- string_app_assoc, split_last_at in E by done. injection E as E _.
  destruct (decide (t = t')) as [<-|Ht].
  - rewrite Hh in E. apply string_app_inv_l in E. congruence.
  - assert (Hlen : String.length (hrp_of t) = String.length (hrp_of t')).
    { by rewrite Hh, <- E, !string_length_app. }
    by destruct t, t'.
Qed.

Lemma typo_at_separator t c' s : c' ≠ sep → each_char not_sep s → split_last (hrp_of t +:+ String c' s) = None.
Proof.
  intros Hc Hs. apply split_last_none, each_char_app. split; [apply data_not_sep, hrp_ok|]. split; [|done].
  unfold not_sep. apply negb_true_iff. by apply Ascii.eqb_neq.
Qed.

Lemma typo_in_data t x c c' y l l' : groups 5 l → charset_values (x +:+ String c y) = Some l → charset_values (x +:+ String c' y) = Some l' →
  bech32VerifyChecksum (hrp_of t) l = true → bech32VerifyChecksum (hrp_of t) l' = true → c' = c.
Proof.
  intros _. rewrite !charset_values_app. cbn [charset_values]. destruct (charset_values x) as [lx|] eqn:Ex; [|done]. cbn [mbind option_bind].
  destruct (bech32CharsetRev c) as [v|] eqn:Ec; [|done]. destruct (bech32CharsetRev c') as [v'|] eqn:Ec'; [|intros _; done]. cbn [mbind option_bind].
  destruct (charset_values y) as [ly|] eqn:Ey; [|done]. cbn [mbind option_bind]. intros [= <-] [= <-]. unfold bech32VerifyChecksum. rewrite !bool_decide_eq_true. intros H1 H2.
  apply charset_char in Ec as (Gv & Hat & _). apply charset_char in Ec' as (Gv' & Hat' & _). apply charset_values_ok in Ex as (Gx & _). apply charset_values_ok in Ey as (Gy & _).
  rewrite !app_assoc in H1, H2. rewrite <- H2 in H1. apply polymod_one_error in H1; [|apply Forall_app; split; [apply hrp_ok|done]|done..]. congruence.
Qed.

Lemma address_read_back pk t : bytes_ok pk → length pk = PublicKeySize →
  ∃ a, AddressFromPublicKey pk t = Some a ∧ PublicKeyFromAddress a = Some (pk, hrp_of t) ∧ ToLower a = a ∧
  String.prefix (hrp_of t +:+ "1") a = true.
Proof.
  intros Hb Hlen. destruct (address_shape pk t Hb Hlen) as (l & s & Ha & _ & Hg & Hl & Hn & Hv & Hc & Hs).
  eexists. split; [done|]. split; [|split; [by apply ToLower_fixed, shape_fixed|by destruct t, s]]. unfold PublicKeyFromAddress, bech32Decode.
  assert (Hsz : String.length (hrp_of t +:+ String sep s) = (String.length (hrp_of t) + 59)%nat) by (rewrite string_length_app; cbn [String.length]; lia).
  rewrite decide_False by (rewrite Hsz; by destruct t; cbn; lia). rewrite ToLower_fixed by (by apply shape_fixed).
  rewrite split_last_at by (by apply data_not_sep). cbn [mbind option_bind]. rewrite decide_False by (rewrite Hs; destruct t; cbn; lia).
  rewrite Hv. cbn [mbind option_bind].
  rewrite (proj2 (checksum_unique (hrp_of t) l _ (proj1 (hrp_ok t)) Hg (checksum_groups _ _) eq_refl) eq_refl). cbn [mbind option_bind].
  rewrite decide_False by (destruct t; intros []; done). rewrite length_app. change (length (bech32CreateChecksum _ _)) with 6%nat.
  replace (length l + 6 - 6)%nat with (length l) by lia. rewrite take_app_length, (convert_back l pk) by done. cbn [mbind option_bind].
  by rewrite decide_False by (rewrite Hlen; by intros []).
Qed.

(** C19: addresses name public keys: the address of a 32-byte key is read back as that key with the prefix of the network it
    was made for, and an address that is accepted is, in lower case, the address of the key it is read as; so a key has one
    address per network and no address stands for two keys. *)
Theorem address_roundtrip :
  (∀ pk t, bytes_ok pk → length pk = PublicKeySize →
     ∃ a, AddressFromPublicKey pk t = Some a ∧ PublicKeyFromAddress a = Some (pk, hrp_of t)) ∧
  (∀ a pk h, PublicKeyFromAddress a = Some (pk, h) →
     ∃ t, h = hrp_of t ∧ bytes_ok pk ∧ length pk = PublicKeySize ∧ AddressFromPublicKey pk t = Some (ToLower a)).
Proof.
  split.
  - intros pk t Hb Hlen. destruct (address_read_back pk t Hb Hlen) as (a & Ha & Hr & _). by exists a.
  - intros a pk h E. apply valid_inv in E as (t & d & data & cs & -> & Hs & Hc & H6 & Hv & Hk & Hlen). exists t.
    apply charset_values_ok in Hc as (Hg & Hcs & _). apply Forall_app in Hg as [Hgd Hgc].
    apply checksum_unique in Hv; [|apply hrp_ok|done..]. destruct (convert_to_eight data pk Hgd Hk Hlen) as (Hb & Hdl & Hn).
    split_and!; [done|done|done|]. destruct (convert_to_five pk Hb Hlen) as (l & Hl & Hgl & Hll & Hnl).
    assert (l = data) as -> by (apply (num_inj 5); [lia|done|done|by rewrite Hll, Hdl|by rewrite Hnl, Hn]).
    unfold AddressFromPublicKey. rewrite decide_False by (rewrite Hlen; by intros []). rewrite Hl. cbn [mbind option_bind]. unfold bech32Encode.
    change (if t then TestnetHRP else MainnetHRP) with (hrp_of t). rewrite <- Hv, Hcs. cbn [mbind option_bind].
    apply split_last_inv in Hs. by rewrite Hs.
Qed.

(** C20: a wrong character is noticed: replacing any one byte of a generated address by one that is not the same letter
    in the other case gives a string that is not a valid address, whatever the place and whatever the byte. *)
Theorem address_typo_detected pk t x c y c' :
  bytes_ok pk → AddressFromPublicKey pk t = Some (x +:+ String c y) → lower c' ≠ lower c → ValidateAddress (x +:+ String c' y) = false.
Proof.
  intros Hb Ha Hc'. assert (Hlen : length pk = PublicKeySize).
  { unfold AddressFromPublicKey in Ha. by case_decide. }
  destruct (address_shape pk t Hb Hlen) as (l & s & Ha' & _ & Hg & _ & _ & Hv & Hs & _). rewrite Ha in Ha'. injection Ha' as Eq.
  pose proof (shape_fixed t s Hs) as Hf. rewrite <- Eq in Hf. apply fixed_of in Hf as (Hx & Hc & Hy). rewrite Hc in Hc'. pose proof (data_not_sep s Hs) as Hns.
  apply not_true_is_false. intros (t' & d & l' & Hsp & Hl' & Hver)%ValidateAddress_inv. rewrite ToLower_typo in Hsp by done.
  apply string_app_split in Eq as [([|c0 e] & Hh & Hy')|([|c0 e] & -> & Hy')].
  - rewrite string_app_nil in Hh. rewrite string_nil_app in Hy'. injection Hy' as -> ->. rewrite <- Hh, typo_at_separator in Hsp by done. done.
  - rewrite string_app_cons in Hy'. injection Hy' as -> ->. by apply (typo_in_prefix t x c0 (lower c') e s Hh Hc' Hns) in Hsp.
  - rewrite string_nil_app in Hy'. injection Hy' as <- ->. rewrite string_app_nil, typo_at_separator in Hsp by done. done.
  - rewrite string_app_cons in Hy'. injection Hy' as <- ->. apply each_char_app in Hns as [Hne [_ Hny]]. rewrite string_app_assoc, string_app_cons in Hsp.
    destruct (decide (lower c' = sep)) as [Hsep|Hsep].
    + rewrite Hsep, <- string_app_cons, <- string_app_assoc, split_last_at in Hsp by done. injection Hsp as Hh _.
      pose proof (data_not_sep _ (proj2 (hrp_ok t'))) as Hn. rewrite <- Hh in Hn. apply each_char_app in Hn as [_ [Hn _]]. done.
    + rewrite split_last_at in Hsp; [|apply each_char_app; split; [done|]; split; [|done]; apply negb_true_iff; by apply Ascii.eqb_neq].
      injection Hsp as Ht <-. assert (Hcs : groups 5 (l ++ bech32CreateChecksum (hrp_of t) l)) by (apply Forall_app; split; [done|apply checksum_groups]).
      rewrite <- Ht in Hver. apply Hc'. eapply (typo_in_data t e c); [apply Hcs|apply Hv|apply Hl'| |apply Hver].
      by apply checksum_unique; [apply hrp_ok|done|apply checksum_groups|..].
Qed.

Lemma hex_digit_not_t z : 0 <= z < 16 → hex_digit z ≠ Ascii.ascii_of_nat 116.
Proof. intros Hz E. pose proof (hex_digit_value z Hz) as Hv. by rewrite E in Hv. Qed.

Lemma nibbles b : 0 <= b < 256 → 0 <= Z.shiftr b 4 < 16 ∧ 0 <= Z.land b 15 < 16.
Proof.
  intros Hb. rewrite Z.shiftr_div_pow2 by lia. change 15 with (Z.ones 4). rewrite Z.land_ones by lia. change (2 ^ 4) with 16.
  pose proof (Z_div_mod_eq_full b 16). pose proof (Z.mod_pos_bound b 16 ltac:(lia)). lia.
Qed.

Lemma hex_no_prefix pk : bytes_ok pk → length pk = PublicKeySize →
  String.prefix (TestnetHRP +:+ "1") (hex_encode pk) || String.prefix (MainnetHRP +:+ "1") (hex_encode pk) = false.
Proof.
  intros Hb Hlen. destruct pk as [|b0 [|b1 pk]]; [done..|]. apply Forall_cons in Hb as [H0 Hb]. apply Forall_cons in Hb as [H1 _].
  destruct (nibbles b0 H0) as [[Ha Ha'] _]. destruct (nibbles b1 H1) as [[Hc Hc'] _].
  pose proof (hex_digit_not_t _ (conj Ha Ha')) as N0. pose proof (hex_digit_not_t _ (conj Hc Hc')) as N1.
  cbn [hex_encode]. change (TestnetHRP +:+ "1") with (String (Ascii.ascii_of_nat 116) "aet1"). change (MainnetHRP +:+ "1") with (String (Ascii.ascii_of_nat 97) (String (Ascii.ascii_of_nat 101) (String (Ascii.ascii_of_nat 116) "1"))).
  cbn [String.prefix]. repeat (case_match; try done); congruence.
Qed.

(** A key's address and its hex form are both resolved to its agent id. *)
Theorem resolve_agent_id pk t : bytes_ok pk → length pk = PublicKeySize →
  (∃ a, AddressFromPublicKey pk t = Some a ∧ ResolveAgentID a = hex_encode pk) ∧ ResolveAgentID (hex_encode pk) = hex_encode pk.
Proof.
  intros Hb Hlen. split; [|by unfold ResolveAgentID; rewrite hex_no_prefix].
  destruct (address_read_back pk t Hb Hlen) as (a & Ha & Hr & _ & Hp). exists a. split; [done|]. unfold ResolveAgentID.
  rewrite Hr. by destruct t; cbn [hrp_of] in Hp; rewrite Hp, ?orb_true_r.
Qed.

Definition demo_address : string := kp_Address (mkKeyPair [] demo_key) false.

Example demo_address_text : demo_address = "aet1qypqxpq9qcrsszg2pvxq6rs0zqg3yyc5z5tpwxqergd3c8g7rusq6qvzqw".
Proof. vm_compute. reflexivity. Qed.

Lemma demo_key_ok : bytes_ok demo_key ∧ length demo_key = PublicKeySize.
Proof. split; [apply (bool_decide_unpack _); vm_compute; done|done]. Qed.

(** BIP-173 has a decoder refuse a string that mixes upper and lower case; this one lowers the whole string first, so
    mixed case is read, and a Kelvin sign passes for a k. *)
Definition mixed_address : string := "Aet1QypqxpQ9qcrsszg2pvxq6rs0zqg3yyc5z5tpwxqergd3c8g7rusq6qvzqw".

Example mixed_case_accepted : PublicKeyFromAddress mixed_address = Some (demo_key, "aet").
Proof. vm_compute. reflexivity. Qed.

Example kelvin_lowered : ToLower (String (Ascii.ascii_of_nat 226) (String (Ascii.ascii_of_nat 132) (String (Ascii.ascii_of_nat 170) ""))) = "k".
Proof. vm_compute. reflexivity. Qed.

Lemma resolve_agent_id_witness : (∃ a, AddressFromPublicKey demo_key false = Some a ∧ ResolveAgentID a = hex_encode demo_key) ∧ ResolveAgentID (hex_encode demo_key) = hex_encode demo_key.
Proof. apply (resolve_agent_id demo_key false); apply demo_key_ok. Defined.

Definition typo_prefix : string := "aet1qypq".
Definition typo_rest : string := "pq9qcrsszg2pvxq6rs0zqg3yyc5z5tpwxqergd3c8g7rusq6qvzqw".

Lemma address_typo_detected_witness :
  AddressFromPublicKey demo_key false = Some (typo_prefix +:+ String (Ascii.ascii_of_nat 120) typo_rest) ∧
  ValidateAddress (typo_prefix +:+ String (Ascii.ascii_of_nat 121) typo_rest) = false.
Proof.
  assert (Ha : AddressFromPublicKey demo_key false = Some (typo_prefix +:+ String (Ascii.ascii_of_nat 120) typo_rest)) by (vm_compute; reflexivity).
  split; [exact Ha|]. apply (address_typo_detected demo_key false typo_prefix (Ascii.ascii_of_nat 120) typo_rest (Ascii.ascii_of_nat 121)); [apply demo_key_ok|exact Ha|discriminate].
Defined.
