(* ===== verification/Auth.v ===== *)
(** internal/auth: signed requests (AETHERNET-REQUEST-V1 and AETHERNET-TX-V1), replay protection and rate limits
    by the hour, and the replay check of internal/api/server.go.

    Every call of [time.Now().Unix()] is an argument; a Go byte slice that is
    hashed or signed is a [string] of bytes.  [net/http] delivers a request as
    its method, path, headers and body. *)

From S2P Require Import Prelude GoStd Store Event Float64 Jcs Identity.
#[local] Open Scope Z_scope.

(** * canonical.go: the same text as internal/jcs *)

Definition CanonicalizeJSON `{!JsonLib} (input : string) : option string := Canonicalize input.

Definition jcsWrite `{!JsonLib} (v : Json) : string := write v.

Definition jcsNumber `{!JsonLib} (f : F64) : string := number f.

Definition jcsString (s : string) : string := str s.

(** * noncestore.go, txidstore.go *)

Definition nonceTTL : Z := 600.
Definition txidTTL : Z := 600.

(** [BadgerNonceStore] and [TxIDStore] have the same fields and the same bodies; they differ in the prefix of the key. *)
Record SeenStore (St : Type) := mkSeen { seen_local : gmap string Z; seen_store : option St }.
Arguments mkSeen {St} _ _.
Arguments seen_local {St} _.
Arguments seen_store {St} _.

Definition NewBadgerNonceStore {St} (store : option St) : SeenStore St := mkSeen ∅ store.
Definition NewTxIDStore {St} (store : option St) : SeenStore St := mkSeen ∅ store.

Section stores.
Context {St : Type} `{!MetaPersistence St}.

(** What the store holds under the key: a value that is not empty. *)
Definition persisted (key : string) (store : option St) : bool :=
  match store with
  | Some st => match meta_get key st with Some data => bool_decide (data ≠ []) | None => false end
  | None => false
  end.

(** Whether the key was seen, and the store that has seen it; a failed write is ignored. *)
Definition see (key : string) (now : Z) (s : SeenStore St) : SeenStore St * bool :=
  match seen_local s !! key with
  | Some _ => (s, true)
  | None =>
      if persisted key (seen_store s) then (mkSeen (<[key := now]> (seen_local s)) (seen_store s), true)
      else (mkSeen (<[key := now]> (seen_local s))
              (match seen_store s with Some st => Some (meta_put key (bytes_of_string (FormatInt now)) st).1 | None => None end), false)
  end.

Definition nonce_key (agentID nonce : string) : string := "nonce:" +:+ agentID +:+ ":" +:+ nonce.

Definition CheckAndStore (agentID : AgentID) (nonce : string) (now : Z) (s : SeenStore St) : SeenStore St * bool :=
  see (nonce_key agentID nonce) now s.

Definition txid_key (txID : string) : string := "txid:" +:+ txID.

Definition MarkSeen (txID : string) (now : Z) (s : SeenStore St) : SeenStore St * bool := see (txid_key txID) now s.

Definition IsSeen (txID : string) (s : SeenStore St) : bool :=
  bool_decide (is_Some (seen_local s !! txid_key txID)) || persisted (txid_key txID) (seen_store s).

Definition forget (ttl now : Z) (s : SeenStore St) : SeenStore St :=
  mkSeen (filter (λ kt : string * Z, ¬ kt.2 < now - ttl) (seen_local s)) (seen_store s).

Definition nonce_cleanup (now : Z) (s : SeenStore St) : SeenStore St := forget nonceTTL now s.
Definition txid_cleanup (now : Z) (s : SeenStore St) : SeenStore St := forget txidTTL now s.

End stores.

(** * strconv.ParseInt(s, 10, 64) *)

Definition digit (c : Ascii.ascii) : option Z :=
  let n := Z.of_nat (Ascii.nat_of_ascii c) in if decide (48 <= n <= 57) then Some (n - 48) else None.

Fixpoint digits (acc : Z) (s : string) : option Z :=
  match s with EmptyString => Some acc | String c s' => d ← digit c; digits (10 * acc + d) s' end.

Definition ParseInt (s : string) : option Z :=
  let '(neg, ds) :=
    match s with
    | String c s' => if decide (Ascii.nat_of_ascii c = 45%nat) then (true, s') else if decide (Ascii.nat_of_ascii c = 43%nat) then (false, s') else (false, s)
    | EmptyString => (false, s)
    end in
  if decide (ds = "") then None
  else
    n ← digits 0 ds;
    let z := if (neg : bool) then - n else n in
    if decide (is_i64 z) then Some z else None.

(** * verify.go *)

Definition maxTimestampSkew : Z := 30.

Inductive AuthError :=
  | ErrMissingHeader | ErrTimestampExpired | ErrInvalidNonce | ErrUnknownAgent | ErrInvalidSignature | ErrReplayedNonce | ErrMalformedSig.

Record RequestAuth := mkRequestAuth { ra_AgentID : AgentID; ra_PublicKey : list Z; ra_Timestamp : Z; ra_Nonce : string }.

(** An [http.Request] with its body; a header that is absent is empty. *)
Record Request := mkRequest { rq_Method : string; rq_Path : string; rq_Header : string → string; rq_Body : string }.

Definition newline : string := String (Ascii.ascii_of_nat 10) "".

Definition BuildCanonicalString (method path agentID nonce : string) (timestamp : Z) (bodyHash : string) : string :=
  "AETHERNET-REQUEST-V1" +:+ newline +:+
  "method:" +:+ method +:+ newline +:+
  "path:" +:+ path +:+ newline +:+
  "agent_id:" +:+ agentID +:+ newline +:+
  "nonce:" +:+ nonce +:+ newline +:+
  "timestamp:" +:+ FormatInt timestamp +:+ newline +:+
  "body_sha256:" +:+ bodyHash.

(** On an int64; the least one has no absolute value. *)
Definition abs64 (x : Z) : Z := if decide (x < 0) then i64 (- x) else x.

Section requests.
Context {St : Type} `{!MetaPersistence St, !Ed25519}.

(** Steps 1 to 8, on the clock at [now]. *)
Definition check_request (registry : AgentID → option CapabilityFingerprint) (r : Request) (now : Z) : AuthError + RequestAuth :=
  let agentIDStr := rq_Header r "X-Aethernet-Agent-ID" in
  let timestampStr := rq_Header r "X-Aethernet-Timestamp" in
  let nonce := rq_Header r "X-Aethernet-Nonce" in
  let sigHex := rq_Header r "X-Aethernet-Signature" in
  if decide (agentIDStr = "" ∨ timestampStr = "" ∨ nonce = "" ∨ sigHex = "") then inl ErrMissingHeader
  else
    match ParseInt timestampStr with
    | None => inl ErrTimestampExpired
    | Some timestamp =>
        if decide (maxTimestampSkew < abs64 (i64 (now - timestamp))) then inl ErrTimestampExpired
        else if decide (String.length nonce ≠ 32%nat) then inl ErrInvalidNonce
        else
          match hex_decode nonce with
          | None => inl ErrInvalidNonce
          | Some _ =>
              let canonical := BuildCanonicalString (rq_Method r) (rq_Path r) agentIDStr nonce timestamp (sha256_hex (rq_Body r)) in
              match registry agentIDStr with
              | None => inl ErrUnknownAgent
              | Some fp =>
                  if decide (length (fp_PublicKey fp) = 0%nat) then inl ErrUnknownAgent
                  else
                    match hex_decode sigHex with
                    | None => inl ErrMalformedSig
                    | Some sig =>
                        if negb (Verify (fp_PublicKey fp) canonical sig) then inl ErrInvalidSignature
                        else inr (mkRequestAuth agentIDStr (fp_PublicKey fp) timestamp nonce)
                    end
              end
          end
    end.

(** The clock is read at [now], and again by the nonce store at [now'].  A nil nonce store checks nothing. *)
Definition VerifyRequest (registry : AgentID → option CapabilityFingerprint) (r : Request) (now now' : Z) (nonceStore : option (SeenStore St)) :
    option (SeenStore St) * (AuthError + RequestAuth) :=
  match check_request registry r now with
  | inl err => (nonceStore, inl err)
  | inr ra =>
      match nonceStore with
      | None => (None, inr ra)
      | Some ns =>
          let '(ns, replayed) := CheckAndStore (ra_AgentID ra) (ra_Nonce ra) now' ns in
          (Some ns, if replayed then inl ErrReplayedNonce else inr ra)
      end
  end.
End requests.

(** * transaction.go, txverify.go *)

Definition TxVersion : string := "AETHERNET-TX-V1".
Definition TxMaxLifetimeSecs : Z := 120.
Definition TxClockSkewSecs : Z := 60.

Definition DefaultChainID (testnet : string) : string := if decide (testnet = "true") then "aethernet-testnet-1" else "aethernet-mainnet-1".

Record Transaction := mkTx {
  tx_Version : string; tx_ChainID : string; tx_Actor : string; tx_Method : string; tx_Path : string;
  tx_BodySHA256 : string; tx_CreatedAt : Z; tx_ExpiresAt : Z; tx_Nonce : string }.

(** The envelope as [json.Unmarshal] reads it back from [json.Marshal], which does not fail on it. *)
Definition tx_members (tx : Transaction) : list (string * Json) :=
  [("version", JString (utf8_coerce (tx_Version tx))); ("chain_id", JString (utf8_coerce (tx_ChainID tx)));
   ("actor", JString (utf8_coerce (tx_Actor tx))); ("method", JString (utf8_coerce (tx_Method tx)));
   ("path", JString (utf8_coerce (tx_Path tx))); ("body_sha256", JString (utf8_coerce (tx_BodySHA256 tx)));
   ("created_at", JNumber (f64_round (tx_CreatedAt tx) 1)); ("expires_at", JNumber (f64_round (tx_ExpiresAt tx) 1));
   ("nonce", JString (utf8_coerce (tx_Nonce tx)))].

Definition SignBytes `{!JsonLib} (tx : Transaction) : string := write (JObject (tx_members tx)).

Definition TxID `{!JsonLib} (tx : Transaction) : string := sha256_hex (SignBytes tx).

Definition tx_Sign `{!JsonLib, !Ed25519} (tx : Transaction) (privateKey : list Z) : string := hex_encode (ed25519_Sign privateKey (SignBytes tx)).

Inductive TxError :=
  | ErrTxMissingHeader | ErrTxChainMismatch | ErrTxBadTime | ErrTxLifetimeExceed | ErrTxExpired | ErrTxFuture | ErrTxBadNonce
  | ErrTxUnknownActor | ErrTxBadSignature | TxPanic.

(** [ed25519.Verify] panics on a key of the wrong size; the signature is looked at before. *)
Definition tx_Verify `{!JsonLib, !Ed25519} (tx : Transaction) (publicKey : list Z) (signatureHex : string) : TxError + unit :=
  match hex_decode signatureHex with
  | None => inl ErrTxBadSignature
  | Some sig =>
      if decide (length sig ≠ SignatureSize) then inl ErrTxBadSignature
      else if decide (length publicKey ≠ PublicKeySize) then inl TxPanic
      else if ed25519_Verify publicKey (SignBytes tx) sig then inr () else inl ErrTxBadSignature
  end.

Record VerifiedTx := mkVerifiedTx { vtx_TxID : string; vtx_Actor : string; vtx_Tx : Transaction; vtx_Signature : string }.

Definition body_hash `{!JsonLib} (body : string) : string := sha256_hex (default body (CanonicalizeJSON body)).

(** [lookupPubKey] is the function the caller passes. *)
Definition VerifyTransaction `{!JsonLib, !Ed25519} (r : Request) (chainID : string) (lookupPubKey : string → option (list Z)) (now : Z) : TxError + VerifiedTx :=
  let version := rq_Header r "X-AetherNet-Version" in
  let hChainID := rq_Header r "X-AetherNet-Chain-ID" in
  let actor := rq_Header r "X-AetherNet-Actor" in
  let createdStr := rq_Header r "X-AetherNet-Created" in
  let expiresStr := rq_Header r "X-AetherNet-Expires" in
  let nonce := rq_Header r "X-AetherNet-Nonce" in
  let sigHex := rq_Header r "X-AetherNet-Signature" in
  if decide (version = "" ∨ actor = "" ∨ createdStr = "" ∨ expiresStr = "" ∨ nonce = "" ∨ sigHex = "") then inl ErrTxMissingHeader
  else if decide (hChainID ≠ chainID) then inl ErrTxChainMismatch
  else
    match ParseInt createdStr, ParseInt expiresStr with
    | Some createdAt, Some expiresAt =>
        if decide (TxMaxLifetimeSecs < i64 (expiresAt - createdAt)) then inl ErrTxLifetimeExceed
        else if decide (i64 (expiresAt + TxClockSkewSecs) < now) then inl ErrTxExpired
        else if decide (i64 (now + TxClockSkewSecs) < createdAt) then inl ErrTxFuture
        else if decide (String.length nonce ≠ 32%nat) then inl ErrTxBadNonce
        else
          match hex_decode nonce with
          | None => inl ErrTxBadNonce
          | Some _ =>
              let tx := mkTx version hChainID actor (rq_Method r) (rq_Path r) (body_hash (rq_Body r)) createdAt expiresAt nonce in
              match lookupPubKey actor with
              | None => inl ErrTxUnknownActor
              | Some pubKey =>
                  match tx_Verify tx pubKey sigHex with
                  | inl TxPanic => inl TxPanic
                  | inl _ => inl ErrTxBadSignature
                  | inr _ => inr (mkVerifiedTx (TxID tx) actor tx sigHex)
                  end
              end
          end
    | _, _ => inl ErrTxBadTime
    end.

(** * internal/api/server.go: the replay check of a write handler *)

(** The keys [ServeHTTP] passes: the registered one, or the actor itself read as a key. *)
Definition lookup_actor (registry : AgentID → option CapabilityFingerprint) (actor : string) : option (list Z) :=
  match registry actor with
  | Some fp => Some (fp_PublicKey fp)
  | None =>
      match hex_decode actor with
      | Some pubBytes => if decide (length pubBytes = 32%nat) then Some pubBytes else None
      | None => None
      end
  end.

Section replay.
Context {St : Type} `{!MetaPersistence St}.

(** [checkTxIDSeen] reads the store and the graph, then marks: [txid_read] and [txid_mark] take the store's lock one
    after the other.  [inDAG] is whether the graph has an event of that ID. *)
Definition txid_read (txID : string) (inDAG : bool) (s : SeenStore St) : option bool :=
  if IsSeen txID s then Some true else if inDAG then Some false else None.

Definition txid_mark (txID : string) (now : Z) (s : SeenStore St) : SeenStore St := (MarkSeen txID now s).1.

Definition checkTxIDSeen (txID : string) (inDAG : bool) (now : Z) (s : SeenStore St) : SeenStore St * bool :=
  if decide (txID = "") then (s, false)
  else
    match txid_read txID inDAG s with
    | Some true => (s, true)
    | Some false => (txid_mark txID now s, true)
    | None => (txid_mark txID now s, false)
    end.
End replay.

(** * ratelimit.go *)

Record agentWindow := mkAgentWindow { aw_count : Z; aw_windowAt : Z }.

Record AgentRateLimiter := mkAgentLimiter { al_counts : gmap AgentID agentWindow; al_maxPerHr : Z }.

Definition NewAgentRateLimiter (maxPerHour : Z) : AgentRateLimiter := mkAgentLimiter ∅ maxPerHour.

Definition agent_Allow (agentID : AgentID) (now : Z) (l : AgentRateLimiter) : AgentRateLimiter * bool :=
  let hour := Z.quot now 3600 in
  let fresh := (mkAgentLimiter (<[agentID := mkAgentWindow 1 hour]> (al_counts l)) (al_maxPerHr l), true) in
  match al_counts l !! agentID with
  | None => fresh
  | Some w =>
      if decide (aw_windowAt w ≠ hour) then fresh
      else if decide (al_maxPerHr l <= aw_count w) then (l, false)
      else (mkAgentLimiter (<[agentID := mkAgentWindow (aw_count w + 1) (aw_windowAt w)]> (al_counts l)) (al_maxPerHr l), true)
  end.

(** * ratelimiter.go *)

Record EndpointLimit := mkLimit { PerAgentPerHr : Z; PerIPPerHr : Z; GlobalPerHr : Z }.

Definition DefaultLimits : gmap string EndpointLimit := list_to_map [
  ("/v1/agents", mkLimit 0 3 30); ("/v1/faucet", mkLimit 1 3 84); ("/v1/transfer", mkLimit 120 300 3000);
  ("/v1/stake", mkLimit 20 100 500); ("/v1/unstake", mkLimit 20 100 500);
  ("/v1/registry", mkLimit 10 20 200); ("/v1/router/register", mkLimit 10 20 200); ("/v1/router/unregister", mkLimit 10 20 200);
  ("/v1/router/availability", mkLimit 60 200 2000); ("/v1/platform/keys", mkLimit 5 10 50);
  ("/v1/tasks", mkLimit 20 50 500); ("/v1/tasks/claim", mkLimit 60 200 2000); ("/v1/tasks/submit", mkLimit 60 200 2000);
  ("/v1/tasks/approve", mkLimit 60 200 2000); ("/v1/tasks/dispute", mkLimit 10 50 200); ("/v1/tasks/cancel", mkLimit 20 50 500);
  ("/v1/challenge", mkLimit 10 50 200)].

Record EndpointRateLimiter := mkEndpointLimiter { rl_limits : gmap string EndpointLimit; rl_windows : gmap string agentWindow }.

Definition NewEndpointRateLimiter (limits : gmap string EndpointLimit) : EndpointRateLimiter := mkEndpointLimiter limits ∅.

Definition rl_check (key : string) (hour max : Z) (windows : gmap string agentWindow) : bool :=
  match windows !! key with
  | None => true
  | Some w => if decide (aw_windowAt w ≠ hour) then true else bool_decide (aw_count w < max)
  end.

Definition rl_inc (key : string) (hour : Z) (windows : gmap string agentWindow) : gmap string agentWindow :=
  match windows !! key with
  | None => <[key := mkAgentWindow 1 hour]> windows
  | Some w => if decide (aw_windowAt w ≠ hour) then <[key := mkAgentWindow 1 hour]> windows
              else <[key := mkAgentWindow (aw_count w + 1) (aw_windowAt w)]> windows
  end.

(** The windows a request counts in, each with its limit. *)
Definition dimensions (limit : EndpointLimit) (endpoint agentID ip : string) : list (string * Z) :=
  (if decide (agentID ≠ "" ∧ 0 < PerAgentPerHr limit) then [(endpoint +:+ ":a:" +:+ agentID, PerAgentPerHr limit)] else []) ++
  (if decide (ip ≠ "" ∧ 0 < PerIPPerHr limit) then [(endpoint +:+ ":i:" +:+ ip, PerIPPerHr limit)] else []) ++
  (if decide (0 < GlobalPerHr limit) then [(endpoint +:+ ":g", GlobalPerHr limit)] else []).

(** All three are checked before any is in_window; the number is [retryAfterSecs]. *)
Definition endpoint_Allow (endpoint agentID ip : string) (now : Z) (rl : EndpointRateLimiter) : EndpointRateLimiter * (bool * Z) :=
  match rl_limits rl !! endpoint with
  | None => (rl, (true, 0))
  | Some limit =>
      let hour := Z.quot now 3600 in
      let ds := dimensions limit endpoint agentID ip in
      if forallb (λ d, rl_check d.1 hour d.2 (rl_windows rl)) ds
      then (mkEndpointLimiter (rl_limits rl) (foldl (λ ws d, rl_inc d.1 hour ws) (rl_windows rl) ds), (true, 0))
      else (rl, (false, 3600 - Z.rem now 3600))
  end.

Definition Remaining (endpoint agentID : string) (now : Z) (rl : EndpointRateLimiter) : Z :=
  match rl_limits rl !! endpoint with
  | None => -1
  | Some limit =>
      if decide (PerAgentPerHr limit <= 0) then -1
      else
        match rl_windows rl !! (endpoint +:+ ":a:" +:+ agentID) with
        | None => PerAgentPerHr limit
        | Some w => if decide (aw_windowAt w ≠ Z.quot now 3600) then PerAgentPerHr limit else Z.max 0 (PerAgentPerHr limit - aw_count w)
        end
  end.

(** * What was seen is remembered for ten minutes *)

Section remember.
Context {St : Type} `{!MetaPersistence St} {X : Type} (key : X → string).

(** What was taken, when it was found valid and when its key was stored. *)
Definition taken : Type := X * Z * Z.

Definition kept (log : list taken) (s : SeenStore St) (T : Z) : Prop :=
  ∀ x c t, (x, c, t) ∈ log → (∃ t', seen_local s !! key x = Some t' ∧ t <= t') ∨ t + nonceTTL < T.

Lemma kept_nil s T : kept [] s T.
Proof. intros x c t H. by apply not_elem_of_nil in H. Qed.

Lemma kept_later log s T T' : kept log s T → T <= T' → kept log s T'.
Proof. intros H HT x c t Hx. destruct (H x c t Hx); [by left|right; lia]. Qed.

Lemma see_cases k now s s' b : see k now s = (s', b) →
  (b = true ∧ s' = s ∧ is_Some (seen_local s !! k)) ∨ (seen_local s !! k = None ∧ seen_local s' = <[k := now]> (seen_local s) ∧ b = persisted k (seen_store s)).
Proof.
  unfold see. destruct (seen_local s !! k) eqn:E; [intros [= <- <-]; left; done|].
  destruct (persisted k (seen_store s)) eqn:P; intros [= <- <-]; right; done.
Qed.

(** A second look refreshes or leaves alone. *)
Lemma kept_see log s T k now s' b : kept log s T → T <= now → see k now s = (s', b) → kept log s' now.
Proof.
  intros Hk HT Hs. pose proof (kept_later _ _ _ _ Hk HT) as Hk'. apply see_cases in Hs as [(_ & -> & _)|(Hn & Hl & _)]; [done|].
  intros x c t Hx. rewrite Hl. destruct (Hk' x c t Hx) as [(t' & Ht & Hle)|]; [left|by right].
  destruct (decide (key x = k)) as [<-|]; [congruence|]. exists t'. by rewrite lookup_insert_ne.
Qed.

Lemma kept_forget log s T now : kept log s T → T <= now → kept log (forget nonceTTL now s) now.
Proof.
  intros Hk HT x c t Hx. destruct (Hk x c t Hx) as [(t' & Ht & Hle)|]; [|right; lia].
  destruct (decide (t' < now - nonceTTL)); [right; lia|left]. exists t'. split; [|done]. cbn [forget seen_local]. apply map_lookup_filter_Some. done.
Qed.

Context (valid_at : X → Z → Prop) (slack delay : Z) (Hbound : slack + delay <= nonceTTL).
Context (Hslack : ∀ x c1 c2, valid_at x c1 → valid_at x c2 → c2 <= c1 + slack).

(** What a taken entry satisfies. *)
Definition log_ok (log : list taken) : Prop := ∀ x c t, (x, c, t) ∈ log → valid_at x c ∧ c <= t.

Lemma take_once log s T x c t s' : log_ok log → kept log s T → T <= t → c <= t <= c + delay → valid_at x c → see (key x) t s = (s', false) →
  (∀ x0 c0 t0, (x0, c0, t0) ∈ log → x0 ≠ x) ∧ log_ok ((x, c, t) :: log) ∧ kept ((x, c, t) :: log) s' t.
Proof.
  intros Hok Hk HT Hct Hv Hs. split_and!.
  - intros x0 c0 t0 Hin ->. destruct (Hok _ _ _ Hin) as [Hv0 H0]. pose proof (Hslack _ _ _ Hv0 Hv).
    apply see_cases in Hs as [[? _]|(Hn & _)]; [done|]. destruct (Hk _ _ _ Hin) as [(t' & Ht & _)|]; [congruence|]. lia.
  - intros x0 c0 t0 [[= -> -> ->]|Hin]%elem_of_cons; [|by apply Hok]. split; [done|lia].
  - intros x0 c0 t0 [[= -> -> ->]|Hin]%elem_of_cons; [|by apply (kept_see _ _ _ _ _ _ _ Hk HT Hs _ c0)].
    left. exists t. split; [|lia]. apply see_cases in Hs as [[? _]|(_ & Hl & _)]; [done|]. rewrite Hl. apply lookup_insert_eq.
Qed.
End remember.

(** * Requests are accepted once *)

Section accepted.
Context {St : Type} `{!MetaPersistence St, !Ed25519}.

(** Requests and the cleanup goroutine on one nonce store. *)
Inductive auth_op :=
  | OpVerify (registry : AgentID → option CapabilityFingerprint) (r : Request) (now now' : Z)
  | OpCleanup (now : Z).

Definition auth_exec (op : auth_op) (s : SeenStore St) : SeenStore St * list RequestAuth :=
  match op with
  | OpVerify registry r now now' =>
      let '(ns, res) := VerifyRequest registry r now now' (Some s) in
      (default s ns, match res with inr ra => [ra] | inl _ => [] end)
  | OpCleanup now => (nonce_cleanup now s, [])
  end.

Fixpoint auth_run (ops : list auth_op) (s : SeenStore St) : SeenStore St * list RequestAuth :=
  match ops with
  | [] => (s, [])
  | op :: ops => let '(s, acc) := auth_exec op s in let '(s, rest) := auth_run ops s in (s, acc ++ rest)
  end.

(** The clock does not run backwards between the calls that hold the store's lock, and a request gets the lock within nine
    minutes of the check of its timestamp. *)
Fixpoint auth_clock (T : Z) (ops : list auth_op) : Prop :=
  match ops with
  | [] => True
  | OpVerify _ _ now now' :: ops => 0 <= now <= now' ∧ now' <= now + 540 ∧ T <= now' < 2 ^ 62 ∧ auth_clock now' ops
  | OpCleanup now :: ops => T <= now ∧ auth_clock now ops
  end.

Definition stamp (ra : RequestAuth) : AgentID * string * Z := (ra_AgentID ra, ra_Nonce ra, ra_Timestamp ra).

Definition stamp_key (x : AgentID * string * Z) : string := nonce_key x.1.1 x.1.2.

(** A timestamp is near the clock, or so far below it that the difference has no absolute value. *)
Definition near (x : AgentID * string * Z) (now : Z) : Prop :=
  0 <= now < 2 ^ 62 ∧ (now - 30 <= x.2 <= now + 30 ∨ x.2 = now - 2 ^ 63).

Lemma near_slack x c1 c2 : near x c1 → near x c2 → c2 <= c1 + 60.
Proof. unfold near. lia. Qed.

Lemma skew_near now t : 0 <= now < 2 ^ 62 → is_i64 t → ¬ maxTimestampSkew < abs64 (i64 (now - t)) → now - 30 <= t <= now + 30 ∨ t = now - 2 ^ 63.
Proof.
  unfold is_i64, maxTimestampSkew, abs64, i64, u64_mod. intros Hn Ht Hs. case_decide as Hneg; Z.to_euclidean_division_equations; lia.
Qed.

Lemma ParseInt_i64 s z : ParseInt s = Some z → is_i64 z.
Proof.
  unfold ParseInt. destruct (match s with EmptyString => _ | String _ _ => _ end) as [neg ds]. case_decide; [done|].
  destruct (digits 0 ds); [|done]. cbn [mbind option_bind]. case_decide; [|done]. by intros [= <-].
Qed.

(** What an accepted request has passed. *)
Lemma check_request_inv registry r now ra : check_request registry r now = inr ra → ∃ t fp sig,
  ParseInt (rq_Header r "X-Aethernet-Timestamp") = Some t ∧ ¬ maxTimestampSkew < abs64 (i64 (now - t)) ∧
  String.length (rq_Header r "X-Aethernet-Nonce") = 32%nat ∧ is_Some (hex_decode (rq_Header r "X-Aethernet-Nonce")) ∧
  registry (rq_Header r "X-Aethernet-Agent-ID") = Some fp ∧ hex_decode (rq_Header r "X-Aethernet-Signature") = Some sig ∧
  Verify (fp_PublicKey fp) (BuildCanonicalString (rq_Method r) (rq_Path r) (rq_Header r "X-Aethernet-Agent-ID") (rq_Header r "X-Aethernet-Nonce") t (sha256_hex (rq_Body r))) sig = true ∧
  ra = mkRequestAuth (rq_Header r "X-Aethernet-Agent-ID") (fp_PublicKey fp) t (rq_Header r "X-Aethernet-Nonce").
Proof.
  unfold check_request. case_decide; [done|]. destruct (ParseInt _) as [t|] eqn:Et; [|done]. case_decide as Hs; [done|]. case_decide as Hl; [done|].
  destruct (hex_decode (rq_Header r "X-Aethernet-Nonce")) as [n|] eqn:En; [|done]. destruct (registry _) as [fp|] eqn:Er; [|done]. case_decide; [done|].
  destruct (hex_decode (rq_Header r "X-Aethernet-Signature")) as [sig|] eqn:Eg; [|done]. destruct (Verify _ _ sig) eqn:Ev; [|done].
  cbn [negb]. intros [= <-]. exists t, fp, sig. split_and!; done.
Qed.

Lemma check_request_no_replay registry r now : check_request registry r now ≠ inl ErrReplayedNonce.
Proof. unfold check_request. by repeat case_match. Qed.

Lemma check_request_near registry r now ra : 0 <= now < 2 ^ 62 → check_request registry r now = inr ra → near (stamp ra) now.
Proof. intros Hn (t & fp & sig & Ht & Hs & _ & _ & _ & _ & _ & ->)%check_request_inv. split; [done|]. cbn. apply skew_near; [done|by eapply ParseInt_i64|done]. Qed.

Lemma VerifyRequest_some registry r now now' (s : SeenStore St) s' res : VerifyRequest registry r now now' (Some s) = (s', res) →
  (∃ err, check_request registry r now = inl err ∧ res = inl err ∧ s' = Some s) ∨
  (∃ ra s1 b, check_request registry r now = inr ra ∧ see (stamp_key (stamp ra)) now' s = (s1, b) ∧ s' = Some s1 ∧
     res = if b then inl ErrReplayedNonce else inr ra).
Proof.
  unfold VerifyRequest, CheckAndStore. destruct (check_request registry r now) as [err|ra]; [intros [= <- <-]; left; by exists err|].
  destruct (see _ now' s) as [s1 b] eqn:E. intros [= <- <-]. right. by exists ra, s1, b.
Qed.

Lemma auth_run_once ops : ∀ T s log s' acc, log_ok near log → kept stamp_key log s T → auth_clock T ops → auth_run ops s = (s', acc) →
  NoDup (stamp <$> acc) ∧ ∀ x c t, (x, c, t) ∈ log → x ∉ stamp <$> acc.
Proof.
  induction ops as [|op ops IH]; intros T s log s' acc Hok Hk Hc; cbn [auth_run].
  { intros [= <- <-]. split; [constructor|]. intros x c t _. apply not_elem_of_nil. }
  destruct (auth_exec op s) as [s1 a1] eqn:E1. destruct (auth_run ops s1) as [s2 a2] eqn:E2. intros [= <- <-].
  destruct op as [registry r now now'|now]; cbn [auth_exec auth_clock] in *.
  - destruct Hc as (Hn & Hd & HT & Hc). destruct (VerifyRequest registry r now now' (Some s)) as [ns res] eqn:Ev. injection E1 as <- <-.
    apply VerifyRequest_some in Ev as [(err & Hreq & -> & ->)|(ra & s3 & b & Hreq & Hsee & -> & ->)]; cbn [default from_option] in *.
    + apply (IH now' s log s2 a2); [done| |done|done]. apply (kept_later _ _ _ T); [done|lia].
    + destruct b; [apply (IH now' s3 log s2 a2); [done| |done|done]; eapply kept_see; [done| |done]; lia|].
      apply check_request_near in Hreq; [|lia].
      destruct (take_once stamp_key near 60 540 ltac:(done) near_slack log s T (stamp ra) now now' s3) as (Hnew & Hok' & Hk'); [done..|lia|lia|done|done|].
      destruct (IH now' s3 _ s2 a2 Hok' Hk' Hc E2) as [Hnd Hout]. cbn [app]. rewrite fmap_cons. split.
      * constructor; [|done]. eapply Hout. by left.
      * intros x c t Hx [->|Hin]%elem_of_cons; [by apply (Hnew _ _ _ Hx)|]. eapply Hout; [by right|done].
  - destruct Hc as [HT Hc]. injection E1 as <- <-. apply (IH now (nonce_cleanup now s) log s2 a2); [done|by eapply kept_forget|done|done].
Qed.

Lemma string_length_cat (a b : string) : String.length (a +:+ b) = (String.length a + String.length b)%nat.
Proof. induction a as [|c a IH]; [done|]. rewrite string_app_cons. cbn [String.length]. by rewrite IH. Qed.

Lemma nonce_key_inj a n a' n' : String.length n = String.length n' → nonce_key a n = nonce_key a' n' → a = a' ∧ n = n'.
Proof.
  unfold nonce_key. intros Hn E%string_app_inv_l. assert (Ha : String.length a = String.length a').
  { apply (f_equal String.length) in E. rewrite !string_length_cat in E. lia. }
  apply string_app_inj_len in E as [-> E]; [|done]. by apply string_app_inv_l in E.
Qed.

(** Without a persistent store only what was accepted is known. *)
Lemma auth_run_known ops : ∀ s s' acc (P : string → Prop), seen_store s = None → (∀ k t, seen_local s !! k = Some t → P k) →
  auth_run ops s = (s', acc) → seen_store s' = None ∧ ∀ k t, seen_local s' !! k = Some t → P k ∨ ∃ ra, ra ∈ acc ∧ k = stamp_key (stamp ra) ∧ String.length (ra_Nonce ra) = 32%nat.
Proof.
  induction ops as [|op ops IH]; intros s s' acc P Hst HP; cbn [auth_run]; [intros [= <- <-]; split; [done|]; intros k t Hkt; left; eauto|].
  destruct (auth_exec op s) as [s1 a1] eqn:E1. destruct (auth_run ops s1) as [s2 a2] eqn:E2. intros [= <- <-].
  assert (H1 : seen_store s1 = None ∧ ∀ k t, seen_local s1 !! k = Some t → P k ∨ ∃ ra, ra ∈ a1 ∧ k = stamp_key (stamp ra) ∧ String.length (ra_Nonce ra) = 32%nat).
  { destruct op as [registry r now now'|now]; cbn [auth_exec] in E1.
    - destruct (VerifyRequest registry r now now' (Some s)) as [ns res] eqn:Ev. injection E1 as <- <-.
      apply VerifyRequest_some in Ev as [(err & _ & -> & ->)|(ra & s3 & b & Hreq & Hsee & -> & ->)]; cbn [default from_option]; [split; [done|]; intros k t Hkt; left; eauto|].
      apply check_request_inv in Hreq as (ts & fp & sig & _ & _ & Hlen & _ & _ & _ & _ & Hra).
      unfold see in Hsee. rewrite Hst in Hsee. cbn [persisted] in Hsee. destruct (seen_local s !! _) eqn:El; injection Hsee as <- <-; unfold id; cbn [seen_store seen_local]; (split; [done|]).
      + intros k t Hkt. left. eauto.
      + intros k t [[<- _]|[_ Hkt]]%lookup_insert_Some; [right; exists ra; split_and!; [by left|done|by rewrite Hra]|left; eauto].
    - injection E1 as <- <-. split; [done|]. cbn [nonce_cleanup forget seen_local]. intros k t [Hkt _]%map_lookup_filter_Some. left. eauto. }
  destruct H1 as [Hst1 H1]. apply (IH s1 s2 a2 (λ k, P k ∨ ∃ ra, ra ∈ a1 ∧ k = stamp_key (stamp ra) ∧ String.length (ra_Nonce ra) = 32%nat) Hst1 H1) in E2 as [Hst2 H2]. split; [done|].
  intros k t Hk. destruct (H2 k t Hk) as [[Hkp|(ra & Hra & Hkey)]|(ra & Hra & Hkey)]; [by left|right..]; exists ra; (split; [apply elem_of_app; tauto|done]).
Qed.
End accepted.

(** C15: a signed request is accepted once.  Whatever the requests and the cleanups on one nonce store, from an empty one
    over any backend, no two accepted requests have the same agent, nonce and timestamp, and when nothing is
    persisted, a request is only refused as a replay when one of the same agent with the same nonce was accepted.  (Conditions
    on the clock, [auth_clock]: between 0 and 2^62 it does not run backwards from one call under the store's lock to the next, and a request
    gets that lock within nine minutes of the check of its timestamp.  The check passes while the clock is within thirty seconds of the
    timestamp and, because its subtraction wraps, also in the one second that is 2^63 seconds after it, see
    [skew_wraps]; the nonce is kept in memory for ten minutes.) *)
Theorem request_accepted_once {St} `{!MetaPersistence St, !Ed25519} (store : option St) T ops s acc :
  auth_clock T ops → auth_run ops (NewBadgerNonceStore store) = (s, acc) →
  NoDup (stamp <$> acc) ∧
  (store = None → ∀ registry r now now' s', VerifyRequest registry r now now' (Some s) = (s', inl ErrReplayedNonce) →
     ∃ ra, ra ∈ acc ∧ ra_AgentID ra = rq_Header r "X-Aethernet-Agent-ID" ∧ ra_Nonce ra = rq_Header r "X-Aethernet-Nonce").
Proof.
  intros Hc Hrun. split.
  - by destruct (auth_run_once ops T (NewBadgerNonceStore store) [] s acc) as [Hnd _]; [intros x c t Hx; by apply not_elem_of_nil in Hx|apply kept_nil|done|done|].
  - intros -> registry r now now' s' Hv.
    destruct (auth_run_known ops (NewBadgerNonceStore None) s acc (λ _, False) eq_refl) as [Hst Hk]; [done|done|].
    apply VerifyRequest_some in Hv as [(err & Herr & [= <-] & _)|(ra & s1 & b & Hreq & Hsee & _ & Hres)].
    { by apply check_request_no_replay in Herr. }
    destruct b; [|done]. apply check_request_inv in Hreq as (t & fp & sig & _ & _ & Hlen & _ & _ & _ & _ & ->).
    apply see_cases in Hsee as [(_ & _ & t' & Hl)|(_ & _ & Hp)]; [|by rewrite Hst in Hp].
    destruct (Hk _ _ Hl) as [[]|(ra & Hra & Hkey & Hlen')]. exists ra. split; [done|].
    destruct (nonce_key_inj (rq_Header r "X-Aethernet-Agent-ID") (rq_Header r "X-Aethernet-Nonce") (ra_AgentID ra) (ra_Nonce ra)) as [-> ->];
      [by rewrite Hlen, Hlen'|exact Hkey|done].
Qed.

(** * A signature stands for one request *)

Definition not_nl (c : Ascii.ascii) : bool := negb (Ascii.eqb c (Ascii.ascii_of_nat 10)).

Definition no_nl (s : string) : Prop := all_chars not_nl s = true.

Lemma no_nl_cons c s : no_nl (String c s) ↔ not_nl c = true ∧ no_nl s.
Proof. unfold no_nl, all_chars. cbn [String.list_ascii_of_string forallb]. apply andb_true_iff. Qed.

Lemma no_nl_app a b : no_nl (a +:+ b) ↔ no_nl a ∧ no_nl b.
Proof. induction a as [|c a IH]; [rewrite string_nil_app; split; [by split|by intros [_ ?]]|]. rewrite string_app_cons, !no_nl_cons, IH. tauto. Qed.

Lemma no_nl_mono p s : (∀ c, p c = true → not_nl c = true) → all_chars p s = true → no_nl s.
Proof. intros Hp. unfold no_nl, all_chars. rewrite !forallb_forall. intros Hs c Hc. apply Hp, Hs, Hc. Qed.

Lemma FormatInt_no_nl z : no_nl (FormatInt z).
Proof.
  apply (no_nl_mono num_char); [|apply FormatInt_num]. intros c Hc. unfold not_nl. apply negb_true_iff, Ascii.eqb_neq. intros ->. by vm_compute in Hc.
Qed.

Lemma hex_digit_no_nl z : 0 <= z < 16 → not_nl (hex_digit z) = true.
Proof.
  intros Hz. unfold not_nl. apply negb_true_iff, Ascii.eqb_neq. intros E. pose proof (hex_digit_value z Hz) as Hv. by rewrite E in Hv.
Qed.

Lemma hex_encode_no_nl bs : Forall (λ b, 0 <= b < 256) bs → no_nl (hex_encode bs).
Proof.
  induction 1 as [|b bs Hb Hbs IH]; [done|]. cbn [hex_encode]. rewrite !no_nl_cons.
  assert (Z.shiftr b 4 = b / 16) as -> by (by rewrite Z.shiftr_div_pow2). assert (Z.land b 15 = b mod 16) as -> by exact (Z.land_ones b 4 ltac:(lia)).
  pose proof (Z_div_mod_eq_full b 16). pose proof (Z.mod_pos_bound b 16 ltac:(lia)). split_and!; [apply hex_digit_no_nl; lia..|done].
Qed.

Lemma sha256_hex_no_nl s : no_nl (sha256_hex s).
Proof. apply hex_encode_no_nl, Sha256.Sum256_bytes. Qed.

(** The first and the last line of a text. *)
Lemma first_line x y r r' : no_nl x → no_nl y → x +:+ newline +:+ r = y +:+ newline +:+ r' → x = y ∧ r = r'.
Proof.
  intros Hx Hy E. apply (span_unique not_nl) in E as [-> E]; [|done..]. split; [done|]. by apply string_app_inv_l in E.
Qed.

Lemma last_line x y l l' : no_nl l → no_nl l' → x +:+ newline +:+ l = y +:+ newline +:+ l' → x = y ∧ l = l'.
Proof.
  assert (Hno : ∀ z m, ¬ no_nl (z +:+ newline +:+ m)) by (intros z m [_ Hz]%no_nl_app; apply no_nl_app in Hz as [Hz _]; by vm_compute in Hz).
  intros Hl Hl'. revert y. induction x as [|c x IH]; intros [|d y] E.
  - split; [done|]. do 2 apply string_app_inv_l in E. done.
  - exfalso. assert (E' : l = y +:+ newline +:+ l') by (by injection E). rewrite E' in Hl. by apply (Hno y l').
  - exfalso. assert (E' : x +:+ newline +:+ l = l') by (by injection E). rewrite <- E' in Hl'. by apply (Hno x l).
  - rewrite !string_app_cons in E. injection E as -> E. destruct (IH _ E) as [-> ->]. done.
Qed.

(** A path may hold newlines: what follows it is read from the end. *)
Lemma BuildCanonicalString_inj m p a n t b m' p' a' n' t' b' :
  no_nl m → no_nl m' → no_nl a → no_nl a' → no_nl n → no_nl n' → no_nl b → no_nl b' →
  BuildCanonicalString m p a n t b = BuildCanonicalString m' p' a' n' t' b' → m = m' ∧ p = p' ∧ a = a' ∧ n = n' ∧ t = t' ∧ b = b'.
Proof.
  intros Hm Hm' Ha Ha' Hn Hn' Hb Hb' E. unfold BuildCanonicalString in E. do 3 apply string_app_inv_l in E.
  apply first_line in E as [-> E]; [|done..]. apply string_app_inv_l in E.
  assert (Eq : ∀ p a n t b, p +:+ newline +:+ "agent_id:" +:+ a +:+ newline +:+ "nonce:" +:+ n +:+ newline +:+ "timestamp:" +:+ t +:+ newline +:+ "body_sha256:" +:+ b =
    (((p +:+ newline +:+ ("agent_id:" +:+ a)) +:+ newline +:+ ("nonce:" +:+ n)) +:+ newline +:+ ("timestamp:" +:+ t)) +:+ newline +:+ ("body_sha256:" +:+ b))
    by (intros; rewrite !string_app_assoc; reflexivity).
  rewrite !Eq in E. clear Eq.
  assert (Hpre : ∀ u v, no_nl u → no_nl v → no_nl (u +:+ v)) by (intros; by apply no_nl_app).
  apply last_line in E as [E Eb]; [|by apply Hpre..]. apply last_line in E as [E Et]; [|apply Hpre; [done|apply FormatInt_no_nl]..].
  apply last_line in E as [E En]; [|by apply Hpre..]. apply last_line in E as [-> Ea]; [|by apply Hpre..].
  apply string_app_inv_l in Eb as ->. apply string_app_inv_l in Et. apply string_app_inv_l in En as ->. apply string_app_inv_l in Ea as ->.
  apply (inj pretty) in Et as ->. done.
Qed.

(** What net/http guarantees: a method and a header value have no line break. *)
Definition http_ok (r : Request) : Prop := no_nl (rq_Method r) ∧ ∀ h, no_nl (rq_Header r h).

Lemma VerifyRequest_inr {St} `{!MetaPersistence St, !Ed25519} registry r now now' (ns ns' : option (SeenStore St)) ra :
  VerifyRequest registry r now now' ns = (ns', inr ra) → check_request registry r now = inr ra.
Proof.
  unfold VerifyRequest. destruct (check_request registry r now) as [|ra0]; [done|]. destruct ns as [s|]; [|by intros [= _ <-]].
  destruct (CheckAndStore _ _ now' s) as [s1 b]. by destruct b; intros [= _ <-].
Qed.

Lemma check_request_signed `{!Ed25519} registry r now ra : check_request registry r now = inr ra → ∃ pk sig,
  hex_decode (rq_Header r "X-Aethernet-Signature") = Some sig ∧
  ed25519_Verify pk (BuildCanonicalString (rq_Method r) (rq_Path r) (ra_AgentID ra) (ra_Nonce ra) (ra_Timestamp ra) (sha256_hex (rq_Body r))) sig = true ∧
  ra_AgentID ra = rq_Header r "X-Aethernet-Agent-ID" ∧ ra_Nonce ra = rq_Header r "X-Aethernet-Nonce".
Proof.
  intros (t & fp & sig & _ & _ & _ & _ & _ & Hs & Hv & ->)%check_request_inv. exists (fp_PublicKey fp), sig. split_and!; [done| |done|done].
  unfold Verify in Hv. by repeat (case_decide; [done|]).
Qed.

(** C16: a signature stands for one request: two requests that are accepted with the same signature, one that no key accepts
    for two messages, have the same method, path, agent, nonce and timestamp, and the same body unless SHA-256
    collides on the bodies; not even a path with line breaks makes two requests look the same to the signer. *)
Theorem signature_binds_request {St} `{!MetaPersistence St, !Ed25519} registry1 registry2 r1 r2 now1 now1' now2 now2' (ns1 ns2 : option (SeenStore St)) ns1' ns2' ra1 ra2 :
  http_ok r1 → http_ok r2 →
  VerifyRequest registry1 r1 now1 now1' ns1 = (ns1', inr ra1) → VerifyRequest registry2 r2 now2 now2' ns2 = (ns2', inr ra2) →
  rq_Header r1 "X-Aethernet-Signature" = rq_Header r2 "X-Aethernet-Signature" →
  (∀ sig, hex_decode (rq_Header r1 "X-Aethernet-Signature") = Some sig → signature_binds sig) →
  rq_Method r1 = rq_Method r2 ∧ rq_Path r1 = rq_Path r2 ∧ stamp ra1 = stamp ra2 ∧
  (rq_Body r1 = rq_Body r2 ∨ (rq_Body r1 ≠ rq_Body r2 ∧ sha256_hex (rq_Body r1) = sha256_hex (rq_Body r2))).
Proof.
  intros [Hm1 Hh1] [Hm2 Hh2] (pk1 & sig & Hs1 & Hv1 & Ha1 & Hn1)%VerifyRequest_inr%check_request_signed (pk2 & sig2 & Hs2 & Hv2 & Ha2 & Hn2)%VerifyRequest_inr%check_request_signed Hsig Hb.
  rewrite Hsig, Hs2 in Hs1. injection Hs1 as ->. rewrite Hsig in Hb. pose proof (Hb sig Hs2 _ _ _ _ Hv1 Hv2) as E.
  apply BuildCanonicalString_inj in E as (Hm & Hp & Ha & Hn & Ht & Hd); [|rewrite ?Ha1, ?Ha2, ?Hn1, ?Hn2; first [done|apply Hh1|apply Hh2|apply sha256_hex_no_nl]..].
  split_and!; [done|done|unfold stamp; congruence|]. destruct (decide (rq_Body r1 = rq_Body r2)); [by left|by right].
Qed.

(** * Transactions are executed once *)

Section transactions.
Context {St : Type} `{!MetaPersistence St, !JsonLib, !Ed25519}.

(** Write requests, each handled to the end of [checkTxIDSeen], and the cleanup goroutine on one TxID store.  A request
    that a rate limiter turns away between the two checks is not one of them.  A request is one step: the lookup and the
    recording of [checkTxIDSeen], each under a lock of its own, are taken to have no request with the same TxID between
    them. *)
Inductive tx_op :=
  | OpTx (r : Request) (chainID : string) (lookupPubKey : string → option (list Z)) (inDAG : bool) (now now' : Z)
  | OpTxCleanup (now : Z).

(** The store, and the transaction the handler goes on to execute. *)
Definition tx_exec (op : tx_op) (s : SeenStore St) : SeenStore St * list Transaction :=
  match op with
  | OpTx r chainID lookupPubKey inDAG now now' =>
      match VerifyTransaction r chainID lookupPubKey now with
      | inl _ => (s, [])
      | inr vtx => let '(s, seen) := checkTxIDSeen (vtx_TxID vtx) inDAG now' s in (s, if seen : bool then [] else [vtx_Tx vtx])
      end
  | OpTxCleanup now => (txid_cleanup now s, [])
  end.

Fixpoint tx_run (ops : list tx_op) (s : SeenStore St) : SeenStore St * list Transaction :=
  match ops with
  | [] => (s, [])
  | op :: ops => let '(s, acc) := tx_exec op s in let '(s, rest) := tx_run ops s in (s, acc ++ rest)
  end.

(** What the code's clock has to satisfy: [expiresAt - createdAt] does not overflow; *)
Definition lifetime_exact (r : Request) : Prop := ∀ c e,
  ParseInt (rq_Header r "X-AetherNet-Created") = Some c → ParseInt (rq_Header r "X-AetherNet-Expires") = Some e → is_i64 (e - c).

(** the clock does not run backwards, and a handler gets from the check of the envelope to [checkTxIDSeen] within six minutes. *)
Fixpoint tx_clock (T : Z) (ops : list tx_op) : Prop :=
  match ops with
  | [] => True
  | OpTx r _ _ _ now now' :: ops => 0 <= now <= now' ∧ now' <= now + 360 ∧ T <= now' < 2 ^ 62 ∧ lifetime_exact r ∧ tx_clock now' ops
  | OpTxCleanup now :: ops => T <= now ∧ tx_clock now ops
  end.

Definition tx_key (tx : Transaction) : string := txid_key (TxID tx).

Definition live (tx : Transaction) (now : Z) : Prop :=
  now <= tx_ExpiresAt tx + 60 ∧ tx_CreatedAt tx <= now + 60 ∧ tx_ExpiresAt tx - tx_CreatedAt tx <= 120.

Lemma live_slack tx c1 c2 : live tx c1 → live tx c2 → c2 <= c1 + 240.
Proof. unfold live. lia. Qed.

(** What a verified transaction has passed. *)
Lemma VerifyTransaction_inv r chainID lookupPubKey now vtx : VerifyTransaction r chainID lookupPubKey now = inr vtx → ∃ c e pk sig,
  ParseInt (rq_Header r "X-AetherNet-Created") = Some c ∧ ParseInt (rq_Header r "X-AetherNet-Expires") = Some e ∧
  i64 (e - c) <= 120 ∧ now <= i64 (e + 60) ∧ c <= i64 (now + 60) ∧
  vtx_Tx vtx = mkTx (rq_Header r "X-AetherNet-Version") chainID (rq_Header r "X-AetherNet-Actor") (rq_Method r) (rq_Path r) (body_hash (rq_Body r)) c e (rq_Header r "X-AetherNet-Nonce") ∧
  vtx_TxID vtx = TxID (vtx_Tx vtx) ∧ lookupPubKey (rq_Header r "X-AetherNet-Actor") = Some pk ∧
  hex_decode (rq_Header r "X-AetherNet-Signature") = Some sig ∧ ed25519_Verify pk (SignBytes (vtx_Tx vtx)) sig = true.
Proof.
  unfold VerifyTransaction, TxMaxLifetimeSecs, TxClockSkewSecs. case_decide; [done|]. case_decide as Hch; [done|]. destruct (ParseInt _) as [c|] eqn:Ec; [|done]. destruct (ParseInt (rq_Header r "X-AetherNet-Expires")) as [e|] eqn:Ee; [|done].
  do 4 (case_decide; [done|]). destruct (hex_decode (rq_Header r "X-AetherNet-Nonce")); [|done]. destruct (lookupPubKey _) as [pk|] eqn:Ek; [|done].
  destruct (tx_Verify _ pk _) as [err|] eqn:Ev; [by destruct err|]. intros [= <-]. unfold tx_Verify in Ev. destruct (hex_decode (rq_Header r "X-AetherNet-Signature")) as [sig|]; [|done].
  do 2 (case_decide; [done|]). destruct (ed25519_Verify pk _ sig) eqn:Es; [|done]. exists c, e, pk, sig. cbn [vtx_Tx vtx_TxID]. rewrite Hch in Es |- *. split_and!; try done; lia.
Qed.

Lemma VerifyTransaction_live r chainID lookupPubKey now vtx : 0 <= now < 2 ^ 62 → lifetime_exact r →
  VerifyTransaction r chainID lookupPubKey now = inr vtx → live (vtx_Tx vtx) now.
Proof.
  intros Hn Hl (c & e & pk & sig & Hc & He & Hlife & Hexp & Hfut & -> & _)%VerifyTransaction_inv. pose proof (Hl c e Hc He) as Hi.
  apply ParseInt_i64 in Hc, He. unfold live. cbn [tx_ExpiresAt tx_CreatedAt]. unfold is_i64, i64, u64_mod in *. Z.to_euclidean_division_equations; lia.
Qed.

Lemma sha256_hex_nonempty s : sha256_hex s ≠ "".
Proof. unfold sha256_hex. pose proof (Sha256.Sum256_length (bytes_of_string s)) as Hl. by destruct (Sha256.Sum256 (bytes_of_string s)). Qed.

(** Either nothing is executed, or the store had not seen the transaction and has now. *)
Lemma checkTxIDSeen_cases tx inDAG now (s s' : SeenStore St) b : checkTxIDSeen (TxID tx) inDAG now s = (s', b) →
  (b = true ∧ (s' = s ∨ ∃ b', see (tx_key tx) now s = (s', b'))) ∨ (b = false ∧ see (tx_key tx) now s = (s', false)).
Proof.
  unfold checkTxIDSeen. rewrite decide_False by apply sha256_hex_nonempty. unfold txid_read, txid_mark, MarkSeen. fold (tx_key tx).
  destruct (see (tx_key tx) now s) as [s1 b1] eqn:E. destruct (IsSeen (TxID tx) s) eqn:Es; [intros [= <- <-]; left; split; [done|by left]|].
  destruct inDAG; intros [= <- <-]; [left; split; [done|right; by exists b1]|right]. split; [done|]. f_equal.
  unfold IsSeen in Es. fold (tx_key tx) in Es. apply orb_false_iff in Es as [Hl Hp]. apply bool_decide_eq_false in Hl.
  apply see_cases in E as [(_ & _ & Hs)|(_ & _ & ->)]; [done|]. cbn [fst]. done.
Qed.

Lemma tx_run_once ops : ∀ T s log s' acc, log_ok live log → kept tx_key log s T → tx_clock T ops → tx_run ops s = (s', acc) →
  NoDup acc ∧ ∀ x c t, (x, c, t) ∈ log → x ∉ acc.
Proof.
  induction ops as [|op ops IH]; intros T s log s' acc Hok Hk Hc; cbn [tx_run].
  { intros [= <- <-]. split; [constructor|]. intros x c t _. apply not_elem_of_nil. }
  destruct (tx_exec op s) as [s1 a1] eqn:E1. destruct (tx_run ops s1) as [s2 a2] eqn:E2. intros [= <- <-].
  destruct op as [r chainID lookupPubKey inDAG now now'|now]; cbn [tx_exec tx_clock] in *.
  - destruct Hc as (Hn & Hd & HT & Hlife & Hc). destruct (VerifyTransaction r chainID lookupPubKey now) as [err|vtx] eqn:Ev.
    + injection E1 as <- <-. apply (IH now' s log s2 a2); [done| |done|done]. apply (kept_later _ _ _ T); [done|lia].
    + assert (Hid : vtx_TxID vtx = TxID (vtx_Tx vtx)) by (apply VerifyTransaction_inv in Ev as (? & ? & ? & ? & _ & _ & _ & _ & _ & _ & ? & _); done).
      rewrite Hid in E1. destruct (checkTxIDSeen (TxID (vtx_Tx vtx)) inDAG now' s) as [s3 b] eqn:Ec. injection E1 as <- <-.
      apply checkTxIDSeen_cases in Ec as [[-> [->|[b' Hsee]]]|[-> Hsee]]; cbn [app].
      * apply (IH now' s log s2 a2); [done| |done|done]. apply (kept_later _ _ _ T); [done|lia].
      * apply (IH now' s3 log s2 a2); [done| |done|done]. eapply kept_see; [done| |done]; lia.
      * apply VerifyTransaction_live in Ev; [|lia|done].
        destruct (take_once tx_key live 240 360 ltac:(done) live_slack log s T (vtx_Tx vtx) now now' s3) as (Hnew & Hok' & Hk'); [done..|lia|lia|done|done|].
        destruct (IH now' s3 _ s2 a2 Hok' Hk' Hc E2) as [Hnd Hout]. split.
        { constructor; [|done]. eapply Hout. by left. }
        intros x c t Hx [->|Hin]%elem_of_cons; [by apply (Hnew _ _ _ Hx)|]. eapply Hout; [by right|done].
  - destruct Hc as [HT Hc]. injection E1 as <- <-. apply (IH now (txid_cleanup now s) log s2 a2); [done|by eapply kept_forget|done|done].
Qed.
End transactions.

(** C17: a signed transaction is executed once, as long as the requests for it do not overlap.  Whatever the write requests and the
    cleanups on one TxID store, from an empty one over any backend, one after the other, no transaction envelope is
    executed twice (it is accepted for at most four minutes and remembered for ten), and every executed envelope
    carries the signature of the actor's key over its canonical bytes.  (Without overlap: [checkTxIDSeen] looks a TxID up and records it under two
    separate locks, and no other request with the TxID gets in between; the code does not prevent that, and two such requests are both
    executed, see [replay_race].  On the clock, [tx_clock]: between 0 and 2^62 it does not run backwards, [checkTxIDSeen] follows the
    check of the envelope within six minutes, and the lifetime an envelope claims, expiry minus creation, does not overflow
    int64, see [lifetime_wraps].) *)
Theorem tx_executed_once {St} `{!MetaPersistence St, !JsonLib, !Ed25519} (store : option St) T ops s acc :
  tx_clock T ops → tx_run ops (NewTxIDStore store) = (s, acc) →
  NoDup acc ∧ ∀ tx, tx ∈ acc → ∃ r chainID lookupPubKey inDAG now now' pk sig, OpTx r chainID lookupPubKey inDAG now now' ∈ ops ∧
    tx_ChainID tx = chainID ∧ tx_Method tx = rq_Method r ∧ tx_Path tx = rq_Path r ∧ tx_BodySHA256 tx = body_hash (rq_Body r) ∧
    lookupPubKey (tx_Actor tx) = Some pk ∧ ed25519_Verify pk (SignBytes tx) sig = true.
Proof.
  intros Hc Hrun. split.
  - by destruct (tx_run_once ops T (NewTxIDStore store) [] s acc) as [Hnd _]; [intros x c t Hx; by apply not_elem_of_nil in Hx|apply kept_nil|done|done|].
  - clear Hc. revert Hrun. generalize (NewTxIDStore store). revert acc. induction ops as [|op ops IH]; intros acc s0; cbn [tx_run]; [intros [= <- <-] tx Hx; by apply not_elem_of_nil in Hx|].
    destruct (tx_exec op s0) as [s1 a1] eqn:E1. destruct (tx_run ops s1) as [s2 a2] eqn:E2. intros [= <- <-] tx [Hx|Hx]%elem_of_app.
    + destruct op as [r chainID lookupPubKey inDAG now now'|now]; cbn [tx_exec] in E1; [|injection E1 as <- <-; by apply not_elem_of_nil in Hx].
      destruct (VerifyTransaction r chainID lookupPubKey now) as [err|vtx] eqn:Ev; [injection E1 as <- <-; by apply not_elem_of_nil in Hx|].
      destruct (checkTxIDSeen _ inDAG now' s0) as [s3 b]. injection E1 as <- <-. destruct b; [by apply not_elem_of_nil in Hx|]. apply list_elem_of_singleton in Hx as ->.
      apply VerifyTransaction_inv in Ev as (c & e & pk & sig & _ & _ & _ & _ & _ & Htx & _ & Hk & _ & Hs).
      exists r, chainID, lookupPubKey, inDAG, now, now', pk, sig. rewrite Htx in Hs |- *. split_and!; [by left|done..].
    + destruct (IH _ _ E2 tx Hx) as (r & chainID & lk & d & now & now' & pk & sig & Hin & Hrest). exists r, chainID, lk, d, now, now', pk, sig. split; [by right|done].
Qed.

(** * Limits by the hour *)

(** What a table of windows says of a key in an hour. *)
Definition in_window (ws : gmap string agentWindow) (key : string) (hour : Z) : Z :=
  match ws !! key with Some w => if decide (aw_windowAt w = hour) then aw_count w else 0 | None => 0 end.

(** No window lies after the hour. *)
Definition windows_to (ws : gmap string agentWindow) (hour : Z) : Prop := ∀ k w, ws !! k = Some w → aw_windowAt w <= hour.

Lemma windows_later ws h h' : windows_to ws h → h <= h' → windows_to ws h'.
Proof. intros Hw Hh k w Hk. specialize (Hw k w Hk). lia. Qed.

Lemma rl_inc_spec key hour ws : windows_to ws hour →
  windows_to (rl_inc key hour ws) hour ∧
  ∀ k h, hour <= h → in_window (rl_inc key hour ws) k h = in_window ws k h + (if decide (k = key ∧ h = hour) then 1 else 0).
Proof.
  intros Hw. unfold rl_inc.
  assert (Hins : ∀ n, windows_to (<[key := mkAgentWindow n hour]> ws) hour).
  { intros n k w [[<- <-]|[_ Hk]]%lookup_insert_Some; [done|by eapply Hw]. }
  assert (Hcnt : ∀ n k h, in_window (<[key := mkAgentWindow n hour]> ws) k h = if decide (k = key) then (if decide (hour = h) then n else 0) else in_window ws k h).
  { intros n k h. unfold in_window. case_decide as Hk; [subst k; by rewrite lookup_insert_eq|by rewrite lookup_insert_ne]. }
  assert (Hnew : in_window ws key hour = 0 → windows_to (<[key := mkAgentWindow 1 hour]> ws) hour ∧ ∀ k h, hour <= h →
    in_window (<[key := mkAgentWindow 1 hour]> ws) k h = in_window ws k h + (if decide (k = key ∧ h = hour) then 1 else 0)).
  { intros H0. split; [done|]. intros k h Hh. rewrite Hcnt. destruct (decide (k = key)) as [->|]; [|rewrite (decide_False (P := k = key ∧ _)) by tauto; lia].
    destruct (decide (hour = h)) as [<-|]; [rewrite decide_True by done; lia|]. rewrite (decide_False (P := key = key ∧ _)) by (intros [_ ->]; done).
    enough (in_window ws key h = 0) as -> by lia. unfold in_window in *. destruct (ws !! key) as [w|] eqn:Ew; [|done]. specialize (Hw _ _ Ew). rewrite decide_False; [done|]. intros E. lia. }
  destruct (ws !! key) as [w|] eqn:Ew; [|apply Hnew; unfold in_window; by rewrite Ew].
  case_decide as Hd; [apply Hnew; unfold in_window; rewrite Ew; by rewrite decide_False|]. rewrite Hd. split; [done|]. intros k h Hh. rewrite Hcnt.
  destruct (decide (k = key)) as [->|]; [|rewrite (decide_False (P := k = key ∧ _)) by tauto; lia].
  unfold in_window. rewrite Ew, Hd. destruct (decide (hour = h)) as [<-|]; [by rewrite decide_True|]. rewrite decide_False by (intros [_ ->]; done). lia.
Qed.

Lemma rl_inc_all keys hour : ∀ ws, NoDup keys → windows_to ws hour →
  let ws' := foldl (λ ws k, rl_inc k hour ws) ws keys in
  windows_to ws' hour ∧ ∀ k h, hour <= h → in_window ws' k h = in_window ws k h + (if decide (k ∈ keys ∧ h = hour) then 1 else 0).
Proof.
  induction keys as [|key keys IH]; intros ws Hnd Hw; cbn [foldl].
  - split; [done|]. intros k h _. rewrite decide_False by (intros [Hk _]; by apply not_elem_of_nil in Hk). lia.
  - apply NoDup_cons in Hnd as [Hni Hnd]. destruct (rl_inc_spec key hour ws Hw) as [Hw1 Hc1]. destruct (IH _ Hnd Hw1) as [Hw2 Hc2]. split; [done|].
    intros k h Hh. rewrite Hc2, Hc1 by done.
    destruct (decide (k ∈ keys ∧ h = hour)) as [[Hin ->]|Hno].
    + rewrite (decide_False (P := k = key ∧ _)) by (intros [-> _]; done). rewrite decide_True by (split; [by right|done]). lia.
    + destruct (decide (k = key ∧ h = hour)) as [[-> ->]|Hne]; [rewrite decide_True by (split; [by left|done]); lia|].
      rewrite decide_False; [lia|]. intros [[->|Hin]%elem_of_cons Hh']; tauto.
Qed.

Lemma rl_check_counted key hour max ws : 0 < max → rl_check key hour max ws = bool_decide (in_window ws key hour < max).
Proof.
  intros Hm. unfold rl_check, in_window. destruct (ws !! key) as [w|]; [|by rewrite bool_decide_eq_true_2].
  case_decide as Hd; [rewrite decide_False by done; by rewrite bool_decide_eq_true_2|]. by rewrite decide_True.
Qed.

(** ** Requests per endpoint *)

Definition no_colon (s : string) : Prop := all_chars (λ c, negb (Ascii.eqb c (Ascii.ascii_of_nat 58))) s = true.

Definition agent_key (e a : string) : string := e +:+ ":a:" +:+ a.
Definition ip_key (e i : string) : string := e +:+ ":i:" +:+ i.
Definition global_key (e : string) : string := e +:+ ":g".

Lemma colon_split e e' r r' : no_colon e → no_colon e' → e +:+ ":" +:+ r = e' +:+ ":" +:+ r' → e = e' ∧ r = r'.
Proof.
  intros He He' E. apply (span_unique (λ c, negb (Ascii.eqb c (Ascii.ascii_of_nat 58)))) in E as [-> E]; [|done..]. split; [done|]. by apply string_app_inv_l in E.
Qed.

(** The three kinds of keys are told apart when no endpoint has a colon. *)
Lemma keys_split e e' (x y : string) : no_colon e → no_colon e' →
  (agent_key e x = agent_key e' y ↔ e = e' ∧ x = y) ∧ (ip_key e x = ip_key e' y ↔ e = e' ∧ x = y) ∧ (global_key e = global_key e' ↔ e = e') ∧
  agent_key e x ≠ ip_key e' y ∧ agent_key e x ≠ global_key e' ∧ ip_key e x ≠ global_key e'.
Proof.
  intros He He'. unfold agent_key, ip_key, global_key.
  assert (Hs : ∀ u v, e +:+ ":" +:+ u = e' +:+ ":" +:+ v → e = e' ∧ u = v) by (intros; by apply colon_split).
  split_and!.
  - split; [|by intros [-> ->]]. intros E. destruct (Hs ("a:" +:+ x) ("a:" +:+ y) E) as [-> Er]. by apply string_app_inv_l in Er as ->.
  - split; [|by intros [-> ->]]. intros E. destruct (Hs ("i:" +:+ x) ("i:" +:+ y) E) as [-> Er]. by apply string_app_inv_l in Er as ->.
  - split; [|by intros ->]. intros E. by destruct (Hs "g" "g" E) as [-> _].
  - intros E. by destruct (Hs ("a:" +:+ x) ("i:" +:+ y) E) as [_ Er].
  - intros E. by destruct (Hs ("a:" +:+ x) "g" E) as [_ Er].
  - intros E. by destruct (Hs ("i:" +:+ x) "g" E) as [_ Er].
Qed.

(** A request the limiter is asked about. *)
Record Ask := mkAsk { ask_endpoint : string; ask_agent : string; ask_ip : string; ask_now : Z }.

Definition ask_hour (a : Ask) : Z := Z.quot (ask_now a) 3600.

(** The requests, in order, and those that were allowed. *)
Fixpoint limiter_run (asks : list Ask) (rl : EndpointRateLimiter) : EndpointRateLimiter * list Ask :=
  match asks with
  | [] => (rl, [])
  | a :: asks =>
      let '(rl, (ok, _)) := endpoint_Allow (ask_endpoint a) (ask_agent a) (ask_ip a) (ask_now a) rl in
      let '(rl, rest) := limiter_run asks rl in (rl, if ok : bool then a :: rest else rest)
  end.

Fixpoint asks_ordered (T : Z) (asks : list Ask) : Prop :=
  match asks with [] => True | a :: asks => T <= ask_now a ∧ asks_ordered (ask_now a) asks end.

Definition keys_of (limits : gmap string EndpointLimit) (a : Ask) : list string :=
  match limits !! ask_endpoint a with Some l => (dimensions l (ask_endpoint a) (ask_agent a) (ask_ip a)).*1 | None => [] end.

Definition how_many (P : Ask → Prop) `{!∀ a, Decision (P a)} (l : list Ask) : Z := Z.of_nat (length (filter P l)).

(** The windows count what was allowed, in the current hour and later. *)
Definition limiter_inv (rl : EndpointRateLimiter) (allowed : list Ask) (T : Z) : Prop :=
  windows_to (rl_windows rl) (Z.quot T 3600) ∧
  ∀ k h, Z.quot T 3600 <= h → in_window (rl_windows rl) k h = how_many (λ a, k ∈ keys_of (rl_limits rl) a ∧ ask_hour a = h) allowed.

Section endpoint.
Variable limits : gmap string EndpointLimit.
Hypothesis endpoints_plain : ∀ e l, limits !! e = Some l → no_colon e.

Lemma dimensions_keys l e a i : no_colon e → NoDup (dimensions l e a i).*1 ∧ Forall (λ d, 0 < d.2) (dimensions l e a i) ∧
  ∀ k, k ∈ (dimensions l e a i).*1 ↔ (k = agent_key e a ∧ a ≠ "" ∧ 0 < PerAgentPerHr l) ∨ (k = ip_key e i ∧ i ≠ "" ∧ 0 < PerIPPerHr l) ∨ (k = global_key e ∧ 0 < GlobalPerHr l).
Proof.
  intros He. destruct (keys_split e e a i He He) as (_ & _ & _ & N1 & _ & _). destruct (keys_split e e a "" He He) as (_ & _ & _ & _ & N2 & _). destruct (keys_split e e i "" He He) as (_ & _ & _ & _ & _ & N3).
  unfold dimensions. fold (agent_key e a) (ip_key e i) (global_key e). revert N1 N2 N3. generalize (agent_key e a), (ip_key e i), (global_key e). intros ka ki kg N1 N2 N3.
  split_and!.
  - repeat case_decide; cbn; repeat (apply NoDup_cons_2; [set_solver|]); apply NoDup_nil_2.
  - repeat apply Forall_app_2; (case_decide as Hd; [|by apply Forall_nil_2]); (apply Forall_cons_2; [|by apply Forall_nil_2]); cbn; tauto.
  - intros k. repeat case_decide; cbn; rewrite ?elem_of_cons; set_solver.
Qed.

Definition for_agent (e a : string) (h : Z) (x : Ask) : Prop := ask_endpoint x = e ∧ ask_agent x = a ∧ ask_hour x = h.
Definition for_ip (e i : string) (h : Z) (x : Ask) : Prop := ask_endpoint x = e ∧ ask_ip x = i ∧ ask_hour x = h.
Definition for_endpoint (e : string) (h : Z) (x : Ask) : Prop := ask_endpoint x = e ∧ ask_hour x = h.

#[global] Instance for_agent_dec e a h x : Decision (for_agent e a h x).
Proof. unfold for_agent. apply _. Defined.
#[global] Instance for_ip_dec e i h x : Decision (for_ip e i h x).
Proof. unfold for_ip. apply _. Defined.
#[global] Instance for_endpoint_dec e h x : Decision (for_endpoint e h x).
Proof. unfold for_endpoint. apply _. Defined.

Lemma how_many_ext P Q `{!∀ a, Decision (P a), !∀ a, Decision (Q a)} l : (∀ x, P x ↔ Q x) → how_many P l = how_many Q l.
Proof. intros Hiff. unfold how_many. by rewrite (list_filter_iff P Q). Qed.

Lemma how_many_snoc P `{!∀ a, Decision (P a)} l x : how_many P (l ++ [x]) = how_many P l + (if decide (P x) then 1 else 0).
Proof. unfold how_many. rewrite filter_app, filter_cons, filter_nil, length_app. case_decide; cbn; lia. Qed.

Lemma keys_of_agent e a l x : limits !! e = Some l → a ≠ "" → 0 < PerAgentPerHr l → agent_key e a ∈ keys_of limits x ↔ ask_endpoint x = e ∧ ask_agent x = a.
Proof.
  intros He Ha Hl. pose proof (endpoints_plain _ _ He) as Hp. unfold keys_of. destruct (limits !! ask_endpoint x) as [l'|] eqn:Ex.
  - pose proof (endpoints_plain _ _ Ex) as Hp'. destruct (dimensions_keys l' _ (ask_agent x) (ask_ip x) Hp') as (_ & _ & ->).
    destruct (keys_split e _ a (ask_agent x) Hp Hp') as (K1 & _). destruct (keys_split e _ a (ask_ip x) Hp Hp') as (_ & _ & _ & K4 & K5 & _).
    split; [intros [(Hk & _)|[(Hk & _)|(Hk & _)]]; [by apply K1 in Hk as [-> ->]|done|done]|].
    intros [Ee Ea]. left. rewrite Ee, Ea in *. split; [done|]. split; [done|]. congruence.
  - split; [intros Hin; by apply not_elem_of_nil in Hin|]. intros [Ee _]. congruence.
Qed.

Lemma keys_of_ip e i l x : limits !! e = Some l → i ≠ "" → 0 < PerIPPerHr l → ip_key e i ∈ keys_of limits x ↔ ask_endpoint x = e ∧ ask_ip x = i.
Proof.
  intros He Ha Hl. pose proof (endpoints_plain _ _ He) as Hp. unfold keys_of. destruct (limits !! ask_endpoint x) as [l'|] eqn:Ex.
  - pose proof (endpoints_plain _ _ Ex) as Hp'. destruct (dimensions_keys l' _ (ask_agent x) (ask_ip x) Hp') as (_ & _ & ->).
    destruct (keys_split e _ i (ask_ip x) Hp Hp') as (_ & K2 & _). destruct (keys_split _ e (ask_agent x) i Hp' Hp) as (_ & _ & _ & K4 & _). destruct (keys_split e _ i "" Hp Hp') as (_ & _ & _ & _ & _ & K6).
    split; [intros [(Hk & _)|[(Hk & _)|(Hk & _)]]; [by symmetry in Hk|by apply K2 in Hk as [-> ->]|done]|].
    intros [Ee Ea]. right. left. rewrite Ee, Ea in *. split; [done|]. split; [done|]. congruence.
  - split; [intros Hin; by apply not_elem_of_nil in Hin|]. intros [Ee _]. congruence.
Qed.

Lemma keys_of_global e l x : limits !! e = Some l → 0 < GlobalPerHr l → global_key e ∈ keys_of limits x ↔ ask_endpoint x = e.
Proof.
  intros He Hl. pose proof (endpoints_plain _ _ He) as Hp. unfold keys_of. destruct (limits !! ask_endpoint x) as [l'|] eqn:Ex.
  - pose proof (endpoints_plain _ _ Ex) as Hp'. destruct (dimensions_keys l' _ (ask_agent x) (ask_ip x) Hp') as (_ & _ & ->).
    destruct (keys_split e _ "" "" Hp Hp') as (_ & _ & K3 & _). destruct (keys_split _ e (ask_agent x) "" Hp' Hp) as (_ & _ & _ & _ & K5 & _). destruct (keys_split _ e (ask_ip x) "" Hp' Hp) as (_ & _ & _ & _ & _ & K6).
    split; [intros [(Hk & _)|[(Hk & _)|(Hk & _)]]; [by symmetry in Hk|by symmetry in Hk|by apply K3 in Hk as ->]|].
    intros Ee. right. right. rewrite Ee in *. split; [done|]. congruence.
  - split; [intros Hin; by apply not_elem_of_nil in Hin|]. intros Ee. congruence.
Qed.

(** A request is below its limits. *)
Definition below (allowed : list Ask) (x : Ask) (l : EndpointLimit) : Prop :=
  (ask_agent x ≠ "" → 0 < PerAgentPerHr l → how_many (for_agent (ask_endpoint x) (ask_agent x) (ask_hour x)) allowed < PerAgentPerHr l) ∧
  (ask_ip x ≠ "" → 0 < PerIPPerHr l → how_many (for_ip (ask_endpoint x) (ask_ip x) (ask_hour x)) allowed < PerIPPerHr l) ∧
  (0 < GlobalPerHr l → how_many (for_endpoint (ask_endpoint x) (ask_hour x)) allowed < GlobalPerHr l).

Lemma checks_below rl allowed T x l : rl_limits rl = limits → limiter_inv rl allowed T → T <= ask_now x → limits !! ask_endpoint x = Some l →
  forallb (λ d, rl_check d.1 (ask_hour x) d.2 (rl_windows rl)) (dimensions l (ask_endpoint x) (ask_agent x) (ask_ip x)) = true ↔ below allowed x l.
Proof.
  intros Hlim [_ Hcnt] HT He. pose proof (endpoints_plain _ _ He) as Hp. rewrite Hlim in Hcnt.
  assert (Hh : Z.quot T 3600 <= ask_hour x) by (apply Z.quot_le_mono; lia).
  assert (Hchk : ∀ k max, 0 < max → rl_check k (ask_hour x) max (rl_windows rl) = bool_decide (how_many (λ a, k ∈ keys_of limits a ∧ ask_hour a = ask_hour x) allowed < max)).
  { intros k max Hm. rewrite rl_check_counted by done. by rewrite Hcnt. }
  unfold below, dimensions. fold (agent_key (ask_endpoint x) (ask_agent x)) (ip_key (ask_endpoint x) (ask_ip x)) (global_key (ask_endpoint x)).
  assert (Hpart : ∀ (c : Prop) (dc : Decision c) k m n, (c → 0 < m) → (c → how_many (λ a, k ∈ keys_of limits a ∧ ask_hour a = ask_hour x) allowed = n) →
    forallb (λ d, rl_check d.1 (ask_hour x) d.2 (rl_windows rl)) (if decide c then [(k, m)] else []) = true ↔ (c → n < m)).
  { intros c dc k m n Hm Hn. case_decide as Hc; [|by split]. cbn [forallb fst snd]. rewrite andb_true_r, Hchk, Hn, bool_decide_eq_true by auto. tauto. }
  rewrite !forallb_app, !andb_true_iff.
  rewrite (Hpart _ _ _ _ (how_many (for_agent (ask_endpoint x) (ask_agent x) (ask_hour x)) allowed)), (Hpart _ _ _ _ (how_many (for_ip (ask_endpoint x) (ask_ip x) (ask_hour x)) allowed)),
    (Hpart _ _ _ _ (how_many (for_endpoint (ask_endpoint x) (ask_hour x)) allowed)); [tauto|tauto|..|tauto| |tauto|].
  - intros Hg. apply how_many_ext. intros y. by rewrite (keys_of_global _ l).
  - intros [Ha Hg]. apply how_many_ext. intros y. rewrite (keys_of_ip _ _ l) by done. unfold for_ip. tauto.
  - intros [Ha Hg]. apply how_many_ext. intros y. rewrite (keys_of_agent _ _ l) by done. unfold for_agent. tauto.
Qed.

(** One request: the limits decide, and what is allowed is in_window. *)
Lemma endpoint_Allow_step rl allowed T x rl' ok retry : rl_limits rl = limits → limiter_inv rl allowed T → 0 <= T <= ask_now x →
  endpoint_Allow (ask_endpoint x) (ask_agent x) (ask_ip x) (ask_now x) rl = (rl', (ok, retry)) →
  rl_limits rl' = limits ∧ limiter_inv rl' (if ok then allowed ++ [x] else allowed) (ask_now x) ∧
  (ok = true ↔ ∀ l, limits !! ask_endpoint x = Some l → below allowed x l) ∧
  (ok = false → retry = 3600 - Z.rem (ask_now x) 3600).
Proof.
  intros Hlim Hinv HT. pose proof Hinv as [Hw Hcnt]. unfold endpoint_Allow. rewrite Hlim. fold (ask_hour x).
  assert (Hh : Z.quot T 3600 <= ask_hour x) by (apply Z.quot_le_mono; lia).
  assert (Hsnoc : ∀ k h, how_many (λ a, k ∈ keys_of limits a ∧ ask_hour a = h) (allowed ++ [x])
    = how_many (λ a, k ∈ keys_of limits a ∧ ask_hour a = h) allowed + (if decide (k ∈ keys_of limits x ∧ h = ask_hour x) then 1 else 0)).
  { intros k h. rewrite how_many_snoc. f_equal. destruct (decide (k ∈ keys_of limits x ∧ ask_hour x = h)) as [[? <-]|Hn]; [by rewrite decide_True|].
    rewrite decide_False; [done|]. intros [? ->]. tauto. }
  destruct (limits !! ask_endpoint x) as [l|] eqn:El.
  - pose proof (checks_below rl allowed T x l Hlim Hinv (proj2 HT) El) as Hb. destruct (forallb _ _) eqn:Ef; intros [= <- <- <-].
    + cbn [rl_limits]. split; [done|]. destruct (dimensions_keys l _ (ask_agent x) (ask_ip x) (endpoints_plain _ _ El)) as (Hnd & _).
      destruct (rl_inc_all _ (ask_hour x) (rl_windows rl) Hnd (windows_later _ _ _ Hw Hh)) as [Hw' Hc'].
      assert (Hfold : foldl (λ ws d, rl_inc d.1 (ask_hour x) ws) (rl_windows rl) (dimensions l (ask_endpoint x) (ask_agent x) (ask_ip x))
        = foldl (λ ws k, rl_inc k (ask_hour x) ws) (rl_windows rl) (dimensions l (ask_endpoint x) (ask_agent x) (ask_ip x)).*1).
      { generalize (rl_windows rl). generalize (dimensions l (ask_endpoint x) (ask_agent x) (ask_ip x)). intros ds. induction ds as [|d ds IHd]; intros ws; [done|]. apply IHd. }
      assert (Hkeys : keys_of limits x = (dimensions l (ask_endpoint x) (ask_agent x) (ask_ip x)).*1) by (unfold keys_of; by rewrite El).
      rewrite Hfold. split; [|split; [|done]].
      * split; [done|]. cbn [rl_windows rl_limits]. intros k h Hkh. fold (ask_hour x) in Hkh. rewrite Hc', Hcnt, Hlim, Hsnoc by lia. by rewrite Hkeys.
      * split; [|done]. intros _ l' [= <-]. by apply Hb.
    + split; [done|]. split; [split; [by eapply windows_later|]; intros k h Hkh; apply Hcnt; unfold ask_hour in Hh; lia|]. split; [|done].
      split; [done|]. intros Hall. discriminate (proj2 Hb (Hall l eq_refl)).
  - intros [= <- <- <-]. split; [done|]. split; [|split; [split; [intros _ l' [=]|done]|intros [=]]]. split; [by eapply windows_later|]. intros k h Hkh. rewrite Hlim, Hsnoc, Hcnt, Hlim by (unfold ask_hour in Hh; lia).
    rewrite decide_False; [lia|]. intros [Hin _]. unfold keys_of in Hin. rewrite El in Hin. by apply not_elem_of_nil in Hin.
Qed.

(** No limit is exceeded in any hour. *)
Definition within (allowed : list Ask) : Prop := ∀ e l, limits !! e = Some l → ∀ h,
  (∀ a, a ≠ "" → 0 < PerAgentPerHr l → how_many (for_agent e a h) allowed <= PerAgentPerHr l) ∧
  (∀ i, i ≠ "" → 0 < PerIPPerHr l → how_many (for_ip e i h) allowed <= PerIPPerHr l) ∧
  (0 < GlobalPerHr l → how_many (for_endpoint e h) allowed <= GlobalPerHr l).

Lemma within_nil : within [].
Proof. intros e l _ h. unfold how_many. cbn. split_and!; intros; lia. Qed.

Lemma within_snoc allowed x : within allowed → (∀ l, limits !! ask_endpoint x = Some l → below allowed x l) → within (allowed ++ [x]).
Proof.
  intros Hw Hb e l He h. destruct (Hw e l He h) as (H1 & H2 & H3). split_and!.
  - intros a Ha Hl. rewrite how_many_snoc. case_decide as Hx; [|specialize (H1 a Ha Hl); lia]. destruct Hx as (<- & <- & <-). destruct (Hb l He) as (Hlt & _). specialize (Hlt Ha Hl). lia.
  - intros i Hi Hl. rewrite how_many_snoc. case_decide as Hx; [|specialize (H2 i Hi Hl); lia]. destruct Hx as (<- & <- & <-). destruct (Hb l He) as (_ & Hlt & _). specialize (Hlt Hi Hl). lia.
  - intros Hl. rewrite how_many_snoc. case_decide as Hx; [|specialize (H3 Hl); lia]. destruct Hx as (<- & <-). destruct (Hb l He) as (_ & _ & Hlt). specialize (Hlt Hl). lia.
Qed.

Lemma limiter_run_inv asks : ∀ T rl allowed rl' rest, rl_limits rl = limits → limiter_inv rl allowed T → within allowed → 0 <= T → asks_ordered T asks →
  limiter_run asks rl = (rl', rest) →
  ∃ T', T <= T' ∧ (∀ y, asks_ordered T (asks ++ [y]) → T' <= ask_now y) ∧ rl_limits rl' = limits ∧ limiter_inv rl' (allowed ++ rest) T' ∧ within (allowed ++ rest).
Proof.
  induction asks as [|x asks IH]; intros T rl allowed rl' rest Hlim Hinv Hin HT Hord; cbn [limiter_run].
  { intros [= <- <-]. exists T. rewrite app_nil_r. split_and!; [done| |done|done|done]. by intros y [? _]. }
  destruct Hord as [Hx Hord]. destruct (endpoint_Allow _ _ _ _ rl) as [rl1 [ok retry]] eqn:Ea. destruct (limiter_run asks rl1) as [rl2 r2] eqn:Er. intros [= <- <-].
  destruct (endpoint_Allow_step rl allowed T x rl1 ok retry Hlim Hinv (conj HT Hx) Ea) as (Hlim1 & Hinv1 & Hok & _).
  assert (Hin1 : within (if ok then allowed ++ [x] else allowed)) by (destruct ok; [apply within_snoc; [done|by apply Hok]|done]).
  destruct (IH (ask_now x) rl1 _ rl2 r2 Hlim1 Hinv1 Hin1 ltac:(lia) Hord Er) as (T' & HT' & Hlast & Hlim2 & Hinv2 & Hin2).
  exists T'. split; [lia|]. split; [intros y [_ Hy]; by apply Hlast|]. split; [done|]. destruct ok; [by rewrite <- app_assoc in Hinv2, Hin2|done].
Qed.
End endpoint.

(** C18: the limits by the hour are exact.  After any requests on a new limiter, the clock not running backwards, a request
    for a configured endpoint is allowed if and only if, in its hour, fewer requests than the limit were
    allowed for the endpoint, for its agent there and for its address there, each as far as a limit is set; a refused one is
    told the seconds to the next hour; and in no hour was a limit exceeded.  Endpoints have no colon. *)
Theorem endpoint_allow_exact limits T asks rl allowed x :
  (∀ e l, limits !! e = Some l → no_colon e) → 0 <= T → asks_ordered T (asks ++ [x]) → limiter_run asks (NewEndpointRateLimiter limits) = (rl, allowed) →
  within limits allowed ∧
  ∃ rl' ok retry, endpoint_Allow (ask_endpoint x) (ask_agent x) (ask_ip x) (ask_now x) rl = (rl', (ok, retry)) ∧
    (ok = true ↔ ∀ l, limits !! ask_endpoint x = Some l → below allowed x l) ∧
    (ok = false → 1 <= retry <= 3600 ∧ (ask_now x + retry) mod 3600 = 0).
Proof.
  intros Hp HT Hord Hrun. assert (Hord' : asks_ordered T asks) by (clear -Hord; revert T Hord; induction asks as [|y asks IH]; intros T; [done|]; intros [? ?]; split; [done|by apply IH]).
  assert (Hinv : limiter_inv (NewEndpointRateLimiter limits) [] T) by (split; [by intros k w Hk|done]).
  destruct (limiter_run_inv limits Hp asks T (NewEndpointRateLimiter limits) [] rl allowed eq_refl Hinv (within_nil limits) HT Hord' Hrun) as (T' & HT' & Hlast & Hlim & Hinv' & Hin).
  split; [done|]. destruct (endpoint_Allow _ _ _ _ rl) as [rl' [ok retry]] eqn:Ea. exists rl', ok, retry. split; [done|].
  pose proof (Hlast x Hord) as Hnow. assert (Hpos : 0 <= T' <= ask_now x) by lia.
  destruct (endpoint_Allow_step limits Hp rl allowed T' x rl' ok retry Hlim Hinv' Hpos Ea) as (_ & _ & Hok & Hr). split; [done|].
  intros Hf. rewrite (Hr Hf). rewrite Z.rem_mod_nonneg by lia. Z.to_euclidean_division_equations; lia.
Qed.

(** An agent's signed requests of an hour: the first is always allowed, further ones as long as there were fewer than the limit. *)
Theorem agent_Allow_spec a now l l' ok : windows_to (al_counts l) (Z.quot now 3600) → (∀ k w, al_counts l !! k = Some w → 1 <= aw_count w) →
  agent_Allow a now l = (l', ok) →
  (ok = true ↔ in_window (al_counts l) a (Z.quot now 3600) = 0 ∨ in_window (al_counts l) a (Z.quot now 3600) < al_maxPerHr l) ∧
  al_maxPerHr l' = al_maxPerHr l ∧ windows_to (al_counts l') (Z.quot now 3600) ∧ (∀ k w, al_counts l' !! k = Some w → 1 <= aw_count w) ∧
  ∀ k h, Z.quot now 3600 <= h → in_window (al_counts l') k h = in_window (al_counts l) k h + (if decide (ok = true ∧ k = a ∧ h = Z.quot now 3600) then 1 else 0).
Proof.
  intros Hw Hpos. set (hour := Z.quot now 3600) in *. destruct (rl_inc_spec a hour (al_counts l) Hw) as [Hw' Hc'].
  assert (Hinc : ∀ l1, l1 = mkAgentLimiter (rl_inc a hour (al_counts l)) (al_maxPerHr l) →
    al_maxPerHr l1 = al_maxPerHr l ∧ windows_to (al_counts l1) hour ∧ (∀ k w, al_counts l1 !! k = Some w → 1 <= aw_count w) ∧
    ∀ k h, hour <= h → in_window (al_counts l1) k h = in_window (al_counts l) k h + (if decide (true = true ∧ k = a ∧ h = hour) then 1 else 0)).
  { intros l1 ->. cbn [al_counts al_maxPerHr]. split_and!; [done|done| |].
    - intros k w. unfold rl_inc. destruct (al_counts l !! a) as [w0|] eqn:E; [pose proof (Hpos _ _ E); case_decide|]; intros [[<- <-]|[_ Hk]]%lookup_insert_Some; cbn; try lia; by eapply Hpos.
    - intros k h Hh. rewrite Hc' by done. f_equal. destruct (decide (k = a ∧ h = hour)); [by rewrite decide_True|by rewrite decide_False by tauto]. }
  unfold agent_Allow. fold hour. unfold in_window at 1 2. unfold rl_inc in Hinc. clear Hc' Hw'. destruct (al_counts l !! a) as [w|] eqn:E.
  - pose proof (Hpos _ _ E). destruct (decide (aw_windowAt w ≠ hour)) as [Hat|Hat].
    + rewrite (decide_False (P := aw_windowAt w = hour)) by done. intros Eq. injection Eq as <- <-. split; [split; [by left|done]|]. by apply Hinc.
    + apply dec_stable in Hat. rewrite (decide_True (P := aw_windowAt w = hour)) by done. destruct (decide (al_maxPerHr l <= aw_count w)) as [Hm|Hm]; intros Eq; [apply pair_equal_spec in Eq as [<- <-]|injection Eq as <- <-].
      * split; [split; [done|lia]|]. split_and!; [done|done|done|]. intros k h Hh. rewrite decide_False by (by intros [? _]). lia.
      * split; [split; [lia|done]|]. by apply Hinc.
  - intros Eq. injection Eq as <- <-. split; [split; [by left|done]|]. by apply Hinc.
Qed.

(** * What happens on concrete requests *)

Module DemoAuth.

Definition nonce1 : string := "000102030405060708090a0b0c0d0e0f".
Definition signature1 : string := hex_encode (replicate 64 7).

Definition headers (l : list (string * string)) (h : string) : string := default "" ((list_to_map l : gmap string string) !! h).

Definition request (ts : string) : Request := mkRequest "POST" "/v1/tasks"
  (headers [("X-Aethernet-Agent-ID", "alice"); ("X-Aethernet-Timestamp", ts); ("X-Aethernet-Nonce", nonce1); ("X-Aethernet-Signature", signature1)]) "{}".

Definition registry : AgentID → option CapabilityFingerprint :=
  λ a, if decide (a = "alice") then Some (mkFP a "" (replicate 32 1) [] 0 0 0 0 0 0 0 0 0 1 "") else None.

(** Only the request at 1000 is signed. *)
Definition ed : Ed25519 := {|
  ed25519_Sign _ _ := replicate 64 7;
  ed25519_Verify _ d _ := bool_decide (d = BuildCanonicalString "POST" "/v1/tasks" "alice" nonce1 1000 (sha256_hex "{}"));
|}.

Definition demo_calls : list auth_op :=
  [OpVerify registry (request "1000") 1010 1011; OpVerify registry (request "1000") 1020 1020; OpCleanup 1300; OpVerify registry (request "1000") 1030 1500].

Definition auth1 : RequestAuth := mkRequestAuth "alice" (replicate 32 1) 1000 nonce1.

Definition meta := BrokenStore unit.

Example accepted_one : (@auth_run meta _ ed demo_calls (NewBadgerNonceStore None)).2 = [auth1].
Proof. vm_compute. reflexivity. Qed.

(** The least int64 below the clock has no absolute value: the timestamp 1010 - 2^63 is as good as 1010. *)
Example skew_wraps : abs64 (i64 (1010 - (1010 - 2 ^ 63))) = - 2 ^ 63 ∧ ParseInt "-9223372036854774798" = Some (1010 - 2 ^ 63).
Proof. by vm_compute. Qed.

(** ** Transactions *)

Definition any_ed : Ed25519 := {| ed25519_Sign _ _ := replicate 64 7; ed25519_Verify _ _ _ := true |}.

Definition tx_request (created expires : string) : Request := mkRequest "POST" "/v1/transfer"
  (headers [("X-AetherNet-Version", TxVersion); ("X-AetherNet-Chain-ID", "c"); ("X-AetherNet-Actor", "alice"); ("X-AetherNet-Created", created);
            ("X-AetherNet-Expires", expires); ("X-AetherNet-Nonce", nonce1); ("X-AetherNet-Signature", signature1)]) "{}".

Definition keys (actor : string) : option (list Z) := Some (replicate 32 1).

Definition tx_ops : list tx_op :=
  [OpTx (tx_request "1000" "1100") "c" keys false 1010 1011; OpTx (tx_request "1000" "1100") "c" keys false 1020 1020; OpTxCleanup 1300].

Definition tx1 : Transaction := mkTx TxVersion "c" "alice" "POST" "/v1/transfer" (@body_hash sample_lib "{}") 1000 1100 nonce1.

Example executed_one : (@tx_run meta _ sample_lib any_ed tx_ops (NewTxIDStore None)).2 = [tx1].
Proof. vm_compute. reflexivity. Qed.

(** [expiresAt - createdAt] wraps around for a creation time far in the past: the lifetime limit of two minutes is passed, and
    the transaction is accepted for days; once its ID is forgotten it is executed again when nothing is persisted. *)
Definition endless : Request := tx_request "-9223372036854775800" "1000000".

Example lifetime_wraps :
  length (@tx_run meta _ sample_lib any_ed [OpTx endless "c" keys false 1000 1000; OpTxCleanup 2000; OpTx endless "c" keys false 3000 3000] (NewTxIDStore None)).2 = 2%nat.
Proof. vm_compute. reflexivity. Qed.

(** [IsSeen] and [MarkSeen] lock the store one after the other, and the answer of [MarkSeen] is not looked at: two handlers
    of the same transaction that both read before either marks both go on. *)
Example replay_race (txID : string) (now : Z) : let s0 := NewTxIDStore (St := meta) None in
  txid_read txID false s0 = None ∧ txid_read txID false s0 = None ∧ (MarkSeen txID now (txid_mark txID now s0)).2 = true.
Proof.
  intros s0. split_and!; [unfold txid_read, IsSeen; cbn; by rewrite lookup_empty|unfold txid_read, IsSeen; cbn; by rewrite lookup_empty|].
  unfold txid_mark, MarkSeen, see. cbn. rewrite lookup_empty. cbn. by rewrite lookup_insert_eq.
Qed.

(** The body is hashed in its canonical form, where numbers are float64: these two bodies differ in the amount and have one hash. *)
Definition amounts_lib : JsonLib := {|
  FormatFloat _ := "";
  int64_out_of_range z := z;
  Unmarshal s := if decide (s = "{amount:9007199254740992}") then Some (JObject [("amount", JNumber (f64_of_u64 9007199254740992))])
                 else if decide (s = "{amount:9007199254740993}") then Some (JObject [("amount", JNumber (f64_of_u64 9007199254740993))]) else None;
|}.

Example amounts_share_hash : @body_hash amounts_lib "{amount:9007199254740992}" = @body_hash amounts_lib "{amount:9007199254740993}".
Proof. vm_compute. reflexivity. Qed.

(** ** Limits *)

Definition ask (agent : string) (now : Z) : Ask := mkAsk "/v1/faucet" agent "10.0.0.1" now.

Definition asks : list Ask := [ask "a" 10; ask "a" 20; ask "b" 30; ask "c" 40; ask "d" 50; ask "a" 3700].

Example faucet_limits : (limiter_run asks (NewEndpointRateLimiter DefaultLimits)).2 = [ask "a" 10; ask "b" 30; ask "c" 40; ask "a" 3700].
Proof. vm_compute. reflexivity. Qed.

Lemma DefaultLimits_plain e l : DefaultLimits !! e = Some l → no_colon e.
Proof.
  assert (H : map_Forall (λ e _, no_colon e) DefaultLimits) by (apply (bool_decide_unpack _); vm_compute; done). intros He. by apply (H e l).
Qed.

End DemoAuth.

Lemma request_accepted_once_witness : let acc := (@auth_run DemoAuth.meta _ DemoAuth.ed DemoAuth.demo_calls (NewBadgerNonceStore None)).2 in
  acc = [DemoAuth.auth1] ∧ NoDup (stamp <$> acc).
Proof.
  cbv zeta. split; [exact DemoAuth.accepted_one|].
  refine (proj1 (@request_accepted_once DemoAuth.meta _ DemoAuth.ed None 1000 DemoAuth.demo_calls (@auth_run DemoAuth.meta _ DemoAuth.ed DemoAuth.demo_calls (NewBadgerNonceStore None)).1 _ _ _)).
  - cbn. lia.
  - apply surjective_pairing.
Defined.

Lemma DemoAuth_http_ok ts : no_nl ts → http_ok (DemoAuth.request ts).
Proof.
  intros Hts. split; [done|]. intros h. cbn [DemoAuth.request rq_Header]. unfold DemoAuth.headers. destruct (list_to_map _ !! h) as [v|] eqn:E; [|done].
  apply elem_of_list_to_map_2 in E. rewrite !elem_of_cons in E. destruct E as [[= _ ->]|[[= _ ->]|[[= _ ->]|[[= _ ->]|E]]]]; [done|done|done|by vm_compute|by apply not_elem_of_nil in E].
Qed.

Lemma signature_binds_request_witness :
  let r := DemoAuth.request "1000" in let r' := DemoAuth.request "+1000" in
  (@VerifyRequest DemoAuth.meta _ DemoAuth.ed DemoAuth.registry r 1010 1010 None).2 = inr DemoAuth.auth1 ∧
  rq_Method r = rq_Method r' ∧ rq_Path r = rq_Path r' ∧ stamp DemoAuth.auth1 = stamp DemoAuth.auth1 ∧ (rq_Body r = rq_Body r' ∨ (rq_Body r ≠ rq_Body r' ∧ sha256_hex (rq_Body r) = sha256_hex (rq_Body r'))).
Proof.
  cbv zeta. split; [vm_compute; reflexivity|].
  apply (@signature_binds_request DemoAuth.meta _ DemoAuth.ed DemoAuth.registry DemoAuth.registry (DemoAuth.request "1000") (DemoAuth.request "+1000") 1010 1010 1010 1010 None None None None DemoAuth.auth1 DemoAuth.auth1).
  - by apply DemoAuth_http_ok.
  - by apply DemoAuth_http_ok.
  - vm_compute. reflexivity.
  - vm_compute. reflexivity.
  - reflexivity.
  - intros sig _ pk1 pk2 d1 d2 H1%bool_decide_eq_true H2%bool_decide_eq_true. congruence.
Defined.

Lemma tx_executed_once_witness : let acc := (@tx_run DemoAuth.meta _ sample_lib DemoAuth.any_ed DemoAuth.tx_ops (NewTxIDStore None)).2 in
  acc = [DemoAuth.tx1] ∧ NoDup acc.
Proof.
  cbv zeta. split; [exact DemoAuth.executed_one|].
  refine (proj1 (@tx_executed_once DemoAuth.meta _ sample_lib DemoAuth.any_ed None 1000 DemoAuth.tx_ops (@tx_run DemoAuth.meta _ sample_lib DemoAuth.any_ed DemoAuth.tx_ops (NewTxIDStore None)).1 _ _ _)).
  - assert (Hl : lifetime_exact (DemoAuth.tx_request "1000" "1100")) by (intros c e Hc He; vm_compute in Hc, He; injection Hc as <-; injection He as <-; unfold is_i64; lia).
    cbn [tx_clock DemoAuth.tx_ops]. split_and!; try exact Hl; lia.
  - apply surjective_pairing.
Defined.

Lemma endpoint_allow_exact_witness : let '(rl, allowed) := limiter_run DemoAuth.asks (NewEndpointRateLimiter DefaultLimits) in
  length allowed = 4%nat ∧ within DefaultLimits allowed.
Proof.
  destruct (limiter_run DemoAuth.asks (NewEndpointRateLimiter DefaultLimits)) as [rl allowed] eqn:E. split.
  - assert (Ha : allowed = (limiter_run DemoAuth.asks (NewEndpointRateLimiter DefaultLimits)).2) by (by rewrite E). rewrite Ha, DemoAuth.faucet_limits. reflexivity.
  - apply (endpoint_allow_exact DefaultLimits 0 DemoAuth.asks rl allowed (DemoAuth.ask "a" 3800) DemoAuth.DefaultLimits_plain).
    + lia.
    + cbn. lia.
    + exact E.
Defined.
