(* ===== verification/Registry.v ===== *)
(** internal/validator/registry.go and slashing.go: the registry of verification nodes and the penalties for offences.

    A [time.Time] is the number of nanoseconds since 1970; the zero time is the first of January of year 1.  The JSON of a
    record is abstracted by the class [Persistence]. *)

From S2P Require Import Prelude GoStd Store Float64.
#[local] Open Scope Z_scope.

Definition zero_time : Z := -62135596800000000000.

(** [t.Sub(u)] saturates. *)
Definition time_Sub (t u : Z) : Z := Z.max (- 2 ^ 63) (Z.min (2 ^ 63 - 1) (t - u)).

(** [time.Duration(days) * 24 * time.Hour]. *)
Definition days_Duration (days : Z) : Z := i64 (i64 (days * 24) * 3600000000000).

Inductive ValidatorStatus := StatusProbationary | StatusActive | StatusSuspended | StatusExcluded.

#[global] Instance ValidatorStatus_eq_dec : EqDecision ValidatorStatus.
Proof. solve_decision. Defined.

(** [config.ValidatorConfig], the fields that the package reads. *)
Record ValidatorConfig := mkVConfig {
  StakeBaseMinimum : Z; StakeVolumeMultiple : F64; StakeTaskSizeMultiple : F64; StakeGracePeriod : Z;
  ProbationDuration : Z; ProbationMinTasks : Z; ProbationMinAccuracy : F64; ProbationMaxCycles : Z; GenesisSkipProbation : bool;
  AssignmentCalibrationWeak : F64; AssignmentCalibrationModerate : F64; AssignmentCalibrationStrong : F64; AssignmentProbationModifier : F64;
  CapBelow10Validators : F64; CapAtOrAbove10Validators : F64; CapEnforcementMinValidators : Z; CapEpochHours : Z;
  ClusterPairwiseThresholdDeterministic : F64; ClusterPairwiseThresholdNonDeterministic : F64; ClusterPairwiseMinShared : Z;
  SlashFraudulentApprovalBP : Z; SlashDishonestReplayBP : Z; SlashCollusionBP : Z;
  CooldownTier1Days : Z; CooldownTier2Days : Z; CooldownTier3Days : Z; CollusionRepeatExclusion : bool;
}.

(** [DefaultConfig().Validator]. *)
Definition DefaultValidatorConfig : ValidatorConfig :=
  mkVConfig 10000000000 (f64_round 1 2) (f64_round 3 10) 7 30 50 (f64_round 7 10) 3 true
    (f64_round 7 10) (f64_round 1 1) (f64_round 12 10) (f64_round 3 10) (f64_round 20 100) (f64_round 15 100) 5 24
    (f64_round 98 100) (f64_round 95 100) 50 3000 4000 7500 30 60 180 true.

Record Validator := mkValidator {
  v_ID : string; v_AgentID : string; v_StakeAmount : Z; v_RequiredStake : Z; v_Status : ValidatorStatus; v_Categories : list string;
  v_ProbationStartedAt : Z; v_ProbationCycle : Z; v_ProbationTaskCount : Z; v_ProbationAccuracy : F64;
  v_ActivatedAt : Z; v_SuspendedAt : Z; v_SuspendedUntil : Z; v_SuspensionReason : string;
  v_RegisteredAt : Z; v_LastStakeCheck : Z; v_IsGenesis : bool; v_SlashCount : Z; v_LastSlashOffense : string;
}.

Inductive RegistryError :=
  | ErrRegistryValidatorNotFound | ErrInsufficientStake | ErrProbationInProgress | ErrMaxProbationCyclesExceeded
  | ErrWrongStatus (current : ValidatorStatus) | ErrPersist | ErrSlashInCooldown | ErrSlashPermanentlyExcluded
  | ErrSlashUnknownOffense | ErrSlashValidatorNotFound.

(** Field updates. *)
Definition v_set_check (required check : Z) (v : Validator) : Validator :=
  mkValidator (v_ID v) (v_AgentID v) (v_StakeAmount v) required (v_Status v) (v_Categories v) (v_ProbationStartedAt v) (v_ProbationCycle v)
    (v_ProbationTaskCount v) (v_ProbationAccuracy v) (v_ActivatedAt v) (v_SuspendedAt v) (v_SuspendedUntil v) (v_SuspensionReason v)
    (v_RegisteredAt v) check (v_IsGenesis v) (v_SlashCount v) (v_LastSlashOffense v).

Definition v_set_status (status : ValidatorStatus) (v : Validator) : Validator :=
  mkValidator (v_ID v) (v_AgentID v) (v_StakeAmount v) (v_RequiredStake v) status (v_Categories v) (v_ProbationStartedAt v) (v_ProbationCycle v)
    (v_ProbationTaskCount v) (v_ProbationAccuracy v) (v_ActivatedAt v) (v_SuspendedAt v) (v_SuspendedUntil v) (v_SuspensionReason v)
    (v_RegisteredAt v) (v_LastStakeCheck v) (v_IsGenesis v) (v_SlashCount v) (v_LastSlashOffense v).

Definition v_set_activated (at_ : Z) (v : Validator) : Validator :=
  mkValidator (v_ID v) (v_AgentID v) (v_StakeAmount v) (v_RequiredStake v) (v_Status v) (v_Categories v) (v_ProbationStartedAt v) (v_ProbationCycle v)
    (v_ProbationTaskCount v) (v_ProbationAccuracy v) at_ (v_SuspendedAt v) (v_SuspendedUntil v) (v_SuspensionReason v)
    (v_RegisteredAt v) (v_LastStakeCheck v) (v_IsGenesis v) (v_SlashCount v) (v_LastSlashOffense v).

Definition v_set_suspension (at_ until_ : Z) (reason : string) (v : Validator) : Validator :=
  mkValidator (v_ID v) (v_AgentID v) (v_StakeAmount v) (v_RequiredStake v) (v_Status v) (v_Categories v) (v_ProbationStartedAt v) (v_ProbationCycle v)
    (v_ProbationTaskCount v) (v_ProbationAccuracy v) (v_ActivatedAt v) at_ until_ reason
    (v_RegisteredAt v) (v_LastStakeCheck v) (v_IsGenesis v) (v_SlashCount v) (v_LastSlashOffense v).

Definition v_set_probation (started cycle count : Z) (accuracy : F64) (v : Validator) : Validator :=
  mkValidator (v_ID v) (v_AgentID v) (v_StakeAmount v) (v_RequiredStake v) (v_Status v) (v_Categories v) started cycle
    count accuracy (v_ActivatedAt v) (v_SuspendedAt v) (v_SuspendedUntil v) (v_SuspensionReason v)
    (v_RegisteredAt v) (v_LastStakeCheck v) (v_IsGenesis v) (v_SlashCount v) (v_LastSlashOffense v).

Definition v_set_slash (stake count : Z) (offense : string) (v : Validator) : Validator :=
  mkValidator (v_ID v) (v_AgentID v) stake (v_RequiredStake v) (v_Status v) (v_Categories v) (v_ProbationStartedAt v) (v_ProbationCycle v)
    (v_ProbationTaskCount v) (v_ProbationAccuracy v) (v_ActivatedAt v) (v_SuspendedAt v) (v_SuspendedUntil v) (v_SuspensionReason v)
    (v_RegisteredAt v) (v_LastStakeCheck v) (v_IsGenesis v) count offense.

Record ValidatorRegistry (St : Type) := mkRegistry {
  vg_validators : gmap string Validator; vg_byAgent : gmap string string; vg_store : option St; vg_cfg : ValidatorConfig;
  vg_trailing30dVolume : Z; vg_maxRecentTaskSize : Z;
}.
Arguments mkRegistry {St} _ _ _ _ _ _.
Arguments vg_validators {St} _.
Arguments vg_byAgent {St} _.
Arguments vg_store {St} _.
Arguments vg_cfg {St} _.
Arguments vg_trailing30dVolume {St} _.
Arguments vg_maxRecentTaskSize {St} _.

(** Only the base minimum binds a registration: there is no volume yet. *)
Definition ComputeRequiredStake `{!F64Conv} (cfg : ValidatorConfig) (trailing30dAssuredVolume activeValidatorCount maxRecentAssuredTask : Z) : Z :=
  let divisor := Z.max 1 activeValidatorCount in
  let volumeComponent := f64_to_u64 (f64_div (f64_mul (StakeVolumeMultiple cfg) (f64_of_u64 trailing30dAssuredVolume)) (f64_of_u64 divisor)) in
  let taskSizeComponent := f64_to_u64 (f64_mul (StakeTaskSizeMultiple cfg) (f64_of_u64 maxRecentAssuredTask)) in
  Z.max (Z.max (StakeBaseMinimum cfg) volumeComponent) taskSizeComponent.

Definition generateValidatorID (agentID : string) (now : Z) : string :=
  hex_encode (take 16 (Sha256.Sum256 (bytes_of_string (agentID +:+ "|" +:+ pretty (i64 now))))).

Definition is_working (v : Validator) : bool := bool_decide (v_Status v = StatusActive ∨ v_Status v = StatusProbationary).

Section registry.
Context {St : Type} `{!Persistence St Validator, !F64Conv, !RangeOrder}.
Implicit Types r : ValidatorRegistry St.

Definition NewValidatorRegistry (cfg : ValidatorConfig) (s : option St) : ValidatorRegistry St := mkRegistry ∅ ∅ s cfg 0 0.

(** A record that does not parse makes [store_all] fail. *)
Definition vg_LoadFromStore (cfg : ValidatorConfig) (s : option St) : option (ValidatorRegistry St) :=
  match s with
  | None => Some (NewValidatorRegistry cfg None)
  | Some st =>
      match store_all st with
      | None => None
      | Some vs => Some (mkRegistry (load_all v_ID vs) (foldl (λ m v, <[v_AgentID v := v_ID v]> m) ∅ vs) (Some st) cfg 0 0)
      end
  end.

Definition SetTrailingStats (volume maxTask : Z) r : ValidatorRegistry St :=
  mkRegistry (vg_validators r) (vg_byAgent r) (vg_store r) (vg_cfg r) volume maxTask.

Definition vg_set_validators (vs : gmap string Validator) r : ValidatorRegistry St :=
  mkRegistry vs (vg_byAgent r) (vg_store r) (vg_cfg r) (vg_trailing30dVolume r) (vg_maxRecentTaskSize r).

Definition vg_set_byAgent (m : gmap string string) r : ValidatorRegistry St :=
  mkRegistry (vg_validators r) m (vg_store r) (vg_cfg r) (vg_trailing30dVolume r) (vg_maxRecentTaskSize r).

(** [persist]: without a store nothing is written. *)
Definition vg_persist (v : Validator) r : ValidatorRegistry St * bool :=
  match vg_store r with
  | None => (r, true)
  | Some st =>
      let '(st, ok) := store_put v st in
      (mkRegistry (vg_validators r) (vg_byAgent r) (Some st) (vg_cfg r) (vg_trailing30dVolume r) (vg_maxRecentTaskSize r), ok)
  end.

(** The record is changed in place and then persisted. *)
Definition vg_write (v : Validator) r : ValidatorRegistry St * bool := vg_persist v (vg_set_validators (<[v_ID v := v]> (vg_validators r)) r).

Definition vg_Register (agentID : string) (stakeAmount : Z) (categories : list string) (isGenesis : bool) (now : Z) r : ValidatorRegistry St * (RegistryError + Validator) :=
  let required := ComputeRequiredStake (vg_cfg r) 0 0 0 in
  if decide (stakeAmount < required) then (r, inl ErrInsufficientStake)
  else
    let skip := isGenesis && GenesisSkipProbation (vg_cfg r) in
    let v := mkValidator (generateValidatorID agentID now) agentID stakeAmount required (if skip then StatusActive else StatusProbationary) categories
               (if skip then zero_time else now) 1 0 (mkF64 0 1) zero_time zero_time zero_time "" now now isGenesis 0 "" in
    let '(r, ok) := vg_persist v r in
    if ok : bool then (vg_set_byAgent (<[agentID := v_ID v]> (vg_byAgent r)) (vg_set_validators (<[v_ID v := v]> (vg_validators r)) r), inr v)
    else (r, inl ErrPersist).

Definition ActiveEligibleCount r : Z := Z.of_nat (length (filter (λ v, is_working v) (map_to_list (vg_validators r)).*2)).

(** The body of the loop of [CheckStakeRequirements]. *)
Definition check_stake (required now graceDur : Z) r (v : Validator) : ValidatorRegistry St :=
  if negb (is_working v) then r
  else if decide (required <= v_StakeAmount v) then (vg_write (v_set_check required now v) r).1
  else
    let v := v_set_check required (v_LastStakeCheck v) v in
    if decide (time_Sub now (v_LastStakeCheck v) <= graceDur) then vg_set_validators (<[v_ID v := v]> (vg_validators r)) r
    else (vg_write (v_set_suspension now (v_SuspendedUntil v) "stake_below_minimum" (v_set_status StatusSuspended v)) r).1.

Definition CheckStakeRequirements (now : Z) r : ValidatorRegistry St :=
  let required := ComputeRequiredStake (vg_cfg r) (vg_trailing30dVolume r) (ActiveEligibleCount r) (vg_maxRecentTaskSize r) in
  foldl (check_stake required now (days_Duration (StakeGracePeriod (vg_cfg r)))) r (range_map (vg_validators r)).

Definition probation_met (cfg : ValidatorConfig) (v : Validator) : bool :=
  bool_decide (ProbationMinTasks cfg <= v_ProbationTaskCount v) && f64_leb (ProbationMinAccuracy cfg) (v_ProbationAccuracy v).

Definition EvaluateProbation (validatorID : string) (now : Z) r : ValidatorRegistry St * option RegistryError :=
  match vg_validators r !! validatorID with
  | None => (r, Some ErrRegistryValidatorNotFound)
  | Some v =>
      if decide (v_Status v ≠ StatusProbationary) then (r, Some (ErrWrongStatus (v_Status v)))
      else if decide (time_Sub now (v_ProbationStartedAt v) < days_Duration (ProbationDuration (vg_cfg r))) then (r, Some ErrProbationInProgress)
      else if probation_met (vg_cfg r) v then
        let '(r', ok) := vg_write (v_set_activated now (v_set_status StatusActive v)) r in
        if ok : bool then (r', None)
        else (vg_set_validators (<[v_ID v := v_set_activated zero_time v]> (vg_validators r')) r', Some ErrPersist)
      else
        let cycle := v_ProbationCycle v + 1 in
        if decide (ProbationMaxCycles (vg_cfg r) < cycle) then
          let v := v_set_status StatusExcluded (v_set_probation (v_ProbationStartedAt v) cycle (v_ProbationTaskCount v) (v_ProbationAccuracy v) v) in
          let r := (vg_write v r).1 in
          (vg_set_byAgent (delete (v_AgentID v) (vg_byAgent r)) r, Some ErrMaxProbationCyclesExceeded)
        else ((vg_write (v_set_probation now cycle 0 (mkF64 0 1) v) r).1, None)
  end.

(** The running mean. *)
Definition next_accuracy (accuracy : F64) (count : Z) (passed : bool) : F64 :=
  f64_div (f64_add (f64_mul accuracy (f64_of_u64 count)) (if passed then f64_one else mkF64 0 1)) (f64_of_u64 (count + 1)).

Definition RecordProbationTask (validatorID : string) (passed : bool) r : ValidatorRegistry St * option RegistryError :=
  match vg_validators r !! validatorID with
  | None => (r, Some ErrRegistryValidatorNotFound)
  | Some v =>
      if decide (v_Status v ≠ StatusProbationary) then (r, Some (ErrWrongStatus (v_Status v)))
      else
        let '(r, ok) := vg_write (v_set_probation (v_ProbationStartedAt v) (v_ProbationCycle v) (v_ProbationTaskCount v + 1)
                                    (next_accuracy (v_ProbationAccuracy v) (v_ProbationTaskCount v) passed) v) r in
        (r, if ok : bool then None else Some ErrPersist)
  end.

Definition ResetProbationOnSlash (validatorID : string) (now : Z) r : ValidatorRegistry St * option RegistryError :=
  match vg_validators r !! validatorID with
  | None => (r, Some ErrRegistryValidatorNotFound)
  | Some v =>
      if decide (v_Status v ≠ StatusProbationary) then (r, None)
      else
        let '(r, ok) := vg_write (v_set_probation now (v_ProbationCycle v + 1) 0 (mkF64 0 1) v) r in
        (r, if ok : bool then None else Some ErrPersist)
  end.

Definition ApplySlash (validatorID : string) (slashAmount : Z) (offense : string) (cooldownUntil : Z) (permanent : bool) (now : Z) r :
    ValidatorRegistry St * (RegistryError + Validator) :=
  match vg_validators r !! validatorID with
  | None => (r, inl ErrRegistryValidatorNotFound)
  | Some v =>
      let slashAmount := Z.min slashAmount (v_StakeAmount v) in
      let v := v_set_slash (v_StakeAmount v - slashAmount) (v_SlashCount v + 1) offense v in
      let v := if permanent then v_set_suspension (v_SuspendedAt v) zero_time ("slashed:" +:+ offense +:+ ":permanent") (v_set_status StatusExcluded v)
               else v_set_suspension now cooldownUntil ("slashed:" +:+ offense) (v_set_status StatusSuspended v) in
      let r := if permanent then vg_set_byAgent (delete (v_AgentID v) (vg_byAgent r)) r else r in
      let '(r, ok) := vg_write v r in
      (r, if ok : bool then inr v else inl ErrPersist)
  end.

Definition ResumeFromSlash (validatorID : string) (now : Z) r : ValidatorRegistry St * option RegistryError :=
  match vg_validators r !! validatorID with
  | None => (r, Some ErrRegistryValidatorNotFound)
  | Some v =>
      if decide (v_Status v = StatusExcluded) then (r, Some ErrSlashPermanentlyExcluded)
      else if decide (v_Status v ≠ StatusSuspended) then (r, Some (ErrWrongStatus (v_Status v)))
      else if decide (v_SuspendedUntil v ≠ zero_time ∧ now < v_SuspendedUntil v) then (r, Some ErrSlashInCooldown)
      else
        let '(r, ok) := vg_write (v_set_suspension (v_SuspendedAt v) zero_time "" (v_set_status StatusActive v)) r in
        (r, if ok : bool then None else Some ErrPersist)
  end.

(** * Queries *)

Definition id_le (a b : Validator) : Prop := String.le (v_ID a) (v_ID b).

#[global] Instance id_le_dec a b : Decision (id_le a b).
Proof. unfold id_le. apply _. Defined.

Definition vg_ActiveValidators r : list Validator := sort_slice id_le (filter (λ v, is_working v) (range_map (vg_validators r))).

Definition ActiveValidatorsForCategory (category : string) r : list Validator :=
  sort_slice id_le (filter (λ v, is_working v ∧ category ∈ v_Categories v) (range_map (vg_validators r))).

Definition ActiveCountForCategory (category : string) r : Z :=
  Z.of_nat (length (filter (λ v, is_working v ∧ (v_Categories v = [] ∨ category ∈ v_Categories v)) (range_map (vg_validators r)))).

Definition vg_Get (validatorID : string) r : option Validator := vg_validators r !! validatorID.

Definition GetByAgentID (agentID : string) r : option Validator := id ← vg_byAgent r !! agentID; vg_validators r !! id.

Definition IsEligible (validatorID category : string) (now : Z) r : bool :=
  match vg_validators r !! validatorID with
  | None => false
  | Some v =>
      if negb (is_working v) then false
      else if decide (v_SuspendedUntil v ≠ zero_time ∧ now < v_SuspendedUntil v) then false
      else if decide (v_StakeAmount v < v_RequiredStake v) then false
      else bool_decide (category = "" ∨ category ∈ v_Categories v)
  end.

(** * slashing.go *)

Inductive SlashOffense := OffenseFraudulentApproval | OffenseDishonestReplay | OffenseCollusion | OffenseOther (s : string).

Definition offense_string (o : SlashOffense) : string :=
  match o with
  | OffenseFraudulentApproval => "fraudulent_approval" | OffenseDishonestReplay => "dishonest_replay"
  | OffenseCollusion => "collusion" | OffenseOther s => s
  end.

Record SlashResult := mkSlashResult {
  sr_ValidatorID : string; sr_Offense : SlashOffense; sr_SlashPercentageBP : Z; sr_SlashAmount : Z; sr_RemainingStake : Z;
  sr_CooldownDays : Z; sr_CooldownUntil : Z; sr_ChallengerShare : Z; sr_ReserveShare : Z; sr_PermanentExclusion : bool;
}.

Definition offenseParams (cfg : ValidatorConfig) (o : SlashOffense) : option (Z * Z) :=
  match o with
  | OffenseFraudulentApproval => Some (SlashFraudulentApprovalBP cfg, CooldownTier1Days cfg)
  | OffenseDishonestReplay => Some (SlashDishonestReplayBP cfg, CooldownTier2Days cfg)
  | OffenseCollusion => Some (SlashCollusionBP cfg, CooldownTier3Days cfg)
  | OffenseOther _ => None
  end.

(** [Slash] up to [ApplySlash]: the record is read under the lock of the registry, which is released again. *)
Definition slash_plan (validatorID : string) (offense : SlashOffense) (now : Z) r : RegistryError + SlashResult :=
  match offenseParams (vg_cfg r) offense with
  | None => inl ErrSlashUnknownOffense
  | Some (bp, days) =>
      match vg_Get validatorID r with
      | None => inl ErrSlashValidatorNotFound
      | Some v =>
          if decide (v_Status v = StatusExcluded) then inl ErrSlashPermanentlyExcluded
          else
            let permanent := (match offense with OffenseCollusion => true | _ => false end) && CollusionRepeatExclusion (vg_cfg r) && bool_decide (1 <= v_SlashCount v) in
            let slashAmount := u64 (v_StakeAmount v * bp) / 10000 in
            let remaining := if decide (slashAmount < v_StakeAmount v) then v_StakeAmount v - slashAmount else 0 in
            let challengerShare := slashAmount / 2 in
            let cooldownUntil := if permanent then zero_time else now + days_Duration days in
            inr (mkSlashResult validatorID offense bp slashAmount remaining (if permanent then 0 else days) cooldownUntil
                   challengerShare (slashAmount - challengerShare) permanent)
      end
  end.

(** Its call of [ApplySlash], under the lock again. *)
Definition slash_apply (res : SlashResult) (now : Z) r : ValidatorRegistry St * (RegistryError + Validator) :=
  ApplySlash (sr_ValidatorID res) (sr_SlashAmount res) (offense_string (sr_Offense res)) (sr_CooldownUntil res) (sr_PermanentExclusion res) now r.

(** [Slash] when no other call gets between the two.  The clock is read at [now] for the cooldown and at [now'] by [ApplySlash]. *)
Definition sle_Slash (validatorID : string) (offense : SlashOffense) (now now' : Z) r : ValidatorRegistry St * (RegistryError + SlashResult) :=
  match slash_plan validatorID offense now r with
  | inl err => (r, inl err)
  | inr plan => let '(r, res) := slash_apply plan now' r in (r, match res with inl err => inl err | inr _ => inr plan end)
  end.

Definition CanResume (validatorID : string) (now : Z) r : bool * Z :=
  match vg_Get validatorID r with
  | None => (false, zero_time)
  | Some v =>
      if decide (v_Status v ≠ StatusSuspended) then (false, zero_time)
      else if decide (v_SuspendedUntil v = zero_time ∨ ¬ now < v_SuspendedUntil v) then (true, zero_time)
      else (false, v_SuspendedUntil v)
  end.

Definition Resume (validatorID : string) (now : Z) r : ValidatorRegistry St * option RegistryError := ResumeFromSlash validatorID now r.

End registry.

(** * How a record evolves *)

(** Nobody gets stake back here, nobody returns to probation, and an excluded record no longer changes unless it is one of
    those that a late [ApplySlash] may hit. *)
Definition v_evolves (late : string → Prop) (v v' : Validator) : Prop :=
  v_ID v' = v_ID v ∧ v_AgentID v' = v_AgentID v ∧ v_StakeAmount v' <= v_StakeAmount v ∧ v_SlashCount v <= v_SlashCount v' ∧ (is_u64 (v_StakeAmount v) → is_u64 (v_StakeAmount v')) ∧
  (v_Status v' = StatusProbationary → v_Status v = StatusProbationary) ∧ (v_Status v = StatusExcluded → v' = v ∨ late (v_ID v)).

#[global] Instance evolves_preorder late : PreOrder (v_evolves late).
Proof.
  split.
  - intros v. unfold v_evolves. split_and!; auto; lia.
  - intros a b c (A1 & A2 & A3 & A4 & A0 & A5 & A6) (B1 & B2 & B3 & B4 & B0 & B5 & B6). unfold v_evolves.
    split_and!; [congruence|congruence|lia|lia|auto|auto|]. intros He. destruct (A6 He) as [->|]; auto.
Qed.

Section proofs.
Context {St : Type} `{!Persistence St Validator, !F64Conv, !RangeOrder} (late : string → Prop).
Implicit Types r : ValidatorRegistry St.

(** Records sit under their IDs; stakes are uint64. *)
Definition vg_ok r : Prop := ∀ k v, vg_validators r !! k = Some v → v_ID v = k ∧ is_u64 (v_StakeAmount v).

(** [r'] has every validator of [r], evolved. *)
Definition registry_grows r r' : Prop := vg_cfg r' = vg_cfg r ∧ vg_ok r' ∧ ∀ k v, vg_validators r !! k = Some v → ∃ v', vg_validators r' !! k = Some v' ∧ v_evolves late v v'.

Lemma rg_refl r : vg_ok r → registry_grows r r.
Proof. intros Hk. split_and!; [done|done|]. intros k v Hv. by exists v. Qed.

Lemma rg_trans r1 r2 r3 : registry_grows r1 r2 → registry_grows r2 r3 → registry_grows r1 r3.
Proof.
  intros (C1 & _ & H1) (C2 & K & H2). split_and!; [congruence|done|]. intros k v Hv. destruct (H1 k v Hv) as (v2 & Hv2 & E2). destruct (H2 k v2 Hv2) as (v3 & Hv3 & E3).
  exists v3. split; [done|]. by etrans.
Qed.

Lemma vg_persist_same v r r' ok : vg_persist v r = (r', ok) → vg_validators r' = vg_validators r ∧ vg_byAgent r' = vg_byAgent r ∧ vg_cfg r' = vg_cfg r.
Proof. unfold vg_persist. destruct (vg_store r) as [st|]; [destruct (store_put v st)|]; by intros [= <- <-]. Qed.

Lemma vg_write_spec v r r' ok : vg_write v r = (r', ok) → vg_validators r' = <[v_ID v := v]> (vg_validators r) ∧ vg_byAgent r' = vg_byAgent r ∧ vg_cfg r' = vg_cfg r.
Proof. unfold vg_write. by intros (-> & -> & ->)%vg_persist_same. Qed.

Lemma vg_write_fst v r : vg_validators (vg_write v r).1 = <[v_ID v := v]> (vg_validators r) ∧ vg_cfg (vg_write v r).1 = vg_cfg r.
Proof. destruct (vg_write v r) as [r' ok] eqn:E. cbn [fst]. by apply vg_write_spec in E as (-> & _ & ->). Qed.

Lemma grows_update r r' v v' : vg_ok r → vg_validators r !! v_ID v = Some v → v_evolves late v v' →
  vg_validators r' = <[v_ID v := v']> (vg_validators r) → vg_cfg r' = vg_cfg r → registry_grows r r'.
Proof.
  intros Hk Hv Hev Hval Hcfg. pose proof Hev as (Hid & _ & _ & _ & Hu & _). split_and!; [done| |].
  - intros k w. rewrite Hval. intros [[<- <-]|[_ Hw]]%lookup_insert_Some; [split; [done|by apply Hu, (Hk _ _ Hv)]|by apply Hk].
  - intros k w Hw. rewrite Hval. destruct (decide (k = v_ID v)) as [->|Hne].
    + rewrite lookup_insert_eq. rewrite Hv in Hw. injection Hw as <-. by exists v'.
    + rewrite lookup_insert_ne by done. by exists w.
Qed.

Lemma grows_write r v v' : vg_ok r → vg_validators r !! v_ID v = Some v → v_evolves late v v' → v_ID v' = v_ID v → registry_grows r (vg_write v' r).1.
Proof. intros Hk Hv Hev Hid. destruct (vg_write_fst v' r) as [E C]. eapply grows_update; [done|done|done| |done]. by rewrite E, Hid. Qed.

Ltac evolves_tac := unfold v_evolves, is_u64 in *; cbn; split_and!; try done; try lia; try congruence; intros; try congruence; try done; try (left; congruence).

Lemma grows_byAgent r r' m : registry_grows r r' → registry_grows r (vg_set_byAgent m r').
Proof. done. Qed.

Lemma vg_Register_grows agent stake cats genesis now r : vg_ok r → is_u64 stake → vg_validators r !! generateValidatorID agent now = None →
  registry_grows r (vg_Register agent stake cats genesis now r).1.
Proof.
  intros Hk Hu Hf. unfold vg_Register. case_decide; [by apply rg_refl|]. set (v := mkValidator _ _ _ _ _ _ _ _ _ _ _ _ _ _ _ _ _ _ _).
  destruct (vg_persist v r) as [r1 ok] eqn:E. apply vg_persist_same in E as (Hv & _ & Hc). destruct ok; cbn [fst].
  - split_and!; [done| |].
    + intros k w. cbn. rewrite Hv. intros [[<- <-]|[_ Hw]]%lookup_insert_Some; [done|by apply Hk].
    + intros k w Hw. cbn. rewrite Hv. exists w. split; [|done]. rewrite lookup_insert_ne; [done|]. intros <-. by rewrite Hf in Hw.
  - split_and!; [done| |]; unfold vg_ok; rewrite Hv; [done|]. intros k w Hw. by exists w.
Qed.

Lemma check_stake_grows required now grace r v : vg_ok r → vg_validators r !! v_ID v = Some v → registry_grows r (check_stake required now grace r v).
Proof.
  intros Hk Hv. unfold check_stake. destruct (is_working v) eqn:Ew; cbn [negb]; [|by apply rg_refl].
  apply bool_decide_eq_true in Ew. assert (Hne : v_Status v ≠ StatusExcluded) by (intros He; rewrite He in Ew; by destruct Ew).
  case_decide; [eapply grows_write; [done|done|evolves_tac|done]|].
  case_decide; [eapply grows_update; [done|done| |done|done]; evolves_tac|]. eapply grows_write; [done|done|evolves_tac|done].
Qed.

(** A record that the loop has not reached is still as it was. *)
Lemma check_stake_others required now grace r v k : k ≠ v_ID v → vg_validators (check_stake required now grace r v) !! k = vg_validators r !! k.
Proof.
  intros Hk. unfold check_stake. destruct (negb (is_working v)); [done|]. repeat case_decide.
  all: rewrite ?(proj1 (vg_write_fst _ _)); cbn; by rewrite lookup_insert_ne.
Qed.

Lemma check_stakes_grow required now grace vs : ∀ r, vg_ok r → NoDup (v_ID <$> vs) → (∀ v, v ∈ vs → vg_validators r !! v_ID v = Some v) →
  registry_grows r (foldl (check_stake required now grace) r vs).
Proof.
  induction vs as [|v vs IH]; intros r Hk Hnd Hin; cbn [foldl]; [by apply rg_refl|]. rewrite fmap_cons in Hnd. apply NoDup_cons in Hnd as [Hni Hnd].
  pose proof (check_stake_grows required now grace r v Hk (Hin v ltac:(by left))) as Hg. eapply rg_trans; [exact Hg|].
  apply IH; [apply Hg|done|]. intros w Hw. rewrite check_stake_others; [apply Hin; by right|]. intros E. apply Hni. rewrite <- E. apply list_elem_of_fmap. by exists w.
Qed.

Lemma range_ids r : vg_ok r → NoDup (v_ID <$> range_map (vg_validators r)) ∧ ∀ v, v ∈ range_map (vg_validators r) → vg_validators r !! v_ID v = Some v.
Proof.
  intros Hk. split.
  - rewrite range_map_perm. assert (E : v_ID <$> (map_to_list (vg_validators r)).*2 = (map_to_list (vg_validators r)).*1).
    { rewrite <- list_fmap_compose. apply list_fmap_ext. intros i [k v] Hi. cbn. apply (Hk k v). apply elem_of_map_to_list. by eapply list_elem_of_lookup_2. }
    rewrite E. apply NoDup_fst_map_to_list.
  - intros v [k Hv]%elem_of_range_map. by rewrite (proj1 (Hk k v Hv)).
Qed.

Lemma CheckStakeRequirements_grows now r : vg_ok r → registry_grows r (CheckStakeRequirements now r).
Proof. intros Hk. unfold CheckStakeRequirements. destruct (range_ids r Hk). by apply check_stakes_grow. Qed.

(** A write of the record under [k]. *)
Lemma vg_write_grows r k v v' r' ok : vg_ok r → vg_validators r !! k = Some v → v_evolves late v v' → vg_write v' r = (r', ok) → registry_grows r r'.
Proof.
  intros Hk Hv Hev E. destruct (Hk _ _ Hv) as [<- _]. replace r' with (vg_write v' r).1 by (by rewrite E). eapply grows_write; [done|done|done|]. by destruct Hev.
Qed.

Lemma EvaluateProbation_grows id now r : vg_ok r → registry_grows r (EvaluateProbation id now r).1.
Proof.
  intros Hk. unfold EvaluateProbation. destruct (vg_validators r !! id) as [v|] eqn:Ev; [|by apply rg_refl].
  destruct (Hk _ _ Ev) as [Hid Hu]. case_decide as Hs; [by apply rg_refl|]. case_decide; [by apply rg_refl|]. destruct (probation_met _ v).
  - destruct (vg_write _ r) as [r' ok] eqn:Ew. destruct ok; cbn [fst]; [eapply vg_write_grows; [done|done| |exact Ew]; evolves_tac|].
    apply vg_write_spec in Ew as (Hv & _ & Hc). eapply (grows_update r _ v (v_set_activated zero_time v)); [done|by rewrite Hid|evolves_tac| |done].
    cbn. rewrite Hv. cbn. by rewrite insert_insert_eq.
  - case_decide; cbn [fst].
    + apply grows_byAgent. eapply grows_write; [done|by rewrite Hid|evolves_tac|done].
    + eapply grows_write; [done|by rewrite Hid|evolves_tac|done].
Qed.

Lemma RecordProbationTask_grows id passed r : vg_ok r → registry_grows r (RecordProbationTask id passed r).1.
Proof.
  intros Hk. unfold RecordProbationTask. destruct (vg_validators r !! id) as [v|] eqn:Ev; [|by apply rg_refl]. case_decide as Hs; [by apply rg_refl|].
  destruct (vg_write _ r) as [r' ok] eqn:Ew. cbn [fst]. eapply vg_write_grows; [done|done| |exact Ew]. evolves_tac.
Qed.

Lemma ResetProbationOnSlash_grows id now r : vg_ok r → registry_grows r (ResetProbationOnSlash id now r).1.
Proof.
  intros Hk. unfold ResetProbationOnSlash. destruct (vg_validators r !! id) as [v|] eqn:Ev; [|by apply rg_refl]. case_decide as Hs; [by apply rg_refl|].
  destruct (vg_write _ r) as [r' ok] eqn:Ew. cbn [fst]. eapply vg_write_grows; [done|done| |exact Ew]. evolves_tac.
Qed.

Lemma ApplySlash_grows id amount offense until_ permanent now r : vg_ok r → 0 <= amount → (∀ v, vg_validators r !! id = Some v → v_Status v ≠ StatusExcluded ∨ late id) →
  registry_grows r (ApplySlash id amount offense until_ permanent now r).1.
Proof.
  intros Hk Ha Hne. unfold ApplySlash. destruct (vg_validators r !! id) as [v|] eqn:Ev; [|by apply rg_refl]. pose proof (Hne v eq_refl) as Hx. destruct (Hk _ _ Ev) as [Hid Hu].
  destruct permanent; (destruct (vg_write _ _) as [r' ok] eqn:Ew); cbn [fst].
  - apply vg_write_spec in Ew as (Hv & _ & Hc). eapply (grows_update r r' v); [done|by rewrite Hid| |exact Hv|exact Hc]. evolves_tac. rewrite Hid. right. tauto.
  - eapply vg_write_grows; [done|done| |exact Ew]. evolves_tac. rewrite Hid. right. tauto.
Qed.

Lemma ResumeFromSlash_grows id now r : vg_ok r → registry_grows r (ResumeFromSlash id now r).1.
Proof.
  intros Hk. unfold ResumeFromSlash. destruct (vg_validators r !! id) as [v|] eqn:Ev; [|by apply rg_refl]. do 3 (case_decide; [by apply rg_refl|]).
  destruct (vg_write _ r) as [r' ok] eqn:Ew. cbn [fst]. eapply vg_write_grows; [done|done| |exact Ew]. evolves_tac.
Qed.


(** * Runs of the registry *)

(** The calls that take the lock of the registry, one after the other.  [VSlash] is a [Slash] without another call in between;
    one that is interrupted is, where it changes anything, a [VApply] with what it computed before. *)
Inductive vg_op :=
  | VRegister (agentID : string) (stakeAmount : Z) (categories : list string) (isGenesis : bool) (now : Z)
  | VStats (volume maxTask : Z)
  | VCheck (now : Z)
  | VEvaluate (id : string) (now : Z)
  | VTask (id : string) (passed : bool)
  | VReset (id : string) (now : Z)
  | VSlash (id : string) (o : SlashOffense) (now now' : Z)
  | VApply (id : string) (slashAmount : Z) (offense : string) (cooldownUntil : Z) (permanent : bool) (now : Z)
  | VResume (id : string) (now : Z).

Definition vg_exec (op : vg_op) r : ValidatorRegistry St :=
  match op with
  | VRegister a s c g now => (vg_Register a s c g now r).1
  | VStats v m => SetTrailingStats v m r
  | VCheck now => CheckStakeRequirements now r
  | VEvaluate id now => (EvaluateProbation id now r).1
  | VTask id p => (RecordProbationTask id p r).1
  | VReset id now => (ResetProbationOnSlash id now r).1
  | VSlash id o now now' => (sle_Slash id o now now' r).1
  | VApply id amount offense cooldownUntil permanent now => (ApplySlash id amount offense cooldownUntil permanent now r).1
  | VResume id now => (Resume id now r).1
  end.

Definition vg_run (ops : list vg_op) r : ValidatorRegistry St := foldl (λ r op, vg_exec op r) r ops.

(** Stakes and slashed amounts are uint64, and no agent registers twice in a nanosecond. *)
Definition vg_admissible (op : vg_op) r : Prop :=
  match op with
  | VRegister a s _ _ now => is_u64 s ∧ vg_validators r !! generateValidatorID a now = None
  | VApply _ amount _ _ _ _ => is_u64 amount
  | _ => True
  end.

Fixpoint vg_admissible_all (ops : list vg_op) r : Prop :=
  match ops with [] => True | op :: ops => vg_admissible op r ∧ vg_admissible_all ops (vg_exec op r) end.

(** The validators on whom [ApplySlash] is called by itself. *)
Definition applied_to (ops : list vg_op) (id : string) : Prop := ∃ amount offense until_ permanent now, VApply id amount offense until_ permanent now ∈ ops.

Lemma slash_amount_range s bp : 0 <= u64 (s * bp) / 10000.
Proof. apply Z.div_pos; [apply u64_range|done]. Qed.

Lemma sle_Slash_cases id o now now' r r' res : sle_Slash id o now now' r = (r', res) →
  (r' = r ∧ ∃ err, res = inl err) ∨
  ∃ bp days v permanent until_ res', offenseParams (vg_cfg r) o = Some (bp, days) ∧ vg_validators r !! id = Some v ∧ v_Status v ≠ StatusExcluded ∧
    permanent = (match o with OffenseCollusion => true | _ => false end) && CollusionRepeatExclusion (vg_cfg r) && bool_decide (1 <= v_SlashCount v) ∧
    until_ = (if permanent then zero_time else now + days_Duration days) ∧
    ApplySlash id (u64 (v_StakeAmount v * bp) / 10000) (offense_string o) until_ permanent now' r = (r', res') ∧
    match res with
    | inl err => res' = inl err
    | inr s => is_Some (match res' with inr w => Some w | inl _ => None end) ∧ sr_ValidatorID s = id ∧ sr_SlashAmount s = u64 (v_StakeAmount v * bp) / 10000 ∧
        sr_RemainingStake s = (if decide (u64 (v_StakeAmount v * bp) / 10000 < v_StakeAmount v) then v_StakeAmount v - u64 (v_StakeAmount v * bp) / 10000 else 0) ∧
        sr_ChallengerShare s = sr_SlashAmount s / 2 ∧ sr_ReserveShare s = sr_SlashAmount s - sr_ChallengerShare s ∧ sr_PermanentExclusion s = permanent ∧ sr_CooldownUntil s = until_
    end.
Proof.
  unfold sle_Slash, slash_plan, vg_Get. destruct (offenseParams _ o) as [[bp days]|] eqn:Eo; [|intros [= <- <-]; left; eauto]. destruct (vg_validators r !! id) as [v|] eqn:Ev; [|intros [= <- <-]; left; eauto].
  case_decide as Hx; [intros [= <- <-]; left; eauto|]. set (permanent := (_ && _) && _). set (until_ := if permanent then zero_time else _).
  unfold slash_apply. cbn [sr_ValidatorID sr_SlashAmount sr_Offense sr_CooldownUntil sr_PermanentExclusion].
  destruct (ApplySlash id _ _ until_ permanent now' r) as [r1 [err|w]] eqn:Ea; intros [= <- <-]; right.
  - exists bp, days, v, permanent, until_, (inl err). split_and!; done.
  - exists bp, days, v, permanent, until_, (inr w). cbn. split_and!; try done.
Qed.

Lemma vg_exec_grows op r : vg_ok r → vg_admissible op r → (∀ id, applied_to [op] id → late id) → registry_grows r (vg_exec op r).
Proof.
  intros Hk Ha Hl. destruct op; cbn [vg_exec]; [by apply vg_Register_grows; [|apply Ha..]|exact (rg_refl r Hk)|by apply CheckStakeRequirements_grows|by apply EvaluateProbation_grows
    |by apply RecordProbationTask_grows|by apply ResetProbationOnSlash_grows| | |by apply ResumeFromSlash_grows]; cycle 1.
  { cbn in Ha. apply ApplySlash_grows; [done|unfold is_u64 in Ha; lia|]. intros v _. right. apply Hl. do 5 eexists. by left. }
  destruct (sle_Slash id o now now' r) as [r' res] eqn:E. cbn [fst]. apply sle_Slash_cases in E as [[-> _]|(bp & days & v & p & u & res' & _ & Hv & Hx & _ & _ & E & _)]; [by apply rg_refl|].
  replace r' with (ApplySlash id (u64 (v_StakeAmount v * bp) / 10000) (offense_string o) u p now' r).1 by (by rewrite E).
  apply ApplySlash_grows; [done|apply slash_amount_range|]. intros w Hw. left. rewrite Hv in Hw. by injection Hw as <-.
Qed.

Lemma vg_run_grows ops : ∀ r, vg_ok r → vg_admissible_all ops r → (∀ id, applied_to ops id → late id) → registry_grows r (vg_run ops r).
Proof.
  induction ops as [|op ops IH]; intros r Hk Ha Hl; [by apply rg_refl|]. destruct Ha as [Ha Hall].
  assert (registry_grows r (vg_exec op r)) as Hg.
  { apply vg_exec_grows; [done|done|]. intros id (a & o & u & p & n & Hin%list_elem_of_singleton). apply Hl. exists a, o, u, p, n. rewrite Hin. by left. }
  eapply rg_trans; [exact Hg|]. apply IH; [apply Hg|done|]. intros id (a & o & u & p & n & Hin). apply Hl. exists a, o, u, p, n. by right.
Qed.

(** What a successful [ApplySlash] does. *)
Lemma ApplySlash_done id amount offense until_ permanent now r r' v w : vg_ok r → vg_validators r !! id = Some v →
  ApplySlash id amount offense until_ permanent now r = (r', inr w) →
  vg_validators r' = <[id := w]> (vg_validators r) ∧ v_SlashCount w = v_SlashCount v + 1 ∧ v_StakeAmount w = v_StakeAmount v - Z.min amount (v_StakeAmount v) ∧
  v_Status w = (if permanent then StatusExcluded else StatusSuspended) ∧ v_SuspendedUntil w = (if permanent then zero_time else until_).
Proof.
  intros Hk Hv. destruct (Hk _ _ Hv) as [Hvid _]. unfold ApplySlash. rewrite Hv.
  destruct permanent; (destruct (vg_write _ _) as [r1 ok] eqn:Ew); apply vg_write_spec in Ew as (Hr & _ & _); destruct ok; (try done); intros [= <- <-]; rewrite Hr; cbn; rewrite Hvid; by split_and!.
Qed.

Lemma not_working v : v_Status v = StatusExcluded → is_working v = false.
Proof. intros E. apply bool_decide_eq_false. rewrite E. by intros []. Qed.
End proofs.

(** C22: a validator is kept and evolves: whatever the calls on the registry and the slash engine, the registry's own [ApplySlash]
    included, each record stays under its ID, its stake never grows, its slashes are never uncounted, and nobody returns to probation.  An
    excluded record on which [ApplySlash] is not called by itself never changes again: it is not listed, not eligible for any
    category, not resumed, and not slashed.  (A [Slash] releases the lock between its check and its [ApplySlash]: one that is interrupted by
    an exclusion is such a call, and revives the record, see [late_slash_revives].  Stakes are 64-bit, and no agent registers twice
    within a nanosecond.) *)
Theorem validators_evolve {St} `{!Persistence St Validator, !F64Conv, !RangeOrder} (r : ValidatorRegistry St) ops :
  vg_ok r → vg_admissible_all ops r → let r' := vg_run ops r in
  vg_ok r' ∧
  (∀ id v, vg_validators r !! id = Some v → ∃ v', vg_validators r' !! id = Some v' ∧ v_evolves (applied_to ops) v v') ∧
  (∀ id v, vg_validators r !! id = Some v → v_Status v = StatusExcluded → ¬ applied_to ops id →
     vg_validators r' !! id = Some v ∧ v ∉ vg_ActiveValidators r' ∧ (∀ c, v ∉ ActiveValidatorsForCategory c r') ∧ (∀ c now, IsEligible id c now r' = false) ∧
     (∀ now, Resume id now r' = (r', Some ErrSlashPermanentlyExcluded)) ∧ (∀ o now now', ∃ err, sle_Slash id o now now' r' = (r', inl err))).
Proof.
  intros Hk Ha r'. destruct (vg_run_grows (applied_to ops) ops r Hk Ha ltac:(done)) as (Hcfg & Hk' & Hev). fold r' in Hcfg, Hk', Hev. split_and!; [done|done|].
  intros id v Hv Hx Hna. destruct (Hev id v Hv) as (v' & Hv' & Hvv). assert (v' = v) as ->.
  { destruct Hvv as (_ & _ & _ & _ & _ & _ & Hl). destruct (Hl Hx) as [|Hl']; [done|]. by rewrite (proj1 (Hk _ _ Hv)) in Hl'. }
  pose proof (not_working v Hx) as Hw. split_and!.
  - done.
  - unfold vg_ActiveValidators. rewrite sort_slice_perm, list_elem_of_filter, Hw. by intros [[] _].
  - intros c. unfold ActiveValidatorsForCategory. rewrite sort_slice_perm, list_elem_of_filter, Hw. by intros [[[] _] _].
  - intros c now. unfold IsEligible. by rewrite Hv', Hw.
  - intros now. unfold Resume, ResumeFromSlash. by rewrite Hv', decide_True.
  - intros o now now'. unfold sle_Slash, slash_plan, vg_Get. destruct (offenseParams _ o) as [[bp days]|]; [|eauto]. rewrite Hv', decide_True by done. eauto.
Qed.

(** C21: a slash is exact.  When [Slash] succeeds and nothing changed the validator's record between its check and its [ApplySlash] (other
    validators' records may have changed), it takes the share of the offence off the record and off no other one: basis points of
    the stake, rounded down, for shares of at most 10000 and stakes whose product with the share fits 64 bits.  All of it is split between
    the challenger and the reserve, half and half.  The validator is suspended for the cooldown of the offence; or, if the configuration
    excludes repeated collusion, excluded for ever for collusion after any earlier slash, whatever that was for (the comments say:
    after an earlier collusion, see [first_collusion_excludes]). *)
Theorem slash_exact {St} `{!Persistence St Validator, !F64Conv, !RangeOrder} (r r1 r' : ValidatorRegistry St) id o now now' res w :
  vg_ok r1 → slash_plan id o now r = inr res → vg_validators r1 !! id = vg_validators r !! id → slash_apply res now' r1 = (r', inr w) →
  ∃ bp days v v', offenseParams (vg_cfg r) o = Some (bp, days) ∧ vg_validators r !! id = Some v ∧ v_Status v ≠ StatusExcluded ∧
    vg_validators r' = <[id := v']> (vg_validators r1) ∧ v_SlashCount v' = v_SlashCount v + 1 ∧
    (0 <= bp <= 10000 → v_StakeAmount v * bp < 2 ^ 64 →
       sr_SlashAmount res = v_StakeAmount v * bp / 10000 ∧ v_StakeAmount v' = v_StakeAmount v - sr_SlashAmount res ∧ sr_RemainingStake res = v_StakeAmount v') ∧
    sr_ChallengerShare res + sr_ReserveShare res = sr_SlashAmount res ∧ 0 <= sr_ReserveShare res - sr_ChallengerShare res <= 1 ∧
    (sr_PermanentExclusion res = true ↔ o = OffenseCollusion ∧ CollusionRepeatExclusion (vg_cfg r) = true ∧ 1 <= v_SlashCount v) ∧
    v_Status v' = (if sr_PermanentExclusion res then StatusExcluded else StatusSuspended) ∧
    v_SuspendedUntil v' = (if sr_PermanentExclusion res then zero_time else now + days_Duration days).
Proof.
  intros Hk Hplan Hsame Happly. unfold slash_plan, vg_Get in Hplan. destruct (offenseParams _ o) as [[bp days]|] eqn:Ho; [|done].
  destruct (vg_validators r !! id) as [v|] eqn:Hv; [|done]. case_decide as Hx; [done|]. injection Hplan as <-.
  destruct (Hk _ _ Hsame) as [Hvid Hvu]. unfold slash_apply in Happly. cbn [sr_ValidatorID sr_SlashAmount sr_Offense sr_CooldownUntil sr_PermanentExclusion] in *.
  set (p := (_ && _) && _) in *. destruct (ApplySlash_done _ _ _ _ _ _ _ _ _ _ Hk Hsame Happly) as (Hval & Hcnt & Hstake & Hstat & Hunt).
  exists bp, days, v, w. cbn [sr_SlashAmount sr_RemainingStake sr_ChallengerShare sr_ReserveShare sr_PermanentExclusion].
  split_and!; [done|done|done|done|done| |lia|Z.to_euclidean_division_equations; lia|Z.to_euclidean_division_equations; lia| |done|rewrite Hunt; by destruct p].
  - intros Hbp Hov. unfold is_u64 in Hvu. assert (Hsm : u64 (v_StakeAmount v * bp) = v_StakeAmount v * bp) by (apply u64_small; unfold is_u64, u64_mod in *; split; [nia|exact Hov]). rewrite Hsm in *.
    assert (v_StakeAmount v * bp / 10000 <= v_StakeAmount v) by (apply Z.div_le_upper_bound; nia).
    split_and!; [done|rewrite Hstake; lia|]. rewrite Hstake. case_decide; lia.
  - unfold p. rewrite !andb_true_iff, bool_decide_eq_true. destruct o; intuition (try done; congruence).
Qed.

(** * What happens to particular records *)

Module DemoRegistry.

#[local] Program Instance conv : F64Conv := {| u64_out_of_range _ := 0 |}.
Next Obligation. intros z. by vm_compute. Qed.

Definition no_store := BrokenStore Validator.

Definition day : Z := 86400000000000.

Definition reg0 : ValidatorRegistry no_store := NewValidatorRegistry DefaultValidatorConfig None.

Definition alice : string := generateValidatorID "alice" day.

Definition bob : string := generateValidatorID "bob" day.

Definition registered : ValidatorRegistry no_store :=
  vg_run [VRegister "alice" 10000000000 ["code"] false day; VRegister "bob" 20000000001 [] true day] reg0.

Definition status_of (id : string) (r : ValidatorRegistry no_store) : option ValidatorStatus := v_Status <$> vg_Get id r.

Lemma registered_ok : vg_ok registered.
Proof.
  assert (H : map_Forall (λ k v, v_ID v = k ∧ is_u64 (v_StakeAmount v)) (vg_validators registered)) by (apply (bool_decide_unpack _); vm_compute; done).
  intros k v Hv. by apply (H k v).
Qed.

Example slashed_shares : match (sle_Slash bob OffenseFraudulentApproval (2 * day) (2 * day) registered).2 with
  | inr s => (sr_SlashAmount s, sr_RemainingStake s, sr_ChallengerShare s, sr_ReserveShare s) = (6000000000, 14000000001, 3000000000, 3000000000) | inl _ => False end.
Proof. vm_compute. reflexivity. Qed.

(** A slash ends the probation: after the cooldown the probationary validator is active, without the tasks, the accuracy and the days
    that [EvaluateProbation] asks for. *)
Example slashed_probation_skipped : status_of alice registered = Some StatusProbationary ∧
  status_of alice (vg_run [VSlash alice OffenseFraudulentApproval (2 * day) (2 * day); VResume alice (33 * day)] registered) = Some StatusActive.
Proof. by vm_compute. Qed.

(** [Resume] lifts every suspension that has no end, also the one for a stake below the minimum, and does not look at the stake. *)
Example stake_suspension_lifted :
  let r := vg_run [VStats 0 100000000000; VCheck (20 * day)] registered in
  status_of alice r = Some StatusSuspended ∧ status_of alice (vg_run [VResume alice (20 * day)] r) = Some StatusActive.
Proof. by vm_compute. Qed.

(** The second slash for collusion excludes after any earlier slash, not only after one for collusion. *)
Example first_collusion_excludes :
  status_of alice (vg_run [VSlash alice OffenseFraudulentApproval (2 * day) (2 * day); VSlash alice OffenseCollusion (2 * day) (2 * day)] registered) = Some StatusExcluded.
Proof. by vm_compute. Qed.

(** [Slash] looks at the status under one lock and [ApplySlash] writes under another: a slash that was under way when the
    validator was excluded makes the exclusion a suspension. *)
Example late_slash_revives :
  let r := vg_run [VSlash alice OffenseFraudulentApproval (2 * day) (2 * day); VSlash alice OffenseCollusion (2 * day) (2 * day)] registered in
  status_of alice r = Some StatusExcluded ∧
  match slash_plan alice OffenseFraudulentApproval (2 * day) registered with
  | inr plan => status_of alice (slash_apply plan (2 * day) r).1 = Some StatusSuspended
  | inl _ => False
  end.
Proof. by vm_compute. Qed.

(** A validator without categories counts for every category, but is listed and eligible for none. *)
Example no_category_uncovered : ActiveCountForCategory "code" registered = 2 ∧ length (ActiveValidatorsForCategory "code" registered) = 1%nat ∧ IsEligible bob "code" (2 * day) registered = false.
Proof. by vm_compute. Qed.

(** The reverse index forgets an excluded validator, and a reload from the store brings the entry back. *)
Definition kept_store : KeyedStore v_ID := ks_empty v_ID.

Definition excluded_on_disk : ValidatorRegistry (KeyedStore v_ID) :=
  vg_run [VRegister "alice" 10000000000 ["code"] false day; VSlash alice OffenseFraudulentApproval (2 * day) (2 * day); VSlash alice OffenseCollusion (2 * day) (2 * day)]
    (NewValidatorRegistry DefaultValidatorConfig (Some kept_store)).

Example reload_indexes_excluded : GetByAgentID "alice" excluded_on_disk = None ∧
  (v_Status <$> (r ← vg_LoadFromStore DefaultValidatorConfig (vg_store excluded_on_disk); GetByAgentID "alice" r)) = Some StatusExcluded.
Proof. by vm_compute. Qed.

Definition excluding : list vg_op := [VSlash alice OffenseFraudulentApproval (2 * day) (2 * day); VSlash alice OffenseCollusion (2 * day) (2 * day)].

End DemoRegistry.

#[local] Existing Instance DemoRegistry.conv.

Lemma validators_evolve_witness : let r' := vg_run [VResume DemoRegistry.alice (900 * DemoRegistry.day); VCheck (901 * DemoRegistry.day)] DemoRegistry.registered in
  vg_ok r' ∧ (∀ id v, vg_validators DemoRegistry.registered !! id = Some v → ∃ v', vg_validators r' !! id = Some v' ∧ v_evolves (applied_to [VResume DemoRegistry.alice (900 * DemoRegistry.day); VCheck (901 * DemoRegistry.day)]) v v').
Proof.
  cbv zeta. pose proof (validators_evolve DemoRegistry.registered [VResume DemoRegistry.alice (900 * DemoRegistry.day); VCheck (901 * DemoRegistry.day)]
    DemoRegistry.registered_ok ltac:(done)) as (H1 & H2 & _). split; [exact H1|exact H2].
Defined.

(** Alice's probation goes on between the two halves of a slash of Bob. *)
Lemma slash_exact_witness : let r1 := vg_run [VTask DemoRegistry.alice true] DemoRegistry.registered in
  ∃ res r' w, slash_plan DemoRegistry.bob OffenseFraudulentApproval (2 * DemoRegistry.day) DemoRegistry.registered = inr res ∧
    slash_apply res (2 * DemoRegistry.day) r1 = (r', inr w) ∧ ∃ v v' : Validator, vg_validators r' = <[DemoRegistry.bob := v']> (vg_validators r1) ∧ v_StakeAmount v' = v_StakeAmount v - sr_SlashAmount res.
Proof.
  intros r1. destruct (slash_plan DemoRegistry.bob OffenseFraudulentApproval (2 * DemoRegistry.day) DemoRegistry.registered) as [err|res] eqn:Ep; [vm_compute in Ep; discriminate Ep|].
  destruct (slash_apply res (2 * DemoRegistry.day) r1) as [r' [err|w]] eqn:Ea.
  { apply (f_equal snd) in Ea. vm_compute in Ep. injection Ep as <-. vm_compute in Ea. discriminate Ea. }
  exists res, r', w. split_and!; [reflexivity|exact Ea|].
  pose proof (proj1 (proj2 (vg_run_grows (applied_to [VTask DemoRegistry.alice true]) [VTask DemoRegistry.alice true] DemoRegistry.registered DemoRegistry.registered_ok (conj I I) (λ _ H, H)))) as Hk.
  destruct (slash_exact DemoRegistry.registered r1 r' DemoRegistry.bob OffenseFraudulentApproval _ _ res w Hk Ep ltac:(vm_compute; reflexivity) Ea) as (bp & days & v & v' & Ho & Hv & _ & Hr & _ & Hs & _).
  exists v, v'. split; [exact Hr|]. assert (Hbp : bp = 3000) by (vm_compute in Ho; congruence).
  assert (Hstake : (v_StakeAmount <$> vg_validators DemoRegistry.registered !! DemoRegistry.bob) = Some 20000000001) by (vm_compute; reflexivity).
  rewrite Hv in Hstake. cbn [fmap option_fmap option_map] in Hstake. apply (inj Some) in Hstake.
  apply Hs; rewrite Hbp; [lia|]. rewrite Hstake. reflexivity.
Defined.
