(* ===== verification/Assignment.v ===== *)
(** internal/validator/assignment.go and validator.go: the choice of validators for verification and replay work, the detection of
    clusters by agreement, and the coordinator of assignments.

    The random number of a draw, calibration data and the clock are arguments; the engine reads the registry of Registry. *)

From S2P Require Import Prelude GoStd Store Event Float64 Registry Ocs.
#[local] Open Scope Z_scope.

Record CalibrationData := mkCalibration { cal_TotalSignals : Z; cal_Accuracy : F64; cal_AvgSeverity : F64 }.

Record pairwiseRecord := mkPairwise { pw_SharedTasks : Z; pw_Agreements : Z; pw_LastUpdated : Z }.

Definition agreementRate (p : pairwiseRecord) : F64 :=
  if decide (pw_SharedTasks p = 0) then mkF64 0 1 else f64_ratio (pw_Agreements p) (pw_SharedTasks p).

Record AssignmentEngine := mkEngine {
  ae_cfg : ValidatorConfig;
  ae_assignmentCount : gmap string (gmap string Z);
  ae_epochStart : Z;
  ae_clusters : gmap string string;
  ae_pairwise : gmap string (gmap string pairwiseRecord);
}.

Definition NewAssignmentEngine (cfg : ValidatorConfig) (now : Z) : AssignmentEngine := mkEngine cfg ∅ now ∅ ∅.

(** The counts of a category; Go reads a missing inner map as empty. *)
Definition counts_of (category : string) (e : AssignmentEngine) : gmap string Z := default ∅ (ae_assignmentCount e !! category).

Definition count_of (category id : string) (e : AssignmentEngine) : Z := default 0 (counts_of category e !! id).

Definition maybeResetEpoch (now : Z) (e : AssignmentEngine) : AssignmentEngine :=
  if decide (i64 (CapEpochHours (ae_cfg e) * 3600000000000) <= time_Sub now (ae_epochStart e))
  then mkEngine (ae_cfg e) ∅ now (ae_clusters e) (ae_pairwise e) else e.

Definition categoryTotal (category : string) (e : AssignmentEngine) : Z := map_sum (λ n, n) (counts_of category e).

(** The count of a validator, or of its whole cluster. *)
Definition clusterTotal (category validatorID : string) (e : AssignmentEngine) : Z :=
  match ae_clusters e !! validatorID with
  | None => count_of category validatorID e
  | Some clusterID => map_fold (λ vid cid total, if decide (cid = clusterID) then total + count_of category vid e else total) 0 (ae_clusters e)
  end.

(** [None] is the nil source; it answers [None] for an error or no data. *)
Definition calibrationSource : Type := option (string → string → option CalibrationData).

Definition getCalibrationModifier (source : calibrationSource) (v : Validator) (category : string) (e : AssignmentEngine) : F64 :=
  match source with
  | None => AssignmentCalibrationModerate (ae_cfg e)
  | Some f =>
      match f (v_AgentID v) category with
      | None => AssignmentCalibrationModerate (ae_cfg e)
      | Some cal =>
          if decide (cal_TotalSignals cal < 20) then AssignmentCalibrationModerate (ae_cfg e)
          else if f64_leb (f64_round 9 10) (cal_Accuracy cal) then AssignmentCalibrationStrong (ae_cfg e)
          else if f64_ltb (cal_Accuracy cal) (f64_round 6 10) then AssignmentCalibrationWeak (ae_cfg e)
          else AssignmentCalibrationModerate (ae_cfg e)
      end
  end.

(** The excluded IDs and all members of their clusters. *)
Definition excluded_by (excludeIDs : list string) (e : AssignmentEngine) (id : string) : bool :=
  bool_decide (id ∈ excludeIDs) ||
  existsb (λ x, match ae_clusters e !! x with Some c => bool_decide (ae_clusters e !! id = Some c) | None => false end) excludeIDs.

Section select.
Context {St : Type} {ord : RangeOrder}.
Implicit Types reg : ValidatorRegistry St.

Definition candidates_of (category : string) reg : list Validator :=
  if decide (category = "") then vg_ActiveValidators reg else ActiveValidatorsForCategory category reg.

(** The share of the category's assignments is above the cap. *)
Definition over_cap (category : string) (v : Validator) reg (e : AssignmentEngine) : bool :=
  let totalEligible := ActiveEligibleCount reg in
  let capFraction := if decide (10 <= totalEligible) then CapAtOrAbove10Validators (ae_cfg e) else CapBelow10Validators (ae_cfg e) in
  bool_decide (CapEnforcementMinValidators (ae_cfg e) <= totalEligible) && bool_decide (0 < categoryTotal category e) &&
  f64_ltb capFraction (f64_ratio (clusterTotal category (v_ID v) e) (categoryTotal category e)).

Definition draw_weight (source : calibrationSource) (category : string) (v : Validator) (e : AssignmentEngine) : F64 :=
  f64_mul (getCalibrationModifier source v category e)
    (if decide (v_Status v = StatusProbationary) then AssignmentProbationModifier (ae_cfg e) else f64_one).

(** The candidates that stay in the draw, with their weights. *)
Definition pool_of (source : calibrationSource) (category : string) (excludeIDs : list string) reg (e : AssignmentEngine) : list (Validator * F64) :=
  omap (λ v, if excluded_by excludeIDs e (v_ID v) then None
             else if over_cap category v reg e then None
             else let w := draw_weight source category v e in if f64_leb w (mkF64 0 1) then None else Some (v, w)) (candidates_of category reg).

(** The draw: the weights are subtracted from [pick] until it is used up; past the end the last one is taken. *)
Fixpoint draw (pick : F64) (last : Validator) (pool : list (Validator * F64)) : Validator :=
  match pool with
  | [] => last
  | (v, w) :: pool => let pick := f64_sub pick w in if f64_leb pick (mkF64 0 1) then v else draw pick v pool
  end.

Definition count_assignment (category id : string) (e : AssignmentEngine) : AssignmentEngine :=
  mkEngine (ae_cfg e) (<[category := <[id := count_of category id e + 1]> (counts_of category e)]> (ae_assignmentCount e))
    (ae_epochStart e) (ae_clusters e) (ae_pairwise e).

(** [random] is [rng.Float64()]; [None] is [ErrNoEligibleValidators]. *)
Definition selectValidatorLocked (source : calibrationSource) (category : string) (excludeIDs : list string) reg (now : Z) (random : F64) (e : AssignmentEngine) :
    AssignmentEngine * option Validator :=
  let e := maybeResetEpoch now e in
  match pool_of source category excludeIDs reg e with
  | [] => (e, None)
  | (v, w) :: pool =>
      let totalWeight := foldl (λ t c, f64_add t c.2) (mkF64 0 1) ((v, w) :: pool) in
      let selected := draw (f64_mul random totalWeight) v ((v, w) :: pool) in
      (count_assignment category (v_ID selected) e, Some selected)
  end.

Definition SelectValidator := selectValidatorLocked.

(** The members of the original verifier's cluster, or of the cluster the caller names when none is known. *)
Definition replay_excludes (originalVerifierID originalVerifierCluster : string) (e : AssignmentEngine) : list string :=
  let clusterID := default "" (ae_clusters e !! originalVerifierID) in
  let clusterID := if decide (originalVerifierCluster ≠ "" ∧ clusterID = "") then originalVerifierCluster else clusterID in
  originalVerifierID ::
  (if decide (clusterID ≠ "") then filter (λ vid, ae_clusters e !! vid = Some clusterID ∧ vid ≠ originalVerifierID) (range_set (dom (ae_clusters e))) else []).

Definition SelectReplayExecutor (source : calibrationSource) (category originalVerifierID originalVerifierCluster : string) reg (now : Z) (random : F64) (e : AssignmentEngine) :
    AssignmentEngine * option Validator :=
  selectValidatorLocked source category (replay_excludes originalVerifierID originalVerifierCluster e) reg now random e.

End select.

(** * Pairs that agree *)

Definition pairKey (id1 id2 : string) : string * string := if decide (String.le id1 id2) then (id1, id2) else (id2, id1).

Definition RecordAgreement (id1 id2 : string) (agreed : bool) (now : Z) (e : AssignmentEngine) : AssignmentEngine :=
  let '(k1, k2) := pairKey id1 id2 in
  let inner := default ∅ (ae_pairwise e !! k1) in
  let rec := default (mkPairwise 0 0 zero_time) (inner !! k2) in
  let rec := mkPairwise (pw_SharedTasks rec + 1) (if agreed then pw_Agreements rec + 1 else pw_Agreements rec) now in
  mkEngine (ae_cfg e) (ae_assignmentCount e) (ae_epochStart e) (ae_clusters e) (<[k1 := <[k2 := rec]> inner]> (ae_pairwise e)).

Definition PairwiseRecord (id1 id2 : string) (e : AssignmentEngine) : option pairwiseRecord :=
  let '(k1, k2) := pairKey id1 id2 in inner ← ae_pairwise e !! k1; inner !! k2.

Definition ClusterOf (id : string) (e : AssignmentEngine) : string := default "" (ae_clusters e !! id).

(** * Union-find *)

(** [find] with path compression; the fuel is above the depth of the forest. *)
Fixpoint uf_find (fuel : nat) (x : string) (parent : gmap string string) : string * gmap string string :=
  match fuel with
  | O => (x, parent)
  | S fuel =>
      let parent := match parent !! x with None => <[x := x]> parent | Some _ => parent end in
      let p := default x (parent !! x) in
      if decide (p = x) then (x, parent)
      else let '(root, parent) := uf_find fuel p parent in (root, <[x := root]> parent)
  end.

Definition find_all (x : string) (parent : gmap string string) : string * gmap string string := uf_find (S (size parent)) x parent.

Definition uf_union (x y : string) (parent : gmap string string) : gmap string string :=
  let '(rx, parent) := find_all x parent in
  let '(ry, parent) := find_all y parent in
  if decide (rx = ry) then parent else <[rx := ry]> parent.

Section clusters.
Context {ord : RangeOrder}.

(** The pairs in the order of the two nested loops. *)
Definition range_pairs (pairwise : gmap string (gmap string pairwiseRecord)) : list (string * string * pairwiseRecord) :=
  k1 ← range_set (dom pairwise);
  match pairwise !! k1 with
  | None => []
  | Some inner => omap (λ k2, (λ rec, (k1, k2, rec)) <$> inner !! k2) (range_set (dom inner))
  end.

Definition all_known (pairwise : gmap string (gmap string pairwiseRecord)) (parent : gmap string string) : gmap string string :=
  foldl (λ p k1, let p := (find_all k1 p).2 in
           foldl (λ p k2, (find_all k2 p).2) p (match pairwise !! k1 with Some inner => range_set (dom inner) | None => [] end))
    parent (range_set (dom pairwise)).

Definition flagged (cfg : ValidatorConfig) (threshold : F64) (rec : pairwiseRecord) : bool :=
  bool_decide (¬ pw_SharedTasks rec < ClusterPairwiseMinShared cfg) && f64_ltb threshold (agreementRate rec).

Definition unite (cfg : ValidatorConfig) (threshold : F64) (pairs : list (string * string * pairwiseRecord)) (parent : gmap string string) : gmap string string :=
  foldl (λ p '(k1, k2, rec), if flagged cfg threshold rec then uf_union k1 k2 p else p) parent pairs.

(** [for vid := range parent { root := find(vid); ... }]. *)
Definition uf_groups (vids : list string) (parent : gmap string string) : gmap string string * gmap string (list string) :=
  foldl (λ '(parent, groups) vid,
           let '(root, parent) := find_all vid parent in
           (parent, <[root := default [] (groups !! root) ++ [vid]]> groups)) (parent, ∅) vids.

(** The new cluster map and the list of clusters. *)
Definition name_clusters (groups : gmap string (list string)) : gmap string string * list (list string) :=
  foldl (λ '(clusters, result) root,
           match groups !! root with
           | Some members =>
               if decide (length members < 2)%nat then (clusters, result)
               else (foldl (λ m vid, <[vid := "cluster:" +:+ root]> m) clusters members, result ++ [members])
           | None => (clusters, result)
           end) (∅, []) (range_set (dom groups)).

Definition CheckPairwiseClusters (isStructured : bool) (e : AssignmentEngine) : AssignmentEngine * list (list string) :=
  let cfg := ae_cfg e in
  let threshold := if isStructured then ClusterPairwiseThresholdDeterministic cfg else ClusterPairwiseThresholdNonDeterministic cfg in
  let parent := all_known (ae_pairwise e) ∅ in
  let parent := unite cfg threshold (range_pairs (ae_pairwise e)) parent in
  let groups := (uf_groups (range_set (dom parent)) parent).2 in
  let '(newClusters, result) := name_clusters groups in
  (mkEngine cfg (ae_assignmentCount e) (ae_epochStart e) newClusters (ae_pairwise e), result).
End clusters.

(** * validator.go: the coordinator *)

Record AssignmentConfig := mkAssignmentConfig { MaxConcurrentAssignments : Z; AssignmentTimeout : Z }.

Definition DefaultAssignmentConfig : AssignmentConfig := mkAssignmentConfig 50 300000000000.

Record ValidatorInfo := mkInfo { vi_ID : AgentID; vi_RegisteredAt : Z; vi_Active : bool; vi_Assignments : Z }.

Record assignment := mkAssignment { as_eventID : EventID; as_validatorID : AgentID; as_assignedAt : Z }.

Record AssignmentCoordinator := mkCoordinator {
  ac_config : AssignmentConfig; ac_validators : gmap AgentID ValidatorInfo; ac_assignments : gmap EventID assignment }.

Inductive CoordinatorError := ErrValidatorNotFound | ErrAlreadyAssigned | ErrNoAvailableValidators.

Definition NewAssignmentCoordinator (cfg : option AssignmentConfig) : AssignmentCoordinator := mkCoordinator (default DefaultAssignmentConfig cfg) ∅ ∅.

Definition vi_set (active : bool) (n : Z) (i : ValidatorInfo) : ValidatorInfo := mkInfo (vi_ID i) (vi_RegisteredAt i) active n.

Definition RegisterValidator (id : AgentID) (now : Z) (c : AssignmentCoordinator) : AssignmentCoordinator :=
  mkCoordinator (ac_config c)
    (<[id := match ac_validators c !! id with Some i => vi_set true (vi_Assignments i) i | None => mkInfo id now true 0 end]> (ac_validators c)) (ac_assignments c).

Definition UnregisterValidator (id : AgentID) (c : AssignmentCoordinator) : AssignmentCoordinator * option CoordinatorError :=
  match ac_validators c !! id with
  | None => (c, Some ErrValidatorNotFound)
  | Some i => (mkCoordinator (ac_config c) (<[id := vi_set false (vi_Assignments i) i]> (ac_validators c)) (ac_assignments c), None)
  end.

(** The least loaded of those that are active and below the maximum, the first one met on a tie. *)
Definition least_loaded (max : Z) (infos : list ValidatorInfo) : option ValidatorInfo :=
  foldl (λ selected info,
           if negb (vi_Active info) then selected
           else if decide (max <= vi_Assignments info) then selected
           else match selected with
                | None => Some info
                | Some s => if decide (vi_Assignments info < vi_Assignments s) then Some info else selected
                end) None infos.

(** One assignment less for a validator, as long as it has one. *)
Definition unload (id : AgentID) (vs : gmap AgentID ValidatorInfo) : gmap AgentID ValidatorInfo :=
  match vs !! id with
  | Some i => if decide (0 < vi_Assignments i) then <[id := vi_set (vi_Active i) (vi_Assignments i - 1) i]> vs else vs
  | None => vs
  end.

Section coordinator.
Context {ord : RangeOrder}.

Definition AssignVerification (eventID : EventID) (now : Z) (c : AssignmentCoordinator) : AssignmentCoordinator * (CoordinatorError + AgentID) :=
  match ac_assignments c !! eventID with
  | Some _ => (c, inl ErrAlreadyAssigned)
  | None =>
      match least_loaded (MaxConcurrentAssignments (ac_config c)) (range_map (ac_validators c)) with
      | None => (c, inl ErrNoAvailableValidators)
      | Some s =>
          (mkCoordinator (ac_config c) (<[vi_ID s := vi_set (vi_Active s) (vi_Assignments s + 1) s]> (ac_validators c))
             (<[eventID := mkAssignment eventID (vi_ID s) now]> (ac_assignments c)), inr (vi_ID s))
      end
  end.

(** [inr] hands the result to the engine. *)
Definition ProcessVerification (result : VerificationResult) (c : AssignmentCoordinator) : AssignmentCoordinator * (CoordinatorError + VerificationResult) :=
  match ac_assignments c !! vf_EventID result with
  | None => (c, inr result)
  | Some a =>
      if decide (as_validatorID a ≠ vf_VerifierID result) then (c, inl ErrValidatorNotFound)
      else (mkCoordinator (ac_config c) (unload (as_validatorID a) (ac_validators c)) (delete (vf_EventID result) (ac_assignments c)), inr result)
  end.

(** The body of the loop of [SweepExpiredAssignments]. *)
Definition sweep_one (now : Z) (st : AssignmentCoordinator * list EventID) (eventID : EventID) : AssignmentCoordinator * list EventID :=
  let '(c, expired) := st in
  match ac_assignments c !! eventID with
  | None => (c, expired)
  | Some a =>
      if decide (AssignmentTimeout (ac_config c) < time_Sub now (as_assignedAt a))
      then (mkCoordinator (ac_config c) (unload (as_validatorID a) (ac_validators c)) (delete eventID (ac_assignments c)), expired ++ [eventID])
      else (c, expired)
  end.

Definition SweepExpiredAssignments (now : Z) (c : AssignmentCoordinator) : AssignmentCoordinator * list EventID :=
  foldl (sweep_one now) (c, []) (range_set (dom (ac_assignments c))).

Definition ac_ActiveValidators (c : AssignmentCoordinator) : list ValidatorInfo := range_map (ac_validators c).
End coordinator.

(** * Forests *)

Section forest.
Implicit Types p : gmap string string.

(** The root of [x] is [r], [n] links up. *)
Inductive root_in p : nat → string → string → Prop :=
  | root_here x : p !! x = Some x → root_in p 0 x x
  | root_up n x y r : p !! x = Some y → x ≠ y → root_in p n y r → root_in p (S n) x r.

Definition root_of p (x r : string) : Prop := ∃ n, root_in p n x r.

(** Every node has a root. *)
Definition forest p : Prop := ∀ x y, p !! x = Some y → ∃ r, root_of p x r.

Definition same_root p (x y : string) : Prop := ∃ r, root_of p x r ∧ root_of p y r.

Lemma root_in_det p n x r : root_in p n x r → ∀ m s, root_in p m x s → n = m ∧ r = s.
Proof.
  induction 1 as [x Hx|n x y r Hx Hne H IH]; intros m s Hm; inversion Hm as [? Hx'|m' ? y' ? Hx' Hne' Hm']; subst; try congruence; [done|].
  rewrite Hx in Hx'. injection Hx' as <-. destruct (IH _ _ Hm') as [-> ->]. done.
Qed.

Lemma root_of_det p x r s : root_of p x r → root_of p x s → r = s.
Proof. intros [n Hn] [m Hm]. by apply (root_in_det _ _ _ _ Hn) in Hm as [_ ->]. Qed.

Lemma root_in_root p n x r : root_in p n x r → p !! r = Some r.
Proof. by induction 1. Qed.

Lemma root_of_root p x r : root_of p x r → root_of p r r.
Proof. intros [n Hn]. exists 0%nat. constructor. by eapply root_in_root. Qed.

Lemma root_of_dom p x r : root_of p x r → x ∈ dom p.
Proof. intros [n Hn]. apply elem_of_dom. inversion Hn; subst; eauto. Qed.

(** The nodes on the way up are distinct, so the way is no longer than the forest is large. *)
Lemma root_in_path p n x r : root_in p n x r → ∃ l, length l = S n ∧ NoDup l ∧ ∀ y, y ∈ l → y ∈ dom p ∧ ∃ m, (m <= n)%nat ∧ root_in p m y r.
Proof.
  induction 1 as [x Hx|n x y r Hx Hne H (l & Hlen & Hnd & Hl)].
  - exists [x]. split_and!; [done|apply NoDup_singleton|]. intros y ->%list_elem_of_singleton. split; [by apply elem_of_dom_2 in Hx|]. exists 0%nat. split; [done|by constructor].
  - exists (x :: l). split_and!; [cbn; lia| |].
    + constructor; [|done]. intros Hin. destruct (Hl _ Hin) as [_ (m & Hm & Hroot)].
      destruct (root_in_det _ _ _ _ Hroot (S n) r) as [Hmn _]; [by eapply root_up|lia].
    + intros z [->|Hz]%elem_of_cons; [split; [by apply elem_of_dom_2 in Hx|]; exists (S n); split; [done|by eapply root_up]|].
      destruct (Hl _ Hz) as [Hd (m & Hm & Hr)]. split; [done|]. exists m. split; [lia|done].
Qed.

Lemma root_in_bound p n x r : root_in p n x r → (n < size p)%nat.
Proof.
  intros (l & Hlen & Hnd & Hl)%root_in_path. rewrite <- size_dom. assert (Hsub : list_to_set l ⊆@{gset string} dom p) by (intros y Hy%elem_of_list_to_set; by apply Hl).
  apply subseteq_size in Hsub. rewrite size_list_to_set in Hsub by done. lia.
Qed.

(** [q] has the nodes of [p] and their roots, and perhaps more nodes. *)
Definition preserves p q : Prop := ∀ x r, root_of p x r → root_of q x r.

#[global] Instance preserves_preorder : PreOrder preserves.
Proof. split; [by intros p x r|]. intros p q s H1 H2 x r H. by apply H2, H1. Qed.

Lemma preserves_same p q x y : preserves p q → same_root p x y → same_root q x y.
Proof. intros H (r & Hx & Hy). exists r. split; by apply H. Qed.

Lemma preserves_dom p q : forest p → preserves p q → dom p ⊆ dom q.
Proof. intros Hf Hp x [y Hx]%elem_of_dom. destruct (Hf _ _ Hx) as [r Hr]. apply Hp in Hr. by eapply root_of_dom. Qed.

(** The roots of [q] are those of [p] where [p] has one. *)
Lemma preserves_back p q x r : forest p → preserves p q → x ∈ dom p → root_of q x r → root_of p x r.
Proof. intros Hf Hp [y Hx]%elem_of_dom Hr. destruct (Hf _ _ Hx) as [s Hs]. by rewrite (root_of_det q x r s Hr (Hp _ _ Hs)). Qed.

Lemma compress_preserves p x r : root_of p x r → preserves p (<[x := r]> p).
Proof.
  intros Hr z s [n Hn]. pose proof (root_of_root _ _ _ Hr) as Hrr. assert (Hroot : p !! r = Some r) by (destruct Hr as [m Hm]; by eapply root_in_root).
  induction Hn as [z Hz|n z y s Hz Hne Hn IH].
  - exists 0%nat. constructor. destruct (decide (z = x)) as [->|]; [|by rewrite lookup_insert_ne].
    rewrite lookup_insert_eq. f_equal. apply (root_of_det p x); [done|]. exists 0%nat. by constructor.
  - destruct (decide (z = x)) as [->|Hzx].
    + assert (s = r) as -> by (apply (root_of_det p x); [exists (S n); by eapply root_up|done]).
      destruct (decide (x = r)) as [<-|Hxr]; [rewrite Hroot in Hz; injection Hz as ->; done|].
      exists 1%nat. apply (root_up _ _ _ r); [by rewrite lookup_insert_eq|done|]. constructor. by rewrite lookup_insert_ne.
    + destruct IH as [m Hm]. exists (S m). apply (root_up _ _ _ y); [by rewrite lookup_insert_ne|done|done].
Qed.

Lemma compress_forest p x r : forest p → root_of p x r → forest (<[x := r]> p).
Proof.
  intros Hf Hr z y Hz. assert (Hd : z ∈ dom p).
  { destruct (decide (z = x)) as [->|]; [by eapply root_of_dom|]. rewrite lookup_insert_ne in Hz by done. by apply elem_of_dom_2 in Hz. }
  apply elem_of_dom in Hd as [y' Hy']. destruct (Hf _ _ Hy') as [s Hs]. exists s. by apply compress_preserves.
Qed.

Lemma fresh_preserves p x : p !! x = None → preserves p (<[x := x]> p).
Proof.
  intros Hx z s [n Hn]. exists n. induction Hn as [z Hz|n z y s Hz Hne Hn IH].
  - constructor. rewrite lookup_insert_ne; [done|congruence].
  - apply (root_up _ _ _ y); [|done|done]. rewrite lookup_insert_ne; [done|congruence].
Qed.

Lemma fresh_forest p x : forest p → p !! x = None → forest (<[x := x]> p).
Proof.
  intros Hf Hx z y [[<- <-]|[Hne Hz]]%lookup_insert_Some; [exists x, 0%nat; constructor; apply lookup_insert_eq|].
  destruct (Hf _ _ Hz) as [r Hr]. exists r. by apply fresh_preserves.
Qed.

(** [find] gives the root and keeps all roots. *)
Lemma uf_find_spec fuel : ∀ x p n r, forest p → root_in p n x r → (n < fuel)%nat →
  (uf_find fuel x p).1 = r ∧ forest (uf_find fuel x p).2 ∧ preserves p (uf_find fuel x p).2 ∧ dom (uf_find fuel x p).2 = dom p.
Proof.
  induction fuel as [|fuel IH]; intros x p n r Hf Hn Hlt; [lia|]. cbn [uf_find].
  inversion Hn as [? Hx|n' ? y ? Hx Hne Hn']; subst; rewrite Hx; cbn zeta; rewrite Hx; cbn [from_option]; cbn beta; unfold id.
  - rewrite decide_True by done. cbn. split_and!; done.
  - rewrite decide_False by done. destruct (IH y p n' r Hf Hn' ltac:(lia)) as (H1 & H2 & H3 & H4). destruct (uf_find fuel y p) as [root p']. cbn [fst snd] in *. subst root.
    assert (Hr : root_of p' x r) by (apply H3; by exists (S n')). split_and!; [done|by apply compress_forest| |].
    + etrans; [exact H3|]. by apply compress_preserves.
    + rewrite dom_insert_L, H4. apply elem_of_dom_2 in Hx. set_solver.
Qed.

Lemma find_all_spec x p : forest p → ∃ r, (find_all x p).1 = r ∧ root_of (find_all x p).2 x r ∧ forest (find_all x p).2 ∧ preserves p (find_all x p).2 ∧ dom (find_all x p).2 = {[x]} ∪ dom p ∧
  (x ∉ dom p → r = x ∧ (find_all x p).2 = <[x := x]> p).
Proof.
  intros Hf. unfold find_all. destruct (p !! x) as [y|] eqn:Hx.
  - destruct (Hf _ _ Hx) as [r [n Hn]]. destruct (uf_find_spec (S (size p)) x p n r Hf Hn) as (H1 & H2 & H3 & H4); [apply root_in_bound in Hn; lia|].
    exists r. split_and!; [done|by apply H3; exists n|done|done| |].
    + rewrite H4. apply elem_of_dom_2 in Hx. set_solver.
    + intros Hd. apply elem_of_dom_2 in Hx. done.
  - exists x. cbn [uf_find]. rewrite Hx. cbn zeta. rewrite lookup_insert_eq. cbn [from_option]. cbn beta. unfold id. rewrite decide_True by done. cbn [fst snd].
    split_and!; [done|exists 0%nat; constructor; apply lookup_insert_eq|by apply fresh_forest|by apply fresh_preserves|by rewrite dom_insert_L|done].
Qed.

(** Linking one root below another joins the two trees and leaves the others. *)
Lemma link_roots p rx ry x r : forest p → p !! rx = Some rx → p !! ry = Some ry → rx ≠ ry → root_of p x r →
  root_of (<[rx := ry]> p) x (if decide (r = rx) then ry else r).
Proof.
  intros Hf Hrx Hry Hne [n Hn]. induction Hn as [x Hx|n x y r Hx Hxy Hn IH].
  - case_decide as E; [subst x; exists 1%nat; apply (root_up _ _ _ ry); [by rewrite lookup_insert_eq|done|constructor; by rewrite lookup_insert_ne]|].
    exists 0%nat. constructor. by rewrite lookup_insert_ne.
  - destruct IH as [m Hm]. exists (S m). apply (root_up _ _ _ y); [|done|done]. rewrite lookup_insert_ne; [done|]. intros <-. congruence.
Qed.

Lemma link_forest p rx ry : forest p → p !! rx = Some rx → p !! ry = Some ry → rx ≠ ry → forest (<[rx := ry]> p).
Proof.
  intros Hf Hrx Hry Hne x y Hx. assert (Hd : is_Some (p !! x)) by (destruct (decide (x = rx)) as [->|]; [eauto|rewrite lookup_insert_ne in Hx by done; eauto]).
  destruct Hd as [y' Hy']. destruct (Hf _ _ Hy') as [r Hr]. eexists. by eapply link_roots.
Qed.

Lemma uf_union_spec x y p : forest p → x ∈ dom p → y ∈ dom p →
  forest (uf_union x y p) ∧ dom (uf_union x y p) = dom p ∧ same_root (uf_union x y p) x y ∧
  (∀ a b, same_root p a b → same_root (uf_union x y p) a b) ∧
  (∀ a b, same_root (uf_union x y p) a b → same_root p a b ∨ (same_root p a x ∧ same_root p b y) ∨ (same_root p a y ∧ same_root p b x)).
Proof.
  intros Hf Hx Hy. unfold uf_union. destruct (find_all_spec x p Hf) as (rx & E1 & R1 & F1 & P1 & D1 & _). destruct (find_all x p) as [rx' p1]. cbn [fst snd] in *. subst rx'.
  destruct (find_all_spec y p1 F1) as (ry & E2 & R2 & F2 & P2 & D2 & _). destruct (find_all y p1) as [ry' p2]. cbn [fst snd] in *. subst ry'.
  assert (Dom : dom p2 = dom p) by set_solver. assert (P : preserves p p2) by (by etrans). apply P2 in R1.
  assert (Back : ∀ a b, a ∈ dom p2 → b ∈ dom p2 → same_root p2 a b → same_root p a b).
  { intros a b Ha Hb (r & H1 & H2). rewrite Dom in Ha, Hb. exists r. split; by eapply preserves_back. }
  case_decide as Hr.
  - subst ry. split_and!; [done|done|by exists rx|intros a b; by apply preserves_same|]. intros a b Hab. left. destruct Hab as (r & Ha & Hb). apply Back; [by eapply root_of_dom|by eapply root_of_dom|by exists r].
  - assert (Hrx : p2 !! rx = Some rx) by (destruct R1 as [? R1]; by eapply root_in_root). assert (Hry : p2 !! ry = Some ry) by (destruct R2 as [? R2]; by eapply root_in_root).
    pose proof (link_roots p2 rx ry) as L. split_and!.
    + by apply link_forest.
    + rewrite dom_insert_L, Dom. apply elem_of_dom_2 in Hrx. rewrite Dom in Hrx. set_solver.
    + exists ry. split; [specialize (L x rx F2 Hrx Hry Hr R1); by rewrite decide_True in L|]. specialize (L y ry F2 Hrx Hry Hr R2). by rewrite decide_False in L.
    + intros a b (r & Ha & Hb). apply P in Ha, Hb. eexists. split; eapply L; done.
    + intros a b (r & Ha & Hb).
      assert (Hroots : ∀ c, root_of (<[rx := ry]> p2) c r → ∃ s, root_of p2 c s ∧ r = (if decide (s = rx) then ry else s) ∧ c ∈ dom p2).
      { intros c Hc. pose proof (root_of_dom _ _ _ Hc) as Hd. rewrite dom_insert_L in Hd. assert (Hd' : c ∈ dom p2) by (apply elem_of_dom_2 in Hrx; set_solver).
        pose proof Hd' as [d Hcd]%elem_of_dom. destruct (F2 _ _ Hcd) as [s Hs]. exists s. split_and!; [done| |done]. eapply root_of_det; [exact Hc|]. by apply L. }
      destruct (Hroots a Ha) as (sa & Sa & Ea & Da). destruct (Hroots b Hb) as (sb & Sb & Eb & Db).
      assert (Sub : ∀ c d s, root_of p2 c s → root_of p2 d s → same_root p c d) by (intros c d s Hc Hd; apply Back; [by eapply root_of_dom|by eapply root_of_dom|by exists s]).
      destruct (decide (sa = rx)) as [->|], (decide (sb = rx)) as [->|]; subst.
      * left. by eapply Sub.
      * right. left. split; by eapply Sub.
      * right. right. split; by eapply Sub.
      * left. by eapply Sub.
Qed.
End forest.

(** * Clusters are the components of the agreement graph *)

Lemma foldl_invariant {A B} (P : A → list B → Prop) (f : A → B → A) (l : list B) : ∀ a done, P a done → (∀ a done b, b ∈ l → P a done → P (f a b) (done ++ [b])) →
  P (foldl f a l) (done ++ l).
Proof.
  induction l as [|b l IH]; intros a done Ha Hstep; cbn [foldl]; [by rewrite app_nil_r|].
  assert (E : done ++ b :: l = (done ++ [b]) ++ l) by (by rewrite <- app_assoc). rewrite E. apply IH; [apply Hstep; [by left|done]|]. intros a' d' b' Hb. apply Hstep. by right.
Qed.

Section components.
Context {ord : RangeOrder}.
Implicit Types p : gmap string string.

(** Every node is alone. *)
Definition discrete p : Prop := ∀ x y, p !! x = Some y → y = x.

Lemma find_all_discrete x p : discrete p → (find_all x p).2 = <[x := x]> p.
Proof.
  intros Hd. unfold find_all. cbn [uf_find]. destruct (p !! x) as [y|] eqn:Hx; cbn zeta; [rewrite Hx|rewrite lookup_insert_eq]; cbn [from_option]; cbn beta; unfold id.
  - apply Hd in Hx as Hy. subst y. rewrite decide_True by done. cbn. by rewrite insert_id.
  - by rewrite decide_True.
Qed.

Lemma discrete_insert x p : discrete p → discrete (<[x := x]> p).
Proof. intros Hd y z [[<- <-]|[_ H]]%lookup_insert_Some; [done|by apply Hd]. Qed.

Lemma finds_discrete l : ∀ p, discrete p → discrete (foldl (λ p k, (find_all k p).2) p l) ∧ dom (foldl (λ p k, (find_all k p).2) p l) = list_to_set l ∪ dom p.
Proof.
  induction l as [|x l IH]; intros p Hd; cbn [foldl list_to_set]; [split; [done|set_solver]|]. rewrite find_all_discrete by done.
  destruct (IH _ (discrete_insert x p Hd)) as [H1 H2]. split; [done|]. rewrite H2, dom_insert_L. set_solver.
Qed.

Definition pair_of (pw : gmap string (gmap string pairwiseRecord)) (k1 k2 : string) : option pairwiseRecord := inner ← pw !! k1; inner !! k2.

Lemma all_known_spec pw : discrete (all_known pw ∅) ∧ ∀ k1 k2 rec, pair_of pw k1 k2 = Some rec → k1 ∈ dom (all_known pw ∅) ∧ k2 ∈ dom (all_known pw ∅).
Proof.
  pose (P := λ p (done : list string), discrete p ∧ ∀ k1, k1 ∈ done → k1 ∈ dom p ∧ ∀ k2 rec, pair_of pw k1 k2 = Some rec → k2 ∈ dom p).
  assert (H : P (all_known pw ∅) ([] ++ range_set (dom pw))).
  { unfold all_known. apply foldl_invariant.
    - split; [by intros x y|]. intros k Hk. by apply not_elem_of_nil in Hk.
    - intros p dn k1 Hk1 [Hd Hdone]. rewrite find_all_discrete by done. set (l := match pw !! k1 with Some inner => _ | None => _ end).
      destruct (finds_discrete l _ (discrete_insert k1 p Hd)) as [H1 H2]. split; [done|]. rewrite H2, dom_insert_L.
      intros k [Hk| ->%list_elem_of_singleton]%elem_of_app; [destruct (Hdone k Hk) as [Ha Hb]; split; [set_solver|]; intros k2 rec Hr; specialize (Hb k2 rec Hr); set_solver|].
      split; [set_solver|]. intros k2 rec Hr. apply elem_of_union. left. apply elem_of_list_to_set. unfold l, pair_of in *. destruct (pw !! k1) as [inner|]; [|done].
      apply elem_of_range_set. cbn in Hr. by apply elem_of_dom_2 in Hr. }
  destruct H as [H1 H2]. split; [done|]. intros k1 k2 rec Hr. assert (Hk : k1 ∈ [] ++ range_set (dom pw)).
  { apply elem_of_range_set. unfold pair_of in Hr. destruct (pw !! k1) eqn:E; [by apply elem_of_dom_2 in E|done]. }
  destruct (H2 k1 Hk) as [Ha Hb]. split; [done|by eapply Hb].
Qed.

Lemma elem_of_range_pairs pw k1 k2 rec : (k1, k2, rec) ∈ range_pairs pw ↔ pair_of pw k1 k2 = Some rec.
Proof.
  unfold range_pairs, pair_of. rewrite list_elem_of_bind. split.
  - intros (k & Hin & _). destruct (pw !! k) as [inner|] eqn:E; [|by apply not_elem_of_nil in Hin]. apply list_elem_of_omap in Hin as (j & _ & Hj).
    destruct (inner !! j) as [r|] eqn:Er; [|done]. cbn in Hj. injection Hj as <- <- <-. by rewrite E.
  - intros H. destruct (pw !! k1) as [inner|] eqn:E; [|done]. cbn in H. exists k1. rewrite E. split; [|apply elem_of_range_set; by apply elem_of_dom_2 in E].
    apply list_elem_of_omap. exists k2. split; [apply elem_of_range_set; by apply elem_of_dom_2 in H|]. by rewrite H.
Qed.

Lemma discrete_forest p : discrete p → forest p.
Proof. intros Hd x y Hx. apply Hd in Hx as Hy. subst y. exists x, 0%nat. by constructor. Qed.

Lemma discrete_same p x y : discrete p → same_root p x y → x = y.
Proof.
  intros Hd (r & [n Hn] & [m Hm]). assert (G : ∀ n z, root_in p n z r → z = r) by (intros k z Hz; inversion Hz as [|? ? w ? Hw Hne]; subst; [done|]; by apply Hd in Hw).
  by rewrite (G _ _ Hn), (G _ _ Hm).
Qed.

Lemma same_sym p x y : same_root p x y → same_root p y x.
Proof. intros (r & ? & ?). by exists r. Qed.

Lemma same_trans p x y z : same_root p x y → same_root p y z → same_root p x z.
Proof. intros (r & Hx & Hy) (s & Hy' & Hz). exists r. split; [done|]. by rewrite (root_of_det p y r s). Qed.

Lemma same_refl p x : forest p → x ∈ dom p → same_root p x x.
Proof. intros Hf [y Hx]%elem_of_dom. destruct (Hf _ _ Hx) as [r Hr]. by exists r. Qed.

(** Two validators agree too often. *)
Definition agrees (cfg : ValidatorConfig) (threshold : F64) (pw : gmap string (gmap string pairwiseRecord)) (a b : string) : Prop :=
  ∃ rec, pair_of pw a b = Some rec ∧ flagged cfg threshold rec = true.

Lemma unite_spec cfg t pw p0 : discrete p0 → (∀ k1 k2 rec, pair_of pw k1 k2 = Some rec → k1 ∈ dom p0 ∧ k2 ∈ dom p0) →
  let p := unite cfg t (range_pairs pw) p0 in
  forest p ∧ dom p = dom p0 ∧ ∀ a b, a ∈ dom p0 → (same_root p a b ↔ rtsc (agrees cfg t pw) a b).
Proof.
  intros Hd Hdom p.
  pose (P := λ p (dn : list (string * string * pairwiseRecord)), forest p ∧ dom p = dom p0 ∧ (∀ a b, same_root p a b → rtsc (agrees cfg t pw) a b) ∧
    ∀ k1 k2 rec, (k1, k2, rec) ∈ dn → flagged cfg t rec = true → same_root p k1 k2).
  assert (H : P p ([] ++ range_pairs pw)).
  { unfold p, unite. apply foldl_invariant.
    - split_and!; [by apply discrete_forest|done|intros a b Hab; apply discrete_same in Hab as ->; [done|done]|]. intros k1 k2 rec Hin. by apply not_elem_of_nil in Hin.
    - intros q dn [[k1 k2] rec] Hin (Hf & Hdq & Hs & Hc). apply elem_of_range_pairs in Hin. destruct (Hdom _ _ _ Hin) as [D1 D2].
      destruct (flagged cfg t rec) eqn:Ef.
      + destruct (uf_union_spec k1 k2 q Hf) as (U1 & U2 & U3 & U4 & U5); [by rewrite Hdq..|].
        assert (Hedge : rtsc (agrees cfg t pw) k1 k2) by (apply rtc_once; left; by exists rec).
        assert (Hedge' : rtsc (agrees cfg t pw) k2 k1) by (apply rtc_once; right; by exists rec).
        split_and!; [done|by rewrite U2| |].
        * intros a b [Hab|[[Ha Hb]|[Ha Hb]]]%U5; [by apply Hs| |].
          -- etrans; [by apply Hs|]. etrans; [exact Hedge|]. apply Hs. by apply same_sym.
          -- etrans; [by apply Hs|]. etrans; [exact Hedge'|]. apply Hs. by apply same_sym.
        * intros j1 j2 r [Hj|[= -> -> ->]%list_elem_of_singleton]%elem_of_app Hfl; [apply U4; by eapply Hc|done].
      + split_and!; [done|done|done|]. intros j1 j2 r [Hj|[= -> -> ->]%list_elem_of_singleton]%elem_of_app Hfl; [by eapply Hc|congruence]. }
  destruct H as (Hf & Hdp & Hs & Hc). split_and!; [done|done|]. intros a b Ha. split; [apply Hs|]. intros Hl.
  assert (Hstep : ∀ x y, agrees cfg t pw x y → same_root p x y).
  { intros x y (rec & Hr & Hfl). eapply Hc; [|done]. by apply elem_of_range_pairs. }
  rewrite <- Hdp in Ha. induction Hl as [x|x y z Hxy Hyz IH]; [by apply same_refl|].
  assert (Hsame : same_root p x y) by (destruct Hxy as [Hxy|Hxy]; [by apply Hstep|by apply same_sym, Hstep]).
  eapply same_trans; [exact Hsame|]. apply IH. destruct Hsame as (r & _ & Hy). by eapply root_of_dom.
Qed.

(** The groups are the trees. *)
Lemma uf_groups_spec p0 : forest p0 → let groups := (uf_groups (range_set (dom p0)) p0).2 in
  ∀ r, NoDup (default [] (groups !! r)) ∧ ∀ v, v ∈ default [] (groups !! r) ↔ root_of p0 v r.
Proof.
  intros Hf groups.
  pose (P := λ (st : gmap string string * gmap string (list string)) (dn : list string), forest st.1 ∧ preserves p0 st.1 ∧ dom st.1 = dom p0 ∧
    (NoDup dn → ∀ r, NoDup (default [] (st.2 !! r))) ∧ ∀ r v, v ∈ default [] (st.2 !! r) ↔ v ∈ dn ∧ root_of p0 v r).
  assert (H : P (uf_groups (range_set (dom p0)) p0) ([] ++ range_set (dom p0))).
  { unfold uf_groups. apply foldl_invariant.
    - split_and!; [done|done|done|intros _ r; cbn [snd]; rewrite lookup_empty; apply NoDup_nil_2|]. intros r v. cbn. rewrite lookup_empty. cbn. split; [intros Hv; by apply not_elem_of_nil in Hv|intros [Hv _]; by apply not_elem_of_nil in Hv].
    - intros [q g] dn vid Hvid (Fq & Pq & Dq & Ng & Hg). cbn [fst snd] in *. apply elem_of_range_set in Hvid.
      destruct (find_all_spec vid q Fq) as (r0 & E & R & F & Pres & D & _). destruct (find_all vid q) as [root q']. cbn [fst snd] in *. subst root.
      assert (Pq' : preserves p0 q') by (by etrans). assert (R0 : root_of p0 vid r0) by (by eapply preserves_back).
      assert (Hmem : ∀ r, default [] (<[r0 := default [] (g !! r0) ++ [vid]]> g !! r) = default [] (g !! r) ++ (if decide (r = r0) then [vid] else [])).
      { intros r. case_decide as Hr; [subst; by rewrite lookup_insert_eq|]. rewrite lookup_insert_ne by done. by rewrite app_nil_r. }
      split_and!; [done|done|cbn [fst]; rewrite D, Dq; set_solver| |].
      + intros [Hnd [Hdis _]]%NoDup_app r. cbn [snd]. rewrite Hmem. case_decide as Hr; [|rewrite app_nil_r; by apply Ng]. apply NoDup_app. split_and!; [by apply Ng| |apply NoDup_singleton].
        intros v [Hv _]%Hg ->%list_elem_of_singleton. by apply (Hdis vid Hv), list_elem_of_singleton.
      + intros r v. cbn [snd]. rewrite Hmem, !elem_of_app, Hg, list_elem_of_singleton. case_decide as Hr.
        * subst r. rewrite list_elem_of_singleton. split; [intros [[? ?]| ->]; [tauto|by split; [right|]]|intros [[?| ->] ?]; [tauto|by right]].
        * split; [intros [[? ?]|Hv]; [tauto|by apply not_elem_of_nil in Hv]|]. intros [[?| ->] Hrt]; [tauto|]. exfalso. apply Hr. by eapply root_of_det. }
  destruct H as (_ & _ & _ & Hnd & Hg). intros r. split; [apply Hnd, range_set_NoDup|]. intros v. unfold groups. rewrite Hg. split; [by intros [_ ?]|]. intros Hv. split; [|done].
  apply elem_of_range_set. by eapply root_of_dom.
Qed.

Lemma insert_members c members : ∀ (m : gmap string string) v, foldl (λ m vid, <[vid := c]> m) m members !! v = if decide (v ∈ members) then Some c else m !! v.
Proof.
  induction members as [|x members IH]; intros m v; cbn [foldl]; [by rewrite decide_False by apply not_elem_of_nil|]. rewrite IH.
  destruct (decide (v ∈ members)) as [Hv|Hv]; [by rewrite decide_True by (by right)|].
  destruct (decide (v = x)) as [->|Hne]; [rewrite lookup_insert_eq, decide_True by (by left); done|]. rewrite lookup_insert_ne by done. rewrite decide_False; [done|]. intros [?|?]%elem_of_cons; done.
Qed.

(** A group of two or more gets the name of its root. *)
Lemma name_clusters_spec groups : (∀ r s v, v ∈ default [] (groups !! r) → v ∈ default [] (groups !! s) → r = s) →
  let '(clusters, result) := name_clusters groups in
  (∀ v c, clusters !! v = Some c ↔ ∃ r l, groups !! r = Some l ∧ (2 <= length l)%nat ∧ v ∈ l ∧ c = "cluster:" +:+ r) ∧
  (∀ l, l ∈ result ↔ ∃ r, groups !! r = Some l ∧ (2 <= length l)%nat).
Proof.
  intros Hdis.
  pose (P := λ (st : gmap string string * list (list string)) (dn : list string),
    (∀ v c, st.1 !! v = Some c ↔ ∃ r l, r ∈ dn ∧ groups !! r = Some l ∧ (2 <= length l)%nat ∧ v ∈ l ∧ c = "cluster:" +:+ r) ∧
    (∀ l, l ∈ st.2 ↔ ∃ r, r ∈ dn ∧ groups !! r = Some l ∧ (2 <= length l)%nat)).
  assert (H : P (name_clusters groups) ([] ++ range_set (dom groups))).
  { unfold name_clusters. apply foldl_invariant.
    - split; cbn; [intros v c; rewrite lookup_empty; split; [done|]; intros (r & l & Hr & _); by apply not_elem_of_nil in Hr|].
      intros l. split; [intros Hl; by apply not_elem_of_nil in Hl|]. intros (r & Hr & _). by apply not_elem_of_nil in Hr.
    - intros [m res] dn root Hroot [Hm Hres]. cbn [fst snd] in *. apply elem_of_range_set, elem_of_dom in Hroot as [members Hg]. rewrite Hg.
      assert (Hskip : (length members < 2)%nat → P (m, res) (dn ++ [root])).
      { intros Hlt. split; cbn [fst snd].
        - intros v c. rewrite Hm. split; intros (r & l & Hr & Hl & H2 & Hv & Hc); exists r, l; [split_and!; [apply elem_of_app; by left|done..]|].
          apply elem_of_app in Hr as [Hr| ->%list_elem_of_singleton]; [by split_and!|]. rewrite Hg in Hl. injection Hl as <-. lia.
        - intros l. rewrite Hres. split; intros (r & Hr & Hl & H2); exists r; [split_and!; [apply elem_of_app; by left|done..]|].
          apply elem_of_app in Hr as [Hr| ->%list_elem_of_singleton]; [by split_and!|]. rewrite Hg in Hl. injection Hl as <-. lia. }
      case_decide as Hlt; [by apply Hskip|]. split; cbn [fst snd].
      + intros v c. rewrite insert_members. case_decide as Hv.
        * split; [intros [= <-]; exists root, members; split_and!; [apply elem_of_app; right; by apply list_elem_of_singleton|done|lia|done|done]|].
          intros (r & l & _ & Hl & _ & Hvl & ->). assert (root = r) as <-; [|done]. apply (Hdis _ _ v); [by rewrite Hg|by rewrite Hl].
        * rewrite Hm. split; intros (r & l & Hr & Hl & H2 & Hvl & Hc); exists r, l; [split_and!; [apply elem_of_app; by left|done..]|].
          apply elem_of_app in Hr as [Hr| ->%list_elem_of_singleton]; [by split_and!|]. rewrite Hg in Hl. injection Hl as <-. done.
      + intros l. rewrite elem_of_app, Hres, list_elem_of_singleton. split.
        * intros [(r & Hr & Hl & H2)| ->]; [exists r; split_and!; [apply elem_of_app; by left|done..]|]. exists root. split_and!; [apply elem_of_app; right; by apply list_elem_of_singleton|done|lia].
        * intros (r & Hr & Hl & H2). apply elem_of_app in Hr as [Hr| ->%list_elem_of_singleton]; [left; by exists r|right; congruence]. }
  destruct (name_clusters groups) as [clusters result]. destruct H as [H1 H2]. cbn [fst snd app] in *.
  assert (Hin : ∀ r l, groups !! r = Some l → r ∈ range_set (dom groups)) by (intros r l Hl; apply elem_of_range_set; by apply elem_of_dom_2 in Hl).
  split.
  - intros v c. rewrite H1. split; [intros (r & l & _ & Hl); eauto|]. intros (r & l & Hl & Hrest). exists r, l. split; [by eapply Hin|done].
  - intros l. rewrite H2. split; [intros (r & _ & Hl); eauto|]. intros (r & Hl & Hrest). exists r. split; [by eapply Hin|done].
Qed.
End components.

Section clusters_theorem.
Context {ord : RangeOrder}.

Definition threshold_of (isStructured : bool) (cfg : ValidatorConfig) : F64 :=
  if isStructured then ClusterPairwiseThresholdDeterministic cfg else ClusterPairwiseThresholdNonDeterministic cfg.

(** Linked by a chain of pairs that agree too often. *)
Definition linked (isStructured : bool) (e : AssignmentEngine) : string → string → Prop :=
  rtsc (agrees (ae_cfg e) (threshold_of isStructured (ae_cfg e)) (ae_pairwise e)).

Lemma two_members (l : list string) v : NoDup l → v ∈ l → (2 <= length l)%nat ↔ ∃ w, w ≠ v ∧ w ∈ l.
Proof.
  intros Hnd Hv. split.
  - intros Hlen. apply elem_of_Permutation in Hv as [l' Hl]. destruct l' as [|w l']; [rewrite Hl in Hlen; cbn in Hlen; lia|].
    exists w. rewrite Hl in Hnd |- *. apply NoDup_cons in Hnd as [Hni _]. split; [|by right; left]. intros ->. apply Hni. by left.
  - intros (w & Hne & Hw). destruct l as [|a [|b l]]; [by apply not_elem_of_nil in Hv| |cbn; lia]. apply list_elem_of_singleton in Hv, Hw. congruence.
Qed.

Lemma cluster_name_inj r s : "cluster:" +:+ r = "cluster:" +:+ s → r = s.
Proof. intros E. by injection E. Qed.

(** What [CheckPairwiseClusters] computes. *)
Lemma clusters_spec isStructured e : let '(e', result) := CheckPairwiseClusters isStructured e in
  (∀ v, is_Some (ae_clusters e' !! v) ↔ ∃ w, w ≠ v ∧ linked isStructured e v w) ∧
  (∀ v w c, ae_clusters e' !! v = Some c → (ae_clusters e' !! w = Some c ↔ linked isStructured e v w)) ∧
  (∀ l, l ∈ result ↔ NoDup l ∧ l ∈ result ∧ ∃ c, (∃ v, v ∈ l) ∧ ∀ v, v ∈ l ↔ ae_clusters e' !! v = Some c) ∧
  (∀ v c, ae_clusters e' !! v = Some c → ∃ l, l ∈ result ∧ v ∈ l) ∧
  ae_cfg e' = ae_cfg e ∧ ae_pairwise e' = ae_pairwise e ∧ ae_assignmentCount e' = ae_assignmentCount e ∧ ae_epochStart e' = ae_epochStart e.
Proof.
  unfold CheckPairwiseClusters. fold (threshold_of isStructured (ae_cfg e)). set (t := threshold_of isStructured (ae_cfg e)). set (pw := ae_pairwise e).
  destruct (all_known_spec pw) as [Hdis Hends]. set (p0 := all_known pw ∅) in *. destruct (unite_spec (ae_cfg e) t pw p0 Hdis Hends) as (Hf & Hdom & Hsame). set (p := unite _ _ _ p0) in *.
  pose proof (uf_groups_spec p Hf) as Hg. cbn zeta in Hg. set (groups := (uf_groups _ p).2) in *.
  pose proof (name_clusters_spec groups) as Hn. destruct (name_clusters groups) as [clusters result]. destruct Hn as [Hc Hr].
  { intros r s v Hv Hw. apply Hg in Hv, Hw. by eapply root_of_det. }
  cbn [ae_clusters ae_cfg ae_pairwise ae_assignmentCount ae_epochStart].
  assert (Hgl : ∀ r l, groups !! r = Some l → NoDup l ∧ ∀ v, v ∈ l ↔ root_of p v r) by (intros r l Hl; specialize (Hg r); rewrite Hl in Hg; exact Hg).
  assert (Hlg : ∀ v r, root_of p v r → ∃ l, groups !! r = Some l ∧ v ∈ l).
  { intros v r Hvr. apply Hg in Hvr. destruct (groups !! r) as [l|]; [by exists l|]. by apply not_elem_of_nil in Hvr. }
  assert (Hlink : ∀ v w r, root_of p v r → (linked isStructured e v w ↔ root_of p w r)).
  { intros v w r Hv. unfold linked. fold t. fold pw. rewrite <- Hsame by (rewrite <- Hdom; by eapply root_of_dom). split; [|by exists r].
    intros (s & Hvs & Hws). by rewrite (root_of_det p v r s). }
  assert (Hout : ∀ v w, v ∉ dom p → w ≠ v → ¬ linked isStructured e v w).
  { intros v w Hv Hne Hl. unfold linked in Hl. inversion Hl as [|? y ? Hvy _]; subst; [done|]. destruct Hvy as [(rec & Hrec & _)|(rec & Hrec & _)]; apply Hends in Hrec as [? ?]; by rewrite Hdom in Hv. }
  assert (Hin : ∀ v, (∃ w, w ≠ v ∧ linked isStructured e v w) → ∃ r l, root_of p v r ∧ groups !! r = Some l ∧ (2 <= length l)%nat ∧ v ∈ l).
  { intros v (w & Hne & Hl). destruct (decide (v ∈ dom p)) as [Hv|Hv]; [|by apply (Hout v w) in Hl]. apply elem_of_dom in Hv as [y Hv]. destruct (Hf _ _ Hv) as [r Hvr].
    destruct (Hlg v r Hvr) as (l & Hl' & Hvl). destruct (Hgl r l Hl') as [Hnd Hm]. exists r, l. split_and!; [done|done| |done]. apply (two_members l v); [done|done|]. exists w. split; [done|]. apply Hm. by apply (Hlink v w r). }
  split_and!.
  - intros v. split.
    + intros [c (r & l & Hl & H2 & Hv & _)%Hc]. destruct (Hgl r l Hl) as [Hnd Hm]. apply (two_members l v) in H2 as (w & Hne & Hw); [|done|done]. exists w. split; [done|]. apply Hm in Hv, Hw. by apply (Hlink v w r).
    + intros (r & l & Hvr & Hl & H2 & Hv)%Hin. eexists. apply Hc. exists r, l. split_and!; done.
  - intros v w c (r & l & Hl & H2 & Hv & ->)%Hc. destruct (Hgl r l Hl) as [Hnd Hm]. pose proof (proj1 (Hm v) Hv) as Hvr. rewrite (Hlink v w r Hvr), Hc. split.
    + intros (s & l' & Hl' & _ & Hw & E%cluster_name_inj). subst s. rewrite Hl in Hl'. injection Hl' as <-. by apply Hm.
    + intros Hw. exists r, l. split_and!; [done|done|by apply Hm|done].
  - intros l. split; [|tauto]. intros Hl. pose proof Hl as (r & Hgr & H2)%Hr. destruct (Hgl r l Hgr) as [Hnd Hm]. split; [done|]. split; [done|]. exists ("cluster:" +:+ r). split.
    + destruct l as [|a l]; [cbn in H2; lia|]. exists a. by left.
    + intros v. rewrite Hc. split; [intros Hv; by exists r, l|]. intros (s & l' & Hl' & _ & Hv & E%cluster_name_inj). subst s. rewrite Hgr in Hl'. by injection Hl' as <-.
  - intros v c (r & l & Hl & H2 & Hv & ->)%Hc. exists l. split; [|done]. apply Hr. by exists r.
  - done.
  - done.
  - done.
  - done.
Qed.
End clusters_theorem.

(** C23: clusters are the components of the agreement graph.  Whatever the order in which Go visits its maps, after
    [CheckPairwiseClusters] a validator has a cluster if and only if a chain of pairs whose agreement is above the threshold links it to
    another one, two validators share their cluster if and only if such a chain links them, and the clusters that are returned are
    exactly the sets of validators with the same cluster; counts and records are left alone. *)
Theorem clusters_exact {ord : RangeOrder} isStructured e e' result : CheckPairwiseClusters isStructured e = (e', result) →
  (∀ v, is_Some (ae_clusters e' !! v) ↔ ∃ w, w ≠ v ∧ linked isStructured e v w) ∧
  (∀ v w c, ae_clusters e' !! v = Some c → (ae_clusters e' !! w = Some c ↔ linked isStructured e v w)) ∧
  (∀ l, l ∈ result → NoDup l ∧ ∃ c, ∀ v, v ∈ l ↔ ae_clusters e' !! v = Some c) ∧
  (∀ v c, ae_clusters e' !! v = Some c → ∃ l, l ∈ result ∧ v ∈ l) ∧
  ae_pairwise e' = ae_pairwise e ∧ ae_assignmentCount e' = ae_assignmentCount e.
Proof.
  intros E. pose proof (clusters_spec isStructured e) as H. rewrite E in H. destruct H as (H1 & H2 & H3 & H4 & _ & H5 & H6 & _).
  split_and!; [done|done| |done|done|done]. intros l Hl. apply H3 in Hl as (Hnd & _ & c & _ & Hc). split; [done|]. by exists c.
Qed.

(** * The draw *)

Section draws.
Context {St : Type} {ord : RangeOrder}.
Implicit Types reg : ValidatorRegistry St.

Lemma draw_in pool : ∀ pick last, draw pick last pool ∈ last :: pool.*1.
Proof.
  induction pool as [|[v w] pool IH]; intros pick last; cbn [draw]; [by left|]. case_match; [right; by left|]. right. apply IH.
Qed.

Lemma elem_of_pool source category ex reg e v w : (v, w) ∈ pool_of source category ex reg e ↔
  v ∈ candidates_of category reg ∧ excluded_by ex e (v_ID v) = false ∧ over_cap category v reg e = false ∧ w = draw_weight source category v e ∧ f64_leb w (mkF64 0 1) = false.
Proof.
  unfold pool_of. rewrite list_elem_of_omap. split.
  - intros (u & Hu & E). destruct (excluded_by _ _ _) eqn:E1; [done|]. destruct (over_cap _ _ _ _) eqn:E2; [done|]. cbv zeta in E. destruct (f64_leb _ _) eqn:E3; [done|]. injection E as <- <-. done.
  - intros (Hv & E1 & E2 & -> & E3). exists v. by rewrite E1, E2, E3.
Qed.

Lemma excluded_by_false ex e id : excluded_by ex e id = false ↔ id ∉ ex ∧ ∀ x c, x ∈ ex → ae_clusters e !! x = Some c → ae_clusters e !! id ≠ Some c.
Proof.
  unfold excluded_by. rewrite orb_false_iff, bool_decide_eq_false, <- not_true_iff_false, existsb_exists. split.
  - intros [H1 H2]. split; [done|]. intros x c Hx Hc Hid. apply H2. exists x. split; [by apply list_elem_of_In|]. rewrite Hc. by apply bool_decide_eq_true.
  - intros [H1 H2]. split; [done|]. intros (x & Hx%list_elem_of_In & E). destruct (ae_clusters e !! x) as [c|] eqn:Ec; [|done]. apply bool_decide_eq_true in E. by apply (H2 x c).
Qed.

Lemma reset_keeps now e : ae_clusters (maybeResetEpoch now e) = ae_clusters e ∧ ae_cfg (maybeResetEpoch now e) = ae_cfg e ∧ ae_pairwise (maybeResetEpoch now e) = ae_pairwise e.
Proof. unfold maybeResetEpoch. by case_decide. Qed.

Lemma count_assignment_spec category id e k j : count_of k j (count_assignment category id e) = count_of k j e + (if decide (k = category ∧ j = id) then 1 else 0).
Proof.
  unfold count_assignment, count_of, counts_of. cbn. destruct (decide (k = category)) as [->|Hk].
  - rewrite lookup_insert_eq. cbn. destruct (decide (j = id)) as [->|Hj]; [rewrite lookup_insert_eq; cbn; by rewrite decide_True|].
    rewrite lookup_insert_ne by done. rewrite decide_False by tauto. lia.
  - rewrite lookup_insert_ne by done. rewrite decide_False by tauto. lia.
Qed.

Lemma select_cases source category ex reg now random e e' o : selectValidatorLocked source category ex reg now random e = (e', o) →
  let e1 := maybeResetEpoch now e in
  match o with
  | None => pool_of source category ex reg e1 = [] ∧ e' = e1
  | Some v => (v, draw_weight source category v e1) ∈ pool_of source category ex reg e1 ∧ e' = count_assignment category (v_ID v) e1
  end.
Proof.
  unfold selectValidatorLocked. destruct (pool_of source category ex reg (maybeResetEpoch now e)) as [|[v w] pool] eqn:Ep; intros [= <- <-]; [done|]. split; [|done].
  set (pick := f64_mul random _). pose proof (draw_in ((v, w) :: pool) pick v) as Hd. set (s := draw pick v ((v, w) :: pool)) in *.
  assert (Hs : s ∈ ((v, w) :: pool).*1) by (apply elem_of_cons in Hd as [->|Hd]; [by left|done]). apply list_elem_of_fmap in Hs as ([s' w'] & Es & Hin). cbn in Es. subst s'.
  assert (w' = draw_weight source category s (maybeResetEpoch now e)) as ->; [|done]. rewrite <- Ep in Hin. by apply elem_of_pool in Hin as (_ & _ & _ & -> & _).
Qed.

Lemma candidates_working category reg v : v ∈ candidates_of category reg → is_working v = true ∧ (category ≠ "" → category ∈ v_Categories v) ∧ ∃ k, vg_validators reg !! k = Some v.
Proof.
  unfold candidates_of, vg_ActiveValidators, ActiveValidatorsForCategory. case_decide; rewrite sort_slice_perm, list_elem_of_filter, elem_of_range_map.
  - intros [Hw Hk]. split_and!; [by destruct (is_working v)|done|done].
  - intros [[Hw Hc] Hk]. split_and!; [by destruct (is_working v)|done|done].
Qed.

End draws.

(** C24: a replay is done by somebody independent.  The validator that [SelectReplayExecutor] returns is working, covers the category, is
    within its cap, and is neither the original verifier nor a member of the verifier's cluster, nor of the cluster that the
    caller names for a verifier without one; when the clusters were just computed, no chain of agreeing pairs links the two.
    Exactly one assignment is counted, and nobody is returned only when no candidate is left. *)
Theorem replay_executor_independent {St} {ord : RangeOrder} source category orig cl (reg : ValidatorRegistry St) now random e e' o :
  SelectReplayExecutor source category orig cl reg now random e = (e', o) →
  let e1 := maybeResetEpoch now e in
  match o with
  | Some v =>
      (∃ k, vg_validators reg !! k = Some v) ∧ is_working v = true ∧ (category ≠ "" → category ∈ v_Categories v) ∧ over_cap category v reg e1 = false ∧
      v_ID v ≠ orig ∧ (∀ c, ae_clusters e !! orig = Some c → ae_clusters e !! v_ID v ≠ Some c) ∧
      (ae_clusters e !! orig = None → cl ≠ "" → ae_clusters e !! v_ID v ≠ Some cl) ∧
      (∀ s e0, e = (CheckPairwiseClusters s e0).1 → ¬ linked s e0 orig (v_ID v)) ∧
      ∀ k j, count_of k j e' = count_of k j e1 + (if decide (k = category ∧ j = v_ID v) then 1 else 0)
  | None => ∀ v, v ∈ candidates_of category reg → excluded_by (replay_excludes orig cl e) e1 (v_ID v) = true ∨ over_cap category v reg e1 = true ∨
      f64_leb (draw_weight source category v e1) (mkF64 0 1) = true
  end.
Proof.
  intros Hsel%select_cases e1. fold e1 in Hsel. destruct (reset_keeps now e) as (Hcl & _). fold e1 in Hcl. destruct o as [v|].
  - destruct Hsel as [(Hc & Hex & Hcap & _ & _)%elem_of_pool ->]. apply candidates_working in Hc as (Hw & Hcat & Hk). apply excluded_by_false in Hex as [Hni Hmates]. rewrite Hcl in Hmates.
    assert (Hne : v_ID v ≠ orig) by (intros E; apply Hni; rewrite E; by left).
    assert (Horig : ∀ c, ae_clusters e !! orig = Some c → ae_clusters e !! v_ID v ≠ Some c) by (intros c; apply Hmates; by left).
    split_and!; [done|done|done|done|done|done| | |intros k j; apply count_assignment_spec].
    + intros Ho Hcn Hv. apply Hni. unfold replay_excludes. rewrite Ho. cbn [default from_option]. right. rewrite (decide_True (P := cl ≠ "" ∧ _)) by done. rewrite decide_True by done.
      apply list_elem_of_filter. split; [done|]. apply elem_of_range_set. by apply elem_of_dom_2 in Hv.
    + intros s e0 -> Hl. pose proof (clusters_spec s e0) as Hspec. destruct (CheckPairwiseClusters s e0) as [ec res]. cbn [fst] in *. destruct Hspec as (H1 & H2 & _).
      destruct (proj2 (H1 orig) (ex_intro _ (v_ID v) (conj Hne Hl))) as [c Hc']. apply (Horig c Hc'). by apply (H2 orig).
  - destruct Hsel as [Hp _]. intros v Hv. destruct (excluded_by _ e1 (v_ID v)) eqn:E1; [by left|]. destruct (over_cap category v reg e1) eqn:E2; [by right; left|]. right. right.
    destruct (f64_leb (draw_weight source category v e1) (mkF64 0 1)) eqn:E3; [done|]. exfalso.
    assert (Hin : (v, draw_weight source category v e1) ∈ pool_of source category (replay_excludes orig cl e) reg e1) by (by apply elem_of_pool). rewrite Hp in Hin. by apply not_elem_of_nil in Hin.
Qed.

(** * The coordinator keeps its books *)

Section coordinator_facts.
Context {ord : RangeOrder}.

(** The number of assignments that a validator holds. *)
Definition held (id : AgentID) (m : gmap EventID assignment) : Z := map_sum (λ a, if decide (as_validatorID a = id) then 1 else 0) m.

Definition coordinator_ok (c : AssignmentCoordinator) : Prop :=
  (∀ id i, ac_validators c !! id = Some i → vi_ID i = id ∧ vi_Assignments i = held id (ac_assignments c) ∧
     (vi_Assignments i = 0 ∨ vi_Assignments i <= MaxConcurrentAssignments (ac_config c))) ∧
  ∀ ev a, ac_assignments c !! ev = Some a → as_eventID a = ev ∧ is_Some (ac_validators c !! as_validatorID a).

Lemma held_nonneg id m : 0 <= held id m.
Proof. apply map_sum_nonneg. intros k a _. case_decide; lia. Qed.

Lemma held_insert id m ev a : m !! ev = None → held id (<[ev := a]> m) = (if decide (as_validatorID a = id) then 1 else 0) + held id m.
Proof. apply map_sum_insert. Qed.

Lemma held_delete id m ev a : m !! ev = Some a → held id (delete ev m) = held id m - (if decide (as_validatorID a = id) then 1 else 0).
Proof. intros Ha. unfold held. by rewrite (map_sum_delete _ _ _ _ Ha). Qed.

Lemma held_pos m ev a : m !! ev = Some a → 0 < held (as_validatorID a) m.
Proof.
  intros Ha. pose proof (map_sum_lookup_le (λ b, if decide (as_validatorID b = as_validatorID a) then 1 else 0) m ev a) as H. cbn beta in H.
  rewrite decide_True in H by done. unfold held. enough (1 <= map_sum (λ b, if decide (as_validatorID b = as_validatorID a) then 1 else 0) m) by lia. apply H; [|done]. intros; case_decide; lia.
Qed.

Lemma least_loaded_spec max infos :
  match least_loaded max infos with
  | None => ∀ i, i ∈ infos → vi_Active i = true → max <= vi_Assignments i
  | Some s => s ∈ infos ∧ vi_Active s = true ∧ vi_Assignments s < max ∧ ∀ i, i ∈ infos → vi_Active i = true → vi_Assignments s <= vi_Assignments i
  end.
Proof.
  pose (P := λ (o : option ValidatorInfo) (seen : list ValidatorInfo), match o with
    | None => ∀ i, i ∈ seen → vi_Active i = true → max <= vi_Assignments i
    | Some s => s ∈ seen ∧ vi_Active s = true ∧ vi_Assignments s < max ∧ ∀ i, i ∈ seen → vi_Active i = true → vi_Assignments s <= vi_Assignments i end).
  change (P (least_loaded max infos) ([] ++ infos)). unfold least_loaded. apply foldl_invariant; [intros i Hi; by apply not_elem_of_nil in Hi|]. intros o seen b _ Ho.
  destruct (vi_Active b) eqn:Eb; cbn [negb].
  - destruct (decide (max <= vi_Assignments b)) as [Hb|Hb]; [|destruct o as [s|]; [destruct (decide (vi_Assignments b < vi_Assignments s)) as [Hbs|Hbs]|]]; unfold P in *.
    + destruct o as [s|]; [destruct Ho as (H1 & H2 & H3 & H4); split_and!; [apply elem_of_app; by left|done|done|]|]; intros i [Hi| ->%list_elem_of_singleton]%elem_of_app Ha; [by apply H4|lia|by apply Ho|lia].
    + destruct Ho as (H1 & H2 & H3 & H4). split_and!; [apply elem_of_app; right; by left|done|lia|]. intros i [Hi| ->%list_elem_of_singleton]%elem_of_app Ha; [specialize (H4 i Hi Ha); lia|lia].
    + destruct Ho as (H1 & H2 & H3 & H4). split_and!; [apply elem_of_app; by left|done|done|]. intros i [Hi| ->%list_elem_of_singleton]%elem_of_app Ha; [by apply H4|lia].
    + split_and!; [apply elem_of_app; right; by left|done|lia|]. intros i [Hi| ->%list_elem_of_singleton]%elem_of_app Ha; [specialize (Ho i Hi Ha); lia|lia].
  - unfold P in *. destruct o as [s|]; [destruct Ho as (H1 & H2 & H3 & H4); split_and!; [apply elem_of_app; by left|done|done|]|]; intros i [Hi| ->%list_elem_of_singleton]%elem_of_app Ha; solve [by apply H4|by apply Ho|congruence].
Qed.

(** An assignment is given up: the count of its validator goes down with it. *)
Lemma release_ok c ev a : coordinator_ok c → ac_assignments c !! ev = Some a →
  coordinator_ok (mkCoordinator (ac_config c) (unload (as_validatorID a) (ac_validators c)) (delete ev (ac_assignments c))).
Proof.
  intros [Hv Ha] Hev. pose proof (Ha _ _ Hev) as [_ [i Hi]]. destruct (Hv _ _ Hi) as (Hid & Hn & Hmax). pose proof (held_pos _ _ _ Hev) as Hpos.
  unfold unload. rewrite Hi. rewrite decide_True by lia. split; cbn.
  - intros id j [[<- <-]|[Hne Hj]]%lookup_insert_Some; rewrite (held_delete _ _ _ _ Hev).
    + rewrite decide_True by done. cbn. split_and!; [done|lia|]. destruct Hmax; lia.
    + rewrite decide_False by done. destruct (Hv _ _ Hj) as (H1 & H2 & H3). split_and!; [done|lia|done].
  - intros ev' a' [Hne Ha']%lookup_delete_Some. destruct (Ha _ _ Ha') as [H1 H2]. split; [done|]. destruct (decide (as_validatorID a = as_validatorID a')) as [->|]; [rewrite lookup_insert_eq; eauto|by rewrite lookup_insert_ne].
Qed.

Lemma new_coordinator_ok cfg : coordinator_ok (NewAssignmentCoordinator cfg).
Proof. split; cbn; intros ?? Hx; by rewrite lookup_empty in Hx. Qed.

Lemma set_active_ok c id i b : coordinator_ok c → ac_validators c !! id = Some i →
  coordinator_ok (mkCoordinator (ac_config c) (<[id := vi_set b (vi_Assignments i) i]> (ac_validators c)) (ac_assignments c)).
Proof.
  intros [Hv Ha] Hi. split; cbn.
  - intros j k [[<- <-]|[_ Hk]]%lookup_insert_Some; [by apply Hv in Hi|by apply Hv].
  - intros ev a Hev. destruct (Ha _ _ Hev) as [H1 H2]. split; [done|]. destruct (decide (id = as_validatorID a)) as [->|]; [rewrite lookup_insert_eq; eauto|by rewrite lookup_insert_ne].
Qed.

Lemma register_ok id now c : coordinator_ok c → coordinator_ok (RegisterValidator id now c).
Proof.
  intros Hok. unfold RegisterValidator. destruct (ac_validators c !! id) as [i|] eqn:Hi; [by apply set_active_ok|]. destruct Hok as [Hv Ha]. split; cbn.
  - intros j k [[<- <-]|[_ Hk]]%lookup_insert_Some; [|by apply Hv]. cbn. split_and!; [done| |by left]. symmetry. apply map_sum_zero. intros ev a Hev. case_decide as E; [|done].
    destruct (Ha _ _ Hev) as [_ [x Hx]]. congruence.
  - intros ev a Hev. destruct (Ha _ _ Hev) as [H1 H2]. split; [done|]. destruct (decide (id = as_validatorID a)) as [->|]; [rewrite lookup_insert_eq; eauto|by rewrite lookup_insert_ne].
Qed.

(** What [AssignVerification] does. *)
Lemma assign_spec ev now c c' r : coordinator_ok c → AssignVerification ev now c = (c', r) → coordinator_ok c' ∧
  match r with
  | inr id => ac_assignments c !! ev = None ∧ ac_assignments c' = <[ev := mkAssignment ev id now]> (ac_assignments c) ∧ held id (ac_assignments c) < MaxConcurrentAssignments (ac_config c) ∧
      ∃ i, ac_validators c !! id = Some i ∧ vi_Active i = true ∧ ∀ k j, ac_validators c !! k = Some j → vi_Active j = true → held id (ac_assignments c) <= held k (ac_assignments c)
  | inl e => c' = c ∧ match e with
      | ErrAlreadyAssigned => is_Some (ac_assignments c !! ev)
      | ErrNoAvailableValidators => ac_assignments c !! ev = None ∧ ∀ k j, ac_validators c !! k = Some j → vi_Active j = true → MaxConcurrentAssignments (ac_config c) <= held k (ac_assignments c)
      | ErrValidatorNotFound => False
      end
  end.
Proof.
  intros Hok. pose proof Hok as [Hv Ha]. unfold AssignVerification. destruct (ac_assignments c !! ev) as [a|] eqn:Hev; [intros [= <- <-]; split; [done|]; split; [done|eauto]|].
  pose proof (least_loaded_spec (MaxConcurrentAssignments (ac_config c)) (range_map (ac_validators c))) as Hl. destruct (least_loaded _ _) as [s|]; intros [= <- <-].
  - destruct Hl as ((k & Hk)%elem_of_range_map & Hact & Hlt & Hmin). destruct (Hv _ _ Hk) as (Hid & Hn & Hmax). rewrite Hid. split; [|split_and!; [done|done|lia|]].
    + split; cbn.
      * intros id i [[<- <-]|[Hne Hi]]%lookup_insert_Some; rewrite held_insert by done; cbn.
        { rewrite decide_True by done. split_and!; [done|lia|right; lia]. }
        rewrite decide_False by done. by apply Hv.
      * intros ev' a' [[<- <-]|[_ Ha']]%lookup_insert_Some; cbn; [split; [done|]; rewrite lookup_insert_eq; eauto|]. destruct (Ha _ _ Ha') as [H1 H2]. split; [done|].
        destruct (decide (k = as_validatorID a')) as [->|]; [rewrite lookup_insert_eq; eauto|by rewrite lookup_insert_ne].
    + exists s. split_and!; [done|done|]. intros j i Hi Hai. destruct (Hv _ _ Hi) as (_ & Hi' & _). rewrite <- Hn, <- Hi'. apply Hmin; [|done]. apply elem_of_range_map. by exists j.
  - split; [done|]. split; [done|]. split; [done|]. intros k j Hk Hact. destruct (Hv _ _ Hk) as (_ & Hn & _). rewrite <- Hn. apply Hl; [|done]. apply elem_of_range_map. by exists k.
Qed.

Lemma process_spec result c c' r : coordinator_ok c → ProcessVerification result c = (c', r) → coordinator_ok c' ∧
  match r with
  | inr result' => result' = result ∧ ac_assignments c' = delete (vf_EventID result) (ac_assignments c) ∧
      ∀ a, ac_assignments c !! vf_EventID result = Some a → as_validatorID a = vf_VerifierID result
  | inl e => e = ErrValidatorNotFound ∧ c' = c ∧ ∃ a, ac_assignments c !! vf_EventID result = Some a ∧ as_validatorID a ≠ vf_VerifierID result
  end.
Proof.
  intros Hok. unfold ProcessVerification. destruct (ac_assignments c !! vf_EventID result) as [a|] eqn:Hev.
  - case_decide as Hne; intros [= <- <-]; [split; [done|]; split_and!; [done|done|by exists a]|]. split; [by apply release_ok|]. split_and!; [done|done|]. intros a' [= <-]. done.
  - intros [= <- <-]. split; [done|]. split_and!; [done| |done]. by rewrite delete_id.
Qed.

Definition is_expired (now : Z) (c : AssignmentCoordinator) (ev : EventID) : Prop :=
  ∃ a, ac_assignments c !! ev = Some a ∧ AssignmentTimeout (ac_config c) < time_Sub now (as_assignedAt a).

Lemma sweep_spec now c c' expired : coordinator_ok c → SweepExpiredAssignments now c = (c', expired) →
  coordinator_ok c' ∧ ac_config c' = ac_config c ∧ (∀ ev, ev ∈ expired ↔ is_expired now c ev) ∧ NoDup expired ∧
  ∀ ev, ac_assignments c' !! ev = if decide (ev ∈ expired) then None else ac_assignments c !! ev.
Proof.
  pose (P := λ (st : AssignmentCoordinator * list EventID) (seen : list EventID), NoDup seen →
    coordinator_ok st.1 ∧ ac_config st.1 = ac_config c ∧ (∀ ev, ev ∈ st.2 ↔ ev ∈ seen ∧ is_expired now c ev) ∧ NoDup st.2 ∧
    ∀ ev, ac_assignments st.1 !! ev = if decide (ev ∈ st.2) then None else ac_assignments c !! ev).
  intros Hok E. assert (H : P (SweepExpiredAssignments now c) ([] ++ range_set (dom (ac_assignments c)))).
  { unfold SweepExpiredAssignments. apply foldl_invariant; [intros _; split_and!; [done|done| |constructor|done]; intros ev; cbn [snd]; rewrite elem_of_nil; tauto|].
    intros [d ex] seen ev _ IH Hnd. apply NoDup_app in Hnd as (Hs & Hni & _). assert (Hev : ev ∉ seen) by (intros H; apply (Hni ev H); by left).
    destruct (IH Hs) as (H1 & H2 & H3 & H4 & H5). cbn [fst snd] in *. assert (Hex : ev ∉ ex) by (intros [? _]%H3; done).
    unfold sweep_one. pose proof (H5 ev) as Hl. rewrite decide_False in Hl by done. rewrite Hl, H2. clear Hl.
    assert (Skip : ¬ is_expired now c ev → ∀ e, e ∈ ex ↔ e ∈ seen ++ [ev] ∧ is_expired now c e).
    { intros Hno e. rewrite H3, elem_of_app, list_elem_of_singleton. split; [tauto|]. intros [[?| ->] ?]; [tauto|done]. }
    destruct (ac_assignments c !! ev) as [a|] eqn:Ha; [|cbn [fst snd]; split_and!; try done; apply Skip; intros (a & Ha' & _); congruence].
    case_decide as Ht; cbn [fst snd]; [|split_and!; try done; apply Skip; intros (a' & Ha' & Ht'); rewrite Ha in Ha'; injection Ha' as <-; done].
    split_and!; [rewrite <- H2; apply release_ok; [done|]; rewrite H5; by rewrite decide_False|done| | |].
    - intros e. rewrite !elem_of_app, !list_elem_of_singleton, H3. split; [intros [?| ->]; [tauto|]; split; [by right|by exists a]|intros [[?| ->] ?]; [by left|by right]].
    - apply NoDup_app. split_and!; [done| |apply NoDup_singleton]. intros e He ->%list_elem_of_singleton. done.
    - intros e. cbn. destruct (decide (e = ev)) as [->|Hne]; [rewrite lookup_delete_eq, decide_True; [done|]; apply elem_of_app; right; by left|].
      rewrite lookup_delete_ne by done. rewrite H5. apply decide_ext. rewrite elem_of_app, list_elem_of_singleton. tauto. }
  rewrite E in H. destruct (H (range_set_NoDup _)) as (H1 & H2 & H3 & H4 & H5). cbn [fst snd app] in *. split_and!; [done|done| |done|done].
  intros ev. rewrite H3. split; [tauto|]. intros Hx. split; [|done]. apply elem_of_range_set. destruct Hx as (a & Ha & _). by apply elem_of_dom_2 in Ha.
Qed.

(** The calls of the coordinator, each with its clock. *)
Inductive coordinator_op :=
  | OpRegister (id : AgentID) (now : Z) | OpUnregister (id : AgentID) | OpAssign (ev : EventID) (now : Z) | OpProcess (result : VerificationResult) | OpSweep (now : Z).

Definition coordinator_step (c : AssignmentCoordinator) (op : coordinator_op) : AssignmentCoordinator :=
  match op with
  | OpRegister id now => RegisterValidator id now c
  | OpUnregister id => (UnregisterValidator id c).1
  | OpAssign ev now => (AssignVerification ev now c).1
  | OpProcess result => (ProcessVerification result c).1
  | OpSweep now => (SweepExpiredAssignments now c).1
  end.

Lemma coordinator_step_ok c op : coordinator_ok c → coordinator_ok (coordinator_step c op).
Proof.
  intros Hok. destruct op as [id now|id|ev now|result|now]; cbn [coordinator_step].
  - by apply register_ok.
  - unfold UnregisterValidator. destruct (ac_validators c !! id) as [i|] eqn:Hi; [|done]. by apply set_active_ok.
  - destruct (AssignVerification ev now c) as [c' r] eqn:E. by apply assign_spec in E as [? _].
  - destruct (ProcessVerification result c) as [c' r] eqn:E. by apply process_spec in E as [? _].
  - destruct (SweepExpiredAssignments now c) as [c' r] eqn:E. by apply sweep_spec in E as [? _].
Qed.

Lemma coordinator_run_ok ops : ∀ c, coordinator_ok c → coordinator_ok (foldl coordinator_step c ops).
Proof. induction ops as [|op ops IH]; intros c Hc; [done|]. cbn. by apply IH, coordinator_step_ok. Qed.
End coordinator_facts.

(** C25: the coordinator keeps its books.  After any sequence of calls, the load that is recorded for a validator is the number
    of assignments it holds and never above the maximum; an event is only assigned when it is not, to an active validator
    below the maximum with the least load, and the assignment is refused only for an assigned event or when all active ones are
    full; an assigned event accepts the verdict of its validator alone, which ends the assignment; and a sweep ends exactly the
    assignments that are older than the timeout. *)
Theorem coordinator_books {ord : RangeOrder} cfg ops c : foldl coordinator_step (NewAssignmentCoordinator cfg) ops = c →
  let max := MaxConcurrentAssignments (ac_config c) in let load id := held id (ac_assignments c) in
  (∀ id i, ac_validators c !! id = Some i → vi_ID i = id ∧ vi_Assignments i = load id ∧ (load id = 0 ∨ load id <= max)) ∧
  (∀ ev a, ac_assignments c !! ev = Some a → as_eventID a = ev ∧ is_Some (ac_validators c !! as_validatorID a)) ∧
  (∀ ev now c' id, AssignVerification ev now c = (c', inr id) →
     ac_assignments c !! ev = None ∧ ac_assignments c' = <[ev := mkAssignment ev id now]> (ac_assignments c) ∧ load id < max ∧
     ∃ i, ac_validators c !! id = Some i ∧ vi_Active i = true ∧ ∀ k j, ac_validators c !! k = Some j → vi_Active j = true → load id <= load k) ∧
  (∀ ev now c' e, AssignVerification ev now c = (c', inl e) → c' = c ∧
     (is_Some (ac_assignments c !! ev) ∨ ∀ k j, ac_validators c !! k = Some j → vi_Active j = true → max <= load k)) ∧
  (∀ result a, ac_assignments c !! vf_EventID result = Some a →
     if decide (as_validatorID a = vf_VerifierID result)
     then ∃ c', ProcessVerification result c = (c', inr result) ∧ ac_assignments c' = delete (vf_EventID result) (ac_assignments c)
     else ProcessVerification result c = (c, inl ErrValidatorNotFound)) ∧
  ∀ now c' expired, SweepExpiredAssignments now c = (c', expired) →
     (∀ ev, ev ∈ expired ↔ is_expired now c ev) ∧ ∀ ev, ac_assignments c' !! ev = if decide (ev ∈ expired) then None else ac_assignments c !! ev.
Proof.
  intros Hrun max load. assert (Hok : coordinator_ok c) by (rewrite <- Hrun; apply coordinator_run_ok, new_coordinator_ok). split_and!.
  - intros id i Hi. apply Hok in Hi as (H1 & H2 & H3). rewrite H2 in H3. split_and!; done.
  - intros ev a Ha. by apply Hok.
  - intros ev now c' id E. apply (assign_spec ev now c c' _ Hok E).
  - intros ev now c' e E. apply assign_spec in E as (_ & -> & He); [|done]. split; [done|]. destruct e; [done|by left|right; apply He].
  - intros result a Ha. destruct (ProcessVerification result c) as [c' r] eqn:E. pose proof (process_spec _ _ _ _ Hok E) as [_ H]. case_decide as Hid.
    + destruct r as [e|r]; [destruct H as (_ & _ & a' & Ha' & Hne); congruence|]. destruct H as (-> & H & _). by exists c'.
    + destruct r as [e|r]; [destruct H as (-> & -> & _); done|]. destruct H as (_ & _ & H). by apply H in Ha.
  - intros now c' expired E. apply sweep_spec in E as (_ & _ & H1 & _ & H2); [|done]. done.
Qed.

(** * Examples *)

Module DemoAssignment.
#[local] Existing Instance DemoRegistry.conv.
Import DemoRegistry.

(** Two pairs that always agree, and one that never does. *)
Definition agree_all (id1 id2 : string) (agreed : bool) (e : AssignmentEngine) : AssignmentEngine :=
  Nat.iter 50 (RecordAgreement id1 id2 agreed day) e.

Definition agreement_history (a b c d : string) : AssignmentEngine :=
  agree_all c d false (agree_all c a true (agree_all a b true (NewAssignmentEngine DefaultValidatorConfig day))).

Definition engine : AssignmentEngine := (CheckPairwiseClusters false (agreement_history alice "v2" "v3" bob)).1.

Example one_cluster : (CheckPairwiseClusters false (agreement_history "a" "b" "c" "d")).2 = [["c"; "a"; "b"]].
Proof. vm_compute. reflexivity. Qed.

Definition reverse_order : RangeOrder := {| range_set s := rev (elements s); range_set_perm s := ltac:(by rewrite <- Permutation_rev) |}.

(** The name of a cluster depends on the order in which Go visits its maps, although the comment calls it stable. *)
Example cluster_name_unstable :
  ClusterOf "a" (CheckPairwiseClusters (ord := elements_order) false (agreement_history "a" "b" "c" "d")).1 ≠
  ClusterOf "a" (CheckPairwiseClusters (ord := reverse_order) false (agreement_history "a" "b" "c" "d")).1.
Proof. by vm_compute. Qed.

Definition replay_draw : AssignmentEngine * option Validator :=
  SelectReplayExecutor (ord := elements_order) None "" "v2" "" registered (2 * day) (mkF64 1 2) engine.

Example replayed_by_bob : v_AgentID <$> replay_draw.2 = Some "bob".
Proof. vm_compute. reflexivity. Qed.

(** The agent of the original verifier is not its validator: an exclusion by agent excludes nobody. *)
Example agent_not_excluded : ((v_AgentID) <$> (SelectReplayExecutor (ord := elements_order) None "code" "alice" "" registered (2 * day) (mkF64 1 2) engine).2) = Some "alice".
Proof. vm_compute. reflexivity. Qed.

Definition pool0 : AssignmentCoordinator :=
  foldl (coordinator_step (ord := elements_order)) (NewAssignmentCoordinator (Some (mkAssignmentConfig 2 100)))
    [OpRegister "v1" 0; OpRegister "v2" 0; OpAssign "e1" 1; OpAssign "e2" 2; OpAssign "e3" 3; OpUnregister "v2"].

Example loads : (vi_Assignments <$> ac_validators pool0) = {["v1" := 2; "v2" := 1]} ∨ (vi_Assignments <$> ac_validators pool0) = {["v1" := 1; "v2" := 2]}.
Proof. vm_compute. by (left + right). Qed.

(** A verdict for an event without an assignment passes, whoever sends it: also that of the validator whose time was over. *)
Example expired_verdict_passes : let r := mkVerification "e1" true 5 "anybody" "" 9 in
  (ProcessVerification r pool0).2 = inl ErrValidatorNotFound ∧ (ProcessVerification r (SweepExpiredAssignments (ord := elements_order) 200 pool0).1).2 = inr r.
Proof. vm_compute. done. Qed.

(** [ActiveValidators] also lists those that are not active. *)
Example inactive_listed : existsb (λ i, negb (vi_Active i)) (ac_ActiveValidators (ord := elements_order) pool0) = true.
Proof. vm_compute. done. Qed.
End DemoAssignment.

Lemma clusters_exact_witness : let '(e', _) := CheckPairwiseClusters (ord := elements_order) false (DemoAssignment.agreement_history "a" "b" "c" "d") in
  is_Some (ae_clusters e' !! "b") ∧ linked false (DemoAssignment.agreement_history "a" "b" "c" "d") "b" "c".
Proof.
  destruct (CheckPairwiseClusters (ord := elements_order) false (DemoAssignment.agreement_history "a" "b" "c" "d")) as [e' r] eqn:E.
  destruct (clusters_exact (ord := elements_order) _ _ _ _ E) as (_ & H & _).
  assert (Hb : ae_clusters e' !! "b" = Some (ClusterOf "b" e') ∧ ae_clusters e' !! "c" = Some (ClusterOf "b" e')) by (assert (He : e' = (CheckPairwiseClusters (ord := elements_order) false (DemoAssignment.agreement_history "a" "b" "c" "d")).1) by (by rewrite E); rewrite He; split; vm_compute; reflexivity).
  destruct Hb as [Hb Hc]. split; [by rewrite Hb|]. by apply (H _ _ _ Hb).
Defined.

Lemma replay_executor_independent_witness :
  match SelectReplayExecutor (ord := elements_order) None "" "v2" "" DemoRegistry.registered (2 * DemoRegistry.day) (mkF64 1 2) DemoAssignment.engine with
  | (_, Some v) => v_ID v ≠ "v2" ∧ is_working v = true | (_, None) => False end.
Proof.
  destruct (SelectReplayExecutor (ord := elements_order) None "" "v2" "" DemoRegistry.registered (2 * DemoRegistry.day) (mkF64 1 2) DemoAssignment.engine) as [e' [v|]] eqn:E.
  - destruct (replay_executor_independent (ord := elements_order) None "" "v2" "" DemoRegistry.registered (2 * DemoRegistry.day) (mkF64 1 2) DemoAssignment.engine e' (Some v) E) as (_ & H1 & _ & _ & H2 & _).
    exact (conj H2 H1).
  - apply (f_equal snd) in E. vm_compute in E. discriminate E.
Defined.

Lemma coordinator_books_witness : vi_Assignments <$> ac_validators DemoAssignment.pool0 !! "v1" = Some (held "v1" (ac_assignments DemoAssignment.pool0)).
Proof.
  destruct (ac_validators DemoAssignment.pool0 !! "v1") as [i|] eqn:E; [|by vm_compute in E].
  destruct (coordinator_books (ord := elements_order) _ _ DemoAssignment.pool0 (reflexivity _)) as [H _]. cbn. f_equal. by apply H in E as (_ & -> & _).
Defined.
