(* ===== verification/Epoch.v ===== *)
(** internal/epoch: the count of finalized rounds that is the epoch clock of the node, and the consumer that feeds it.

    The database is the class [Badger] of RoundStore, reads that fail included; a callback is a value that is handed the number of
    the epoch.  [Apply] starts a goroutine for each callback: the goroutines it starts are the output of its step, and when they
    run is left to the scheduler. *)

From S2P Require Import Prelude GoStd Event RoundStore RoundFlow Slashing.
#[local] Open Scope Z_scope.

Definition EpochLength : Z := 1000.

Definition keyTotal : string := "ec:total".
Definition prefixCounted : string := "ec:counted:".

Definition marker (roundID : string) : string := prefixCounted +:+ roundID.

(** [binary.BigEndian.PutUint64] and [binary.BigEndian.Uint64], for a value of eight bytes. *)
Definition PutUint64 (n : Z) : string := string_of_bytes (Sha256.be_bytes 8 n).
Definition Uint64 (val : string) : option Z :=
  if decide (String.length val ≠ 8%nat) then None else Some (Sha256.be_word (bytes_of_string val)).

Record RoundCounter (D C : Type) := mkCounter { rc_db : D; rc_total : Z; rc_callbacks : list C }.
Arguments mkCounter {D C} _ _ _.
Arguments rc_db {D C} _.
Arguments rc_total {D C} _.
Arguments rc_callbacks {D C} _.

Inductive CounterError := ErrEmptyRoundID | ErrUpdate | ErrUnmarshalConsensus.

Section counter.
Context {D C : Type} {bg : Badger D}.
Implicit Types c : RoundCounter D C.

(** [None] for a read that fails and for a total that is not eight bytes long. *)
Definition loadTotal (db : D) : option Z :=
  match bg_read keyTotal db with
  | None => None
  | Some None => Some 0
  | Some (Some val) => Uint64 val
  end.

Definition NewRoundCounter (db : D) : option (RoundCounter D C) := (λ total, mkCounter db total []) <$> loadTotal db.

(** The transaction and what follows its commit; the last part of the result are the goroutines started, a callback and its
    argument each. *)
Definition rc_Apply (roundID : string) c : RoundCounter D C * (CounterError + bool) * list (C * Z) :=
  if decide (roundID = "") then (c, inl ErrEmptyRoundID, [])
  else
    match bg_read (marker roundID) (rc_db c) with
    | None => (c, inl ErrUpdate, [])
    | Some (Some _) => (c, inr false, [])
    | Some None =>
        let prevTotal := rc_total c in
        let newTotal := u64 (prevTotal + 1) in
        let epochChanged := bool_decide (newTotal / EpochLength ≠ prevTotal / EpochLength) in
        let '(db, ok) := bg_update [KVSet keyTotal (PutUint64 newTotal); KVSet (marker roundID) ""] (rc_db c) in
        if ok : bool
        then (mkCounter db newTotal (rc_callbacks c), inr epochChanged,
              if epochChanged then (λ cb, (cb, newTotal / EpochLength)) <$> rc_callbacks c else [])
        else (mkCounter db prevTotal (rc_callbacks c), inl ErrUpdate, [])
    end.

Definition rc_Total c : Z := rc_total c.

Definition CurrentEpoch c : Z := rc_total c / EpochLength.

Definition rc_Empty c : bool := bool_decide (rc_total c = 0).

Definition OnEpochChange (cb : option C) c : RoundCounter D C :=
  match cb with None => c | Some cb => mkCounter (rc_db c) (rc_total c) (rc_callbacks c ++ [cb]) end.

Section consumer.
Context {codec : ConsensusCodec}.

Definition rcc_Interested (ev : Event) : bool := bool_decide (Type_ ev = EventTypeTaskVerificationConsensus).

(** An event without a round is dropped. *)
Definition rcc_Consume (ev : Event) c : RoundCounter D C * option CounterError * list (C * Z) :=
  match GetPayload unmarshal_consensus ev with
  | None => (c, Some ErrUnmarshalConsensus, [])
  | Some payload =>
      if decide (k_RoundID payload = "") then (c, None, [])
      else
        let '(c, res, calls) := rc_Apply (k_RoundID payload) c in
        (c, match res with inl e => Some e | inr _ => None end, calls)
  end.
End consumer.
End counter.

(** * Facts *)

Lemma be_word_acc l : ∀ a, foldl (λ acc b, acc * 256 + b) a l = a * 256 ^ Z.of_nat (length l) + Sha256.be_word l.
Proof.
  unfold Sha256.be_word. induction l as [|b l IH]; intros a; cbn [foldl length]; [lia|]. rewrite (IH (a * 256 + b)), (IH (0 * 256 + b)).
  rewrite Nat2Z.inj_succ, Z.pow_succ_r by lia. nia.
Qed.

Lemma be_word_bytes n : ∀ z, Sha256.be_word (Sha256.be_bytes n z) = z mod 256 ^ Z.of_nat n.
Proof.
  induction n as [|n IH]; intros z; [by rewrite Z.mod_1_r|]. cbn [Sha256.be_bytes]. unfold Sha256.be_word. cbn [foldl]. rewrite be_word_acc, IH, Sha256.be_bytes_length.
  change 255 with (Z.ones 8). rewrite Z.land_ones by lia. rewrite Z.shiftr_div_pow2 by lia. replace (2 ^ (8 * Z.of_nat n)) with (256 ^ Z.of_nat n) by (rewrite Z.pow_mul_r by lia; done).
  change (2 ^ 8) with 256. rewrite Nat2Z.inj_succ, Z.pow_succ_r by lia. rewrite (Z.mul_comm 256), Z.rem_mul_r; [lia| |lia]. apply Z.pow_nonzero; lia.
Qed.

Lemma Uint64_PutUint64 n : is_u64 n → Uint64 (PutUint64 n) = Some n.
Proof.
  intros Hn. unfold Uint64, PutUint64.
  assert (Hb : bytes_of_string (string_of_bytes (Sha256.be_bytes 8 n)) = Sha256.be_bytes 8 n) by apply bytes_of_string_of_bytes, Sha256.be_bytes_range.
  rewrite decide_False.
  - rewrite Hb, be_word_bytes. f_equal. apply Z.mod_small. unfold is_u64, u64_mod in Hn. lia.
  - intros Hl. apply Hl. replace (String.length (string_of_bytes (Sha256.be_bytes 8 n))) with (length (bytes_of_string (string_of_bytes (Sha256.be_bytes 8 n)))).
    + by rewrite Hb, Sha256.be_bytes_length.
    + unfold bytes_of_string. rewrite length_fmap. generalize (string_of_bytes (Sha256.be_bytes 8 n)). intros s. induction s as [|a s IH]; cbn; [done|]. by rewrite IH.
Qed.

Lemma marker_inj a b : marker a = marker b → a = b.
Proof. intros E. by injection E. Qed.

Lemma marker_total id : marker id ≠ keyTotal.
Proof. by intros E. Qed.

Section facts.
Context {D C : Type} {bg : Badger D} {laws : BadgerLaws D}.
Implicit Types c : RoundCounter D C.

(** The total of the database, a missing one counting as zero. *)
Definition stored_total (m : gmap string string) : option Z := match m !! keyTotal with None => Some 0 | Some val => Uint64 val end.

Lemma loadTotal_view (db : D) x : bg_read keyTotal db = Some x → loadTotal db = stored_total (bg_view db).
Proof. intros Hr. unfold loadTotal, stored_total. rewrite Hr, (bg_read_view _ _ _ Hr). done. Qed.

Definition round_marked (db : D) (id : string) : Prop := is_Some (bg_view db !! marker id).

(** The total of the database, and of the memory, is the number of markers. *)
Definition counter_ok (ids : gset string) c : Prop :=
  (∀ id, id ∈ ids ↔ round_marked (rc_db c) id) ∧ rc_total c = Z.of_nat (size ids) ∧ stored_total (bg_view (rc_db c)) = Some (rc_total c) ∧ "" ∉ ids.

Lemma apply_spec ids id c c' res calls : counter_ok ids c → Z.of_nat (size ids) + 1 < 2 ^ 64 → rc_Apply id c = (c', res, calls) → rc_callbacks c' = rc_callbacks c ∧
  match res with
  | inl e => counter_ok ids c' ∧ rc_total c' = rc_total c ∧ calls = [] ∧ (e = ErrEmptyRoundID ∧ id = "" ∨ e = ErrUpdate)
  | inr changed => counter_ok ({[id]} ∪ ids) c' ∧ id ≠ "" ∧ rc_total c' = rc_total c + (if decide (id ∈ ids) then 0 else 1) ∧
      changed = bool_decide (CurrentEpoch c' = CurrentEpoch c + 1) ∧ (changed = false → CurrentEpoch c' = CurrentEpoch c) ∧
      calls = if changed then (λ cb, (cb, CurrentEpoch c')) <$> rc_callbacks c else []
  end.
Proof.
  intros (Hids & Ht & Hl & Hne) Hlt. unfold rc_Apply. case_decide as Hid; [intros [= <- <- <-]; split; [done|]; split_and!; [done|done|done|by left]|].
  destruct (bg_read (marker id) (rc_db c)) as [[v|]|] eqn:Hr; [| |intros [= <- <- <-]; split; [done|]; split_and!; [done|done|done|by right]]; pose proof (bg_read_view _ _ _ Hr) as Hg; symmetry in Hg.
  - assert (Hin : id ∈ ids) by (apply Hids; unfold round_marked; rewrite Hg; eauto). intros [= <- <- <-]. split; [done|]. replace ({[id]} ∪ ids) with ids by set_solver. rewrite decide_True by done. unfold CurrentEpoch.
    split_and!; [done|done|lia|rewrite bool_decide_eq_false_2; [done|lia]|done|done].
  - assert (Hni : id ∉ ids) by (intros Hin%Hids; unfold round_marked in Hin; rewrite Hg in Hin; by destruct Hin). set (n := u64 (rc_total c + 1)).
    assert (Hn : n = rc_total c + 1) by (apply u64_small; unfold is_u64, u64_mod; lia). assert (Hu : is_u64 n) by (unfold is_u64, u64_mod; lia).
    destruct (bg_update _ _) as [db ok] eqn:Hup. destruct ok; intros [= <- <- <-]; (split; [done|]).
    + apply bg_update_ok in Hup. cbn [foldl apply_op] in Hup. unfold CurrentEpoch, EpochLength. cbn [rc_total rc_callbacks]. rewrite decide_False by done. rewrite !Hn.
      assert (Hdiv : (rc_total c + 1) / 1000 = rc_total c / 1000 ∨ (rc_total c + 1) / 1000 = rc_total c / 1000 + 1) by (Z.to_euclidean_division_equations; lia).
      split_and!; [|done|lia| | |done].
      * split_and!; cbn.
        { intros j. unfold round_marked. rewrite Hup, elem_of_union, elem_of_singleton. destruct (decide (j = id)) as [->|Hj]; [rewrite lookup_insert_eq; split; [eauto|by left]|].
          rewrite lookup_insert_ne by (intros E; by apply marker_inj in E). rewrite lookup_insert_ne by (intros E; by apply (marker_total j)). rewrite Hids. unfold round_marked. tauto. }
        { rewrite size_union by set_solver. rewrite size_singleton. lia. }
        { unfold stored_total. rewrite Hup. rewrite lookup_insert_ne by apply marker_total. rewrite lookup_insert_eq, Uint64_PutUint64 by done. by rewrite Hn. }
        set_solver.
      * apply bool_decide_ext. destruct Hdiv as [Hdiv|Hdiv]; rewrite Hdiv; lia.
      * intros H%bool_decide_eq_false. destruct (decide ((rc_total c + 1) / 1000 = rc_total c / 1000)); [done|]. by exfalso.
    + apply bg_update_fail in Hup. split_and!; [|done|done|by right]. split_and!; [|done| |done]; cbn.
      * intros j. rewrite Hids. unfold round_marked. by rewrite Hup.
      * by rewrite Hup.
Qed.

(** * Runs *)

(** [ECrash] stops the process between the commit and the rest of [Apply]; a start reads the total and registers the callback. *)
Inductive counter_op := EApply (roundID : string) | ERestart | ECrash (roundID : string).

Definition counter_start (cb : C) (db : D) : option (RoundCounter D C) := OnEpochChange (Some cb) <$> NewRoundCounter db.

Definition counter_step (cb : C) (st : RoundCounter D C * list (C * Z)) (op : counter_op) : RoundCounter D C * list (C * Z) :=
  let '(c, log) := st in
  match op with
  | EApply id => let '(c, _, calls) := rc_Apply id c in (c, log ++ calls)
  | ERestart => (default c (counter_start cb (rc_db c)), log)
  | ECrash id => let '(c, _, _) := rc_Apply id c in (default c (counter_start cb (rc_db c)), log)
  end.

Definition round_ids (ops : list counter_op) : gset string :=
  list_to_set (omap (λ op, match op with EApply id | ECrash id => Some id | ERestart => None end) ops).

Definition crash_free (ops : list counter_op) : Prop := ∀ id, ECrash id ∉ ops.

(** A start reads the total back when its read does not fail; otherwise the node waits for one that does not. *)
Lemma counter_start_ok cb ids c x : counter_ok ids c → bg_read keyTotal (rc_db c) = Some x → counter_start cb (rc_db c) = Some (mkCounter (rc_db c) (rc_total c) [cb]).
Proof. intros (_ & _ & Hl & _) Hr. unfold counter_start, NewRoundCounter. by rewrite (loadTotal_view _ x Hr), Hl. Qed.

Lemma counter_restart cb ids c : counter_ok ids c → rc_callbacks c = [cb] → default c (counter_start cb (rc_db c)) = mkCounter (rc_db c) (rc_total c) [cb].
Proof.
  intros Hok Hcb. destruct (bg_read keyTotal (rc_db c)) as [x|] eqn:Hr; [by rewrite (counter_start_ok cb ids c x)|].
  unfold counter_start, NewRoundCounter, loadTotal. rewrite Hr. cbn. destruct c. cbn in *. by rewrite Hcb.
Qed.

Lemma seqZ_grow n : 0 <= n → seqZ 1 (n + 1) = seqZ 1 n ++ [n + 1].
Proof. intros Hn. rewrite seqZ_app by lia. f_equal. rewrite Z.add_comm. done. Qed.

Lemma run_spec cb ops : ∀ ids c log, counter_ok ids c → rc_callbacks c = [cb] → Z.of_nat (size ids + length ops) < 2 ^ 64 → log.*2 `sublist_of` seqZ 1 (CurrentEpoch c) →
  let '(c', log') := foldl (counter_step cb) (c, log) ops in
  ∃ ids', counter_ok ids' c' ∧ rc_callbacks c' = [cb] ∧ ids ⊆ ids' ∧ ids' ⊆ ids ∪ round_ids ops ∧ log'.*2 `sublist_of` seqZ 1 (CurrentEpoch c') ∧
    (crash_free ops → log.*2 = seqZ 1 (CurrentEpoch c) → log'.*2 = seqZ 1 (CurrentEpoch c')).
Proof.
  induction ops as [|op ops IH]; intros ids c log Hok Hcb Hlt Hlog; [exists ids; split_and!; [done|done|done|set_solver|done|done]|]. cbn [length] in Hlt. cbn [foldl].
  assert (Go : ∀ ids1 c1 log1, counter_step cb (c, log) op = (c1, log1) → counter_ok ids1 c1 → rc_callbacks c1 = [cb] → ids ⊆ ids1 → ids1 ⊆ ids ∪ round_ids [op] → (size ids1 <= S (size ids))%nat →
    log1.*2 `sublist_of` seqZ 1 (CurrentEpoch c1) → (crash_free [op] → log.*2 = seqZ 1 (CurrentEpoch c) → log1.*2 = seqZ 1 (CurrentEpoch c1)) →
    let '(c', log') := foldl (counter_step cb) (counter_step cb (c, log) op) ops in
    ∃ ids', counter_ok ids' c' ∧ rc_callbacks c' = [cb] ∧ ids ⊆ ids' ∧ ids' ⊆ ids ∪ round_ids (op :: ops) ∧ log'.*2 `sublist_of` seqZ 1 (CurrentEpoch c') ∧
      (crash_free (op :: ops) → log.*2 = seqZ 1 (CurrentEpoch c) → log'.*2 = seqZ 1 (CurrentEpoch c'))).
  { intros ids1 c1 log1 -> Hok1 Hcb1 Hs1 Hr1 Hsz Hl1 Heq1. specialize (IH ids1 c1 log1 Hok1 Hcb1 ltac:(lia) Hl1). destruct (foldl _ _ _) as [c' log'].
    destruct IH as (ids' & H1 & H2 & H3 & H4 & H5 & H6). exists ids'. split_and!; [done|done|set_solver| |done|].
    - unfold round_ids in *. cbn in *. destruct op; cbn in *; set_solver.
    - intros Hcf Hl. apply H6; [intros id Hin; apply (Hcf id); by right|]. apply Heq1; [|done]. intros id E%list_elem_of_singleton. apply (Hcf id). rewrite E. by left. }
  pose proof Hok as (_ & Ht & _ & _). assert (Hpos : 0 <= CurrentEpoch c) by (unfold CurrentEpoch; apply Z.div_pos; unfold EpochLength; lia).
  assert (Size : ∀ id, (size ({[id]} ∪ ids) <= S (size ids))%nat).
  { intros id. destruct (decide (id ∈ ids)); [replace ({[id]} ∪ ids) with ids by set_solver; lia|]. rewrite size_union by set_solver. rewrite size_singleton. lia. }
  destruct op as [id| |id].
  - destruct (rc_Apply id c) as [[c1 res] calls] eqn:E. pose proof (apply_spec ids id c c1 res calls Hok ltac:(lia) E) as [Hcb1 H].
    assert (Hstep : counter_step cb (c, log) (EApply id) = (c1, log ++ calls)) by (cbn; by rewrite E). destruct res as [e|changed].
    + destruct H as (H1 & H2 & -> & _). apply (Go ids c1 _ Hstep H1); [congruence|done|set_solver|lia| |]; rewrite app_nil_r; unfold CurrentEpoch; by rewrite H2.
    + destruct H as (H1 & _ & _ & Hch & Hsame & Hcalls). rewrite Hcb in Hcalls. apply (Go ({[id]} ∪ ids) c1 _ Hstep H1); [congruence|set_solver|unfold round_ids; cbn; set_solver|apply Size| |]; destruct changed.
      * symmetry in Hch. apply bool_decide_eq_true in Hch. rewrite Hcalls, Hch, seqZ_grow, fmap_app by done. cbn. by apply sublist_app.
      * by rewrite Hcalls, app_nil_r, Hsame.
      * intros _ Hl. symmetry in Hch. apply bool_decide_eq_true in Hch. rewrite Hcalls, Hch, seqZ_grow, fmap_app, Hl by done. done.
      * intros _ Hl. by rewrite Hcalls, app_nil_r, Hsame.
  - apply (Go ids (mkCounter (rc_db c) (rc_total c) [cb]) log); [cbn; by rewrite (counter_restart cb ids c Hok Hcb)|done|done|done|set_solver|lia|done|done].
  - destruct (rc_Apply id c) as [[c1 res] calls] eqn:E. pose proof (apply_spec ids id c c1 res calls Hok ltac:(lia) E) as [Hcb1 H].
    set (ids1 := match res with inl _ => ids | inr _ => {[id]} ∪ ids end).
    assert (H1 : counter_ok ids1 c1) by (destruct res; apply H). assert (Hle : CurrentEpoch c1 = CurrentEpoch c ∨ CurrentEpoch c1 = CurrentEpoch c + 1).
    { destruct res as [e|[|]]; destruct H as (_ & H); [left; unfold CurrentEpoch; destruct H as (-> & _); done|right; destruct H as (_ & _ & Hch & _); symmetry in Hch; by apply bool_decide_eq_true in Hch|left; by apply H]. }
    apply (Go ids1 (mkCounter (rc_db c1) (rc_total c1) [cb]) log); [cbn; rewrite E; by rewrite (counter_restart cb ids1 c1 H1 (eq_trans Hcb1 Hcb))|done|done|unfold ids1; destruct res; set_solver|unfold ids1, round_ids; destruct res; cbn; set_solver|unfold ids1; destruct res; [lia|apply Size]| |].
    + unfold CurrentEpoch in *. cbn [rc_total]. destruct Hle as [-> | ->]; [done|]. rewrite seqZ_grow by done. etrans; [exact Hlog|]. by apply sublist_inserts_r.
    + intros Hcf. destruct (Hcf id). by left.
Qed.
End facts.

(** C26: every finalized round counts once.  From a database without counts, whatever rounds are applied, repeated, refused by the
    database (in its read or in its write) or cut short by a crash, and however often the node restarts, the total in memory is the number of
    distinct rounds that are marked on disk, and a start whose read of the total succeeds finds it.  A callback's goroutine is started at most once
    for each epoch reached, in the order of the epochs, and, unless a crash fell between a commit and that start, for every epoch up to the
    current one; whichever of the goroutines get to run, in whatever order, they run for epochs reached, at most once each. *)
Theorem epochs_counted {D C} {bg : Badger D} {laws : BadgerLaws D} (cb : C) (db : D) c0 ops :
  bg_view db !! keyTotal = None → (∀ id, bg_view db !! marker id = None) → Z.of_nat (length ops) < 2 ^ 64 → counter_start cb db = Some c0 →
  let '(c, started) := foldl (counter_step cb) (c0, []) ops in
    (∃ ids : gset string, (∀ id, id ∈ ids ↔ is_Some (bg_view (rc_db c) !! marker id)) ∧ ids ⊆ round_ids ops ∧ rc_Total c = Z.of_nat (size ids)) ∧
    (∀ x, bg_read keyTotal (rc_db c) = Some x → rc_Total <$> counter_start cb (rc_db c) = Some (rc_Total c)) ∧
    started.*2 `sublist_of` seqZ 1 (CurrentEpoch c) ∧ (crash_free ops → started.*2 = seqZ 1 (CurrentEpoch c)) ∧
    ∀ ran, ran ⊆+ started → ran.*2 ⊆+ seqZ 1 (CurrentEpoch c).
Proof.
  intros Hk Hm Hlen Hstart. assert (Hst : stored_total (bg_view db) = Some 0) by (unfold stored_total; by rewrite Hk).
  assert (Hok : counter_ok ∅ (mkCounter (C := C) db 0 [cb])).
  { split_and!; [|done|done|set_solver]. intros id. unfold round_marked. cbn. rewrite Hm. split; [set_solver|by intros []]. }
  assert (c0 = mkCounter db 0 [cb]) as ->.
  { pose proof (counter_restart cb ∅ _ Hok eq_refl) as Hr. cbn [rc_db rc_total] in Hr. by rewrite Hstart in Hr. }
  pose proof (run_spec cb ops ∅ (mkCounter db 0 [cb]) [] Hok eq_refl ltac:(rewrite size_empty; lia) ltac:(done)) as H. destruct (foldl _ _ _) as [c started].
  destruct H as (ids & Hids & Hcb & _ & Hsub & Hlog & Heq). pose proof Hids as (H1 & H2 & H3 & _). split_and!; [| |done|intros Hcf; by apply Heq|].
  - exists ids. split_and!; [done|set_solver|done].
  - intros x Hx. by rewrite (counter_start_ok cb ids c x Hids Hx).
  - intros ran Hran. etrans; [apply fmap_submseteq; exact Hran|]. by apply sublist_submseteq.
Qed.

(** * Examples *)

Module DemoEpoch.
#[local] Existing Instance DemoDB.demo_badger.
#[local] Existing Instance DemoDB.demo_badger_laws.

Definition rounds (n : nat) : list counter_op := (λ i, EApply ("r" +:+ pretty (Z.of_nat i))) <$> seq 0 n.

Definition final (ops : list counter_op) : option (Z * Z * list Z) :=
  (λ c0, let '(c, log) := foldl (counter_step "cb") (c0, []) ops in (rc_Total c, CurrentEpoch c, log.*2)) <$> counter_start "cb" (∅ : DemoDB.db).

Example two_epochs : final (rounds 1500 ++ [ERestart] ++ rounds 2001) = Some (2001, 2, [1; 2]).
Proof. vm_compute. reflexivity. Qed.

(** The callbacks of an epoch are lost when the process stops after the commit that begins it. *)
Example announcement_lost : final (rounds 999 ++ [ECrash "last"; EApply "next"]) = Some (1001, 1, []).
Proof. vm_compute. reflexivity. Qed.
End DemoEpoch.

Lemma epochs_counted_witness : let ops := [EApply "r1"; EApply "r1"; ERestart; EApply "r2"] in
  ∃ c0 : RoundCounter DemoDB.db string, counter_start "cb" ∅ = Some c0 ∧ let '(c, started) := foldl (counter_step "cb") (c0, []) ops in started.*2 = seqZ 1 (CurrentEpoch c).
Proof.
  cbv zeta. destruct (counter_start "cb" (∅ : DemoDB.db)) as [c0|] eqn:Hs; [|discriminate Hs]. exists c0. split; [reflexivity|].
  pose proof (epochs_counted (D := DemoDB.db) "cb" (∅ : DemoDB.db) c0 [EApply "r1"; EApply "r1"; ERestart; EApply "r2"] (lookup_empty (M := gmap string) _) (λ _, lookup_empty (M := gmap string) _) eq_refl Hs) as H.
  destruct (foldl _ _ _) as [c started]. destruct H as (_ & _ & _ & H & _). apply H.
  intros id Hin. repeat (apply elem_of_cons in Hin as [Hin|Hin]; [discriminate Hin|]). by apply not_elem_of_nil in Hin.
Defined.
