(* ===== verification/Reputation.v ===== *)
(** internal/reputation: what agents completed and failed by category, with running averages and an overall score.

    Times are arguments.  Records are kept in a store, the class [Persistence]; an error of the store is logged only. *)

From stdpp Require Import sorting.
From S2P Require Import Prelude GoStd Store Float64 Event.
#[local] Open Scope Z_scope.

Record CategoryRecord := mkCategory {
  cr_Category : string; cr_TasksCompleted : Z; cr_TasksFailed : Z; cr_TotalValueEarned : Z; cr_AvgScore : F64; cr_AvgDeliveryTime : F64; cr_LastActive : Z }.

Definition f64_zero : F64 := mkF64 0 1.

Definition CompletionRate (cr : CategoryRecord) : F64 :=
  let total := u64 (cr_TasksCompleted cr + cr_TasksFailed cr) in if decide (total = 0) then f64_zero else f64_ratio (cr_TasksCompleted cr) total.

Record AgentReputation := mkReputation {
  ar_AgentID : AgentID; ar_OverallScore : F64; ar_TotalCompleted : Z; ar_TotalFailed : Z; ar_TotalEarned : Z;
  ar_Categories : gmap string CategoryRecord; ar_TopCategory : string; ar_MemberSince : Z }.

Record ReputationManager (St : Type) := mkReputations { rm_reputations : gmap AgentID AgentReputation; rm_store : option St }.
Arguments mkReputations {St} _ _.
Arguments rm_reputations {St} _.
Arguments rm_store {St} _.

Definition new_reputation (agentID : AgentID) (since : Z) : AgentReputation := mkReputation agentID f64_zero 0 0 0 ∅ "" since.

Definition new_category (category : string) : CategoryRecord := mkCategory category 0 0 0 f64_zero f64_zero 0.

(** [(avg*float64(n-1) + x) / float64(n)]. *)
Definition rolling (avg x : F64) (n : Z) : F64 := f64_div (f64_add (f64_mul avg (f64_of_u64 (u64 (n - 1)))) x) (f64_of_u64 n).

Section manager.
Context {St : Type} {per : Persistence St AgentReputation} {ord : RangeOrder}.
Implicit Types m : ReputationManager St.

Definition NewReputationManager : ReputationManager St := mkReputations ∅ None.

Definition rm_SetStore (s : St) m : ReputationManager St := mkReputations (rm_reputations m) (Some s).

Definition getOrCreate (agentID : AgentID) (now : Z) m : AgentReputation := default (new_reputation agentID now) (rm_reputations m !! agentID).

Definition getOrCreateCategory (rep : AgentReputation) (category : string) : CategoryRecord := default (new_category category) (ar_Categories rep !! category).

(** The loop over the categories: the first one met with more completions than all before. *)
Definition top_category (top : string) (cats : list CategoryRecord) : string :=
  (foldl (λ '(maxTasks, top) cat, if decide (maxTasks < cr_TasksCompleted cat) then (cr_TasksCompleted cat, cr_Category cat) else (maxTasks, top)) (0, top) cats).2.

Definition updateOverallScore (rep : AgentReputation) : AgentReputation :=
  let total := u64 (ar_TotalCompleted rep + ar_TotalFailed rep) in
  let '(score, top) :=
    if decide (total = 0) then (f64_zero, "")
    else
      let completionRate := f64_ratio (ar_TotalCompleted rep) total in
      let volumeFactor := f64_of_u64 (ar_TotalCompleted rep) in
      let volumeFactor := if f64_ltb (mkF64 100 1) volumeFactor then mkF64 100 1 else volumeFactor in
      let volumeWeight := f64_div volumeFactor (mkF64 100 1) in
      (f64_mul (f64_mul completionRate volumeWeight) (mkF64 100 1), top_category (ar_TopCategory rep) (range_map (ar_Categories rep))) in
  mkReputation (ar_AgentID rep) score (ar_TotalCompleted rep) (ar_TotalFailed rep) (ar_TotalEarned rep) (ar_Categories rep) top (ar_MemberSince rep).

Definition rm_persist (rep : AgentReputation) (s : option St) : option St := (λ s, (store_put rep s).1) <$> s.

Definition rm_write (agentID : AgentID) (rep : AgentReputation) m : ReputationManager St :=
  mkReputations (<[agentID := rep]> (rm_reputations m)) (rm_persist rep (rm_store m)).

(** [RecordCompletion]'s changes of the record of the agent, but for the boost. *)
Definition complete (category : string) (valueEarned : Z) (verificationScore deliveryTimeSecs : F64) (now : Z) (rep : AgentReputation) : AgentReputation :=
  let cat := getOrCreateCategory rep category in
  let n := u64 (cr_TasksCompleted cat + 1) in
  let cat := mkCategory (cr_Category cat) n (cr_TasksFailed cat) (u64 (cr_TotalValueEarned cat + valueEarned)) (rolling (cr_AvgScore cat) verificationScore n)
               (rolling (cr_AvgDeliveryTime cat) deliveryTimeSecs n) now in
  updateOverallScore (mkReputation (ar_AgentID rep) (ar_OverallScore rep) (u64 (ar_TotalCompleted rep + 1)) (ar_TotalFailed rep) (u64 (ar_TotalEarned rep + valueEarned))
    (<[category := cat]> (ar_Categories rep)) (ar_TopCategory rep) (ar_MemberSince rep)).

(** The first completions of a category lift the score to 30. *)
Definition boost (category : string) (verificationScore : F64) (rep : AgentReputation) : AgentReputation :=
  if bool_decide (cr_TasksCompleted (getOrCreateCategory rep category) <= 5) && f64_ltb (f64_round 8 10) verificationScore && f64_ltb (ar_OverallScore rep) (mkF64 30 1)
  then mkReputation (ar_AgentID rep) (mkF64 30 1) (ar_TotalCompleted rep) (ar_TotalFailed rep) (ar_TotalEarned rep) (ar_Categories rep) (ar_TopCategory rep) (ar_MemberSince rep)
  else rep.

Definition RecordCompletion (agentID : AgentID) (category : string) (valueEarned : Z) (verificationScore deliveryTimeSecs : F64) (now : Z) m : ReputationManager St :=
  rm_write agentID (boost category verificationScore (complete category valueEarned verificationScore deliveryTimeSecs now (getOrCreate agentID now m))) m.

Definition fail_task (category : string) (now : Z) (rep : AgentReputation) : AgentReputation :=
  let cat := getOrCreateCategory rep category in
  let cat := mkCategory (cr_Category cat) (cr_TasksCompleted cat) (u64 (cr_TasksFailed cat + 1)) (cr_TotalValueEarned cat) (cr_AvgScore cat) (cr_AvgDeliveryTime cat) now in
  updateOverallScore (mkReputation (ar_AgentID rep) (ar_OverallScore rep) (ar_TotalCompleted rep) (u64 (ar_TotalFailed rep + 1)) (ar_TotalEarned rep)
    (<[category := cat]> (ar_Categories rep)) (ar_TopCategory rep) (ar_MemberSince rep)).

Definition rm_RecordFailure (agentID : AgentID) (category : string) (now : Z) m : ReputationManager St :=
  rm_write agentID (fail_task category now (getOrCreate agentID now m)) m.

Definition GetReputation (agentID : AgentID) m : AgentReputation := default (new_reputation agentID 0) (rm_reputations m !! agentID).

Definition GetCategoryRecord (agentID : AgentID) (category : string) m : CategoryRecord :=
  default (new_category category) (rep ← rm_reputations m !! agentID; ar_Categories rep !! category).

(** The agents with completions in a category, with their scores. *)
Definition ranked (category : string) m : list (AgentReputation * F64) :=
  omap (λ rep, match ar_Categories rep !! category with
    | Some cat => if decide (cr_TasksCompleted cat = 0) then None else Some (rep, f64_mul (f64_of_u64 (cr_TasksCompleted cat)) (cr_AvgScore cat))
    | None => None end) (range_map (rm_reputations m)).

Definition rank_ge (a b : AgentReputation * F64) : Prop := f64_leb b.2 a.2 = true.

#[global] Instance rank_ge_dec a b : Decision (rank_ge a b).
Proof. unfold rank_ge. apply _. Defined.

Definition RankByCategory (category : string) (limit : Z) m : list AgentReputation :=
  let sorted := (sort_slice rank_ge (ranked category m)).*1 in if decide (0 < limit) then take (Z.to_nat limit) sorted else sorted.

(** [None] when the store cannot be read. *)
Definition rm_LoadFromStore m : option (ReputationManager St) :=
  match rm_store m with
  | None => Some m
  | Some s => (λ all, mkReputations (foldl (λ reps rep, <[ar_AgentID rep := rep]> reps) (rm_reputations m) all) (Some s)) <$> store_all s
  end.
End manager.

(** * Averages *)

Lemma rolling_within avg x n : within 1 avg → within 1 x → 1 <= n <= 2 ^ 53 → within 1 (rolling avg x n).
Proof.
  intros Ha Hx Hn. unfold rolling. change (2 ^ 53) with 9007199254740992 in Hn. rewrite u64_small by (unfold is_u64, u64_mod; lia).
  destruct (within_int (n - 1)) as [Hm _]; [change (2 ^ 53) with 9007199254740992; lia|]. destruct (within_int n) as [[[Hd _] _] He]; [change (2 ^ 53) with 9007199254740992; lia|].
  apply (within_div n n 1); [|done|done|lia|lia|change (2 ^ 53) with 9007199254740992; lia].
  apply (within_add (n - 1) 1); [|done|lia|change (2 ^ 53) with 9007199254740992; lia].
  apply (within_mul 1 (n - 1)); [done|done|lia|lia|lia|change (2 ^ 53) with 9007199254740992; lia].
Qed.


(** * What the records say *)

Inductive rep_op :=
  | OpCompleted (agent : AgentID) (category : string) (value : Z) (score secs : F64) (now : Z)
  | OpFailed (agent : AgentID) (category : string) (now : Z).

Definition ops_total (f : rep_op → Z) (ops : list rep_op) : Z := foldr (λ o n, f o + n) 0 ops.

(** The completions, failures and earnings of an agent, of one category or of all. *)
Definition of_category (c : option string) (category : string) : bool := match c with None => true | Some c => bool_decide (c = category) end.
Definition completed_by (a : AgentID) (c : option string) (o : rep_op) : Z :=
  match o with OpCompleted b k _ _ _ _ => if bool_decide (b = a) && of_category c k then 1 else 0 | _ => 0 end.
Definition failed_by (a : AgentID) (c : option string) (o : rep_op) : Z :=
  match o with OpFailed b k _ => if bool_decide (b = a) && of_category c k then 1 else 0 | _ => 0 end.
Definition earned_by (a : AgentID) (c : option string) (o : rep_op) : Z :=
  match o with OpCompleted b k v _ _ _ => if bool_decide (b = a) && of_category c k then v else 0 | _ => 0 end.

Definition agent_of (o : rep_op) : AgentID := match o with OpCompleted a _ _ _ _ _ | OpFailed a _ _ => a end.
Definition category_of (o : rep_op) : string := match o with OpCompleted _ c _ _ _ _ | OpFailed _ c _ => c end.
Definition score_ok (o : rep_op) : Prop := match o with OpCompleted _ _ _ s _ _ => within 1 s | _ => True end.

Lemma total_snoc f ops o : ops_total f (ops ++ [o]) = ops_total f ops + f o.
Proof. unfold ops_total. induction ops as [|x ops IH]; cbn; [lia|]. rewrite IH. lia. Qed.

Lemma total_range f ops : (∀ o, 0 <= f o <= 1) → 0 <= ops_total f ops <= Z.of_nat (length ops).
Proof. intros Hf. unfold ops_total. induction ops as [|x ops IH]; cbn [foldr length]; [lia|]. specialize (Hf x). lia. Qed.

Lemma completed_range a c o : 0 <= completed_by a c o <= 1.
Proof. destruct o; cbn; [|lia]. destruct (_ && _); lia. Qed.

Lemma failed_range a c o : 0 <= failed_by a c o <= 1.
Proof. destruct o; cbn; [lia|]. destruct (_ && _); lia. Qed.

Lemma completed_failed_range a c o : 0 <= completed_by a c o + failed_by a c o <= 1.
Proof. destruct o; cbn; destruct (_ && _); lia. Qed.

Lemma total_add f g ops : ops_total (λ o, f o + g o) ops = ops_total f ops + ops_total g ops.
Proof. unfold ops_total. induction ops as [|x ops IH]; cbn; [done|]. rewrite IH. lia. Qed.

Section facts.
Context {St : Type} {per : Persistence St AgentReputation} {ord : RangeOrder}.
Implicit Types m : ReputationManager St.

(** The record of a category after [ops]. *)
Definition category_exact (ops : list rep_op) (a : AgentID) (c : string) (cr : CategoryRecord) : Prop :=
  cr_Category cr = c ∧ cr_TasksCompleted cr = ops_total (completed_by a (Some c)) ops ∧ cr_TasksFailed cr = ops_total (failed_by a (Some c)) ops ∧
  cr_TotalValueEarned cr = u64 (ops_total (earned_by a (Some c)) ops) ∧ within 1 (cr_AvgScore cr).

Definition top_exact (rep : AgentReputation) : Prop :=
  (ar_TopCategory rep = "" ∧ ∀ c cr, ar_Categories rep !! c = Some cr → cr_TasksCompleted cr = 0) ∨
  ∃ top, ar_Categories rep !! ar_TopCategory rep = Some top ∧ 0 < cr_TasksCompleted top ∧ ∀ c cr, ar_Categories rep !! c = Some cr → cr_TasksCompleted cr <= cr_TasksCompleted top.

Definition reputation_ok (ops : list rep_op) (a : AgentID) (rep : AgentReputation) : Prop :=
  ar_AgentID rep = a ∧ ar_TotalCompleted rep = ops_total (completed_by a None) ops ∧ ar_TotalFailed rep = ops_total (failed_by a None) ops ∧
  ar_TotalEarned rep = u64 (ops_total (earned_by a None) ops) ∧ within 100 (ar_OverallScore rep) ∧ top_exact rep ∧
  ∀ c, category_exact ops a c (default (new_category c) (ar_Categories rep !! c)).

Lemma fold_top cats : ∀ mx top, (∀ c, c ∈ cats → 0 <= cr_TasksCompleted c) → 0 <= mx →
  let '(mx', top') := foldl (λ '(maxTasks, top) cat, if decide (maxTasks < cr_TasksCompleted cat) then (cr_TasksCompleted cat, cr_Category cat) else (maxTasks, top)) (mx, top) cats in
  mx <= mx' ∧ (∀ c, c ∈ cats → cr_TasksCompleted c <= mx') ∧ ((mx' = mx ∧ top' = top) ∨ ∃ c, c ∈ cats ∧ cr_TasksCompleted c = mx' ∧ top' = cr_Category c ∧ 0 < mx').
Proof.
  induction cats as [|x cats IH]; intros mx top Hpos Hmx; cbn [foldl]; [split_and!; [done|intros c Hc; by apply not_elem_of_nil in Hc|by left]|].
  case_decide as Hlt.
  - specialize (IH (cr_TasksCompleted x) (cr_Category x) ltac:(intros c Hc; apply Hpos; by right) ltac:(lia)). destruct (foldl _ _ _) as [mx' top']. destruct IH as (H1 & H2 & H3). split_and!; [lia| |].
    + intros c [->|Hc]%elem_of_cons; [done|by apply H2].
    + right. destruct H3 as [[-> ->]|(c & Hc & Hr)]; [exists x; split_and!; [by left|done|done|lia]|exists c; split; [by right|done]].
  - specialize (IH mx top ltac:(intros c Hc; apply Hpos; by right) Hmx). destruct (foldl _ _ _) as [mx' top']. destruct IH as (H1 & H2 & H3). split_and!; [lia| |].
    + intros c [->|Hc]%elem_of_cons; [lia|by apply H2].
    + destruct H3 as [H3|(c & Hc & Hr)]; [by left|right; exists c; split; [by right|done]].
Qed.

(** [updateOverallScore] keeps the counts and sets the score and the top category. *)
Lemma update_spec rep : 0 <= ar_TotalCompleted rep → 0 <= ar_TotalFailed rep → 0 < ar_TotalCompleted rep + ar_TotalFailed rep <= 2 ^ 53 →
  (∀ c cr, ar_Categories rep !! c = Some cr → cr_Category cr = c ∧ 0 <= cr_TasksCompleted cr) →
  ((∀ c cr, ar_Categories rep !! c = Some cr → cr_TasksCompleted cr = 0) → ar_TopCategory rep = "") →
  let rep' := updateOverallScore rep in
  ar_AgentID rep' = ar_AgentID rep ∧ ar_TotalCompleted rep' = ar_TotalCompleted rep ∧ ar_TotalFailed rep' = ar_TotalFailed rep ∧ ar_TotalEarned rep' = ar_TotalEarned rep ∧
  ar_Categories rep' = ar_Categories rep ∧ within 100 (ar_OverallScore rep') ∧ top_exact rep'.
Proof.
  intros Hc Hf Ht Hcats Htop. change (2 ^ 53) with 9007199254740992 in Ht. unfold updateOverallScore. cbv zeta. rewrite u64_small by (unfold is_u64, u64_mod; lia). rewrite decide_False by lia. cbn.
  split_and!; [done|done|done|done|done| |].
  - assert (W : within 1 (f64_div (if f64_ltb (mkF64 100 1) (f64_of_u64 (ar_TotalCompleted rep)) then mkF64 100 1 else f64_of_u64 (ar_TotalCompleted rep)) (mkF64 100 1))).
    { apply (within_div 100 100 1); [|done|done|lia|lia|done]. destruct (f64_ltb _ _) eqn:E; [by split|].
      destruct (within_int (ar_TotalCompleted rep)) as [[Hok _] _]; [change (2 ^ 53) with 9007199254740992; lia|]. split; [done|].
      rewrite f64_ltb_leb in E. apply negb_false_iff in E. apply f64_leb_le in E. cbn in E. lia. }
    apply (within_mul 1 100); [|by split|lia|lia|lia|done]. apply (within_mul 1 1); [|done|lia|lia|lia|done]. apply ratio_within; [lia|change (2 ^ 53) with 9007199254740992; lia].
  - unfold top_exact. cbn [ar_TopCategory ar_Categories]. unfold top_category.
    pose proof (fold_top (range_map (ar_Categories rep)) 0 (ar_TopCategory rep)) as Hfold. destruct (foldl _ _ _) as [mx top]. cbn [snd].
    destruct Hfold as (_ & Hmax & Hcase); [intros c (k & Hk)%elem_of_range_map; by apply Hcats in Hk as [_ ?]|lia|].
    assert (Hmax' : ∀ c cr, ar_Categories rep !! c = Some cr → cr_TasksCompleted cr <= mx) by (intros c cr Hcr; apply Hmax, elem_of_range_map; by exists c).
    destruct Hcase as [[-> ->]|(t & (k & Hk)%elem_of_range_map & <- & -> & Hpos)].
    + left. assert (Hz : ∀ c cr, ar_Categories rep !! c = Some cr → cr_TasksCompleted cr = 0) by (intros c cr Hcr; pose proof (Hmax' _ _ Hcr); apply Hcats in Hcr as [_ ?]; lia). split; [by apply Htop|done].
    + right. exists t. destruct (Hcats _ _ Hk) as [-> _]. done.
Qed.

Lemma boost_spec category s rep : within 100 (ar_OverallScore rep) → let rep' := boost category s rep in
  within 100 (ar_OverallScore rep') ∧ ar_AgentID rep' = ar_AgentID rep ∧ ar_TotalCompleted rep' = ar_TotalCompleted rep ∧ ar_TotalFailed rep' = ar_TotalFailed rep ∧
  ar_TotalEarned rep' = ar_TotalEarned rep ∧ ar_Categories rep' = ar_Categories rep ∧ ar_TopCategory rep' = ar_TopCategory rep.
Proof. intros Hw. unfold boost. destruct (_ && _ && _); cbn; split_and!; try done. Qed.

(** An agent that is not concerned keeps its record exact. *)
Lemma other_exact ops o a rep : agent_of o ≠ a → reputation_ok ops a rep → reputation_ok (ops ++ [o]) a rep.
Proof.
  intros Hne (H1 & H2 & H3 & H4 & H5 & H6 & H7).
  assert (E : ∀ c, completed_by a c o = 0 ∧ failed_by a c o = 0 ∧ earned_by a c o = 0) by (intros c; destruct o; cbn in *; by rewrite ?(bool_decide_eq_false_2 (_ = _)) by done).
  split_and!; [done|rewrite total_snoc; destruct (E None) as (-> & _); lia|rewrite total_snoc; destruct (E None) as (_ & -> & _); lia|rewrite total_snoc; destruct (E None) as (_ & _ & ->); by rewrite Z.add_0_r|done|done|].
  intros c. destruct (H7 c) as (C1 & C2 & C3 & C4 & C5). destruct (E (Some c)) as (E1 & E2 & E3). unfold category_exact. rewrite !total_snoc, E1, E2, E3, !Z.add_0_r. done.
Qed.
End facts.

Section preservation.
Context {St : Type} {per : Persistence St AgentReputation} {ord : RangeOrder}.
Implicit Types m : ReputationManager St.

Lemma small_count f ops : (∀ o, 0 <= f o <= 1) → Z.of_nat (length ops) < 2 ^ 53 → u64 (ops_total f ops + 1) = ops_total f ops + 1.
Proof. intros Hf Hl. pose proof (total_range f ops Hf). apply u64_small. unfold is_u64, u64_mod. change (2 ^ 53) with 9007199254740992 in Hl. lia. Qed.

Lemma u64_add_u64 x y : u64 (u64 x + y) = u64 (x + y).
Proof. unfold u64. apply Z.add_mod_idemp_l. done. Qed.

(** Without completions the top category is not set. *)
Lemma top_stays rep ops a : reputation_ok ops a rep → (∀ c cr, ar_Categories rep !! c = Some cr → cr_TasksCompleted cr = 0) → ar_TopCategory rep = "".
Proof. intros (_ & _ & _ & _ & _ & Htop & _) Hz. destruct Htop as [[? _]|(t & Ht & Hpos & _)]; [done|]. apply Hz in Ht. lia. Qed.

(** [updateOverallScore] of the counts, with one category replaced. *)
Lemma replaced_ok ops o a rep c cr k f e : reputation_ok ops a rep → Z.of_nat (length ops) < 2 ^ 53 → agent_of o = a → category_of o = c →
  k = ops_total (completed_by a None) (ops ++ [o]) → f = ops_total (failed_by a None) (ops ++ [o]) → e = u64 (ops_total (earned_by a None) (ops ++ [o])) →
  category_exact (ops ++ [o]) a c cr → (cr_TasksCompleted cr = 0 → cr_TasksCompleted (getOrCreateCategory rep c) = 0) →
  reputation_ok (ops ++ [o]) a (updateOverallScore (mkReputation (ar_AgentID rep) (ar_OverallScore rep) k f e (<[c := cr]> (ar_Categories rep)) (ar_TopCategory rep) (ar_MemberSince rep))).
Proof.
  intros Hok Hlen Ha Hc Hk Hf He Hcr Hz. set (rep0 := mkReputation _ _ k f e _ _ _). pose proof Hok as (H1 & _ & _ & _ & _ & _ & H7).
  pose proof (total_range (λ o, completed_by a None o + failed_by a None o) (ops ++ [o]) (completed_failed_range a None)) as Hr. rewrite total_add, length_app in Hr. cbn [length] in Hr.
  pose proof (total_range (completed_by a None) (ops ++ [o]) (completed_range a None)) as Hr1. pose proof (total_range (failed_by a None) (ops ++ [o]) (failed_range a None)) as Hr2.
  assert (Hone : 0 < k + f).
  { rewrite Hk, Hf, !total_snoc. pose proof (total_range (completed_by a None) ops (completed_range a None)). pose proof (total_range (failed_by a None) ops (failed_range a None)).
    destruct o; cbn in *; rewrite !bool_decide_eq_true_2 by done; cbn; lia. }
  destruct (update_spec rep0) as (U1 & U2 & U3 & U4 & U5 & U6 & U7); cbn [rep0 ar_TotalCompleted ar_TotalFailed ar_Categories ar_TopCategory]; [lia|lia|lia| | |].
  - intros d dr [[<- <-]|[Hne Hd]]%lookup_insert_Some.
    + destruct Hcr as (-> & -> & _). split; [done|]. apply total_range. apply completed_range.
    + specialize (H7 d). rewrite Hd in H7. cbn in H7. destruct H7 as (-> & -> & _). split; [done|]. apply total_range, completed_range.
  - intros Hall. apply (top_stays rep ops a Hok). intros d dr Hd. destruct (decide (d = c)) as [->|Hne].
    + specialize (Hz (Hall c cr (lookup_insert_eq _ _ _))). unfold getOrCreateCategory in Hz. by rewrite Hd in Hz.
    + apply (Hall d). by rewrite lookup_insert_ne.
  - split_and!; [by rewrite U1|by rewrite U2|by rewrite U3|by rewrite U4|done|done|]. intros d. rewrite U5. cbn [rep0 ar_Categories].
    destruct (decide (d = c)) as [->|Hne]; [by rewrite lookup_insert_eq|]. rewrite lookup_insert_ne by done. destruct (H7 d) as (C1 & C2 & C3 & C4 & C5). unfold category_exact. rewrite !total_snoc.
    assert (E : completed_by a (Some d) o = 0 ∧ failed_by a (Some d) o = 0 ∧ earned_by a (Some d) o = 0).
    { destruct o; cbn in Hc |- *; subst c; rewrite (bool_decide_eq_false_2 (d = _)) by done; by rewrite andb_false_r. }
    destruct E as (-> & -> & ->). by rewrite !Z.add_0_r.
Qed.

Lemma complete_ok ops a c v s t now rep : reputation_ok ops a rep → Z.of_nat (length ops) < 2 ^ 53 → within 1 s →
  reputation_ok (ops ++ [OpCompleted a c v s t now]) a (boost c s (complete c v s t now rep)).
Proof.
  intros Hok Hlen Hs. pose proof Hok as (H1 & H2 & H3 & H4 & _ & _ & H7). destruct (H7 c) as (C1 & C2 & C3 & C4 & C5). fold (getOrCreateCategory rep c) in C1, C2, C3, C4, C5.
  assert (Hone : ∀ d, completed_by a (Some d) (OpCompleted a c v s t now) = (if bool_decide (d = c) then 1 else 0)) by (intros d; cbn; by rewrite bool_decide_eq_true_2).
  assert (R : reputation_ok (ops ++ [OpCompleted a c v s t now]) a (complete c v s t now rep)).
  { unfold complete. apply (replaced_ok ops _ a rep c); [done|done|done|done| | | | |].
    - rewrite H2, small_count, total_snoc by (apply completed_range || done). cbn. by rewrite bool_decide_eq_true_2.
    - rewrite H3, total_snoc. cbn. lia.
    - rewrite H4, total_snoc. cbn. rewrite bool_decide_eq_true_2 by done. cbn. by rewrite u64_add_u64.
    - split_and!; cbn [cr_Category cr_TasksCompleted cr_TasksFailed cr_TotalValueEarned cr_AvgScore]; [done| | | |].
      + rewrite C2, small_count, total_snoc by (apply completed_range || done). cbn. by rewrite !bool_decide_eq_true_2.
      + rewrite C3, total_snoc. cbn. lia.
      + rewrite C4, total_snoc. cbn. rewrite !bool_decide_eq_true_2 by done. cbn. by rewrite u64_add_u64.
      + rewrite C2, small_count by (apply completed_range || done). apply rolling_within; [done|done|]. pose proof (total_range (completed_by a (Some c)) ops (completed_range a (Some c))). lia.
    - cbn. rewrite C2, small_count by (apply completed_range || done). pose proof (total_range (completed_by a (Some c)) ops (completed_range a (Some c))). lia. }
  destruct R as (R1 & R2 & R3 & R4 & R5 & R6 & R7). destruct (boost_spec c s _ R5) as (B1 & B2 & B3 & B4 & B5 & B6 & B7).
  split_and!; [by rewrite B2|by rewrite B3|by rewrite B4|by rewrite B5|done|unfold top_exact; by rewrite B6, B7|intros d; by rewrite B6].
Qed.

Lemma fail_ok ops a c now rep : reputation_ok ops a rep → Z.of_nat (length ops) < 2 ^ 53 → reputation_ok (ops ++ [OpFailed a c now]) a (fail_task c now rep).
Proof.
  intros Hok Hlen. pose proof Hok as (H1 & H2 & H3 & H4 & _ & _ & H7). destruct (H7 c) as (C1 & C2 & C3 & C4 & C5). fold (getOrCreateCategory rep c) in C1, C2, C3, C4, C5.
  unfold fail_task. apply (replaced_ok ops _ a rep c); [done|done|done|done| | | | |done].
  - rewrite H2, total_snoc. cbn. lia.
  - rewrite H3, small_count, total_snoc by (apply failed_range || done). cbn. by rewrite bool_decide_eq_true_2.
  - rewrite H4, total_snoc. cbn. by rewrite Z.add_0_r.
  - split_and!; cbn [cr_Category cr_TasksCompleted cr_TasksFailed cr_TotalValueEarned cr_AvgScore]; [done| | | |done].
    + rewrite C2, total_snoc. cbn. lia.
    + rewrite C3, small_count, total_snoc by (apply failed_range || done). cbn. by rewrite !bool_decide_eq_true_2.
    + rewrite C4, total_snoc. cbn. by rewrite Z.add_0_r.
Qed.

Definition manager_ok (ops : list rep_op) m : Prop := ∀ a now, reputation_ok ops a (getOrCreate a now m).

Definition rep_step m (o : rep_op) : ReputationManager St :=
  match o with
  | OpCompleted a c v s t now => RecordCompletion a c v s t now m
  | OpFailed a c now => rm_RecordFailure a c now m
  end.

Lemma rep_write_ok ops o rep m : manager_ok ops m → reputation_ok (ops ++ [o]) (agent_of o) rep → manager_ok (ops ++ [o]) (rm_write (agent_of o) rep m).
Proof.
  intros Hm Hrep a now. unfold getOrCreate, rm_write. cbn [rm_reputations]. destruct (decide (agent_of o = a)) as [<-|Hne]; [by rewrite lookup_insert_eq|].
  rewrite lookup_insert_ne by done. apply other_exact; [done|]. apply Hm.
Qed.

Lemma rep_step_ok ops o m : manager_ok ops m → Z.of_nat (length ops) < 2 ^ 53 → score_ok o → manager_ok (ops ++ [o]) (rep_step m o).
Proof.
  intros Hm Hlen Hs. destruct o as [a c v s t now|a c now]; cbn [rep_step].
  - apply (rep_write_ok ops (OpCompleted a c v s t now)); [done|]. by apply complete_ok.
  - apply (rep_write_ok ops (OpFailed a c now)); [done|]. by apply fail_ok.
Qed.

Lemma rep_run_ok todo : ∀ ops m, manager_ok ops m → Z.of_nat (length ops + length todo) <= 2 ^ 53 → Forall score_ok todo → manager_ok (ops ++ todo) (foldl rep_step m todo).
Proof.
  induction todo as [|o todo IH]; intros ops m Hm Hlen Hs; [by rewrite app_nil_r|]. apply Forall_cons in Hs as [Ho Hs]. cbn [length] in Hlen.
  replace (ops ++ o :: todo) with ((ops ++ [o]) ++ todo) by (by rewrite <- app_assoc). cbn [foldl]. apply IH; [apply rep_step_ok; [done|lia|done]|rewrite length_app; cbn; lia|done].
Qed.

Lemma manager_ok_new s : manager_ok [] (mkReputations ∅ s).
Proof.
  intros a now. unfold getOrCreate. cbn. rewrite lookup_empty. cbn.
  assert (Hz : ∀ k, within k f64_zero ↔ 0 <= k) by (intros k; unfold within, f64_ok; cbn; lia).
  split_and!; [done|done|done|done|by apply Hz|left; split; [done|intros c cr Hc; cbn in Hc; by rewrite lookup_empty in Hc]|].
  intros c. cbn. rewrite lookup_empty. cbn. split_and!; [done|done|done|done|by apply Hz].
Qed.
End preservation.

(** * Properties *)

Section theorems.
Context {St : Type} {per : Persistence St AgentReputation} {laws : PersistenceLaws St AgentReputation ar_AgentID} {ord : RangeOrder}.
Implicit Types m : ReputationManager St.

(** The store holds what the memory holds. *)
Definition mirrored m : Prop := ∃ s, rm_store m = Some s ∧ store_view s = rm_reputations m ∧ ∀ a rep, rm_reputations m !! a = Some rep → ar_AgentID rep = a.

Lemma write_mirrored ops o rep m : (∀ v s, (store_put v s).2 = true) → manager_ok ops m → ar_AgentID rep = agent_of o → mirrored m → mirrored (rm_write (agent_of o) rep m).
Proof.
  intros Hput Hm Hid (s & Hs & Hv & Hk). unfold rm_write, rm_persist. rewrite Hs. destruct (store_put rep s) as [s' ok] eqn:E. specialize (Hput rep s). rewrite E in Hput. cbn in Hput. subst ok.
  exists s'. split_and!; [cbn; by rewrite E|cbn; rewrite (store_put_ok _ _ _ E), Hv; by rewrite Hid|]. cbn. intros a r [[<- <-]|[_ Hr]]%lookup_insert_Some; [done|by apply Hk].
Qed.

Lemma rep_run_mirrored todo : ∀ ops m, (∀ v s, (store_put v s).2 = true) → manager_ok ops m → Z.of_nat (length ops + length todo) <= 2 ^ 53 → Forall score_ok todo →
  mirrored m → mirrored (foldl rep_step m todo).
Proof.
  induction todo as [|o todo IH]; intros ops m Hput Hm Hlen Hs Hmir; [done|]. apply Forall_cons in Hs as [Ho Hs]. cbn [length] in Hlen.
  pose proof (rep_step_ok ops o m Hm ltac:(lia) Ho) as Hm'. cbn [foldl]. apply (IH (ops ++ [o])); [done|done|rewrite length_app; cbn; lia|done|].
  destruct o as [a c v s t now|a c now]; cbn [rep_step] in *.
  - apply (write_mirrored ops (OpCompleted a c v s t now)); [done|done| |done]. specialize (Hm' a now) as [Hid _]. unfold getOrCreate, RecordCompletion, rm_write in Hid. cbn in Hid. by rewrite lookup_insert_eq in Hid.
  - apply (write_mirrored ops (OpFailed a c now)); [done|done| |done]. specialize (Hm' a now) as [Hid _]. unfold getOrCreate, rm_RecordFailure, rm_write in Hid. cbn in Hid. by rewrite lookup_insert_eq in Hid.
Qed.

Lemma mirrored_reload m : mirrored m → ∀ s m', rm_store m = Some s → rm_LoadFromStore (rm_SetStore s NewReputationManager) = Some m' → rm_reputations m' = rm_reputations m.
Proof.
  intros (s0 & Hs0 & Hv & Hk) s m' Hs. rewrite Hs in Hs0. injection Hs0 as <-. unfold rm_LoadFromStore, rm_SetStore, NewReputationManager. cbn [rm_store rm_reputations].
  destruct (store_all s) as [all|] eqn:E; [|done]. cbn. intros [= <-]. cbn. apply store_all_view in E. rewrite Hv in E. by apply (load_all_view ar_AgentID).
Qed.

Lemma elem_of_ranked category m rep x : (rep, x) ∈ ranked category m ↔
  (∃ a, rm_reputations m !! a = Some rep) ∧ ∃ cat, ar_Categories rep !! category = Some cat ∧ cr_TasksCompleted cat ≠ 0 ∧ x = f64_mul (f64_of_u64 (cr_TasksCompleted cat)) (cr_AvgScore cat).
Proof.
  unfold ranked. rewrite list_elem_of_omap. setoid_rewrite elem_of_range_map. split.
  - intros (r & Hr & E). destruct (ar_Categories r !! category) as [cat|] eqn:Hc; [|done]. case_decide; [done|]. injection E as <- <-. split; [done|]. by exists cat.
  - intros (Hr & cat & Hc & Hne & ->). exists rep. rewrite Hc. by rewrite decide_False.
Qed.
End theorems.

(** C27: reputations are exact.  After any sequence of completions and failures, with scores between 0 and 1 and fewer than 2^53
    of them, each agent's and each category's counts are those of the sequence, the earnings its sum modulo 2^64, all
    average scores stay between 0 and 1 and the overall score between 0 and 100 in spite of rounding, and the top category
    has the most completions, whatever the order in which Go ranges over the categories; with a store that takes every write, a
    restart finds the same records. *)
Theorem reputations_exact {St} {per : Persistence St AgentReputation} {laws : PersistenceLaws St AgentReputation ar_AgentID} {ord : RangeOrder} (s0 : St) ops m :
  store_view s0 = ∅ → Z.of_nat (length ops) <= 2 ^ 53 → Forall score_ok ops → foldl rep_step (rm_SetStore s0 NewReputationManager) ops = m →
  (∀ a now, let rep := getOrCreate a now m in
     ar_TotalCompleted rep = ops_total (completed_by a None) ops ∧ ar_TotalFailed rep = ops_total (failed_by a None) ops ∧
     ar_TotalEarned rep = u64 (ops_total (earned_by a None) ops) ∧
     (0 <= f64_num (ar_OverallScore rep) <= 100 * f64_den (ar_OverallScore rep)) ∧
     (0 < ar_TotalCompleted rep → ∃ top, ar_Categories rep !! ar_TopCategory rep = Some top ∧ ∀ c cr, ar_Categories rep !! c = Some cr → cr_TasksCompleted cr <= cr_TasksCompleted top) ∧
     ∀ c, let cr := getOrCreateCategory rep c in
       cr_TasksCompleted cr = ops_total (completed_by a (Some c)) ops ∧ cr_TasksFailed cr = ops_total (failed_by a (Some c)) ops ∧
       cr_TotalValueEarned cr = u64 (ops_total (earned_by a (Some c)) ops) ∧ 0 <= f64_num (cr_AvgScore cr) <= f64_den (cr_AvgScore cr)) ∧
  ((∀ v s, (store_put v s).2 = true) → ∀ s m', rm_store m = Some s → rm_LoadFromStore (rm_SetStore s NewReputationManager) = Some m' → rm_reputations m' = rm_reputations m).
Proof.
  intros Hs0 Hlen Hsc <-. assert (Hok : manager_ok ops (foldl rep_step (rm_SetStore s0 NewReputationManager) ops)) by exact (rep_run_ok ops [] _ (manager_ok_new (Some s0)) Hlen Hsc). split.
  - intros a now rep. destruct (Hok a now) as (_ & H2 & H3 & H4 & [[H5d H5n] H5] & H6 & H7). fold rep in H2, H3, H4, H5d, H5n, H5, H6, H7. split_and!; [done|done|done|done|done| |].
    + intros Hpos. destruct H6 as [[_ Hz]|(t & Ht & _ & Hmax)]; [|by exists t]. exfalso. rewrite H2 in Hpos.
      assert (Hall : ∀ l, (∀ c, ops_total (completed_by a (Some c)) l = 0) → ops_total (completed_by a None) l = 0).
      { induction l as [|o l IH] using rev_ind; intros Hl; [done|]. rewrite total_snoc. assert (E : ∀ c, ops_total (completed_by a (Some c)) l = 0 ∧ completed_by a (Some c) o = 0).
        { intros c. specialize (Hl c). rewrite total_snoc in Hl. pose proof (total_range _ l (completed_range a (Some c))). pose proof (completed_range a (Some c) o). lia. }
        rewrite IH by (intros c; apply E). destruct (E (category_of o)) as [_ Eo]. destruct o as [b k v s t now'|]; [|done]. cbn in *. rewrite (bool_decide_eq_true_2 (k = k)) in Eo by done. done. }
      rewrite Hall in Hpos; [lia|]. intros c. destruct (H7 c) as (_ & <- & _). destruct (ar_Categories rep !! c) eqn:Hc; [by apply (Hz c)|done].
    + intros c cr. destruct (H7 c) as (_ & C2 & C3 & C4 & [[C5d C5n] C5]). fold (getOrCreateCategory rep c) in C2, C3, C4, C5, C5n, C5d. fold cr in C2, C3, C4, C5, C5n, C5d. split_and!; [done|done|done|done|lia].
  - intros Hput s m' Hs Hl. refine (mirrored_reload _ _ s m' Hs Hl).
    apply (rep_run_mirrored ops []); [done|apply manager_ok_new|cbn; lia|done|]. exists s0. split_and!; [done|done|]. intros a rep Hr. cbn in Hr. by rewrite lookup_empty in Hr.
Qed.


Module DemoReputation.
Definition store0 : KeyedStore ar_AgentID := ks_empty ar_AgentID.

Definition good : F64 := f64_round 9 10.

Definition earned : list rep_op :=
  [OpCompleted "a" "code" 10 good f64_zero 1; OpCompleted "a" "writing" 5 good f64_zero 2; OpCompleted "a" "code" 7 f64_one f64_zero 3; OpFailed "a" "ml" 4].

Definition rep_run (ops : list rep_op) : ReputationManager (KeyedStore ar_AgentID) :=
  foldl (rep_step (ord := elements_order)) (rm_SetStore store0 NewReputationManager) ops.

Example profile : let rep := GetReputation "a" (rep_run earned) in (ar_TotalCompleted rep, ar_TotalFailed rep, ar_TotalEarned rep, ar_TopCategory rep) = (3, 1, 22, "code").
Proof. vm_compute. reflexivity. Qed.

(** The boost for new agents looks at the category, not at the agent: after a hundred failures and one completion in a new
    category the score of an agent is 30. *)
Example boost_for_failures :
  let m := rep_run (replicate 100 (OpFailed "b" "code" 1) ++ [OpCompleted "b" "poetry" 1 good f64_zero 2]) in
  f64_leb (mkF64 30 1) (ar_OverallScore (GetReputation "b" m)) = true ∧
  f64_leb (mkF64 30 1) (ar_OverallScore (GetReputation "b" (rep_run (replicate 100 (OpFailed "b" "code" 1) ++ [OpCompleted "b" "poetry" 1 f64_zero f64_zero 2])))) = false.
Proof. vm_compute. done. Qed.

(** One failure takes the boost away. *)
Example boost_lost : f64_leb (mkF64 30 1) (ar_OverallScore (GetReputation "a" (rep_run [OpCompleted "a" "code" 10 good f64_zero 1]))) = true ∧
  f64_leb (mkF64 1 1) (ar_OverallScore (GetReputation "a" (rep_run [OpCompleted "a" "code" 10 good f64_zero 1; OpFailed "a" "code" 2]))) = false.
Proof. vm_compute. done. Qed.
End DemoReputation.

Lemma reputations_exact_witness : ar_TotalCompleted (getOrCreate "a" 0 (DemoReputation.rep_run DemoReputation.earned)) = 3.
Proof.
  destruct (reputations_exact (laws := ks_laws ar_AgentID) (ord := elements_order) DemoReputation.store0 DemoReputation.earned (DemoReputation.rep_run DemoReputation.earned) ltac:(reflexivity) ltac:(vm_compute; discriminate)
    ltac:(repeat constructor; vm_compute; discriminate) eq_refl) as [H _].
  destruct (H "a" 0) as (E & _). rewrite E. vm_compute. reflexivity.
Defined.
