(* ===== verification/Tables.v ===== *)
(** internal/store: the tables of the node in one BadgerDB, by prefix of the key.

    Every method of [Store] over the class [Badger] of RoundStore, reads that fail included; JSON is a parameter ([JsonOf]).  The tables do
    not overlap, so that the database refines a map per table, and a table of records is an instance of the class [Persistence] that
    the ledgers, the escrow and the registries use. *)

From stdpp Require Import fin_map_dom.
From S2P Require Import Prelude GoStd Event Store Transfer Generation Identity Ocs Escrow Staking Voting Dispatch Assurance RoundStore Slashing Jcs Epoch.
#[local] Open Scope Z_scope.

(** [json.Marshal] and [json.Unmarshal] at a type. *)
Class JsonOf (V : Type) : Type := { json_marshal : V → option string; json_unmarshal : string → option V }.

(** A value whose strings are UTF-8 ([json_safe]) reads back; [encoding/json] replaces the bytes that are not. *)
Class JsonOfOk (V : Type) {json : JsonOf V} : Type := {
  json_safe : V → Prop;
  json_roundtrip v data : json_safe v → json_marshal v = Some data → json_unmarshal data = Some v;
}.

(** Every value of the type that the node handles is one. *)
Class JsonSafe (V : Type) {json : JsonOf V} {json_ok : JsonOfOk V} : Prop := json_all_safe v : json_safe v.

Definition prefixEvent : string := "evt:".
Definition prefixTransfer : string := "txf:".
Definition prefixGeneration : string := "gen:".
Definition prefixPending : string := "ocs:".
Definition prefixIdentity : string := "idn:".
Definition prefixStakeMeta : string := "stk:".
Definition prefixRegistry : string := "reg:".
Definition prefixMeta : string := "meta:".
Definition prefixAPIKey : string := "key:".
Definition prefixEscrow : string := "esc:".
Definition prefixValidator : string := "val:".
Definition prefixReplayReserve : string := "rsvr:".
Definition prefixChallenge : string := "chal:".
Definition prefixDispatch : string := "dispatch:".
Definition prefixTask : string := "tsk:".
Definition prefixReputation : string := "rep:".
Definition prefixReplayJob : string := "rpj:".
Definition prefixReplayOutcome : string := "rpo:".
Definition prefixVote : string := "vot:".
Definition prefixCanary : string := "cnr:".
Definition prefixCanaryTaskIndex : string := "cnrt:".
Definition prefixCalibration : string := "cal:".

(** What follows a prefix of a key. *)
Fixpoint strip_prefix (p k : string) : option string :=
  match p, k with
  | EmptyString, _ => Some k
  | String a p, String b k => if decide (a = b) then strip_prefix p k else None
  | _, _ => None
  end.

(** [key[prefixLen:]] of a key with the prefix. *)
Definition after_prefix (p k : string) : string := default "" (strip_prefix p k).

Section raw.
Context {D : Type} {bg : Badger D}.

(** A read under a prefix, and one where absent keys and failures are both errors. *)
Definition kv_read (p id : string) (d : D) : option (option string) := bg_read (p +:+ id) d.
Definition kv_get (p id : string) (d : D) : option string := default None (kv_read p id d).
Definition kv_put (p id data : string) (d : D) : D * bool := bg_update [KVSet (p +:+ id) data] d.
Definition kv_delete (p id : string) (d : D) : D * bool := bg_update [KVDelete (p +:+ id)] d.
Definition kv_scan (p : string) (d : D) : option (list (string * string)) := (λ l : list (string * string), (λ kd : string * string, (after_prefix p kd.1, kd.2)) <$> l) <$> bg_scan p d.

(** The loops that collect blobs in a map. *)
Definition kv_all (p : string) (d : D) : option (gmap string string) := list_to_map <$> kv_scan p d.

(** Records as JSON, under a key of their own; a record that does not parse fails the whole scan. *)
Section typed.
Context {V : Type} {json : JsonOf V}.

Definition put_json (p id : string) (v : V) (d : D) : D * bool := match json_marshal v with None => (d, false) | Some data => kv_put p id data d end.
Definition get_json (p id : string) (d : D) : option V := data ← kv_get p id d; json_unmarshal data.
Definition all_json (p : string) (d : D) : option (list V) := l ← kv_scan p d; mapM (λ kd : string * string, json_unmarshal kd.2) l.
End typed.

(** * Events, ledgers, pending items, identities, escrow *)

Definition st_PutEvent {json : JsonOf Event} (e : Event) : D → D * bool := put_json prefixEvent (ID e) e.
Definition st_GetEvent {json : JsonOf Event} (id : EventID) : D → option Event := get_json prefixEvent id.
Definition st_AllEvents {json : JsonOf Event} : D → option (list Event) := all_json prefixEvent.

Definition st_PutTransfer {json : JsonOf TransferEntry} (entry : TransferEntry) : D → D * bool := put_json prefixTransfer (te_EventID entry) entry.
Definition st_GetTransfer {json : JsonOf TransferEntry} (id : EventID) : D → option TransferEntry := get_json prefixTransfer id.
Definition st_DeleteTransfer (id : EventID) : D → D * bool := kv_delete prefixTransfer id.
Definition st_AllTransfers {json : JsonOf TransferEntry} : D → option (list TransferEntry) := all_json prefixTransfer.

Definition st_PutGeneration {json : JsonOf GenerationEntry} (entry : GenerationEntry) : D → D * bool := put_json prefixGeneration (ge_EventID entry) entry.
Definition st_GetGeneration {json : JsonOf GenerationEntry} (id : EventID) : D → option GenerationEntry := get_json prefixGeneration id.
Definition st_AllGenerations {json : JsonOf GenerationEntry} : D → option (list GenerationEntry) := all_json prefixGeneration.

Definition st_PutPending {json : JsonOf PendingItem} (item : PendingItem) : D → D * bool := put_json prefixPending (pi_EventID item) item.
Definition st_DeletePending (id : EventID) : D → D * bool := kv_delete prefixPending id.
Definition st_AllPending {json : JsonOf PendingItem} : D → option (list PendingItem) := all_json prefixPending.

Definition st_PutIdentity {json : JsonOf CapabilityFingerprint} (fp : CapabilityFingerprint) : D → D * bool := put_json prefixIdentity (fp_AgentID fp) fp.
Definition st_GetIdentity {json : JsonOf CapabilityFingerprint} (id : AgentID) : D → option CapabilityFingerprint := get_json prefixIdentity id.
Definition st_DeleteIdentity (id : AgentID) : D → D * bool := kv_delete prefixIdentity id.
Definition st_AllIdentities {json : JsonOf CapabilityFingerprint} : D → option (list CapabilityFingerprint) := all_json prefixIdentity.

Definition st_PutEscrow {json : JsonOf EscrowEntry} (entry : EscrowEntry) : D → D * bool := put_json prefixEscrow (ee_TaskID entry) entry.
Definition st_GetEscrow {json : JsonOf EscrowEntry} (taskID : string) : D → option EscrowEntry := get_json prefixEscrow taskID.
Definition st_AllEscrowEntries {json : JsonOf EscrowEntry} : D → option (list EscrowEntry) := all_json prefixEscrow.
Definition st_DeleteEscrow (taskID : string) : D → D * bool := kv_delete prefixEscrow taskID.

(** * Stake metadata *)

(** [binary.BigEndian.Uint64] of the eight bytes from position [i]. *)
Definition be_at (i : nat) (val : list Z) : Z := Sha256.be_word (take 8 (drop i val)).

Definition stakeMetaValue (stakedSince lastActivity stakedAmount : Z) : string :=
  string_of_bytes (Sha256.be_bytes 8 (u64 stakedSince) ++ Sha256.be_bytes 8 (u64 lastActivity) ++ Sha256.be_bytes 8 stakedAmount).

(** Values of sixteen bytes come from an older version and have no amount. *)
Definition parseStakeMetaValue (val : string) : Z * Z * Z :=
  let bs := bytes_of_string val in
  if decide (length bs < 16)%nat then (0, 0, 0)
  else (i64 (be_at 0 bs), i64 (be_at 8 bs), if decide (24 <= length bs)%nat then be_at 16 bs else 0).

Definition st_PutStakeMeta (agentID : AgentID) (stakedSince lastActivity stakedAmount : Z) : D → D * bool :=
  kv_put prefixStakeMeta agentID (stakeMetaValue stakedSince lastActivity stakedAmount).
Definition st_GetStakeMeta (agentID : AgentID) (d : D) : option (Z * Z * Z) :=
  (λ val, match val with None => (0, 0, 0) | Some val => parseStakeMetaValue val end) <$> kv_read prefixStakeMeta agentID d.
Definition st_AllStakeMeta (d : D) : option (gmap AgentID (Z * Z * Z)) :=
  (λ m : gmap string string, (λ val, let '(since, activity, amount) := parseStakeMetaValue val in (since, activity, i64 amount)) <$> m) <$> kv_all prefixStakeMeta d.

(** * Blobs *)

Definition st_PutMeta (key value : string) : D → D * bool := kv_put prefixMeta key value.
(** A key that is absent reads as nothing, without an error. *)
Definition st_GetMeta (key : string) : D → option (option string) := kv_read prefixMeta key.
(** The keys that begin with [prefix], whole. *)
Definition st_AllMeta (prefix : string) (d : D) : option (gmap string string) :=
  (λ l : list (string * string), list_to_map (M := gmap string string) ((λ kd : string * string, (after_prefix prefixMeta kd.1, kd.2)) <$> l)) <$> bg_scan (prefixMeta +:+ prefix) d.

Definition st_PutAPIKey : string → string → D → D * bool := kv_put prefixAPIKey.
Definition st_GetAPIKey : string → D → option (option string) := kv_read prefixAPIKey.
Definition st_AllAPIKeys : D → option (gmap string string) := kv_all prefixAPIKey.

Definition st_PutTask : string → string → D → D * bool := kv_put prefixTask.
Definition st_GetTask : string → D → option string := kv_get prefixTask.
Definition st_DeleteTask : string → D → D * bool := kv_delete prefixTask.
Definition st_AllTasks : D → option (gmap string string) := kv_all prefixTask.

Definition st_PutReputation : string → string → D → D * bool := kv_put prefixReputation.
Definition st_GetReputation : string → D → option string := kv_get prefixReputation.
Definition st_AllReputations : D → option (gmap string string) := kv_all prefixReputation.

Definition st_PutListing : string → string → D → D * bool := kv_put prefixRegistry.
Definition st_GetListing : string → D → option string := kv_get prefixRegistry.
Definition st_AllListings : D → option (gmap string string) := kv_all prefixRegistry.

Definition st_PutReplayJob : string → string → D → D * bool := kv_put prefixReplayJob.
Definition st_GetReplayJob : string → D → option string := kv_get prefixReplayJob.
Definition st_AllReplayJobs : D → option (gmap string string) := kv_all prefixReplayJob.

Definition st_PutReplayOutcome : string → string → D → D * bool := kv_put prefixReplayOutcome.
Definition st_GetReplayOutcome : string → D → option string := kv_get prefixReplayOutcome.
Definition st_AllReplayOutcomes : D → option (gmap string string) := kv_all prefixReplayOutcome.

Definition st_PutValidator : string → string → D → D * bool := kv_put prefixValidator.
Definition st_GetValidator : string → D → option string := kv_get prefixValidator.
Definition st_DeleteValidator : string → D → D * bool := kv_delete prefixValidator.
Definition st_AllValidators : D → option (gmap string string) := kv_all prefixValidator.

Definition st_PutChallenge : string → string → D → D * bool := kv_put prefixChallenge.
Definition st_GetChallenge : string → D → option string := kv_get prefixChallenge.
Definition st_AllChallenges : D → option (gmap string string) := kv_all prefixChallenge.

(** The writes of one transaction. *)
Definition st_RunInTransaction (ops : list KVOp) (d : D) : D * bool := bg_update ops d.

(** * Votes *)

Definition voteKey (eventID voterID : string) : string := prefixVote +:+ eventID +:+ "/" +:+ voterID.

Definition votes_prefix (eventID : string) : string := prefixVote +:+ eventID +:+ "/".

Definition st_PutVote {json : JsonOf PersistedVote} (eventID : EventID) (voterID : AgentID) (verdict : bool) (d : D) : D * bool :=
  match json_marshal (mkPersistedVote eventID voterID verdict) with None => (d, false) | Some data => bg_update [KVSet (voteKey eventID voterID) data] d end.

Definition st_GetVotes {json : JsonOf PersistedVote} (eventID : EventID) (d : D) : option (list PersistedVote) := all_json (votes_prefix eventID) d.

Definition st_DeleteVotes (eventID : EventID) (d : D) : D * bool :=
  match bg_scan (votes_prefix eventID) d with None => (d, false) | Some l => bg_update ((λ kd : string * string, KVDelete kd.1) <$> l) d end.

(** What comes before the first slash, [None] without one. *)
Fixpoint before_slash (s : string) : option string :=
  match s with
  | EmptyString => None
  | String c s => if decide (c = Ascii.ascii_of_nat 47) then Some "" else String c <$> before_slash s
  end.

Definition st_AllVoteEventIDs {ord : RangeOrder} (d : D) : option (list EventID) :=
  (λ l : list (string * string), range_set (list_to_set (omap (λ kd : string * string, before_slash (after_prefix prefixVote kd.1)) l))) <$> bg_scan prefixVote d.

(** * Canary tasks and calibration signals *)

Definition st_PutCanary : string → string → D → D * bool := kv_put prefixCanary.
Definition st_GetCanary : string → D → option string := kv_get prefixCanary.
Definition st_PutCanaryTaskIndex (taskID canaryID : string) : D → D * bool := kv_put prefixCanaryTaskIndex taskID canaryID.
Definition st_GetCanaryByTaskID (taskID : string) (d : D) : option string := canaryID ← kv_get prefixCanaryTaskIndex taskID d; st_GetCanary canaryID d.
Definition st_AllCanaries : D → option (gmap string string) := kv_all prefixCanary.

Definition st_PutCalibrationSignal : string → string → D → D * bool := kv_put prefixCalibration.
Definition st_GetCalibrationSignal : string → D → option string := kv_get prefixCalibration.
Definition st_AllCalibrationSignals : D → option (gmap string string) := kv_all prefixCalibration.

(** [actor_id] reads that member of a blob, [None] for one that is not JSON. *)
Definition st_CalibrationSignalsByActor (actor_id : string → option string) (actorID : string) (d : D) : option (list string) :=
  (λ l : list (string * string), filter (λ data, actor_id data = Some actorID) l.*2) <$> bg_scan prefixCalibration d.

(** * Replay reserves *)

Definition st_PutReplayReserve (category : string) (balance : Z) : D → D * bool := kv_put prefixReplayReserve category (PutUint64 balance).
Definition st_GetReplayReserve (category : string) (d : D) : option Z :=
  (λ val, match val with None => 0 | Some val => default 0 (Uint64 val) end) <$> kv_read prefixReplayReserve category d.

(** * Admission records: the key is used as it is *)

Definition st_PutAdmission {json : JsonOf AdmissionRecord} (key : string) (record : AdmissionRecord) (d : D) : D * bool :=
  match json_marshal record with None => (d, false) | Some data => bg_update [KVSet key data] d end.
Definition st_GetAdmission {json : JsonOf AdmissionRecord} (key : string) (d : D) : AdmissionGet :=
  match bg_read key d with
  | None => AdmGetError
  | Some None => AdmNotFound
  | Some (Some data) => match json_unmarshal data with None => AdmGetError | Some rec => AdmFound rec end
  end.
Definition st_AllAdmissions {json : JsonOf AdmissionRecord} (d : D) : option (list AdmissionRecord) :=
  l ← bg_scan prefixDispatch d; mapM (λ kd : string * string, json_unmarshal kd.2) l.
Definition st_DeleteAdmission (key : string) : D → D * bool := bg_update [KVDelete key].
End raw.

(** * Tables *)

Lemma strip_prefix_spec p : ∀ k r, strip_prefix p k = Some r ↔ k = p +:+ r.
Proof.
  induction p as [|a p IH]; intros k r; cbn; [split; [by intros [= ->]|by intros ->]|]. destruct k as [|b k]; [done|]. case_decide as E.
  - subst b. rewrite IH. split; [by intros ->|intros E; by injection E].
  - split; [done|]. intros E'. by injection E'.
Qed.

Lemma prefix_strip p : ∀ k, String.prefix p k = true ↔ is_Some (strip_prefix p k).
Proof.
  induction p as [|a p IH]; intros k; cbn; [split; [by eexists|by destruct k]|]. destruct k as [|b k]; [split; [done|by intros []]|].
  change (String.prefix (String a p) (String b k)) with (if Ascii.ascii_dec a b then String.prefix p k else false). destruct (Ascii.ascii_dec a b) as [->|Hne]; [rewrite decide_True by done; apply IH|]. rewrite decide_False by done. split; [done|by intros []].
Qed.

Lemma after_prefix_app p r : after_prefix p (p +:+ r) = r.
Proof. unfold after_prefix. by rewrite (proj2 (strip_prefix_spec p (p +:+ r) r)). Qed.

(** The part of a database under a prefix. *)
Definition kv_table (p : string) (m : gmap string string) : gmap string string :=
  list_to_map (omap (λ kd : string * string, (λ id, (id, kd.2)) <$> strip_prefix p kd.1) (map_to_list m)).

Definition stripped (p : string) (m : gmap string string) : list (string * string) := omap (λ kd : string * string, (λ id, (id, kd.2)) <$> strip_prefix p kd.1) (map_to_list m).

Lemma elem_of_stripped p m id data : (id, data) ∈ stripped p m ↔ m !! (p +:+ id) = Some data.
Proof.
  unfold stripped. rewrite list_elem_of_omap. split.
  - intros ([k v] & Hkv & E). cbn in E. destruct (strip_prefix p k) as [r|] eqn:Hs; [|done]. cbn in E. injection E as <- <-. apply strip_prefix_spec in Hs as ->. by apply elem_of_map_to_list.
  - intros H. exists (p +:+ id, data). split; [by apply elem_of_map_to_list|]. cbn. by rewrite (proj2 (strip_prefix_spec p (p +:+ id) id)).
Qed.

Lemma stripped_NoDup p m : NoDup (stripped p m).*1.
Proof.
  unfold stripped. pose proof (NoDup_fst_map_to_list m) as Hnd. induction (map_to_list m) as [|[k v] l IH]; [constructor|]. cbn in Hnd |- *. apply NoDup_cons in Hnd as [Hk Hnd].
  destruct (strip_prefix p k) as [r|] eqn:Hs; cbn; [|by apply IH]. apply NoDup_cons. split; [|by apply IH]. intros ([id data] & Hid & Hin)%list_elem_of_fmap. cbn in Hid. subst id.
  apply list_elem_of_omap in Hin as ([k' v'] & Hkv & E). cbn in E. destruct (strip_prefix p k') as [r'|] eqn:Hs'; [|done]. cbn in E. injection E as -> ->.
  apply strip_prefix_spec in Hs, Hs'. apply Hk. rewrite Hs, <- Hs'. apply list_elem_of_fmap. by exists (k', data).
Qed.

Lemma kv_table_lookup p m id : kv_table p m !! id = m !! (p +:+ id).
Proof.
  change (kv_table p m) with (list_to_map (M := gmap string string) (stripped p m)). apply option_eq. intros data. rewrite <- elem_of_list_to_map by apply stripped_NoDup. apply elem_of_stripped.
Qed.

(** Neither of two prefixes begins the other. *)
Definition apart (p q : string) : bool := bool_decide (strip_prefix p q = None) && bool_decide (strip_prefix q p = None).

Lemma app_cases p : ∀ q a b, p +:+ a = q +:+ b → (∃ r, q = p +:+ r) ∨ ∃ r, p = q +:+ r.
Proof.
  induction p as [|c p IH]; intros q a b E; [left; by exists q|]. destruct q as [|d q]; [right; by exists (String c p)|]. cbn in E. injection E as -> E.
  destruct (IH _ _ _ E) as [[r ->]|[r ->]]; [left|right]; by exists r.
Qed.

Lemma apart_ne p q a b : apart p q = true → p +:+ a ≠ q +:+ b.
Proof.
  unfold apart. rewrite andb_true_iff, !bool_decide_eq_true. intros [H1 H2] [[r Hr]|[r Hr]]%app_cases.
  - by rewrite (proj2 (strip_prefix_spec p q r) Hr) in H1.
  - by rewrite (proj2 (strip_prefix_spec q p r) Hr) in H2.
Qed.

Lemma apart_sym p q : apart p q = apart q p.
Proof. unfold apart. apply andb_comm. Qed.

Lemma table_insert p m id data : kv_table p (<[p +:+ id := data]> m) = <[id := data]> (kv_table p m).
Proof.
  apply map_eq. intros j. rewrite kv_table_lookup. destruct (decide (j = id)) as [->|Hne]; [by rewrite !lookup_insert_eq|]. rewrite !lookup_insert_ne; [by rewrite kv_table_lookup|done|]. intros E. by apply (inj (String.append p)) in E.
Qed.

Lemma table_delete p m id : kv_table p (delete (p +:+ id) m) = delete id (kv_table p m).
Proof.
  apply map_eq. intros j. rewrite kv_table_lookup. destruct (decide (j = id)) as [->|Hne]; [by rewrite !lookup_delete_eq|]. rewrite !lookup_delete_ne; [by rewrite kv_table_lookup|done|]. intros E. by apply (inj (String.append p)) in E.
Qed.

Lemma table_insert_apart p q m id data : apart p q = true → kv_table p (<[q +:+ id := data]> m) = kv_table p m.
Proof. intros Ha. apply map_eq. intros j. rewrite !kv_table_lookup. rewrite lookup_insert_ne; [done|]. intros E. by apply (apart_ne p q j id). Qed.

Lemma table_delete_apart p q m id : apart p q = true → kv_table p (delete (q +:+ id) m) = kv_table p m.
Proof. intros Ha. apply map_eq. intros j. rewrite !kv_table_lookup. rewrite lookup_delete_ne; [done|]. intros E. by apply (apart_ne p q j id). Qed.

Section table_facts.
Context {D : Type} {bg : Badger D} {laws : BadgerLaws D}.
Implicit Types d : D.

Lemma scan_stripped p d l : bg_scan p d = Some l → ((λ kd : string * string, (after_prefix p kd.1, kd.2)) <$> l) ≡ₚ stripped p (bg_view d).
Proof.
  intros Hl%bg_scan_view. rewrite Hl. clear Hl l. apply NoDup_Permutation.
  - apply (NoDup_fmap_1 fst). rewrite <- list_fmap_compose. cbn.
    pose proof (NoDup_fst_map_to_list (filter (λ kv : string * string, String.prefix p kv.1 = true) (bg_view d))) as Hnd. revert Hnd.
    assert (Hp : ∀ k v, (k, v) ∈ map_to_list (filter (λ kv : string * string, String.prefix p kv.1 = true) (bg_view d)) → String.prefix p k = true) by (intros k v [_ H]%elem_of_map_to_list%map_lookup_filter_Some; done).
    revert Hp. generalize (map_to_list (filter (λ kv : string * string, String.prefix p kv.1 = true) (bg_view d))). intros l Hp. induction l as [|[k v] l IH]; intros Hnd; [constructor|].
    cbn in Hnd |- *. apply NoDup_cons in Hnd as [Hk Hnd]. apply NoDup_cons. split; [|apply IH; [intros k' v' Hin; apply (Hp k' v'); by right|done]].
    intros ([k' v'] & E & Hin)%list_elem_of_fmap. cbn in E. apply Hk. apply list_elem_of_fmap. exists (k', v'). split; [|done]. cbn.
    pose proof (Hp k v ltac:(by left)) as [r Hr]%prefix_strip. pose proof (Hp k' v' ltac:(by right)) as [r' Hr']%prefix_strip. apply strip_prefix_spec in Hr, Hr'. subst k k'. unfold compose in E. cbn in E. rewrite !after_prefix_app in E. by subst r'.
  - apply (NoDup_fmap_1 fst). apply stripped_NoDup.
  - intros [id data]. rewrite elem_of_stripped, list_elem_of_fmap. split.
    + intros ([k v] & E & Hin). cbn in E. injection E as -> ->. apply elem_of_map_to_list, map_lookup_filter_Some in Hin as [Hk [r Hr]%prefix_strip]. cbn in Hr. apply strip_prefix_spec in Hr as ->. by rewrite after_prefix_app.
    + intros Hk. exists (p +:+ id, data). cbn. rewrite after_prefix_app. split; [done|]. apply elem_of_map_to_list, map_lookup_filter_Some. split; [done|]. cbn. apply prefix_strip. exists id. by apply strip_prefix_spec.
Qed.

Lemma kv_scan_table p d l : kv_scan p d = Some l → l ≡ₚ map_to_list (kv_table p (bg_view d)) ∧ NoDup l.*1.
Proof.
  unfold kv_scan. destruct (bg_scan p d) as [l0|] eqn:E; [|done]. intros [= <-]. apply scan_stripped in E. split.
  - rewrite E. symmetry. apply map_to_list_to_map. apply stripped_NoDup.
  - rewrite E. apply stripped_NoDup.
Qed.

Lemma kv_all_table p d m : kv_all p d = Some m → m = kv_table p (bg_view d).
Proof.
  unfold kv_all. destruct (kv_scan p d) as [l|] eqn:E; [|done]. intros [= <-]. apply kv_scan_table in E as [Hp Hnd]. rewrite (list_to_map_proper l _ Hnd Hp). apply list_to_map_to_list.
Qed.

Lemma kv_read_table p id d x : kv_read p id d = Some x → x = kv_table p (bg_view d) !! id.
Proof. intros Hr%bg_read_view. by rewrite kv_table_lookup. Qed.

Lemma kv_get_table p id d : is_Some (kv_read p id d) → kv_get p id d = kv_table p (bg_view d) !! id.
Proof. intros [x Hx]. unfold kv_get. rewrite Hx. by apply kv_read_table. Qed.

Lemma kv_get_Some p id d data : kv_get p id d = Some data → kv_table p (bg_view d) !! id = Some data.
Proof. unfold kv_get. destruct (kv_read p id d) as [x|] eqn:Hr; [|done]. cbn. intros ->. symmetry. by apply (kv_read_table p id d). Qed.

Lemma kv_put_table p id data d d' ok : kv_put p id data d = (d', ok) → bg_view d' = if ok then <[p +:+ id := data]> (bg_view d) else bg_view d.
Proof. unfold kv_put. destruct ok; intros E; [by apply bg_update_ok in E|by apply bg_update_fail in E]. Qed.

Lemma kv_delete_table p id d d' ok : kv_delete p id d = (d', ok) → bg_view d' = if ok then delete (p +:+ id) (bg_view d) else bg_view d.
Proof. unfold kv_delete. destruct ok; intros E; [by apply bg_update_ok in E|by apply bg_update_fail in E]. Qed.
End table_facts.

(** * The tables of the node *)

Inductive Table := TEvent | TTransfer | TGeneration | TPending | TIdentity | TStakeMeta | TRegistry | TMeta | TAPIKey | TEscrow | TValidator | TReplayReserve
  | TChallenge | TTask | TReputation | TReplayJob | TReplayOutcome | TVote | TCanary | TCanaryTaskIndex | TCalibration | TDispatch.

#[global] Instance Table_eq_dec : EqDecision Table.
Proof. solve_decision. Defined.

Definition prefix_of (t : Table) : string :=
  match t with
  | TEvent => prefixEvent | TTransfer => prefixTransfer | TGeneration => prefixGeneration | TPending => prefixPending | TIdentity => prefixIdentity
  | TStakeMeta => prefixStakeMeta | TRegistry => prefixRegistry | TMeta => prefixMeta | TAPIKey => prefixAPIKey | TEscrow => prefixEscrow
  | TValidator => prefixValidator | TReplayReserve => prefixReplayReserve | TChallenge => prefixChallenge | TTask => prefixTask | TReputation => prefixReputation
  | TReplayJob => prefixReplayJob | TReplayOutcome => prefixReplayOutcome | TVote => prefixVote | TCanary => prefixCanary
  | TCanaryTaskIndex => prefixCanaryTaskIndex | TCalibration => prefixCalibration | TDispatch => prefixDispatch
  end.

Lemma prefixes_apart t u : t ≠ u → apart (prefix_of t) (prefix_of u) = true.
Proof. by destruct t, u; intros Hne; try congruence; vm_compute. Qed.

Section store.
Context {D : Type} {bg : Badger D}.

(** The methods that write, delete and read one blob, and read all of a table. *)
Definition blob_put (t : Table) : string → string → D → D * bool :=
  match t with
  | TMeta => st_PutMeta | TAPIKey => st_PutAPIKey | TTask => st_PutTask | TReputation => st_PutReputation | TRegistry => st_PutListing
  | TReplayJob => st_PutReplayJob | TReplayOutcome => st_PutReplayOutcome | TValidator => st_PutValidator | TChallenge => st_PutChallenge
  | TCanary => st_PutCanary | TCanaryTaskIndex => st_PutCanaryTaskIndex | TCalibration => st_PutCalibrationSignal
  | t => kv_put (prefix_of t)
  end.

Definition blob_delete (t : Table) : string → D → D * bool :=
  match t with
  | TTransfer => st_DeleteTransfer | TPending => st_DeletePending | TIdentity => st_DeleteIdentity | TEscrow => st_DeleteEscrow | TTask => st_DeleteTask
  | TValidator => st_DeleteValidator | t => kv_delete (prefix_of t)
  end.

Definition blob_get (t : Table) : string → D → option string :=
  match t with
  | TMeta => λ id d, default None (st_GetMeta id d) | TAPIKey => λ id d, default None (st_GetAPIKey id d) | TTask => st_GetTask | TReputation => st_GetReputation | TRegistry => st_GetListing
  | TReplayJob => st_GetReplayJob | TReplayOutcome => st_GetReplayOutcome | TValidator => st_GetValidator | TChallenge => st_GetChallenge
  | TCanary => st_GetCanary | TCalibration => st_GetCalibrationSignal | t => kv_get (prefix_of t)
  end.

Definition blob_all (t : Table) : D → option (gmap string string) :=
  match t with
  | TMeta => st_AllMeta "" | TAPIKey => st_AllAPIKeys | TTask => st_AllTasks | TReputation => st_AllReputations | TRegistry => st_AllListings
  | TReplayJob => st_AllReplayJobs | TReplayOutcome => st_AllReplayOutcomes | TValidator => st_AllValidators | TChallenge => st_AllChallenges
  | TCanary => st_AllCanaries | TCalibration => st_AllCalibrationSignals | t => kv_all (prefix_of t)
  end.

(** The writes of the store's methods, transactions of a caller's own ([RunInTransaction]) apart; the votes of an event are deleted together. *)
Inductive store_write :=
  | WPut (t : Table) (id data : string) | WDelete (t : Table) (id : string) | WDeleteVotes (eventID : EventID).

Definition store_exec (w : store_write) : D → D * bool :=
  match w with WPut t id data => blob_put t id data | WDelete t id => blob_delete t id | WDeleteVotes e => st_DeleteVotes e end.

(** The specification: a map per table. *)
Definition Tables : Type := Table → gmap string string.

Definition upd (t : Table) (f : gmap string string → gmap string string) (T : Tables) : Tables := λ u, if decide (u = t) then f (T u) else T u.

Definition spec_write (w : store_write) : Tables → Tables :=
  match w with
  | WPut t id data => upd t <[id := data]>
  | WDelete t id => upd t (delete id)
  | WDeleteVotes e => upd TVote (filter (λ kd : string * string, strip_prefix (e +:+ "/") kd.1 = None))
  end.

(** A write that fails does nothing. *)
Fixpoint store_run (ws : list store_write) (d : D) (T : Tables) : D * Tables :=
  match ws with
  | [] => (d, T)
  | w :: ws => let '(d, ok) := store_exec w d in store_run ws d (if ok : bool then spec_write w T else T)
  end.

Context {laws : BadgerLaws D}.

Definition represents (T : Tables) (d : D) : Prop := ∀ t, T t = kv_table (prefix_of t) (bg_view d).

Lemma blob_put_kv t : blob_put t = kv_put (prefix_of t).
Proof. by destruct t. Qed.

Lemma blob_delete_kv t : blob_delete t = kv_delete (prefix_of t).
Proof. by destruct t. Qed.

Lemma blob_get_kv t : blob_get t = kv_get (prefix_of t).
Proof. by destruct t. Qed.

Lemma st_AllMeta_all d : st_AllMeta "" d = kv_all prefixMeta d.
Proof. unfold st_AllMeta, kv_all, kv_scan. change (prefixMeta +:+ "") with prefixMeta. by destruct (bg_scan prefixMeta d). Qed.

Lemma blob_all_kv t d : blob_all t d = kv_all (prefix_of t) d.
Proof. destruct t; try done. apply st_AllMeta_all. Qed.

Lemma deletes_view (l : list (string * string)) : ∀ m : gmap string string, foldl apply_op m ((λ kd : string * string, KVDelete kd.1) <$> l) = foldl (λ m k, delete k m) m l.*1.
Proof. induction l as [|[k v] l IH]; intros m; [done|]. cbn. apply IH. Qed.

Lemma deletes_lookup (ks : list string) : ∀ (m : gmap string string) j, foldl (λ m k, delete k m) m ks !! j = if decide (j ∈ ks) then None else m !! j.
Proof.
  induction ks as [|k ks IH]; intros m j; [by rewrite decide_False by apply not_elem_of_nil|]. cbn [foldl]. rewrite IH. destruct (decide (j ∈ ks)) as [Hj|Hj]; [by rewrite decide_True by (by right)|].
  destruct (decide (j = k)) as [->|Hne]; [rewrite decide_True by (by left); apply lookup_delete_eq|]. rewrite decide_False by (intros [?|?]%elem_of_cons; done). by apply lookup_delete_ne.
Qed.

Lemma scan_keys p d l k : bg_scan p d = Some l → k ∈ l.*1 ↔ is_Some (strip_prefix p k) ∧ is_Some (bg_view d !! k).
Proof.
  intros Hl%bg_scan_view. rewrite Hl, list_elem_of_fmap. split.
  - intros ([k' v] & -> & [Hk Hp]%elem_of_map_to_list%map_lookup_filter_Some). cbn in *. split; [by apply prefix_strip|by exists v].
  - intros [Hp [v Hk]]. exists (k, v). split; [done|]. apply elem_of_map_to_list, map_lookup_filter_Some. split; [done|]. cbn. by apply prefix_strip.
Qed.

Lemma strip_app p q k : strip_prefix (p +:+ q) (p +:+ k) = strip_prefix q k.
Proof.
  induction p as [|a p IH]; [done|]. change (String a p +:+ q) with (String a (p +:+ q)). change (String a p +:+ k) with (String a (p +:+ k)). cbn. by rewrite decide_True.
Qed.

Lemma store_exec_ok w d d' ok T : represents T d → store_exec w d = (d', ok) → represents (if ok then spec_write w T else T) d'.
Proof.
  intros HT E. destruct w as [t id data|t id|e]; cbn [store_exec] in E.
  - rewrite blob_put_kv in E. apply kv_put_table in E. destruct ok; intros u; rewrite E; [|done]. cbn. unfold upd. case_decide as Hu; [subst u; by rewrite table_insert, HT|]. rewrite table_insert_apart by (by apply prefixes_apart). done.
  - rewrite blob_delete_kv in E. apply kv_delete_table in E. destruct ok; intros u; rewrite E; [|done]. cbn. unfold upd. case_decide as Hu; [subst u; by rewrite table_delete, HT|]. rewrite table_delete_apart by (by apply prefixes_apart). done.
  - unfold st_DeleteVotes in E. destruct (bg_scan (votes_prefix e) d) as [l|] eqn:Hs; [|injection E as <- <-; done].
    destruct ok; [|apply bg_update_fail in E; intros u; by rewrite E]. apply bg_update_ok in E. rewrite deletes_view in E.
    assert (Hkeys : ∀ k, k ∈ l.*1 ↔ is_Some (strip_prefix (votes_prefix e) k) ∧ is_Some (bg_view d !! k)) by (intros k; by apply scan_keys).
    intros u. rewrite E. apply map_eq. intros j. rewrite kv_table_lookup, deletes_lookup. cbn. unfold upd. case_decide as Hu.
    + subst u. rewrite HT. unfold votes_prefix in Hkeys. specialize (Hkeys (prefixVote +:+ j)). rewrite strip_app in Hkeys. rewrite map_lookup_filter, kv_table_lookup. change (prefix_of TVote) with prefixVote.
      destruct (bg_view d !! (prefixVote +:+ j)) as [data|] eqn:Ej; cbn; [|by case_decide].
      destruct (strip_prefix (e +:+ "/") j) as [r|] eqn:Er; [rewrite (decide_True (P := _ ∈ _)) by (apply Hkeys; eauto); by rewrite option_guard_False by (cbn; congruence)|].
      rewrite decide_False by (intros [[? ?] _]%Hkeys; done). by rewrite option_guard_True.
    + rewrite decide_False; [by rewrite HT, kv_table_lookup|]. intros [[r Hr] _]%Hkeys. apply strip_prefix_spec in Hr. unfold votes_prefix in Hr. rewrite !string_app_assoc in Hr.
      by apply (apart_ne (prefix_of u) prefixVote j (e +:+ "/" +:+ r) (prefixes_apart u TVote Hu)) in Hr.
Qed.

Lemma store_run_ok ws : ∀ d T, represents T d → represents (store_run ws d T).2 (store_run ws d T).1.
Proof.
  induction ws as [|w ws IH]; intros d T HT; [done|]. cbn [store_run]. destruct (store_exec w d) as [d' ok] eqn:E. apply IH. by apply (store_exec_ok w d d' ok T).
Qed.
End store.

(** * Votes of an event *)

Section votes.
Context {D : Type} {bg : Badger D} {laws : BadgerLaws D} {json : JsonOf PersistedVote} {json_ok : JsonOfOk PersistedVote} {ord : RangeOrder}.
Implicit Types d : D.

(** An event ID without a slash, as IDs are: they are hexadecimal. *)
Definition no_slash (e : string) : Prop := before_slash e = None.

Lemma before_slash_app e r : no_slash e → before_slash (e +:+ "/" +:+ r) = Some e.
Proof.
  unfold no_slash. induction e as [|c e IH]; intros He; [done|]. change (String c e +:+ "/" +:+ r) with (String c (e +:+ "/" +:+ r)). cbn in He |- *.
  case_decide; [done|]. destruct (before_slash e); [done|]. by rewrite IH.
Qed.

Lemma before_slash_spec s : ∀ e, before_slash s = Some e → ∃ r, s = e +:+ "/" +:+ r.
Proof.
  induction s as [|c s IH]; intros e He; [done|]. cbn in He. case_decide as Hc; [injection He as <-; subst c; by exists s|].
  destruct (before_slash s) as [e'|]; [|done]. cbn in He. injection He as <-. destruct (IH e' eq_refl) as [r ->]. by exists r.
Qed.

Lemma vote_id_inj e e' v v' : no_slash e → no_slash e' → e +:+ "/" +:+ v = e' +:+ "/" +:+ v' → e = e' ∧ v = v'.
Proof.
  intros He He' E. pose proof (before_slash_app e v He) as H. rewrite E, before_slash_app in H by done. injection H as <-. split; [done|].
  apply (inj (String.append e')) in E. by injection E.
Qed.

Lemma strip_vote e e' v : no_slash e → no_slash e' → strip_prefix (e +:+ "/") (e' +:+ "/" +:+ v) = if decide (e = e') then Some v else None.
Proof.
  intros He He'. case_decide as E.
  - subst e'. apply strip_prefix_spec. by rewrite string_app_assoc.
  - destruct (strip_prefix _ _) as [r|] eqn:Hs; [|done]. apply strip_prefix_spec in Hs. rewrite string_app_assoc in Hs. apply vote_id_inj in Hs as [-> _]; done.
Qed.

(** The votes of the store, by event and voter. *)
Definition votes_ok (M : gmap (EventID * AgentID) bool) d : Prop :=
  (∀ e v b, M !! (e, v) = Some b → no_slash e ∧ json_safe (mkPersistedVote e v b) ∧ is_Some (json_marshal (mkPersistedVote e v b))) ∧
  ∀ id data, kv_table prefixVote (bg_view d) !! id = Some data ↔ ∃ e v b, id = e +:+ "/" +:+ v ∧ M !! (e, v) = Some b ∧ json_marshal (mkPersistedVote e v b) = Some data.

Inductive vote_op := VPut (e : EventID) (v : AgentID) (b : bool) | VDelete (e : EventID).

Definition vote_exec (op : vote_op) d : D * bool := match op with VPut e v b => st_PutVote e v b d | VDelete e => st_DeleteVotes e d end.

Definition vote_spec (op : vote_op) (M : gmap (EventID * AgentID) bool) : gmap (EventID * AgentID) bool :=
  match op with VPut e v b => <[(e, v) := b]> M | VDelete e => filter (λ kv : EventID * AgentID * bool, kv.1.1 ≠ e) M end.

Definition op_event (op : vote_op) : EventID := match op with VPut e _ _ | VDelete e => e end.

(** The event's ID has no slash, and the IDs of a vote are UTF-8. *)
Definition vote_op_ok (op : vote_op) : Prop := no_slash (op_event op) ∧ match op with VPut e v b => json_safe (mkPersistedVote e v b) | VDelete _ => True end.

Fixpoint vote_run (ops : list vote_op) d (M : gmap (EventID * AgentID) bool) : D * gmap (EventID * AgentID) bool :=
  match ops with [] => (d, M) | op :: ops => let '(d, ok) := vote_exec op d in vote_run ops d (if ok : bool then vote_spec op M else M) end.

Lemma vote_exec_ok op d d' ok M : vote_op_ok op → votes_ok M d → vote_exec op d = (d', ok) → votes_ok (if ok then vote_spec op M else M) d'.
Proof.
  intros [Hns Hsafe] [HM Ht] E. destruct op as [e v b|e]; cbn [vote_exec op_event] in *.
  - unfold st_PutVote in E. destruct (json_marshal _) as [data|] eqn:Hj; [|injection E as <- <-; done]. change (voteKey e v) with (prefixVote +:+ (e +:+ "/" +:+ v)) in E.
    apply kv_put_table in E. destruct ok; [|by split; [|intros id x; rewrite E]]. cbn [vote_spec]. split.
    + intros e' v' b' [[[= <- <-] <-]|[_ H]]%lookup_insert_Some; [by rewrite Hj|by apply HM].
    + intros id x. rewrite E, table_insert. destruct (decide (id = e +:+ "/" +:+ v)) as [->|Hne].
      * rewrite lookup_insert_eq. split; [intros [= <-]; exists e, v, b; split_and!; [done|apply lookup_insert_eq|done]|].
        intros (e' & v' & b' & Hid & H & Hx). assert (Hns' : no_slash e') by (apply lookup_insert_Some in H as [[[= <- <-] _]|[_ H]]; [done|by apply HM in H as [? _]]).
        apply vote_id_inj in Hid as [<- <-]; [|done|done]. rewrite lookup_insert_eq in H. injection H as <-. congruence.
      * rewrite lookup_insert_ne by done. rewrite Ht. split; intros (e' & v' & b' & Hid & H & Hx); exists e', v', b'; split_and!; try done.
        { rewrite lookup_insert_ne; [done|]. intros [= <- <-]. done. }
        { rewrite lookup_insert_ne in H; [done|]. intros [= <- <-]. done. }
  - assert (Hrep : represents (λ t, kv_table (prefix_of t) (bg_view d)) d) by done. pose proof (store_exec_ok (WDeleteVotes e) d d' ok _ Hrep E TVote) as Hv. change (prefix_of TVote) with prefixVote in Hv.
    destruct ok; [|by split; [|intros id x; rewrite <- Hv]]. cbn [spec_write] in Hv. unfold upd in Hv. rewrite decide_True in Hv by done. cbn [vote_spec]. split.
    + intros e' v' b' [H _]%map_lookup_filter_Some. by apply HM.
    + intros id x. rewrite <- Hv, map_lookup_filter_Some. change (prefix_of TVote) with prefixVote. rewrite Ht. cbn. split.
      * intros [(e' & v' & b' & -> & H & Hx) Hs]. exists e', v', b'. split_and!; [done| |done]. apply map_lookup_filter_Some. split; [done|]. cbn. intros ->. rewrite strip_vote, decide_True in Hs by done. done.
      * intros (e' & v' & b' & -> & [H Hne]%map_lookup_filter_Some & Hx). cbn in Hne. split; [by exists e', v', b'|]. rewrite strip_vote; [by rewrite decide_False|done|by apply HM in H as [? _]].
Qed.

Lemma vote_run_ok ops : ∀ d M, Forall vote_op_ok ops → votes_ok M d → votes_ok (vote_run ops d M).2 (vote_run ops d M).1.
Proof.
  induction ops as [|op ops IH]; intros d M Hns HM; [done|]. apply Forall_cons in Hns as [Hop Hns]. cbn [vote_run]. destruct (vote_exec op d) as [d' ok] eqn:E. apply IH; [done|]. by apply (vote_exec_ok op d d').
Qed.

Lemma mapM_elem {A B} (f : A → option B) l : ∀ k, mapM f l = Some k → ∀ y, y ∈ k ↔ ∃ x, x ∈ l ∧ f x = Some y.
Proof.
  intros k Hk%mapM_Some. induction Hk as [|x y l k Hxy Hk IH]; intros z; [split; [by intros ?%not_elem_of_nil|by intros (x & ?%not_elem_of_nil & _)]|].
  rewrite elem_of_cons, IH. setoid_rewrite elem_of_cons. split; [intros [->|(x' & Hx & Hf)]; eauto|]. intros (x' & [->|Hx] & Hf); [left; congruence|eauto].
Qed.

(** The entries of a scan of the votes of an event. *)
Lemma votes_scan e d l : kv_scan (votes_prefix e) d = Some l → ∀ v data, (v, data) ∈ l ↔ kv_table prefixVote (bg_view d) !! (e +:+ "/" +:+ v) = Some data.
Proof.
  intros [Hl _]%kv_scan_table v data. rewrite Hl, elem_of_map_to_list, !kv_table_lookup. unfold votes_prefix. by rewrite !string_app_assoc.
Qed.

Lemma st_GetVotes_spec M e d l : votes_ok M d → no_slash e → st_GetVotes e d = Some l →
  NoDup l ∧ ∀ pv, pv ∈ l ↔ pv_EventID pv = e ∧ M !! (e, pv_VoterID pv) = Some (pv_Verdict pv).
Proof.
  intros [HM Ht] He E. unfold st_GetVotes, all_json in E. destruct (kv_scan _ d) as [l0|] eqn:Hs; [|done]. cbn in E. pose proof (votes_scan e d l0 Hs) as Hin. apply kv_scan_table in Hs as [_ Hnd].
  assert (Hent : ∀ v data, (v, data) ∈ l0 ↔ ∃ b, M !! (e, v) = Some b ∧ json_marshal (mkPersistedVote e v b) = Some data).
  { intros v data. rewrite Hin, Ht. split; [|intros (b & H1 & H2); by exists e, v, b].
    intros (e' & v' & b & Hid & H1 & H2). apply vote_id_inj in Hid as [<- <-]; [by exists b|done|by apply HM in H1 as [? _]]. }
  split.
  - apply (NoDup_fmap_1 pv_VoterID). assert (Hvoters : pv_VoterID <$> l = l0.*1); [|by rewrite Hvoters]. apply mapM_Some in E. clear Hin Hnd.
    assert (Hall : ∀ v data, (v, data) ∈ l0 → ∃ b, json_unmarshal data = Some (mkPersistedVote e v b)) by (intros v data (b & HMb & Hj)%Hent; exists b; apply json_roundtrip; [by apply HM in HMb as (_ & ? & _)|done]).
    clear Hent. induction E as [|[v data] pv l0 l Hpv HF IH]; [done|]. cbn. f_equal; [|apply IH; intros v' data' Hin; apply Hall; by right].
    destruct (Hall v data ltac:(by left)) as [b Hb]. cbn in Hpv. rewrite Hb in Hpv. by injection Hpv as <-.
  - intros pv. rewrite (mapM_elem _ _ _ E). split.
    + intros ([v data] & (b & HMb & Hj)%Hent & Hu). cbn in Hu. apply json_roundtrip in Hj; [|by apply HM in HMb as (_ & ? & _)]. rewrite Hu in Hj. by injection Hj as ->.
    + intros [<- HMb]. destruct (HM _ _ _ HMb) as (_ & Hsafe & [data Hj]). assert (Epv : mkPersistedVote (pv_EventID pv) (pv_VoterID pv) (pv_Verdict pv) = pv) by (by destruct pv). rewrite Epv in Hj, Hsafe.
      exists (pv_VoterID pv, data). split; [|by apply json_roundtrip]. apply Hent. exists (pv_Verdict pv). by rewrite Epv.
Qed.

Lemma st_AllVoteEventIDs_spec M d ids : votes_ok M d → st_AllVoteEventIDs d = Some ids → ∀ e, e ∈ ids ↔ ∃ v, is_Some (M !! (e, v)).
Proof.
  intros [HM Ht] E e. unfold st_AllVoteEventIDs in E. destruct (bg_scan prefixVote d) as [l|] eqn:Hs; [|done]. apply (inj Some) in E. subst ids. apply scan_stripped in Hs.
  rewrite elem_of_range_set, elem_of_list_to_set, list_elem_of_omap.
  assert (Hin : ∀ id, (∃ kd, kd ∈ l ∧ after_prefix prefixVote kd.1 = id) ↔ is_Some (kv_table prefixVote (bg_view d) !! id)).
  { intros id. rewrite kv_table_lookup. split.
    - intros (kd & Hkd & <-). exists kd.2. rewrite <- elem_of_stripped, <- Hs. apply list_elem_of_fmap. by exists kd.
    - intros [data Hd]. rewrite <- elem_of_stripped, <- Hs in Hd. apply list_elem_of_fmap in Hd as (kd & E & Hkd). injection E as -> _. by exists kd. }
  split.
  - intros (kd & Hkd & Hb). destruct (proj1 (Hin (after_prefix prefixVote kd.1)) (ex_intro _ kd (conj Hkd eq_refl))) as [data Hd]. apply Ht in Hd as (e' & v & b & Hid & HMb & _).
    cbv beta in Hb. rewrite Hid, before_slash_app in Hb by (by apply HM in HMb as [? _]). injection Hb as <-. eauto.
  - intros (v & [b HMb]). destruct (HM _ _ _ HMb) as (Hns & _ & [data Hj]). destruct (proj2 (Hin (e +:+ "/" +:+ v))) as (kd & Hkd & Hid); [exists data; apply Ht; by exists e, v, b|].
    exists kd. split; [done|]. by rewrite Hid, before_slash_app.
Qed.
End votes.

(** * The typed tables implement [Persistence] *)

Lemma values_omap {A B} (f : A → option B) (m : gmap string A) : (map_to_list (omap f m)).*2 ≡ₚ omap f (map_to_list m).*2.
Proof.
  induction m as [|k x m Hk IH] using map_ind; [by rewrite omap_empty, !map_to_list_empty|]. rewrite map_to_list_insert by done. cbn [fmap list_fmap omap list_omap snd].
  destruct (f x) as [y|] eqn:Hf.
  - rewrite (omap_insert_Some f m k x y Hf). rewrite map_to_list_insert by (by rewrite lookup_omap, Hk). cbn. by rewrite IH.
  - rewrite (omap_insert_None f m k x Hf). rewrite delete_id by (by rewrite lookup_omap, Hk). done.
Qed.

Lemma mapM_omap {A B} (f : A → option B) l k : mapM f l = Some k → k = omap f l.
Proof. intros Hk%mapM_Some. induction Hk as [|x y l k Hxy _ ->]; [done|]. cbn. by rewrite Hxy. Qed.

Section typed_instance.
Context {D : Type} {bg : Badger D} {laws : BadgerLaws D} {V : Type} {json : JsonOf V} {json_ok : JsonOfOk V} {safe : JsonSafe V} (key : V → string) (p : string).

(** Every blob of the table is the record of its key. *)
Definition records_ok (d : D) : Prop := ∀ id data, kv_table p (bg_view d) !! id = Some data → ∃ v, json_unmarshal data = Some v ∧ key v = id.

Record TypedDB := mkTyped { ty_db : D; ty_ok : records_ok ty_db }.

Lemma put_json_view v d d' ok : put_json p (key v) v d = (d', ok) →
  if ok then ∃ data, json_marshal v = Some data ∧ bg_view d' = <[p +:+ key v := data]> (bg_view d) else bg_view d' = bg_view d.
Proof.
  unfold put_json. destruct (json_marshal v) as [data|]; [|by intros [= <- <-]]. intros E%kv_put_table. destruct ok; [by exists data|done].
Qed.

Lemma put_records_ok v d : records_ok d → records_ok (put_json p (key v) v d).1.
Proof.
  intros Hd. destruct (put_json p (key v) v d) as [d' ok] eqn:E. apply put_json_view in E. cbn. intros id data. destruct ok; [|rewrite E; apply Hd].
  destruct E as (x & Hx & ->). rewrite table_insert. intros [[<- <-]|[_ H]]%lookup_insert_Some; [|by apply Hd]. exists v. split; [apply json_roundtrip; [apply json_all_safe|done]|done].
Qed.

Lemma delete_records_ok id d : records_ok d → records_ok (kv_delete p id d).1.
Proof.
  intros Hd. destruct (kv_delete p id d) as [d' ok] eqn:E. apply kv_delete_table in E. cbn. intros j data. rewrite E. destruct ok; [|apply Hd].
  rewrite table_delete. intros [_ H]%lookup_delete_Some. by apply Hd.
Qed.

#[global] Instance typed_persistence : Persistence TypedDB V := {|
  store_put v s := (mkTyped _ (put_records_ok v _ (ty_ok s)), (put_json p (key v) v (ty_db s)).2);
  store_delete id s := (mkTyped _ (delete_records_ok id _ (ty_ok s)), (kv_delete p id (ty_db s)).2);
  store_get id s := get_json p id (ty_db s);
  store_all s := all_json p (ty_db s);
|}.

Definition typed_view (s : TypedDB) : gmap string V := omap json_unmarshal (kv_table p (bg_view (ty_db s))).

#[global] Program Instance typed_laws : PersistenceLaws TypedDB V key := {| store_view := typed_view |}.
Next Obligation.
  intros v s s' E. apply pair_equal_spec in E as [<- Hok]. pose proof (put_json_view v (ty_db s) _ _ (surjective_pairing _)) as Ep. rewrite Hok in Ep. unfold typed_view. cbn [ty_db].
  destruct Ep as (data & Hj & Ev). rewrite Ev, table_insert. apply omap_insert_Some. apply json_roundtrip; [apply json_all_safe|done].
Qed.
Next Obligation.
  intros v s s' E. apply pair_equal_spec in E as [<- Hok]. pose proof (put_json_view v (ty_db s) _ _ (surjective_pairing _)) as Ep. rewrite Hok in Ep. unfold typed_view. cbn [ty_db].
  by rewrite Ep.
Qed.
Next Obligation.
  intros id s s' E. apply pair_equal_spec in E as [<- Hok]. pose proof (kv_delete_table p id (ty_db s) _ _ (surjective_pairing _)) as Ep. rewrite Hok in Ep. unfold typed_view. cbn [ty_db].
  rewrite Ep, table_delete. apply omap_delete.
Qed.
Next Obligation.
  intros id s s' E. apply pair_equal_spec in E as [<- Hok]. pose proof (kv_delete_table p id (ty_db s) _ _ (surjective_pairing _)) as Ep. rewrite Hok in Ep. unfold typed_view. cbn [ty_db].
  by rewrite Ep.
Qed.
Next Obligation. intros id s v E. cbn in E. unfold get_json in E. destruct (kv_get p id (ty_db s)) as [data|] eqn:Hg; [|done]. apply kv_get_Some in Hg. unfold typed_view. by rewrite lookup_omap, Hg. Qed.
Next Obligation.
  intros s l E. cbn in E. unfold all_json in E. destruct (kv_scan p (ty_db s)) as [l0|] eqn:Hs; [|done]. cbn in E. apply kv_scan_table in Hs as [Hp _]. unfold typed_view. rewrite values_omap.
  assert (E' : mapM json_unmarshal l0.*2 = Some l) by (rewrite <- E; clear; induction l0 as [|[k x] l0 IH]; [done|]; cbn; destruct (json_unmarshal x); [cbn; by rewrite IH|done]).
  apply mapM_omap in E' as ->. by rewrite Hp.
Qed.
Next Obligation.
  intros s k v E. unfold typed_view in E. rewrite lookup_omap in E. destruct (kv_table p (bg_view (ty_db s)) !! k) as [data|] eqn:Hd; [|done]. cbn in E.
  destruct (ty_ok s k data Hd) as (w & Hw & <-). congruence.
Qed.

(** Writes to the other tables keep the records. *)
Lemma other_tables_keep q id data d d' ok : apart p q = true → records_ok d → kv_put q id data d = (d', ok) → records_ok d'.
Proof.
  intros Ha Hd E%kv_put_table. intros j x. rewrite E. destruct ok; [|apply Hd]. rewrite table_insert_apart by done. apply Hd.
Qed.
End typed_instance.

(** * Numbers in bytes *)

Lemma be_at_app l i (a b : list Z) : length a = i → length l = 8%nat → be_at i (a ++ l ++ b) = Sha256.be_word l.
Proof. intros Ha Hl. unfold be_at. rewrite drop_app_length' by done. rewrite take_app_length' by done. done. Qed.

Lemma stake_meta_roundtrip since activity amount : is_i64 since → is_i64 activity → is_u64 amount →
  parseStakeMetaValue (stakeMetaValue since activity amount) = (since, activity, amount).
Proof.
  intros Hs Ha Hm. unfold parseStakeMetaValue, stakeMetaValue. set (b1 := Sha256.be_bytes 8 (u64 since)). set (b2 := Sha256.be_bytes 8 (u64 activity)). set (b3 := Sha256.be_bytes 8 amount).
  assert (L1 : length b1 = 8%nat) by apply Sha256.be_bytes_length. assert (L2 : length b2 = 8%nat) by apply Sha256.be_bytes_length. assert (L3 : length b3 = 8%nat) by apply Sha256.be_bytes_length.
  rewrite bytes_of_string_of_bytes by (repeat apply Forall_app_2; apply Sha256.be_bytes_range). rewrite decide_False by (rewrite !length_app; lia). rewrite decide_True by (rewrite !length_app; lia).
  assert (W : ∀ z, is_u64 z → Sha256.be_word (Sha256.be_bytes 8 z) = z) by (intros z Hz; rewrite be_word_bytes; apply Z.mod_small; unfold is_u64, u64_mod in Hz; lia).
  assert (E1 : be_at 0 (b1 ++ b2 ++ b3) = u64 since) by (rewrite <- (W (u64 since)) by apply u64_range; by apply (be_at_app b1 0 [])).
  assert (E2 : be_at 8 (b1 ++ b2 ++ b3) = u64 activity) by (rewrite <- (W (u64 activity)) by apply u64_range; by apply (be_at_app b2 8 b1)).
  assert (E3 : be_at 16 (b1 ++ b2 ++ b3) = amount).
  { rewrite <- (W amount) by done. replace (b1 ++ b2 ++ b3) with ((b1 ++ b2) ++ b3 ++ []) by (by rewrite app_nil_r, app_assoc). apply (be_at_app b3 16 (b1 ++ b2)); [rewrite length_app; lia|done]. }
  rewrite E1, E2, E3. by rewrite !i64_u64, !i64_small.
Qed.

Lemma replay_reserve_roundtrip {D} {bg : Badger D} {laws : BadgerLaws D} category balance (d d' : D) : is_u64 balance → st_PutReplayReserve category balance d = (d', true) → ∀ x, st_GetReplayReserve category d' = Some x → x = balance.
Proof.
  intros Hb E%kv_put_table x. unfold st_GetReplayReserve. destruct (kv_read _ category d') as [val|] eqn:Hr; [|done]. apply kv_read_table in Hr.
  rewrite E, table_insert, lookup_insert_eq in Hr. subst val. unfold fmap, option_fmap, option_map. rewrite Uint64_PutUint64 by done. by intros [= <-].
Qed.

(** * Properties *)

(** C28: the database is a map per table for those who use the methods of [Store].  Whatever sequence of its writes, deletions and
    deletions of votes is made, some of which the database may refuse, each table holds what its own writes put there; reading a key,
    when the read does not fail, or a whole table gives the map of that table; and a table that no write was for is as it was.  (Not
    covered are writes to the database past these methods: transactions of a caller's own, admission records under keys
    without the prefix "dispatch:", and the components that open the database themselves: the calibration
    counters of the task verification write under the prefix of the calibration signals and are seen among
    them, see [counters_among_signals].) *)
Theorem store_refines_tables {D} {bg : Badger D} {laws : BadgerLaws D} (ws : list store_write) (d : D) :
  let '(d', T) := store_run ws d (λ t, kv_table (prefix_of t) (bg_view d)) in
  (∀ t id, is_Some (kv_read (prefix_of t) id d') → blob_get t id d' = T t !! id) ∧ (∀ t m, blob_all t d' = Some m → m = T t) ∧
  ∀ t, (∀ w, w ∈ ws → match w with WPut u _ _ | WDelete u _ => u ≠ t | WDeleteVotes _ => t ≠ TVote end) → T t = kv_table (prefix_of t) (bg_view d).
Proof.
  pose proof (store_run_ok ws d (λ t, kv_table (prefix_of t) (bg_view d)) ltac:(done)) as Hrep.
  assert (Hother : ∀ t ws T (d : D), (∀ w, w ∈ ws → match w with WPut u _ _ | WDelete u _ => u ≠ t | WDeleteVotes _ => t ≠ TVote end) → (store_run ws d T).2 t = T t).
  { clear. intros t ws. induction ws as [|w ws IH]; intros T d Hws; [done|]. cbn [store_run]. destruct (store_exec w d) as [d1 ok]. rewrite IH by (intros w' Hw'; apply Hws; by right).
    specialize (Hws w ltac:(by left)). destruct ok; [|done]. destruct w; cbn; unfold upd; rewrite decide_False; congruence. }
  pose proof (λ t, Hother t ws (λ t, kv_table (prefix_of t) (bg_view d)) d) as Hkeep. destruct (store_run _ _ _) as [d' T]. cbn [fst snd] in *. split_and!; [| |done].
  - intros t id Hr. by rewrite blob_get_kv, kv_get_table, Hrep.
  - intros t m. rewrite blob_all_kv, Hrep. apply kv_all_table.
Qed.

(** C29: votes survive exactly.  From a database without votes, after any sequence of votes and deletions for events whose IDs have no
    slash, as hexadecimal IDs have none, with IDs that are UTF-8 ([encoding/json] replaces other bytes), reading the votes of an event, if
    the scan does not fail, gives each voter's last verdict since the last deletion, once, and nothing of the other events; and
    the events listed are those with votes. *)
Theorem stored_votes_exact {D} {bg : Badger D} {laws : BadgerLaws D} {json : JsonOf PersistedVote} {json_ok : JsonOfOk PersistedVote} {ord : RangeOrder} ops (d : D) :
  (∀ id, bg_view d !! (prefixVote +:+ id) = None) → Forall vote_op_ok ops →
  let '(d', M) := vote_run ops d ∅ in
  (∀ e l, no_slash e → st_GetVotes e d' = Some l → NoDup l ∧ ∀ pv, pv ∈ l ↔ pv_EventID pv = e ∧ M !! (e, pv_VoterID pv) = Some (pv_Verdict pv)) ∧
  ∀ ids, st_AllVoteEventIDs d' = Some ids → ∀ e, e ∈ ids ↔ ∃ v, is_Some (M !! (e, v)).
Proof.
  intros Hd Hns. assert (H0 : votes_ok ∅ d).
  { split; [intros e v b H; by rewrite lookup_empty in H|]. intros id data. rewrite kv_table_lookup, Hd. split; [done|]. intros (e & v & b & _ & H & _). by rewrite lookup_empty in H. }
  pose proof (vote_run_ok ops d ∅ Hns H0) as Hok. destruct (vote_run ops d ∅) as [d' M]. cbn [fst snd] in Hok. split.
  - intros e l He. by apply st_GetVotes_spec.
  - intros ids. by apply st_AllVoteEventIDs_spec.
Qed.

(** * Examples *)

Module DemoStore.
#[local] Existing Instance DemoDB.demo_badger.
#[local] Existing Instance DemoDB.demo_badger_laws.

(** A vote as a string, for events without a slash. *)
#[global] Instance vote_text : JsonOf PersistedVote := {|
  json_marshal v := if decide (no_slash (pv_EventID v)) then Some ((if pv_Verdict v then "y" else "n") +:+ pv_EventID v +:+ "/" +:+ pv_VoterID v) else None;
  json_unmarshal data := match data with
    | String c r => e ← before_slash r; v ← strip_prefix (e +:+ "/") r; Some (mkPersistedVote e v (bool_decide (String c "" = "y")))
    | EmptyString => None end |}.

#[global] Instance vote_text_ok : JsonOfOk PersistedVote.
Proof.
  refine {| json_safe _ := True |}. intros [e v b] data _. cbn. case_decide as He; [|done]. intros [= <-].
  assert (E : ∀ c, json_unmarshal (String c (e +:+ "/" +:+ v)) = Some (mkPersistedVote e v (bool_decide (String c "" = "y")))).
  { intros c. cbn. rewrite before_slash_app by done. cbn. rewrite strip_vote by done. by rewrite decide_True. }
  by destruct b; apply E.
Defined.

Definition empty_db : DemoDB.db := ∅.

(** With a slash in the ID of an event its votes mix with those of another one. *)
Example slash_mixes_votes : voteKey "a/b" "c" = voteKey "a" "b/c".
Proof. reflexivity. Qed.

(** The calibration counters of the task verification (taskverification/calibration.go) and the calibration signals of the canaries use
    the same prefix in the same database: a counter appears among the signals, under the key [category:family], as eight bytes that are not JSON. *)
Example counters_among_signals :
  let counters := (Increment "code" "fam" (mkCalibrationStore empty_db (mkCalibration 100 ∅ ∅))).1 in
  (λ m, m !! "code:fam") <$> st_AllCalibrationSignals (cs_db counters) = Some (Some (counter_bytes 1)).
Proof. vm_compute. reflexivity. Qed.

(** And a signal makes an empty store of counters look used. *)
Example signals_among_counters :
  let d := (st_PutCalibrationSignal "sig-1" "{}" empty_db).1 in cal_Empty (mkCalibrationStore d (mkCalibration 100 ∅ ∅)) = Some false ∧
  cal_Empty (mkCalibrationStore empty_db (mkCalibration 100 ∅ ∅)) = Some true.
Proof. vm_compute. done. Qed.

(** Values of stake metadata from before the amount was stored read as amount zero. *)
Example old_stake_meta : parseStakeMetaValue (string_of_bytes (Sha256.be_bytes 8 5 ++ Sha256.be_bytes 8 (u64 (-7)))) = (5, -7, 0).
Proof. vm_compute. reflexivity. Qed.

Definition some_votes : list vote_op := [VPut "e1" "a" true; VPut "e2" "b" false; VPut "e1" "b" false; VPut "e1" "a" false; VDelete "e2"].

Example votes_read : let d := (vote_run some_votes empty_db ∅).1 in
  (λ l : list PersistedVote, (λ pv, (pv_VoterID pv, pv_Verdict pv)) <$> l) <$> st_GetVotes "e1" d = Some [("a", false); ("b", false)] ∧ st_GetVotes "e2" d = Some [] ∧ st_AllVoteEventIDs (ord := elements_order) d = Some ["e1"].
Proof. vm_compute. done. Qed.

Definition writes : list store_write :=
  [WPut TTask "t1" "task"; WPut TMeta "t1" "meta"; WPut TVote "e/v" "x"; WPut TVote "f/v" "y"; WDeleteVotes "e"; WDelete TTask "t2"].
End DemoStore.

Lemma store_refines_tables_witness : let '(d', T) := store_run (bg := DemoDB.demo_badger) DemoStore.writes DemoStore.empty_db (λ _, ∅) in
  blob_get (bg := DemoDB.demo_badger) TMeta "t1" d' = Some "meta" ∧ blob_get (bg := DemoDB.demo_badger) TVote "e/v" d' = None ∧ blob_get (bg := DemoDB.demo_badger) TVote "f/v" d' = Some "y".
Proof.
  pose proof (store_refines_tables (bg := DemoDB.demo_badger) (laws := DemoDB.demo_badger_laws) DemoStore.writes DemoStore.empty_db) as H.
  destruct (store_run DemoStore.writes DemoStore.empty_db (λ t, kv_table (prefix_of t) (bg_view DemoStore.empty_db))) as [d1 T1] eqn:E1. destruct H as (H & _).
  destruct (store_run DemoStore.writes DemoStore.empty_db (λ _, ∅)) as [d' T] eqn:E.
  assert (Hd : d' = d1).
  { assert (d' = (store_run (bg := DemoDB.demo_badger) DemoStore.writes DemoStore.empty_db (λ _, ∅)).1) as -> by (by rewrite E).
    assert (d1 = (store_run (bg := DemoDB.demo_badger) DemoStore.writes DemoStore.empty_db (λ t, kv_table (prefix_of t) (bg_view DemoStore.empty_db))).1) as -> by (by rewrite E1). vm_compute. reflexivity. }
  subst d'. rewrite !H by (by eexists). assert (T1 = (store_run (bg := DemoDB.demo_badger) DemoStore.writes DemoStore.empty_db (λ t, kv_table (prefix_of t) (bg_view DemoStore.empty_db))).2) as -> by (by rewrite E1).
  vm_compute. split; [|split]; reflexivity.
Defined.

Lemma stored_votes_exact_witness : let '(d', M) := vote_run (bg := DemoDB.demo_badger) (json := DemoStore.vote_text) DemoStore.some_votes DemoStore.empty_db ∅ in
  ∀ l, st_GetVotes (bg := DemoDB.demo_badger) (json := DemoStore.vote_text) "e1" d' = Some l → mkPersistedVote "e1" "a" false ∈ l.
Proof.
  assert (Hns : Forall (vote_op_ok (json_ok := DemoStore.vote_text_ok)) DemoStore.some_votes) by (repeat constructor).
  pose proof (stored_votes_exact (bg := DemoDB.demo_badger) (laws := DemoDB.demo_badger_laws) (json := DemoStore.vote_text) (json_ok := DemoStore.vote_text_ok) (ord := elements_order)
    DemoStore.some_votes DemoStore.empty_db (λ _, lookup_empty (M := gmap string) _) Hns) as H.
  destruct (vote_run DemoStore.some_votes DemoStore.empty_db ∅) as [d' M] eqn:E. destruct H as [H _]. intros l Hl. apply (H "e1" l eq_refl Hl). split; [reflexivity|].
  assert (M = (vote_run (bg := DemoDB.demo_badger) (json := DemoStore.vote_text) DemoStore.some_votes DemoStore.empty_db ∅).2) as -> by (by rewrite E). vm_compute. reflexivity.
Defined.
