(* ===== verification/Replay.v ===== *)
(** internal/replay: jobs that run the checks of a task again, the comparison of submitted results with the claims, verdicts and their
    enforcement, the coordinator and the runner; internal/verification/replayability.go.

    The store is the class [ReplayStore], which the tables of Tables implement; what the enforcer and the runner call (tasks, generation
    ledger, slashing, canaries, assignment) is the class [ReplayEnv] with the instance of cmd/node/main.go over the modelled parts. *)

From S2P Require Import Prelude GoStd Store Event Float64 Jcs RoundStore Tables Generation Tasks Registry Assignment.
#[local] Open Scope Z_scope.

(** * Replay material *)

Record CommandSpec := mkCommandSpec { cs_CheckType : string; cs_Command : list string; cs_WorkingDir : string; cs_ArgsHash : string }.

Record ArtifactRef := mkArtifactRef { ar_CheckType : string; ar_ArtifactType : string; ar_Hash : string; ar_SizeBytes : Z }.

Record ReplayRequirements := mkRequirements {
  rq_SourceSnapshotHash : string;
  rq_AcceptanceContractHash : string;
  rq_RequiredChecks : list string;
  rq_EnvironmentManifestHash : string;
  rq_ToolchainManifestHash : string;
  rq_CommandSpecs : list CommandSpec;
  rq_ArtifactRefs : list ArtifactRef;
  rq_MachineReadableResults : gmap string Json;
}.

Record ReplayabilityAssessment := mkAssessment { ra_Replayable : bool; ra_MissingFields : list string; ra_ReplayLevel : string }.

(** [if empty { missing = append(missing, field) }]. *)
Definition missing_if (empty : bool) (field : string) : list string := if empty then [field] else [].

Definition assessed (missing : list string) (level : string) : ReplayabilityAssessment :=
  if decide (missing = []) then mkAssessment true [] level else mkAssessment false missing "none".

Definition is_empty {A} (l : list A) : bool := match l with [] => true | _ => false end.

Definition assessCodeV1 (req : ReplayRequirements) : ReplayabilityAssessment :=
  assessed (missing_if (bool_decide (rq_SourceSnapshotHash req = "")) "source_snapshot_hash"
    ++ missing_if (bool_decide (rq_AcceptanceContractHash req = "")) "acceptance_contract_hash"
    ++ missing_if (is_empty (rq_RequiredChecks req)) "required_checks"
    ++ missing_if (bool_decide (rq_EnvironmentManifestHash req = "")) "environment_manifest_hash"
    ++ missing_if (bool_decide (rq_ToolchainManifestHash req = "")) "toolchain_manifest_hash"
    ++ missing_if (is_empty (rq_CommandSpecs req)) "command_specs"
    ++ missing_if (is_empty (rq_ArtifactRefs req)) "artifact_refs"
    ++ missing_if (bool_decide (rq_MachineReadableResults req = ∅)) "machine_readable_results") "replayable".

Definition assessStructural (req : ReplayRequirements) : ReplayabilityAssessment :=
  assessed (missing_if (bool_decide (rq_AcceptanceContractHash req = "")) "acceptance_contract_hash" ++ missing_if (is_empty (rq_RequiredChecks req)) "required_checks") "structural".

(** An empty version is "v1". *)
Definition policy_v1 (pv : string) : string := if decide (pv = "") then "v1" else pv.

Definition AssessReplayability (req : option ReplayRequirements) (category policyVersion : string) : ReplayabilityAssessment :=
  match req with
  | None => mkAssessment false ["source_snapshot_hash"; "acceptance_contract_hash"; "required_checks"; "environment_manifest_hash"; "toolchain_manifest_hash";
      "command_specs"; "artifact_refs"; "machine_readable_results"] "none"
  | Some req => if bool_decide (category = "code") && bool_decide (policy_v1 policyVersion = "v1") then assessCodeV1 req else assessStructural req
  end.

(** * Jobs and outcomes *)

(** The decision on the sampling rate that is copied into a job. *)
Record CalibrationDecision := mkDecision {
  cd_ActorID : string; cd_Category : string; cd_SampleCount : Z; cd_Accuracy : F64; cd_AvgSeverity : F64; cd_BaseRate : F64; cd_AdjustedRate : F64;
  cd_Reason : string; cd_Timestamp : Z }.

Record ReplayJob := mkJob {
  rj_ID : string;
  rj_TaskID : string;
  rj_PacketHash : string;
  rj_Category : string;
  rj_PolicyVersion : string;
  rj_reqs : ReplayRequirements;
  rj_ReplayReason : string;
  rj_AgentID : string;
  rj_CreatedAt : Z;
  rj_SubmissionDeadline : Z;
  rj_Status : string;
  rj_CalibrationReason : string;
  rj_CalibrationAdjustedRate : F64;
  rj_CalibrationSampleCount : Z;
  rj_CalibrationAccuracy : F64;
  rj_AssignedExecutorID : string;
}.

Definition job_with_status (status : string) (j : ReplayJob) : ReplayJob :=
  mkJob (rj_ID j) (rj_TaskID j) (rj_PacketHash j) (rj_Category j) (rj_PolicyVersion j) (rj_reqs j) (rj_ReplayReason j) (rj_AgentID j) (rj_CreatedAt j)
    (rj_SubmissionDeadline j) status (rj_CalibrationReason j) (rj_CalibrationAdjustedRate j) (rj_CalibrationSampleCount j) (rj_CalibrationAccuracy j) (rj_AssignedExecutorID j).

Definition job_with_executor (id : string) (j : ReplayJob) : ReplayJob :=
  mkJob (rj_ID j) (rj_TaskID j) (rj_PacketHash j) (rj_Category j) (rj_PolicyVersion j) (rj_reqs j) (rj_ReplayReason j) (rj_AgentID j) (rj_CreatedAt j)
    (rj_SubmissionDeadline j) (rj_Status j) (rj_CalibrationReason j) (rj_CalibrationAdjustedRate j) (rj_CalibrationSampleCount j) (rj_CalibrationAccuracy j) id.

Definition job_with_deadline (t : Z) (j : ReplayJob) : ReplayJob :=
  mkJob (rj_ID j) (rj_TaskID j) (rj_PacketHash j) (rj_Category j) (rj_PolicyVersion j) (rj_reqs j) (rj_ReplayReason j) (rj_AgentID j) (rj_CreatedAt j)
    t (rj_Status j) (rj_CalibrationReason j) (rj_CalibrationAdjustedRate j) (rj_CalibrationSampleCount j) (rj_CalibrationAccuracy j) (rj_AssignedExecutorID j).

Definition job_with_decision (d : CalibrationDecision) (j : ReplayJob) : ReplayJob :=
  mkJob (rj_ID j) (rj_TaskID j) (rj_PacketHash j) (rj_Category j) (rj_PolicyVersion j) (rj_reqs j) (rj_ReplayReason j) (rj_AgentID j) (rj_CreatedAt j)
    (rj_SubmissionDeadline j) (rj_Status j) (cd_Reason d) (cd_AdjustedRate d) (cd_SampleCount d) (cd_Accuracy d) (rj_AssignedExecutorID j).

Definition no_requirements : ReplayRequirements := mkRequirements "" "" [] "" "" [] [] ∅.

(** The ID of a job. *)
Definition replay_job_id (taskID packetHash : string) (createdAt : Z) : string := sha256_hex (taskID +:+ packetHash +:+ pretty createdAt).

Definition NewReplayJob (taskID packetHash category policyVersion agentID replayReason : string) (reqs : option ReplayRequirements) (createdAt : Z) : ReplayJob :=
  mkJob (replay_job_id taskID packetHash createdAt) taskID packetHash category policyVersion (default no_requirements reqs) replayReason agentID createdAt
    zero_time "pending" "" (mkF64 0 1) 0 (mkF64 0 1) "".

(** The text of [Detail], by its format and arguments. *)
Inductive CheckDetail := DetailNone | DetailFailed (checkType : string) (exitCode : Z) | DetailHash (checkType original replayed : string) | DetailText (s : string).

Record CheckComparison := mkComparison {
  cc_CheckType : string; cc_OriginalHash : string; cc_ReplayedHash : string; cc_Match : bool; cc_ScoreDelta : F64; cc_Detail : CheckDetail }.

Record ReplayOutcome := mkOutcome {
  ro_JobID : string;
  ro_TaskID : string;
  ro_Status : string;
  ro_Comparisons : list CheckComparison;
  ro_AnomalyFlags : list string;
  ro_ReplayedAt : Z;
  ro_ReplayerID : string;
  ro_Notes : string;
}.

Definition HasMismatch (o : ReplayOutcome) : bool := existsb (λ c, negb (cc_Match c)) (ro_Comparisons o).
Definition MismatchCount (o : ReplayOutcome) : Z := Z.of_nat (length (filter (λ c, cc_Match c = false) (ro_Comparisons o))).

(** * Submissions and their comparison with the claims *)

Record SubmittedCheckResult := mkCheckResult {
  sr_CheckType : string; sr_Pass : bool; sr_ExitCode : Z; sr_ArtifactHash : string; sr_MachineReadableResult : gmap string Json; sr_Notes : string }.

Record ReplaySubmission := mkSubmission {
  su_JobID : string;
  su_TaskID : string;
  su_Category : string;
  su_PolicyVersion : string;
  su_AcceptanceContractHash : string;
  su_SubmitterID : string;
  su_CheckResults : list SubmittedCheckResult;
  su_SubmittedAt : Z;
}.

(** Of two results for a check the last one counts. *)
Definition submitted_index (l : list SubmittedCheckResult) : gmap string SubmittedCheckResult := foldl (λ m r, <[sr_CheckType r := r]> m) ∅ l.

Definition hash_index (refs : list ArtifactRef) : gmap string string := foldl (λ m r, <[ar_CheckType r := ar_Hash r]> m) ∅ refs.

Definition toFloat64 (v : Json) : option F64 := match v with JNumber f => Some f | _ => None end.

Definition f64_opp (a : F64) : F64 := mkF64 (- f64_num a) (f64_den a).

(** The absolute value, as the code writes it. *)
Definition f64_abs (a : F64) : F64 := if f64_ltb a (mkF64 0 1) then f64_opp a else a.

(** A relative difference above 15%. *)
Definition number_diverges (ov rv : Json) : bool :=
  match toFloat64 ov, toFloat64 rv with
  | Some ovNum, Some rvNum =>
      let divisor := f64_abs ovNum in
      let divisor := if f64_ltb divisor f64_one then f64_one else divisor in
      f64_ltb (f64_round 15 100) (f64_div (f64_abs (f64_sub rvNum ovNum)) divisor)
  | _, _ => false
  end.

Definition compareNumericFields (checkType : string) (origMRR replayFields : gmap string Json) : string :=
  if bool_decide (origMRR = ∅) || bool_decide (replayFields = ∅) then ""
  else match origMRR !! checkType with
  | Some (JObject origMap) =>
      if existsb (λ kv : string * Json, match replayFields !! kv.1 with None => false | Some rv => number_diverges kv.2 rv end) origMap then "numeric_divergence" else ""
  | _ => ""
  end.

Definition appendUnique (slice : list string) (s : string) : list string := if decide (s ∈ slice) then slice else slice ++ [s].

Definition compareCheck (checkType : string) (res : SubmittedCheckResult) (originalHash : string) : CheckComparison :=
  if negb (sr_Pass res) then mkComparison checkType originalHash (sr_ArtifactHash res) false f64_one (DetailFailed checkType (sr_ExitCode res))
  else if decide (originalHash ≠ "" ∧ sr_ArtifactHash res ≠ "" ∧ originalHash ≠ sr_ArtifactHash res)
  then mkComparison checkType originalHash (sr_ArtifactHash res) false (mkF64 1 2) (DetailHash checkType originalHash (sr_ArtifactHash res))
  else mkComparison checkType originalHash (sr_ArtifactHash res) true (mkF64 0 1) DetailNone.

Definition deriveStatus (comparisons : list CheckComparison) : string :=
  match comparisons with
  | [] => "match"
  | _ =>
      let mismatches := Z.of_nat (length (filter (λ c, cc_Match c = false) comparisons)) in
      if decide (mismatches = 0) then "match" else if decide (Z.of_nat (length comparisons) < mismatches * 2) then "mismatch" else "partial_match"
  end.

(** The body of the loop over the required checks. *)
Definition compare_step (mrr : gmap string Json) (hashes : gmap string string) (submitted : gmap string SubmittedCheckResult)
    (acc : list CheckComparison * list string) (checkType : string) : list CheckComparison * list string :=
  match submitted !! checkType with
  | None => acc
  | Some res =>
      let originalHash := default "" (hashes !! checkType) in
      let cmp := compareCheck checkType res originalHash in
      let flags := if decide (cc_Match cmp = false ∧ sr_Pass res = true ∧ sr_ArtifactHash res ≠ "" ∧ originalHash ≠ "") then appendUnique acc.2 "artifact_hash_divergence" else acc.2 in
      let flag := compareNumericFields checkType mrr (sr_MachineReadableResult res) in
      (acc.1 ++ [cmp], if decide (flag = "") then flags else appendUnique flags flag)
  end.

Definition missing_checks (job : ReplayJob) (sub : ReplaySubmission) : list string :=
  filter (λ check, submitted_index (su_CheckResults sub) !! check = None) (rq_RequiredChecks (rj_reqs job)).

Definition Compare (now : Z) (job : ReplayJob) (sub : ReplaySubmission) : ReplayOutcome :=
  let submitted := submitted_index (su_CheckResults sub) in
  let missing := missing_checks job sub in
  if decide (missing = []) then
    let '(comparisons, flags) := foldl (compare_step (rq_MachineReadableResults (rj_reqs job)) (hash_index (rq_ArtifactRefs (rj_reqs job))) submitted) ([], []) (rq_RequiredChecks (rj_reqs job)) in
    mkOutcome (rj_ID job) (rj_TaskID job) (deriveStatus comparisons) comparisons flags now (su_SubmitterID sub) ""
  else mkOutcome (rj_ID job) (rj_TaskID job) "error" [] [] now (su_SubmitterID sub) ("missing required checks: " +:+ String.concat ", " missing).

(** * Verdicts *)

Record ReplayVerdict := mkVerdict { rv_Action : string; rv_Reason : string; rv_MismatchCount : Z; rv_AnomalyFlags : list string; rv_SeverityScore : F64 }.

Definition maxScoreDelta (o : ReplayOutcome) : F64 := foldl (λ m c, if f64_ltb m (cc_ScoreDelta c) then cc_ScoreDelta c else m) (mkF64 0 1) (ro_Comparisons o).

(** [+= 0.1] per flag, up to 1. *)
Fixpoint add_flags {A} (flags : list A) (score : F64) : F64 :=
  match flags with
  | [] => score
  | _ :: flags => let score := f64_add score (f64_round 1 10) in if f64_leb f64_one score then f64_one else add_flags flags score
  end.

(** Action, reason and severity by the status. *)
Definition status_verdict (o : ReplayOutcome) : string * string * F64 :=
  if decide (ro_Status o = "match") then ("no_action", "all checks reproduced successfully", mkF64 0 1)
  else if decide (ro_Status o = "partial_match") then
    let mc := MismatchCount o in let maxDelta := maxScoreDelta o in
    if bool_decide (mc = 1) && f64_ltb maxDelta (f64_round 15 100) then ("flag_for_review", "single minor check mismatch", f64_round 3 10)
    else if bool_decide (1 < mc) || f64_ltb (f64_round 3 10) maxDelta then ("open_challenge", "multiple check mismatches or significant score delta", f64_round 6 10)
    else ("flag_for_review", "single check mismatch with moderate delta", f64_round 3 10)
  else if decide (ro_Status o = "mismatch") then ("open_challenge", "majority of checks disagree with original", f64_round 8 10)
  else ("no_action", "no actionable replay result", mkF64 0 1).

Definition EvaluateOutcome (o : ReplayOutcome) : ReplayVerdict :=
  let '(action, reason, severity) := status_verdict o in
  let severity := add_flags (ro_AnomalyFlags o) severity in
  mkVerdict (if f64_leb (f64_round 9 10) severity then "slash_recommended" else action) reason (MismatchCount o) (ro_AnomalyFlags o) severity.

(** * The store of jobs and outcomes *)

Class ReplayStore (St : Type) : Type := {
  PutReplayJob : string → string → St → St * bool;
  GetReplayJob : string → St → option string;
  AllReplayJobs : St → option (gmap string string);
  PutReplayOutcome : string → string → St → St * bool;
  GetReplayOutcome : string → St → option string;
  AllReplayOutcomes : St → option (gmap string string);
}.

(** Reads do not fail; writes may, and then change nothing. *)
Class ReplayStoreLaws (St : Type) `{!ReplayStore St} : Type := {
  rs_jobs : St → gmap string string;
  rs_outcomes : St → gmap string string;
  rs_put_job id data s s' ok : PutReplayJob id data s = (s', ok) → rs_jobs s' = (if ok then <[id := data]> (rs_jobs s) else rs_jobs s) ∧ rs_outcomes s' = rs_outcomes s;
  rs_put_outcome id data s s' ok : PutReplayOutcome id data s = (s', ok) → rs_outcomes s' = (if ok then <[id := data]> (rs_outcomes s) else rs_outcomes s) ∧ rs_jobs s' = rs_jobs s;
  rs_get_job id s : GetReplayJob id s = rs_jobs s !! id;
  rs_get_outcome id s : GetReplayOutcome id s = rs_outcomes s !! id;
  rs_all_jobs s m : AllReplayJobs s = Some m → m = rs_jobs s;
  rs_all_outcomes s m : AllReplayOutcomes s = Some m → m = rs_outcomes s;
}.

(** What the code relies on of the JSON of a job.  A string that was parsed, or a hexadecimal digest, is written without loss; a record with
    such an ID reads back with its ID and status.  Nothing is asked of the other fields, where [encoding/json] may replace bytes. *)
Class ReplayJobJson {jobs : JsonOf ReplayJob} : Type := {
  job_id_exact : string → Prop;
  job_id_hex s : job_id_exact (sha256_hex s);
  job_id_parsed data job : json_unmarshal (V := ReplayJob) data = Some job → job_id_exact (rj_ID job);
  job_json job data : job_id_exact (rj_ID job) → rj_Status job ∈ ["pending"; "completed"; "failed"] → json_marshal job = Some data →
    ∃ job', json_unmarshal data = Some job' ∧ rj_ID job' = rj_ID job ∧ rj_Status job' = rj_Status job;
}.

Inductive ReplayError :=
  | ErrNilOutcome | ErrEmptyJobID | ErrNegativeScoreDelta (i : nat) | ErrJobNotFound (jobID : string) | ErrJobData | ErrOutcomeAlreadyTerminal (jobID status : string)
  | ErrReplayMarshal | ErrReplayPersist | ErrReplayStatus | ErrBindingMismatch (field : string) | ErrMissingRequiredChecks (notes : string) | ErrUnauthorizedExecutor.

Definition job_terminal (status : string) : bool := bool_decide (status = "completed") || bool_decide (status = "failed").

(** The first comparison with a negative delta. *)
Definition negative_delta (l : list CheckComparison) : option nat := fst <$> list_find (λ c, f64_ltb (cc_ScoreDelta c) (mkF64 0 1) = true) l.

Section resolver.
Context {St : Type} {rst : ReplayStore St} {jobs : JsonOf ReplayJob} {outcomes : JsonOf ReplayOutcome}.
Implicit Types s : St.

(** internal/replay/store.go. *)
Definition rm_PutJob (job : ReplayJob) s : St * bool := match json_marshal job with None => (s, false) | Some data => PutReplayJob (rj_ID job) data s end.
Definition rm_GetJob (id : string) s : option ReplayJob := data ← GetReplayJob id s; json_unmarshal data.
Definition rm_AllJobs {ord : RangeOrder} s : option (list ReplayJob) := blobs ← AllReplayJobs s; mapM json_unmarshal (range_map blobs).
Definition rm_PutOutcome (o : ReplayOutcome) s : St * bool := match json_marshal o with None => (s, false) | Some data => PutReplayOutcome (ro_JobID o) data s end.
Definition rm_GetOutcome (id : string) s : option ReplayOutcome := data ← GetReplayOutcome id s; json_unmarshal data.
Definition rm_AllOutcomes {ord : RangeOrder} s : option (list ReplayOutcome) := blobs ← AllReplayOutcomes s; mapM json_unmarshal (range_map blobs).

Definition ValidateOutcome (o : ReplayOutcome) s : option ReplayError :=
  if decide (ro_JobID o = "") then Some ErrEmptyJobID
  else match negative_delta (ro_Comparisons o) with
  | Some i => Some (ErrNegativeScoreDelta i)
  | None =>
      match GetReplayJob (ro_JobID o) s with
      | None => Some (ErrJobNotFound (ro_JobID o))
      | Some data =>
          match json_unmarshal (V := ReplayJob) data with
          | None => Some ErrJobData
          | Some job => if job_terminal (rj_Status job) then Some (ErrOutcomeAlreadyTerminal (ro_JobID o) (rj_Status job)) else None
          end
      end
  end.

(** What follows the validation: the outcome, then the status of the job. *)
Definition persist_outcome (o : ReplayOutcome) s : St * option ReplayError :=
  match json_marshal o with
  | None => (s, Some ErrReplayMarshal)
  | Some data =>
      let '(s, ok) := PutReplayOutcome (ro_JobID o) data s in
      if negb ok then (s, Some ErrReplayPersist)
      else match GetReplayJob (ro_JobID o) s with
      | None => (s, Some (ErrJobNotFound (ro_JobID o)))
      | Some jobData =>
          match json_unmarshal (V := ReplayJob) jobData with
          | None => (s, Some ErrJobData)
          | Some job =>
              match json_marshal (job_with_status (if decide (ro_Status o = "error") then "failed" else "completed") job) with
              | None => (s, Some ErrReplayMarshal)
              | Some updated => let '(s, ok) := PutReplayJob (rj_ID job) updated s in (s, if ok then None else Some ErrReplayPersist)
              end
          end
      end
  end.

Definition RecordOutcome (o : ReplayOutcome) s : St * option ReplayError := match ValidateOutcome o s with Some e => (s, Some e) | None => persist_outcome o s end.
End resolver.

(** * Enforcement *)

(** What a task says about its generation credit. *)
Record ReplayDetails := mkDetails { rd_agentID : string; rd_resultHash : string; rd_title : string; rd_verifiedValue : Z; rd_generationEligible : bool }.

Definition no_details : ReplayDetails := mkDetails "" "" "" 0 false.

(** The interfaces of the enforcer and the runner. *)
Class ReplayEnv (W : Type) : Type := {
  env_SetReplayStatus : string → string → string → W → W * bool;
  env_SetGenerationStatus : string → string → W → W * bool;
  env_RecordGeneration : string → string → string → string → Z → W → W * bool;
  env_Slash : string → string → W → W * option Z;
  env_CanaryTask : Type;
  env_GetCanaryByTaskID : string → W → option env_CanaryTask;
  env_Evaluate : env_CanaryTask → string → string → bool → W → W;
  env_GetReplayDetails : string → W → option ReplayDetails;
  env_SelectReplayExecutor : string → string → string → W → W * option string;
}.

(** Which optional parts are wired. *)
Record ReplayEnforcer := mkEnforcer { en_genTrigger : bool; en_slashExec : bool; en_canary : bool }.

Definition verdict_statuses (action : string) : string * string :=
  if decide (action = "open_challenge" ∨ action = "slash_recommended") then ("replay_disputed", "denied") else ("replay_complete", "recognized").

Section enforcer.
Context {St : Type} {rst : ReplayStore St} {jobs : JsonOf ReplayJob} {outcomes : JsonOf ReplayOutcome} {W : Type} {env : ReplayEnv W}.
Implicit Types (s : St) (w : W) (en : ReplayEnforcer).

Definition enforce_slash en (o : ReplayOutcome) (action : string) w : W :=
  if bool_decide (action = "slash_recommended") && en_slashExec en && negb (bool_decide (ro_ReplayerID o = "")) then (env_Slash (ro_ReplayerID o) "fraudulent_approval" w).1 else w.

Definition enforce_canary en (o : ReplayOutcome) w : W :=
  if en_canary en then
    match env_GetCanaryByTaskID (ro_TaskID o) w with
    | Some c => env_Evaluate c (ro_ReplayerID o) "replay_submitter" (bool_decide (ro_Status o = "match")) w
    | None => w
    end
  else w.

Definition enforce_generation en (o : ReplayOutcome) (d : ReplayDetails) (newStatus newGenStatus : string) w : W :=
  if rd_generationEligible d then
    let w := (env_SetGenerationStatus (ro_TaskID o) newGenStatus w).1 in
    if bool_decide (newStatus = "replay_complete") && en_genTrigger en
    then (env_RecordGeneration (ro_TaskID o) (rd_agentID d) (rd_resultHash d) (rd_title d) (rd_verifiedValue d) w).1 else w
  else w.

Definition ProcessReplayOutcome en (outcome : option ReplayOutcome) (d : ReplayDetails) s w : St * W * (option ReplayVerdict * option ReplayError) :=
  match outcome with
  | None => (s, w, (None, Some ErrNilOutcome))
  | Some o =>
      match RecordOutcome o s with
      | (s, Some e) => (s, w, (None, Some e))
      | (s, None) =>
          let verdict := EvaluateOutcome o in
          let '(newStatus, newGenStatus) := verdict_statuses (rv_Action verdict) in
          let '(w, ok) := env_SetReplayStatus (ro_TaskID o) newStatus (ro_JobID o) w in
          if negb ok then (s, w, (Some verdict, Some ErrReplayStatus))
          else
            let w := enforce_slash en o (rv_Action verdict) w in
            let w := enforce_canary en o w in
            let w := enforce_generation en o d newStatus newGenStatus w in
            (s, w, (Some verdict, None))
      end
  end.

(** * Submissions *)

Definition validateBinding (job : ReplayJob) (sub : ReplaySubmission) : option ReplayError :=
  if decide (su_TaskID sub ≠ rj_TaskID job) then Some (ErrBindingMismatch "task_id")
  else if decide (su_Category sub ≠ rj_Category job) then Some (ErrBindingMismatch "category")
  else if decide (policy_v1 (su_PolicyVersion sub) ≠ policy_v1 (rj_PolicyVersion job)) then Some (ErrBindingMismatch "policy_version")
  else
    let want := rq_AcceptanceContractHash (rj_reqs job) in
    if decide (want ≠ "" ∧ su_AcceptanceContractHash sub ≠ "" ∧ su_AcceptanceContractHash sub ≠ want) then Some (ErrBindingMismatch "acceptance_contract_hash") else None.

(** The details of a task, where a provider is wired and knows it. *)
Definition details_of (wired : bool) (taskID : string) w : ReplayDetails := if wired then default no_details (env_GetReplayDetails taskID w) else no_details.

Definition sp_Process (wired : bool) en (now : Z) (sub : ReplaySubmission) s w : St * W * (option ReplayOutcome * (ReplayError + ReplayVerdict)) :=
  match GetReplayJob (su_JobID sub) s with
  | None => (s, w, (None, inl (ErrJobNotFound (su_JobID sub))))
  | Some data =>
      match json_unmarshal data with
      | None => (s, w, (None, inl ErrJobData))
      | Some job =>
          if job_terminal (rj_Status job) then (s, w, (None, inl (ErrOutcomeAlreadyTerminal (rj_ID job) (rj_Status job))))
          else if decide (rj_AssignedExecutorID job ≠ "" ∧ su_SubmitterID sub ≠ rj_AssignedExecutorID job) then (s, w, (None, inl ErrUnauthorizedExecutor))
          else match validateBinding job sub with
          | Some e => (s, w, (None, inl e))
          | None =>
              let o := Compare now job sub in
              if decide (ro_Status o = "error") then (s, w, (None, inl (ErrMissingRequiredChecks (ro_Notes o))))
              else match ProcessReplayOutcome en (Some o) (details_of wired (su_TaskID sub) w) s w with
              | (s, w, (_, Some e)) => (s, w, (Some o, inl e))
              | (s, w, (Some v, None)) => (s, w, (Some o, inr v))
              | (s, w, (None, None)) => (s, w, (Some o, inl ErrNilOutcome))
              end
          end
      end
  end.
End enforcer.

(** * The coordinator *)

Record CategoryCalibration := mkCategoryCalibration { ca_TotalSignals : Z; ca_Accuracy : F64; ca_AvgSeverity : F64 }.

Definition MinCalibrationSamples : Z := 20.

Definition CalibrationActionable (cal : option CategoryCalibration) : bool := match cal with None => false | Some cal => bool_decide (MinCalibrationSamples <= ca_TotalSignals cal) end.

Record ReplayPolicy := mkReplayPolicy {
  SampleRate : F64; NewAgentSampleRate : F64; GenerationSampleRate : F64; AlwaysReplayChallenged : bool; AlwaysReplayAnomalies : bool;
  LowConfidenceThreshold : F64; SubmissionGracePeriod : Z }.

Definition DefaultReplayPolicy : ReplayPolicy := mkReplayPolicy (f64_round 5 100) (f64_round 25 100) (f64_round 15 100) true true (mkF64 1 2) (2 * 3600000000000).

(** A source of calibration data answers an error, nothing or a record; the bootstrap source gives the rates (baseline, generation, new
    agent) at a time. *)
Record ReplayCoordinator := mkReplayCoordinator {
  rc_policy : ReplayPolicy;
  rc_scheduled : gset string;
  rc_calibration : option (string → string → unit + option CategoryCalibration);
  rc_calibrationEnabled : bool;
  rc_lastCalibDecision : option CalibrationDecision;
  rc_bootstrap : option (Z → F64 * F64 * F64);
}.

Definition NewReplayCoordinator (policy : ReplayPolicy) : ReplayCoordinator := mkReplayCoordinator policy ∅ None false None None.
Definition SetCalibrationEnabled (enabled : bool) (c : ReplayCoordinator) : ReplayCoordinator :=
  mkReplayCoordinator (rc_policy c) (rc_scheduled c) (rc_calibration c) enabled (rc_lastCalibDecision c) (rc_bootstrap c).
Definition rc_SetCalibrationSource src (c : ReplayCoordinator) : ReplayCoordinator :=
  mkReplayCoordinator (rc_policy c) (rc_scheduled c) src (rc_calibrationEnabled c) (rc_lastCalibDecision c) (rc_bootstrap c).
Definition SetBootstrapRateSource src (c : ReplayCoordinator) : ReplayCoordinator :=
  mkReplayCoordinator (rc_policy c) (rc_scheduled c) (rc_calibration c) (rc_calibrationEnabled c) (rc_lastCalibDecision c) src.
Definition LastCalibrationDecision (c : ReplayCoordinator) : option CalibrationDecision := rc_lastCalibDecision c.
Definition rc_set_decision (d : CalibrationDecision) (c : ReplayCoordinator) : ReplayCoordinator :=
  mkReplayCoordinator (rc_policy c) (rc_scheduled c) (rc_calibration c) (rc_calibrationEnabled c) (Some d) (rc_bootstrap c).
Definition rc_set_scheduled (taskID : string) (c : ReplayCoordinator) : ReplayCoordinator :=
  mkReplayCoordinator (rc_policy c) ({[taskID]} ∪ rc_scheduled c) (rc_calibration c) (rc_calibrationEnabled c) (rc_lastCalibDecision c) (rc_bootstrap c).

(** Multiplier, sample count, accuracy, severity and reason for the answer of the source. *)
Definition scrutiny (cal : unit + option CategoryCalibration) : F64 * (Z * F64 * F64) * string :=
  let zero := mkF64 0 1 in
  match cal with
  | inl _ => (mkF64 2 1, (0, zero, zero), "no_calibration_data")
  | inr cal =>
      if negb (CalibrationActionable cal) then (mkF64 2 1, (match cal with Some cal => ca_TotalSignals cal | None => 0 end, zero, zero), "below_threshold_2x")
      else match cal with
      | None => (f64_one, (0, zero, zero), "calibration_nominal")
      | Some cal =>
          let seen := (ca_TotalSignals cal, ca_Accuracy cal, ca_AvgSeverity cal) in
          if f64_ltb (ca_Accuracy cal) (f64_round 6 10) then (mkF64 3 1, seen, "weak_calibration_3x")
          else if f64_ltb (f64_round 9 10) (ca_Accuracy cal) then (mkF64 1 2, seen, "strong_calibration_0.5x")
          else (f64_one, seen, "calibration_nominal")
      end
  end.

Definition applyCalibrationAdjustment source (agentID category : string) (baseRate : F64) (now : Z) (c : ReplayCoordinator) : ReplayCoordinator * F64 :=
  let zero := mkF64 0 1 in
  if negb (rc_calibrationEnabled c) then (rc_set_decision (mkDecision agentID category 0 zero zero baseRate baseRate "calibration_disabled" now) c, baseRate)
  else
    let '(multiplier, (samples, accuracy, severity), reason) := scrutiny (source agentID category) in
    let adjustedRate := f64_mul baseRate multiplier in
    let adjustedRate := if f64_ltb adjustedRate zero then zero else adjustedRate in
    (rc_set_decision (mkDecision agentID category samples accuracy severity baseRate adjustedRate reason now) c, adjustedRate).

(** The rates in effect: (sample, new agent, generation). *)
Definition effective_rates (now : Z) (c : ReplayCoordinator) : F64 * F64 * F64 :=
  match rc_bootstrap c with
  | None => (SampleRate (rc_policy c), NewAgentSampleRate (rc_policy c), GenerationSampleRate (rc_policy c))
  | Some rates => let '(baseline, generation, newAgent) := rates now in (baseline, newAgent, generation)
  end.

(** [u1], [u2] and [u3] are the random numbers of the three draws, those that are made. *)
Definition ShouldReplay (taskID agentID category : string) (confidence : F64) (generationEligible challenged : bool) (anomalyFlags : list string) (agentTaskCount : Z)
    (u1 u2 u3 : F64) (now : Z) (c : ReplayCoordinator) : ReplayCoordinator * option string :=
  if decide (taskID ∈ rc_scheduled c) then (c, None)
  else if challenged && AlwaysReplayChallenged (rc_policy c) then (c, Some "challenged")
  else if bool_decide (anomalyFlags ≠ []) && AlwaysReplayAnomalies (rc_policy c) then (c, Some "anomaly")
  else if f64_ltb confidence (LowConfidenceThreshold (rc_policy c)) then (c, Some "low_confidence")
  else
    let '(sampleRate, newAgentRate, generationRate) := effective_rates now c in
    if bool_decide (agentTaskCount < 10) && f64_ltb u1 newAgentRate then (c, Some "probation")
    else if generationEligible && f64_ltb u2 generationRate then (c, Some "sampled")
    else
      let '(c, effectiveRate) := match rc_calibration c with None => (c, sampleRate) | Some source => applyCalibrationAdjustment source agentID category sampleRate now c end in
      (c, if f64_ltb u3 effectiveRate then Some "sampled" else None).

Section coordinator.
Context {St : Type} {rst : ReplayStore St} {jobs : JsonOf ReplayJob}.

(** The job of a schedule. *)
Definition scheduled_job (taskID packetHash category policyVersion : string) (reqs : option ReplayRequirements) (reason agentID : string) (now : Z) (c : ReplayCoordinator) : ReplayJob :=
  let job := NewReplayJob taskID packetHash category policyVersion agentID reason reqs now in
  let job := if decide (0 < SubmissionGracePeriod (rc_policy c)) then job_with_deadline (now + SubmissionGracePeriod (rc_policy c)) job else job in
  match rc_lastCalibDecision c with None => job | Some d => job_with_decision d job end.

Definition ScheduleReplay (taskID packetHash category policyVersion : string) (reqs : option ReplayRequirements) (reason agentID : string) (now : Z) (c : ReplayCoordinator) (s : St) :
    ReplayCoordinator * St * option ReplayJob :=
  let job := scheduled_job taskID packetHash category policyVersion reqs reason agentID now c in
  match json_marshal job with
  | None => (c, s, None)
  | Some data => let '(s, ok) := PutReplayJob (rj_ID job) data s in if ok then (rc_set_scheduled taskID c, s, Some job) else (c, s, None)
  end.

Definition PendingJobs {ord : RangeOrder} (s : St) : option (list ReplayJob) := filter (λ j, rj_Status j = "pending") <$> rm_AllJobs s.
End coordinator.

(** * Executors and the runner *)

Definition jobToReplayRequirements (job : ReplayJob) : ReplayRequirements :=
  let r := rj_reqs job in
  mkRequirements (rq_SourceSnapshotHash r) (rq_AcceptanceContractHash r) (rq_RequiredChecks r) (rq_EnvironmentManifestHash r) (rq_ToolchainManifestHash r) (rq_CommandSpecs r) (rq_ArtifactRefs r) ∅.

(** [InspectionExecutor.Execute]. *)
Definition ie_Execute (now : Z) (job : ReplayJob) : ReplayOutcome :=
  let a := AssessReplayability (Some (jobToReplayRequirements job)) (rj_Category job) (rj_PolicyVersion job) in
  let notes := if negb (ra_Replayable a) then "not replayable: missing fields: " +:+ String.concat ", " (ra_MissingFields a) else "execution-pending: material present but no execution engine" in
  mkOutcome (rj_ID job) (rj_TaskID job) "error" [] [] now "inspection-executor" notes.

Section runner.
Context {St : Type} {rst : ReplayStore St} {jobs : JsonOf ReplayJob} {outcomes : JsonOf ReplayOutcome} {W : Type} {env : ReplayEnv W}.

(** The executor is an interface: an error or an outcome, which may be nil. *)
Record ReplayRunner := mkRunner { rr_executor : Z → ReplayJob → unit + option ReplayOutcome; rr_enforcer : ReplayEnforcer; rr_taskDetails : bool; rr_assigner : bool }.

Definition assign_executor (r : ReplayRunner) (job : ReplayJob) (w : W) : W * ReplayJob :=
  if rr_assigner r then
    match env_SelectReplayExecutor (rj_Category job) (rj_AgentID job) "" w with
    | (w, None) => (w, job)
    | (w, Some executorID) => (w, job_with_executor executorID job)
    end
  else (w, job).

Definition processJob (r : ReplayRunner) (now : Z) (job : ReplayJob) (sw : St * W) : St * W :=
  let '(s, w) := sw in
  if decide (rj_SubmissionDeadline job ≠ zero_time ∧ now < rj_SubmissionDeadline job) then (s, w)
  else
    let '(w, job) := assign_executor r job w in
    match rr_executor r now job with
    | inl _ => (s, w)
    | inr o => (ProcessReplayOutcome (rr_enforcer r) o (details_of (rr_taskDetails r) (rj_TaskID job) w) s w).1
    end.

Definition processOnce {ord : RangeOrder} (r : ReplayRunner) (now : Z) (sw : St * W) : St * W :=
  match PendingJobs sw.1 with None => sw | Some jobs => foldl (λ sw job, processJob r now job sw) sw jobs end.
End runner.

(** * Reputation signals *)

Record ReputationSignal := mkSignal { sg_AgentID : string; sg_TaskID : string; sg_SignalType : string; sg_SeverityScore : F64; sg_Category : string; sg_Timestamp : Z }.

Definition capped (x : F64) : F64 := if f64_ltb f64_one x then f64_one else x.

Definition OutcomeToReputationSignal (o : ReplayOutcome) (agentID category : string) (now : Z) : ReputationSignal :=
  let mc := MismatchCount o in let n := Z.of_nat (length (ro_AnomalyFlags o)) in
  let '(signal, severity) :=
    if decide (0 < n) then ("replay_anomaly", capped (f64_add (f64_round 7 10) (f64_mul (f64_of_u64 n) (f64_round 1 10))))
    else if decide (0 < mc) then ("replay_mismatch", capped (f64_mul (f64_of_u64 mc) (f64_round 3 10)))
    else ("replay_match", mkF64 0 1) in
  mkSignal agentID (ro_TaskID o) signal severity category now.

(** * The node: cmd/node/main.go *)

Section node.
Context {order : RangeOrder} {conv : F64Conv} {codec : PayloadCodec} {task_codec : TaskCodec} {Ts Tw Gs Vs : Type} {tasks_db : Persistence Ts (string * string)} {gen_db : Persistence Gs GenerationEntry} {val_db : Persistence Vs Validator} (calibration : calibrationSource).

Record NodeWorld := mkNode {
  nw_tasks : TaskManager Ts Tw;
  nw_generation : GenerationLedger Gs;
  nw_validators : ValidatorRegistry Vs;
  nw_engine : AssignmentEngine;
  nw_now : Z;
  nw_random : F64;
  nw_agentID : AgentID;
  nw_canaries : gmap string string;
  nw_evaluated : list (string * string * bool);
}.

Definition nw_with_tasks t (n : NodeWorld) : NodeWorld := mkNode t (nw_generation n) (nw_validators n) (nw_engine n) (nw_now n) (nw_random n) (nw_agentID n) (nw_canaries n) (nw_evaluated n).
Definition nw_with_generation g (n : NodeWorld) : NodeWorld := mkNode (nw_tasks n) g (nw_validators n) (nw_engine n) (nw_now n) (nw_random n) (nw_agentID n) (nw_canaries n) (nw_evaluated n).
Definition nw_with_validators v (n : NodeWorld) : NodeWorld := mkNode (nw_tasks n) (nw_generation n) v (nw_engine n) (nw_now n) (nw_random n) (nw_agentID n) (nw_canaries n) (nw_evaluated n).
Definition nw_with_engine e (n : NodeWorld) : NodeWorld := mkNode (nw_tasks n) (nw_generation n) (nw_validators n) e (nw_now n) (nw_random n) (nw_agentID n) (nw_canaries n) (nw_evaluated n).

(** [replayGenTrigger.RecordGeneration]. *)
Definition gt_RecordGeneration (taskID agentID resultHash title : string) (value : Z) (n : NodeWorld) : NodeWorld * bool :=
  let id := if decide (agentID = "") then nw_agentID n else agentID in
  let '(g, e) := gl_RecordTaskGeneration id resultHash title value taskID (nw_now n) (nw_generation n) in (nw_with_generation g n, bool_decide (e = None)).

(** [taskReplayDetailsAdapter.GetReplayDetails]. *)
Definition tr_GetReplayDetails (taskID : string) (n : NodeWorld) : option ReplayDetails :=
  match tm_Get taskID (nw_tasks n) with
  | inl _ => None
  | inr t =>
      let value := match t_VerificationScore (t_result t) with None => 0 | Some score => f64_share (t_Budget t) (sc_Overall score) end in
      Some (mkDetails (t_ClaimerID (t_claim t)) (t_ResultHash (t_result t)) (t_Title (t_spec t)) value (ac_GenerationEligible (t_Contract (t_spec t))))
  end.

(** [slashEngineAdapter.Slash]. *)
Definition sa_Slash (validatorID offense : string) (n : NodeWorld) : NodeWorld * option Z :=
  let o := if decide (offense = "fraudulent_approval") then OffenseFraudulentApproval else if decide (offense = "dishonest_replay") then OffenseDishonestReplay
           else if decide (offense = "collusion") then OffenseCollusion else OffenseOther offense in
  let '(v, res) := sle_Slash validatorID o (nw_now n) (nw_now n) (nw_validators n) in
  (nw_with_validators v n, match res with inl _ => None | inr r => Some (sr_SlashAmount r) end).

(** [replayAssignerAdapter.SelectReplayExecutor]. *)
Definition aa_SelectReplayExecutor (category originalVerifierID originalVerifierCluster : string) (n : NodeWorld) : NodeWorld * option string :=
  let '(e, v) := SelectReplayExecutor calibration category originalVerifierID originalVerifierCluster (nw_validators n) (nw_now n) (nw_random n) (nw_engine n) in
  (nw_with_engine e n, v_ID <$> v).

Definition on_task (f : TaskManager Ts Tw → TaskManager Ts Tw * option TaskError) (n : NodeWorld) : NodeWorld * bool :=
  let '(t, e) := f (nw_tasks n) in (nw_with_tasks t n, bool_decide (e = None)).

(** The canaries of tasks and the evaluator are outside; an evaluation is recorded. *)
#[global] Instance node_env : ReplayEnv NodeWorld := {|
  env_SetReplayStatus taskID status jobID := on_task (tm_SetReplayStatus taskID status jobID);
  env_SetGenerationStatus taskID status := on_task (tm_SetGenerationStatus taskID status);
  env_RecordGeneration := gt_RecordGeneration;
  env_Slash := sa_Slash;
  env_CanaryTask := string;
  env_GetCanaryByTaskID taskID n := nw_canaries n !! taskID;
  env_Evaluate c actor role pass n := mkNode (nw_tasks n) (nw_generation n) (nw_validators n) (nw_engine n) (nw_now n) (nw_random n) (nw_agentID n) (nw_canaries n) (nw_evaluated n ++ [(c, actor, pass)]);
  env_GetReplayDetails := tr_GetReplayDetails;
  env_SelectReplayExecutor := aa_SelectReplayExecutor;
|}.
End node.

(** * Lemmas: verdicts *)

Definition original_hash (job : ReplayJob) (check : string) : string := default "" (hash_index (rq_ArtifactRefs (rj_reqs job)) !! check).

(** Two known artifacts that differ. *)
Definition hash_diverges (job : ReplayJob) (r : SubmittedCheckResult) (check : string) : bool :=
  bool_decide (original_hash job check ≠ "" ∧ sr_ArtifactHash r ≠ "" ∧ original_hash job check ≠ sr_ArtifactHash r).

(** The replay contradicts the claim that [check] passed with its artifact. *)
Definition contradicted (job : ReplayJob) (sub : ReplaySubmission) (check : string) : bool :=
  match submitted_index (su_CheckResults sub) !! check with None => false | Some r => negb (sr_Pass r) || hash_diverges job r check end.

(** A check that passes with another artifact, or reports other numbers. *)
Definition suspicious (job : ReplayJob) (sub : ReplaySubmission) (check : string) : bool :=
  match submitted_index (su_CheckResults sub) !! check with
  | None => false
  | Some r => sr_Pass r && hash_diverges job r check ||
      negb (bool_decide (compareNumericFields check (rq_MachineReadableResults (rj_reqs job)) (sr_MachineReadableResult r) = ""))
  end.

Lemma submitted_index_acc l (m : gmap string SubmittedCheckResult) check :
  is_Some (foldl (λ m r, <[sr_CheckType r := r]> m) m l !! check) ↔ is_Some (m !! check) ∨ ∃ r, r ∈ l ∧ sr_CheckType r = check.
Proof.
  revert m. induction l as [|r l IH]; intros m; cbn; [split; [by left|by intros [H|(r & H & _)]; [|inversion H]]|].
  rewrite IH. destruct (decide (sr_CheckType r = check)) as [<-|Hne].
  - rewrite lookup_insert_eq. split; [intros _; right; exists r; split; [by left|done]|intros _; left; by eexists].
  - rewrite lookup_insert_ne by done. split.
    + intros [H|(r' & H & E)]; [by left|right; exists r'; split; [by right|done]].
    + intros [H|(r' & H & E)]; [by left|]. right. exists r'. split; [|done]. apply elem_of_cons in H as [->|H]; [congruence|done].
Qed.

Lemma submitted_index_spec l check : is_Some (submitted_index l !! check) ↔ ∃ r, r ∈ l ∧ sr_CheckType r = check.
Proof. unfold submitted_index. rewrite submitted_index_acc, lookup_empty. split; [by intros [[? H]|H]|by right]. Qed.

Lemma compareCheck_match job r check : cc_Match (compareCheck check r (original_hash job check)) = negb (negb (sr_Pass r) || hash_diverges job r check).
Proof. unfold compareCheck, hash_diverges. destruct (sr_Pass r); cbn; [|done]. case_decide; [by rewrite bool_decide_true|by rewrite bool_decide_false]. Qed.

Definition the_deltas : list F64 := [f64_one; mkF64 1 2; mkF64 0 1].

Lemma compareCheck_delta check r h : let c := compareCheck check r h in cc_ScoreDelta c ∈ the_deltas ∧ (cc_Match c = false → cc_ScoreDelta c ≠ mkF64 0 1).
Proof. unfold compareCheck, the_deltas. destruct (sr_Pass r); cbn; [case_decide|]; cbn; set_solver. Qed.

Definition the_flags : list string := ["artifact_hash_divergence"; "numeric_divergence"].

Lemma numeric_flag check m1 m2 : compareNumericFields check m1 m2 ≠ "" → compareNumericFields check m1 m2 = "numeric_divergence".
Proof. unfold compareNumericFields. repeat (case_match; try done). Qed.

Lemma appendUnique_ok l f : NoDup l → l ⊆ the_flags → f ∈ the_flags → NoDup (appendUnique l f) ∧ appendUnique l f ⊆ the_flags ∧ appendUnique l f ≠ [].
Proof.
  intros Hl Hs Hf. unfold appendUnique. case_decide as H; [split_and!; [done|done|by intros ->; inversion H]|].
  split_and!; [apply NoDup_app; split_and!; [done|set_solver|apply NoDup_singleton]|set_solver|by destruct l].
Qed.

Section compare.
Context (job : ReplayJob) (sub : ReplaySubmission).
Notation index := (submitted_index (su_CheckResults sub)).
Notation step := (compare_step (rq_MachineReadableResults (rj_reqs job)) (hash_index (rq_ArtifactRefs (rj_reqs job))) index).

Definition comparison_of (check : string) : option CheckComparison := (λ r, compareCheck check r (original_hash job check)) <$> index !! check.

(** A step appends the comparison and keeps the flags without duplicates; there is a flag afterwards if there was one or the check is suspicious. *)
Lemma compare_step_spec check comps flags : is_Some (index !! check) → NoDup flags → flags ⊆ the_flags →
  let '(comps', flags') := step (comps, flags) check in
  (∃ c, comparison_of check = Some c ∧ comps' = comps ++ [c]) ∧ NoDup flags' ∧ flags' ⊆ the_flags ∧ (flags' ≠ [] ↔ flags ≠ [] ∨ suspicious job sub check = true).
Proof.
  intros [r Hr] Hnd Hsub. unfold compare_step, comparison_of, suspicious. rewrite Hr. cbn [fmap option_fmap option_map fst snd]. fold (original_hash job check).
  set (cmp := compareCheck check r (original_hash job check)). pose proof (compareCheck_match job r check) as Hm. fold cmp in Hm.
  set (f1 := if decide _ then appendUnique flags _ else flags).
  assert (H1 : NoDup f1 ∧ f1 ⊆ the_flags ∧ (f1 ≠ [] ↔ flags ≠ [] ∨ sr_Pass r && hash_diverges job r check = true)).
  { unfold f1. case_decide as Hd.
    - destruct Hd as (Hf & Hp & Ha & Ho). destruct (appendUnique_ok flags "artifact_hash_divergence" Hnd Hsub ltac:(by left)) as (? & ? & ?). split_and!; [done|done|].
      rewrite Hp. rewrite Hp, Hf in Hm. cbn in Hm |- *. destruct (hash_diverges job r check); [|done]. split; [by right|done].
    - split_and!; [done|done|]. split; [by left|]. intros [H|H]; [done|]. exfalso. apply andb_true_iff in H as [Hp Hh]. apply Hd. rewrite Hp, Hh in Hm. cbn in Hm.
      unfold hash_diverges in Hh. apply bool_decide_eq_true in Hh as (? & ? & ?). done. }
  clearbody f1. destruct H1 as (Hn1 & Hs1 & H1). split; [by eexists|]. set (fl := compareNumericFields _ _ _). destruct (decide (fl = "")) as [->|Hfl].
  - rewrite bool_decide_true by done. cbn [negb]. rewrite orb_false_r. done.
  - rewrite bool_decide_false by done. cbn [negb]. rewrite orb_true_r. unfold fl in *. apply numeric_flag in Hfl. rewrite Hfl.
    destruct (appendUnique_ok f1 "numeric_divergence" Hn1 Hs1 ltac:(right; by left)) as (? & ? & ?). split_and!; [done|done|]. split; [by right|done].
Qed.

Lemma compare_loop checks : ∀ comps flags, (∀ check, check ∈ checks → is_Some (index !! check)) → NoDup flags → flags ⊆ the_flags →
  let '(comps', flags') := foldl step (comps, flags) checks in
  comps' = comps ++ omap comparison_of checks ∧ NoDup flags' ∧ flags' ⊆ the_flags ∧ (flags' ≠ [] ↔ flags ≠ [] ∨ existsb (suspicious job sub) checks = true).
Proof.
  induction checks as [|check checks IH]; intros comps flags Hin Hnd Hsub; cbn [foldl].
  - cbn. rewrite app_nil_r. split_and!; [done|done|done|]. split; [by left|by intros [|]].
  - pose proof (compare_step_spec check comps flags (Hin _ ltac:(by left)) Hnd Hsub) as H. destruct (step (comps, flags) check) as [comps1 flags1]. destruct H as ((c & Hc & ->) & Hn1 & Hs1 & H1).
    pose proof (IH (comps ++ [c]) flags1 (λ x Hx, Hin x ltac:(by right)) Hn1 Hs1) as H. destruct (foldl step _ checks) as [comps2 flags2]. destruct H as (-> & ? & ? & H2).
    split_and!; [|done|done|].
    + cbn. rewrite Hc. by rewrite <- app_assoc.
    + rewrite H2, H1. cbn. rewrite orb_true_iff. naive_solver.
Qed.

Lemma comparisons_spec checks : (∀ check, check ∈ checks → is_Some (index !! check)) →
  let comps := omap comparison_of checks in
  length comps = length checks ∧ length (filter (λ c, cc_Match c = false) comps) = length (filter (λ check, contradicted job sub check = true) checks) ∧
  Forall (λ c, cc_ScoreDelta c ∈ the_deltas ∧ (cc_Match c = false → cc_ScoreDelta c ≠ mkF64 0 1)) comps.
Proof.
  intros Hin. induction checks as [|check checks IH]; [by split_and!|]. destruct (IH ltac:(intros x Hx; apply Hin; by right)) as (H1 & H2 & H3).
  destruct (Hin check ltac:(by left)) as [r Hr]. cbv zeta.
  assert (E : omap comparison_of (check :: checks) = compareCheck check r (original_hash job check) :: omap comparison_of checks) by (cbn; unfold comparison_of at 1; by rewrite Hr).
  rewrite E. split_and!.
  - cbn [length]. by rewrite H1.
  - rewrite !filter_cons. pose proof (compareCheck_match job r check) as Hm.
    assert (Hc : contradicted job sub check = negb (sr_Pass r) || hash_diverges job r check) by (unfold contradicted; by rewrite Hr). rewrite <- Hc in Hm.
    destruct (contradicted job sub check) eqn:Hd; cbn in Hm.
    + rewrite decide_True by done. rewrite decide_True by done. cbn [length]. by rewrite H2.
    + rewrite decide_False by (by rewrite Hm). rewrite decide_False by done. done.
  - constructor; [apply compareCheck_delta|done].
Qed.
End compare.

Lemma missing_checks_spec job sub : missing_checks job sub = [] ↔ ∀ check, check ∈ rq_RequiredChecks (rj_reqs job) → ∃ r, r ∈ su_CheckResults sub ∧ sr_CheckType r = check.
Proof.
  unfold missing_checks. split.
  - intros E check Hc. apply submitted_index_spec. destruct (submitted_index (su_CheckResults sub) !! check) eqn:Hs; [by eexists|]. exfalso.
    assert (H : check ∈ filter (λ check, submitted_index (su_CheckResults sub) !! check = None) (rq_RequiredChecks (rj_reqs job))) by (by apply list_elem_of_filter). rewrite E in H. inversion H.
  - intros H. destruct (filter _ _) as [|check l] eqn:E; [done|]. exfalso.
    assert (Hc : check ∈ filter (λ check, submitted_index (su_CheckResults sub) !! check = None) (rq_RequiredChecks (rj_reqs job))) by (rewrite E; by left).
    apply list_elem_of_filter in Hc as [Hn Hc]. apply H, submitted_index_spec in Hc as [? Hx]. congruence.
Qed.

(** The deltas that occur compare as the code expects. *)
Lemma max_delta_step m x : m ∈ the_deltas → x ∈ the_deltas → (if f64_ltb m x then x else m) ∈ the_deltas ∧ ((m ≠ mkF64 0 1 ∨ x ≠ mkF64 0 1) → (if f64_ltb m x then x else m) ≠ mkF64 0 1).
Proof. unfold the_deltas. intros Hm Hx. repeat (apply elem_of_cons in Hm as [->|Hm] || apply elem_of_cons in Hx as [->|Hx] || by inversion Hm || by inversion Hx); vm_compute; split; set_solver. Qed.

Lemma max_delta_spec l : ∀ m, m ∈ the_deltas → Forall (λ c, cc_ScoreDelta c ∈ the_deltas) l →
  let m' := foldl (λ m c, if f64_ltb m (cc_ScoreDelta c) then cc_ScoreDelta c else m) m l in
  m' ∈ the_deltas ∧ ((m ≠ mkF64 0 1 ∨ ∃ c, c ∈ l ∧ cc_ScoreDelta c ≠ mkF64 0 1) → m' ≠ mkF64 0 1).
Proof.
  induction l as [|c l IH]; intros m Hm Hl; cbn; [split; [done|by intros [H|(c & H & _)]; [|inversion H]]|].
  apply Forall_cons in Hl as [Hc Hl]. destruct (max_delta_step m (cc_ScoreDelta c) Hm Hc) as [H1 H2]. destruct (IH _ H1 Hl) as [H3 H4]. split; [done|].
  intros [H|(c' & Hc' & H)]; [apply H4; left; apply H2; by left|]. apply elem_of_cons in Hc' as [->|Hc']; [apply H4; left; apply H2; by right|apply H4; right; by exists c'].
Qed.

(** Severities: one or two flags make a mismatch slashable, and nothing else. *)
Lemma flags_at_most_two l : NoDup l → l ⊆ the_flags → (length l <= 2)%nat.
Proof. intros Hnd Hs. apply (submseteq_length l the_flags). by apply NoDup_submseteq. Qed.

Lemma severity_spec {A} (l : list A) : (length l <= 2)%nat →
  f64_leb (f64_round 9 10) (add_flags l (mkF64 0 1)) = false ∧ f64_leb (f64_round 9 10) (add_flags l (f64_round 6 10)) = false ∧
  f64_leb (f64_round 9 10) (add_flags l (f64_round 8 10)) = negb (is_empty l).
Proof. destruct l as [|a [|b [|c l]]]; cbn [length]; intros H; [vm_compute; done|vm_compute; done|vm_compute; done|lia]. Qed.

(** * Lemmas: enforcement *)

(** The calls the enforcer makes. *)
Inductive Call :=
  | CStatus (taskID status jobID : string) | CGenStatus (taskID status : string) | CGeneration (taskID agentID resultHash title : string) (value : Z)
  | CSlash (validatorID offense : string) | CCanary (actorID : string) (pass : bool).

(** An environment that records the calls made of it. *)
Definition logged_env {W} (env : ReplayEnv W) : ReplayEnv (W * list Call) := {|
  env_SetReplayStatus t st j wl := let '(w, ok) := env_SetReplayStatus t st j wl.1 in ((w, wl.2 ++ [CStatus t st j]), ok);
  env_SetGenerationStatus t st wl := let '(w, ok) := env_SetGenerationStatus t st wl.1 in ((w, wl.2 ++ [CGenStatus t st]), ok);
  env_RecordGeneration t a h title v wl := let '(w, ok) := env_RecordGeneration t a h title v wl.1 in ((w, wl.2 ++ [CGeneration t a h title v]), ok);
  env_Slash id off wl := let '(w, r) := env_Slash id off wl.1 in ((w, wl.2 ++ [CSlash id off]), r);
  env_CanaryTask := env_CanaryTask;
  env_GetCanaryByTaskID t wl := env_GetCanaryByTaskID t wl.1;
  env_Evaluate c actor role pass wl := (env_Evaluate c actor role pass wl.1, wl.2 ++ [CCanary actor pass]);
  env_GetReplayDetails t wl := env_GetReplayDetails t wl.1;
  env_SelectReplayExecutor c a k wl := let '(w, r) := env_SelectReplayExecutor c a k wl.1 in ((w, wl.2), r);
|}.

(** An outcome that was applied: with the details of the task, whether the task was found, and whether it was a canary. *)
Record Applied := mkApplied { ap_outcome : ReplayOutcome; ap_details : ReplayDetails; ap_found : bool; ap_canary : bool }.

Definition job_of (a : Applied) : string := ro_JobID (ap_outcome a).

(** The calls for one applied outcome: the status of the task; then, by the verdict, the slash, and the generation credit, released only on a completed replay. *)
Definition calls_for (en : ReplayEnforcer) (a : Applied) : list Call :=
  let o := ap_outcome a in let d := ap_details a in let action := rv_Action (EvaluateOutcome o) in
  let '(st, gst) := verdict_statuses action in
  CStatus (ro_TaskID o) st (ro_JobID o) ::
  (if ap_found a then
     (if bool_decide (action = "slash_recommended") && en_slashExec en && negb (bool_decide (ro_ReplayerID o = "")) then [CSlash (ro_ReplayerID o) "fraudulent_approval"] else []) ++
     (if ap_canary a then [CCanary (ro_ReplayerID o) (bool_decide (ro_Status o = "match"))] else []) ++
     (if rd_generationEligible d then
        CGenStatus (ro_TaskID o) gst ::
        (if bool_decide (st = "replay_complete") && en_genTrigger en then [CGeneration (ro_TaskID o) (rd_agentID d) (rd_resultHash d) (rd_title d) (rd_verifiedValue d)] else [])
      else [])
   else []).

Section effects.
Context {St : Type} {rst : ReplayStore St} {laws : ReplayStoreLaws St} {jobs : JsonOf ReplayJob} {jobs_json : ReplayJobJson} {outcomes : JsonOf ReplayOutcome} {W : Type} (env : ReplayEnv W).
#[local] Existing Instance logged_env.
Implicit Types (s : St) (wl : W * list Call) (en : ReplayEnforcer).

Lemma enforce_slash_log en o action wl : (enforce_slash (env := logged_env env) en o action wl).2 = wl.2 ++
  (if bool_decide (action = "slash_recommended") && en_slashExec en && negb (bool_decide (ro_ReplayerID o = "")) then [CSlash (ro_ReplayerID o) "fraudulent_approval"] else []).
Proof. unfold enforce_slash. destruct (_ && _ && _); [|by rewrite app_nil_r]. cbn. by destruct (env_Slash _ _ _). Qed.

Lemma enforce_canary_log en o wl : ∃ canary : bool, (enforce_canary (env := logged_env env) en o wl).2 = wl.2 ++ (if canary then [CCanary (ro_ReplayerID o) (bool_decide (ro_Status o = "match"))] else []).
Proof.
  unfold enforce_canary. destruct (en_canary en); [|exists false; by rewrite app_nil_r]. cbn. destruct (env_GetCanaryByTaskID _ _); [by exists true|exists false; by rewrite app_nil_r].
Qed.

Lemma enforce_generation_log en o d st gst wl : (enforce_generation (env := logged_env env) en o d st gst wl).2 = wl.2 ++
  (if rd_generationEligible d then CGenStatus (ro_TaskID o) gst ::
     (if bool_decide (st = "replay_complete") && en_genTrigger en then [CGeneration (ro_TaskID o) (rd_agentID d) (rd_resultHash d) (rd_title d) (rd_verifiedValue d)] else []) else []).
Proof.
  unfold enforce_generation. destruct (rd_generationEligible d); [|by rewrite app_nil_r]. cbn. destruct (env_SetGenerationStatus _ _ _) as [w ok]. cbn.
  destruct (_ && _); [|done]. cbn. destruct (env_RecordGeneration _ _ _ _ _ _). cbn. by rewrite <- app_assoc.
Qed.

(** A job that is stored. *)
Definition stored_job s (id : string) (job : ReplayJob) : Prop := ∃ data, rs_jobs s !! id = Some data ∧ json_unmarshal data = Some job.

Definition jobs_ok s : Prop := ∀ id data, rs_jobs s !! id = Some data → ∃ job, json_unmarshal (V := ReplayJob) data = Some job ∧ rj_ID job = id.

(** Its job is in a final state. *)
Definition job_closed s (id : string) : Prop := ∃ job, stored_job s id job ∧ job_terminal (rj_Status job) = true.

Lemma RecordOutcome_fail o s s' e : jobs_ok s → RecordOutcome o s = (s', Some e) → rs_jobs s' = rs_jobs s ∧ (∀ id, job_closed s id → rs_outcomes s' !! id = rs_outcomes s !! id).
Proof.
  intros Hok. unfold RecordOutcome. destruct (ValidateOutcome o s) as [e0|] eqn:Hv; [by intros [= <- <-]|]. intros E.
  assert (Hopen : ¬ job_closed s (ro_JobID o)).
  { intros (job & (data & Hd & Hj) & Ht). unfold ValidateOutcome in Hv. case_decide; [done|]. destruct (negative_delta _); [done|]. rewrite rs_get_job, Hd, Hj, Ht in Hv. done. }
  unfold persist_outcome in E. destruct (json_marshal o) as [data|]; [|by injection E as <- _]. destruct (PutReplayOutcome _ _ _) as [s1 ok] eqn:Ho.
  apply rs_put_outcome in Ho as [Ho Hj]. assert (Ho' : ∀ id, job_closed s id → rs_outcomes s1 !! id = rs_outcomes s !! id).
  { intros id Hid. rewrite Ho. destruct ok; [|done]. rewrite lookup_insert_ne; [done|]. intros <-. done. }
  destruct ok; cbn [negb] in E; [|injection E as <- _; done]. destruct (GetReplayJob _ _) as [jd|]; [|injection E as <- _; done].
  destruct (json_unmarshal jd) as [job|]; [|injection E as <- _; done]. destruct (json_marshal _) as [up|]; [|injection E as <- _; done].
  destruct (PutReplayJob _ _ _) as [s2 ok] eqn:Hp. apply rs_put_job in Hp as [Hp1 Hp2]. destruct ok; [done|]. injection E as <- _. rewrite Hp1, Hp2. done.
Qed.

Lemma terminal_iff st : job_terminal st = true ↔ st ∈ ["completed"; "failed"].
Proof. unfold job_terminal. rewrite orb_true_iff, !bool_decide_eq_true, elem_of_cons, list_elem_of_singleton. done. Qed.

Lemma RecordOutcome_ok o s s' : jobs_ok s → RecordOutcome o s = (s', None) → ∃ job data,
  stored_job s (ro_JobID o) job ∧ job_terminal (rj_Status job) = false ∧
  (∃ job', stored_job s' (ro_JobID o) job' ∧ rj_ID job' = ro_JobID o ∧ job_terminal (rj_Status job') = true) ∧
  (∀ id, id ≠ ro_JobID o → rs_jobs s' !! id = rs_jobs s !! id ∧ rs_outcomes s' !! id = rs_outcomes s !! id) ∧
  json_marshal o = Some data ∧ rs_outcomes s' !! ro_JobID o = Some data.
Proof.
  intros Hok. unfold RecordOutcome. destruct (ValidateOutcome o s) as [e0|] eqn:Hv; [done|]. intros E. unfold ValidateOutcome in Hv. case_decide; [done|]. destruct (negative_delta _); [done|].
  rewrite rs_get_job in Hv. destruct (rs_jobs s !! ro_JobID o) as [jd|] eqn:Hjd; [|done]. destruct (Hok _ _ Hjd) as (job & Hj & Hid). rewrite Hj in Hv. destruct (job_terminal (rj_Status job)) eqn:Ht; [done|].
  unfold persist_outcome in E. destruct (json_marshal o) as [data|]; [|done]. destruct (PutReplayOutcome _ _ _) as [s1 ok] eqn:Ho. apply rs_put_outcome in Ho as [Ho Hjobs]. destruct ok; cbn [negb] in E; [|done].
  rewrite rs_get_job, Hjobs, Hjd, Hj in E. destruct (json_marshal (job_with_status _ job)) as [up|] eqn:Hup; [|done]. destruct (PutReplayJob _ _ _) as [s2 ok] eqn:Hp. apply rs_put_job in Hp as [Hp1 Hp2].
  destruct ok; [|done]. injection E as <-. rewrite Hid, Hjobs in Hp1. exists job, data. split_and!; [by exists jd|done| | |done|].
  - set (st := if decide _ then _ else _) in *. assert (Hcl : st ∈ ["completed"; "failed"]) by (unfold st; destruct (decide _); [right|]; left).
    destruct (job_json (job_with_status st job) up) as (job' & Hu & Hi & Hs); [by apply (job_id_parsed jd job)|by right|done|].
    exists job'. split_and!; [exists up; by rewrite Hp1, lookup_insert_eq|by rewrite Hi|]. rewrite Hs. cbn [rj_Status job_with_status]. by apply terminal_iff.
  - intros id Hne. rewrite Hp1, Hp2, Ho, !lookup_insert_ne by done. done.
  - by rewrite Hp2, Ho, lookup_insert_eq.
Qed.

(** What happens between two states, with the jobs scheduled and the outcomes applied on the way. *)
Record evolves en (ids : list string) (applied : list Applied) s (l : list Call) s' (l' : list Call) : Prop := {
  ev_ok : jobs_ok s';
  ev_closed id : job_closed s id → rs_jobs s' !! id = rs_jobs s !! id ∧ rs_outcomes s' !! id = rs_outcomes s !! id;
  ev_dom id : is_Some (rs_jobs s' !! id) → is_Some (rs_jobs s !! id) ∨ id ∈ ids;
  ev_log : l' = l ++ concat (calls_for en <$> applied);
  ev_nodup : NoDup (job_of <$> applied);
  ev_applied a : a ∈ applied → ¬ job_closed s (job_of a) ∧ job_closed s' (job_of a) ∧ ∃ data, json_marshal (ap_outcome a) = Some data ∧ rs_outcomes s' !! job_of a = Some data;
}.

Lemma job_closed_same s s' id : rs_jobs s' !! id = rs_jobs s !! id → job_closed s id → job_closed s' id.
Proof. intros E (job & (data & Hd & Hj) & Ht). exists job. split; [|done]. exists data. by rewrite E. Qed.

Lemma evolves_refl en s l : jobs_ok s → evolves en [] [] s l s l.
Proof. intros H. split; [done|done|by left|by rewrite app_nil_r|constructor|intros a Ha; inversion Ha]. Qed.

Lemma evolves_trans en ids1 ids2 ap1 ap2 s l s1 l1 s2 l2 : evolves en ids1 ap1 s l s1 l1 → evolves en ids2 ap2 s1 l1 s2 l2 → evolves en (ids1 ++ ids2) (ap1 ++ ap2) s l s2 l2.
Proof.
  intros [Ho1 Hc1 Hd1 Hl1 Hn1 Ha1] [Ho2 Hc2 Hd2 Hl2 Hn2 Ha2].
  assert (Hcl : ∀ id, job_closed s id → job_closed s1 id) by (intros id Hid; by apply (job_closed_same s s1), Hid; apply Hc1).
  split; [done| | | | |].
  - intros id Hid. destruct (Hc1 id Hid) as [E1 E2], (Hc2 id (Hcl id Hid)) as [E3 E4]. split; congruence.
  - intros id [H|H]%Hd2; [destruct (Hd1 id H); [by left|right; apply elem_of_app; by left]|right; apply elem_of_app; by right].
  - by rewrite Hl2, Hl1, fmap_app, concat_app, app_assoc.
  - rewrite fmap_app. apply NoDup_app. split_and!; [done| |done]. intros id (a & -> & Ha)%list_elem_of_fmap (b & E & Hb)%list_elem_of_fmap.
    apply Ha1 in Ha as (_ & Ha & _). apply Ha2 in Hb as (Hb & _). by rewrite <- E in Hb.
  - intros a [Ha|Ha]%elem_of_app.
    + destruct (Ha1 a Ha) as (H1 & H2 & data & H3 & H4). destruct (Hc2 _ H2) as [E1 E2]. split_and!; [done|by apply (job_closed_same s1)|]. exists data. by rewrite E2.
    + destruct (Ha2 a Ha) as (H1 & H2 & H3). split_and!; [|done|done]. intros H. by apply H1, Hcl.
Qed.

(** One outcome: refused, or applied to a job that was open. *)
Lemma process_outcome_spec en out d s w l : jobs_ok s →
  let '(s', (w', l'), (v, e)) := ProcessReplayOutcome (env := logged_env env) en out d s (w, l) in
  ∃ applied, evolves en [] applied s l s' l' ∧ (applied = [] ∨ ∃ a, applied = [a] ∧ out = Some (ap_outcome a) ∧ ap_details a = d ∧ v = Some (EvaluateOutcome (ap_outcome a))).
Proof.
  intros Hok. unfold ProcessReplayOutcome. destruct out as [o|]; [|exists []; split; [by apply evolves_refl|by left]]. destruct (RecordOutcome o s) as [s1 [e|]] eqn:Hr.
  - apply RecordOutcome_fail in Hr as [Hj Ho]; [|done]. exists []. split; [|by left].
    split; [|intros id Hid; split; [by rewrite Hj|by apply Ho]|intros id; rewrite Hj; by left|by rewrite app_nil_r|constructor|intros a Ha; inversion Ha]. intros id data. rewrite Hj. apply Hok.
  - apply RecordOutcome_ok in Hr as (job & data & Hst & Hopen & Hst' & Hoth & Hm & Ho); [|done].
    assert (Hev : ∀ found canary l', l' = l ++ calls_for en (mkApplied o d found canary) → evolves en [] [mkApplied o d found canary] s l s1 l').
    { intros found canary l' ->. assert (Hnc : ¬ job_closed s (ro_JobID o)).
      { intros (job' & (d' & H1 & H2) & Ht). destruct Hst as (d1 & H3 & H4). congruence. }
      split.
      - intros id dd Hd. destruct (decide (id = ro_JobID o)) as [->|Hne]; [|destruct (Hoth id Hne) as [E _]; rewrite E in Hd; by apply Hok].
        destruct Hst' as (job' & (d1 & E1 & E2) & Hi & _). rewrite Hd in E1. injection E1 as ->. by exists job'.
      - intros id Hid. apply Hoth. by intros ->.
      - intros id Hs. left. destruct (decide (id = ro_JobID o)) as [->|Hne]; [destruct Hst as (d1 & -> & _); by eexists|]. by rewrite (proj1 (Hoth id Hne)) in Hs.
      - cbn [fmap list_fmap concat]. by rewrite app_nil_r.
      - apply NoDup_singleton.
      - intros a ->%list_elem_of_singleton. split_and!; [done| |by exists data]. destruct Hst' as (job' & H1 & _ & H2). by exists job'. }
    destruct (verdict_statuses (rv_Action (EvaluateOutcome o))) as [st gst] eqn:Hvs. cbn [env_SetReplayStatus logged_env fst snd].
    destruct (env_SetReplayStatus _ _ _ w) as [w1 ok]. destruct ok; cbn [negb].
    + set (wl1 := enforce_slash _ _ _ _). pose proof (enforce_slash_log en o (rv_Action (EvaluateOutcome o)) (w1, l ++ [CStatus (ro_TaskID o) st (ro_JobID o)])) as H1. fold wl1 in H1.
      destruct (enforce_canary_log en o wl1) as [canary H2]. set (wl2 := enforce_canary _ _ _) in *. pose proof (enforce_generation_log en o d st gst wl2) as H3.
      destruct (enforce_generation _ _ _ _ _ wl2) as [w3 l3]. cbn [snd] in H3. exists [mkApplied o d true canary]. split; [|right; by eexists]. apply Hev.
      rewrite H3, H2, H1. cbn [snd]. unfold calls_for. cbn [ap_outcome ap_details ap_found ap_canary]. rewrite Hvs. rewrite <- !app_assoc. done.
    + exists [mkApplied o d false false]. split; [|right; by eexists]. apply Hev. unfold calls_for. cbn [ap_outcome ap_found]. by rewrite Hvs.
Qed.
End effects.

(** * Runs *)

(** The entry points: the decision on a task and its schedule, a submission (POST /v1/replay/submit), a finished outcome (POST
    /v1/replay/outcome) and a poll of the runner. *)
Inductive replay_op :=
  | RDecide (taskID agentID category : string) (confidence : F64) (eligible challenged : bool) (flags : list string) (count : Z) (u1 u2 u3 : F64) (now : Z)
  | RSchedule (taskID packetHash category policyVersion : string) (reqs : option ReplayRequirements) (reason agentID : string) (now : Z)
  | RSubmit (now : Z) (sub : ReplaySubmission)
  | ROutcome (o : option ReplayOutcome) (d : ReplayDetails)
  | RPoll (now : Z).

Section runs.
Context {ord : RangeOrder} {St : Type} {rst : ReplayStore St} {jobs : JsonOf ReplayJob} {outcomes : JsonOf ReplayOutcome} {W : Type} {env : ReplayEnv W}.

Definition replay_exec (r : ReplayRunner) (op : replay_op) (x : ReplayCoordinator * St * W) : ReplayCoordinator * St * W :=
  let '(c, s, w) := x in
  match op with
  | RDecide t a k conf elig chal flags count u1 u2 u3 now => ((ShouldReplay t a k conf elig chal flags count u1 u2 u3 now c).1, s, w)
  | RSchedule t p k v reqs reason a now => let '(c, s, _) := ScheduleReplay t p k v reqs reason a now c s in (c, s, w)
  | RSubmit now sub => let '(s, w, _) := sp_Process (rr_taskDetails r) (rr_enforcer r) now sub s w in (c, s, w)
  | ROutcome o d => let '(s, w, _) := ProcessReplayOutcome (rr_enforcer r) o d s w in (c, s, w)
  | RPoll now => let '(s, w) := processOnce r now (s, w) in (c, s, w)
  end.

Fixpoint replay_run (r : ReplayRunner) (ops : list replay_op) (x : ReplayCoordinator * St * W) : ReplayCoordinator * St * W :=
  match ops with [] => x | op :: ops => replay_run r ops (replay_exec r op x) end.
End runs.

(** The IDs of the jobs that an operation schedules. *)
Definition op_schedules (op : replay_op) : list string := match op with RSchedule t p _ _ _ _ _ now => [replay_job_id t p now] | _ => [] end.

Section run_facts.
Context {ord : RangeOrder} {St : Type} {rst : ReplayStore St} {laws : ReplayStoreLaws St} {jobs : JsonOf ReplayJob} {jobs_json : ReplayJobJson} {outcomes : JsonOf ReplayOutcome}
  {W : Type} (env : ReplayEnv W).
Implicit Types (s : St) (wl : W * list Call) (en : ReplayEnforcer).
Notation evolves := (evolves (jobs := jobs)).

Lemma submission_evolves wired en now sub s w l : jobs_ok s →
  let '(s', (w', l'), _) := sp_Process (env := logged_env env) wired en now sub s (w, l) in ∃ applied, evolves en [] applied s l s' l'.
Proof.
  intros Hok. assert (Hsame : ∃ applied, evolves en [] applied s l s l) by (exists []; by apply evolves_refl). unfold sp_Process. destruct (GetReplayJob _ _) as [data|]; [|done].
  destruct (json_unmarshal data) as [job|]; [|done]. destruct (job_terminal _); [done|]. case_decide as Hx; [done|]. destruct (validateBinding job sub); [done|]. case_decide as Hy; [done|].
  pose proof (process_outcome_spec env en (Some (Compare now job sub)) (details_of (env := logged_env env) wired (su_TaskID sub) (w, l)) s w l Hok) as H.
  destruct (ProcessReplayOutcome _ _ _ _ _) as [[s' [w' l']] [v e]]. destruct H as (applied & H & _). destruct e, v; by exists applied.
Qed.

Lemma job_evolves (r : ReplayRunner) now job s w l : jobs_ok s →
  let '(s', (w', l')) := processJob (env := logged_env env) r now job (s, (w, l)) in ∃ applied, evolves (rr_enforcer r) [] applied s l s' l'.
Proof.
  intros Hok. unfold processJob. case_decide as Hx; [exists []; by apply evolves_refl|].
  assert (Ha : ∃ w1 job1, assign_executor (env := logged_env env) r job (w, l) = ((w1, l), job1)).
  { unfold assign_executor. destruct (rr_assigner r); [|by eexists _, _]. cbn. destruct (env_SelectReplayExecutor _ _ _ _) as [w1 [x|]]; by eexists _, _. }
  destruct Ha as (w1 & job1 & ->). destruct (rr_executor r now job1) as [e|o]; [exists []; by apply evolves_refl|].
  pose proof (process_outcome_spec env (rr_enforcer r) o (details_of (env := logged_env env) (rr_taskDetails r) (rj_TaskID job1) (w1, l)) s w1 l Hok) as H.
  destruct (ProcessReplayOutcome _ _ _ _ _) as [[s' [w' l']] [v e]]. destruct H as (applied & H & _). by exists applied.
Qed.

Lemma poll_evolves (r : ReplayRunner) now s w l : jobs_ok s →
  let '(s', (w', l')) := processOnce (env := logged_env env) r now (s, (w, l)) in ∃ applied, evolves (rr_enforcer r) [] applied s l s' l'.
Proof.
  intros Hok. unfold processOnce. destruct (PendingJobs _) as [js|]; [|exists []; by apply evolves_refl]. revert s w l Hok. induction js as [|job js IH]; intros s w l Hok; cbn [foldl]; [exists []; by apply evolves_refl|].
  pose proof (job_evolves r now job s w l Hok) as H. destruct (processJob r now job (s, (w, l))) as [s1 [w1 l1]]. destruct H as [ap1 H1].
  pose proof (IH s1 w1 l1 (ev_ok _ _ _ _ _ _ _ H1)) as H. destruct (foldl _ _ js) as [s2 [w2 l2]]. destruct H as [ap2 H2]. exists (ap1 ++ ap2). by apply (evolves_trans _ [] [] ap1 ap2 s l s1 l1).
Qed.

Lemma scheduled_job_id t p k v reqs reason a now c : rj_ID (scheduled_job t p k v reqs reason a now c) = replay_job_id t p now.
Proof. unfold scheduled_job. case_decide; by destruct (rc_lastCalibDecision c). Qed.

Lemma scheduled_job_status t p k v reqs reason a now c : rj_Status (scheduled_job t p k v reqs reason a now c) = "pending".
Proof. unfold scheduled_job. case_decide; by destruct (rc_lastCalibDecision c). Qed.

Lemma schedule_evolves en t p k v reqs reason a now c s l : jobs_ok s → rs_jobs s !! replay_job_id t p now = None →
  let '(c', s', _) := ScheduleReplay t p k v reqs reason a now c s in evolves en [replay_job_id t p now] [] s l s' l.
Proof.
  intros Hok Hfresh. assert (Hev : ∀ s', rs_outcomes s' = rs_outcomes s → (rs_jobs s' = rs_jobs s ∨ ∃ data job, json_unmarshal (V := ReplayJob) data = Some job ∧ rj_ID job = replay_job_id t p now ∧ rs_jobs s' = <[replay_job_id t p now := data]> (rs_jobs s)) →
    evolves en [replay_job_id t p now] [] s l s' l).
  { intros s' Ho Hj. assert (Hjobs : ∀ id, id ≠ replay_job_id t p now → rs_jobs s' !! id = rs_jobs s !! id).
    { intros id Hne. destruct Hj as [->|(data & job & _ & _ & ->)]; [done|by rewrite lookup_insert_ne]. }
    split; [| | |by rewrite app_nil_r|constructor|intros x Hx; inversion Hx].
    - intros id data Hd. destruct Hj as [Hj|(data' & job & Hu & Hid & Hj)]; rewrite Hj in Hd; [by apply Hok|].
      apply lookup_insert_Some in Hd as [[<- <-]|[_ Hd]]; [by exists job|by apply Hok].
    - intros id (job & (data & Hd & _) & _). split; [apply Hjobs; intros ->; congruence|by rewrite Ho].
    - intros id Hs. destruct (decide (id = replay_job_id t p now)) as [->|Hne]; [right; by left|left]. by rewrite <- Hjobs. }
  unfold ScheduleReplay. destruct (json_marshal _) as [data|] eqn:Hm; [|apply Hev; [done|by left]]. rewrite scheduled_job_id. destruct (PutReplayJob _ _ _) as [s1 ok] eqn:Hp. apply rs_put_job in Hp as [Hj Ho].
  destruct ok; (apply Hev; [done|]); [right|by left]. destruct (job_json (scheduled_job t p k v reqs reason a now c) data) as (job' & Hu & Hi & _); [rewrite scheduled_job_id; apply job_id_hex|rewrite scheduled_job_status; by left|done|].
  exists data, job'. split_and!; [done|by rewrite Hi, scheduled_job_id|done].
Qed.

Lemma exec_evolves (r : ReplayRunner) op c s w l : jobs_ok s → (∀ id, id ∈ op_schedules op → rs_jobs s !! id = None) →
  let '(c', s', (w', l')) := replay_exec (env := logged_env env) r op (c, s, (w, l)) in ∃ applied, evolves (rr_enforcer r) (op_schedules op) applied s l s' l'.
Proof.
  intros Hok Hfresh. destruct op as [t a k conf elig chal flags count u1 u2 u3 now|t p k v reqs reason a now|now sub|o d|now]; cbn [replay_exec op_schedules].
  - exists []. by apply evolves_refl.
  - pose proof (schedule_evolves (rr_enforcer r) t p k v reqs reason a now c s l Hok (Hfresh _ ltac:(by left))) as H. destruct (ScheduleReplay _ _ _ _ _ _ _ _ _ _) as [[c' s'] j]. by exists [].
  - pose proof (submission_evolves (rr_taskDetails r) (rr_enforcer r) now sub s w l Hok) as H. by destruct (sp_Process _ _ _ _ _ _) as [[s' [w' l']] res].
  - pose proof (process_outcome_spec env (rr_enforcer r) o d s w l Hok) as H. destruct (ProcessReplayOutcome _ _ _ _ _) as [[s' [w' l']] [v e]]. destruct H as (applied & H & _). by exists applied.
  - pose proof (poll_evolves r now s w l Hok) as H. by destruct (processOnce r now (s, (w, l))) as [s' [w' l']].
Qed.

Lemma run_evolves (r : ReplayRunner) ops : ∀ c s w l, jobs_ok s → NoDup (ops ≫= op_schedules) → (∀ id, id ∈ ops ≫= op_schedules → rs_jobs s !! id = None) →
  let '(c', s', (w', l')) := replay_run (env := logged_env env) r ops (c, s, (w, l)) in ∃ applied, evolves (rr_enforcer r) (ops ≫= op_schedules) applied s l s' l'.
Proof.
  induction ops as [|op ops IH]; intros c s w l Hok Hnd Hfresh; cbn [replay_run]; [exists []; by apply evolves_refl|].
  change ((op :: ops) ≫= op_schedules) with (op_schedules op ++ (ops ≫= op_schedules)) in *. apply NoDup_app in Hnd as (Hnd1 & Hdis & Hnd2).
  pose proof (exec_evolves r op c s w l Hok ltac:(intros id Hid; apply Hfresh, elem_of_app; by left)) as H. destruct (replay_exec r op (c, s, (w, l))) as [[c1 s1] [w1 l1]]. destruct H as [ap1 H1].
  assert (Hfresh1 : ∀ id, id ∈ ops ≫= op_schedules → rs_jobs s1 !! id = None).
  { intros id Hid. destruct (rs_jobs s1 !! id) eqn:Hs; [exfalso|done]. destruct (ev_dom _ _ _ _ _ _ _ H1 id ltac:(by rewrite Hs)) as [[x Hx]|Hin]; [|by apply (Hdis id)].
    rewrite Hfresh in Hx; [done|]. apply elem_of_app. by right. }
  pose proof (IH c1 s1 w1 l1 (ev_ok _ _ _ _ _ _ _ H1) Hnd2 Hfresh1) as H. destruct (replay_run r ops (c1, s1, (w1, l1))) as [[c2 s2] [w2 l2]]. destruct H as [ap2 H2].
  exists (ap1 ++ ap2). by apply (evolves_trans _ _ _ ap1 ap2 s l s1 l1).
Qed.
End run_facts.

Lemma no_negative_delta l : Forall (λ c, cc_ScoreDelta c ∈ the_deltas ∧ (cc_Match c = false → cc_ScoreDelta c ≠ mkF64 0 1)) l → negative_delta l = None.
Proof.
  intros H. unfold negative_delta. destruct (list_find _ l) as [[i c]|] eqn:E; [exfalso|done]. apply list_find_Some in E as (Hi & Hc & _).
  apply list_elem_of_lookup_2 in Hi. rewrite Forall_forall in H. destruct (H c Hi) as [Hd _]. unfold the_deltas in Hd.
  repeat (apply elem_of_cons in Hd as [Hd|Hd]; [rewrite Hd in Hc; by vm_compute in Hc|]). inversion Hd.
Qed.

Lemma elem_of_filter_nonempty {A} (P : A → Prop) `{!∀ x, Decision (P x)} l : length (filter P l) ≠ 0%nat → ∃ x, x ∈ l ∧ P x.
Proof. destruct (filter P l) as [|x k] eqn:E; [done|]. intros _. exists x. assert (Hx : x ∈ filter P l) by (rewrite E; by left). by apply list_elem_of_filter in Hx as [? ?]. Qed.

(** The verdict on an outcome whose comparisons and flags come from [Compare]. *)
Lemma verdict_of_comparisons now (job : ReplayJob) (submitter : string) comps flags bad total (anomaly : bool) :
  let o := mkOutcome (rj_ID job) (rj_TaskID job) (deriveStatus comps) comps flags now submitter "" in
  length comps = total → length (filter (λ c, cc_Match c = false) comps) = bad →
  Forall (λ c, cc_ScoreDelta c ∈ the_deltas ∧ (cc_Match c = false → cc_ScoreDelta c ≠ mkF64 0 1)) comps → NoDup flags → flags ⊆ the_flags → anomaly = negb (is_empty flags) →
  rv_MismatchCount (EvaluateOutcome o) = Z.of_nat bad ∧ negative_delta (ro_Comparisons o) = None ∧
  rv_Action (EvaluateOutcome o) = if decide (bad = 0)%nat then "no_action" else if decide (total < 2 * bad)%nat then (if anomaly then "slash_recommended" else "open_challenge") else "open_challenge".
Proof.
  intros o Hlen Hbad Hdel Hn Hs Ha. pose proof (flags_at_most_two flags Hn Hs) as Hf. destruct (severity_spec flags Hf) as (S0 & S6 & S8).
  split; [unfold EvaluateOutcome; destruct (status_verdict o) as [[? ?] ?]; cbn; unfold MismatchCount; by rewrite <- Hbad|]. split; [by apply no_negative_delta|].
  assert (Hst : ro_Status o = if decide (bad = 0)%nat then "match" else if decide (total < 2 * bad)%nat then "mismatch" else "partial_match").
  { unfold o. cbn [ro_Status]. unfold deriveStatus. destruct comps as [|c comps]; [subst; cbn; done|]. rewrite Hbad, Hlen. repeat case_decide; try done; lia. }
  unfold EvaluateOutcome, status_verdict. rewrite Hst. destruct (decide (bad = 0)%nat) as [Hb|Hb]; [rewrite decide_True by done; cbn [ro_AnomalyFlags o]; by rewrite S0|].
  destruct (decide (total < 2 * bad)%nat) as [Ht|Ht].
  - rewrite decide_False by done. rewrite decide_False by done. rewrite decide_True by done. cbn [ro_AnomalyFlags o rv_Action]. rewrite S8, <- Ha. by destruct anomaly.
  - rewrite decide_False by done. rewrite decide_True by done. destruct (elem_of_filter_nonempty (λ c, cc_Match c = false) comps ltac:(lia)) as (c & Hc & Hcm).
    assert (Hmax : maxScoreDelta o ∈ the_deltas ∧ maxScoreDelta o ≠ mkF64 0 1).
    { unfold maxScoreDelta. cbn [ro_Comparisons o]. destruct (max_delta_spec comps (mkF64 0 1) ltac:(unfold the_deltas; set_solver)) as [H1 H2].
      - eapply Forall_impl; [exact Hdel|]. by intros ? [? _].
      - split; [done|]. apply H2. right. exists c. split; [done|]. rewrite Forall_forall in Hdel. by apply Hdel. }
    destruct Hmax as [H1 H2]. assert (H3 : f64_ltb (maxScoreDelta o) (f64_round 15 100) = false ∧ f64_ltb (f64_round 3 10) (maxScoreDelta o) = true).
    { unfold the_deltas in H1. apply elem_of_cons in H1 as [->|H1]; [by vm_compute|]. apply elem_of_cons in H1 as [->|H1]; [by vm_compute|]. by apply list_elem_of_singleton in H1. }
    destruct H3 as [-> ->]. rewrite andb_false_r, orb_true_r. cbn [ro_AnomalyFlags o rv_Action]. by rewrite S6.
Qed.

(** * The store of the node *)

Section node_store.
Context {D : Type} {bg : Badger D} {bg_laws : BadgerLaws D} {reads : BadgerReads D}.

#[global] Instance badger_replay_store : ReplayStore D := {|
  PutReplayJob := st_PutReplayJob; GetReplayJob := st_GetReplayJob; AllReplayJobs := st_AllReplayJobs;
  PutReplayOutcome := st_PutReplayOutcome; GetReplayOutcome := st_GetReplayOutcome; AllReplayOutcomes := st_AllReplayOutcomes |}.

Lemma put_tables p q id data (d d' : D) ok : apart q p = true → kv_put p id data d = (d', ok) →
  kv_table p (bg_view d') = (if ok then <[id := data]> (kv_table p (bg_view d)) else kv_table p (bg_view d)) ∧ kv_table q (bg_view d') = kv_table q (bg_view d).
Proof. intros Ha E%kv_put_table. rewrite E. destruct ok; [|done]. split; [apply table_insert|by apply table_insert_apart]. Qed.

#[global] Instance badger_replay_laws : ReplayStoreLaws D := {|
  rs_jobs d := kv_table prefixReplayJob (bg_view d);
  rs_outcomes d := kv_table prefixReplayOutcome (bg_view d);
  rs_put_job id data s s' ok := put_tables prefixReplayJob prefixReplayOutcome id data s s' ok eq_refl;
  rs_put_outcome id data s s' ok := put_tables prefixReplayOutcome prefixReplayJob id data s s' ok eq_refl;
  rs_get_job id s := kv_get_table prefixReplayJob id s (bg_reads _ _);
  rs_get_outcome id s := kv_get_table prefixReplayOutcome id s (bg_reads _ _);
  rs_all_jobs := kv_all_table prefixReplayJob;
  rs_all_outcomes := kv_all_table prefixReplayOutcome |}.
End node_store.

(** * Properties *)

(** C31: the verdict on a submission is exact.  If every required check was submitted, the protocol counts the checks that failed or left
    another artifact than the claimed one; no such check means no action; more than half of them, together with an anomaly - another artifact of
    a check that passed, or a number that is off by more than 15% of the claimed one, or of 1 if that is larger - means a slash; everything else
    opens a challenge, and no review is ever asked for.  If a check is missing the outcome is an error.  Of two results for a check the last counts. *)
Theorem replay_verdict_exact (now : Z) (job : ReplayJob) (sub : ReplaySubmission) :
  let o := Compare now job sub in let v := EvaluateOutcome o in let checks := rq_RequiredChecks (rj_reqs job) in
  let bad := length (filter (λ check, contradicted job sub check = true) checks) in
  if decide (missing_checks job sub = []) then
    rv_MismatchCount v = Z.of_nat bad ∧ negative_delta (ro_Comparisons o) = None ∧
    rv_Action v = if decide (bad = 0)%nat then "no_action"
                  else if decide (length checks < 2 * bad)%nat then (if existsb (suspicious job sub) checks then "slash_recommended" else "open_challenge") else "open_challenge"
  else ro_Status o = "error" ∧ ∃ check, check ∈ checks ∧ ∀ r, r ∈ su_CheckResults sub → sr_CheckType r ≠ check.
Proof.
  intros o v checks bad. case_decide as Hm.
  - assert (Hin : ∀ check, check ∈ checks → is_Some (submitted_index (su_CheckResults sub) !! check)) by (intros check Hc; apply submitted_index_spec; by apply (proj1 (missing_checks_spec job sub) Hm)).
    pose proof (compare_loop job sub checks [] [] Hin ltac:(constructor) ltac:(set_solver)) as Hl. destruct (comparisons_spec job sub checks Hin) as (Hlen & Hbad & Hdel). fold bad in Hbad.
    unfold v, o, Compare. rewrite decide_True by done. fold checks. destruct (foldl _ ([], []) checks) as [comps flags]. destruct Hl as (-> & Hn & Hs & Hf). cbn [app] in *.
    apply (verdict_of_comparisons now job (su_SubmitterID sub) (omap (comparison_of job sub) checks) flags bad (length checks)); [done..|]. destruct (existsb _ checks); destruct flags; naive_solver.
  - split; [unfold o, Compare; by rewrite decide_False|]. destruct (missing_checks job sub) as [|check l] eqn:E; [done|]. exists check.
    assert (Hc : check ∈ missing_checks job sub) by (rewrite E; by left). apply list_elem_of_filter in Hc as [Hc Hi]. split; [done|]. intros r Hr Hx.
    assert (is_Some (submitted_index (su_CheckResults sub) !! check)) as [? ?] by (apply submitted_index_spec; by exists r). congruence.
Qed.

(** C30: an outcome is applied once.  Take any sequence of decisions, schedules, submissions, finished outcomes and polls of the runner, one after
    the other (two that overlap can both be accepted: [DemoReplay.concurrent_outcomes]), any executor, as a function of the time and the job, and any environment.  Writes to the store may
    fail, reads do not; the jobs in the store have the ID they are stored under, the IDs that are scheduled are new and differ, and the JSON of a
    job keeps its ID and status.  Then the calls made to the tasks, the generation ledger, the slashing and the canaries are, one
    after the other, those of a list of outcomes for distinct jobs; each of these jobs was open, is closed in the end and has that outcome on
    record; and a job that is closed keeps its record and its outcome. *)
Theorem replay_applied_once {ord : RangeOrder} {St} {rst : ReplayStore St} {laws : ReplayStoreLaws St} {jobs : JsonOf ReplayJob} {jobs_json : ReplayJobJson} {outcomes : JsonOf ReplayOutcome}
    {W} (env : ReplayEnv W) (r : ReplayRunner) ops c (s : St) (w : W) :
  jobs_ok s → NoDup (ops ≫= op_schedules) → (∀ id, id ∈ ops ≫= op_schedules → rs_jobs s !! id = None) →
  let '(c', s', (w', log)) := replay_run (env := logged_env env) r ops (c, s, (w, [])) in
  (∃ applied, log = concat (calls_for (rr_enforcer r) <$> applied) ∧ NoDup (job_of <$> applied) ∧
     ∀ a, a ∈ applied → ¬ job_closed s (job_of a) ∧ job_closed s' (job_of a) ∧ ∃ data, json_marshal (ap_outcome a) = Some data ∧ GetReplayOutcome (job_of a) s' = Some data) ∧
  ∀ id, job_closed s id → GetReplayJob id s' = GetReplayJob id s ∧ GetReplayOutcome id s' = GetReplayOutcome id s.
Proof.
  intros Hok Hnd Hfresh. pose proof (run_evolves env r ops c s w [] Hok Hnd Hfresh) as H. destruct (replay_run _ _ _) as [[c' s'] [w' l']]. destruct H as [applied [H1 H2 H3 H4 H5 H6]]. split.
  - exists applied. split_and!; [done|done|]. intros a Ha. destruct (H6 a Ha) as (H7 & H8 & data & H9 & H10). split_and!; [done|done|]. exists data. by rewrite rs_get_outcome.
  - intros id Hid. rewrite !rs_get_job, !rs_get_outcome. by apply H2.
Qed.





Module DemoReplay.
#[local] Existing Instance DemoDB.demo_badger.
#[local] Existing Instance DemoDB.demo_badger_laws.
#[local] Existing Instance DemoDB.demo_badger_reads.

(** A job of a code task with two checks; the first left the artifact [h1]. *)
Definition job (id status : string) : ReplayJob :=
  mkJob id "task-1" "packet" "code" "v1" (mkRequirements "src" "contract" ["build"; "tests"] "env" "tools" [mkCommandSpec "build" ["make"] "." "a"] [mkArtifactRef "build" "binary" "h1" 10] ∅)
    "sampled" "worker" 1 zero_time status "" (mkF64 0 1) 0 (mkF64 0 1) "".

(** Status and ID as text; the other fields are always those of [job]. *)
#[global] Instance job_text : JsonOf ReplayJob := {|
  json_marshal j := Some (rj_Status j +:+ ":" +:+ rj_ID j);
  json_unmarshal data :=
    match strip_prefix "pending:" data, strip_prefix "completed:" data, strip_prefix "failed:" data with
    | Some id, _, _ => Some (job id "pending") | _, Some id, _ => Some (job id "completed") | _, _, Some id => Some (job id "failed") | _, _, _ => None end |}.

#[global] Instance job_text_ok : ReplayJobJson.
Proof.
  refine {| job_id_exact _ := True |}; [done..|]. intros j data _ Hs [= <-]. cbn [json_unmarshal job_text].
  repeat (apply elem_of_cons in Hs as [->|Hs]; [eexists; done|]). inversion Hs.
Defined.

#[global] Instance outcome_text : JsonOf ReplayOutcome := {| json_marshal o := Some (ro_Status o); json_unmarshal _ := None |}.

(** An environment where every call succeeds and no task is a canary. *)
#[global] Instance quiet_env : ReplayEnv unit := {|
  env_SetReplayStatus _ _ _ w := (w, true); env_SetGenerationStatus _ _ w := (w, true); env_RecordGeneration _ _ _ _ _ w := (w, true); env_Slash _ _ w := (w, Some 1);
  env_CanaryTask := unit; env_GetCanaryByTaskID _ _ := None; env_Evaluate _ _ _ _ w := w;
  env_GetReplayDetails _ _ := Some (mkDetails "worker" "result" "title" 100 true); env_SelectReplayExecutor _ _ _ w := (w, Some "exec-1") |}.

Definition result (check : string) (pass : bool) (hash : string) : SubmittedCheckResult := mkCheckResult check pass (if pass then 0 else 1) hash ∅ "".
Definition submission (l : list SubmittedCheckResult) : ReplaySubmission := mkSubmission "j1" "task-1" "code" "" "contract" "replayer" l 5.
Definition good : ReplaySubmission := submission [result "build" true "h1"; result "tests" true ""].
(** Another artifact, and a check that fails. *)
Definition bad : ReplaySubmission := submission [result "build" true "h2"; result "tests" false ""].

Definition db0 : DemoDB.db := (st_PutReplayJob "j1" "pending:j1" ∅).1.
Definition runner : ReplayRunner := mkRunner (λ now j, inr (Some (ie_Execute now j))) (mkEnforcer true true true) true true.
Definition start : ReplayCoordinator * DemoDB.db * (unit * list Call) := (NewReplayCoordinator DefaultReplayPolicy, db0, (tt, [])).
Definition run (ops : list replay_op) : list Call := (replay_run (env := logged_env quiet_env) runner ops start).2.2.

Lemma db0_ok : jobs_ok db0.
Proof.
  intros id data H. assert (E : rs_jobs db0 = {["j1" := "pending:j1"]}) by (vm_compute; reflexivity). rewrite E in H.
  apply lookup_singleton_Some in H as [<- <-]. clear E. exists (job "j1" "pending"). split; reflexivity.
Qed.

(** A submission that reproduces the checks, sent twice: one status, one credit. *)
Example good_runs_once : run [RSubmit 5 good; RSubmit 6 good; RPoll 7] =
  [CStatus "task-1" "replay_complete" "j1"; CGenStatus "task-1" "recognized"; CGeneration "task-1" "worker" "result" "title" 100].
Proof. vm_compute. reflexivity. Qed.

(** A submission that contradicts the claims of the worker slashes the one who submitted it. *)
Example slash_hits_the_replayer : run [RSubmit 5 bad] =
  [CStatus "task-1" "replay_disputed" "j1"; CSlash "replayer" "fraudulent_approval"; CGenStatus "task-1" "denied"].
Proof. vm_compute. reflexivity. Qed.

(** Two outcomes whose validation comes before both are stored are both accepted, and the second one replaces the first. *)
Example concurrent_outcomes :
  let o1 := Compare 5 (job "j1" "pending") good in let o2 := Compare 5 (job "j1" "pending") bad in
  ValidateOutcome o1 db0 = None ∧ ValidateOutcome o2 db0 = None ∧
  let '(d1, e1) := persist_outcome o1 db0 in let '(d2, e2) := persist_outcome o2 d1 in
  e1 = None ∧ e2 = None ∧ GetReplayOutcome "j1" d1 = Some "match" ∧ GetReplayOutcome "j1" d2 = Some "mismatch".
Proof. vm_compute. done. Qed.

(** The executor that the runner assigns to a job is not stored: after the poll any submitter is still accepted. *)
Example assigned_executor_not_stored :
  let silent := mkRunner (λ _ j, if decide (rj_AssignedExecutorID j = "exec-1") then inl tt else inr None) (mkEnforcer true true true) true true in
  let '(s, w) := processOnce (env := quiet_env) silent 5 (db0, tt) in s = db0 ∧ (sp_Process (env := quiet_env) true (mkEnforcer true true true) 6 good s w).2.1 ≠ None.
Proof. vm_compute. done. Qed.
End DemoReplay.

(** The inspection executor finds no job of a v1 code task replayable: the requirements it rebuilds have no machine-readable results. *)
Lemma code_jobs_never_replayable (now : Z) (job : ReplayJob) : rj_Category job = "code" → policy_v1 (rj_PolicyVersion job) = "v1" →
  ra_Replayable (AssessReplayability (Some (jobToReplayRequirements job)) (rj_Category job) (rj_PolicyVersion job)) = false.
Proof.
  intros Hc Hp. unfold AssessReplayability. rewrite !bool_decide_true by done. cbn [andb]. unfold assessCodeV1, assessed. rewrite decide_False; [done|].
  cbn [jobToReplayRequirements rq_MachineReadableResults]. rewrite (bool_decide_true (∅ = ∅)) by done. intros H. by repeat (apply app_nil in H as [_ H]).
Qed.

Section witnesses.
Import DemoReplay.
#[local] Existing Instance DemoDB.demo_badger.
#[local] Existing Instance DemoDB.demo_badger_laws.
#[local] Existing Instance DemoDB.demo_badger_reads.

Lemma replay_applied_once_witness : NoDup ([RSubmit 5 bad; RSchedule "t2" "p" "code" "v1" None "sampled" "a" 7; ROutcome None no_details; RPoll 9] ≫= op_schedules) ∧
  (let '(c', s', (w', log)) := replay_run (env := logged_env quiet_env) runner [RSubmit 5 bad; RSchedule "t2" "p" "code" "v1" None "sampled" "a" 7; ROutcome None no_details; RPoll 9] start in
   ∀ id, job_closed db0 id → GetReplayJob id s' = GetReplayJob id db0).
Proof.
  assert (Hnd : NoDup ([RSubmit 5 bad; RSchedule "t2" "p" "code" "v1" None "sampled" "a" 7; ROutcome None no_details; RPoll 9] ≫= op_schedules)) by (cbn; apply NoDup_singleton).
  split; [exact Hnd|]. pose proof (replay_applied_once quiet_env runner [RSubmit 5 bad; RSchedule "t2" "p" "code" "v1" None "sampled" "a" 7; ROutcome None no_details; RPoll 9]
    (NewReplayCoordinator DefaultReplayPolicy) db0 tt db0_ok Hnd) as H. unfold start. destruct (replay_run _ _ _) as [[c' s'] [w' log]].
  apply H. intros id Hid. apply list_elem_of_singleton in Hid as ->. vm_compute. reflexivity.
Defined.

End witnesses.
